(* ===== verification/_CoqProject ===== *)
-Q . S2P
Prelude.v
Ids.v
Layout.v
Checksum.v
Slotted.v
SlottedCodec.v
Utf8.v
WalRecord.v
CommitPayload.v
Recovery.v
Segment.v
Storage.v
MemoryStorage.v
ControlRecord.v
IndexEntry.v
OrderedKeys.v
IndexChange.v
PageRecord.v
OrderedTree.v
OrderedBuild.v
OrderedCow.v
OrderedRoot.v
Intents.v
TxnContext.v
WalScan.v
WalManager.v
WalTrail.v
WalTheorems.v
WalAppend.v
WalRead.v
WalRecycle.v
WalTruncate.v
Commit.v
CommitHistory.v
BufferPool.v
BufferTheorems.v
BufferDoors.v
BufferClient.v
BufferViews.v
PageChain.v
PageDoors.v
ChainTheorems.v
CommitRedo.v
RedoTheorems.v
