(* ===== verification/Prelude.v ===== *)
(** * Okto Grafx storage and index core: the verification library

    Okto Grafx (src/src/okto_grafx/) is an embedded graph database in Python.  Its storage core
    writes slotted pages and a write-ahead log through a device port, decides at start-up what of
    the log to keep, guards its control files with two alternating slots, and keeps indexes as
    trees of immutable pages.  This library models that core and proves it correct.

    ** How the parts fit

    A page ([Slotted], [SlottedCodec], over [Layout] and [Checksum]) is the unit of every data
    file.  The log is a sequence of records ([WalRecord]) in numbered segments ([Segment]); the
    payload of a commit record lists what the transaction touched ([CommitPayload]).  The log manager
    ([WalManager], its scans in [WalScan]) appends batches of records, makes them durable, reads
    them, repairs and recycles segments, and keeps an accounting of what the segments hold that it
    catches up when another process wrote.  A scan of the log feeds the recovery decision
    ([Recovery]).  Files are reached only through the storage
    port ([Storage]), which the in-memory device implements ([MemoryStorage]) and the control
    records use ([ControlRecord]).  Pages are reached through a cache with a budget ([BufferPool]),
    which lends them under pins, writes them back and forgets them ([BufferTheorems], [BufferDoors]),
    stands for a store of pages ([BufferClient]) and follows what other processes write
    ([BufferViews]).  Over the cache, a payload larger than a page is written on a chain of pages and
    read back, and the image of a page that the log carries replaces its page when it is newer
    ([PageChain], with rules in [PageDoors] and [ChainTheorems]).  Such images travel through the log
    as page writes ([PageRecord]); recovery replays those of committed transactions, which [Recovery]
    selects, and a commit applies its own ([CommitRedo], [RedoTheorems]).  A transaction stages rows, log records and page images in its
    context ([TxnContext]); at commit the staged rows are reduced to one intent each and promised
    endpoints are paired with the inserts that keep them ([Intents]).  A commit is validated against the commits
    the log holds above its snapshot and appended as one batch ([Commit]); participants over one
    device, each with its own log manager, commit one after another ([CommitHistory]).  An index holds entries ([IndexEntry]) under order-preserving
    keys ([OrderedKeys]); changes to it travel through the log ([IndexChange]); an ordered index
    is a tree of pages that is verified and read ([OrderedTree]), built in bulk ([OrderedBuild])
    and mutated by copying the pages a change touches ([OrderedCow]); its current root is the newest
    of two alternating root pages ([OrderedRoot]).

    ** Conventions

    A method is a function of the state of its object, and a method that raises answers [Err] with
    the class of the exception and the two details callers route on; effectful code over a device
    is in the monad [M] of [Storage], where a failure keeps the state reached.  A Python integer
    is a [Z], with the width checks of the source; bytes are lists of [byte]; a text is a list of
    code points.  Checks of a value's Python type (is this an [int], is it a [bool]) have no
    counterpart: the model's types rule those calls out.  Loops that are not structural take fuel,
    with a theorem that says how much is enough: [OrderedBuild.build_levels_terminates] for the
    bulk build, whose fuel is the length of its first level; [OrderedCow.collapse_succeeds] and
    [OrderedCow.mutate_ordered_tree_succeeds] for the mutation, whose loop has no bound in the source
    and may indeed run on ([OrderedCow.long_keys_never_collapse]).  The retry loops of the control
    records and of the page reads have the source's own bound; eviction takes a round for each
    resident page, and [BufferClient.make_room_returns] says that this is enough.  A redo may bridge
    [PageChain.MAX_REDO_GAP_PAGES] pages, and [PageDoors.grow_rounds_agree] says that so many rounds of
    its loop agree with any larger number; the walk of a chain has the source's own bound, a page more
    than the file has.

    ** What is proved, file by file

    - Prelude: failures, the result monad with its tactic [inv_ok], struct images ([le_pack] and
      the [struct_pack] family) and the classification of errors ([errs_in], hint database
      [errors]).
    - Ids (domain/ids.py, domain/txn/snapshot.py): references and commit stamps encode and decode
      one another; a snapshot sees one version of a chain.
    - Layout (domain/page/layout.py, overflow.py): headers, slot entries, page sizes and overflow
      chunks; every 32 bytes are the image of one header.
    - Checksum (domain/page/checksum.py): the table-driven CRC is the polynomial division, notices
      every damaged byte, and no accepted implementation can answer anything else.
    - Slotted, SlottedCodec (domain/page/slotted.py): each operation refines an abstract page of
      optional payloads; freed ids stay dead; compaction reclaims exactly the dead bytes; what is
      written is read back, and reading arbitrary bytes gives a well-formed page or a refusal.
    - Utf8: the strict codec of the language, without loss and without aliases.
    - WalRecord (domain/wal/record.py, codec.py): round trip at any offset, soundness of what is
      accepted, torn tails and damaged bytes.
    - CommitPayload (domain/wal/commit.py, domain/txn/partitions.py, commit_record.py).
    - Segment (domain/wal/segment.py, engine/coordination.py): names, and a recycled prefix never
      holds a record at or past the horizon.
    - Recovery (domain/wal/replay.py, domain/ledger/classification.py, domain/recovery/decision.py):
      every scanned item is accounted for by kind and reason, the redo list is exactly the committed effects.
    - Storage (domain/ports/storage.py): the port as a class with laws, losses of power included.
    - MemoryStorage (adapters/storage_memory.py and the name rules of adapters/storage_local.py):
      the device keeps the laws, its name space and its capacity.
    - ControlRecord (domain/control_record.py): a publication is atomic over any lawful device.
    - IndexEntry (domain/index/entry.py, visibility.py), IndexChange (domain/index/records.py),
      OrderedKeys (domain/index/ordered_keys.py and the sort key of engine/query_engine.py): codecs,
      reclamation, and that comparing keys is comparing values.
    - OrderedTree, OrderedBuild, OrderedCow (domain/index/ordered_tree.py): the verifier accepts
      exactly the valid trees; seeks and walks of an accepted tree are exact; a bulk build makes a
      valid tree of its input, succeeds when keys leave room, and its loop ends; a copy-on-write
      batch makes a valid tree of the changed contents and leaves the old tree as it was.
    - WalScan, WalManager (engine/wal_manager.py): the definitions of the log manager; a scan of any
      bytes accounts for each of them, and an interrupted write is whole records and a torn tail.
    - WalTheorems: rules for the manager's code ([at_], [bind_at]), what it means that the files of a
      device are a log ([holds]), that a manager knows it ([tracks], [synced]) or can come to know
      it ([ready]), and that passes and refreshes establish this.
    - WalTrail: what a run asked the device ([Storage.called], [Storage.reaches]), so that a segment the
      manager treats as unreadable is one whose read failed in that very run ([unread]).
    - WalAppend: an append grows the log by its batch, or leaves it as it was, or latches.
    - WalRead: reads are exact and change nothing, a latched manager appends nothing, a barrier
      after an append makes it durable, a refresh catches up.
    - WalRecycle: recycling drops segments below the horizon from the front and keeps the rest.
    - WalTruncate: over segments of any bytes, what a repair keeps wherever it stops, and that one
      that completes leaves exactly the good records of the segments it could read.
    - Commit (engine/txn_manager.py): the conflict predicate is exact, and a commit window appends its
      batch durably with nothing in conflict, or appends nothing and names a conflict that is there.
    - CommitHistory: over any interleaving of participants that read, recycle, join and commit, the
      commits are serialised by their numbers and none overwrites what it did not see.
    - BufferPool (engine/buffer_pool.py, adapters/codec_v1.py): the definitions of the page cache.
    - BufferTheorems: what a page says ([picture]) and what a pool over a device shows, the invariant
      of the pool's tables ([wf_pool]: the index of dirty candidates is exact, the budget holds), and
      the reading and publication of one page.
    - BufferDoors: loading, eviction, pins, page calls, allocation, flush, checkpoint and invalidation
      keep the invariant and what is shown, or change it as they should, on every outcome.
    - BufferClient: a pool is a store of pages over any history of requests; a checkpoint that returns
      is durable; the modified pages name every change; a write that fails can escape the index.
    - BufferViews: a read view under a true claim leaves no stale page; a refusal moves nothing.
    - PageChain (the module functions at the end of engine/buffer_pool.py): writing, building and
      reading chains of pages, growing a file, installing a redo image.
    - PageDoors: rules for pinned calls; growing a file adds blank pages and nothing else; the redo rule
      ([says], [redo]) and that an image is installed exactly by it.
    - ChainTheorems: a chain that was written, or built as images, is read back whole while its pages
      show it.
    - PageRecord (domain/txn/records.py): page writes, compressed or not, are read back as themselves,
      and a journal is written only under the flags of that journal.
    - CommitRedo (engine/commit_redo.py and [_apply_images] of engine/txn_manager.py): the redo of
      page effects from the log to the flush, and the images of a commit.
    - RedoTheorems: leaving out replaced images changes nothing; a replay of a log leaves the images of
      its committed transactions on the device and can be interrupted and resumed; the images of a
      commit are on the device when it returns.
    - OrderedRoot (domain/index/ordered_root.py): the descriptor codec, and that publishing a root on
      the page the selection names is safe against a lost or torn write.
    - Intents (domain/txn/intents.py): the reduction equals folding each row's operations in order,
      the reduced batch replays to the same rows, and the endpoint planner is exact.
    - TxnContext (domain/txn/context.py): discarding a statement restores what was staged before it,
      both budgets hold in every reachable context, a staged batch always reduces, and an ended
      transaction is final.

    ** Specifications

    [Slotted.PageSpec] (a page is a list of optional payloads), [Storage.StorageLaws] and
    [Storage.LogLaws] (what a device promises), [WalTheorems.holds] and [WalAppend.appended] (a log is
    a list of records in segments, and what an append makes of it), [Commit.answers] and
    [CommitHistory.step] (what a conflict is, and what participants do), [BufferClient.Store] with
    [BufferClient.answers] (what every place shows, who holds which page, and what a request may do to
    it), [PageDoors.redo] (an image replaces what a place says unless that covers it), [OrderedTree.ordered_tree] (a root, a height and the entries in order) and
    [OrderedCow.apply_change] (a change on a finite map of identities) and [Intents.replay] (intents
    played on a finite map of rows) are the abstract sides.

    ** Not modelled

    The query language and its engine, the model's value codecs (floating point, decimal, Unicode
    tables), temporal arithmetic, vector search, operating-system adapters, import and export, the
    command line.  Of the transaction manager, what the heap, the index, the journal and
    the lease contribute to a commit is an argument of the commit window, which is that of a commit
    with no identity range to reserve; rollback, publication and checkpoints are left out.  The recovery manager, the heap
    store and the index manager are drivers over what is here.  The buffer pool is that of a process
    whose guard cannot wait: no other thread loads or evicts while a door runs.  Its
    metrics and the adapter's cache of descriptors are left out; the theorems on
    pins and calls are about pages that are resident, not about those a read view has doomed.  The
    redo of committed records is that of a [CommitRedo] without an index manager, called without a
    checkpoint, which refuses index effects and journal pages; the schema catalogs in the images are an
    argument of it, and the registry of indexes, the scopes of watermarks, the commit catalogue and the
    proofs that hand a preflight on are left out.  zlib is a class with the law that decompression
    undoes compression ([PageRecord.Zlib]).  Of the log manager, the metrics and the memo of canonical
    records (a cache of a pure function) are left out.  Recursion limits and memory exhaustion of the interpreter are
    outside the model. *)

From stdpp Require Export prelude sorting gmap strings.
From Stdlib Require Export ZArith Lia.
From Stdlib Require Import Strings.Byte.

#[global] Open Scope Z_scope.

(** ** Failures

    The taxonomy of src/src/okto_grafx/domain/errors.py (and page/errors.py): one constructor
    per class the modelled code raises.  An error value keeps the two machine-readable details
    callers route on, [field] and [reason]; messages are not modelled.  [StructError],
    [IndexError] and [UnicodeError] are the language's own exceptions. *)

Inductive error_class :=
  | GrafxConfigurationError
  | GrafxCorruptionDetected
  | GrafxSchemaVersionMismatch
  | GrafxUnsupportedOperation
  | GrafxIndexError
  | GrafxTransactionStateError
  | GrafxTransactionBudgetExceeded
  | GrafxWriteConflict
  | GrafxStaleEpoch
  | SchemaMismatchError
  | GrafxRecoveryRefused
  | GrafxDeviceFull
  | GrafxDurabilityBarrierFailed
  | GrafxBufferBudgetExceeded
  | PageFullError
  | StructError
  | IndexError
  | UnicodeError.

#[export] Instance error_class_eq_dec : EqDecision error_class.
Proof. solve_decision. Defined.

Record error := MkError {
  err_class : error_class;
  err_field : string;
  err_reason : string
}.

#[export] Instance error_eq_dec : EqDecision error.
Proof. solve_decision. Defined.

Inductive result (A : Type) :=
  | Ok (a : A)
  | Err (e : error).
Arguments Ok {A} a.
Arguments Err {A} e.

#[export] Instance result_eq_dec {A} `{EqDecision A} : EqDecision (result A).
Proof.
  intros [a|e] [b|f]; try (right; discriminate).
  - destruct (decide (a = b)); [left|right]; congruence.
  - destruct (decide (e = f)); [left|right]; congruence.
Defined.

#[export] Instance result_ret : MRet result := @Ok.
#[export] Instance result_bind : MBind result := λ A B f m,
  match m with Ok a => f a | Err e => Err e end.
#[export] Instance result_fmap : FMap result := λ A B f m,
  match m with Ok a => Ok (f a) | Err e => Err e end.

(** [raise cls field] is Python's [raise cls(..., field=field)]; [raise_reason] is the form
    whose detail is called [reason]. *)
Definition raise {A} (c : error_class) (field : string) : result A := Err (MkError c field "").
Definition raise_reason {A} (c : error_class) (reason : string) : result A :=
  Err (MkError c "" reason).

(** A guard: continue when the condition holds, raise otherwise. *)
Definition require (b : bool) (c : error_class) (field : string) : result unit :=
  if b then Ok () else raise c field.

Definition is_ok {A} (m : result A) : bool := match m with Ok _ => true | Err _ => false end.

Fixpoint traverse {A B} (f : A → result B) (l : list A) : result (list B) :=
  match l with
  | [] => Ok []
  | x :: l => y ← f x; ys ← traverse f l; Ok (y :: ys)
  end.

Lemma bind_Ok {A B} (m : result A) (f : A → result B) b :
  m ≫= f = Ok b ↔ ∃ a, m = Ok a ∧ f a = Ok b.
Proof.
  destruct m as [x|e]; simpl; [|by split; [|intros (?&?&?)]].
  split; [by eauto|by intros (? & [= <-] & ?)].
Qed.

Lemma require_Ok (b : bool) c f u : require b c f = Ok u ↔ b = true.
Proof. unfold require, raise. destruct u, b; naive_solver. Qed.

Lemma require_true (b : bool) c f : b = true → require b c f = Ok ().
Proof. by intros ->. Qed.

Lemma traverse_Ok {A B} (f : A → result B) l ys :
  traverse f l = Ok ys ↔ Forall2 (λ x y, f x = Ok y) l ys.
Proof.
  revert ys. induction l as [|x l IH]; intros ys; simpl.
  - split; [intros [= <-]; constructor | by intros ->%Forall2_nil_inv_l].
  - rewrite bind_Ok. split.
    + intros (y & Hy & (zs & Hzs & [= <-])%bind_Ok). constructor; [done|]. by apply IH.
    + intros (y & zs & Hy & Hzs & ->)%Forall2_cons_inv_l. exists y. split; [done|].
      apply bind_Ok. exists zs. split; [by apply IH|done].
Qed.

(** [inv_ok H] peels the binds and guards of a hypothesis [m = Ok a]. *)
Ltac inv_ok_step H :=
  lazymatch type of H with
  | mbind _ _ = Ok _ =>
      apply bind_Ok in H; let x := fresh "x" in let E := fresh "E" in destruct H as (x & E & H);
      try (inv_ok_guard E)
  end
with inv_ok_guard E :=
  lazymatch type of E with
  | require _ _ _ = Ok ?u => apply require_Ok in E
  end.
Ltac inv_ok H := repeat (inv_ok_step H).

(** [errs_in P m]: every error of [m] is of a class in [P].  [classified] is the pair of classes
    the decoders promise: a caller's mistake or a finding about the bytes. *)
Definition classified (c : error_class) : Prop :=
  c = GrafxConfigurationError ∨ c = GrafxCorruptionDetected.

Definition errs_in {A} (P : error_class → Prop) (m : result A) : Prop :=
  ∀ e, m = Err e → P (err_class e).

Lemma errs_in_bind {A B} P (m : result A) (f : A → result B) :
  errs_in P m → (∀ a, m = Ok a → errs_in P (f a)) → errs_in P (m ≫= f).
Proof. intros Hm Hf e. destruct m as [a|x]; simpl; [by apply Hf|]. intros [= <-]. by apply Hm. Qed.

Lemma errs_in_Ok {A} P (a : A) : errs_in P (Ok a).
Proof. by intros e. Qed.

Lemma errs_in_raise {A} (P : error_class → Prop) c f : P c → errs_in P (@raise A c f).
Proof. by intros H e [= <-]. Qed.

Lemma errs_in_traverse {A B} P (f : A → result B) l :
  (∀ x, errs_in P (f x)) → errs_in P (traverse f l).
Proof.
  intros Hf. induction l as [|x l IH]; simpl; [apply errs_in_Ok|].
  apply errs_in_bind; [done|]. intros y _. apply errs_in_bind; [done|]. intros. apply errs_in_Ok.
Qed.

Lemma errs_in_if {A} P (b : bool) (x y : result A) : errs_in P x → errs_in P y → errs_in P (if b then x else y).
Proof. by destruct b. Qed.

Create HintDb errors.
#[export] Hint Resolve errs_in_Ok errs_in_raise errs_in_if errs_in_traverse : errors.
#[export] Hint Extern 1 (classified _) => (by left) || (by right) : errors.

Lemma filter_none {A} (P : A → Prop) `{∀ x, Decision (P x)} l :
  (∀ x, x ∈ l → ¬ P x) → filter P l = [].
Proof.
  induction l as [|x l IH]; intros Hl; [done|]. rewrite filter_cons_False.
  - apply IH. intros y Hy. apply Hl. by right.
  - apply Hl. by left.
Qed.

Lemma filter_all {A} (P : A → Prop) `{∀ x, Decision (P x)} (l : list A) :
  (∀ x, x ∈ l → P x) → filter P l = l.
Proof.
  induction l as [|x l IH]; intros Hl; [done|]. rewrite filter_cons_True.
  - f_equal. apply IH. intros y Hy. apply Hl. by right.
  - apply Hl. by left.
Qed.

Lemma filter_ext_in {A} (P Q : A → Prop) `{∀ x, Decision (P x)} `{∀ x, Decision (Q x)} (l : list A) :
  (∀ x, x ∈ l → P x ↔ Q x) → filter P l = filter Q l.
Proof.
  induction l as [|x l IH]; intros Hl; [done|]. rewrite !filter_cons.
  rewrite IH by (intros y Hy; apply Hl; by right).
  pose proof (Hl x ltac:(by left)). repeat case_decide; tauto.
Qed.

(** Two predicates that exclude each other split a filter. *)
Lemma filter_or_perm {A} (P Q R : A → Prop) `{∀ x, Decision (P x)} `{∀ x, Decision (Q x)}
    `{∀ x, Decision (R x)} (l : list A) :
  (∀ x, x ∈ l → R x ↔ P x ∨ Q x) → (∀ x, x ∈ l → ¬ (P x ∧ Q x)) →
  filter R l ≡ₚ filter P l ++ filter Q l.
Proof.
  induction l as [|x l IH]; intros Hor Hand; [done|]. rewrite !filter_cons.
  pose proof (Hor x ltac:(by left)). pose proof (Hand x ltac:(by left)).
  assert (filter R l ≡ₚ filter P l ++ filter Q l) as IH'.
  { apply IH; intros y Hy; [apply Hor|apply Hand]; by right. }
  repeat case_decide; try tauto; rewrite IH'; [done|]. by rewrite Permutation_middle.
Qed.

(** ** Bit packing

    Shifting the high part left and combining the low part in is plain positional notation. *)

Lemma land_shiftl_low k hi lo : 0 <= k → 0 <= lo < 2 ^ k → Z.land (Z.shiftl hi k) lo = 0.
Proof.
  intros Hk Hlo. apply Z.bits_inj'. intros n Hn. rewrite Z.land_spec, Z.bits_0.
  destruct (Z.ltb_spec n k).
  - by rewrite Z.shiftl_spec_low by lia.
  - rewrite <-(Z.mod_small lo (2 ^ k)) by done.
    rewrite Z.mod_pow2_bits_high by lia. apply andb_false_r.
Qed.

Lemma lxor_high_low k hi lo :
  0 <= k → 0 <= lo < 2 ^ k → Z.lxor (Z.shiftl hi k) lo = hi * 2 ^ k + lo.
Proof.
  intros. rewrite <-Z.add_nocarry_lxor by (by apply land_shiftl_low).
  by rewrite Z.shiftl_mul_pow2 by lia.
Qed.

Lemma pack_high_low k hi lo :
  0 <= k → 0 <= lo < 2 ^ k → Z.lor (Z.shiftl hi k) lo = hi * 2 ^ k + lo.
Proof.
  intros. rewrite <-Z.lxor_lor by (by apply land_shiftl_low). by apply lxor_high_low.
Qed.

Lemma shiftr_high_low k hi lo : 0 <= k → 0 <= lo < 2 ^ k → Z.shiftr (hi * 2 ^ k + lo) k = hi.
Proof.
  intros. rewrite Z.shiftr_div_pow2, Z.add_comm, Z.div_add by lia.
  by rewrite Z.div_small by lia.
Qed.

Lemma land_high_low k hi lo :
  0 <= k → 0 <= lo < 2 ^ k → Z.land (hi * 2 ^ k + lo) (Z.ones k) = lo.
Proof.
  intros. rewrite Z.land_ones, Z.add_comm, Z.mod_add by lia. by apply Z.mod_small.
Qed.

(** ** Python byte strings

    A [bytes] / [bytearray] is a list of bytes; a Python [int] is a [Z]. *)

Abbreviation byte := Byte.byte.
Abbreviation bytes := (list byte).

#[export] Instance byte_eq_dec : EqDecision byte := Byte.byte_eq_dec.

Definition Z_of_byte (b : byte) : Z := Z.of_N (Byte.to_N b).
Definition byte_of_Z (z : Z) : byte := default Byte.x00 (Byte.of_N (Z.to_N (z mod 256))).

Definition zlen {A} (l : list A) : Z := Z.of_nat (length l).
Definition zeros (n : Z) : bytes := replicate (Z.to_nat n) Byte.x00.

(** [l[a:b]] and the slice assignment [l[a:b] = c], for non-negative [a] and [b]. *)
Definition slice {A} (l : list A) (a b : Z) : list A :=
  take (Z.to_nat (b - a)) (drop (Z.to_nat a) l).
Definition set_slice {A} (l : list A) (a b : Z) (c : list A) : list A :=
  take (Z.to_nat a) l ++ c ++ drop (Z.to_nat (Z.max a b)) l.

Lemma Z_of_byte_range b : 0 <= Z_of_byte b < 256.
Proof. unfold Z_of_byte. pose proof (Byte.to_N_bounded b). lia. Qed.

Lemma Z_of_byte_of_Z z : Z_of_byte (byte_of_Z z) = z mod 256.
Proof.
  unfold Z_of_byte, byte_of_Z.
  pose proof (Z.mod_pos_bound z 256 ltac:(lia)).
  destruct (Byte.of_N (Z.to_N (z mod 256))) as [b|] eqn:E; simpl.
  - apply Byte.to_of_N in E. rewrite E. lia.
  - apply Byte.of_N_None_iff in E. lia.
Qed.

Lemma byte_of_Z_of_byte b : byte_of_Z (Z_of_byte b) = b.
Proof.
  unfold byte_of_Z. rewrite Z.mod_small by apply Z_of_byte_range.
  unfold Z_of_byte. rewrite N2Z.id, Byte.of_to_N. done.
Qed.

#[export] Instance Z_of_byte_inj : Inj (=) (=) Z_of_byte.
Proof. intros a b H. by rewrite <-(byte_of_Z_of_byte a), H, byte_of_Z_of_byte. Qed.

(** *** Slices *)

Section slices.
Context {A : Type}.
Implicit Types (l c : list A) (a b i : Z).

Lemma zlen_nil {B} : zlen (@nil B) = 0.
Proof. done. Qed.
Lemma zlen_cons (x : A) l : zlen (x :: l) = 1 + zlen l.
Proof. unfold zlen. simpl. lia. Qed.
Lemma zlen_app l c : zlen (l ++ c) = zlen l + zlen c.
Proof. unfold zlen. rewrite length_app. lia. Qed.
Lemma zlen_nonneg l : 0 <= zlen l.
Proof. unfold zlen. lia. Qed.

Lemma lookup_slice l a b n :
  0 <= a → slice l a b !! n =
    if decide (a + Z.of_nat n < b) then l !! (Z.to_nat a + n)%nat else None.
Proof.
  intros Ha. unfold slice. case_decide.
  - rewrite lookup_take_lt by lia. apply lookup_drop.
  - apply lookup_take_ge. lia.
Qed.

Lemma zlen_slice l a b : 0 <= a → a <= b → b <= zlen l → zlen (slice l a b) = b - a.
Proof. unfold zlen, slice. intros. rewrite length_take, length_drop. lia. Qed.

Lemma zlen_set_slice l a b c :
  0 <= a → a <= b → b <= zlen l → zlen c = b - a → zlen (set_slice l a b c) = zlen l.
Proof.
  unfold zlen, set_slice. intros. rewrite !length_app, length_take, length_drop. lia.
Qed.

Lemma lookup_set_slice l a b c n :
  0 <= a → a <= b → b <= zlen l → zlen c = b - a →
  set_slice l a b c !! n =
    if decide (a <= Z.of_nat n < b) then c !! (n - Z.to_nat a)%nat else l !! n.
Proof.
  unfold zlen, set_slice. intros Ha Hab Hb Hc.
  destruct (decide (Z.of_nat n < a)).
  - rewrite lookup_app_l by (rewrite length_take; lia).
    rewrite lookup_take_lt by lia. by rewrite decide_False by lia.
  - rewrite lookup_app_r by (rewrite length_take; lia).
    rewrite length_take, Nat.min_l by lia. case_decide.
    + by rewrite lookup_app_l by lia.
    + rewrite lookup_app_r, lookup_drop by lia. f_equal. lia.
Qed.

(** Reading back what was written, and reading elsewhere. *)
Lemma slice_set_slice_eq l a b c :
  0 <= a → a <= b → b <= zlen l → zlen c = b - a → slice (set_slice l a b c) a b = c.
Proof.
  intros. apply list_eq. intros n. rewrite lookup_slice by lia. case_decide.
  - rewrite lookup_set_slice, decide_True by lia. f_equal. lia.
  - symmetry. apply lookup_ge_None. unfold zlen in *. lia.
Qed.

Lemma slice_set_slice_disjoint l a b c x y :
  0 <= a → a <= b → b <= zlen l → zlen c = b - a → 0 <= x → y <= a ∨ b <= x →
  slice (set_slice l a b c) x y = slice l x y.
Proof.
  intros. apply list_eq. intros n. rewrite !lookup_slice by lia.
  case_decide; [|done]. rewrite lookup_set_slice, decide_False by lia. done.
Qed.

Lemma slice_empty l a b : b <= a → slice l a b = [].
Proof. intros. unfold slice. by replace (Z.to_nat (b - a)) with 0%nat by lia. Qed.

Lemma slice_full l n : n = zlen l → slice l 0 n = l.
Proof.
  intros ->. unfold slice, zlen. rewrite drop_0. apply take_ge. lia.
Qed.

Lemma slice_app_l l c a b : 0 <= a → b <= zlen l → slice (l ++ c) a b = slice l a b.
Proof.
  unfold zlen. intros. apply list_eq. intros n. rewrite !lookup_slice by lia.
  case_decide; [|done]. by rewrite lookup_app_l by lia.
Qed.

Lemma slice_app_r l c a b :
  zlen l <= a → slice (l ++ c) a b = slice c (a - zlen l) (b - zlen l).
Proof.
  unfold zlen. intros. apply list_eq. intros n. rewrite !lookup_slice by lia.
  repeat case_decide; try lia; [|done]. rewrite lookup_app_r by lia. f_equal. lia.
Qed.

Lemma slice_app_middle l c r a b :
  a = zlen l → b = a + zlen c → slice (l ++ c ++ r) a b = c.
Proof.
  intros -> ->. rewrite slice_app_r by lia. rewrite slice_app_l by lia.
  rewrite Z.sub_diag. apply slice_full. lia.
Qed.

Lemma slice_slice l a b x y :
  0 <= a → 0 <= x → y <= b - a → slice (slice l a b) x y = slice l (a + x) (a + y).
Proof.
  intros. apply list_eq. intros n. rewrite !lookup_slice by lia.
  repeat case_decide; try lia; try done. f_equal. lia.
Qed.

Lemma slice_split l a b (d : Z) :
  0 <= a → a <= b → b <= d → slice l a d = slice l a b ++ slice l b d.
Proof.
  intros. unfold slice.
  replace (Z.to_nat (d - a)) with (Z.to_nat (b - a) + Z.to_nat (d - b))%nat by lia.
  rewrite <-take_take_drop, drop_drop.
  by replace (Z.to_nat a + Z.to_nat (b - a))%nat with (Z.to_nat b) by lia.
Qed.

(** A slice that avoids one position does not see what stands there. *)
Lemma slice_one_changed l r (x y : A) a b :
  0 <= a → b <= zlen l ∨ zlen l < a → slice (l ++ x :: r) a b = slice (l ++ y :: r) a b.
Proof.
  unfold zlen. intros Ha Hab. apply list_eq. intros n. rewrite !lookup_slice by lia.
  case_decide; [|done]. destruct (decide (Z.to_nat a + n < length l)%nat).
  - by rewrite !lookup_app_l by lia.
  - rewrite !lookup_app_r by lia. by destruct (Z.to_nat a + n - length l)%nat eqn:E; [lia|].
Qed.

Lemma set_slice_app_here l c r d : zlen d = zlen c →
  set_slice (l ++ c ++ r) (zlen l) (zlen l + zlen c) d = l ++ d ++ r.
Proof.
  unfold zlen, set_slice. intros. rewrite take_app_length' by lia. do 2 f_equal.
  rewrite app_assoc, drop_app_length' by (rewrite length_app; lia). done.
Qed.
End slices.

Lemma zlen_zeros n : 0 <= n → zlen (zeros n) = n.
Proof. unfold zlen, zeros. intros. rewrite length_replicate. lia. Qed.

Lemma zeros_app a b : 0 <= a → 0 <= b → zeros (a + b) = zeros a ++ zeros b.
Proof. unfold zeros. intros. rewrite Z2Nat.inj_add by lia. apply replicate_add. Qed.

(** [range(start, stop, step)] for a positive step. *)
Definition py_range (start stop step : Z) : list Z :=
  (λ i, start + step * Z.of_nat i) <$> seq 0 (Z.to_nat ((stop - start + step - 1) / step)).

(** ** Little-endian integers *)

Fixpoint le_pack (n : nat) (v : Z) : bytes :=
  match n with
  | O => []
  | S n => byte_of_Z v :: le_pack n (v / 256)
  end.

Fixpoint le_unpack (bs : bytes) : Z :=
  match bs with
  | [] => 0
  | b :: bs => Z_of_byte b + 256 * le_unpack bs
  end.

Lemma length_le_pack n v : length (le_pack n v) = n.
Proof. revert v. induction n; simpl; auto. Qed.

Lemma zlen_le_pack n v : zlen (le_pack n v) = Z.of_nat n.
Proof. unfold zlen. by rewrite length_le_pack. Qed.

Lemma pow256_S n : 256 ^ Z.of_nat (S n) = 256 * 256 ^ Z.of_nat n.
Proof. rewrite Nat2Z.inj_succ, Z.pow_succ_r by lia. done. Qed.

Lemma le_unpack_pack n v : 0 <= v < 256 ^ Z.of_nat n → le_unpack (le_pack n v) = v.
Proof.
  revert v. induction n as [|n IH]; intros v Hv; simpl le_pack; simpl le_unpack.
  { change (256 ^ Z.of_nat 0) with 1 in Hv. lia. }
  rewrite pow256_S in Hv. rewrite Z_of_byte_of_Z, IH.
  - pose proof (Z.div_mod v 256). lia.
  - split; [apply Z.div_pos; lia | apply Z.div_lt_upper_bound; lia].
Qed.

Lemma le_unpack_range bs : 0 <= le_unpack bs < 256 ^ zlen bs.
Proof.
  induction bs as [|b bs IH]; [done|]. simpl le_unpack. unfold zlen in *. simpl length.
  rewrite pow256_S. pose proof (Z_of_byte_range b). lia.
Qed.

Lemma le_pack_unpack bs : le_pack (length bs) (le_unpack bs) = bs.
Proof.
  induction bs as [|b bs IH]; [done|]. simpl.
  pose proof (Z_of_byte_range b). pose proof (le_unpack_range bs).
  f_equal.
  - apply (inj Z_of_byte). rewrite Z_of_byte_of_Z.
    rewrite (Z.mul_comm 256), Z.mod_add by lia. apply Z.mod_small. lia.
  - rewrite (Z.mul_comm 256), Z.div_add by lia. rewrite Z.div_small, Z.add_0_l by lia. done.
Qed.

Lemma le_pack_inj n v w :
  0 <= v < 256 ^ Z.of_nat n → 0 <= w < 256 ^ Z.of_nat n → le_pack n v = le_pack n w → v = w.
Proof. intros Hv Hw E. by rewrite <-(le_unpack_pack n v), E, le_unpack_pack. Qed.

(** ** The [struct] module

    A little-endian format string without padding is a list of fields: [U n] is an unsigned
    integer of [n] bytes (codes B, H, I, Q) and [Raw n] is the code [ns].  Packing refuses an
    integer outside its width and unpacking refuses a short buffer, both with [struct.error]. *)

Inductive field := U (n : nat) | Raw (n : nat).

Definition width (f : field) : nat := match f with U n | Raw n => n end.

Definition fval (f : field) : Type := match f with U _ => Z | Raw _ => bytes end.

Fixpoint fvals (fmt : list field) : Type :=
  match fmt with
  | [] => unit
  | f :: fmt => (fval f * fvals fmt)%type
  end.

Fixpoint struct_size (fmt : list field) : nat :=
  match fmt with [] => 0 | f :: fmt => width f + struct_size fmt end%nat.

(** [s] codes truncate or pad with zero bytes; integers must fit. *)
Definition pack_field (f : field) : fval f → result bytes :=
  match f return fval f → result bytes with
  | U n => λ v, if (0 <=? v) && (v <? 256 ^ Z.of_nat n) then Ok (le_pack n v)
                else raise StructError ""
  | Raw n => λ b, Ok (take n b ++ replicate (n - length b) Byte.x00)
  end.

Definition unpack_field (f : field) : bytes → fval f :=
  match f return bytes → fval f with U _ => le_unpack | Raw _ => λ b, b end.

Definition field_fits (f : field) : fval f → Prop :=
  match f return fval f → Prop with
  | U n => λ v, 0 <= v < 256 ^ Z.of_nat n
  | Raw n => λ b, length b = n
  end.

Fixpoint struct_fits (fmt : list field) : fvals fmt → Prop :=
  match fmt return fvals fmt → Prop with
  | [] => λ _, True
  | f :: fmt => λ v, field_fits f v.1 ∧ struct_fits fmt v.2
  end.

Fixpoint struct_pack (fmt : list field) : fvals fmt → result bytes :=
  match fmt return fvals fmt → result bytes with
  | [] => λ _, Ok []
  | f :: fmt => λ v, b ← pack_field f v.1; bs ← struct_pack fmt v.2; Ok (b ++ bs)
  end.

Fixpoint unpack_prefix (fmt : list field) (raw : bytes) : fvals fmt :=
  match fmt return fvals fmt with
  | [] => ()
  | f :: fmt => (unpack_field f (take (width f) raw), unpack_prefix fmt (drop (width f) raw))
  end.

Definition struct_unpack_from (fmt : list field) (raw : bytes) (off : Z) : result (fvals fmt) :=
  if Z.of_nat (struct_size fmt) <=? zlen raw - off
  then Ok (unpack_prefix fmt (drop (Z.to_nat off) raw))
  else raise StructError "".

Lemma pack_field_fits f v : field_fits f v → ∃ b,
  pack_field f v = Ok b ∧ length b = width f ∧ unpack_field f b = v.
Proof.
  destruct f as [n|n]; simpl; intros H.
  - exists (le_pack n v). rewrite length_le_pack, le_unpack_pack by lia.
    by rewrite (proj2 (andb_true_iff _ _)) by lia.
  - exists v. rewrite take_ge, H, Nat.sub_diag by lia. simpl. by rewrite app_nil_r.
Qed.

Lemma pack_field_width f v b : pack_field f v = Ok b → length b = width f.
Proof.
  destruct f as [n|n]; simpl.
  - case_match; intros [= <-]. apply length_le_pack.
  - intros [= <-]. rewrite length_app, length_take, length_replicate. lia.
Qed.

Lemma struct_pack_ok fmt v : struct_fits fmt v → ∃ b,
  struct_pack fmt v = Ok b ∧ length b = struct_size fmt ∧
  ∀ rest, unpack_prefix fmt (b ++ rest) = v.
Proof.
  induction fmt as [|f fmt IH]; simpl; intros Hfit.
  { exists []. destruct v. done. }
  destruct v as [v vs], Hfit as [(b & Hb & Hl & Hu)%pack_field_fits (bs & Hbs & Hls & Hus)%IH].
  simpl in *. exists (b ++ bs). rewrite Hb. simpl. rewrite Hbs. simpl. split; [done|]. split.
  { rewrite length_app. lia. }
  intros rest. rewrite <-app_assoc, take_app_length', drop_app_length', Hu, Hus by done. done.
Qed.

Lemma struct_pack_length fmt v b : struct_pack fmt v = Ok b → length b = struct_size fmt.
Proof.
  revert b. induction fmt as [|f fmt IH]; simpl; intros b H.
  { by injection H as <-. }
  inv_ok H. apply pack_field_width in E. apply IH in E0. injection H as <-.
  rewrite length_app. lia.
Qed.

Lemma struct_unpack_from_app fmt pre b rest v :
  struct_pack fmt v = Ok b → struct_fits fmt v →
  struct_unpack_from fmt (pre ++ b ++ rest) (zlen pre) = Ok v.
Proof.
  intros Hp (b' & Hb & Hl & Hu)%struct_pack_ok. rewrite Hp in Hb. injection Hb as <-.
  unfold struct_unpack_from. rewrite !zlen_app.
  rewrite (proj2 (Z.leb_le _ _)) by (unfold zlen; lia).
  unfold zlen. rewrite Nat2Z.id, drop_app_length. by rewrite Hu.
Qed.

Lemma unpack_prefix_fits fmt raw :
  (struct_size fmt <= length raw)%nat → struct_fits fmt (unpack_prefix fmt raw).
Proof.
  revert raw. induction fmt as [|f fmt IH]; simpl; intros raw H; [done|]. split.
  - destruct f as [n|n]; simpl in *; [|rewrite length_take; lia].
    pose proof (le_unpack_range (take n raw)) as R. unfold zlen in R.
    rewrite length_take, Nat.min_l in R by lia. done.
  - apply IH. rewrite length_drop. lia.
Qed.

(** Unpacking loses nothing: packing the fields gives back the bytes. *)
Lemma struct_pack_unpack fmt raw :
  (struct_size fmt <= length raw)%nat →
  struct_pack fmt (unpack_prefix fmt raw) = Ok (take (struct_size fmt) raw).
Proof.
  revert raw. induction fmt as [|f fmt IH]; simpl; intros raw H.
  { by rewrite take_0. }
  assert (pack_field f (unpack_field f (take (width f) raw)) = Ok (take (width f) raw)) as ->.
  { destruct f as [n|n]; simpl in *.
    - pose proof (le_unpack_range (take n raw)) as R. unfold zlen in R.
      rewrite length_take, Nat.min_l in R by lia.
      rewrite (proj2 (andb_true_iff _ _)) by lia. f_equal.
      rewrite <-(le_pack_unpack (take n raw)) at 2.
      by rewrite length_take, Nat.min_l by lia.
    - rewrite take_take, Nat.min_id, length_take, Nat.min_l, Nat.sub_diag by lia.
      simpl. by rewrite app_nil_r. }
  simpl. rewrite IH by (rewrite length_drop; lia). simpl. f_equal. apply take_take_drop.
Qed.

(** The bytes of a list of fields that fit. *)
Fixpoint struct_image (fmt : list field) : fvals fmt → bytes :=
  match fmt return fvals fmt → bytes with
  | [] => λ _, []
  | U n :: fmt => λ v, le_pack n v.1 ++ struct_image fmt v.2
  | Raw n :: fmt => λ v, v.1 ++ struct_image fmt v.2
  end.

Lemma struct_pack_image fmt v : struct_fits fmt v → struct_pack fmt v = Ok (struct_image fmt v).
Proof.
  induction fmt as [|[n|n] fmt IH]; simpl; intros Hf; [done|..]; destruct Hf as [Hv Hvs].
  - rewrite (proj2 (andb_true_iff _ _)) by lia. simpl. by rewrite IH.
  - rewrite take_ge, Hv, Nat.sub_diag by lia. simpl. by rewrite app_nil_r, IH.
Qed.

Lemma zlen_struct_image fmt v : struct_fits fmt v → zlen (struct_image fmt v) = Z.of_nat (struct_size fmt).
Proof.
  intros H. apply struct_pack_image, struct_pack_length in H. unfold zlen. by rewrite H.
Qed.

Lemma struct_unpack_image fmt v pre rest :
  struct_fits fmt v → struct_unpack_from fmt (pre ++ struct_image fmt v ++ rest) (zlen pre) = Ok v.
Proof. intros H. apply struct_unpack_from_app; [by apply struct_pack_image|done]. Qed.

Lemma struct_unpack_image_0 fmt v rest :
  struct_fits fmt v → struct_unpack_from fmt (struct_image fmt v ++ rest) 0 = Ok v.
Proof. apply (struct_unpack_image fmt v []). Qed.

Lemma struct_unpack_from_Ok fmt raw off v :
  0 <= off → struct_unpack_from fmt raw off = Ok v →
  struct_fits fmt v ∧ off + Z.of_nat (struct_size fmt) <= zlen raw ∧
  struct_image fmt v = slice raw off (off + Z.of_nat (struct_size fmt)).
Proof.
  unfold struct_unpack_from. intros Hoff. case_match eqn:E; [|done]. intros [= <-].
  assert (struct_size fmt <= length (drop (Z.to_nat off) raw))%nat as Hl.
  { rewrite length_drop. unfold zlen in E. lia. }
  pose proof (unpack_prefix_fits fmt _ Hl) as Hf. split; [done|]. split; [lia|].
  pose proof (struct_pack_unpack fmt _ Hl) as Hp. rewrite struct_pack_image in Hp by done.
  injection Hp as ->. unfold slice. f_equal. lia.
Qed.

Lemma struct_unpack_from_enough fmt raw off :
  Z.of_nat (struct_size fmt) <= zlen raw - off → ∃ v, struct_unpack_from fmt raw off = Ok v.
Proof. unfold struct_unpack_from. intros. rewrite (proj2 (Z.leb_le _ _)) by lia. eauto. Qed.

(** [for _ in range(n): out.append(fmt.unpack_from(view, offset)); offset += fmt.size]. *)
Fixpoint unpack_each (fmt : list field) (n : nat) (raw : bytes) (offset : Z)
    : result (list (fvals fmt)) :=
  match n with
  | O => Ok []
  | S n =>
      v ← struct_unpack_from fmt raw offset;
      vs ← unpack_each fmt n raw (offset + Z.of_nat (struct_size fmt));
      Ok (v :: vs)
  end.

Lemma unpack_each_image fmt vs pre rest :
  Forall (struct_fits fmt) vs →
  unpack_each fmt (length vs) (pre ++ concat (struct_image fmt <$> vs) ++ rest) (zlen pre) = Ok vs.
Proof.
  intros H. revert pre. induction H as [|v vs Hv _ IH]; intros pre; [done|].
  cbn [length unpack_each]. rewrite fmap_cons.
  change (concat (struct_image fmt v :: ?l)) with (struct_image fmt v ++ concat l).
  rewrite <-app_assoc, struct_unpack_image by done. cbn [mbind result_bind].
  rewrite app_assoc. replace (zlen pre + Z.of_nat (struct_size fmt)) with (zlen (pre ++ struct_image fmt v)).
  - by rewrite IH.
  - by rewrite zlen_app, zlen_struct_image.
Qed.

Lemma unpack_each_inv fmt n raw off vs :
  0 <= off → off <= zlen raw → unpack_each fmt n raw off = Ok vs →
  Forall (struct_fits fmt) vs ∧ length vs = n ∧
  off + Z.of_nat n * Z.of_nat (struct_size fmt) <= zlen raw ∧
  concat (struct_image fmt <$> vs) = slice raw off (off + Z.of_nat n * Z.of_nat (struct_size fmt)).
Proof.
  revert off vs. induction n as [|n IH]; intros off vs Hoff Hle H; cbn [unpack_each] in H.
  { injection H as <-. split_and!; [done|done|lia|]. rewrite slice_empty by lia. done. }
  inv_ok H. injection H as <-. apply struct_unpack_from_Ok in E as (Hf & Hl & Himg); [|done].
  apply IH in E0 as (Hfs & Hn & Hl' & Himg'); [|lia..].
  split_and!; [by constructor|simpl; by rewrite Hn|lia|].
  rewrite fmap_cons. change (concat (struct_image fmt x :: ?l)) with (struct_image fmt x ++ concat l).
  rewrite Himg, Himg'. rewrite <-slice_split by lia. f_equal. lia.
Qed.

Lemma unpack_each_enough fmt n raw off :
  0 <= off → off + Z.of_nat n * Z.of_nat (struct_size fmt) <= zlen raw →
  ∃ vs, unpack_each fmt n raw off = Ok vs.
Proof.
  revert off. induction n as [|n IH]; intros off Hoff Hl; cbn [unpack_each]; [by eexists|].
  destruct (struct_unpack_from_enough fmt raw off) as [v ->]; [lia|]. cbn [mbind result_bind].
  destruct (IH (off + Z.of_nat (struct_size fmt))) as [vs ->]; [lia..|]. by eexists.
Qed.

Lemma traverse_pack_image {A} fmt (f : A → fvals fmt) l :
  Forall (λ x, struct_fits fmt (f x)) l →
  traverse (λ x, struct_pack fmt (f x)) l = Ok ((λ x, struct_image fmt (f x)) <$> l).
Proof.
  intros H. apply traverse_Ok. induction H; constructor; [by apply struct_pack_image|done].
Qed.

Lemma zlen_concat_images {A} fmt (f : A → fvals fmt) l :
  Forall (λ x, struct_fits fmt (f x)) l →
  zlen (concat ((λ x, struct_image fmt (f x)) <$> l)) = Z.of_nat (struct_size fmt) * zlen l.
Proof.
  induction 1 as [|x l Hx _ IH]; [unfold zlen; simpl; lia|].
  rewrite fmap_cons. change (concat (?y :: ?k)) with (y ++ concat k).
  rewrite zlen_app, IH, zlen_struct_image, zlen_cons by done. lia.
Qed.

Arguments le_pack : simpl never.
Arguments le_unpack : simpl never.
Arguments struct_image : simpl never.
Arguments struct_pack : simpl never.
Arguments struct_unpack_from : simpl never.
Arguments slice : simpl never.
Arguments set_slice : simpl never.
Arguments zeros : simpl never.

(** [solve_fits] proves that concrete fields fit a concrete format. *)
Ltac pow256 :=
  change (256 ^ Z.of_nat 1) with 256 in *;
  change (256 ^ Z.of_nat 2) with 65536 in *;
  change (256 ^ Z.of_nat 4) with 4294967296 in *;
  change (256 ^ Z.of_nat 8) with 18446744073709551616 in *.
Ltac solve_fits :=
  try match goal with |- struct_fits ?fmt _ => unfold fmt end;
  cbn [struct_fits field_fits fst snd] in *; pow256; repeat split; try done; try lia.
