(* ===== verification/Ids.v ===== *)
(** Identifiers, commit stamps and snapshots: src/src/okto_grafx/domain/ids.py and
    src/src/okto_grafx/domain/txn/snapshot.py.

    [RecordRef] packs a page and a slot in one integer; commit numbers have a reserved
    provisional value; a [Snapshot] is one read position with the visibility predicate.  The
    [SnapshotLike] class is the structural protocol of domain/index/visibility.py through which
    the index layer asks a snapshot for visibility. *)

From S2P Require Import Prelude.

(** ** Constants *)

Definition NO_LSN : Z := 0.
Definition NO_CSN : Z := 0.
Definition PROVISIONAL_CSN : Z := 0xFFFFFFFFFFFFFFFF.
Definition NO_PAGE : Z := 0xFFFFFFFF.
Definition MAX_PAGE_INDEX : Z := 0xFFFFFFFF.
Definition MAX_SLOT_ID : Z := 0xFFFF.
Definition SLOT_BITS : Z := 16.
Definition MAX_ENCODED : Z := Z.lor (Z.shiftl MAX_PAGE_INDEX SLOT_BITS) MAX_SLOT_ID.

(** ** Commit stamps *)

Definition is_provisional_csn (value : Z) : bool := value =? PROVISIONAL_CSN.

Definition is_committed_csn (value : Z) : bool :=
  (NO_CSN <? value) && (value <? PROVISIONAL_CSN).

Definition is_open_end_csn (value : Z) : bool :=
  (value =? NO_CSN) || (value =? PROVISIONAL_CSN).

(** ** Record references *)

Module RecordRef.

Record t := Mk { page : Z; slot : Z }.

#[export] Instance eq_dec : EqDecision t.
Proof. solve_decision. Defined.

Definition encode (r : t) : result Z :=
  if negb ((0 <=? page r) && (page r <=? MAX_PAGE_INDEX))
     || negb ((0 <=? slot r) && (slot r <=? MAX_SLOT_ID))
  then raise GrafxCorruptionDetected ""
  else Ok (Z.lor (Z.shiftl (page r) SLOT_BITS) (slot r)).

Definition require_decodable_ref (raw : Z) : result Z :=
  if negb ((0 <=? raw) && (raw <=? MAX_ENCODED)) then raise GrafxCorruptionDetected ""
  else Ok raw.

Definition decode (raw : Z) : result t :=
  raw ← require_decodable_ref raw;
  Ok (Mk (Z.shiftr raw SLOT_BITS) (Z.land raw MAX_SLOT_ID)).

Definition NULL_REF : t := Mk NO_PAGE 0.

(** The references whose fields fit their widths. *)
Definition valid (r : t) : Prop :=
  0 <= page r <= MAX_PAGE_INDEX ∧ 0 <= slot r <= MAX_SLOT_ID.

End RecordRef.

(** ** Snapshots *)

Class SnapshotLike (S : Type) := snapshot_visible : S → Z → Z → bool.

Module Snapshot.

Record t := Mk { read_lsn : Z }.

(** [Snapshot(read_lsn)], with the refusals of [__post_init__]. *)
Definition make (value : Z) : result t :=
  if value <? NO_CSN then raise GrafxConfigurationError "read_lsn"
  else if PROVISIONAL_CSN <=? value then raise GrafxConfigurationError "read_lsn"
  else Ok (Mk value).

Definition visible (s : t) (xmin xmax : Z) : bool :=
  is_committed_csn xmin && (xmin <=? read_lsn s)
  && (is_open_end_csn xmax || (read_lsn s <? xmax)).

End Snapshot.

#[export] Instance snapshot_like : SnapshotLike Snapshot.t := Snapshot.visible.

(** ** Lemmas *)

Lemma record_ref_encode_ok r :
  RecordRef.valid r →
  RecordRef.encode r = Ok (RecordRef.page r * 2 ^ 16 + RecordRef.slot r).
Proof.
  intros [Hp Hs]. unfold RecordRef.encode, MAX_PAGE_INDEX, MAX_SLOT_ID in *.
  replace (negb _ || negb _) with false by (symmetry; apply orb_false_iff; lia).
  unfold SLOT_BITS. rewrite pack_high_low by lia. done.
Qed.

Lemma record_ref_encode_inv r raw :
  RecordRef.encode r = Ok raw → RecordRef.valid r.
Proof.
  unfold RecordRef.encode, RecordRef.valid. case_match eqn:E; [done|]. intros _.
  apply orb_false_iff in E. lia.
Qed.

Lemma record_ref_decode_ok hi lo :
  0 <= hi <= MAX_PAGE_INDEX → 0 <= lo <= MAX_SLOT_ID →
  RecordRef.decode (hi * 2 ^ 16 + lo) = Ok (RecordRef.Mk hi lo).
Proof.
  unfold MAX_PAGE_INDEX, MAX_SLOT_ID. intros Hp Hs.
  unfold RecordRef.decode, RecordRef.require_decodable_ref.
  change MAX_ENCODED with 0xFFFFFFFFFFFF.
  replace (negb _) with false by lia. simpl.
  unfold SLOT_BITS. rewrite shiftr_high_low by lia.
  change MAX_SLOT_ID with (Z.ones 16). rewrite land_high_low by lia. done.
Qed.

Lemma record_ref_decode_inv raw r :
  RecordRef.decode raw = Ok r →
  RecordRef.valid r ∧ raw = RecordRef.page r * 2 ^ 16 + RecordRef.slot r.
Proof.
  unfold RecordRef.decode, RecordRef.require_decodable_ref. case_match eqn:E; [done|].
  change MAX_ENCODED with 0xFFFFFFFFFFFF in E. simpl. intros [= <-].
  unfold RecordRef.valid, MAX_PAGE_INDEX, SLOT_BITS; simpl.
  change MAX_SLOT_ID with (Z.ones 16).
  rewrite Z.land_ones, Z.shiftr_div_pow2 by lia. change (Z.ones 16) with 65535.
  pose proof (Z.div_mod raw (2 ^ 16)). pose proof (Z.mod_pos_bound raw (2 ^ 16)).
  change (2 ^ 16) with 65536 in *. lia.
Qed.

(** The stamps of the versions of one record: version [i] was created by commit [c_i] and ended
    by the commit that created version [i+1]; the newest one ends at [last]. *)
Fixpoint version_stamps (cs : list Z) (last : Z) : list (Z * Z) :=
  match cs with
  | [] => []
  | [c] => [(c, last)]
  | c :: ((c' :: _) as cs') => (c, c') :: version_stamps cs' last
  end.

Lemma visible_ended s c c' :
  is_committed_csn c = true → is_committed_csn c' = true →
  Snapshot.visible s c c' = (c <=? Snapshot.read_lsn s) && (Snapshot.read_lsn s <? c').
Proof.
  unfold Snapshot.visible, is_open_end_csn, is_committed_csn. intros -> Hc'.
  change NO_CSN with 0 in *. simpl.
  replace (c' =? 0) with false by lia. replace (c' =? PROVISIONAL_CSN) with false by lia. done.
Qed.

Lemma visible_open s c last :
  is_committed_csn c = true → is_open_end_csn last = true →
  Snapshot.visible s c last = (c <=? Snapshot.read_lsn s).
Proof. unfold Snapshot.visible. intros -> ->. by rewrite andb_true_r. Qed.

Lemma version_stamps_fst cs last v : v ∈ version_stamps cs last → v.1 ∈ cs.
Proof.
  induction cs as [|c [|c' cs] IH]; simpl; [by intros ?%not_elem_of_nil| |].
  - intros ->%list_elem_of_singleton. by left.
  - intros [->|Hv]%elem_of_cons; [by left|]. right. by apply IH.
Qed.

Lemma not_visible_above s xmin xmax :
  Snapshot.read_lsn s < xmin → Snapshot.visible s xmin xmax = false.
Proof. unfold Snapshot.visible. intros. by replace (xmin <=? _) with false by lia; rewrite andb_false_r. Qed.

(** ** Properties *)

(** Record references round-trip.  Every reference whose page and slot fit their widths
    encodes to an integer that decodes back to it, every decodable integer is the encoding of
    the reference it decodes to, and a reference off the reserved page 0 never encodes to zero
    (so zero can mean "no previous version" in a heap version chain). *)
Theorem record_ref_roundtrip (r : RecordRef.t) (raw : Z) :
  (RecordRef.valid r →
     ∃ e, RecordRef.encode r = Ok e ∧ RecordRef.decode e = Ok r ∧
          (1 <= RecordRef.page r → e ≠ 0)) ∧
  (RecordRef.decode raw = Ok r → RecordRef.encode r = Ok raw).
Proof.
  split.
  - intros Hv. exists (RecordRef.page r * 2 ^ 16 + RecordRef.slot r).
    split; [by apply record_ref_encode_ok|]. destruct r as [p sl], Hv; simpl in *.
    rewrite record_ref_decode_ok by done. split; [done|lia].
  - intros [Hv ->]%record_ref_decode_inv. by apply record_ref_encode_ok.
Qed.

Lemma record_ref_roundtrip_witness :
  (∃ e, RecordRef.encode (RecordRef.Mk 7 3) = Ok e ∧
        RecordRef.decode e = Ok (RecordRef.Mk 7 3) ∧ (1 <= 7 → e ≠ 0)) ∧
  RecordRef.encode (RecordRef.Mk 7 3) = Ok 458755.
Proof.
  split.
  - apply (record_ref_roundtrip (RecordRef.Mk 7 3) 458755). split; simpl; by vm_compute.
  - apply (record_ref_roundtrip (RecordRef.Mk 7 3) 458755). reflexivity.
Defined.

(** snapshot isolation on one record.  When the commits that wrote a record's versions have
    increasing commit numbers and the newest version has no committed end, a snapshot taken at
    or after the first of them sees exactly one version: the one written by the newest commit
    not above the snapshot. *)
Theorem snapshot_sees_one_version (s : Snapshot.t) (c : Z) (cs : list Z) (last : Z) :
  Forall (λ c, is_committed_csn c = true) (c :: cs) →
  StronglySorted Z.lt (c :: cs) →
  is_open_end_csn last = true →
  c <= Snapshot.read_lsn s →
  ∃ v, filter (λ v, Snapshot.visible s v.1 v.2 = true) (version_stamps (c :: cs) last) = [v] ∧
       v.1 ∈ c :: cs ∧ v.1 <= Snapshot.read_lsn s ∧
       ∀ c', c' ∈ c :: cs → c' <= Snapshot.read_lsn s → c' <= v.1.
Proof.
  intros Hc Hs Hl. revert c Hc Hs. induction cs as [|c' cs IH]; intros c Hc Hs Hle.
  - apply Forall_cons_1 in Hc as [Hc _]. exists (c, last). simpl.
    rewrite filter_cons_True by (simpl; rewrite visible_open by done; lia).
    split; [done|]. split; [by left|]. split; [done|]. intros d ->%list_elem_of_singleton. done.
  - apply Forall_cons_1 in Hc as [Hc Hcs]. apply StronglySorted_inv in Hs as [Hs Hlt].
    pose proof (Forall_cons_1 _ _ _ Hcs) as [Hc' _].
    pose proof (Forall_cons_1 _ _ _ Hlt) as [Hcc' _].
    change (version_stamps (c :: c' :: cs) last) with ((c, c') :: version_stamps (c' :: cs) last).
    destruct (Z.leb_spec c' (Snapshot.read_lsn s)) as [Hle'|Hgt].
    + destruct (IH c' Hcs Hs Hle') as (v & Hv & Hin & Hvle & Hmax).
      exists v. rewrite filter_cons_False by (simpl; rewrite visible_ended by done; lia).
      split; [done|]. split; [by right|]. split; [done|].
      intros d [->|Hd]%elem_of_cons Hdle; [|by apply Hmax].
      assert (c' <= v.1) by (apply Hmax; [by left|done]). lia.
    + exists (c, c').
      assert (∀ d, d ∈ c' :: cs → Snapshot.read_lsn s < d) as Habove.
      { intros d [->|Hd]%elem_of_cons; [done|]. apply StronglySorted_inv in Hs as [_ Hs].
        rewrite Forall_forall in Hs. specialize (Hs d Hd). lia. }
      rewrite filter_cons_True by (simpl; rewrite visible_ended by done; lia).
      rewrite filter_none; [split; [done|split; [by left|split; [done|]]]|].
      * intros d [->|Hd]%elem_of_cons Hdle; [done|]. specialize (Habove d Hd). lia.
      * intros v Hv%version_stamps_fst. rewrite not_visible_above; [done|by apply Habove].
Qed.

Lemma snapshot_sees_one_version_witness :
  ∃ v, filter (λ v, Snapshot.visible (Snapshot.Mk 9) v.1 v.2 = true)
         (version_stamps [3; 8; 12] PROVISIONAL_CSN) = [v] ∧
       v.1 ∈ [3; 8; 12] ∧ v.1 <= 9 ∧ ∀ c', c' ∈ [3; 8; 12] → c' <= 9 → c' <= v.1.
Proof.
  apply (snapshot_sees_one_version (Snapshot.Mk 9) 3 [8; 12] PROVISIONAL_CSN).
  - repeat constructor.
  - repeat constructor.
  - reflexivity.
  - simpl. lia.
Defined.
