(* ===== verification/Layout.v ===== *)
(** The page header and the slot entry: src/src/okto_grafx/domain/page/layout.py; and the
    splitting of payloads over overflow pages: src/src/okto_grafx/domain/page/overflow.py. *)

From S2P Require Import Prelude Ids.

(** ** Constants *)

Definition PAGE_HEADER_SIZE : Z := 32.
Definition SLOT_ENTRY_SIZE : Z := 4.
Definition MIN_PAGE_SIZE : Z := 512.
Definition MAX_PAGE_SIZE : Z := 32768.
Definition DEFAULT_PAGE_SIZE : Z := 8192.
Definition CHECKSUM_OFFSET : Z := 0.
Definition CHECKSUM_SIZE : Z := 4.
Definition MAX_U16 : Z := 0xFFFF.
Definition MAX_U32 : Z := 0xFFFFFFFF.
Definition MAX_U64 : Z := 0xFFFFFFFFFFFFFFFF.

(** [struct.Struct("<IHHQIHHHHI")] and [struct.Struct("<HH")]. *)
Definition HEADER_STRUCT : list field := [U 4; U 2; U 2; U 8; U 4; U 2; U 2; U 2; U 2; U 4].
Definition SLOT_STRUCT : list field := [U 2; U 2].

Inductive PageType :=
  | FREE | META | HEAP | CATALOG | INDEX_HASH | INDEX_HNSW | OVERFLOW | CONTROL_SLOT
  | CONTROL_HEADER | INDEX_ORDERED_ROOT | INDEX_ORDERED_INTERNAL | INDEX_ORDERED_LEAF.

Definition page_type_value (t : PageType) : Z :=
  match t with
  | FREE => 0 | META => 1 | HEAP => 2 | CATALOG => 3 | INDEX_HASH => 4 | INDEX_HNSW => 5
  | OVERFLOW => 6 | CONTROL_SLOT => 7 | CONTROL_HEADER => 8 | INDEX_ORDERED_ROOT => 9
  | INDEX_ORDERED_INTERNAL => 10 | INDEX_ORDERED_LEAF => 11
  end.

(** ** Operations *)

Definition is_unwritten_image (raw : bytes) (page_size : Z) : bool :=
  (zlen raw =? page_size) && (0 <? page_size)
  && negb (existsb (λ b, negb (Z_of_byte b =? 0)) raw).

Definition validate_page_size (page_size : Z) : result Z :=
  if negb ((MIN_PAGE_SIZE <=? page_size) && (page_size <=? MAX_PAGE_SIZE))
  then raise GrafxConfigurationError "page_size"
  else if negb (Z.land page_size (page_size - 1) =? 0)
  then raise GrafxConfigurationError "page_size"
  else Ok page_size.

Definition require_unsigned (field : string) (value maximum : Z) : result Z :=
  if negb ((0 <=? value) && (value <=? maximum)) then raise GrafxCorruptionDetected field
  else Ok value.

Module PageHeader.

Record t := Mk {
  page_type : Z;
  flags : Z;
  page_lsn : Z;
  seq : Z;
  slot_count : Z;
  free_start : Z;
  free_end : Z;
  reserved : Z;
  next_page : Z;
  checksum : Z
}.

Definition encode (h : t) : result bytes :=
  checksum ← require_unsigned "checksum" (checksum h) MAX_U32;
  page_type ← require_unsigned "page_type" (page_type h) MAX_U16;
  flags ← require_unsigned "flags" (flags h) MAX_U16;
  page_lsn ← require_unsigned "page_lsn" (page_lsn h) MAX_U64;
  seq ← require_unsigned "seq" (seq h) MAX_U32;
  slot_count ← require_unsigned "slot_count" (slot_count h) MAX_U16;
  free_start ← require_unsigned "free_start" (free_start h) MAX_U16;
  free_end ← require_unsigned "free_end" (free_end h) MAX_U16;
  reserved ← require_unsigned "reserved" (reserved h) MAX_U16;
  next_page ← require_unsigned "next_page" (next_page h) MAX_U32;
  struct_pack HEADER_STRUCT
    (checksum, (page_type, (flags, (page_lsn, (seq, (slot_count,
      (free_start, (free_end, (reserved, (next_page, ())))))))))).

Definition decode (raw : bytes) : result t :=
  if zlen raw <? PAGE_HEADER_SIZE then raise GrafxCorruptionDetected "page_header"
  else
    fields ← struct_unpack_from HEADER_STRUCT raw 0;
    let '(checksum, (page_type, (flags, (page_lsn, (seq, (slot_count,
           (free_start, (free_end, (reserved, (next_page, _)))))))))) := fields in
    Ok (Mk page_type flags page_lsn seq slot_count free_start free_end reserved next_page checksum).

(** Every field inside its width. *)
Definition fits (h : t) : Prop :=
  0 <= checksum h <= MAX_U32 ∧ 0 <= page_type h <= MAX_U16 ∧ 0 <= flags h <= MAX_U16 ∧
  0 <= page_lsn h <= MAX_U64 ∧ 0 <= seq h <= MAX_U32 ∧ 0 <= slot_count h <= MAX_U16 ∧
  0 <= free_start h <= MAX_U16 ∧ 0 <= free_end h <= MAX_U16 ∧ 0 <= reserved h <= MAX_U16 ∧
  0 <= next_page h <= MAX_U32.

Definition fields (h : t) : fvals HEADER_STRUCT :=
  (checksum h, (page_type h, (flags h, (page_lsn h, (seq h, (slot_count h,
    (free_start h, (free_end h, (reserved h, (next_page h, ())))))))))).

(** The 32 bytes of a header that fits. *)
Definition image (h : t) : bytes := struct_image HEADER_STRUCT (fields h).

End PageHeader.

Definition encode_slot_entry (offset length : Z) : result bytes :=
  offset ← require_unsigned "slot_offset" offset MAX_U16;
  length ← require_unsigned "slot_length" length MAX_U16;
  struct_pack SLOT_STRUCT (offset, (length, ())).

Definition decode_slot_entry (raw : bytes) (position : Z) : result (Z * Z) :=
  if (position <? 0) || (zlen raw <? position + SLOT_ENTRY_SIZE)
  then raise GrafxCorruptionDetected "slot_entry"
  else
    fields ← struct_unpack_from SLOT_STRUCT raw position;
    let '(offset, (length, _)) := fields in Ok (offset, length).

(** *** Overflow chains *)

Definition chunk_capacity (page_size : Z) : result Z :=
  page_size ← validate_page_size page_size;
  Ok (page_size - PAGE_HEADER_SIZE - SLOT_ENTRY_SIZE).

Definition split_payload (payload : bytes) (capacity : Z) : result (list bytes) :=
  if capacity <? 1 then raise GrafxCorruptionDetected "capacity"
  else
    match payload with
    | [] => Ok [[]]
    | content =>
        Ok ((λ start, slice content start (start + capacity))
              <$> py_range 0 (zlen content) capacity)
    end.

Definition join_chunks (chunks : list bytes) : bytes := mjoin chunks.

(** ** Lemmas *)

Lemma require_unsigned_Ok f v m w : require_unsigned f v m = Ok w ↔ w = v ∧ 0 <= v <= m.
Proof.
  unfold require_unsigned, raise. case_match eqn:E.
  - split; [done|]. lia.
  - split; [intros [= <-]; lia|]. by intros [-> _].
Qed.

Lemma require_unsigned_fits f v m : 0 <= v <= m → require_unsigned f v m = Ok v.
Proof. intros. by apply require_unsigned_Ok. Qed.

Lemma validate_page_size_Ok n m : validate_page_size n = Ok m →
  m = n ∧ MIN_PAGE_SIZE <= n <= MAX_PAGE_SIZE ∧ Z.land n (n - 1) = 0.
Proof.
  unfold validate_page_size. repeat case_match; try done. intros [= <-]. lia.
Qed.

(** The accepted sizes, enumerated. *)
Lemma page_sizes n :
  MIN_PAGE_SIZE <= n <= MAX_PAGE_SIZE → Z.land n (n - 1) = 0 →
  n ∈ [512; 1024; 2048; 4096; 8192; 16384; 32768].
Proof.
  intros Hn Hl.
  unfold MIN_PAGE_SIZE, MAX_PAGE_SIZE in Hn. set (k := Z.log2 n).
  pose proof (Z.log2_spec n ltac:(lia)) as Hk. fold k in Hk.
  assert (n = 2 ^ k) as E.
  { destruct (decide (n = 2 ^ k)) as [|Hne]; [done|exfalso].
    assert (Z.testbit (Z.land n (n - 1)) k = true) as Hb; [|by rewrite Hl, Z.bits_0 in Hb].
    rewrite Z.land_spec. unfold k at 1. rewrite Z.bit_log2 by lia.
    rewrite <-(Z.log2_unique (n - 1) k) by (unfold k in *; pose proof (Z.log2_nonneg n); lia).
    rewrite Z.bit_log2 by lia. done. }
  assert (9 <= k) by (apply (Z.log2_le_pow2 n 9); lia).
  assert (k < 16) by (apply (Z.log2_lt_pow2 n 16); lia).
  assert (k = 9 ∨ k = 10 ∨ k = 11 ∨ k = 12 ∨ k = 13 ∨ k = 14 ∨ k = 15) as Hcases by lia.
  rewrite E. clearbody k.
  repeat destruct Hcases as [-> | Hcases]; [..|rewrite Hcases]; apply list_elem_of_In; simpl; tauto.
Qed.

Lemma header_fields_fit h : PageHeader.fits h → struct_fits HEADER_STRUCT (PageHeader.fields h).
Proof. intros H. unfold PageHeader.fields; unfold PageHeader.fits, MAX_U16, MAX_U32, MAX_U64 in H. solve_fits. Qed.

Lemma header_encode_ok h : PageHeader.fits h → PageHeader.encode h = Ok (PageHeader.image h).
Proof.
  intros H. pose proof (header_fields_fit h H) as Hf. destruct H as (?&?&?&?&?&?&?&?&?&?).
  unfold PageHeader.encode. rewrite !require_unsigned_fits by done. simpl.
  by apply struct_pack_image in Hf.
Qed.

Lemma header_encode_inv h b : PageHeader.encode h = Ok b → PageHeader.fits h.
Proof.
  unfold PageHeader.encode. intros H. inv_ok H.
  repeat match goal with E : require_unsigned _ _ _ = Ok _ |- _ =>
    apply require_unsigned_Ok in E as [-> ?] end.
  unfold PageHeader.fits. tauto.
Qed.

Lemma zlen_header_image h : PageHeader.fits h → zlen (PageHeader.image h) = 32.
Proof. intros H. unfold PageHeader.image. by rewrite zlen_struct_image by (by apply header_fields_fit). Qed.

Lemma header_decode_image h rest :
  PageHeader.fits h → PageHeader.decode (PageHeader.image h ++ rest) = Ok h.
Proof.
  intros H. unfold PageHeader.decode, PAGE_HEADER_SIZE.
  rewrite zlen_app, zlen_header_image by done. pose proof (zlen_nonneg rest).
  replace (_ <? 32) with false by lia. unfold PageHeader.image.
  rewrite struct_unpack_image_0 by (by apply header_fields_fit). by destruct h.
Qed.

Lemma header_decode_inv raw h :
  PageHeader.decode raw = Ok h →
  32 <= zlen raw ∧ PageHeader.fits h ∧ PageHeader.image h = slice raw 0 32.
Proof.
  unfold PageHeader.decode, PAGE_HEADER_SIZE. case_match eqn:E; [done|]. intros H. inv_ok H.
  apply (struct_unpack_from_Ok HEADER_STRUCT) in E0 as (Hf & _ & Hi); [|done].
  destruct x as (?&?&?&?&?&?&?&?&?&?&[]). injection H as <-.
  split; [lia|]. split; [|done].
  unfold PageHeader.fits, MAX_U16, MAX_U32, MAX_U64; simpl.
  cbn [struct_fits field_fits fst snd HEADER_STRUCT] in Hf. pow256. lia.
Qed.

Lemma slot_entry_image o l : 0 <= o <= MAX_U16 → 0 <= l <= MAX_U16 →
  encode_slot_entry o l = Ok (le_pack 2 o ++ le_pack 2 l).
Proof.
  intros Ho Hl. unfold encode_slot_entry. rewrite !require_unsigned_fits by done. simpl.
  unfold MAX_U16 in *. rewrite struct_pack_image by solve_fits.
  change (struct_image SLOT_STRUCT _) with (le_pack 2 o ++ le_pack 2 l ++ []).
  by rewrite app_nil_r.
Qed.

(** Consecutive chunks of a list join to a prefix of it. *)
Lemma join_consecutive_chunks {A} (l : list A) c n :
  0 < c →
  mjoin ((λ i, slice l (c * Z.of_nat i) (c * Z.of_nat i + c)) <$> seq 0 n)
    = slice l 0 (c * Z.of_nat n).
Proof.
  intros Hc. induction n as [|n IH].
  { rewrite Z.mul_0_r. by rewrite slice_empty. }
  rewrite seq_S, fmap_app, join_app, IH. simpl. rewrite app_nil_r.
  replace (c * Z.of_nat (S n)) with (c * Z.of_nat n + c) by lia.
  symmetry. apply slice_split; nia.
Qed.

Lemma py_range_0_lookup stop step k :
  0 < step → py_range 0 stop step !! k =
    if decide (step * Z.of_nat k < stop) then Some (step * Z.of_nat k) else None.
Proof.
  intros Hs. unfold py_range. rewrite list_lookup_fmap.
  set (m := (stop - 0 + step - 1) / step).
  pose proof (Z.div_mod (stop - 0 + step - 1) step ltac:(lia)) as E. fold m in E.
  pose proof (Z.mod_pos_bound (stop - 0 + step - 1) step Hs).
  case_decide.
  - rewrite lookup_seq_lt by nia. done.
  - rewrite lookup_seq_ge by nia. done.
Qed.

Lemma slice_beyond {A} (l : list A) n : zlen l <= n → slice l 0 n = l.
Proof. intros. unfold slice, zlen in *. rewrite drop_0. apply take_ge. lia. Qed.

Lemma zlen_slice_le {A} (l : list A) a b : 0 <= a → a <= b → zlen (slice l a b) <= b - a.
Proof. intros. unfold zlen, slice. rewrite length_take. lia. Qed.

(** ** Properties *)

(** Page headers round-trip.  A header whose fields fit their widths encodes to 32 bytes
    that decode back to it whatever follows them; conversely every 32 bytes decode to a header
    that encodes to exactly those bytes, so [PageHeader.encode] refuses precisely the headers
    no page image can hold. *)
Theorem page_header_roundtrip (h : PageHeader.t) (raw rest : bytes) :
  (PageHeader.encode h = Ok raw →
     zlen raw = PAGE_HEADER_SIZE ∧ PageHeader.decode (raw ++ rest) = Ok h) ∧
  (PAGE_HEADER_SIZE <= zlen raw →
     ∃ h', PageHeader.decode raw = Ok h' ∧
           PageHeader.encode h' = Ok (slice raw 0 PAGE_HEADER_SIZE)).
Proof.
  split.
  - intros H. pose proof (header_encode_inv _ _ H) as Hf.
    rewrite header_encode_ok in H by done. injection H as <-.
    split; [by apply zlen_header_image|by apply header_decode_image].
  - intros Hl. unfold PAGE_HEADER_SIZE in *.
    destruct (struct_unpack_from_enough HEADER_STRUCT raw 0) as [v Hv]; [simpl; lia|].
    destruct (PageHeader.decode raw) as [h'|e] eqn:E.
    + exists h'. split; [done|]. apply header_decode_inv in E as (_ & Hf & <-).
      by apply header_encode_ok.
    + unfold PageHeader.decode in E. rewrite Hv in E. unfold PAGE_HEADER_SIZE in E.
      replace (zlen raw <? 32) with false in E by lia.
      destruct v as (?&?&?&?&?&?&?&?&?&?&[]). done.
Qed.

Lemma page_header_roundtrip_witness :
  let h := PageHeader.Mk 2 0 41 2 1 40 8188 0 NO_PAGE 0xDEADBEEF in
  ∃ raw, PageHeader.encode h = Ok raw ∧ zlen raw = PAGE_HEADER_SIZE ∧
         PageHeader.decode (raw ++ [Byte.x01]) = Ok h ∧
         ∃ h', PageHeader.decode raw = Ok h' ∧
               PageHeader.encode h' = Ok (slice raw 0 PAGE_HEADER_SIZE).
Proof.
  intros h. exists (PageHeader.image h).
  assert (PageHeader.encode h = Ok (PageHeader.image h)) as H by (vm_compute; reflexivity).
  split; [exact H|].
  destruct (page_header_roundtrip h (PageHeader.image h) [Byte.x01]) as [H1 H2].
  destruct (H1 H) as [Hl Hd]. split; [exact Hl|]. split; [exact Hd|]. apply H2. rewrite Hl. lia.
Defined.

(** Overflow chains lose nothing.  For every positive capacity, splitting a payload and
    joining the chunks gives the payload back; the chain is never empty, no chunk exceeds the
    capacity and every chunk but the last is full.  A capacity below one is refused. *)
Theorem overflow_split_join (payload : bytes) (capacity : Z) :
  match split_payload payload capacity with
  | Ok chunks =>
      1 <= capacity ∧ join_chunks chunks = payload ∧ chunks ≠ [] ∧
      (∀ i chunk, chunks !! i = Some chunk →
         zlen chunk <= capacity ∧ (is_Some (chunks !! S i) → zlen chunk = capacity))
  | Err e => capacity < 1 ∧ err_class e = GrafxCorruptionDetected
  end.
Proof.
  unfold split_payload. destruct (Z.ltb_spec capacity 1) as [E|E]; [done|].
  destruct payload as [|b payload].
  { split; [lia|]. split; [done|]. split; [done|]. intros [|i] chunk; [|done].
    intros [= <-]. split; [rewrite zlen_nil; lia|]. by intros []. }
  set (content := b :: payload). split; [lia|].
  assert (0 < zlen content) as Hpos by (unfold content; rewrite zlen_cons; pose proof (zlen_nonneg payload); lia).
  split; [|split].
  - unfold join_chunks, py_range. rewrite <-list_fmap_compose. unfold compose.
    etransitivity; [apply (join_consecutive_chunks content capacity); lia|].
    apply slice_beyond.
    pose proof (Z.div_mod (zlen content - 0 + capacity - 1) capacity ltac:(lia)).
    pose proof (Z.mod_pos_bound (zlen content - 0 + capacity - 1) capacity ltac:(lia)).
    rewrite Z2Nat.id by (apply Z.div_pos; lia). lia.
  - intros Hnil. apply fmap_nil_inv in Hnil.
    pose proof (py_range_0_lookup (zlen content) capacity 0 ltac:(lia)) as H.
    rewrite Hnil, decide_True in H by (rewrite Z.mul_0_r; lia). done.
  - intros i chunk. rewrite !list_lookup_fmap, !py_range_0_lookup by lia.
    assert (0 <= capacity * Z.of_nat i) by nia.
    case_decide; [|done]. simpl. intros [= <-]. split.
    + etransitivity; [apply zlen_slice_le|]; lia.
    + case_decide; [|by intros []]. intros _. rewrite zlen_slice; lia.
Qed.

(** The accepted page sizes are the seven powers of two from 512 to 32768. *)
Theorem page_size_accepted (n : Z) :
  validate_page_size n = Ok n ↔ n ∈ [512; 1024; 2048; 4096; 8192; 16384; 32768].
Proof.
  split.
  - intros (_ & Hr & Hl)%validate_page_size_Ok. by apply page_sizes.
  - intros H%list_elem_of_In. simpl in H. by repeat destruct H as [<-|H].
Qed.
