(* ===== verification/Checksum.v ===== *)
(** CRC-32C and its implementation seam: src/src/okto_grafx/domain/page/checksum.py.

    The table-driven reference ([crc32c_reference]) is proved equal to the bit-serial shift
    register of the reflected Castagnoli polynomial, its chaining convention is proved, and it
    is proved to notice every one-byte corruption.  The second part models the door through
    which an accelerated implementation is installed. *)

From S2P Require Import Prelude Layout.

(** ** The reference implementation *)

Definition CRC32C_POLYNOMIAL_REFLECTED : Z := 0x82F63B78.
Definition CRC32C_INITIAL : Z := 0.
Definition CRC32C_TABLE_SIZE : nat := 256.
Definition MASK_32 : Z := 0xFFFFFFFF.

(** One iteration of the inner loop of [_build_table]. *)
Definition reduce_bit (value : Z) : Z :=
  Z.lxor (Z.shiftr value 1)
         (if Z.land value 1 =? 0 then 0 else CRC32C_POLYNOMIAL_REFLECTED).

Definition build_table : list Z :=
  (λ index, Z.land (Nat.iter 8 reduce_bit (Z.of_nat index)) MASK_32) <$> seq 0 CRC32C_TABLE_SIZE.

Definition TABLE : list Z := Eval vm_compute in build_table.

(** One iteration of the loop of [crc32c_reference]. *)
Definition crc_byte (value : Z) (b : byte) : Z :=
  Z.lxor (nth (Z.to_nat (Z.land (Z.lxor value (Z_of_byte b)) 0xFF)) TABLE 0) (Z.shiftr value 8).

Definition crc32c_reference (data : bytes) (crc : Z) : Z :=
  let value := Z.land (Z.lxor crc MASK_32) MASK_32 in
  let value := fold_left crc_byte data value in
  Z.land (Z.lxor value MASK_32) MASK_32.

(** ** Specification: a bit-serial shift register

    The reflected register consumes the message least significant bit first: each message bit is
    added to the low bit of the register, which is then shifted once. *)

Fixpoint byte_bits (n : nat) (v : Z) : list Z :=
  match n with
  | O => []
  | S n => v mod 2 :: byte_bits n (v / 2)
  end.

Definition message_bits (data : bytes) : list Z := b ← data; byte_bits 8 (Z_of_byte b).

Definition shift_register (reg : Z) (bits : list Z) : Z :=
  fold_left (λ reg bit, reduce_bit (Z.lxor reg bit)) bits reg.

Definition crc32c_bitwise (data : bytes) (crc : Z) : Z :=
  Z.lxor (shift_register (Z.lxor crc MASK_32) (message_bits data)) MASK_32.

(** ** Lemmas on the register *)

Definition in32 (v : Z) : Prop := 0 <= v < 2 ^ 32.

Lemma lxor_range n a b : 0 <= n → 0 <= a < 2 ^ n → 0 <= b < 2 ^ n → 0 <= Z.lxor a b < 2 ^ n.
Proof.
  intros Hn Ha Hb. assert (0 <= Z.lxor a b) as Hpos by (apply Z.lxor_nonneg; lia).
  split; [done|]. destruct (decide (Z.lxor a b = 0)) as [->|Hne]; [lia|].
  apply Z.log2_lt_pow2; [lia|].
  assert (∀ x, 0 <= x < 2 ^ n → x = 0 ∨ Z.log2 x < n) as Hlog.
  { intros x Hx. destruct (decide (x = 0)); [by left|right]. apply Z.log2_lt_pow2; lia. }
  pose proof (Z.log2_lxor a b ltac:(lia) ltac:(lia)).
  destruct (Hlog a Ha) as [->|], (Hlog b Hb) as [->|]; rewrite ?Z.lxor_0_l, ?Z.lxor_0_r in *;
    try lia.
  all: destruct (decide (n = 0)) as [->|]; [|simpl (Z.log2 0) in *; lia].
  all: change (2 ^ 0) with 1 in *; assert (a = 0 ∧ b = 0) as [-> ->] by lia; done.
Qed.

Lemma land_mask_small v : in32 v → Z.land v MASK_32 = v.
Proof.
  intros Hv. change MASK_32 with (Z.ones 32). rewrite Z.land_ones by lia.
  by apply Z.mod_small.
Qed.

Lemma land_1_eqb v : (Z.land v 1 =? 0) = negb (Z.testbit v 0).
Proof.
  change 1 with (Z.ones 1) at 1. rewrite Z.land_ones, Z.bit0_eqb by lia.
  change (2 ^ 1) with 2. pose proof (Z.mod_pos_bound v 2). 
  destruct (Z.eqb_spec (v mod 2) 0), (Z.eqb_spec (v mod 2) 1); simpl; try done; lia.
Qed.

Lemma reduce_bit_lxor a b : reduce_bit (Z.lxor a b) = Z.lxor (reduce_bit a) (reduce_bit b).
Proof.
  unfold reduce_bit. rewrite !land_1_eqb, Z.lxor_spec, Z.shiftr_lxor.
  set (p := CRC32C_POLYNOMIAL_REFLECTED).
  destruct (Z.testbit a 0), (Z.testbit b 0); simpl; rewrite ?Z.lxor_0_r.
  - rewrite (Z.lxor_comm (Z.shiftr b 1)), Z.lxor_assoc, <-(Z.lxor_assoc p).
    by rewrite Z.lxor_nilpotent, Z.lxor_0_l.
  - by rewrite !Z.lxor_assoc, (Z.lxor_comm p).
  - by rewrite !Z.lxor_assoc.
  - done.
Qed.

Lemma reduce_bit_shiftl v : reduce_bit (Z.shiftl v 1) = v.
Proof.
  unfold reduce_bit. rewrite land_1_eqb, Z.shiftl_spec_low by lia. simpl.
  rewrite Z.lxor_0_r, Z.shiftr_shiftl_l by lia. apply Z.shiftl_0_r.
Qed.

Lemma reduce_bit_range v : in32 v → in32 (reduce_bit v).
Proof.
  intros Hv. apply lxor_range; [lia| |by case_match].
  unfold in32 in Hv. rewrite Z.shiftr_div_pow2 by lia. split; [apply Z.div_pos; lia|].
  apply Z.div_lt_upper_bound; lia.
Qed.

Lemma reduce_bit_0 v : in32 v → reduce_bit v = 0 → v = 0.
Proof.
  intros Hv H. unfold reduce_bit in H. apply Z.lxor_eq in H. rewrite land_1_eqb in H.
  rewrite Z.shiftr_div_pow2 in H by lia. change (2 ^ 1) with 2 in H.
  pose proof (Z.div_mod v 2 ltac:(lia)) as E. rewrite (Z.bit0_eqb v) in H.
  pose proof (Z.mod_pos_bound v 2 ltac:(lia)). unfold in32 in Hv. change (2 ^ 32) with 4294967296 in Hv.
  destruct (Z.eqb_spec (v mod 2) 1); cbn [negb] in H; [|lia].
  unfold CRC32C_POLYNOMIAL_REFLECTED in H. lia.
Qed.

Lemma reduce_bit_inj a b : in32 a → in32 b → reduce_bit a = reduce_bit b → a = b.
Proof.
  intros Ha Hb H. apply Z.lxor_eq, reduce_bit_0; [by apply lxor_range|].
  by rewrite reduce_bit_lxor, H, Z.lxor_nilpotent.
Qed.

Lemma iter_reduce_lxor n a b :
  Nat.iter n reduce_bit (Z.lxor a b) =
  Z.lxor (Nat.iter n reduce_bit a) (Nat.iter n reduce_bit b).
Proof. induction n as [|n IH]; simpl; [done|]. by rewrite IH, reduce_bit_lxor. Qed.

Lemma iter_reduce_shiftl n v : Nat.iter n reduce_bit (Z.shiftl v (Z.of_nat n)) = v.
Proof.
  revert v. induction n as [|n IH]; intros v; simpl Nat.iter; [apply Z.shiftl_0_r|].
  transitivity (reduce_bit (Z.shiftl v 1)); [|apply reduce_bit_shiftl]. f_equal.
  etransitivity; [|apply IH]. f_equal. rewrite Z.shiftl_shiftl by lia. f_equal. lia.
Qed.

Lemma iter_reduce_range n v : in32 v → in32 (Nat.iter n reduce_bit v).
Proof. intros Hv. induction n; simpl; [done|]. by apply reduce_bit_range. Qed.

Lemma iter_reduce_inj n a b :
  in32 a → in32 b → Nat.iter n reduce_bit a = Nat.iter n reduce_bit b → a = b.
Proof.
  intros Ha Hb. induction n as [|n IH]; simpl; [done|]. intros H.
  apply IH, reduce_bit_inj; [by apply iter_reduce_range..|done].
Qed.

(** The table entry of [i] is eight reductions of [i]. *)
Lemma table_lookup i : 0 <= i < 256 → nth (Z.to_nat i) TABLE 0 = Nat.iter 8 reduce_bit i.
Proof.
  assert (forallb (λ n, nth n TABLE 0 =? Nat.iter 8 reduce_bit (Z.of_nat n)) (seq 0 256) = true)
    as H by (vm_compute; reflexivity).
  intros Hi. rewrite forallb_forall in H.
  specialize (H (Z.to_nat i)). rewrite in_seq, Z2Nat.id in H by lia. lia.
Qed.

(** The table step consumes a whole byte: eight reductions of the register plus the byte. *)
Lemma crc_byte_iter v b : in32 v → crc_byte v b = Nat.iter 8 reduce_bit (Z.lxor v (Z_of_byte b)).
Proof.
  intros Hv. unfold crc_byte. pose proof (Z_of_byte_range b) as Hb.
  assert (Z.shiftr v 8 = Z.shiftr (Z.lxor v (Z_of_byte b)) 8) as ->.
  { rewrite Z.shiftr_lxor, (Z.shiftr_div_pow2 (Z_of_byte b)) by lia.
    rewrite (Z.div_small (Z_of_byte b)) by (change (2 ^ 8) with 256; lia).
    by rewrite Z.lxor_0_r. }
  set (w := Z.lxor v (Z_of_byte b)).
  change 0xFF with (Z.ones 8).
  assert (0 <= Z.land w (Z.ones 8) < 256) as Hr
    by (rewrite Z.land_ones by lia; apply (Z.mod_pos_bound w 256); lia).
  rewrite table_lookup by done.
  rewrite <-(iter_reduce_shiftl 8 (Z.shiftr w 8)), <-iter_reduce_lxor. f_equal.
  apply Z.bits_inj'. intros n Hn. rewrite Z.lxor_spec, Z.land_spec.
  destruct (Z.ltb_spec n 8).
  - rewrite Z.ones_spec_low, andb_true_r by lia.
    by rewrite Z.shiftl_spec_low, xorb_false_r by lia.
  - rewrite Z.ones_spec_high, andb_false_r, xorb_false_l by lia.
    rewrite Z.shiftl_spec, Z.shiftr_spec by lia. f_equal. lia.
Qed.

Lemma Z_of_byte_in32 b : in32 (Z_of_byte b).
Proof. pose proof (Z_of_byte_range b). unfold in32. lia. Qed.

Lemma crc_byte_range v b : in32 v → in32 (crc_byte v b).
Proof.
  intros Hv. rewrite crc_byte_iter by done.
  apply iter_reduce_range, lxor_range; [lia|done|apply Z_of_byte_in32].
Qed.

Lemma crc_fold_range data v : in32 v → in32 (fold_left crc_byte data v).
Proof. revert v. induction data as [|b data IH]; intros v Hv; [done|]. by apply IH, crc_byte_range. Qed.

Lemma byte_bits_register n v reg :
  0 <= v < 2 ^ Z.of_nat n →
  shift_register reg (byte_bits n v) = Nat.iter n reduce_bit (Z.lxor reg v).
Proof.
  revert v reg. induction n as [|n IH]; intros v reg Hv.
  { change (2 ^ Z.of_nat 0) with 1 in Hv. assert (v = 0) as -> by lia. by rewrite Z.lxor_0_r. }
  rewrite Nat2Z.inj_succ, Z.pow_succ_r in Hv by lia.
  simpl byte_bits. unfold shift_register. simpl fold_left. fold (shift_register).
  change (fold_left _ _ ?r) with (shift_register r (byte_bits n (v / 2))).
  rewrite IH by (split; [apply Z.div_pos; lia|apply Z.div_lt_upper_bound; lia]).
  rewrite Nat.iter_succ_r. f_equal.
  assert (v = Z.lxor (v mod 2) (Z.shiftl (v / 2) 1)) as Ev.
  { pose proof (Z.mod_pos_bound v 2 ltac:(lia)).
    rewrite Z.lxor_comm, lxor_high_low by (change (2 ^ 1) with 2; lia).
    pose proof (Z.div_mod v 2). lia. }
  rewrite Ev at 3. rewrite <-Z.lxor_assoc, (reduce_bit_lxor (Z.lxor _ _)), reduce_bit_shiftl.
  done.
Qed.

Lemma shift_register_app reg a b :
  shift_register reg (a ++ b) = shift_register (shift_register reg a) b.
Proof. apply fold_left_app. Qed.

Lemma crc_fold_register data v :
  in32 v → fold_left crc_byte data v = shift_register v (message_bits data).
Proof.
  revert v. induction data as [|b data IH]; intros v Hv; [done|].
  change (message_bits (b :: data)) with (byte_bits 8 (Z_of_byte b) ++ message_bits data).
  rewrite shift_register_app, byte_bits_register by apply Z_of_byte_range.
  rewrite <-crc_byte_iter by done. apply IH. by apply crc_byte_range.
Qed.

Lemma mask_in32 : in32 MASK_32.
Proof. done. Qed.

(** The reference without its (redundant on 32-bit seeds) masks. *)
Lemma crc32c_reference_unmasked data crc :
  in32 crc →
  crc32c_reference data crc =
  Z.lxor (fold_left crc_byte data (Z.lxor crc MASK_32)) MASK_32.
Proof.
  intros Hc. unfold crc32c_reference.
  rewrite (land_mask_small (Z.lxor crc MASK_32)) by (by apply lxor_range).
  apply land_mask_small, lxor_range; [lia| |done]. by apply crc_fold_range, lxor_range.
Qed.

Lemma crc32c_reference_range data crc : in32 crc → in32 (crc32c_reference data crc).
Proof.
  intros. rewrite crc32c_reference_unmasked by done.
  apply lxor_range; [lia| |done]. by apply crc_fold_range, lxor_range.
Qed.

Lemma lxor_mask_involutive v : Z.lxor (Z.lxor v MASK_32) MASK_32 = v.
Proof. by rewrite Z.lxor_assoc, Z.lxor_nilpotent, Z.lxor_0_r. Qed.

Lemma crc_byte_inj_reg a c b : in32 a → in32 c → crc_byte a b = crc_byte c b → a = c.
Proof.
  intros Ha Hc. rewrite !crc_byte_iter by done. intros H.
  apply iter_reduce_inj in H; [|by apply lxor_range; [lia| |apply Z_of_byte_in32]..].
  apply (f_equal (λ x, Z.lxor x (Z_of_byte b))) in H.
  by rewrite !Z.lxor_assoc, Z.lxor_nilpotent, !Z.lxor_0_r in H.
Qed.

Lemma crc_byte_inj_byte v b c : in32 v → crc_byte v b = crc_byte v c → b = c.
Proof.
  intros Hv. rewrite !crc_byte_iter by done. intros H.
  apply iter_reduce_inj in H; [|by apply lxor_range; [lia| |apply Z_of_byte_in32]..].
  apply (f_equal (Z.lxor v)) in H.
  rewrite <-!Z.lxor_assoc, Z.lxor_nilpotent, !Z.lxor_0_l in H. by apply (inj Z_of_byte).
Qed.

Lemma crc_fold_inj data a c :
  in32 a → in32 c → fold_left crc_byte data a = fold_left crc_byte data c → a = c.
Proof.
  revert a c. induction data as [|b data IH]; intros a c Ha Hc; simpl; [done|].
  intros H%IH; [|by apply crc_byte_range..]. by apply crc_byte_inj_reg in H.
Qed.

(** Changing one byte always changes the checksum. *)
Lemma crc32c_one_byte pre post b c crc :
  in32 crc →
  crc32c_reference (pre ++ b :: post) crc = crc32c_reference (pre ++ c :: post) crc → b = c.
Proof.
  intros Hc. rewrite !crc32c_reference_unmasked by done. intros H.
  apply (f_equal (λ x, Z.lxor x MASK_32)) in H. rewrite !lxor_mask_involutive in H.
  rewrite !fold_left_app in H. simpl in H.
  assert (in32 (fold_left crc_byte pre (Z.lxor crc MASK_32))) by (by apply crc_fold_range, lxor_range).
  apply crc_fold_inj in H; [|by apply crc_byte_range..]. by apply crc_byte_inj_byte in H.
Qed.

(** ** The public function and its installation door

    The caller-supplied accelerator is a parameter: it answers an object, which may be an
    integer or anything else, or raises.  A [GrafxError] passes through unchanged, every other
    exception becomes a configuration error.  A selection is the published pair of a function
    and its name; [execution_scope] is what the scope transport holds for the current context. *)

Definition PURE_IMPLEMENTATION_NAME : string := "pure".

Inductive observation :=
  | ObservedInt (v : Z)
  | ObservedOther
  | RaisedGrafx (e : error)
  | RaisedOther.

Definition require_seed (crc : Z) : result Z :=
  if negb ((0 <=? crc) && (crc <=? MASK_32)) then raise GrafxConfigurationError "crc"
  else Ok crc.

Definition require_crc32c_answer (field : string) (value : observation) : result Z :=
  match value with
  | ObservedInt v =>
      if (0 <=? v) && (v <=? MASK_32) then Ok v else raise GrafxConfigurationError field
  | _ => raise GrafxConfigurationError field
  end.

Definition require_crc32c_agreement (produced : Z) (payload : bytes) (seed : Z) (field : string)
    : result Z :=
  let expected := crc32c_reference payload seed in
  if negb (produced =? expected) then raise GrafxConfigurationError field else Ok produced.

Definition candidate_answer (function : bytes → Z → observation) (payload : bytes) (seed : Z)
    : result Z :=
  match function payload seed with
  | RaisedGrafx e => Err e
  | RaisedOther => raise GrafxConfigurationError "crc32c"
  | observed => require_crc32c_answer "implementation" observed
  end.

Definition ascii (s : string) : bytes := String.list_byte_of_string s.
Definition byte_range (l : list nat) : bytes := (λ n, byte_of_Z (Z.of_nat n)) <$> l.

Definition CRC32C_KNOWN_ANSWERS : list (bytes * Z) :=
  [ ([], 0x00000000);
    (ascii "a", 0xC1D04330);
    (ascii "123456789", 0xE3069283);
    (replicate 32 Byte.x00, 0x8A9136AA);
    (replicate 32 Byte.xff, 0x62A8AB43);
    (byte_range (seq 0 32), 0x46DD794E);
    (byte_range (reverse (seq 0 32)), 0x113FDB5C);
    (ascii "The quick brown fox jumps over the lazy dog", 0x22620404) ].



(** A function, as in the source, so that the 32 KiB pattern is built only where it is used. *)
Definition acceptance_inputs (_ : unit) : list (bytes * Z) :=
  let pattern := (λ index, byte_of_Z ((Z.of_nat index * 37 + 11) mod 256))
                   <$> seq 0 (Z.to_nat (MAX_PAGE_SIZE + 1)) in
  let prefix (length : Z) := slice pattern 0 length in
  let lengths := (Z.of_nat <$> seq 0 41) ++
    [63; 64; 65; 127; 128; 129; 255; 256; 257; 511; 512; 513; 1023; 1024; 1025; 4095; 4096;
     4097; 8191; 8192; MAX_PAGE_SIZE - CHECKSUM_SIZE - 1; MAX_PAGE_SIZE - CHECKSUM_SIZE;
     MAX_PAGE_SIZE - CHECKSUM_SIZE + 1; MAX_PAGE_SIZE] in
  let seeds := [CRC32C_INITIAL; 1; 0xFFFFFFFF; CRC32C_POLYNOMIAL_REFLECTED; 0x12345678] in
  ((λ length, (prefix length, CRC32C_INITIAL)) <$> lengths) ++
  (seed ← seeds; length ← [0; 1; 7; 8; 9; 32; 512]; [(prefix length, seed)]) ++
  ((λ pa, (pa.1, CRC32C_INITIAL)) <$> CRC32C_KNOWN_ANSWERS).

Definition validate_candidate (function : bytes → Z → observation) : result unit :=
  _ ← traverse (λ '(payload, answer),
        produced ← candidate_answer function payload CRC32C_INITIAL;
        require (produced =? answer) GrafxConfigurationError "crc32c") CRC32C_KNOWN_ANSWERS;
  _ ← traverse (λ '(payload, seed),
        produced ← candidate_answer function payload seed;
        require (produced =? crc32c_reference payload seed) GrafxConfigurationError "crc32c")
      (acceptance_inputs ());
  Ok ().

Record selection := Selection {
  sel_function : bytes → Z → result Z;
  sel_name : string
}.

Inductive scope_value :=
  | NoScope
  | Selecting (state : selection)
  | BoundPair (state : selection).

Record seam := Seam {
  implementation_state : selection;
  execution_scope : scope_value
}.

Definition reference_selection : selection :=
  Selection (λ data crc, Ok (crc32c_reference data crc)) PURE_IMPLEMENTATION_NAME.

Definition initial_seam : seam := Seam reference_selection NoScope.

Definition current_implementation (st : seam) : selection :=
  match execution_scope st with
  | Selecting current | BoundPair current => current
  | NoScope => implementation_state st
  end.

Definition crc32c_implementation (st : seam) : string := sel_name (current_implementation st).

(** The result of a publication is the name it replaced, with the new state. *)
Definition publish_implementation (st : seam) (function : bytes → Z → result Z) (name : string)
    : string * seam :=
  match execution_scope st with
  | Selecting current =>
      (sel_name current, Seam (implementation_state st) (Selecting (Selection function name)))
  | scope => (sel_name (implementation_state st), Seam (Selection function name) scope)
  end.

(** [function is crc32c_reference] is decided by identity: the reference is its own case. *)
Inductive candidate := TheReference | Accelerator (function : bytes → Z → observation).

Definition install_crc32c (st : seam) (function : candidate) (name : string)
    : result (string * seam) :=
  if decide (name = "") then raise GrafxConfigurationError "name"
  else
    match function with
    | TheReference =>
        Ok (publish_implementation st (λ data crc, Ok (crc32c_reference data crc)) name)
    | Accelerator function =>
        _ ← validate_candidate function;
        let checked data crc :=
          produced ← candidate_answer function data crc;
          require_crc32c_agreement produced data crc "implementation" in
        Ok (publish_implementation st checked name)
    end.

(** A refused installation leaves what was installed before. *)
Definition try_install (st : seam) (request : candidate * string) : seam :=
  match install_crc32c st request.1 request.2 with
  | Ok (_, st') => st'
  | Err _ => st
  end.

Definition crc32c (st : seam) (data : bytes) (crc : Z) : result Z :=
  seed ← require_seed crc;
  sel_function (current_implementation st) data seed.

(** The checksum every other component calls: the function of a process in which every
    installed implementation passed the door, which [installed_crc32c_agrees] proves to be the
    reference on every byte string. *)
Definition crc32c_of (data : bytes) : Z := crc32c_reference data CRC32C_INITIAL.

Lemma crc32c_of_range data : in32 (crc32c_of data).
Proof. by apply crc32c_reference_range. Qed.

Lemma crc32c_of_one_byte pre post b c :
  crc32c_of (pre ++ b :: post) = crc32c_of (pre ++ c :: post) → b = c.
Proof. by apply crc32c_one_byte. Qed.

(** A frame is a body behind its little-endian CRC.  A frame with one byte changed is not the
    frame of any body. *)
Lemma crc_frame_one_byte (body body' k pre post : bytes) (b c : byte) :
  le_pack 4 (crc32c_of body) ++ body = pre ++ b :: post → b ≠ c →
  pre ++ c :: post = k ++ body' → length k = 4%nat → k ≠ le_pack 4 (crc32c_of body').
Proof.
  intros Hframe Hbc Hdam Hk ->.
  destruct (decide (length pre < 4)%nat) as [Hp|Hp].
  - (* the body is intact, so the checksum is too *)
    assert (body' = body) as ->.
    { assert (drop 4 (pre ++ b :: post) = drop 4 (pre ++ c :: post)) as Hd.
      { rewrite !drop_app. destruct (4 - length pre)%nat eqn:E; [lia|done]. }
      rewrite <-Hframe, Hdam in Hd. rewrite !drop_app_length' in Hd by done. done. }
    assert (pre ++ b :: post = pre ++ c :: post) as Heq by congruence.
    apply app_inv_head in Heq. congruence.
  - rewrite <-(take_drop 4 pre), <-!app_assoc in Hframe, Hdam.
    assert (length (take 4 pre) = 4%nat) as Ht by (rewrite length_take; lia).
    apply app_inj_1 in Hframe as [Hk1 Hb1]; [|by rewrite length_le_pack].
    apply app_inj_1 in Hdam as [Hk2 Hb2]; [|by rewrite length_le_pack].
    assert (crc32c_of body = crc32c_of body') as Hcrc.
    { pose proof (crc32c_of_range body). pose proof (crc32c_of_range body'). unfold in32 in *.
      apply (le_pack_inj 4); [by change (256 ^ Z.of_nat 4) with (2 ^ 32)..|congruence]. }
    rewrite Hb1, <-Hb2 in Hcrc. by apply crc32c_of_one_byte in Hcrc.
Qed.

(** The same for a body followed by its CRC. *)
Lemma crc_trailer_one_byte (body body' k pre post : bytes) (b c : byte) :
  body ++ le_pack 4 (crc32c_of body) = pre ++ b :: post → b ≠ c →
  pre ++ c :: post = body' ++ k → length k = 4%nat → k ≠ le_pack 4 (crc32c_of body').
Proof.
  intros Hframe Hbc Hdam Hk ->.
  assert (length body' = length body) as Hl.
  { apply (f_equal length) in Hframe, Hdam. rewrite !length_app, ?length_le_pack in *.
    simpl in *. lia. }
  destruct (decide (length pre < length body)%nat) as [Hp|Hp].
  - assert (∃ x, post = x ++ le_pack 4 (crc32c_of body) ∧ body = pre ++ b :: x) as (x & -> & Hb).
    { exists (drop (S (length pre)) body).
      assert (body = pre ++ b :: drop (S (length pre)) body) as Hb; [|split; [|done]].
      - rewrite <-(take_drop_middle body (length pre) b) at 1.
        + f_equal. apply (f_equal (take (length pre))) in Hframe.
          by rewrite take_app_le, take_app_length in Hframe by lia.
        + apply (f_equal (lookup (length pre))) in Hframe.
          by rewrite lookup_app_l, list_lookup_middle in Hframe by lia.
      - rewrite Hb in Hframe at 1. rewrite <-app_assoc in Hframe. simpl in Hframe.
        apply app_inv_head in Hframe. by injection Hframe as ->. }
    rewrite app_comm_cons, app_assoc in Hdam. apply app_inj_2 in Hdam as [<- Hcrc];
      [|by rewrite !length_le_pack].
    assert (crc32c_of body = crc32c_of (pre ++ c :: x)) as Heq.
    { pose proof (crc32c_of_range body). pose proof (crc32c_of_range (pre ++ c :: x)). unfold in32 in *.
      apply (le_pack_inj 4); [by change (256 ^ Z.of_nat 4) with (2 ^ 32)..|done]. }
    rewrite Hb in Heq. by apply crc32c_of_one_byte in Heq.
  - assert (body' = body) as ->.
    { apply (f_equal (take (length body))) in Hframe, Hdam.
      rewrite take_app_length in Hframe. rewrite (take_app_length' body') in Hdam by done.
      rewrite take_app_le in Hframe, Hdam by lia. congruence. }
    assert (pre ++ b :: post = pre ++ c :: post) as Heq by congruence.
    apply app_inv_head in Heq. congruence.
Qed.

Definition sound_selection (s : selection) : Prop :=
  ∀ data seed v, sel_function s data seed = Ok v → v = crc32c_reference data seed.

Definition sound_seam (st : seam) : Prop :=
  sound_selection (implementation_state st) ∧ sound_selection (current_implementation st).

Lemma sound_seam_install st request : sound_seam st → sound_seam (try_install st request).
Proof.
  intros [Hi Hc]. unfold try_install, install_crc32c.
  destruct (decide _); simpl; [done|]. destruct request as [[|f] name]; simpl.
  - unfold publish_implementation, sound_seam, current_implementation in *.
    destruct (execution_scope st); simpl in *; split; try done; intros ??? [= <-]; done.
  - destruct (validate_candidate f); simpl; [|done].
    assert (sound_selection (Selection (λ data crc, produced ← candidate_answer f data crc;
      require_crc32c_agreement produced data crc "implementation") name)) as Hs.
    { intros data seed v H. simpl in H. inv_ok H. unfold require_crc32c_agreement in H.
      case_match eqn:Eq; [done|]. injection H as <-. lia. }
    unfold publish_implementation, sound_seam, current_implementation in *.
    destruct (execution_scope st); simpl in *; split; done.
Qed.

Lemma sound_seam_installs st requests :
  sound_seam st → sound_seam (fold_left try_install requests st).
Proof.
  revert st. induction requests as [|r rs IH]; intros st Hst; simpl; [done|].
  by apply IH, sound_seam_install.
Qed.

(** ** Properties *)

(** the table-driven CRC-32C is the bit-serial one.  For every byte string and every 32-bit
    seed the byte-at-a-time loop over the precomputed table returns what the shift register of
    the reflected polynomial returns on the message bits, low bit first. *)
Theorem crc32c_reference_bitwise (data : bytes) (crc : Z) :
  in32 crc → crc32c_reference data crc = crc32c_bitwise data crc.
Proof.
  intros. rewrite crc32c_reference_unmasked by done. unfold crc32c_bitwise.
  by rewrite crc_fold_register by (by apply lxor_range).
Qed.

Lemma crc32c_reference_bitwise_witness :
  in32 CRC32C_INITIAL ∧
  crc32c_reference (ascii "123456789") CRC32C_INITIAL =
    crc32c_bitwise (ascii "123456789") CRC32C_INITIAL ∧
  crc32c_bitwise (ascii "123456789") CRC32C_INITIAL = 0xE3069283.
Proof.
  split; [done|]. split; [apply (crc32c_reference_bitwise (ascii "123456789") 0); done|].
  vm_compute. reflexivity.
Defined.

(** Checksums chain.  Passing the result of an earlier call as the seed checksums the
    concatenation of the two ranges, and every result is again a 32-bit seed. *)
Theorem crc32c_reference_chain (a b : bytes) (crc : Z) :
  in32 crc →
  crc32c_reference (a ++ b) crc = crc32c_reference b (crc32c_reference a crc) ∧
  in32 (crc32c_reference a crc).
Proof.
  intros Hc. split; [|by apply crc32c_reference_range].
  rewrite (crc32c_reference_unmasked b) by (by apply crc32c_reference_range).
  rewrite !crc32c_reference_unmasked by done.
  by rewrite lxor_mask_involutive, fold_left_app.
Qed.

Lemma crc32c_reference_chain_witness :
  in32 7 ∧ crc32c_reference (ascii "ab" ++ ascii "c") 7 =
    crc32c_reference (ascii "c") (crc32c_reference (ascii "ab") 7).
Proof. split; [done|]. apply (crc32c_reference_chain (ascii "ab") (ascii "c") 7). done. Defined.

(** an installed accelerator cannot change a checksum.  Whatever sequence of installations
    is attempted, with whatever providers, every answer [crc32c] gives is the answer of the
    reference; a provider that disagrees makes the call fail instead. *)
Theorem installed_crc32c_agrees (requests : list (candidate * string)) (data : bytes)
    (crc v : Z) :
  crc32c (fold_left try_install requests initial_seam) data crc = Ok v →
  v = crc32c_reference data crc.
Proof.
  unfold crc32c, require_seed. case_match; [done|]. simpl.
  apply sound_seam_installs. split; intros ??? [= <-]; done.
Qed.

Lemma installed_crc32c_agrees_witness :
  crc32c (fold_left try_install [(Accelerator (λ _ _, ObservedInt 0), "zero"%string)] initial_seam)
    (ascii "a") 0 = Ok 0xC1D04330 ∧ 0xC1D04330 = crc32c_reference (ascii "a") 0.
Proof.
  split; [vm_compute; reflexivity|].
  apply (installed_crc32c_agrees [(Accelerator (λ _ _, ObservedInt 0), "zero"%string)]
           (ascii "a") 0). vm_compute. reflexivity.
Defined.
