(* ===== verification/Slotted.v ===== *)
(** The slotted page: src/src/okto_grafx/domain/page/slotted.py, the in-memory operations.

    [Page.t] is the state of one page object, one definition per method.  [wf] is its
    invariant; [contents] is what a page means (a payload or nothing per slot id), and the
    operations are proved to refine the short abstract specification of section [Spec]. *)

From S2P Require Import Prelude Ids Layout.

Definition FREE_SLOT : Z * Z := (0, 0).

Definition check_unsigned (field : string) (value maximum : Z) : result Z :=
  if negb ((0 <=? value) && (value <=? maximum)) then raise GrafxCorruptionDetected field
  else Ok value.

Module Page.

Record t := Mk {
  page_size : Z;
  page_index : Z;
  page_type : Z;
  flags : Z;
  page_lsn : Z;
  seq : Z;
  next_page : Z;
  reserved : Z;
  slots : list (Z * Z);
  data : bytes;
  free_start : Z;
  dirty : bool
}.

(** [Page(page_type, page_size=..., ...)]. *)
Definition make (page_type page_size page_index page_lsn seq flags next_page : Z) : result t :=
  page_size ← validate_page_size page_size;
  page_index ← check_unsigned "page_index" page_index MAX_U32;
  page_type ← check_unsigned "page_type" page_type MAX_U16;
  flags ← check_unsigned "flags" flags MAX_U16;
  page_lsn ← check_unsigned "page_lsn" page_lsn MAX_U64;
  seq ← check_unsigned "seq" seq MAX_U32;
  next_page ← check_unsigned "next_page" next_page MAX_U32;
  Ok (Mk page_size page_index page_type flags page_lsn seq next_page 0 [] (zeros page_size)
         PAGE_HEADER_SIZE false).

(** *** Property setters *)

Definition with_header (p : t) (page_index page_type flags page_lsn seq next_page : Z)
    (dirty : bool) : t :=
  Mk (page_size p) page_index page_type flags page_lsn seq next_page (reserved p) (slots p)
     (data p) (free_start p) dirty.

Definition with_body (p : t) (slots : list (Z * Z)) (data : bytes) (free_start : Z)
    (dirty : bool) : t :=
  Mk (page_size p) (page_index p) (page_type p) (flags p) (page_lsn p) (seq p) (next_page p)
     (reserved p) slots data free_start dirty.

Definition set_page_index (p : t) (value : Z) : result t :=
  value ← check_unsigned "page_index" value MAX_U32;
  Ok (with_header p value (page_type p) (flags p) (page_lsn p) (seq p) (next_page p) (dirty p)).

Definition set_page_type (p : t) (value : Z) : result t :=
  value ← check_unsigned "page_type" value MAX_U16;
  Ok (with_header p (page_index p) value (flags p) (page_lsn p) (seq p) (next_page p) true).

Definition set_flags (p : t) (value : Z) : result t :=
  value ← check_unsigned "flags" value MAX_U16;
  Ok (with_header p (page_index p) (page_type p) value (page_lsn p) (seq p) (next_page p) true).

Definition set_page_lsn (p : t) (value : Z) : result t :=
  value ← check_unsigned "page_lsn" value MAX_U64;
  Ok (with_header p (page_index p) (page_type p) (flags p) value (seq p) (next_page p) true).

Definition set_seq (p : t) (value : Z) : result t :=
  value ← check_unsigned "seq" value MAX_U32;
  Ok (with_header p (page_index p) (page_type p) (flags p) (page_lsn p) value (next_page p) true).

Definition set_next_page (p : t) (value : Z) : result t :=
  value ← check_unsigned "next_page" value MAX_U32;
  Ok (with_header p (page_index p) (page_type p) (flags p) (page_lsn p) (seq p) value true).

Definition set_dirty (p : t) (value : bool) : t :=
  with_header p (page_index p) (page_type p) (flags p) (page_lsn p) (seq p) (next_page p) value.

(** *** Geometry *)

Definition slot_count (p : t) : Z := zlen (slots p).

Definition free_end (p : t) : Z := page_size p - zlen (slots p) * SLOT_ENTRY_SIZE.

Definition free_space (p : t) : Z := free_end p - free_start p.

Definition can_fit (p : t) (payload_size : Z) : bool :=
  payload_size + SLOT_ENTRY_SIZE <=? free_space p.

Definition live_sum (slots : list (Z * Z)) : Z :=
  foldr (λ e acc, if decide (e = FREE_SLOT) then acc else e.2 + acc) 0 slots.

Definition live_bytes (p : t) : Z := live_sum (slots p).

Definition compactable_space (p : t) : Z := free_end p - PAGE_HEADER_SIZE - live_bytes p.

Definition header (p : t) : PageHeader.t :=
  PageHeader.Mk (page_type p) (flags p) (page_lsn p) (seq p) (zlen (slots p)) (free_start p)
    (free_end p) (reserved p) (next_page p) 0.

(** *** Slots

    Every refusal of the source is raised before the first mutation, so an [Err] stands for an
    unchanged page. *)

Definition check_slot_range (p : t) (slot : Z) : result unit :=
  if negb ((0 <=? slot) && (slot <? zlen (slots p)))
  then raise GrafxUnsupportedOperation "slot" else Ok ().

Definition entry (p : t) (slot : Z) : result (Z * Z) :=
  _ ← check_slot_range p slot;
  let entry := nth (Z.to_nat slot) (slots p) FREE_SLOT in
  if decide (entry = FREE_SLOT) then raise GrafxUnsupportedOperation "freed_slot" else Ok entry.

(** The loop body of [compact]: the packed buffer, the cursor and the rebuilt directory. *)
Definition compact_step (source : bytes) (acc : bytes * Z * list (Z * Z)) (e : Z * Z)
    : bytes * Z * list (Z * Z) :=
  let '(packed, cursor, rebuilt) := acc in
  let '(offset, length) := e in
  if decide (e = FREE_SLOT) then (packed, cursor, rebuilt ++ [FREE_SLOT])
  else (set_slice packed cursor (cursor + length) (slice source offset (offset + length)),
        cursor + length, rebuilt ++ [(cursor, length)]).

Definition compact (p : t) : Z * t :=
  let before := free_start p in
  let '(packed, cursor, rebuilt) :=
    fold_left (compact_step (data p)) (slots p) (zeros (page_size p), PAGE_HEADER_SIZE, []) in
  let reclaimed := before - cursor in
  (reclaimed, with_body p rebuilt packed cursor (if reclaimed =? 0 then dirty p else true)).

Definition place_new (p : t) (content : bytes) : Z * t :=
  let offset := free_start p in
  let data := set_slice (data p) offset (offset + zlen content) content in
  let slots := slots p ++ [(offset, zlen content)] in
  (zlen slots - 1, with_body p slots data (offset + zlen content) true).

Definition insert_slot (p : t) (content : bytes) : result (Z * t) :=
  if negb (can_fit p (zlen content)) then
    let capacity := compactable_space p - SLOT_ENTRY_SIZE in
    if capacity <? zlen content then raise PageFullError ""
    else Ok (place_new (compact p).2 content)
  else Ok (place_new p content).

Definition read_slot (p : t) (slot : Z) : result bytes :=
  '(offset, length) ← entry p slot;
  Ok (slice (data p) offset (offset + length)).

Definition slot_length (p : t) (slot : Z) : result Z :=
  e ← entry p slot; Ok e.2.

Definition is_slot_free (p : t) (slot : Z) : result bool :=
  _ ← check_slot_range p slot;
  Ok (bool_decide (nth (Z.to_nat slot) (slots p) FREE_SLOT = FREE_SLOT)).

Definition update_slot (p : t) (slot : Z) (content : bytes) : result t :=
  '(offset, length) ← entry p slot;
  let i := Z.to_nat slot in
  if zlen content <=? length then
    let d := set_slice (data p) offset (offset + zlen content) content in
    let d := set_slice d (offset + zlen content) (offset + length)
               (zeros (length - zlen content)) in
    Ok (with_body p (<[i := (offset, zlen content)]> (slots p)) d (free_start p) true)
  else
    let capacity := compactable_space p + length in
    if capacity <? zlen content then raise PageFullError ""
    else
      let d := set_slice (data p) offset (offset + length) (zeros length) in
      let p := with_body p (<[i := FREE_SLOT]> (slots p)) d (free_start p) (dirty p) in
      let p := if free_space p <? zlen content then (compact p).2 else p in
      let new_offset := free_start p in
      let d := set_slice (data p) new_offset (new_offset + zlen content) content in
      Ok (with_body p (<[i := (new_offset, zlen content)]> (slots p)) d
            (new_offset + zlen content) true).

Definition free_slot (p : t) (slot : Z) : result (Z * t) :=
  '(offset, length) ← entry p slot;
  let d := set_slice (data p) offset (offset + length) (zeros length) in
  Ok (length, with_body p (<[Z.to_nat slot := FREE_SLOT]> (slots p)) d (free_start p) true).

Definition iter_slots (p : t) : list (Z * bytes) :=
  omap (λ '(i, e), if decide (e = FREE_SLOT) then None
                   else Some (Z.of_nat i, slice (data p) e.1 (e.1 + e.2)))
       (imap pair (slots p)).

Definition live_slots (p : t) : list Z :=
  omap (λ '(i, e), if decide (e = FREE_SLOT) then None else Some (Z.of_nat i))
       (imap pair (slots p)).

Definition is_pristine (p : t) : bool :=
  (page_type p =? page_type_value FREE) && bool_decide (slots p = [])
  && (free_start p =? PAGE_HEADER_SIZE) && (next_page p =? NO_PAGE)
  && (page_lsn p =? NO_LSN) && (flags p =? 0).

Definition clear (p : t) : t := with_body p [] (zeros (page_size p)) PAGE_HEADER_SIZE true.

Definition replace_with (p other : t) : result t :=
  if negb (page_size other =? page_size p) then raise GrafxCorruptionDetected "page_size"
  else Ok (Mk (page_size p) (page_index p) (page_type other) (flags other) (page_lsn other)
              (seq other) (next_page other) (reserved other) (slots other) (data other)
              (free_start other) true).

(** [copy] duplicates every field; values being immutable here, the duplicate is the value. *)
Definition copy (p : t) : t :=
  Mk (page_size p) (page_index p) (page_type p) (flags p) (page_lsn p) (seq p) (next_page p)
     (reserved p) (slots p) (data p) (free_start p) (dirty p).

(** ** The invariant *)

Definition disj (e e' : Z * Z) : Prop :=
  e = FREE_SLOT ∨ e' = FREE_SLOT ∨ e.1 + e.2 <= e'.1 ∨ e'.1 + e'.2 <= e.1.

Definition separated (slots : list (Z * Z)) : Prop :=
  ∀ i j e e', slots !! i = Some e → slots !! j = Some e' → i ≠ j → disj e e'.

Definition entry_in (lo hi : Z) (e : Z * Z) : Prop :=
  e = FREE_SLOT ∨ lo <= e.1 ∧ 0 <= e.2 ∧ e.1 + e.2 <= hi.

(** The geometry of one page body: the buffer has the page's size, the live entries lie in the
    payload area and do not overlap, and the directory does not reach down into it. *)
Record body_ok (size : Z) (slots : list (Z * Z)) (data : bytes) (start : Z) : Prop := {
  body_data : zlen data = size;
  body_start : PAGE_HEADER_SIZE <= start;
  body_space : start + zlen slots * SLOT_ENTRY_SIZE <= size;
  body_entries : Forall (entry_in PAGE_HEADER_SIZE start) slots;
  body_separated : separated slots
}.

Record wf (p : t) : Prop := {
  wf_size : validate_page_size (page_size p) = Ok (page_size p);
  wf_index : 0 <= page_index p <= MAX_U32;
  wf_type : 0 <= page_type p <= MAX_U16;
  wf_flags : 0 <= flags p <= MAX_U16;
  wf_lsn : 0 <= page_lsn p <= MAX_U64;
  wf_seq : 0 <= seq p <= MAX_U32;
  wf_next : 0 <= next_page p <= MAX_U32;
  wf_reserved : 0 <= reserved p <= MAX_U16;
  wf_body : body_ok (page_size p) (slots p) (data p) (free_start p)
}.

(** What a page means: one optional payload per slot id. *)
Definition entry_content (d : bytes) (e : Z * Z) : option bytes :=
  if decide (e = FREE_SLOT) then None else Some (slice d e.1 (e.1 + e.2)).

Definition contents (p : t) : list (option bytes) := entry_content (data p) <$> slots p.

(** No residue: a nonzero byte of the buffer belongs to a live payload. *)
Definition covered (slots : list (Z * Z)) (n : Z) : Prop :=
  ∃ e, e ∈ slots ∧ e ≠ FREE_SLOT ∧ e.1 <= n < e.1 + e.2.

Definition clean (p : t) : Prop :=
  ∀ n b, data p !! n = Some b → b ≠ Byte.x00 → covered (slots p) (Z.of_nat n).

End Page.

(** ** The abstract specification

    A page of [size] bytes is a list of optional payloads, indexed by slot id.  Only the sum of
    the live payloads decides whether an operation fits: where the bytes lie does not matter. *)

Module PageSpec.

Abbreviation state := (list (option bytes)).

Definition used (c : state) : Z := foldr (λ x acc, from_option zlen 0 x + acc) 0 c.

Definition capacity (size : Z) (c : state) : Z :=
  size - PAGE_HEADER_SIZE - zlen c * SLOT_ENTRY_SIZE - used c.

Definition live (c : state) (slot : Z) : result bytes :=
  if negb ((0 <=? slot) && (slot <? zlen c)) then raise GrafxUnsupportedOperation "slot"
  else match c !! Z.to_nat slot with
       | Some (Some x) => Ok x
       | _ => raise GrafxUnsupportedOperation "freed_slot"
       end.

Definition insert (size : Z) (c : state) (x : bytes) : result (Z * state) :=
  if capacity size c <? zlen x + SLOT_ENTRY_SIZE then raise PageFullError ""
  else Ok (zlen c, c ++ [Some x]).

Definition update (size : Z) (c : state) (slot : Z) (x : bytes) : result state :=
  old ← live c slot;
  if capacity size c + zlen old <? zlen x then raise PageFullError ""
  else Ok (<[Z.to_nat slot := Some x]> c).

Definition free (c : state) (slot : Z) : result (Z * state) :=
  old ← live c slot; Ok (zlen old, <[Z.to_nat slot := None]> c).

End PageSpec.

(** One request to a page, its answer, and the two machines that serve it: the page and the
    specification.  [Compact] and the failed requests leave the meaning of the page alone. *)

Inductive request :=
  | Insert (x : bytes) | Update (slot : Z) (x : bytes) | Free (slot : Z) | Read (slot : Z)
  | Compact | Clear.

Inductive answer := Slot (slot : Z) | Payload (x : bytes) | Freed (n : Z) | Done.

Definition serve (p : Page.t) (r : request) : result (answer * Page.t) :=
  match r with
  | Insert x => '(slot, p) ← Page.insert_slot p x; Ok (Slot slot, p)
  | Update slot x => p ← Page.update_slot p slot x; Ok (Done, p)
  | Free slot => '(n, p) ← Page.free_slot p slot; Ok (Freed n, p)
  | Read slot => x ← Page.read_slot p slot; Ok (Payload x, p)
  | Compact => Ok (Done, (Page.compact p).2)
  | Clear => Ok (Done, Page.clear p)
  end.

Definition serve_spec (size : Z) (c : PageSpec.state) (r : request)
    : result (answer * PageSpec.state) :=
  match r with
  | Insert x => '(slot, c) ← PageSpec.insert size c x; Ok (Slot slot, c)
  | Update slot x => c ← PageSpec.update size c slot x; Ok (Done, c)
  | Free slot => '(n, c) ← PageSpec.free c slot; Ok (Freed n, c)
  | Read slot => x ← PageSpec.live c slot; Ok (Payload x, c)
  | Compact => Ok (Done, c)
  | Clear => Ok (Done, [])
  end.

(** A run of requests: every answer or refusal, and the final state; a refused request leaves
    the state as it was. *)
Fixpoint run {S} (step : S → request → result (answer * S)) (s : S) (rs : list request)
    : list (result answer) * S :=
  match rs with
  | [] => ([], s)
  | r :: rs =>
      match step s r with
      | Ok (a, s') => let '(l, s'') := run step s' rs in (Ok a :: l, s'')
      | Err e => let '(l, s'') := run step s rs in (Err e :: l, s'')
      end
  end.

(** ** Lemmas on directories *)

Import Page.

Lemma check_unsigned_Ok f v m w : check_unsigned f v m = Ok w ↔ w = v ∧ 0 <= v <= m.
Proof. apply require_unsigned_Ok. Qed.

Lemma disj_sym e e' : disj e e' → disj e' e.
Proof. unfold disj. tauto. Qed.

Lemma separated_cons e l : separated (e :: l) ↔ Forall (disj e) l ∧ separated l.
Proof.
  split.
  - intros H. split.
    + apply Forall_lookup. intros i e' Hi. by apply (H 0%nat (S i)).
    + intros i j a b Hi Hj Hij. apply (H (S i) (S j)); [done|done|congruence].
  - intros [He Hl] [|i] [|j] a b; simpl; intros Hi Hj Hij; [done|..].
    + injection Hi as <-. by apply (Forall_lookup_1 _ _ _ _ He Hj).
    + injection Hj as <-. by apply disj_sym, (Forall_lookup_1 _ _ _ _ He Hi).
    + apply (Hl i j); [done|done|congruence].
Qed.

Lemma separated_nil : separated [].
Proof. intros i j e e'. by rewrite lookup_nil. Qed.

Lemma separated_snoc l e : separated l → Forall (disj e) l → separated (l ++ [e]).
Proof.
  induction l as [|x l IH]; intros Hs Hf; simpl; apply separated_cons.
  - split; [constructor|apply separated_nil].
  - apply separated_cons in Hs as [Hx Hs]. apply Forall_cons in Hf as [Hex Hf]. split; [|by apply IH].
    apply Forall_app. split; [done|]. constructor; [by apply disj_sym|constructor].
Qed.

Lemma separated_insert l i e :
  separated l → (∀ j e', j ≠ i → l !! j = Some e' → disj e e') → separated (<[i:=e]> l).
Proof.
  intros Hl He a b x y Ha Hb Hab.
  apply list_lookup_insert_Some in Ha as [(<-&<-&_) | [Ha ?]];
    apply list_lookup_insert_Some in Hb as [(<-&<-&_) | [Hb ?]].
  - done.
  - by apply (He b).
  - apply disj_sym. by apply (He a).
  - by apply (Hl a b).
Qed.

Lemma separated_filter (P : Z * Z → Prop) `{∀ e, Decision (P e)} l :
  separated l → separated (filter P l).
Proof.
  induction l as [|e l IH]; [done|]. intros [He Hl]%separated_cons.
  destruct (decide (P e)); [rewrite filter_cons_True by done|rewrite filter_cons_False by done; auto].
  apply separated_cons. split; [|by apply IH].
  apply Forall_forall. intros x [_ Hx]%list_elem_of_filter. by apply (proj1 (Forall_forall _ _) He).
Qed.

Lemma entry_in_mono lo hi hi' e : hi <= hi' → entry_in lo hi e → entry_in lo hi' e.
Proof. unfold entry_in. intros ? [->|?]; [by left|right; lia]. Qed.

Lemma Forall_entry_in_mono lo hi hi' l :
  hi <= hi' → Forall (entry_in lo hi) l → Forall (entry_in lo hi') l.
Proof. intros. eapply Forall_impl; [done|]. intros. by eapply entry_in_mono. Qed.

Lemma live_sum_cons e l : live_sum (e :: l) = (if decide (e = FREE_SLOT) then 0 else e.2) + live_sum l.
Proof. simpl. case_decide; lia. Qed.

Lemma live_sum_app l l' : live_sum (l ++ l') = live_sum l + live_sum l'.
Proof. induction l as [|e l IH]; [done|]. simpl app. rewrite !live_sum_cons, IH. lia. Qed.

Lemma live_sum_nonneg lo hi l : Forall (entry_in lo hi) l → 0 <= live_sum l.
Proof.
  induction 1 as [|e l He _ IH]; [done|]. rewrite live_sum_cons.
  destruct He as [->|He]; case_decide; try done; lia.
Qed.

Lemma live_sum_filter_split (P Q : Z * Z → Prop) `{∀ e, Decision (P e)} `{∀ e, Decision (Q e)}
    lo hi l :
  Forall (entry_in lo hi) l → Forall (λ e, e = FREE_SLOT ∨ P e ∨ Q e) l →
  live_sum l <= live_sum (filter P l) + live_sum (filter Q l).
Proof.
  induction 1 as [|e l He Hl IH]; [done|]. intros [Hpq Hr]%Forall_cons. specialize (IH Hr).
  assert (0 <= (if decide (e = FREE_SLOT) then 0 else e.2)).
  { case_decide; [done|]. destruct He as [->|He]; [done|lia]. }
  rewrite !filter_cons, live_sum_cons.
  repeat case_decide; rewrite ?live_sum_cons; repeat case_decide; try lia; tauto.
Qed.

(** Disjoint live entries of an interval are no longer, together, than the interval. *)
Lemma live_sum_bound n l lo hi :
  (length l <= n)%nat → lo <= hi → Forall (entry_in lo hi) l → separated l →
  live_sum l <= hi - lo.
Proof.
  revert l lo hi. induction n as [|n IH]; intros [|e l] lo hi Hn Hlo Hin Hsep; simpl in Hn;
    try lia; try (simpl; lia).
  apply Forall_cons in Hin as [He Hin]. apply separated_cons in Hsep as [Hd Hsep].
  rewrite live_sum_cons. case_decide as Hfree.
  { rewrite Z.add_0_l. apply IH; [lia|done..]. }
  destruct He as [?|He]; [done|].
  set (L := λ e' : Z * Z, e' ≠ FREE_SLOT ∧ e'.1 + e'.2 <= e.1).
  set (R := λ e' : Z * Z, e' ≠ FREE_SLOT ∧ e.1 + e.2 <= e'.1).
  assert (∀ e', Decision (L e')) by (intros; unfold L; apply _).
  assert (∀ e', Decision (R e')) by (intros; unfold R; apply _).
  assert (live_sum l <= live_sum (filter L l) + live_sum (filter R l)) as Hsum.
  { apply (live_sum_filter_split L R lo hi); [done|]. eapply Forall_impl; [exact Hd|].
    intros e' [?|[?|[?|?]]]; [done|by left| |]; destruct (decide (e' = FREE_SLOT)); auto;
      right; [right|left]; done. }
  assert (live_sum (filter L l) <= e.1 - lo).
  { apply IH; [pose proof (length_filter L l); lia|lia| |by apply separated_filter].
    apply Forall_forall. intros e' [[Hne HL] Hl]%list_elem_of_filter. right.
    destruct (proj1 (Forall_forall _ _) Hin e' Hl) as [?|?]; [done|lia]. }
  assert (live_sum (filter R l) <= hi - (e.1 + e.2)).
  { apply IH; [pose proof (length_filter R l); lia|lia| |by apply separated_filter].
    apply Forall_forall. intros e' [[Hne HR] Hl]%list_elem_of_filter. right.
    destruct (proj1 (Forall_forall _ _) Hin e' Hl) as [?|?]; [done|lia]. }
  lia.
Qed.

Lemma body_live_bound size l d f : body_ok size l d f → live_sum l <= f - PAGE_HEADER_SIZE.
Proof. intros [_ ? _ ? ?]. by apply (live_sum_bound (length l)). Qed.

(** ** Lemmas on payloads *)

Lemma entry_content_free d : entry_content d FREE_SLOT = None.
Proof. done. Qed.

Lemma entry_content_live d o l : PAGE_HEADER_SIZE <= o → entry_content d (o, l) = Some (slice d o (o + l)).
Proof. intros. unfold entry_content. rewrite decide_False; [done|]. intros [= -> _]. done. Qed.

Lemma entry_content_frame d a b c e :
  0 <= a → a <= b → b <= zlen d → zlen c = b - a →
  e = FREE_SLOT ∨ 0 <= e.1 ∧ (e.1 + e.2 <= a ∨ b <= e.1) →
  entry_content (set_slice d a b c) e = entry_content d e.
Proof.
  intros ???? H. unfold entry_content. case_decide; [done|].
  destruct H as [?|[? ?]]; [done|]. by rewrite slice_set_slice_disjoint by lia.
Qed.

Lemma entry_content_written d o c :
  PAGE_HEADER_SIZE <= o → o + zlen c <= zlen d →
  entry_content (set_slice d o (o + zlen c) c) (o, zlen c) = Some c.
Proof.
  intros Ho Hc. rewrite entry_content_live by done. pose proof (zlen_nonneg c).
  unfold PAGE_HEADER_SIZE in *. rewrite slice_set_slice_eq by lia. done.
Qed.

Lemma entry_content_zlen size l d f e x :
  body_ok size l d f → e ∈ l → entry_content d e = Some x → zlen x = e.2.
Proof.
  intros [Hd Hs Hsp He _] Hin. unfold entry_content. case_decide as Hf; [done|]. intros [= <-].
  destruct (proj1 (Forall_forall _ _) He e Hin) as [?|?]; [done|].
  unfold PAGE_HEADER_SIZE, SLOT_ENTRY_SIZE in *. pose proof (zlen_nonneg l).
  rewrite zlen_slice by lia. lia.
Qed.

Lemma used_contents size l d f :
  body_ok size l d f → PageSpec.used (entry_content d <$> l) = live_sum l.
Proof.
  intros Hb. assert (∀ e x, e ∈ l → entry_content d e = Some x → zlen x = e.2) as Hx.
  { intros. by eapply entry_content_zlen. } clear Hb. induction l as [|e l IH]; [done|].
  rewrite live_sum_cons, <-IH by (intros e' x H; apply Hx; by right). simpl. f_equal.
  destruct (entry_content d e) as [x|] eqn:E; simpl.
  - pose proof E as E'. unfold entry_content in E'. case_decide; [done|]. by apply Hx; [left|].
  - unfold entry_content in E. by case_decide.
Qed.

(** Replacing one directory entry, the other payloads being untouched. *)
Lemma contents_insert d d' (l : list (Z * Z)) (i : nat) e :
  (∀ j e', j ≠ i → l !! j = Some e' → entry_content d' e' = entry_content d e') →
  entry_content d' <$> <[i:=e]> l = <[i:=entry_content d' e]> (entry_content d <$> l).
Proof.
  intros H. rewrite list_fmap_insert. apply list_eq. intros j.
  destruct (decide (j = i)) as [->|Hj].
  - destruct (decide (i < length l)%nat).
    + by rewrite !list_lookup_insert_eq by (by rewrite length_fmap).
    + by rewrite !(proj2 (lookup_ge_None _ _)) by (rewrite length_insert, length_fmap; lia).
  - rewrite !list_lookup_insert_ne by done. rewrite !list_lookup_fmap.
    destruct (l !! j) as [e'|] eqn:E; [|done]. simpl. f_equal. by apply (H j).
Qed.

Lemma live_sum_insert (l : list (Z * Z)) (i : nat) e e' :
  l !! i = Some e → live_sum (<[i:=e']> l) = live_sum l - live_sum [e] + live_sum [e'].
Proof.
  intros Hi. rewrite insert_take_drop by (by apply lookup_lt_Some in Hi).
  rewrite <-(take_drop_middle l i e Hi) at 3.
  rewrite !live_sum_app, !live_sum_cons. lia.
Qed.

(** *** Compaction *)

Record packing (size : Z) (d : bytes) (l : list (Z * Z)) (acc : bytes * Z * list (Z * Z)) : Prop := {
  packing_data : zlen acc.1.1 = size;
  packing_cursor : acc.1.2 = PAGE_HEADER_SIZE + live_sum l;
  packing_length : length acc.2 = length l;
  packing_entries : Forall (entry_in PAGE_HEADER_SIZE acc.1.2) acc.2;
  packing_separated : separated acc.2;
  packing_contents : entry_content acc.1.1 <$> acc.2 = entry_content d <$> l;
  packing_clean : ∀ n b, acc.1.1 !! n = Some b → b ≠ Byte.x00 → covered acc.2 (Z.of_nat n)
}.

Lemma covered_app l l' n : covered l n ∨ covered l' n → covered (l ++ l') n.
Proof. intros [(e & ? & ?)|(e & ? & ?)]; exists e; rewrite elem_of_app; tauto. Qed.

Lemma zeros_no_residue size n b : zeros size !! n = Some b → b ≠ Byte.x00 → False.
Proof. unfold zeros. by intros [-> _]%lookup_replicate ?. Qed.

Lemma compact_step_packing size d l acc e :
  packing size d l acc → zlen d = size → 0 <= live_sum l →
  entry_in PAGE_HEADER_SIZE size e → e = FREE_SLOT ∨ acc.1.2 + e.2 <= size →
  packing size d (l ++ [e]) (compact_step d acc e).
Proof.
  destruct acc as [[packed cursor] rebuilt]. intros [Hd Hc Hl He Hs Hcon Hcl] Hsize Hnn Hin Hfit.
  simpl fst in *; simpl snd in *. destruct e as [o n]. unfold compact_step. case_decide as Hf.
  { rewrite Hf in *. split; simpl.
    - done.
    - rewrite live_sum_app, live_sum_cons, decide_True by done. simpl. lia.
    - rewrite !length_app. simpl. lia.
    - apply Forall_app. split; [done|]. constructor; [by left|constructor].
    - apply separated_snoc; [done|]. apply Forall_true. intros x. by left.
    - rewrite !fmap_app, Hcon. done.
    - intros k b Hk Hb. apply covered_app. left. by eapply Hcl. }
  destruct Hin as [?|Hin]; [done|]. destruct Hfit as [?|Hfit]; [done|]. simpl in Hin, Hfit.
  unfold PAGE_HEADER_SIZE in *.
  assert (zlen (slice d o (o + n)) = n) as Hz by (rewrite zlen_slice; lia).
  assert (Forall (λ e, e = FREE_SLOT ∨ 0 <= e.1 ∧ e.1 + e.2 <= cursor) rebuilt) as Hfr.
  { eapply Forall_impl; [exact He|]. intros x [->|?]; [by left|right; lia]. }
  split; simpl.
  - rewrite zlen_set_slice; lia.
  - rewrite live_sum_app, live_sum_cons, decide_False by done. simpl. unfold PAGE_HEADER_SIZE. lia.
  - rewrite !length_app. simpl. lia.
  - apply Forall_app. split; [eapply Forall_entry_in_mono; [|done]; lia|].
    constructor; [right; simpl; unfold PAGE_HEADER_SIZE; lia|constructor].
  - apply separated_snoc; [done|]. eapply Forall_impl; [exact Hfr|].
    intros x [->|?]; unfold disj; simpl; [by auto|]. right. right. right. lia.
  - rewrite !fmap_app, <-Hcon. simpl. f_equal; [|f_equal].
    + apply list_fmap_ext. intros i x Hx. apply entry_content_frame; try lia.
      destruct (Forall_lookup_1 _ _ _ _ Hfr Hx) as [->|?]; [by left|right; lia].
    + rewrite (entry_content_live d) by (unfold PAGE_HEADER_SIZE; lia).
      set (c := slice d o (o + n)) in *. clearbody c. subst n.
      apply entry_content_written; unfold PAGE_HEADER_SIZE; lia.
  - intros k b. rewrite lookup_set_slice by lia. case_decide as Hk.
    + intros _ _. apply covered_app. right. exists (cursor, n). split; [by left|].
      split; [intros [= ? ?]; lia|]. done.
    + intros ? ?. apply covered_app. left. by eapply Hcl.
Qed.

Lemma compact_fold_packing size d l f :
  body_ok size l d f →
  packing size d l (fold_left (compact_step d) l (zeros size, PAGE_HEADER_SIZE, [])).
Proof.
  intros Hb. pose proof (body_live_bound _ _ _ _ Hb) as Hlive.
  destruct Hb as [Hd Hs Hsp He _]. pose proof (zlen_nonneg l) as Hll.
  unfold PAGE_HEADER_SIZE, SLOT_ENTRY_SIZE in Hs, Hlive, Hsp.
  assert (live_sum l <= size - PAGE_HEADER_SIZE) as Hfit by (unfold PAGE_HEADER_SIZE; lia).
  apply (Forall_entry_in_mono _ _ size) in He; [|lia].
  clear Hlive Hsp Hll Hs f. revert He Hfit. induction l as [|e l IH] using rev_ind; intros He Hfit.
  - split; simpl; try done.
    + apply zlen_zeros. rewrite <-Hd. apply zlen_nonneg.
    + intros n b Hn Hb. by destruct (zeros_no_residue _ _ _ Hn Hb).
  - apply Forall_app in He as [He [Hin _]%Forall_cons].
    rewrite live_sum_app, live_sum_cons in Hfit. pose proof (live_sum_nonneg _ _ _ He) as Hnn.
    assert (0 <= (if decide (e = FREE_SLOT) then 0 else e.2)) as Hen.
    { case_decide; [done|]. destruct Hin as [?|?]; [done|lia]. }
    change (live_sum []) with 0 in Hfit.
    rewrite fold_left_app. simpl fold_left at 1.
    assert (packing size d l (fold_left (compact_step d) l (zeros size, PAGE_HEADER_SIZE, []))) as Hp.
    { apply IH; [done|lia]. }
    apply compact_step_packing; [done..|]. rewrite (packing_cursor _ _ _ _ Hp).
    case_decide; [by left|right; lia].
Qed.

(** ** Every operation keeps the invariant and implements the specification *)

Lemma with_body_wf p s d f b :
  wf p → body_ok (page_size p) s d f → wf (with_body p s d f b).
Proof. intros [] ?. by split. Qed.

Lemma with_body_same p b : with_body p (slots p) (data p) (free_start p) b = set_dirty p b.
Proof. by destruct p. Qed.

Lemma compact_ok p : wf p →
  wf (compact p).2 ∧ contents (compact p).2 = contents p ∧
  page_size (compact p).2 = page_size p ∧
  free_start (compact p).2 = PAGE_HEADER_SIZE + live_bytes p ∧
  length (slots (compact p).2) = length (slots p) ∧
  clean (compact p).2.
Proof.
  intros Hwf. pose proof (wf_body p Hwf) as Hb.
  pose proof (compact_fold_packing _ _ _ _ Hb) as Hp. unfold compact.
  destruct (fold_left _ _ _) as [[packed cursor] rebuilt].
  destruct Hp as [Hd Hc Hl He Hs Hcon Hcl]; simpl in *.
  pose proof (body_live_bound _ _ _ _ Hb). pose proof (live_sum_nonneg _ _ _ (body_entries _ _ _ _ Hb)).
  split; [|by split_and!].
  apply with_body_wf; [done|]. split; try done; [lia|].
  pose proof (body_space _ _ _ _ Hb). unfold zlen in *. rewrite Hl. lia.
Qed.

Lemma capacity_contents p : wf p → PageSpec.capacity (page_size p) (contents p) = compactable_space p.
Proof.
  intros Hwf. unfold PageSpec.capacity, compactable_space, contents, free_end, live_bytes.
  rewrite (used_contents _ _ _ _ (wf_body p Hwf)). unfold zlen. rewrite length_fmap. lia.
Qed.

Lemma free_space_le_compactable p : wf p → free_space p <= compactable_space p.
Proof.
  intros Hwf. pose proof (body_live_bound _ _ _ _ (wf_body p Hwf)).
  unfold free_space, compactable_space, live_bytes. lia.
Qed.

(** The next payload is placed at [free_start]: nothing that is live lies there. *)
Lemma below_free_start p d c :
  wf p → free_start p + c <= page_size p → 0 <= c → zlen d = c →
  Forall (λ e, entry_content (set_slice (data p) (free_start p) (free_start p + c) d) e
               = entry_content (data p) e) (slots p).
Proof.
  intros [_ _ _ _ _ _ _ _ [Hd Hs Hsp He _]] Hc Hc0 Hz. unfold PAGE_HEADER_SIZE in *.
  eapply Forall_impl; [exact He|]. intros e Hin. apply entry_content_frame; try lia.
  destruct Hin as [->|?]; [by left|right; lia].
Qed.

Lemma slots_disj_new p c :
  wf p → 0 <= c → Forall (disj (free_start p, c)) (slots p).
Proof.
  intros [_ _ _ _ _ _ _ _ [_ _ _ He _]] Hc. eapply Forall_impl; [exact He|].
  intros e [->|?]; unfold disj; simpl; auto. right. right. right. lia.
Qed.

Lemma clean_written p s d a x :
  clean p → data p = d → 0 <= a → a + zlen x <= zlen d →
  (∀ n, covered (slots p) n → ¬ (a <= n < a + zlen x) → covered s n) →
  (∀ n, a <= n < a + zlen x → covered s n) →
  ∀ n b, set_slice d a (a + zlen x) x !! n = Some b → b ≠ Byte.x00 → covered s (Z.of_nat n).
Proof.
  intros Hc <- Ha Hx Hold Hnew n b. pose proof (zlen_nonneg x).
  rewrite lookup_set_slice by lia. case_decide; intros Hn Hb; [by apply Hnew|].
  apply Hold; [by eapply Hc|done].
Qed.

Lemma place_new_ok p x :
  wf p → zlen x + SLOT_ENTRY_SIZE <= free_space p →
  wf (place_new p x).2 ∧ contents (place_new p x).2 = contents p ++ [Some x] ∧
  (place_new p x).1 = zlen (contents p) ∧ page_size (place_new p x).2 = page_size p ∧
  (clean p → clean (place_new p x).2).
Proof.
  intros Hwf Hfit. pose proof (wf_body p Hwf) as [Hd Hs Hsp He Hsep].
  pose proof (zlen_nonneg x). pose proof (zlen_nonneg (slots p)).
  unfold free_space, free_end, SLOT_ENTRY_SIZE in *. unfold place_new. simpl. split_and!.
  - apply with_body_wf; [done|]. split.
    + rewrite zlen_set_slice; unfold PAGE_HEADER_SIZE in *; lia.
    + lia.
    + rewrite zlen_app. unfold SLOT_ENTRY_SIZE. change (zlen [_]) with 1. lia.
    + apply Forall_app. split; [eapply Forall_entry_in_mono; [|done]; lia|].
      constructor; [right; simpl; lia|constructor].
    + apply separated_snoc; [done|]. by apply slots_disj_new.
  - unfold contents. simpl. rewrite fmap_app. f_equal.
    + apply list_fmap_ext. intros i e Hi.
      pose proof (below_free_start p x (zlen x) Hwf ltac:(lia) ltac:(lia) eq_refl) as Hb.
      by apply (Forall_lookup_1 _ _ _ _ Hb Hi).
    + simpl. f_equal. apply entry_content_written; lia.
  - rewrite zlen_app. unfold contents, zlen. rewrite length_fmap. simpl. lia.
  - done.
  - intros Hc. unfold clean. simpl. unfold PAGE_HEADER_SIZE in *.
    eapply clean_written; try done; try lia.
    + intros n Hn _. apply covered_app. by left.
    + intros n Hn. apply covered_app. right. exists (free_start p, zlen x). split; [by left|].
      split; [intros [= ? ?]; lia|done].
Qed.


(** The outcome of a page operation agrees with the outcome of the specification: the same
    refusal, or the same answer with the invariant kept and the specified contents. *)
Definition agrees {A} (p : Page.t) (m : result (A * Page.t)) (s : result (A * PageSpec.state)) : Prop :=
  match m, s with
  | Ok (a, p'), Ok (b, c) =>
      a = b ∧ wf p' ∧ page_size p' = page_size p ∧ contents p' = c ∧ (clean p → clean p')
  | Err e, Err e' => e = e'
  | _, _ => False
  end.

Lemma insert_slot_agrees p x :
  wf p → agrees p (insert_slot p x) (PageSpec.insert (page_size p) (contents p) x).
Proof.
  intros Hwf. pose proof (free_space_le_compactable p Hwf) as Hle.
  unfold insert_slot, PageSpec.insert, can_fit. rewrite capacity_contents by done.
  destruct (Z.leb_spec (zlen x + SLOT_ENTRY_SIZE) (free_space p)) as [Hfit|Hfit];
    cbn [negb].
  - rewrite (proj2 (Z.ltb_ge _ _)) by lia.
    destruct (place_new_ok p x Hwf Hfit) as (Hw & Hc & Hi & Hp & Hcl).
    unfold agrees. destruct (place_new p x) as [i p']. split_and!; auto.
  - destruct (Z.ltb_spec (compactable_space p - SLOT_ENTRY_SIZE) (zlen x)).
    { by rewrite (proj2 (Z.ltb_lt _ _)) by lia. }
    rewrite (proj2 (Z.ltb_ge _ _)) by lia.
    destruct (compact_ok p Hwf) as (Hw & Hc & Hsz & Hst & Hlen & Hcl).
    destruct (place_new_ok (compact p).2 x Hw) as (Hw' & Hc' & Hi' & Hp' & Hcl').
    { unfold free_space, free_end, zlen in *. rewrite Hst, Hsz, Hlen.
      unfold compactable_space, free_end, zlen in *. lia. }
    unfold agrees. destruct (place_new (compact p).2 x) as [i p']; simpl in *.
    rewrite Hi', Hc', Hc, Hp', Hsz. split_and!; auto.
Qed.

(** A live slot, seen from both sides. *)
Lemma entry_agrees p slot :
  wf p →
  match entry p slot, PageSpec.live (contents p) slot with
  | Ok e, Ok x =>
      slots p !! Z.to_nat slot = Some e ∧ entry_content (data p) e = Some x ∧ zlen x = e.2 ∧
      PAGE_HEADER_SIZE <= e.1 ∧ e.1 + e.2 <= free_start p
  | Err f, Err f' => f = f'
  | _, _ => False
  end.
Proof.
  intros Hwf. pose proof (wf_body p Hwf) as Hb.
  unfold entry, check_slot_range, PageSpec.live, contents. unfold zlen. rewrite length_fmap.
  destruct (negb _) eqn:Er; [done|]. cbn [mbind result_bind]. rewrite list_lookup_fmap.
  destruct (slots p !! Z.to_nat slot) as [e|] eqn:E.
  2:{ apply lookup_ge_None in E. lia. }
  rewrite (nth_lookup_Some _ _ _ _ E).
  destruct (decide (e = FREE_SLOT)) as [Hf|Hf]; [by rewrite Hf|].
  assert (entry_content (data p) e = Some (slice (data p) e.1 (e.1 + e.2))) as Hc.
  { unfold entry_content. by rewrite decide_False. }
  simpl. rewrite Hc. split_and!; try done.
  - pose proof (entry_content_zlen _ _ _ _ e _ Hb (list_elem_of_lookup_2 _ _ _ E) Hc) as Hz.
    exact Hz.
  - destruct (Forall_lookup_1 _ _ _ _ (body_entries _ _ _ _ Hb) E) as [?|?]; [done|lia].
  - destruct (Forall_lookup_1 _ _ _ _ (body_entries _ _ _ _ Hb) E) as [?|?]; [done|lia].
Qed.

Lemma covered_insert l (i : nat) (e e' : Z * Z) n :
  l !! i = Some e → covered l n → ¬ (e.1 <= n < e.1 + e.2) → covered (<[i:=e']> l) n.
Proof.
  intros Hi (x & [j Hj]%list_elem_of_lookup & Hx & Hn) Hne. exists x. split; [|done].
  apply list_elem_of_lookup. exists j. rewrite list_lookup_insert_ne; [done|].
  intros <-. rewrite Hi in Hj. by injection Hj as ->.
Qed.

Lemma covered_insert_new l (i : nat) e n :
  (i < length l)%nat → e ≠ FREE_SLOT → e.1 <= n < e.1 + e.2 → covered (<[i:=e]> l) n.
Proof.
  intros Hi He Hn. exists e. split; [|done]. apply list_elem_of_lookup. exists i.
  by apply list_lookup_insert_eq.
Qed.

Lemma set_slice_adjacent {A} (d x y : list A) a b c :
  0 <= a → a <= b → b <= c → c <= zlen d → zlen x = b - a → zlen y = c - b →
  set_slice (set_slice d a b x) b c y = set_slice d a c (x ++ y).
Proof.
  intros. apply list_eq. intros n.
  rewrite (lookup_set_slice (set_slice d a b x)) by (rewrite ?zlen_set_slice; lia).
  rewrite !lookup_set_slice by (rewrite ?zlen_app; lia). unfold zlen in *.
  repeat case_decide; try lia; try done.
  - rewrite lookup_app_r by lia. f_equal. lia.
  - by rewrite lookup_app_l by lia.
Qed.

(** Rewriting the bytes of one live slot, which keeps a part of them or is freed. *)
Lemma rewrite_slot_ok p (i : nat) o l x b e' :
  wf p → slots p !! i = Some (o, l) → PAGE_HEADER_SIZE <= o → 0 <= l → o + l <= free_start p →
  zlen x <= l →
  (e' = FREE_SLOT ∧ x = [] ∨ e' = (o, zlen x)) →
  let d := set_slice (data p) o (o + l) (x ++ zeros (l - zlen x)) in
  let p' := with_body p (<[i := e']> (slots p)) d (free_start p) b in
  wf p' ∧ contents p' = <[i := if decide (e' = FREE_SLOT) then None else Some x]> (contents p) ∧
  (clean p → clean p').
Proof.
  intros Hwf Hi Ho Hl Hol Hx He' d p'. pose proof (wf_body p Hwf) as [Hd Hs Hsp He Hsep].
  pose proof (zlen_nonneg x). pose proof (zlen_nonneg (slots p)).
  assert (zlen (x ++ zeros (l - zlen x)) = l) as Hz by (rewrite zlen_app, zlen_zeros; lia).
  pose proof (lookup_lt_Some _ _ _ Hi) as Hlt.
  assert ((o, l) ≠ FREE_SLOT) as Hlive by (intros [= -> _]; done).
  unfold PAGE_HEADER_SIZE, SLOT_ENTRY_SIZE in *.
  assert (∀ j e, j ≠ i → slots p !! j = Some e → entry_content d e = entry_content (data p) e) as Hframe.
  { intros j e Hj Hje. apply entry_content_frame; try lia.
    destruct (Hsep j i e (o, l) Hje Hi Hj) as [?|[?|?]]; [by left|exfalso; naive_solver|].
    destruct (Forall_lookup_1 _ _ _ _ He Hje) as [?|?]; [by left|]. right. simpl in *. lia. }
  split_and!.
  - apply with_body_wf; [done|]. unfold d. split; try done.
    + rewrite zlen_set_slice; lia.
    + unfold zlen, SLOT_ENTRY_SIZE in *. rewrite length_insert. lia.
    + apply Forall_insert; [done|]. destruct He' as [[-> _] | ->]; [by left|].
      right. simpl. unfold PAGE_HEADER_SIZE. lia.
    + apply separated_insert; [done|]. intros j e Hj Hje.
      destruct He' as [[-> _] | ->]; [by left|].
      destruct (Hsep j i e (o, l) Hje Hi Hj) as [?|[?|?]]; [by right; left|exfalso; naive_solver|].
      unfold disj. simpl in *. lia.
  - unfold contents, p'. simpl. rewrite (contents_insert (data p)) by done. f_equal.
    unfold entry_content at 1. case_decide as Hf; [done|].
    destruct He' as [[-> _] | ->]; [done|]. f_equal. simpl. unfold d.
    rewrite <-set_slice_adjacent with (b := o + zlen x) by (rewrite ?zlen_zeros; lia).
    rewrite slice_set_slice_disjoint by (rewrite ?zlen_set_slice, ?zlen_zeros; lia).
    rewrite slice_set_slice_eq by lia. done.
  - intros Hc n c. unfold p', d. simpl. rewrite lookup_set_slice by lia. case_decide as Hn.
    + intros Hlook Hc0. destruct He' as [[_ ->] | ->].
      { by destruct (zeros_no_residue _ _ _ Hlook Hc0). }
      apply covered_insert_new; [done|intros [= ? ?]; lia|]. simpl.
      apply lookup_app_Some in Hlook as [Hlook|[_ Hlook]].
      * apply lookup_lt_Some in Hlook. unfold zlen in *. lia.
      * by destruct (zeros_no_residue _ _ _ Hlook Hc0).
    + intros Hlook Hc0. eapply covered_insert; [done|by eapply Hc|]. simpl. lia.
Qed.

Lemma fill_slot_ok p (i : nat) x b :
  wf p → slots p !! i = Some FREE_SLOT → zlen x <= free_space p →
  let d := set_slice (data p) (free_start p) (free_start p + zlen x) x in
  let p' := with_body p (<[i := (free_start p, zlen x)]> (slots p)) d (free_start p + zlen x) b in
  wf p' ∧ contents p' = <[i := Some x]> (contents p) ∧ (clean p → clean p').
Proof.
  intros Hwf Hi Hx d p'. pose proof (wf_body p Hwf) as [Hd Hs Hsp He Hsep].
  pose proof (zlen_nonneg x). pose proof (lookup_lt_Some _ _ _ Hi) as Hlt.
  pose proof (zlen_nonneg (slots p)).
  unfold free_space, free_end, PAGE_HEADER_SIZE, SLOT_ENTRY_SIZE in *. split_and!.
  - apply with_body_wf; [done|]. unfold d. split.
    + rewrite zlen_set_slice; lia.
    + unfold PAGE_HEADER_SIZE. lia.
    + unfold zlen, SLOT_ENTRY_SIZE in *. rewrite length_insert. lia.
    + apply Forall_insert; [|right; simpl; unfold PAGE_HEADER_SIZE; lia].
      eapply Forall_entry_in_mono; [|done]. lia.
    + apply separated_insert; [done|]. intros j e _ Hje.
      by apply (Forall_lookup_1 _ _ _ _ (slots_disj_new p (zlen x) Hwf ltac:(lia)) Hje).
  - unfold contents, p'. simpl. rewrite (contents_insert (data p)).
    + f_equal. apply entry_content_written; unfold PAGE_HEADER_SIZE; lia.
    + intros j e _ Hje.
      by apply (Forall_lookup_1 _ _ _ _
                  (below_free_start p x (zlen x) Hwf ltac:(lia) ltac:(lia) eq_refl) Hje).
  - intros Hc. unfold clean, p', d. simpl. eapply clean_written; try done; try lia.
    + intros n Hn _. eapply covered_insert; [done..|]. simpl. lia.
    + intros n Hn. apply covered_insert_new; [done|intros [= ? ?]; lia|done].
Qed.

Lemma free_slot_agrees p slot :
  wf p → agrees p (free_slot p slot) (PageSpec.free (contents p) slot).
Proof.
  intros Hwf. unfold free_slot, PageSpec.free. pose proof (entry_agrees p slot Hwf) as He.
  destruct (entry p slot) as [[o l]|f], (PageSpec.live _ _) as [x|f']; try done; simpl.
  destruct He as (Hi & _ & Hz & Ho & Hf). simpl in *. pose proof (zlen_nonneg x).
  destruct (rewrite_slot_ok p _ o l [] true FREE_SLOT Hwf Hi Ho ltac:(lia) Hf) as (Hw & Hc & Hcl).
  { rewrite zlen_nil. lia. }
  { by left. }
  rewrite zlen_nil, Z.sub_0_r in *. by split_and!.
Qed.

(** The middle of a growing update: the slot is freed, then the page is compacted if needed. *)
Lemma make_room_ok p (i : nat) o l b (x : bytes) :
  wf p → slots p !! i = Some (o, l) → PAGE_HEADER_SIZE <= o → 0 <= l → o + l <= free_start p →
  zlen x <= compactable_space p + l →
  let d := set_slice (data p) o (o + l) (zeros l) in
  let p1 := with_body p (<[i := FREE_SLOT]> (slots p)) d (free_start p) b in
  let p2 := if free_space p1 <? zlen x then (compact p1).2 else p1 in
  wf p2 ∧ page_size p2 = page_size p ∧ contents p2 = <[i := None]> (contents p) ∧
  slots p2 !! i = Some FREE_SLOT ∧ zlen x <= free_space p2 ∧ (clean p → clean p2).
Proof.
  intros Hwf Hi Ho Hl Hf Hx d p1 p2.
  destruct (rewrite_slot_ok p i o l [] b FREE_SLOT Hwf Hi Ho Hl Hf) as (Hw1 & Hc1 & Hcl1).
  { rewrite zlen_nil. lia. }
  { by left. }
  rewrite zlen_nil, Z.sub_0_r in Hw1, Hc1, Hcl1. cbn [app] in Hw1, Hc1, Hcl1.
  fold d in Hw1, Hc1, Hcl1. fold p1 in Hw1, Hc1, Hcl1. rewrite decide_True in Hc1 by done.
  assert (page_size p2 = page_size p ∧ wf p2 ∧ contents p2 = contents p1 ∧
          zlen x <= free_space p2 ∧ (clean p → clean p2)) as (Hsz & Hw2 & Hc2 & Hfit & Hcl2).
  { unfold p2. destruct (Z.ltb_spec (free_space p1) (zlen x)); [|by split_and!].
    destruct (compact_ok p1 Hw1) as (Hw & Hc & Hp & Hst & Hlen & Hcl). split_and!; try done.
    unfold free_space, free_end, zlen in *. rewrite Hst, Hp, Hlen.
    unfold p1, live_bytes, compactable_space, free_end, live_bytes, zlen in *. simpl.
    rewrite length_insert, (live_sum_insert _ _ _ _ Hi).
    change (live_sum [FREE_SLOT]) with 0. rewrite live_sum_cons, decide_False.
    - simpl. lia.
    - intros [= -> _]. done. }
  rewrite Hc2, Hc1. split_and!; try done.
  assert (contents p2 !! i = Some None) as Hn.
  { rewrite Hc2, Hc1. apply list_lookup_insert_eq. unfold contents. rewrite length_fmap.
    by eapply lookup_lt_Some. }
  unfold contents in Hn. rewrite list_lookup_fmap in Hn.
  destruct (slots p2 !! i) as [e|]; [|done]. injection Hn as Hn.
  unfold entry_content in Hn. by case_decide; subst.
Qed.

Lemma update_slot_agrees p slot x :
  wf p →
  agrees p (p' ← update_slot p slot x; Ok (Done, p'))
           (c ← PageSpec.update (page_size p) (contents p) slot x; Ok (Done, c)).
Proof.
  intros Hwf. unfold update_slot, PageSpec.update. pose proof (entry_agrees p slot Hwf) as He.
  rewrite capacity_contents by done.
  destruct (entry p slot) as [[o l]|f], (PageSpec.live _ _) as [old|f']; try done;
    cbn [mbind result_bind].
  destruct He as (Hi & _ & Hz & Ho & Hf). simpl in Hz, Ho, Hf. rewrite Hz.
  pose proof (zlen_nonneg old). pose proof (zlen_nonneg x).
  assert (0 <= compactable_space p).
  { pose proof (free_space_le_compactable p Hwf). pose proof (body_space _ _ _ _ (wf_body p Hwf)).
    unfold free_space, free_end in *. lia. }
  destruct (Z.leb_spec (zlen x) l) as [Hle|Hgt].
  - rewrite (proj2 (Z.ltb_ge _ _)) by lia.
    destruct (rewrite_slot_ok p _ o l x true (o, zlen x) Hwf Hi Ho ltac:(lia) Hf Hle) as (Hw & Hc & Hcl).
    { by right. }
    rewrite decide_False in Hc by (intros [= -> _]; done).
    rewrite <-set_slice_adjacent with (b := o + zlen x) in Hw, Hc, Hcl;
      try (rewrite ?zlen_zeros; pose proof (body_data _ _ _ _ (wf_body p Hwf));
           pose proof (body_space _ _ _ _ (wf_body p Hwf)); pose proof (zlen_nonneg (slots p));
           unfold PAGE_HEADER_SIZE, SLOT_ENTRY_SIZE in *; lia).
    by split_and!.
  - destruct (Z.ltb_spec (compactable_space p + l) (zlen x)); [done|].
    destruct (make_room_ok p _ o l (dirty p) x Hwf Hi Ho ltac:(lia) Hf ltac:(lia))
      as (Hw2 & Hp2 & Hc2 & Hi2 & Hfit & Hcl2).
    destruct (fill_slot_ok _ _ x true Hw2 Hi2 Hfit) as (Hw3 & Hc3 & Hcl3).
    cbn [mbind result_bind agrees]. rewrite Hc2, list_insert_insert_eq in Hc3.
    split_and!; [done|exact Hw3|exact Hp2|exact Hc3|auto].
Qed.

Lemma read_slot_agrees p slot : wf p → read_slot p slot = PageSpec.live (contents p) slot.
Proof.
  intros Hwf. unfold read_slot. pose proof (entry_agrees p slot Hwf) as He.
  destruct (entry p slot) as [[o l]|f], (PageSpec.live _ _) as [x|f']; try done; simpl;
    [|by rewrite He].
  destruct He as (_ & Hx & _ & Ho & _). unfold entry_content in Hx. case_decide; [done|].
  by injection Hx as <-.
Qed.

Lemma clear_ok p : wf p → wf (clear p) ∧ clean (clear p).
Proof.
  intros Hwf. pose proof (validate_page_size_Ok _ _ (wf_size p Hwf)) as (_ & Hsz & _).
  unfold MIN_PAGE_SIZE, MAX_PAGE_SIZE in Hsz. split.
  - apply with_body_wf; [done|]. split; [|done| |constructor|apply separated_nil].
    + by rewrite zlen_zeros by lia.
    + unfold PAGE_HEADER_SIZE. change (zlen (@nil (Z * Z))) with 0. lia.
  - intros n b Hn Hb. by destruct (zeros_no_residue _ _ _ Hn Hb).
Qed.

Lemma serve_agrees p r :
  wf p → agrees p (serve p r) (serve_spec (page_size p) (contents p) r).
Proof.
  intros Hwf. destruct r as [x|slot x|slot|slot| |]; cbn [serve serve_spec].
  - pose proof (insert_slot_agrees p x Hwf) as H.
    destruct (insert_slot p x) as [[i p']|e], (PageSpec.insert _ _ _) as [[j c]|e']; try done.
    simpl in *. destruct H as (-> & H). by split.
  - by apply update_slot_agrees.
  - pose proof (free_slot_agrees p slot Hwf) as H.
    destruct (free_slot p slot) as [[i p']|e], (PageSpec.free _ _) as [[j c]|e']; try done.
    simpl in *. destruct H as (-> & H). by split.
  - rewrite read_slot_agrees by done. by destruct (PageSpec.live _ _).
  - destruct (compact_ok p Hwf) as (Hw & Hc & Hp & _ & _ & Hcl). simpl. by split_and!.
  - destruct (clear_ok p Hwf) as [Hw Hcl]. simpl. by split_and!.
Qed.

Lemma make_ok page_type page_size page_index page_lsn seq flags next_page p :
  make page_type page_size page_index page_lsn seq flags next_page = Ok p →
  wf p ∧ contents p = [] ∧ clean p ∧ Page.page_size p = page_size.
Proof.
  unfold make. intros H. inv_ok H.
  repeat match goal with E : check_unsigned _ _ _ = Ok _ |- _ =>
    apply check_unsigned_Ok in E as [-> ?] end.
  pose proof E as E'. apply validate_page_size_Ok in E' as (-> & Hs & _). injection H as <-.
  unfold MIN_PAGE_SIZE, MAX_PAGE_SIZE in Hs.
  split; [|split_and!; try done; intros n b Hn Hb; by destruct (zeros_no_residue _ _ _ Hn Hb)].
  split; simpl; try done.
  split; [by rewrite zlen_zeros by lia|done| |constructor|apply separated_nil].
  change (zlen (@nil (Z * Z))) with 0. unfold PAGE_HEADER_SIZE. lia.
Qed.

Lemma run_agrees p rs :
  wf p →
  run (serve_spec (page_size p)) (contents p) rs
    = ((run serve p rs).1, contents (run serve p rs).2) ∧
  wf (run serve p rs).2 ∧ page_size (run serve p rs).2 = page_size p ∧
  (clean p → clean (run serve p rs).2).
Proof.
  revert p. induction rs as [|r rs IH]; intros p Hwf; [done|]. simpl.
  pose proof (serve_agrees p r Hwf) as H. unfold agrees in H.
  destruct (serve p r) as [[a p']|e], (serve_spec (page_size p) (contents p) r) as [[a' c]|e'];
    try done.
  - destruct H as (-> & Hw & Hp & <- & Hcl). destruct (IH p' Hw) as (Hr & Hw' & Hp' & Hcl').
    rewrite Hp in Hr. rewrite Hr. destruct (run serve p' rs) as [l p'']. simpl in *.
    split_and!; [done..|congruence|auto].
  - subst e'. destruct (IH p Hwf) as (Hr & Hw' & Hp' & Hcl').
    rewrite Hr. destruct (run serve p rs) as [l p'']. by split_and!.
Qed.

(** A refused or a served request other than [Clear] never revives a freed slot. *)
Lemma serve_spec_freed size c r a c' (i : nat) :
  serve_spec size c r = Ok (a, c') → r ≠ Clear → c !! i = Some None → c' !! i = Some None.
Proof.
  assert (∀ slot x, PageSpec.live c slot = Ok x → c !! i = Some None → Z.to_nat slot ≠ i) as Hlive.
  { unfold PageSpec.live, raise. intros slot x H Hi <-. rewrite Hi in H. by case_match. }
  unfold serve_spec, PageSpec.insert, PageSpec.update, PageSpec.free, raise.
  intros H Hr Hi. destruct r as [x|slot x|slot|slot| |]; inv_ok H.
  - destruct x0 as [j c'']. injection H as <- <-. case_match; [done|]. injection E as <- <-.
    by apply lookup_app_l_Some.
  - injection H as <- <-. inv_ok E. case_match; [done|]. injection E as <-.
    rewrite list_lookup_insert_ne; eauto.
  - destruct x as [j c'']. injection H as <- <-. inv_ok E. injection E as <- <-.
    rewrite list_lookup_insert_ne; eauto.
  - by injection H as <- <-.
  - by injection H as <- <-.
  - done.
Qed.

Lemma run_spec_freed size c rs (i : nat) :
  Clear ∉ rs → c !! i = Some None → (run (serve_spec size) c rs).2 !! i = Some None.
Proof.
  revert c. induction rs as [|r rs IH]; intros c Hrs Hi; [done|].
  apply not_elem_of_cons in Hrs as [Hr Hrs]. simpl.
  destruct (serve_spec size c r) as [[a c']|e] eqn:E.
  - apply (serve_spec_freed _ _ _ _ _ i) in E; [|done..].
    specialize (IH c' Hrs E). by destruct (run _ c' rs).
  - specialize (IH c Hrs Hi). by destruct (run _ c rs).
Qed.

(** ** Properties *)

(** C23: the slotted page implements its specification.  From any well-formed page, any sequence
    of insertions, updates, frees, reads, compactions and clears gives exactly the answers and
    the refusals of the abstract page (a list of optional payloads where an operation fits iff
    the sum of the live payloads leaves room), ends in a well-formed page with the specified
    contents, and never leaves the residue of a removed payload in the buffer. *)
Theorem page_refines_spec (p : Page.t) (rs : list request) (Hwf : wf p) :
  let '(answers, p') := run serve p rs in
  run (serve_spec (page_size p)) (contents p) rs = (answers, contents p') ∧
  wf p' ∧ page_size p' = page_size p ∧ (clean p → clean p').
Proof.
  pose proof (run_agrees p rs Hwf) as H. by destruct (run serve p rs).
Qed.

Lemma page_refines_spec_witness :
  ∃ p, make 2 512 7 0 0 0 NO_PAGE = Ok p ∧
    let rs := [Insert (replicate 200 Byte.x61); Insert (replicate 200 Byte.x62); Free 0; Read 0;
               Insert (replicate 240 Byte.x63); Update 1 (replicate 250 Byte.x64); Read 2] in
    (run serve p rs).1 =
      [Ok (Slot 0); Ok (Slot 1); Ok (Freed 200); raise GrafxUnsupportedOperation "freed_slot";
       Ok (Slot 2); raise PageFullError ""; Ok (Payload (replicate 240 Byte.x63))] ∧
    run (serve_spec 512) [] rs = ((run serve p rs).1, contents (run serve p rs).2) ∧
    wf (run serve p rs).2.
Proof.
  destruct (make 2 512 7 0 0 0 NO_PAGE) as [p|e] eqn:E; [|discriminate E].
  exists p. split; [done|]. intros rs. destruct (make_ok _ _ _ _ _ _ _ _ E) as (Hw & Hc & _ & Hp).
  pose proof (page_refines_spec p rs Hw) as H. split.
  { vm_compute in E. injection E as <-. vm_compute. reflexivity. }
  rewrite Hc, Hp in H. destruct (run serve p rs) as [l p']. split; apply H.
Defined.

(** a freed slot id is never reused and never resolves again.  Whatever requests follow,
    short of clearing the page, reading the slot is refused as a freed slot. *)
Theorem freed_slot_never_revives (p : Page.t) (slot : Z) (rs : list request)
    (Hwf : wf p) (Hfreed : read_slot p slot = raise GrafxUnsupportedOperation "freed_slot")
    (Hrs : Clear ∉ rs) :
  read_slot (run serve p rs).2 slot = raise GrafxUnsupportedOperation "freed_slot".
Proof.
  destruct (run_agrees p rs Hwf) as (Hr & Hw & _).
  rewrite read_slot_agrees in * by done. unfold PageSpec.live, raise in *.
  destruct (negb _) eqn:Er in Hfreed; [discriminate|].
  destruct (contents p !! Z.to_nat slot) as [[x|]|] eqn:Ei; [discriminate| |].
  2:{ apply lookup_ge_None in Ei. unfold zlen in Er. lia. }
  apply (run_spec_freed (page_size p) _ rs) in Ei; [|done]. rewrite Hr in Ei. simpl in Ei.
  pose proof (lookup_lt_Some _ _ _ Ei). rewrite Ei. by case_match; [unfold zlen in *; lia|].
Qed.

Lemma freed_slot_never_revives_witness :
  ∃ p, (make 2 512 0 0 0 0 NO_PAGE ≫= λ p, Ok (run serve p [Insert [Byte.x61]; Free 0]).2) = Ok p ∧
    read_slot p 0 = raise GrafxUnsupportedOperation "freed_slot" ∧
    read_slot (run serve p [Insert [Byte.x62]; Compact; Insert [Byte.x63]]).2 0
      = raise GrafxUnsupportedOperation "freed_slot".
Proof.
  destruct (make 2 512 0 0 0 0 NO_PAGE) as [q|e] eqn:E; [|discriminate E].
  destruct (make_ok _ _ _ _ _ _ _ _ E) as (Hw & _). eexists. split; [reflexivity|].
  assert (read_slot (run serve q [Insert [Byte.x61]; Free 0]).2 0
          = raise GrafxUnsupportedOperation "freed_slot") as Hf.
  { vm_compute in E. injection E as <-. vm_compute. reflexivity. }
  split; [exact Hf|]. apply freed_slot_never_revives; [|exact Hf|].
  - by apply (run_agrees q _ Hw).
  - by rewrite !not_elem_of_cons; split_and!; [..|apply not_elem_of_nil].
Defined.

(** compaction reclaims exactly the dead bytes.  On a well-formed page it returns the
    number of payload bytes no live slot uses, which is never negative, keeps every slot id and
    payload, turns the whole compactable space into contiguous free space and leaves no
    residue; compacting again reclaims nothing. *)
Theorem compact_reclaims (p : Page.t) (Hwf : wf p) :
  let '(reclaimed, p') := compact p in
  reclaimed = free_start p - PAGE_HEADER_SIZE - live_bytes p ∧ 0 <= reclaimed ∧
  wf p' ∧ contents p' = contents p ∧ free_space p' = compactable_space p ∧ clean p' ∧
  (compact p').1 = 0.
Proof.
  destruct (compact_ok p Hwf) as (Hw & Hc & Hp & Hst & Hlen & Hcl).
  assert (∀ q, wf q → (compact q).1 = free_start q - PAGE_HEADER_SIZE - live_bytes q) as Hrec.
  { intros q Hq. pose proof (compact_fold_packing _ _ _ _ (wf_body q Hq)) as H. unfold compact.
    destruct (fold_left _ _ _) as [[d c] l]. apply packing_cursor in H. simpl in *.
    unfold live_bytes. lia. }
  pose proof (Hrec p Hwf) as H1. pose proof (Hrec _ Hw) as H2.
  assert (live_bytes (compact p).2 = live_bytes p) as Hlive.
  { unfold live_bytes. rewrite <-(used_contents _ _ _ _ (wf_body _ Hw)).
    rewrite <-(used_contents _ _ _ _ (wf_body p Hwf)). by f_equal. }
  pose proof (body_live_bound _ _ _ _ (wf_body p Hwf)).
  destruct (compact p) as [r p']. cbn [fst snd] in *. unfold free_space, compactable_space, free_end, zlen in *.
  rewrite Hst, Hp, Hlen in *. unfold live_bytes in *. split_and!; try done; lia.
Qed.

Lemma compact_reclaims_witness :
  ∃ p, (make 2 512 0 0 0 0 NO_PAGE ≫= λ p,
          Ok (run serve p [Insert [Byte.x61; Byte.x62; Byte.x63]; Insert [Byte.x64]; Free 0]).2) = Ok p ∧
    (compact p).1 = 3 ∧ contents (compact p).2 = [None; Some [Byte.x64]] ∧ clean (compact p).2.
Proof.
  destruct (make 2 512 0 0 0 0 NO_PAGE) as [q|e] eqn:E; [|discriminate E].
  destruct (make_ok _ _ _ _ _ _ _ _ E) as (Hw & _). eexists. split; [reflexivity|].
  set (p := (run serve q [Insert [Byte.x61; Byte.x62; Byte.x63]; Insert [Byte.x64]; Free 0]).2).
  pose proof (compact_reclaims p ltac:(by apply (run_agrees q _ Hw))) as H.
  assert ((compact p).1 = 3 ∧ contents p = [None; Some [Byte.x64]]) as [H3 Hc].
  { vm_compute in E. injection E as <-. by vm_compute. }
  destruct (compact p) as [r p']. destruct H as (_ & _ & _ & Hk & _ & Hcl & _). split_and!; [done| |done].
  simpl. by rewrite Hk.
Defined.
