(* ===== verification/SlottedCodec.v ===== *)
(** The page codec: the serialisation half of src/src/okto_grafx/domain/page/slotted.py.

    [to_bytes] and [from_bytes] with the directory encoder and decoder they use.  The theorems
    relate them to the invariant [Page.wf] of Slotted: what is written is read back, whatever
    bytes are read give a well-formed page or a classified refusal, and a damaged byte is
    always seen. *)

From S2P Require Import Prelude Ids Layout Checksum Slotted.

Import Page.

(** ** Definitions *)

(** [Struct(f"<{n}H")]: [n] unsigned 16-bit integers. *)
Definition pack_u16s (values : list Z) : result bytes :=
  chunks ← traverse (pack_field (U 2)) values; Ok (concat chunks).

Fixpoint unpack_u16s (n : nat) (raw : bytes) : list Z :=
  match n with
  | O => []
  | S n => le_unpack (take 2 raw) :: unpack_u16s n (drop 2 raw)
  end.

Definition unpack_u16s_from (n : nat) (raw : bytes) (off : Z) : result (list Z) :=
  if 2 * Z.of_nat n <=? zlen raw - off then Ok (unpack_u16s n (drop (Z.to_nat off) raw))
  else raise StructError "".

Definition encode_directory (entries : list (Z * Z)) : result bytes :=
  let flat := concat ((λ e, [e.1; e.2]) <$> reverse entries) in
  match pack_u16s flat with
  | Ok raw => Ok raw
  | Err _ =>
      chunks ← traverse (λ e, encode_slot_entry e.1 e.2) (reverse entries); Ok (concat chunks)
  end.

(** [l[a:] = c]. *)
Definition set_tail {A} (l : list A) (a : Z) (c : list A) : list A := take (Z.to_nat a) l ++ c.

Definition to_bytes (p : Page.t) : result bytes :=
  let image := zeros (page_size p) in
  let image := set_slice image PAGE_HEADER_SIZE (free_start p)
                 (slice (data p) PAGE_HEADER_SIZE (free_start p)) in
  image ← (if decide (slots p = []) then Ok image
           else
             let directory_start := page_size p - zlen (slots p) * SLOT_ENTRY_SIZE in
             directory ← encode_directory (slots p);
             Ok (set_tail image directory_start directory));
  head ← PageHeader.encode (header p);
  let image := set_slice image 0 PAGE_HEADER_SIZE head in
  let checksum := crc32c_of (slice image CHECKSUM_SIZE (page_size p)) in
  Ok (set_slice image 0 CHECKSUM_SIZE (le_pack 4 checksum)).

(** Python compares tuples lexicographically. *)
Definition tuple_le (a b : Z * Z) : Prop := a.1 < b.1 ∨ a.1 = b.1 ∧ a.2 <= b.2.

#[export] Instance tuple_le_dec : RelDecision tuple_le.
Proof. intros a b. unfold tuple_le. apply _. Defined.

(** The loop body of [_decode_directory] for one slot. *)
Definition decode_entry (flat : list Z) (slot_count free_start : Z) (slot : nat) : result (Z * Z) :=
  let reversed_slot := (Z.to_nat slot_count - slot - 1)%nat in
  let offset := nth (reversed_slot * 2) flat 0 in
  let length := nth (reversed_slot * 2 + 1) flat 0 in
  if decide ((offset, length) = FREE_SLOT) then Ok FREE_SLOT
  else if (offset <? PAGE_HEADER_SIZE) || (free_start <? offset + length)
  then raise GrafxCorruptionDetected "slot_entry"
  else Ok (offset, length).

Definition occupied (entries : list (Z * Z)) : list (Z * Z) :=
  (λ e, (e.1, e.1 + e.2)) <$> filter (λ e, e ≠ FREE_SLOT) entries.

(** [any(end > next_start for ... in zip(occupied, occupied[1:]))]. *)
Definition overlapping (ranges : list (Z * Z)) : bool :=
  existsb (λ '(r, r'), r'.1 <? r.2) (zip ranges (tail ranges)).

Definition decode_directory (raw : bytes) (h : PageHeader.t) (size : Z) : result (list (Z * Z)) :=
  let slot_count := PageHeader.slot_count h in
  let free_start := PageHeader.free_start h in
  let directory_bytes := slot_count * SLOT_ENTRY_SIZE in
  if size <? PAGE_HEADER_SIZE + directory_bytes
  then raise GrafxCorruptionDetected "slot_count"
  else if negb (PageHeader.free_end h =? size - directory_bytes)
  then raise GrafxCorruptionDetected "free_end"
  else if negb ((PAGE_HEADER_SIZE <=? free_start) && (free_start <=? PageHeader.free_end h))
  then raise GrafxCorruptionDetected "free_start"
  else
    flat ← (if slot_count =? 0 then Ok []
            else unpack_u16s_from (Z.to_nat (slot_count * 2)) raw (PageHeader.free_end h));
    entries ← traverse (decode_entry flat slot_count free_start)
                (List.seq 0 (Z.to_nat slot_count));
    if overlapping (merge_sort tuple_le (occupied entries))
    then raise GrafxCorruptionDetected "slot_entry"
    else Ok entries.

Definition from_decoded (h : PageHeader.t) (entries : list (Z * Z)) (raw : bytes)
    (page_size : Z) (page_index : option Z) : result Page.t :=
  p ← make (PageHeader.page_type h) page_size (default 0 page_index) (PageHeader.page_lsn h)
        (PageHeader.seq h) (PageHeader.flags h) (PageHeader.next_page h);
  let start := PageHeader.free_start h in
  Ok (Mk (Page.page_size p) (Page.page_index p) (Page.page_type p) (Page.flags p)
         (Page.page_lsn p) (Page.seq p) (Page.next_page p) (PageHeader.reserved h) entries
         (set_slice (data p) PAGE_HEADER_SIZE start (slice raw PAGE_HEADER_SIZE start))
         start false).

Definition from_bytes (raw : bytes) (page_size page_index : option Z) (verify : bool)
    : result Page.t :=
  size ← match page_size with
         | None => validate_page_size (zlen raw)
         | Some n =>
             size ← validate_page_size n;
             if negb (zlen raw =? size) then raise GrafxCorruptionDetected "page_image"
             else Ok size
         end;
  h ← PageHeader.decode raw;
  _ ← (if verify then
         let expected := crc32c_of (slice raw CHECKSUM_SIZE size) in
         if negb (expected =? PageHeader.checksum h)
         then raise GrafxCorruptionDetected "checksum" else Ok ()
       else Ok ());
  entries ← decode_directory raw h size;
  from_decoded h entries raw size page_index.

(** [Page.__eq__]. *)
Definition page_eqb (p q : Page.t) : bool :=
  (Page.page_size p =? Page.page_size q) && (Page.page_type p =? Page.page_type q)
  && (Page.flags p =? Page.flags q) && (Page.page_lsn p =? Page.page_lsn q)
  && (Page.seq p =? Page.seq q) && (Page.next_page p =? Page.next_page q)
  && bool_decide (slots p = slots q)
  && bool_decide (slice (data p) PAGE_HEADER_SIZE (free_start p)
                  = slice (data q) PAGE_HEADER_SIZE (free_start q)).

(** ** Lemmas: the directory *)

Definition entry_bytes (e : Z * Z) : bytes := le_pack 2 e.1 ++ le_pack 2 e.2.
Definition directory_image (l : list (Z * Z)) : bytes := concat (entry_bytes <$> reverse l).

Definition u16 (v : Z) : Prop := 0 <= v <= MAX_U16.
Definition entry_u16 (e : Z * Z) : Prop := u16 e.1 ∧ u16 e.2.

Lemma pack_u16s_ok l : Forall u16 l → pack_u16s l = Ok (concat (le_pack 2 <$> l)).
Proof.
  unfold pack_u16s, u16, MAX_U16. intros H.
  assert (traverse (pack_field (U 2)) l = Ok (le_pack 2 <$> l)) as ->.
  { apply traverse_Ok. induction H as [|v l Hv _ IH]; simpl; constructor; [|done].
    pow256. by rewrite (proj2 (andb_true_iff _ _)) by lia. }
  done.
Qed.

Lemma encode_directory_ok l : Forall entry_u16 l → encode_directory l = Ok (directory_image l).
Proof.
  intros H. unfold encode_directory, directory_image. rewrite pack_u16s_ok.
  - f_equal. induction (reverse l) as [|e r IH]; [done|]. simpl. do 4 f_equal. exact IH.
  - apply Forall_reverse in H. induction H as [|e r [He1 He2] _ IH]; simpl; [constructor|].
    constructor; [done|]. constructor; [done|]. exact IH.
Qed.

Lemma zlen_directory_image l : zlen (directory_image l) = zlen l * SLOT_ENTRY_SIZE.
Proof.
  unfold directory_image. unfold SLOT_ENTRY_SIZE.
  replace (zlen l) with (zlen (reverse l)) by (unfold zlen; by rewrite length_reverse).
  induction (reverse l) as [|e r IH]; [done|]. rewrite fmap_cons.
  change (zlen (concat (entry_bytes e :: (entry_bytes <$> r)))) with
    (zlen (entry_bytes e ++ concat (entry_bytes <$> r))).
  rewrite zlen_app, IH, zlen_cons. unfold entry_bytes. rewrite zlen_app, !zlen_le_pack. lia.
Qed.

Lemma unpack_u16s_concat (l : list Z) rest :
  Forall u16 l → unpack_u16s (length l) (concat (le_pack 2 <$> l) ++ rest) = l.
Proof.
  unfold u16, MAX_U16. induction 1 as [|v l Hv _ IH]; [done|]. simpl length. cbn [unpack_u16s].
  change (concat (le_pack 2 <$> v :: l)) with (le_pack 2 v ++ concat (le_pack 2 <$> l)).
  rewrite <-app_assoc, take_app_length', drop_app_length', IH by (by rewrite length_le_pack).
  f_equal. apply le_unpack_pack. pow256. lia.
Qed.

Definition flatten (l : list (Z * Z)) : list Z := concat ((λ e, [e.1; e.2]) <$> l).

Lemma concat_entry_bytes l : concat (entry_bytes <$> l) = concat (le_pack 2 <$> flatten l).
Proof. induction l as [|e l IH]; [done|]. simpl. do 4 f_equal. exact IH. Qed.

Lemma flatten_u16 l : Forall entry_u16 l → Forall u16 (flatten l).
Proof.
  induction 1 as [|e l [He1 He2] _ IH]; [constructor|].
  constructor; [done|]. constructor; [done|]. exact IH.
Qed.

Lemma length_flatten l : length (flatten l) = (length l * 2)%nat.
Proof. induction l as [|e l IH]; [done|]. simpl. f_equal. f_equal. exact IH. Qed.

Lemma nth_flatten l k e :
  l !! k = Some e → nth (k * 2) (flatten l) 0 = e.1 ∧ nth (k * 2 + 1) (flatten l) 0 = e.2.
Proof.
  revert k. induction l as [|x l IH]; intros [|k] H; simpl in H; [done|done| |].
  - by injection H as <-.
  - apply (IH k H).
Qed.

(** Reading the directory image back gives the pairs in reverse order. *)
Lemma unpack_directory l pre rest :
  Forall entry_u16 l →
  unpack_u16s_from (length l * 2) (pre ++ directory_image l ++ rest) (zlen pre)
    = Ok (flatten (reverse l)).
Proof.
  intros H. unfold unpack_u16s_from. rewrite !zlen_app, zlen_directory_image.
  pose proof (zlen_nonneg rest). unfold SLOT_ENTRY_SIZE, zlen in *.
  rewrite (proj2 (Z.leb_le _ _)) by lia. rewrite Nat2Z.id, drop_app_length. f_equal.
  unfold directory_image. rewrite concat_entry_bytes.
  replace (length l * 2)%nat with (length (flatten (reverse l)))
    by (rewrite length_flatten, length_reverse; done).
  apply unpack_u16s_concat, flatten_u16, Forall_reverse, H.
Qed.

Lemma decode_entry_ok l (i : nat) e start :
  l !! i = Some e → e = FREE_SLOT ∨ PAGE_HEADER_SIZE <= e.1 ∧ e.1 + e.2 <= start →
  decode_entry (flatten (reverse l)) (zlen l) start i = Ok e.
Proof.
  intros Hi He. unfold decode_entry, zlen. rewrite Nat2Z.id.
  pose proof (lookup_lt_Some _ _ _ Hi).
  destruct (nth_flatten (reverse l) (length l - i - 1) e) as [-> ->].
  { rewrite reverse_lookup by lia. rewrite <-Hi. f_equal. lia. }
  rewrite <-surjective_pairing. case_decide as Hf; [by subst|].
  destruct He as [?|He]; [done|].
  by rewrite (proj2 (orb_false_iff _ _)) by (unfold PAGE_HEADER_SIZE in *; lia).
Qed.

Lemma traverse_decode_entry l start :
  Forall (λ e, e = FREE_SLOT ∨ PAGE_HEADER_SIZE <= e.1 ∧ e.1 + e.2 <= start) l →
  traverse (decode_entry (flatten (reverse l)) (zlen l) start) (List.seq 0 (length l)) = Ok l.
Proof.
  intros H. apply traverse_Ok, Forall2_same_length_lookup_2; [by rewrite length_seq|].
  intros i x e Hx He. apply lookup_seq in Hx as [-> _].
  apply decode_entry_ok; [done|]. by apply (Forall_lookup_1 _ _ _ _ H He).
Qed.

(** *** Overlap *)

#[local] Instance tuple_le_total : Total tuple_le.
Proof. intros a b. unfold tuple_le. lia. Qed.
#[local] Instance tuple_le_trans : Transitive tuple_le.
Proof. intros a b c. unfold tuple_le. lia. Qed.

Lemma separated_perm l l' : l ≡ₚ l' → separated l → separated l'.
Proof.
  induction 1 as [|x l l' Hp IH|x y l|l l' l'' _ IH _ IH']; auto.
  - rewrite !separated_cons. intros [Hx Hl]. split; [by rewrite <-Hp|auto].
  - rewrite !separated_cons, !Forall_cons. intros [[Hxy Hx] [Hy Hl]].
    split_and!; auto. by apply disj_sym.
Qed.

(** [span e] is the range of a live entry. *)
Definition span (e : Z * Z) : Z * Z := (e.1, e.1 + e.2).

#[local] Instance span_inj : Inj (=) (=) span.
Proof. intros [a b] [c d]. unfold span. simpl. intros [= -> H]. f_equal. lia. Qed.

Lemma overlapping_sorted l :
  Forall (λ e, e ≠ FREE_SLOT ∧ 0 <= e.2) l → StronglySorted tuple_le (span <$> l) →
  overlapping (span <$> l) = false ↔ separated l.
Proof.
  induction l as [|x l IH]; intros Hl Hs.
  { split; [intros; apply separated_nil|done]. }
  apply Forall_cons in Hl as [[Hx Hx0] Hl]. rewrite fmap_cons in Hs.
  apply StronglySorted_inv in Hs as [Hs Hle]. specialize (IH Hl Hs).
  rewrite separated_cons, <-IH. destruct l as [|y l].
  { split; [by repeat constructor|done]. }
  change (overlapping (span <$> x :: y :: l)) with
    ((y.1 <? x.1 + x.2) || overlapping (span <$> y :: l)).
  rewrite orb_false_iff, Z.ltb_ge.
  apply Forall_cons in Hle as [Hxy Hle]. unfold tuple_le, span in Hxy. simpl in Hxy.
  apply Forall_cons in Hl as [[Hy Hy0] Hl]. split; intros [H1 H2]; (split; [|done]).
  - assert (∀ e, y.1 <= e.1 → disj x e) as Hd by (intros e ?; do 2 right; left; lia).
    constructor; [by apply Hd; lia|]. apply Forall_forall. intros e He. apply Hd.
    rewrite fmap_cons in Hs. apply StronglySorted_inv in Hs as [_ Hs].
    assert (tuple_le (span y) (span e)) as Hye.
    { apply (proj1 (Forall_forall _ _) Hs), list_elem_of_fmap. eauto. }
    unfold tuple_le, span in Hye. simpl in Hye. lia.
  - apply Forall_cons in H1 as [[?|[?|[?|?]]] _]; [done|done|lia|lia].
Qed.

Lemma overlap_check entries :
  Forall (λ e, 0 <= e.2) entries →
  overlapping (merge_sort tuple_le (occupied entries)) = false ↔ separated entries.
Proof.
  intros He. set (live := filter (λ e, e ≠ FREE_SLOT) entries).
  assert (separated entries ↔ separated live) as ->.
  { unfold live. clear He. induction entries as [|e l IH]; [done|]. rewrite separated_cons.
    destruct (decide (e = FREE_SLOT)) as [->|Hf].
    - rewrite filter_cons_False by (intros Hn; by apply Hn). rewrite <-IH. split; [tauto|].
      split; [|done]. apply Forall_true. intros x. by left.
    - rewrite filter_cons_True by done. rewrite separated_cons, <-IH. split; intros [H ?]; (split; [|done]).
      + apply Forall_forall. intros x [_ Hx]%list_elem_of_filter. by apply (proj1 (Forall_forall _ _) H).
      + apply Forall_forall. intros x Hx. destruct (decide (x = FREE_SLOT)) as [->|]; [by right; left|].
        apply (proj1 (Forall_forall _ _) H), list_elem_of_filter. done. }
  assert (Forall (λ e, e ≠ FREE_SLOT ∧ 0 <= e.2) live) as Hlive.
  { apply Forall_forall. intros e [Hf Hin]%list_elem_of_filter. split; [done|].
    by apply (proj1 (Forall_forall _ _) He). }
  change (occupied entries) with (span <$> live).
  pose proof (merge_sort_Permutation tuple_le (span <$> live)) as Hp.
  pose proof (StronglySorted_merge_sort tuple_le (span <$> live)) as Hs.
  destruct (Permutation_map_inv span live Hp) as (l' & Hl' & Hperm).
  rewrite Hl' in *. change (List.map span l') with (span <$> l') in *.
  rewrite overlapping_sorted; [|by rewrite <-Hperm|done].
  split; apply separated_perm; by rewrite Hperm.
Qed.

(** ** Lemmas: page images *)

Definition with_checksum (h : PageHeader.t) (c : Z) : PageHeader.t :=
  PageHeader.Mk (PageHeader.page_type h) (PageHeader.flags h) (PageHeader.page_lsn h)
    (PageHeader.seq h) (PageHeader.slot_count h) (PageHeader.free_start h)
    (PageHeader.free_end h) (PageHeader.reserved h) (PageHeader.next_page h) c.

(** The 28 header bytes after the checksum, and the bytes after the header. *)
Definition header_tail (h : PageHeader.t) : bytes :=
  struct_image [U 2; U 2; U 8; U 4; U 2; U 2; U 2; U 2; U 4] (PageHeader.fields h).2.

Definition body_image (p : Page.t) : bytes :=
  slice (data p) PAGE_HEADER_SIZE (free_start p) ++ zeros (free_space p)
  ++ directory_image (slots p).

Definition page_checksum (p : Page.t) : Z := crc32c_of (header_tail (header p) ++ body_image p).

Definition page_image (p : Page.t) : bytes :=
  PageHeader.image (with_checksum (header p) (page_checksum p)) ++ body_image p.

Lemma header_image_split h : PageHeader.image h = le_pack 4 (PageHeader.checksum h) ++ header_tail h.
Proof. done. Qed.

Lemma page_geometry p : wf p →
  32 <= free_start p ∧ free_start p <= free_end p ∧ free_end p = page_size p - zlen (slots p) * 4 ∧
  512 <= page_size p <= 32768 ∧ 0 <= zlen (slots p).
Proof.
  intros Hwf. pose proof (wf_body p Hwf) as [_ Hs Hsp _ _].
  pose proof (validate_page_size_Ok _ _ (wf_size p Hwf)) as (_ & Hsz & _).
  pose proof (zlen_nonneg (slots p)).
  unfold free_end, MIN_PAGE_SIZE, MAX_PAGE_SIZE, PAGE_HEADER_SIZE, SLOT_ENTRY_SIZE in *. lia.
Qed.

Lemma header_fits p c : wf p → 0 <= c <= MAX_U32 → PageHeader.fits (with_checksum (header p) c).
Proof.
  intros Hwf Hc. pose proof (page_geometry p Hwf). destruct Hwf.
  unfold PageHeader.fits, MAX_U16 in *. simpl. lia.
Qed.

Lemma page_checksum_range p : 0 <= page_checksum p <= MAX_U32.
Proof.
  pose proof (crc32c_of_range (header_tail (header p) ++ body_image p)) as H.
  unfold in32 in H. change (2 ^ 32) with 4294967296 in H. unfold page_checksum, MAX_U32. lia.
Qed.

Lemma entries_u16 p : wf p → Forall entry_u16 (slots p).
Proof.
  intros Hwf. pose proof (page_geometry p Hwf). eapply Forall_impl; [apply (wf_body p Hwf)|].
  unfold entry_u16, u16, MAX_U16, PAGE_HEADER_SIZE. intros e [->|?]; simpl; lia.
Qed.

Lemma zlen_body_image p : wf p → zlen (body_image p) = page_size p - PAGE_HEADER_SIZE.
Proof.
  intros Hwf. pose proof (page_geometry p Hwf). pose proof (body_data _ _ _ _ (wf_body p Hwf)).
  unfold body_image, free_space, PAGE_HEADER_SIZE in *.
  rewrite !zlen_app, zlen_directory_image, zlen_zeros, zlen_slice by lia.
  unfold SLOT_ENTRY_SIZE. lia.
Qed.

Lemma zlen_page_image p : wf p → zlen (page_image p) = page_size p.
Proof.
  intros Hwf. unfold page_image.
  rewrite zlen_app, zlen_body_image, zlen_header_image by
    (done || by apply header_fits, page_checksum_range).
  unfold PAGE_HEADER_SIZE. lia.
Qed.

(** The image before the header is written: zero header, payload area, gap, directory. *)
Lemma to_bytes_body p : wf p →
  (let image := set_slice (zeros (page_size p)) PAGE_HEADER_SIZE (free_start p)
                  (slice (data p) PAGE_HEADER_SIZE (free_start p)) in
   if decide (slots p = []) then Ok image
   else
     directory ← encode_directory (slots p);
     Ok (set_tail image (page_size p - zlen (slots p) * SLOT_ENTRY_SIZE) directory))
  = Ok (zeros PAGE_HEADER_SIZE ++ body_image p).
Proof.
  intros Hwf. pose proof (page_geometry p Hwf) as (Hs & Hfe & Hee & Hsz & Hn).
  pose proof (body_data _ _ _ _ (wf_body p Hwf)) as Hd.
  set (payload := slice (data p) PAGE_HEADER_SIZE (free_start p)).
  assert (zlen payload = free_start p - PAGE_HEADER_SIZE) as Hp.
  { unfold payload, PAGE_HEADER_SIZE in *. rewrite zlen_slice; lia. }
  assert (zeros (page_size p) = zeros PAGE_HEADER_SIZE ++ zeros (free_start p - PAGE_HEADER_SIZE)
            ++ zeros (free_space p) ++ zeros (zlen (slots p) * 4)) as Hz.
  { unfold free_space, PAGE_HEADER_SIZE in *. rewrite <-!zeros_app by lia. f_equal. lia. }
  assert (set_slice (zeros (page_size p)) PAGE_HEADER_SIZE (free_start p) payload =
          zeros PAGE_HEADER_SIZE ++ payload ++ zeros (free_space p) ++ zeros (zlen (slots p) * 4)) as ->.
  { rewrite Hz.
    rewrite <-(set_slice_app_here (zeros PAGE_HEADER_SIZE)
                 (zeros (free_start p - PAGE_HEADER_SIZE)) _ payload)
      by (rewrite zlen_zeros; unfold PAGE_HEADER_SIZE in *; lia).
    rewrite !zlen_zeros by (unfold PAGE_HEADER_SIZE in *; lia).
    by replace (PAGE_HEADER_SIZE + _) with (free_start p) by lia. }
  unfold body_image. fold payload. cbn zeta. case_decide as Hnil.
  - rewrite Hnil. done.
  - rewrite encode_directory_ok by (by apply entries_u16). cbn [mbind result_bind]. f_equal.
    unfold set_tail. rewrite !app_assoc. rewrite take_app_length'.
    { by rewrite <-!app_assoc. }
    apply Nat2Z.inj. rewrite !length_app, !Nat2Z.inj_add. fold (zlen payload).
    change (Z.of_nat (length (zeros ?x))) with (zlen (zeros x)).
    rewrite !zlen_zeros, Hp by (unfold free_space, PAGE_HEADER_SIZE; lia).
    unfold free_space, SLOT_ENTRY_SIZE, PAGE_HEADER_SIZE in *. lia.
Qed.

Lemma to_bytes_ok p : wf p → to_bytes p = Ok (page_image p).
Proof.
  intros Hwf. unfold to_bytes. pose proof (to_bytes_body p Hwf) as Hb. cbn zeta in Hb. rewrite Hb.
  cbn [mbind result_bind].
  change (header p) with (with_checksum (header p) 0) at 1.
  assert (PageHeader.fits (with_checksum (header p) 0)) as Hf.
  { apply header_fits; [done|]. unfold MAX_U32. lia. }
  rewrite header_encode_ok by done. cbn [mbind result_bind]. f_equal.
  pose proof (zlen_header_image _ Hf) as Hh. pose proof (zlen_body_image p Hwf) as Hbody.
  assert (set_slice (zeros PAGE_HEADER_SIZE ++ body_image p) 0 PAGE_HEADER_SIZE
            (PageHeader.image (with_checksum (header p) 0))
          = le_pack 4 0 ++ header_tail (header p) ++ body_image p) as ->.
  { etransitivity; [apply (set_slice_app_here [] (zeros PAGE_HEADER_SIZE)); by rewrite Hh|].
    cbn [app]. by rewrite header_image_split, <-app_assoc. }
  assert (zlen (le_pack 4 0 ++ header_tail (header p)) = 32) as Ht by exact Hh.
  rewrite zlen_app, zlen_le_pack in Ht.
  rewrite slice_app_r by (rewrite zlen_le_pack; done).
  rewrite zlen_le_pack. rewrite slice_full.
  2:{ rewrite zlen_app. unfold CHECKSUM_SIZE, PAGE_HEADER_SIZE in *. lia. }
  fold (page_checksum p). unfold page_image. rewrite header_image_split.
  apply (set_slice_app_here [] (le_pack 4 0)). by rewrite !zlen_le_pack.
Qed.

(** The page a written image is read back as. *)
Definition reload (p : Page.t) (index : Z) : Page.t :=
  Mk (page_size p) index (page_type p) (flags p) (page_lsn p) (seq p) (next_page p) (reserved p)
     (slots p)
     (set_slice (zeros (page_size p)) PAGE_HEADER_SIZE (free_start p)
        (slice (data p) PAGE_HEADER_SIZE (free_start p)))
     (free_start p) false.

Lemma decode_directory_image p c : wf p →
  decode_directory (PageHeader.image (with_checksum (header p) c) ++ body_image p)
    (with_checksum (header p) c) (page_size p) = Ok (slots p).
Proof.
  intros Hwf. pose proof (page_geometry p Hwf) as (Hs & Hfe & Hee & Hsz & Hn).
  pose proof (wf_body p Hwf) as [Hd _ _ He Hsep].
  unfold decode_directory. cbv zeta.
  change (PageHeader.slot_count (with_checksum _ _)) with (zlen (slots p)).
  change (PageHeader.free_start (with_checksum _ _)) with (free_start p).
  change (PageHeader.free_end (with_checksum _ _)) with (free_end p).
  unfold PAGE_HEADER_SIZE, SLOT_ENTRY_SIZE in *.
  rewrite (proj2 (Z.ltb_ge _ _)) by lia. rewrite Hee, Z.eqb_refl. cbn [negb].
  rewrite (proj2 (andb_true_iff _ _)) by lia. cbn [negb].
  assert ((if zlen (slots p) =? 0 then Ok []
           else unpack_u16s_from (Z.to_nat (zlen (slots p) * 2))
                  (PageHeader.image (with_checksum (header p) c) ++ body_image p)
                  (page_size p - zlen (slots p) * 4)) = Ok (flatten (reverse (slots p)))) as Hflat.
  { destruct (Z.eqb_spec (zlen (slots p)) 0) as [E|E].
    { destruct (slots p); [done|]. rewrite zlen_cons in E. pose proof (zlen_nonneg l). lia. }
    set (pre := PageHeader.image (with_checksum (header p) c)
                  ++ slice (data p) PAGE_HEADER_SIZE (free_start p) ++ zeros (free_space p)).
    assert (zlen pre = page_size p - zlen (slots p) * 4) as Hpre.
    { assert (zlen (PageHeader.image (with_checksum (header p) c)) = 32) as Hi.
      { unfold PageHeader.image. cbn. done. }
      unfold pre, free_space, PAGE_HEADER_SIZE in *.
      rewrite !zlen_app, Hi, zlen_zeros, zlen_slice by lia. lia. }
    rewrite <-Hpre. pose proof (unpack_directory (slots p) pre [] (entries_u16 p Hwf)) as H.
    rewrite app_nil_r in H. unfold pre in H at 1. rewrite <-!app_assoc in H.
    replace (Z.to_nat (zlen (slots p) * 2)) with (length (slots p) * 2)%nat by (unfold zlen; lia).
    exact H. }
  rewrite Hflat. cbn [mbind result_bind].
  replace (Z.to_nat (zlen (slots p))) with (length (slots p)) by (unfold zlen; lia).
  rewrite traverse_decode_entry.
  2:{ eapply Forall_impl; [exact He|]. unfold entry_in, PAGE_HEADER_SIZE. intros e [?|?]; [by left|right; lia]. }
  cbn [mbind result_bind].
  apply overlap_check in Hsep; [by rewrite Hsep|].
  eapply Forall_impl; [exact He|]. intros e [->|?]; [done|lia].
Qed.

Lemma reload_wf p index : wf p → 0 <= index <= MAX_U32 →
  wf (reload p index) ∧ contents (reload p index) = contents p.
Proof.
  intros Hwf Hi. pose proof (page_geometry p Hwf) as (Hs & Hfe & Hee & Hsz & Hn).
  pose proof (wf_body p Hwf) as [Hd _ _ He _]. unfold PAGE_HEADER_SIZE in *.
  assert (zlen (slice (data p) PAGE_HEADER_SIZE (free_start p)) = free_start p - PAGE_HEADER_SIZE) as Hp.
  { unfold PAGE_HEADER_SIZE. rewrite zlen_slice; lia. }
  unfold PAGE_HEADER_SIZE in Hp. split.
  - destruct Hwf as [????????[]]. split; try done. split; try done. unfold reload; cbn [data page_size].
    rewrite zlen_set_slice; rewrite ?zlen_zeros; unfold PAGE_HEADER_SIZE; lia.
  - apply list_fmap_ext. intros i e Hie. unfold entry_content. case_decide as Hf; [done|]. f_equal.
    destruct (Forall_lookup_1 _ _ _ _ He Hie) as [?|?]; [done|].
    apply list_eq. intros n. rewrite !lookup_slice by lia. case_decide; [|done].
    unfold reload, PAGE_HEADER_SIZE; cbn [data].
    rewrite lookup_set_slice by (rewrite ?zlen_zeros; lia). rewrite decide_True by lia.
    rewrite lookup_slice, decide_True by lia. f_equal. lia.
Qed.

Lemma reload_clean p : wf p → clean p → reload p (page_index p) = set_dirty p false.
Proof.
  intros Hwf Hcl. pose proof (page_geometry p Hwf) as (Hs & Hfe & Hee & Hsz & Hn).
  pose proof (wf_body p Hwf) as [Hd _ _ He _]. unfold reload, set_dirty, with_header. f_equal.
  unfold PAGE_HEADER_SIZE in *. apply list_eq. intros n.
  rewrite lookup_set_slice by (rewrite ?zlen_slice, ?zlen_zeros; lia). case_decide as Hr.
  { rewrite lookup_slice, decide_True by lia. f_equal. lia. }
  destruct (data p !! n) as [b|] eqn:E.
  - pose proof (lookup_lt_Some _ _ _ E). unfold zlen in Hd.
    unfold zeros. rewrite lookup_replicate_2 by lia. f_equal.
    destruct (decide (b = Byte.x00)) as [->|Hb]; [done|].
    destruct (Hcl n b E Hb) as (e & Hin & Hf & Hn').
    destruct (proj1 (Forall_forall _ _) He e Hin) as [?|?]; [done|lia].
  - apply lookup_ge_None in E. unfold zlen in Hd. apply lookup_ge_None.
    unfold zeros. rewrite length_replicate. lia.
Qed.

Lemma from_decoded_ok p c index : wf p → 0 <= default 0 index <= MAX_U32 →
  from_decoded (with_checksum (header p) c) (slots p)
    (PageHeader.image (with_checksum (header p) c) ++ body_image p) (page_size p) index
  = Ok (reload p (default 0 index)).
Proof.
  intros Hwf Hi. pose proof (page_geometry p Hwf) as (Hs & Hfe & Hee & Hsz & Hn).
  pose proof (wf_body p Hwf) as [Hd _ _ He _].
  unfold from_decoded, make. cbn [with_checksum PageHeader.page_type PageHeader.page_lsn
    PageHeader.seq PageHeader.flags PageHeader.next_page header].
  rewrite (wf_size p Hwf). cbn [mbind result_bind].
  destruct Hwf as [_ _ ? ? ? ? ? ? _]. rewrite !(proj2 (check_unsigned_Ok _ _ _ _)) by done.
  cbn [mbind result_bind]. unfold reload. f_equal. f_equal.
  set (h := with_checksum _ _). change (PageHeader.free_start h) with (free_start p).
  cbn [data]. f_equal. unfold body_image.
  assert (zlen (PageHeader.image h) = PAGE_HEADER_SIZE) as Hl by done.
  unfold PAGE_HEADER_SIZE in *. rewrite slice_app_r by lia. rewrite Hl, Z.sub_diag.
  rewrite slice_app_l by (rewrite ?zlen_slice; lia). apply slice_full. rewrite zlen_slice; lia.
Qed.

Lemma from_bytes_image p index (declared : bool) : wf p → 0 <= default 0 index <= MAX_U32 →
  from_bytes (page_image p) (if declared then Some (page_size p) else None) index true
  = Ok (reload p (default 0 index)).
Proof.
  intros Hwf Hi. pose proof (page_checksum_range p) as Hc.
  pose proof (header_fits p _ Hwf Hc) as Hf.
  unfold from_bytes. pose proof (zlen_page_image p Hwf) as Hl.
  assert (∀ declared : bool, match (if declared then Some (page_size p) else None) with
          | None => validate_page_size (zlen (page_image p))
          | Some n => size ← validate_page_size n;
                      if negb (zlen (page_image p) =? size)
                      then raise GrafxCorruptionDetected "page_image" else Ok size
          end = Ok (page_size p)) as ->.
  { intros []; rewrite Hl, (wf_size p Hwf); [|done]. cbn. by rewrite Z.eqb_refl. }
  cbn [mbind result_bind]. unfold page_image. rewrite header_decode_image by done.
  cbn [mbind result_bind].
  assert (slice (PageHeader.image (with_checksum (header p) (page_checksum p)) ++ body_image p)
            CHECKSUM_SIZE (page_size p) = header_tail (header p) ++ body_image p) as ->.
  { rewrite header_image_split, <-app_assoc, slice_app_r by (rewrite zlen_le_pack; done).
    rewrite zlen_le_pack. apply slice_full. unfold page_image in Hl.
    rewrite header_image_split, <-app_assoc, zlen_app, zlen_le_pack in Hl.
    change (header_tail (with_checksum _ _)) with (header_tail (header p)) in Hl.
    unfold CHECKSUM_SIZE. lia. }
  fold (page_checksum p). cbn [with_checksum PageHeader.checksum]. rewrite Z.eqb_refl.
  cbn [negb mbind result_bind]. change (PageHeader.Mk _ _ _ _ _ _ _ _ _ _) with
    (with_checksum (header p) (page_checksum p)).
  rewrite decode_directory_image by done. cbn [mbind result_bind]. by apply from_decoded_ok.
Qed.

(** ** Lemmas: reading any bytes *)

Lemma unpack_u16s_inv n raw : (2 * n <= length raw)%nat →
  concat (le_pack 2 <$> unpack_u16s n raw) = take (2 * n) raw ∧
  length (unpack_u16s n raw) = n ∧ Forall u16 (unpack_u16s n raw).
Proof.
  revert raw. induction n as [|n IH]; intros raw Hl; [by rewrite Nat.mul_0_r, take_0|].
  cbn [unpack_u16s]. destruct (IH (drop 2 raw)) as (Hc & Hn & Hf); [rewrite length_drop; lia|].
  split_and!.
  - rewrite fmap_cons. change (concat (?x :: ?y)) with (x ++ concat y). rewrite Hc.
    assert (length (take 2 raw) = 2%nat) as H2 by (rewrite length_take; lia).
    rewrite <-H2 at 1. rewrite le_pack_unpack.
    replace (2 * S n)%nat with (2 + 2 * n)%nat by lia. apply take_take_drop.
  - simpl. by rewrite Hn.
  - constructor; [|done]. pose proof (le_unpack_range (take 2 raw)) as H. unfold u16, MAX_U16.
    unfold zlen in H. rewrite length_take, Nat.min_l in H by lia. pow256. lia.
Qed.

Lemma pairs_of_flat n flat : length flat = (2 * n)%nat → ∃ l, flat = flatten l ∧ length l = n.
Proof.
  revert flat. induction n as [|n IH]; intros flat Hl.
  { exists []. by destruct flat. }
  destruct flat as [|a [|b flat]]; simpl in Hl; [lia..|].
  destruct (IH flat) as (l & -> & <-); [lia|]. by exists ((a, b) :: l).
Qed.

Lemma decode_entry_inv l n start (i : nat) e :
  n = zlen l → (i < length l)%nat → decode_entry (flatten (reverse l)) n start i = Ok e →
  l !! i = Some e ∧ (e = FREE_SLOT ∨ PAGE_HEADER_SIZE <= e.1 ∧ e.1 + e.2 <= start).
Proof.
  intros -> Hlt. destruct (lookup_lt_is_Some_2 l i Hlt) as [e' He']. unfold decode_entry, zlen.
  rewrite Nat2Z.id. destruct (nth_flatten (reverse l) (length l - i - 1) e') as [-> ->].
  { rewrite reverse_lookup by lia. rewrite <-He'. f_equal. lia. }
  rewrite <-surjective_pairing. case_decide as Hf.
  - intros [= <-]. rewrite He', Hf. split; [done|by left].
  - destruct ((_ <? _) || _) eqn:E; [done|]. intros [= <-]. split; [done|]. right. lia.
Qed.

Lemma traverse_decode_entry_inv l n start entries :
  n = zlen l →
  traverse (decode_entry (flatten (reverse l)) n start) (List.seq 0 (length l)) = Ok entries →
  entries = l ∧ Forall (λ e, e = FREE_SLOT ∨ PAGE_HEADER_SIZE <= e.1 ∧ e.1 + e.2 <= start) l.
Proof.
  intros Hn H. apply traverse_Ok in H. pose proof (Forall2_length _ _ _ H) as Hl.
  rewrite length_seq in Hl.
  assert (∀ i e, entries !! i = Some e → l !! i = Some e ∧
    (e = FREE_SLOT ∨ PAGE_HEADER_SIZE <= e.1 ∧ e.1 + e.2 <= start)) as He.
  { intros i e Hi. pose proof (lookup_lt_Some _ _ _ Hi).
    eapply decode_entry_inv; [done|lia|].
    assert (List.seq 0 (length l) !! i = Some i) as Hseq by (rewrite lookup_seq_lt by lia; done).
    by apply (Forall2_lookup_lr _ _ _ _ _ _ H Hseq). }
  assert (entries = l) as ->.
  { apply list_eq_same_length with (length l); [done|done|].
    intros i x y Hi Hx Hy. destruct (He _ _ Hx) as [Hx' _]. congruence. }
  split; [done|]. apply Forall_lookup. intros i e Hi. by destruct (He i e Hi).
Qed.

Lemma decode_directory_inv raw h size entries :
  decode_directory raw h size = Ok entries → PageHeader.fits h → zlen raw = size →
  PageHeader.slot_count h = zlen entries ∧ PageHeader.free_end h = size - zlen entries * 4 ∧
  32 <= PageHeader.free_start h ∧ PageHeader.free_start h <= PageHeader.free_end h ∧
  Forall (entry_in PAGE_HEADER_SIZE (PageHeader.free_start h)) entries ∧ separated entries ∧
  directory_image entries = slice raw (PageHeader.free_end h) size.
Proof.
  intros H Hf Hraw. destruct Hf as (_&_&_&_&_&Hsc&_&_&_&_).
  unfold decode_directory, PAGE_HEADER_SIZE, SLOT_ENTRY_SIZE in H.
  destruct (Z.ltb_spec size (32 + PageHeader.slot_count h * 4)); [done|].
  destruct (Z.eqb_spec (PageHeader.free_end h) (size - PageHeader.slot_count h * 4)) as [Hfe|];
    cbn [negb] in H; [|done].
  destruct (negb _) eqn:Hfs in H; [done|]. apply negb_false_iff in Hfs.
  inv_ok H. destruct (overlapping _) eqn:Hov in H; [done|]. injection H as <-.
  set (n := Z.to_nat (PageHeader.slot_count h)) in *.
  assert (∃ l, x = flatten (reverse l) ∧ length l = n ∧ Forall u16 x ∧
               concat (le_pack 2 <$> x) = slice raw (PageHeader.free_end h) size)
    as (l & Hx & Hl & Hu & Himg).
  { destruct (Z.eqb_spec (PageHeader.slot_count h) 0) as [E0'|E0'].
    - injection E as <-. exists []. unfold n. rewrite E0'. split_and!; try done.
      rewrite slice_empty by lia. done.
    - unfold unpack_u16s_from in E. destruct (Z.leb_spec (2 * Z.of_nat (Z.to_nat (PageHeader.slot_count h * 2)))
        (zlen raw - PageHeader.free_end h)) as [Hle|]; [|done]. injection E as <-.
      destruct (unpack_u16s_inv (Z.to_nat (PageHeader.slot_count h * 2))
                  (drop (Z.to_nat (PageHeader.free_end h)) raw)) as (Hc & Hlen & Hu).
      { rewrite length_drop. unfold zlen in *. lia. }
      destruct (pairs_of_flat n _ ltac:(rewrite Hlen; lia)) as (l & Hfl & Hll).
      exists (reverse l). rewrite reverse_involutive, length_reverse. split_and!; try done.
      rewrite Hc. unfold slice. f_equal. lia. }
  subst x. rewrite <-Hl in E0. apply traverse_decode_entry_inv in E0 as [-> Hent];
    [|unfold zlen; lia].
  assert (Forall (λ e, 0 <= e.2) l) as Hpos.
  { apply Forall_forall. intros e He. apply list_elem_of_lookup in He as [i Hi].
    assert (e ∈ reverse l) as Hr by (apply elem_of_reverse, list_elem_of_lookup; eauto).
    apply list_elem_of_lookup in Hr as [k Hk]. pose proof (nth_flatten _ _ _ Hk) as [_ <-].
    pose proof (lookup_lt_Some _ _ _ Hk) as Hlt.
    rewrite nth_lookup. destruct (flatten (reverse l) !! _) eqn:Ek; [|done].
    apply (Forall_lookup_1 _ _ _ _ Hu) in Ek. unfold u16 in Ek. simpl. lia. }
  assert (zlen l = PageHeader.slot_count h) as Hz by (unfold zlen; lia).
  apply (overlap_check _ Hpos) in Hov.
  split_and!; try done; try lia.
  - apply Forall_forall. intros e He. pose proof (proj1 (Forall_forall _ _) Hent e He) as [?|[? ?]]; [by left|].
    right. split; [done|]. split; [|done]. by apply (proj1 (Forall_forall _ _) Hpos).
  - unfold directory_image. by rewrite concat_entry_bytes.
Qed.

Lemma from_bytes_ok_inv raw size index verify p :
  from_bytes raw size index verify = Ok p →
  wf p ∧ zlen raw = page_size p ∧ page_index p = default 0 index ∧ dirty p = false ∧
  header_tail (header p) = slice raw 4 32 ∧
  slice (data p) 32 (free_start p) = slice raw 32 (free_start p) ∧
  directory_image (slots p) = slice raw (free_end p) (page_size p).
Proof.
  unfold from_bytes. intros H. inv_ok H. rename x into n, x0 into h, x2 into entries.
  assert (zlen raw = n ∧ validate_page_size n = Ok n) as [Hn Hv].
  { destruct size as [m|].
    - inv_ok E. destruct (Z.eqb_spec (zlen raw) x); [|done]. injection E as <-. split; [done|].
      destruct (validate_page_size_Ok _ _ E3) as [Hx _]. congruence.
    - destruct (validate_page_size_Ok _ _ E) as [Hx _]. split; congruence. }
  apply header_decode_inv in E0 as (_ & Hf & Himg).
  apply decode_directory_inv in E2 as (Hsc & Hfe & Hs & Hsf & Hin & Hsep & Hdir); [|done..].
  unfold from_decoded in H. inv_ok H. unfold make in E0. inv_ok E0.
  repeat match goal with E : check_unsigned _ _ _ = Ok _ |- _ =>
    apply check_unsigned_Ok in E as [-> ?] end.
  rewrite Hv in E2. injection E2 as <-. injection E0 as <-. injection H as <-. cbn in Hsc.
  apply validate_page_size_Ok in Hv as Hsz. destruct Hsz as (_ & Hsz & _).
  unfold MIN_PAGE_SIZE, MAX_PAGE_SIZE in Hsz. pose proof (zlen_nonneg entries).
  assert (zlen (slice raw 32 (PageHeader.free_start h)) = PageHeader.free_start h - 32) as Hzs
    by (rewrite zlen_slice; lia).
  split; [split; cbn; try done|].
  - unfold PageHeader.fits in Hf. tauto.
  - split; cbn; try done.
    + unfold PAGE_HEADER_SIZE. rewrite zlen_set_slice; rewrite ?zlen_zeros; lia.
    + unfold SLOT_ENTRY_SIZE. lia.
  - cbn [page_size page_index dirty data free_start slots]. unfold free_end. cbn [page_size slots].
    unfold PAGE_HEADER_SIZE, SLOT_ENTRY_SIZE. split_and!; try done.
    + assert (header_tail h = slice raw 4 32) as <-.
      { symmetry. etransitivity; [symmetry; apply (slice_slice raw 0 32 4 32); lia|].
        rewrite <-Himg, header_image_split.
        rewrite slice_app_r by (rewrite zlen_le_pack; done). rewrite zlen_le_pack.
        by apply slice_full. }
      unfold header_tail, PageHeader.fields, header. cbn [PageHeader.page_type PageHeader.flags
        PageHeader.page_lsn PageHeader.seq PageHeader.slot_count PageHeader.free_start
        PageHeader.free_end PageHeader.reserved PageHeader.next_page PageHeader.checksum
        page_size page_type flags page_lsn seq next_page reserved slots free_start snd].
      unfold free_end, SLOT_ENTRY_SIZE. cbn [page_size slots]. by rewrite Hsc, Hfe.
    + apply slice_set_slice_eq; rewrite ?zlen_zeros; lia.
    + by rewrite Hdir, Hfe.
Qed.

Lemma to_bytes_of_read raw size index verify p :
  from_bytes raw size index verify = Ok p →
  to_bytes p = Ok (le_pack 4 (page_checksum p) ++ slice raw 4 (free_start p)
                   ++ zeros (free_space p) ++ slice raw (free_end p) (page_size p)).
Proof.
  intros H. apply from_bytes_ok_inv in H as (Hw & Hl & _ & _ & Ht & Hp & Hd).
  pose proof (page_geometry p Hw). rewrite to_bytes_ok by done. f_equal.
  unfold page_image. rewrite header_image_split, <-app_assoc. f_equal.
  change (header_tail (with_checksum _ _)) with (header_tail (header p)). rewrite Ht.
  unfold body_image. change PAGE_HEADER_SIZE with 32. rewrite Hp, Hd.
  rewrite (slice_split raw 4 32 (free_start p)) by lia. by rewrite <-!app_assoc.
Qed.

Lemma validate_page_size_errs n : errs_in classified (validate_page_size n).
Proof. unfold validate_page_size. repeat case_match; auto with errors. Qed.

Lemma check_unsigned_errs f v m : errs_in classified (check_unsigned f v m).
Proof. unfold check_unsigned. case_match; auto with errors. Qed.
#[local] Hint Resolve validate_page_size_errs check_unsigned_errs : errors.

Lemma make_errs pt ps pi lsn sq fl np : errs_in classified (make pt ps pi lsn sq fl np).
Proof.
  unfold make. repeat (apply errs_in_bind; [auto with errors|intros ? _]). auto with errors.
Qed.

Lemma header_decode_errs raw : errs_in classified (PageHeader.decode raw).
Proof.
  unfold PageHeader.decode. case_match eqn:E; [auto with errors|].
  destruct (struct_unpack_from_enough HEADER_STRUCT raw 0) as [v Hv].
  { unfold PAGE_HEADER_SIZE in E. simpl. lia. }
  rewrite Hv. destruct v as (?&?&?&?&?&?&?&?&?&?&[]). apply errs_in_Ok.
Qed.

Lemma decode_directory_errs raw h :
  0 <= PageHeader.slot_count h → errs_in classified (decode_directory raw h (zlen raw)).
Proof.
  intros Hsc. unfold decode_directory.
  destruct (_ <? _); [auto with errors|].
  destruct (Z.eqb_spec (PageHeader.free_end h) (zlen raw - PageHeader.slot_count h * SLOT_ENTRY_SIZE))
    as [Hfe|]; cbn [negb]; [|auto with errors].
  destruct (negb _); [auto with errors|]. apply errs_in_bind.
  - destruct (_ =? _); [auto with errors|]. unfold unpack_u16s_from, SLOT_ENTRY_SIZE in *.
    destruct (Z.leb_spec (2 * Z.of_nat (Z.to_nat (PageHeader.slot_count h * 2)))
      (zlen raw - PageHeader.free_end h)); [auto with errors|].
    intros e He. exfalso. lia.
  - intros flat _. apply errs_in_bind.
    + apply errs_in_traverse. intros slot. unfold decode_entry.
      case_decide; [auto with errors|]. destruct (_ || _); auto with errors.
    + intros entries _. destruct (overlapping _); auto with errors.
Qed.

Lemma from_bytes_errs raw size index verify :
  errs_in classified (from_bytes raw size index verify).
Proof.
  unfold from_bytes. apply errs_in_bind.
  { destruct size as [n|]; [|auto with errors]. apply errs_in_bind; [auto with errors|].
    intros. destruct (negb _); auto with errors. }
  intros n Hn. assert (n = zlen raw) as ->.
  { destruct size as [m|]; [|by apply validate_page_size_Ok in Hn as [-> _]].
    inv_ok Hn. destruct (Z.eqb_spec (zlen raw) x) as [Heq|]; [|done]. by injection Hn as <-. }
  apply errs_in_bind; [apply header_decode_errs|]. intros h Hh.
  apply header_decode_inv in Hh as (_ & Hf & _). apply errs_in_bind.
  { destruct verify; [|auto with errors]. destruct (negb _); auto with errors. }
  intros _ _. apply errs_in_bind; [apply decode_directory_errs, Hf|]. intros entries _.
  apply errs_in_bind; [apply make_errs|]. auto with errors.
Qed.

(** ** Lemmas: damage *)

Lemma page_image_frame p :
  page_image p = le_pack 4 (crc32c_of (header_tail (header p) ++ body_image p))
                 ++ header_tail (header p) ++ body_image p.
Proof. unfold page_image. by rewrite header_image_split, <-app_assoc. Qed.

(** The stored checksum is the first four bytes; when it is not the CRC of the rest, a
    verified read stops there. *)
Lemma from_bytes_checksum raw size index :
  validate_page_size size = Ok size → zlen raw = size →
  slice raw 0 4 ≠ le_pack 4 (crc32c_of (slice raw 4 size)) →
  from_bytes raw (Some size) index true = raise GrafxCorruptionDetected "checksum".
Proof.
  intros Hv Hl Hne. destruct (validate_page_size_Ok _ _ Hv) as (_ & Hsz & _).
  unfold MIN_PAGE_SIZE in Hsz. unfold from_bytes. rewrite Hv. cbn [mbind result_bind].
  rewrite Hl, Z.eqb_refl. cbn [negb mbind result_bind].
  destruct (PageHeader.decode raw) as [h|e] eqn:Hh.
  - apply header_decode_inv in Hh as (_ & _ & Himg). cbn [mbind result_bind].
    destruct (Z.eqb_spec (crc32c_of (slice raw CHECKSUM_SIZE size)) (PageHeader.checksum h))
      as [Heq|]; [exfalso|done].
    apply Hne. unfold CHECKSUM_SIZE in Heq. rewrite Heq.
    etransitivity; [symmetry; apply (slice_slice raw 0 32 0 4); lia|].
    rewrite <-Himg, header_image_split, slice_app_l by done. by apply slice_full.
  - exfalso. unfold PageHeader.decode, PAGE_HEADER_SIZE in Hh.
    rewrite (proj2 (Z.ltb_ge _ _)) in Hh by lia.
    destruct (struct_unpack_from_enough HEADER_STRUCT raw 0) as [v Hv']; [simpl; lia|].
    rewrite Hv' in Hh. by destruct v as (?&?&?&?&?&?&?&?&?&?&[]).
Qed.

(** ** Properties *)

(** C24: what is written is read back.  A well-formed page serialises to exactly [page_size]
    bytes; reading them with verification, with or without a declared size, gives a well-formed
    page, equal to the original as pages compare, with every payload under its slot id; a page
    without residue is read back identical but for its dirty mark. *)
Theorem page_codec_roundtrip (p : Page.t) (declared : bool) (Hwf : wf p) :
  ∃ raw q, to_bytes p = Ok raw ∧ zlen raw = page_size p ∧
    from_bytes raw (if declared then Some (page_size p) else None) (Some (page_index p)) true = Ok q ∧
    wf q ∧ contents q = contents p ∧ page_eqb p q = true ∧
    (clean p → q = set_dirty p false).
Proof.
  pose proof (wf_index p Hwf) as Hi.
  exists (page_image p), (reload p (page_index p)).
  destruct (reload_wf p _ Hwf Hi) as [Hw Hc]. pose proof (page_geometry p Hwf).
  split_and!; [by apply to_bytes_ok|by apply zlen_page_image|by apply from_bytes_image|done..| |].
  - unfold page_eqb, reload. cbn [page_size page_type flags page_lsn seq next_page slots free_start data].
    rewrite !Z.eqb_refl, bool_decide_eq_true_2 by done. simpl. apply bool_decide_eq_true_2.
    symmetry. pose proof (body_data _ _ _ _ (wf_body p Hwf)). unfold PAGE_HEADER_SIZE.
    apply slice_set_slice_eq; rewrite ?zlen_zeros, ?zlen_slice; lia.
  - intros Hcl. by apply reload_clean.
Qed.

Lemma page_codec_roundtrip_witness :
  ∃ p, (make 2 512 7 41 0 0 NO_PAGE ≫= λ p, Ok (run serve p [Insert [Byte.x61; Byte.x62]; Insert []; Free 0]).2)
         = Ok p ∧
    ∃ raw, to_bytes p = Ok raw ∧ from_bytes raw (Some 512) (Some 7) true = Ok (set_dirty p false).
Proof.
  destruct (make 2 512 7 41 0 0 NO_PAGE) as [q|e] eqn:E; [|discriminate E].
  destruct (make_ok _ _ _ _ _ _ _ _ E) as (Hw & _ & Hcl & Hsz). eexists. split; [reflexivity|].
  destruct (run_agrees q [Insert [Byte.x61; Byte.x62]; Insert []; Free 0] Hw) as (_ & Hw' & Hs' & Hcl').
  destruct (page_codec_roundtrip _ true Hw') as (raw & q' & H1 & _ & H2 & _ & _ & _ & H3).
  exists raw. split; [exact H1|].
  assert (page_index (run serve q [Insert [Byte.x61; Byte.x62]; Insert []; Free 0]).2 = 7) as Hi.
  { vm_compute in E. injection E as <-. by vm_compute. }
  rewrite Hs', Hi, Hsz in H2. rewrite H2, H3; [done|by apply Hcl'].
Defined.

(** C25: decoding is total and safe.  Whatever the bytes, the declared size and the position,
    [from_bytes] either refuses with a configuration error or a corruption finding, and no
    other exception, or returns a clean, well-formed page of exactly the given length that
    serialises back to the same header, payload area and directory. *)
Theorem page_decode_total (raw : bytes) (size index : option Z) (verify : bool) :
  match from_bytes raw size index verify with
  | Ok p =>
      wf p ∧ zlen raw = page_size p ∧ page_index p = default 0 index ∧ dirty p = false ∧
      to_bytes p = Ok (le_pack 4 (page_checksum p) ++ slice raw 4 (free_start p)
                       ++ zeros (free_space p) ++ slice raw (free_end p) (page_size p))
  | Err e => err_class e = GrafxConfigurationError ∨ err_class e = GrafxCorruptionDetected
  end.
Proof.
  destruct (from_bytes raw size index verify) as [p|e] eqn:E.
  - pose proof (from_bytes_ok_inv _ _ _ _ _ E) as (Hw & Hl & Hi & Hd & _).
    split_and!; [done..|]. by eapply to_bytes_of_read.
  - by apply (from_bytes_errs _ _ _ _ e E).
Qed.

(** a damaged byte is always seen.  Changing any single byte of a written page image, in
    the header, the payload area, the gap or the directory, makes a verified read fail its
    checksum: it never yields a page. *)
Theorem page_damage_detected (p : Page.t) (pre post : bytes) (b c : byte) (index : option Z)
    (Hwf : wf p) (Hraw : to_bytes p = Ok (pre ++ b :: post)) (Hbc : b ≠ c) :
  from_bytes (pre ++ c :: post) (Some (page_size p)) index true
    = raise GrafxCorruptionDetected "checksum".
Proof.
  rewrite to_bytes_ok in Hraw by done. injection Hraw as Hraw.
  pose proof (zlen_page_image p Hwf) as Hl. rewrite page_image_frame in Hraw.
  apply from_bytes_checksum; [by apply wf_size| |].
  { rewrite <-Hl, page_image_frame, Hraw, !zlen_app, !zlen_cons. done. }
  rewrite page_image_frame, Hraw, zlen_app, zlen_cons in Hl. pose proof (page_geometry p Hwf).
  apply (crc_frame_one_byte _ _ _ _ _ _ _ Hraw Hbc).
  - rewrite <-slice_split by lia. symmetry. apply slice_full. rewrite zlen_app, zlen_cons. lia.
  - apply Nat2Z.inj. fold (zlen (slice (pre ++ c :: post) 0 4)).
    rewrite zlen_slice; rewrite ?zlen_app, ?zlen_cons; lia.
Qed.

Lemma page_damage_detected_witness :
  ∃ p, make 2 512 7 41 0 0 NO_PAGE = Ok p ∧
    ∃ pre b post, to_bytes p = Ok (pre ++ b :: post) ∧ zlen pre = 100 ∧ b = Byte.x00 ∧
      from_bytes (pre ++ Byte.x01 :: post) (Some 512) None true
        = raise GrafxCorruptionDetected "checksum".
Proof.
  destruct (make 2 512 7 41 0 0 NO_PAGE) as [p|e] eqn:E; [|discriminate E].
  destruct (make_ok _ _ _ _ _ _ _ _ E) as (Hw & _ & _ & Hsz). exists p. split; [reflexivity|].
  destruct (to_bytes p) as [raw|e] eqn:Hraw.
  2:{ by rewrite to_bytes_ok in Hraw. }
  assert (raw !! 100%nat = Some Byte.x00) as H100.
  { vm_compute in E. injection E as <-. vm_compute in Hraw. injection Hraw as <-. reflexivity. }
  exists (take 100 raw), Byte.x00, (drop 101 raw).
  pose proof (take_drop_middle raw 100 _ H100) as Hmid.
  assert (zlen (take 100 raw) = 100) as Hlen.
  { unfold zlen. rewrite length_take. pose proof (lookup_lt_Some _ _ _ H100). lia. }
  split; [by rewrite Hmid|]. split; [exact Hlen|]. split; [reflexivity|].
  pose proof (page_damage_detected p (take 100 raw) (drop 101 raw) Byte.x00 Byte.x01 None Hw) as H.
  rewrite Hsz in H. apply H; [by rewrite Hmid|done].
Defined.

(** A written page is never taken for one the device merely allocated.  The image of every
    well-formed page, even an empty one, fails [is_unwritten_image]. *)
Theorem written_page_is_written (p : Page.t) (raw : bytes) (Hwf : wf p)
    (Hraw : to_bytes p = Ok raw) :
  is_unwritten_image raw (page_size p) = false.
Proof.
  rewrite to_bytes_ok in Hraw by done. injection Hraw as <-.
  unfold is_unwritten_image. destruct (existsb _ _) eqn:E; [by rewrite andb_false_r|exfalso].
  assert (∀ b, b ∈ page_image p → Z_of_byte b = 0) as Hz.
  { intros b Hb. destruct (Z.eqb_spec (Z_of_byte b) 0) as [|Hne]; [done|].
    assert (existsb (λ b, negb (Z_of_byte b =? 0)) (page_image p) = true) as Ht; [|congruence].
    apply existsb_exists. exists b. split; [by apply list_elem_of_In|].
    destruct (Z.eqb_spec (Z_of_byte b) 0); [done|reflexivity]. }
  pose proof (page_geometry p Hwf) as (Hs & Hfe & Hee & Hsz & Hn).
  assert (∀ b, b ∈ le_pack 2 (free_start p) → Z_of_byte b = 0) as Hfs.
  { intros b Hb. apply Hz. rewrite page_image_frame. rewrite elem_of_app. right.
    rewrite elem_of_app. left. unfold header_tail, PageHeader.fields, header. simpl snd.
    unfold struct_image. cbn [fst snd PageHeader.free_start]. rewrite !elem_of_app. tauto. }
  assert (le_unpack (le_pack 2 (free_start p)) = free_start p) as Hu.
  { apply le_unpack_pack. pow256. lia. }
  assert (le_unpack (le_pack 2 (free_start p)) = 0) as Hu0; [|lia].
  revert Hfs. generalize (le_pack 2 (free_start p)). intros l Hl. clear -Hl.
  induction l as [|b l IH]; [done|]. unfold le_unpack; fold le_unpack.
  rewrite (Hl b) by (by left). rewrite IH; [done|]. intros x Hx. apply Hl. by right.
Qed.

Lemma written_page_is_written_witness :
  ∃ p raw, make 0 512 0 0 0 0 NO_PAGE = Ok p ∧ to_bytes p = Ok raw ∧
    is_unwritten_image raw 512 = false.
Proof.
  destruct (make 0 512 0 0 0 0 NO_PAGE) as [p|e] eqn:E; [|discriminate E].
  destruct (make_ok _ _ _ _ _ _ _ _ E) as (Hw & _ & _ & Hsz).
  exists p, (page_image p). split; [reflexivity|]. split; [by apply to_bytes_ok|].
  rewrite <-Hsz. apply written_page_is_written; [exact Hw|by apply to_bytes_ok].
Defined.

(** Compaction can change the page image without marking the page dirty: two payloads that a
    growing update left adjacent but out of slot order are swapped while nothing is reclaimed. *)
Example compact_clean_page_changes_image :
  ∃ p raw raw', (make 2 512 0 0 0 0 NO_PAGE ≫= λ p,
       Ok (set_dirty (run serve p [Insert (replicate 200 Byte.x61); Insert (replicate 200 Byte.x62);
                                   Update 0 (replicate 240 Byte.x63)]).2 false)) = Ok p ∧
    to_bytes p = Ok raw ∧ to_bytes (compact p).2 = Ok raw' ∧
    (compact p).1 = 0 ∧ dirty (compact p).2 = false ∧ raw' ≠ raw.
Proof.
  destruct (make 2 512 0 0 0 0 NO_PAGE ≫= _) as [p|e] eqn:E; [|vm_compute in E; discriminate E].
  destruct (to_bytes p) as [raw|e] eqn:R; [|vm_compute in E; injection E as <-; vm_compute in R; discriminate R].
  destruct (to_bytes (compact p).2) as [raw'|e] eqn:R';
    [|vm_compute in E; injection E as <-; vm_compute in R'; discriminate R'].
  exists p, raw, raw'. split; [done|]. split; [done|]. split; [done|].
  vm_compute in E. injection E as <-. vm_compute in R, R'. injection R as <-. injection R' as <-.
  split; [vm_compute; reflexivity|]. split; [vm_compute; reflexivity|]. discriminate.
Qed.
