(* ===== verification/Utf8.v ===== *)
(** Python strings and the strict UTF-8 codec ([str.encode] and [bytes.decode]).

    A [str] is a list of code points.  The codec is the one of the language's standard library
    that the log, the intents and the control records use for every text field; the lemmas say
    that it loses nothing and that only one byte string stands for each text. *)

From S2P Require Import Prelude.

Abbreviation pystr := (list Z).

(** A literal of the program's text. *)
Definition str (s : string) : pystr := Z_of_byte <$> String.list_byte_of_string s.

Definition surrogate (c : Z) : bool := (0xD800 <=? c) && (c <=? 0xDFFF).

(** The code points a Python string may hold; the surrogates among them cannot be encoded. *)
Definition code_point (c : Z) : Prop := 0 <= c <= 0x10FFFF.

Definition utf8_char (c : Z) : result bytes :=
  if (c <? 0) || surrogate c || (0x10FFFF <? c) then raise UnicodeError ""
  else if c <? 0x80 then Ok [byte_of_Z c]
  else if c <? 0x800 then Ok [byte_of_Z (0xC0 + c / 64); byte_of_Z (0x80 + c mod 64)]
  else if c <? 0x10000 then
    Ok [byte_of_Z (0xE0 + c / 4096); byte_of_Z (0x80 + c / 64 mod 64); byte_of_Z (0x80 + c mod 64)]
  else
    Ok [byte_of_Z (0xF0 + c / 262144); byte_of_Z (0x80 + c / 4096 mod 64);
        byte_of_Z (0x80 + c / 64 mod 64); byte_of_Z (0x80 + c mod 64)].

Fixpoint utf8_encode (s : pystr) : result bytes :=
  match s with
  | [] => Ok []
  | c :: s => b ← utf8_char c; bs ← utf8_encode s; Ok (b ++ bs)
  end.

(** [continuation b = Some v]: [b] is a continuation byte with payload [v]. *)
Definition continuation (b : byte) : option Z :=
  let v := Z_of_byte b in
  if (0x80 <=? v) && (v <? 0xC0) then Some (v - 0x80) else None.

Definition cons_char (valid : bool) (c : Z) (rest : result pystr) : result pystr :=
  if valid then s ← rest; Ok (c :: s) else raise UnicodeError "".

Fixpoint utf8_decode (bs : bytes) : result pystr :=
  match bs with
  | [] => Ok []
  | b0 :: t0 =>
      let v0 := Z_of_byte b0 in
      if v0 <? 0x80 then cons_char true v0 (utf8_decode t0)
      else match t0 with
      | [] => raise UnicodeError ""
      | b1 :: t1 =>
          match continuation b1 with
          | None => raise UnicodeError ""
          | Some v1 =>
              if v0 <? 0xE0 then
                let c := (v0 - 0xC0) * 64 + v1 in
                cons_char (0x80 <=? c) c (utf8_decode t1)
              else match t1 with
              | [] => raise UnicodeError ""
              | b2 :: t2 =>
                  match continuation b2 with
                  | None => raise UnicodeError ""
                  | Some v2 =>
                      if v0 <? 0xF0 then
                        let c := (v0 - 0xE0) * 4096 + v1 * 64 + v2 in
                        cons_char ((0x800 <=? c) && negb (surrogate c)) c (utf8_decode t2)
                      else match t2 with
                      | [] => raise UnicodeError ""
                      | b3 :: t3 =>
                          match continuation b3 with
                          | None => raise UnicodeError ""
                          | Some v3 =>
                              let c := (v0 - 0xF0) * 262144 + v1 * 4096 + v2 * 64 + v3 in
                              cons_char ((0x10000 <=? c) && (c <=? 0x10FFFF)) c (utf8_decode t3)
                          end
                      end
                  end
              end
          end
      end
  end.

(** ** Lemmas *)

Lemma continuation_byte v : 0 <= v < 64 → continuation (byte_of_Z (0x80 + v)) = Some v.
Proof.
  intros H. unfold continuation. rewrite Z_of_byte_of_Z, Z.mod_small by lia.
  rewrite (proj2 (andb_true_iff _ _)) by lia. f_equal. lia.
Qed.

Lemma continuation_inv b v :
  continuation b = Some v → 0 <= v < 64 ∧ b = byte_of_Z (0x80 + v).
Proof.
  unfold continuation. case_match eqn:E; [|done]. intros [= <-].
  split; [lia|]. rewrite <-(byte_of_Z_of_byte b) at 1. f_equal. lia.
Qed.

Lemma Z_of_byte_small v : 0 <= v < 256 → Z_of_byte (byte_of_Z v) = v.
Proof. intros. rewrite Z_of_byte_of_Z. by apply Z.mod_small. Qed.

(** Positional digits of a code point. *)
Lemma split64 c : 0 <= c → c = c / 64 * 64 + c mod 64 ∧ 0 <= c mod 64 < 64 ∧ 0 <= c / 64.
Proof.
  intros. pose proof (Z.div_mod c 64 ltac:(lia)). pose proof (Z.mod_pos_bound c 64 ltac:(lia)).
  pose proof (Z.div_pos c 64). lia.
Qed.

Lemma div_div_64 c k : 0 < k → c / 64 / k = c / (64 * k).
Proof. intros. by apply Z.div_div. Qed.

Ltac digits c :=
  let H1 := fresh in let H2 := fresh in let H3 := fresh in
  assert (c / 4096 = c / 64 / 64) as H1 by (rewrite Z.div_div by lia; reflexivity);
  assert (c / 262144 = c / 64 / 64 / 64) as H2 by (rewrite !Z.div_div by lia; reflexivity);
  rewrite ?H1, ?H2 in *;
  pose proof (split64 c ltac:(lia)); pose proof (split64 (c / 64) ltac:(lia));
  pose proof (split64 (c / 64 / 64) ltac:(lia)).

Lemma utf8_decode_char c b rest :
  utf8_char c = Ok b → utf8_decode (b ++ rest) = cons_char true c (utf8_decode rest).
Proof.
  unfold utf8_char, surrogate. destruct (_ || _ || _) eqn:E; [done|].
  rewrite !orb_false_iff, andb_false_iff in E.
  destruct (Z.ltb_spec c 0x80); [|destruct (Z.ltb_spec c 0x800);
    [|destruct (Z.ltb_spec c 0x10000)]]; intros [= <-]; cbn [app utf8_decode].
  - rewrite Z_of_byte_small by lia. by rewrite (proj2 (Z.ltb_lt _ _)) by lia.
  - digits c. rewrite Z_of_byte_small by lia. rewrite (proj2 (Z.ltb_ge _ _)) by lia.
    rewrite continuation_byte by lia. rewrite (proj2 (Z.ltb_lt _ _)) by lia.
    replace ((0xC0 + c / 64 - 0xC0) * 64 + c mod 64) with c by lia.
    by rewrite (proj2 (Z.leb_le _ _)) by lia.
  - digits c. rewrite Z_of_byte_small by lia. rewrite (proj2 (Z.ltb_ge _ _)) by lia.
    rewrite !continuation_byte by lia. rewrite (proj2 (Z.ltb_ge _ _)) by lia.
    rewrite (proj2 (Z.ltb_lt _ _)) by lia.
    replace ((0xE0 + c / 64 / 64 - 0xE0) * 4096 + (c / 64) mod 64 * 64 + c mod 64) with c by lia.
    unfold surrogate. replace (_ && negb _) with true; [done|]. lia.
  - digits c. rewrite Z_of_byte_small by lia. rewrite (proj2 (Z.ltb_ge _ _)) by lia.
    rewrite !continuation_byte by lia. rewrite !(proj2 (Z.ltb_ge _ _)) by lia.
    replace ((0xF0 + c / 64 / 64 / 64 - 0xF0) * 262144 + (c / 64 / 64) mod 64 * 4096
             + (c / 64) mod 64 * 64 + c mod 64) with c by lia.
    replace (_ && _) with true; [done|]. lia.
Qed.

Lemma utf8_roundtrip s b : utf8_encode s = Ok b → utf8_decode b = Ok s.
Proof.
  revert b. induction s as [|c s IH]; intros b H; simpl in H; [by injection H as <-|].
  inv_ok H. injection H as <-. rewrite (utf8_decode_char _ _ _ E). by rewrite (IH _ E0).
Qed.

Lemma cons_char_Ok valid c m s :
  cons_char valid c m = Ok s ↔ valid = true ∧ ∃ s', m = Ok s' ∧ s = c :: s'.
Proof.
  unfold cons_char, raise. destruct valid; [|naive_solver]. rewrite bind_Ok. naive_solver.
Qed.

Lemma byte_of_Z_eq b v : Z_of_byte b = v → b = byte_of_Z v.
Proof. intros <-. by rewrite byte_of_Z_of_byte. Qed.

(** The bytes of one character are determined by its digits. *)
Lemma utf8_char_2 v0 v1 :
  0 <= v1 < 64 → 0x80 <= (v0 - 0xC0) * 64 + v1 → v0 < 0xE0 →
  utf8_char ((v0 - 0xC0) * 64 + v1) = Ok [byte_of_Z v0; byte_of_Z (0x80 + v1)].
Proof.
  intros Hv1 Hc Hv0. unfold utf8_char, surrogate. set (c := (v0 - 0xC0) * 64 + v1) in *.
  replace (_ || _ || _) with false by lia. rewrite (proj2 (Z.ltb_ge _ _)) by lia.
  rewrite (proj2 (Z.ltb_lt _ _)) by lia. pose proof (split64 c ltac:(lia)).
  do 3 f_equal; [|do 2 f_equal]; lia.
Qed.

Lemma utf8_char_3 v0 v1 v2 :
  0 <= v1 < 64 → 0 <= v2 < 64 → v0 < 0xF0 →
  0x800 <= (v0 - 0xE0) * 4096 + v1 * 64 + v2 →
  surrogate ((v0 - 0xE0) * 4096 + v1 * 64 + v2) = false →
  utf8_char ((v0 - 0xE0) * 4096 + v1 * 64 + v2)
    = Ok [byte_of_Z v0; byte_of_Z (0x80 + v1); byte_of_Z (0x80 + v2)].
Proof.
  intros Hv1 Hv2 Hv0 Hc Hs. unfold utf8_char. set (c := (v0 - 0xE0) * 4096 + v1 * 64 + v2) in *.
  rewrite Hs. replace (_ || _ || _) with false by lia. rewrite !(proj2 (Z.ltb_ge _ _)) by lia.
  rewrite (proj2 (Z.ltb_lt _ _)) by lia. digits c.
  f_equal. f_equal; [f_equal; lia|]. f_equal; [f_equal; lia|]. do 2 f_equal. lia.
Qed.

Lemma utf8_char_4 v0 v1 v2 v3 :
  0 <= v1 < 64 → 0 <= v2 < 64 → 0 <= v3 < 64 →
  0x10000 <= (v0 - 0xF0) * 262144 + v1 * 4096 + v2 * 64 + v3 <= 0x10FFFF →
  utf8_char ((v0 - 0xF0) * 262144 + v1 * 4096 + v2 * 64 + v3)
    = Ok [byte_of_Z v0; byte_of_Z (0x80 + v1); byte_of_Z (0x80 + v2); byte_of_Z (0x80 + v3)].
Proof.
  intros Hv1 Hv2 Hv3 Hc. unfold utf8_char, surrogate.
  set (c := (v0 - 0xF0) * 262144 + v1 * 4096 + v2 * 64 + v3) in *.
  replace (_ || _ || _) with false by lia. rewrite !(proj2 (Z.ltb_ge _ _)) by lia. digits c.
  f_equal. f_equal; [f_equal; lia|]. f_equal; [f_equal; lia|]. f_equal; [f_equal; lia|].
  do 2 f_equal. lia.
Qed.

(** Strictness: only the encoder's own bytes decode. *)
Lemma utf8_decode_inv bs s : utf8_decode bs = Ok s → utf8_encode s = Ok bs.
Proof.
  remember (length bs) as n eqn:Hn. assert (length bs <= n)%nat as Hle by lia. clear Hn.
  revert bs s Hle. induction n as [|n IH]; intros [|b0 t0] s Hle H; simpl in Hle; try lia;
    try (injection H as <-; done).
  assert (∀ c b t s', utf8_char c = Ok b → (length t <= n)%nat → utf8_decode t = Ok s' →
            utf8_encode (c :: s') = Ok (b ++ t)) as Hcons.
  { intros c b t s' Hc Ht Hs. simpl. rewrite Hc. simpl. by rewrite (IH t s' Ht Hs). }
  cbn [utf8_decode] in H. pose proof (Z_of_byte_range b0) as R0.
  destruct (Z.ltb_spec (Z_of_byte b0) 0x80).
  { apply cons_char_Ok in H as (_ & s' & H & ->). apply (Hcons _ [b0]); [|lia|done].
    unfold utf8_char, surrogate. replace (_ || _ || _) with false by lia.
    rewrite (proj2 (Z.ltb_lt _ _)) by lia. by rewrite byte_of_Z_of_byte. }
  destruct t0 as [|b1 t1]; [done|]. simpl in Hle.
  destruct (continuation b1) as [v1|] eqn:E1; [|done]. apply continuation_inv in E1 as [R1 ->].
  destruct (Z.ltb_spec (Z_of_byte b0) 0xE0).
  { apply cons_char_Ok in H as (Hv & s' & H & ->). rewrite <-(byte_of_Z_of_byte b0) at 2.
    apply (Hcons _ [_; _]); [apply utf8_char_2; lia|lia|done]. }
  destruct t1 as [|b2 t2]; [done|]. simpl in Hle.
  destruct (continuation b2) as [v2|] eqn:E2; [|done]. apply continuation_inv in E2 as [R2 ->].
  destruct (Z.ltb_spec (Z_of_byte b0) 0xF0).
  { apply cons_char_Ok in H as ([Hv Hs]%andb_true_iff & s' & H & ->).
    apply negb_true_iff in Hs. rewrite <-(byte_of_Z_of_byte b0) at 2.
    apply (Hcons _ [_; _; _]); [apply utf8_char_3; lia || done|lia|done]. }
  destruct t2 as [|b3 t3]; [done|]. simpl in Hle.
  destruct (continuation b3) as [v3|] eqn:E3; [|done]. apply continuation_inv in E3 as [R3 ->].
  apply cons_char_Ok in H as (Hv & s' & H & ->). rewrite <-(byte_of_Z_of_byte b0) at 2.
  apply (Hcons _ [_; _; _; _]); [apply utf8_char_4; lia|lia|done].
Qed.

(** Encoding refuses exactly the strings that hold a surrogate. *)
Lemma utf8_encode_ok s :
  Forall (λ c, code_point c ∧ surrogate c = false) s → ∃ b, utf8_encode s = Ok b.
Proof.
  induction 1 as [|c s [Hc Hs] _ [bs IH]]; [by eexists|]. simpl.
  assert (∃ b, utf8_char c = Ok b) as [b ->].
  { unfold utf8_char, code_point in *. rewrite Hs. replace (_ || _ || _) with false by lia.
    repeat case_match; eauto. }
  simpl. rewrite IH. simpl. eauto.
Qed.

Lemma utf8_encode_app s s' b b' :
  utf8_encode s = Ok b → utf8_encode s' = Ok b' → utf8_encode (s ++ s') = Ok (b ++ b').
Proof.
  revert b. induction s as [|c s IH]; intros b Hb Hb'; simpl in *; [by injection Hb as <-|].
  inv_ok Hb. injection Hb as <-. rewrite E. simpl. rewrite (IH _ E0 Hb'). simpl.
  by rewrite <-app_assoc.
Qed.

Lemma utf8_encode_inj s s' b : utf8_encode s = Ok b → utf8_encode s' = Ok b → s = s'.
Proof. intros H%utf8_roundtrip H'%utf8_roundtrip. congruence. Qed.

(** ** Strings as the components use them *)

(** [s.startswith(prefix)] and [s.endswith(suffix)]. *)
Fixpoint starts_with (prefix s : pystr) : bool :=
  match prefix, s with
  | [], _ => true
  | a :: prefix, b :: s => (a =? b) && starts_with prefix s
  | _ :: _, [] => false
  end.

Definition ends_with (suffix s : pystr) : bool := starts_with (reverse suffix) (reverse s).

(** [s.split(c)] and [c.join(parts)]. *)
Fixpoint split (c : Z) (s : pystr) : list pystr :=
  match s with
  | [] => [[]]
  | x :: s =>
      if x =? c then [] :: split c s
      else match split c s with part :: parts => (x :: part) :: parts | [] => [[x]] end
  end.

Fixpoint join (c : Z) (parts : list pystr) : pystr :=
  match parts with
  | [] => []
  | [part] => part
  | part :: parts => part ++ c :: join c parts
  end.

(** Python's order of strings. *)
Fixpoint str_leb (a b : pystr) : bool :=
  match a, b with
  | [], _ => true
  | _ :: _, [] => false
  | x :: a, y :: b => (x <? y) || ((x =? y) && str_leb a b)
  end.
Definition str_le (a b : pystr) : Prop := str_leb a b = true.
#[export] Instance str_le_dec : RelDecision str_le.
Proof. intros a b. unfold str_le. apply _. Defined.

Lemma starts_with_app p s : starts_with p (p ++ s) = true.
Proof. induction p; simpl; [done|]. by rewrite Z.eqb_refl. Qed.

Lemma starts_with_inv p s : starts_with p s = true → ∃ r, s = p ++ r.
Proof.
  revert s. induction p as [|a p IH]; intros s; simpl; [by eexists|].
  destruct s as [|b s]; [done|]. intros [->%Z.eqb_eq (r & ->)%IH]%andb_true_iff. by exists r.
Qed.

Lemma ends_with_app p s : ends_with p (s ++ p) = true.
Proof. unfold ends_with. rewrite reverse_app. apply starts_with_app. Qed.

Lemma ends_with_inv p s : ends_with p s = true → ∃ r, s = r ++ p.
Proof.
  intros [r Hr]%starts_with_inv. exists (reverse r).
  by rewrite <-(reverse_involutive s), Hr, reverse_app, reverse_involutive.
Qed.
