(* ===== verification/WalRecord.v ===== *)
(** The write-ahead log record: src/src/okto_grafx/domain/wal/record.py (the record and its
    encoder) and src/src/okto_grafx/domain/wal/codec.py (the decoder that never raises).

    The theorems: encoding and decoding are inverse, a torn record is always a truncated tail,
    a damaged byte never decodes, and the decoder never advances over bytes whose checksum it
    did not verify. *)

From S2P Require Import Prelude Ids Layout Checksum Utf8.

(** ** Constants *)

Definition WAL_MAGIC : Z := 0x5852474F.
Definition WAL_LEGACY_FORMAT_VERSION : Z := 1.
Definition WAL_FORMAT_VERSION : Z := 2.
Definition WAL_V2_FLAG_REQUIRED : Z := 0x0001.
Definition WAL_V2_FLAG_SKIPPABLE : Z := 0x0008.
Definition WAL_V2_FLAG_PAGE_IMAGE_ZLIB1 : Z := 0x0004.
Definition WAL_V2_FLAG_COMMIT_CATALOG_V1 : Z := 0x0010.
Definition WAL_V2_FLAG_SYSTEM_HISTORY_V1 : Z := 0x0020.
Definition WAL_HEADER_LENGTH : Z := 48.
Definition CHECKSUM_LENGTH : Z := 4.
Definition SUPPORTED_FORMAT_VERSIONS : list Z := [WAL_LEGACY_FORMAT_VERSION; WAL_FORMAT_VERSION].
Definition HEADER_LENGTHS : list (Z * Z) :=
  [(WAL_LEGACY_FORMAT_VERSION, WAL_HEADER_LENGTH); (WAL_FORMAT_VERSION, WAL_HEADER_LENGTH)].
Definition MAX_DESCRIPTOR_BYTES : Z := 4096.
Definition MAX_TOTAL_LENGTH : Z := MAX_U32.

(** [struct.Struct("<IHHHHIQQQII")]. *)
Definition HEADER : list field := [U 4; U 2; U 2; U 2; U 2; U 4; U 8; U 8; U 8; U 4; U 4].

Inductive WalRecordType :=
  | BEGIN | WRITE_PAGE | COMMIT | ABORT | CHECKPOINT | INDEX_WRITE | INDEX_RECONCILE
  | LEDGER_APPEND | CATALOG_WRITE | SPACE_DDL | VECTOR_WRITE | SEGMENT_HEADER | PAGE_ALLOC.

Definition record_type_value (t : WalRecordType) : Z :=
  match t with
  | BEGIN => 1 | WRITE_PAGE => 2 | COMMIT => 3 | ABORT => 4 | CHECKPOINT => 5
  | INDEX_WRITE => 6 | INDEX_RECONCILE => 7 | LEDGER_APPEND => 8 | CATALOG_WRITE => 9
  | SPACE_DDL => 10 | VECTOR_WRITE => 11 | SEGMENT_HEADER => 12 | PAGE_ALLOC => 13
  end.

Definition KNOWN_TYPES : list Z :=
  record_type_value <$>
    [BEGIN; WRITE_PAGE; COMMIT; ABORT; CHECKPOINT; INDEX_WRITE; INDEX_RECONCILE; LEDGER_APPEND;
     CATALOG_WRITE; SPACE_DDL; VECTOR_WRITE; SEGMENT_HEADER; PAGE_ALLOC].

(** ** Operations *)

Definition is_known_record_type (record_type : Z) : bool := bool_decide (record_type ∈ KNOWN_TYPES).

(** [None] when the pair is closed-safe; the text of the refusal is not modelled. *)
Definition v2_record_semantics_error (record_type flags : Z) : option unit :=
  let compressed_page_flags := Z.lor WAL_V2_FLAG_REQUIRED WAL_V2_FLAG_PAGE_IMAGE_ZLIB1 in
  let journal_flags := Z.lor WAL_V2_FLAG_REQUIRED WAL_V2_FLAG_COMMIT_CATALOG_V1 in
  let history_flags := Z.lor WAL_V2_FLAG_REQUIRED WAL_V2_FLAG_SYSTEM_HISTORY_V1 in
  if record_type =? record_type_value WRITE_PAGE then
    if bool_decide (flags ∈ [compressed_page_flags; journal_flags;
                             Z.lor journal_flags WAL_V2_FLAG_PAGE_IMAGE_ZLIB1;
                             history_flags; Z.lor history_flags WAL_V2_FLAG_PAGE_IMAGE_ZLIB1])
    then None else Some ()
  else if negb (is_known_record_type record_type) then
    if flags =? WAL_V2_FLAG_SKIPPABLE then None else Some ()
  else Some ().

(** [HEADER_LENGTHS.get(format_version)]. *)
Definition header_lengths_get (format_version : Z) : option Z :=
  snd <$> List.find (λ '(v, _), v =? format_version) HEADER_LENGTHS.

Definition header_length_of (format_version : Z) : result Z :=
  match header_lengths_get format_version with
  | None => raise GrafxConfigurationError "format_version"
  | Some length => Ok length
  end.

Definition require_unsigned (field : string) (value ceiling : Z) : result Z :=
  if negb ((0 <=? value) && (value <=? ceiling)) then raise GrafxConfigurationError field
  else Ok value.

Record WalRecord := Mk {
  record_type : Z;
  payload : bytes;
  descriptor : pystr;
  lsn : Z;
  epoch : Z;
  txn_id : Z;
  flags : Z;
  format_version : Z
}.

#[export] Instance wal_record_eq_dec : EqDecision WalRecord.
Proof. solve_decision. Defined.

Definition encoded_descriptor (r : WalRecord) : result bytes :=
  match utf8_encode (descriptor r) with
  | Ok b => Ok b
  | Err _ => raise GrafxConfigurationError "descriptor"
  end.

(** [__post_init__]: the checks every construction of a record passes. *)
Definition post_init (r : WalRecord) : result WalRecord :=
  _ ← require_unsigned "record_type" (record_type r) MAX_U16;
  _ ← require_unsigned "format_version" (format_version r) MAX_U16;
  _ ← require_unsigned "flags" (flags r) MAX_U16;
  _ ← require_unsigned "lsn" (lsn r) MAX_U64;
  _ ← require_unsigned "epoch" (epoch r) MAX_U64;
  _ ← require_unsigned "txn_id" (txn_id r) MAX_U64;
  encoded ← encoded_descriptor r;
  if MAX_DESCRIPTOR_BYTES <? zlen encoded then raise GrafxConfigurationError "descriptor"
  else if MAX_U32 <? zlen (payload r) then raise GrafxConfigurationError "payload"
  else Ok r.

Definition is_known_type (r : WalRecord) : bool := is_known_record_type (record_type r).

Definition encoded_length (r : WalRecord) : result Z :=
  header ← header_length_of (format_version r);
  encoded ← encoded_descriptor r;
  Ok (header + zlen encoded + zlen (payload r) + CHECKSUM_LENGTH).

Definition with_lsn (r : WalRecord) (lsn : Z) : result WalRecord :=
  post_init (Mk (record_type r) (payload r) (descriptor r) lsn (epoch r) (txn_id r) (flags r)
               (format_version r)).

Definition with_descriptor (r : WalRecord) (descriptor : pystr) : result WalRecord :=
  post_init (Mk (record_type r) (payload r) descriptor (lsn r) (epoch r) (txn_id r) (flags r)
               (format_version r)).

Definition encode (r : WalRecord) : result bytes :=
  header_length ← header_length_of (format_version r);
  if negb (is_known_type r) then raise GrafxConfigurationError "record_type"
  else if (format_version r =? WAL_FORMAT_VERSION)
          && negb (bool_decide (v2_record_semantics_error (record_type r) (flags r) = None))
  then raise GrafxConfigurationError "flags"
  else
    descriptor ← encoded_descriptor r;
    let total := header_length + zlen descriptor + zlen (payload r) + CHECKSUM_LENGTH in
    if MAX_TOTAL_LENGTH <? total then raise GrafxConfigurationError "total_length"
    else
      head ← struct_pack HEADER
        (WAL_MAGIC, (format_version r, (record_type r, (header_length, (flags r, (total,
          (lsn r, (epoch r, (txn_id r, (zlen descriptor, (zlen (payload r), ())))))))))));
      let body := head ++ descriptor ++ payload r in
      Ok (body ++ le_pack 4 (crc32c_of body)).

(** *** The decoder *)

Inductive FailureReason :=
  | TRUNCATED_TAIL | BAD_MAGIC | UNSUPPORTED_VERSION | UNSUPPORTED_REQUIRED_RECORD | BAD_HEADER
  | CHECKSUM_FAILURE | UNREADABLE_DESCRIPTOR | UNREPRESENTABLE_RECORD | UNREADABLE_SEGMENT
  | LSN_DISCONTINUITY.

#[export] Instance failure_reason_eq_dec : EqDecision FailureReason.
Proof. solve_decision. Defined.

Record DecodeOutcome := Outcome {
  consumed : Z;
  record : option WalRecord;
  reason : option FailureReason;
  checked : bool
}.

Definition ok (d : DecodeOutcome) : bool := bool_decide (is_Some (record d)).

Definition truncated (available : Z) : DecodeOutcome :=
  Outcome available None (Some TRUNCATED_TAIL) false.

Definition refused (r : FailureReason) : DecodeOutcome := Outcome 0 None (Some r) false.

(** What follows a matching checksum: the descriptor, the record model, the v2 semantics. *)
Definition decode_checked (data : bytes) (offset : Z) (fields : fvals HEADER) : DecodeOutcome :=
  let '(_, (format_version, (record_type, (header_length, (flags, (total_length, (lsn, (epoch,
         (txn_id, (descriptor_length, (payload_length, _))))))))))) := fields in
  let body_end := offset + total_length - CHECKSUM_LENGTH in
  let descriptor_start := offset + header_length in
  let payload_start := descriptor_start + descriptor_length in
  match utf8_decode (slice data descriptor_start payload_start) with
  | Err _ => Outcome total_length None (Some UNREADABLE_DESCRIPTOR) true
  | Ok descriptor =>
      match post_init (Mk record_type (slice data payload_start body_end) descriptor lsn epoch
                         txn_id flags format_version) with
      | Err _ => Outcome total_length None (Some UNREPRESENTABLE_RECORD) true
      | Ok r =>
          if (1 <? format_version)
             && negb (bool_decide (v2_record_semantics_error record_type flags = None))
          then Outcome total_length None (Some UNSUPPORTED_REQUIRED_RECORD) true
          else Outcome total_length (Some r) None true
      end
  end.

Definition decode_record (data : bytes) (offset : Z) : DecodeOutcome :=
  if offset <? 0 then refused BAD_HEADER
  else
    let available := zlen data - offset in
    if available <=? 0 then truncated (Z.max available 0)
    else if available <? WAL_HEADER_LENGTH then truncated available
    else
      match struct_unpack_from HEADER data offset with
      | Err _ => refused BAD_HEADER (* unreachable: 48 bytes are there *)
      | Ok fields =>
          let '(magic, (format_version, (record_type, (header_length, (flags, (total_length,
                 (lsn, (epoch, (txn_id, (descriptor_length, (payload_length, _))))))))))) := fields in
          if negb (magic =? WAL_MAGIC) then refused BAD_MAGIC
          else if negb (bool_decide (format_version ∈ SUPPORTED_FORMAT_VERSIONS))
          then refused UNSUPPORTED_VERSION
          else
            let declared_header := default 0 (header_lengths_get format_version) in
            if negb (header_length =? declared_header) then refused BAD_HEADER
            else
              let expected_total :=
                header_length + descriptor_length + payload_length + CHECKSUM_LENGTH in
              if negb (total_length =? expected_total) then refused BAD_HEADER
              else if available <? total_length then truncated available
              else
                let body_end := offset + total_length - CHECKSUM_LENGTH in
                let stored := le_unpack (slice data body_end (offset + total_length)) in
                let computed := crc32c_of (slice data offset body_end) in
                if negb (stored =? computed) then Outcome 0 None (Some CHECKSUM_FAILURE) true
                else decode_checked data offset fields
      end.

(** ** Lemmas *)

(** The header fields of a record whose descriptor and payload have these lengths. *)
Definition header_fields (r : WalRecord) (descriptor_length : Z) : fvals HEADER :=
  (WAL_MAGIC, (format_version r, (record_type r, (WAL_HEADER_LENGTH, (flags r,
    (WAL_HEADER_LENGTH + descriptor_length + zlen (payload r) + CHECKSUM_LENGTH,
      (lsn r, (epoch r, (txn_id r, (descriptor_length, (zlen (payload r), ()))))))))))).

Definition record_body (r : WalRecord) (d : bytes) : bytes :=
  struct_image HEADER (header_fields r (zlen d)) ++ d ++ payload r.

Definition record_image (r : WalRecord) (d : bytes) : bytes :=
  record_body r d ++ le_pack 4 (crc32c_of (record_body r d)).

Lemma header_lengths_supported v :
  v ∈ SUPPORTED_FORMAT_VERSIONS ↔ header_lengths_get v = Some WAL_HEADER_LENGTH.
Proof.
  unfold SUPPORTED_FORMAT_VERSIONS, header_lengths_get, HEADER_LENGTHS,
    WAL_LEGACY_FORMAT_VERSION, WAL_FORMAT_VERSION. cbn [List.find].
  rewrite elem_of_cons, list_elem_of_singleton.
  destruct (Z.eqb_spec 1 v), (Z.eqb_spec 2 v); simpl; split; try done; intros; subst; try lia; auto.
Qed.

Lemma header_length_of_Ok v h :
  header_length_of v = Ok h ↔ v ∈ SUPPORTED_FORMAT_VERSIONS ∧ h = WAL_HEADER_LENGTH.
Proof.
  rewrite header_lengths_supported. unfold header_length_of, raise.
  destruct (header_lengths_get v) as [l|] eqn:E; [|naive_solver].
  assert (l = WAL_HEADER_LENGTH) as ->; [|naive_solver].
  unfold header_lengths_get, HEADER_LENGTHS in E. cbn [List.find] in E.
  repeat case_match; simpl in E; congruence.
Qed.

Lemma wal_require_unsigned_Ok f v m w : require_unsigned f v m = Ok w ↔ w = v ∧ 0 <= v <= m.
Proof.
  unfold require_unsigned, raise. case_match eqn:E; [split; [done|lia]|].
  split; [intros [= <-]; lia|by intros [-> _]].
Qed.

Lemma encoded_descriptor_Ok r d : encoded_descriptor r = Ok d ↔ utf8_encode (descriptor r) = Ok d.
Proof. unfold encoded_descriptor, raise. case_match; naive_solver. Qed.

(** A record that passed its construction checks. *)
Definition valid (r : WalRecord) (d : bytes) : Prop :=
  utf8_encode (descriptor r) = Ok d ∧ zlen d <= MAX_DESCRIPTOR_BYTES ∧ zlen (payload r) <= MAX_U32 ∧
  0 <= record_type r <= MAX_U16 ∧ 0 <= format_version r <= MAX_U16 ∧ 0 <= flags r <= MAX_U16 ∧
  0 <= lsn r <= MAX_U64 ∧ 0 <= epoch r <= MAX_U64 ∧ 0 <= txn_id r <= MAX_U64.

Lemma record_post_init_Ok r r' : post_init r = Ok r' ↔ r' = r ∧ ∃ d, valid r d.
Proof.
  unfold post_init, valid. split.
  - intros H. inv_ok H. repeat match goal with E : require_unsigned _ _ _ = Ok _ |- _ =>
      apply wal_require_unsigned_Ok in E as [_ ?] end.
    rewrite encoded_descriptor_Ok in *.
    destruct (Z.ltb_spec MAX_DESCRIPTOR_BYTES (zlen x5)); [done|].
    destruct (Z.ltb_spec MAX_U32 (zlen (payload r))); [done|]. injection H as <-.
    split; [done|]. exists x5. tauto.
  - intros (-> & d & Hd & Hdl & Hpl & ?&?&?&?&?&?).
    rewrite !(proj2 (wal_require_unsigned_Ok _ _ _ _)) by done. cbn [mbind result_bind].
    rewrite (proj2 (encoded_descriptor_Ok r d)) by done. cbn [mbind result_bind].
    rewrite (proj2 (Z.ltb_ge _ _)) by lia. by rewrite (proj2 (Z.ltb_ge _ _)) by lia.
Qed.

Lemma wal_header_fields_fit r d :
  valid r d → WAL_HEADER_LENGTH + zlen d + zlen (payload r) + CHECKSUM_LENGTH <= MAX_TOTAL_LENGTH →
  struct_fits HEADER (header_fields r (zlen d)).
Proof.
  intros (_ & Hd & Hp & ?&?&?&?&?&?) Ht. pose proof (zlen_nonneg d). pose proof (zlen_nonneg (payload r)).
  unfold header_fields, MAX_TOTAL_LENGTH, MAX_DESCRIPTOR_BYTES, WAL_HEADER_LENGTH, CHECKSUM_LENGTH,
    MAX_U16, MAX_U32, MAX_U64, WAL_MAGIC in *. solve_fits.
Qed.

Definition v2_ok (r : WalRecord) : Prop :=
  format_version r = WAL_FORMAT_VERSION → v2_record_semantics_error (record_type r) (flags r) = None.

Definition writable (r : WalRecord) (d : bytes) : Prop :=
  format_version r ∈ SUPPORTED_FORMAT_VERSIONS ∧ is_known_type r = true ∧ v2_ok r ∧
  WAL_HEADER_LENGTH + zlen d + zlen (payload r) + CHECKSUM_LENGTH <= MAX_TOTAL_LENGTH.

Lemma encode_Ok r d b :
  valid r d → encode r = Ok b ↔ writable r d ∧ b = record_image r d.
Proof.
  intros Hv. pose proof Hv as (Hd & _). unfold encode, writable, v2_ok.
  rewrite bind_Ok. setoid_rewrite header_length_of_Ok.
  assert ((format_version r =? WAL_FORMAT_VERSION)
            && negb (bool_decide (v2_record_semantics_error (record_type r) (flags r) = None)) = false
          ↔ (format_version r = WAL_FORMAT_VERSION →
             v2_record_semantics_error (record_type r) (flags r) = None)) as Hsem.
  { rewrite andb_false_iff, negb_false_iff, bool_decide_eq_true, Z.eqb_neq.
    destruct (decide (format_version r = WAL_FORMAT_VERSION)); tauto. }
  split.
  - intros (h & [Hver ->] & H). destruct (is_known_type r) eqn:Hk; cbn [negb] in H; [|done].
    destruct (_ && _) eqn:Hs in H; [done|]. pose proof (proj1 Hsem Hs) as Hsv.
    rewrite (proj2 (encoded_descriptor_Ok r d)) in H by done. cbn [mbind result_bind] in H.
    destruct (Z.ltb_spec MAX_TOTAL_LENGTH
      (WAL_HEADER_LENGTH + zlen d + zlen (payload r) + CHECKSUM_LENGTH)); [done|].
    pose proof (wal_header_fields_fit r d Hv ltac:(lia)) as Hf. unfold header_fields in Hf.
    rewrite struct_pack_image in H by done. cbn [mbind result_bind] in H. injection H as <-.
    split; [|done]. split_and!; [done..|lia].
  - intros ((Hver & Hk & Hs & Ht) & ->). eexists. split; [done|]. rewrite Hk. cbn [negb].
    rewrite (proj2 Hsem Hs).
    rewrite (proj2 (encoded_descriptor_Ok r d)) by done. cbn [mbind result_bind].
    rewrite (proj2 (Z.ltb_ge _ _)) by lia.
    pose proof (wal_header_fields_fit r d Hv ltac:(lia)) as Hf. unfold header_fields in Hf.
    by rewrite struct_pack_image by done.
Qed.

Lemma zlen_record_body r d : valid r d → writable r d →
  zlen (record_body r d) = WAL_HEADER_LENGTH + zlen d + zlen (payload r).
Proof.
  intros Hv (_&_&_&Ht). unfold record_body.
  rewrite !zlen_app, zlen_struct_image by (by apply wal_header_fields_fit). simpl.
  unfold WAL_HEADER_LENGTH. lia.
Qed.

Lemma zlen_record_image r d : valid r d → writable r d →
  zlen (record_image r d) = WAL_HEADER_LENGTH + zlen d + zlen (payload r) + CHECKSUM_LENGTH.
Proof.
  intros. unfold record_image. rewrite zlen_app, zlen_record_body, zlen_le_pack by done.
  unfold CHECKSUM_LENGTH. lia.
Qed.

(** Every outcome of a decode: short of bytes, refused before the checksum, refused by it, or
    past it with a header that is consistent and a checksum that matches. *)
Inductive decoded (data : bytes) (offset : Z) : DecodeOutcome → Prop :=
  | decoded_truncated :
      decoded data offset (truncated (Z.max (zlen data - offset) 0))
  | decoded_refused r : decoded data offset (refused r)
  | decoded_corrupt : decoded data offset (Outcome 0 None (Some CHECKSUM_FAILURE) true)
  | decoded_checked (v t k h f total l e x dl pl : Z) :
      v ∈ SUPPORTED_FORMAT_VERSIONS → h = WAL_HEADER_LENGTH →
      total = WAL_HEADER_LENGTH + dl + pl + CHECKSUM_LENGTH →
      offset + total <= zlen data → k = WAL_MAGIC →
      let fields : fvals HEADER := (k, (v, (t, (h, (f, (total, (l, (e, (x, (dl, (pl, ()))))))))))) in
      struct_fits HEADER fields →
      slice data offset (offset + WAL_HEADER_LENGTH) = struct_image HEADER fields →
      slice data (offset + total - CHECKSUM_LENGTH) (offset + total)
        = le_pack 4 (crc32c_of (slice data offset (offset + total - CHECKSUM_LENGTH))) →
      decoded data offset (decode_checked data offset fields).

Lemma le_unpack_eq (raw : bytes) v : le_unpack raw = v → zlen raw = 4 → raw = le_pack 4 v.
Proof.
  intros <- Hl. replace 4%nat with (length raw) by (unfold zlen in Hl; lia).
  by rewrite le_pack_unpack.
Qed.

Lemma decode_record_decoded data offset : decoded data offset (decode_record data offset).
Proof.
  unfold decode_record. destruct (Z.ltb_spec offset 0); [constructor|].
  destruct (Z.leb_spec (zlen data - offset) 0); [constructor|].
  unfold WAL_HEADER_LENGTH at 1.
  destruct (Z.ltb_spec (zlen data - offset) 48).
  { rewrite <-(Z.max_l (zlen data - offset) 0) at 1 by lia. constructor. }
  destruct (struct_unpack_from HEADER data offset) as [fields|e] eqn:E; [|constructor].
  apply (struct_unpack_from_Ok HEADER) in E as (Hf & _ & Himg); [|lia].
  destruct fields as (magic&v&t&h&f&total&l&e&x&dl&pl&[]).
  destruct (Z.eqb_spec magic WAL_MAGIC); cbn [negb]; [|constructor].
  destruct (bool_decide _) eqn:Hv; cbn [negb]; [|constructor]. apply bool_decide_eq_true in Hv.
  rewrite (proj1 (header_lengths_supported v) Hv). cbn [from_option]; unfold id.
  destruct (Z.eqb_spec h WAL_HEADER_LENGTH); cbn [negb]; [|constructor].
  destruct (Z.eqb_spec total (h + dl + pl + CHECKSUM_LENGTH)); cbn [negb]; [|constructor].
  destruct (Z.ltb_spec (zlen data - offset) total).
  { rewrite <-(Z.max_l (zlen data - offset) 0) at 1 by lia. constructor. }
  destruct (Z.eqb_spec (le_unpack (slice data (offset + total - CHECKSUM_LENGTH) (offset + total)))
              (crc32c_of (slice data offset (offset + total - CHECKSUM_LENGTH)))) as [Hcrc|];
    cbn [negb]; [|constructor].
  assert (0 <= dl ∧ 0 <= pl) as [??].
  { cbn [struct_fits field_fits fst snd HEADER] in Hf. lia. }
  unfold WAL_HEADER_LENGTH, CHECKSUM_LENGTH in *. apply le_unpack_eq in Hcrc.
  2:{ rewrite zlen_slice; lia. }
  apply decoded_checked; try done; unfold WAL_HEADER_LENGTH, CHECKSUM_LENGTH; try lia.
Qed.

Arguments decode_checked : simpl never.

Lemma version_above_1 v : v ∈ SUPPORTED_FORMAT_VERSIONS → (1 <? v) = (v =? WAL_FORMAT_VERSION).
Proof.
  unfold SUPPORTED_FORMAT_VERSIONS, WAL_LEGACY_FORMAT_VERSION, WAL_FORMAT_VERSION.
  rewrite elem_of_cons, list_elem_of_singleton. intros [-> | ->]; done.
Qed.

(** A header whose fields say where the record's own bytes are. *)
Lemma decode_checked_image r d data offset :
  valid r d → v2_ok r → format_version r ∈ SUPPORTED_FORMAT_VERSIONS →
  slice data (offset + 48) (offset + 48 + zlen d) = d →
  slice data (offset + 48 + zlen d) (offset + 48 + zlen d + zlen (payload r)) = payload r →
  decode_checked data offset (header_fields r (zlen d))
    = Outcome (WAL_HEADER_LENGTH + zlen d + zlen (payload r) + CHECKSUM_LENGTH) (Some r) None true.
Proof.
  intros Hv Hs Hver Hd Hp. unfold decode_checked, header_fields, WAL_HEADER_LENGTH, CHECKSUM_LENGTH.
  rewrite Hd. pose proof Hv as (Hu & _). rewrite (utf8_roundtrip _ _ Hu).
  replace (offset + (48 + zlen d + zlen (payload r) + 4) - 4)
    with (offset + 48 + zlen d + zlen (payload r)) by lia.
  rewrite Hp. replace (Mk _ _ _ _ _ _ _ _) with r by (by destruct r).
  rewrite (proj2 (record_post_init_Ok r r)) by eauto. rewrite version_above_1 by done.
  destruct (Z.eqb_spec (format_version r) WAL_FORMAT_VERSION) as [E|]; [|done].
  by rewrite (Hs E).
Qed.

(** What the first 48 bytes lead to, when they are a header the encoder wrote. *)
Lemma decode_record_header r d pre rest :
  valid r d → writable r d →
  decode_record (pre ++ struct_image HEADER (header_fields r (zlen d)) ++ rest) (zlen pre) =
    let data := pre ++ struct_image HEADER (header_fields r (zlen d)) ++ rest in
    let total := WAL_HEADER_LENGTH + zlen d + zlen (payload r) + CHECKSUM_LENGTH in
    let body_end := zlen pre + total - CHECKSUM_LENGTH in
    if 48 + zlen rest <? total then truncated (48 + zlen rest)
    else if negb (le_unpack (slice data body_end (zlen pre + total))
                  =? crc32c_of (slice data (zlen pre) body_end))
    then Outcome 0 None (Some CHECKSUM_FAILURE) true
    else decode_checked data (zlen pre) (header_fields r (zlen d)).
Proof.
  intros Hv (Hver & _ & _ & Ht). cbv zeta. pose proof (wal_header_fields_fit r d Hv Ht) as Hf.
  unfold decode_record. pose proof (zlen_nonneg pre). pose proof (zlen_nonneg rest).
  rewrite (proj2 (Z.ltb_ge _ _)) by lia. rewrite !zlen_app, zlen_struct_image by done.
  change (Z.of_nat (struct_size HEADER)) with 48.
  replace (zlen pre + (48 + zlen rest) - zlen pre) with (48 + zlen rest) by lia.
  rewrite (proj2 (Z.leb_gt _ _)) by lia. unfold WAL_HEADER_LENGTH at 1.
  rewrite (proj2 (Z.ltb_ge _ _)) by lia.
  rewrite (struct_unpack_image HEADER) by done. unfold header_fields at 1 2.
  rewrite Z.eqb_refl. cbn [negb]. rewrite bool_decide_eq_true_2 by done. cbn [negb].
  rewrite (proj1 (header_lengths_supported _) Hver). cbn [from_option]. unfold id.
  rewrite !Z.eqb_refl. cbn [negb]. done.
Qed.

Lemma decode_record_image r d pre post :
  valid r d → writable r d →
  decode_record (pre ++ record_image r d ++ post) (zlen pre)
    = Outcome (zlen (record_image r d)) (Some r) None true.
Proof.
  intros Hv Hw. pose proof (zlen_record_body r d Hv Hw) as Hb.
  pose proof (zlen_record_image r d Hv Hw) as Hi.
  pose proof (zlen_nonneg d). pose proof (zlen_nonneg (payload r)). pose proof (zlen_nonneg post).
  assert (zlen (struct_image HEADER (header_fields r (zlen d))) = 48) as Hh.
  { by rewrite zlen_struct_image by (apply wal_header_fields_fit; [done|apply Hw]). }
  set (crc := le_pack 4 (crc32c_of (record_body r d))).
  set (data := pre ++ record_image r d ++ post).
  assert (data = pre ++ struct_image HEADER (header_fields r (zlen d)) ++ (d ++ payload r ++ crc ++ post)) as Hdata.
  { unfold data, record_image, record_body. by rewrite <-!app_assoc. }
  rewrite Hdata, decode_record_header by done. rewrite <-Hdata. cbv zeta.
  rewrite !zlen_app. change (zlen crc) with 4.
  unfold WAL_HEADER_LENGTH, CHECKSUM_LENGTH in *.
  rewrite (proj2 (Z.ltb_ge _ _)) by lia.
  rewrite <-Hi. replace (zlen pre + zlen (record_image r d) - 4) with (zlen pre + zlen (record_body r d)) by lia.
  assert (slice data (zlen pre) (zlen pre + zlen (record_body r d)) = record_body r d) as ->.
  { unfold data, record_image. rewrite <-app_assoc. by apply slice_app_middle. }
  assert (slice data (zlen pre + zlen (record_body r d)) (zlen pre + zlen (record_image r d)) = crc) as ->.
  { unfold data, record_image. fold crc. rewrite <-app_assoc, app_assoc.
    apply slice_app_middle; rewrite zlen_app; [done|]. change (zlen crc) with 4. lia. }
  unfold crc. rewrite le_unpack_pack.
  2:{ pose proof (crc32c_of_range (record_body r d)) as R. unfold in32 in R.
      by change (256 ^ Z.of_nat 4) with (2 ^ 32). }
  rewrite Z.eqb_refl. cbn [negb]. rewrite decode_checked_image; try done; [|apply Hw|apply Hw| |].
  - unfold WAL_HEADER_LENGTH, CHECKSUM_LENGTH. by rewrite Hi.
  - rewrite Hdata, app_assoc. apply slice_app_middle; [|done]. rewrite zlen_app, Hh. done.
  - rewrite Hdata, 2!app_assoc. apply slice_app_middle; [|done]. rewrite !zlen_app, Hh. lia.
Qed.

(** *** Damage *)

(** The three lengths of a header, read back from its bytes. *)
Lemma header_lengths_at k v t h f total l e x dl pl raw :
  struct_fits HEADER (k, (v, (t, (h, (f, (total, (l, (e, (x, (dl, (pl, ()))))))))))) →
  slice raw 0 48 = struct_image HEADER (k, (v, (t, (h, (f, (total, (l, (e, (x, (dl, (pl, ()))))))))))) →
  total = le_unpack (slice raw 12 16) ∧ dl = le_unpack (slice raw 40 44) ∧
  pl = le_unpack (slice raw 44 48).
Proof.
  intros Hf Hraw. cbn [struct_fits field_fits fst snd HEADER] in Hf. pow256.
  assert (∀ a b, 0 <= a → b <= 48 → slice raw a b = slice (slice raw 0 48) a b) as Hs.
  { intros. rewrite slice_slice by lia. f_equal; lia. }
  rewrite (Hs 12 16), (Hs 40 44), (Hs 44 48), Hraw by lia. unfold struct_image. cbn [fst snd].
  assert (∀ P n w R a b, zlen P = a → b = a + Z.of_nat n → 0 <= w < 256 ^ Z.of_nat n →
            w = le_unpack (slice (P ++ le_pack n w ++ R) a b)) as Hat.
  { intros P n w R a b Ha Hb Hw. rewrite slice_app_middle by (rewrite ?zlen_le_pack; lia).
    by rewrite le_unpack_pack. }
  pose proof (Hat (le_pack 4 k ++ le_pack 2 v ++ le_pack 2 t ++ le_pack 2 h ++ le_pack 2 f) 4%nat
    total (le_pack 8 l ++ le_pack 8 e ++ le_pack 8 x ++ le_pack 4 dl ++ le_pack 4 pl ++ []) 12 16
    ltac:(by rewrite !zlen_app, !zlen_le_pack) ltac:(lia) ltac:(pow256; lia)) as H1.
  pose proof (Hat (le_pack 4 k ++ le_pack 2 v ++ le_pack 2 t ++ le_pack 2 h ++ le_pack 2 f
    ++ le_pack 4 total ++ le_pack 8 l ++ le_pack 8 e ++ le_pack 8 x) 4%nat dl (le_pack 4 pl ++ []) 40 44
    ltac:(by rewrite !zlen_app, !zlen_le_pack) ltac:(lia) ltac:(pow256; lia)) as H2.
  pose proof (Hat (le_pack 4 k ++ le_pack 2 v ++ le_pack 2 t ++ le_pack 2 h ++ le_pack 2 f
    ++ le_pack 4 total ++ le_pack 8 l ++ le_pack 8 e ++ le_pack 8 x ++ le_pack 4 dl) 4%nat pl [] 44 48
    ltac:(by rewrite !zlen_app, !zlen_le_pack) ltac:(lia) ltac:(pow256; lia)) as H3.
  rewrite <-!app_assoc in H1, H2, H3. split; [exact H1|]. split; [exact H2|exact H3].
Qed.

Lemma record_image_damaged r d pre post b c left right :
  valid r d → writable r d → record_image r d = pre ++ b :: post → b ≠ c →
  record (decode_record (left ++ (pre ++ c :: post) ++ right) (zlen left)) = None.
Proof.
  intros Hv Hw Himg Hbc. set (D := pre ++ c :: post). set (data := left ++ D ++ right).
  pose proof (zlen_record_image r d Hv Hw) as Hl. pose proof (zlen_nonneg left).
  pose proof (zlen_nonneg d). pose proof (zlen_nonneg (payload r)).
  assert (zlen D = zlen (record_image r d)) as HD.
  { unfold D. by rewrite Himg, !zlen_app, !zlen_cons. }
  assert (∀ a b, 0 <= a → b <= zlen D → slice data (zlen left + a) (zlen left + b) = slice D a b) as Hat.
  { intros x y Hx Hy. unfold data. rewrite slice_app_r by lia.
    rewrite slice_app_l by lia. f_equal; lia. }
  destruct (decode_record_decoded data (zlen left)) as
    [|?| |v t k h f total l e x dl pl Hver Hh Htot Hend Hk fields Hf Hhead Hcrc]; [done..|exfalso].
  subst h. unfold WAL_HEADER_LENGTH, CHECKSUM_LENGTH in *.
  rewrite <-(Z.add_0_r (zlen left)) in Hhead at 1. rewrite Hat in Hhead by lia.
  destruct (header_lengths_at _ _ _ _ _ _ _ _ _ _ _ D Hf Hhead) as (Ht & Hdl & Hpl).
  (* the header of the intact record *)
  assert (slice (record_image r d) 0 48 = struct_image HEADER (header_fields r (zlen d))) as Hhead0.
  { unfold record_image, record_body. rewrite <-!app_assoc. apply (slice_app_middle []); [done|].
    by rewrite zlen_struct_image by (apply wal_header_fields_fit; [done|apply Hw]). }
  destruct (header_lengths_at _ _ _ _ _ _ _ _ _ _ _ (record_image r d)
              (wal_header_fields_fit r d Hv ltac:(apply Hw)) Hhead0) as (Ht0 & Hdl0 & Hpl0).
  assert (∀ a b, 0 <= a → b <= zlen pre ∨ zlen pre < a → slice D a b = slice (record_image r d) a b) as Hsame.
  { intros. rewrite Himg. by apply slice_one_changed. }
  assert (total = zlen D) as Htd.
  { rewrite HD, Hl. unfold WAL_HEADER_LENGTH, CHECKSUM_LENGTH in *.
    destruct (decide (16 <= zlen pre ∨ zlen pre < 12)).
    - rewrite Ht, Hsame, <-Ht0 by lia. lia.
    - rewrite Htot, Hdl, Hpl, !Hsame, <-Hdl0, <-Hpl0 by lia. lia. }
  rewrite <-(Z.add_0_r (zlen left)) in Hcrc at 3.
  replace (zlen left + total - 4) with (zlen left + (total - 4)) in Hcrc by lia.
  rewrite !Hat in Hcrc by lia. revert Hcrc.
  apply (crc_trailer_one_byte (record_body r d) _ _ pre post b c).
  - exact Himg.
  - done.
  - fold D. rewrite <-slice_split by lia. symmetry. apply slice_full. lia.
  - apply Nat2Z.inj. fold (zlen (slice D (total - 4) total)). rewrite zlen_slice; lia.
Qed.

Lemma decode_checked_cases data offset (fields : fvals HEADER) :
  let '(_, (v, (t, (h, (f, (total, (l, (e, (x, (dl, (_, _))))))))))) := fields in
  let d := slice data (offset + h) (offset + h + dl) in
  let p := slice data (offset + h + dl) (offset + total - CHECKSUM_LENGTH) in
  let outcome := decode_checked data offset fields in
  consumed outcome = total ∧ checked outcome = true ∧
  match record outcome with
  | None => True
  | Some r => ∃ s, r = Mk t p s l e x f v ∧ utf8_decode d = Ok s ∧ post_init r = Ok r ∧
                   ((1 <? v) = true → v2_record_semantics_error t f = None)
  end.
Proof.
  destruct fields as (k&v&t&h&f&total&l&e&x&dl&pl&[]). cbv zeta. unfold decode_checked.
  destruct (utf8_decode _) as [s|?]; [|done].
  destruct (post_init _) as [r|?] eqn:Hr; [|done].
  destruct (_ && _) eqn:Hs; [done|]. cbn [consumed checked record]. split_and!; [done..|].
  pose proof Hr as [-> _]%record_post_init_Ok. exists s. split; [done|]. split; [done|]. split; [done|].
  intros Hv. rewrite Hv in Hs. cbn [andb] in Hs. apply negb_false_iff, bool_decide_eq_true in Hs. done.
Qed.

Lemma decode_record_inv data offset r :
  record (decode_record data offset) = Some r →
  checked (decode_record data offset) = true ∧ 0 <= offset ∧ 0 < consumed (decode_record data offset) ∧
  offset + consumed (decode_record data offset) <= zlen data ∧ post_init r = Ok r ∧
  (is_known_type r = true →
   encode r = Ok (slice data offset (offset + consumed (decode_record data offset)))).
Proof.
  destruct (decide (offset < 0)) as [Hneg|Hoff].
  { unfold decode_record. by rewrite (proj2 (Z.ltb_lt _ _)) by lia. }
  destruct (decode_record_decoded data offset) as
    [|?| |v t k h f total l e x dl pl Hver Hh Htot Hend Hk fields Hf Hhead Hcrc]; [done..|].
  pose proof (decode_checked_cases data offset fields) as H. unfold fields in H at 1. cbv zeta in H.
  destruct H as (Hc & Hch & Hr). intros Hrec. rewrite Hrec in Hr.
  destruct Hr as (s & Hr & Hs & Hpi & Hv2). pose proof Hf as Hf'.
  unfold fields in Hf'. cbn [struct_fits field_fits fst snd HEADER] in Hf'. subst h.
  unfold WAL_HEADER_LENGTH, CHECKSUM_LENGTH in *. rewrite Hc.
  split; [done|]. split; [lia|]. split; [lia|]. split; [lia|]. split; [done|].
  intros Hk'. apply utf8_decode_inv in Hs. pose proof Hpi as [_ [d Hvd]]%record_post_init_Ok.
  assert (d = slice data (offset + 48) (offset + 48 + dl)) as ->.
  { pose proof (proj1 Hvd) as Hu. rewrite Hr in Hu. cbn [descriptor] in Hu. congruence. }
  set (d := slice data (offset + 48) (offset + 48 + dl)) in *.
  assert (zlen d = dl) as Hdl by (unfold d; rewrite zlen_slice; lia).
  assert (zlen (payload r) = pl) as Hpl by (rewrite Hr; cbn [payload]; rewrite zlen_slice; lia).
  apply (encode_Ok _ d); [done|]. split.
  - split_and!; [by rewrite Hr|done| |].
    + unfold v2_ok. rewrite Hr. cbn [format_version record_type flags]. intros ->. by apply Hv2.
    + rewrite Hdl, Hpl. unfold WAL_HEADER_LENGTH, CHECKSUM_LENGTH, MAX_TOTAL_LENGTH, MAX_U32. pow256. lia.
  - assert (record_body r d = slice data offset (offset + total - 4)) as Hbody.
    { unfold record_body, header_fields. rewrite Hdl, Hpl. unfold WAL_HEADER_LENGTH, CHECKSUM_LENGTH.
      rewrite <-Htot. rewrite Hr. cbn [format_version record_type flags lsn epoch txn_id payload].
      rewrite (slice_split data offset (offset + 48) (offset + total - 4)) by lia.
      rewrite Hhead. unfold fields. rewrite Hk. f_equal. symmetry. apply slice_split; lia. }
    unfold record_image. rewrite Hbody, <-Hcrc. apply slice_split; lia.
Qed.

Lemma decode_record_not_taken data offset :
  record (decode_record data offset) = None →
  consumed (decode_record data offset) = 0 ∨
  (reason (decode_record data offset) = Some TRUNCATED_TAIL ∧
   consumed (decode_record data offset) = Z.max (zlen data - offset) 0) ∨
  checked (decode_record data offset) = true.
Proof.
  destruct (decode_record_decoded data offset) as
    [|?| |v t k h f total l e x dl pl Hver Hh Htot Hend Hk fields Hf Hhead Hcrc]; auto.
  intros _. right. right. pose proof (decode_checked_cases data offset fields) as H.
  unfold fields in H at 1. cbv zeta in H. apply H.
Qed.

Lemma decode_record_torn r b pre n : post_init r = Ok r → encode r = Ok b → (n < length b)%nat →
  decode_record (pre ++ take n b) (zlen pre) = Outcome (Z.of_nat n) None (Some TRUNCATED_TAIL) false.
Proof.
  intros Hr Hb Hn. pose proof Hr as (_ & d & Hv)%record_post_init_Ok.
  destruct (proj1 (encode_Ok r d b Hv) Hb) as [Hw Himg]. rewrite Himg in *. clear Himg.
  pose proof (zlen_record_image r d Hv Hw) as Hl. pose proof (zlen_nonneg pre).
  assert (zlen (take n (record_image r d)) = Z.of_nat n) as Hz.
  { unfold zlen. rewrite length_take. lia. }
  destruct (decide (n < 48)%nat) as [Hs|Hs].
  - unfold decode_record. rewrite (proj2 (Z.ltb_ge _ _)) by lia. rewrite zlen_app, Hz.
    replace (zlen pre + Z.of_nat n - zlen pre) with (Z.of_nat n) by lia.
    destruct (Z.leb_spec (Z.of_nat n) 0).
    { by replace (Z.max (Z.of_nat n) 0) with (Z.of_nat n) by lia. }
    unfold WAL_HEADER_LENGTH. by rewrite (proj2 (Z.ltb_lt _ _)) by lia.
  - assert (zlen (struct_image HEADER (header_fields r (zlen d))) = 48) as Hh.
    { by rewrite zlen_struct_image by (apply wal_header_fields_fit; [done|apply Hw]). }
    unfold record_image, record_body in Hz |- *. rewrite <-!app_assoc, take_app in Hz |- *.
    assert (length (struct_image HEADER (header_fields r (zlen d))) = 48%nat) as Hh'
      by (apply Nat2Z.inj; exact Hh).
    rewrite (take_ge (struct_image _ _)) in Hz |- * by lia.
    rewrite decode_record_header by done. cbv zeta. rewrite zlen_app, Hh in Hz.
    rewrite Hz. rewrite (proj2 (Z.ltb_lt _ _)); [done|].
    rewrite <-Hl. unfold zlen. lia.
Qed.

(** ** Properties *)

(** log records round-trip in place.  A record that passed its construction checks encodes
    to as many bytes as [encoded_length] promises, and decoding at that position of any log,
    whatever precedes and follows it, gives the same record and consumes exactly those bytes. *)
Theorem wal_record_roundtrip (r : WalRecord) (b pre post : bytes)
    (Hr : post_init r = Ok r) (Hb : encode r = Ok b) :
  decode_record (pre ++ b ++ post) (zlen pre) = Outcome (zlen b) (Some r) None true ∧
  encoded_length r = Ok (zlen b).
Proof.
  pose proof Hr as (_ & d & Hv)%record_post_init_Ok.
  destruct (proj1 (encode_Ok r d b Hv) Hb) as [Hw Himg]. rewrite Himg. split; [by apply decode_record_image|].
  rewrite zlen_record_image by done. unfold encoded_length.
  rewrite (proj2 (header_length_of_Ok _ _) (conj (proj1 Hw) eq_refl)). cbn [mbind result_bind].
  by rewrite (proj2 (encoded_descriptor_Ok r d) (proj1 Hv)).
Qed.

Lemma wal_record_roundtrip_witness :
  let r := Mk 3 [Byte.x01; Byte.x02] (str "partitions=8") 41 2 7 0 1 in
  ∃ b, encode r = Ok b ∧ zlen b = 66 ∧
       decode_record ([Byte.xff] ++ b ++ [Byte.x00]) 1 = Outcome 66 (Some r) None true.
Proof.
  intros r. destruct (encode r) as [b|e] eqn:E; [|vm_compute in E; discriminate E].
  exists b. destruct (wal_record_roundtrip r b [Byte.xff] [Byte.x00] eq_refl E) as [H1 H2].
  assert (zlen b = 66) as Hl by (vm_compute in E; injection E as <-; by vm_compute).
  split; [reflexivity|]. split; [exact Hl|]. by rewrite Hl in H1.
Defined.

(** the decoder is sound on every input.  Whatever the bytes and the offset, a returned
    record had its checksum verified, lies inside the buffer, satisfies the record model and,
    when its type is one this build writes, re-encodes to exactly the bytes that were read; and
    when no record is returned the decoder advances only to the end of a truncated tail or
    over bytes whose checksum it verified. *)
Theorem wal_decode_sound (data : bytes) (offset : Z) :
  let d := decode_record data offset in
  match record d with
  | Some r =>
      checked d = true ∧ 0 <= offset ∧ 0 < consumed d ∧ offset + consumed d <= zlen data ∧
      post_init r = Ok r ∧
      (if is_known_type r then encode r = Ok (slice data offset (offset + consumed d)) else True)
  | None =>
      consumed d = 0 ∨
      (reason d = Some TRUNCATED_TAIL ∧ consumed d = Z.max (zlen data - offset) 0) ∨
      checked d = true
  end.
Proof.
  cbv zeta. destruct (record (decode_record data offset)) as [r|] eqn:E.
  - destruct (decode_record_inv _ _ _ E) as (?&?&?&?&?&Hk). split_and!; [done..|].
    destruct (is_known_type r); [by apply Hk|done].
  - by apply decode_record_not_taken.
Qed.

(** a torn write is a truncated tail.  Decoding a strict prefix of an encoded record at the
    end of the log, however short, reports a truncated tail and consumes exactly the bytes
    that are there. *)
Theorem wal_torn_tail (r : WalRecord) (b pre : bytes) (n : nat)
    (Hr : post_init r = Ok r) (Hb : encode r = Ok b) (Hn : (n < length b)%nat) :
  decode_record (pre ++ take n b) (zlen pre)
    = Outcome (Z.of_nat n) None (Some TRUNCATED_TAIL) false.
Proof. exact (decode_record_torn r b pre n Hr Hb Hn). Qed.

Lemma wal_torn_tail_witness :
  let r := Mk 2 [Byte.x01; Byte.x02] [] 41 2 7 0 1 in
  ∃ b, encode r = Ok b ∧
       decode_record ([] ++ take 50 b) 0 = Outcome 50 None (Some TRUNCATED_TAIL) false.
Proof.
  intros r. destruct (encode r) as [b|e] eqn:E; [|vm_compute in E; discriminate E].
  exists b. split; [reflexivity|]. apply (wal_torn_tail r b [] 50 eq_refl E).
  vm_compute in E. injection E as <-. vm_compute. lia.
Defined.

(** a damaged record never decodes.  Changing any single byte of an encoded record, its
    lengths and its checksum included, whatever surrounds it in the log, leaves no record at
    that position. *)
Theorem wal_damage_detected (r : WalRecord) (pre post left right : bytes) (b c : byte)
    (Hr : post_init r = Ok r) (Hb : encode r = Ok (pre ++ b :: post)) (Hbc : b ≠ c) :
  ok (decode_record (left ++ (pre ++ c :: post) ++ right) (zlen left)) = false.
Proof.
  pose proof Hr as (_ & d & Hv)%record_post_init_Ok.
  apply (encode_Ok _ d) in Hb as [Hw Himg]; [|done]. unfold ok.
  rewrite (record_image_damaged r d pre post b c) by done. done.
Qed.

Lemma wal_damage_detected_witness :
  let r := Mk 2 [Byte.x01; Byte.x02] [] 41 2 7 0 1 in
  ∃ pre b post, encode r = Ok (pre ++ b :: post) ∧ zlen pre = 44 ∧ b = Byte.x02 ∧
    ok (decode_record ([] ++ (pre ++ Byte.x03 :: post) ++ [Byte.x00]) 0) = false.
Proof.
  intros r. destruct (encode r) as [raw|e] eqn:E; [|vm_compute in E; discriminate E].
  exists (take 44 raw), Byte.x02, (drop 45 raw).
  assert (raw = take 44 raw ++ Byte.x02 :: drop 45 raw ∧ zlen (take 44 raw) = 44) as [Hs Hl].
  { vm_compute in E. injection E as <-. by vm_compute. }
  split; [by rewrite <-Hs|]. split; [exact Hl|]. split; [reflexivity|].
  apply (wal_damage_detected r (take 44 raw) (drop 45 raw) [] [Byte.x00] Byte.x02 Byte.x03 eq_refl);
    [by rewrite <-Hs|done].
Defined.
