(* ===== verification/CommitPayload.v ===== *)
(** The payload of a COMMIT record: src/src/okto_grafx/domain/wal/commit.py, and the numbers it
    carries: src/src/okto_grafx/domain/txn/partitions.py (which partition a key falls in) and
    src/src/okto_grafx/domain/txn/commit_record.py (which number a file has).

    The theorems: the payload codec is a bijection between payloads and the byte strings it
    accepts, [build] is canonical, and partition keys identify exactly one partition. *)

From S2P Require Import Prelude Ids Layout Checksum Utf8.

(** ** Constants *)

Definition PARTITION_INDEX_BITS : Z := 32.
Definition MAX_TABLE_ID : Z := 0xFFFFFFFF.
Definition MAX_PARTITION_INDEX : Z := 0xFFFFFFFF.
Definition MAX_FILE_ID : Z := 0xFFFF.
Definition MAX_TOUCHED_PAGE_INDEX : Z := 0xFFFFFFFF.
Definition MAX_PARTITIONS_PER_COMMIT : Z := 0xFFFFFFFF.
Definition MAX_PAGE_TOUCHES_PER_COMMIT : Z := 0xFFFFFFFF.

(** [struct.Struct("<QII")], ["<Q"], ["<I"] and ["<HI"]. *)
Definition HEAD : list field := [U 8; U 4; U 4].
Definition KEY : list field := [U 8].
Definition COUNT : list field := [U 4].
Definition TOUCH : list field := [U 2; U 4].

Definition require_range (field : string) (value ceiling : Z) : result Z :=
  if negb ((0 <=? value) && (value <=? ceiling)) then raise GrafxConfigurationError field
  else Ok value.

(** ** Partition keys *)

Definition partition_key (table_id partition_index : Z) : result Z :=
  _ ← require_range "table_id" table_id MAX_TABLE_ID;
  _ ← require_range "partition_index" partition_index MAX_PARTITION_INDEX;
  Ok (Z.lor (Z.shiftl table_id PARTITION_INDEX_BITS) partition_index).

Definition split_partition_key (key : Z) : result (Z * Z) :=
  _ ← require_range "partition_key" key MAX_U64;
  Ok (Z.shiftr key PARTITION_INDEX_BITS, Z.land key MAX_PARTITION_INDEX).

Definition validate_partitions_per_table (value : Z) : result Z :=
  if value <? 1 then raise GrafxConfigurationError "partitions_per_table" else Ok value.

Definition partition_index_of (key : bytes) (partitions_per_table : Z) : result Z :=
  partitions ← validate_partitions_per_table partitions_per_table;
  Ok (crc32c_of key mod partitions).

Definition partition_of (table_id : Z) (key : bytes) (partitions_per_table : Z) : result Z :=
  index ← partition_index_of key partitions_per_table;
  partition_key table_id index.

Definition PAGE_PARTITION_TABLE_ID : Z := MAX_TABLE_ID.

(** [(page_index & 0xFFFFFFFF).to_bytes(4, "little")] after the file name. *)
Definition page_partition (file : pystr) (page_index : Z) : result Z :=
  if decide (file = []) then raise GrafxConfigurationError "file"
  else if page_index <? 0 then raise GrafxConfigurationError "page_index"
  else
    name ← utf8_encode file;
    let stamp := name ++ le_pack 4 (Z.land page_index 0xFFFFFFFF) in
    partition_key PAGE_PARTITION_TABLE_ID (crc32c_of stamp).

(** ** File numbers *)

Definition HEAP_FILE_ID : Z := 1.
Definition CATALOG_FILE_ID : Z := 2.
Definition FIRST_DERIVED_FILE_ID : Z := 3.

Module FileIdMap.

Record t := Mk { heap_file : pystr; catalog_file : pystr }.

(** The dataclass defaults. *)
Definition default_map : t := Mk (str "heap.dat") (str "catalog.dat").

Definition id_of (m : t) (file : pystr) : result Z :=
  if decide (file = []) then raise GrafxConfigurationError "file"
  else if decide (file = heap_file m) then Ok HEAP_FILE_ID
  else if decide (file = catalog_file m) then Ok CATALOG_FILE_ID
  else
    let span := MAX_FILE_ID + 1 - FIRST_DERIVED_FILE_ID in
    name ← utf8_encode file;
    Ok (FIRST_DERIVED_FILE_ID + crc32c_of name mod span).

End FileIdMap.

(** ** The payload *)

Record PageTouch := Touch { file_id : Z; page_index : Z }.

#[export] Instance page_touch_eq_dec : EqDecision PageTouch.
Proof. solve_decision. Defined.

Definition touch_post_init (t : PageTouch) : result PageTouch :=
  _ ← require_range "file_id" (file_id t) MAX_FILE_ID;
  _ ← require_range "page_index" (page_index t) MAX_TOUCHED_PAGE_INDEX;
  Ok t.

Module CommitPayload.

Record t := Mk {
  snapshot_lsn : Z;
  read_partitions : list Z;
  write_partitions : list Z;
  page_touches : list PageTouch
}.

#[export] Instance eq_dec : EqDecision t.
Proof. solve_decision. Defined.

(** The checks on one partition set. *)
Definition check_keys (name : string) (keys : list Z) : result unit :=
  if MAX_PARTITIONS_PER_COMMIT <? zlen keys then raise GrafxConfigurationError name
  else _ ← traverse (λ key, require_range name key MAX_U64) keys; Ok ().

(** The page touches are values of [PageTouch], which were checked when they were built. *)
Definition post_init (p : t) : result t :=
  _ ← require_range "snapshot_lsn" (snapshot_lsn p) MAX_U64;
  _ ← check_keys "read_partitions" (read_partitions p);
  _ ← check_keys "write_partitions" (write_partitions p);
  if MAX_PAGE_TOUCHES_PER_COMMIT <? zlen (page_touches p)
  then raise GrafxConfigurationError "page_touches" else Ok p.

(** The order of [sorted(..., key=lambda t: (t.file_id, t.page_index))]. *)
Definition touch_le (a b : PageTouch) : Prop :=
  file_id a < file_id b ∨ file_id a = file_id b ∧ page_index a <= page_index b.

#[export] Instance touch_le_dec : RelDecision touch_le.
Proof. intros a b. unfold touch_le. apply _. Defined.

(** [sorted(set(keys))]: the order in which a set is walked does not survive the sort. *)
Definition sorted_set (keys : list Z) : list Z := merge_sort Z.le (remove_dups keys).

Definition build (snapshot_lsn : Z) (read_partitions write_partitions : list Z)
    (page_touches : list PageTouch) : result t :=
  post_init (Mk snapshot_lsn (sorted_set read_partitions) (sorted_set write_partitions)
               (merge_sort touch_le (remove_dups page_touches))).

Definition encoded_length (p : t) : Z :=
  16 + 8 * (zlen (read_partitions p) + zlen (write_partitions p)) + 4 + 6 * zlen (page_touches p).

Definition encode (p : t) : result bytes :=
  head ← struct_pack HEAD (snapshot_lsn p, (zlen (read_partitions p), (zlen (write_partitions p), ())));
  reads ← traverse (λ key, struct_pack KEY (key, ())) (read_partitions p);
  writes ← traverse (λ key, struct_pack KEY (key, ())) (write_partitions p);
  count ← struct_pack COUNT (zlen (page_touches p), ());
  touches ← traverse (λ t, struct_pack TOUCH (file_id t, (page_index t, ()))) (page_touches p);
  Ok (head ++ concat reads ++ concat writes ++ count ++ concat touches).

Definition decode (payload : bytes) : result t :=
  let size := zlen payload in
  if size <? 16 then raise_reason GrafxCorruptionDetected "short_commit_payload"
  else
    head ← struct_unpack_from HEAD payload 0;
    let '(snapshot_lsn, (read_count, (write_count, _))) := head in
    let offset := 16 in
    let needed := 8 * (read_count + write_count) + 4 in
    if size - offset <? needed then raise_reason GrafxCorruptionDetected "short_commit_payload"
    else
      read_keys ← unpack_each KEY (Z.to_nat read_count) payload offset;
      let offset := offset + 8 * read_count in
      write_keys ← unpack_each KEY (Z.to_nat write_count) payload offset;
      let offset := offset + 8 * write_count in
      count ← struct_unpack_from COUNT payload offset;
      let '(touch_count, _) := count in
      let offset := offset + 4 in
      let wanted := 6 * touch_count in
      if size - offset <? wanted then raise_reason GrafxCorruptionDetected "short_commit_payload"
      else
        raw_touches ← unpack_each TOUCH (Z.to_nat touch_count) payload offset;
        touches ← traverse (λ '(file_id, (page_index, _)), touch_post_init (Touch file_id page_index))
                    raw_touches;
        let offset := offset + wanted in
        if negb (offset =? size) then raise_reason GrafxCorruptionDetected "trailing_bytes"
        else post_init (Mk snapshot_lsn (fst <$> read_keys) (fst <$> write_keys) touches).

End CommitPayload.

(** ** Lemmas *)

Lemma require_range_Ok f v m w : require_range f v m = Ok w ↔ w = v ∧ 0 <= v <= m.
Proof.
  unfold require_range, raise. case_match eqn:E; [split; [done|lia]|].
  split; [intros [= <-]; lia|by intros [-> _]].
Qed.

Lemma partition_key_Ok t i k :
  partition_key t i = Ok k ↔ 0 <= t <= MAX_TABLE_ID ∧ 0 <= i <= MAX_PARTITION_INDEX ∧ k = t * 2 ^ 32 + i.
Proof.
  unfold partition_key, MAX_TABLE_ID, MAX_PARTITION_INDEX, PARTITION_INDEX_BITS. split.
  - intros H. inv_ok H. apply require_range_Ok in E as [_ ?]. apply require_range_Ok in E0 as [_ ?].
    rewrite pack_high_low in H by lia. injection H as <-. lia.
  - intros (Ht & Hi & ->). rewrite !(proj2 (require_range_Ok _ _ _ _)) by done. cbn [mbind result_bind].
    by rewrite pack_high_low by lia.
Qed.

Lemma split_partition_key_Ok t i :
  0 <= t <= MAX_TABLE_ID → 0 <= i <= MAX_PARTITION_INDEX →
  split_partition_key (t * 2 ^ 32 + i) = Ok (t, i).
Proof.
  unfold MAX_TABLE_ID, MAX_PARTITION_INDEX, split_partition_key, PARTITION_INDEX_BITS. intros Ht Hi.
  rewrite (proj2 (require_range_Ok _ _ _ _)) by
    (split; [done|]; unfold MAX_U64; change (2 ^ 32) with 4294967296; lia). cbn [mbind result_bind].
  assert (0 <= i < 2 ^ 32) by (change (2 ^ 32) with 4294967296; lia).
  rewrite shiftr_high_low by lia. change 0xFFFFFFFF with (Z.ones 32). by rewrite land_high_low.
Qed.

Module PayloadLemmas.
Import CommitPayload.

Definition keys_ok (keys : list Z) : Prop :=
  zlen keys <= MAX_PARTITIONS_PER_COMMIT ∧ Forall (λ k, 0 <= k <= MAX_U64) keys.

Definition touch_ok (t : PageTouch) : Prop :=
  0 <= file_id t <= MAX_FILE_ID ∧ 0 <= page_index t <= MAX_TOUCHED_PAGE_INDEX.

Definition valid (p : t) : Prop :=
  0 <= snapshot_lsn p <= MAX_U64 ∧ keys_ok (read_partitions p) ∧ keys_ok (write_partitions p) ∧
  zlen (page_touches p) <= MAX_PAGE_TOUCHES_PER_COMMIT.

Lemma traverse_checks {A} (f : A → result A) (P : A → Prop) l :
  (∀ x y, f x = Ok y ↔ y = x ∧ P x) → ∀ l', traverse f l = Ok l' ↔ l' = l ∧ Forall P l.
Proof.
  intros Hf l'. rewrite traverse_Ok. split.
  - induction 1 as [|x y l l' Hxy _ [-> IH]]; [done|]. apply Hf in Hxy as [-> Hx]. auto.
  - intros [-> H]. induction H; constructor; [by apply Hf|done].
Qed.

Lemma check_keys_Ok name keys u : check_keys name keys = Ok u ↔ keys_ok keys.
Proof.
  unfold check_keys, keys_ok, raise. destruct u. destruct (Z.ltb_spec MAX_PARTITIONS_PER_COMMIT (zlen keys)).
  - split; [done|]. intros [? _]. lia.
  - rewrite bind_Ok. setoid_rewrite (traverse_checks _ (λ k, 0 <= k <= MAX_U64)).
    + split; [by intros (?&[_ ?]&_)|]. intros [_ ?]. by exists keys.
    + intros. apply require_range_Ok.
Qed.

Lemma payload_post_init_Ok p q : post_init p = Ok q ↔ q = p ∧ valid p.
Proof.
  unfold post_init, valid, raise. split.
  - intros H. inv_ok H. apply require_range_Ok in E as [_ ?].
    apply check_keys_Ok in E0, E1. case_match eqn:Ht; [done|]. injection H as <-.
    split; [done|]. split_and!; try done; lia.
  - intros (-> & ? & Hr & Hw & Ht). rewrite (proj2 (require_range_Ok _ _ _ _)) by done.
    rewrite !(proj2 (check_keys_Ok _ _ ())) by done. cbn [mbind result_bind].
    by rewrite (proj2 (Z.ltb_ge _ _)) by lia.
Qed.

Lemma touch_post_init_Ok t u : touch_post_init t = Ok u ↔ u = t ∧ touch_ok t.
Proof.
  unfold touch_post_init, touch_ok. split.
  - intros H. inv_ok H. apply require_range_Ok in E as [_ ?]. apply require_range_Ok in E0 as [_ ?].
    by injection H as <-.
  - intros [-> [??]]. by rewrite !(proj2 (require_range_Ok _ _ _ _)) by done.
Qed.

Definition key_image (k : Z) : bytes := struct_image KEY (k, ()).
Definition touch_image (t : PageTouch) : bytes := struct_image TOUCH (file_id t, (page_index t, ())).

Definition payload_image (p : t) : bytes :=
  struct_image HEAD (snapshot_lsn p, (zlen (read_partitions p), (zlen (write_partitions p), ())))
  ++ concat (key_image <$> read_partitions p) ++ concat (key_image <$> write_partitions p)
  ++ struct_image COUNT (zlen (page_touches p), ()) ++ concat (touch_image <$> page_touches p).

Lemma key_fits k : 0 <= k <= MAX_U64 → struct_fits KEY (k, ()).
Proof. unfold MAX_U64. intros. solve_fits. Qed.
Lemma touch_fits t : touch_ok t → struct_fits TOUCH (file_id t, (page_index t, ())).
Proof. unfold touch_ok, MAX_FILE_ID, MAX_TOUCHED_PAGE_INDEX. intros. solve_fits. Qed.
Lemma keys_fit keys : Forall (λ k, 0 <= k <= MAX_U64) keys → Forall (λ k, struct_fits KEY (k, ())) keys.
Proof. intros H. eapply Forall_impl; [exact H|]. apply key_fits. Qed.
Lemma touches_fit l :
  Forall touch_ok l → Forall (λ t, struct_fits TOUCH (file_id t, (page_index t, ()))) l.
Proof. intros H. eapply Forall_impl; [exact H|]. apply touch_fits. Qed.

Lemma head_fits p : valid p →
  struct_fits HEAD (snapshot_lsn p, (zlen (read_partitions p), (zlen (write_partitions p), ()))).
Proof.
  intros (?&[? _]&[? _]&_). pose proof (zlen_nonneg (read_partitions p)).
  pose proof (zlen_nonneg (write_partitions p)). unfold MAX_U64, MAX_PARTITIONS_PER_COMMIT in *. solve_fits.
Qed.

Lemma count_fits p : valid p → struct_fits COUNT (zlen (page_touches p), ()).
Proof.
  intros (_&_&_&?). pose proof (zlen_nonneg (page_touches p)).
  unfold MAX_PAGE_TOUCHES_PER_COMMIT in *. solve_fits.
Qed.

Lemma encode_ok p :
  valid p → Forall touch_ok (page_touches p) → encode p = Ok (payload_image p).
Proof.
  intros Hv Ht. pose proof Hv as (_&[_ Hr]&[_ Hw]&_). unfold encode.
  rewrite (struct_pack_image HEAD) by (by apply head_fits). cbn [mbind result_bind].
  rewrite (traverse_pack_image KEY (λ k, (k, ()))) by (by apply keys_fit). cbn [mbind result_bind].
  rewrite (traverse_pack_image KEY (λ k, (k, ()))) by (by apply keys_fit). cbn [mbind result_bind].
  rewrite (struct_pack_image COUNT) by (by apply count_fits). cbn [mbind result_bind].
  rewrite (traverse_pack_image TOUCH (λ t, (file_id t, (page_index t, ())))) by (by apply touches_fit).
  done.
Qed.

Lemma zlen_keys_image keys :
  Forall (λ k, 0 <= k <= MAX_U64) keys → zlen (concat (key_image <$> keys)) = 8 * zlen keys.
Proof. intros H. by rewrite (zlen_concat_images KEY (λ k, (k, ()))) by (by apply keys_fit). Qed.

Lemma zlen_touches_image l : Forall touch_ok l → zlen (concat (touch_image <$> l)) = 6 * zlen l.
Proof.
  intros H. by rewrite (zlen_concat_images TOUCH (λ t, (file_id t, (page_index t, ()))))
    by (by apply touches_fit).
Qed.

Definition key_fields (k : Z) : fvals KEY := (k, ()).
Definition touch_fields (t : PageTouch) : fvals TOUCH := (file_id t, (page_index t, ())).

Lemma key_images (keys : list Z) : key_image <$> keys = struct_image KEY <$> (key_fields <$> keys).
Proof. by rewrite <-list_fmap_compose. Qed.
Lemma touch_images (l : list PageTouch) : touch_image <$> l = struct_image TOUCH <$> (touch_fields <$> l).
Proof. by rewrite <-list_fmap_compose. Qed.

(** One partition set read back where it was written. *)
Lemma unpack_keys keys pre rest n :
  Forall (λ k, 0 <= k <= MAX_U64) keys → n = zlen keys →
  unpack_each KEY (Z.to_nat n) (pre ++ concat (key_image <$> keys) ++ rest) (zlen pre)
    = Ok (key_fields <$> keys).
Proof.
  intros H ->. rewrite key_images. unfold zlen at 1. rewrite Nat2Z.id.
  rewrite <-(length_fmap key_fields keys). apply unpack_each_image, Forall_fmap.
  eapply Forall_impl; [by apply keys_fit|done].
Qed.

Lemma unpack_touches l pre rest n :
  Forall touch_ok l → n = zlen l →
  unpack_each TOUCH (Z.to_nat n) (pre ++ concat (touch_image <$> l) ++ rest) (zlen pre)
    = Ok (touch_fields <$> l).
Proof.
  intros H ->. rewrite touch_images. unfold zlen at 1. rewrite Nat2Z.id.
  rewrite <-(length_fmap touch_fields l). apply unpack_each_image, Forall_fmap.
  eapply Forall_impl; [by apply touches_fit|done].
Qed.

Lemma touches_built l : Forall touch_ok l →
  traverse (λ '(file_id, (page_index, _)), touch_post_init (Touch file_id page_index))
    (touch_fields <$> l) = Ok l.
Proof.
  induction 1 as [|t l Ht _ IH]; [done|]. rewrite fmap_cons. cbn [traverse touch_fields].
  destruct t as [f i]. cbn [file_id page_index]. rewrite (proj2 (touch_post_init_Ok _ (Touch f i))) by done.
  cbn [mbind result_bind]. by rewrite IH.
Qed.

Lemma payload_decode_image p :
  valid p → Forall touch_ok (page_touches p) → decode (payload_image p) = Ok p.
Proof.
  intros Hv Ht. pose proof Hv as (_&[_ Hr]&[_ Hw]&_). unfold payload_image.
  set (h := struct_image HEAD _). set (c := struct_image COUNT _).
  set (kr := concat (key_image <$> read_partitions p)).
  set (kw := concat (key_image <$> write_partitions p)).
  set (kt := concat (touch_image <$> page_touches p)).
  assert (zlen h = 16) as Hh by (unfold h; by rewrite zlen_struct_image by (by apply head_fits)).
  assert (zlen c = 4) as Hc by (unfold c; by rewrite zlen_struct_image by (by apply count_fits)).
  assert (zlen kr = 8 * zlen (read_partitions p)) as Hkr by (by apply zlen_keys_image).
  assert (zlen kw = 8 * zlen (write_partitions p)) as Hkw by (by apply zlen_keys_image).
  assert (zlen kt = 6 * zlen (page_touches p)) as Hkt by (by apply zlen_touches_image).
  pose proof (zlen_nonneg (read_partitions p)). pose proof (zlen_nonneg (write_partitions p)).
  pose proof (zlen_nonneg (page_touches p)).
  unfold decode. rewrite !zlen_app, Hh, Hc, Hkr, Hkw, Hkt.
  rewrite (proj2 (Z.ltb_ge _ _)) by lia.
  pose proof (struct_unpack_image_0 HEAD _ (kr ++ kw ++ c ++ kt) (head_fits p Hv)) as Hhd.
  fold h in Hhd. rewrite Hhd. cbn [mbind result_bind].
  rewrite (proj2 (Z.ltb_ge _ _)) by lia.
  pose proof (unpack_keys (read_partitions p) h (kw ++ c ++ kt) _ Hr eq_refl) as U1.
  rewrite Hh in U1. fold kr in U1. rewrite U1. cbn [mbind result_bind].
  pose proof (unpack_keys (write_partitions p) (h ++ kr) (c ++ kt) _ Hw eq_refl) as U2.
  rewrite zlen_app, Hh, Hkr, <-app_assoc in U2. fold kw in U2. rewrite U2. cbn [mbind result_bind].
  pose proof (struct_unpack_image COUNT _ (h ++ kr ++ kw) kt (count_fits p Hv)) as U3.
  rewrite !zlen_app, Hh, Hkr, Hkw, <-!app_assoc in U3. fold c in U3.
  replace (16 + (8 * zlen (read_partitions p) + 8 * zlen (write_partitions p)))
    with (16 + 8 * zlen (read_partitions p) + 8 * zlen (write_partitions p)) in U3 by lia.
  rewrite U3. cbn [mbind result_bind]. rewrite (proj2 (Z.ltb_ge _ _)) by lia.
  pose proof (unpack_touches (page_touches p) (h ++ kr ++ kw ++ c) [] _ Ht eq_refl) as U4.
  rewrite app_nil_r, !zlen_app, Hh, Hkr, Hkw, Hc, <-!app_assoc in U4. fold kt in U4.
  replace (16 + (8 * zlen (read_partitions p) + (8 * zlen (write_partitions p) + 4)))
    with (16 + 8 * zlen (read_partitions p) + 8 * zlen (write_partitions p) + 4) in U4 by lia.
  rewrite U4. cbn [mbind result_bind]. rewrite touches_built by done. cbn [mbind result_bind].
  rewrite (proj2 (Z.eqb_eq _ _)) by lia. cbn [negb].
  rewrite <-!list_fmap_compose. unfold compose, key_fields. simpl. rewrite !list_fmap_id.
  rewrite (proj2 (payload_post_init_Ok _ p)); [by destruct p|]. by destruct p.
Qed.

Lemma touches_built_inv raws touches :
  traverse (λ '(file_id, (page_index, _)), touch_post_init (Touch file_id page_index)) raws = Ok touches →
  raws = touch_fields <$> touches ∧ Forall touch_ok touches.
Proof.
  intros H. apply traverse_Ok in H.
  induction H as [|[f [i []]] t raws touches Hx _ [-> IH]]; [done|].
  apply touch_post_init_Ok in Hx as [-> Ht]. split; [done|by constructor].
Qed.

Lemma key_fields_fst (keys : list (fvals KEY)) : key_fields <$> (fst <$> keys) = keys.
Proof. induction keys as [|[k []] keys IH]; [done|]. rewrite !fmap_cons. by rewrite IH. Qed.

Lemma payload_decode_inv b p :
  decode b = Ok p → valid p ∧ Forall touch_ok (page_touches p) ∧ b = payload_image p.
Proof.
  unfold decode, raise_reason. destruct (Z.ltb_spec (zlen b) 16); [done|]. intros H'. inv_ok H'.
  destruct x as (sn & rc & wc & []). apply (struct_unpack_from_Ok HEAD) in E as (Hf & _ & Himg); [|lia].
  cbn [struct_fits field_fits fst snd HEAD] in Hf. pow256.
  destruct (Z.ltb_spec (zlen b - 16) (8 * (rc + wc) + 4)); [done|]. inv_ok H'.
  destruct x1 as (tc & []).
  apply (unpack_each_inv KEY) in E as (_ & Hrn & _ & Hr); [|lia..].
  apply (unpack_each_inv KEY) in E0 as (_ & Hwn & _ & Hw); [|lia..].
  apply (struct_unpack_from_Ok COUNT) in E1 as (Hcf & Hcl & Hc); [|lia].
  cbn [struct_fits field_fits fst snd COUNT] in Hcf. pow256.
  destruct (Z.ltb_spec (zlen b - (16 + 8 * rc + 8 * wc + 4)) (6 * tc)); [done|]. inv_ok H'.
  apply (unpack_each_inv TOUCH) in E as (_ & Htn & _ & Ht); [|lia..].
  apply touches_built_inv in E0 as [-> Htok].
  destruct (Z.eqb_spec (16 + 8 * rc + 8 * wc + 4 + 6 * tc) (zlen b)) as [Hend|]; [|done].
  cbn [negb] in H'. apply payload_post_init_Ok in H' as [-> Hv]. split; [done|]. split; [done|].
  unfold payload_image. cbn [snapshot_lsn read_partitions write_partitions page_touches].
  assert (zlen (fst <$> x) = rc ∧ zlen (fst <$> x0) = wc ∧ zlen x2 = tc) as (-> & -> & ->).
  { change (fvals KEY) with (Z * ())%type in *. rewrite length_fmap in Htn. unfold zlen.
    rewrite !length_fmap, Hrn, Hwn, Htn. lia. }
  rewrite !key_images, touch_images, !key_fields_fst, Hr, Hw, Ht.
  rewrite !Z2Nat.id by lia. cbn [struct_size HEAD KEY COUNT TOUCH width] in *.
  change (Z.of_nat (2 + (4 + 0))) with 6 in *. change (Z.of_nat (8 + 0)) with 8 in *.
  change (0 + Z.of_nat (8 + (4 + (4 + 0)))) with 16 in *. change (Z.of_nat (4 + 0)) with 4 in *.
  rewrite Himg, Hc.
  replace (16 + rc * 8) with (16 + 8 * rc) by lia.
  replace (16 + 8 * rc + wc * 8) with (16 + 8 * rc + 8 * wc) by lia.
  replace (16 + 8 * rc + 8 * wc + 4 + tc * 6) with (zlen b) by lia.
  rewrite <-!slice_split by lia. symmetry. by apply slice_full.
Qed.
End PayloadLemmas.

Import PayloadLemmas.

Lemma built_touches l : Forall (λ t, touch_post_init t = Ok t) l ↔ Forall touch_ok l.
Proof.
  rewrite !Forall_forall. setoid_rewrite touch_post_init_Ok. naive_solver.
Qed.

#[local] Instance Zle_total : Total Z.le.
Proof. intros a b. lia. Qed.
#[local] Instance touch_le_total : Total CommitPayload.touch_le.
Proof. intros a b. unfold CommitPayload.touch_le. lia. Qed.
#[local] Instance touch_le_trans : Transitive CommitPayload.touch_le.
Proof. intros a b c. unfold CommitPayload.touch_le. lia. Qed.
#[local] Instance touch_le_antisym : AntiSymm (=) CommitPayload.touch_le.
Proof. intros [f i] [g j]. unfold CommitPayload.touch_le. simpl. intros. f_equal; lia. Qed.

(** Sorting the distinct elements of a list forgets its order and its repeats. *)
Lemma merge_sort_set {A} `{EqDecision A} (R : relation A) `{!RelDecision R, !Total R, !Transitive R,
    !AntiSymm (=) R} (l l' : list A) :
  (∀ x, x ∈ l ↔ x ∈ l') → merge_sort R (remove_dups l) = merge_sort R (remove_dups l').
Proof.
  intros H. apply (StronglySorted_unique R);
    [by apply StronglySorted_merge_sort, _|by apply StronglySorted_merge_sort, _|].
  rewrite !merge_sort_Permutation. apply NoDup_Permutation; [apply NoDup_remove_dups..|].
  intros x. by rewrite !elem_of_remove_dups.
Qed.

Lemma sorted_set_spec keys :
  StronglySorted Z.lt (CommitPayload.sorted_set keys) ∧
  ∀ k, k ∈ CommitPayload.sorted_set keys ↔ k ∈ keys.
Proof.
  assert (∀ k, k ∈ CommitPayload.sorted_set keys ↔ k ∈ keys) as Hel.
  { intros k. unfold CommitPayload.sorted_set.
    by rewrite merge_sort_Permutation, elem_of_remove_dups. }
  split; [|done]. unfold CommitPayload.sorted_set.
  pose proof (StronglySorted_merge_sort Z.le (remove_dups keys)) as Hs.
  assert (NoDup (merge_sort Z.le (remove_dups keys))) as Hnd.
  { rewrite merge_sort_Permutation. apply NoDup_remove_dups. }
  induction Hs as [|k l Hl IH Hk]; [constructor|]. apply NoDup_cons in Hnd as [Hn Hnd].
  constructor; [by apply IH|]. apply Forall_forall. intros x Hx.
  pose proof (proj1 (Forall_forall _ _) Hk x Hx). destruct (decide (x = k)) as [->|]; [done|lia].
Qed.

Lemma require_range_errs f v m : errs_in (λ c, c = GrafxConfigurationError) (require_range f v m).
Proof. unfold require_range. case_match; auto with errors. Qed.

Lemma check_keys_errs name keys :
  errs_in (λ c, c = GrafxConfigurationError) (CommitPayload.check_keys name keys).
Proof.
  unfold CommitPayload.check_keys. case_match; [auto with errors|].
  apply errs_in_bind; [|auto with errors]. apply errs_in_traverse. intros. apply require_range_errs.
Qed.

Lemma post_init_errs p : errs_in (λ c, c = GrafxConfigurationError) (CommitPayload.post_init p).
Proof.
  unfold CommitPayload.post_init. apply errs_in_bind; [apply require_range_errs|intros ? _].
  apply errs_in_bind; [apply check_keys_errs|intros ? _].
  apply errs_in_bind; [apply check_keys_errs|intros ? _]. case_match; auto with errors.
Qed.

(** ** Properties *)

(** commit payloads round-trip, both ways.  A payload that passed its construction checks
    encodes to as many bytes as [encoded_length] promises and decodes back to itself; and any
    byte string [decode] accepts, whichever build wrote it, is re-encoded byte for byte. *)
Theorem commit_payload_codec (p : CommitPayload.t) :
  (CommitPayload.post_init p = Ok p →
   Forall (λ t, touch_post_init t = Ok t) (CommitPayload.page_touches p) →
   ∃ b, CommitPayload.encode p = Ok b ∧ zlen b = CommitPayload.encoded_length p ∧
        CommitPayload.decode b = Ok p) ∧
  (∀ b, CommitPayload.decode b = Ok p →
        CommitPayload.encode p = Ok b ∧ CommitPayload.post_init p = Ok p).
Proof.
  split.
  - intros [_ Hv]%payload_post_init_Ok Ht%built_touches. exists (payload_image p).
    split; [by apply encode_ok|]. split; [|by apply payload_decode_image].
    unfold payload_image. rewrite !zlen_app. pose proof Hv as (_&[_ Hr]&[_ Hw]&_).
    rewrite !zlen_keys_image, zlen_touches_image by done.
    rewrite (zlen_struct_image HEAD) by (by apply head_fits).
    rewrite (zlen_struct_image COUNT) by (by apply count_fits).
    unfold CommitPayload.encoded_length. simpl. lia.
  - intros b H. apply payload_decode_inv in H as (Hv & Ht & ->). split; [by apply encode_ok|].
    by apply payload_post_init_Ok.
Qed.

Lemma commit_payload_codec_witness :
  let p := CommitPayload.Mk 41 [4294967299; 7] [12] [Touch 1 9; Touch 2 0] in
  ∃ b, CommitPayload.encode p = Ok b ∧ zlen b = 56 ∧ CommitPayload.decode b = Ok p.
Proof.
  intros p. destruct (proj1 (commit_payload_codec p)) as (b & H1 & H2 & H3).
  - reflexivity.
  - repeat constructor.
  - exists b. split; [exact H1|]. split; [by rewrite H2|exact H3].
Defined.

(** [build] is canonical.  Two runs that accumulated the same sets, in whatever order and
    with whatever repeats, build the same payload; and its partition sets hold exactly the
    given keys in strictly increasing order. *)
Theorem commit_build_canonical (sn : Z) (r r' w w' : list Z) (t t' : list PageTouch)
    (Hr : ∀ k, k ∈ r ↔ k ∈ r') (Hw : ∀ k, k ∈ w ↔ k ∈ w') (Ht : ∀ x, x ∈ t ↔ x ∈ t') :
  CommitPayload.build sn r w t = CommitPayload.build sn r' w' t' ∧
  match CommitPayload.build sn r w t with
  | Ok p =>
      StronglySorted Z.lt (CommitPayload.read_partitions p) ∧
      StronglySorted Z.lt (CommitPayload.write_partitions p) ∧
      (∀ k, k ∈ CommitPayload.read_partitions p ↔ k ∈ r) ∧
      (∀ k, k ∈ CommitPayload.write_partitions p ↔ k ∈ w) ∧
      (∀ x, x ∈ CommitPayload.page_touches p ↔ x ∈ t)
  | Err e => err_class e = GrafxConfigurationError
  end.
Proof.
  split.
  - unfold CommitPayload.build, CommitPayload.sorted_set. do 2 f_equal.
    + by apply (merge_sort_set Z.le).
    + by apply (merge_sort_set Z.le).
    + by apply (merge_sort_set CommitPayload.touch_le).
  - destruct (CommitPayload.build sn r w t) as [p|e] eqn:E; unfold CommitPayload.build in E.
    + apply payload_post_init_Ok in E as [-> _]. simpl. split_and!; try apply sorted_set_spec.
      intros x. by rewrite merge_sort_Permutation, elem_of_remove_dups.
    + assert (errs_in (λ c, c = GrafxConfigurationError) (Err e : result CommitPayload.t)) as H.
      { rewrite <-E. apply post_init_errs. }
      by apply H.
Qed.

Lemma commit_build_canonical_witness :
  CommitPayload.build 41 [7; 3; 7] [] [Touch 2 0; Touch 1 9]
    = CommitPayload.build 41 [3; 7] [] [Touch 1 9; Touch 2 0; Touch 1 9] ∧
  CommitPayload.build 41 [7; 3; 7] [] [Touch 2 0; Touch 1 9]
    = Ok (CommitPayload.Mk 41 [3; 7] [] [Touch 1 9; Touch 2 0]).
Proof.
  split; [|vm_compute; reflexivity].
  apply (commit_build_canonical 41 [7; 3; 7] [3; 7] [] [] [Touch 2 0; Touch 1 9]
           [Touch 1 9; Touch 2 0; Touch 1 9]); set_solver.
Defined.

(** a partition key names one partition.  Whatever the table, the row key and the
    granularity, [partition_of] either refuses an impossible argument or returns a key that
    splits back into that table and an index below the granularity, the same on every call;
    and two partitions with one key are the same partition. *)
Theorem partition_keys_identify (table table' n i i' k : Z) (key : bytes) :
  (partition_of table key n = Ok k →
     split_partition_key k = Ok (table, crc32c_of key mod n) ∧ 0 <= crc32c_of key mod n < n) ∧
  (partition_key table i = Ok k → partition_key table' i' = Ok k → table = table' ∧ i = i').
Proof.
  split.
  - unfold partition_of, partition_index_of, validate_partitions_per_table. intros H. inv_ok H.
    inv_ok E. destruct (Z.ltb_spec n 1); [done|]. injection E0 as <-. injection E as <-.
    apply partition_key_Ok in H as (Ht & Hi & ->). split; [by apply split_partition_key_Ok|].
    apply Z.mod_pos_bound. lia.
  - intros (Ht & Hi & ->)%partition_key_Ok (Ht' & Hi' & Heq)%partition_key_Ok.
    unfold MAX_TABLE_ID, MAX_PARTITION_INDEX in *. change (2 ^ 32) with 4294967296 in Heq. lia.
Qed.

Lemma partition_keys_identify_witness :
  ∃ k, partition_of 3 [Byte.x61] 8 = Ok k ∧ split_partition_key k = Ok (3, 0) ∧
       (3 = 3 ∧ 2 = 2).
Proof.
  assert (crc32c_of [Byte.x61] mod 8 = 0) as Hm by (vm_compute; reflexivity).
  assert (partition_of 3 [Byte.x61] 8 = Ok (3 * 2 ^ 32)) as H by (vm_compute; reflexivity).
  exists (3 * 2 ^ 32). split; [exact H|].
  destruct (partition_keys_identify 3 3 8 2 2 (3 * 2 ^ 32) [Byte.x61]) as [H1 _].
  destruct (partition_keys_identify 3 3 8 2 2 (3 * 2 ^ 32 + 2) [Byte.x61]) as [_ H2].
  split; [rewrite <-Hm; by apply H1|apply H2; reflexivity].
Defined.
