(* ===== verification/Recovery.v ===== *)
(** What recovery decides before it touches anything: src/src/okto_grafx/domain/wal/replay.py
    (what a scan of the log found), src/src/okto_grafx/domain/ledger/classification.py (what a
    discarded piece is worth) and src/src/okto_grafx/domain/recovery/decision.py (the cut, the
    discards and the redo list).

    The theorems: every item of a scan is accounted for exactly once and nothing past the first
    damage is replayed; the redo list is exactly the effects of committed transactions in log
    order, or the log is refused because a transaction acted after its end; and the replay so
    computed always passes the boundary check that guards its application. *)

From S2P Require Import Prelude Ids Layout Utf8 WalRecord.

(** ** What a scan found *)

Record ScanFailure := MkFailure {
  failure_reason : FailureReason;
  failure_segment : pystr;
  failure_offset : Z;
  failure_length : Z;
  failure_expected_lsn : Z
}.

(** [ScanFailure.as_error]: only the class routes; the details repeat the fields. *)
Definition as_error (f : ScanFailure) : error :=
  MkError (if bool_decide (failure_reason f ∈ [UNSUPPORTED_VERSION; UNSUPPORTED_REQUIRED_RECORD])
           then GrafxSchemaVersionMismatch else GrafxCorruptionDetected) "" "".

Record ScanItem := MkItem {
  item_segment : pystr;
  item_offset : Z;
  item_record : option WalRecord;
  item_failure : option ScanFailure
}.

(** ** What a discard is worth *)

Inductive LedgerOriginClass := REAPPLICABLE | FORENSIC.

Inductive LedgerReason :=
  | LR_TRUNCATED_TAIL | LR_CHECKSUM_FAILURE | LR_STALE_EPOCH | LR_DEVICE_FULL
  | LR_QUARANTINED_SEGMENT | LR_INDEX_RECONCILE_ORPHAN.

Definition FORENSIC_REASONS : list FailureReason :=
  [TRUNCATED_TAIL; BAD_MAGIC; BAD_HEADER; CHECKSUM_FAILURE; UNREADABLE_DESCRIPTOR].

Definition refuses_recovery (reason : FailureReason) : bool :=
  bool_decide (reason ∈ [UNSUPPORTED_VERSION; UNSUPPORTED_REQUIRED_RECORD]).

Definition classify_failure (reason : FailureReason) : LedgerOriginClass * LedgerReason :=
  if decide (reason = CHECKSUM_FAILURE) then (FORENSIC, LR_CHECKSUM_FAILURE)
  else (FORENSIC, LR_TRUNCATED_TAIL).

Definition classify_record (stale_epoch : bool) : LedgerOriginClass * LedgerReason :=
  if stale_epoch then (REAPPLICABLE, LR_STALE_EPOCH) else (REAPPLICABLE, LR_TRUNCATED_TAIL).

(** ** The plan *)

Record DiscardedRange := MkRange {
  range_segment : pystr;
  range_offset : Z;
  range_length : Z;
  range_reason : FailureReason;
  range_expected_lsn : Z
}.

Definition range_of (f : ScanFailure) : DiscardedRange :=
  MkRange (failure_segment f) (failure_offset f) (failure_length f) (failure_reason f)
    (failure_expected_lsn f).

Record DiscardedRecord := MkDiscarded {
  discarded_segment : pystr;
  discarded_offset : Z;
  discarded_record : WalRecord
}.

Record RecoveryPlan := MkPlan {
  last_good_lsn : Z;
  damaged : bool;
  ranges : list DiscardedRange;
  records : list DiscardedRecord;
  discontinuities : list DiscardedRange;
  replayable : list WalRecord;
  unsupported : option DiscardedRange;
  records_scanned : Z
}.

Definition empty_plan : RecoveryPlan := MkPlan NO_LSN false [] [] [] [] None 0.

Definition discards (p : RecoveryPlan) : Z := zlen (ranges p) + zlen (records p).

(** The loop of [plan_recovery]; [break] ends the recursion. *)
Fixpoint plan_loop (floor_lsn : Z) (items : list ScanItem) (p : RecoveryPlan) : RecoveryPlan :=
  match items with
  | [] => p
  | item :: items =>
      match item_failure item with
      | Some failure =>
          let damaged_range := range_of failure in
          if refuses_recovery (failure_reason failure) then
            MkPlan (last_good_lsn p) (damaged p) (ranges p) (records p) (discontinuities p)
              (replayable p) (Some damaged_range) (records_scanned p)
          else if decide (failure_reason failure = LSN_DISCONTINUITY) then
            plan_loop floor_lsn items
              (MkPlan (last_good_lsn p) true (ranges p) (records p)
                 (discontinuities p ++ [damaged_range]) (replayable p) (unsupported p)
                 (records_scanned p))
          else
            plan_loop floor_lsn items
              (MkPlan (last_good_lsn p) true (ranges p ++ [damaged_range]) (records p)
                 (discontinuities p) (replayable p) (unsupported p) (records_scanned p))
      | None =>
          match item_record item with
          | None => plan_loop floor_lsn items p
          | Some record =>
              let scanned := records_scanned p + 1 in
              if damaged p then
                plan_loop floor_lsn items
                  (MkPlan (last_good_lsn p) (damaged p) (ranges p)
                     (records p ++ [MkDiscarded (item_segment item) (item_offset item) record])
                     (discontinuities p) (replayable p) (unsupported p) scanned)
              else
                plan_loop floor_lsn items
                  (MkPlan (lsn record) (damaged p) (ranges p) (records p) (discontinuities p)
                     (if floor_lsn <? lsn record then replayable p ++ [record] else replayable p)
                     (unsupported p) scanned)
          end
      end
  end.

Definition plan_recovery (items : list ScanItem) (floor_lsn : Z) : RecoveryPlan :=
  plan_loop floor_lsn items empty_plan.

(** ** The redo list *)

Definition key : Type := Z * Z.
Definition key_of (r : WalRecord) : key := (epoch r, txn_id r).

Definition REPLAY_EFFECT_TYPES : list Z :=
  record_type_value <$> [WRITE_PAGE; INDEX_WRITE; INDEX_RECONCILE].

Definition is_effect (r : WalRecord) : bool := bool_decide (record_type r ∈ REPLAY_EFFECT_TYPES).
Definition is_commit (r : WalRecord) : bool := record_type r =? record_type_value COMMIT.
Definition is_terminal (r : WalRecord) : bool :=
  bool_decide (record_type r ∈ [record_type_value COMMIT; record_type_value ABORT]).

Record CommittedReplay := MkReplay {
  effects : list WalRecord;
  last_committed_lsn : Z;
  incomplete_effects : list WalRecord;
  commit_records : list WalRecord
}.

(** [pending]: a dictionary from transactions to effects, in insertion order. *)
Definition pending := list (key * list WalRecord).

(** [pending.setdefault(key, []).append(record)]. *)
Fixpoint pending_append (k : key) (r : WalRecord) (p : pending) : pending :=
  match p with
  | [] => [(k, [r])]
  | (k', rs) :: p => if decide (k = k') then (k', rs ++ [r]) :: p
                     else (k', rs) :: pending_append k r p
  end.

(** [pending.pop(key, ())]: the effects and what is left. *)
Fixpoint pending_pop (k : key) (p : pending) : list WalRecord * pending :=
  match p with
  | [] => ([], [])
  | (k', rs) :: p => if decide (k = k') then (rs, p)
                     else let '(out, p) := pending_pop k p in (out, (k', rs) :: p)
  end.

Record walk := MkWalk {
  w_pending : pending;
  w_terminals : gmap key WalRecord;
  w_committed : list WalRecord;
  w_commit_records : list WalRecord;
  w_last_committed : Z
}.

Definition empty_walk : walk := MkWalk [] ∅ [] [] NO_LSN.

Definition refuse_record_after_terminal {A} : result A := raise GrafxRecoveryRefused "wal_transaction".

Definition walk_step (w : walk) (r : WalRecord) : result walk :=
  let k := key_of r in
  if is_effect r then
    match w_terminals w !! k with
    | Some _ => refuse_record_after_terminal
    | None => Ok (MkWalk (pending_append k r (w_pending w)) (w_terminals w) (w_committed w)
                    (w_commit_records w) (w_last_committed w))
    end
  else if negb (is_terminal r) then Ok w
  else
    match w_terminals w !! k with
    | Some _ => refuse_record_after_terminal
    | None =>
        let '(popped, rest) := pending_pop k (w_pending w) in
        let terminals := <[k := r]> (w_terminals w) in
        if is_commit r then
          Ok (MkWalk rest terminals (w_committed w ++ popped) (w_commit_records w ++ [r])
                (Z.max (w_last_committed w) (lsn r)))
        else Ok (MkWalk rest terminals (w_committed w) (w_commit_records w) (w_last_committed w))
    end.

Fixpoint walk_all (w : walk) (rs : list WalRecord) : result walk :=
  match rs with
  | [] => Ok w
  | r :: rs => w ← walk_step w r; walk_all w rs
  end.

Definition lsn_le (a b : WalRecord) : Prop := lsn a <= lsn b.
#[export] Instance lsn_le_dec : RelDecision lsn_le.
Proof. intros a b. unfold lsn_le. apply _. Defined.

Definition committed_replay (rs : list WalRecord) : result CommittedReplay :=
  w ← walk_all empty_walk rs;
  Ok (MkReplay (merge_sort lsn_le (w_committed w)) (w_last_committed w)
        (merge_sort lsn_le (concat (snd <$> w_pending w))) (w_commit_records w)).

Definition redo_order (rs : list WalRecord) : result (list WalRecord) :=
  replay ← committed_replay rs;
  Ok (filter (λ r, record_type r = record_type_value WRITE_PAGE) (effects replay)).

(** ** The boundary check *)

Definition refuse_boundaries {A} : result A := raise GrafxRecoveryRefused "commit_boundaries".

Fixpoint check_commits (rs : list WalRecord) (terminals : gmap key Z) (previous : Z)
    : result (gmap key Z * Z) :=
  match rs with
  | [] => Ok (terminals, previous)
  | r :: rs =>
      if negb (is_commit r) || negb ((previous <? lsn r) && (lsn r <? PROVISIONAL_CSN))
         || negb ((0 <=? epoch r) && (epoch r <=? MAX_U64))
         || negb ((0 <=? txn_id r) && (txn_id r <=? MAX_U64))
      then refuse_boundaries
      else match terminals !! key_of r with
      | Some _ => refuse_boundaries
      | None => check_commits rs (<[key_of r := lsn r]> terminals) (lsn r)
      end
  end.

Definition check_effect (terminals : gmap key Z) (r : WalRecord) : result unit :=
  match terminals !! key_of r with
  | None => refuse_boundaries
  | Some terminal => if (0 <? lsn r) && (lsn r <? terminal) then Ok () else refuse_boundaries
  end.

Definition check_incomplete (terminals : gmap key Z) (r : WalRecord) : result unit :=
  match terminals !! key_of r with Some _ => refuse_boundaries | None => Ok () end.

Definition validate_commit_boundaries (replay : CommittedReplay) : result unit :=
  if decide (commit_records replay = []) then Ok ()
  else
    '(terminals, previous) ← check_commits (commit_records replay) ∅ NO_LSN;
    if negb (previous =? last_committed_lsn replay) then refuse_boundaries
    else
      _ ← traverse (check_effect terminals) (effects replay);
      _ ← traverse (check_incomplete terminals) (incomplete_effects replay);
      Ok ().

(** ** Lemmas: the plan *)

Fixpoint take_while {A} (p : A → bool) (l : list A) : list A :=
  match l with [] => [] | x :: l => if p x then x :: take_while p l else [] end.

(** The items before an intact record of a newer build, and of these the ones before the first
    failure of any kind. *)
Definition continues (i : ScanItem) : bool :=
  match item_failure i with Some f => negb (refuses_recovery (failure_reason f)) | None => true end.
Definition sound_item (i : ScanItem) : bool :=
  match item_failure i with Some _ => false | None => true end.

Definition considered (items : list ScanItem) : list ScanItem := take_while continues items.
Definition good (items : list ScanItem) : list ScanItem := take_while sound_item (considered items).
Definition past_damage (items : list ScanItem) : list ScanItem :=
  drop (length (good items)) (considered items).

Definition record_of (i : ScanItem) : option WalRecord :=
  match item_failure i with Some _ => None | None => item_record i end.
Definition discard_of (i : ScanItem) : option DiscardedRecord :=
  MkDiscarded (item_segment i) (item_offset i) <$> record_of i.
Definition range_if (p : FailureReason → bool) (i : ScanItem) : option DiscardedRange :=
  match item_failure i with
  | Some f => if p (failure_reason f) then Some (range_of f) else None
  | None => None
  end.
Definition is_discontinuity (r : FailureReason) : bool := bool_decide (r = LSN_DISCONTINUITY).
Definition first_refusal (items : list ScanItem) : option DiscardedRange :=
  head (omap (range_if refuses_recovery) items).

Definition last_lsn (start : Z) (rs : list WalRecord) : Z := foldl (λ _ r, lsn r) start rs.

(** The plan a damaged or an undamaged loop state leads to. *)
Definition planned (floor_lsn : Z) (items : list ScanItem) (p : RecoveryPlan) : RecoveryPlan :=
  let g := if damaged p then [] else good items in
  let b := considered items in
  MkPlan (last_lsn (last_good_lsn p) (omap record_of g))
    (damaged p || existsb (negb ∘ sound_item) b)
    (ranges p ++ omap (range_if (negb ∘ is_discontinuity)) b)
    (records p ++ omap discard_of (drop (length g) b))
    (discontinuities p ++ omap (range_if is_discontinuity) b)
    (replayable p ++ filter (λ r, floor_lsn < lsn r) (omap record_of g))
    (match first_refusal items with Some r => Some r | None => unsupported p end)
    (records_scanned p + zlen (omap record_of b)).

Lemma plan_loop_planned floor_lsn items p : plan_loop floor_lsn items p = planned floor_lsn items p.
Proof.
  revert p. induction items as [|i items IH]; intros p.
  { destruct p as [? [] ?????]; unfold planned; simpl; by rewrite !app_nil_r, Z.add_0_r. }
  destruct i as [s o [r|] [[[] fs fo fl fe]|]], p as [lg [] rg rc dc rp us n];
    cbn -[planned]; rewrite ?IH; unfold planned, good, considered, first_refusal;
    cbn; rewrite ?drop_0, ?app_nil_r, <-?app_assoc, ?zlen_cons, ?Z.add_0_r; try done;
    try (f_equal; lia).
  destruct (Z.ltb_spec floor_lsn (lsn r)); case_decide; try lia; rewrite <-?app_assoc; f_equal; lia.
Qed.

(** Every item considered is a record, a failure or nothing, and only one of them. *)
Lemma omap_split {A B} (f : A → option B) l n :
  omap f l = omap f (take n l) ++ omap f (drop n l).
Proof. rewrite <-omap_app. by rewrite take_drop. Qed.

Lemma take_while_prefix {A} (p : A → bool) l : take (length (take_while p l)) l = take_while p l.
Proof. induction l as [|x l IH]; simpl; [done|]. destruct (p x); simpl; by rewrite ?IH. Qed.

Lemma omap_discard_record (l : list ScanItem) : discarded_record <$> omap discard_of l = omap record_of l.
Proof.
  induction l as [|i l IH]; [done|]. cbn. unfold discard_of at 1.
  destruct (record_of i); cbn; [f_equal|]; exact IH.
Qed.

Lemma omap_range_if (p : FailureReason → bool) (P : FailureReason → Prop) `{∀ f, Decision (P (failure_reason f))} (l : list ScanItem) :
  (∀ r, p r = true ↔ P r) → omap (range_if p) l = range_of <$> filter (λ f, P (failure_reason f)) (omap item_failure l).
Proof.
  intros Hp. induction l as [|[s o r [f|]] l IH]; [done| |exact IH].
  cbn [omap list_omap range_if item_failure]. rewrite filter_cons. specialize (Hp (failure_reason f)).
  destruct (p (failure_reason f)), (decide (P (failure_reason f))); cbn; [by f_equal|naive_solver..|exact IH].
Qed.

(** ** Lemmas: the walk

    [lineage rs] is the rule of the log: no effect and no second outcome after a transaction
    ended.  Under it the walk's state is described by the records seen so far. *)

Definition ended (rs : list WalRecord) (k : key) : Prop := ∃ t, t ∈ rs ∧ is_terminal t = true ∧ key_of t = k.
Definition committed (rs : list WalRecord) (k : key) : Prop :=
  ∃ t, t ∈ rs ∧ is_commit t = true ∧ key_of t = k.

Definition lineage (rs : list WalRecord) : Prop :=
  ∀ l r l', rs = l ++ r :: l' → is_effect r = true ∨ is_terminal r = true → ¬ ended l (key_of r).

#[export] Instance ended_dec rs k : Decision (ended rs k).
Proof.
  refine (cast_if (decide (Exists (λ t, is_terminal t = true ∧ key_of t = k) rs)));
    abstract (unfold ended; rewrite Exists_exists in *; naive_solver).
Defined.
#[export] Instance committed_dec rs k : Decision (committed rs k).
Proof.
  refine (cast_if (decide (Exists (λ t, is_commit t = true ∧ key_of t = k) rs)));
    abstract (unfold committed; rewrite Exists_exists in *; naive_solver).
Defined.

Lemma effect_not_terminal r : is_effect r = true → is_terminal r = false.
Proof.
  unfold is_effect, is_terminal, REPLAY_EFFECT_TYPES. intros H%bool_decide_eq_true.
  apply bool_decide_eq_false. intros H'. apply list_elem_of_In in H, H'. simpl in H, H'. lia.
Qed.

Lemma commit_terminal r : is_commit r = true → is_terminal r = true.
Proof. unfold is_commit, is_terminal. intros ->%Z.eqb_eq. done. Qed.

Lemma ended_snoc rs r k :
  ended (rs ++ [r]) k ↔ ended rs k ∨ (is_terminal r = true ∧ key_of r = k).
Proof. unfold ended. setoid_rewrite elem_of_app. setoid_rewrite list_elem_of_singleton. naive_solver. Qed.

Lemma committed_snoc rs r k :
  committed (rs ++ [r]) k ↔ committed rs k ∨ (is_commit r = true ∧ key_of r = k).
Proof. unfold committed. setoid_rewrite elem_of_app. setoid_rewrite list_elem_of_singleton. naive_solver. Qed.

Lemma lineage_snoc rs r :
  lineage (rs ++ [r]) ↔
  lineage rs ∧ (is_effect r = true ∨ is_terminal r = true → ¬ ended rs (key_of r)).
Proof.
  split.
  - intros H. split.
    + intros l x l' ->. apply (H l x (l' ++ [r])). by rewrite <-app_assoc.
    + by apply (H rs r []).
  - intros [H1 H2] l x l' Heq. destruct l' as [|y l' _] using rev_ind.
    + apply app_inj_tail in Heq as [-> ->]. done.
    + rewrite app_comm_cons, app_assoc in Heq. apply app_inj_tail in Heq as [-> _]. by apply (H1 l x l').
Qed.

(** The effects a transaction has so far. *)
Definition effects_of (rs : list WalRecord) (k : key) : list WalRecord :=
  filter (λ r, is_effect r = true ∧ key_of r = k) rs.
Definition open_effects (rs : list WalRecord) : list WalRecord :=
  filter (λ r, is_effect r = true ∧ ¬ ended rs (key_of r)) rs.
Definition committed_effects (rs : list WalRecord) : list WalRecord :=
  filter (λ r, is_effect r = true ∧ committed rs (key_of r)) rs.

Lemma pending_append_perm k r (p : pending) :
  concat (snd <$> pending_append k r p) ≡ₚ concat (snd <$> p) ++ [r].
Proof.
  induction p as [|[k' rs] p IH]; [done|]. cbn [pending_append]. case_decide; cbn.
  - rewrite <-!app_assoc. f_equiv. by rewrite Permutation_app_comm.
  - rewrite <-app_assoc. f_equiv. exact IH.
Qed.

(** Every group holds one key, and no key has two groups. *)
Definition grouped (p : pending) : Prop :=
  Forall (λ g, Forall (λ r, key_of r = g.1) g.2) p ∧ NoDup (fst <$> p).

Lemma pending_append_grouped r (p : pending) : grouped p → grouped (pending_append (key_of r) r p).
Proof.
  intros [Hf Hn]. revert Hf Hn. induction p as [|[k' rs] p IH]; intros Hf Hn.
  { split; cbn; [by repeat constructor|]. apply NoDup_singleton. }
  apply Forall_cons in Hf as [Hg Hf]. cbn in Hn. apply NoDup_cons in Hn as [Hk Hn].
  cbn [pending_append]. case_decide as Hd.
  - split; cbn; [|by apply NoDup_cons]. constructor; [|done]. cbn. apply Forall_app.
    split; [done|]. by repeat constructor.
  - destruct (IH Hf Hn) as [Hf' Hn']. split; [by constructor|]. cbn. apply NoDup_cons. split; [|done].
    assert (∀ x, x ∈ (pending_append (key_of r) r p).*1 → x ∈ p.*1 ∨ x = key_of r) as Hel.
    { clear. induction p as [|[k' rs] p IH]; cbn [pending_append]; intros x.
      - cbn. set_solver.
      - case_decide; cbn; [set_solver|]. intros [->|?]%elem_of_cons; [set_solver|].
        destruct (IH x); set_solver. }
    intros [?|?]%Hel; congruence.
Qed.

Lemma pending_pop_keys k (p : pending) x : x ∈ (pending_pop k p).2.*1 → x ∈ p.*1.
Proof.
  induction p as [|[k1 rs1] p IH]; cbn [pending_pop]; [done|]. case_decide; [by right|].
  destruct (pending_pop k p) as [o q]. cbn in *.
  intros [->|Hx]%elem_of_cons; [by left|right; by apply IH].
Qed.

Lemma pending_pop_spec k (p : pending) :
  grouped p →
  let '(out, p') := pending_pop k p in
  out = filter (λ r, key_of r = k) (concat (snd <$> p)) ∧
  concat (snd <$> p') = filter (λ r, key_of r ≠ k) (concat (snd <$> p)) ∧ grouped p'.
Proof.
  intros [Hf Hn]. induction p as [|[k' rs] p IH]; cbn [pending_pop]; [done|].
  apply Forall_cons in Hf as [Hg Hf]. cbn in Hn. apply NoDup_cons in Hn as [Hk Hn]. cbn in Hg.
  assert (∀ k0, k0 ∉ p.*1 → ∀ r, r ∈ concat (snd <$> p) → key_of r ≠ k0) as Hout.
  { intros k0 Hk0 r Hr <-. apply Hk0. apply list_elem_of_In, in_concat in Hr as (g & Hg' & Hr').
    apply list_elem_of_In, list_elem_of_fmap in Hg' as ([k1 rs1] & -> & Hp).
    pose proof (proj1 (Forall_forall _ _) Hf _ Hp) as Hall. cbn in *.
    apply list_elem_of_In in Hr'. rewrite (proj1 (Forall_forall _ _) Hall _ Hr').
    apply list_elem_of_fmap. by exists (k1, rs1). }
  assert (∀ r, r ∈ rs → key_of r = k') as Hin by (intros r; by apply (proj1 (Forall_forall _ _) Hg)).
  change (concat (snd <$> (k', rs) :: p)) with (rs ++ concat (snd <$> p)). rewrite !filter_app.
  case_decide as Hd.
  - subst k'. rewrite (filter_all _ rs), (filter_none _ (concat _)) by (done || by apply Hout).
    rewrite (filter_none _ rs), (filter_all _ (concat _)) by (by apply Hout || (intros r Hr; rewrite (Hin r Hr); auto)).
    by rewrite app_nil_r.
  - specialize (IH Hf Hn). destruct (pending_pop k p) as [out p'] eqn:Ep.
    destruct IH as (-> & Hc & Hf' & Hn').
    rewrite (filter_none _ rs), (filter_all _ rs) by (intros r Hr; rewrite (Hin r Hr); congruence).
    split; [done|]. split; [cbn; f_equal; exact Hc|]. split; [by constructor|]. cbn. apply NoDup_cons.
    split; [|done]. intros Hk'. apply Hk. pose proof (pending_pop_keys k p k') as Hkeys.
    rewrite Ep in Hkeys. by apply Hkeys.
Qed.

Record walked (rs : list WalRecord) (w : walk) : Prop := {
  walked_lineage : lineage rs;
  walked_grouped : grouped (w_pending w);
  walked_pending : concat (snd <$> w_pending w) ≡ₚ open_effects rs;
  walked_terminals k : is_Some (w_terminals w !! k) ↔ ended rs k;
  walked_committed : w_committed w ≡ₚ committed_effects rs;
  walked_commits : w_commit_records w = filter (λ r, is_commit r = true) rs;
  walked_last : w_last_committed w
                = foldl (λ m r, Z.max m (lsn r)) NO_LSN (filter (λ r, is_commit r = true) rs)
}.

Lemma committed_ended rs k : committed rs k → ended rs k.
Proof. intros (t & ? & ?%commit_terminal & ?). by exists t. Qed.

(** What one more record does to the three views. *)
Lemma views_other rs r :
  is_effect r = false → is_terminal r = false →
  open_effects (rs ++ [r]) = open_effects rs ∧ committed_effects (rs ++ [r]) = committed_effects rs ∧
  filter (λ r, is_commit r = true) (rs ++ [r]) = filter (λ r, is_commit r = true) rs ∧
  ∀ k, ended (rs ++ [r]) k ↔ ended rs k.
Proof.
  intros He Ht. assert (is_commit r = false) as Hc.
  { destruct (is_commit r) eqn:E; [|done]. apply commit_terminal in E. congruence. }
  assert (∀ k, ended (rs ++ [r]) k ↔ ended rs k) as Hended.
  { intros k. rewrite ended_snoc. rewrite Ht. naive_solver. }
  assert (∀ k, committed (rs ++ [r]) k ↔ committed rs k) as Hcomm.
  { intros k. rewrite committed_snoc. rewrite Hc. naive_solver. }
  unfold open_effects, committed_effects. rewrite !filter_app.
  rewrite !(filter_none _ [r]), !app_nil_r by (intros x ->%list_elem_of_singleton; rewrite ?He, ?Hc; first [done|by intros []]).
  split_and!; [|apply filter_ext_in|done|done]; intros; [apply filter_ext_in; intros|];
    rewrite ?Hended, ?Hcomm; done.
Qed.

Lemma views_effect rs r :
  is_effect r = true → ¬ ended rs (key_of r) →
  open_effects (rs ++ [r]) = open_effects rs ++ [r] ∧
  committed_effects (rs ++ [r]) = committed_effects rs ∧
  filter (λ r, is_commit r = true) (rs ++ [r]) = filter (λ r, is_commit r = true) rs ∧
  ∀ k, ended (rs ++ [r]) k ↔ ended rs k.
Proof.
  intros He Hn. pose proof (effect_not_terminal r He) as Ht.
  assert (is_commit r = false) as Hc.
  { destruct (is_commit r) eqn:E; [|done]. apply commit_terminal in E. congruence. }
  assert (∀ k, ended (rs ++ [r]) k ↔ ended rs k) as Hended.
  { intros k. rewrite ended_snoc. rewrite Ht. naive_solver. }
  assert (∀ k, committed (rs ++ [r]) k ↔ committed rs k) as Hcomm.
  { intros k. rewrite committed_snoc. rewrite Hc. naive_solver. }
  unfold open_effects, committed_effects. rewrite !filter_app.
  rewrite (filter_all _ [r]) by (intros x ->%list_elem_of_singleton; by rewrite Hended).
  rewrite !(filter_none _ [r]), !app_nil_r by
    (intros x ->%list_elem_of_singleton; rewrite ?Hc, ?Hcomm; intros Hx;
     first [done|destruct Hx as [_ Hx]; by apply Hn, committed_ended]).
  split_and!; [f_equal|apply filter_ext_in|done|done]; intros; [apply filter_ext_in; intros|];
    rewrite ?Hended, ?Hcomm; done.
Qed.

Lemma views_terminal rs r :
  is_terminal r = true → ¬ ended rs (key_of r) →
  open_effects (rs ++ [r]) = filter (λ x, key_of x ≠ key_of r) (open_effects rs) ∧
  committed_effects (rs ++ [r]) ≡ₚ
    committed_effects rs ++
      (if is_commit r then filter (λ x, key_of x = key_of r) (open_effects rs) else []) ∧
  filter (λ r, is_commit r = true) (rs ++ [r])
    = filter (λ r, is_commit r = true) rs ++ (if is_commit r then [r] else []) ∧
  ∀ k, ended (rs ++ [r]) k ↔ ended rs k ∨ key_of r = k.
Proof.
  intros Ht Hn. assert (is_effect r = false) as He.
  { destruct (is_effect r) eqn:E; [|done]. apply effect_not_terminal in E. congruence. }
  assert (∀ k, ended (rs ++ [r]) k ↔ ended rs k ∨ key_of r = k) as Hended.
  { intros k. rewrite ended_snoc, Ht. naive_solver. }
  unfold open_effects, committed_effects. rewrite !filter_app.
  rewrite !(filter_none _ [r]), !app_nil_r by
    (intros x ->%list_elem_of_singleton; rewrite ?He; first [done|by intros []]).
  rewrite !list_filter_filter. split_and!; [| | |done].
  - apply filter_ext_in. intros x _. rewrite Hended.
    assert (key_of r = key_of x ↔ key_of x = key_of r) by (split; congruence). tauto.
  - destruct (is_commit r) eqn:Hc.
    + apply filter_or_perm; intros x _; [rewrite committed_snoc, Hc|].
      * split.
        -- intros [Hx [?|[_ Hk]]]; [by left|]. right. rewrite <-Hk. done.
        -- intros [[??]|(Hk & Hx & ?)]; [auto|]. split; [done|]. by right.
      * intros [[_ Hcm] (_ & _ & Hne)]. by apply Hne, committed_ended.
    + rewrite app_nil_r. apply reflexive_eq, filter_ext_in. intros x _. rewrite committed_snoc, Hc.
      intuition discriminate.
  - f_equal. destruct (is_commit r) eqn:Hc; [|by apply filter_none; intros x ->%list_elem_of_singleton; rewrite Hc].
    by apply filter_all; intros x ->%list_elem_of_singleton.
Qed.

Lemma walked_empty : walked [] empty_walk.
Proof.
  split; try done.
  - by intros l r l' H%app_cons_not_nil.
  - split; [constructor|apply NoDup_nil_2].
  - intros k. cbn. rewrite lookup_empty. split; [by intros []|by intros (?&?%elem_of_nil&_)].
Qed.

Lemma not_lineage_snoc rs r :
  is_effect r = true ∨ is_terminal r = true → ended rs (key_of r) → ¬ lineage (rs ++ [r]).
Proof. intros Hr He [_ H]%lineage_snoc. by apply H. Qed.

Lemma walk_step_walked rs w r :
  walked rs w →
  match walk_step w r with
  | Ok w' => walked (rs ++ [r]) w'
  | Err e => e = MkError GrafxRecoveryRefused "wal_transaction" "" ∧ ¬ lineage (rs ++ [r])
  end.
Proof.
  intros [Hlin Hg Hp Ht Hc Hcr Hl]. unfold walk_step.
  destruct (is_effect r) eqn:He; [|destruct (is_terminal r) eqn:Hte]; cbn [negb].
  - destruct (w_terminals w !! key_of r) as [t|] eqn:Et.
    { split; [done|]. apply not_lineage_snoc; [by left|]. apply Ht. by eexists. }
    assert (¬ ended rs (key_of r)) as Hn by (rewrite <-Ht, Et; by intros []).
    destruct (views_effect rs r He Hn) as (Ho & Hce & Hcm & Hen).
    split; cbn; rewrite ?Ho, ?Hce, ?Hcm; try done.
    + apply lineage_snoc. done.
    + by apply pending_append_grouped.
    + by rewrite pending_append_perm, Hp.
    + intros k. by rewrite Hen.
  - destruct (w_terminals w !! key_of r) as [t|] eqn:Et.
    { split; [done|]. apply not_lineage_snoc; [by right|]. apply Ht. by eexists. }
    assert (¬ ended rs (key_of r)) as Hn by (rewrite <-Ht, Et; by intros []).
    destruct (views_terminal rs r Hte Hn) as (Ho & Hce & Hcm & Hen).
    pose proof (pending_pop_spec (key_of r) (w_pending w) Hg) as Hpop.
    destruct (pending_pop _ _) as [out rest]. destruct Hpop as (Hout & Hrest & Hg').
    assert (∀ k, is_Some (<[key_of r := r]> (w_terminals w) !! k) ↔ ended (rs ++ [r]) k) as Hdom.
    { intros k. rewrite Hen, <-Ht, lookup_insert_is_Some. destruct (decide (key_of r = k)); naive_solver. }
    destruct (is_commit r) eqn:Hco; split; cbn; rewrite ?Ho, ?Hce, ?Hcm, ?app_nil_r; try done;
      try (by apply lineage_snoc).
    + by rewrite Hrest, Hp.
    + by rewrite Hout, Hc, Hp.
    + by rewrite Hcr.
    + by rewrite foldl_app, <-Hl.
    + by rewrite Hrest, Hp.
  - destruct (views_other rs r He Hte) as (Ho & Hce & Hcm & Hen).
    split; rewrite ?Ho, ?Hce, ?Hcm; try done.
    + apply lineage_snoc. split; [done|]. rewrite He, Hte. by intros [|].
    + intros k. by rewrite Hen.
Qed.

Lemma lineage_prefix l l' : lineage (l ++ l') → lineage l.
Proof. intros H k r l1 ->. apply (H k r (l1 ++ l')). by rewrite <-app_assoc. Qed.

Lemma walk_all_walked rs0 rs w :
  walked rs0 w →
  match walk_all w rs with
  | Ok w' => walked (rs0 ++ rs) w'
  | Err e => e = MkError GrafxRecoveryRefused "wal_transaction" "" ∧ ¬ lineage (rs0 ++ rs)
  end.
Proof.
  revert rs0 w. induction rs as [|r rs IH]; intros rs0 w Hw; cbn [walk_all].
  { by rewrite app_nil_r. }
  pose proof (walk_step_walked rs0 w r Hw) as Hs. replace (rs0 ++ r :: rs) with ((rs0 ++ [r]) ++ rs)
    by (by rewrite <-app_assoc).
  destruct (walk_step w r) as [w'|e]; cbn [mbind result_bind]; [by apply IH|].
  destruct Hs as [-> Hs]. split; [done|]. intros Hlin. by apply Hs, (lineage_prefix _ rs).
Qed.

(** *** Sorting a log that is already in order *)

Definition in_log_order (rs : list WalRecord) : Prop := StronglySorted (λ a b, lsn a < lsn b) rs.

#[local] Instance lsn_le_total : Total lsn_le.
Proof. intros a b. unfold lsn_le. lia. Qed.
#[local] Instance lsn_le_trans : Transitive lsn_le.
Proof. intros a b c. unfold lsn_le. lia. Qed.

Lemma filter_log_order (P : WalRecord → Prop) `{∀ r, Decision (P r)} rs :
  in_log_order rs → in_log_order (filter P rs).
Proof.
  induction 1 as [|r rs Hs IH Hr]; [constructor|]. rewrite filter_cons. case_decide; [|done].
  constructor; [done|]. apply Forall_forall. intros x [_ Hx]%list_elem_of_filter.
  by apply (proj1 (Forall_forall _ _) Hr).
Qed.

Lemma log_order_sort l l' : l ≡ₚ l' → in_log_order l' → merge_sort lsn_le l = l'.
Proof.
  intros Hp Ho. pose proof (StronglySorted_merge_sort lsn_le l) as Hs.
  assert (merge_sort lsn_le l ≡ₚ l') as Hp' by (by rewrite merge_sort_Permutation).
  clear Hp. revert Hs Hp'. generalize (merge_sort lsn_le l). clear l. intros l Hs Hp.
  revert l' Ho Hp. induction Hs as [|x l Hs IH Hx]; intros l' Ho Hp.
  { by apply Permutation_nil_l in Hp. }
  destruct Ho as [|y l' Ho Hy]; [by apply Permutation_nil_r in Hp|].
  assert (x = y) as ->.
  { assert (x ∈ y :: l') as Hx' by (rewrite <-Hp; by left).
    assert (y ∈ x :: l) as Hy' by (rewrite Hp; by left).
    apply elem_of_cons in Hx' as [->|Hx']; [done|]. apply elem_of_cons in Hy' as [->|Hy']; [done|].
    pose proof (proj1 (Forall_forall _ _) Hy x Hx'). pose proof (proj1 (Forall_forall _ _) Hx y Hy').
    unfold lsn_le in *. lia. }
  f_equal. apply IH; [done|]. by apply (inj (cons y)) in Hp || by apply Permutation_cons_inv in Hp.
Qed.

(** The replay a log in order leads to. *)
Definition replay_of (rs : list WalRecord) : CommittedReplay :=
  let commits := filter (λ r, is_commit r = true) rs in
  MkReplay (committed_effects rs) (foldl (λ m r, Z.max m (lsn r)) NO_LSN commits)
    (open_effects rs) commits.

Lemma committed_replay_spec rs :
  in_log_order rs →
  match committed_replay rs with
  | Ok replay => lineage rs ∧ replay = replay_of rs
  | Err e => ¬ lineage rs ∧ e = MkError GrafxRecoveryRefused "wal_transaction" ""
  end.
Proof.
  intros Ho. unfold committed_replay. pose proof (walk_all_walked [] rs empty_walk walked_empty) as H.
  cbn [app] in H. destruct (walk_all empty_walk rs) as [w|e]; cbn [mbind result_bind]; [|tauto].
  destruct H as [Hlin Hg Hp Ht Hc Hcr Hl]. split; [done|]. unfold replay_of. rewrite <-Hl, Hcr. f_equal.
  - apply log_order_sort; [done|]. by apply filter_log_order.
  - apply log_order_sort; [done|]. by apply filter_log_order.
Qed.

(** ** Lemmas: the boundary check *)

(** After a transaction ended nothing of it follows, so its effects and its other ends precede. *)
Lemma lineage_before rs t r :
  in_log_order rs → lineage rs → t ∈ rs → is_terminal t = true → r ∈ rs →
  is_effect r = true ∨ is_terminal r = true → key_of r = key_of t → r = t ∨ lsn r < lsn t.
Proof.
  intros Ho Hlin (l & l' & ->)%list_elem_of_split Ht Hr Hkind Hk.
  apply elem_of_app in Hr as [Hr|[->|Hr]%elem_of_cons]; [|by left|].
  - right. clear Hlin. induction l as [|x l IH]; [by apply elem_of_nil in Hr|].
    inversion Ho as [|? ? Ho' Hx]. subst. apply elem_of_cons in Hr as [->|Hr]; [|by apply IH].
    apply (proj1 (Forall_forall _ _) Hx t). apply elem_of_app. right. by left.
  - apply list_elem_of_split in Hr as (a & b & ->).
    destruct (Hlin (l ++ t :: a) r b); [by rewrite <-app_assoc|done|].
    exists t. split; [apply elem_of_app; right; by left|done].
Qed.

Definition stamped (r : WalRecord) : Prop :=
  0 < lsn r < PROVISIONAL_CSN ∧ 0 <= epoch r <= MAX_U64 ∧ 0 <= txn_id r <= MAX_U64.

Lemma check_commits_ok cs terminals previous :
  Forall (λ c, is_commit c = true ∧ stamped c) cs → in_log_order cs → Forall (λ c, previous < lsn c) cs →
  NoDup (key_of <$> cs) → Forall (λ c, terminals !! key_of c = None) cs →
  ∃ t, check_commits cs terminals previous = Ok (t, foldl (λ m r, Z.max m (lsn r)) previous cs) ∧
    (∀ c, c ∈ cs → t !! key_of c = Some (lsn c)) ∧
    ∀ k, k ∉ key_of <$> cs → t !! k = terminals !! k.
Proof.
  intros Hok. revert terminals previous. induction Hok as [|c cs [Hc Hst] _ IH]; intros terminals previous Ho Hp Hn Hf.
  { exists terminals. split; [done|]. split; [by intros c ?%elem_of_nil|done]. }
  inversion Ho as [|? ? Ho' Hlt]. subst. apply Forall_cons in Hp as [Hp _], Hf as [Hf Hfs].
  apply NoDup_cons in Hn as [Hn Hns]. destruct Hst as (Hl & He & Hx).
  destruct (IH (<[key_of c := lsn c]> terminals) (lsn c)) as (t & Ht & Hin & Hout); [done..| |].
  { apply Forall_forall. intros d Hd. rewrite lookup_insert_ne.
    - by apply (proj1 (Forall_forall _ _) Hfs).
    - intros E. apply Hn. rewrite E. by apply list_elem_of_fmap_2. }
  exists t. split_and!.
  - cbn [check_commits]. rewrite Hc, Hf. cbn [negb orb foldl].
    rewrite !(proj2 (Z.ltb_lt _ _)), !(proj2 (Z.leb_le _ _)) by lia. cbn [negb orb andb].
    rewrite Ht. do 3 f_equal. lia.
  - intros d [->|Hd]%elem_of_cons; [|by apply Hin]. rewrite Hout by done. by rewrite lookup_insert_eq.
  - intros k Hk. rewrite fmap_cons in Hk. apply not_elem_of_cons in Hk as [Hk Hks].
    rewrite Hout, lookup_insert_ne by done. done.
Qed.

Lemma commit_keys_NoDup rs :
  in_log_order rs → lineage rs → NoDup (key_of <$> filter (λ r, is_commit r = true) rs).
Proof.
  intros Ho Hlin.
  induction rs as [|r rs IH] using rev_ind; [apply NoDup_nil_2|].
  rewrite filter_app, fmap_app. apply NoDup_app. split_and!.
  - apply IH; [|by apply lineage_prefix in Hlin]. clear -Ho.
    induction rs as [|x rs IH]; [constructor|]. inversion Ho as [|? ? Ho' Hx]. subst. apply Forall_app in Hx as [Hx _].
    constructor; [by apply IH|done].
  - intros k (a & -> & [Ha Hin]%list_elem_of_filter)%list_elem_of_fmap.
    rewrite filter_cons, filter_nil. case_decide as Hr; [|by intros ?%elem_of_nil].
    cbn. intros Hk%list_elem_of_singleton. apply lineage_snoc in Hlin as [_ Hn]. apply Hn.
    + right. by apply commit_terminal.
    + exists a. split_and!; [done|by apply commit_terminal|done].
  - rewrite filter_cons, filter_nil. case_decide; [apply NoDup_singleton|apply NoDup_nil_2].
Qed.

Lemma traverse_unit {A} (f : A → result unit) l :
  Forall (λ x, f x = Ok ()) l → ∃ u, traverse f l = Ok u.
Proof.
  intros H. exists ((λ _, ()) <$> l). apply traverse_Ok. induction H; constructor; done.
Qed.

Lemma replay_of_accepted rs :
  in_log_order rs → lineage rs → Forall stamped rs → validate_commit_boundaries (replay_of rs) = Ok ().
Proof.
  intros Ho Hlin Hst. unfold validate_commit_boundaries, replay_of. cbn.
  case_decide as Hn; [done|]. clear Hn.
  set (cs := filter (λ r, is_commit r = true) rs).
  destruct (check_commits_ok cs ∅ NO_LSN) as (t & Ht & Hin & Hout).
  - apply Forall_forall. intros c [Hc Hr]%list_elem_of_filter. split; [done|].
    by apply (proj1 (Forall_forall _ _) Hst).
  - by apply filter_log_order.
  - apply Forall_forall. intros c [_ Hr]%list_elem_of_filter.
    apply (proj1 (Forall_forall _ _) Hst) in Hr as (? & _). unfold NO_LSN. lia.
  - by apply commit_keys_NoDup.
  - apply Forall_forall. intros c _. apply lookup_empty.
  - rewrite Ht. cbn [mbind result_bind]. rewrite Z.eqb_refl. cbn [negb].
    destruct (traverse_unit (check_effect t) (committed_effects rs)) as [u ->].
    { apply Forall_forall. intros r [[He (c & Hc & Hcc & Hk)] Hr]%list_elem_of_filter. unfold check_effect.
      rewrite <-Hk, Hin by (by apply list_elem_of_filter).
      pose proof (commit_terminal c Hcc) as Htc. pose proof (effect_not_terminal r He) as Hte.
      destruct (lineage_before rs c r) as [->|Hlt]; try done; [by left|congruence|].
      apply (proj1 (Forall_forall _ _) Hst) in Hr as (? & _).
      by rewrite !(proj2 (Z.ltb_lt _ _)) by lia. }
    cbn [mbind result_bind].
    destruct (traverse_unit (check_incomplete t) (open_effects rs)) as [u' ->]; [|done].
    apply Forall_forall. intros r [[He Hn] Hr]%list_elem_of_filter. unfold check_incomplete.
    rewrite Hout, lookup_empty; [done|]. intros (c & Hk & [Hc Hcr]%list_elem_of_filter)%list_elem_of_fmap.
    apply Hn. exists c. split_and!; [done|by apply commit_terminal|done].
Qed.

(** ** The theorems *)

(** C30: A recovery plan accounts for everything a scan found.  The items up to an intact record of
    a newer build are each accounted for once: their records are, in order, the good prefix before
    the first damage followed by exactly the records listed as discarded, each with the place it was
    found at; the discontinuities listed are, in order, the places of exactly the failures of that
    reason, and the ranges those of all the others; that first record of a newer build, if any, is
    the one listed as unsupported; only records of the good prefix past the floor are to be replayed;
    the last good position is that of the last record of the prefix. *)
Theorem plan_recovery_accounts items floor_lsn :
  let p := plan_recovery items floor_lsn in
  let kept := omap record_of (good items) in
  omap record_of (considered items) = kept ++ (discarded_record <$> records p)
  ∧ replayable p = filter (λ r, floor_lsn < lsn r) kept
  ∧ last_good_lsn p = last_lsn NO_LSN kept
  ∧ records_scanned p = zlen kept + zlen (records p)
  ∧ records p = omap discard_of (past_damage items)
  ∧ ranges p = range_of <$> filter (λ f, failure_reason f ≠ LSN_DISCONTINUITY) (omap item_failure (considered items))
  ∧ discontinuities p = range_of <$> filter (λ f, failure_reason f = LSN_DISCONTINUITY) (omap item_failure (considered items))
  ∧ unsupported p = first_refusal items
  ∧ (damaged p = false ↔ good items = considered items).
Proof.
  unfold plan_recovery. rewrite plan_loop_planned. unfold planned, empty_plan.
  cbn [damaged last_good_lsn ranges records discontinuities replayable unsupported records_scanned].
  rewrite !app_nil_l, omap_discard_record. set (b := considered items).
  assert (omap record_of b = omap record_of (good items) ++ omap record_of (drop (length (good items)) b)) as Hsplit.
  { rewrite (omap_split record_of b (length (good items))) at 1. f_equal.
    unfold good. fold b. by rewrite take_while_prefix. }
  split_and!; [done|done|done| |done| | |by destruct (first_refusal items)|].
  - rewrite Hsplit, zlen_app, <-(omap_discard_record (drop _ _)). unfold zlen. rewrite length_fmap. lia.
  - apply (omap_range_if _ (λ r, r ≠ LSN_DISCONTINUITY)). intros r. unfold is_discontinuity. cbn. by rewrite negb_true_iff, bool_decide_eq_false.
  - apply (omap_range_if _ (λ r, r = LSN_DISCONTINUITY)). intros r. apply bool_decide_eq_true.
  - unfold good. fold b. cbn [orb]. clear. induction b as [|i b IH]; [done|].
    cbn [existsb take_while compose]. destruct (sound_item i); cbn; [|split; discriminate].
    rewrite IH. split; [by intros ->|by intros [=]].
Qed.

(** C31: Of a log in position order, [committed_replay] gives exactly the effects of the
    transactions whose COMMIT it holds and exactly the effects of the transactions that never
    ended, each in log order, with the COMMIT records and the last of their positions; the page
    redo list is the page writes among the first.  It refuses, as WAL transaction lineage, exactly
    the logs in which a transaction acts after its own end. *)
Theorem committed_replay_exact rs (Horder : in_log_order rs) :
  (lineage rs →
     ∃ replay, committed_replay rs = Ok replay
     ∧ effects replay = filter (λ r, is_effect r = true ∧ committed rs (key_of r)) rs
     ∧ incomplete_effects replay = filter (λ r, is_effect r = true ∧ ¬ ended rs (key_of r)) rs
     ∧ commit_records replay = filter (λ r, is_commit r = true) rs
     ∧ last_committed_lsn replay = foldl (λ m r, Z.max m (lsn r)) NO_LSN (commit_records replay)
     ∧ redo_order rs = Ok (filter (λ r, record_type r = record_type_value WRITE_PAGE) (effects replay)))
  ∧ (¬ lineage rs →
     committed_replay rs = Err (MkError GrafxRecoveryRefused "wal_transaction" "")
     ∧ redo_order rs = Err (MkError GrafxRecoveryRefused "wal_transaction" "")).
Proof.
  pose proof (committed_replay_spec rs Horder) as H. unfold redo_order.
  destruct (committed_replay rs) as [replay|e].
  - destruct H as [Hlin ->]. split; [|done]. intros _. by eexists.
  - destruct H as [Hlin ->]. split; [done|]. intros _. done.
Qed.

(** The replay computed from a log in position order, whose records carry positions, epochs
    and transaction numbers in range, always passes the boundary check that guards its
    application. *)
Theorem committed_replay_validates rs replay (Horder : in_log_order rs) (Hst : Forall stamped rs)
    (Hreplay : committed_replay rs = Ok replay) :
  validate_commit_boundaries replay = Ok ().
Proof.
  pose proof (committed_replay_spec rs Horder) as H. rewrite Hreplay in H. destruct H as [Hlin ->].
  by apply replay_of_accepted.
Qed.

(** Two interleaved transactions and a third that never ended; then an act after an end. *)
Definition sample_log : list WalRecord :=
  let rec type lsn txn := Mk type [] [] lsn 1 txn 0 2 in
  [rec 2 1 10; rec 2 2 11; rec 6 3 10; rec 3 4 11; rec 2 5 12; rec 3 6 10].
Definition sample_bad_log : list WalRecord := sample_log ++ [Mk 2 [] [] 7 1 11 0 2].

Lemma sample_orders : in_log_order sample_log ∧ in_log_order sample_bad_log.
Proof.
  split; unfold in_log_order; cbn; repeat (constructor; [|repeat (constructor; [done|]); constructor]);
    constructor.
Qed.

Lemma sample_lineages : lineage sample_log ∧ ¬ lineage sample_bad_log.
Proof.
  split; [pose proof (committed_replay_spec _ (proj1 sample_orders)) as H
         |pose proof (committed_replay_spec _ (proj2 sample_orders)) as H];
    [destruct (committed_replay sample_log) eqn:E|destruct (committed_replay sample_bad_log) eqn:E];
    try tauto; vm_compute in E; discriminate.
Qed.

Lemma committed_replay_exact_witness :
  (∃ replay, committed_replay sample_log = Ok replay ∧ (lsn <$> effects replay) = [1; 2; 3] ∧
             (lsn <$> incomplete_effects replay) = [5] ∧ last_committed_lsn replay = 6)
  ∧ committed_replay sample_bad_log = Err (MkError GrafxRecoveryRefused "wal_transaction" "").
Proof.
  destruct (committed_replay_exact sample_log (proj1 sample_orders)) as [H _].
  destruct (committed_replay_exact sample_bad_log (proj2 sample_orders)) as [_ H'].
  split; [|exact (proj1 (H' (proj2 sample_lineages)))].
  destruct (H (proj1 sample_lineages)) as (replay & Hr & He & Hi & Hc & Hl & _).
  exists replay. split; [exact Hr|]. rewrite Hl, Hc, He, Hi. vm_compute. auto.
Defined.

Lemma committed_replay_validates_witness :
  ∃ replay, committed_replay sample_log = Ok replay ∧ commit_records replay ≠ [] ∧
            validate_commit_boundaries replay = Ok ().
Proof.
  destruct (committed_replay sample_log) as [replay|e] eqn:E; [|vm_compute in E; discriminate E].
  exists replay. split; [reflexivity|]. split.
  - vm_compute in E. injection E as <-. discriminate.
  - apply (committed_replay_validates sample_log replay); [exact (proj1 sample_orders)| |exact E].
    repeat (constructor; [repeat split; vm_compute; congruence|]). constructor.
Defined.
