(* ===== verification/Segment.v ===== *)
(** The segments of the log: their names and the rule that decides which of them may go.
    src/src/okto_grafx/domain/wal/segment.py and [recyclable_horizon] of
    src/src/okto_grafx/engine/coordination.py. *)

From S2P Require Import Prelude Ids Utf8.

(** ** Names *)

Definition SEGMENT_SUFFIX : pystr := str ".wal".
Definition SEGMENT_NUMBER_DIGITS : nat := 12.
Definition MIN_SEGMENT_NUMBER : Z := 1.
Definition MAX_SEGMENT_NUMBER : Z := 10 ^ 12 - 1.

(** [f"{v:0nd}"] of a value of at most [n] digits, [int(s)] and the test of [s] before it. *)
Fixpoint digits (n : nat) (v : Z) : pystr :=
  match n with O => [] | S n => digits n (v / 10) ++ [48 + v mod 10] end.
Definition parse_int (s : pystr) : Z := fold_left (λ v c, 10 * v + (c - 48)) s 0.
Definition is_ascii_digit (c : Z) : bool := (48 <=? c) && (c <=? 57).

Definition segment_name (directory : pystr) (number : Z) : result pystr :=
  if bool_decide (directory = []) then raise GrafxConfigurationError "directory"
  else if negb ((MIN_SEGMENT_NUMBER <=? number) && (number <=? MAX_SEGMENT_NUMBER))
  then raise GrafxConfigurationError "number"
  else Ok (directory ++ [47] ++ digits SEGMENT_NUMBER_DIGITS number ++ SEGMENT_SUFFIX).

Definition parse_segment_number (directory name : pystr) : option Z :=
  if bool_decide (directory = []) then None
  else
    let prefix := directory ++ [47] in
    if negb (starts_with prefix name) || negb (ends_with SEGMENT_SUFFIX name) then None
    else
      let stem := slice name (zlen prefix) (zlen name - zlen SEGMENT_SUFFIX) in
      if negb (zlen stem =? Z.of_nat SEGMENT_NUMBER_DIGITS) || negb (forallb is_ascii_digit stem) then None
      else
        let number := parse_int stem in
        if negb ((MIN_SEGMENT_NUMBER <=? number) && (number <=? MAX_SEGMENT_NUMBER)) then None
        else Some number.

(** ** Recycling *)

Record SegmentInfo := MkSegment {
  number : Z;
  name : pystr;
  first_lsn : Z;
  last_lsn : Z;
  size_bytes : Z;
  record_count : Z
}.

Definition is_readable (s : SegmentInfo) : bool := (0 <? record_count s) && negb (last_lsn s =? NO_LSN).

(** The loop over [segments[:-1]]; [break] ends it. *)
Fixpoint count_recyclable (horizon_lsn : Z) (segments : list SegmentInfo) : Z :=
  match segments with
  | [] => 0
  | s :: segments =>
      if negb (is_readable s) then 0
      else if horizon_lsn <=? last_lsn s then 0
      else 1 + count_recyclable horizon_lsn segments
  end.

Definition recyclable_prefix (segments : list SegmentInfo) (horizon_lsn : Z) : result Z :=
  if horizon_lsn <? 0 then raise GrafxConfigurationError "horizon_lsn"
  else Ok (count_recyclable horizon_lsn (removelast segments)).

Definition require_lsn (label : string) (value : Z) : result Z :=
  if value <? 0 then raise GrafxConfigurationError label else Ok value.

Definition recyclable_horizon (reader_horizon : option Z) (checkpoint_lsn : Z) : result Z :=
  checkpoint ← require_lsn "checkpoint_lsn" checkpoint_lsn;
  match reader_horizon with
  | None => Ok checkpoint
  | Some reader_horizon =>
      pinned ← require_lsn "reader_horizon" reader_horizon;
      Ok (if pinned <? checkpoint then pinned else checkpoint)
  end.

(** ** Lemmas *)

Lemma length_digits n v : length (digits n v) = n.
Proof. revert v. induction n as [|n IH]; intros v; simpl; [done|]. rewrite length_app, IH. simpl. lia. Qed.

Lemma digits_ascii n v : forallb is_ascii_digit (digits n v) = true.
Proof.
  revert v. induction n as [|n IH]; intros v; simpl; [done|]. rewrite forallb_app, IH. simpl.
  pose proof (Z.mod_pos_bound v 10). unfold is_ascii_digit. lia.
Qed.

Lemma parse_int_snoc s c : parse_int (s ++ [c]) = 10 * parse_int s + (c - 48).
Proof. unfold parse_int. by rewrite fold_left_app. Qed.

Lemma pow10_S n : 10 ^ Z.of_nat (S n) = 10 * 10 ^ Z.of_nat n.
Proof. rewrite Nat2Z.inj_succ, Z.pow_succ_r by lia. done. Qed.

Lemma parse_digits n v : 0 <= v < 10 ^ Z.of_nat n → parse_int (digits n v) = v.
Proof.
  revert v. induction n as [|n IH]; intros v Hv; [change (10 ^ Z.of_nat 0) with 1 in Hv; unfold parse_int; simpl; lia|].
  rewrite pow10_S in Hv. cbn [digits]. rewrite parse_int_snoc, IH.
  - pose proof (Z.div_mod v 10). lia.
  - split; [apply Z.div_pos; lia|apply Z.div_lt_upper_bound; lia].
Qed.

Lemma digits_parse s : forallb is_ascii_digit s = true →
  digits (length s) (parse_int s) = s ∧ 0 <= parse_int s < 10 ^ Z.of_nat (length s).
Proof.
  induction s as [|c s IH] using rev_ind; intros H; [done|].
  rewrite forallb_app in H. apply andb_true_iff in H as [Hs Hc]. destruct (IH Hs) as [Hd Hr].
  simpl in Hc. unfold is_ascii_digit in Hc. rewrite parse_int_snoc.
  replace (length (s ++ [c])) with (S (length s)) by (rewrite length_app; simpl; lia).
  rewrite pow10_S. split; [|lia]. cbn [digits].
  replace ((10 * parse_int s + (c - 48)) / 10) with (parse_int s)
    by (apply Z.div_unique with (c - 48); lia).
  replace ((10 * parse_int s + (c - 48)) mod 10) with (c - 48)
    by (apply Z.mod_unique with (parse_int s); lia).
  rewrite Hd. f_equal. f_equal. lia.
Qed.

Lemma segment_name_Ok directory n s :
  segment_name directory n = Ok s ↔
  directory ≠ [] ∧ MIN_SEGMENT_NUMBER <= n <= MAX_SEGMENT_NUMBER ∧
  s = directory ++ [47] ++ digits SEGMENT_NUMBER_DIGITS n ++ SEGMENT_SUFFIX.
Proof.
  unfold segment_name. case_bool_decide; [split; [done|by intros []]|].
  destruct ((MIN_SEGMENT_NUMBER <=? n) && (n <=? MAX_SEGMENT_NUMBER)) eqn:E; cbn [negb].
  - split; [intros [= <-]; split_and!; [done|lia..|done]|by intros (_ & _ & ->)].
  - split; [done|]. intros (_ & ? & _). lia.
Qed.

Lemma parse_segment_number_name directory n :
  directory ≠ [] → MIN_SEGMENT_NUMBER <= n <= MAX_SEGMENT_NUMBER →
  parse_segment_number directory (directory ++ [47] ++ digits SEGMENT_NUMBER_DIGITS n ++ SEGMENT_SUFFIX) = Some n.
Proof.
  intros Hd Hn. unfold parse_segment_number. rewrite bool_decide_false by done.
  assert (directory ++ [47] ++ digits SEGMENT_NUMBER_DIGITS n ++ SEGMENT_SUFFIX
    = (directory ++ [47]) ++ digits SEGMENT_NUMBER_DIGITS n ++ SEGMENT_SUFFIX) as -> by (by rewrite <-app_assoc).
  rewrite starts_with_app. rewrite (app_assoc _ (digits _ _)), ends_with_app, <-(app_assoc _ (digits _ _)). cbn [negb orb].
  rewrite (zlen_app _ (digits _ _ ++ _)), (zlen_app (digits _ _)).
  rewrite (slice_app_middle (directory ++ [47])) by lia.
  unfold zlen at 1. rewrite length_digits, Z.eqb_refl, digits_ascii. cbn [negb orb].
  unfold MIN_SEGMENT_NUMBER, MAX_SEGMENT_NUMBER in *.
  rewrite parse_digits by (change (10 ^ Z.of_nat SEGMENT_NUMBER_DIGITS) with (10 ^ 12); lia).
  by replace ((1 <=? n) && (n <=? 10 ^ 12 - 1)) with true by lia.
Qed.

Lemma parse_segment_number_inv directory s n :
  parse_segment_number directory s = Some n →
  directory ≠ [] ∧ MIN_SEGMENT_NUMBER <= n <= MAX_SEGMENT_NUMBER ∧
  s = directory ++ [47] ++ digits SEGMENT_NUMBER_DIGITS n ++ SEGMENT_SUFFIX.
Proof.
  unfold parse_segment_number. case_bool_decide; [done|].
  destruct (starts_with _ s) eqn:Hp; [|done]. destruct (ends_with _ s) eqn:Hs; [|done]. cbn [negb orb].
  apply starts_with_inv in Hp as [r ->]. apply ends_with_inv in Hs as [q Hq].
  assert (slice ((directory ++ [47]) ++ r) (zlen (directory ++ [47])) (zlen ((directory ++ [47]) ++ r) - zlen SEGMENT_SUFFIX)
    = slice r 0 (zlen r - 4)) as ->.
  { change (zlen SEGMENT_SUFFIX) with 4. rewrite slice_app_r by lia. rewrite (zlen_app (directory ++ [47])). f_equal; lia. }
  destruct (Z.eqb_spec (zlen (slice r 0 (zlen r - 4))) (Z.of_nat SEGMENT_NUMBER_DIGITS)) as [Hl|]; [|done].
  cbn [negb orb].
  destruct (forallb is_ascii_digit _) eqn:Hdig; [|done]. cbn [negb].
  destruct ((_ <=? _) && _) eqn:Hr; [|done]. intros [= <-]. split_and!; [done|lia..|].
  destruct (digits_parse _ Hdig) as [Hd _].
  assert (4 <= zlen r) as Hr4.
  { unfold slice, zlen in Hl. rewrite length_take, length_drop in Hl. unfold SEGMENT_NUMBER_DIGITS, zlen in *. lia. }
  assert (r = slice r 0 (zlen r - 4) ++ SEGMENT_SUFFIX) as Hsplit.
  { unfold slice. rewrite drop_0, Z.sub_0_r. unfold zlen in *.
    rewrite <-(take_drop (Z.to_nat (Z.of_nat (length r) - 4)) r), app_assoc in Hq.
    apply app_inj_2 in Hq as [_ Hq]; [|rewrite length_drop; change (length SEGMENT_SUFFIX) with 4%nat; lia].
    rewrite <-Hq at 1. by rewrite take_drop. }
  rewrite <-app_assoc. f_equal. cbn [app]. f_equal. rewrite Hsplit at 1. f_equal. rewrite <-Hd at 1. f_equal.
  apply Nat2Z.inj. exact Hl.
Qed.

(** *** The order of names *)

Lemma str_leb_same_prefix p s t : str_leb (p ++ s) (p ++ t) = str_leb s t.
Proof. induction p as [|x p IH]; simpl; [done|]. by rewrite Z.ltb_irrefl, Z.eqb_refl, IH. Qed.

(** Strings that differ within a common length are ordered by it. *)
Lemma str_leb_extend a b s t :
  length a = length b → str_leb b a = false → str_leb (b ++ t) (a ++ s) = false ∧ str_leb (a ++ s) (b ++ t) = true.
Proof.
  revert b. induction a as [|x a IH]; intros [|y b] Hl Hlt; simpl in *; try done.
  apply orb_false_iff in Hlt as [Hxy Hrest]. destruct (Z.eqb_spec y x) as [->|Hne].
  - rewrite Z.ltb_irrefl, Z.eqb_refl. simpl in *. destruct (IH b) as [H1 H2]; [lia|done|]. by rewrite H1, H2.
  - by destruct (Z.ltb_spec y x), (Z.ltb_spec x y); try lia.
Qed.

Lemma digits_order n v w : 0 <= v → v < w → w < 10 ^ Z.of_nat n → str_leb (digits n w) (digits n v) = false.
Proof.
  revert v w. induction n as [|n IH]; intros v w Hv Hlt Hw; [change (10 ^ Z.of_nat 0) with 1 in Hw; lia|].
  rewrite pow10_S in Hw. cbn [digits]. pose proof (Z.div_mod v 10). pose proof (Z.div_mod w 10).
  pose proof (Z.mod_pos_bound v 10). pose proof (Z.mod_pos_bound w 10).
  destruct (Z.eq_dec (v / 10) (w / 10)) as [Heq|Hne].
  - rewrite Heq, str_leb_same_prefix. simpl. destruct (Z.ltb_spec (48 + w mod 10) (48 + v mod 10)); [lia|].
    by destruct (Z.eqb_spec (48 + w mod 10) (48 + v mod 10)); [lia|].
  - apply str_leb_extend; [by rewrite !length_digits|]. apply IH; [apply Z.div_pos; lia|lia|].
    apply Z.div_lt_upper_bound; lia.
Qed.

(** *** What a recycling leaves *)

Lemma count_recyclable_spec h segs :
  0 <= count_recyclable h segs <= zlen segs ∧
  (∀ i s, (Z.of_nat i < count_recyclable h segs) → segs !! i = Some s → is_readable s = true ∧ last_lsn s < h) ∧
  (∀ s, segs !! Z.to_nat (count_recyclable h segs) = Some s → is_readable s = false ∨ h <= last_lsn s).
Proof.
  induction segs as [|s segs (Hr & Hb & Hn)]; [unfold zlen; simpl; split_and!; [lia|lia|intros i s H; lia|done]|].
  cbn [count_recyclable]. rewrite zlen_cons. destruct (is_readable s) eqn:Hs; cbn [negb].
  2:{ split_and!; [lia|lia|intros; lia|]. intros x [= <-]. by left. }
  destruct (Z.leb_spec h (last_lsn s)).
  { split_and!; [lia|lia|intros; lia|]. intros x [= <-]. by right. }
  split_and!; [lia|lia| |].
  - intros [|i] x Hi Hx; [by injection Hx as <-|]. apply (Hb i); [lia|done].
  - intros x. replace (Z.to_nat (1 + count_recyclable h segs)) with (S (Z.to_nat (count_recyclable h segs))) by lia.
    apply Hn.
Qed.

(** ** The theorems *)

(** Segment names and numbers identify one another: a name the log makes is parsed back to its
    number, every name that parses is the one the log makes, and names sort as their numbers. *)
Theorem segment_names (directory : pystr) (n m : Z) (s t : pystr) :
  (segment_name directory n = Ok s ↔ parse_segment_number directory s = Some n)
  ∧ (segment_name directory n = Ok s → segment_name directory m = Ok t →
     (n < m → str_le s t ∧ s ≠ t) ∧ (s = t → n = m)).
Proof.
  split.
  - rewrite segment_name_Ok. split.
    + intros (Hd & Hn & ->). by apply parse_segment_number_name.
    + apply parse_segment_number_inv.
  - intros (Hd & Hn & ->)%segment_name_Ok (_ & Hm & ->)%segment_name_Ok.
    unfold MIN_SEGMENT_NUMBER, MAX_SEGMENT_NUMBER in *. split.
    + intros Hlt. assert (10 ^ Z.of_nat SEGMENT_NUMBER_DIGITS = 10 ^ 12) as Hp by done.
      pose proof (digits_order SEGMENT_NUMBER_DIGITS n m ltac:(lia) Hlt ltac:(lia)) as Ho.
      destruct (str_leb_extend (digits SEGMENT_NUMBER_DIGITS n) (digits SEGMENT_NUMBER_DIGITS m) SEGMENT_SUFFIX SEGMENT_SUFFIX)
        as [H1 H2]; [by rewrite !length_digits|done|]. unfold str_le. split.
      * by rewrite !str_leb_same_prefix.
      * intros Heq. do 2 apply app_inv_head in Heq. rewrite Heq in H1, H2. by rewrite H1 in H2.
    + intros Heq. pose proof (parse_segment_number_name directory n Hd Hn) as H1.
      pose proof (parse_segment_number_name directory m Hd Hm) as H2. rewrite Heq in H1. congruence.
Qed.

Lemma segment_names_witness :
  segment_name (str "wal") 7 = Ok (str "wal/000000000007.wal") ∧
  parse_segment_number (str "wal") (str "wal/000000000007.wal") = Some 7 ∧
  str_le (str "wal/000000000007.wal") (str "wal/000000000010.wal").
Proof.
  destruct (segment_names (str "wal") 7 10 (str "wal/000000000007.wal") (str "wal/000000000010.wal")) as [H1 H2].
  assert (segment_name (str "wal") 7 = Ok (str "wal/000000000007.wal")) as E by (vm_compute; reflexivity).
  split; [exact E|]. split; [exact (proj1 H1 E)|].
  exact (proj1 (proj1 (H2 E ltac:(vm_compute; reflexivity)) ltac:(lia))).
Defined.

(** Recycling loses nothing that is needed.  Under the horizon of the readers and the
    checkpoint, the segments offered are a prefix that never contains the newest one; every one of
    them was read and ends before the checkpoint and before every position a live reader holds; and
    the first segment kept, when it is not the newest, had to stay. *)
Theorem recycling_keeps (segments : list SegmentInfo) (reader_horizon : option Z) (checkpoint_lsn h n : Z)
    (Hh : recyclable_horizon reader_horizon checkpoint_lsn = Ok h)
    (Hn : recyclable_prefix segments h = Ok n) :
  0 <= n ∧ (segments ≠ [] → n < zlen segments) ∧
  (∀ i s, Z.of_nat i < n → segments !! i = Some s →
     is_readable s = true ∧ last_lsn s < checkpoint_lsn ∧ ∀ r, reader_horizon = Some r → last_lsn s < r) ∧
  (∀ s, n < zlen segments - 1 → segments !! Z.to_nat n = Some s → is_readable s = false ∨ h <= last_lsn s).
Proof.
  unfold recyclable_prefix in Hn. destruct (h <? 0); [done|]. injection Hn as <-.
  pose proof (count_recyclable_spec h (removelast segments)) as (Hr & Hb & Hs).
  assert (zlen (removelast segments) = Z.max 0 (zlen segments - 1)) as Hl.
  { unfold zlen. rewrite removelast_firstn_len, length_take. lia. }
  assert (∀ i, (Z.of_nat i < zlen (removelast segments)) → removelast segments !! i = segments !! i) as Hlook.
  { intros i Hi. rewrite removelast_firstn_len. apply lookup_take_lt. unfold zlen in Hi.
    rewrite removelast_firstn_len, length_take in Hi. lia. }
  split_and!; [lia| | |].
  - intros Hne. assert (0 < zlen segments) by (destruct segments; [done|rewrite zlen_cons; pose proof (zlen_nonneg segments); lia]). lia.
  - intros i s Hi Hx. destruct (Hb i s) as [Hread Hlt]; [lia|by rewrite Hlook by lia|]. split; [done|].
    unfold recyclable_horizon, require_lsn in Hh. inv_ok Hh. destruct (checkpoint_lsn <? 0); [done|]. injection E as <-.
    destruct reader_horizon as [r|]; [|injection Hh as <-; split; [done|by intros ? [=]]].
    inv_ok Hh. destruct (r <? 0); [done|]. injection E as <-. injection Hh as <-.
    destruct (Z.ltb_spec r checkpoint_lsn); split; [lia|intros ? [= <-]; lia|lia|intros ? [= <-]; lia].
  - intros s Hlt Hx. apply Hs. rewrite Hlook by lia. done.
Qed.

Lemma recycling_keeps_witness :
  let segs := [MkSegment 1 [] 1 9 100 9; MkSegment 2 [] 10 19 100 10; MkSegment 3 [] 20 25 50 6] in
  recyclable_horizon (Some 15) 22 = Ok 15 ∧ recyclable_prefix segs 15 = Ok 1 ∧ 9 < 22 ∧ 9 < 15.
Proof.
  intros segs. assert (recyclable_horizon (Some 15) 22 = Ok 15) as H1 by reflexivity.
  assert (recyclable_prefix segs 15 = Ok 1) as H2 by reflexivity.
  destruct (recycling_keeps segs (Some 15) 22 15 1 H1 H2) as (_ & _ & H & _).
  destruct (H 0%nat (MkSegment 1 [] 1 9 100 9) ltac:(lia) eq_refl) as (_ & Hc & Hr).
  split; [exact H1|]. split; [exact H2|]. split; [exact Hc|exact (Hr 15 eq_refl)].
Defined.
