(* ===== verification/Storage.v ===== *)
(** The storage port: src/src/okto_grafx/domain/ports/storage.py.

    [M S] is the monad of the effectful code: a failure keeps the state reached, as a Python
    exception does.  [StorageDevice] is the protocol class; [StorageLaws] is what its docstrings
    promise, as the components that persist something rely on it: what every operation does to
    the named files when it returns, what it may leave behind when it raises, and what a loss of
    power may bring back.  [Limited] cuts any device off after a number of operations: it obeys
    the laws of the device it wraps, so what is proved of every lawful device holds of a process
    that dies between any two operations. *)

From S2P Require Import Prelude Utf8.

(** ** Effectful code *)

Definition M (S A : Type) : Type := S → result A * S.

#[export] Instance m_ret {S} : MRet (M S) := λ A a s, (Ok a, s).
#[export] Instance m_bind {S} : MBind (M S) := λ A B f m s,
  match m s with (Ok a, s') => f a s' | (Err e, s') => (Err e, s') end.

Definition gets {S A} (f : S → A) : M S A := λ s, (Ok (f s), s).
Definition modify {S} (f : S → S) : M S () := λ s, (Ok (), f s).
Definition lift {S A} (r : result A) : M S A := λ s, (r, s).

(** [try: m except cls as failure: handler(failure)]; the state reached by [m] stays. *)
Definition catch {S A} (m : M S A) (cls : error_class) (handler : error → M S A) : M S A := λ s,
  match m s with
  | (Ok a, s') => (Ok a, s')
  | (Err e, s') => if decide (err_class e = cls) then handler e s' else (Err e, s')
  end.

(** [try: m except BaseException: ...]: what [m] answered, as a value. *)
Definition attempt {S A} (m : M S A) : M S (result A) := λ s, let '(r, s') := m s in (Ok r, s').

(** ** The port *)

Class StorageDevice (Dev : Type) := {
  page_size : Dev → Z;
  exists_ : pystr → M Dev bool;
  create : pystr → bool → M Dev ();
  remove : pystr → M Dev ();
  list_files : pystr → M Dev (list pystr);
  file_size : pystr → M Dev Z;
  atomic_replace : pystr → pystr → M Dev ();
  recycle : pystr → M Dev bool;
  page_count : pystr → M Dev Z;
  allocate : pystr → Z → M Dev Z;
  read_page : pystr → Z → M Dev bytes;
  write_page : pystr → Z → bytes → M Dev ();
  append_log : pystr → bytes → M Dev Z;
  read_log : pystr → Z → Z → M Dev bytes;
  log_size : pystr → M Dev Z;
  truncate_log : pystr → Z → M Dev ();
  durable_barrier : option pystr → M Dev ()
}.

(** What an operation does: the page size never changes, [Q] holds of the states before and after
    when it returns, [E] when it raises. *)
Definition effect {Dev} `{StorageDevice Dev} {A} (op : M Dev A) (Q : Dev → A → Dev → Prop)
    (E : Dev → Dev → Prop) : Prop :=
  ∀ d, page_size (op d).2 = page_size d ∧
       match (op d).1 with Ok a => Q d a (op d).2 | Err _ => E d (op d).2 end.

Definition page_slice (ps : Z) (content : bytes) (i : Z) : bytes := slice content (i * ps) ((i + 1) * ps).
Definition set_page (ps : Z) (content : bytes) (i : Z) (page : bytes) : bytes :=
  set_slice content (i * ps) ((i + 1) * ps) page.

Class StorageLaws (Dev : Type) `{StorageDevice Dev} := {
  (** What the names hold now, and what they may hold after a loss of power. *)
  files : Dev → gmap pystr bytes;
  recoverable : Dev → pystr → option bytes → Prop;
  (** [torn old new left]: an interrupted write of [new] over the page [old] may leave [left]. *)
  torn : bytes → bytes → bytes → Prop;

  untouched (d d' : Dev) : Prop := files d' = files d ∧ recoverable d' = recoverable d;
  (** Only the file [f] may have changed. *)
  only (f : pystr) (d d' : Dev) : Prop :=
    ∀ g, g ≠ f → files d' !! g = files d !! g ∧ recoverable d' g = recoverable d g;

  exists_law f : effect (exists_ f)
    (λ d b d', untouched d d' ∧ b = bool_decide (is_Some (files d !! f))) untouched;
  file_size_law f : effect (file_size f)
    (λ d n d', untouched d d' ∧ ∃ c, files d !! f = Some c ∧ n = zlen c) untouched;
  read_page_law f i : effect (read_page f i)
    (λ d page d', untouched d d' ∧ ∃ c, files d !! f = Some c ∧ 0 <= i ∧
       (i + 1) * page_size d <= zlen c ∧ page = page_slice (page_size d) c i) untouched;
  read_log_law f o n : effect (read_log f o n)
    (λ d data d', untouched d d' ∧ ∃ c, files d !! f = Some c ∧ 0 <= o ∧ 0 <= n ∧
       data = slice c o (o + n)) untouched;
  create_law f e : effect (create f e)
    (λ d _ d', only f d d' ∧
       match files d !! f with
       | Some c => e = false ∧ files d' !! f = Some c
       | None => files d' !! f = Some []
       end) (only f);
  remove_law f : effect (remove f)
    (λ d _ d', only f d d' ∧ is_Some (files d !! f) ∧ files d' !! f = None) (only f);
  allocate_law f n : effect (allocate f n)
    (λ d first d', only f d d' ∧ ∃ c, files d !! f = Some c ∧ first * page_size d = zlen c ∧
       files d' !! f = Some (c ++ zeros (n * page_size d))) (only f);
  write_page_law f i data : effect (write_page f i data)
    (λ d _ d', only f d d' ∧ zlen data = page_size d ∧
       (∃ c, files d !! f = Some c ∧ 0 <= i ∧ (i + 1) * page_size d <= zlen c ∧
          files d' !! f = Some (set_page (page_size d) c i data)) ∧
       ∀ x, recoverable d' f x → recoverable d f x ∨
         ∃ c page, recoverable d f (Some c) ∧ x = Some (set_page (page_size d) c i page) ∧
           (page = data ∨ torn (page_slice (page_size d) c i) data page ∧ zlen page = page_size d))
    (λ d d', only f d d' ∧
       (files d' !! f = files d !! f ∨
        ∃ c page, files d !! f = Some c ∧ 0 <= i ∧ (i + 1) * page_size d <= zlen c ∧
          torn (page_slice (page_size d) c i) data page ∧ zlen page = page_size d ∧
          files d' !! f = Some (set_page (page_size d) c i page)) ∧
       ∀ x, recoverable d' f x → recoverable d f x ∨
         ∃ c page, recoverable d f (Some c) ∧ x = Some (set_page (page_size d) c i page) ∧
           (page = data ∨ torn (page_slice (page_size d) c i) data page) ∧ zlen page = page_size d);
  (** A reader sees the old or the new content, whether or not the call returns. *)
  atomic_replace_law s t : effect (atomic_replace s t)
    (λ d _ d', s ≠ t ∧ is_Some (files d !! s) ∧ files d' = <[t := default [] (files d !! s)]> (delete s (files d)) ∧
       ∀ g x, recoverable d' g x → recoverable d g x ∨ (g = t ∧ recoverable d s x) ∨ (g = s ∧ x = None))
    (λ d d', (files d' = files d ∨
              s ≠ t ∧ is_Some (files d !! s) ∧
              files d' = <[t := default [] (files d !! s)]> (delete s (files d))) ∧
       ∀ g x, recoverable d' g x → recoverable d g x ∨ (g = t ∧ recoverable d s x) ∨ (g = s ∧ x = None));
  durable_barrier_law f : effect (durable_barrier (Some f))
    (λ d _ d', files d' = files d ∧ (∀ g x, recoverable d' g x → recoverable d g x) ∧
       is_Some (files d !! f) ∧ ∀ x, recoverable d' f x → x = files d !! f)
    (λ d d', files d' = files d ∧ ∀ g x, recoverable d' g x → recoverable d g x)
}.

(** The log half of the port: files that only grow at the end, are cut back or released. *)
Class LogLaws (Dev : Type) `{StorageLaws Dev} := {
  list_files_law p : effect (list_files p)
    (λ d names d', untouched d d' ∧ NoDup names ∧
       ∀ f, f ∈ names ↔ is_Some (files d !! f) ∧ starts_with p f = true) untouched;
  log_size_law f : effect (log_size f)
    (λ d n d', untouched d d' ∧ ∃ c, files d !! f = Some c ∧ n = zlen c) untouched;
  append_log_law f data : effect (append_log f data)
    (λ d n d', only f d d' ∧ (∃ c, files d !! f = Some c ∧ n = zlen c + zlen data ∧ files d' !! f = Some (c ++ data)) ∧
       ∀ x, recoverable d' f x → recoverable d f x ∨ ∃ c tail, recoverable d f (Some c) ∧ x = Some (c ++ tail))
    (λ d d', only f d d' ∧
       (files d' !! f = files d !! f ∨ ∃ c k, files d !! f = Some c ∧ files d' !! f = Some (c ++ take k data)) ∧
       ∀ x, recoverable d' f x → recoverable d f x ∨ ∃ c tail, recoverable d f (Some c) ∧ x = Some (c ++ tail));
  truncate_log_law f n : effect (truncate_log f n)
    (λ d _ d', only f d d' ∧ ∃ c, files d !! f = Some c ∧ 0 <= n <= zlen c ∧ files d' !! f = Some (slice c 0 n))
    (λ d d', only f d d' ∧
       (files d' !! f = files d !! f ∨
        ∃ c, files d !! f = Some c ∧ 0 <= n <= zlen c ∧ files d' !! f = Some (slice c 0 n)));
  recycle_law f : effect (recycle f)
    (λ d released d', only f d d' ∧ (files d' !! f = None ∨ released = false ∧ files d' !! f = files d !! f))
    (λ d d', only f d d' ∧ (files d' !! f = None ∨ files d' !! f = files d !! f))
}.

(** The page half of the port: a paged file holds a whole number of pages. *)
Class PageLaws (Dev : Type) `{StorageLaws Dev} := {
  page_count_law f : effect (page_count f)
    (λ d n d', untouched d d' ∧ ∃ c, files d !! f = Some c ∧ n * page_size d = zlen c) untouched;
  (** What a growth that failed left behind is zeros. *)
  allocate_failure_law f n : effect (allocate f n) (λ _ _ _, True)
    (λ d d', files d' !! f = files d !! f ∨
       ∃ c first m, files d !! f = Some c ∧ first * page_size d = zlen c ∧ 0 <= m ∧ files d' !! f = Some (c ++ zeros m));
  (** A creation that failed left the file as it was, or empty where there was none. *)
  create_failure_law f e : effect (create f e) (λ _ _ _, True)
    (λ d d', files d' !! f = files d !! f ∨ files d !! f = None ∧ files d' !! f = Some [])
}.

(** ** What a device went through *)

(** One call of the port, whether it returned or raised. *)
Inductive called {Dev} `{StorageDevice Dev} (d : Dev) : Dev → Prop :=
  | called_exists f : called d (exists_ f d).2
  | called_create f e : called d (create f e d).2
  | called_remove f : called d (remove f d).2
  | called_list_files p : called d (list_files p d).2
  | called_file_size f : called d (file_size f d).2
  | called_atomic_replace s t : called d (atomic_replace s t d).2
  | called_recycle f : called d (recycle f d).2
  | called_page_count f : called d (page_count f d).2
  | called_allocate f n : called d (allocate f n d).2
  | called_read_page f i : called d (read_page f i d).2
  | called_write_page f i data : called d (write_page f i data d).2
  | called_append_log f data : called d (append_log f data d).2
  | called_read_log f o n : called d (read_log f o n d).2
  | called_log_size f : called d (log_size f d).2
  | called_truncate_log f n : called d (truncate_log f n d).2
  | called_barrier f : called d (durable_barrier f d).2.

Definition reaches {Dev} `{StorageDevice Dev} : Dev → Dev → Prop := rtc called.

(** ** Reasoning about effectful code

    [spec P m Q E]: from a state of [P], [m] returns into [Q] or raises into [E]. *)

Definition spec {S A} (P : S → Prop) (m : M S A) (Q : A → S → Prop) (E : S → Prop) : Prop :=
  ∀ s, P s → match m s with (Ok a, s') => Q a s' | (Err _, s') => E s' end.

Section spec.
Context {S : Type}.
Implicit Types (P E : S → Prop).

Lemma spec_ret {A} (a : A) P (Q : A → S → Prop) E : (∀ s, P s → Q a s) → spec P (mret a) Q E.
Proof. intros H s Hs. by apply H. Qed.

Lemma spec_bind {A B} (m : M S A) (f : A → M S B) P (Q : A → S → Prop) (R : B → S → Prop) E :
  spec P m Q E → (∀ a, spec (Q a) (f a) R E) → spec P (m ≫= f) R E.
Proof.
  intros Hm Hf s Hs. unfold mbind, m_bind. specialize (Hm s Hs).
  destruct (m s) as [[a|e] s']; [by apply Hf|done].
Qed.

Lemma spec_weaken {A} (m : M S A) P P' (Q Q' : A → S → Prop) E E' :
  spec P m Q E → (∀ s, P' s → P s) → (∀ a s, Q a s → Q' a s) → (∀ s, E s → E' s) →
  spec P' m Q' E'.
Proof. intros Hm HP HQ HE s Hs. specialize (Hm s (HP s Hs)). destruct (m s) as [[]]; auto. Qed.

Lemma spec_and {A} (m : M S A) P P' (Q Q' : A → S → Prop) E E' :
  spec P m Q E → spec P' m Q' E' →
  spec (λ s, P s ∧ P' s) m (λ a s, Q a s ∧ Q' a s) (λ s, E s ∧ E' s).
Proof. intros H1 H2 s [Hs1 Hs2]. specialize (H1 s Hs1). specialize (H2 s Hs2). by destruct (m s) as [[]]. Qed.

Lemma spec_pair {A} (m : M S A) P P1 P2 (Q1 Q2 : A → S → Prop) E1 E2 E :
  spec P1 m Q1 E1 → spec P2 m Q2 E2 → (∀ s, E1 s → E s) → (∀ s, P s → P1 s ∧ P2 s) →
  spec P m (λ a s, Q1 a s ∧ Q2 a s) E.
Proof.
  intros H1 H2 HE HP. refine (spec_weaken _ _ _ _ _ _ _ (spec_and _ _ _ _ _ _ _ H1 H2) HP _ _); [done|].
  intros s [? _]. auto.
Qed.

Lemma spec_fact {A} (m : M S A) (φ : Prop) P (Q : A → S → Prop) E :
  (φ → spec P m Q E) → spec (λ s, φ ∧ P s) m Q E.
Proof. intros H s [Hφ Hs]. by apply H. Qed.

Lemma spec_ex {A T} (m : M S A) (P : T → S → Prop) (Q : A → S → Prop) E :
  (∀ t, spec (P t) m Q E) → spec (λ s, ∃ t, P t s) m Q E.
Proof. intros H s [t Ht]. by apply (H t). Qed.

Lemma spec_gets {A} (f : S → A) P (Q : A → S → Prop) E :
  (∀ s, P s → Q (f s) s) → spec P (gets f) Q E.
Proof. intros H s Hs. by apply H. Qed.

Lemma spec_modify (f : S → S) P (Q : () → S → Prop) E :
  (∀ s, P s → Q () (f s)) → spec P (modify f) Q E.
Proof. intros H s Hs. by apply H. Qed.

Lemma spec_lift {A} (r : result A) P (Q : A → S → Prop) E :
  (∀ a s, r = Ok a → P s → Q a s) → (∀ e s, r = Err e → P s → E s) → spec P (lift r) Q E.
Proof. intros HQ HE s Hs. unfold lift. destruct r; eauto. Qed.

Lemma spec_attempt {A} (m : M S A) P (Q : A → S → Prop) (E E' : S → Prop) :
  spec P m Q E → spec P (attempt m) (λ r s, match r with Ok a => Q a s | Err _ => E s end) E'.
Proof. intros Hm s Hs. unfold attempt. specialize (Hm s Hs). destruct (m s) as [[a|e] s']; done. Qed.

Lemma spec_catch {A} (m : M S A) cls h P (Q : A → S → Prop) E E' :
  spec P m Q E → (∀ e, spec E (h e) Q E') → (∀ s, E s → E' s) → spec P (catch m cls h) Q E'.
Proof.
  intros Hm Hh HE s Hs. unfold catch. specialize (Hm s Hs). destruct (m s) as [[a|e] s']; [done|].
  case_decide; [by apply Hh|by apply HE].
Qed.
End spec.

(** ** A device that is cut off

    After [budget] operations every operation raises and does nothing: the process has died. *)

Record Limited (Dev : Type) := Limit { inner : Dev; budget : nat }.
Arguments Limit {Dev} inner budget.
Arguments inner {Dev} l.
Arguments budget {Dev} l.

Section limited.
Context {Dev : Type} `{SL : StorageLaws Dev}.

Definition limit {A} (m : M Dev A) : M (Limited Dev) A := λ l,
  match budget l with
  | O => (raise_reason GrafxUnsupportedOperation "device_closed", l)
  | S n => let '(r, d) := m (inner l) in (r, Limit d n)
  end.

#[export] Instance limited_device : StorageDevice (Limited Dev) := {|
  page_size := λ l, page_size (inner l);
  exists_ := λ f, limit (exists_ f); create := λ f e, limit (create f e);
  remove := λ f, limit (remove f); list_files := λ p, limit (list_files p);
  file_size := λ f, limit (file_size f); atomic_replace := λ a b, limit (atomic_replace a b);
  recycle := λ f, limit (recycle f); page_count := λ f, limit (page_count f);
  allocate := λ f n, limit (allocate f n); read_page := λ f i, limit (read_page f i);
  write_page := λ f i data, limit (write_page f i data);
  append_log := λ f data, limit (append_log f data); read_log := λ f o n, limit (read_log f o n);
  log_size := λ f, limit (log_size f); truncate_log := λ f n, limit (truncate_log f n);
  durable_barrier := λ f, limit (durable_barrier f)
|}.

Lemma limit_effect {A} (m : M Dev A) (Q : Dev → A → Dev → Prop) (E : Dev → Dev → Prop) :
  (∀ d, E d d) → effect m Q E →
  effect (limit m) (λ l a l', Q (inner l) a (inner l')) (λ l l', E (inner l) (inner l')).
Proof.
  intros HE Hm [d n]. unfold limit. cbn. destruct n as [|n]; cbn; [done|].
  specialize (Hm d). destruct (m d) as [r d']. exact Hm.
Qed.

#[export] Instance limited_laws : StorageLaws (Limited Dev).
Proof.
  refine {| files := λ l, files (inner l); recoverable := λ l, recoverable (inner l); torn := torn |}.
  - intros f. exact (limit_effect (exists_ f) _ untouched (λ d, conj eq_refl eq_refl) (exists_law f)).
  - intros f. exact (limit_effect (file_size f) _ untouched (λ d, conj eq_refl eq_refl) (file_size_law f)).
  - intros f i. exact (limit_effect (read_page f i) _ untouched (λ d, conj eq_refl eq_refl) (read_page_law f i)).
  - intros f o n. exact (limit_effect (read_log f o n) _ untouched (λ d, conj eq_refl eq_refl) (read_log_law f o n)).
  - intros f e. exact (limit_effect (create f e) _ (only f) (λ d g _, conj eq_refl eq_refl) (create_law f e)).
  - intros f. exact (limit_effect (remove f) _ (only f) (λ d g _, conj eq_refl eq_refl) (remove_law f)).
  - intros f n. exact (limit_effect (allocate f n) _ (only f) (λ d g _, conj eq_refl eq_refl) (allocate_law f n)).
  - intros f i data. refine (limit_effect (write_page f i data) _ _ _ (write_page_law f i data)).
    intros d. split_and!; [done|by left|by left].
  - intros a b. refine (limit_effect (atomic_replace a b) _ _ _ (atomic_replace_law a b)). intros d. split; [by left|by left].
  - intros f. refine (limit_effect (durable_barrier (Some f)) _ _ _ (durable_barrier_law f)). intros d. split; [done|auto].
Defined.

#[export] Instance limited_page_laws `{!PageLaws Dev} : PageLaws (Limited Dev).
Proof.
  constructor.
  - intros f. exact (limit_effect (page_count f) _ untouched (λ d, conj eq_refl eq_refl) (page_count_law f)).
  - intros f n. refine (limit_effect (allocate f n) _ _ _ (allocate_failure_law f n)). intros d. by left.
  - intros f e. refine (limit_effect (create f e) _ _ _ (create_failure_law f e)). intros d. by left.
Qed.

#[export] Instance limited_log_laws `{!LogLaws Dev} : LogLaws (Limited Dev).
Proof.
  constructor.
  - intros p. exact (limit_effect (list_files p) _ untouched (λ d, conj eq_refl eq_refl) (list_files_law p)).
  - intros f. exact (limit_effect (log_size f) _ untouched (λ d, conj eq_refl eq_refl) (log_size_law f)).
  - intros f data. refine (limit_effect (append_log f data) _ _ _ (append_log_law f data)).
    intros d. split_and!; [by intros ??|by left|by left].
  - intros f n. refine (limit_effect (truncate_log f n) _ _ _ (truncate_log_law f n)).
    intros d. split; [by intros ??|by left].
  - intros f. refine (limit_effect (recycle f) _ _ _ (recycle_law f)).
    intros d. split; [by intros ??|by right].
Qed.
End limited.
