(* ===== verification/MemoryStorage.v ===== *)
(** The in-memory device: src/src/okto_grafx/adapters/storage_memory.py, with the name rules and
    the typed refusals it imports from src/src/okto_grafx/adapters/storage_local.py.

    The device implements the storage port and keeps its laws, so every component proved against
    [StorageLaws] runs on it.  Its own invariants: no two stored names differ only by case, no
    name is both a file and a directory, and the capacity is never passed. *)

From S2P Require Import Prelude Layout Utf8 Storage.

(** ** Names *)

Definition MAX_LOGICAL_NAME_LENGTH : Z := 255.
Definition MAX_NAME_SEGMENT_LENGTH : Z := 128.
Definition MAX_ALLOCATION_PAGES : Z := 2 ^ 20.
Definition PENDING_DELETE_MARKER : pystr := str ".pending-delete-".
Definition RESERVED_DEVICE_NAMES : list pystr :=
  [str "CON"; str "PRN"; str "AUX"; str "NUL"]
  ++ ((λ i, str "COM" ++ [48 + i]) <$> py_range 1 10 1)
  ++ ((λ i, str "LPT" ++ [48 + i]) <$> py_range 1 10 1).
Definition FORBIDDEN_NAME_CHARACTERS : pystr := str "<>:|?*\" ++ [34].

Definition SLASH : Z := 47.
Definition DOT : Z := 46.

(** [s.lower()], [s.upper()] and [s.casefold()] of the characters 0 to 127, the only ones a
    logical name holds. *)
Definition lower_char (x : Z) : Z := if (65 <=? x) && (x <=? 90) then x + 32 else x.
Definition upper_char (x : Z) : Z := if (97 <=? x) && (x <=? 122) then x - 32 else x.
Definition lower (s : pystr) : pystr := lower_char <$> s.
Definition upper (s : pystr) : pystr := upper_char <$> s.

(** [str.isspace] of one character. *)
Definition is_space (x : Z) : bool :=
  ((9 <=? x) && (x <=? 13)) || ((28 <=? x) && (x <=? 32)) || (x =? 0x85) || (x =? 0xA0) || (x =? 0x1680)
  || ((0x2000 <=? x) && (x <=? 0x200A)) || (x =? 0x2028) || (x =? 0x2029) || (x =? 0x202F)
  || (x =? 0x205F) || (x =? 0x3000).

(** [segment != segment.strip()]. *)
Definition is_padded (segment : pystr) : bool :=
  match head segment, last segment with
  | Some a, Some b => is_space a || is_space b
  | _, _ => false
  end.

(** [part in s]. *)
Fixpoint contains (part s : pystr) : bool :=
  starts_with part s || match s with [] => false | _ :: s => contains part s end.

Definition refuse_operation {A} (reason : string) : result A := raise_reason GrafxUnsupportedOperation reason.
Definition refuse_missing_file {A} : result A := raise_reason GrafxCorruptionDetected "missing_file".
Definition refuse_unaligned_file {A} : result A := raise_reason GrafxCorruptionDetected "unaligned_paged_file".
Definition refuse_page_not_allocated {A} : result A :=
  raise_reason GrafxCorruptionDetected "page_not_allocated".
Definition refuse_page_payload {A} : result A := raise_reason GrafxCorruptionDetected "page_size_mismatch".
Definition refuse_not_a_directory {A} : result A := refuse_operation "not_a_directory".
Definition refuse_not_a_file {A} : result A := refuse_operation "not_a_file".
(** The failures a barrier meets here all carry a [reason]. *)
Definition barrier_failure_from (failure : error) : error :=
  MkError GrafxDurabilityBarrierFailed "" (err_reason failure).

Definition is_pending_delete (entry : pystr) : bool := contains PENDING_DELETE_MARKER (lower entry).

Definition validate_segment (segment : pystr) : result unit :=
  if bool_decide (segment = []) then refuse_operation "empty_segment"
  else if bool_decide (segment = str ".") then refuse_operation "relative_segment"
  else if bool_decide (segment = str "..") then refuse_operation "parent_traversal"
  else if MAX_NAME_SEGMENT_LENGTH <? zlen segment then refuse_operation "segment_too_long"
  else if is_padded segment || bool_decide (last segment = Some DOT)
  then refuse_operation "padded_segment"
  else if existsb (λ c, bool_decide (c ∈ FORBIDDEN_NAME_CHARACTERS) || negb ((32 <=? c) && (c <? 127))) segment
  then refuse_operation "forbidden_character"
  else if bool_decide (upper (hd [] (split DOT segment)) ∈ RESERVED_DEVICE_NAMES)
  then refuse_operation "reserved_device_name"
  else if is_pending_delete segment then refuse_operation "reserved_infix"
  else Ok ().

Definition normalize_logical_name (file : pystr) : result pystr :=
  if bool_decide (file = []) then refuse_operation "empty_name"
  else if MAX_LOGICAL_NAME_LENGTH <? zlen file then refuse_operation "name_too_long"
  else if bool_decide (92 ∈ file) then refuse_operation "backslash_separator"
  else if bool_decide (head file = Some SLASH) then refuse_operation "absolute_name"
  else if bool_decide (file !! 1%nat = Some 58) then refuse_operation "absolute_name"
  else _ ← traverse validate_segment (split SLASH file); Ok file.

Definition find_case_conflict (requested : pystr) (existing : list pystr) : option pystr :=
  head (filter (λ c, c ≠ requested ∧ lower c = lower requested) existing).

Definition validate_allocation (count : Z) : result Z :=
  if count <=? 0 then refuse_operation "invalid_page_count"
  else if MAX_ALLOCATION_PAGES <? count then refuse_operation "invalid_page_count"
  else Ok count.

Definition validate_read_range (offset length : Z) : result unit :=
  if (offset <? 0) || (length <? 0) then refuse_operation "invalid_range" else Ok ().

(** ** The device *)

Module Memory.

Record t := Mk {
  m_page_size : Z;
  m_capacity : option Z;
  m_files : gmap pystr bytes;
  m_directories : gset pystr;
  m_closed : bool
}.

Definition set_files (fs : gmap pystr bytes) (m : t) : t :=
  Mk (m_page_size m) (m_capacity m) fs (m_directories m) (m_closed m).
Definition set_closed (closed : bool) (m : t) : t :=
  Mk (m_page_size m) (m_capacity m) (m_files m) (m_directories m) closed.

Definition validate_capacity (capacity_bytes : option Z) : result (option Z) :=
  match capacity_bytes with
  | None => Ok None
  | Some c => if c <=? 0 then refuse_operation "invalid_capacity" else Ok (Some c)
  end.

Definition make (page_size : Z) (capacity_bytes : option Z) : result t :=
  page_size ← validate_page_size page_size;
  capacity ← validate_capacity capacity_bytes;
  Ok (Mk page_size capacity ∅ ∅ false).

Definition used (fs : gmap pystr bytes) : Z := map_fold (λ _ c n, zlen c + n) 0 fs.
Definition used_bytes (m : t) : Z := used (m_files m).

(** The names that follow [prefix]: of files, then of directories longer than the prefix. *)
Definition next_segment (prefix stored : pystr) : option pystr :=
  if starts_with prefix stored then Some (hd [] (split SLASH (drop (length prefix) stored))) else None.

Definition entries_at (m : t) (prefix : pystr) : list pystr :=
  merge_sort str_le (remove_dups (
    omap (next_segment prefix) (fst <$> map_to_list (m_files m))
    ++ omap (next_segment prefix)
         (filter (λ d, (length prefix < length d)%nat) (elements (m_directories m))))).

Definition remember_directories (m : t) (name : pystr) : t :=
  let segments := removelast (split SLASH name) in
  Mk (m_page_size m) (m_capacity m) (m_files m)
    (m_directories m ∪ list_to_set ((λ depth, join SLASH (take depth segments)) <$> seq 1 (length segments)))
    (m_closed m).

Definition require_open (m : t) : result unit :=
  if m_closed m then refuse_operation "device_closed" else Ok ().

Definition require_not_a_directory (m : t) (name : pystr) : result unit :=
  if bool_decide (name ∈ m_directories m) then refuse_not_a_file else Ok ().

(** The loop of [_resolve_identity] from [prefix] on. *)
Fixpoint resolve_segments (m : t) (name : pystr) (segments : list pystr) (prefix : pystr) : result bool :=
  match segments with
  | [] => Ok (bool_decide (is_Some (m_files m !! name)))
  | segment :: segments =>
      let entries := entries_at m prefix in
      if bool_decide (segment ∈ entries) then resolve_segments m name segments (prefix ++ segment ++ [SLASH])
      else match find_case_conflict segment entries with
           | Some _ => refuse_operation "case_collision"
           | None => Ok false
           end
  end.

Definition resolve_identity (m : t) (name : pystr) : result bool :=
  resolve_segments m name (split SLASH name) [].

(** The loop of [_require_directory_parents] from [prefix] on. *)
Fixpoint parents_are_directories (m : t) (segments : list pystr) (prefix : pystr) : result unit :=
  match segments with
  | [] => Ok ()
  | segment :: segments =>
      let prefix := prefix ++ segment in
      if bool_decide (is_Some (m_files m !! prefix)) then refuse_not_a_directory
      else parents_are_directories m segments (prefix ++ [SLASH])
  end.

Definition require_directory_parents (m : t) (name : pystr) : result unit :=
  parents_are_directories m (removelast (split SLASH name)) [].

Definition buffer (m : t) (name : pystr) : result bytes :=
  _ ← require_open m;
  found ← resolve_identity m name;
  if negb found then refuse_missing_file else Ok (default [] (m_files m !! name)).

Definition reserve (m : t) (extra : Z) : result unit :=
  match m_capacity m with
  | None => Ok ()
  | Some capacity => if capacity <? used_bytes m + extra then raise GrafxDeviceFull "" else Ok ()
  end.

Definition whole_pages (m : t) (content : bytes) : result Z :=
  if negb (zlen content mod m_page_size m =? 0) then refuse_unaligned_file
  else Ok (zlen content / m_page_size m).

Definition page_offset (m : t) (page_index : Z) (content : bytes) : result Z :=
  count ← whole_pages m content;
  if negb ((0 <=? page_index) && (page_index <? count)) then refuse_page_not_allocated
  else Ok (page_index * m_page_size m).

(** The operations.  A query is a result of the state; a change returns the new state too. *)
Definition query {A} (f : t → result A) : M t A := λ m, (f m, m).
Definition change {A} (f : t → result (A * t)) : M t A := λ m,
  match f m with Ok (a, m') => (Ok a, m') | Err e => (Err e, m) end.

Definition exists_ (file : pystr) : M t bool := query (λ m,
  name ← normalize_logical_name file; _ ← require_open m; resolve_identity m name).

Definition create (file : pystr) (exclusive : bool) : M t () := change (λ m,
  name ← normalize_logical_name file;
  _ ← require_open m;
  found ← resolve_identity m name;
  if found : bool then if exclusive then refuse_operation "file_exists" else Ok ((), m)
  else
    _ ← require_directory_parents m name;
    _ ← require_not_a_directory m name;
    Ok ((), remember_directories (set_files (<[name := []]> (m_files m)) m) name)).

Definition remove (file : pystr) : M t () := change (λ m,
  name ← normalize_logical_name file;
  _ ← require_open m;
  found ← resolve_identity m name;
  if negb found then refuse_missing_file else Ok ((), set_files (delete name (m_files m)) m)).

Definition list_files (prefix : pystr) : M t (list pystr) := query (λ m,
  _ ← require_open m;
  Ok (merge_sort str_le (filter (λ name, starts_with prefix name = true) (fst <$> map_to_list (m_files m))))).

Definition file_size (file : pystr) : M t Z := query (λ m,
  name ← normalize_logical_name file; content ← buffer m name; Ok (zlen content)).

Definition atomic_replace (source target : pystr) : M t () := change (λ m,
  source_name ← normalize_logical_name source;
  target_name ← normalize_logical_name target;
  _ ← require_open m;
  if bool_decide (source_name = target_name) then refuse_operation "same_file"
  else
    found ← resolve_identity m source_name;
    if negb found then refuse_missing_file
    else
      _ ← resolve_identity m target_name;
      _ ← require_directory_parents m target_name;
      _ ← require_not_a_directory m target_name;
      let content := default [] (m_files m !! source_name) in
      Ok ((), remember_directories
                (set_files (<[target_name := content]> (delete source_name (m_files m))) m) target_name)).

Definition recycle (file : pystr) : M t bool := change (λ m,
  name ← normalize_logical_name file;
  _ ← require_open m;
  _ ← resolve_identity m name;
  Ok (true, set_files (delete name (m_files m)) m)).

Definition page_count (file : pystr) : M t Z := query (λ m,
  name ← normalize_logical_name file; content ← buffer m name; whole_pages m content).

Definition allocate (file : pystr) (count : Z) : M t Z := change (λ m,
  name ← normalize_logical_name file;
  count ← validate_allocation count;
  content ← buffer m name;
  first ← whole_pages m content;
  _ ← reserve m (count * m_page_size m);
  Ok (first, set_files (<[name := content ++ zeros (count * m_page_size m)]> (m_files m)) m)).

Definition read_page (file : pystr) (page_index : Z) : M t bytes := query (λ m,
  name ← normalize_logical_name file;
  content ← buffer m name;
  offset ← page_offset m page_index content;
  Ok (slice content offset (offset + m_page_size m))).

Definition write_page (file : pystr) (page_index : Z) (data : bytes) : M t () := change (λ m,
  name ← normalize_logical_name file;
  if negb (zlen data =? m_page_size m) then refuse_page_payload
  else
    content ← buffer m name;
    offset ← page_offset m page_index content;
    Ok ((), set_files (<[name := set_slice content offset (offset + m_page_size m) data]> (m_files m)) m)).

Definition append_log (file : pystr) (payload : bytes) : M t Z := change (λ m,
  name ← normalize_logical_name file;
  content ← buffer m name;
  if bool_decide (payload = []) then Ok (zlen content, m)
  else
    _ ← reserve m (zlen payload);
    Ok (zlen (content ++ payload), set_files (<[name := content ++ payload]> (m_files m)) m)).

Definition read_log (file : pystr) (offset length : Z) : M t bytes := query (λ m,
  name ← normalize_logical_name file;
  _ ← validate_read_range offset length;
  content ← buffer m name;
  if length =? 0 then Ok [] else Ok (slice content offset (offset + length))).

Definition log_size (file : pystr) : M t Z := query (λ m,
  name ← normalize_logical_name file; content ← buffer m name; Ok (zlen content)).

Definition truncate_log (file : pystr) (size : Z) : M t () := change (λ m,
  name ← normalize_logical_name file;
  if size <? 0 then refuse_operation "invalid_size"
  else
    content ← buffer m name;
    if zlen content <? size then refuse_operation "truncate_would_grow"
    else Ok ((), set_files (<[name := slice content 0 size]> (m_files m)) m)).

Definition durable_barrier (file : option pystr) : M t () := query (λ m,
  match
    _ ← require_open m;
    match file with
    | None => Ok ()
    | Some file =>
        name ← normalize_logical_name file;
        found ← resolve_identity m name;
        if negb found then refuse_missing_file else Ok ()
    end
  with
  | Ok u => Ok u
  | Err failure => Err (barrier_failure_from failure)
  end).

Definition close : M t () := modify (set_closed true).
Definition reopen : M t () := modify (set_closed false).

End Memory.

#[export] Instance memory_device : StorageDevice Memory.t := {|
  page_size := Memory.m_page_size;
  exists_ := Memory.exists_; create := Memory.create; remove := Memory.remove;
  list_files := Memory.list_files; file_size := Memory.file_size;
  atomic_replace := Memory.atomic_replace; recycle := Memory.recycle;
  page_count := Memory.page_count; allocate := Memory.allocate; read_page := Memory.read_page;
  write_page := Memory.write_page; append_log := Memory.append_log; read_log := Memory.read_log;
  log_size := Memory.log_size; truncate_log := Memory.truncate_log;
  durable_barrier := Memory.durable_barrier
|}.

(** ** Lemmas: strings *)

Lemma split_nonempty c s : split c s ≠ [].
Proof. destruct s as [|x s]; simpl; [done|]. destruct (x =? c); [done|]. by destruct (split c s). Qed.

Lemma join_split c s : join c (split c s) = s.
Proof.
  induction s as [|x s IH]; [done|]. simpl. pose proof (split_nonempty c s).
  destruct (Z.eqb_spec x c) as [->|].
  - destruct (split c s) as [|p ps] eqn:E; [done|]. rewrite <-IH. done.
  - destruct (split c s) as [|p [|q ps]] eqn:E; [done|..]; simpl in *; by rewrite <-IH.
Qed.

Lemma split_parts c s : Forall (λ p, c ∉ p) (split c s).
Proof.
  induction s as [|x s IH]; simpl; [repeat constructor; by intros ?%elem_of_nil|].
  destruct (Z.eqb_spec x c) as [->|Hx]; [constructor; [by intros ?%elem_of_nil|done]|].
  destruct (split c s) as [|p ps].
  - repeat constructor. intros [->|?%elem_of_nil]%elem_of_cons; done.
  - apply Forall_cons in IH as [Hp Hps]. constructor; [|done]. by intros [->|?]%elem_of_cons.
Qed.

Lemma split_nosep c p : c ∉ p → split c p = [p].
Proof.
  induction p as [|x p IH]; intros Hp; [done|]. apply not_elem_of_cons in Hp as [Hx Hp]. simpl.
  rewrite (proj2 (Z.eqb_neq x c)) by done. by rewrite IH.
Qed.

Lemma split_app c p s : c ∉ p → split c (p ++ c :: s) = p :: split c s.
Proof.
  induction p as [|x p IH]; intros Hp; simpl; [by rewrite Z.eqb_refl|].
  apply not_elem_of_cons in Hp as [Hx Hp]. rewrite (proj2 (Z.eqb_neq x c)) by done. by rewrite IH.
Qed.

Lemma split_join c ps : ps ≠ [] → Forall (λ p, c ∉ p) ps → split c (join c ps) = ps.
Proof.
  intros Hne H. induction H as [|p ps Hp Hps IH]; [done|]. destruct ps as [|q ps]; [by apply split_nosep|].
  change (join c (p :: q :: ps)) with (p ++ c :: join c (q :: ps)). rewrite split_app by done. by rewrite IH.
Qed.

Lemma traverse_err_or {A B} (f : A → result B) l ys : traverse f l = Ok ys → ∀ x, x ∈ l → ∃ y, f x = Ok y.
Proof.
  intros H%traverse_Ok x Hx. induction H as [|a b l ys Hab H IH]; [by apply elem_of_nil in Hx|].
  apply elem_of_cons in Hx as [->|Hx]; eauto.
Qed.

(** ** Lemmas: the device keeps the laws *)

Import Memory.

Lemma normalize_Ok file name : normalize_logical_name file = Ok name → name = file.
Proof. unfold normalize_logical_name. repeat (case_match; try done). intros H'. inv_ok H'. congruence. Qed.

Lemma elem_of_entries m prefix segment :
  segment ∈ entries_at m prefix ↔
  (∃ f, is_Some (m_files m !! f) ∧ next_segment prefix f = Some segment) ∨
  (∃ d, d ∈ m_directories m ∧ (length prefix < length d)%nat ∧ next_segment prefix d = Some segment).
Proof.
  unfold entries_at. rewrite merge_sort_Permutation, elem_of_remove_dups, elem_of_app, !list_elem_of_omap.
  f_equiv.
  - split.
    + intros (f & ([f' c] & -> & Hf%elem_of_map_to_list)%list_elem_of_fmap & Hn). exists f'. by rewrite Hf.
    + intros (f & [c Hf] & Hn). exists f. split; [|done]. apply list_elem_of_fmap. exists (f, c).
      by rewrite elem_of_map_to_list.
  - split.
    + intros (d & [Hl Hd]%list_elem_of_filter & Hn). exists d. by rewrite <-elem_of_elements.
    + intros (d & Hd & Hl & Hn). exists d. by rewrite list_elem_of_filter, elem_of_elements.
Qed.

Lemma next_segment_join prefix segment segments :
  SLASH ∉ segment → next_segment prefix (prefix ++ join SLASH (segment :: segments)) = Some segment.
Proof.
  intros Hs. unfold next_segment. rewrite starts_with_app, drop_app_length.
  destruct segments as [|q qs]; [by rewrite split_nosep|].
  change (join SLASH (segment :: q :: qs)) with (segment ++ SLASH :: join SLASH (q :: qs)). by rewrite split_app.
Qed.

Lemma resolve_segments_Ok m name segments prefix b :
  segments ≠ [] → Forall (λ p, SLASH ∉ p) segments → prefix ++ join SLASH segments = name →
  resolve_segments m name segments prefix = Ok b → b = bool_decide (is_Some (m_files m !! name)).
Proof.
  intros Hne Hf. revert prefix Hne. induction Hf as [|p ps Hp Hps IH]; intros prefix Hne Hn; [done|].
  cbn [resolve_segments]. destruct (bool_decide (p ∈ entries_at m prefix)) eqn:Hin.
  - destruct ps as [|q ps]; [by intros [= <-]|]. apply IH; [done|]. rewrite <-Hn.
    change (join SLASH (p :: q :: ps)) with (p ++ SLASH :: join SLASH (q :: ps)).
    by rewrite <-!app_assoc.
  - case_match; [done|]. intros [= <-]. symmetry. apply bool_decide_eq_false. intros Hsome.
    apply bool_decide_eq_false in Hin. apply Hin, elem_of_entries. left. exists name. split; [done|]. rewrite <-Hn. by apply next_segment_join.
Qed.

Lemma resolve_identity_Ok m name b :
  resolve_identity m name = Ok b → b = bool_decide (is_Some (m_files m !! name)).
Proof.
  apply resolve_segments_Ok; [apply split_nonempty|apply split_parts|]. cbn. apply join_split.
Qed.

Lemma buffer_Ok m name c : buffer m name = Ok c → m_files m !! name = Some c.
Proof.
  unfold buffer. intros H. inv_ok H. apply resolve_identity_Ok in E0 as ->.
  case_bool_decide as Hs; [|done]. destruct Hs as [c' Hc]. rewrite Hc in H |- *. by injection H as ->.
Qed.

Lemma whole_pages_Ok m c n : whole_pages m c = Ok n → n * m_page_size m = zlen c ∧ (0 < n → 0 < m_page_size m).
Proof.
  unfold whole_pages. destruct (Z.eqb_spec (zlen c mod m_page_size m) 0) as [Hm|]; [|done].
  intros [= <-]. pose proof (zlen_nonneg c). destruct (Z.eq_dec (m_page_size m) 0) as [Hz|Hz].
  - rewrite Hz in *. rewrite Z.mod_0_r in Hm. rewrite Z.div_0_r. lia.
  - pose proof (Z.div_mod (zlen c) (m_page_size m) Hz). split; nia.
Qed.

Lemma page_offset_Ok m i c o :
  page_offset m i c = Ok o → o = i * m_page_size m ∧ 0 <= i ∧ (i + 1) * m_page_size m <= zlen c.
Proof.
  unfold page_offset. intros H. inv_ok H. apply whole_pages_Ok in E as [Hl Hp].
  destruct (Z.leb_spec 0 i); [|done]. destruct (Z.ltb_spec i x); [|done].
  injection H as <-. split; [done|]. split; [done|]. nia.
Qed.

Ltac normalized :=
  repeat match goal with E : normalize_logical_name _ = Ok _ |- _ => apply normalize_Ok in E as -> end.

Lemma query_effect {A} (f : t → result A) (Q : t → A → t → Prop) (E : t → t → Prop) :
  (∀ m a, f m = Ok a → Q m a m) → (∀ m, E m m) → effect (query f) Q E.
Proof. intros HQ HE m. unfold query. cbn. split; [done|]. destruct (f m) eqn:Hf; auto. Qed.

Lemma change_effect {A} (f : t → result (A * t)) (Q : t → A → t → Prop) (E : t → t → Prop) :
  (∀ m a m', f m = Ok (a, m') → m_page_size m' = m_page_size m ∧ Q m a m') → (∀ m, E m m) →
  effect (change f) Q E.
Proof.
  intros HQ HE m. unfold change. destruct (f m) as [[a m']|e] eqn:Hf; cbn; [|by split].
  destruct (HQ m a m' Hf). done.
Qed.

(** Nothing survives a loss of power, so what may be found is what is there; a write is never
    torn. *)
#[export] Instance memory_laws : StorageLaws Memory.t.
Proof.
  refine {| files := m_files; recoverable := λ m f x, x = m_files m !! f; torn := λ _ _ _, False |}; cbn.
  - (* exists *) intros f. apply query_effect; [|done]. intros m b H. inv_ok H. normalized.
    split; [done|]. by apply resolve_identity_Ok.
  - (* file_size *) intros f. apply query_effect; [|done]. intros m n H. inv_ok H. normalized.
    injection H as <-. apply buffer_Ok in E0. by split; [|exists x0].
  - (* read_page *) intros f i. apply query_effect; [|done]. intros m page H. inv_ok H. normalized.
    apply page_offset_Ok in E1 as (-> & Hi & Hl). injection H as <-. apply buffer_Ok in E0. split; [done|].
    exists x0. split_and!; [done..|]. unfold page_slice. by rewrite Z.mul_add_distr_r, Z.mul_1_l.
  - (* read_log *) intros f o n. apply query_effect; [|done]. intros m data H. inv_ok H. normalized.
    apply buffer_Ok in E1. unfold validate_read_range in E0.
    destruct (Z.ltb_spec o 0), (Z.ltb_spec n 0); try done. split; [done|]. exists x1. split_and!; [done..|].
    destruct (Z.eqb_spec n 0) as [->|]; injection H as <-; [|done]. by rewrite slice_empty by lia.
  - (* create *) intros f e. apply change_effect; [|done]. intros m a m' H. inv_ok H. normalized.
    apply resolve_identity_Ok in E1 as ->. destruct (m_files m !! f) as [c|] eqn:Hc.
    + rewrite bool_decide_true in H by (by eexists). destruct e; [done|]. injection H as _ <-.
      split; [done|]. split; [by intros ??|]. split; [done|]. by rewrite Hc.
    + rewrite bool_decide_false in H by (by intros [? ?]). inv_ok H. injection H as _ <-. cbn.
      split; [done|]. split; [|by rewrite lookup_insert_eq]. intros g Hg. cbn. by rewrite !lookup_insert_ne by done.
  - (* remove *) intros f. apply change_effect; [|done]. intros m a m' H. inv_ok H. normalized.
    apply resolve_identity_Ok in E1 as ->. case_bool_decide as Hs; [|done]. injection H as _ <-. cbn.
    split; [done|]. split; [|split; [done|by rewrite lookup_delete_eq]].
    intros g Hg. cbn. by rewrite !lookup_delete_ne by done.
  - (* allocate *) intros f n. apply change_effect; [|done]. intros m a m' H. inv_ok H. normalized.
    unfold validate_allocation in E0. destruct (n <=? 0); [done|]. destruct (_ <? n); [done|]. injection E0 as <-.
    apply whole_pages_Ok in E2 as [Hw _]. apply buffer_Ok in E1. injection H as <- <-. cbn. split; [done|].
    split; [intros g Hg; cbn; by rewrite !lookup_insert_ne by done|]. exists x1.
    split_and!; [done..|by rewrite lookup_insert_eq].
  - (* write_page *) intros f i data. apply change_effect.
    + intros m a m' H. inv_ok H. normalized. destruct (Z.eqb_spec (zlen data) (m_page_size m)) as [Hz|]; [|done].
      cbn [negb] in H. inv_ok H. apply page_offset_Ok in E0 as (-> & Hi & Hl). apply buffer_Ok in E.
      injection H as _ <-. cbn. split; [done|].
      assert (i * m_page_size m + m_page_size m = (i + 1) * m_page_size m) as -> by lia.
      split_and!; [intros g Hg; cbn; by rewrite !lookup_insert_ne by done|done| |].
      * exists x. split_and!; [done..|by rewrite lookup_insert_eq].
      * intros y ->. right. exists x, data. rewrite lookup_insert_eq. by split_and!; [|done|left].
    + intros m. split_and!; [done|by left|by left].
  - (* atomic_replace *) intros a b. apply change_effect.
    + intros m u m' H. inv_ok H. normalized. case_bool_decide as Hne; [done|]. inv_ok H.
      apply resolve_identity_Ok in E as ->. case_bool_decide as Hs; [|done]. cbn [negb] in H. inv_ok H.
      injection H as _ <-. cbn. split; [done|]. split_and!; [done..|].
      intros g y ->. destruct (decide (g = b)) as [->|Hg].
      * rewrite lookup_insert_eq. right. left. split; [done|]. destruct Hs as [c ->]. done.
      * rewrite lookup_insert_ne by done. destruct (decide (g = a)) as [->|Hga].
        -- rewrite lookup_delete_eq. auto.
        -- rewrite lookup_delete_ne by done. by left.
    + intros m. split; [by left|by left].
  - (* durable_barrier *) intros f. apply query_effect; [|done]. intros m u H.
    destruct (require_open m); [|done]. cbn [mbind result_bind] in H.
    destruct (normalize_logical_name f) as [name|] eqn:En; [|done]. normalized. cbn [mbind result_bind] in H.
    destruct (resolve_identity m f) as [found|] eqn:Er; [|done]. cbn [mbind result_bind] in H.
    apply resolve_identity_Ok in Er as ->. case_bool_decide as Hs; [|done]. by split_and!; [|intros g x0 ->| |intros x0 ->].
Defined.

#[export] Instance memory_page_laws : PageLaws Memory.t.
Proof.
  constructor; cbn.
  - intros f. apply query_effect; [|done]. intros m n H. inv_ok H. normalized.
    apply buffer_Ok in E0. apply whole_pages_Ok in H as [Hn _]. split; [done|]. by exists x0.
  - intros f n. apply change_effect; [|by left]. intros m a m' H. inv_ok H. by injection H as _ <-.
  - intros f e. apply change_effect; [|by left]. intros m a m' H. inv_ok H.
    destruct (x1 : bool); [destruct e; [done|]; by injection H as _ <-|]. inv_ok H. by injection H as _ <-.
Qed.

#[export] Instance memory_log_laws : LogLaws Memory.t.
Proof.
  constructor; cbn.
  - (* list_files *) intros p. apply query_effect; [|done]. intros m names H. inv_ok H. injection H as <-.
    split; [done|]. rewrite merge_sort_Permutation. split.
    + apply NoDup_filter. apply NoDup_fst_map_to_list.
    + intros f. rewrite merge_sort_Permutation, list_elem_of_filter, list_elem_of_fmap. split.
      * intros [Hp ([g c] & -> & Hg%elem_of_map_to_list)]. split; [by exists c|done].
      * intros [[c Hc] Hp]. split; [done|]. exists (f, c). split; [done|]. by apply elem_of_map_to_list.
  - (* log_size *) intros f. apply query_effect; [|done]. intros m n H. inv_ok H. normalized.
    injection H as <-. apply buffer_Ok in E0. by split; [|exists x0].
  - (* append_log *) intros f data. apply change_effect; [|intros m; split_and!; [done|by left|by left]].
    intros m n m' H. inv_ok H. normalized. apply buffer_Ok in E0. split.
    { case_bool_decide; inv_ok H; by injection H as <- <-. }
    case_bool_decide as Hd; [injection H as <- <-|inv_ok H; injection H as <- <-].
    + split_and!; [done| |by left]. exists x0. subst data. rewrite app_nil_r.
      by split_and!; [|change (zlen (@nil byte)) with 0; lia|].
    + cbn. split_and!; [intros g Hg; cbn; by rewrite !lookup_insert_ne by done| |].
      * exists x0. rewrite zlen_app, lookup_insert_eq. done.
      * intros y ->. right. exists x0, data. by rewrite lookup_insert_eq.
  - (* truncate_log *) intros f n. apply change_effect; [|intros m; split; [done|by left]].
    intros m u m' H. inv_ok H. normalized. destruct (Z.ltb_spec n 0); [done|]. inv_ok H. apply buffer_Ok in E.
    destruct (Z.ltb_spec (zlen x) n); [done|]. injection H as <- <-. cbn. split; [done|].
    split; [intros g Hg; cbn; by rewrite !lookup_insert_ne by done|]. exists x. rewrite lookup_insert_eq.
    split_and!; [done|lia|lia|done].
  - (* recycle *) intros f. apply change_effect; [|intros m; split; [done|by right]].
    intros m b m' H. inv_ok H. normalized. injection H as <- <-. cbn. split; [done|].
    split; [intros g Hg; cbn; by rewrite !lookup_delete_ne by done|]. left. by rewrite lookup_delete_eq.
Qed.

(** The read of a file that is there is never answered with a corruption. *)
Lemma errs_in_refuse {A} (reason : string) : errs_in (λ c, c = GrafxUnsupportedOperation) (@refuse_operation A reason).
Proof. by intros e [= <-]. Qed.

Lemma normalize_errors f : errs_in (λ c, c = GrafxUnsupportedOperation) (normalize_logical_name f).
Proof.
  unfold normalize_logical_name. repeat (case_match; [apply errs_in_refuse|]). apply errs_in_bind; [|intros; apply errs_in_Ok].
  apply errs_in_traverse. intros x. unfold validate_segment. repeat (case_match; [apply errs_in_refuse|]). apply errs_in_Ok.
Qed.

Lemma resolve_errors m name segments prefix : errs_in (λ c, c = GrafxUnsupportedOperation) (resolve_segments m name segments prefix).
Proof.
  revert prefix. induction segments as [|s segments IH]; intros prefix; cbn [resolve_segments]; [apply errs_in_Ok|].
  case_match; [apply IH|]. case_match; [apply errs_in_refuse|apply errs_in_Ok].
Qed.

Lemma read_log_stored (m m' : t) f o n e : is_Some (m_files m !! f) → read_log f o n m = (Err e, m') → err_class e = GrafxUnsupportedOperation.
Proof.
  intros Hs. unfold read_log, query. intros [= H _]. revert e H. change (errs_in (λ c, c = GrafxUnsupportedOperation)
    (name ← normalize_logical_name f; _ ← validate_read_range o n; content ← buffer m name;
     if n =? 0 then Ok [] else Ok (slice content o (o + n)))).
  apply errs_in_bind; [apply normalize_errors|]. intros name ->%normalize_Ok.
  apply errs_in_bind; [unfold validate_read_range; case_match; [apply errs_in_refuse|apply errs_in_Ok]|]. intros _ _.
  apply errs_in_bind; [|intros; case_match; apply errs_in_Ok]. unfold buffer.
  apply errs_in_bind; [unfold require_open; case_match; [apply errs_in_refuse|apply errs_in_Ok]|]. intros _ _.
  apply errs_in_bind; [apply resolve_errors|]. intros found ->%resolve_identity_Ok. rewrite bool_decide_eq_true_2 by done. apply errs_in_Ok.
Qed.

(** ** Lemmas: the namespace *)

Lemma lower_slash x : lower_char x = SLASH ↔ x = SLASH.
Proof. unfold lower_char, SLASH. destruct ((65 <=? x) && (x <=? 90)) eqn:E; lia. Qed.

Lemma split_lower s : split SLASH (lower s) = lower <$> split SLASH s.
Proof.
  induction s as [|x s IH]; [done|]. change (lower (x :: s)) with (lower_char x :: lower s).
  cbn [split]. destruct (Z.eqb_spec x SLASH) as [->|Hx].
  - change (lower_char SLASH =? SLASH) with true. cbn iota. by rewrite IH.
  - rewrite (proj2 (Z.eqb_neq _ _)) by (by rewrite lower_slash). rewrite IH. by destruct (split SLASH s).
Qed.

Lemma lower_split p q : lower p = lower q ↔ lower <$> split SLASH p = lower <$> split SLASH q.
Proof.
  split; intros H.
  - by rewrite <-!split_lower, H.
  - rewrite <-!split_lower in H. rewrite <-(join_split SLASH (lower p)), H. apply join_split.
Qed.

(** The string of a path's first segments, each followed by a slash. *)
Definition prefix_string (segments : list pystr) : pystr := concat ((λ p, p ++ [SLASH]) <$> segments).

Lemma prefix_string_snoc ps p : prefix_string (ps ++ [p]) = prefix_string ps ++ p ++ [SLASH].
Proof. unfold prefix_string. rewrite fmap_app, concat_app. cbn. by rewrite app_nil_r. Qed.

Lemma split_prefix_string ps s :
  Forall (λ p, SLASH ∉ p) ps → split SLASH (prefix_string ps ++ s) = ps ++ split SLASH s.
Proof.
  induction 1 as [|p ps Hp _ IH]; [done|].
  change (prefix_string (p :: ps)) with ((p ++ [SLASH]) ++ prefix_string ps).
  rewrite <-!app_assoc. cbn [app]. by rewrite split_app, IH.
Qed.

Lemma prefix_string_join ps qs : qs ≠ [] → prefix_string ps ++ join SLASH qs = join SLASH (ps ++ qs).
Proof.
  intros Hq. induction ps as [|p ps IH]; [done|].
  change (prefix_string (p :: ps)) with ((p ++ [SLASH]) ++ prefix_string ps).
  rewrite <-!app_assoc, IH. cbn. destruct (ps ++ qs) eqn:E; [|done].
  by apply app_eq_nil in E as [_ ->].
Qed.

Definition path (m : t) (p : pystr) : Prop := is_Some (m_files m !! p) ∨ p ∈ m_directories m.
Definition ancestor (segments : list pystr) (k : nat) : pystr := join SLASH (take k segments).

(** The invariant: names differ by more than case, a file is not a directory, and the proper
    ancestors of every name are directories. *)
Record namespace_ok (m : t) : Prop := {
  case_unique p q : path m p → path m q → lower p = lower q → p = q;
  kinds_disjoint f : is_Some (m_files m !! f) → f ∉ m_directories m;
  ancestors_kept p k : path m p → (0 < k < length (split SLASH p))%nat →
    ancestor (split SLASH p) k ∈ m_directories m;
  segments_nonempty p : path m p → Forall (λ q, q ≠ []) (split SLASH p)
}.

Lemma split_ancestor p k : (0 < k)%nat → split SLASH (ancestor (split SLASH p) k) = take k (split SLASH p).
Proof.
  intros Hk. apply split_join.
  - pose proof (split_nonempty SLASH p). destruct (split SLASH p), k; [done|done|lia|done].
  - apply Forall_take, split_parts.
Qed.

Lemma ancestor_path m p k :
  namespace_ok m → path m p → (0 < k <= length (split SLASH p))%nat → path m (ancestor (split SLASH p) k).
Proof.
  intros Hm Hp Hk. destruct (decide (k = length (split SLASH p))) as [->|].
  - unfold ancestor. by rewrite take_ge, join_split by lia.
  - right. apply (ancestors_kept m Hm); [done|lia].
Qed.

(** What follows a prefix are the next segments of the stored paths. *)
Lemma entries_paths m ps q :
  namespace_ok m → Forall (λ p, SLASH ∉ p) ps →
  q ∈ entries_at m (prefix_string ps) ↔ ∃ p rest, path m p ∧ split SLASH p = ps ++ q :: rest.
Proof.
  intros Hm Hps.
  assert (∀ p, next_segment (prefix_string ps) p = Some q ↔ ∃ rest, split SLASH p = ps ++ q :: rest) as Hnext.
  { intros p. unfold next_segment. split.
    - destruct (starts_with _ _) eqn:E; [|done]. apply starts_with_inv in E as [r ->].
      rewrite drop_app_length, split_prefix_string by done. pose proof (split_nonempty SLASH r).
      destruct (split SLASH r) as [|x xs]; [done|]. intros [= ->]. by eexists.
    - intros [rest Hr].
      assert (p = prefix_string ps ++ join SLASH (q :: rest)) as ->
        by (by rewrite prefix_string_join, <-Hr, join_split).
      rewrite starts_with_app, drop_app_length.
      assert (split SLASH (join SLASH (q :: rest)) = q :: rest) as ->; [|done].
      rewrite split_prefix_string in Hr by done. by apply app_inv_head in Hr. }
  rewrite elem_of_entries. setoid_rewrite Hnext. split.
  - intros [(f & Hf & rest & Hr)|(d & Hd & _ & rest & Hr)]; [exists f|exists d]; exists rest; (split; [|done]); [by left|by right].
  - intros (p & rest & [Hf|Hd] & Hr); [left; eauto|right]. exists p. split_and!; [done| |eauto].
    assert (p = prefix_string ps ++ join SLASH (q :: rest)) as ->
      by (by rewrite prefix_string_join, <-Hr, join_split).
    pose proof (segments_nonempty m Hm _ (or_intror Hd)) as Hne. rewrite Hr in Hne.
    apply Forall_app in Hne as [_ [Hq _]%Forall_cons].
    rewrite length_app. destruct rest; destruct q; try done; cbn; lia.
Qed.

Lemma split_join_snoc ps q :
  Forall (λ p, SLASH ∉ p) ps → SLASH ∉ q → split SLASH (join SLASH (ps ++ [q])) = ps ++ [q].
Proof.
  intros Hps Hq. apply split_join; [by destruct ps|]. apply Forall_app. split; [done|]. by repeat constructor.
Qed.

Lemma entry_path m ps q :
  namespace_ok m → Forall (λ p, SLASH ∉ p) ps → q ∈ entries_at m (prefix_string ps) →
  (SLASH ∉ q) ∧ path m (join SLASH (ps ++ [q])).
Proof.
  intros Hm Hps (p & rest & Hp & Hr)%entries_paths; [|done..]. split.
  { pose proof (split_parts SLASH p) as Hf. rewrite Hr in Hf. by apply Forall_app in Hf as [_ [? _]%Forall_cons]. }
  replace (join SLASH (ps ++ [q])) with (ancestor (split SLASH p) (S (length ps))).
  - apply ancestor_path; [done..|]. rewrite Hr, length_app. cbn. lia.
  - unfold ancestor. rewrite Hr, cons_middle, app_assoc. by rewrite take_app_length' by (rewrite length_app; cbn; lia).
Qed.

(** Two directories whose segments differ only by case are one. *)
Lemma same_ancestor m p ps1 rest ps :
  namespace_ok m → path m p → split SLASH p = ps1 ++ rest → Forall (λ p, SLASH ∉ p) ps →
  (ps ≠ [] → path m (join SLASH ps)) → lower <$> ps1 = lower <$> ps → ps1 = ps.
Proof.
  intros Hm Hp Hsp Hps Hpath Hlow. destruct (decide (ps = [])) as [->|Hne]; [by destruct ps1|].
  assert (ps1 ≠ []) as Hne1 by (intros ->; by destruct ps).
  assert (split SLASH (join SLASH ps) = ps) as Hs0 by (by apply split_join).
  assert (split SLASH (join SLASH ps1) = ps1) as Hs1.
  { apply split_join; [done|]. pose proof (split_parts SLASH p) as Hf. rewrite Hsp in Hf.
    by apply Forall_app in Hf as [? _]. }
  rewrite <-Hs0, <-Hs1. f_equal. apply (case_unique m Hm); [|by apply Hpath|].
  - replace (join SLASH ps1) with (ancestor (split SLASH p) (length ps1)).
    + apply ancestor_path; [done..|]. rewrite Hsp, length_app. destruct ps1; [done|cbn; lia].
    + unfold ancestor. by rewrite Hsp, take_app_length.
  - apply lower_split. by rewrite Hs0, Hs1.
Qed.

(** An entry that differs from the segment asked for at most by case is that segment, unless the
    name is refused. *)
Lemma same_entry m ps q q1 :
  namespace_ok m → Forall (λ p, SLASH ∉ p) ps → SLASH ∉ q → q1 ∈ entries_at m (prefix_string ps) →
  lower q1 = lower q →
  q ∈ entries_at m (prefix_string ps) ∨ find_case_conflict q (entries_at m (prefix_string ps)) = None →
  q1 = q.
Proof.
  intros Hm Hps Hq Hin1 Hlow [Hin|Hconf].
  - apply entry_path in Hin1 as [Hs1 Hp1], Hin as [_ Hp]; [|done..].
    assert (ps ++ [q1] = ps ++ [q]) as Heq; [|by apply app_inv_head in Heq as [= ->]].
    rewrite <-(split_join_snoc ps q1), <-(split_join_snoc ps q) by done. f_equal.
    apply (case_unique m Hm); [done..|]. apply lower_split. rewrite !split_join_snoc by done.
    rewrite !fmap_app. cbn. by rewrite Hlow.
  - apply head_None in Hconf. destruct (decide (q1 = q)) as [|Hne]; [done|].
    assert (q1 ∈ filter (λ c, c ≠ q ∧ lower c = lower q) (entries_at m (prefix_string ps))) as Hx
      by (by apply list_elem_of_filter).
    rewrite Hconf in Hx. by apply elem_of_nil in Hx.
Qed.

(** A name that resolves differs from every stored path by more than case, at every ancestor. *)
Lemma resolve_segments_case m name segments ps b p k :
  namespace_ok m → Forall (λ p, SLASH ∉ p) (ps ++ segments) →
  (ps ≠ [] → path m (join SLASH ps)) →
  resolve_segments m name segments (prefix_string ps) = Ok b →
  path m p → (0 < k <= length segments)%nat →
  lower <$> split SLASH p = lower <$> (ps ++ take k segments) → split SLASH p = ps ++ take k segments.
Proof.
  intros Hm. revert ps k. induction segments as [|q qs IH]; intros ps k Hns Hpath Hres Hp Hk Hlow; [cbn in Hk; lia|].
  cbn [resolve_segments] in Hres. destruct k as [|k]; [lia|]. cbn [take] in *.
  assert (Forall (λ p, SLASH ∉ p) ps) as Hps by (by apply Forall_app in Hns as [? _]).
  (* split the stored path where the new one stands *)
  rewrite fmap_app, fmap_cons in Hlow. symmetry in Hlow. pose proof Hlow as Hlow'.
  symmetry in Hlow'. apply fmap_app_inv in Hlow' as (ps1 & r1 & Hps1 & Hr1 & Hsp).
  symmetry in Hr1. apply fmap_cons_inv in Hr1 as (q1 & r2 & Hq1 & Hr2 & ->).
  apply Forall_app in Hns as Hns'. destruct Hns' as [_ [Hq _]%Forall_cons].
  assert (ps1 = ps) as -> by (by apply (same_ancestor m p ps1 (q1 :: r2))).
  assert (q1 ∈ entries_at m (prefix_string ps)) as Hin1 by (apply entries_paths; [done..|by exists p, r2]).
  assert (q1 = q) as ->.
  { apply (same_entry m ps); [done..|]. destruct (bool_decide (q ∈ _)) eqn:Hin.
    - left. by apply bool_decide_eq_true in Hin.
    - right. by destruct (find_case_conflict q _). }
  rewrite bool_decide_true in Hres by done.
  destruct (decide (k = 0%nat)) as [->|Hk0].
  { rewrite take_0 in *. by destruct r2. }
  replace (ps ++ q :: take k qs) with ((ps ++ [q]) ++ take k qs) by (by rewrite <-app_assoc).
  apply IH; [by rewrite <-app_assoc| | |done|cbn in Hk; lia|].
  - intros _. by apply entry_path.
  - by rewrite prefix_string_snoc.
  - rewrite Hsp, <-app_assoc, !fmap_app, !fmap_cons. cbn. by rewrite Hr2.
Qed.

Lemma parents_Ok m segments ps u k :
  parents_are_directories m segments (prefix_string ps) = Ok u → (0 < k <= length segments)%nat →
  m_files m !! join SLASH (ps ++ take k segments) = None.
Proof.
  revert ps k. induction segments as [|q qs IH]; intros ps k H Hk; [cbn in Hk; lia|].
  cbn [parents_are_directories] in H. destruct k as [|k]; [lia|]. cbn [take].
  destruct (bool_decide (is_Some (m_files m !! (prefix_string ps ++ q)))) eqn:Hs; [done|].
  destruct k as [|k].
  - rewrite take_0. rewrite <-prefix_string_join by done. cbn [join].
    apply bool_decide_eq_false in Hs. by apply eq_None_not_Some.
  - replace (ps ++ q :: take (S k) qs) with ((ps ++ [q]) ++ take (S k) qs) by (by rewrite <-app_assoc).
    apply IH; [by rewrite prefix_string_snoc, app_assoc|cbn in Hk; lia].
Qed.

Lemma take_removelast {A} (l : list A) k : (k < length l)%nat → take k (removelast l) = take k l.
Proof. intros. rewrite removelast_firstn_len, take_take. f_equal. lia. Qed.

Lemma length_removelast {A} (l : list A) : length (removelast l) = pred (length l).
Proof. rewrite removelast_firstn_len, length_take. lia. Qed.

Lemma elem_of_remembered m name d :
  d ∈ m_directories (remember_directories m name) ↔
  d ∈ m_directories m ∨ ∃ k, (0 < k < length (split SLASH name))%nat ∧ d = ancestor (split SLASH name) k.
Proof.
  unfold remember_directories. cbn. rewrite elem_of_union, elem_of_list_to_set, list_elem_of_fmap.
  rewrite length_removelast. f_equiv. split.
  - intros (k & -> & Hk%elem_of_seq). exists k. unfold ancestor. rewrite take_removelast by lia. split; [lia|done].
  - intros (k & Hk & ->). exists k. unfold ancestor. rewrite take_removelast by lia. split; [done|]. apply elem_of_seq. lia.
Qed.

Lemma ancestor_take p k j : (0 < k)%nat → (j <= k)%nat →
  ancestor (split SLASH (ancestor (split SLASH p) k)) j = ancestor (split SLASH p) j.
Proof. intros Hk Hj. rewrite split_ancestor by done. unfold ancestor. rewrite take_take. f_equal. f_equal. lia. Qed.

(** Adding a name that resolved, under parents that are no files. *)
Lemma remember_ok m m0 name b u :
  namespace_ok m → resolve_identity m name = Ok b → require_directory_parents m name = Ok u →
  name ∉ m_directories m → Forall (λ q, q ≠ []) (split SLASH name) →
  m_directories m0 = m_directories m →
  (∀ f, is_Some (m_files m0 !! f) → is_Some (m_files m !! f) ∨ f = name) →
  namespace_ok (remember_directories m0 name).
Proof.
  intros Hm Hres Hpar Hdir Hne Hd0 Hf0. set (segs := split SLASH name) in *.
  assert (0 < length segs)%nat as Hlen by (pose proof (split_nonempty SLASH name); unfold segs; destruct (split SLASH name); cbn; [done|lia]).
  assert (name = ancestor segs (length segs)) as Hname by (unfold ancestor, segs; by rewrite take_ge, join_split).
  assert (∀ p, path (remember_directories m0 name) p →
            path m p ∨ ∃ k, (0 < k <= length segs)%nat ∧ p = ancestor segs k) as Hcases.
  { intros p [Hp|Hp].
    - apply Hf0 in Hp as [Hp|Hp]; [by left; left|right]. exists (length segs). split; [lia|congruence].
    - apply elem_of_remembered in Hp as [Hp|(k & Hk & ->)]; [left; right; by rewrite <-Hd0|right].
      exists k. split; [unfold segs; lia|done]. }
  assert (∀ k, (0 < k)%nat → split SLASH (ancestor segs k) = take k segs) as Hsplit
    by (intros; by apply split_ancestor).
  assert (∀ p k, path m p → (0 < k <= length segs)%nat → lower p = lower (ancestor segs k) → p = ancestor segs k) as Hfresh.
  { intros p k Hp Hk Hlow. apply lower_split in Hlow. rewrite Hsplit in Hlow by lia.
    rewrite <-(join_split SLASH p). unfold ancestor. f_equal.
    apply (resolve_segments_case m name segs [] b p k); try done. apply split_parts. }
  split.
  - intros p q [Hp|(k & Hk & ->)]%Hcases [Hq|(j & Hj & ->)]%Hcases Hlow.
    + by apply (case_unique m Hm).
    + by apply Hfresh.
    + symmetry. by apply Hfresh.
    + assert (k = j) as ->; [|done]. apply lower_split in Hlow. rewrite !Hsplit in Hlow by lia.
      apply (f_equal length) in Hlow. rewrite !length_fmap, !length_take in Hlow. lia.
  - intros f Hf [Hd|(k & Hk & ->)]%elem_of_remembered.
    + rewrite Hd0 in Hd. apply Hf0 in Hf as [Hf| ->]; [by apply (kinds_disjoint m Hm f)|done].
    + apply Hf0 in Hf as [Hf|Hf].
      * apply (parents_Ok m _ [] _ k) in Hpar; [|rewrite length_removelast; unfold segs in *; lia].
        cbn [app] in Hpar. rewrite take_removelast in Hpar by lia. change (join SLASH (take k (split SLASH name))) with (ancestor segs k) in Hpar.
        change (ancestor (split SLASH name) k) with (ancestor segs k) in Hf. rewrite Hpar in Hf. by destruct Hf.
      * apply (f_equal (split SLASH)) in Hf. change (split SLASH name) with segs in Hf. rewrite Hsplit in Hf by lia.
        apply (f_equal length) in Hf. rewrite length_take in Hf. unfold segs in *. lia.
  - intros p k [Hp|(j & Hj & ->)]%Hcases Hk; apply elem_of_remembered.
    + left. rewrite Hd0. by apply (ancestors_kept m Hm).
    + right. exists k. rewrite Hsplit in Hk by lia. rewrite length_take in Hk. split; [unfold segs in *; lia|].
      apply ancestor_take; lia.
  - intros p [Hp|(j & Hj & ->)]%Hcases; [by apply (segments_nonempty m Hm)|].
    rewrite Hsplit by lia. by apply Forall_take.
Qed.

Lemma normalize_segments file name :
  normalize_logical_name file = Ok name → Forall (λ q, q ≠ []) (split SLASH file).
Proof.
  unfold normalize_logical_name. repeat (case_match; try done). intros Hn. inv_ok Hn.
  apply Forall_forall. intros q Hq ->. eapply traverse_err_or in E as [y Hy]; [|exact Hq]. done.
Qed.

(** Fewer files, the same directories. *)
Lemma namespace_shrink m m' :
  namespace_ok m → m_directories m' = m_directories m →
  (∀ f, is_Some (m_files m' !! f) → is_Some (m_files m !! f)) → namespace_ok m'.
Proof.
  intros Hm Hd Hf.
  assert (∀ p, path m' p → path m p) as Hp by (intros p [?|?]; [left; auto|right; by rewrite <-Hd]).
  split.
  - intros p q ?%Hp ?%Hp. by apply (case_unique m Hm).
  - intros f ?%Hf. rewrite Hd. by apply (kinds_disjoint m Hm).
  - intros p k ?%Hp. rewrite Hd. by apply (ancestors_kept m Hm).
  - intros p ?%Hp. by apply (segments_nonempty m Hm).
Qed.

(** ** Histories of a device *)

Inductive op :=
  | Create (f : pystr) (exclusive : bool) | Remove (f : pystr) | Replace (a b : pystr) | Recycle (f : pystr)
  | Allocate (f : pystr) (count : Z) | WritePage (f : pystr) (i : Z) (data : bytes)
  | AppendLog (f : pystr) (data : bytes) | TruncateLog (f : pystr) (size : Z) | Close | Reopen.

(** The device after an operation, served or refused. *)
Definition step (m : t) (o : op) : t :=
  match o with
  | Create f e => (create f e m).2
  | Remove f => (remove f m).2
  | Replace a b => (atomic_replace a b m).2
  | Recycle f => (recycle f m).2
  | Allocate f n => (allocate f n m).2
  | WritePage f i data => (write_page f i data m).2
  | AppendLog f data => (append_log f data m).2
  | TruncateLog f n => (truncate_log f n m).2
  | Close => (close m).2
  | Reopen => (reopen m).2
  end.

Lemma change_invariant {A} (P : t → Prop) (f : t → result (A * t)) m :
  P m → (∀ a m', f m = Ok (a, m') → P m') → P (change f m).2.
Proof. intros Hm Hf. unfold change. destruct (f m) as [[a m']|e] eqn:E; cbn; eauto. Qed.

(** Overwriting a stored file changes no name. *)
Lemma namespace_overwrite m f c c' :
  namespace_ok m → m_files m !! f = Some c → namespace_ok (set_files (<[f := c']> (m_files m)) m).
Proof.
  intros Hm Hf. apply (namespace_shrink m); [done..|]. cbn. intros g.
  destruct (decide (g = f)) as [->|]; [by rewrite Hf|by rewrite lookup_insert_ne].
Qed.

Lemma namespace_delete m f : namespace_ok m → namespace_ok (set_files (delete f (m_files m)) m).
Proof.
  intros Hm. apply (namespace_shrink m); [done..|]. cbn. intros g.
  destruct (decide (g = f)) as [->|]; [by rewrite lookup_delete_eq; intros []|by rewrite lookup_delete_ne].
Qed.

Lemma directory_checked m name u : require_not_a_directory m name = Ok u → name ∉ m_directories m.
Proof. unfold require_not_a_directory. by case_bool_decide. Qed.

Lemma step_namespace m o : namespace_ok m → namespace_ok (step m o).
Proof.
  intros Hm. destruct o as [f e|f|a b|f|f n|f i data|f data|f n| |]; cbn [step];
    [..|by apply (namespace_shrink m)|by apply (namespace_shrink m)];
    apply (change_invariant namespace_ok); try done; intros u m' H; inv_ok H;
    repeat match goal with En : normalize_logical_name _ = Ok _ |- _ =>
      pose proof (normalize_segments _ _ En); apply normalize_Ok in En as -> end.
  - destruct x1; [destruct e; [done|]; by injection H as _ <-|]. inv_ok H. injection H as _ <-.
    eapply (remember_ok m _ f); [done|eassumption|eassumption|by eapply directory_checked|done|done|].
    cbn. intros g. destruct (decide (g = f)) as [->|]; [by right|by rewrite lookup_insert_ne; [left|]].
  - destruct x1; [|done]. injection H as _ <-. by apply namespace_delete.
  - case_bool_decide; [done|]. inv_ok H. destruct x; [|done]. cbn [negb] in H. inv_ok H. injection H as _ <-.
    eapply (remember_ok m _ b); [done|eassumption|eassumption|by eapply directory_checked|done|done|].
    cbn. intros g. destruct (decide (g = b)) as [->|]; [by right|]. rewrite lookup_insert_ne by done.
    destruct (decide (g = a)) as [->|]; [rewrite lookup_delete_eq; by intros []|].
    rewrite lookup_delete_ne by done. by left.
  - injection H as _ <-. by apply namespace_delete.
  - injection H as _ <-. apply buffer_Ok in E1. by eapply namespace_overwrite.
  - destruct (negb _); [done|]. inv_ok H. injection H as _ <-. apply buffer_Ok in E. by eapply namespace_overwrite.
  - case_bool_decide; [by injection H as _ <-|]. inv_ok H. injection H as _ <-. apply buffer_Ok in E0.
    by eapply namespace_overwrite.
  - destruct (n <? 0); [done|]. inv_ok H. destruct (zlen _ <? n); [done|]. injection H as _ <-.
    apply buffer_Ok in E. by eapply namespace_overwrite.
Qed.

(** *** Capacity *)

Lemma used_insert fs f c : fs !! f = None → used (<[f := c]> fs) = zlen c + used fs.
Proof. intros H. unfold used. rewrite map_fold_insert_L; [done| |done]. intros. lia. Qed.

Lemma used_delete fs f c : fs !! f = Some c → used fs = zlen c + used (delete f fs).
Proof.
  intros H. rewrite <-(insert_delete_id fs f c H) at 1. apply used_insert. by rewrite lookup_delete_eq.
Qed.

Lemma used_overwrite fs f c c' : fs !! f = Some c → used (<[f := c']> fs) = used fs - zlen c + zlen c'.
Proof.
  intros H. rewrite <-insert_delete_eq, used_insert by (by rewrite lookup_delete_eq).
  rewrite (used_delete fs f c H). lia.
Qed.

Lemma used_delete_le fs f : used (delete f fs) <= used fs.
Proof.
  destruct (fs !! f) as [c|] eqn:E; [|by rewrite delete_id].
  rewrite (used_delete fs f c E). pose proof (zlen_nonneg c). lia.
Qed.

(** Replacing what [f] holds, if anything, by [c]. *)
Lemma used_insert_le fs f c : used (<[f := c]> fs) <= zlen c + used fs.
Proof.
  destruct (fs !! f) as [c'|] eqn:E; [|by rewrite used_insert].
  rewrite (used_overwrite fs f c' c E). pose proof (zlen_nonneg c'). lia.
Qed.

Record within_capacity (m : t) : Prop := {
  page_size_positive : 0 < m_page_size m;
  capacity_kept : match m_capacity m with Some capacity => used_bytes m <= capacity | None => True end
}.

(** A change that reserved what it adds, or that adds nothing. *)
Lemma within_reserved m m' extra u :
  within_capacity m → m_page_size m' = m_page_size m → m_capacity m' = m_capacity m →
  reserve m extra = Ok u → used_bytes m' <= used_bytes m + extra → within_capacity m'.
Proof.
  unfold reserve. intros [Hp _] Hps Hc Hr Hu. split; [by rewrite Hps|]. rewrite Hc.
  destruct (m_capacity m) as [c|]; [|done]. destruct (Z.ltb_spec c (used_bytes m + extra)); [done|]. lia.
Qed.

Lemma within_fewer m m' :
  within_capacity m → m_page_size m' = m_page_size m → m_capacity m' = m_capacity m →
  used_bytes m' <= used_bytes m → within_capacity m'.
Proof.
  intros [Hp Hm] Hps Hc Hu. split; [by rewrite Hps|]. rewrite Hc. destruct (m_capacity m); [lia|done].
Qed.

Lemma used_overwrite_le m f c c' n :
  m_files m !! f = Some c → zlen c' <= zlen c + n → used (<[f := c']> (m_files m)) <= used_bytes m + n.
Proof. intros Hf Hn. unfold used_bytes. rewrite (used_overwrite _ _ _ c' Hf). lia. Qed.

Lemma step_capacity m o : within_capacity m → within_capacity (step m o).
Proof.
  intros Hm. destruct o as [f e|f|a b|f|f n|f i data|f data|f n| |]; cbn [step];
    [..|by apply (within_fewer m)|by apply (within_fewer m)];
    apply (change_invariant within_capacity); try done; intros u m' H; inv_ok H; normalized.
  - destruct x1; [destruct e; [done|]; by injection H as _ <-|]. inv_ok H. injection H as _ <-.
    apply (within_fewer m); [done..|]. apply resolve_identity_Ok in E1. symmetry in E1.
    apply bool_decide_eq_false in E1. unfold used_bytes. cbn.
    rewrite used_insert by (by apply eq_None_not_Some). rewrite zlen_nil. lia.
  - destruct x1; [|done]. injection H as _ <-. apply (within_fewer m); [done..|]. apply used_delete_le.
  - case_bool_decide; [done|]. inv_ok H. destruct x; [|done]. cbn [negb] in H. inv_ok H. injection H as _ <-.
    apply (within_fewer m); [done..|]. apply resolve_identity_Ok in E. symmetry in E.
    apply bool_decide_eq_true in E as [c Hc]. unfold used_bytes. cbn.
    etransitivity; [apply used_insert_le|]. rewrite Hc. cbn. rewrite (used_delete _ a c Hc). lia.
  - injection H as _ <-. apply (within_fewer m); [done..|]. apply used_delete_le.
  - injection H as _ <-. apply buffer_Ok in E1. eapply (within_reserved m); [done..|eassumption|].
    unfold validate_allocation in E0. destruct (Z.leb_spec n 0); [done|]. destruct (_ <? n); [done|].
    injection E0 as <-. apply (used_overwrite_le m _ _ _ _ E1). rewrite zlen_app, zlen_zeros; [lia|].
    destruct Hm. nia.
  - destruct (Z.eqb_spec (zlen data) (m_page_size m)) as [Hz|]; [|done]. cbn [negb] in H. inv_ok H.
    injection H as _ <-. apply buffer_Ok in E. apply page_offset_Ok in E0 as (-> & Hi & Hl).
    apply (within_fewer m); [done..|]. rewrite <-(Z.add_0_r (used_bytes m)).
    apply (used_overwrite_le m _ _ _ _ E). destruct Hm.
    assert (0 <= i * m_page_size m) by nia. rewrite zlen_set_slice by lia. lia.
  - case_bool_decide; [by injection H as _ <-|]. inv_ok H. injection H as _ <-. apply buffer_Ok in E0.
    eapply (within_reserved m); [done..|eassumption|]. apply (used_overwrite_le m _ _ _ _ E0). rewrite zlen_app. lia.
  - destruct (Z.ltb_spec n 0); [done|]. inv_ok H. destruct (Z.ltb_spec (zlen x) n); [done|].
    injection H as _ <-. apply buffer_Ok in E. apply (within_fewer m); [done..|].
    rewrite <-(Z.add_0_r (used_bytes m)). apply (used_overwrite_le m _ _ _ _ E).
    unfold slice, zlen. rewrite length_take, length_drop. lia.
Qed.

(** ** The theorems *)

(** The names of an in-memory device behave as on a portable file system.  After any history
    of operations, served or refused: two stored names or directories are never equal up to case,
    no name is at once a file and a directory, and every proper ancestor of a stored name is a
    directory. *)
Theorem memory_namespace (page_size : Z) (capacity : option Z) (m : t) (ops : list op)
    (Hmake : make page_size capacity = Ok m) :
  let m' := fold_left step ops m in
  (∀ p q, path m' p → path m' q → lower p = lower q → p = q) ∧
  (∀ f, is_Some (m_files m' !! f) → f ∉ m_directories m') ∧
  (∀ p k, path m' p → (0 < k < length (split SLASH p))%nat →
     join SLASH (take k (split SLASH p)) ∈ m_directories m').
Proof.
  intros m'. assert (namespace_ok m') as []; [|done]. subst m'.
  assert (namespace_ok m) as Hm.
  { unfold make in Hmake. inv_ok Hmake. injection Hmake as <-.
    assert (∀ p, ¬ path (Mk x x0 ∅ ∅ false) p) as Hno.
    { intros p [[c Hc]|Hd]; cbn in *; [by rewrite lookup_empty in Hc|by apply elem_of_empty in Hd]. }
    split; [by intros p q ?%Hno|by intros f [c Hc]|by intros p k ?%Hno|by intros p ?%Hno]. }
  clear Hmake. revert m Hm. induction ops as [|o ops IH]; intros m Hm; [done|].
  apply IH. by apply step_namespace.
Qed.

Definition sample_ops : list op :=
  [Create (str "wal/000000000001.wal") true; Create (str "WAL/x") true; AppendLog (str "wal/000000000001.wal") [Byte.x61];
   Create (str "heap.dat") true; Allocate (str "heap.dat") 2; Replace (str "heap.dat") (str "wal");
   WritePage (str "heap.dat") 1 (replicate 512 Byte.x62); Allocate (str "heap.dat") 1].

Lemma memory_namespace_witness :
  ∃ m, make 512 (Some 1100) = Ok m ∧
    m_files (fold_left step sample_ops m) !! str "WAL/x" = None ∧
    join SLASH (take 1 (split SLASH (str "wal/000000000001.wal"))) ∈ m_directories (fold_left step sample_ops m).
Proof.
  exists (Mk 512 (Some 1100) ∅ ∅ false). split; [reflexivity|]. split; [vm_compute; reflexivity|].
  apply (memory_namespace 512 (Some 1100) _ sample_ops eq_refl).
  - left. exists [Byte.x61]. vm_compute. reflexivity.
  - vm_compute. lia.
Defined.

(** A device made with a capacity never holds more: whatever is created, allocated, appended,
    replaced or truncated, the bytes of all files together stay within it. *)
Theorem memory_capacity (page_size capacity : Z) (m : t) (ops : list op)
    (Hmake : make page_size (Some capacity) = Ok m) :
  used_bytes (fold_left step ops m) <= capacity.
Proof.
  assert (within_capacity m ∧ m_capacity m = Some capacity) as [Hm Hc].
  { unfold make in Hmake. inv_ok Hmake. injection Hmake as <-. unfold validate_capacity in E0.
    destruct (Z.leb_spec capacity 0); [done|]. injection E0 as <-.
    apply validate_page_size_Ok in E as (-> & Hps & _). unfold MIN_PAGE_SIZE in Hps.
    split; [|done]. split; cbn; [lia|]. change (used_bytes _) with 0. lia. }
  clear Hmake. revert m Hm Hc. induction ops as [|o ops IH]; intros m Hm Hc.
  { destruct Hm as [_ Hm]. by rewrite Hc in Hm. }
  apply IH; [by apply step_capacity|]. rewrite <-Hc. destruct o; cbn [step];
    [..|done|done]; apply (change_invariant (λ m', m_capacity m' = m_capacity m)); try done; intros ? m' H; inv_ok H;
    try (injection H as _ <-; done).
  all: repeat (case_match; try done); inv_ok H; repeat (case_match; try done); inv_ok H; by injection H as _ <-.
Qed.

Lemma memory_capacity_witness :
  used_bytes (fold_left step sample_ops (Mk 512 (Some 1100) ∅ ∅ false)) = 1025 ∧
  used_bytes (fold_left step sample_ops (Mk 512 (Some 1100) ∅ ∅ false)) <= 1100.
Proof.
  split; [vm_compute; reflexivity|]. exact (memory_capacity 512 1100 _ sample_ops eq_refl).
Defined.
