(* ===== verification/ControlRecord.v ===== *)
(** The two-slot control record: src/src/okto_grafx/domain/control_record.py.

    A control file is three pages: an immutable header and two slots.  A publication overwrites
    the older slot and raises a barrier; a reader takes the newest slot that checks.  The module
    is proved against the storage laws of [Storage.v]: whatever call fails, and whatever a loss of
    power brings back, the record reads as the old payload or as the new one. *)

From S2P Require Import Prelude Ids Layout Checksum Utf8 Storage MemoryStorage.

(** ** The physical envelope *)

Definition CONTROL_FILE_PAGES : Z := 3.
Definition CONTROL_HEADER_PAGE : Z := 0.
Definition CONTROL_SLOT_PAGES : Z * Z := (1, 2).
Definition CONTROL_SLOT_FORMAT_VERSION : Z := 1.
Definition CONTROL_HEADER_MAGIC : bytes := byte_of_Z <$> str "OKTOCTRL".
Definition CONTROL_SLOT_MAGIC : bytes := byte_of_Z <$> str "OKTOSLOT".
Definition CONTROL_READ_ATTEMPTS : nat := 4.

(** [struct.Struct("<8sHHI16sQQ16s")], ["<8sHHQII16sQI"] and twice ["<I"]. *)
Definition HEADER_BODY : list field := [Raw 8; U 2; U 2; U 4; Raw 16; U 8; U 8; Raw 16].
Definition SLOT_HEAD : list field := [Raw 8; U 2; U 2; U 8; U 4; U 4; Raw 16; U 8; U 4].
Definition CRC : list field := [U 4].
Definition HEADER_BODY_size : Z := Z.of_nat (struct_size HEADER_BODY).
Definition SLOT_HEAD_size : Z := Z.of_nat (struct_size SLOT_HEAD).
Definition CRC_size : Z := Z.of_nat (struct_size CRC).

(** [ControlRecordKind]. *)
Definition LEASE : Z := 1.
Definition READER : Z := 2.
Definition COMMIT_STATE : Z := 3.

Record ControlRecordRead := MkRead {
  payload : bytes;
  format_version : Z;
  generation : Z;
  valid_payloads : list bytes
}.

Record Header := MkHeader {
  database_uuid : bytes;
  file_nonce : Z;
  record_kind : Z
}.

Record Slot := MkSlot {
  valid : bool;
  slot_generation : Z;
  slot_payload : bytes
}.

(** [_Slot(False)]. *)
Definition INVALID : Slot := MkSlot false 0 [].

#[export] Instance slot_eq_dec : EqDecision Slot.
Proof. solve_decision. Defined.

Definition require_database_uuid (value : bytes) : result bytes :=
  if negb (zlen value =? 16) then raise GrafxConfigurationError "database_uuid" else Ok value.

Definition require_kind (value : Z) : result Z :=
  if negb (bool_decide (value ∈ [LEASE; READER; COMMIT_STATE]))
  then raise GrafxConfigurationError "record_kind" else Ok value.

Definition page (page_type : PageType) (seq : Z) (body : bytes) (page_size : Z) : result bytes :=
  if page_size - PAGE_HEADER_SIZE <? zlen body then raise GrafxConfigurationError "payload_length"
  else
    let image := zeros page_size in
    header ← PageHeader.encode
      (PageHeader.Mk (page_type_value page_type) 0 0 seq 0 PAGE_HEADER_SIZE page_size 0 NO_PAGE 0);
    let image := set_slice image 0 PAGE_HEADER_SIZE header in
    let image := set_slice image PAGE_HEADER_SIZE (PAGE_HEADER_SIZE + zlen body) body in
    crc ← struct_pack CRC (crc32c_of (slice image CHECKSUM_SIZE (zlen image)), ());
    Ok (set_slice image 0 CRC_size crc).

Definition checked_page (raw : bytes) (page_type : PageType) (page_size : Z)
    (permit_checksum_mismatch : bool) : result bytes :=
  if negb (zlen raw =? page_size) then raise GrafxCorruptionDetected "page_length"
  else
    header ← PageHeader.decode raw;
    let expected := crc32c_of (slice raw CHECKSUM_SIZE (zlen raw)) in
    if negb (PageHeader.checksum header =? expected) && negb permit_checksum_mismatch
    then raise GrafxCorruptionDetected "checksum"
    else if negb (PageHeader.page_type header =? page_type_value page_type)
       || negb (PageHeader.flags header =? 0)
       || negb (PageHeader.page_lsn header =? 0)
       || negb (PageHeader.slot_count header =? 0)
       || negb (PageHeader.free_start header =? PAGE_HEADER_SIZE)
       || negb (PageHeader.free_end header =? page_size)
       || negb (PageHeader.reserved header =? 0)
       || negb (PageHeader.next_page header =? NO_PAGE)
    then raise GrafxCorruptionDetected "page_header"
    else Ok (slice raw PAGE_HEADER_SIZE (zlen raw)).

Definition encode_header (h : Header) (page_size : Z) : result bytes :=
  body ← struct_pack HEADER_BODY
    (CONTROL_HEADER_MAGIC, (CONTROL_SLOT_FORMAT_VERSION, (record_kind h, (page_size,
      (database_uuid h, (file_nonce h, (1, (zeros 16, ()))))))));
  crc ← struct_pack CRC (crc32c_of body, ());
  Ok (body ++ crc).

(** [expected]: the database UUID and the record kind the file must be bound to. *)
Definition decode_header (raw : bytes) (expected_uuid : bytes) (expected_kind page_size : Z)
    (permit_page_checksum_mismatch permit_inner_checksum_mismatch : bool) : result Header :=
  body ← checked_page raw CONTROL_HEADER page_size permit_page_checksum_mismatch;
  let expected_length := HEADER_BODY_size + CRC_size in
  if zlen body <? expected_length then raise GrafxCorruptionDetected "header_length"
  else
    fields ← struct_unpack_from HEADER_BODY body 0;
    let '(magic, (version, (kind, (stored_page_size, (stored_uuid, (nonce, (created,
           (reserved, _)))))))) := fields in
    crc ← struct_unpack_from CRC body HEADER_BODY_size;
    let stored_crc := fst crc in
    if negb (bool_decide (magic = CONTROL_HEADER_MAGIC)) then raise GrafxCorruptionDetected "magic"
    else if CONTROL_SLOT_FORMAT_VERSION <? version then raise GrafxSchemaVersionMismatch "format_version"
    else if negb (version =? CONTROL_SLOT_FORMAT_VERSION)
    then raise GrafxCorruptionDetected "format_version"
    else if negb (stored_crc =? crc32c_of (slice body 0 HEADER_BODY_size))
            && negb permit_inner_checksum_mismatch
    then raise GrafxCorruptionDetected "header_crc32c"
    else if negb (kind =? expected_kind) || negb (stored_page_size =? page_size)
       || negb (bool_decide (stored_uuid = expected_uuid)) || negb (created =? 1)
       || negb (bool_decide (reserved = zeros 16))
    then raise GrafxCorruptionDetected "control_binding"
    else Ok (MkHeader stored_uuid nonce kind).

Definition slot_maximum (page_size : Z) : Z :=
  page_size - PAGE_HEADER_SIZE - SLOT_HEAD_size - CRC_size.

Definition encode_slot (header : Header) (generation : Z) (payload : bytes) (page_size : Z)
    : result bytes :=
  let maximum := slot_maximum page_size in
  if maximum <? zlen payload then raise GrafxConfigurationError "payload_length"
  else if negb ((0 <=? generation) && (generation <=? MAX_U64))
  then raise GrafxCorruptionDetected "generation"
  else
    head ← struct_pack SLOT_HEAD
      (CONTROL_SLOT_MAGIC, (CONTROL_SLOT_FORMAT_VERSION, (record_kind header, (generation,
        (zlen payload, (0, (database_uuid header, (file_nonce header, (0, ())))))))));
    let record := head ++ payload in
    crc ← struct_pack CRC (crc32c_of record, ());
    page CONTROL_SLOT (Z.land (generation * 2) 0xFFFFFFFF) (record ++ crc) page_size.

(** The body of [_decode_slot]'s [try]. *)
Definition decode_slot_checked (raw : bytes) (header : Header) (page_size : Z) : result Slot :=
  body ← checked_page raw CONTROL_SLOT page_size false;
  if zlen body <? SLOT_HEAD_size + CRC_size then Ok INVALID
  else
    fields ← struct_unpack_from SLOT_HEAD body 0;
    let '(magic, (version, (kind, (generation, (payload_length, (reserved, (stored_uuid,
           (nonce, (reserved2, _))))))))) := fields in
    if CONTROL_SLOT_FORMAT_VERSION <? version then raise GrafxSchemaVersionMismatch "format_version"
    else
      let maximum := slot_maximum page_size in
      let stop := SLOT_HEAD_size + payload_length in
      if negb (bool_decide (magic = CONTROL_SLOT_MAGIC))
         || negb (version =? CONTROL_SLOT_FORMAT_VERSION) || negb (kind =? record_kind header)
         || negb (reserved =? 0) || negb (reserved2 =? 0)
         || negb (bool_decide (stored_uuid = database_uuid header))
         || negb (nonce =? file_nonce header) || (maximum <? payload_length)
      then Ok INVALID
      else
        let payload := slice body SLOT_HEAD_size stop in
        crc ← struct_unpack_from CRC body stop;
        if negb (fst crc =? crc32c_of (slice body 0 stop)) then Ok INVALID
        else if (generation =? 0) && negb (bool_decide (payload = [])) then Ok INVALID
        else Ok (MkSlot true generation payload).

(** A torn slot is invalid on its own; a newer format is not. *)
Definition decode_slot (raw : bytes) (header : Header) (page_size : Z) : result Slot :=
  match decode_slot_checked raw header page_size with
  | Err e => if decide (err_class e = GrafxCorruptionDetected) then Ok INVALID else Err e
  | r => r
  end.

(** ** The store *)

(** [_select_slot]: the newest populated slot and the page to overwrite next. *)
Definition populated (s : Slot) : bool := valid s && (0 <? slot_generation s).

Definition select_slot (slots : Slot * Slot) : result (option Slot * Z) :=
  let '(page1, page2) := CONTROL_SLOT_PAGES in
  let '(a, b) := slots in
  if populated a && populated b then
    if slot_generation a =? slot_generation b then raise GrafxCorruptionDetected "generation"
    else if slot_generation a <? slot_generation b then Ok (Some b, page1)
    else Ok (Some a, page2)
  else if populated a then Ok (Some a, page2)
  else if populated b then Ok (Some b, page1)
  else
    let empty (s : Slot) := valid s && (slot_generation s =? 0) in
    Ok (None, if empty a then page1 else if empty b then page2 else page1).

(** [_valid_payloads]: the populated payloads, newest first. *)
Definition valid_payloads_of (slots : Slot * Slot) : list bytes :=
  let '(a, b) := slots in
  slot_payload <$>
    filter (λ s, populated s = true) (if slot_generation a <? slot_generation b then [b; a] else [a; b]).

(** The fields a store is made with. *)
Record Store := MkStore {
  s_file : pystr;
  s_kind : Z;
  s_database_uuid : bytes;
  s_file_nonce : Z;
  s_temporary : pystr
}.

Definition store_header (s : Store) : Header := MkHeader (s_database_uuid s) (s_file_nonce s) (s_kind s).

Definition make_store (file : pystr) (record_kind : Z) (database_uuid : bytes) (file_nonce : Z)
    (temporary : pystr) : result Store :=
  kind ← require_kind record_kind;
  uuid ← require_database_uuid database_uuid;
  if negb ((0 <=? file_nonce) && (file_nonce <=? MAX_U64)) then raise GrafxConfigurationError "file_nonce"
  else Ok (MkStore file kind uuid file_nonce temporary).

Definition other_page (target : Z) : Z :=
  let '(page1, page2) := CONTROL_SLOT_PAGES in if target =? page1 then page2 else page1.

Definition damage_is_replaceable (failure : error) : bool :=
  bool_decide (err_field failure ∈ ["checksum"; "header_crc32c"; "slots"]%string).

(** [_decode_slots] and [_decode_complete_image] on one image of three pages. *)
Definition decode_slots (s : Store) (page_size : Z) (image : bytes) : result (Header * (Slot * Slot)) :=
  let '(page1, page2) := CONTROL_SLOT_PAGES in
  if negb (zlen image =? CONTROL_FILE_PAGES * page_size) then raise GrafxCorruptionDetected "length"
  else
    header ← decode_header (page_slice page_size image CONTROL_HEADER_PAGE) (s_database_uuid s)
               (s_kind s) page_size false false;
    a ← decode_slot (page_slice page_size image page1) header page_size;
    b ← decode_slot (page_slice page_size image page2) header page_size;
    Ok (header, (a, b)).

Definition decode_complete_image (s : Store) (page_size : Z) (image : bytes)
    : result (Header * option Slot * Z) :=
  '(header, slots) ← decode_slots s page_size image;
  '(chosen, target) ← select_slot slots;
  Ok (header, chosen, target).

Section store.
Context {Dev : Type} `{StorageDevice Dev}.

(** The device and the generation this store last saw. *)
Record St := MkSt { device : Dev; last_seen : Z }.

Definition on_dev {A} (m : M Dev A) : M St A := λ st,
  let '(r, d) := m (device st) in (r, MkSt d (last_seen st)).
Definition set_last_seen (g : Z) : M St () := modify (λ st, MkSt (device st) g).
Definition page_size_of : M St Z := gets (λ st, page_size (device st)).
Definition refuse {A} (field : string) : M St A := lift (raise GrafxCorruptionDetected field).

(** [ControlRecordReader], and the reader used when none is injected. *)
Definition reader : Type := pystr → Z → Z → M Dev (option bytes).

Definition read_log_if_exists : reader := λ file offset length,
  found ← exists_ file;
  if negb found then mret None
  else data ← read_log file offset length; mret (Some data).

Section with_store.
Variables (s : Store) (read_if_exists : reader).

Definition read_file_image (complete_legacy : bool) : M St (option bytes) :=
  ps ← page_size_of;
  let expected_size := CONTROL_FILE_PAGES * ps in
  observed ← on_dev (read_if_exists (s_file s) 0 (expected_size + 1));
  match observed with
  | None => mret None
  | Some image =>
      if zlen image =? expected_size then mret (Some image)
      else
        observed_size ← on_dev (file_size (s_file s));
        if observed_size <=? expected_size then
          if observed_size =? zlen image then mret (Some image) else refuse "length"
        else if negb (zlen image =? expected_size + 1) then refuse "length"
        else if negb complete_legacy then mret (Some image)
        else
          complete ← on_dev (read_log (s_file s) 0 observed_size);
          if negb (zlen complete =? observed_size) then refuse "length" else mret (Some complete)
  end.

Definition read_exact_image : M St bytes :=
  ps ← page_size_of;
  let expected_size := CONTROL_FILE_PAGES * ps in
  image ← on_dev (read_log (s_file s) 0 (expected_size + 1));
  if negb (zlen image =? expected_size) then refuse "length" else mret image.

(** One attempt of [read] on one image. *)
Definition read_once (ps : Z) (image : bytes) : M St ControlRecordRead :=
  '(_, slots) ← lift (decode_slots s ps image);
  '(chosen, _) ← lift (select_slot slots);
  match chosen with
  | None => refuse "slots"
  | Some chosen =>
      seen ← gets last_seen;
      if slot_generation chosen <? seen then refuse "generation"
      else
        _ ← set_last_seen (slot_generation chosen);
        mret (MkRead (slot_payload chosen) 2 (slot_generation chosen) (valid_payloads_of slots))
  end.

(** The attempts of [read]: [retries] more after this one. *)
Fixpoint read_attempts (retries : nat) (ps : Z) (image : bytes) : M St ControlRecordRead :=
  catch (read_once ps image) GrafxCorruptionDetected (λ failure,
    match retries with
    | O => lift (Err failure)
    | S retries => image ← read_exact_image; read_attempts retries ps image
    end).

Definition read : M St (option ControlRecordRead) :=
  image ← read_file_image true;
  match image with
  | None => mret None
  | Some image =>
      ps ← page_size_of;
      let expected_size := CONTROL_FILE_PAGES * ps in
      if negb (zlen image =? expected_size) then mret (Some (MkRead image 1 0 [image]))
      else r ← read_attempts (CONTROL_READ_ATTEMPTS - 1) ps image; mret (Some r)
  end.

Definition valid_payloads_behind_replaceable_damage (failure : error) : M St (list bytes) :=
  let '(page1, page2) := CONTROL_SLOT_PAGES in
  let field := err_field failure in
  if negb (bool_decide (field ∈ ["checksum"; "header_crc32c"]%string)) then mret []
  else
    image ← read_exact_image;
    ps ← page_size_of;
    header ← lift (decode_header (page_slice ps image CONTROL_HEADER_PAGE) (s_database_uuid s)
      (s_kind s) ps (bool_decide (field = "checksum"%string)) (bool_decide (field = "header_crc32c"%string)));
    a ← lift (decode_slot (page_slice ps image page1) header ps);
    b ← lift (decode_slot (page_slice ps image page2) header ps);
    _ ← lift (select_slot (a, b));
    mret (valid_payloads_of (a, b)).

Definition bootstrap (payload : bytes) : M St () :=
  let '(page1, page2) := CONTROL_SLOT_PAGES in
  let temporary := s_temporary s in
  ps ← page_size_of;
  found ← on_dev (exists_ temporary);
  _ ← (if found : bool then on_dev (remove temporary) else mret ());
  _ ← on_dev (create temporary true);
  first ← on_dev (allocate temporary CONTROL_FILE_PAGES);
  if negb (first =? 0) then refuse "first_page"
  else
    header_body ← lift (encode_header (store_header s) ps);
    header_page ← lift (page CONTROL_HEADER 0 header_body ps);
    _ ← on_dev (write_page temporary CONTROL_HEADER_PAGE header_page);
    one ← lift (encode_slot (store_header s) 1 payload ps);
    _ ← on_dev (write_page temporary page1 one);
    empty ← lift (encode_slot (store_header s) 0 [] ps);
    _ ← on_dev (write_page temporary page2 empty);
    _ ← on_dev (durable_barrier (Some temporary));
    _ ← on_dev (atomic_replace temporary (s_file s));
    on_dev (durable_barrier (Some (s_file s))).

(** What [publish_checked] knows before it publishes into the slots: the publications left, the
    image, the decoded header, the chosen slot and the target page. *)
Record Prepared := MkPrepared {
  p_publications : Z;
  p_image : option bytes;
  p_header : option Header;
  p_chosen : option Slot;
  p_target : Z
}.

(** [self._bootstrap(payload); ...; return 1] or the state read back; [inl] is the return. *)
Definition rebootstrap (payload : bytes) (publications : Z) : M St (Z + Prepared) :=
  _ ← bootstrap payload;
  _ ← set_last_seen 1;
  let publications := publications - 1 in
  if publications =? 0 then mret (inl 1)
  else
    ps ← page_size_of;
    image ← read_exact_image;
    '(header, chosen, target) ← lift (decode_complete_image s ps image);
    mret (inr (MkPrepared publications (Some image) (Some header) chosen target)).

Definition prepare (payload : bytes) (publications : Z) (replace_damaged : bool) (image : option bytes)
    : M St (Z + (Prepared * option bytes)) :=
  ps ← page_size_of;
  let expected_size := CONTROL_FILE_PAGES * ps in
  let fresh := MkPrepared publications image None None (fst CONTROL_SLOT_PAGES) in
  match image with
  | None => mret (inr (fresh, None))
  | Some img =>
      if negb (zlen img =? expected_size) then mret (inr (fresh, Some img))
      else
        first ← catch
          ('(header, chosen, target) ← lift (decode_complete_image s ps img);
           mret (inr (MkPrepared publications image (Some header) chosen target)))
          GrafxCorruptionDetected
          (λ failure, if negb replace_damaged || negb (damage_is_replaceable failure)
                      then lift (Err failure) else rebootstrap payload publications);
        second ← match first with
                 | inl g => mret (inl g)
                 | inr p => if negb (bool_decide (is_Some (p_chosen p))) && replace_damaged
                            then rebootstrap payload (p_publications p) else mret (inr p)
                 end;
        match second with
        | inl g => mret (inl g)
        | inr p => mret (inr (p, slot_payload <$> p_chosen p))
        end
  end.

(** The loop over the publications left: one page write and one barrier each. *)
Fixpoint publish_slots (n : nat) (ps : Z) (header : Header) (payload : bytes) (generation target : Z)
    : M St Z :=
  match n with
  | O => mret generation
  | S n =>
      let generation := generation + 1 in
      slot_image ← lift (encode_slot header generation payload ps);
      _ ← on_dev (write_page (s_file s) target slot_image);
      _ ← on_dev (durable_barrier (Some (s_file s)));
      _ ← set_last_seen generation;
      publish_slots n ps header payload generation (other_page target)
  end.

Definition publish_prepared (payload : bytes) (p : Prepared) : M St Z :=
  ps ← page_size_of;
  match p_header p, p_chosen p with
  | Some header, Some chosen =>
      if MAX_U64 - p_publications p <? slot_generation chosen then refuse "generation"
      else publish_slots (Z.to_nat (p_publications p)) ps header payload (slot_generation chosen)
             (p_target p)
  | _, _ => refuse "slots"
  end.

(** After the comparison: bootstrap an absent or legacy file, then publish into the slots. *)
Definition publish_from (payload : bytes) (p : Prepared) : M St Z :=
  ps ← page_size_of;
  if match p_image p with Some img => negb (zlen img =? CONTROL_FILE_PAGES * ps) | None => true end
  then
    again ← rebootstrap payload (p_publications p);
    match again with inl g => mret g | inr p => publish_prepared payload p end
  else publish_prepared payload p.

Definition publish_checked (payload : bytes) (expected_current : option (list (option bytes)))
    (publications : Z) (replace_damaged : bool) : M St Z :=
  if publications <? 1 then lift (raise GrafxConfigurationError "publications")
  else if bool_decide (expected_current = Some [])
  then lift (raise GrafxConfigurationError "expected_current")
  else
    image ← read_file_image false;
    prepared ← prepare payload publications replace_damaged image;
    match prepared with
    | inl g => mret g
    | inr (p, observed) =>
        if match expected_current with Some l => negb (bool_decide (observed ∈ l)) | None => false end
        then refuse "current_payload"
        else publish_from payload p
    end.

Definition publish (payload : bytes) : M St Z := publish_checked payload None 1 false.

End with_store.
End store.

(** ** Lemmas: the envelope *)

Definition sized (page_size : Z) : Prop := 512 <= page_size <= 32768.

Definition page_header_of (pt : PageType) (seq ps c : Z) : PageHeader.t :=
  PageHeader.Mk (page_type_value pt) 0 0 seq 0 PAGE_HEADER_SIZE ps 0 NO_PAGE c.

Definition page_tail (pt : PageType) (seq : Z) (body : bytes) (ps : Z) : bytes :=
  drop 4 (PageHeader.image (page_header_of pt seq ps 0)) ++ body ++ zeros (ps - PAGE_HEADER_SIZE - zlen body).

Definition page_bytes (pt : PageType) (seq : Z) (body : bytes) (ps : Z) : bytes :=
  le_pack 4 (crc32c_of (page_tail pt seq body ps)) ++ page_tail pt seq body ps.

Lemma page_header_fits pt seq ps c :
  sized ps → 0 <= seq <= MAX_U32 → in32 c → PageHeader.fits (page_header_of pt seq ps c).
Proof.
  unfold sized, in32. change (2 ^ 32) with 4294967296. intros Hs Hq Hc.
  unfold PageHeader.fits, MAX_U16, MAX_U32, MAX_U64, NO_PAGE, PAGE_HEADER_SIZE in *. cbn.
  unfold NO_PAGE, PAGE_HEADER_SIZE. destruct pt; cbn; lia.
Qed.

Lemma page_header_image pt seq ps c :
  PageHeader.image (page_header_of pt seq ps c)
  = le_pack 4 c ++ drop 4 (PageHeader.image (page_header_of pt seq ps 0)).
Proof. done. Qed.

Lemma page_bytes_header pt seq body ps :
  page_bytes pt seq body ps
  = PageHeader.image (page_header_of pt seq ps (crc32c_of (page_tail pt seq body ps)))
    ++ body ++ zeros (ps - PAGE_HEADER_SIZE - zlen body).
Proof. unfold page_bytes. rewrite page_header_image, <-app_assoc. done. Qed.

Lemma zlen_page_bytes pt seq body ps :
  sized ps → 0 <= seq <= MAX_U32 → zlen body <= ps - PAGE_HEADER_SIZE →
  zlen (page_bytes pt seq body ps) = ps.
Proof.
  intros Hs Hq Hb. rewrite page_bytes_header, !zlen_app, zlen_zeros by lia.
  rewrite zlen_header_image by (apply page_header_fits; [done..|apply crc32c_of_range]).
  unfold PAGE_HEADER_SIZE. lia.
Qed.

Lemma crc_fits data : struct_fits CRC (crc32c_of data, ()).
Proof.
  pose proof (crc32c_of_range data) as Hc. unfold in32 in Hc. change (2 ^ 32) with 4294967296 in Hc.
  solve_fits.
Qed.

Lemma page_ok pt seq body ps :
  sized ps → 0 <= seq <= MAX_U32 → zlen body <= ps - PAGE_HEADER_SIZE →
  page pt seq body ps = Ok (page_bytes pt seq body ps).
Proof.
  intros Hs Hq Hb. pose proof (zlen_nonneg body). unfold page.
  rewrite (proj2 (Z.ltb_ge _ _)) by lia. fold (page_header_of pt seq ps 0).
  assert (PageHeader.fits (page_header_of pt seq ps 0)) as Hf by (by apply page_header_fits).
  rewrite header_encode_ok by done. cbn [mbind result_bind].
  pose proof (zlen_header_image _ Hf) as Hh. unfold PAGE_HEADER_SIZE in *.
  set (h := PageHeader.image (page_header_of pt seq ps 0)) in *.
  assert (set_slice (set_slice (zeros ps) 0 32 h) 32 (32 + zlen body) body
          = h ++ body ++ zeros (ps - 32 - zlen body)) as ->.
  { replace (zeros ps) with (zeros 32 ++ zeros (zlen body) ++ zeros (ps - 32 - zlen body))
      by (rewrite <-!zeros_app by lia; f_equal; lia).
    set (rest := zeros (zlen body) ++ zeros (ps - 32 - zlen body)).
    assert (set_slice (zeros 32 ++ rest) 0 32 h = h ++ rest) as ->
      by (apply (set_slice_app_here [] (zeros 32)); by rewrite Hh).
    subst rest. rewrite <-Hh. rewrite <-(zlen_zeros (zlen body)) at 3 by lia.
    apply set_slice_app_here. by rewrite zlen_zeros by lia. }
  assert (h ++ body ++ zeros (ps - 32 - zlen body) = le_pack 4 0 ++ page_tail pt seq body ps) as ->.
  { unfold page_tail. fold h. rewrite app_assoc. done. }
  rewrite slice_app_r by (rewrite zlen_le_pack; done). rewrite zlen_le_pack.
  rewrite slice_full by (rewrite zlen_app, zlen_le_pack; unfold CHECKSUM_SIZE; lia).
  rewrite (struct_pack_image CRC) by apply crc_fits. cbn [mbind result_bind].
  reflexivity.
Qed.

Lemma page_Ok_inv pt seq body ps img :
  page pt seq body ps = Ok img → zlen body <= ps - PAGE_HEADER_SIZE.
Proof. unfold page. destruct (Z.ltb_spec (ps - PAGE_HEADER_SIZE) (zlen body)); [done|lia]. Qed.

Lemma checked_page_bytes pt seq body ps permit :
  sized ps → 0 <= seq <= MAX_U32 → zlen body <= ps - PAGE_HEADER_SIZE →
  checked_page (page_bytes pt seq body ps) pt ps permit
  = Ok (body ++ zeros (ps - PAGE_HEADER_SIZE - zlen body)).
Proof.
  intros Hs Hq Hb. unfold checked_page. rewrite zlen_page_bytes, Z.eqb_refl by done. cbn [negb].
  rewrite page_bytes_header at 1.
  assert (PageHeader.fits (page_header_of pt seq ps (crc32c_of (page_tail pt seq body ps)))) as Hf
    by (apply page_header_fits; [done..|apply crc32c_of_range]).
  rewrite header_decode_image by done. cbn [mbind result_bind].
  assert (slice (page_bytes pt seq body ps) CHECKSUM_SIZE ps = page_tail pt seq body ps) as ->.
  { pose proof (zlen_page_bytes pt seq body ps Hs Hq Hb) as Hl. unfold page_bytes in *.
    rewrite zlen_app, zlen_le_pack in Hl. unfold CHECKSUM_SIZE.
    rewrite slice_app_r by (by rewrite zlen_le_pack). rewrite zlen_le_pack. apply slice_full. lia. }
  cbn [page_header_of PageHeader.checksum PageHeader.page_type PageHeader.flags PageHeader.page_lsn
       PageHeader.slot_count PageHeader.free_start PageHeader.free_end PageHeader.reserved
       PageHeader.next_page]. rewrite !Z.eqb_refl. cbn [negb andb orb]. f_equal.
  rewrite page_bytes_header. pose proof (zlen_header_image _ Hf) as Hh.
  rewrite slice_app_r by (by rewrite Hh). rewrite Hh. unfold PAGE_HEADER_SIZE in *.
  apply slice_full. rewrite zlen_app, zlen_zeros by lia. lia.
Qed.

Record bound (h : Header) : Prop := {
  bound_uuid : zlen (database_uuid h) = 16;
  bound_nonce : 0 <= file_nonce h <= MAX_U64;
  bound_kind : 0 <= record_kind h <= MAX_U16
}.

Definition slot_head_fields (h : Header) (g : Z) (payload : bytes) : fvals SLOT_HEAD :=
  (CONTROL_SLOT_MAGIC, (CONTROL_SLOT_FORMAT_VERSION, (record_kind h, (g,
    (zlen payload, (0, (database_uuid h, (file_nonce h, (0, ()))))))))).
Definition slot_record (h : Header) (g : Z) (payload : bytes) : bytes :=
  struct_image SLOT_HEAD (slot_head_fields h g payload) ++ payload.
Definition slot_body (h : Header) (g : Z) (payload : bytes) : bytes :=
  slot_record h g payload ++ le_pack 4 (crc32c_of (slot_record h g payload)).
Definition slot_bytes (h : Header) (g : Z) (payload : bytes) (ps : Z) : bytes :=
  page_bytes CONTROL_SLOT (Z.land (g * 2) 0xFFFFFFFF) (slot_body h g payload) ps.

(** What can be written in a slot. *)
Record slot_fits (ps g : Z) (payload : bytes) : Prop := {
  fits_size : sized ps;
  fits_payload : zlen payload <= slot_maximum ps;
  fits_generation : 0 <= g <= MAX_U64
}.

Lemma slot_head_fits h ps g payload :
  bound h → slot_fits ps g payload → struct_fits SLOT_HEAD (slot_head_fields h g payload).
Proof.
  intros [Hu Hn Hk] [Hs Hp Hg]. pose proof (zlen_nonneg payload).
  unfold sized, slot_maximum, PAGE_HEADER_SIZE, MAX_U64, MAX_U16 in *.
  change SLOT_HEAD_size with 56 in *. change CRC_size with 4 in *.
  unfold slot_head_fields. unfold zlen in *. solve_fits.
Qed.

Lemma zlen_slot_body h ps g payload :
  bound h → slot_fits ps g payload → zlen (slot_body h g payload) = 60 + zlen payload.
Proof.
  intros Hh Hf. unfold slot_body, slot_record.
  rewrite !zlen_app, zlen_le_pack, zlen_struct_image by (by eapply slot_head_fits).
  change (Z.of_nat (struct_size SLOT_HEAD)) with 56. lia.
Qed.

Lemma slot_seq g : 0 <= Z.land (g * 2) 0xFFFFFFFF <= MAX_U32.
Proof.
  change 0xFFFFFFFF with (Z.ones 32). rewrite Z.land_ones by lia.
  pose proof (Z.mod_pos_bound (g * 2) (2 ^ 32)). unfold MAX_U32. lia.
Qed.

Lemma slot_body_room h ps g payload :
  bound h → slot_fits ps g payload → zlen (slot_body h g payload) <= ps - PAGE_HEADER_SIZE.
Proof.
  intros Hh Hf. rewrite (zlen_slot_body h ps) by done. destruct Hf as [_ Hp _].
  unfold slot_maximum in Hp. change SLOT_HEAD_size with 56 in *. change CRC_size with 4 in *. lia.
Qed.

Lemma encode_slot_Ok h ps g payload img :
  bound h → sized ps →
  encode_slot h g payload ps = Ok img ↔ slot_fits ps g payload ∧ img = slot_bytes h g payload ps.
Proof.
  intros Hh Hs. unfold encode_slot. destruct (Z.ltb_spec (slot_maximum ps) (zlen payload)).
  { split; [done|]. intros [[] _]. lia. }
  destruct ((0 <=? g) && (g <=? MAX_U64)) eqn:Hg; cbn [negb].
  2:{ split; [done|]. intros [[] _]. lia. }
  assert (slot_fits ps g payload) as Hf by (split; [done|lia|lia]).
  rewrite (struct_pack_image SLOT_HEAD) by (by eapply (slot_head_fits h)).
  cbn [mbind result_bind]. rewrite (struct_pack_image CRC) by apply crc_fits. cbn [mbind result_bind].
  change (page CONTROL_SLOT (Z.land (g * 2) 4294967295) (slot_body h g payload) ps = Ok img ↔
    slot_fits ps g payload ∧ img = slot_bytes h g payload ps).
  rewrite page_ok by (done || apply slot_seq || by apply slot_body_room).
  split; [by intros [= <-]|by intros [_ ->]].
Qed.

Lemma zlen_slot_bytes h ps g payload :
  bound h → slot_fits ps g payload → zlen (slot_bytes h g payload ps) = ps.
Proof.
  intros Hh Hf. apply zlen_page_bytes; [by destruct Hf|apply slot_seq|by apply slot_body_room].
Qed.

Lemma decode_slot_bytes h ps g payload :
  bound h → slot_fits ps g payload → (g = 0 → payload = []) →
  decode_slot (slot_bytes h g payload ps) h ps = Ok (MkSlot true g payload).
Proof.
  intros Hh Hf Hz. unfold decode_slot, decode_slot_checked, slot_bytes.
  rewrite checked_page_bytes by (apply slot_seq || by apply slot_body_room || by destruct Hf).
  cbn [mbind result_bind]. set (pad := zeros _).
  pose proof (zlen_slot_body h ps g payload Hh Hf) as Hl. pose proof (zlen_nonneg pad).
  pose proof (zlen_nonneg payload). pose proof (slot_head_fits h ps g payload Hh Hf) as Hhf.
  change SLOT_HEAD_size with 56. change CRC_size with 4.
  rewrite (proj2 (Z.ltb_ge _ _)) by (rewrite zlen_app; lia).
  assert (zlen (struct_image SLOT_HEAD (slot_head_fields h g payload)) = 56) as Hhl
    by (by rewrite zlen_struct_image).
  assert (zlen (slot_record h g payload) = 56 + zlen payload) as Hrl
    by (unfold slot_record; rewrite zlen_app; lia).
  set (r := slot_record h g payload) in *. set (b := slot_body h g payload ++ pad).
  assert (b = r ++ struct_image CRC (crc32c_of r, ()) ++ pad) as Hb
    by (unfold b, slot_body; by rewrite <-app_assoc).
  assert (struct_unpack_from SLOT_HEAD b 0 = Ok (slot_head_fields h g payload)) as ->.
  { rewrite Hb. unfold r, slot_record. rewrite <-app_assoc. by apply struct_unpack_image_0. }
  cbn [mbind result_bind slot_head_fields]. rewrite <-Hrl.
  assert (struct_unpack_from CRC b (zlen r) = Ok (crc32c_of r, ())) as ->
    by (rewrite Hb; apply struct_unpack_image, crc_fits).
  assert (slice b 0 (zlen r) = r) as -> by (rewrite Hb, slice_app_l by lia; by apply slice_full).
  assert (slice b 56 (zlen r) = payload) as ->.
  { rewrite Hb, slice_app_l by lia. unfold r, slot_record. rewrite slice_app_r by lia.
    rewrite Hhl, zlen_app. apply slice_full. lia. }
  destruct Hf as [Hs Hp Hg]. rewrite Z.ltb_irrefl, !bool_decide_true, !Z.eqb_refl by done.
  cbn [negb orb mbind result_bind fst]. rewrite (proj2 (Z.ltb_ge _ _)) by lia. rewrite Z.eqb_refl.
  cbn [negb]. destruct (Z.eqb_spec g 0) as [Hg0|]; [|done]. by rewrite Hz by done.
Qed.

Definition header_fields (h : Header) (ps : Z) : fvals HEADER_BODY :=
  (CONTROL_HEADER_MAGIC, (CONTROL_SLOT_FORMAT_VERSION, (record_kind h, (ps,
    (database_uuid h, (file_nonce h, (1, (zeros 16, ())))))))).
Definition header_body (h : Header) (ps : Z) : bytes :=
  struct_image HEADER_BODY (header_fields h ps)
  ++ le_pack 4 (crc32c_of (struct_image HEADER_BODY (header_fields h ps))).
Definition header_bytes (h : Header) (ps : Z) : bytes :=
  page_bytes CONTROL_HEADER 0 (header_body h ps) ps.

Lemma control_header_fits h ps : bound h → sized ps → struct_fits HEADER_BODY (header_fields h ps).
Proof.
  intros [Hu Hn Hk] Hs. unfold sized, MAX_U64, MAX_U16 in *. unfold header_fields.
  unfold zlen in *. solve_fits.
Qed.

Lemma zlen_header_body h ps : bound h → sized ps → zlen (header_body h ps) = 68.
Proof.
  intros Hh Hs. unfold header_body.
  by rewrite zlen_app, zlen_le_pack, zlen_struct_image by (by apply control_header_fits).
Qed.

Lemma header_pages_ok h ps :
  bound h → sized ps →
  encode_header h ps = Ok (header_body h ps) ∧ page CONTROL_HEADER 0 (header_body h ps) ps = Ok (header_bytes h ps)
  ∧ zlen (header_bytes h ps) = ps.
Proof.
  intros Hh Hs. pose proof (zlen_header_body h ps Hh Hs). unfold encode_header.
  rewrite (struct_pack_image HEADER_BODY) by (by apply (control_header_fits h)).
  cbn [mbind result_bind]. rewrite (struct_pack_image CRC) by apply crc_fits.
  assert (zlen (header_body h ps) <= ps - PAGE_HEADER_SIZE) by (unfold sized, PAGE_HEADER_SIZE in *; lia).
  assert (0 <= 0 <= MAX_U32) by (unfold MAX_U32; lia).
  cbn [mbind result_bind]. split; [reflexivity|].
  split; [apply page_ok; assumption|].
  unfold header_bytes. rewrite zlen_page_bytes by assumption. done.
Qed.

Lemma decode_header_bytes h ps :
  bound h → sized ps →
  decode_header (header_bytes h ps) (database_uuid h) (record_kind h) ps false false = Ok h.
Proof.
  intros Hh Hs. pose proof (zlen_header_body h ps Hh Hs) as Hl. unfold decode_header, header_bytes.
  rewrite checked_page_bytes by (done || unfold sized, PAGE_HEADER_SIZE in *; lia).
  cbn [mbind result_bind]. set (pad := zeros _). pose proof (zlen_nonneg pad).
  pose proof (control_header_fits h ps Hh Hs) as Hf.
  change HEADER_BODY_size with 64. change CRC_size with 4.
  rewrite (proj2 (Z.ltb_ge _ _)) by (rewrite zlen_app; lia).
  assert (zlen (struct_image HEADER_BODY (header_fields h ps)) = 64) as Hhl
    by (by rewrite zlen_struct_image).
  set (r := struct_image HEADER_BODY (header_fields h ps)) in *. set (b := header_body h ps ++ pad).
  assert (b = r ++ struct_image CRC (crc32c_of r, ()) ++ pad) as Hb
    by (unfold b, header_body; by rewrite <-app_assoc).
  assert (struct_unpack_from HEADER_BODY b 0 = Ok (header_fields h ps)) as ->
    by (rewrite Hb; by apply struct_unpack_image_0).
  cbn [mbind result_bind header_fields]. rewrite <-Hhl.
  assert (struct_unpack_from CRC b (zlen r) = Ok (crc32c_of r, ())) as ->
    by (rewrite Hb; apply struct_unpack_image, crc_fits).
  assert (slice b 0 (zlen r) = r) as -> by (rewrite Hb, slice_app_l by lia; by apply slice_full).
  cbn [mbind result_bind fst].
  rewrite !bool_decide_true, Z.ltb_irrefl, !Z.eqb_refl by done. cbn [negb orb andb]. by destruct h.
Qed.

(** A page with one byte changed fails its checksum. *)
Lemma page_damage pt seq body ps pre post b c :
  sized ps → 0 <= seq <= MAX_U32 → zlen body <= ps - PAGE_HEADER_SIZE →
  page_bytes pt seq body ps = pre ++ b :: post → b ≠ c →
  checked_page (pre ++ c :: post) pt ps false = raise GrafxCorruptionDetected "checksum".
Proof.
  intros Hs Hq Hb Himg Hbc. pose proof (zlen_page_bytes pt seq body ps Hs Hq Hb) as Hl.
  assert (zlen (pre ++ c :: post) = ps) as Hl' by (rewrite Himg, zlen_app, zlen_cons in Hl; by rewrite zlen_app, zlen_cons).
  unfold checked_page. rewrite Hl', Z.eqb_refl. cbn [negb].
  destruct (PageHeader.decode (pre ++ c :: post)) as [hdr|e] eqn:Hd; cbn [mbind result_bind].
  2:{ exfalso. unfold PageHeader.decode, PAGE_HEADER_SIZE in Hd. unfold sized in Hs.
      rewrite Hl', (proj2 (Z.ltb_ge _ _)) in Hd by lia.
      destruct (struct_unpack_from_enough HEADER_STRUCT (pre ++ c :: post) 0) as [v Hv];
        [rewrite Hl'; cbn; lia|]. rewrite Hv in Hd. destruct v as (?&?&?&?&?&?&?&?&?&?&?). done. }
  apply header_decode_inv in Hd as (_ & Hf & Hi).
  destruct (Z.eqb_spec (PageHeader.checksum hdr) (crc32c_of (slice (pre ++ c :: post) CHECKSUM_SIZE ps))) as [Heq|];
    cbn [negb andb]; [|done]. exfalso.
  unfold page_bytes in Himg.
  refine (crc_frame_one_byte _ (slice (pre ++ c :: post) CHECKSUM_SIZE ps)
    (le_pack 4 (PageHeader.checksum hdr)) pre post b c Himg Hbc _ (length_le_pack 4 _) _); [|by rewrite Heq].
  assert (le_pack 4 (PageHeader.checksum hdr) = slice (pre ++ c :: post) 0 4) as ->.
  { transitivity (slice (PageHeader.image hdr) 0 4).
    - unfold PageHeader.image. cbn [PageHeader.fields struct_image HEADER_STRUCT fst].
      symmetry. apply (slice_app_middle []); [done|by rewrite zlen_le_pack].
    - rewrite Hi, slice_slice by lia. done. }
  unfold CHECKSUM_SIZE. unfold sized in Hs. rewrite <-slice_split by lia. symmetry. by apply slice_full.
Qed.

Lemma slot_damage h ps g payload pre post b c :
  bound h → slot_fits ps g payload → slot_bytes h g payload ps = pre ++ b :: post → b ≠ c →
  ∀ h', decode_slot (pre ++ c :: post) h' ps = Ok INVALID.
Proof.
  intros Hh Hf Himg Hbc h'. unfold decode_slot, decode_slot_checked.
  rewrite (page_damage CONTROL_SLOT (Z.land (g * 2) 0xFFFFFFFF) (slot_body h g payload) ps pre post b c);
    [done|by destruct Hf|apply slot_seq|by apply slot_body_room|done..].
Qed.

(** ** Lemmas: three pages *)

Definition slot_at (slots : Slot * Slot) (i : Z) : Slot := if i =? 1 then slots.1 else slots.2.
Definition slot_page (i : Z) : Prop := i = 1 ∨ i = 2.

Lemma select_slot_Some slots c t :
  select_slot slots = Ok (Some c, t) ↔
  slot_page t ∧ slot_at slots (other_page t) = c ∧ populated c = true ∧
  (populated (slot_at slots t) = true → slot_generation (slot_at slots t) < slot_generation c).
Proof.
  destruct slots as [a b]. unfold slot_page, slot_at, other_page. cbn.
  destruct (populated a) eqn:Ha, (populated b) eqn:Hb; cbn.
  - destruct (Z.eqb_spec (slot_generation a) (slot_generation b)) as [E|E].
    { split; [done|]. intros ([->| ->] & Hc & _ & Hg); cbn in *; subst c; specialize (Hg ltac:(done)); lia. }
    destruct (Z.ltb_spec (slot_generation a) (slot_generation b)); split.
    + intros [= <- <-]. cbn. auto.
    + intros ([->| ->] & Hc & _ & Hg); cbn in *; subst c; [done|]. specialize (Hg ltac:(done)). lia.
    + intros [= <- <-]. cbn. split_and!; auto. intros. lia.
    + intros ([->| ->] & Hc & _ & Hg); cbn in *; subst c; [|done]. specialize (Hg ltac:(done)). lia.
  - split; [intros [= <- <-]; cbn; split_and!; auto; congruence|].
    intros ([->| ->] & Hc & Hp & _); cbn in *; subst c; congruence.
  - split; [intros [= <- <-]; cbn; split_and!; auto; congruence|].
    intros ([->| ->] & Hc & Hp & _); cbn in *; subst c; congruence.
  - split; [done|]. intros ([->| ->] & Hc & Hp & _); cbn in *; subst c; congruence.
Qed.

Definition with_slot (slots : Slot * Slot) (i : Z) (x : Slot) : Slot * Slot :=
  if i =? 1 then (x, slots.2) else (slots.1, x).

Lemma page_slice_set_page ps c i j p :
  0 <= ps → 0 <= i → 0 <= j → (i + 1) * ps <= zlen c → zlen p = ps →
  page_slice ps (set_page ps c i p) j = if decide (i = j) then p else page_slice ps c j.
Proof.
  intros. unfold page_slice, set_page. case_decide as Hd.
  - subst. apply slice_set_slice_eq; lia.
  - apply slice_set_slice_disjoint; nia.
Qed.

(** An image that differs in one slot page decodes to the same header and the other slot. *)
Lemma decode_slots_page s ps img img' h slots i x :
  slot_page i → zlen img' = zlen img →
  (∀ j, 0 <= j → j ≠ i → page_slice ps img' j = page_slice ps img j) →
  decode_slots s ps img = Ok (h, slots) → decode_slot (page_slice ps img' i) h ps = Ok x →
  decode_slots s ps img' = Ok (h, with_slot slots i x).
Proof.
  intros Hi Hz Hpages Hd Hx. unfold decode_slots in *. cbn [CONTROL_SLOT_PAGES] in *.
  rewrite Hz. case_match; [done|]. unfold CONTROL_HEADER_PAGE in *.
  rewrite (Hpages 0) by (destruct Hi; subst; lia).
  destruct (decode_header _ _ _ _ _ _) as [hdr|]; [|done]. cbn [mbind result_bind] in *.
  destruct (decode_slot (page_slice ps img 1) hdr ps) as [a|] eqn:Ha; [|done]. cbn [mbind result_bind] in *.
  destruct (decode_slot (page_slice ps img 2) hdr ps) as [b|] eqn:Hb; [|done]. injection Hd as -> <-.
  destruct Hi as [->| ->]; [rewrite Hx|rewrite (Hpages 1), Ha by lia]; cbn [mbind result_bind];
    [rewrite (Hpages 2), Hb by lia|rewrite Hx]; done.
Qed.

Lemma decode_slots_set s ps img h slots i p x :
  0 <= ps → slot_page i → zlen p = ps →
  decode_slots s ps img = Ok (h, slots) → decode_slot p h ps = Ok x →
  decode_slots s ps (set_page ps img i p) = Ok (h, with_slot slots i x).
Proof.
  intros Hps Hi Hp Hd Hx.
  assert (zlen img = CONTROL_FILE_PAGES * ps) as Hl.
  { unfold decode_slots in Hd. cbn [CONTROL_SLOT_PAGES] in Hd.
    by destruct (Z.eqb_spec (zlen img) (CONTROL_FILE_PAGES * ps)). }
  unfold CONTROL_FILE_PAGES in Hl. assert (0 <= i ∧ (i + 1) * ps <= zlen img) as [Hi0 Hi1]
    by (destruct Hi; subst; lia).
  apply (decode_slots_page s ps img); [done| |..|done|].
  - unfold set_page. apply zlen_set_slice; lia.
  - intros j Hj Hne. rewrite page_slice_set_page by lia. by rewrite decide_False by done.
  - rewrite page_slice_set_page by lia. by rewrite decide_True by done.
Qed.

(** The current record of an image: the newest slot and the page the next publication takes. *)
Definition current (s : Store) (ps : Z) (img : bytes) (h : Header) (c : Slot) (t : Z) : Prop :=
  decode_complete_image s ps img = Ok (h, Some c, t).

Lemma current_inv s ps img h c t :
  current s ps img h c t ↔
  ∃ slots, decode_slots s ps img = Ok (h, slots) ∧ select_slot slots = Ok (Some c, t).
Proof.
  unfold current, decode_complete_image. split.
  - intros H. destruct (decode_slots s ps img) as [[h' slots]|]; [|done]. cbn [mbind result_bind] in H.
    destruct (select_slot slots) as [[c' t']|] eqn:E; [|done]. injection H as -> -> ->. by exists slots.
  - intros (slots & -> & Hs). cbn [mbind result_bind]. by rewrite Hs.
Qed.

Lemma current_zlen s ps img h c t : current s ps img h c t → zlen img = CONTROL_FILE_PAGES * ps.
Proof.
  intros (slots & Hd & _)%current_inv. unfold decode_slots in Hd. cbn [CONTROL_SLOT_PAGES] in Hd.
  by destruct (Z.eqb_spec (zlen img) (CONTROL_FILE_PAGES * ps)).
Qed.

Lemma current_page s ps img h c t : current s ps img h c t → slot_page t ∧ 0 <= t ∧ (t + 1) * ps <= zlen img ∨ ps < 0.
Proof.
  intros H. destruct (Z.ltb_spec ps 0); [by right|left]. rewrite (current_zlen _ _ _ _ _ _ H).
  apply current_inv in H as (slots & _ & (Ht & _)%select_slot_Some). unfold CONTROL_FILE_PAGES.
  split; [done|]. destruct Ht; subst; lia.
Qed.

(** Overwriting the target with a newer slot makes it current; with anything that does not check,
    leaves the record as it was. *)
Lemma current_overwrite s ps img h c t p g payload :
  0 <= ps → current s ps img h c t → zlen p = ps →
  decode_slot p h ps = Ok (MkSlot true g payload) → slot_generation c < g →
  current s ps (set_page ps img t p) h (MkSlot true g payload) (other_page t).
Proof.
  intros Hps (slots & Hd & Hs)%current_inv Hp Hx Hg. apply current_inv.
  apply select_slot_Some in Hs as (Ht & Hc & Hpop & _).
  pose proof (decode_slots_set s ps img h slots t p _ Hps Ht Hp Hd Hx) as Hd'.
  eexists. split; [exact Hd'|]. apply select_slot_Some.
  assert (0 < slot_generation c) by (unfold populated in Hpop; lia).
  destruct slots as [a b], Ht as [->| ->]; cbn in *; subst; unfold slot_page, populated; cbn;
    split_and!; auto; lia.
Qed.

Lemma current_torn s ps img h c t p :
  0 <= ps → current s ps img h c t → zlen p = ps → decode_slot p h ps = Ok INVALID →
  current s ps (set_page ps img t p) h c t.
Proof.
  intros Hps (slots & Hd & Hs)%current_inv Hp Hx. apply current_inv.
  apply select_slot_Some in Hs as (Ht & Hc & Hpop & _).
  pose proof (decode_slots_set s ps img h slots t p _ Hps Ht Hp Hd Hx) as Hd'.
  eexists. split; [exact Hd'|]. apply select_slot_Some.
  destruct slots as [a b], Ht as [->| ->]; cbn in *; subst; unfold slot_page; cbn; split_and!; auto; done.
Qed.

Lemma set_page_same ps img t : 0 <= ps → 0 <= t → (t + 1) * ps <= zlen img →
  set_page ps img t (page_slice ps img t) = img.
Proof.
  intros. unfold set_page, page_slice, set_slice. rewrite Z.max_r by nia.
  unfold slice. rewrite <-(take_drop (Z.to_nat (t * ps)) img) at 4. f_equal.
  rewrite <-(take_drop (Z.to_nat ((t + 1) * ps - t * ps)) (drop _ img)) at 2. f_equal.
  rewrite drop_drop. f_equal. lia.
Qed.

Lemma three_pages ps (a b c : bytes) :
  zlen a = ps → zlen b = ps → zlen c = ps → 0 <= ps →
  page_slice ps (a ++ b ++ c) 0 = a ∧ page_slice ps (a ++ b ++ c) 1 = b ∧ page_slice ps (a ++ b ++ c) 2 = c.
Proof.
  intros Ha Hb Hc Hps. unfold page_slice. split_and!.
  - apply (slice_app_middle []); [done|lia].
  - apply slice_app_middle; lia.
  - rewrite app_assoc, <-(app_nil_r c) at 1. apply slice_app_middle; rewrite ?zlen_app; lia.
Qed.

(** The image a bootstrap installs. *)
Definition boot_image (h : Header) (payload : bytes) (ps : Z) : bytes :=
  header_bytes h ps ++ slot_bytes h 1 payload ps ++ slot_bytes h 0 [] ps.

Lemma boot_current s payload ps :
  bound (store_header s) → slot_fits ps 1 payload →
  current s ps (boot_image (store_header s) payload ps) (store_header s) (MkSlot true 1 payload) 2.
Proof.
  intros Hb Hf. set (h := store_header s). pose proof (fits_size _ _ _ Hf) as Hs.
  assert (slot_fits ps 0 []) as Hf0.
  { pose proof (zlen_nonneg payload). destruct Hf. split; [done| |unfold MAX_U64; lia]. rewrite zlen_nil. lia. }
  destruct (header_pages_ok h ps Hb Hs) as (_ & _ & Hlh).
  pose proof (zlen_slot_bytes h ps 1 payload Hb Hf) as Hl1. pose proof (zlen_slot_bytes h ps 0 [] Hb Hf0) as Hl0.
  unfold current, decode_complete_image, decode_slots, boot_image. fold h. cbn [CONTROL_SLOT_PAGES].
  rewrite !zlen_app, Hlh, Hl1, Hl0. unfold CONTROL_FILE_PAGES, CONTROL_HEADER_PAGE.
  replace (ps + (ps + ps) =? 3 * ps) with true by lia. cbn [negb].
  destruct (three_pages ps _ _ _ Hlh Hl1 Hl0) as (-> & -> & ->); [unfold sized in Hs; lia|].
  change (s_database_uuid s) with (database_uuid h). change (s_kind s) with (record_kind h).
  rewrite decode_header_bytes by done. cbn [mbind result_bind].
  rewrite !decode_slot_bytes by done. done.
Qed.

Lemma boot_pages h payload ps :
  bound h → slot_fits ps 1 payload →
  set_page ps (set_page ps (set_page ps (zeros (CONTROL_FILE_PAGES * ps)) 0 (header_bytes h ps))
    1 (slot_bytes h 1 payload ps)) 2 (slot_bytes h 0 [] ps) = boot_image h payload ps.
Proof.
  intros Hb Hf. pose proof (fits_size _ _ _ Hf) as Hs.
  assert (slot_fits ps 0 []) as Hf0.
  { pose proof (zlen_nonneg payload). destruct Hf. split; [done| |unfold MAX_U64; lia]. rewrite zlen_nil. lia. }
  destruct (header_pages_ok h ps Hb Hs) as (_ & _ & Hlh).
  pose proof (zlen_slot_bytes h ps 1 payload Hb Hf) as Hl1. pose proof (zlen_slot_bytes h ps 0 [] Hb Hf0) as Hl0.
  unfold sized in Hs. unfold set_page, CONTROL_FILE_PAGES, boot_image.
  replace (zeros (3 * ps)) with ([] ++ zeros ps ++ zeros ps ++ zeros ps)
    by (cbn [app]; rewrite <-!zeros_app by lia; f_equal; lia).
  assert (∀ (l c r d : bytes) a b, zlen d = zlen c → a = zlen l → b = zlen l + zlen c →
            set_slice (l ++ c ++ r) a b d = l ++ d ++ r) as Hset
    by (intros l c r d a b Hd -> ->; by apply set_slice_app_here).
  assert (zlen (zeros ps) = ps) as Hz by (apply zlen_zeros; lia).
  rewrite Hset by (first [done|change (zlen (@nil byte)) with 0; rewrite ?Hz; lia]). cbn [app].
  rewrite Hset by (rewrite ?Hz; lia).
  rewrite (app_assoc (header_bytes h ps)). rewrite <-(app_nil_r (zeros ps)).
  rewrite Hset by (rewrite ?zlen_app, ?Hz; lia). by rewrite app_nil_r, <-app_assoc.
Qed.

(** ** The store against any lawful device *)

Lemma decode_header_bound raw uuid kind ps a b h :
  zlen uuid = 16 → 0 <= kind <= MAX_U16 → decode_header raw uuid kind ps a b = Ok h → bound h.
Proof.
  intros Hu Hk. unfold decode_header. destruct (checked_page _ _ _ _) as [body|]; [|done].
  cbn [mbind result_bind]. case_match; [done|].
  destruct (struct_unpack_from HEADER_BODY body 0) as [v|] eqn:Hv; [|done]. cbn [mbind result_bind].
  apply struct_unpack_from_Ok in Hv as (Hf & _); [|done].
  destruct v as (m & ver & k & size & u & nonce & cr & res & []).
  destruct (struct_unpack_from CRC body HEADER_BODY_size) as [[crc []]|]; [|done].
  cbn [mbind result_bind fst]. repeat (case_match; try done). intros [= <-].
  cbn [struct_fits field_fits fst snd HEADER_BODY] in Hf. pow256.
  repeat match goal with H : _ || _ = false |- _ => apply orb_false_iff in H as [? ?] end.
  repeat match goal with H : negb _ = false |- _ => apply negb_false_iff in H end.
  repeat match goal with H : bool_decide _ = true |- _ => apply bool_decide_eq_true in H end.
  subst. split; cbn; unfold MAX_U64; lia.
Qed.

Lemma decode_slots_bound s ps img h slots :
  bound (store_header s) → decode_slots s ps img = Ok (h, slots) → bound h.
Proof.
  intros [Hu _ Hk]. unfold decode_slots. cbn [CONTROL_SLOT_PAGES]. case_match; [done|].
  destruct (decode_header _ _ _ _ _ _) as [h'|] eqn:Hd; [|done]. cbn [mbind result_bind].
  intros Hr. inv_ok Hr. injection Hr as <- _. by eapply decode_header_bound.
Qed.

(** What a reader makes of the content of the file. *)
Inductive View := Absent | Legacy (image : bytes) | At (generation : Z) (payload : bytes) | Damaged.

Definition view (s : Store) (ps : Z) (x : option bytes) : View :=
  match x with
  | None => Absent
  | Some img =>
      if zlen img =? CONTROL_FILE_PAGES * ps then
        match decode_complete_image s ps img with
        | Ok (_, Some c, _) => At (slot_generation c) (slot_payload c)
        | _ => Damaged
        end
      else Legacy img
  end.

Definition base (v : View) : Z := match v with At g _ => g | _ => 0 end.

(** The old record, or one of the next [n] generations with the new payload. *)
Definition old_or_new (s : Store) (ps : Z) (v : View) (payload : bytes) (n : Z) (y : option bytes) : Prop :=
  view s ps y = v ∨ ∃ k, 1 <= k <= n ∧ view s ps y = At (base v + k) payload.

Lemma current_view s ps img h c t :
  current s ps img h c t → view s ps (Some img) = At (slot_generation c) (slot_payload c).
Proof. intros H. unfold view. rewrite (current_zlen _ _ _ _ _ _ H), Z.eqb_refl. by rewrite H. Qed.

Lemma view_current s ps img g payload :
  view s ps (Some img) = At g payload → ∃ h c t, current s ps img h c t ∧
    slot_generation c = g ∧ slot_payload c = payload.
Proof.
  unfold view, current. case_match; [|done].
  destruct (decode_complete_image s ps img) as [[[h [c|]] t]|]; [|done..].
  intros [= <- <-]. by exists h, c, t.
Qed.

(** The checksum catches every torn write of a slot. *)
Definition tears_caught {Dev} `{StorageLaws Dev} (ps : Z) : Prop := ∀ h g payload old left,
  bound h → slot_fits ps g payload → zlen left = ps → torn old (slot_bytes h g payload ps) left →
  left = old ∨ left = slot_bytes h g payload ps ∨ decode_slot left h ps = Ok INVALID.

Section lawful.
Context {Dev : Type} `{SL : StorageLaws Dev}.
Variables (s : Store) (ps : Z).

(** The file [f] holds [x], and a loss of power leaves it in [R]. *)
Definition holds (f : pystr) (x : option bytes) (R : option bytes → Prop) (st : @St Dev) : Prop :=
  page_size (device st) = ps ∧ files (device st) !! f = x ∧ ∀ y, recoverable (device st) f y → R y.
(** Both what it holds and what a loss of power leaves are in [R]. *)
Definition may (f : pystr) (R : option bytes → Prop) (st : @St Dev) : Prop := ∃ x, R x ∧ holds f x R st.

Lemma holds_may f x (R R' : option bytes → Prop) st :
  holds f x R st → R' x → (∀ y, R y → R' y) → may f R' st.
Proof. intros (? & ? & ?) ? ?. exists x. unfold holds. eauto 6. Qed.

Lemma may_mono f (R R' : option bytes → Prop) st : may f R st → (∀ y, R y → R' y) → may f R' st.
Proof. intros (x & HR & Hh) HRR. apply (holds_may f x R); auto. Qed.

(** An operation that touches nothing keeps every fact about the files. *)
Lemma spec_quiet {A} (m : M Dev A) (φ : gmap pystr bytes → A → Prop) f x R :
  effect m (λ d a d', untouched d d' ∧ φ (files d) a) untouched →
  spec (holds f x R) (on_dev m)
    (λ a st, holds f x R st ∧ ∃ fs, fs !! f = x ∧ φ fs a) (holds f x R).
Proof.
  intros Hm st (Hp & Hf & Hr). unfold on_dev. specialize (Hm (device st)).
  destruct (m (device st)) as [r d]. cbn in Hm. destruct Hm as [Hps Hm]. unfold holds, untouched in *.
  destruct r as [a|e]; cbn.
  - destruct Hm as [[Hfs Hrs] Hφ]. rewrite Hfs, Hrs, Hps. eauto 6.
  - destruct Hm as [Hfs Hrs]. by rewrite Hfs, Hrs, Hps.
Qed.

(** An operation on another file. *)
Lemma spec_other {A} (m : M Dev A) (Q : Dev → A → Dev → Prop) (E : Dev → Dev → Prop) t f x R :
  effect m Q E → (∀ d a d', Q d a d' → only t d d') → (∀ d d', E d d' → only t d d') → f ≠ t →
  spec (holds f x R) (on_dev m) (λ _, holds f x R) (holds f x R).
Proof.
  intros Hm HQ HE Hne st (Hp & Hf & Hr). unfold on_dev. specialize (Hm (device st)).
  destruct (m (device st)) as [r d]. cbn in Hm. destruct Hm as [Hps Hm].
  assert (only t (device st) d) as Ho by (destruct r; eauto). destruct (Ho f Hne) as [Hfs Hrs].
  unfold holds. destruct r; cbn; rewrite Hfs, Hrs, Hps; done.
Qed.

Lemma spec_last_seen {A} (m : M Dev A) g :
  spec (λ st, last_seen st = g) (on_dev m) (λ _ st, last_seen st = g) (λ st, last_seen st = g).
Proof. intros st Hst. unfold on_dev. by destruct (m (device st)) as [[]]. Qed.

(** What a write of [data] over page [i] may leave of the contents in [R]. *)
Definition after_write (R : option bytes → Prop) (i : Z) (data : bytes) (y : option bytes) : Prop :=
  R y ∨ ∃ c p, R (Some c) ∧ y = Some (set_page ps c i p) ∧
    (p = data ∨ torn (page_slice ps c i) data p ∧ zlen p = ps).

Lemma spec_write f c R i data :
  R (Some c) →
  spec (holds f (Some c) R) (on_dev (write_page f i data))
    (λ _ st, holds f (Some (set_page ps c i data)) (after_write R i data) st ∧
             zlen data = ps ∧ 0 <= i ∧ (i + 1) * ps <= zlen c)
    (may f (after_write R i data)).
Proof.
  intros HR st (Hp & Hf & Hr). unfold on_dev. pose proof (write_page_law f i data (device st)) as Hm.
  destruct (write_page f i data (device st)) as [r d]. cbn in Hm. destruct Hm as [Hps Hm].
  rewrite Hp in *. destruct r as [[]|e].
  - destruct Hm as (_ & Hl & (c' & Hc' & Hi & Hle & Hfs) & Hrec). simplify_eq. split; [|done].
    split_and!; [done|done|]. intros y [Hy|(c1 & p & Hc1 & -> & Ht)]%Hrec; [left; auto|right].
    exists c1, p. split_and!; auto.
  - destruct Hm as (_ & Hfs & Hrec).
    assert (∀ y, recoverable d f y → after_write R i data y) as Hrec'.
    { intros y [Hy|(c1 & p & Hc1 & -> & Ht & Hl)]%Hrec; [left; auto|right].
      exists c1, p. split_and!; auto. tauto. }
    exists (files d !! f). split; [|done].
    destruct Hfs as [->|(c' & p & Hc' & Hi & Hle & Ht & Hl & ->)]; [left; by rewrite Hf|].
    simplify_eq. right. exists c, p. auto.
Qed.

Lemma spec_barrier f x R :
  spec (holds f x R) (on_dev (durable_barrier (Some f))) (λ _, holds f x (eq x)) (holds f x R).
Proof.
  intros st (Hp & Hf & Hr). unfold on_dev. pose proof (durable_barrier_law f (device st)) as Hm.
  destruct (durable_barrier (Some f) (device st)) as [r d]. cbn in Hm. destruct Hm as [Hps Hm].
  unfold holds. destruct r as [[]|e]; cbn.
  - destruct Hm as (Hfs & _ & _ & Hrec). rewrite Hps, Hfs. split_and!; [done..|].
    intros y ->%Hrec. congruence.
  - destruct Hm as (Hfs & Hrec). rewrite Hps, Hfs. split_and!; [done..|]. intros y ?%Hrec. auto.
Qed.

Lemma spec_barrier_other f g x R :
  spec (holds g x R) (on_dev (durable_barrier (Some f))) (λ _, holds g x R) (holds g x R).
Proof.
  intros st (Hp & Hf & Hr). unfold on_dev. pose proof (durable_barrier_law f (device st)) as Hm.
  destruct (durable_barrier (Some f) (device st)) as [r d]. cbn in Hm. destruct Hm as [Hps Hm].
  unfold holds. destruct r as [[]|e]; cbn.
  - destruct Hm as (Hfs & Hrec & _). rewrite Hps, Hfs. split_and!; [done..|]. intros y ?%Hrec. auto.
  - destruct Hm as (Hfs & Hrec). rewrite Hps, Hfs. split_and!; [done..|]. intros y ?%Hrec. auto.
Qed.

Lemma spec_replace f t x y :
  f ≠ t →
  spec (λ st, holds t x (eq x) st ∧ holds f (Some y) (eq (Some y)) st) (on_dev (atomic_replace f t))
    (λ _, holds t (Some y) (λ z, z = x ∨ z = Some y)) (may t (λ z, z = x ∨ z = Some y)).
Proof.
  intros Hne st [(Hp & Ht & Hrt) (_ & Hf & Hrf)]. unfold on_dev. pose proof (atomic_replace_law f t (device st)) as Hm.
  destruct (atomic_replace f t (device st)) as [r d]. cbn in Hm. destruct Hm as [Hps Hm].
  assert (∀ z, (recoverable (device st) t z ∨ (t = t ∧ recoverable (device st) f z) ∨ (t = f ∧ z = None)) →
            z = x ∨ z = Some y) as Hz.
  { intros z [Hz|[[_ Hz]|[Hz _]]]; [left|right|congruence]; symmetry; auto. }
  unfold may, holds. destruct r as [[]|e]; cbn.
  - destruct Hm as (_ & _ & Hfs & Hrec). rewrite Hps, Hfs, Hf. split_and!; [done| |].
    + by rewrite lookup_insert_eq.
    + intros z ?%Hrec. by apply Hz.
  - destruct Hm as (Hfs & Hrec). exists (files d !! t). split.
    + destruct Hfs as [->|(_ & _ & ->)]; [by left|]. right. by rewrite Hf, lookup_insert_eq.
    + split_and!; [by rewrite Hps|done|]. intros z ?%Hrec. by apply Hz.
Qed.

Hypothesis store_bound : bound (store_header s).
Hypothesis page_sized : sized ps.
Hypothesis other_name : s_temporary s ≠ s_file s.

Hypothesis tears : tears_caught (Dev:=Dev) ps.

(** A current record of generation [g] and payload [p], or a later one up to [n] with [payload]. *)
Definition reach (g : Z) (p : bytes) (n : Z) (payload : bytes) (y : option bytes) : Prop :=
  ∃ img h c t, y = Some img ∧ current s ps img h c t ∧
    ((slot_generation c = g ∧ slot_payload c = p) ∨
     ∃ k, 1 <= k <= n ∧ slot_generation c = g + k ∧ slot_payload c = payload).

Lemma reach_weaken g p n payload y :
  0 <= n → reach (g + 1) payload n payload y → reach g p (n + 1) payload y.
Proof.
  intros Hn (img & h & c & t & -> & Hc & Hk). exists img, h, c, t. split_and!; [done|done|]. right.
  destruct Hk as [[? ?]|(k & ? & ? & ?)]; [exists 1|exists (k + 1)]; split_and!; auto; lia.
Qed.

(** One write over the target of a current record. *)
Lemma after_write_reach img h c t payload y :
  current s ps img h c t → slot_fits ps (slot_generation c + 1) payload →
  after_write (eq (Some img)) t (slot_bytes h (slot_generation c + 1) payload ps) y →
  reach (slot_generation c) (slot_payload c) 1 payload y.
Proof.
  intros Hc Hf Hy.
  assert (bound h) as Hh by (apply current_inv in Hc as (? & ? & _); by eapply decode_slots_bound).
  assert (0 < slot_generation c) as Hpos.
  { apply current_inv in Hc as (? & _ & (_ & _ & Hp & _)%select_slot_Some). unfold populated in Hp. lia. }
  assert (0 <= ps) as Hps by (unfold sized in page_sized; lia).
  destruct (current_page _ _ _ _ _ _ Hc) as [(_ & Ht & Hle)|]; [|lia].
  assert (reach (slot_generation c) (slot_payload c) 1 payload (Some img)) as Hold
    by (exists img, h, c, t; auto).
  assert (reach (slot_generation c) (slot_payload c) 1 payload
            (Some (set_page ps img t (slot_bytes h (slot_generation c + 1) payload ps)))) as Hnew.
  { eexists _, h, (MkSlot true (slot_generation c + 1) payload), _. split; [done|]. split.
    - apply (current_overwrite s ps img h c); [done|done|by apply zlen_slot_bytes| |lia].
      apply decode_slot_bytes; [done|done|lia].
    - right. exists 1. cbn. split_and!; [lia..|done]. }
  destruct Hy as [<-|(c1 & p & [= <-] & -> & [->|[Htorn Hl]])]; [done|done|].
  apply tears in Htorn as [->|[->|Hx]]; [|done| |done..].
  - by rewrite set_page_same.
  - exists (set_page ps img t p), h, c, t. split; [done|]. split; [by apply current_torn|auto].
Qed.

Lemma publish_slots_spec n payload img h c t g :
  current s ps img h c t → slot_generation c + Z.of_nat n <= MAX_U64 →
  spec (λ st, holds (s_file s) (Some img) (eq (Some img)) st ∧ last_seen st = g)
    (publish_slots s n ps h payload (slot_generation c) t)
    (λ g' st, g' = slot_generation c + Z.of_nat n ∧
       last_seen st = (if decide (n = 0%nat) then g else g') ∧
       ∃ img' c' t', current s ps img' h c' t' ∧ slot_generation c' = g' ∧
         slot_payload c' = (if decide (n = 0%nat) then slot_payload c else payload) ∧
         holds (s_file s) (Some img') (eq (Some img')) st)
    (may (s_file s) (reach (slot_generation c) (slot_payload c) (Z.of_nat n) payload)).
Proof.
  revert img c t g. induction n as [|n IH]; intros img c t g Hc Hg; cbn [publish_slots].
  { apply spec_ret. intros st [Hh Hl]. rewrite Z.add_0_r. split_and!; [done|by rewrite decide_True|].
    exists img, c, t. rewrite decide_True by done. auto. }
  assert (reach (slot_generation c) (slot_payload c) (Z.of_nat (S n)) payload (Some img)) as Hold
    by (exists img, h, c, t; auto).
  assert (bound h) as Hh by (pose proof Hc as Hc'; apply current_inv in Hc' as (? & ? & _); by eapply decode_slots_bound).
  assert (0 < slot_generation c) as Hpos.
  { pose proof Hc as Hc'. apply current_inv in Hc' as (? & _ & (_ & _ & Hp & _)%select_slot_Some).
    unfold populated in Hp. lia. }
  apply (spec_bind _ _ _ (λ simg st, (slot_fits ps (slot_generation c + 1) payload ∧
           simg = slot_bytes h (slot_generation c + 1) payload ps) ∧
           holds (s_file s) (Some img) (eq (Some img)) st)).
  { apply spec_lift; intros a st Ha [Hst _].
    - split; [|done]. by apply encode_slot_Ok.
    - apply (holds_may _ _ _ _ _ Hst); [done|by intros y <-]. }
  intros simg. apply spec_fact. intros [Hf ->]. set (x := slot_bytes h (slot_generation c + 1) payload ps).
  set (R := after_write (eq (Some img)) t x).
  assert (∀ y, R y → reach (slot_generation c) (slot_payload c) (Z.of_nat (S n)) payload y) as HR.
  { intros y Hy%(after_write_reach img h c t payload); [|done..].
    destruct Hy as (i1 & h1 & c1 & t1 & -> & Hc1 & Hk). exists i1, h1, c1, t1. split_and!; [done|done|].
    destruct Hk as [?|(k & ? & ?)]; [by left|right; exists k; split; [lia|done]]. }
  apply (spec_bind _ _ _ (λ _ st, holds (s_file s) (Some (set_page ps img t x)) R st)).
  { eapply spec_weaken; [apply (spec_write (s_file s) img (eq (Some img)) t x); done|done|by intros ? ? [? _]|].
    intros st Hst. by apply (may_mono _ _ _ _ Hst). }
  intros _. set (img' := set_page ps img t x).
  apply (spec_bind _ _ _ (λ _ st, holds (s_file s) (Some img') (eq (Some img')) st)).
  { eapply spec_weaken; [apply spec_barrier|done|done|]. intros st Hst.
    apply (holds_may _ _ _ _ _ Hst); [|done]. apply HR. right. exists img, x. auto. }
  intros _. apply (spec_bind _ _ _ (λ _ st, holds (s_file s) (Some img') (eq (Some img')) st ∧
                                     last_seen st = slot_generation c + 1)).
  { apply spec_modify. intros st Hst. done. }
  intros _.
  assert (current s ps img' h (MkSlot true (slot_generation c + 1) payload) (other_page t)) as Hc'.
  { apply (current_overwrite s ps img h c); [unfold sized in page_sized; lia|done|by apply zlen_slot_bytes| |lia].
    apply decode_slot_bytes; [done|done|lia]. }
  eapply spec_weaken; [apply (IH img' _ _ (slot_generation c + 1) Hc'); cbn; lia|done| |].
  - intros g' st (-> & Hl & img2 & c2 & t2 & Hc2 & Hg2 & Hp2 & Hst). cbn [slot_generation slot_payload] in *.
    rewrite (decide_False (P := S n = 0%nat)) by done. split_and!; [lia| |].
    + rewrite Hl. case_decide; lia.
    + exists img2, c2, t2. split_and!; [done|lia| |done]. rewrite Hp2. by case_decide.
  - intros st Hst. apply (may_mono _ _ _ _ Hst). intros y Hy. rewrite Nat2Z.inj_succ.
    apply reach_weaken; [lia|exact Hy].
Qed.

(** *** The bootstrap *)

(** The temporary file holds [c], whatever a loss of power would leave of it. *)
Definition temp_holds (c : bytes) (st : @St Dev) : Prop :=
  page_size (device st) = ps ∧ files (device st) !! s_temporary s = Some c.

Lemma spec_temp_write c i data :
  spec (temp_holds c) (on_dev (write_page (s_temporary s) i data))
    (λ _, temp_holds (set_page ps c i data)) (λ _, True).
Proof.
  intros st (Hp & Hf). eapply (spec_weaken _ _ _ _ _ _ _
    (spec_write (s_temporary s) c (λ _, True) i data I)); [| |done|].
  - intros st' H'. exact H'.
  - intros a st' ((Hps & Hfs & _) & _). by split.
  - by split_and!.
Qed.

Lemma spec_file_temp_write x c i data :
  spec (λ st, holds (s_file s) x (eq x) st ∧ temp_holds c st)
    (on_dev (write_page (s_temporary s) i data))
    (λ _ st, holds (s_file s) x (eq x) st ∧ temp_holds (set_page ps c i data) st)
    (holds (s_file s) x (eq x)).
Proof.
  apply (spec_pair _ _ (holds (s_file s) x (eq x)) (temp_holds c) _ _ (holds (s_file s) x (eq x)) (λ _, True));
    [|apply spec_temp_write|done|done].
  refine (spec_other _ _ _ (s_temporary s) (s_file s) x (eq x) (write_page_law _ _ _) _ _ _);
    [by intros ??? (?&?)|by intros ?? (?&?)|]. intros E. by apply other_name.
Qed.

Lemma bootstrap_spec x payload :
  spec (holds (s_file s) x (eq x)) (bootstrap s payload)
    (λ _ st, slot_fits ps 1 payload ∧
       holds (s_file s) (Some (boot_image (store_header s) payload ps))
         (eq (Some (boot_image (store_header s) payload ps))) st)
    (may (s_file s) (λ y, y = x ∨ slot_fits ps 1 payload ∧
       y = Some (boot_image (store_header s) payload ps))).
Proof.
  set (F := holds (s_file s) x (eq x)). set (h := store_header s).
  set (Rr := λ y, y = x ∨ slot_fits ps 1 payload ∧ y = Some (boot_image h payload ps)).
  assert (∀ st, F st → may (s_file s) Rr st) as HF.
  { intros st Hst. apply (holds_may _ _ _ _ _ Hst); [by left|intros y <-; by left]. }
  assert (s_file s ≠ s_temporary s) as Hne by (intros E; by apply other_name).
  assert (∀ c i data, spec (λ st, F st ∧ temp_holds c st) (on_dev (write_page (s_temporary s) i data))
            (λ _ st, F st ∧ temp_holds (set_page ps c i data) st) (may (s_file s) Rr)) as Hw.
  { intros c i data. refine (spec_weaken _ _ _ _ _ _ _ (spec_file_temp_write x c i data) _ _ HF); done. }
  cbn [bootstrap CONTROL_SLOT_PAGES]. unfold page_size_of.
  apply (spec_bind _ _ _ (λ p st, p = ps ∧ F st)).
  { apply spec_gets. intros st Hst. split; [by destruct Hst|done]. }
  intros p. apply spec_fact. intros ->.
  apply (spec_bind _ _ _ (λ _, F)).
  { refine (spec_weaken _ _ _ _ _ _ _ (spec_quiet (exists_ (s_temporary s))
      (λ fs b, b = bool_decide (is_Some (fs !! s_temporary s))) (s_file s) x (eq x) (exists_law _)) _ _ _);
      [done|by intros ?? [? _]|exact HF]. }
  intros found. apply (spec_bind _ _ _ (λ _, F)).
  { destruct found; [|by apply spec_ret].
    refine (spec_weaken _ _ _ _ _ _ _ (spec_other _ _ _ (s_temporary s) (s_file s) x (eq x) (remove_law _) _ _ Hne) _ _ _);
      [by intros ??? (?&?)|done|done|done|exact HF]. }
  intros _. apply (spec_bind _ _ _ (λ _ st, F st ∧ temp_holds [] st)).
  { apply (spec_pair _ _ F F _ _ F (λ _, True)); [| |exact HF|done].
    - refine (spec_other _ _ _ (s_temporary s) (s_file s) x (eq x) (create_law _ _) _ _ Hne); [by intros ??? (?&?)|done].
    - intros st (Hp & _). unfold on_dev. pose proof (create_law (s_temporary s) true (device st)) as Hl.
      destruct (create _ _ _) as [[a|] d]; [|done]. cbn in Hl. destruct Hl as (Hps & _ & Hm).
      split; cbn; [by rewrite Hps|]. destruct (files (device st) !! s_temporary s); [by destruct Hm|done]. }
  intros _. apply (spec_bind _ _ _ (λ first st, F st ∧ temp_holds (zeros (CONTROL_FILE_PAGES * ps)) st)).
  { apply (spec_pair _ _ F (temp_holds []) _ _ F (λ _, True)); [| |exact HF|done].
    - refine (spec_other _ _ _ (s_temporary s) (s_file s) x (eq x) (allocate_law _ _) _ _ Hne); [by intros ??? (?&?)|done].
    - intros st (Hp & Hf). unfold on_dev. pose proof (allocate_law (s_temporary s) CONTROL_FILE_PAGES (device st)) as Hl.
      destruct (allocate _ _ _) as [[a|] d]; [|done]. cbn in Hl. destruct Hl as (Hps & _ & c & Hc & _ & Hm).
      rewrite Hf in Hc. injection Hc as <-. split; cbn; [by rewrite Hps|by rewrite Hm, Hp]. }
  intros first. destruct (negb (first =? 0)).
  { apply spec_lift; [done|]. intros e st _ [Hst _]. by apply HF. }
  fold h. destruct (header_pages_ok h ps store_bound page_sized) as (-> & Hpage & Hlh).
  apply (spec_bind _ _ _ (λ b st, b = header_body h ps ∧ F st ∧ temp_holds (zeros (CONTROL_FILE_PAGES * ps)) st)).
  { apply spec_lift; [by intros b st [= <-]|done]. }
  intros b. apply spec_fact. intros ->. rewrite Hpage.
  apply (spec_bind _ _ _ (λ b st, b = header_bytes h ps ∧ F st ∧ temp_holds (zeros (CONTROL_FILE_PAGES * ps)) st)).
  { apply spec_lift; [by intros b st [= <-]|done]. }
  intros b. apply spec_fact. intros ->.
  eapply spec_bind; [apply Hw|].
  intros []. apply (spec_bind _ _ _ (λ b st, (slot_fits ps 1 payload ∧ b = slot_bytes h 1 payload ps) ∧ F st ∧
     temp_holds (set_page ps (zeros (CONTROL_FILE_PAGES * ps)) 0 (header_bytes h ps)) st)).
  { apply spec_lift.
    - intros b st Hb Hst. split; [by apply encode_slot_Ok|exact Hst].
    - intros e st _ [Hst _]. by apply HF. }
  intros b. apply spec_fact. intros [Hf ->].
  assert (slot_fits ps 0 []) as Hf0.
  { pose proof (zlen_nonneg payload). destruct Hf. split; [done| |unfold MAX_U64; lia]. rewrite zlen_nil. lia. }
  eapply spec_bind; [apply Hw|].
  intros []. apply (spec_bind _ _ _ (λ b st, b = slot_bytes h 0 [] ps ∧ F st ∧ temp_holds (set_page ps
     (set_page ps (zeros (CONTROL_FILE_PAGES * ps)) 0 (header_bytes h ps)) 1 (slot_bytes h 1 payload ps)) st)).
  { apply spec_lift; [intros b st Hb Hst; split; [|exact Hst]|].
    - by apply encode_slot_Ok in Hb as [_ ->].
    - intros e st _ [Hst _]. by apply HF. }
  intros b. apply spec_fact. intros ->.
  eapply spec_bind; [apply Hw|].
  intros []. rewrite (boot_pages h payload ps store_bound Hf). set (img := boot_image h payload ps).
  apply (spec_bind _ _ _ (λ _ st, F st ∧ holds (s_temporary s) (Some img) (eq (Some img)) st)).
  { apply (spec_pair _ _ F (temp_holds img) _ _ F (λ _, True)); [apply spec_barrier_other| |exact HF|done].
    eapply spec_weaken; [apply (spec_barrier (s_temporary s) (Some img) (λ _, True))| |done|done].
    intros st [? ?]. by split_and!. }
  intros []. apply (spec_bind _ _ _ (λ _, holds (s_file s) (Some img) (λ z, z = x ∨ z = Some img))).
  { refine (spec_weaken _ _ _ _ _ _ _ (spec_replace (s_temporary s) (s_file s) x img other_name) _ _ _);
      [done|done|]. intros st Hst. apply (may_mono _ _ _ _ Hst). intros y [->| ->]; [by left|by right]. }
  intros []. refine (spec_weaken _ _ _ _ _ _ _ (spec_barrier (s_file s) (Some img) _) _ _ _);
    [intros st Hst; exact Hst|done|]. intros st Hst.
  apply (holds_may _ _ _ _ _ Hst); [by right|]. intros y [->| ->]; [by left|by right].
Qed.

(** *** Reading the image *)

(** What an injected reader must do: read, and touch nothing. *)
Definition reads_files (r : @reader Dev) : Prop := ∀ f o n,
  0 <= o → 0 <= n →
  effect (r f o n) (λ d data d', untouched d d' ∧
    data = (λ c, slice c o (o + n)) <$> (files d !! f)) untouched.

Variable read_if_exists : @reader Dev.
Hypothesis reader_ok : reads_files read_if_exists.

Lemma slice_all {A} (c : list A) n : zlen c <= n → slice c 0 n = c.
Proof. intros. unfold slice, zlen in *. rewrite drop_0. apply take_ge. lia. Qed.

Lemma zlen_slice_0 {A} (c : list A) n : 0 <= n → zlen (slice c 0 n) = Z.min (zlen c) n.
Proof. intros. unfold slice, zlen. rewrite length_take, drop_0. lia. Qed.

(** The image a publication works on: whole when it has the size of a record. *)
Definition image_of (complete : bool) (x image : option bytes) : Prop :=
  match x, image with
  | None, None => True
  | Some c, Some img =>
      (zlen img = CONTROL_FILE_PAGES * ps ↔ zlen c = CONTROL_FILE_PAGES * ps) ∧
      (complete = true ∨ zlen c <= CONTROL_FILE_PAGES * ps → img = c)
  | _, _ => False
  end.

Lemma read_file_image_spec complete x R g :
  spec (λ st, holds (s_file s) x R st ∧ last_seen st = g) (read_file_image s read_if_exists complete)
    (λ image st, image_of complete x image ∧ holds (s_file s) x R st ∧ last_seen st = g)
    (λ st, holds (s_file s) x R st ∧ last_seen st = g).
Proof.
  set (P := λ st, holds (s_file s) x R st ∧ last_seen st = g).
  set (size := CONTROL_FILE_PAGES * ps).
  assert (0 <= size) as Hsz by (unfold size, CONTROL_FILE_PAGES, sized in *; lia).
  assert (∀ A (m : M Dev A) φ, effect m (λ d a d', untouched d d' ∧ φ (files d) a) untouched →
            spec P (on_dev m) (λ a st, (∃ fs, fs !! s_file s = x ∧ φ fs a) ∧ P st) P) as Hquiet.
  { intros A m φ Hm. eapply (spec_weaken _ P P); [apply spec_and|..].
    - exact (spec_quiet m φ (s_file s) x R Hm).
    - exact (spec_last_seen m g).
    - done.
    - intros a st [[? ?] ?]. done.
    - done. }
  unfold read_file_image, page_size_of.
  apply (spec_bind _ _ _ (λ p st, p = ps ∧ P st)).
  { apply spec_gets. intros st Hst. split; [by destruct Hst as [[] _]|done]. }
  intros p. apply spec_fact. intros ->.
  eapply spec_bind; [apply (Hquiet _ _ (λ fs data, data = (λ c, slice c 0 (0 + (size + 1))) <$> (fs !! s_file s))
    (reader_ok (s_file s) 0 (size + 1) ltac:(lia) ltac:(lia)))|].
  intros data. apply spec_fact. intros (fs & Hfs & ->). cbn beta. rewrite Hfs. clear fs Hfs.
  destruct x as [c|]; cbn [fmap option_fmap option_map]; [|by apply spec_ret].
  rewrite Z.add_0_l. fold size. pose proof (zlen_slice_0 c (size + 1) ltac:(lia)) as Hl.
  pose proof (zlen_nonneg c).
  destruct (Z.eqb_spec (zlen (slice c 0 (size + 1))) size) as [He|He].
  { apply spec_ret. intros st Hst. split; [|done]. cbn. fold size. rewrite slice_all by lia. split; [|done]. lia. }
  eapply spec_bind; [apply (Hquiet _ _ (λ fs n, ∃ c, fs !! s_file s = Some c ∧ n = zlen c) (file_size_law (s_file s)))|].
  intros n. apply spec_fact. intros (fs & Hfs & c' & Hc' & ->). simplify_eq.
  assert (∀ field, spec P (@refuse Dev (option bytes) field)
            (λ image st, image_of complete (Some c) image ∧ P st) P) as Hrefuse
    by (intros field; by apply spec_lift).
  destruct (Z.leb_spec (zlen c) size).
  { rewrite slice_all by lia. destruct (Z.eqb_spec (zlen c) (zlen c)); [|apply Hrefuse].
    apply spec_ret. intros st Hst. done. }
  destruct (Z.eqb_spec (zlen (slice c 0 (size + 1))) (size + 1)); cbn [negb]; [|apply Hrefuse].
  destruct complete; cbn [negb].
  - eapply spec_bind; [apply (Hquiet _ _ (λ fs data, ∃ c0, fs !! s_file s = Some c0 ∧ 0 <= 0 ∧ 0 <= zlen c ∧
      data = slice c0 0 (0 + zlen c)) (read_log_law (s_file s) 0 (zlen c)))|].
    intros data. apply spec_fact. intros (fs' & Hfs' & c0 & Hc0 & _ & _ & ->). simplify_eq.
    rewrite Z.add_0_l, slice_all by lia. rewrite Z.eqb_refl. cbn [negb].
    apply spec_ret. intros st Hst. done.
  - apply spec_ret. intros st Hst. split; [|done]. cbn. fold size. split; [lia|]. intros [?|?]; [done|lia].
Qed.

Lemma read_exact_image_spec x R g :
  spec (λ st, holds (s_file s) x R st ∧ last_seen st = g) (read_exact_image s)
    (λ image st, (zlen image = CONTROL_FILE_PAGES * ps ∧ x = Some image) ∧
       holds (s_file s) x R st ∧ last_seen st = g)
    (λ st, holds (s_file s) x R st ∧ last_seen st = g).
Proof.
  set (P := λ st, holds (s_file s) x R st ∧ last_seen st = g). set (size := CONTROL_FILE_PAGES * ps).
  assert (0 <= size) as Hsz by (unfold size, CONTROL_FILE_PAGES, sized in *; lia).
  unfold read_exact_image, page_size_of.
  apply (spec_bind _ _ _ (λ p st, p = ps ∧ P st)).
  { apply spec_gets. intros st Hst. split; [by destruct Hst as [[] _]|done]. }
  intros p. apply spec_fact. intros ->. fold size.
  apply (spec_bind _ _ _ (λ data st, (∃ c, x = Some c ∧ data = slice c 0 (size + 1)) ∧ P st)).
  { refine (spec_weaken _ _ _ _ _ _ _ (spec_and _ _ _ _ _ _ _
      (spec_quiet (read_log (s_file s) 0 (size + 1)) (λ fs data, ∃ c0, fs !! s_file s = Some c0 ∧ 0 <= 0 ∧
         0 <= size + 1 ∧ data = slice c0 0 (0 + (size + 1))) (s_file s) x R (read_log_law _ _ _))
      (spec_last_seen (read_log (s_file s) 0 (size + 1)) g)) _ _ _); [done| |done].
    intros data st [[Hst (fs & Hfs & c & Hc & _ & _ & ->)] Hl]. split; [|done]. exists c.
    split; [congruence|done]. }
  intros data. apply spec_fact. intros (c & -> & ->).
  pose proof (zlen_slice_0 c (size + 1) ltac:(lia)) as Hl. pose proof (zlen_nonneg c).
  destruct (Z.eqb_spec (zlen (slice c 0 (size + 1))) size); cbn [negb]; [|by apply spec_lift].
  apply spec_ret. intros st Hst. split; [|done]. rewrite slice_all in * by lia. done.
Qed.

(** *** Publishing *)

(** The file durably holds [x]. *)
Definition settled (x : option bytes) : @St Dev → Prop := holds (s_file s) x (eq x).

Definition boot (payload : bytes) : bytes := boot_image (store_header s) payload ps.
Definition boot_prepared (payload : bytes) (n : Z) : Prepared :=
  MkPrepared n (Some (boot payload)) (Some (store_header s)) (Some (MkSlot true 1 payload)) 2.

Lemma settled_may x R st : settled x st → R x → may (s_file s) R st.
Proof. intros Hst HR. apply (holds_may _ _ _ _ _ Hst); [done|by intros y <-]. Qed.

Lemma spec_page_size {A} P (f : Z → M (@St Dev) A) Q E :
  (∀ st, P st → page_size (device st) = ps) → spec P (f ps) Q E → spec P (p ← page_size_of; f p) Q E.
Proof.
  intros HP Hf st Hst. specialize (Hf st Hst). unfold page_size_of, gets, mbind, m_bind. by rewrite HP.
Qed.

Lemma settled_size x st : settled x st → page_size (device st) = ps.
Proof. by intros []. Qed.

(** The state after a bootstrap: the publications left are [n - 1]. *)
Definition rebooted (payload : bytes) (n : Z) (r : Z + Prepared) (st : @St Dev) : Prop :=
  slot_fits ps 1 payload ∧ settled (Some (boot payload)) st ∧ last_seen st = 1 ∧
  r = if n =? 1 then inl 1 else inr (boot_prepared payload (n - 1)).

Lemma rebootstrap_spec x payload n :
  spec (settled x) (rebootstrap s payload n) (rebooted payload n)
    (may (s_file s) (λ y, y = x ∨ slot_fits ps 1 payload ∧ y = Some (boot payload))).
Proof.
  unfold rebootstrap. eapply spec_bind; [apply bootstrap_spec|]. intros []. fold (boot payload).
  apply spec_fact. intros Hf.
  apply (spec_bind _ _ _ (λ _ st, settled (Some (boot payload)) st ∧ last_seen st = 1)).
  { apply spec_modify. intros st Hst. done. }
  intros []. replace (n - 1 =? 0) with (n =? 1) by lia. destruct (n =? 1) eqn:Hn.
  { apply spec_ret. intros st [??]. unfold rebooted. rewrite Hn. done. }
  apply spec_page_size; [intros st [Hst _]; by apply settled_size in Hst|].
  assert (∀ st, settled (Some (boot payload)) st ∧ last_seen st = 1 →
            may (s_file s) (λ y, y = x ∨ slot_fits ps 1 payload ∧ y = Some (boot payload)) st) as HE
    by (intros st [Hst _]; apply (settled_may _ _ _ Hst); auto).
  eapply spec_bind.
  { refine (spec_weaken _ _ _ _ _ _ _ (read_exact_image_spec (Some (boot payload)) (eq (Some (boot payload))) 1) _ _ _);
      [done|intros ?? Hx; exact Hx|exact HE]. }
  intros img. apply spec_fact. intros [_ [= <-]].
  apply (spec_bind _ _ _ (λ v st, v = (store_header s, Some (MkSlot true 1 payload), 2) ∧
           settled (Some (boot payload)) st ∧ last_seen st = 1)).
  { apply spec_lift; intros ? st Hd Hst; pose proof (boot_current s payload ps store_bound Hf) as Hc;
      unfold current in Hc; fold (boot payload) in Hc; rewrite Hc in Hd; [|done]. by injection Hd as <-. }
  intros [[h c] t]. apply spec_fact. intros [= -> -> ->]. apply spec_ret. intros st [??].
  unfold rebooted. rewrite Hn. done.
Qed.

Lemma boot_view payload : slot_fits ps 1 payload → view s ps (Some (boot payload)) = At 1 payload.
Proof. intros Hf. unfold boot. by rewrite (current_view _ _ _ _ _ _ (boot_current s payload ps store_bound Hf)). Qed.

Lemma old_or_boot x payload n y :
  1 <= n → base (view s ps x) = 0 → y = x ∨ slot_fits ps 1 payload ∧ y = Some (boot payload) →
  old_or_new s ps (view s ps x) payload n y.
Proof.
  intros Hn Hb [->|[Hf ->]]; [by left|right]. exists 1. split; [lia|]. rewrite Hb. by apply boot_view.
Qed.

(** What [prepare] leaves: a file to bootstrap, a decoded record, or a record it bootstrapped
    because the damage was replaceable. *)
Definition prepared (x image : option bytes) (payload : bytes) (n : Z)
    (r : Z + (Prepared * option bytes)) (st : @St Dev) : Prop :=
  (r = inr (MkPrepared n image None None 1, image) ∧ settled x st ∧
     match x with Some c => zlen c ≠ CONTROL_FILE_PAGES * ps | None => True end) ∨
  (∃ c h ch t, x = Some c ∧ image = Some c ∧ decode_complete_image s ps c = Ok (h, ch, t) ∧
     r = inr (MkPrepared n image (Some h) ch t, slot_payload <$> ch) ∧ settled x st) ∨
  (view s ps x = Damaged ∧ slot_fits ps 1 payload ∧ settled (Some (boot payload)) st ∧ last_seen st = 1 ∧
     r = if n =? 1 then inl 1 else inr (boot_prepared payload (n - 1), Some payload)).

Lemma rebooted_prepared x image payload n r st :
  view s ps x = Damaged → rebooted payload n r st →
  prepared x image payload n
    (match r with inl g => inl g | inr p => inr (p, slot_payload <$> p_chosen p) end) st.
Proof.
  intros Hv (Hf & Hst & Hl & ->). right. right. split_and!; [done..|]. by destruct (n =? 1).
Qed.

Lemma undecoded_view c :
  zlen c = CONTROL_FILE_PAGES * ps →
  (∀ h ch t, decode_complete_image s ps c = Ok (h, Some ch, t) → False) → view s ps (Some c) = Damaged.
Proof.
  intros Hl Hd. unfold view. rewrite Hl, Z.eqb_refl.
  destruct (decode_complete_image s ps c) as [[[h [ch|]] t]|]; [|done..]. by destruct (Hd h ch t).
Qed.

Lemma prepare_spec x image payload n replace_damaged :
  1 <= n → image_of false x image →
  spec (settled x) (prepare s payload n replace_damaged image) (prepared x image payload n)
    (may (s_file s) (old_or_new s ps (view s ps x) payload n)).
Proof.
  intros Hn Hi. unfold prepare. apply spec_page_size; [apply settled_size|].
  assert (∀ st, settled x st → may (s_file s) (old_or_new s ps (view s ps x) payload n) st) as HE
    by (intros st Hst; apply (settled_may _ _ _ Hst); by left).
  destruct x as [c|], image as [img|]; try done.
  2:{ apply spec_ret. intros st Hst. by left. }
  destruct Hi as [Hsz Himg].
  destruct (Z.eqb_spec (zlen img) (CONTROL_FILE_PAGES * ps)) as [He|He]; cbn [negb].
  2:{ apply spec_ret. intros st Hst. left. split_and!; [done..|]. by rewrite <-Hsz. }
  assert (img = c) as -> by (apply Himg; right; lia). clear Himg Hsz.
  assert (∀ r, spec (λ st, view s ps (Some c) = Damaged ∧ rebooted payload n r st)
            (match r with inl g => mret (inl g) | inr p => mret (inr (p, slot_payload <$> p_chosen p)) end)
            (prepared (Some c) (Some c) payload n)
            (may (s_file s) (old_or_new s ps (view s ps (Some c)) payload n))) as Hfinish.
  { intros r st [Hv Hr]. pose proof (rebooted_prepared (Some c) (Some c) payload n r st Hv Hr).
    by destruct r. }
  set (decoded := λ (r : Z + Prepared) (st : @St Dev),
    (∃ h ch t, decode_complete_image s ps c = Ok (h, ch, t) ∧
       r = inr (MkPrepared n (Some c) (Some h) ch t) ∧ settled (Some c) st) ∨
    (view s ps (Some c) = Damaged ∧ rebooted payload n r st)).
  assert (∀ P, (∀ st, P st → settled (Some c) st ∧ view s ps (Some c) = Damaged) →
     spec P (rebootstrap s payload n) (λ r st, view s ps (Some c) = Damaged ∧ rebooted payload n r st)
       (may (s_file s) (old_or_new s ps (view s ps (Some c)) payload n))) as Hreboot.
  { intros P HP st Hst. destruct (HP st Hst) as [Hst' Hv]. pose proof (rebootstrap_spec (Some c) payload n st Hst') as H'.
    destruct (rebootstrap s payload n st) as [[r|e] st']; [done|]. apply (may_mono _ _ _ _ H').
    intros y Hy. apply old_or_boot; [done|by rewrite Hv|done]. }
  apply (spec_bind _ _ _ decoded).
  { apply (spec_catch _ _ _ _ _ (λ st, settled (Some c) st ∧ view s ps (Some c) = Damaged)).
    - apply (spec_bind _ _ _ (λ v st, decode_complete_image s ps c = Ok v ∧ settled (Some c) st)).
      + apply spec_lift; [done|]. intros e st Hd Hst. split; [done|]. apply undecoded_view; [done|congruence].
      + intros [[h ch] t]. apply spec_fact. intros Hd. apply spec_ret. intros st Hst. left. by exists h, ch, t.
    - intros e. destruct (negb _ || negb _).
      + apply spec_lift; [done|]. intros ? st _ [Hst _]. by apply HE.
      + refine (spec_weaken _ _ _ _ _ _ _ (Hreboot _ (λ st Hst, Hst)) _ _ _); [done| |done].
        intros r st Hr. by right.
    - intros st [Hst _]. by apply HE. }
  intros first. apply (spec_bind _ _ _ decoded).
  { intros st [(h & ch & t & Hd & -> & Hst)|[Hv Hr]].
    - cbn [p_chosen p_publications]. destruct (negb _ && replace_damaged) eqn:Hb.
      + destruct ch as [ch|]; [done|].
        assert (view s ps (Some c) = Damaged) as Hv by (apply undecoded_view; [done|congruence]).
        pose proof (Hreboot (λ st, settled (Some c) st ∧ view s ps (Some c) = Damaged) ltac:(done) st
          (conj Hst Hv)) as Hr.
        destruct (rebootstrap s payload n st) as [[r|e] st']; [by right|done].
      + left. by exists h, ch, t.
    - pose proof Hr as (_ & _ & _ & ->). destruct (n =? 1) eqn:Hn1; [by right|]. by right. }
  intros second st [(h & ch & t & Hd & -> & Hst)|Hr].
  - right. left. by exists c, h, ch, t.
  - by apply Hfinish.
Qed.

(** A publication that returned: the record is the new payload, durably. *)
Definition published (v : View) (payload : bytes) (n g : Z) (st : @St Dev) : Prop :=
  g = base v + n ∧ last_seen st = g ∧ ∃ img, view s ps (Some img) = At g payload ∧ settled (Some img) st.

Lemma publish_prepared_spec payload img h c t image m :
  current s ps img h c t → 1 <= m →
  spec (settled (Some img)) (publish_prepared s payload (MkPrepared m image (Some h) (Some c) t))
    (published (At (slot_generation c) (slot_payload c)) payload m)
    (may (s_file s) (reach (slot_generation c) (slot_payload c) m payload)).
Proof.
  intros Hc Hm. unfold publish_prepared. apply spec_page_size; [apply settled_size|].
  cbn [p_header p_chosen p_publications p_target].
  assert (∀ st, settled (Some img) st → may (s_file s) (reach (slot_generation c) (slot_payload c) m payload) st) as HE.
  { intros st Hst. apply (settled_may _ _ _ Hst). exists img, h, c, t. auto. }
  destruct (Z.ltb_spec (MAX_U64 - m) (slot_generation c)).
  { apply spec_lift; [done|]. intros ? st _ Hst. by apply HE. }
  intros st Hst.
  pose proof (publish_slots_spec (Z.to_nat m) payload img h c t (last_seen st) Hc ltac:(lia) st (conj Hst eq_refl)) as Hp.
  rewrite Z2Nat.id in Hp by lia. rewrite !(decide_False (P := Z.to_nat m = 0%nat)) in Hp by lia.
  destruct (publish_slots _ _ _ _ _ _ _ st) as [[g|e] st']; [|done].
  destruct Hp as (-> & Hl & img' & c' & t' & Hc' & Hg & Hpl & Hst').
  rewrite decide_False in Hl by lia. split_and!; [done|done|].
  exists img'. split; [|done]. by rewrite (current_view _ _ _ _ _ _ Hc'), Hg, Hpl.
Qed.

Lemma reach_old_or_new c img h t payload n y :
  current s ps img h c t → reach (slot_generation c) (slot_payload c) n payload y →
  old_or_new s ps (view s ps (Some img)) payload n y.
Proof.
  intros Hc (img' & h' & c' & t' & -> & Hc' & Hk). unfold old_or_new.
  rewrite (current_view _ _ _ _ _ _ Hc), (current_view _ _ _ _ _ _ Hc').
  destruct Hk as [[-> ->]|(k & Hk & -> & ->)]; [by left|right; by exists k].
Qed.

(** After a bootstrap the publications left go on from generation 1. *)
Lemma publish_rebooted_spec payload n v :
  base v = 0 → 1 < n → slot_fits ps 1 payload →
  spec (settled (Some (boot payload))) (publish_prepared s payload (boot_prepared payload (n - 1)))
    (published v payload n) (may (s_file s) (old_or_new s ps v payload n)).
Proof.
  intros Hv Hn Hf. pose proof (boot_current s payload ps store_bound Hf) as Hc.
  refine (spec_weaken _ _ _ _ _ _ _ (publish_prepared_spec payload _ _ _ _ (Some (boot payload)) (n - 1) Hc ltac:(lia)) _ _ _).
  - done.
  - intros g st (-> & Hl & Hst). cbn [base slot_generation] in *.
    unfold published. rewrite Hv. split_and!; [lia|lia|done].
  - intros st Hst. apply (may_mono _ _ _ _ Hst). intros y (img & h & c & t & -> & Hcur & Hk). right.
    rewrite (current_view _ _ _ _ _ _ Hcur), Hv. cbn [slot_generation slot_payload] in Hk.
    destruct Hk as [[-> ->]|(k & Hk & -> & ->)]; [exists 1|exists (1 + k)]; split; [lia|done|lia|done].
Qed.

(** The three kinds of file a publication starts from. *)
Lemma publish_fresh_spec x image payload n :
  1 <= n → image_of false x image →
  match x with Some c => zlen c ≠ CONTROL_FILE_PAGES * ps | None => True end →
  spec (settled x) (publish_from s payload (MkPrepared n image None None 1))
    (published (view s ps x) payload n) (may (s_file s) (old_or_new s ps (view s ps x) payload n)).
Proof.
  intros Hn Hi Hsize. unfold publish_from. apply spec_page_size; [apply settled_size|].
  cbn [p_image p_publications]. assert (base (view s ps x) = 0) as Hb.
  { unfold view. destruct x as [c|]; [|done]. by rewrite (proj2 (Z.eqb_neq _ _) Hsize). }
  assert (match image with Some img => negb (zlen img =? CONTROL_FILE_PAGES * ps) | None => true end = true) as ->.
  { destruct image as [img|]; [|done]. destruct x as [c|]; [|done]. destruct Hi as [Hi _].
    apply negb_true_iff, Z.eqb_neq. by rewrite Hi. }
  apply (spec_bind _ _ _ (rebooted payload n)).
  { refine (spec_weaken _ _ _ _ _ _ _ (rebootstrap_spec x payload n) _ _ _); [done|done|].
    intros st Hst. apply (may_mono _ _ _ _ Hst). intros y. by apply old_or_boot. }
  intros again st (Hf & Hst & Hl & ->). destruct (Z.eqb_spec n 1) as [->|].
  - unfold published. rewrite Hb. split_and!; [done|done|]. exists (boot payload). split; [by apply boot_view|done].
  - revert st Hst Hl. intros st Hst _. revert st Hst. apply publish_rebooted_spec; [done|lia|done].
Qed.

Lemma publish_decoded_spec c h ch t payload n :
  1 <= n → decode_complete_image s ps c = Ok (h, ch, t) →
  spec (settled (Some c)) (publish_from s payload (MkPrepared n (Some c) (Some h) ch t))
    (published (view s ps (Some c)) payload n)
    (may (s_file s) (old_or_new s ps (view s ps (Some c)) payload n)).
Proof.
  intros Hn Hd. unfold publish_from. apply spec_page_size; [apply settled_size|]. cbn [p_image].
  assert (zlen c = CONTROL_FILE_PAGES * ps) as Hsz.
  { unfold decode_complete_image, decode_slots in Hd. cbn [CONTROL_SLOT_PAGES] in Hd.
    by destruct (Z.eqb_spec (zlen c) (CONTROL_FILE_PAGES * ps)). }
  rewrite Hsz, Z.eqb_refl. cbn [negb]. destruct ch as [ch|].
  - refine (spec_weaken _ _ _ _ _ _ _ (publish_prepared_spec payload c h ch t (Some c) n Hd Hn) _ _ _); [done| |].
    + intros g st Hp. by rewrite (current_view _ _ _ _ _ _ Hd).
    + intros st Hst. apply (may_mono _ _ _ _ Hst). intros y. by apply reach_old_or_new with h t.
  - unfold publish_prepared. apply spec_page_size; [apply settled_size|]. cbn [p_header p_chosen].
    apply spec_lift; [done|]. intros ? st _ Hst. apply (settled_may _ _ _ Hst). by left.
Qed.

Lemma publish_replaced_spec payload n v :
  base v = 0 → 1 < n → slot_fits ps 1 payload →
  spec (settled (Some (boot payload))) (publish_from s payload (boot_prepared payload (n - 1)))
    (published v payload n) (may (s_file s) (old_or_new s ps v payload n)).
Proof.
  intros Hb Hn Hf. unfold publish_from. apply spec_page_size; [apply settled_size|].
  assert (zlen (boot payload) = CONTROL_FILE_PAGES * ps) as Hsz
    by exact (current_zlen _ _ _ _ _ _ (boot_current s payload ps store_bound Hf)).
  cbn [p_image boot_prepared]. rewrite Hsz, Z.eqb_refl. cbn [negb]. by apply publish_rebooted_spec.
Qed.

Lemma publish_checked_spec x payload expected n replace_damaged :
  spec (settled x) (publish_checked s read_if_exists payload expected n replace_damaged)
    (published (view s ps x) payload n) (may (s_file s) (old_or_new s ps (view s ps x) payload n)).
Proof.
  set (v := view s ps x).
  assert (∀ st, settled x st → may (s_file s) (old_or_new s ps v payload n) st) as HE
    by (intros st Hst; apply (settled_may _ _ _ Hst); by left).
  unfold publish_checked. destruct (Z.ltb_spec n 1) as [|Hn]; [apply spec_lift; [done|by intros ? st _ ?%HE]|].
  destruct (bool_decide _); [apply spec_lift; [done|by intros ? st _ ?%HE]|].
  apply (spec_bind _ _ _ (λ image st, image_of false x image ∧ settled x st)).
  { intros st Hst. pose proof (read_file_image_spec false x (eq x) (last_seen st) st (conj Hst eq_refl)) as Hr.
    destruct (read_file_image _ _ _ st) as [[i|e] st']; [|destruct Hr; by apply HE]. by destruct Hr as (? & ? & _). }
  intros image. apply spec_fact. intros Hi. eapply spec_bind; [by apply prepare_spec|]. fold v.
  intros r st [(-> & Hst & Hsize)|[(c & h & ch & t & -> & -> & Hd & -> & Hst)|(Hv & Hf & Hst & Hl & ->)]].
  - destruct (match expected with Some _ => _ | None => _ end); [by apply HE|].
    exact (publish_fresh_spec x image payload n Hn Hi Hsize st Hst).
  - destruct (match expected with Some _ => _ | None => _ end); [by apply HE|].
    exact (publish_decoded_spec c h ch t payload n Hn Hd st Hst).
  - assert (base v = 0) as Hb by (unfold v; by rewrite Hv). destruct (Z.eqb_spec n 1) as [->|].
    { unfold published. rewrite Hb. split_and!; [done|done|]. exists (boot payload). split; [by apply boot_view|done]. }
    destruct (match expected with Some _ => _ | None => _ end).
    + apply (settled_may _ _ _ Hst). apply old_or_boot; [done|done|by right].
    + exact (publish_replaced_spec payload n v Hb ltac:(lia) Hf st Hst).
Qed.

(** *** Reading *)

(** What [read] may answer about the content [x] when [seen] is the last generation seen. *)
Definition read_answer (x : option bytes) (seen : Z) (r : option ControlRecordRead) (seen' : Z) : Prop :=
  match view s ps x, r with
  | Absent, None => seen' = seen
  | Legacy img, Some a => a = MkRead img 1 0 [img] ∧ seen' = seen
  | At g p, Some a => payload a = p ∧ generation a = g ∧ format_version a = 2 ∧ seen <= g ∧ seen' = g ∧
                      head (valid_payloads a) = Some p
  | _, _ => False
  end.

Lemma valid_payloads_head slots c t :
  select_slot slots = Ok (Some c, t) → head (valid_payloads_of slots) = Some (slot_payload c).
Proof.
  intros (Ht & Hc & Hp & Hlt)%select_slot_Some. destruct slots as [a b]. unfold valid_payloads_of.
  destruct Ht as [->| ->]; cbn in Hc, Hlt; subst c; destruct (Z.ltb_spec (slot_generation a) (slot_generation b)).
  - rewrite filter_cons_True by done. done.
  - destruct (populated a) eqn:Ha; [specialize (Hlt eq_refl); lia|].
    by rewrite filter_cons_False, filter_cons_True by (done || by rewrite Ha).
  - destruct (populated b) eqn:Hb; [specialize (Hlt eq_refl); lia|].
    by rewrite filter_cons_False, filter_cons_True by (done || by rewrite Hb).
  - rewrite filter_cons_True by done. done.
Qed.

Lemma read_once_spec c R seen :
  spec (λ st, holds (s_file s) (Some c) R st ∧ last_seen st = seen) (read_once s ps c)
    (λ a st, holds (s_file s) (Some c) R st ∧ read_answer (Some c) seen (Some a) (last_seen st))
    (λ st, holds (s_file s) (Some c) R st ∧ last_seen st = seen).
Proof.
  unfold read_once. set (P := λ st : @St Dev, holds (s_file s) (Some c) R st ∧ last_seen st = seen).
  apply (spec_bind _ _ _ (λ v st, decode_slots s ps c = Ok v ∧ P st)); [by apply spec_lift|].
  intros [h slots]. apply spec_fact. intros Hd.
  apply (spec_bind _ _ _ (λ v st, select_slot slots = Ok v ∧ P st)); [by apply spec_lift|].
  intros [[ch|] t]; apply spec_fact; intros Hs; [|by apply spec_lift].
  assert (current s ps c h ch t) as Hc by (apply current_inv; by exists slots).
  apply (spec_bind _ _ _ (λ v st, v = seen ∧ P st)).
  { apply spec_gets. intros st [Hh Hl]. done. }
  intros v. apply spec_fact. intros ->. destruct (Z.ltb_spec (slot_generation ch) seen); [by apply spec_lift|].
  apply (spec_bind _ _ _ (λ _ st, holds (s_file s) (Some c) R st ∧ last_seen st = slot_generation ch)).
  { apply spec_modify. intros st [Hh _]. done. }
  intros _. apply spec_ret. intros st [Hh Hl]. split; [done|]. unfold read_answer.
  rewrite (current_view _ _ _ _ _ _ Hc). cbn. split_and!; try done. by eapply valid_payloads_head.
Qed.

Lemma read_attempts_spec retries c R seen :
  spec (λ st, holds (s_file s) (Some c) R st ∧ last_seen st = seen) (read_attempts s retries ps c)
    (λ a st, holds (s_file s) (Some c) R st ∧ read_answer (Some c) seen (Some a) (last_seen st))
    (λ st, holds (s_file s) (Some c) R st ∧ last_seen st = seen).
Proof.
  induction retries as [|retries IH]; cbn [read_attempts];
    apply (spec_catch _ _ _ _ _ (λ st, holds (s_file s) (Some c) R st ∧ last_seen st = seen));
    [apply read_once_spec|by intros e; apply spec_lift|done|apply read_once_spec| |done].
  intros e. eapply spec_bind; [apply read_exact_image_spec|]. intros img. apply spec_fact.
  intros [_ [= <-]]. exact IH.
Qed.

Lemma read_spec x R seen :
  spec (λ st, holds (s_file s) x R st ∧ last_seen st = seen) (read s read_if_exists)
    (λ r st, holds (s_file s) x R st ∧ read_answer x seen r (last_seen st))
    (λ st, holds (s_file s) x R st ∧ last_seen st = seen).
Proof.
  unfold read. eapply spec_bind; [apply read_file_image_spec|].
  intros image. apply spec_fact. intros Hi. destruct image as [img|], x as [c|]; try done.
  2:{ apply spec_ret. intros st [Hh Hl]. done. }
  destruct Hi as [_ Himg]. assert (img = c) as -> by auto. clear Himg.
  apply spec_page_size; [by intros st [[? _] _]|].
  destruct (Z.eqb_spec (zlen c) (CONTROL_FILE_PAGES * ps)) as [Hz|Hz]; cbn [negb].
  - eapply spec_bind; [apply read_attempts_spec|]. intros a. apply spec_ret. done.
  - apply spec_ret. intros st [Hh Hl]. split; [done|]. unfold read_answer, view.
    by rewrite (proj2 (Z.eqb_neq _ _) Hz).
Qed.
End lawful.

(** The reader a store is given when none is injected keeps the law of readers. *)
Lemma read_log_if_exists_reads {Dev} `{StorageLaws Dev} : reads_files (@read_log_if_exists Dev _).
Proof.
  intros f o n Ho Hn d. unfold read_log_if_exists. pose proof (exists_law f d) as He.
  unfold mbind, m_bind. destruct (exists_ f d) as [[b|e] d1]; cbn in He |- *; [|done].
  destruct He as (Hps & Hu & ->). pose proof (read_log_law f o n d1) as Hr.
  destruct (files d !! f) as [c|] eqn:Hf; cbn [bool_decide decide decide_rel];
    [rewrite bool_decide_true by (by eexists)|rewrite bool_decide_false by (by intros [? ?])];
    cbn [negb]; [|done].
  destruct (read_log f o n d1) as [[data|e] d2]; cbn in Hr |- *.
  - destruct Hr as (Hps2 & Hu2 & c' & Hc' & _ & _ & ->). unfold untouched in *.
    destruct Hu as [Hu1 Hur], Hu2 as [Hu3 Hur2]. rewrite Hu1, Hf in Hc'. injection Hc' as <-.
    split; [congruence|]. split; [split; congruence|done].
  - destruct Hr as (Hps2 & Hu2). unfold untouched in *. destruct Hu, Hu2. split; [congruence|split; congruence].
Qed.

(** ** Damage *)

Lemma slice_one_inside {A} (l r : list A) (x : A) a b :
  0 <= a → a <= zlen l → zlen l < b →
  slice (l ++ x :: r) a b = slice l a (zlen l) ++ x :: slice r 0 (b - zlen l - 1).
Proof.
  intros. rewrite (slice_split _ a (zlen l) b) by lia. rewrite slice_app_l by lia. f_equal.
  rewrite slice_app_r by lia. rewrite Z.sub_diag. unfold slice. rewrite !Z.sub_0_r, !drop_0.
  replace (Z.to_nat (b - zlen l)) with (S (Z.to_nat (b - zlen l - 1))) by lia. done.
Qed.

Lemma decode_slots_at s ps img h slots i :
  slot_page i → decode_slots s ps img = Ok (h, slots) →
  decode_slot (page_slice ps img i) h ps = Ok (slot_at slots i).
Proof.
  intros Hi Hd. unfold decode_slots in Hd. cbn [CONTROL_SLOT_PAGES] in Hd. case_match; [done|].
  destruct (decode_header _ _ _ _ _ _) as [hdr|]; [|done]. cbn [mbind result_bind] in *.
  destruct (decode_slot (page_slice ps img 1) hdr ps) as [a|] eqn:Ha; [|done]. cbn [mbind result_bind] in *.
  destruct (decode_slot (page_slice ps img 2) hdr ps) as [b|] eqn:Hb; [|done]. injection Hd as -> <-.
  by destruct Hi as [->| ->].
Qed.

(** A record both of whose slots were written: generation [g] is current and [g'] the one before. *)
Definition full_record (s : Store) (ps : Z) (img : bytes) (h : Header) (t g g' : Z) (p p' : bytes) : Prop :=
  current s ps img h (MkSlot true g p) t ∧ bound h ∧ slot_fits ps g p ∧ slot_fits ps g' p' ∧ g' < g ∧ (g' = 0 → p' = []) ∧
  page_slice ps img (other_page t) = slot_bytes h g p ps ∧ page_slice ps img t = slot_bytes h g' p' ps.

Lemma damaged_slot s ps img h t g g' p p' i pre b c post :
  full_record s ps img h t g g' p p' → slot_page i →
  img = pre ++ b :: post → b ≠ c → i * ps <= zlen pre < (i + 1) * ps →
  ∃ slots, decode_slots s ps img = Ok (h, slots) ∧ select_slot slots = Ok (Some (MkSlot true g p), t) ∧
    decode_slots s ps (pre ++ c :: post) = Ok (h, with_slot slots i INVALID).
Proof.
  intros (Hc & Hh & Hf & Hf' & Hlt & _ & Hp & Hp') Hi -> Hbc Hr.
  pose proof (fits_size _ _ _ Hf) as Hs. unfold sized in Hs. pose proof (zlen_nonneg pre).
  pose proof Hc as (slots & Hd & Hsel)%current_inv. exists slots. split_and!; [done..|].
  assert (0 <= i * ps) by (destruct Hi; subst; lia).
  apply (decode_slots_page s ps (pre ++ b :: post)); [done|by rewrite !zlen_app, !zlen_cons| |done|].
  - intros j Hj Hne. unfold page_slice. apply slice_one_changed; nia.
  - assert (∃ g0 p0, slot_fits ps g0 p0 ∧ page_slice ps (pre ++ b :: post) i = slot_bytes h g0 p0 ps) as (g0 & p0 & Hf0 & Hi0).
    { apply select_slot_Some in Hsel as (Ht & _).
      destruct (decide (i = t)) as [->|Hne]; [exists g', p'; split; assumption|].
      exists g, p. split; [assumption|].
      rewrite <-Hp. f_equal. unfold other_page. cbn. destruct Hi, Ht; subst; done. }
    unfold page_slice in *. rewrite slice_one_inside in Hi0 |- * by lia.
    by apply (slot_damage h ps g0 p0 _ _ b c).
Qed.

Lemma make_store_inv file kind uuid nonce temporary s :
  make_store file kind uuid nonce temporary = Ok s →
  bound (store_header s) ∧ s_file s = file ∧ s_temporary s = temporary.
Proof.
  unfold make_store, require_kind, require_database_uuid. intros H. inv_ok H.
  destruct (bool_decide (kind ∈ _)) eqn:Hk; [|done]. injection E as <-. apply bool_decide_eq_true in Hk.
  destruct (Z.eqb_spec (zlen uuid) 16); [|done]. injection E0 as <-.
  destruct ((0 <=? nonce) && (nonce <=? MAX_U64)) eqn:Hn; [|done]. injection H as <-.
  split; [|done]. split; cbn; [done|lia|]. unfold MAX_U16, LEASE, READER, COMMIT_STATE in *.
  apply list_elem_of_In in Hk. cbn in Hk. lia.
Qed.

(** ** The theorems *)

(** C13: Publication is atomic.  On every device that keeps the laws of the storage port, with torn
    slot writes caught by the checksum, [publish_checked] started on a file that is stable either
    returns — then the record is the new payload, [n] generations on, and nothing else survives a
    loss of power — or raises, whatever call failed, and then both what the file holds and what any
    loss of power brings back read as the old record or as one of the [n] new ones. *)
Theorem control_publish_atomic {Dev} `{StorageLaws Dev} (s : Store) (r : reader) (file temporary : pystr)
    (kind nonce : Z) (uuid payload : bytes) (expected : option (list (option bytes))) (n : Z)
    (replace_damaged : bool) (st : @St Dev)
    (Hmade : make_store file kind uuid nonce temporary = Ok s)
    (Hpages : validate_page_size (page_size (device st)) = Ok (page_size (device st)))
    (Hnames : temporary ≠ file) (Hreader : reads_files r)
    (Htears : tears_caught (Dev:=Dev) (page_size (device st)))
    (Hstable : ∀ y, recoverable (device st) file y → y = files (device st) !! file) :
  let ps := page_size (device st) in
  let old := view s ps (files (device st) !! file) in
  match publish_checked s r payload expected n replace_damaged st with
  | (Ok g, st') =>
      g = base old + n ∧ last_seen st' = g ∧ view s ps (files (device st') !! file) = At g payload ∧
      ∀ y, recoverable (device st') file y → y = files (device st') !! file
  | (Err _, st') =>
      ∀ y, y = files (device st') !! file ∨ recoverable (device st') file y →
        view s ps y = old ∨ ∃ k, 1 <= k <= n ∧ view s ps y = At (base old + k) payload
  end.
Proof.
  intros ps old. apply validate_page_size_Ok in Hpages as (_ & Hps & _). apply make_store_inv in Hmade as (Hb & Hf & Ht).
  pose proof (publish_checked_spec s ps Hb Hps ltac:(congruence) Htears r Hreader
    (files (device st) !! file) payload expected n replace_damaged st) as Hspec.
  unfold settled in Hspec. rewrite Hf in Hspec. fold old in Hspec. specialize (Hspec ltac:(split_and!; [done..|intros y ->%Hstable; done])).
  destruct (publish_checked _ _ _ _ _ _ st) as [[g|e] st'].
  - destruct Hspec as (-> & Hl & img & Hv & _ & Hfile & Hrec). rewrite Hf in Hfile, Hrec. rewrite Hfile.
    split_and!; [done..|]. intros y Hy%Hrec. done.
  - destruct Hspec as (x & Hx & _ & Hfile & Hrec). intros y [->|Hy]; [by rewrite Hfile|by apply Hrec].
Qed.

(** Reading answers exactly what the file holds: nothing for a missing file, the whole content
    for a legacy file, otherwise the payload and generation of the newest slot that checks; never a
    generation older than the last one seen; and it changes nothing, on success or failure. *)
Theorem control_read_exact {Dev} `{StorageLaws Dev} (s : Store) (r : reader) (file temporary : pystr)
    (kind nonce : Z) (uuid : bytes) (st : @St Dev)
    (Hmade : make_store file kind uuid nonce temporary = Ok s)
    (Hpages : validate_page_size (page_size (device st)) = Ok (page_size (device st)))
    (Hreader : reads_files r) :
  match read s r st with
  | (Ok answer, st') =>
      files (device st') !! file = files (device st) !! file ∧
      match view s (page_size (device st)) (files (device st) !! file), answer with
      | Absent, None => last_seen st' = last_seen st
      | Legacy image, Some a => a = MkRead image 1 0 [image] ∧ last_seen st' = last_seen st
      | At g p, Some a => payload a = p ∧ generation a = g ∧ last_seen st <= g ∧ last_seen st' = g
      | _, _ => False
      end
  | (Err _, st') =>
      files (device st') !! file = files (device st) !! file ∧ last_seen st' = last_seen st
  end.
Proof.
  apply validate_page_size_Ok in Hpages as (_ & Hps & _). apply make_store_inv in Hmade as (_ & Hf & _).
  pose proof (read_spec s (page_size (device st)) Hps r Hreader (files (device st) !! s_file s)
    (λ _, True) (last_seen st) st ltac:(by split_and!)) as Hspec.
  rewrite <-Hf. destruct (read s r st) as [[a|e] st'].
  - destruct Hspec as [(_ & -> & _) Ha]. split; [done|]. unfold read_answer in Ha.
    destruct (view _ _ _), a; try done. tauto.
  - destruct Hspec as [(_ & -> & _) Hl]. done.
Qed.

(** One damaged byte in a slot costs at most one publication.  In a record whose two slots were
    written, a byte changed in the older slot's page leaves the record as it was; a byte changed in
    the current slot's page makes the record read as the one before, or, when there is none, as
    damaged. *)
Theorem control_slot_damage (s : Store) (ps g g' t i : Z) (p p' pre post : bytes) (b c : byte) (h : Header)
    (Hrecord : full_record s ps (pre ++ b :: post) h t g g' p p')
    (Hslot : i = 1 ∨ i = 2) (Hwhere : i * ps <= zlen pre < (i + 1) * ps) (Hbc : b ≠ c) :
  view s ps (Some (pre ++ b :: post)) = At g p ∧
  view s ps (Some (pre ++ c :: post)) =
    (if i =? t then At g p else if 0 <? g' then At g' p' else Damaged).
Proof.
  pose proof Hrecord as (Hc & Hh & Hf & Hf' & Hlt & Hz & Hp & Hp').
  split; [by rewrite (current_view _ _ _ _ _ _ Hc)|].
  destruct (damaged_slot s ps _ h t g g' p p' i pre b c post Hrecord Hslot eq_refl Hbc Hwhere) as (slots & Hd & Hsel & Hd').
  assert (∀ ch t', select_slot (with_slot slots i INVALID) = Ok (Some ch, t') →
            view s ps (Some (pre ++ c :: post)) = At (slot_generation ch) (slot_payload ch)) as Hview.
  { intros ch t' Hs. apply (current_view s ps _ h _ t'). apply current_inv. eauto. }
  pose proof Hsel as (Ht & Hcur & Hpop & _)%select_slot_Some.
  destruct (Z.eqb_spec i t) as [->|Hne].
  { apply (Hview (MkSlot true g p) t). apply select_slot_Some. destruct slots as [x y], Ht as [->| ->]; cbn in *; subst;
      unfold slot_page; cbn; split_and!; auto; done. }
  assert (i = other_page t) as -> by (unfold other_page; cbn; destruct Hslot, Ht; subst; done).
  pose proof (decode_slots_at s ps _ h slots t Ht Hd) as Hold.
  rewrite Hp', decode_slot_bytes in Hold by done. injection Hold as Hold.
  pose proof (fits_generation _ _ _ Hf').
  destruct (Z.ltb_spec 0 g') as [Hpos|Hnone].
  - apply (Hview (MkSlot true g' p') (other_page t)). apply select_slot_Some.
    destruct slots as [x y], Ht as [->| ->]; cbn in *; subst; unfold slot_page, populated; cbn; split_and!; auto; lia.
  - unfold view. rewrite zlen_app, zlen_cons.
    pose proof (current_zlen _ _ _ _ _ _ Hc) as Hl. rewrite zlen_app, zlen_cons in Hl. rewrite Hl, Z.eqb_refl.
    unfold decode_complete_image. rewrite Hd'. cbn [mbind result_bind].
    assert (g' = 0) as -> by lia.
    destruct slots as [x y], Ht as [->| ->]; cbn in *; subst; done.
Qed.

(** ** Witnesses: a store on an in-memory device that dies after a number of operations *)

Definition sample_file : pystr := str "commit-state".
Definition sample_temporary : pystr := str "commit-state.tmp".
Definition sample_store : Store := MkStore sample_file COMMIT_STATE (zeros 16) 7 sample_temporary.
Definition sample_start (operations : nat) : @St (Limited Memory.t) :=
  MkSt (Limit (Memory.Mk 512 None ∅ ∅ false) operations) 0.
Definition sample_publish (payload : bytes) : M (@St (Limited Memory.t)) Z :=
  publish sample_store read_log_if_exists payload.
(** After one publication, with [operations] more operations to live. *)
Definition sample_published (operations : nat) : @St (Limited Memory.t) :=
  let st := (sample_publish [Byte.x61] (sample_start 100)).2 in
  MkSt (Limit (inner (device st)) operations) (last_seen st).

Lemma limited_memory_tears ps : tears_caught (Dev:=Limited Memory.t) ps.
Proof. by intros h g payload old left _ _ _ []. Qed.

(** The second publication dies between its page write and its barrier. *)
Lemma control_publish_atomic_witness :
  is_ok (sample_publish [Byte.x62] (sample_published 4)).1 = true ∧
  is_ok (sample_publish [Byte.x62] (sample_published 3)).1 = false ∧
  ∀ y, y = files (device (sample_publish [Byte.x62] (sample_published 3)).2) !! sample_file →
    view sample_store 512 y = At 1 [Byte.x61] ∨
    ∃ k, 1 <= k <= 1 ∧ view sample_store 512 y = At (1 + k) [Byte.x62].
Proof.
  split; [vm_compute; reflexivity|]. split; [vm_compute; reflexivity|]. intros y Hy.
  pose proof (control_publish_atomic sample_store read_log_if_exists sample_file sample_temporary
    COMMIT_STATE 7 (zeros 16) [Byte.x62] None 1 false (sample_published 3)
    eq_refl eq_refl ltac:(discriminate) read_log_if_exists_reads (limited_memory_tears _)
    (λ y Hy, Hy)) as H.
  assert (view sample_store 512 (files (device (sample_published 3)) !! sample_file) = At 1 [Byte.x61]) as Hold
    by (vm_compute; reflexivity).
  unfold sample_publish, publish in Hy.
  destruct (publish_checked sample_store read_log_if_exists [Byte.x62] None 1 false (sample_published 3))
    as [[g|e] st'] eqn:E; [vm_compute in E; discriminate E|].
  specialize (H y (or_introl Hy)). cbn zeta in H. change (page_size (device (sample_published 3))) with 512 in H.
  rewrite Hold in H. exact H.
Defined.

Lemma control_read_exact_witness :
  ∃ a st', read sample_store read_log_if_exists (sample_published 9) = (Ok (Some a), st') ∧
           payload a = [Byte.x61] ∧ generation a = 1 ∧ last_seen st' = 1.
Proof.
  pose proof (control_read_exact sample_store read_log_if_exists sample_file sample_temporary
    COMMIT_STATE 7 (zeros 16) (sample_published 9) eq_refl eq_refl read_log_if_exists_reads) as H.
  assert (view sample_store (page_size (device (sample_published 9)))
    (files (device (sample_published 9)) !! sample_file) = At 1 [Byte.x61]) as Hview by (vm_compute; reflexivity).
  rewrite Hview in H. destruct (read sample_store read_log_if_exists (sample_published 9)) as [[[a|]|e] st'] eqn:E.
  - exists a, st'. destruct H as (_ & Hp & Hg & _ & Hl). auto.
  - destruct H as [_ []].
  - vm_compute in E. discriminate E.
Defined.

(** Two publications, and the first byte of the checksum of either slot inverted. *)
Definition sample_image : bytes :=
  default [] (files (device (sample_publish [Byte.x62] (sample_published 9)).2) !! sample_file).

Lemma sample_image_full :
  full_record sample_store 512 sample_image (store_header sample_store) 1 2 1 [Byte.x62] [Byte.x61].
Proof.
  split_and!; try (vm_compute; reflexivity || split; reflexivity); try done;
    try (split; [vm_compute; reflexivity|vm_compute; split; discriminate|vm_compute; split; discriminate]);
    try (split; [vm_compute; split; discriminate|vm_compute; discriminate|vm_compute; split; discriminate]).
Qed.

Lemma control_slot_damage_witness :
  ∃ b c, b ≠ c ∧ sample_image !! 1024%nat = Some b ∧
    view sample_store 512 (Some (take 1024 sample_image ++ b :: drop 1025 sample_image)) = At 2 [Byte.x62] ∧
    view sample_store 512 (Some (take 1024 sample_image ++ c :: drop 1025 sample_image)) = At 1 [Byte.x61].
Proof.
  destruct (sample_image !! 1024%nat) as [b|] eqn:E; [|vm_compute in E; discriminate E].
  exists b, (byte_of_Z (255 - Z_of_byte b)).
  assert (b ≠ byte_of_Z (255 - Z_of_byte b)) as Hbc by (by destruct b).
  assert (zlen (take 1024 sample_image) = 1024) as Hl by (vm_compute; reflexivity).
  pose proof sample_image_full as Hfull.
  rewrite <-(take_drop_middle sample_image 1024 b E) in Hfull.
  destruct (control_slot_damage sample_store 512 2 1 1 2 [Byte.x62] [Byte.x61] (take 1024 sample_image)
    (drop 1025 sample_image) b (byte_of_Z (255 - Z_of_byte b)) (store_header sample_store) Hfull
    (or_intror eq_refl) ltac:(rewrite Hl; lia) Hbc) as [H1 H2].
  split; [exact Hbc|]. split; [reflexivity|]. split; [exact H1|exact H2].
Defined.
