(* ===== verification/IndexEntry.v ===== *)
(** One entry of a secondary index: src/src/okto_grafx/domain/index/entry.py, and the visibility
    rules of src/src/okto_grafx/domain/index/visibility.py.

    [IndexEntry.t] is the dataclass with its refusals, [encode] and [decode] its slot image, and
    [decode_if_matches] the filtering decoder.  [entry_visible] and [is_reclaimable] are the two
    predicates; the snapshot is any type with the [SnapshotLike] interface of [Ids]. *)

From S2P Require Import Prelude Ids Layout.

#[export] Existing Instance RecordRef.eq_dec.

Definition ENTRY_FLAG_VERSIONED : Z := 1.
Definition ENTRY_STRUCT : list field := [U 1; U 2; U 8; U 8; U 8].
Definition INDEX_ENTRY_HEADER_SIZE : Z := Z.of_nat (struct_size ENTRY_STRUCT).
Definition MAX_INDEX_KEY_BYTES : Z := 0xFFFF.

(** [_validated_image]: the header fields of an image, checked once. *)
Definition validated_image (image : bytes) : result (Z * Z * Z * bool) :=
  if zlen image <? INDEX_ENTRY_HEADER_SIZE then raise GrafxCorruptionDetected "entry"
  else
    '(flags, (key_length, (ref, (born_csn, (dead_csn, _))))) ← struct_unpack_from ENTRY_STRUCT image 0;
    let expected := INDEX_ENTRY_HEADER_SIZE + key_length in
    if negb (zlen image =? expected) then raise GrafxCorruptionDetected "key_length"
    else if negb (Z.land flags (Z.lnot ENTRY_FLAG_VERSIONED) =? 0)
    then raise GrafxCorruptionDetected "flags"
    else
      let versioned := negb (Z.land flags ENTRY_FLAG_VERSIONED =? 0) in
      if (born_csn =? PROVISIONAL_CSN) || (dead_csn =? PROVISIONAL_CSN)
      then raise GrafxCorruptionDetected
             (if born_csn =? PROVISIONAL_CSN then "born_csn" else "dead_csn")
      else if negb versioned && negb (born_csn =? NO_CSN)
      then raise GrafxCorruptionDetected "born_csn"
      else if versioned && (born_csn =? NO_CSN) then raise GrafxCorruptionDetected "born_csn"
      else Ok (ref, born_csn, dead_csn, versioned).

Definition require_commit_number (field : string) (value : Z) : result Z :=
  if negb ((0 <=? value) && (value <=? MAX_U64)) then raise GrafxIndexError field else Ok value.

Module IndexEntry.

Record t := Mk {
  key : bytes;
  ref : RecordRef.t;
  versioned : bool;
  born_csn : Z;
  dead_csn : Z;
  page : Z;
  slot : Z
}.

#[export] Instance eq_dec : EqDecision t.
Proof. solve_decision. Defined.

Definition post_init (e : t) : result t :=
  if MAX_INDEX_KEY_BYTES <? zlen (key e) then raise GrafxIndexError "key"
  else
    _ ← require_commit_number "born_csn" (born_csn e);
    _ ← require_commit_number "dead_csn" (dead_csn e);
    if (born_csn e =? PROVISIONAL_CSN) || (dead_csn e =? PROVISIONAL_CSN)
    then raise GrafxIndexError (if born_csn e =? PROVISIONAL_CSN then "born_csn" else "dead_csn")
    else if negb (versioned e) && negb (born_csn e =? NO_CSN) then raise GrafxIndexError "born_csn"
    else if versioned e && (born_csn e =? NO_CSN) then raise GrafxIndexError "born_csn"
    else Ok e.

(** [IndexEntry(key=..., ref=..., versioned=..., born_csn=..., dead_csn=...)]. *)
Definition make (key : bytes) (ref : RecordRef.t) (versioned : bool) (born_csn dead_csn : Z) : result t :=
  post_init (Mk key ref versioned born_csn dead_csn NO_PAGE 0).

Definition live (e : t) : bool := dead_csn e =? NO_CSN.

Definition matches (e : t) (k : bytes) (r : RecordRef.t) : bool :=
  bool_decide (key e = k) && bool_decide (ref e = r).

Definition located_at (e : t) (page slot : Z) : result t :=
  post_init (Mk (key e) (ref e) (versioned e) (born_csn e) (dead_csn e) page slot).

Definition ended_at (e : t) (csn : Z) : result t :=
  csn ← require_commit_number "dead_csn" csn;
  post_init (Mk (key e) (ref e) (versioned e) (born_csn e) csn (page e) (slot e)).

Definition encode (e : t) : result bytes :=
  let flags := if versioned e then ENTRY_FLAG_VERSIONED else 0 in
  encoded_ref ← RecordRef.encode (ref e);
  head ← struct_pack ENTRY_STRUCT
           (flags, (zlen (key e), (encoded_ref, (born_csn e, (dead_csn e, ())))));
  Ok (head ++ key e).

Definition decode (raw : bytes) : result t :=
  '(ref, born_csn, dead_csn, versioned) ← validated_image raw;
  ref ← RecordRef.decode ref;
  make (drop (Z.to_nat INDEX_ENTRY_HEADER_SIZE) raw) ref versioned born_csn dead_csn.

Definition decode_if_matches (raw key : bytes) (ref : option RecordRef.t) : result (option t) :=
  '(encoded_ref, born_csn, dead_csn, versioned) ← validated_image raw;
  if negb (bool_decide (drop (Z.to_nat INDEX_ENTRY_HEADER_SIZE) raw = key)) then Ok None
  else
    different ← match ref with
                | None => Ok false
                | Some r => wanted ← RecordRef.encode r; Ok (negb (encoded_ref =? wanted))
                end;
    if (different : bool) then Ok None
    else
      ref ← RecordRef.decode encoded_ref;
      e ← make (drop (Z.to_nat INDEX_ENTRY_HEADER_SIZE) raw) ref versioned born_csn dead_csn;
      Ok (Some e).

(** What the constructor and the reference width guarantee. *)
Record wf (e : t) : Prop := {
  wf_key : zlen (key e) <= MAX_INDEX_KEY_BYTES;
  wf_ref : RecordRef.valid (ref e);
  wf_born : 0 <= born_csn e < PROVISIONAL_CSN;
  wf_dead : 0 <= dead_csn e < PROVISIONAL_CSN;
  wf_kind : versioned e = negb (born_csn e =? NO_CSN)
}.

(** The entry without the place it was read from, which its image does not store. *)
Definition unlocated (e : t) : t :=
  Mk (key e) (ref e) (versioned e) (born_csn e) (dead_csn e) NO_PAGE 0.

End IndexEntry.

(** ** Visibility *)

Definition entry_visible {S} `{SnapshotLike S} (e : IndexEntry.t) (snapshot : S) : result bool :=
  if negb (IndexEntry.versioned e) then raise GrafxIndexError "versioned"
  else Ok (snapshot_visible snapshot (IndexEntry.born_csn e) (IndexEntry.dead_csn e)).

Definition require_horizon (horizon : Z) : result Z :=
  if (horizon <? NO_CSN) || (PROVISIONAL_CSN <=? horizon) then raise GrafxIndexError "horizon"
  else Ok horizon.

Definition is_reclaimable (e : IndexEntry.t) (horizon : Z) : result bool :=
  horizon ← require_horizon horizon;
  Ok (negb (IndexEntry.live e) && (IndexEntry.dead_csn e <=? horizon)).

(** ** Lemmas *)

Lemma require_commit_number_Ok f v w : require_commit_number f v = Ok w ↔ w = v ∧ 0 <= v <= MAX_U64.
Proof.
  unfold require_commit_number, raise. destruct (_ && _) eqn:E; simpl; [|split; [done|lia]].
  split; [intros [= <-]; lia|by intros [-> _]].
Qed.

(** The flag bits other than the versioned one are zero exactly for 0 and 1. *)
Lemma known_entry_flags v : 0 <= v → Z.land v (Z.lnot ENTRY_FLAG_VERSIONED) = 0 → v = 0 ∨ v = 1.
Proof.
  unfold ENTRY_FLAG_VERSIONED. intros Hv. rewrite <-Z.ldiff_land. change 1 with (Z.ones 1).
  rewrite Z.ldiff_ones_r, Z.shiftl_mul_pow2, Z.shiftr_div_pow2 by lia. change (2 ^ 1) with 2.
  pose proof (Z.div_mod v 2). pose proof (Z.mod_pos_bound v 2). change (Z.ones 1) with 1. lia.
Qed.

Module IndexEntryFacts.
Import IndexEntry.

Lemma post_init_Ok e e' : post_init e = Ok e' ↔
  e' = e ∧ zlen (key e) <= MAX_INDEX_KEY_BYTES ∧ 0 <= born_csn e < PROVISIONAL_CSN ∧
  0 <= dead_csn e < PROVISIONAL_CSN ∧ versioned e = negb (born_csn e =? NO_CSN).
Proof.
  unfold post_init, require_commit_number, MAX_U64, PROVISIONAL_CSN, NO_CSN, raise.
  destruct (Z.ltb_spec MAX_INDEX_KEY_BYTES (zlen (key e))); [split; [done|lia]|].
  destruct ((0 <=? born_csn e) && _) eqn:Hb; cbn [negb mbind result_bind]; [|split; [done|lia]].
  destruct ((0 <=? dead_csn e) && _) eqn:Hd; cbn [negb mbind result_bind]; [|split; [done|lia]].
  destruct (Z.eqb_spec (born_csn e) 0xFFFFFFFFFFFFFFFF); [split; [done|lia]|].
  destruct (Z.eqb_spec (dead_csn e) 0xFFFFFFFFFFFFFFFF); [split; [done|lia]|]. cbn [orb].
  destruct (versioned e), (Z.eqb_spec (born_csn e) 0); cbn [negb andb];
    (split; [try done|intros (-> & _ & _ & _ & Hk); try done]); intros [= <-]; split_and!; try done; lia.
Qed.

Lemma post_init_wf e : wf e → post_init e = Ok e.
Proof. intros []. by apply post_init_Ok. Qed.

Lemma located_at_wf e p s : wf e →
  located_at e p s = Ok (Mk (key e) (ref e) (versioned e) (born_csn e) (dead_csn e) p s).
Proof. intros []. by apply post_init_Ok. Qed.

Lemma wf_located e p s : wf e → wf (Mk (key e) (ref e) (versioned e) (born_csn e) (dead_csn e) p s).
Proof. by intros []. Qed.

(** The fields of an entry, as its image packs them. *)
Definition fields (e : t) : fvals ENTRY_STRUCT :=
  (if versioned e then ENTRY_FLAG_VERSIONED else 0,
   (zlen (key e), (RecordRef.page (ref e) * 2 ^ 16 + RecordRef.slot (ref e),
   (born_csn e, (dead_csn e, ()))))).

Definition image (e : t) : bytes := struct_image ENTRY_STRUCT (fields e) ++ key e.

Lemma fields_fit e : wf e → struct_fits ENTRY_STRUCT (fields e).
Proof.
  intros [Hk [Hp Hs] Hb Hd _]. unfold fields, MAX_INDEX_KEY_BYTES, PROVISIONAL_CSN, MAX_PAGE_INDEX, MAX_SLOT_ID,
    ENTRY_FLAG_VERSIONED in *.
  pose proof (zlen_nonneg (key e)). change (2 ^ 16) with 65536. destruct (versioned e); solve_fits.
Qed.

Lemma encode_wf e : wf e → encode e = Ok (image e).
Proof.
  intros Hwf. unfold encode. rewrite record_ref_encode_ok by apply Hwf. cbn [mbind result_bind].
  change (struct_pack _ _) with (struct_pack ENTRY_STRUCT (fields e)).
  by rewrite struct_pack_image by by apply fields_fit.
Qed.

Lemma zlen_image e : wf e → zlen (image e) = INDEX_ENTRY_HEADER_SIZE + zlen (key e).
Proof. intros. unfold image. by rewrite zlen_app, zlen_struct_image by by apply fields_fit. Qed.

Lemma drop_image e : wf e → drop (Z.to_nat INDEX_ENTRY_HEADER_SIZE) (image e) = key e.
Proof.
  intros H. unfold image. apply drop_app_length'.
  pose proof (zlen_struct_image _ _ (fields_fit e H)) as Hl. unfold zlen in Hl.
  unfold INDEX_ENTRY_HEADER_SIZE. lia.
Qed.

Lemma validated_image_image e : wf e →
  validated_image (image e) =
    Ok (RecordRef.page (ref e) * 2 ^ 16 + RecordRef.slot (ref e), born_csn e, dead_csn e, versioned e).
Proof.
  intros Hwf. unfold validated_image. rewrite zlen_image by done. pose proof (zlen_nonneg (key e)).
  rewrite (proj2 (Z.ltb_ge _ _)) by lia. unfold image.
  rewrite struct_unpack_image_0 by by apply fields_fit. cbn [fields mbind result_bind].
  rewrite Z.eqb_refl. cbn [negb]. destruct Hwf as [_ _ Hb Hd Hk]. unfold PROVISIONAL_CSN, NO_CSN in *.
  replace (negb (Z.land (if versioned e then ENTRY_FLAG_VERSIONED else 0) (Z.lnot ENTRY_FLAG_VERSIONED) =? 0))
    with false by by destruct (versioned e).
  replace (negb (Z.land (if versioned e then ENTRY_FLAG_VERSIONED else 0) ENTRY_FLAG_VERSIONED =? 0))
    with (versioned e) by by destruct (versioned e).
  rewrite (proj2 (Z.eqb_neq (born_csn e) _)) by lia. rewrite (proj2 (Z.eqb_neq (dead_csn e) _)) by lia. cbn [orb].
  rewrite Hk. by destruct (born_csn e =? 0).
Qed.

Lemma validated_image_inv raw ref born dead v : validated_image raw = Ok (ref, born, dead, v) →
  ∃ head, raw = head ++ drop (Z.to_nat INDEX_ENTRY_HEADER_SIZE) raw ∧
    head = struct_image ENTRY_STRUCT
      (if v then ENTRY_FLAG_VERSIONED else 0, (zlen (drop (Z.to_nat INDEX_ENTRY_HEADER_SIZE) raw),
        (ref, (born, (dead, ()))))) ∧
    zlen (drop (Z.to_nat INDEX_ENTRY_HEADER_SIZE) raw) <= MAX_INDEX_KEY_BYTES ∧
    0 <= born < PROVISIONAL_CSN ∧ 0 <= dead < PROVISIONAL_CSN ∧ v = negb (born =? NO_CSN).
Proof.
  unfold validated_image. destruct (Z.ltb_spec (zlen raw) INDEX_ENTRY_HEADER_SIZE); [done|]. intros H0.
  apply bind_Ok in H0 as ([fl [kl [r [b [d []]]]]] & Hu & H0).
  apply (struct_unpack_from_Ok ENTRY_STRUCT) in Hu as (Hf & Hl & Himg); [|done].
  change (Z.of_nat (struct_size ENTRY_STRUCT)) with INDEX_ENTRY_HEADER_SIZE in *.
  destruct (Z.eqb_spec (zlen raw) (INDEX_ENTRY_HEADER_SIZE + kl)) as [Hz|]; [|done]. cbn [negb] in H0.
  destruct (Z.eqb_spec (Z.land fl (Z.lnot ENTRY_FLAG_VERSIONED)) 0) as [Hfl|]; [|done]. cbn [negb] in H0.
  apply known_entry_flags in Hfl; [|cbn [struct_fits field_fits fst snd ENTRY_STRUCT] in Hf; lia].
  assert (zlen (drop (Z.to_nat INDEX_ENTRY_HEADER_SIZE) raw) = kl) as Hkl.
  { cbn [struct_fits field_fits fst snd ENTRY_STRUCT] in Hf. change INDEX_ENTRY_HEADER_SIZE with 27 in *.
    unfold zlen in *. rewrite length_drop. lia. }
  exists (slice raw 0 (0 + INDEX_ENTRY_HEADER_SIZE)). rewrite Hkl.
  assert (negb (Z.land fl ENTRY_FLAG_VERSIONED =? 0) = v ∧ r = ref ∧ born = b ∧ dead = d ∧
          (0 <= b < PROVISIONAL_CSN ∧ 0 <= d < PROVISIONAL_CSN) ∧ v = negb (born =? NO_CSN)) as (Hv & <- & -> & -> & ? & ->).
  { cbn [struct_fits field_fits fst snd ENTRY_STRUCT] in Hf. pow256. unfold PROVISIONAL_CSN, NO_CSN in *.
    destruct (Z.eqb_spec b 0xFFFFFFFFFFFFFFFF); [done|]. destruct (Z.eqb_spec d 0xFFFFFFFFFFFFFFFF); [done|]. cbn [orb] in H0.
    destruct (negb (Z.land fl ENTRY_FLAG_VERSIONED =? 0)), (Z.eqb_spec b 0); cbn [negb andb] in H0;
      try done; injection H0 as <- <- <- <-; split_and!; try done; lia. }
  split_and!; [| | |lia|lia|lia|lia|done].
  - unfold slice. by rewrite Z.add_0_l, Z.sub_0_r, drop_0, take_drop.
  - rewrite <-Himg, <-Hv. by destruct Hfl as [-> | ->].
  - cbn [struct_fits field_fits fst snd ENTRY_STRUCT] in Hf. pow256. unfold MAX_INDEX_KEY_BYTES. lia.
Qed.

Lemma decode_image e : wf e → decode (image e) = Ok (unlocated e).
Proof.
  intros Hwf. unfold decode. rewrite validated_image_image by done. cbn [mbind result_bind].
  destruct Hwf as [? [Hp Hs] ? ? ?]. rewrite record_ref_decode_ok by done. cbn [mbind result_bind].
  rewrite drop_image by by split. unfold make, unlocated. rewrite post_init_wf; [|by split].
  by destruct (ref e).
Qed.

Lemma decode_inv raw e : decode raw = Ok e → wf e ∧ raw = image e ∧ unlocated e = e.
Proof.
  unfold decode. intros H. apply bind_Ok in H as ([[[r b] d] v] & Hv & H).
  apply bind_Ok in H as (rr & [Hr ->]%record_ref_decode_inv & H).
  apply validated_image_inv in Hv as (head & Hraw & Hh & _). unfold make in H.
  apply post_init_Ok in H as (-> & Hk & Hb & Hd & Hver). cbn in *. split; [by split|]. split; [|done].
  rewrite Hraw at 1. by rewrite Hh.
Qed.

Definition corrupt (c : error_class) : Prop := c = GrafxCorruptionDetected.

Lemma struct_unpack_errs fmt raw e :
  Z.of_nat (struct_size fmt) <= zlen raw → struct_unpack_from fmt raw 0 = Err e → False.
Proof. intros H. destruct (struct_unpack_from_enough fmt raw 0) as [v ->]; [lia|done]. Qed.

Lemma validated_image_errs raw : errs_in corrupt (validated_image raw).
Proof.
  unfold validated_image. destruct (Z.ltb_spec (zlen raw) INDEX_ENTRY_HEADER_SIZE); [by apply errs_in_raise|].
  apply errs_in_bind; [intros e He; by apply (struct_unpack_errs ENTRY_STRUCT) in He|].
  intros [fl [kl [r [b [d []]]]]] _. repeat case_match; try done; by apply errs_in_raise.
Qed.

Lemma decode_errs raw : errs_in corrupt (decode raw).
Proof.
  unfold decode. apply errs_in_bind; [apply validated_image_errs|]. intros [[[r b] d] v] Hv.
  apply errs_in_bind.
  { unfold RecordRef.decode, RecordRef.require_decodable_ref. case_match; [by apply errs_in_raise|done]. }
  intros rr _ e He. apply validated_image_inv in Hv as (? & _ & _ & Hk & Hb & Hd & Hv).
  unfold make in He. match type of He with post_init ?x = _ => assert (post_init x = Ok x) as Hx end.
  { by apply post_init_Ok. }
  by rewrite Hx in He.
Qed.

Lemma decode_if_matches_decode raw k r e : (∀ x, r = Some x → RecordRef.valid x) → decode raw = Ok e →
  decode_if_matches raw k r =
    Ok (if bool_decide (key e = k) && match r with None => true | Some x => bool_decide (ref e = x) end
        then Some e else None).
Proof.
  intros Hr Hd. pose proof (decode_inv _ _ Hd) as (Hwf & -> & Hu). unfold decode_if_matches.
  rewrite validated_image_image by done. cbn [mbind result_bind]. rewrite drop_image by done.
  destruct (bool_decide (key e = k)); [|done]. cbn [negb andb].
  assert (∀ x, RecordRef.valid x →
    (RecordRef.page (ref e) * 2 ^ 16 + RecordRef.slot (ref e) =? RecordRef.page x * 2 ^ 16 + RecordRef.slot x)
    = bool_decide (ref e = x)) as Heq.
  { intros [p s] [Hp Hs]. destruct (wf_ref _ Hwf) as [Hp' Hs']. destruct (ref e) as [p' s']. cbn in *.
    unfold MAX_PAGE_INDEX, MAX_SLOT_ID in *. symmetry. case_bool_decide as E; [injection E as -> ->; lia|].
    symmetry. apply Z.eqb_neq. intros ?. apply E. f_equal; lia. }
  assert (RecordRef.decode (RecordRef.page (ref e) * 2 ^ 16 + RecordRef.slot (ref e)) = Ok (ref e)) as Hdec.
  { destruct (wf_ref _ Hwf). rewrite record_ref_decode_ok by done. by destruct (ref e). }
  assert (make (key e) (ref e) (versioned e) (born_csn e) (dead_csn e) = Ok e) as Hm.
  { unfold make. change (Mk _ _ _ _ _ _ _) with (unlocated e). rewrite Hu. by apply post_init_wf. }
  destruct r as [x|]; cbn [mbind result_bind].
  - rewrite record_ref_encode_ok by auto. cbn [mbind result_bind]. rewrite Heq by auto.
    destruct (bool_decide (ref e = x)); cbn [negb]; [|done]. rewrite Hdec. cbn [mbind result_bind]. by rewrite Hm.
  - rewrite Hdec. cbn [mbind result_bind]. by rewrite Hm.
Qed.
End IndexEntryFacts.

(** ** Properties *)

(** index entries round-trip.  Every entry the constructor accepts, with a reference that fits
    its width, encodes to its 27-byte header and its key and is read back without the place it was
    stored at; everything [decode] accepts is such an entry and is the encoding of the entry it
    returns; every refusal is a corruption; and the filtering decoder returns the decoded entry
    exactly when it carries the wanted key and reference. *)
Theorem index_entry_codec (e : IndexEntry.t) (raw k : bytes) (r : option RecordRef.t) :
  (IndexEntry.wf e → ∃ b, IndexEntry.encode e = Ok b ∧ zlen b = 27 + zlen (IndexEntry.key e) ∧
     IndexEntry.decode b = Ok (IndexEntry.unlocated e)) ∧
  (IndexEntry.decode raw = Ok e → IndexEntry.wf e ∧ IndexEntry.encode e = Ok raw ∧
     IndexEntry.unlocated e = e ∧
     ((∀ x, r = Some x → RecordRef.valid x) →
      IndexEntry.decode_if_matches raw k r = Ok (
        if bool_decide (IndexEntry.key e = k) &&
           match r with None => true | Some x => bool_decide (IndexEntry.ref e = x) end
        then Some e else None))) ∧
  errs_in IndexEntryFacts.corrupt (IndexEntry.decode raw).
Proof.
  split_and!.
  - intros Hwf. exists (IndexEntryFacts.image e). split; [by apply IndexEntryFacts.encode_wf|].
    split; [by apply IndexEntryFacts.zlen_image|by apply IndexEntryFacts.decode_image].
  - intros Hd. pose proof (IndexEntryFacts.decode_inv _ _ Hd) as (Hwf & -> & Hu).
    split_and!; [done|by apply IndexEntryFacts.encode_wf|done|].
    intros Hr. by apply IndexEntryFacts.decode_if_matches_decode.
  - apply IndexEntryFacts.decode_errs.
Qed.

Lemma index_entry_codec_witness :
  let e := IndexEntry.Mk [Byte.x01; Byte.x02] (RecordRef.Mk 7 3) true 9 0 4 1 in
  ∃ b, IndexEntry.encode e = Ok b ∧ zlen b = 29 ∧ IndexEntry.decode b = Ok (IndexEntry.unlocated e) ∧
       IndexEntry.decode_if_matches b [Byte.x01] None = Ok None.
Proof.
  intros e. destruct (index_entry_codec e [] [] None) as [H _].
  destruct H as (b & Hb & Hl & Hd); [split; vm_compute; try done; split; split; discriminate|].
  exists b. split; [exact Hb|]. split; [exact Hl|]. split; [exact Hd|].
  destruct (index_entry_codec (IndexEntry.unlocated e) b [Byte.x01] None) as (_ & H & _).
  destruct (H Hd) as (_ & _ & _ & Hm). rewrite Hm by discriminate. reflexivity.
Defined.

(** reclaiming an entry loses nothing.  An entry [is_reclaimable] releases at a horizon is
    ended, and no snapshot at or above that horizon sees it under the proximity rule; an entry that
    was never ended is released at no horizon, and an unversioned entry is never answered from its
    stamps. *)
Theorem reclaimable_unseen (e : IndexEntry.t) (horizon : Z) (s : Snapshot.t) :
  (IndexEntry.wf e → is_reclaimable e horizon = Ok true → horizon <= Snapshot.read_lsn s →
     IndexEntry.live e = false ∧
     (IndexEntry.versioned e = true → entry_visible e s = Ok false)) ∧
  (IndexEntry.live e = true → is_reclaimable e horizon ≠ Ok true) ∧
  (IndexEntry.versioned e = false → entry_visible e s = raise GrafxIndexError "versioned").
Proof.
  unfold is_reclaimable, require_horizon, entry_visible. split_and!.
  - intros Hwf. case_match; [done|]. cbn [mbind result_bind]. intros [= Hr] Hle.
    apply andb_true_iff in Hr as [Hl Hd]. apply negb_true_iff in Hl. split; [done|]. intros ->. cbn [negb]. f_equal.
    unfold snapshot_visible, snapshot_like, Snapshot.visible, is_open_end_csn.
    destruct (IndexEntry.wf_dead _ Hwf) as [_ Hp]. unfold IndexEntry.live in Hl. rewrite Hl.
    replace (IndexEntry.dead_csn e =? PROVISIONAL_CSN) with false by lia. cbn [orb].
    replace (_ <? IndexEntry.dead_csn e) with false by lia. apply andb_false_r.
  - intros ->. case_match; [done|]. by intros [=].
  - by intros ->.
Qed.

Lemma reclaimable_unseen_witness :
  let e := IndexEntry.Mk [Byte.x01] (RecordRef.Mk 7 3) true 3 8 NO_PAGE 0 in
  is_reclaimable e 8 = Ok true ∧ entry_visible e (Snapshot.Mk 8) = Ok false ∧
  entry_visible e (Snapshot.Mk 7) = Ok true.
Proof.
  intros e. destruct (reclaimable_unseen e 8 (Snapshot.Mk 8)) as [H _].
  split; [reflexivity|]. split; [|reflexivity].
  refine (proj2 (H _ eq_refl _) eq_refl); [|discriminate].
  split; vm_compute; try done; split; split; discriminate.
Defined.
