(* ===== verification/OrderedKeys.v ===== *)
(** Order-preserving keys: src/src/okto_grafx/domain/index/ordered_keys.py, with the engine's sort
    key (src/src/okto_grafx/engine/query_engine.py, [_sort_key]) on the values a key may hold.

    [TotalCompare] is the interface of a three-way comparison that is a total order; byte strings,
    texts, pairs and physical entry identities are its instances.  The encoding is proved to turn
    the order of sort keys into the order of bytes. *)

From S2P Require Import Prelude Ids Utf8 IndexEntry.

(** ** Three-way comparison *)

Class TotalCompare {A} (cmp : A → A → comparison) : Prop := {
  cmp_Eq a b : cmp a b = Eq ↔ a = b;
  cmp_flip a b : cmp b a = CompOpp (cmp a b);
  cmp_trans a b c : cmp a b = Lt → cmp b c = Lt → cmp a c = Lt
}.

Definition lex (c d : comparison) : comparison := match c with Eq => d | c => c end.

Fixpoint list_cmp {A} (cmp : A → A → comparison) (a b : list A) : comparison :=
  match a, b with
  | [], [] => Eq
  | [], _ :: _ => Lt
  | _ :: _, [] => Gt
  | x :: a, y :: b => lex (cmp x y) (list_cmp cmp a b)
  end.

Definition pair_cmp {A B} (cmpA : A → A → comparison) (cmpB : B → B → comparison) (a b : A * B)
    : comparison :=
  lex (cmpA a.1 b.1) (cmpB a.2 b.2).

Definition byte_cmp (a b : byte) : comparison := Z.compare (Z_of_byte a) (Z_of_byte b).

(** Python's order on [bytes], on [str] and on the identities [(key, ref.encode())]. *)
Definition bytes_cmp : bytes → bytes → comparison := list_cmp byte_cmp.
Definition text_cmp : pystr → pystr → comparison := list_cmp Z.compare.

Abbreviation ident := (bytes * Z)%type.
Definition ident_cmp : ident → ident → comparison := pair_cmp bytes_cmp Z.compare.

(** ** The keys *)

Definition NON_NULL : bytes := [Byte.x00].
Definition NULL : bytes := [Byte.xff].
Definition STRING_ESCAPE : bytes := [Byte.x00; Byte.xff].
Definition STRING_TERMINATOR : bytes := [Byte.x00; Byte.x00].
Definition SIGN_BIT : Z := Z.shiftl 1 63.

Definition INT64_MIN : Z := - Z.shiftl 1 63.
Definition INT64_MAX : Z := Z.shiftl 1 63 - 1.

Module Timestamp.

Record t := Mk { micros : Z }.

Definition make (micros : Z) : result t :=
  if negb ((INT64_MIN <=? micros) && (micros <=? INT64_MAX)) then raise SchemaMismatchError "micros"
  else Ok (Mk micros).

End Timestamp.

(** A cell of a row: the two kinds the keys hold, and the values of any other kind, which the keys
    refuse by their type alone. *)
Inductive Value :=
  | VNull
  | VTimestamp (value : Timestamp.t)
  | VString (value : pystr)
  | VOther (type_name : string).

(** [value.to_bytes(8, "big", signed=False)]. *)
Definition be_pack (n : nat) (v : Z) : bytes := reverse (le_pack n v).

Definition ordered_timestamp (value : Value) : result bytes :=
  match value with
  | VNull => Ok NULL
  | VTimestamp v =>
      let shifted := Timestamp.micros v + SIGN_BIT in
      Ok (NON_NULL ++ be_pack 8 shifted)
  | _ => raise GrafxIndexError "values"
  end.

(** [encoded.replace(b"\x00", _STRING_ESCAPE)]. *)
Definition escape_byte (b : byte) : bytes := if decide (b = Byte.x00) then STRING_ESCAPE else [b].
Definition escape (encoded : bytes) : bytes := b ← encoded; escape_byte b.

Definition ordered_string (value : Value) : result bytes :=
  match value with
  | VNull => Ok NULL
  | VString s =>
      match utf8_encode s with
      | Err _ => raise GrafxIndexError "values"
      | Ok encoded => Ok (NON_NULL ++ escape encoded ++ STRING_TERMINATOR)
      end
  | _ => raise GrafxIndexError "values"
  end.

Definition ordered_timestamp_string_key (timestamp text : Value) : result bytes :=
  a ← ordered_timestamp timestamp; b ← ordered_string text; Ok (a ++ b).

Definition resolve_position (arity position : Z) : result nat :=
  if negb ((0 <=? position) && (position <? arity)) then raise GrafxIndexError "positions"
  else Ok (Z.to_nat position).

Definition ordered_index_key (values : list Value) (positions : list Z) : result bytes :=
  if negb (zlen positions =? 2) then raise GrafxIndexError "positions"
  else
    resolved ← traverse (resolve_position (zlen values)) positions;
    a ← ordered_timestamp (nth (nth 0 resolved 0%nat) values VNull);
    b ← ordered_string (nth (nth 1 resolved 0%nat) values VNull);
    Ok (a ++ b).

Definition ordered_entry_identity (key : bytes) (ref : RecordRef.t) : result ident :=
  encoded ← RecordRef.encode ref; Ok (key, encoded).

(** ** The engine's order

    [_sort_key] on the values above: a rank and, within the rank, an integer or a text. *)

Inductive sort_payload := SInt (v : Z) | SText (v : pystr).

Definition sort_key (value : Value) : option (Z * sort_payload) :=
  match value with
  | VNull => Some (12, SInt 0)
  | VString s => Some (5, SText s)
  | VTimestamp v => Some (9, SInt (Timestamp.micros v))
  | VOther _ => None
  end.

Definition payload_cmp (a b : sort_payload) : comparison :=
  match a, b with
  | SInt x, SInt y => Z.compare x y
  | SText x, SText y => text_cmp x y
  | SInt _, SText _ => Lt
  | SText _, SInt _ => Gt
  end.

(** Tuples compare by the rank first; two equal ranks carry payloads of one kind. *)
Definition sort_cmp : Z * sort_payload → Z * sort_payload → comparison := pair_cmp Z.compare payload_cmp.

(** ** Lemmas on comparisons *)

Lemma lex_assoc a b c : lex (lex a b) c = lex a (lex b c).
Proof. by destruct a. Qed.

Lemma lex_Lt c d : lex c d = Lt ↔ c = Lt ∨ c = Eq ∧ d = Lt.
Proof. destruct c; simpl; naive_solver. Qed.

Lemma lex_Eq c d : lex c d = Eq ↔ c = Eq ∧ d = Eq.
Proof. destruct c; simpl; naive_solver. Qed.

Lemma lex_CompOpp c d : CompOpp (lex c d) = lex (CompOpp c) (CompOpp d).
Proof. by destruct c. Qed.

#[export] Instance Z_compare_total : TotalCompare Z.compare.
Proof.
  split; [apply Z.compare_eq_iff|intros; apply Z.compare_antisym|].
  intros a b c. rewrite !Z.compare_lt_iff. lia.
Qed.

Lemma preimage_total {A B} (f : A → B) `{!Inj (=) (=) f} (cmp : B → B → comparison) `{!TotalCompare cmp} :
  TotalCompare (λ a b, cmp (f a) (f b)).
Proof.
  split.
  - intros a b. rewrite cmp_Eq. split; [apply (inj f)|by intros ->].
  - intros. apply cmp_flip.
  - intros a b c. apply cmp_trans.
Qed.

#[export] Instance byte_cmp_total : TotalCompare byte_cmp.
Proof. apply (preimage_total Z_of_byte Z.compare). Qed.

Section total_lists.
Context {A : Type} (cmp : A → A → comparison) `{!TotalCompare cmp}.

Lemma cmp_refl a : cmp a a = Eq.
Proof. by apply cmp_Eq. Qed.

#[export] Instance list_cmp_total : TotalCompare (list_cmp cmp).
Proof.
  split.
  - intros a. induction a as [|x a IH]; intros [|y b]; simpl; [done..|]. rewrite lex_Eq, cmp_Eq, IH. naive_solver.
  - intros a. induction a as [|x a IH]; intros [|y b]; simpl; [done..|]. by rewrite (cmp_flip x y), IH, lex_CompOpp.
  - intros a. induction a as [|x a IH]; intros [|y b] [|z c]; simpl; try done.
    rewrite !lex_Lt, !cmp_Eq. intros [Hxy|[-> Hab]] [Hyz|[-> Hbc]]; [left|left|left|right]; try done.
    + by eapply cmp_trans.
    + split; [done|by eapply IH].
Qed.

Lemma list_cmp_app_same p a b : list_cmp cmp (p ++ a) (p ++ b) = list_cmp cmp a b.
Proof. induction p as [|x p IH]; simpl; [done|]. by rewrite cmp_refl. Qed.

Lemma list_cmp_prefix a x b : list_cmp cmp a (a ++ x :: b) = Lt.
Proof. induction a as [|y a IH]; simpl; [done|]. by rewrite cmp_refl. Qed.

(** Two lists of one length decide before what follows them. *)
Lemma list_cmp_app_length a b x y :
  length a = length b → list_cmp cmp (a ++ x) (b ++ y) = lex (list_cmp cmp a b) (list_cmp cmp x y).
Proof.
  revert b. induction a as [|p a IH]; intros [|q b] Hl; simpl in *; try done.
  rewrite IH by lia. by rewrite lex_assoc.
Qed.
End total_lists.

#[export] Instance pair_cmp_total {A B} (cmpA : A → A → comparison) (cmpB : B → B → comparison)
    `{!TotalCompare cmpA} `{!TotalCompare cmpB} : TotalCompare (pair_cmp cmpA cmpB).
Proof.
  unfold pair_cmp. split.
  - intros [a a'] [b b']; simpl. rewrite lex_Eq, !cmp_Eq. naive_solver.
  - intros [a a'] [b b']; simpl. by rewrite (cmp_flip (cmp:=cmpA) a b), (cmp_flip (cmp:=cmpB) a' b'), lex_CompOpp.
  - intros [a a'] [b b'] [c c']; simpl. rewrite !lex_Lt, !cmp_Eq.
    intros [Hab|[-> Hab]] [Hbc|[-> Hbc]]; [left|left|left|right]; try done; [by eapply cmp_trans|].
    split; [done|by eapply cmp_trans].
Qed.

#[export] Instance bytes_cmp_total : TotalCompare bytes_cmp := list_cmp_total byte_cmp.
#[export] Instance text_cmp_total : TotalCompare text_cmp := list_cmp_total Z.compare.
#[export] Instance ident_cmp_total : TotalCompare ident_cmp := pair_cmp_total bytes_cmp Z.compare.

(** ** The order of UTF-8 *)

(** Positional notation: the high part decides, then the low digit. *)
Lemma digit_compare k c d : 0 < k → lex (c / k ?= d / k) (c mod k ?= d mod k) = (c ?= d).
Proof.
  intros Hk. pose proof (Z.div_mod c k). pose proof (Z.div_mod d k).
  pose proof (Z.mod_pos_bound c k). pose proof (Z.mod_pos_bound d k).
  destruct (Z.compare_spec (c / k) (d / k)) as [He|Hlt|Hgt]; simpl.
  - rewrite He in *. destruct (Z.compare_spec (c mod k) (d mod k)); symmetry;
      [apply Z.compare_eq_iff|apply Z.compare_lt_iff|apply Z.compare_gt_iff]; lia.
  - symmetry. apply Z.compare_lt_iff. nia.
  - symmetry. apply Z.compare_gt_iff. nia.
Qed.

Definition digit64 c d := digit_compare 64 c d eq_refl.

Lemma byte_cmp_of_Z u v : 0 <= u < 256 → 0 <= v < 256 → byte_cmp (byte_of_Z u) (byte_of_Z v) = (u ?= v).
Proof. intros. unfold byte_cmp. by rewrite !Z_of_byte_small by lia. Qed.

Lemma utf8_char_order c d b b' x y :
  utf8_char c = Ok b → utf8_char d = Ok b' → bytes_cmp (b ++ x) (b' ++ y) = lex (c ?= d) (bytes_cmp x y).
Proof.
  assert (∀ p q r, lex p (lex q r) = lex (lex p q) r) as Hassoc by (intros; by rewrite lex_assoc).
  unfold utf8_char. intros Hc Hd.
  destruct ((c <? 0) || surrogate c || (0x10FFFF <? c)) eqn:Ec; [done|].
  destruct ((d <? 0) || surrogate d || (0x10FFFF <? d)) eqn:Ed; [done|].
  apply orb_false_iff in Ec as [[Ec _]%orb_false_iff Ec']. apply orb_false_iff in Ed as [[Ed _]%orb_false_iff Ed'].
  assert (∀ e, 0 <= e mod 64 < 64) as Hm by (intros; by apply Z.mod_pos_bound).
  pose proof (Hm c). pose proof (Hm d). pose proof (Hm (c / 64)). pose proof (Hm (d / 64)).
  pose proof (Hm (c / 4096)). pose proof (Hm (d / 4096)).
  assert (∀ e k, 0 < k → 0 <= e → k * (e / k) <= e < k * (e / k) + k ∧ 0 <= e / k) as Hq.
  { intros e k Hk He. pose proof (Z.div_mod e k). pose proof (Z.mod_pos_bound e k Hk).
    pose proof (Z.div_pos e k He Hk). lia. }
  pose proof (Hq c 64). pose proof (Hq d 64). pose proof (Hq c 4096). pose proof (Hq d 4096).
  pose proof (Hq c 262144). pose proof (Hq d 262144).
  assert (c / 4096 = c / 64 / 64 ∧ d / 4096 = d / 64 / 64) as [Hc2 Hd2] by (by rewrite !Z.div_div by lia).
  assert (c / 262144 = c / 64 / 64 / 64 ∧ d / 262144 = d / 64 / 64 / 64) as [Hc3 Hd3] by (by rewrite !Z.div_div by lia).
  repeat case_match; simplify_eq; unfold bytes_cmp; cbn [list_cmp app];
    rewrite !byte_cmp_of_Z by lia; rewrite ?Z.add_compare_mono_l;
    try (rewrite (proj2 (Z.compare_lt_iff _ _)) by lia; rewrite (proj2 (Z.compare_lt_iff c d)) by lia; done);
    try (rewrite (proj2 (Z.compare_gt_iff _ _)) by lia; rewrite (proj2 (Z.compare_gt_iff c d)) by lia; done);
    rewrite ?Hassoc, ?Hc3, ?Hd3, ?Hc2, ?Hd2, ?digit64; done.
Qed.

Lemma utf8_order s t bs bt : utf8_encode s = Ok bs → utf8_encode t = Ok bt → bytes_cmp bs bt = text_cmp s t.
Proof.
  assert (∀ c b, utf8_char c = Ok b → b ≠ []) as Hne.
  { intros c b. unfold utf8_char. repeat case_match; by intros [= <-]. }
  revert t bs bt. induction s as [|c s IH]; intros [|d t] bs bt Hs Ht; simpl in Hs, Ht; inv_ok Hs; inv_ok Ht; simplify_eq.
  - done.
  - by destruct x; [apply Hne in E|].
  - by destruct x; [apply Hne in E|].
  - rewrite (utf8_char_order c d) by done. simpl. by rewrite (IH t _ _ E0 E2).
Qed.

(** ** The order of the keys *)

Lemma be_pack_S n v : be_pack (S n) v = be_pack n (v / 256) ++ [byte_of_Z v].
Proof. unfold be_pack. change (le_pack (S n) v) with (byte_of_Z v :: le_pack n (v / 256)). by rewrite reverse_cons. Qed.

Lemma length_be_pack n v : length (be_pack n v) = n.
Proof. unfold be_pack. by rewrite length_reverse, length_le_pack. Qed.

Lemma be_pack_order n u v : 0 <= u < 256 ^ Z.of_nat n → 0 <= v < 256 ^ Z.of_nat n →
  bytes_cmp (be_pack n u) (be_pack n v) = (u ?= v).
Proof.
  revert u v. induction n as [|n IH]; intros u v Hu Hv.
  { change (256 ^ Z.of_nat 0) with 1 in *. replace u with v by lia. symmetry. apply Z.compare_eq_iff. done. }
  rewrite pow256_S in *. rewrite !be_pack_S. unfold bytes_cmp in *.
  rewrite list_cmp_app_length by (rewrite !length_be_pack; done).
  rewrite IH by (split; [apply Z.div_pos; lia|apply Z.div_lt_upper_bound; lia]).
  cbn [list_cmp]. unfold byte_cmp. rewrite !Z_of_byte_of_Z.
  rewrite <-(digit_compare 256 u v eq_refl). by destruct (u / 256 ?= v / 256), (u mod 256 ?= v mod 256).
Qed.

Lemma escape_cons b a : escape (b :: a) = escape_byte b ++ escape a.
Proof. done. Qed.

Lemma bytes_cmp_cons c d a b : bytes_cmp (c :: a) (d :: b) = lex (byte_cmp c d) (bytes_cmp a b).
Proof. done. Qed.

Lemma byte_cmp_zero c : c ≠ Byte.x00 → byte_cmp Byte.x00 c = Lt ∧ byte_cmp c Byte.x00 = Gt.
Proof.
  intros Hc. unfold byte_cmp. change (Z_of_byte Byte.x00) with 0. pose proof (Z_of_byte_range c).
  assert (Z_of_byte c ≠ 0) by (intros H0; apply Hc, (inj Z_of_byte); by rewrite H0).
  split; [apply Z.compare_lt_iff|apply Z.compare_gt_iff]; lia.
Qed.

(** The terminator sorts below every continuation of the text, escaped zero bytes included. *)
Lemma escape_order a b x y :
  bytes_cmp (escape a ++ STRING_TERMINATOR ++ x) (escape b ++ STRING_TERMINATOR ++ y)
  = lex (bytes_cmp a b) (bytes_cmp x y).
Proof.
  unfold STRING_TERMINATOR.
  revert b. induction a as [|c a IH]; intros [|d b]; rewrite ?escape_cons; unfold escape_byte, STRING_ESCAPE.
  - done.
  - destruct (decide (d = Byte.x00)) as [->|Hd]; [done|]. cbn [app escape mbind list_bind].
    by rewrite bytes_cmp_cons, (proj1 (byte_cmp_zero d Hd)).
  - destruct (decide (c = Byte.x00)) as [->|Hc]; [done|]. cbn [app escape mbind list_bind].
    by rewrite bytes_cmp_cons, (proj2 (byte_cmp_zero c Hc)).
  - rewrite (bytes_cmp_cons c d a b), lex_assoc, <-IH.
    destruct (decide (c = Byte.x00)) as [->|Hc], (decide (d = Byte.x00)) as [->|Hd]; cbn [app]; rewrite !bytes_cmp_cons.
    + by rewrite !cmp_refl by apply _.
    + by rewrite (proj1 (byte_cmp_zero d Hd)).
    + by rewrite (proj2 (byte_cmp_zero c Hc)).
    + done.
Qed.

(** The values a position accepts. *)
Definition stamp_value (v : Value) : Prop :=
  match v with
  | VNull => True
  | VTimestamp t => INT64_MIN <= Timestamp.micros t <= INT64_MAX
  | _ => False
  end.

Definition text_value (v : Value) : Prop :=
  match v with VNull => True | VString s => ∃ b, utf8_encode s = Ok b | _ => False end.

Definition int64 (v : Value) : Prop := ∀ t, v = VTimestamp t → INT64_MIN <= Timestamp.micros t <= INT64_MAX.

Lemma ordered_timestamp_Ok v : int64 v → (∃ k, ordered_timestamp v = Ok k) ↔ stamp_value v.
Proof.
  intros Hv. destruct v as [|t|s|]; simpl; (split; [intros [k Hk]|intros H]); try done; [by eexists|..|by eexists].
  by apply Hv.
Qed.

Lemma ordered_string_Ok v : (∃ k, ordered_string v = Ok k) ↔ text_value v.
Proof.
  destruct v as [| |s|]; simpl; [|by split; [intros [? ?]|]|destruct (utf8_encode s)|by split; [intros [? ?]|]].
  - split; [done|by eexists].
  - split; intros _; by eexists.
  - by split; intros [? ?].
Qed.

Lemma ordered_timestamp_order v w a b kv kw x y :
  int64 v → int64 w → sort_key v = Some a → sort_key w = Some b →
  ordered_timestamp v = Ok kv → ordered_timestamp w = Ok kw →
  bytes_cmp (kv ++ x) (kw ++ y) = lex (sort_cmp a b) (bytes_cmp x y).
Proof.
  intros Hv Hw Ha Hb Hkv Hkw. unfold int64, INT64_MIN, INT64_MAX in *.
  change (Z.shiftl 1 63) with 9223372036854775808 in *.
  destruct v as [|[t]|s|], w as [|[u]|s'|]; simpl in Hkv, Hkw; try done; injection Ha as <-; injection Hb as <-;
    injection Hkv as <-; injection Hkw as <-.
  - done.
  - done.
  - done.
  - specialize (Hv _ eq_refl). specialize (Hw _ eq_refl). cbn [Timestamp.micros] in *.
    change SIGN_BIT with 9223372036854775808. cbn [app]. unfold bytes_cmp. cbn [list_cmp].
    assert (byte_cmp Byte.x00 Byte.x00 = Eq) as -> by done. cbn [lex].
    rewrite list_cmp_app_length by (rewrite !length_be_pack; done).
    rewrite be_pack_order by (change (256 ^ Z.of_nat 8) with 18446744073709551616; lia).
    rewrite !(Z.add_comm _ 9223372036854775808), Z.add_compare_mono_l. done.
Qed.

Lemma ordered_string_order v w a b kv kw x y :
  sort_key v = Some a → sort_key w = Some b → ordered_string v = Ok kv → ordered_string w = Ok kw →
  bytes_cmp (kv ++ x) (kw ++ y)
  = lex (match v, w with VNull, VNull => Eq | _, _ => sort_cmp a b end) (bytes_cmp x y).
Proof.
  intros Ha Hb Hkv Hkw. destruct v as [|[t]|s|], w as [|[u]|s'|]; simpl in Hkv, Hkw; try done;
    injection Ha as <-; injection Hb as <-.
  - by injection Hkv as <-; injection Hkw as <-.
  - destruct (utf8_encode s') as [bs|]; [|done]. injection Hkv as <-. by injection Hkw as <-.
  - destruct (utf8_encode s) as [bs|]; [|done]. injection Hkv as <-. by injection Hkw as <-.
  - destruct (utf8_encode s) as [bs|] eqn:Es; [|done]. destruct (utf8_encode s') as [bs'|] eqn:Es'; [|done].
    injection Hkv as <-. injection Hkw as <-. cbn [app].
    rewrite bytes_cmp_cons, cmp_refl by apply _. cbn [lex]. rewrite <-!app_assoc, escape_order, (utf8_order _ _ _ _ Es Es'). unfold sort_cmp, pair_cmp. simpl. done.
Qed.

(** ** Properties *)

(** C40: the key order is the engine's order.  A key is made exactly for a null or 64-bit timestamp
    followed by a null or encodable text, and every other pair is refused as an index error; keys
    compare, byte by byte, as the engine's sort keys of their values compare (nulls last, times by
    microseconds, texts by code points), so distinct pairs have distinct keys. *)
Theorem ordered_key_order (t t' s s' : Value) (k k' : bytes)
    (Ht : int64 t) (Ht' : int64 t')
    (Hk : ordered_timestamp_string_key t s = Ok k) (Hk' : ordered_timestamp_string_key t' s' = Ok k') :
  (stamp_value t ∧ text_value s) ∧
  (∃ a b a' b', sort_key t = Some a ∧ sort_key s = Some b ∧ sort_key t' = Some a' ∧ sort_key s' = Some b' ∧
     bytes_cmp k k' = lex (sort_cmp a a') (sort_cmp b b')) ∧
  (k = k' ↔ t = t' ∧ s = s').
Proof.
  unfold ordered_timestamp_string_key in *. inv_ok Hk. inv_ok Hk'. injection Hk as <-. injection Hk' as <-.
  assert (stamp_value t ∧ text_value s) as [Hst Hte].
  { split; [apply (ordered_timestamp_Ok t Ht)|apply ordered_string_Ok]; eauto. }
  assert (stamp_value t' ∧ text_value s') as [Hst' Hte'].
  { split; [apply (ordered_timestamp_Ok t' Ht')|apply ordered_string_Ok]; eauto. }
  assert (∀ v, stamp_value v ∨ text_value v → ∃ a, sort_key v = Some a) as Hsk by (intros []; naive_solver).
  destruct (Hsk t) as [a Ha]; [auto|]. destruct (Hsk s) as [b Hb]; [auto|].
  destruct (Hsk t') as [a' Ha']; [auto|]. destruct (Hsk s') as [b' Hb']; [auto|].
  assert (bytes_cmp (x ++ x0) (x1 ++ x2) = lex (sort_cmp a a') (sort_cmp b b')) as Hcmp.
  { rewrite (ordered_timestamp_order t t' a a') by done. f_equal.
    rewrite <-(app_nil_r x0), <-(app_nil_r x2), (ordered_string_order s s' b b') by done.
    destruct s, s'; simpl in *; try done; simplify_eq; try done; by destruct (sort_cmp _ _). }
  split; [done|]. split; [by exists a, b, a', b'|].
  rewrite <-(cmp_Eq (cmp:=bytes_cmp)), Hcmp, lex_Eq. unfold sort_cmp, pair_cmp. rewrite !lex_Eq, !cmp_Eq.
  destruct t as [|[t]|?|], t' as [|[t']|?|], s as [|[?]|s|], s' as [|[?]|s'|]; simpl in *; try done; simplify_eq; simpl;
    rewrite ?Z.compare_eq_iff, ?(cmp_Eq (cmp:=text_cmp)); naive_solver.
Qed.

Lemma ordered_key_order_witness :
  ∃ k k', ordered_timestamp_string_key (VTimestamp (Timestamp.Mk (-5))) (VString (str "a")) = Ok k ∧
    ordered_timestamp_string_key (VTimestamp (Timestamp.Mk (-5))) (VString [97; 0]) = Ok k' ∧
    k ≠ k' ∧ bytes_cmp k k' = Lt.
Proof.
  eexists _, _. split; [vm_compute; reflexivity|]. split; [vm_compute; reflexivity|].
  edestruct (ordered_key_order (VTimestamp (Timestamp.Mk (-5))) (VTimestamp (Timestamp.Mk (-5)))
    (VString (str "a")) (VString [97; 0])) as (_ & _ & [Heq _]).
  - intros ? [= <-]. vm_compute. split; discriminate.
  - intros ? [= <-]. vm_compute. split; discriminate.
  - vm_compute; reflexivity.
  - vm_compute; reflexivity.
  - split; [intros Hkk; destruct (Heq Hkk) as [_ H]; discriminate H|vm_compute; reflexivity].
Defined.
