(* ===== verification/IndexChange.v ===== *)
(** The log records of an index: src/src/okto_grafx/domain/index/records.py, with the index-name
    rule of domain/index/definition.py and domain/model/schema.py.

    [IndexChange.t] is one logical change with the refusals of its constructor, [encode] and
    [decode] its payload, [wal_record_for] and [change_of] the way in and out of a log record.  The
    private slot in which the source caches a decoded change is not modelled: a cached change is
    used only when it encodes to the payload at hand, and the round trip below says that decoding
    gives the same. *)

From S2P Require Import Prelude Ids Layout Utf8 WalRecord IndexEntry.

Definition INDEX_CHANGE_FORMAT_VERSION : Z := 1.
Definition CHANGE_FLAG_VERSIONED : Z := 1.
Definition CHANGE_STRUCT : list field := [U 2; U 1; U 1; U 8; U 8; U 2; U 2].
Definition INDEX_CHANGE_HEADER_SIZE : Z := Z.of_nat (struct_size CHANGE_STRUCT).
Definition MAX_NAME_BYTES : Z := 0xFFFF.
Definition MAX_IDENTIFIER_LENGTH : Z := 128.

(** *** Names *)

Definition is_letter_or_underscore (c : Z) : bool :=
  (65 <=? c) && (c <=? 90) || (97 <=? c) && (c <=? 122) || (c =? 95).
Definition is_identifier_char (c : Z) : bool := is_letter_or_underscore c || (48 <=? c) && (c <=? 57).

Definition is_identifier (name : pystr) : bool :=
  match name with
  | [] => false
  | first :: _ => (zlen name <=? MAX_IDENTIFIER_LENGTH) && is_letter_or_underscore first
                  && forallb is_identifier_char name
  end.

Definition require_index_name (name : pystr) : result pystr :=
  if negb (is_identifier name) then raise GrafxIndexError "name" else Ok name.

(** *** Operations *)

Inductive IndexOperation := INSERT | TOMBSTONE | REMOVE | RESET.

#[export] Instance index_operation_eq_dec : EqDecision IndexOperation.
Proof. solve_decision. Defined.

Definition operation_value (o : IndexOperation) : Z :=
  match o with INSERT => 1 | TOMBSTONE => 2 | REMOVE => 3 | RESET => 4 end.

(** [IndexOperation(value)] of a known value. *)
Definition operation_of (value : Z) : option IndexOperation :=
  if value =? 1 then Some INSERT else if value =? 2 then Some TOMBSTONE
  else if value =? 3 then Some REMOVE else if value =? 4 then Some RESET else None.

Definition RECORD_TYPE_OF (o : IndexOperation) : WalRecordType :=
  match o with REMOVE => INDEX_RECONCILE | _ => INDEX_WRITE end.

Module IndexChange.

Record t := Mk {
  index : pystr;
  operation : IndexOperation;
  key : bytes;
  ref : RecordRef.t;
  csn : Z;
  versioned : bool;
  format_version : Z
}.

#[export] Instance eq_dec : EqDecision t.
Proof. solve_decision. Defined.

Definition require_width (field : string) (value ceiling : Z) : result unit :=
  require ((0 <=? value) && (value <=? ceiling)) GrafxIndexError field.

Definition post_init (c : t) : result t :=
  _ ← require_index_name (index c);
  if MAX_INDEX_KEY_BYTES <? zlen (key c) then raise GrafxIndexError "key"
  else
    _ ← require_width "csn" (csn c) MAX_U64;
    _ ← require_width "format_version" (format_version c) 0xFFFF;
    if csn c =? PROVISIONAL_CSN then raise GrafxIndexError "csn"
    else if bool_decide (operation c = INSERT) && versioned c && (csn c =? NO_CSN)
    then raise GrafxIndexError "csn"
    else if bool_decide (operation c = INSERT) && negb (versioned c) && negb (csn c =? NO_CSN)
    then raise GrafxIndexError "csn"
    else if bool_decide (operation c = TOMBSTONE) && (csn c =? NO_CSN) then raise GrafxIndexError "csn"
    else if bool_decide (operation c = RESET) && negb (bool_decide (key c = []))
    then raise GrafxIndexError "key"
    else if bool_decide (operation c = RESET)
            && (negb (RecordRef.slot (ref c) =? 0) || negb (Z.land (RecordRef.page (ref c)) 1 =? 0))
    then _ ← RecordRef.encode (ref c); raise GrafxIndexError "rebuild_token"
    else Ok c.

Definition record_type (c : t) : WalRecordType := RECORD_TYPE_OF (operation c).

Definition encode (c : t) : result bytes :=
  name ← utf8_encode (index c);
  if MAX_NAME_BYTES <? zlen name then raise GrafxIndexError "index"
  else
    encoded_ref ← RecordRef.encode (ref c);
    head ← struct_pack CHANGE_STRUCT
             (format_version c, (operation_value (operation c),
               (if versioned c then CHANGE_FLAG_VERSIONED else 0, (encoded_ref, (csn c,
               (zlen name, (zlen (key c), ())))))));
    Ok (head ++ name ++ key c).

Definition decode (raw : bytes) : result t :=
  if zlen raw <? INDEX_CHANGE_HEADER_SIZE then raise GrafxCorruptionDetected "payload"
  else
    '(format_version, (operation, (flags, (encoded_ref, (csn, (name_length, (key_length, _)))))))
      ← struct_unpack_from CHANGE_STRUCT raw 0;
    if INDEX_CHANGE_FORMAT_VERSION <? format_version then raise GrafxCorruptionDetected "format_version"
    else
      let expected := INDEX_CHANGE_HEADER_SIZE + name_length + key_length in
      if negb (zlen raw =? expected) then raise GrafxCorruptionDetected "payload"
      else
        match operation_of operation with
        | None => raise GrafxCorruptionDetected "operation"
        | Some operation =>
            if negb (Z.land flags (Z.lnot CHANGE_FLAG_VERSIONED) =? 0)
            then raise GrafxCorruptionDetected "flags"
            else
              let start := INDEX_CHANGE_HEADER_SIZE in
              match utf8_decode (slice raw start (start + name_length)) with
              | Err _ => raise GrafxCorruptionDetected "index"
              | Ok index =>
                  match (ref ← RecordRef.decode encoded_ref;
                         post_init (Mk index operation (drop (Z.to_nat (start + name_length)) raw) ref csn
                                      (negb (Z.land flags CHANGE_FLAG_VERSIONED =? 0)) format_version)) with
                  | Ok c => Ok c
                  | Err refused =>
                      if bool_decide (err_class refused = GrafxIndexError)
                      then raise GrafxCorruptionDetected (err_field refused)
                      else Err refused
                  end
              end
        end.

(** What the constructor guarantees, with the reference's width and the format this build writes. *)
Record wf (c : t) : Prop := {
  wf_ok : post_init c = Ok c;
  wf_ref : RecordRef.valid (ref c);
  wf_format : format_version c <= INDEX_CHANGE_FORMAT_VERSION
}.

End IndexChange.

(** *** Log records *)

Definition wal_record_for (change : IndexChange.t) (epoch txn_id : Z) (descriptor : pystr) : result WalRecord :=
  payload ← IndexChange.encode change;
  WalRecord.post_init
    (WalRecord.Mk (record_type_value (IndexChange.record_type change)) payload descriptor NO_LSN epoch txn_id 0
       WAL_LEGACY_FORMAT_VERSION).

Definition change_of (record : WalRecord) : result IndexChange.t :=
  let record_type := WalRecord.record_type record in
  if negb ((record_type =? record_type_value INDEX_WRITE) || (record_type =? record_type_value INDEX_RECONCILE))
  then raise GrafxIndexError "record_type"
  else
    change ← IndexChange.decode (WalRecord.payload record);
    if negb (record_type_value (IndexChange.record_type change) =? record_type)
    then raise GrafxCorruptionDetected "record_type"
    else Ok change.

(** ** Lemmas *)

Lemma utf8_encode_ascii s : Forall (λ c, 0 <= c < 128) s → utf8_encode s = Ok (byte_of_Z <$> s).
Proof.
  induction 1 as [|c s Hc _ IH]; [done|]. cbn [utf8_encode]. rewrite IH. unfold utf8_char, surrogate.
  rewrite (proj2 (Z.ltb_ge c 0)), (proj2 (Z.ltb_ge 0x10FFFF c)), (proj2 (Z.leb_gt 0xD800 c)), (proj2 (Z.ltb_lt c 0x80)) by lia.
  done.
Qed.

Lemma identifier_ascii s : is_identifier s = true →
  Forall (λ c, 0 <= c < 128) s ∧ zlen s <= MAX_IDENTIFIER_LENGTH.
Proof.
  unfold is_identifier. destruct s as [|c s]; [done|]. intros H. apply andb_true_iff in H as [H Hf].
  apply andb_true_iff in H as [Hl _]. split; [|lia]. apply Forall_forall. intros x Hx.
  rewrite forallb_forall in Hf. specialize (Hf x (proj1 (list_elem_of_In _ _) Hx)).
  unfold is_identifier_char, is_letter_or_underscore in Hf. lia.
Qed.

Lemma operation_of_value o : operation_of (operation_value o) = Some o.
Proof. by destruct o. Qed.

Lemma operation_of_inv v o : operation_of v = Some o → v = operation_value o.
Proof.
  unfold operation_of. destruct (Z.eqb_spec v 1); [by intros [= <-]|]. destruct (Z.eqb_spec v 2); [by intros [= <-]|].
  destruct (Z.eqb_spec v 3); [by intros [= <-]|]. destruct (Z.eqb_spec v 4); [by intros [= <-]|done].
Qed.

Module IndexChangeFacts.
Import IndexChange.

Lemma post_init_inv c c' : post_init c = Ok c' → c' = c ∧ is_identifier (index c) = true ∧
  zlen (key c) <= MAX_INDEX_KEY_BYTES ∧ 0 <= csn c <= MAX_U64 ∧ 0 <= format_version c <= 0xFFFF.
Proof.
  unfold post_init, require_width, require_index_name. intros H. inv_ok H.
  destruct (is_identifier (index c)) eqn:Hi; [|done]. destruct (Z.ltb_spec MAX_INDEX_KEY_BYTES (zlen (key c))); [done|].
  inv_ok H. split_and!; try done; try lia.
  repeat match type of H with (if ?b then raise _ _ else _) = _ => destruct b; [done|] end.
  destruct (_ && _) in H; [by inv_ok H|by injection H].
Qed.

Lemma post_init_csn c c' : post_init c = Ok c' → csn c ≠ PROVISIONAL_CSN.
Proof.
  unfold post_init, require_width, require_index_name. intros H. inv_ok H.
  destruct (is_identifier (index c)); [|done]. destruct (MAX_INDEX_KEY_BYTES <? zlen (key c)); [done|]. inv_ok H.
  destruct (Z.eqb_spec (csn c) PROVISIONAL_CSN); done.
Qed.

Definition name_bytes (c : t) : bytes := byte_of_Z <$> index c.

Definition fields (c : t) : fvals CHANGE_STRUCT :=
  (format_version c, (operation_value (operation c), (if versioned c then CHANGE_FLAG_VERSIONED else 0,
    (RecordRef.page (ref c) * 2 ^ 16 + RecordRef.slot (ref c), (csn c, (zlen (name_bytes c), (zlen (key c), ()))))))).

Definition image (c : t) : bytes := struct_image CHANGE_STRUCT (fields c) ++ name_bytes c ++ key c.

Lemma name_bytes_encode c : is_identifier (index c) = true →
  utf8_encode (index c) = Ok (name_bytes c) ∧ zlen (name_bytes c) <= MAX_IDENTIFIER_LENGTH.
Proof.
  intros [Ha Hl]%identifier_ascii. split; [by apply utf8_encode_ascii|].
  unfold name_bytes, zlen in *. by rewrite length_fmap.
Qed.

Lemma change_fields_fit c : wf c → struct_fits CHANGE_STRUCT (fields c).
Proof.
  intros [(_ & Hi & Hk & Hc & Hf)%post_init_inv [Hp Hs] _]. destruct (name_bytes_encode _ Hi) as [_ Hl].
  unfold fields, MAX_INDEX_KEY_BYTES, MAX_U64, MAX_PAGE_INDEX, MAX_SLOT_ID, MAX_IDENTIFIER_LENGTH in *.
  pose proof (zlen_nonneg (key c)). pose proof (zlen_nonneg (name_bytes c)). change (2 ^ 16) with 65536.
  assert (0 <= operation_value (operation c) < 256) by (destruct (operation c); simpl; lia).
  assert (0 <= (if versioned c then CHANGE_FLAG_VERSIONED else 0) < 256) by (destruct (versioned c); unfold CHANGE_FLAG_VERSIONED; lia).
  solve_fits.
Qed.

Lemma change_encode_wf c : wf c → encode c = Ok (image c).
Proof.
  intros Hwf. pose proof (change_fields_fit c Hwf) as Hf. destruct Hwf as [(_ & Hi & _)%post_init_inv Hr _].
  destruct (name_bytes_encode _ Hi) as [Hn Hl]. unfold encode. rewrite Hn. cbn [mbind result_bind].
  rewrite (proj2 (Z.ltb_ge _ _)) by (unfold MAX_NAME_BYTES, MAX_IDENTIFIER_LENGTH in *; lia).
  rewrite record_ref_encode_ok by done. cbn [mbind result_bind].
  change (struct_pack _ _) with (struct_pack CHANGE_STRUCT (fields c)).
  by rewrite struct_pack_image by done.
Qed.

Lemma change_zlen_image c : wf c → zlen (image c) = INDEX_CHANGE_HEADER_SIZE + zlen (name_bytes c) + zlen (key c).
Proof. intros H. unfold image. rewrite !zlen_app, zlen_struct_image by by apply change_fields_fit. unfold INDEX_CHANGE_HEADER_SIZE. lia. Qed.

Lemma image_parts c : wf c →
  slice (image c) INDEX_CHANGE_HEADER_SIZE (INDEX_CHANGE_HEADER_SIZE + zlen (name_bytes c)) = name_bytes c ∧
  drop (Z.to_nat (INDEX_CHANGE_HEADER_SIZE + zlen (name_bytes c))) (image c) = key c.
Proof.
  intros H. pose proof (zlen_struct_image _ _ (change_fields_fit c H)) as Hl.
  change (Z.of_nat (struct_size CHANGE_STRUCT)) with INDEX_CHANGE_HEADER_SIZE in Hl. unfold image. split.
  - by apply slice_app_middle.
  - rewrite app_assoc. apply drop_app_length'. rewrite length_app. unfold zlen in *. lia.
Qed.

Lemma change_decode_image c : wf c → decode (image c) = Ok c.
Proof.
  intros Hwf. unfold decode. rewrite change_zlen_image by done. pose proof (zlen_nonneg (key c)). pose proof (zlen_nonneg (name_bytes c)).
  rewrite (proj2 (Z.ltb_ge _ _)) by lia.
  assert (struct_unpack_from CHANGE_STRUCT (image c) 0 = Ok (fields c)) as ->.
  { apply struct_unpack_image_0. by apply change_fields_fit. }
  destruct (image_parts c Hwf) as [Hname Hkey]. destruct Hwf as [Hok [Hp Hs] Hf].
  cbn [fields mbind result_bind]. rewrite (proj2 (Z.ltb_ge _ _)) by lia. rewrite Z.eqb_refl. cbn [negb].
  rewrite operation_of_value.
  replace (Z.land (if versioned c then CHANGE_FLAG_VERSIONED else 0) (Z.lnot CHANGE_FLAG_VERSIONED) =? 0)
    with true by by destruct (versioned c).
  replace (Z.land (if versioned c then CHANGE_FLAG_VERSIONED else 0) CHANGE_FLAG_VERSIONED =? 0)
    with (negb (versioned c)) by by destruct (versioned c).
  cbn [negb]. rewrite Hname, Hkey. pose proof (post_init_inv _ _ Hok) as (_ & Hi & _).
  destruct (name_bytes_encode _ Hi) as [Hn _]. rewrite (utf8_roundtrip _ _ Hn).
  rewrite record_ref_decode_ok by done. cbn [mbind result_bind]. rewrite negb_involutive.
  assert (Mk (index c) (operation c) (key c) (RecordRef.Mk (RecordRef.page (ref c)) (RecordRef.slot (ref c)))
    (csn c) (versioned c) (format_version c) = c) as -> by by destruct c as [? ? ? [] ? ? ?].
  by rewrite Hok.
Qed.

Lemma change_decode_inv raw c : decode raw = Ok c → wf c ∧ raw = image c.
Proof.
  unfold decode. destruct (Z.ltb_spec (zlen raw) INDEX_CHANGE_HEADER_SIZE); [done|]. intros H0.
  apply bind_Ok in H0 as ([fv [o [fl [r [cs [nl [kl []]]]]]]] & Hu & H0).
  apply (struct_unpack_from_Ok CHANGE_STRUCT) in Hu as (Hf & Hl & Himg); [|done].
  change (Z.of_nat (struct_size CHANGE_STRUCT)) with INDEX_CHANGE_HEADER_SIZE in *.
  change INDEX_CHANGE_HEADER_SIZE with 24 in *.
  cbn [struct_fits field_fits fst snd CHANGE_STRUCT] in Hf. pow256.
  destruct (Z.ltb_spec INDEX_CHANGE_FORMAT_VERSION fv) as [|Hfv]; [done|].
  destruct (Z.eqb_spec (zlen raw) (24 + nl + kl)) as [Hz|]; [|done]. cbn [negb] in H0.
  destruct (operation_of o) as [op|] eqn:Hop; [|done]. apply operation_of_inv in Hop as ->.
  destruct (Z.eqb_spec (Z.land fl (Z.lnot CHANGE_FLAG_VERSIONED)) 0) as [Hfl|]; [|done]. cbn [negb] in H0.
  apply known_entry_flags in Hfl; [|lia].
  destruct (utf8_decode (slice raw 24 (24 + nl))) as [name|] eqn:Hn; [|done].
  destruct (RecordRef.decode r) as [rr|e] eqn:Hr; cbn [mbind result_bind] in H0; [|by destruct (bool_decide _)].
  destruct (post_init _) as [c'|e] eqn:Hp; [|by destruct (bool_decide _)]. injection H0 as <-.
  pose proof (post_init_inv _ _ Hp) as (-> & Hi & _). apply record_ref_decode_inv in Hr as [Hv ->].
  split; [split; [done|done|simpl; lia]|]. apply utf8_decode_inv in Hn. cbn [index] in Hi.
  assert (slice raw 24 (24 + nl) = byte_of_Z <$> name) as Hname.
  { apply identifier_ascii in Hi as [Ha _]. rewrite (utf8_encode_ascii _ Ha) in Hn. by injection Hn. }
  assert (zlen (byte_of_Z <$> name) = nl) as Hnl by (rewrite <-Hname, zlen_slice by lia; lia).
  assert (zlen (drop (Z.to_nat (24 + nl)) raw) = kl) as Hkl by (unfold zlen in *; rewrite length_drop; lia).
  unfold image, fields, name_bytes. cbn [index operation key ref csn versioned format_version].
  rewrite Hnl, Hkl, <-Hname.
  assert ((if negb (Z.land fl CHANGE_FLAG_VERSIONED =? 0) then CHANGE_FLAG_VERSIONED else 0) = fl) as -> by by destruct Hfl as [-> | ->].
  rewrite Himg, app_assoc, <-slice_split by lia. unfold slice. rewrite Z.sub_0_r, drop_0. by rewrite take_drop.
Qed.

Lemma change_decode_errs raw : errs_in IndexEntryFacts.corrupt (decode raw).
Proof.
  unfold decode. destruct (Z.ltb_spec (zlen raw) INDEX_CHANGE_HEADER_SIZE); [by apply errs_in_raise|].
  apply errs_in_bind; [intros e He; by apply (IndexEntryFacts.struct_unpack_errs CHANGE_STRUCT) in He|].
  intros [fv [o [fl [r [cs [nl [kl []]]]]]]] _. apply errs_in_if; [by apply errs_in_raise|].
  apply errs_in_if; [by apply errs_in_raise|]. destruct (operation_of o) as [op|]; [|by apply errs_in_raise].
  apply errs_in_if; [by apply errs_in_raise|]. destruct (utf8_decode _) as [name|]; [|by apply errs_in_raise].
  set (k := drop _ raw). clearbody k. set (v := negb _). clearbody v.
  destruct (_ ≫= _) as [c|refused] eqn:E; [apply errs_in_Ok|]. case_bool_decide as Hc; [by apply errs_in_raise|].
  intros e [= <-]. destruct (RecordRef.decode r) as [rr|e'] eqn:Hr; cbn [mbind result_bind] in E.
  2:{ injection E as <-. revert Hr. unfold RecordRef.decode, RecordRef.require_decodable_ref.
      by destruct (negb _); [intros [= <-]|]. }
  apply record_ref_decode_inv in Hr as [Hv _]. destruct Hc. revert E.
  unfold post_init, require_width, require_index_name, require, raise.
  repeat match goal with
  | |- context [if negb (is_identifier ?i) then _ else _] => destruct (is_identifier i); cbn [negb mbind result_bind]
  | |- (if ?b then _ else _) = Err _ → _ => destruct b
  | |- ((if ?b then _ else _) ≫= _) = Err _ → _ => destruct b; cbn [mbind result_bind]
  end; try by intros [= <-].
  rewrite record_ref_encode_ok by done. by intros [= <-].
Qed.
End IndexChangeFacts.

(** ** Properties *)

(** index changes travel through the log unchanged.  A change the constructor accepts encodes to
    exactly its payload, the log record built for it carries the record type of its operation, and
    reading that record gives the change back; every payload [decode] accepts is the encoding of
    the change it returns, and every refusal is a corruption. *)
Theorem index_change_codec (c : IndexChange.t) (raw : bytes) (epoch txn_id : Z) (descriptor : pystr) :
  (IndexChange.wf c →
     (∃ b, IndexChange.encode c = Ok b ∧ IndexChange.decode b = Ok c) ∧
     ∀ r, wal_record_for c epoch txn_id descriptor = Ok r →
       change_of r = Ok c ∧ WalRecord.record_type r = record_type_value (RECORD_TYPE_OF (IndexChange.operation c))) ∧
  (IndexChange.decode raw = Ok c → IndexChange.wf c ∧ IndexChange.encode c = Ok raw) ∧
  errs_in IndexEntryFacts.corrupt (IndexChange.decode raw).
Proof.
  split_and!.
  - intros Hwf. pose proof (IndexChangeFacts.change_encode_wf c Hwf) as He. pose proof (IndexChangeFacts.change_decode_image c Hwf) as Hd.
    split; [by eexists|]. intros r Hr. unfold wal_record_for in Hr. rewrite He in Hr. cbn [mbind result_bind] in Hr.
    apply record_post_init_Ok in Hr as [-> _]. split; [|done]. unfold change_of. cbn [WalRecord.record_type WalRecord.payload].
    rewrite Hd. unfold IndexChange.record_type. cbn [mbind result_bind]. by destruct (IndexChange.operation c).
  - intros [Hwf ->]%IndexChangeFacts.change_decode_inv. split; [done|by apply IndexChangeFacts.change_encode_wf].
  - apply IndexChangeFacts.change_decode_errs.
Qed.

Lemma index_change_codec_witness :
  let c := IndexChange.Mk (str "by_when") TOMBSTONE [Byte.x01] (RecordRef.Mk 7 3) 12 false 1 in
  ∃ r, wal_record_for c 1 2 [] = Ok r ∧ change_of r = Ok c ∧ WalRecord.record_type r = 6.
Proof.
  intros c. eexists. split; [vm_compute; reflexivity|].
  destruct (index_change_codec c [] 1 2 []) as (H & _ & _).
  destruct H as [_ H]; [split; [reflexivity|split; split; vm_compute; discriminate|vm_compute; discriminate]|].
  exact (H _ eq_refl).
Defined.
