(* ===== verification/PageRecord.v ===== *)
(** Page writes in the log: src/src/okto_grafx/domain/txn/records.py.

    The payload of a WRITE_PAGE record names its file and page and carries the image of the page,
    compressed when that is shorter.  zlib is a class: what [zlib.compress] and a bounded
    [decompress] answer, with the law that the one undoes the other. *)

From S2P Require Import Prelude Layout Utf8 WalRecord IndexChange.

(** ** zlib *)

(** What [decompress(data, max_length)] leaves of a decompression object: its output, whether the
    stream ended, the bytes after its end and the bytes not looked at. *)
Record Inflated := MkInflated { output : bytes; eof : bool; unused_data : bytes; unconsumed_tail : bytes }.

Class Zlib := {
  zlib_compress : bytes → bytes;
  zlib_decompress : bytes → Z → option Inflated
}.

Class ZlibLaws {ZL : Zlib} := {
  zlib_inflates raw limit : zlen raw < limit →
    zlib_decompress (zlib_compress raw) limit = Some (MkInflated raw true [] [])
}.
Arguments ZlibLaws : clear implicits.

(** ** Files *)

Definition INDEX_DIRECTORY : pystr := str "index".
Definition INDEX_FILE_SUFFIX : pystr := str ".idx".
Definition REDOABLE_PAGE_FILES : list pystr := [str "heap.dat"; str "catalog.dat"].
Definition COMMIT_DIRECTORY_FILE : pystr := str "commits.dir".
Definition COMMIT_STREAM_FILE : pystr := str "commits.dat".
Definition COMMIT_CATALOG_PAGE_FILES : list pystr := [COMMIT_DIRECTORY_FILE; COMMIT_STREAM_FILE].
Definition SYSTEM_HISTORY_FILE : pystr := str "system-history.dat".

Definition is_redoable_page_file (file : pystr) : bool :=
  if bool_decide (file = []) || bool_decide (92 ∈ file) then false
  else
    let parts := split 47 file in
    if existsb (λ part, bool_decide (part ∈ [[]; str "."; str ".."])) parts then false
    else if bool_decide (file ∈ REDOABLE_PAGE_FILES) then true
    else
      match parts with
      | [directory; basename] =>
          if negb (bool_decide (directory = INDEX_DIRECTORY)) then false
          else if negb (ends_with INDEX_FILE_SUFFIX basename) then false
          else is_ok (require_index_name (take (length basename - length INDEX_FILE_SUFFIX) basename))
      | _ => false
      end.

(** ** Payloads *)

Definition MAX_FILE_NAME_BYTES : Z := 0xFFFF.
Definition MAX_PAGE_INDEX_FIELD : Z := 0xFFFFFFFF.
Definition NAME_LENGTH : list field := [U 2].
Definition PAGE_INDEX : list field := [U 4].
Definition UNCOMPRESSED_LENGTH : list field := [U 4].
Definition PAGE_IMAGE_ZLIB1_FLAGS : Z := Z.lor WAL_V2_FLAG_REQUIRED WAL_V2_FLAG_PAGE_IMAGE_ZLIB1.
Definition COMMIT_CATALOG_FLAGS : Z := Z.lor WAL_V2_FLAG_REQUIRED WAL_V2_FLAG_COMMIT_CATALOG_V1.
Definition SYSTEM_HISTORY_FLAGS : Z := Z.lor WAL_V2_FLAG_REQUIRED WAL_V2_FLAG_SYSTEM_HISTORY_V1.

Record PageWrite := MkPageWrite { write_file : pystr; write_index : Z; write_image : bytes }.

Definition encode_page_write (file : pystr) (page_index : Z) (image : bytes) : result bytes :=
  if bool_decide (file = []) then raise GrafxConfigurationError "file"
  else
    encoded ← utf8_encode file;
    if MAX_FILE_NAME_BYTES <? zlen encoded then raise GrafxConfigurationError "file"
    else if negb ((0 <=? page_index) && (page_index <=? MAX_PAGE_INDEX_FIELD))
    then raise GrafxConfigurationError "page_index"
    else
      name_length ← struct_pack NAME_LENGTH (zlen encoded, ());
      index ← struct_pack PAGE_INDEX (page_index, ());
      Ok (name_length ++ encoded ++ index ++ image).

Record EncodedPageWrite := MkEncoded {
  encoded_payload : bytes;
  encoded_format_version : Z;
  encoded_flags : Z
}.

Definition compressed (e : EncodedPageWrite) : bool :=
  (encoded_format_version e =? WAL_FORMAT_VERSION) && negb (Z.land (encoded_flags e) WAL_V2_FLAG_PAGE_IMAGE_ZLIB1 =? 0).

(** The name, the page, and where the image begins. *)
Definition decode_page_write_prefix (raw : bytes) : result (pystr * Z * Z) :=
  if zlen raw <? 2 then raise GrafxCorruptionDetected "payload"
  else
    '(name_length, _) ← struct_unpack_from NAME_LENGTH raw 0;
    let minimum := 2 + name_length + 4 in
    if zlen raw <? minimum then raise GrafxCorruptionDetected "payload"
    else
      match utf8_decode (slice raw 2 (2 + name_length)) with
      | Err _ => raise GrafxCorruptionDetected "file"
      | Ok file =>
          '(page_index, _) ← struct_unpack_from PAGE_INDEX raw (2 + name_length);
          Ok (file, page_index, minimum)
      end.

Definition decode_page_write_location (payload : bytes) : result (pystr * Z) :=
  '(file, page_index, _) ← decode_page_write_prefix payload; Ok (file, page_index).

Section codec.
Context {ZL : Zlib}.

Definition encode_page_write_record (file : pystr) (page_index : Z) (image : bytes) (compress : bool) : result EncodedPageWrite :=
  legacy ← encode_page_write file page_index image;
  let journal := bool_decide (file ∈ COMMIT_CATALOG_PAGE_FILES) in
  let history := bool_decide (file = SYSTEM_HISTORY_FILE) in
  let version := if journal || history then WAL_FORMAT_VERSION else WAL_LEGACY_FORMAT_VERSION in
  let flags := if journal then COMMIT_CATALOG_FLAGS else if history then SYSTEM_HISTORY_FLAGS else 0 in
  if negb compress then Ok (MkEncoded legacy version flags)
  else
    let compressed := zlib_compress image in
    if zlen image <=? zlen compressed + 4 then Ok (MkEncoded legacy version flags)
    else
      let prefix_length := zlen legacy - zlen image in
      length ← struct_pack UNCOMPRESSED_LENGTH (zlen image, ());
      Ok (MkEncoded (slice legacy 0 prefix_length ++ length ++ compressed) WAL_FORMAT_VERSION
            (Z.lor PAGE_IMAGE_ZLIB1_FLAGS flags)).

(** The image of a compressed payload, from its length on. *)
Definition inflate_image (raw : bytes) (minimum : Z) : result bytes :=
  let compressed_offset := minimum + 4 in
  if zlen raw <? compressed_offset then raise GrafxCorruptionDetected "payload"
  else
    '(declared_length, _) ← struct_unpack_from UNCOMPRESSED_LENGTH raw minimum;
    if negb ((0 <? declared_length) && (declared_length <=? MAX_PAGE_SIZE)) then raise GrafxCorruptionDetected "image_length"
    else
      match zlib_decompress (drop (Z.to_nat compressed_offset) raw) (declared_length + 1) with
      | None => raise GrafxCorruptionDetected "compression"
      | Some inflater =>
          if negb (zlen (output inflater) =? declared_length) || negb (eof inflater)
             || negb (bool_decide (unused_data inflater = [])) || negb (bool_decide (unconsumed_tail inflater = []))
          then raise GrafxCorruptionDetected "image_length"
          else Ok (output inflater)
      end.

Definition decode_page_write (payload : bytes) (format_version flags : Z) : result PageWrite :=
  '(file, page_index, minimum) ← decode_page_write_prefix payload;
  let rest := drop (Z.to_nat minimum) payload in
  if format_version =? WAL_LEGACY_FORMAT_VERSION then
    if bool_decide (file ∈ COMMIT_CATALOG_PAGE_FILES) || bool_decide (file = SYSTEM_HISTORY_FILE)
    then raise GrafxSchemaVersionMismatch "commit_catalog_grammar"
    else Ok (MkPageWrite file page_index rest)
  else if negb (format_version =? WAL_FORMAT_VERSION) then raise GrafxSchemaVersionMismatch "format_version"
  else if negb (bool_decide (v2_record_semantics_error (record_type_value WRITE_PAGE) flags = None))
  then raise GrafxSchemaVersionMismatch "flags"
  else
    let journal := negb (Z.land flags WAL_V2_FLAG_COMMIT_CATALOG_V1 =? 0) in
    let history := negb (Z.land flags WAL_V2_FLAG_SYSTEM_HISTORY_V1 =? 0) in
    if negb (Bool.eqb history (bool_decide (file = SYSTEM_HISTORY_FILE)))
    then raise GrafxSchemaVersionMismatch "system_history_grammar"
    else if journal && negb (bool_decide (file ∈ COMMIT_CATALOG_PAGE_FILES))
    then raise GrafxCorruptionDetected "commit_catalog_target"
    else if negb journal && bool_decide (file ∈ COMMIT_CATALOG_PAGE_FILES)
    then raise GrafxSchemaVersionMismatch "commit_catalog_grammar"
    else if Z.land flags WAL_V2_FLAG_PAGE_IMAGE_ZLIB1 =? 0 then Ok (MkPageWrite file page_index rest)
    else image ← inflate_image payload minimum; Ok (MkPageWrite file page_index image).
End codec.

(** ** Lemmas *)

(** The part of a payload before the image. *)
Definition page_write_prefix (encoded : bytes) (page_index : Z) : bytes :=
  le_pack 2 (zlen encoded) ++ encoded ++ le_pack 4 page_index.

Lemma zlen_prefix encoded page_index : zlen (page_write_prefix encoded page_index) = 2 + zlen encoded + 4.
Proof. unfold page_write_prefix. rewrite !zlen_app, !zlen_le_pack. lia. Qed.

Lemma encode_page_write_Ok file page_index image b : encode_page_write file page_index image = Ok b →
  ∃ encoded, utf8_encode file = Ok encoded ∧ zlen encoded <= MAX_FILE_NAME_BYTES ∧ 0 <= page_index <= MAX_PAGE_INDEX_FIELD ∧
    file ≠ [] ∧ b = page_write_prefix encoded page_index ++ image.
Proof.
  unfold encode_page_write. case_bool_decide; [done|]. destruct (utf8_encode file) as [encoded|]; [|done]. cbn [mbind result_bind].
  destruct (Z.ltb_spec MAX_FILE_NAME_BYTES (zlen encoded)) as [|Hl]; [done|]. case_match eqn:Hi; [done|]. intros Hb.
  assert (0 <= page_index <= MAX_PAGE_INDEX_FIELD) as Hp by lia. pose proof (zlen_nonneg encoded).
  rewrite (struct_pack_image NAME_LENGTH (zlen encoded, ())) in Hb by (unfold MAX_FILE_NAME_BYTES in *; solve_fits).
  rewrite (struct_pack_image PAGE_INDEX (page_index, ())) in Hb by (unfold MAX_PAGE_INDEX_FIELD in *; solve_fits).
  injection Hb as <-. exists encoded. split_and!; try done; [lia..|]. unfold page_write_prefix. cbn. by rewrite ?app_nil_r, <-?app_assoc.
Qed.

Lemma decode_prefix_image file encoded page_index rest :
  utf8_encode file = Ok encoded → zlen encoded <= MAX_FILE_NAME_BYTES → 0 <= page_index <= MAX_PAGE_INDEX_FIELD →
  decode_page_write_prefix (page_write_prefix encoded page_index ++ rest) =
    Ok (file, page_index, zlen (page_write_prefix encoded page_index)).
Proof.
  intros He Hl Hp. pose proof (zlen_nonneg encoded). pose proof (zlen_nonneg rest). unfold MAX_FILE_NAME_BYTES, MAX_PAGE_INDEX_FIELD in *.
  unfold decode_page_write_prefix. rewrite zlen_app, zlen_prefix.
  rewrite (proj2 (Z.ltb_ge _ _)) by lia.
  assert (page_write_prefix encoded page_index ++ rest =
    struct_image NAME_LENGTH (zlen encoded, ()) ++ encoded ++ struct_image PAGE_INDEX (page_index, ()) ++ rest) as ->.
  { unfold page_write_prefix. cbn. by rewrite ?app_nil_r, <-?app_assoc. }
  rewrite struct_unpack_image_0 by solve_fits. cbn [mbind result_bind]. rewrite (proj2 (Z.ltb_ge _ _)) by lia.
  rewrite slice_app_middle by done. rewrite (utf8_roundtrip _ _ He).
  assert (2 + zlen encoded = zlen (struct_image NAME_LENGTH (zlen encoded, ()) ++ encoded)) as ->
    by (rewrite zlen_app, zlen_struct_image by solve_fits; done).
  rewrite (app_assoc _ encoded), (struct_unpack_image PAGE_INDEX (page_index, ())) by solve_fits. done.
Qed.

(** A file name and a page that a payload of these bytes carries. *)
Lemma decode_prefix_Ok raw file page_index minimum : decode_page_write_prefix raw = Ok (file, page_index, minimum) →
  ∃ encoded rest, utf8_encode file = Ok encoded ∧ raw = page_write_prefix encoded page_index ++ rest ∧
    minimum = zlen (page_write_prefix encoded page_index) ∧ 0 <= page_index <= MAX_PAGE_INDEX_FIELD.
Proof.
  unfold decode_page_write_prefix. destruct (Z.ltb_spec (zlen raw) 2) as [|H2]; [done|]. intros H.
  apply bind_Ok in H as ([n []] & Hn & H). apply (struct_unpack_from_Ok NAME_LENGTH) in Hn as (Hf & _ & Himg); [|done].
  cbn [struct_fits field_fits fst snd NAME_LENGTH] in Hf. pow256. destruct (Z.ltb_spec (zlen raw) (2 + n + 4)) as [|Hm]; [done|].
  destruct (utf8_decode (slice raw 2 (2 + n))) as [name|] eqn:Hu; [|done]. apply bind_Ok in H as ([i []] & Hi & [= <- <- <-]).
  apply (struct_unpack_from_Ok PAGE_INDEX) in Hi as (Hfi & _ & Himi); [|lia]. cbn [struct_fits field_fits fst snd PAGE_INDEX] in Hfi. pow256.
  apply utf8_decode_inv in Hu. exists (slice raw 2 (2 + n)), (drop (Z.to_nat (2 + n + 4)) raw).
  assert (zlen (slice raw 2 (2 + n)) = n) as Hl by (rewrite zlen_slice by lia; lia).
  split; [done|]. rewrite zlen_prefix, Hl. split; [|split; [done|unfold MAX_PAGE_INDEX_FIELD; lia]].
  unfold page_write_prefix. rewrite Hl. cbn in Himg, Himi. rewrite ?app_nil_r in Himg, Himi.
  assert (le_pack 2 n = slice raw 0 2) as -> by exact Himg. assert (le_pack 4 i = slice raw (2 + n) (2 + n + 4)) as -> by exact Himi.
  rewrite <-slice_split, <-slice_split by lia. unfold slice. rewrite Z.sub_0_r, drop_0. by rewrite take_drop.
Qed.

(** Every encoding begins with the name and the page. *)
Lemma decode_location_image file encoded page_index rest :
  utf8_encode file = Ok encoded → zlen encoded <= MAX_FILE_NAME_BYTES → 0 <= page_index <= MAX_PAGE_INDEX_FIELD →
  decode_page_write_location (page_write_prefix encoded page_index ++ rest) = Ok (file, page_index).
Proof. intros. unfold decode_page_write_location. by rewrite (decode_prefix_image file). Qed.

Lemma drop_prefix (pre rest : bytes) : drop (Z.to_nat (zlen pre)) (pre ++ rest) = rest.
Proof. unfold zlen. rewrite Nat2Z.id. apply drop_app_length. Qed.

Section codec_lemmas.
Context {ZL : Zlib} {ZLL : ZlibLaws ZL}.

(** What the writer puts behind the prefix, and what its flags say of it. *)
Lemma inflate_compressed pre image : 0 < zlen image <= MAX_PAGE_SIZE →
  inflate_image (pre ++ struct_image UNCOMPRESSED_LENGTH (zlen image, ()) ++ zlib_compress image) (zlen pre) = Ok image.
Proof using ZLL.
  intros Hl. assert (struct_fits UNCOMPRESSED_LENGTH (zlen image, ())) as Hf by (unfold MAX_PAGE_SIZE in *; solve_fits).
  unfold inflate_image. rewrite !zlen_app, zlen_struct_image by done. pose proof (zlen_nonneg (zlib_compress image)).
  change (Z.of_nat (struct_size UNCOMPRESSED_LENGTH)) with 4. rewrite (proj2 (Z.ltb_ge _ _)) by lia.
  rewrite struct_unpack_image by done. cbn [mbind result_bind].
  rewrite (proj2 (Z.ltb_lt 0 _)), (proj2 (Z.leb_le _ MAX_PAGE_SIZE)) by lia. cbn [negb andb].
  assert (zlen pre + 4 = zlen (pre ++ struct_image UNCOMPRESSED_LENGTH (zlen image, ()))) as ->
    by (rewrite zlen_app, zlen_struct_image by done; done).
  rewrite app_assoc, drop_prefix, zlib_inflates by lia. cbn [output eof unused_data unconsumed_tail]. by rewrite Z.eqb_refl.
Qed.

Lemma inflate_image_Ok raw minimum image : inflate_image raw minimum = Ok image → 0 < zlen image <= MAX_PAGE_SIZE.
Proof.
  unfold inflate_image. case_match; [done|]. intros H1. apply bind_Ok in H1 as ([n []] & _ & H1).
  destruct (negb (_ && _)) eqn:Hn; [done|]. destruct (zlib_decompress _ _) as [i|]; [|done].
  destruct (_ || _) eqn:Ho; [done|]. injection H1 as <-. lia.
Qed.

(** *** Who may write the journals *)

(** The flags of a v2 page write: compressed or not, and for which journal. *)
Lemma page_write_flags f : v2_record_semantics_error (record_type_value WRITE_PAGE) f = None →
  (f = PAGE_IMAGE_ZLIB1_FLAGS ∨ f = COMMIT_CATALOG_FLAGS ∨ f = Z.lor PAGE_IMAGE_ZLIB1_FLAGS COMMIT_CATALOG_FLAGS ∨
   f = SYSTEM_HISTORY_FLAGS ∨ f = Z.lor PAGE_IMAGE_ZLIB1_FLAGS SYSTEM_HISTORY_FLAGS).
Proof using Type.
  unfold v2_record_semantics_error. rewrite Z.eqb_refl. case_bool_decide as Hf; [intros _|done].
  rewrite !elem_of_cons in Hf. destruct Hf as [->|[->|[->|[->|[->|[]%elem_of_nil]]]]]; auto.
  all: right; right; right; right; done.
Qed.
End codec_lemmas.

(** The semantics a file calls for. *)
Definition journal_flags (file : pystr) : Z :=
  if bool_decide (file ∈ COMMIT_CATALOG_PAGE_FILES) then COMMIT_CATALOG_FLAGS
  else if bool_decide (file = SYSTEM_HISTORY_FILE) then SYSTEM_HISTORY_FLAGS else 0.
Definition journal_version (file : pystr) : Z :=
  if bool_decide (file ∈ COMMIT_CATALOG_PAGE_FILES) || bool_decide (file = SYSTEM_HISTORY_FILE)
  then WAL_FORMAT_VERSION else WAL_LEGACY_FORMAT_VERSION.

(** A file is of one kind only. *)
Lemma file_kinds (P : bool → bool → Prop) file : P true false → P false true → P false false →
  P (bool_decide (file ∈ COMMIT_CATALOG_PAGE_FILES)) (bool_decide (file = SYSTEM_HISTORY_FILE)).
Proof.
  intros H1 H2 H3. case_bool_decide as Hj; case_bool_decide as Hh; try done. subst file.
  assert (bool_decide (SYSTEM_HISTORY_FILE ∈ COMMIT_CATALOG_PAGE_FILES) = true) as Hb by (by apply bool_decide_eq_true_2).
  vm_compute in Hb. done.
Qed.

Ltac file_cases file :=
  pattern (bool_decide (file ∈ COMMIT_CATALOG_PAGE_FILES)), (bool_decide (file = SYSTEM_HISTORY_FILE)); apply (file_kinds _ file).

Section roundtrip.
Context {ZL : Zlib} {ZLL : ZlibLaws ZL}.

Lemma decode_plain raw file page_index image n : decode_page_write_prefix raw = Ok (file, page_index, n) →
  drop (Z.to_nat n) raw = image → decode_page_write raw (journal_version file) (journal_flags file) = Ok (MkPageWrite file page_index image).
Proof using Type.
  intros H <-. unfold decode_page_write. rewrite H. cbn [mbind result_bind]. unfold journal_version, journal_flags.
  by file_cases file.
Qed.

Lemma decode_packed raw file page_index image n : decode_page_write_prefix raw = Ok (file, page_index, n) →
  inflate_image raw n = Ok image →
  decode_page_write raw WAL_FORMAT_VERSION (Z.lor PAGE_IMAGE_ZLIB1_FLAGS (journal_flags file)) = Ok (MkPageWrite file page_index image).
Proof using Type.
  intros H Hi. unfold decode_page_write. rewrite H. cbn [mbind result_bind]. unfold journal_flags.
  file_cases file; cbn; by rewrite Hi.
Qed.

Lemma journal_flags_admitted file : journal_version file = WAL_FORMAT_VERSION →
  v2_record_semantics_error (record_type_value WRITE_PAGE) (journal_flags file) = None.
Proof using Type. unfold journal_version, journal_flags. by file_cases file. Qed.

Lemma packed_flags_admitted file :
  v2_record_semantics_error (record_type_value WRITE_PAGE) (Z.lor PAGE_IMAGE_ZLIB1_FLAGS (journal_flags file)) = None.
Proof using Type. unfold journal_flags. by file_cases file. Qed.

Lemma plain_uncompressed payload file : compressed (MkEncoded payload (journal_version file) (journal_flags file)) = false.
Proof using Type. unfold compressed, journal_version, journal_flags. cbn [encoded_format_version encoded_flags]. by file_cases file. Qed.

Lemma packed_compressed payload file :
  compressed (MkEncoded payload WAL_FORMAT_VERSION (Z.lor PAGE_IMAGE_ZLIB1_FLAGS (journal_flags file))) = true.
Proof using Type. unfold compressed, journal_flags. cbn [encoded_format_version encoded_flags]. by file_cases file. Qed.
End roundtrip.

(** ** Properties *)

(** C22: A page write that encodes is read back as itself from its payload, compressed or not, for every file
    it may name; its target is read without its image, its flags are those the log admits, and it is
    compressed only when that is strictly shorter. *)
Theorem page_write_roundtrip {ZL : Zlib} {ZLL : ZlibLaws ZL} (file : pystr) (page_index : Z) (image : bytes) (compress : bool)
    (e : EncodedPageWrite)
    (Hencode : encode_page_write_record file page_index image compress = Ok e) (Hsize : zlen image <= MAX_PAGE_SIZE) :
  decode_page_write (encoded_payload e) (encoded_format_version e) (encoded_flags e) = Ok (MkPageWrite file page_index image) ∧
  decode_page_write_location (encoded_payload e) = Ok (file, page_index) ∧
  (encoded_format_version e = WAL_FORMAT_VERSION → v2_record_semantics_error (record_type_value WRITE_PAGE) (encoded_flags e) = None) ∧
  ∃ legacy, encode_page_write file page_index image = Ok legacy ∧
    if compressed e then zlen (encoded_payload e) < zlen legacy else encoded_payload e = legacy.
Proof.
  unfold encode_page_write_record in Hencode. apply bind_Ok in Hencode as (legacy & Hlegacy & He).
  destruct (encode_page_write_Ok _ _ _ _ Hlegacy) as (encoded & Hu & Hl & Hi & _ & Himg).
  pose proof (λ rest, decode_prefix_image file encoded page_index rest Hu Hl Hi) as Hpre.
  pose proof (λ rest, decode_location_image file encoded page_index rest Hu Hl Hi) as Hloc.
  set (pre := page_write_prefix encoded page_index) in *. change (if bool_decide (file ∈ _) then _ else _) with (journal_flags file) in He.
  change (if _ || _ then WAL_FORMAT_VERSION else _) with (journal_version file) in He.
  assert (e = MkEncoded legacy (journal_version file) (journal_flags file) ∨
    0 < zlen image ∧ zlen (zlib_compress image) + 4 < zlen image ∧
    e = MkEncoded (pre ++ struct_image UNCOMPRESSED_LENGTH (zlen image, ()) ++ zlib_compress image) WAL_FORMAT_VERSION
          (Z.lor PAGE_IMAGE_ZLIB1_FLAGS (journal_flags file))) as [->|(H0 & Hshort & ->)].
  { destruct (negb compress); [left; by injection He|]. destruct (Z.leb_spec (zlen image) (zlen (zlib_compress image) + 4)) as [|Hs];
      [left; by injection He|right]. pose proof (zlen_nonneg (zlib_compress image)).
    rewrite struct_pack_image in He by (unfold MAX_PAGE_SIZE in *; solve_fits). injection He as <-. split; [lia|]. split; [done|].
    f_equal. rewrite Himg, zlen_app. replace (zlen pre + zlen image - zlen image) with (zlen pre) by lia.
    by rewrite slice_app_l, slice_full by lia. }
  - cbn [encoded_payload encoded_format_version encoded_flags]. rewrite plain_uncompressed, Himg. split_and!.
    + eapply decode_plain; [apply Hpre|apply drop_prefix].
    + apply Hloc.
    + apply journal_flags_admitted.
    + exists legacy. by rewrite <-Himg.
  - rewrite packed_compressed. cbn [encoded_payload encoded_format_version encoded_flags]. split_and!.
    + eapply decode_packed; [apply Hpre|]. by apply inflate_compressed.
    + apply Hloc.
    + intros _. apply packed_flags_admitted.
    + exists legacy. split; [done|]. rewrite Himg, !zlen_app, zlen_struct_image by (unfold MAX_PAGE_SIZE in *; solve_fits).
      change (Z.of_nat (struct_size UNCOMPRESSED_LENGTH)) with 4. lia.
Qed.

(** Whatever bytes are read: a page of a journal is written exactly under the flags of that journal, the
    target is the one the prefix names, and an image that was compressed is no larger than a page. *)
Theorem page_write_authority {ZL : Zlib} (payload : bytes) (version f : Z) (w : PageWrite)
    (Hdecode : decode_page_write payload version f = Ok w) :
  (write_file w ∈ COMMIT_CATALOG_PAGE_FILES ↔ version = WAL_FORMAT_VERSION ∧ Z.land f WAL_V2_FLAG_COMMIT_CATALOG_V1 ≠ 0) ∧
  (write_file w = SYSTEM_HISTORY_FILE ↔ version = WAL_FORMAT_VERSION ∧ Z.land f WAL_V2_FLAG_SYSTEM_HISTORY_V1 ≠ 0) ∧
  decode_page_write_location payload = Ok (write_file w, write_index w) ∧ 0 <= write_index w <= MAX_PAGE_INDEX_FIELD ∧
  (version = WAL_FORMAT_VERSION → Z.land f WAL_V2_FLAG_PAGE_IMAGE_ZLIB1 ≠ 0 → 0 < zlen (write_image w) <= MAX_PAGE_SIZE).
Proof.
  unfold decode_page_write in Hdecode. apply bind_Ok in Hdecode as ([[file i] n] & Hp & H). unfold decode_page_write_location. rewrite Hp.
  destruct (decode_prefix_Ok _ _ _ _ Hp) as (_ & _ & _ & _ & _ & Hi). change (mbind _ (Ok _)) with (@Ok (pystr * Z) (file, i)).
  destruct (Z.eqb_spec version WAL_LEGACY_FORMAT_VERSION) as [->|_].
  { do 2 (case_bool_decide; [done|]). injection H as <-. cbn [write_file write_index write_image].
    split_and!; solve [apply Hi | split; [done|by intros []] | done]. }
  destruct (Z.eqb_spec version WAL_FORMAT_VERSION) as [->|_]; [|done]. case_bool_decide as Hf; [|done]. cbn [negb] in H.
  destruct (page_write_flags f Hf) as [->|[->|[->|[->| ->]]]]; cbn in H; do 2 (case_bool_decide; cbn in H; try done).
  all: try (apply bind_Ok in H as (image & Him & H)); injection H as <-; cbn [write_file write_index write_image].
  all: split_and!; solve [apply Hi | split; [done|by intros []] | intros _ _; by eapply inflate_image_Ok | done].
Qed.

(** ** Witnesses *)

(** A run of one byte is its length; anything else is kept. *)
Definition run_compress (raw : bytes) : bytes :=
  match raw with
  | b :: _ => if bool_decide (raw = replicate (length raw) b) && (zlen raw <? 2 ^ 32) then Byte.x00 :: b :: le_pack 4 (zlen raw)
              else Byte.x01 :: raw
  | [] => [Byte.x01]
  end.
Definition run_decompress (data : bytes) (limit : Z) : option Inflated :=
  match data with
  | Byte.x00 :: b :: n =>
      let raw := replicate (Z.to_nat (le_unpack n)) b in
      Some (MkInflated (take (Z.to_nat limit) raw) (zlen raw <? limit) [] [])
  | Byte.x01 :: raw => Some (MkInflated (take (Z.to_nat limit) raw) (zlen raw <? limit) [] (drop (Z.to_nat limit) raw))
  | _ => None
  end.
Definition run_zlib : Zlib := {| zlib_compress := run_compress; zlib_decompress := run_decompress |}.

Lemma run_zlib_laws : ZlibLaws run_zlib.
Proof.
  constructor. intros raw limit Hl. cbn. assert ((zlen raw <? limit) = true) as Hb by lia.
  assert (take (Z.to_nat limit) raw = raw) as Ht by (apply take_ge; unfold zlen in Hl; lia).
  assert (drop (Z.to_nat limit) raw = []) as Hd by (apply drop_ge; unfold zlen in Hl; lia).
  unfold run_compress. destruct raw as [|b raw']; [cbn [run_decompress]; by rewrite Ht, Hd, Hb|]. set (raw := b :: raw') in *.
  case_bool_decide as He; cbn [andb]; [|cbn [run_decompress]; by rewrite Ht, Hd, Hb].
  destruct (Z.ltb_spec (zlen raw) (2 ^ 32)); [|cbn [run_decompress]; by rewrite Ht, Hd, Hb].
  cbn [run_decompress]. pose proof (zlen_nonneg raw). rewrite le_unpack_pack by lia.
  assert (Z.to_nat (zlen raw) = length raw) as -> by (unfold zlen; lia). by rewrite <-He, Ht, Hb.
Qed.

(** A page of zeros, compressed, and the start of a journal. *)
Definition zero_page : bytes := replicate 512 Byte.x00.
Definition zero_write : EncodedPageWrite :=
  MkEncoded (page_write_prefix (byte_of_Z <$> str "heap.dat") 3 ++ le_pack 4 512 ++ Byte.x00 :: Byte.x00 :: le_pack 4 512) 2 0x0005.

Lemma page_write_roundtrip_witness :
  decode_page_write (ZL := run_zlib) (encoded_payload zero_write) 2 0x0005 = Ok (MkPageWrite (str "heap.dat") 3 zero_page) ∧
  decode_page_write_location (encoded_payload zero_write) = Ok (str "heap.dat", 3) ∧
  (encoded_format_version zero_write = WAL_FORMAT_VERSION →
    v2_record_semantics_error (record_type_value WRITE_PAGE) (encoded_flags zero_write) = None) ∧
  ∃ legacy, encode_page_write (str "heap.dat") 3 zero_page = Ok legacy ∧
    if compressed zero_write then zlen (encoded_payload zero_write) < zlen legacy else encoded_payload zero_write = legacy.
Proof.
  exact (page_write_roundtrip (ZL := run_zlib) (ZLL := run_zlib_laws) (str "heap.dat") 3 zero_page true zero_write
    ltac:(vm_compute; reflexivity) ltac:(vm_compute; discriminate)).
Defined.

Lemma page_write_authority_witness :
  let payload := page_write_prefix (byte_of_Z <$> COMMIT_STREAM_FILE) 1 ++ zero_page in
  let w := MkPageWrite COMMIT_STREAM_FILE 1 zero_page in
  (write_file w ∈ COMMIT_CATALOG_PAGE_FILES ↔ 2 = WAL_FORMAT_VERSION ∧ Z.land 0x0011 WAL_V2_FLAG_COMMIT_CATALOG_V1 ≠ 0) ∧
  decode_page_write (ZL := run_zlib) payload 1 0x0011 = raise GrafxSchemaVersionMismatch "commit_catalog_grammar".
Proof.
  split; [|vm_compute; reflexivity].
  assert (@decode_page_write run_zlib (page_write_prefix (byte_of_Z <$> COMMIT_STREAM_FILE) 1 ++ zero_page) 2 0x0011 =
    Ok (MkPageWrite COMMIT_STREAM_FILE 1 zero_page)) as H by reflexivity.
  exact (proj1 (page_write_authority _ _ _ _ H)).
Defined.
