(* ===== verification/OrderedTree.v ===== *)
(** The ordered tree, read side: src/src/okto_grafx/domain/index/ordered_tree.py, the page codecs,
    [verify_ordered_tree], [walk_ordered_desc] and [seek_ordered_exact].

    A tree is a mapping from page numbers to slotted pages; the mapping is a [gmap].  Recursion over
    the tree is recursion on its height.  [tree pages d pg es] says what the subtree under one page
    means: the list of its entries in order; verification, walking and seeking are stated by it. *)

From S2P Require Import Prelude Ids Layout Slotted IndexEntry OrderedKeys.

Definition INTERNAL : list field := [U 2; U 4; U 8].
Definition ORDERED_INTERNAL_ENTRY_SIZE : Z := Z.of_nat (struct_size INTERNAL).
Definition FIRST_ORDERED_TREE_PAGE : Z := 3.

Definition ident_ltb (a b : ident) : bool := match ident_cmp a b with Lt => true | _ => false end.
Definition bytes_ltb (a b : bytes) : bool := match bytes_cmp a b with Lt => true | _ => false end.

(** [l[i]] and [l[-1]] of a sequence that may be too short. *)
Definition py_get {A} (l : list A) (i : nat) : result A :=
  match l !! i with Some x => Ok x | None => raise IndexError "" end.
Definition py_last {A} (l : list A) : result A :=
  match last l with Some x => Ok x | None => raise IndexError "" end.

(** [bisect_left] of the standard library: the interval [lo, hi) halves until it is empty, which
    takes at most as many steps as it is long. *)
Fixpoint bisect_loop {A} (ltb : A → A → bool) (l : list A) (x : A) (fuel lo hi : nat) : nat :=
  match fuel with
  | O => lo
  | S fuel =>
      if (lo <? hi)%nat then
        let mid := ((lo + hi) / 2)%nat in
        match l !! mid with
        | Some y => if ltb y x then bisect_loop ltb l x fuel (mid + 1) hi
                    else bisect_loop ltb l x fuel lo mid
        | None => lo
        end
      else lo
  end.

Definition bisect_left {A} (ltb : A → A → bool) (l : list A) (x : A) : nat :=
  bisect_loop ltb l x (length l) 0 (length l).

Definition key_bytes (key : bytes) (stored : bool) : result bytes :=
  let error_type := if stored then GrafxCorruptionDetected else GrafxIndexError in
  if (zlen key =? 0) || (MAX_INDEX_KEY_BYTES <? zlen key) then raise error_type "key" else Ok key.

(** ** Child pointers *)

Module ChildPointer.

Record t := Mk { high_key : bytes; high_ref : RecordRef.t; child_page : Z }.

#[export] Instance eq_dec : EqDecision t.
Proof. solve_decision. Defined.

Definition post_init (p : t) : result t :=
  _ ← key_bytes (high_key p) false;
  _ ← RecordRef.encode (high_ref p);
  if negb ((FIRST_ORDERED_TREE_PAGE <=? child_page p) && (child_page p <? NO_PAGE))
  then raise GrafxIndexError "child_page" else Ok p.

Definition make (high_key : bytes) (high_ref : RecordRef.t) (child_page : Z) : result t :=
  post_init (Mk high_key high_ref child_page).

Definition high_identity (p : t) : result ident := ordered_entry_identity (high_key p) (high_ref p).

Definition encode (p : t) : result bytes :=
  encoded_ref ← RecordRef.encode (high_ref p);
  head ← struct_pack INTERNAL (zlen (high_key p), (child_page p, (encoded_ref, ())));
  Ok (head ++ high_key p).

Definition decode (image : bytes) : result t :=
  if zlen image <? ORDERED_INTERNAL_ENTRY_SIZE
  then raise GrafxCorruptionDetected "ordered_internal_entry"
  else
    '(key_length, (child_page, (encoded_ref, _))) ← struct_unpack_from INTERNAL image 0;
    if negb (zlen image =? ORDERED_INTERNAL_ENTRY_SIZE + key_length)
    then raise GrafxCorruptionDetected "key_length"
    else
      key ← key_bytes (drop (Z.to_nat ORDERED_INTERNAL_ENTRY_SIZE) image) true;
      match (ref ← RecordRef.decode encoded_ref; make key ref child_page) with
      | Ok p => Ok p
      | Err failure =>
          if bool_decide (err_class failure = GrafxCorruptionDetected)
             || bool_decide (err_class failure = GrafxIndexError)
          then raise GrafxCorruptionDetected
                 (if String.eqb (err_field failure) "" then "ordered_internal_entry" else err_field failure)
          else Err failure
      end.

End ChildPointer.

(** ** Pages *)

Definition validate_page_shape (page : Page.t) (expected : PageType) : result unit :=
  if negb (Page.page_type page =? page_type_value expected) then raise GrafxCorruptionDetected "page_type"
  else if negb (Page.flags page =? 0) || negb (Page.next_page page =? NO_PAGE)
          || negb (PageHeader.reserved (Page.header page) =? 0)
  then raise GrafxCorruptionDetected "page_header"
  else if negb (Z.land (Page.seq page) 1 =? 0) then raise GrafxCorruptionDetected "seq"
  else if Page.slot_count page =? 0 then raise GrafxCorruptionDetected "slot_count"
  else Ok ().

(** [identity <= previous], the refusal of both decoders. *)
Definition regresses (previous : option ident) (identity : ident) : bool :=
  match previous with None => false | Some p => negb (ident_ltb p identity) end.

Fixpoint leaf_entries (page_index : Z) (previous : option ident) (slots : list (Z * bytes))
    : result (list IndexEntry.t) :=
  match slots with
  | [] => Ok []
  | (slot, raw) :: slots =>
      entry ← IndexEntry.decode raw;
      entry ← IndexEntry.located_at entry page_index slot;
      if IndexEntry.versioned entry then raise GrafxCorruptionDetected "versioned"
      else
        _ ← key_bytes (IndexEntry.key entry) true;
        identity ← ordered_entry_identity (IndexEntry.key entry) (IndexEntry.ref entry);
        if regresses previous identity then raise GrafxCorruptionDetected "entry_order"
        else
          entries ← leaf_entries page_index (Some identity) slots;
          Ok (entry :: entries)
  end.

Definition decode_ordered_leaf (page : Page.t) : result (list IndexEntry.t) :=
  _ ← validate_page_shape page INDEX_ORDERED_LEAF;
  leaf_entries (Page.page_index page) None (Page.iter_slots page).

Fixpoint internal_pointers (page_index : Z) (previous : option ident) (children : gset Z)
    (slots : list (Z * bytes)) : result (list ChildPointer.t) :=
  match slots with
  | [] => Ok []
  | (slot, raw) :: slots =>
      pointer ← ChildPointer.decode raw;
      if page_index <=? ChildPointer.child_page pointer then raise GrafxCorruptionDetected "child_page"
      else
        identity ← ChildPointer.high_identity pointer;
        if regresses previous identity then raise GrafxCorruptionDetected "entry_order"
        else if bool_decide (ChildPointer.child_page pointer ∈ children)
        then raise GrafxCorruptionDetected "child_page"
        else
          pointers ← internal_pointers page_index (Some identity)
                       ({[ChildPointer.child_page pointer]} ∪ children) slots;
          Ok (pointer :: pointers)
  end.

Definition decode_ordered_internal (page : Page.t) : result (list ChildPointer.t) :=
  _ ← validate_page_shape page INDEX_ORDERED_INTERNAL;
  internal_pointers (Page.page_index page) None ∅ (Page.iter_slots page).

Definition identity_of_entry (e : IndexEntry.t) : result ident :=
  ordered_entry_identity (IndexEntry.key e) (IndexEntry.ref e).

(** ** Verification *)

Record Subtree := MkSubtree { st_page : Z; minimum : ident; maximum : ident; st_count : Z }.

Record VerifyState := MkVerify {
  visiting : gset Z;
  visited : gset Z;
  leaf_pages : Z;
  internal_pages : Z
}.

Record OrderedTreeVerification := MkVerification {
  v_entry_count : Z;
  v_page_count : Z;
  v_leaf_pages : Z;
  v_internal_pages : Z;
  v_minimum : option ident;
  v_maximum : option ident
}.

(** The loop over the children of one page; [visit_child] visits one of them. *)
Fixpoint visit_children (visit_child : Z → VerifyState → result (Subtree * VerifyState))
    (previous_maximum : option ident) (pointers : list ChildPointer.t) (st : VerifyState)
    : result (list Subtree * VerifyState) :=
  match pointers with
  | [] => Ok ([], st)
  | pointer :: pointers =>
      '(child, st) ← visit_child (ChildPointer.child_page pointer) st;
      high ← ChildPointer.high_identity pointer;
      if negb (bool_decide (maximum child = high)) then raise GrafxCorruptionDetected "high_identity"
      else if regresses previous_maximum (minimum child) then raise GrafxCorruptionDetected "child_range"
      else
        '(children, st) ← visit_children visit_child (Some (maximum child)) pointers st;
        Ok (child :: children, st)
  end.

Definition sum_counts (l : list Subtree) : Z := foldr (λ s acc, st_count s + acc) 0 l.

Fixpoint visit (pages : gmap Z Page.t) (d : nat) (page_index : Z) (st : VerifyState)
    : result (Subtree * VerifyState) :=
  if bool_decide (page_index ∈ visiting st) || bool_decide (page_index ∈ visited st)
  then raise GrafxCorruptionDetected "child_page"
  else
    match pages !! page_index with
    | None => raise GrafxCorruptionDetected "child_page"
    | Some page =>
        if negb (Page.page_index page =? page_index) then raise GrafxCorruptionDetected "page_index"
        else
          let st := MkVerify ({[page_index]} ∪ visiting st) (visited st) (leaf_pages st) (internal_pages st) in
          '(sub, st) ←
            match d with
            | O =>
                entries ← decode_ordered_leaf page;
                identities ← traverse identity_of_entry entries;
                first ← py_get identities 0;
                final ← py_last identities;
                Ok (MkSubtree page_index first final (zlen identities),
                    MkVerify (visiting st) (visited st) (leaf_pages st + 1) (internal_pages st))
            | S d =>
                pointers ← decode_ordered_internal page;
                '(children, st) ← visit_children (visit pages d) None pointers st;
                first ← py_get children 0;
                final ← py_last children;
                Ok (MkSubtree page_index (minimum first) (maximum final) (sum_counts children),
                    MkVerify (visiting st) (visited st) (leaf_pages st) (internal_pages st + 1))
            end;
          Ok (sub, MkVerify (visiting st ∖ {[page_index]}) ({[page_index]} ∪ visited st)
                     (leaf_pages st) (internal_pages st))
    end.

(** The depth [height] of the source is [d + 1] here: 1 is a leaf. *)
Definition verify_ordered_tree (root_page height : Z) (pages : gmap Z Page.t)
    (expected_entry_count : option Z) : result OrderedTreeVerification :=
  if root_page =? NO_PAGE then
    if negb (height =? 0) || negb (bool_decide (expected_entry_count = None ∨ expected_entry_count = Some 0))
    then raise GrafxCorruptionDetected "root_page"
    else Ok (MkVerification 0 0 0 0 None None)
  else if (height <=? 0) || (root_page <? FIRST_ORDERED_TREE_PAGE)
  then raise GrafxCorruptionDetected "height"
  else
    '(root, st) ← visit pages (Z.to_nat (height - 1)) root_page (MkVerify ∅ ∅ 0 0);
    if negb (bool_decide (expected_entry_count = None ∨ expected_entry_count = Some (st_count root)))
    then raise GrafxCorruptionDetected "entry_count"
    else Ok (MkVerification (st_count root) (Z.of_nat (size (visited st))) (leaf_pages st) (internal_pages st)
               (Some (minimum root)) (Some (maximum root))).

(** ** The descending walk

    A generator is the list of what it yielded and how it ended.  [out] is everything yielded so
    far; its length is the counter [emitted]. *)

Abbreviation generated := (list IndexEntry.t * result unit)%type.

Definition limit_reached (limit : option Z) (out : list IndexEntry.t) : bool :=
  match limit with None => false | Some n => n <=? zlen out end.

Fixpoint yield_entries (limit : option Z) (out entries : list IndexEntry.t) : list IndexEntry.t :=
  match entries with
  | [] => out
  | e :: entries => if limit_reached limit out then out else yield_entries limit (out ++ [e]) entries
  end.

Fixpoint walk_children (walk_child : Z → option bytes → list IndexEntry.t → generated)
    (limit : option Z) (ceiling : option bytes) (pointers : list ChildPointer.t) (out : list IndexEntry.t)
    : generated :=
  match pointers with
  | [] => (out, Ok ())
  | pointer :: pointers =>
      if limit_reached limit out then (out, Ok ())
      else
        let '(out, r) := walk_child (ChildPointer.child_page pointer) ceiling out in
        match r with
        | Ok _ => walk_children walk_child limit None pointers out
        | Err e => (out, Err e)
        end
  end.

Definition with_ok {A} (m : result A) (out : list IndexEntry.t) (f : A → generated) : generated :=
  match m with Ok a => f a | Err e => (out, Err e) end.

(** [ceiling] bounds the logical key from above; [(ceiling, -1)] is below every entry with it. *)
Fixpoint descend (pages : gmap Z Page.t) (limit : option Z) (d : nat) (visiting : gset Z) (page_index : Z)
    (ceiling : option bytes) (out : list IndexEntry.t) : generated :=
  if bool_decide (page_index ∈ visiting) then (out, raise GrafxCorruptionDetected "child_page")
  else
    match pages !! page_index with
    | None => (out, raise GrafxCorruptionDetected "page_index")
    | Some page =>
        if negb (Page.page_index page =? page_index) then (out, raise GrafxCorruptionDetected "page_index")
        else
          match d with
          | O =>
              with_ok (decode_ordered_leaf page) out (λ entries,
              with_ok (traverse identity_of_entry entries) out (λ identities,
              let stop := match ceiling with
                          | None => length entries
                          | Some c => bisect_left ident_ltb identities (c, -1)
                          end in
              (yield_entries limit out (reverse (take stop entries)), Ok ())))
          | S d =>
              with_ok (decode_ordered_internal page) out (λ pointers,
              with_ok (traverse ChildPointer.high_identity pointers) out (λ highs,
              let start := match ceiling with
                           | None => zlen pointers - 1
                           | Some c => Z.min (Z.of_nat (bisect_left ident_ltb highs (c, -1))) (zlen pointers - 1)
                           end in
              walk_children (descend pages limit d ({[page_index]} ∪ visiting)) limit ceiling
                (reverse (take (Z.to_nat (start + 1)) pointers)) out))
          end
    end.

Definition walk_ordered_desc (root_page height : Z) (pages : gmap Z Page.t) (upper_key : option bytes)
    (limit : option Z) : generated :=
  if match limit with Some n => n <? 0 | None => false end then ([], raise GrafxIndexError "limit")
  else
    with_ok (match upper_key with None => Ok None | Some k => k ← key_bytes k false; Ok (Some k) end) []
      (λ bound,
       if root_page =? NO_PAGE then
         if negb (height =? 0) then ([], raise GrafxCorruptionDetected "height") else ([], Ok ())
       else if height <=? 0 then ([], raise GrafxCorruptionDetected "height")
       else if bool_decide (limit = Some 0) then ([], Ok ())
       else descend pages limit (Z.to_nat (height - 1)) ∅ root_page bound []).

(** ** The exact seek *)

Fixpoint same_key_run (wanted : bytes) (entries : list IndexEntry.t) : list IndexEntry.t :=
  match entries with
  | [] => []
  | e :: entries => if bool_decide (IndexEntry.key e = wanted) then e :: same_key_run wanted entries else []
  end.

Fixpoint seek_children (seek_child : Z → result (list IndexEntry.t)) (wanted : bytes)
    (pointers : list ChildPointer.t) : result (list IndexEntry.t) :=
  match pointers with
  | [] => Ok []
  | pointer :: pointers =>
      found ← seek_child (ChildPointer.child_page pointer);
      if bytes_ltb wanted (ChildPointer.high_key pointer) then Ok found
      else rest ← seek_children seek_child wanted pointers; Ok (found ++ rest)
  end.

Fixpoint seek (pages : gmap Z Page.t) (wanted : bytes) (d : nat) (visiting : gset Z) (page_index : Z)
    : result (list IndexEntry.t) :=
  if bool_decide (page_index ∈ visiting) then raise GrafxCorruptionDetected "child_page"
  else
    match pages !! page_index with
    | None => raise GrafxCorruptionDetected "page_index"
    | Some page =>
        if negb (Page.page_index page =? page_index) then raise GrafxCorruptionDetected "page_index"
        else
          match d with
          | O =>
              entries ← decode_ordered_leaf page;
              let keys := IndexEntry.key <$> entries in
              Ok (same_key_run wanted (drop (bisect_left bytes_ltb keys wanted) entries))
          | S d =>
              pointers ← decode_ordered_internal page;
              highs ← traverse ChildPointer.high_identity pointers;
              seek_children (seek pages wanted d ({[page_index]} ∪ visiting)) wanted
                (drop (bisect_left ident_ltb highs (wanted, -1)) pointers)
          end
    end.

Definition seek_ordered_exact (root_page height : Z) (pages : gmap Z Page.t) (key : bytes)
    : result (list IndexEntry.t) :=
  wanted ← key_bytes key false;
  if root_page =? NO_PAGE then
    if negb (height =? 0) then raise GrafxCorruptionDetected "height" else Ok []
  else if height <=? 0 then raise GrafxCorruptionDetected "height"
  else seek pages wanted (Z.to_nat (height - 1)) ∅ root_page.

(** ** The meaning of a tree *)

Definition ident_lt (a b : ident) : Prop := ident_cmp a b = Lt.

Definition ident_of (key : bytes) (ref : RecordRef.t) : ident :=
  (key, RecordRef.page ref * 2 ^ 16 + RecordRef.slot ref).
Definition eident (e : IndexEntry.t) : ident := ident_of (IndexEntry.key e) (IndexEntry.ref e).
Definition pident (p : ChildPointer.t) : ident := ident_of (ChildPointer.high_key p) (ChildPointer.high_ref p).

Definition ordered_idents (es : list IndexEntry.t) : Prop := StronglySorted ident_lt (eident <$> es).

(** An entry an exact tree may hold. *)
Definition exact_entry (e : IndexEntry.t) : Prop :=
  IndexEntry.wf e ∧ IndexEntry.versioned e = false ∧ 0 < zlen (IndexEntry.key e).

Record pointer_wf (p : ChildPointer.t) : Prop := {
  pwf_key : 0 < zlen (ChildPointer.high_key p) <= MAX_INDEX_KEY_BYTES;
  pwf_ref : RecordRef.valid (ChildPointer.high_ref p);
  pwf_child : FIRST_ORDERED_TREE_PAGE <= ChildPointer.child_page p < NO_PAGE
}.

(** The subtree of depth [d] under page [pg] holds the entries [es], in order: a leaf decodes to
    them, an internal page to pointers whose subtrees hold the pieces and end at the pointers'
    identities. *)
Fixpoint tree (pages : gmap Z Page.t) (d : nat) (pg : Z) (es : list IndexEntry.t) : Prop :=
  ∃ page, pages !! pg = Some page ∧ Page.page_index page = pg ∧
  match d with
  | O => decode_ordered_leaf page = Ok es ∧ es ≠ []
  | S d => ∃ pointers pieces,
      decode_ordered_internal page = Ok pointers ∧ pointers ≠ [] ∧ es = concat pieces ∧
      Forall2 (λ p piece, tree pages d (ChildPointer.child_page p) piece ∧
                          last (eident <$> piece) = Some (pident p)) pointers pieces
  end.

(** A root, its height and its entries: what verification establishes and reading relies on. *)
Definition ordered_tree (pages : gmap Z Page.t) (root height : Z) (es : list IndexEntry.t) : Prop :=
  if decide (root = NO_PAGE) then height = 0 ∧ es = []
  else 0 < height ∧ FIRST_ORDERED_TREE_PAGE <= root ∧ tree pages (Z.to_nat (height - 1)) root es
       ∧ ordered_idents es.

(** ** Lemmas on order and search *)

#[export] Instance ident_lt_trans : Transitive ident_lt.
Proof. intros a b c. apply cmp_trans. Qed.

Lemma ident_lt_irrefl a : ¬ ident_lt a a.
Proof. unfold ident_lt. by rewrite cmp_refl by apply _. Qed.

Lemma ident_ltb_lt a b : ident_ltb a b = true ↔ ident_lt a b.
Proof. unfold ident_ltb, ident_lt. by destruct (ident_cmp a b). Qed.

Lemma bytes_ltb_lt a b : bytes_ltb a b = true ↔ bytes_cmp a b = Lt.
Proof. unfold bytes_ltb. by destruct (bytes_cmp a b). Qed.

Lemma ident_not_lt a b : ident_ltb a b = false ↔ a = b ∨ ident_lt b a.
Proof.
  unfold ident_ltb, ident_lt. rewrite (cmp_flip a b). destruct (ident_cmp a b) eqn:E; simpl.
  - apply cmp_Eq in E. split; [by left|done].
  - split; [done|]. intros [->|]; [|done]. by rewrite cmp_refl in E by apply _.
  - split; [by right|done].
Qed.

(** The bound [(k, -1)] separates by the key alone. *)
Lemma ident_bound k r c : 0 <= r → ident_cmp (k, r) (c, -1) = lex (bytes_cmp k c) Gt.
Proof. intros. unfold ident_cmp, pair_cmp. simpl. by rewrite (proj2 (Z.compare_gt_iff r (-1))) by lia. Qed.

Lemma ref_nonneg r : RecordRef.valid r → 0 <= RecordRef.page r * 2 ^ 16 + RecordRef.slot r.
Proof. intros [? ?]. lia. Qed.

(** Greater identities have keys that are not smaller. *)
Lemma ident_lt_key a b : ident_lt a b → bytes_cmp b.1 a.1 ≠ Lt.
Proof.
  unfold ident_lt, ident_cmp, pair_cmp. intros [H|[H _]]%lex_Lt; [|apply cmp_Eq in H as ->].
  - by rewrite cmp_flip, H.
  - by rewrite cmp_refl by apply _.
Qed.

Lemma bisect_loop_spec {A} (ltb : A → A → bool) (l : list A) x n fuel lo hi :
  (∀ i y, l !! i = Some y → ltb y x = true ↔ (i < n)%nat) →
  (lo <= n <= hi)%nat → (hi <= length l)%nat → (hi - lo <= fuel)%nat →
  bisect_loop ltb l x fuel lo hi = n.
Proof.
  intros Hl. revert lo hi. induction fuel as [|fuel IH]; intros lo hi Hn Hhi Hf; cbn [bisect_loop]; [lia|].
  destruct (Nat.ltb_spec lo hi); [|lia].
  assert (lo <= (lo + hi) / 2 < hi)%nat as Hmid.
  { split; [apply Nat.div_le_lower_bound; lia|apply Nat.Div0.div_lt_upper_bound; lia]. }
  destruct (lookup_lt_is_Some_2 l ((lo + hi) / 2)%nat) as [y Hy]; [lia|]. rewrite Hy.
  pose proof (Hl _ _ Hy) as Hly. destruct (ltb y x).
  - apply IH; [|done|lia]. split; [|lia]. destruct Hly as [Hly _]. specialize (Hly eq_refl). lia.
  - apply IH; [|lia..]. split; [lia|]. destruct (decide (((lo + hi) / 2 < n)%nat)); [|lia].
    by apply Hly in l0.
Qed.

Lemma bisect_left_split {A} (ltb : A → A → bool) (l : list A) x :
  (∀ i j y z, (i < j)%nat → l !! i = Some y → l !! j = Some z → ltb z x = true → ltb y x = true) →
  Forall (λ y, ltb y x = true) (take (bisect_left ltb l x) l) ∧
  Forall (λ y, ltb y x = false) (drop (bisect_left ltb l x) l) ∧ (bisect_left ltb l x <= length l)%nat.
Proof.
  intros Hmono.
  assert (∃ n, (n <= length l)%nat ∧ ∀ i y, l !! i = Some y → ltb y x = true ↔ (i < n)%nat) as (n & Hn & Hi).
  { induction l as [|a l IH]; [exists 0%nat; simpl; by split; [lia|]|].
    destruct IH as (n & Hn & Hi); [intros i j y z Hij Hy Hz; by apply (Hmono (S i) (S j)); [lia|..]|].
    destruct (ltb a x) eqn:Ha.
    - exists (S n). split; [simpl; lia|]. intros [|i] y; simpl; [intros [= <-]; split; [lia|done]|].
      intros Hy. rewrite (Hi i y Hy). lia.
    - exists 0%nat. split; [lia|]. intros [|i] y Hy; simpl in Hy; [injection Hy as <-; rewrite Ha; split; [done|lia]|].
      split; [|lia]. intros Hlt. exfalso. rewrite (Hmono 0%nat (S i) a y) in Ha; [done|lia|done..]. }
  assert (bisect_left ltb l x = n) as -> by (apply bisect_loop_spec; [done|lia..]).
  split_and!; [..|done].
  - apply Forall_lookup. intros i y [Hy Hlt]%lookup_take_Some. by apply (Hi i y).
  - apply Forall_lookup. intros i y Hy. rewrite lookup_drop in Hy. apply not_true_iff_false. intros Ht.
    apply (Hi _ _ Hy) in Ht. lia.
Qed.

Lemma StronglySorted_lookup_2 {A} (R : A → A → Prop) l i j x y :
  StronglySorted R l → (i < j)%nat → l !! i = Some x → l !! j = Some y → R x y.
Proof.
  intros H. revert i j. induction H as [|a l _ IH Ha]; intros i j Hij Hx Hy; [done|].
  destruct j as [|j]; [lia|]. destruct i as [|i]; simpl in *; [|by apply (IH i j); [lia|..]].
  injection Hx as <-. by apply (Forall_lookup_1 _ _ _ _ Ha Hy).
Qed.

Lemma StronglySorted_app_inv {A} (R : A → A → Prop) l k : StronglySorted R (l ++ k) →
  StronglySorted R l ∧ StronglySorted R k ∧ ∀ x y, x ∈ l → y ∈ k → R x y.
Proof.
  induction l as [|a l IH]; simpl; intros H; [split_and!; [constructor|done|by intros ? ? ?%elem_of_nil]|].
  apply StronglySorted_inv in H as [H Ha]. destruct (IH H) as (Hl & Hk & Hlk). apply Forall_app in Ha as [Hal Hak].
  split_and!; [by constructor|done|]. intros x y [->|Hx]%elem_of_cons Hy; [|by apply Hlk].
  by apply (proj1 (Forall_forall _ _) Hak).
Qed.

Lemma StronglySorted_app_2 {A} (R : A → A → Prop) l k : StronglySorted R l → StronglySorted R k →
  (∀ x y, x ∈ l → y ∈ k → R x y) → StronglySorted R (l ++ k).
Proof.
  induction 1 as [|a l Hl IH Ha]; simpl; intros Hk Hlk; [done|]. constructor.
  - apply IH; [done|]. intros x y Hx. apply Hlk. by right.
  - apply Forall_app. split; [done|]. apply Forall_forall. intros y Hy. apply Hlk; [by left|done].
Qed.

(** In a strictly increasing list every identity is below or at the last one. *)
Lemma sorted_below_last l x : StronglySorted ident_lt l → last l = Some x → Forall (λ y, y = x ∨ ident_lt y x) l.
Proof.
  intros Hs [l' ->]%last_Some. apply StronglySorted_app_inv in Hs as (_ & _ & H).
  apply Forall_app. split; [|by constructor; [left|constructor]].
  apply Forall_forall. intros y Hy. right. apply H; [done|by left].
Qed.

Lemma bisect_left_sorted l x : StronglySorted ident_lt l →
  Forall (λ y, ident_lt y x) (take (bisect_left ident_ltb l x) l) ∧
  Forall (λ y, ident_ltb y x = false) (drop (bisect_left ident_ltb l x) l) ∧
  (bisect_left ident_ltb l x <= length l)%nat.
Proof.
  intros Hs. destruct (bisect_left_split ident_ltb l x) as (H1 & H2 & H3).
  - intros i j y z Hij Hy Hz. rewrite !ident_ltb_lt. intros Hzx.
    etrans; [|exact Hzx]. by apply (StronglySorted_lookup_2 _ l i j).
  - split_and!; [|done..]. eapply Forall_impl; [exact H1|]. intros y. apply ident_ltb_lt.
Qed.

(** ** Lemmas on the page codecs *)

Lemma key_bytes_Ok k stored k' : key_bytes k stored = Ok k' ↔ k' = k ∧ 0 < zlen k <= MAX_INDEX_KEY_BYTES.
Proof.
  unfold key_bytes, raise. pose proof (zlen_nonneg k).
  destruct (Z.eqb_spec (zlen k) 0), (Z.ltb_spec MAX_INDEX_KEY_BYTES (zlen k)); simpl; split;
    try done; try lia; [intros [= <-]; by split; [|lia]|by intros [-> _]].
Qed.

Lemma ordered_entry_identity_valid k r : RecordRef.valid r → ordered_entry_identity k r = Ok (ident_of k r).
Proof. intros. unfold ordered_entry_identity. by rewrite record_ref_encode_ok. Qed.

Lemma ordered_entry_identity_Ok k r i : ordered_entry_identity k r = Ok i ↔ RecordRef.valid r ∧ i = ident_of k r.
Proof.
  split.
  - unfold ordered_entry_identity. intros H. inv_ok H. pose proof (record_ref_encode_inv _ _ E) as Hv.
    split; [done|]. rewrite record_ref_encode_ok in E by done. by simplify_eq.
  - intros [Hv ->]. by apply ordered_entry_identity_valid.
Qed.

Lemma pointer_post_init_Ok p p' : ChildPointer.post_init p = Ok p' ↔ p' = p ∧ pointer_wf p.
Proof.
  unfold ChildPointer.post_init. split.
  - intros H. inv_ok H. apply key_bytes_Ok in E as [-> Hk]. apply record_ref_encode_inv in E0.
    destruct ((FIRST_ORDERED_TREE_PAGE <=? ChildPointer.child_page p) && _) eqn:Hc; [|done].
    injection H as <-. split; [done|]. split; [done|done|lia].
  - intros (-> & [Hk Hr Hc]). rewrite (proj2 (key_bytes_Ok _ _ _)) by done.
    cbn [mbind result_bind]. rewrite record_ref_encode_ok by done. cbn [mbind result_bind].
    by replace ((_ <=? _) && _) with true by lia.
Qed.

Definition pointer_fields (p : ChildPointer.t) : fvals INTERNAL :=
  (zlen (ChildPointer.high_key p), (ChildPointer.child_page p,
    (RecordRef.page (ChildPointer.high_ref p) * 2 ^ 16 + RecordRef.slot (ChildPointer.high_ref p), ()))).
Definition pointer_image (p : ChildPointer.t) : bytes :=
  struct_image INTERNAL (pointer_fields p) ++ ChildPointer.high_key p.

Lemma pointer_fields_fit p : pointer_wf p → struct_fits INTERNAL (pointer_fields p).
Proof.
  intros [Hk [Hp Hs] Hc]. unfold pointer_fields, MAX_INDEX_KEY_BYTES, NO_PAGE, FIRST_ORDERED_TREE_PAGE,
    MAX_PAGE_INDEX, MAX_SLOT_ID in *. change (2 ^ 16) with 65536. solve_fits.
Qed.

Lemma pointer_encode p : pointer_wf p → ChildPointer.encode p = Ok (pointer_image p).
Proof.
  intros Hp. unfold ChildPointer.encode. rewrite record_ref_encode_ok by apply Hp. cbn [mbind result_bind].
  change (struct_pack _ _) with (struct_pack INTERNAL (pointer_fields p)).
  by rewrite struct_pack_image by by apply pointer_fields_fit.
Qed.

Lemma zlen_pointer_image p : pointer_wf p → zlen (pointer_image p) = 14 + zlen (ChildPointer.high_key p).
Proof. intros. unfold pointer_image. by rewrite zlen_app, zlen_struct_image by by apply pointer_fields_fit. Qed.

Lemma pointer_decode_image p : pointer_wf p → ChildPointer.decode (pointer_image p) = Ok p.
Proof.
  intros Hp. unfold ChildPointer.decode. rewrite zlen_pointer_image by done.
  change ORDERED_INTERNAL_ENTRY_SIZE with 14. pose proof (zlen_nonneg (ChildPointer.high_key p)).
  rewrite (proj2 (Z.ltb_ge _ _)) by lia.
  assert (struct_unpack_from INTERNAL (pointer_image p) 0 = Ok (pointer_fields p)) as ->.
  { apply struct_unpack_image_0. by apply pointer_fields_fit. }
  cbn [pointer_fields mbind result_bind].
  rewrite Z.eqb_refl. cbn [negb].
  assert (drop (Z.to_nat 14) (pointer_image p) = ChildPointer.high_key p) as ->.
  { unfold pointer_image. apply drop_app_length'.
    pose proof (zlen_struct_image _ _ (pointer_fields_fit p Hp)) as Hl. unfold zlen in Hl.
    change (Z.of_nat (struct_size INTERNAL)) with 14 in Hl. lia. }
  destruct Hp as [Hk [Hr Hs] Hc]. rewrite (proj2 (key_bytes_Ok _ _ _)) by done. cbn [mbind result_bind].
  rewrite record_ref_decode_ok by done. cbn [mbind result_bind]. unfold ChildPointer.make.
  assert (ChildPointer.Mk (ChildPointer.high_key p)
    (RecordRef.Mk (RecordRef.page (ChildPointer.high_ref p)) (RecordRef.slot (ChildPointer.high_ref p)))
    (ChildPointer.child_page p) = p) as -> by by destruct p as [? [] ?].
  assert (ChildPointer.post_init p = Ok p) as ->; [|done]. apply pointer_post_init_Ok. by split; [|split].
Qed.

Lemma pointer_decode_Ok raw p : ChildPointer.decode raw = Ok p → pointer_wf p.
Proof.
  unfold ChildPointer.decode. case_match; [done|]. intros H0.
  apply bind_Ok in H0 as ([kl [c [er []]]] & _ & H0). case_match; [done|].
  apply bind_Ok in H0 as (k & [-> Hk]%key_bytes_Ok & H0).
  destruct (RecordRef.decode er) as [r|e]; cbn [mbind result_bind] in H0.
  - destruct (ChildPointer.make _ r c) as [q|e] eqn:Hm.
    + injection H0 as <-. unfold ChildPointer.make in Hm. by apply pointer_post_init_Ok in Hm as [-> ?].
    + by destruct (_ || _).
  - by destruct (_ || _).
Qed.

Definition option_to_list {A} (o : option A) : list A := match o with Some x => [x] | None => [] end.

Lemma regresses_false prev i : regresses prev i = false ↔ ∀ p, prev = Some p → ident_lt p i.
Proof.
  destruct prev as [p|]; simpl; [|done]. rewrite negb_false_iff, ident_ltb_lt. naive_solver.
Qed.

Lemma Sorted_option_cons prev i l : (∀ p, prev = Some p → ident_lt p i) → Sorted ident_lt (i :: l) →
  Sorted ident_lt (option_to_list prev ++ i :: l).
Proof. intros Hp Hs. destruct prev as [p|]; simpl; [|done]. constructor; [done|]. constructor. by apply Hp. Qed.

Lemma leaf_entries_Ok pi prev slots es : leaf_entries pi prev slots = Ok es →
  Forall exact_entry es ∧ Sorted ident_lt (option_to_list prev ++ (eident <$> es)).
Proof.
  revert prev es. induction slots as [|[s raw] slots IH]; intros prev es H; simpl in H.
  { injection H as <-. split; [constructor|]. rewrite app_nil_r. destruct prev; repeat constructor. }
  inv_ok H. apply IndexEntryFacts.decode_inv in E as (Hwf & _ & _).
  rewrite IndexEntryFacts.located_at_wf in E0 by done. injection E0 as <-.
  destruct (IndexEntry.versioned _) eqn:Hv in H; [done|]. inv_ok H. apply key_bytes_Ok in E as [_ Hk].
  apply ordered_entry_identity_Ok in E0 as [Hr ->]. destruct (regresses prev _) eqn:Hreg; [done|].
  inv_ok H. injection H as <-. apply IH in E as [Hf Hs]. rewrite regresses_false in Hreg. split.
  - constructor; [|done]. split; [|split; [done|simpl in *; lia]].
    simpl in Hv. rewrite <-Hv. by apply IndexEntryFacts.wf_located.
  - by apply Sorted_option_cons.
Qed.

Lemma decode_leaf_Ok page es : decode_ordered_leaf page = Ok es →
  Forall exact_entry es ∧ ordered_idents es ∧ Page.page_type page = page_type_value INDEX_ORDERED_LEAF.
Proof.
  unfold decode_ordered_leaf, validate_page_shape. intros H. inv_ok H.
  destruct (Z.eqb_spec (Page.page_type page) (page_type_value INDEX_ORDERED_LEAF)); [|done].
  apply leaf_entries_Ok in H as [Hf Hs]. split_and!; [done| |done]. apply Sorted_StronglySorted; [apply _|done].
Qed.

Lemma internal_pointers_Ok pi prev ch slots ps : internal_pointers pi prev ch slots = Ok ps →
  Forall (λ p, pointer_wf p ∧ ChildPointer.child_page p < pi ∧ ChildPointer.child_page p ∉ ch) ps ∧
  NoDup (ChildPointer.child_page <$> ps) ∧ Sorted ident_lt (option_to_list prev ++ (pident <$> ps)).
Proof.
  revert prev ch ps. induction slots as [|[s raw] slots IH]; intros prev ch ps H; simpl in H.
  { injection H as <-. split; [constructor|]. split; [constructor|]. rewrite app_nil_r. destruct prev; repeat constructor. }
  inv_ok H. apply pointer_decode_Ok in E as Hwf. destruct (Z.leb_spec pi (ChildPointer.child_page x)); [done|].
  inv_ok H. apply ordered_entry_identity_Ok in E0 as [Hr ->]. destruct (regresses prev _) eqn:Hreg; [done|].
  destruct (bool_decide (ChildPointer.child_page x ∈ ch)) eqn:Hin; [done|]. apply bool_decide_eq_false in Hin.
  inv_ok H. injection H as <-. apply IH in E0 as (Hf & Hnd & Hs). rewrite regresses_false in Hreg. split_and!.
  - constructor; [done|]. eapply Forall_impl; [exact Hf|]. intros q (? & ? & ?). split_and!; [done..|set_solver].
  - rewrite fmap_cons. constructor; [|done]. rewrite list_elem_of_fmap. intros (q & Heq & Hq).
    rewrite Forall_forall in Hf. destruct (Hf q Hq) as (_ & _ & Hn). rewrite Heq in Hn. set_solver.
  - by apply Sorted_option_cons.
Qed.

Lemma decode_internal_Ok page ps : decode_ordered_internal page = Ok ps →
  Forall (λ p, pointer_wf p ∧ ChildPointer.child_page p < Page.page_index page) ps ∧
  StronglySorted ident_lt (pident <$> ps) ∧ Page.page_type page = page_type_value INDEX_ORDERED_INTERNAL.
Proof.
  unfold decode_ordered_internal, validate_page_shape. intros H. inv_ok H.
  destruct (Z.eqb_spec (Page.page_type page) (page_type_value INDEX_ORDERED_INTERNAL)); [|done].
  apply internal_pointers_Ok in H as (Hf & _ & Hs). split_and!; [| |done].
  - eapply Forall_impl; [exact Hf|]. by intros p (? & ? & _).
  - apply Sorted_StronglySorted; [apply _|done].
Qed.

Lemma traverse_idents es : Forall exact_entry es → traverse identity_of_entry es = Ok (eident <$> es).
Proof.
  intros H. apply traverse_Ok. induction H as [|e es [Hwf _] _ IH]; constructor; [|done].
  apply ordered_entry_identity_valid, Hwf.
Qed.

Lemma traverse_highs ps : Forall pointer_wf ps → traverse ChildPointer.high_identity ps = Ok (pident <$> ps).
Proof.
  intros H. apply traverse_Ok. induction H as [|p ps [_ Hr _] _ IH]; constructor; [|done].
  by apply ordered_entry_identity_valid.
Qed.

(** ** Lemmas on trees *)

Lemma cmp_not_Lt {A} (cmp : A → A → comparison) `{!TotalCompare cmp} a b : cmp a b ≠ Lt ↔ a = b ∨ cmp b a = Lt.
Proof.
  rewrite (cmp_flip (cmp:=cmp) a b). pose proof (cmp_Eq (cmp:=cmp) a b) as He. destruct (cmp a b); simpl; naive_solver.
Qed.

Lemma key_le_Lt a b c : bytes_cmp b a ≠ Lt → bytes_cmp b c = Lt → bytes_cmp a c = Lt.
Proof. intros [->|Hab]%cmp_not_Lt Hbc; [done| |apply _]. by eapply cmp_trans. Qed.

Lemma key_Lt_le a b c : bytes_cmp a b = Lt → bytes_cmp c b ≠ Lt → bytes_cmp a c = Lt.
Proof. intros Hab [->|Hbc]%cmp_not_Lt; [done| |apply _]. by eapply cmp_trans. Qed.

Lemma eident_key e : (eident e).1 = IndexEntry.key e.
Proof. done. Qed.

(** An identity at or above the bound of a key has a key that is not smaller. *)
Lemma bound_key e c : exact_entry e →
  ident_ltb (eident e) (c, -1) = match bytes_cmp (IndexEntry.key e) c with Lt => true | _ => false end.
Proof.
  intros [Hwf _]. unfold ident_ltb, eident, ident_of. rewrite ident_bound by apply ref_nonneg, Hwf.
  by destruct (bytes_cmp _ _).
Qed.

Lemma pointer_bound p c : pointer_wf p →
  ident_ltb (pident p) (c, -1) = match bytes_cmp (ChildPointer.high_key p) c with Lt => true | _ => false end.
Proof.
  intros [_ Hr _]. unfold ident_ltb, pident, ident_of. rewrite ident_bound by apply ref_nonneg, Hr.
  by destruct (bytes_cmp _ _).
Qed.

Lemma ordered_idents_app es es' : ordered_idents (es ++ es') →
  ordered_idents es ∧ ordered_idents es' ∧ ∀ e e', e ∈ es → e' ∈ es' → ident_lt (eident e) (eident e').
Proof.
  unfold ordered_idents. rewrite fmap_app. intros (Hl & Hr & Hlr)%StronglySorted_app_inv.
  split_and!; [done..|]. intros e e' He He'. apply Hlr; by apply list_elem_of_fmap_2.
Qed.

Lemma ordered_idents_app_2 es es' : ordered_idents es → ordered_idents es' →
  (∀ e e', e ∈ es → e' ∈ es' → ident_lt (eident e) (eident e')) → ordered_idents (es ++ es').
Proof.
  unfold ordered_idents. rewrite fmap_app. intros Hl Hr H. apply StronglySorted_app_2; [done..|].
  intros x y (e & -> & He)%list_elem_of_fmap (e' & -> & He')%list_elem_of_fmap. by apply H.
Qed.

Lemma ordered_idents_lt (es : list IndexEntry.t) i j e e' :
  ordered_idents es → (i < j)%nat → es !! i = Some e → es !! j = Some e' → ident_lt (eident e) (eident e').
Proof.
  intros Hs Hij He He'. apply (StronglySorted_lookup_2 ident_lt (eident <$> es) i j); try done.
  all: rewrite list_lookup_fmap; by (rewrite He || rewrite He').
Qed.

(** The relation of one pointer to the entries under it. *)
Definition covers (p : ChildPointer.t) (piece : list IndexEntry.t) : Prop :=
  last (eident <$> piece) = Some (pident p).

Lemma covers_upper p piece e : covers p piece → ordered_idents piece → e ∈ piece →
  eident e = pident p ∨ ident_lt (eident e) (pident p).
Proof.
  intros Hc Hs He. pose proof (sorted_below_last _ _ Hs Hc) as Hf. rewrite Forall_forall in Hf.
  apply Hf. by apply list_elem_of_fmap_2.
Qed.

Lemma covers_last p piece : covers p piece → ∃ e, e ∈ piece ∧ eident e = pident p.
Proof.
  intros [l Hl]%last_Some. assert (pident p ∈ eident <$> piece) as (e & He & Hin)%list_elem_of_fmap; [|eauto].
  rewrite Hl. apply elem_of_app. right. by left.
Qed.

(** Entries after a covered piece are above its pointer. *)
Lemma after_covered p piece rest e : covers p piece → ordered_idents (piece ++ rest) → e ∈ rest →
  ident_lt (pident p) (eident e).
Proof.
  intros (e' & He' & <-)%covers_last Hs He. apply ordered_idents_app in Hs as (_ & _ & H). by apply H.
Qed.

Lemma covers_ne p piece : covers p piece → piece ≠ [].
Proof. intros H ->. done. Qed.

(** What an internal page is, unfolded once. *)
Lemma tree_internal pages d pg es : tree pages (S d) pg es → ∃ page pointers pieces,
  pages !! pg = Some page ∧ Page.page_index page = pg ∧ decode_ordered_internal page = Ok pointers ∧
  pointers ≠ [] ∧ es = concat pieces ∧ Forall pointer_wf pointers ∧
  Forall (λ p, ChildPointer.child_page p < pg) pointers ∧ StronglySorted ident_lt (pident <$> pointers) ∧
  Forall2 (λ p piece, tree pages d (ChildPointer.child_page p) piece ∧ covers p piece) pointers pieces.
Proof.
  intros (page & Hp & Hi & pointers & pieces & Hd & Hne & -> & Hf2).
  pose proof (decode_internal_Ok _ _ Hd) as (Hf & Hs & _).
  exists page, pointers, pieces. split_and!; try done.
  - eapply Forall_impl; [exact Hf|]. by intros ? [? _].
  - rewrite <-Hi. eapply Forall_impl; [exact Hf|]. by intros ? [_ ?].
Qed.

Lemma tree_leaf pages pg es : tree pages 0 pg es → ∃ page, pages !! pg = Some page ∧ Page.page_index page = pg ∧
  decode_ordered_leaf page = Ok es ∧ es ≠ [] ∧ Forall exact_entry es ∧ ordered_idents es.
Proof.
  intros (page & Hp & Hi & Hd & Hne). pose proof (decode_leaf_Ok _ _ Hd) as (Hf & Hs & _). by exists page.
Qed.

Lemma concat_cons {A} (l : list A) ls : concat (l :: ls) = l ++ concat ls.
Proof. done. Qed.

Lemma tree_entries pages d pg es : tree pages d pg es → es ≠ [] ∧ Forall exact_entry es.
Proof.
  revert pg es. induction d as [|d IH]; intros pg es.
  - intros (page & _ & _ & _ & Hne & Hf & _)%tree_leaf. done.
  - intros (page & ps & pieces & _ & _ & _ & Hne & -> & _ & _ & _ & Hf2)%tree_internal. split.
    + destruct Hf2 as [|p piece ps pieces [_ Hc] _]; [done|]. apply covers_ne in Hc. by destruct piece.
    + clear Hne. induction Hf2 as [|p piece ps pieces [Ht _] _ IH2]; [constructor|]. rewrite concat_cons.
      apply Forall_app. split; [|done]. by apply (IH _ _ Ht).
Qed.

(** ** The seek *)

Lemma same_key_run_filter w es : ordered_idents es →
  Forall (λ e, bytes_cmp (IndexEntry.key e) w ≠ Lt) es →
  same_key_run w es = filter (λ e, IndexEntry.key e = w) es.
Proof.
  induction es as [|e es IH]; intros Hs Hf; [done|]. apply Forall_cons in Hf as [He Hf]. cbn [same_key_run].
  apply (ordered_idents_app [e]) in Hs as (_ & Hs & Hlt). case_bool_decide as Hk.
  - rewrite filter_cons_True by done. f_equal. by apply IH.
  - rewrite filter_cons_False by done. rewrite filter_none; [done|]. intros e' He' Hk'.
    apply cmp_not_Lt in He as [He|He]; [done| |apply _].
    assert (bytes_cmp (IndexEntry.key e') (IndexEntry.key e) ≠ Lt) as Hle.
    { apply (ident_lt_key (eident e) (eident e')). apply Hlt; [by left|done]. }
    by rewrite Hk', He in Hle.
Qed.

Lemma filter_below w es : Forall (λ e, bytes_cmp (IndexEntry.key e) w = Lt) es →
  filter (λ e, IndexEntry.key e = w) es = [].
Proof.
  intros Hf. apply filter_none. intros e He Hk. rewrite Forall_forall in Hf. specialize (Hf e He).
  by rewrite Hk, cmp_refl in Hf by apply _.
Qed.

Lemma seek_children_ok seek_child w pointers pieces :
  Forall2 (λ p piece, seek_child (ChildPointer.child_page p) = Ok (filter (λ e, IndexEntry.key e = w) piece) ∧
                      covers p piece) pointers pieces →
  ordered_idents (concat pieces) →
  seek_children seek_child w pointers = Ok (filter (λ e, IndexEntry.key e = w) (concat pieces)).
Proof.
  induction 1 as [|p piece ps pieces [Hc Hcov] _ IH]; intros Hs; [done|]. cbn [seek_children].
  rewrite concat_cons in *. rewrite Hc, filter_app. cbn [mbind result_bind].
  destruct (bytes_ltb w (ChildPointer.high_key p)) eqn:Hlt.
  - rewrite (filter_none _ (concat pieces)); [by rewrite app_nil_r|]. intros e He Hk.
    pose proof (after_covered _ _ _ _ Hcov Hs He) as Hafter. apply ident_lt_key in Hafter.
    apply bytes_ltb_lt in Hlt. by rewrite eident_key, Hk in Hafter.
  - rewrite IH; [done|]. by apply ordered_idents_app in Hs as (_ & ? & _).
Qed.

Lemma seek_tree pages w d vis pg es : tree pages d pg es → ordered_idents es → (∀ x, x ∈ vis → pg < x) →
  seek pages w d vis pg = Ok (filter (λ e, IndexEntry.key e = w) es).
Proof.
  revert vis pg es. induction d as [|d IH]; intros vis pg es Ht Hs Hvis.
  - apply tree_leaf in Ht as (page & Hp & Hi & Hd & _ & Hf & _). cbn [seek].
    rewrite bool_decide_false by (intros ?%Hvis; lia). rewrite Hp, Hi, Z.eqb_refl. cbn [negb].
    rewrite Hd. cbn [mbind result_bind]. f_equal.
    destruct (bisect_left_split bytes_ltb (IndexEntry.key <$> es) w) as (Htake & Hdrop & _).
    { intros i j y z Hij Hy Hz. rewrite !bytes_ltb_lt. rewrite list_lookup_fmap in Hy, Hz.
      destruct (es !! i) as [e|] eqn:Ei; [|done]. destruct (es !! j) as [e'|] eqn:Ej; [|done].
      injection Hy as <-. injection Hz as <-. apply key_le_Lt.
      by apply (ident_lt_key _ _ (ordered_idents_lt es i j e e' Hs Hij Ei Ej)). }
    set (n := bisect_left _ _ _) in *. clearbody n. rewrite <-fmap_take, Forall_fmap in Htake. rewrite <-fmap_drop, Forall_fmap in Hdrop.
    rewrite <-(take_drop n es) at 2. rewrite filter_app, filter_below.
    + apply same_key_run_filter; [rewrite <-(take_drop n es) in Hs; by apply ordered_idents_app in Hs as (_ & ? & _)|].
      eapply Forall_impl; [exact Hdrop|]. intros e He Hlt. simpl in He. apply bytes_ltb_lt in Hlt. congruence.
    + eapply Forall_impl; [exact Htake|]. intros e He. by apply bytes_ltb_lt.
  - apply tree_internal in Ht as (page & ps & pieces & Hp & Hi & Hd & Hne & -> & Hwf & Hlow & Hps & Hf2). cbn [seek].
    rewrite bool_decide_false by (intros ?%Hvis; lia). rewrite Hp, Hi, Z.eqb_refl. cbn [negb].
    rewrite Hd. cbn [mbind result_bind]. rewrite traverse_highs by done. cbn [mbind result_bind].
    destruct (bisect_left_sorted (pident <$> ps) (w, -1) Hps) as (Htake & _ & _).
    set (n := bisect_left _ _ _) in *. clearbody n. rewrite <-fmap_take, Forall_fmap in Htake.
    rewrite <-(take_drop n pieces). rewrite concat_app. rewrite <-(take_drop n pieces), concat_app in Hs.
    apply ordered_idents_app in Hs as (Hs1 & Hs2 & _). rewrite filter_app, filter_below.
    + apply seek_children_ok; [|done]. apply (Forall2_drop _ _ _ n) in Hf2. apply (Forall_drop _ n) in Hlow.
      clear -IH Hf2 Hs2 Hvis Hlow. revert Hs2 Hlow.
      induction Hf2 as [|p piece qs pcs [Ht Hc] _ IH2]; intros Hs Hlow; [constructor|].
      rewrite concat_cons in Hs. apply ordered_idents_app in Hs as (Hs1 & Hs2 & _).
      apply Forall_cons in Hlow as [Hl Hlow]. constructor; [|by apply IH2]. split; [|done].
      apply IH; [done..|]. intros x [->%elem_of_singleton|Hx%Hvis]%elem_of_union; lia.
    + apply (Forall2_take _ _ _ n) in Hf2. apply (Forall_take _ n) in Hwf. clear -Hf2 Hs1 Htake Hwf. revert Hs1 Htake Hwf.
      induction Hf2 as [|p piece qs pcs [Ht Hc] _ IH2]; intros Hs Htake Hwf; [constructor|].
      apply Forall_cons in Htake as [Hlt Htake]. apply Forall_cons in Hwf as [Hw Hwf]. rewrite concat_cons in *.
      apply ordered_idents_app in Hs as (Hs1 & Hs2 & _). apply Forall_app. split; [|by apply IH2].
      apply tree_entries in Ht as [_ Hex]. apply Forall_forall. intros e He. rewrite Forall_forall in Hex.
      assert (ident_lt (eident e) (w, -1)) as He'.
      { destruct (covers_upper _ _ _ Hc Hs1 He) as [->|H]; [done|by etrans]. }
      apply ident_ltb_lt in He'. rewrite bound_key in He' by auto. by destruct (bytes_cmp _ _).
Qed.

(** ** The descending walk *)

Definition take_limit (limit : option Z) (l : list IndexEntry.t) : list IndexEntry.t :=
  match limit with None => l | Some n => take (Z.to_nat n) l end.

(** The entries strictly below a logical key. *)
Definition below (ceiling : option bytes) (es : list IndexEntry.t) : list IndexEntry.t :=
  match ceiling with
  | None => es
  | Some c => filter (λ e, bytes_cmp (IndexEntry.key e) c = Lt) es
  end.

Definition within (limit : option Z) (out : list IndexEntry.t) : Prop := ∀ n, limit = Some n → zlen out <= n.

Lemma take_limit_within limit l : (∀ n, limit = Some n → 0 <= n) → within limit (take_limit limit l).
Proof. intros Hn n ->. specialize (Hn n eq_refl). simpl. unfold zlen. rewrite length_take. lia. Qed.

Lemma take_limit_reached limit out l : limit_reached limit out = true → within limit out →
  take_limit limit (out ++ l) = out.
Proof.
  destruct limit as [n|]; [|done]. simpl. intros Hr Hw. specialize (Hw n eq_refl). unfold zlen in *.
  apply take_app_length'. lia.
Qed.

Lemma take_limit_id limit out : within limit out → take_limit limit out = out.
Proof. destruct limit as [n|]; [|done]. intros Hw. specialize (Hw n eq_refl). unfold zlen in *. simpl. apply take_ge. lia. Qed.

Lemma take_limit_app limit l k : take_limit limit (take_limit limit l ++ k) = take_limit limit (l ++ k).
Proof.
  destruct limit as [n|]; [|done]. simpl. destruct (decide (length l <= Z.to_nat n)%nat).
  - by rewrite (take_ge l).
  - rewrite !take_app_le by (rewrite ?length_take; lia). by rewrite take_take, Nat.min_id.
Qed.

Lemma yield_entries_take limit out es : within limit out → yield_entries limit out es = take_limit limit (out ++ es).
Proof.
  revert out. induction es as [|e es IH]; intros out Hw; cbn [yield_entries].
  - by rewrite app_nil_r, take_limit_id.
  - destruct (limit_reached limit out) eqn:Hr; [by rewrite take_limit_reached|].
    rewrite IH; [by rewrite <-app_assoc|]. intros n ->. simpl in Hr. rewrite zlen_app. unfold zlen in *. simpl. lia.
Qed.

Definition piece_outputs (ceiling : option bytes) (pieces : list (list IndexEntry.t)) : list IndexEntry.t :=
  match pieces with
  | [] => []
  | piece :: pieces => reverse (below ceiling piece) ++ concat (reverse <$> pieces)
  end.

Lemma walk_children_ok walk_child limit ceiling rps rpieces out :
  (∀ n, limit = Some n → 0 <= n) →
  Forall2 (λ p piece, ∀ c out, within limit out →
    walk_child (ChildPointer.child_page p) c out = (take_limit limit (out ++ reverse (below c piece)), Ok ()))
    rps rpieces →
  within limit out →
  walk_children walk_child limit ceiling rps out = (take_limit limit (out ++ piece_outputs ceiling rpieces), Ok ()).
Proof.
  intros Hn H. revert ceiling out. induction H as [|p piece rps rpieces Hp _ IH]; intros ceiling out Hw;
    cbn [walk_children piece_outputs]; [by rewrite app_nil_r, take_limit_id|].
  destruct (limit_reached limit out) eqn:Hr; [by rewrite take_limit_reached|].
  rewrite Hp by done. rewrite IH by by apply take_limit_within. rewrite take_limit_app, <-app_assoc. do 4 f_equal.
  destruct rpieces; [done|]. by rewrite fmap_cons.
Qed.

Lemma reverse_concat {A} (ls : list (list A)) : reverse (concat ls) = concat (reverse <$> reverse ls).
Proof.
  induction ls as [|l ls IH]; [done|]. rewrite concat_cons, reverse_app, reverse_cons, fmap_app, concat_app, IH.
  f_equal. simpl. by rewrite app_nil_r.
Qed.

Lemma below_all c es : Forall (λ e, bytes_cmp (IndexEntry.key e) c = Lt) es → below (Some c) es = es.
Proof. intros Hf. apply filter_all. intros e He. rewrite Forall_forall in Hf. auto. Qed.

Lemma below_none c es : Forall (λ e, bytes_cmp (IndexEntry.key e) c ≠ Lt) es → below (Some c) es = [].
Proof. intros Hf. apply filter_none. intros e He. rewrite Forall_forall in Hf. auto. Qed.

Lemma below_app ceiling es es' : below ceiling (es ++ es') = below ceiling es ++ below ceiling es'.
Proof. destruct ceiling; [apply filter_app|done]. Qed.

(** The pieces up to the one the walk starts in give everything below the ceiling. *)
Lemma piece_outputs_reverse ceiling front piece back :
  below ceiling (concat front) = concat front → below ceiling (concat back) = [] →
  piece_outputs ceiling (reverse (front ++ [piece])) = reverse (below ceiling (concat (front ++ piece :: back))).
Proof.
  intros Hf Hb. rewrite reverse_app. simpl. rewrite concat_app, concat_cons, !below_app, Hf, Hb, app_nil_r, reverse_app.
  f_equal. by rewrite reverse_concat.
Qed.

Lemma Forall_concat {A} (P : A → Prop) ls : Forall P (concat ls) ↔ Forall (Forall P) ls.
Proof.
  induction ls as [|l ls IH]; [by split; constructor|]. rewrite concat_cons, Forall_app, IH. split.
  - intros [? ?]. by constructor.
  - by intros [? ?]%Forall_cons.
Qed.

(** Where the walk of an internal page starts: everything before is below the ceiling, everything
    after is not. *)
Lemma walk_start ceiling pointers pieces :
  Forall2 (λ p piece, covers p piece ∧ Forall exact_entry piece) pointers pieces →
  Forall pointer_wf pointers → StronglySorted ident_lt (pident <$> pointers) →
  ordered_idents (concat pieces) → pointers ≠ [] →
  let start := match ceiling with
               | None => zlen pointers - 1
               | Some c => Z.min (Z.of_nat (bisect_left ident_ltb (pident <$> pointers) (c, -1))) (zlen pointers - 1)
               end in
  ∃ front piece back, pieces = front ++ piece :: back ∧ length front = Z.to_nat start ∧ 0 <= start < zlen pointers ∧
    below ceiling (concat front) = concat front ∧ below ceiling (concat back) = [].
Proof.
  intros Hf2 Hwf Hps Hs Hne start. pose proof (Forall2_length _ _ _ Hf2) as Hlen.
  assert (0 < length pointers)%nat as Hpos by (destruct pointers; [done|simpl; lia]).
  assert (0 <= start < zlen pointers) as Hst by (unfold start, zlen; destruct ceiling; lia).
  destruct (lookup_lt_is_Some_2 pieces (Z.to_nat start)) as [piece Hpiece]; [unfold zlen in Hst; lia|].
  exists (take (Z.to_nat start) pieces), piece, (drop (S (Z.to_nat start)) pieces).
  pose proof (take_drop_middle _ _ _ Hpiece) as Hsplit.
  split_and!; [done|rewrite length_take; unfold zlen in Hst; lia|lia|lia| |].
  - destruct ceiling as [c|]; [|done]. apply below_all, Forall_concat.
    destruct (bisect_left_sorted (pident <$> pointers) (c, -1) Hps) as (Htake & _ & _).
    apply Forall_lookup. intros i pc [Hpc Hi]%lookup_take_Some.
    destruct (Forall2_lookup_r _ _ _ _ _ Hf2 Hpc) as (p & Hp & Hcov & Hex).
    assert (ident_lt (pident p) (c, -1)) as Hlt.
    { apply (Forall_lookup_1 _ _ i _ Htake). rewrite lookup_take_lt by (unfold start in Hi; lia).
      by rewrite list_lookup_fmap, Hp. }
    assert (ordered_idents pc) as Hspc.
    { rewrite <-(take_drop_middle _ _ _ Hpc), concat_app, concat_cons in Hs.
      apply ordered_idents_app in Hs as (_ & Hs & _). by apply ordered_idents_app in Hs as (? & _). }
    apply Forall_forall. intros e He. rewrite Forall_forall in Hex.
    assert (ident_lt (eident e) (c, -1)) as He' by (destruct (covers_upper _ _ _ Hcov Hspc He) as [->|]; [done|by etrans]).
    apply ident_ltb_lt in He'. rewrite bound_key in He' by auto. by destruct (bytes_cmp _ _).
  - destruct ceiling as [c|].
    2:{ rewrite drop_ge; [done|]. unfold start, zlen in *. lia. }
    destruct (decide (Z.of_nat (bisect_left ident_ltb (pident <$> pointers) (c, -1)) < zlen pointers)).
    2:{ rewrite drop_ge; [done|]. unfold start, zlen in *. lia. }
    destruct (bisect_left_sorted (pident <$> pointers) (c, -1) Hps) as (_ & Hdrop & _).
    destruct (Forall2_lookup_r _ _ _ _ _ Hf2 Hpiece) as (p & Hp & Hcov & _).
    assert (ident_ltb (pident p) (c, -1) = false) as Hge.
    { apply (Forall_lookup_1 _ _ 0%nat _ Hdrop). rewrite lookup_drop, list_lookup_fmap, Nat.add_0_r.
      replace (bisect_left _ _ _) with (Z.to_nat start) by (unfold start in *; lia). by rewrite Hp. }
    rewrite pointer_bound in Hge by exact (Forall_lookup_1 _ _ _ _ Hwf Hp).
    apply below_none, Forall_forall. intros e He Hlt.
    rewrite <-Hsplit, concat_app, concat_cons in Hs. apply ordered_idents_app in Hs as (_ & Hs & _).
    pose proof (after_covered _ _ _ _ Hcov Hs He) as Hafter. apply ident_lt_key in Hafter.
    rewrite (key_le_Lt (ChildPointer.high_key p) (IndexEntry.key e) c) in Hge; done.
Qed.

Lemma below_bisect es c : ordered_idents es → Forall exact_entry es →
  take (bisect_left ident_ltb (eident <$> es) (c, -1)) es = below (Some c) es.
Proof.
  intros Hs Hex. destruct (bisect_left_sorted _ (c, -1) Hs) as (Htake & Hdrop & _).
  set (n := bisect_left _ _ _) in *. clearbody n. rewrite <-fmap_take, Forall_fmap in Htake.
  rewrite <-fmap_drop, Forall_fmap in Hdrop. rewrite <-(take_drop n es) at 2. rewrite below_app.
  rewrite below_all, below_none; [by rewrite app_nil_r|..].
  - apply (Forall_drop _ n) in Hex. apply Forall_forall. intros e He. rewrite Forall_forall in Hdrop, Hex.
    specialize (Hdrop e He). simpl in Hdrop. rewrite bound_key in Hdrop by auto. by destruct (bytes_cmp _ _).
  - apply (Forall_take _ n) in Hex. apply Forall_forall. intros e He. rewrite Forall_forall in Htake, Hex.
    specialize (Htake e He). simpl in Htake. apply ident_ltb_lt in Htake. rewrite bound_key in Htake by auto.
    by destruct (bytes_cmp _ _).
Qed.

Lemma descend_tree pages limit d vis pg ceiling es out :
  (∀ n, limit = Some n → 0 <= n) → tree pages d pg es → ordered_idents es → (∀ x, x ∈ vis → pg < x) →
  within limit out →
  descend pages limit d vis pg ceiling out = (take_limit limit (out ++ reverse (below ceiling es)), Ok ()).
Proof.
  intros Hn. revert vis pg ceiling es out. induction d as [|d IH]; intros vis pg ceiling es out Ht Hs Hvis Hw.
  - apply tree_leaf in Ht as (page & Hp & Hi & Hd & _ & Hf & _). cbn [descend].
    rewrite bool_decide_false by (intros ?%Hvis; lia). rewrite Hp, Hi, Z.eqb_refl. cbn [negb].
    rewrite Hd. cbn [with_ok]. rewrite traverse_idents by done. cbn [with_ok].
    rewrite yield_entries_take by done. do 4 f_equal. destruct ceiling as [c|]; [by apply below_bisect|].
    simpl. by rewrite take_ge by lia.
  - apply tree_internal in Ht as (page & ps & pieces & Hp & Hi & Hd & Hne & -> & Hwf & Hlow & Hps & Hf2). cbn [descend].
    rewrite bool_decide_false by (intros ?%Hvis; lia). rewrite Hp, Hi, Z.eqb_refl. cbn [negb].
    rewrite Hd. cbn [with_ok]. rewrite traverse_highs by done. cbn [with_ok].
    destruct (walk_start ceiling ps pieces) as (front & piece & back & -> & Hfr & Hst & Hb1 & Hb2); [|done..|].
    { eapply Forall2_impl; [exact Hf2|]. intros p pc [Ht Hc]. split; [done|by apply tree_entries in Ht as [_ ?]]. }
    set (start := match ceiling with None => _ | Some _ => _ end) in *. clearbody start.
    rewrite (walk_children_ok _ limit ceiling _ (reverse (front ++ [piece]))); [|done| |done].
    + by rewrite piece_outputs_reverse with (back := back).
    + apply Forall2_reverse. assert (front ++ [piece] = take (Z.to_nat (start + 1)) (front ++ piece :: back)) as ->.
      { replace (Z.to_nat (start + 1)) with (length (front ++ [piece])) by (rewrite length_app; simpl; lia).
        change (piece :: back) with ([piece] ++ back). by rewrite app_assoc, take_app_length. }
      apply Forall2_take. revert Hs Hf2. generalize (front ++ piece :: back). clear -IH Hvis Hlow.
      intros pieces Hs Hf2. revert Hs Hlow. induction Hf2 as [|p pc qs pcs [Ht Hc] _ IH2]; intros Hs Hlow; [constructor|].
      rewrite concat_cons in Hs. apply ordered_idents_app in Hs as (Hs1 & Hs2 & _).
      apply Forall_cons in Hlow as [Hl Hlow]. constructor; [|by apply IH2]. intros c out Hw.
      apply IH; [done..| |done]. intros x [->%elem_of_singleton|Hx%Hvis]%elem_of_union; lia.
Qed.

(** ** Verification *)

Record summarises (sub : Subtree) (pg : Z) (es : list IndexEntry.t) : Prop := {
  sum_page : st_page sub = pg;
  sum_minimum : head (eident <$> es) = Some (minimum sub);
  sum_maximum : last (eident <$> es) = Some (maximum sub);
  sum_count : st_count sub = zlen es
}.

Lemma py_get_Ok {A} (l : list A) i x : py_get l i = Ok x ↔ l !! i = Some x.
Proof. unfold py_get. destruct (l !! i); naive_solver. Qed.

Lemma py_last_Ok {A} (l : list A) x : py_last l = Ok x ↔ last l = Some x.
Proof. unfold py_last. destruct (last l); naive_solver. Qed.

Lemma head_app_cons {A} (l k : list A) x : head l = Some x → head (l ++ k) = Some x.
Proof. by destruct l. Qed.

Lemma last_app_Some {A} (l k : list A) x : last k = Some x → last (l ++ k) = Some x.
Proof. intros [k' ->]%last_Some. by rewrite app_assoc, last_snoc. Qed.

Lemma head_concat (pieces : list (list IndexEntry.t)) piece x :
  head pieces = Some piece → head (eident <$> piece) = Some x → head (eident <$> concat pieces) = Some x.
Proof. destruct pieces as [|p ps]; [done|]. intros [= ->]. rewrite concat_cons, fmap_app. apply head_app_cons. Qed.

Lemma last_concat (pieces : list (list IndexEntry.t)) piece x :
  last pieces = Some piece → last (eident <$> piece) = Some x → last (eident <$> concat pieces) = Some x.
Proof.
  intros [ps ->]%last_Some. rewrite concat_app, fmap_app. simpl. rewrite app_nil_r. apply last_app_Some.
Qed.

Lemma Forall2_head {A B} (R : A → B → Prop) l k x : Forall2 R l k → head l = Some x → ∃ y, head k = Some y ∧ R x y.
Proof. intros []; [done|]. intros [= <-]. by eexists. Qed.

Lemma Forall2_last {A B} (R : A → B → Prop) l k x : Forall2 R l k → last l = Some x → ∃ y, last k = Some y ∧ R x y.
Proof.
  intros H [l' ->]%last_Some. apply Forall2_app_inv_l in H as (k1 & k2 & _ & H2 & ->).
  apply Forall2_cons_inv_l in H2 as (y & k3 & Hy & H3 & ->). apply Forall2_nil_inv_l in H3 as ->.
  exists y. by rewrite last_snoc.
Qed.

Lemma sum_counts_pieces cs pieces : Forall2 (λ c piece, ∃ pg, summarises c pg piece) cs pieces →
  sum_counts cs = zlen (concat pieces).
Proof.
  induction 1 as [|c piece cs pieces [pg Hs] _ IH]; [done|]. rewrite concat_cons, zlen_app, <-IH.
  simpl. by rewrite (sum_count _ _ _ Hs).
Qed.

Lemma summarises_children cs pieces pg first final :
  Forall2 (λ c piece, ∃ pg, summarises c pg piece) cs pieces → head cs = Some first → last cs = Some final →
  summarises (MkSubtree pg (minimum first) (maximum final) (sum_counts cs)) pg (concat pieces).
Proof.
  intros H Hh Hl. destruct (Forall2_head _ _ _ _ H Hh) as (p1 & Hp1 & pg1 & [_ Hmin _ _]).
  destruct (Forall2_last _ _ _ _ H Hl) as (p2 & Hp2 & pg2 & [_ _ Hmax _]). split; simpl.
  - done.
  - by eapply head_concat.
  - by eapply last_concat.
  - by apply sum_counts_pieces.
Qed.

Lemma summarises_sorted sub pg es prev rest : summarises sub pg es → ordered_idents es →
  regresses prev (minimum sub) = false → StronglySorted ident_lt (maximum sub :: rest) →
  StronglySorted ident_lt (option_to_list prev ++ (eident <$> es) ++ rest).
Proof.
  intros [_ Hmin Hmax _] Hs Hreg Hrest. pose proof (sorted_below_last _ _ Hs Hmax) as Hlast.
  apply StronglySorted_inv in Hrest as [Hrest Habove]. rewrite Forall_forall in Hlast, Habove.
  assert (StronglySorted ident_lt ((eident <$> es) ++ rest)) as Hall.
  { apply StronglySorted_app_2; [done..|]. intros x y Hx Hy. specialize (Habove y Hy).
    destruct (Hlast x Hx) as [->|Hlt]; [done|by etrans]. }
  destruct prev as [p|]; [|done]. rewrite regresses_false in Hreg. specialize (Hreg p eq_refl).
  destruct (eident <$> es) as [|m l]; [done|]. injection Hmin as ->. simpl. constructor; [done|].
  apply StronglySorted_inv in Hall as [_ Hall]. constructor; [done|]. eapply Forall_impl; [exact Hall|].
  intros y Hy. by etrans.
Qed.

Lemma visit_children_sound visit_child (P : Z → list IndexEntry.t → Prop) prev ps st cs st' :
  (∀ pg st sub st', visit_child pg st = Ok (sub, st') → ∃ es, P pg es ∧ ordered_idents es ∧ summarises sub pg es) →
  Forall pointer_wf ps → visit_children visit_child prev ps st = Ok (cs, st') →
  ∃ pieces, Forall2 (λ p piece, P (ChildPointer.child_page p) piece ∧ covers p piece) ps pieces ∧
    Forall2 (λ c piece, ∃ pg, summarises c pg piece) cs pieces ∧
    StronglySorted ident_lt (option_to_list prev ++ (eident <$> concat pieces)).
Proof.
  intros Hrec. revert prev st cs. induction ps as [|p ps IH]; intros prev st cs Hwf H; cbn [visit_children] in H.
  { injection H as <- <-. exists []. split_and!; [constructor..|]. rewrite app_nil_r. destruct prev; repeat constructor. }
  apply Forall_cons in Hwf as [Hp Hwf]. apply bind_Ok in H as ([child st1] & Hc & H). inv_ok H.
  apply ordered_entry_identity_Ok in E as [_ ->]. destruct (bool_decide (maximum child = _)) eqn:Hm; [|done].
  apply bool_decide_eq_true in Hm. cbn [negb] in H. destruct (regresses prev _) eqn:Hreg; [done|].
  apply bind_Ok in H as ([children st2] & Hcs & [= <- <-]).
  destruct (Hrec _ _ _ _ Hc) as (es & HP & Hs & Hsum). destruct (IH _ _ _ Hwf Hcs) as (pieces & Hf & Hf' & Hsort).
  exists (es :: pieces). split_and!.
  - constructor; [|done]. split; [done|]. unfold covers. rewrite (sum_maximum _ _ _ Hsum), Hm. done.
  - constructor; [by eexists|done].
  - rewrite concat_cons, fmap_app. by eapply summarises_sorted.
Qed.

Lemma visit_sound pages d pg st sub st' : visit pages d pg st = Ok (sub, st') →
  ∃ es, tree pages d pg es ∧ ordered_idents es ∧ summarises sub pg es.
Proof.
  revert pg st sub st'. induction d as [|d IH]; intros pg st sub st' H; cbn [visit] in H;
    destruct (_ || _); try done; destruct (pages !! pg) as [page|] eqn:Hp; try done;
    destruct (Z.eqb_spec (Page.page_index page) pg) as [Hi|]; try done; cbn [negb] in H;
    apply bind_Ok in H as ([sub1 st1] & H & [= -> <-]).
  - inv_ok H. injection H as <- <-. pose proof (decode_leaf_Ok _ _ E) as (Hex & Hs & _).
    rewrite traverse_idents in E0 by done. injection E0 as <-. apply py_get_Ok in E1. apply py_last_Ok in E2.
    exists x. split_and!; [|done|].
    + exists page. split_and!; [done..|]. by intros ->.
    + split; simpl; [done|by rewrite head_lookup|done|unfold zlen; by rewrite length_fmap].
  - apply bind_Ok in H as (x & E & H). apply bind_Ok in H as ([cs st2] & Hcs & H). inv_ok H. injection H as <- <-.
    pose proof (decode_internal_Ok _ _ E) as (Hwf & _ & _).
    destruct (visit_children_sound _ (tree pages d) _ _ _ _ _ (IH) (Forall_impl _ _ _ Hwf (λ _, @proj1 _ _)) Hcs)
      as (pieces & Hf & Hf' & Hsort).
    apply py_get_Ok in E0. apply py_last_Ok in E1. exists (concat pieces). split_and!.
    + exists page. split_and!; [done..|]. exists x, pieces. split_and!; [done| |done|done].
      intros ->. apply Forall2_nil_inv_l in Hf as ->. by apply Forall2_nil_inv_r in Hf' as ->.
    + done.
    + apply (summarises_children _ _ pg _ _ Hf'); [by rewrite head_lookup|done].
Qed.

(** *** Completeness: a tree verifies *)

(** The pages the walk of a subtree meets. *)
Fixpoint reach (pages : gmap Z Page.t) (d : nat) (pg q : Z) : Prop :=
  q = pg ∨
  match d with
  | O => False
  | S d => ∃ page pointers p, pages !! pg = Some page ∧ decode_ordered_internal page = Ok pointers ∧
             p ∈ pointers ∧ reach pages d (ChildPointer.child_page p) q
  end.

Lemma tree_unique pages d d' pg es es' : tree pages d pg es → tree pages d' pg es' → d = d' ∧ es = es'.
Proof.
  revert d' pg es es'. induction d as [|d IH]; intros [|d'] pg es es' H H'.
  - destruct H as (p & Hp & _ & Hd & _), H' as (p' & Hp' & _ & Hd' & _). simplify_eq.
    split; [done|congruence].
  - destruct H as (p & Hp & _ & Hd & _), H' as (p' & Hp' & _ & ps & pieces & Hd' & _). simplify_eq.
    apply decode_leaf_Ok in Hd as (_ & _ & Ht). apply decode_internal_Ok in Hd' as (_ & _ & Ht'). by rewrite Ht in Ht'.
  - destruct H as (p & Hp & _ & ps & pieces & Hd & _), H' as (p' & Hp' & _ & Hd' & _). simplify_eq.
    apply decode_leaf_Ok in Hd' as (_ & _ & Ht). apply decode_internal_Ok in Hd as (_ & _ & Ht'). by rewrite Ht in Ht'.
  - destruct H as (p & Hp & _ & ps & pieces & Hd & Hne & -> & Hf), H' as (p' & Hp' & _ & ps' & pieces' & Hd' & _ & -> & Hf').
    simplify_eq. assert (ps' = ps) as -> by congruence.
    assert (d = d' ∧ pieces = pieces') as [-> ->]; [|done]. clear Hd Hd' Hp.
    destruct Hf as [|q piece qs pieces Hq Hf]; [done|]. apply Forall2_cons_inv_l in Hf' as (piece' & pieces'' & Hq' & Hf' & ->).
    destruct (IH d' _ _ _ (proj1 Hq) (proj1 Hq')) as [-> ->]. split; [done|]. f_equal. clear Hne Hq Hq'.
    revert pieces'' Hf'. induction Hf as [|r piece rs pieces [Hr _] _ IH2]; intros k Hk.
    + by apply Forall2_nil_inv_l in Hk as ->.
    + apply Forall2_cons_inv_l in Hk as (y & k' & [Hr' _] & Hk & ->). f_equal; [|by apply IH2].
      by destruct (IH d' _ _ _ Hr Hr').
Qed.

Lemma reach_entries pages d pg es q : tree pages d pg es → reach pages d pg q →
  q <= pg ∧ ∃ d' es', tree pages d' q es' ∧ ∀ e, e ∈ es' → e ∈ es.
Proof.
  revert pg es. induction d as [|d IH]; intros pg es Ht [->|H].
  - split; [done|]. by exists 0%nat, es.
  - done.
  - split; [done|]. by exists (S d), es.
  - destruct H as (page & ps & p & Hp & Hd & Hin & Hr).
    apply tree_internal in Ht as (page' & ps' & pieces & Hp' & _ & Hd' & _ & -> & _ & Hlow & _ & Hf). simplify_eq.
    assert (ps' = ps) as -> by congruence. rewrite Forall_forall in Hlow. specialize (Hlow _ Hin).
    apply list_elem_of_lookup in Hin as [i Hi].
    destruct (Forall2_lookup_l _ _ _ _ _ Hf Hi) as (piece & Hpc & Ht & _).
    destruct (IH _ _ Ht Hr) as (Hle & d' & es' & Ht' & Hsub). split; [lia|]. exists d', es'. split; [done|].
    intros e He. apply Hsub in He. rewrite <-(take_drop_middle _ _ _ Hpc), concat_app, concat_cons.
    rewrite !elem_of_app. tauto.
Qed.

(** Two neighbouring subtrees of an ordered list share no page: they would share an entry. *)
Lemma reach_disjoint pages d p p' es es' q : tree pages d p es → tree pages d p' es' → ordered_idents (es ++ es') →
  reach pages d p q → reach pages d p' q → False.
Proof.
  intros Ht Ht' Hs Hr Hr'. destruct (reach_entries _ _ _ _ _ Ht Hr) as (_ & d1 & e1 & H1 & Hsub1).
  destruct (reach_entries _ _ _ _ _ Ht' Hr') as (_ & d2 & e2 & H2 & Hsub2).
  destruct (tree_unique _ _ _ _ _ _ H1 H2) as [-> ->]. apply tree_entries in H2 as [Hne _].
  destruct e2 as [|e e2]; [done|]. apply ordered_idents_app in Hs as (_ & _ & Hlt).
  apply (ident_lt_irrefl (eident e)), Hlt; [apply Hsub1|apply Hsub2]; by left.
Qed.

(** What a completed visit of the pages [R] does to the state. *)
Definition visited_exactly (R : Z → Prop) (st st' : VerifyState) : Prop :=
  visiting st' = visiting st ∧ (∀ q, q ∈ visited st' ↔ q ∈ visited st ∨ R q) ∧
  (Z.of_nat (size (visited st'))) - leaf_pages st' - internal_pages st'
  = Z.of_nat (size (visited st)) - leaf_pages st - internal_pages st.

Definition unseen (R : Z → Prop) (st : VerifyState) : Prop := ∀ q, R q → (q ∉ visiting st) ∧ (q ∉ visited st).

Lemma visit_children_complete pages d prev ps pieces st :
  (∀ p piece st, tree pages d p piece → ordered_idents piece → unseen (reach pages d p) st →
     ∃ sub st', visit pages d p st = Ok (sub, st') ∧ visited_exactly (reach pages d p) st st' ∧ summarises sub p piece) →
  Forall2 (λ p piece, tree pages d (ChildPointer.child_page p) piece ∧ covers p piece) ps pieces →
  Forall pointer_wf ps → StronglySorted ident_lt (option_to_list prev ++ (eident <$> concat pieces)) →
  unseen (λ q, ∃ p, p ∈ ps ∧ reach pages d (ChildPointer.child_page p) q) st →
  ∃ cs st', visit_children (visit pages d) prev ps st = Ok (cs, st') ∧
    visited_exactly (λ q, ∃ p, p ∈ ps ∧ reach pages d (ChildPointer.child_page p) q) st st' ∧
    Forall2 (λ c piece, ∃ pg, summarises c pg piece) cs pieces.
Proof.
  intros Hrec H. revert prev st. induction H as [|p piece ps pieces [Ht Hc] Hf IH]; intros prev st Hwf Hs Hun.
  { exists [], st. split_and!; [done| |constructor]. split_and!; [done| |done].
    intros q. split; [by left|]. intros [?|(? & []%elem_of_nil & _)]. done. }
  apply Forall_cons in Hwf as [Hp Hwf]. rewrite concat_cons, fmap_app in Hs.
  apply StronglySorted_app_inv in Hs as (_ & Hs & Hprev).
  assert (ordered_idents (piece ++ concat pieces)) as Hall by (unfold ordered_idents; by rewrite fmap_app).
  pose proof (ordered_idents_app _ _ Hall) as (Hs1 & Hs2 & Hlt).
  destruct (Hrec _ _ st Ht Hs1) as (sub & st1 & Hv & (Hvis & Hvd & Hsz) & Hsum).
  { intros q Hq. apply Hun. exists p. split; [by left|done]. }
  destruct (IH (Some (maximum sub)) st1) as (cs & st2 & Hvs & (Hvis2 & Hvd2 & Hsz2) & Hf2).
  { done. }
  { simpl. constructor; [done|]. apply Forall_forall. intros y (e & -> & He)%list_elem_of_fmap.
    pose proof (sum_maximum _ _ _ Hsum) as Hmax. rewrite Hc in Hmax. injection Hmax as <-.
    by eapply after_covered. }
  { intros q (p' & Hin & Hr). rewrite Hvis, Hvd. destruct (Hun q) as [? ?]; [exists p'; split; [by right|done]|].
    split; [done|]. intros [?|Hr']; [done|]. apply list_elem_of_lookup in Hin as [i Hi].
    destruct (Forall2_lookup_l _ _ _ _ _ Hf Hi) as (piece' & Hpc & Ht' & _).
    apply (reach_disjoint pages d _ _ piece piece' q Ht Ht'); [|done..].
    apply ordered_idents_app_2; [done| |].
    - rewrite <-(take_drop_middle _ _ _ Hpc), concat_app, concat_cons in Hs2.
      apply ordered_idents_app in Hs2 as (_ & Hs2 & _). by apply ordered_idents_app in Hs2 as (? & _).
    - intros e e' He He'. apply Hlt; [done|]. rewrite <-(take_drop_middle _ _ _ Hpc), concat_app, concat_cons.
      rewrite !elem_of_app. tauto. }
  exists (sub :: cs), st2. split_and!.
  - cbn [visit_children]. rewrite Hv. cbn [mbind result_bind]. unfold ChildPointer.high_identity.
    rewrite ordered_entry_identity_valid by apply Hp. cbn [mbind result_bind].
    pose proof (sum_maximum _ _ _ Hsum) as Hmax. rewrite Hc in Hmax. injection Hmax as Hmax.
    rewrite bool_decide_true by done. cbn [negb].
    assert (regresses prev (minimum sub) = false) as ->.
    { apply regresses_false. intros m ->. apply Hprev; [by left|]. apply elem_of_app. left.
      pose proof (sum_minimum _ _ _ Hsum) as Hmin. destruct (eident <$> piece); [done|]. injection Hmin as ->. by left. }
    rewrite Hvs. done.
  - split_and!; [by rewrite Hvis2| |lia]. intros q. rewrite Hvd2, Hvd. setoid_rewrite elem_of_cons. naive_solver.
  - constructor; [by eexists|done].
Qed.

Lemma size_visit (q : Z) (X : gset Z) : q ∉ X → Z.of_nat (size ({[q]} ∪ X)) = Z.of_nat (size X) + 1.
Proof. intros. rewrite size_union, size_singleton by set_solver. lia. Qed.

Lemma visit_complete pages d pg es st : tree pages d pg es → ordered_idents es → unseen (reach pages d pg) st →
  ∃ sub st', visit pages d pg st = Ok (sub, st') ∧ visited_exactly (reach pages d pg) st st' ∧ summarises sub pg es.
Proof.
  revert pg es st. induction d as [|d IH]; intros pg es st Ht Hs Hun;
    destruct (Hun pg) as [Hn1 Hn2]; try (by left); cbn [visit]; rewrite !bool_decide_false by done; cbn [orb].
  - apply tree_leaf in Ht as (page & Hp & Hi & Hd & Hne & Hex & _). rewrite Hp, Hi, Z.eqb_refl. cbn [negb].
    rewrite Hd. cbn [mbind result_bind]. rewrite traverse_idents by done. cbn [mbind result_bind].
    assert (∃ x, head (eident <$> es) = Some x) as [x Hx] by (destruct es; [done|by eexists]).
    assert (∃ y, last (eident <$> es) = Some y) as [y Hy].
    { apply last_is_Some. by destruct es. }
    rewrite (proj2 (py_get_Ok _ _ _)) by (by rewrite <-head_lookup). cbn [mbind result_bind].
    rewrite (proj2 (py_last_Ok _ _)) by done. cbn [mbind result_bind].
    eexists _, _. split; [done|]. split.
    + split_and!; simpl; [set_solver| |rewrite size_visit by done; lia]. intros q. rewrite elem_of_union, elem_of_singleton. tauto.
    + split; simpl; [done..|]. unfold zlen. by rewrite length_fmap.
  - apply tree_internal in Ht as (page & ps & pieces & Hp & Hi & Hd & Hne & -> & Hwf & Hlow & _ & Hf2).
    rewrite Hp, Hi, Z.eqb_refl. cbn [negb]. rewrite Hd. cbn [mbind result_bind].
    assert (∀ p q, p ∈ ps → reach pages d (ChildPointer.child_page p) q → q < pg ∧ reach pages (S d) pg q) as Hreach.
    { intros p q Hin Hr. rewrite Forall_forall in Hlow. specialize (Hlow p Hin).
      apply list_elem_of_lookup in Hin as Hin'. destruct Hin' as [i Hi'].
      destruct (Forall2_lookup_l _ _ _ _ _ Hf2 Hi') as (piece' & _ & Ht' & _).
      destruct (reach_entries _ _ _ _ _ Ht' Hr) as [? _]. split; [lia|]. right. by exists page, ps, p. }
    destruct (visit_children_complete pages d None ps pieces
      (MkVerify ({[pg]} ∪ visiting st) (visited st) (leaf_pages st) (internal_pages st)))
      as (cs & st' & Hv & (Hvis & Hvd & Hsz) & Hcs); [done..| |].
    { intros q (p & Hin & Hr). destruct (Hreach _ _ Hin Hr) as [Hlt Hr']. destruct (Hun q Hr') as [? ?]. simpl.
      split; [|done]. rewrite elem_of_union, elem_of_singleton. intros [->|?]; [lia|done]. }
    rewrite Hv. cbn [mbind result_bind].
    assert (cs ≠ []) as Hcne by (intros ->; apply Forall2_nil_inv_l in Hcs as ->; by apply Forall2_nil_inv_r in Hf2).
    assert (∃ x, head cs = Some x) as [x Hx] by (destruct cs; [done|by eexists]).
    assert (∃ y, last cs = Some y) as [y Hy] by by apply last_is_Some.
    rewrite (proj2 (py_get_Ok _ _ _)) by (by rewrite <-head_lookup). cbn [mbind result_bind].
    rewrite (proj2 (py_last_Ok _ _)) by done. cbn [mbind result_bind].
    eexists _, _. split; [done|]. split; [|by apply summarises_children]. simpl in *. split_and!; simpl.
    + rewrite Hvis. set_solver.
    + intros q. rewrite elem_of_union, elem_of_singleton, Hvd. split.
      * intros [->|[?|(p & Hin & Hr)]]; [right; by left|by left|]. right. by apply (Hreach p q).
      * intros [?|[->|H]]; [auto|auto|]. destruct H as (page' & ps' & p & Hp' & Hd' & Hin & Hr). simplify_eq.
        assert (ps' = ps) as -> by congruence. right; right. by exists p.
    + rewrite size_visit; [lia|]. rewrite Hvd. intros [?|(p & Hin & Hr)]; [done|].
      destruct (Hreach p pg Hin Hr). lia.
Qed.

(** *** The reading theorems' lemmas *)

Lemma verify_sound pages root height expected v : verify_ordered_tree root height pages expected = Ok v →
  ∃ es, ordered_tree pages root height es ∧ (expected = None ∨ expected = Some (zlen es)).
Proof.
  unfold verify_ordered_tree, ordered_tree. destruct (Z.eqb_spec root NO_PAGE) as [->|Hroot].
  - destruct (Z.eqb_spec height 0) as [->|]; [|done]. cbn [negb orb].
    destruct (bool_decide (expected = None ∨ expected = Some 0)) eqn:He; [|done]. intros _.
    exists []. rewrite decide_True by done. split; [done|]. by apply bool_decide_eq_true in He.
  - destruct (Z.leb_spec height 0); [done|]. destruct (Z.ltb_spec root FIRST_ORDERED_TREE_PAGE); [done|]. cbn [orb].
    intros H1. apply bind_Ok in H1 as ([sub st] & Hv & H1). apply visit_sound in Hv as (es & Ht & Hs & Hsum).
    destruct (bool_decide _) eqn:He; [|done]. apply bool_decide_eq_true in He. exists es.
    rewrite decide_False by done. split_and!; [lia|lia|done|done|]. by rewrite <-(sum_count _ _ _ Hsum).
Qed.

Lemma verify_complete pages root height expected es : ordered_tree pages root height es →
  expected = None ∨ expected = Some (zlen es) →
  ∃ v, verify_ordered_tree root height pages expected = Ok v ∧ v_entry_count v = zlen es ∧
       v_minimum v = head (eident <$> es) ∧ v_maximum v = last (eident <$> es) ∧
       v_page_count v = v_leaf_pages v + v_internal_pages v.
Proof.
  unfold verify_ordered_tree, ordered_tree. intros Ht He. destruct (Z.eqb_spec root NO_PAGE) as [->|Hroot].
  - rewrite decide_True in Ht by done. destruct Ht as [-> ->]. rewrite bool_decide_true by done.
    by eexists.
  - rewrite decide_False in Ht by done. destruct Ht as (Hh & Hr & Ht & Hs).
    rewrite (proj2 (Z.leb_gt _ _)) by lia. rewrite (proj2 (Z.ltb_ge _ _)) by lia. cbn [orb].
    destruct (visit_complete _ _ _ _ (MkVerify ∅ ∅ 0 0) Ht Hs) as (sub & st & Hv & (_ & _ & Hsz) & Hsum).
    { intros q _. set_solver. }
    rewrite Hv. cbn [mbind result_bind]. rewrite bool_decide_true by by rewrite (sum_count _ _ _ Hsum).
    cbn [negb]. eexists. split; [done|]. simpl. destruct Hsum as [_ -> -> ->]. split_and!; [done..|].
    cbn [visited leaf_pages internal_pages] in Hsz. rewrite (size_empty (C:=gset Z)) in Hsz. lia.
Qed.

Lemma seek_ordered pages root height es key : ordered_tree pages root height es →
  0 < zlen key <= MAX_INDEX_KEY_BYTES →
  seek_ordered_exact root height pages key = Ok (filter (λ e, IndexEntry.key e = key) es).
Proof.
  unfold seek_ordered_exact, ordered_tree. intros Ht Hk. rewrite (proj2 (key_bytes_Ok _ _ _)) by done.
  cbn [mbind result_bind]. destruct (Z.eqb_spec root NO_PAGE) as [->|Hroot].
  - rewrite decide_True in Ht by done. by destruct Ht as [-> ->].
  - rewrite decide_False in Ht by done. destruct Ht as (Hh & Hr & Ht & Hs).
    rewrite (proj2 (Z.leb_gt _ _)) by lia. apply seek_tree; [done..|]. intros x. set_solver.
Qed.

Lemma below_nil ceiling : below ceiling [] = [].
Proof. by destruct ceiling. Qed.

Lemma walk_ordered pages root height es upper limit : ordered_tree pages root height es →
  (∀ k, upper = Some k → 0 < zlen k <= MAX_INDEX_KEY_BYTES) → (∀ n, limit = Some n → 0 <= n) →
  walk_ordered_desc root height pages upper limit = (take_limit limit (reverse (below upper es)), Ok ()).
Proof.
  unfold walk_ordered_desc, ordered_tree. intros Ht Hk Hn.
  assert (match limit with Some n => n <? 0 | None => false end = false) as ->.
  { destruct limit as [n|]; [|done]. specialize (Hn n eq_refl). lia. }
  assert (match upper with None => Ok None | Some k => k ← key_bytes k false; Ok (Some k) end = Ok upper) as ->.
  { destruct upper as [k|]; [|done]. by rewrite (proj2 (key_bytes_Ok _ _ _)) by (split; [done|by apply Hk]). }
  cbn [with_ok]. destruct (Z.eqb_spec root NO_PAGE) as [->|Hroot].
  - rewrite decide_True in Ht by done. destruct Ht as [-> ->]. rewrite below_nil.
    by destruct limit as [n|]; simpl; rewrite ?firstn_nil.
  - rewrite decide_False in Ht by done. destruct Ht as (Hh & Hr & Ht & Hs).
    rewrite (proj2 (Z.leb_gt _ _)) by lia. case_bool_decide as Hl; [by subst limit|].
    rewrite (descend_tree _ _ _ _ _ _ es); [done|done|done|done| |].
    + intros x. set_solver.
    + intros n ->. by apply Hn.
Qed.

(** *** Errors *)

(** A page no slot of which is live decodes to nothing, which its readers do not expect. *)
Definition has_live_slot (page : Page.t) : Prop := Page.iter_slots page ≠ [].

Definition corrupt (c : error_class) : Prop := c = GrafxCorruptionDetected.

Lemma errs_corrupt_raise {A} f : errs_in corrupt (@raise A GrafxCorruptionDetected f).
Proof. by apply errs_in_raise. Qed.

#[local] Hint Resolve errs_corrupt_raise IndexEntryFacts.decode_errs : errors.

Lemma validate_page_shape_errs page t : errs_in corrupt (validate_page_shape page t).
Proof. unfold validate_page_shape. auto 10 with errors. Qed.

Lemma key_bytes_stored_errs k : errs_in corrupt (key_bytes k true).
Proof. unfold key_bytes. auto with errors. Qed.

Lemma record_ref_encode_errs r : errs_in corrupt (RecordRef.encode r).
Proof. unfold RecordRef.encode. auto with errors. Qed.

Lemma record_ref_decode_errs v : errs_in corrupt (RecordRef.decode v).
Proof. unfold RecordRef.decode, RecordRef.require_decodable_ref. apply errs_in_bind; auto with errors. Qed.

Lemma entry_identity_errs k r : errs_in corrupt (ordered_entry_identity k r).
Proof. apply errs_in_bind; [apply record_ref_encode_errs|auto with errors]. Qed.

Lemma pointer_decode_errs raw : errs_in corrupt (ChildPointer.decode raw).
Proof.
  unfold ChildPointer.decode. destruct (Z.ltb_spec (zlen raw) ORDERED_INTERNAL_ENTRY_SIZE); [auto with errors|].
  apply errs_in_bind; [intros e He; by apply (IndexEntryFacts.struct_unpack_errs INTERNAL) in He|].
  intros [kl [c [er []]]] _. apply errs_in_if; [auto with errors|]. apply errs_in_bind; [apply key_bytes_stored_errs|].
  intros k _. pose proof (record_ref_decode_errs er) as Hd. destruct (RecordRef.decode er) as [r|e]; cbn [mbind result_bind].
  - destruct (ChildPointer.make k r c) as [p|e] eqn:Hm; [auto with errors|].
    assert (err_class e = GrafxCorruptionDetected ∨ err_class e = GrafxIndexError) as Hc.
    { unfold ChildPointer.make, ChildPointer.post_init, key_bytes, raise in Hm.
      destruct (_ || _) in Hm; [by injection Hm as <-; right|]. cbn [mbind result_bind] in Hm.
      pose proof (record_ref_encode_errs r) as He. destruct (RecordRef.encode _) as [x|e'] eqn:Hr; cbn [mbind result_bind] in Hm.
      - destruct (negb _); [by injection Hm as <-; right|done].
      - injection Hm as <-. left. by apply He. }
    destruct Hc as [Hc|Hc]; rewrite Hc; apply errs_corrupt_raise.
  - specialize (Hd e eq_refl). unfold corrupt in Hd. rewrite Hd. apply errs_corrupt_raise.
Qed.

Lemma leaf_entries_errs pi prev slots : errs_in corrupt (leaf_entries pi prev slots).
Proof.
  revert prev. induction slots as [|[s raw] slots IH]; intros prev; cbn [leaf_entries]; [auto with errors|].
  apply errs_in_bind; [auto with errors|]. intros e (Hwf & _)%IndexEntryFacts.decode_inv.
  rewrite IndexEntryFacts.located_at_wf by done. cbn [mbind result_bind]. apply errs_in_if; [auto with errors|].
  apply errs_in_bind; [apply key_bytes_stored_errs|]. intros _ _. apply errs_in_bind; [apply entry_identity_errs|].
  intros i _. apply errs_in_if; [auto with errors|]. apply errs_in_bind; [apply IH|auto with errors].
Qed.

Lemma internal_pointers_errs pi prev ch slots : errs_in corrupt (internal_pointers pi prev ch slots).
Proof.
  revert prev ch. induction slots as [|[s raw] slots IH]; intros prev ch; cbn [internal_pointers]; [auto with errors|].
  apply errs_in_bind; [apply pointer_decode_errs|]. intros p _. apply errs_in_if; [auto with errors|].
  apply errs_in_bind; [apply entry_identity_errs|]. intros i _. apply errs_in_if; [auto with errors|].
  apply errs_in_if; [auto with errors|]. apply errs_in_bind; [apply IH|auto with errors].
Qed.

Lemma decode_leaf_errs page : errs_in corrupt (decode_ordered_leaf page).
Proof. apply errs_in_bind; [apply validate_page_shape_errs|intros; apply leaf_entries_errs]. Qed.

Lemma decode_internal_errs page : errs_in corrupt (decode_ordered_internal page).
Proof. apply errs_in_bind; [apply validate_page_shape_errs|intros; apply internal_pointers_errs]. Qed.

#[local] Hint Resolve decode_leaf_errs decode_internal_errs : errors.

Lemma leaf_entries_length pi prev slots es : leaf_entries pi prev slots = Ok es → length es = length slots.
Proof.
  revert prev es. induction slots as [|[s raw] slots IH]; intros prev es H; cbn [leaf_entries] in H; [by injection H as <-|].
  inv_ok H. case_match; [done|]. inv_ok H. case_match; [done|]. inv_ok H. injection H as <-.
  simpl. f_equal. by eapply IH.
Qed.

Lemma visit_children_length visit_child prev ps st cs st' : visit_children visit_child prev ps st = Ok (cs, st') →
  length cs = length ps.
Proof.
  revert prev st cs st'. induction ps as [|p ps IH]; intros prev st cs st' H; cbn [visit_children] in H; [by injection H as <- <-|].
  apply bind_Ok in H as ([c st1] & _ & H). inv_ok H. case_match; [done|]. case_match; [done|].
  apply bind_Ok in H as ([cs1 st2] & Hc & [= <- <-]). simpl. f_equal. by eapply IH.
Qed.

Lemma internal_pointers_length pi prev ch slots ps : internal_pointers pi prev ch slots = Ok ps → length ps = length slots.
Proof.
  revert prev ch ps. induction slots as [|[s raw] slots IH]; intros prev ch ps H; cbn [internal_pointers] in H; [by injection H as <-|].
  inv_ok H. case_match; [done|]. inv_ok H. case_match; [done|]. case_match; [done|]. inv_ok H. injection H as <-.
  simpl. f_equal. by eapply IH.
Qed.

Lemma py_ends_errs {A} P (l : list A) : l ≠ [] → errs_in P (py_get l 0) ∧ errs_in P (py_last l).
Proof.
  intros Hne. unfold py_get, py_last. destruct l as [|x l]; [done|]. split; [apply errs_in_Ok|].
  destruct (last (x :: l)) eqn:E; [apply errs_in_Ok|]. by apply last_None in E.
Qed.

Lemma visit_children_errs visit_child prev ps st : (∀ pg st, errs_in corrupt (visit_child pg st)) →
  errs_in corrupt (visit_children visit_child prev ps st).
Proof.
  intros Hv. revert prev st. induction ps as [|p ps IH]; intros prev st; cbn [visit_children]; [auto with errors|].
  apply errs_in_bind; [done|]. intros [c st1] _. apply errs_in_bind; [apply entry_identity_errs|]. intros h _.
  apply errs_in_if; [auto with errors|]. apply errs_in_if; [auto with errors|].
  apply errs_in_bind; [apply IH|]. intros [cs st2] _. auto with errors.
Qed.

Lemma visit_errs pages d pg st : (∀ q page, pages !! q = Some page → has_live_slot page) →
  errs_in corrupt (visit pages d pg st).
Proof.
  intros Hlive. revert pg st. induction d as [|d IH]; intros pg st; cbn [visit]; (apply errs_in_if; [auto with errors|]);
    destruct (pages !! pg) as [page|] eqn:Hp; auto with errors; (apply errs_in_if; [auto with errors|]);
    (apply errs_in_bind; [|intros [? ?] _; auto with errors]).
  - apply errs_in_bind; [auto with errors|]. intros es Hd. pose proof (decode_leaf_Ok _ _ Hd) as (Hex & _).
    rewrite traverse_idents by done. cbn [mbind result_bind].
    assert (eident <$> es ≠ []) as Hne.
    { unfold decode_ordered_leaf in Hd. inv_ok Hd. apply leaf_entries_length in Hd. specialize (Hlive _ _ Hp).
      unfold has_live_slot in Hlive. by destruct es, (Page.iter_slots page). }
    apply errs_in_bind; [by apply py_ends_errs|]. intros x _. apply errs_in_bind; [by apply py_ends_errs|]. auto with errors.
  - apply errs_in_bind; [auto with errors|]. intros ps Hd.
    apply errs_in_bind; [by apply visit_children_errs|]. intros [cs st1] Hcs.
    assert (cs ≠ []) as Hne.
    { apply visit_children_length in Hcs. unfold decode_ordered_internal in Hd. inv_ok Hd.
      apply internal_pointers_length in Hd. specialize (Hlive _ _ Hp).
      unfold has_live_slot in Hlive. by destruct cs, ps, (Page.iter_slots page). }
    apply errs_in_bind; [by apply py_ends_errs|]. intros x _. apply errs_in_bind; [by apply py_ends_errs|]. auto with errors.
Qed.

Lemma seek_errs pages w d vis pg : errs_in corrupt (seek pages w d vis pg).
Proof.
  revert vis pg. induction d as [|d IH]; intros vis pg; cbn [seek]; (apply errs_in_if; [auto with errors|]);
    destruct (pages !! pg) as [page|]; auto with errors; (apply errs_in_if; [auto with errors|]);
    (apply errs_in_bind; [auto with errors|]); intros x _; [auto with errors|].
  apply errs_in_bind; [apply errs_in_traverse; intros; apply entry_identity_errs|]. intros highs _.
  generalize (drop (bisect_left ident_ltb highs (w, -1)) x). intros ps.
  induction ps as [|p ps IH2]; cbn [seek_children]; [auto with errors|].
  apply errs_in_bind; [apply IH|]. intros found _. apply errs_in_if; [auto with errors|].
  apply errs_in_bind; [apply IH2|auto with errors].
Qed.

(** ** A small tree, for the examples *)

Definition sample_page (t : PageType) (index : Z) (payloads : list bytes) : result Page.t :=
  p ← Page.make (page_type_value t) 512 index 0 0 0 NO_PAGE;
  Ok (run serve p (Insert <$> payloads)).2.

Definition sample_entry (k : byte) (slot : Z) : IndexEntry.t :=
  IndexEntry.Mk [k] (RecordRef.Mk 9 slot) false 0 0 NO_PAGE 0.

(** Two leaves, pages 3 and 4, under page 5; the key [b] spans both. *)
Definition sample_pages : result (gmap Z Page.t) :=
  a ← traverse IndexEntry.encode [sample_entry Byte.x61 0; sample_entry Byte.x62 1];
  b ← traverse IndexEntry.encode [sample_entry Byte.x62 2; sample_entry Byte.x63 3];
  c ← traverse ChildPointer.encode [ChildPointer.Mk [Byte.x62] (RecordRef.Mk 9 1) 3;
                                    ChildPointer.Mk [Byte.x63] (RecordRef.Mk 9 3) 4];
  p3 ← sample_page INDEX_ORDERED_LEAF 3 a;
  p4 ← sample_page INDEX_ORDERED_LEAF 4 b;
  p5 ← sample_page INDEX_ORDERED_INTERNAL 5 c;
  Ok ({[3 := p3; 4 := p4; 5 := p5]}).

Definition sample_tree : gmap Z Page.t := match sample_pages with Ok m => m | Err _ => ∅ end.

(** The page of an index leaf whose only entry was freed. *)
Definition hollow_tree : gmap Z Page.t :=
  match sample_page INDEX_ORDERED_LEAF 3 [[Byte.x61]] with
  | Ok p => {[3 := (run serve p [Free 0]).2]}
  | Err _ => ∅
  end.

(** ** Properties *)

(** C37: verification is exact.  Whatever [verify_ordered_tree] accepts is a tree: every page
    reachable from the root decodes, the entries of its leaves are strictly increasing, each
    separator is the last identity under it, and the reported counts and boundaries are those of
    the entries; and every such tree, with the right expected count, is accepted, so no cycle or
    shared child is ever blamed on it. *)
Theorem ordered_verify_exact (pages : gmap Z Page.t) (root height : Z) (expected : option Z) :
  (∀ v, verify_ordered_tree root height pages expected = Ok v →
     ∃ es, ordered_tree pages root height es ∧ (expected = None ∨ expected = Some (zlen es)) ∧
       v_entry_count v = zlen es ∧ v_minimum v = head (eident <$> es) ∧ v_maximum v = last (eident <$> es) ∧
       v_page_count v = v_leaf_pages v + v_internal_pages v) ∧
  (∀ es, ordered_tree pages root height es → (expected = None ∨ expected = Some (zlen es)) →
     ∃ v, verify_ordered_tree root height pages expected = Ok v).
Proof.
  split.
  - intros v Hv. destruct (verify_sound _ _ _ _ _ Hv) as (es & Ht & He). exists es. split; [done|]. split; [done|].
    destruct (verify_complete _ _ _ _ _ Ht He) as (v' & Hv' & H). rewrite Hv in Hv'. by injection Hv' as <-.
  - intros es Ht He. destruct (verify_complete _ _ _ _ _ Ht He) as (v & Hv & _). by exists v.
Qed.

Lemma ordered_verify_exact_witness :
  ∃ v, verify_ordered_tree 5 2 sample_tree (Some 4) = Ok v ∧ v_page_count v = 3 ∧
    ∃ es, ordered_tree sample_tree 5 2 es ∧ zlen es = 4.
Proof.
  eexists. split; [vm_compute; reflexivity|]. split; [reflexivity|].
  destruct (ordered_verify_exact sample_tree 5 2 (Some 4)) as [H _].
  edestruct H as (es & Ht & [He|He] & _); [vm_compute; reflexivity|discriminate|].
  exists es. split; [exact Ht|]. injection He as He. symmetry. exact He.
Defined.

(** C32: a verified tree answers exactly.  When verification accepts a root, there is one list of
    entries, strictly increasing and of the verified length, such that seeking any key returns
    exactly its entries, in order and across page boundaries, and walking from any upper key with
    any limit yields exactly the entries below it, from the greatest down, and never more than the
    limit; neither ends in an error. *)
Theorem verified_tree_reads (pages : gmap Z Page.t) (root height : Z) (expected : option Z)
    (v : OrderedTreeVerification) (Hv : verify_ordered_tree root height pages expected = Ok v) :
  ∃ es, ordered_idents es ∧ zlen es = v_entry_count v ∧
    (∀ key, 0 < zlen key <= MAX_INDEX_KEY_BYTES →
       seek_ordered_exact root height pages key = Ok (filter (λ e, IndexEntry.key e = key) es)) ∧
    (∀ upper limit, (∀ k, upper = Some k → 0 < zlen k <= MAX_INDEX_KEY_BYTES) → (∀ n, limit = Some n → 0 <= n) →
       walk_ordered_desc root height pages upper limit
       = (take_limit limit (reverse (below upper es)), Ok ())).
Proof.
  destruct (verify_sound _ _ _ _ _ Hv) as (es & Ht & He). exists es.
  destruct (verify_complete _ _ _ _ _ Ht He) as (v' & Hv' & Hc & _). rewrite Hv in Hv'. injection Hv' as <-.
  split_and!; [|done| |].
  - unfold ordered_tree in Ht. case_decide; [|by destruct Ht as (_ & _ & _ & ?)].
    destruct Ht as [_ ->]. constructor.
  - intros key Hk. by apply seek_ordered.
  - intros upper limit Hu Hl. by apply walk_ordered.
Qed.

Lemma verified_tree_reads_witness :
  ∃ es, zlen es = 4 ∧
    seek_ordered_exact 5 2 sample_tree [Byte.x62] = Ok (filter (λ e, IndexEntry.key e = [Byte.x62]) es) ∧
    walk_ordered_desc 5 2 sample_tree (Some [Byte.x63]) (Some 2)
    = (take_limit (Some 2) (reverse (below (Some [Byte.x63]) es)), Ok ()).
Proof.
  edestruct (verified_tree_reads sample_tree 5 2 (Some 4)) as (es & _ & Hl & Hs & Hw); [vm_compute; reflexivity|].
  exists es. split; [exact Hl|]. split.
  - apply Hs. vm_compute. split; [reflexivity|discriminate].
  - apply Hw; [intros k [= <-]; vm_compute; split; [reflexivity|discriminate]|intros n [= <-]; lia].
Defined.

(** The same, computed: the two entries of [b], and the walk below [c]. *)
Example sample_reads :
  (IndexEntry.ref <$> match seek_ordered_exact 5 2 sample_tree [Byte.x62] with Ok l => l | Err _ => [] end)
  = [RecordRef.Mk 9 1; RecordRef.Mk 9 2] ∧
  (IndexEntry.ref <$> (walk_ordered_desc 5 2 sample_tree (Some [Byte.x63]) (Some 2)).1)
  = [RecordRef.Mk 9 2; RecordRef.Mk 9 1].
Proof. split; vm_compute; reflexivity. Qed.

(** C39: damage is classified.  Over pages that each keep a live slot, verification fails with a
    corruption and nothing else, and a seek fails with a corruption or, for a key that is empty or
    too long, an index error; a leaf all of whose slots were freed makes verification leak
    Python's [IndexError] instead. *)
Theorem ordered_damage_classified (pages : gmap Z Page.t) (root height : Z) (expected : option Z) (key : bytes) :
  ((∀ q page, pages !! q = Some page → has_live_slot page) →
     errs_in corrupt (verify_ordered_tree root height pages expected)) ∧
  (∀ e, seek_ordered_exact root height pages key = Err e →
     err_class e = GrafxCorruptionDetected ∨
     err_class e = GrafxIndexError ∧ ¬ 0 < zlen key <= MAX_INDEX_KEY_BYTES) ∧
  verify_ordered_tree 3 1 hollow_tree None = raise IndexError "".
Proof.
  split_and!.
  - intros Hlive. unfold verify_ordered_tree. apply errs_in_if; [auto with errors|]. apply errs_in_if; [auto with errors|].
    apply errs_in_bind; [by apply visit_errs|]. intros [sub st] _. auto with errors.
  - unfold seek_ordered_exact. intros e. destruct (key_bytes key false) as [k|e'] eqn:Hk; cbn [mbind result_bind].
    + repeat case_match; intros He; left; try (by injection He as <-); [done|]. by apply seek_errs in He.
    + intros [= <-]. right. unfold key_bytes, raise in Hk. pose proof (zlen_nonneg key).
      destruct (_ || _) eqn:Ho in Hk; [|done]. injection Hk as <-. split; [done|].
      apply orb_true_iff in Ho. lia.
  - vm_compute. reflexivity.
Qed.

Lemma ordered_damage_classified_witness :
  errs_in corrupt (verify_ordered_tree 4 2 sample_tree None) ∧
  verify_ordered_tree 4 2 sample_tree None = raise GrafxCorruptionDetected "page_type".
Proof.
  split; [|vm_compute; reflexivity].
  apply (proj1 (ordered_damage_classified sample_tree 4 2 None [])).
  intros q page Hq. apply (map_Forall_lookup_1 (λ _ p, has_live_slot p) sample_tree q page); [|exact Hq].
  refine (bool_decide_eq_true_1 _ _). vm_compute. reflexivity.
Defined.
