(* ===== verification/OrderedBuild.v ===== *)
(** The ordered tree, bulk construction: src/src/okto_grafx/domain/index/ordered_tree.py,
    [_append_packed_pages] and [build_ordered_tree].

    A packing keeps the page being filled apart from the finished ones, which the source keeps as
    the last element of one list.  [built] says what a page filled by insertions looks like and
    [packed] what a greedy packing is; both are shared with the copy-on-write mutation. *)

From S2P Require Import Prelude Ids Layout Slotted IndexEntry OrderedKeys OrderedTree.

Definition new_page (t : PageType) (page_size page_index page_lsn : Z) : result Page.t :=
  Page.make (page_type_value t) page_size page_index page_lsn 0 0 NO_PAGE.

Definition next_page_index (start_page : Z) (pages : list Page.t) : result Z :=
  let page_index := start_page + zlen pages in
  if NO_PAGE <=? page_index then raise GrafxIndexError "page_index" else Ok page_index.

(** ** Greedy packing *)

Record Packing := MkPacking {
  pk_pages : list Page.t;
  pk_current : option Page.t;
  pk_first : option ident;
  pk_last : option ident;
  pk_count : Z;
  pk_summaries : list Subtree
}.

Definition publish (st : Packing) : Packing :=
  match pk_current st, pk_first st, pk_last st with
  | Some current, Some first, Some final =>
      MkPacking (pk_pages st ++ [current]) None None None 0
        (pk_summaries st ++ [MkSubtree (Page.page_index current) first final (pk_count st)])
  | _, _, _ => st
  end.

Definition pack_step (t : PageType) (page_size start_page page_lsn : Z) (st : Packing)
    (item : bytes * ident) : result Packing :=
  let '(payload, identity) := item in
  current ← match pk_current st with
            | Some current => Ok current
            | None => i ← next_page_index start_page (pk_pages st); new_page t page_size i page_lsn
            end;
  let st := MkPacking (pk_pages st) (Some current) (pk_first st) (pk_last st) (pk_count st) (pk_summaries st) in
  '(current, st) ←
    if negb (Page.can_fit current (zlen payload)) then
      if Page.slot_count current =? 0 then raise GrafxIndexError "page_size"
      else
        let st := publish st in
        i ← next_page_index start_page (pk_pages st);
        current ← new_page t page_size i page_lsn;
        if negb (Page.can_fit current (zlen payload)) then raise GrafxIndexError "page_size"
        else Ok (current, st)
    else Ok (current, st);
  '(_, current) ← Page.insert_slot current payload;
  Ok (MkPacking (pk_pages st) (Some current) (Some (default identity (pk_first st))) (Some identity)
        (pk_count st + 1) (pk_summaries st)).

(** The payloads come from a generator: each is computed when its turn comes. *)
Fixpoint pack_items {A} (item : A → result (bytes * ident)) (t : PageType)
    (page_size start_page page_lsn : Z) (st : Packing) (l : list A) : result Packing :=
  match l with
  | [] => Ok st
  | a :: l =>
      x ← item a;
      st ← pack_step t page_size start_page page_lsn st x;
      pack_items item t page_size start_page page_lsn st l
  end.

Definition finish (st : Packing) : list Subtree * list Page.t :=
  let st := publish st in (pk_summaries st, pk_pages st ++ option_to_list (pk_current st)).

Definition append_packed_pages {A} (item : A → result (bytes * ident)) (l : list A) (t : PageType)
    (page_size start_page page_lsn : Z) (pages : list Page.t) : result (list Subtree * list Page.t) :=
  st ← pack_items item t page_size start_page page_lsn (MkPacking pages None None None 0 []) l;
  Ok (finish st).

(** ** The bulk build *)

Record OrderedTreeBuild := MkBuild {
  b_root_page : Z;
  b_height : Z;
  b_entry_count : Z;
  b_pages : list Page.t
}.

Definition page_map (pages : list Page.t) : gmap Z Page.t :=
  list_to_map ((λ p, (Page.page_index p, p)) <$> pages).

Definition leaf_item (e : IndexEntry.t) : result (bytes * ident) :=
  raw ← IndexEntry.encode e; identity ← identity_of_entry e; Ok (raw, identity).

Definition pointer_item (page : Z) (maximum : ident) : result (bytes * ident) :=
  ref ← RecordRef.decode maximum.2;
  pointer ← ChildPointer.make maximum.1 ref page;
  raw ← ChildPointer.encode pointer;
  identity ← ChildPointer.high_identity pointer;
  Ok (raw, identity).

Definition check_build_entry (e : IndexEntry.t) : result unit :=
  if IndexEntry.versioned e then raise GrafxIndexError "versioned"
  else _ ← key_bytes (IndexEntry.key e) false; Ok ().

Definition keyed (e : IndexEntry.t) : result (ident * IndexEntry.t) :=
  identity ← identity_of_entry e; Ok (identity, e).

(** [sorted(..., key=...)]. *)
Definition key_le (a b : ident * IndexEntry.t) : Prop := ident_cmp a.1 b.1 ≠ Gt.
#[export] Instance key_le_dec a b : Decision (key_le a b).
Proof. unfold key_le. apply _. Defined.

Fixpoint has_duplicate (l : list (ident * IndexEntry.t)) : bool :=
  match l with
  | a :: l' => match l' with b :: _ => bool_decide (a.1 = b.1) || has_duplicate l' | [] => false end
  | [] => false
  end.

(** Internal summaries counted pointers: the children under each parent are taken in order. *)
Fixpoint regroup (parents level : list Subtree) : result (list Subtree) :=
  match parents with
  | [] => Ok []
  | parent :: parents =>
      let count := Z.to_nat (st_count parent) in
      let children := take count level in
      first ← py_get children 0;
      final ← py_last children;
      rest ← regroup parents (drop count level);
      Ok (MkSubtree (st_page parent) (minimum first) (maximum final) (sum_counts children) :: rest)
  end.

(** The loop over the levels.  Every round shortens the level or refuses, so the length of the first
    level is fuel enough ([build_levels_done]). *)
Fixpoint build_levels (fuel : nat) (page_size start_page page_lsn : Z) (level : list Subtree) (height : Z)
    (pages : list Page.t) : result (list Subtree * Z * list Page.t) :=
  match fuel with
  | O => Ok (level, height, pages)
  | S fuel =>
      if zlen level <=? 1 then Ok (level, height, pages)
      else
        '(next_level, pages) ←
          append_packed_pages (λ s, pointer_item (st_page s) (maximum s)) level INDEX_ORDERED_INTERNAL
            page_size start_page page_lsn pages;
        if zlen level <=? zlen next_level then raise GrafxIndexError "page_size"
        else
          level ← regroup next_level level;
          build_levels fuel page_size start_page page_lsn level (height + 1) pages
  end.

Definition build_ordered_tree (entries : list IndexEntry.t) (page_size start_page page_lsn : Z)
    : result OrderedTreeBuild :=
  _ ← validate_page_size page_size;
  if negb ((NO_LSN <=? page_lsn) && (page_lsn <? PROVISIONAL_CSN)) then raise GrafxIndexError "page_lsn"
  else if negb ((FIRST_ORDERED_TREE_PAGE <=? start_page) && (start_page <? NO_PAGE))
  then raise GrafxIndexError "start_page"
  else
    _ ← traverse check_build_entry entries;
    pairs ← traverse keyed entries;
    let ordered := merge_sort key_le pairs in
    if has_duplicate ordered then raise GrafxIndexError "entries"
    else if bool_decide (ordered = []) then Ok (MkBuild NO_PAGE 0 0 [])
    else
      '(level, pages) ← append_packed_pages leaf_item ordered.*2 INDEX_ORDERED_LEAF
                          page_size start_page page_lsn [];
      '(level, height, pages) ← build_levels (length level) page_size start_page page_lsn level 1 pages;
      root ← py_get level 0;
      Ok (MkBuild (st_page root) height (zlen ordered) pages).

(** ** What a filled page looks like *)

Definition payload_bytes (payloads : list bytes) : Z := foldr (λ x acc, zlen x + SLOT_ENTRY_SIZE + acc) 0 payloads.

Record built (t : PageType) (page_size page_index page_lsn : Z) (payloads : list bytes) (p : Page.t) : Prop := {
  built_wf : Page.wf p;
  built_size : Page.page_size p = page_size;
  built_type : Page.page_type p = page_type_value t;
  built_index : Page.page_index p = page_index;
  built_lsn : Page.page_lsn p = page_lsn;
  built_plain : Page.flags p = 0 ∧ Page.next_page p = NO_PAGE ∧ Page.reserved p = 0 ∧ Page.seq p = 0;
  built_contents : Page.contents p = Some <$> payloads;
  built_dense : Page.free_start p = PAGE_HEADER_SIZE + foldr (λ x acc, zlen x + acc) 0 payloads
}.

Lemma payload_bytes_app a b : payload_bytes (a ++ b) = payload_bytes a + payload_bytes b.
Proof. induction a as [|x a IH]; simpl; [done|]. rewrite IH. lia. Qed.

Lemma payload_bytes_sum payloads :
  payload_bytes payloads = foldr (λ x acc, zlen x + acc) 0 payloads + zlen payloads * SLOT_ENTRY_SIZE.
Proof. induction payloads as [|x l IH]; [done|]. simpl. rewrite IH, zlen_cons. unfold SLOT_ENTRY_SIZE. lia. Qed.

Lemma built_slots t size i lsn payloads p : built t size i lsn payloads p → zlen (Page.slots p) = zlen payloads.
Proof.
  intros H. pose proof (built_contents _ _ _ _ _ _ H) as Hc. unfold zlen. f_equal.
  pose proof (f_equal length Hc) as Hl. unfold Page.contents in Hl. by rewrite !length_fmap in Hl.
Qed.

Lemma built_can_fit t size i lsn payloads p n : built t size i lsn payloads p →
  Page.can_fit p n = (payload_bytes payloads + n + SLOT_ENTRY_SIZE <=? size - PAGE_HEADER_SIZE).
Proof.
  intros H. unfold Page.can_fit, Page.free_space, Page.free_end. rewrite (built_slots _ _ _ _ _ _ H).
  rewrite (built_size _ _ _ _ _ _ H), (built_dense _ _ _ _ _ _ H), payload_bytes_sum.
  destruct (Z.leb_spec (n + SLOT_ENTRY_SIZE)
    (size - zlen payloads * SLOT_ENTRY_SIZE - (PAGE_HEADER_SIZE + foldr (λ x acc, zlen x + acc) 0 payloads)));
    destruct (Z.leb_spec (foldr (λ x acc, zlen x + acc) 0 payloads + zlen payloads * SLOT_ENTRY_SIZE + n + SLOT_ENTRY_SIZE)
    (size - PAGE_HEADER_SIZE)); lia.
Qed.

Lemma new_page_built t size i lsn p : new_page t size i lsn = Ok p → built t size i lsn [] p.
Proof.
  unfold new_page. intros H. pose proof (make_ok _ _ _ _ _ _ _ _ H) as (Hwf & Hc & _ & Hs).
  unfold Page.make in H. inv_ok H. repeat match goal with E : check_unsigned _ _ _ = Ok _ |- _ =>
    apply check_unsigned_Ok in E as [-> ?] end. injection H as <-. by split.
Qed.

Lemma new_page_Ok t size i lsn : validate_page_size size = Ok size → 0 <= i <= MAX_U32 → 0 <= lsn <= MAX_U64 →
  ∃ p, new_page t size i lsn = Ok p.
Proof.
  intros Hs Hi Hl. unfold new_page, Page.make. rewrite Hs. cbn [mbind result_bind].
  assert (∀ f v m, 0 <= v <= m → check_unsigned f v m = Ok v) as Hc by (intros; by apply check_unsigned_Ok).
  rewrite (Hc "page_index"%string i) by done. cbn [mbind result_bind].
  rewrite (Hc "page_type"%string) by (destruct t; by vm_compute). cbn [mbind result_bind].
  rewrite (Hc "flags"%string 0 MAX_U16) by (by vm_compute). cbn [mbind result_bind].
  rewrite (Hc "page_lsn"%string lsn) by done. cbn [mbind result_bind].
  rewrite (Hc "seq"%string 0 MAX_U32) by (by vm_compute). cbn [mbind result_bind].
  rewrite (Hc "next_page"%string NO_PAGE) by (by vm_compute). by eexists.
Qed.

Lemma insert_built t size i lsn payloads p x :
  built t size i lsn payloads p → Page.can_fit p (zlen x) = true →
  ∃ s p', Page.insert_slot p x = Ok (s, p') ∧ built t size i lsn (payloads ++ [x]) p'.
Proof.
  intros H Hfit. unfold Page.insert_slot. rewrite Hfit. cbn [negb]. unfold Page.can_fit in Hfit.
  destruct (place_new_ok p x (built_wf _ _ _ _ _ _ H)) as (Hwf & Hc & _ & Hs & _); [lia|].
  exists (Page.place_new p x).1, (Page.place_new p x).2. split; [by destruct (Page.place_new p x)|].
  destruct H as [_ Hsz Ht Hi Hl Hpl Hcon Hd]. split; try done.
  - by rewrite Hc, Hcon, fmap_app.
  - cbn. rewrite Hd. clear. revert x. induction payloads as [|y l IH]; intros x; simpl; [lia|]. specialize (IH x). lia.
Qed.

Lemma iter_slots_full p payloads : Page.contents p = Some <$> payloads →
  Page.iter_slots p = imap (λ i x, (Z.of_nat i, x)) payloads.
Proof.
  unfold Page.contents, Page.iter_slots. generalize (Page.data p) (Page.slots p). intros d l.
  assert (∀ k, Page.entry_content d <$> l = Some <$> payloads →
    omap (λ '(i, e), if decide (e = FREE_SLOT) then None else Some (Z.of_nat i, slice d e.1 (e.1 + e.2)))
      (imap (λ i e, ((k + i)%nat, e)) l) = imap (λ i x, (Z.of_nat (k + i), x)) payloads) as H.
  2:{ intros Hc. exact (H 0%nat Hc). }
  revert payloads. induction l as [|e l IH]; intros [|x payloads] k Hc; try done.
  rewrite !fmap_cons in Hc. injection Hc as He Hc. unfold Page.entry_content in He.
  cbn [imap]. case_decide as Hf; [done|]. injection He as <-. cbn [omap list_omap]. rewrite decide_False by done.
  f_equal. specialize (IH payloads (S k) Hc).
  etrans; [|etrans; [exact IH|]]; [f_equal|]; apply imap_ext; intros; simpl; by rewrite Nat.add_succ_r.
Qed.

Lemma built_iter t size i lsn payloads p : built t size i lsn payloads p →
  Page.iter_slots p = imap (λ i x, (Z.of_nat i, x)) payloads.
Proof. intros H. by apply iter_slots_full, H. Qed.

(** ** Greedy packings *)

Definition no_ident : ident := ([], 0).

(** Groups of items on consecutive pages, each as full as the next item allows. *)
Inductive packed (t : PageType) (size lsn : Z) : Z → list (list (bytes * ident)) → list Page.t → Prop :=
  | packed_nil next : packed t size lsn next [] []
  | packed_cons next g gs p ps :
      g ≠ [] → next < NO_PAGE → built t size next lsn g.*1 p →
      (∀ x g' gs', gs = (x :: g') :: gs' → Page.can_fit p (zlen x.1) = false) →
      packed t size lsn (next + 1) gs ps → packed t size lsn next (g :: gs) (p :: ps).

(** The first and the last identity and the number of items of each group, with its page. *)
Definition summary_of (next : Z) (g : list (bytes * ident)) : Subtree :=
  MkSubtree next (default no_ident (head g.*2)) (default no_ident (last g.*2)) (zlen g).
Definition summaries_of (next : Z) (groups : list (list (bytes * ident))) : list Subtree :=
  imap (λ i g, summary_of (next + Z.of_nat i) g) groups.

Lemma summaries_of_cons next g gs : summaries_of next (g :: gs) = summary_of next g :: summaries_of (next + 1) gs.
Proof.
  unfold summaries_of. cbn [imap]. f_equal; [f_equal; lia|]. apply imap_ext. intros. simpl. f_equal. lia.
Qed.

Lemma packed_length t size lsn next groups ps : packed t size lsn next groups ps → length ps = length groups.
Proof. induction 1; simpl; congruence. Qed.

Lemma next_page_index_Ok start pages i : next_page_index start pages = Ok i ↔ i = start + zlen pages ∧ i < NO_PAGE.
Proof.
  unfold next_page_index, raise. destruct (Z.leb_spec NO_PAGE (start + zlen pages)); [split; [done|lia]|].
  split; [intros [= <-]; split; [done|lia]|by intros [-> _]].
Qed.

(** The state of a packing: nothing open, or one page holding the items of [g]. *)
Record filling (t : PageType) (size start lsn : Z) (st : Packing) (g : list (bytes * ident)) : Prop := {
  fill_page : ∃ p, pk_current st = Some p ∧ built t size (start + zlen (pk_pages st)) lsn g.*1 p;
  fill_ne : g ≠ [];
  fill_first : pk_first st = head g.*2;
  fill_last : pk_last st = last g.*2;
  fill_count : pk_count st = zlen g;
  fill_bound : start + zlen (pk_pages st) < NO_PAGE
}.

Lemma slot_count_built t size i lsn payloads p : built t size i lsn payloads p →
  (Page.slot_count p =? 0) = bool_decide (payloads = []).
Proof.
  intros H. unfold Page.slot_count. rewrite (built_slots _ _ _ _ _ _ H). destruct payloads; [done|].
  rewrite zlen_cons. pose proof (zlen_nonneg payloads). rewrite bool_decide_false by done. lia.
Qed.

(** The three outcomes of a step: a first page, one more item on the open page, or the next page. *)
Lemma pack_step_open t size start lsn st x st' :
  pk_current st = None → pk_first st = None → pk_count st = 0 →
  pack_step t size start lsn st x = Ok st' →
  filling t size start lsn st' [x] ∧ pk_pages st' = pk_pages st ∧ pk_summaries st' = pk_summaries st.
Proof.
  intros Hc Hf Hn H. destruct x as [payload identity]. unfold pack_step in H. rewrite Hc, Hf, Hn in H.
  apply bind_Ok in H as (p & Hp & H). inv_ok Hp. apply next_page_index_Ok in E as [-> Hlt]. apply new_page_built in Hp as Hb.
  rewrite (slot_count_built _ _ _ _ _ _ Hb) in H. cbn [bool_decide] in H.
  destruct (Page.can_fit p (zlen payload)) eqn:Hfit; cbn [negb mbind result_bind] in H; [|done].
  destruct (insert_built _ _ _ _ _ _ _ Hb Hfit) as (s & p' & Hi & Hb'). rewrite Hi in H. cbn [mbind result_bind] in H.
  injection H as <-. split; [|done]. split; simpl; try done. by exists p'.
Qed.

Lemma pack_step_filling t size start lsn st g x st' :
  filling t size start lsn st g → pack_step t size start lsn st x = Ok st' →
  filling t size start lsn st' (g ++ [x]) ∧ pk_pages st' = pk_pages st ∧ pk_summaries st' = pk_summaries st ∨
  ∃ p, pk_current st = Some p ∧ Page.can_fit p (zlen x.1) = false ∧ filling t size start lsn st' [x] ∧
       pk_pages st' = pk_pages st ++ [p] ∧
       pk_summaries st' = pk_summaries st ++ [summary_of (start + zlen (pk_pages st)) g].
Proof.
  intros [(p & Hc & Hb) Hne Hf Hl Hn Hlt] H. destruct x as [payload identity]. unfold pack_step in H. rewrite Hc in H.
  cbn [mbind result_bind] in H. destruct (Page.can_fit p (zlen payload)) eqn:Hfit; cbn [negb mbind result_bind] in H.
  - left. destruct (insert_built _ _ _ _ _ _ _ Hb Hfit) as (s & p' & Hi & Hb'). rewrite Hi in H. cbn [mbind result_bind] in H.
    injection H as <-. split; [|done]. split; simpl; try done.
    + exists p'. by rewrite fmap_app.
    + by destruct g.
    + rewrite Hf. by destruct g.
    + rewrite fmap_app. symmetry. apply last_snoc.
    + rewrite Hn, zlen_app. done.
  - right. exists p. rewrite (slot_count_built _ _ _ _ _ _ Hb) in H.
    rewrite bool_decide_false in H by by destruct g. unfold publish in H.
    cbn [pk_current pk_first pk_last pk_pages pk_summaries pk_count] in H. rewrite Hf, Hl, Hn in H.
    assert (∃ a, head g.*2 = Some a) as [a Ha] by (destruct g; [done|by eexists]).
    assert (∃ b, last g.*2 = Some b) as [b Hb2] by (apply last_is_Some; by destruct g).
    rewrite Ha, Hb2 in H. cbn [pk_current pk_first pk_last pk_pages pk_summaries pk_count] in H.
    apply bind_Ok in H as ([p' st1] & H1 & H). inv_ok H1. apply next_page_index_Ok in E as [-> Hlt'].
    apply new_page_built in E0 as Hb'. destruct (Page.can_fit x0 (zlen payload)) eqn:Hfit'; [|done]. injection H1 as <- <-.
    destruct (insert_built _ _ _ _ _ _ _ Hb' Hfit') as (s & p2 & Hi & Hb''). rewrite Hi in H. cbn [mbind result_bind] in H.
    injection H as <-. split_and!; [done|done| |done|].
    + split; simpl; try done. by exists p2.
    + simpl. unfold summary_of. by rewrite Ha, Hb2, (built_index _ _ _ _ _ _ Hb).
Qed.

Lemma finish_filling t size start lsn st g : filling t size start lsn st g →
  ∃ p, packed t size lsn (start + zlen (pk_pages st)) [g] [p] ∧
    finish st = (pk_summaries st ++ summaries_of (start + zlen (pk_pages st)) [g], pk_pages st ++ [p]).
Proof.
  intros [(p & Hc & Hb) Hne Hf Hl Hn Hlt]. exists p. split.
  - constructor; [done|done|done|done|constructor].
  - unfold finish, publish. rewrite Hc, Hf, Hl.
    assert (∃ a, head g.*2 = Some a) as [a Ha] by (destruct g; [done|by eexists]).
    assert (∃ b, last g.*2 = Some b) as [b Hb2] by (apply last_is_Some; by destruct g).
    rewrite Ha, Hb2. cbn [pk_summaries pk_pages pk_current option_to_list]. rewrite app_nil_r.
    rewrite summaries_of_cons. unfold summary_of. by rewrite Ha, Hb2, Hn, (built_index _ _ _ _ _ _ Hb).
Qed.

Lemma pack_items_filling {A} (item : A → result (bytes * ident)) t size start lsn l st g st' :
  filling t size start lsn st g → pack_items item t size start lsn st l = Ok st' →
  ∃ items groups new, traverse item l = Ok items ∧ concat groups = g ++ items ∧
    packed t size lsn (start + zlen (pk_pages st)) groups new ∧
    finish st' = (pk_summaries st ++ summaries_of (start + zlen (pk_pages st)) groups, pk_pages st ++ new) ∧
    ∃ g1 gs, groups = (g ++ g1) :: gs.
Proof.
  revert st g. induction l as [|a l IH]; intros st g Hfill H; cbn [pack_items] in H.
  { injection H as <-. destruct (finish_filling _ _ _ _ _ _ Hfill) as (p & Hp & Hfin). exists [], [g], [p].
    split_and!; [done| |done|done|exists [], []; by rewrite app_nil_r]. simpl. by rewrite !app_nil_r. }
  inv_ok H. destruct (pack_step_filling _ _ _ _ _ _ _ _ Hfill E0) as [(Hf & Hp & Hs)|(p & Hc & Hfit & Hf & Hp & Hs)].
  - destruct (IH _ _ Hf H) as (items & groups & new & Ht & Hg & Hpk & Hfin & g1 & gs & Hgs). rewrite Hp in *. rewrite Hs in *.
    exists (x :: items), groups, new. split_and!; [|by rewrite Hg, <-app_assoc|done|done|].
    + simpl. rewrite E. simpl. by rewrite Ht.
    + exists ([x] ++ g1), gs. by rewrite app_assoc.
  - destruct (IH _ _ Hf H) as (items & groups & new & Ht & Hg & Hpk & Hfin & g1 & gs & Hgs). rewrite Hp, Hs in *.
    rewrite zlen_app in *. change (zlen [p]) with 1 in *. rewrite Z.add_assoc in *.
    exists (x :: items), (g :: groups), (p :: new). split_and!.
    + simpl. rewrite E. simpl. by rewrite Ht.
    + rewrite concat_cons, Hg. done.
    + destruct Hfill as [(p' & Hc' & Hb) Hne _ _ _ Hlt]. rewrite Hc in Hc'. injection Hc' as <-.
      constructor; [done..| |done]. intros y g' gs' Heq. rewrite Hgs in Heq. by injection Heq as <- <- <-.
    + rewrite Hfin, summaries_of_cons, <-!app_assoc. done.
    + exists [], groups. by rewrite app_nil_r.
Qed.

Lemma pack_items_ends {A} (item : A → result (bytes * ident)) t size start lsn l st g st' :
  filling t size start lsn st g → pack_items item t size start lsn st l = Ok st' → ∃ g', filling t size start lsn st' g'.
Proof.
  revert st g. induction l as [|a l IH]; intros st g Hfill H; cbn [pack_items] in H; [injection H as <-; by exists g|].
  apply bind_Ok in H as (x & _ & H). apply bind_Ok in H as (st1 & Hs & H).
  destruct (pack_step_filling _ _ _ _ _ _ _ _ Hfill Hs) as [(Hf & _)|(p & _ & _ & Hf & _)]; by eapply IH.
Qed.

Lemma append_packed_pages_ok {A} (item : A → result (bytes * ident)) l t size start lsn pages sums pages' :
  append_packed_pages item l t size start lsn pages = Ok (sums, pages') →
  ∃ items groups new, traverse item l = Ok items ∧ concat groups = items ∧
    packed t size lsn (start + zlen pages) groups new ∧ pages' = pages ++ new ∧
    sums = summaries_of (start + zlen pages) groups.
Proof.
  unfold append_packed_pages. intros H. inv_ok H. destruct l as [|a l]; cbn [pack_items] in E.
  { injection E as <-. injection H as <- <-. exists [], [], []. split_and!; [done|done|constructor|done|done]. }
  inv_ok E. destruct (pack_step_open _ _ _ _ (MkPacking pages None None None 0 []) _ _ eq_refl eq_refl eq_refl E1) as (Hf & Hp & Hs).
  destruct (pack_items_filling _ _ _ _ _ _ _ _ _ Hf E) as (items & groups & new & Ht & Hg & Hpk & Hfin & _).
  rewrite Hp, Hs in *. cbn [pk_pages pk_summaries] in *. rewrite Hfin in H. injection H as <- <-.
  exists (x0 :: items), groups, new. split_and!; [|done..]. simpl. rewrite E0. simpl. by rewrite Ht.
Qed.

(** *** Packing succeeds, and shortens *)

Definition fits_page (size : Z) (x : bytes * ident) : Prop := zlen x.1 + SLOT_ENTRY_SIZE <= size - PAGE_HEADER_SIZE.

(** Two such payloads fit one page. *)
Definition fits_twice (size : Z) (x : bytes * ident) : Prop := 2 * (zlen x.1 + SLOT_ENTRY_SIZE) <= size - PAGE_HEADER_SIZE.

Lemma fits_twice_fits size x : fits_twice size x → fits_page size x.
Proof. unfold fits_twice, fits_page, SLOT_ENTRY_SIZE. pose proof (zlen_nonneg x.1). lia. Qed.

Lemma open_page_Ok t size start lsn pages x : validate_page_size size = Ok size → 0 <= lsn <= MAX_U64 → 0 <= start →
  start + zlen pages < NO_PAGE → fits_page size x →
  ∃ p s p', next_page_index start pages = Ok (start + zlen pages) ∧ new_page t size (start + zlen pages) lsn = Ok p ∧
    Page.can_fit p (zlen x.1) = true ∧ Page.insert_slot p x.1 = Ok (s, p').
Proof.
  intros Hs Hl Hst Hlt Hfit. pose proof (zlen_nonneg pages).
  destruct (new_page_Ok t size (start + zlen pages) lsn) as [p Hp]; [done|unfold MAX_U32, NO_PAGE in *; lia|done|].
  pose proof (new_page_built _ _ _ _ _ Hp) as Hb.
  assert (Page.can_fit p (zlen x.1) = true) as Hc.
  { rewrite (built_can_fit _ _ _ _ _ _ _ Hb). simpl. unfold fits_page in Hfit. lia. }
  destruct (insert_built _ _ _ _ _ _ _ Hb Hc) as (s & p' & Hi & _). exists p, s, p'.
  split; [by apply next_page_index_Ok|done].
Qed.

Lemma pack_items_succeeds {A} (item : A → result (bytes * ident)) t size start lsn l items st g :
  validate_page_size size = Ok size → 0 <= lsn <= MAX_U64 → 0 <= start →
  traverse item l = Ok items → Forall (fits_page size) items →
  filling t size start lsn st g → start + zlen (pk_pages st) + zlen l < NO_PAGE →
  ∃ st', pack_items item t size start lsn st l = Ok st'.
Proof.
  intros Hs Hl Hst. revert items st g. induction l as [|a l IH]; intros items st g Ht Hf Hfill Hlt; cbn [pack_items]; [by eexists|].
  simpl in Ht. inv_ok Ht. injection Ht as <-. rewrite E. cbn [mbind result_bind]. apply Forall_cons in Hf as [Hx Hf].
  rewrite zlen_cons in Hlt. pose proof (zlen_nonneg l).
  assert (∃ st1, pack_step t size start lsn st x = Ok st1) as [st1 H1].
  { destruct Hfill as [(p & Hc & Hb) Hne Hfi Hla Hn Hlt']. destruct x as [payload identity]. unfold pack_step.
    rewrite Hc. cbn [mbind result_bind]. destruct (Page.can_fit p (zlen payload)) eqn:Hfit; cbn [negb].
    - destruct (insert_built _ _ _ _ _ _ _ Hb Hfit) as (s & p' & Hi & _). cbn [mbind result_bind]. rewrite Hi. by eexists.
    - rewrite (slot_count_built _ _ _ _ _ _ Hb), bool_decide_false by by destruct g.
      unfold publish. cbn [pk_current pk_first pk_last pk_pages]. rewrite Hfi, Hla.
      assert (∃ c, head g.*2 = Some c) as [c Hc2] by (destruct g; [done|by eexists]).
      assert (∃ b, last g.*2 = Some b) as [b Hb2] by (apply last_is_Some; by destruct g).
      rewrite Hc2, Hb2. cbn [pk_current pk_first pk_last pk_pages].
      destruct (open_page_Ok t size start lsn (pk_pages st ++ [p]) (payload, identity)) as (p1 & s & p2 & Hn1 & Hn2 & Hn3 & Hn4);
        [done..|rewrite zlen_app; change (zlen [p]) with 1; lia|done|].
      rewrite Hn1. cbn [mbind result_bind]. rewrite Hn2. cbn [mbind result_bind]. cbn [fst] in *. rewrite Hn3. cbn [negb mbind result_bind].
      rewrite Hn4. by eexists. }
  rewrite H1. cbn [mbind result_bind].
  destruct (pack_step_filling _ _ _ _ _ _ _ _ Hfill H1) as [(Hf1 & Hp & _)|(p & _ & _ & Hf1 & Hp & _)];
    eapply (IH _ _ _ E0 Hf Hf1); rewrite Hp, ?zlen_app; [lia|change (zlen [p]) with 1; lia].
Qed.

Lemma append_packed_pages_succeeds {A} (item : A → result (bytes * ident)) t size start lsn l items pages :
  validate_page_size size = Ok size → 0 <= lsn <= MAX_U64 → 0 <= start →
  traverse item l = Ok items → Forall (fits_page size) items → start + zlen pages + zlen l <= NO_PAGE →
  ∃ r, append_packed_pages item l t size start lsn pages = Ok r.
Proof.
  intros Hs Hl Hst Ht Hf Hlt. unfold append_packed_pages. destruct l as [|a l]; [by eexists|].
  cbn [pack_items]. simpl in Ht. inv_ok Ht. injection Ht as <-. rewrite E. cbn [mbind result_bind].
  apply Forall_cons in Hf as [Hx Hf]. rewrite zlen_cons in Hlt. pose proof (zlen_nonneg l).
  destruct (open_page_Ok t size start lsn pages x) as (p1 & s & p2 & Hn1 & Hn2 & Hn3 & Hn4); [done..|lia|done|].
  assert (∃ st1, pack_step t size start lsn (MkPacking pages None None None 0 []) x = Ok st1) as [st1 H1].
  { destruct x as [payload identity]. unfold pack_step. cbn [pk_current pk_pages]. rewrite Hn1. cbn [mbind result_bind].
    rewrite Hn2. cbn [mbind result_bind fst] in *. rewrite Hn3. cbn [negb mbind result_bind]. rewrite Hn4. by eexists. }
  rewrite H1. cbn [mbind result_bind].
  destruct (pack_step_open _ _ _ _ (MkPacking pages None None None 0 []) _ _ eq_refl eq_refl eq_refl H1) as (Hf1 & Hp & _).
  destruct (pack_items_succeeds item t size start lsn l x0 st1 [x]) as [st' Hst']; [done..|rewrite Hp; cbn [pk_pages]; lia|].
  rewrite Hst'. by eexists.
Qed.

Lemma packed_halves t size lsn next groups ps : packed t size lsn next groups ps →
  Forall (fits_twice size) (concat groups) → 2 * zlen groups <= zlen (concat groups) + 1.
Proof.
  induction 1 as [next|next g gs p ps Hne Hlt Hb Hnext Hpk IH]; intros Hf; [done|].
  rewrite concat_cons in *. apply Forall_app in Hf as [Hg Hgs]. specialize (IH Hgs).
  rewrite zlen_cons, zlen_app. pose proof (zlen_nonneg gs).
  destruct gs as [|[|x g'] gs]; [destruct g; [done|]; rewrite zlen_cons; pose proof (zlen_nonneg g); change (zlen (concat [])) with 0 in *; change (zlen []) with 0 in *; lia| |].
  { by inversion Hpk. }
  specialize (Hnext x g' gs eq_refl). rewrite (built_can_fit _ _ _ _ _ _ _ Hb) in Hnext.
  assert (2 <= zlen g); [|lia]. destruct g as [|y [|z g]]; [done| |rewrite !zlen_cons; pose proof (zlen_nonneg g); lia].
  exfalso. apply Forall_cons in Hg as [Hy _]. rewrite concat_cons in Hgs. cbn [app] in Hgs. apply Forall_cons in Hgs as [Hx _].
  unfold fits_twice in *. simpl in Hnext. lia.
Qed.

(** ** The pages of a packing, read back *)

Definition located (e : IndexEntry.t) (page slot : Z) : IndexEntry.t :=
  IndexEntry.Mk (IndexEntry.key e) (IndexEntry.ref e) (IndexEntry.versioned e) (IndexEntry.born_csn e)
    (IndexEntry.dead_csn e) page slot.

Lemma exact_located e p s : exact_entry e → exact_entry (located e p s).
Proof. intros (Hw & Hv & Hk). split; [by apply IndexEntryFacts.wf_located|done]. Qed.

Lemma exact_unlocated e : exact_entry e → exact_entry (IndexEntry.unlocated e).
Proof. apply exact_located. Qed.

Lemma leaf_entries_images pi prev es k : Forall exact_entry es →
  Sorted ident_lt (option_to_list prev ++ (eident <$> es)) →
  leaf_entries pi prev (imap (λ i x, (Z.of_nat (k + i), x)) (IndexEntryFacts.image <$> es))
  = Ok (imap (λ i e, located e pi (Z.of_nat (k + i))) es).
Proof.
  revert prev k. induction es as [|e es IH]; intros prev k Hf Hs; [done|].
  apply Forall_cons in Hf as [(Hwf & Hv & Hk) Hf]. rewrite fmap_cons. cbn [imap leaf_entries].
  rewrite IndexEntryFacts.decode_image by done. cbn [mbind result_bind].
  rewrite IndexEntryFacts.located_at_wf by by apply IndexEntryFacts.wf_located. cbn [mbind result_bind].
  cbn [IndexEntry.unlocated IndexEntry.versioned IndexEntry.key IndexEntry.ref]. rewrite Hv.
  rewrite (proj2 (key_bytes_Ok _ _ _)) by (split; [done|split; [done|apply Hwf]]). cbn [mbind result_bind].
  rewrite ordered_entry_identity_valid by apply Hwf. cbn [mbind result_bind].
  assert (regresses prev (ident_of (IndexEntry.key e) (IndexEntry.ref e)) = false) as ->.
  { apply regresses_false. intros p ->. simpl in Hs. apply Sorted_inv in Hs as [_ Hs]. by inversion Hs. }
  assert (Sorted ident_lt (option_to_list (Some (eident e)) ++ (eident <$> es))) as Hs'.
  { destruct prev; simpl in *; [by apply Sorted_inv in Hs as [Hs _]|done]. }
  specialize (IH (Some (eident e)) (S k) Hf Hs').
  assert (leaf_entries pi (Some (ident_of (IndexEntry.key e) (IndexEntry.ref e)))
    (imap ((λ i x, (Z.of_nat (k + i), x)) ∘ S) (IndexEntryFacts.image <$> es))
    = Ok (imap ((λ i e, located e pi (Z.of_nat (k + i))) ∘ S) es)) as ->.
  { etrans; [|etrans; [exact IH|]]; f_equal; apply imap_ext; intros; simpl; by rewrite Nat.add_succ_r. }
  cbn [mbind result_bind]. f_equal. f_equal. unfold located. by rewrite Hv, Nat.add_0_r.
Qed.

Lemma internal_pointers_images pi prev ch ps k : Forall (λ p, pointer_wf p ∧ ChildPointer.child_page p < pi) ps →
  Sorted ident_lt (option_to_list prev ++ (pident <$> ps)) →
  NoDup (ChildPointer.child_page <$> ps) → (∀ p, p ∈ ps → ChildPointer.child_page p ∉ ch) →
  internal_pointers pi prev ch (imap (λ i x, (Z.of_nat (k + i), x)) (pointer_image <$> ps)) = Ok ps.
Proof.
  revert prev ch k. induction ps as [|p ps IH]; intros prev ch k Hf Hs Hnd Hch; [done|].
  apply Forall_cons in Hf as [[Hwf Hlt] Hf]. rewrite fmap_cons. rewrite fmap_cons in Hnd. apply NoDup_cons in Hnd as [Hn Hnd].
  cbn [imap internal_pointers]. rewrite pointer_decode_image by done. cbn [mbind result_bind].
  rewrite (proj2 (Z.leb_gt _ _)) by done. unfold ChildPointer.high_identity.
  rewrite ordered_entry_identity_valid by apply Hwf. cbn [mbind result_bind].
  assert (regresses prev (ident_of (ChildPointer.high_key p) (ChildPointer.high_ref p)) = false) as ->.
  { apply regresses_false. intros q ->. simpl in Hs. apply Sorted_inv in Hs as [_ Hs]. by inversion Hs. }
  rewrite bool_decide_false by (apply Hch; by left).
  assert (Sorted ident_lt (option_to_list (Some (pident p)) ++ (pident <$> ps))) as Hs'.
  { destruct prev; simpl in *; [by apply Sorted_inv in Hs as [Hs _]|done]. }
  assert (internal_pointers pi (Some (ident_of (ChildPointer.high_key p) (ChildPointer.high_ref p)))
    ({[ChildPointer.child_page p]} ∪ ch) (imap ((λ i x, (Z.of_nat (k + i), x)) ∘ S) (pointer_image <$> ps)) = Ok ps) as ->; [|done].
  etrans; [|apply (IH (Some (pident p)) ({[ChildPointer.child_page p]} ∪ ch) (S k) Hf Hs' Hnd)].
  - f_equal. apply imap_ext. intros. simpl. by rewrite Nat.add_succ_r.
  - intros q Hq. rewrite elem_of_union, elem_of_singleton. intros [Heq|Hin].
    + apply Hn. rewrite list_elem_of_fmap. by exists q.
    + by apply (Hch q); [right|].
Qed.

Lemma built_shape t size i lsn payloads p : built t size i lsn payloads p → payloads ≠ [] →
  validate_page_shape p t = Ok ().
Proof.
  intros H Hne. unfold validate_page_shape. rewrite (slot_count_built _ _ _ _ _ _ H), bool_decide_false by done.
  destruct H as [_ _ -> _ _ (Hf & Hn & Hr & Hs) _ _]. rewrite Z.eqb_refl. cbn [negb].
  unfold Page.header. cbn [PageHeader.reserved]. rewrite Hf, Hn, Hr, Hs. done.
Qed.

Lemma decode_built_leaf size i lsn es p : built INDEX_ORDERED_LEAF size i lsn (IndexEntryFacts.image <$> es) p →
  es ≠ [] → Forall exact_entry es → ordered_idents es →
  decode_ordered_leaf p = Ok (imap (λ s e, located e i (Z.of_nat s)) es).
Proof.
  intros H Hne Hex Hs. unfold decode_ordered_leaf. rewrite (built_shape _ _ _ _ _ _ H) by by destruct es.
  cbn [mbind result_bind]. rewrite (built_iter _ _ _ _ _ _ H), (built_index _ _ _ _ _ _ H).
  apply (leaf_entries_images i None es 0 Hex). by apply StronglySorted_Sorted.
Qed.

Lemma decode_built_internal size i lsn ps p : built INDEX_ORDERED_INTERNAL size i lsn (pointer_image <$> ps) p →
  ps ≠ [] → Forall (λ q, pointer_wf q ∧ ChildPointer.child_page q < i) ps → StronglySorted ident_lt (pident <$> ps) →
  NoDup (ChildPointer.child_page <$> ps) → decode_ordered_internal p = Ok ps.
Proof.
  intros H Hne Hf Hs Hnd. unfold decode_ordered_internal. rewrite (built_shape _ _ _ _ _ _ H) by by destruct ps.
  cbn [mbind result_bind]. rewrite (built_iter _ _ _ _ _ _ H), (built_index _ _ _ _ _ _ H).
  apply (internal_pointers_images i None ∅ ps 0 Hf); [by apply StronglySorted_Sorted|done|set_solver].
Qed.

(** ** Forests

    A level under construction: pages with their greatest identities, and the entries under each. *)

Definition node : Type := Z * ident.

Definition forest (M : gmap Z Page.t) (d : nat) (nodes : list node) (pieces : list (list IndexEntry.t)) : Prop :=
  Forall2 (λ n piece, tree M d n.1 piece ∧ last (eident <$> piece) = Some n.2) nodes pieces.

(** The nodes of a packing that starts at page [next]. *)
Definition nodes_of (next : Z) (groups : list (list (bytes * ident))) : list node :=
  imap (λ i g, (next + Z.of_nat i, default no_ident (last g.*2))) groups.

Lemma nodes_of_cons next g gs : nodes_of next (g :: gs) = (next, default no_ident (last g.*2)) :: nodes_of (next + 1) gs.
Proof. unfold nodes_of. cbn [imap]. f_equal; [f_equal; lia|]. apply imap_ext. intros. simpl. f_equal. lia. Qed.

Definition holds (M : gmap Z Page.t) (next : Z) (ps : list Page.t) : Prop :=
  ∀ i p, ps !! i = Some p → M !! (next + Z.of_nat i) = Some p.

Lemma holds_cons M next p ps : holds M next (p :: ps) → M !! next = Some p ∧ holds M (next + 1) ps.
Proof.
  intros H. split; [rewrite <-(Z.add_0_r next); by apply (H 0%nat)|]. intros i q Hq.
  replace (next + 1 + Z.of_nat i) with (next + Z.of_nat (S i)) by lia. by apply (H (S i)).
Qed.

Definition same_entries (es es' : list IndexEntry.t) : Prop := IndexEntry.unlocated <$> es = IndexEntry.unlocated <$> es'.

Lemma same_entries_idents es es' : same_entries es es' → eident <$> es = eident <$> es'.
Proof.
  intros H. apply (f_equal (fmap eident)) in H. rewrite <-!list_fmap_compose in H. exact H.
Qed.

Lemma same_entries_located es (f : nat → Z) pg : same_entries (imap (λ s e, located e pg (f s)) es) es.
Proof.
  unfold same_entries. revert f. induction es as [|e es IH]; intros f; [done|]. cbn [imap fmap list_fmap]. f_equal.
  apply (IH (f ∘ S)).
Qed.

Lemma same_entries_ordered es es' : same_entries es es' → ordered_idents es' → ordered_idents es.
Proof. intros H. unfold ordered_idents. by rewrite (same_entries_idents _ _ H). Qed.

Lemma same_entries_app a a' b b' : same_entries a a' → same_entries b b' → same_entries (a ++ b) (a' ++ b').
Proof. unfold same_entries. rewrite !fmap_app. by intros -> ->. Qed.

Definition entry_item (e : IndexEntry.t) : bytes * ident := (IndexEntryFacts.image e, eident e).

(** The leaves of a packing of entries. *)
Lemma packed_leaves M size lsn next groups ps (pieces : list (list IndexEntry.t)) :
  packed INDEX_ORDERED_LEAF size lsn next groups ps → holds M next ps →
  groups = map (map entry_item) pieces →
  Forall exact_entry (concat pieces) → ordered_idents (concat pieces) →
  ∃ pieces', forest M 0 (nodes_of next groups) pieces' ∧ Forall2 same_entries pieces' pieces.
Proof.
  intros H. revert pieces. induction H as [next|next g gs p ps Hne Hlt Hb _ _ IH]; intros pieces Hm Hg Hex Hs.
  { destruct pieces; [|done]. exists []. split; [constructor|constructor]. }
  destruct pieces as [|piece pieces]; [done|]. cbn [map] in Hg. injection Hg as -> Hg. change (map entry_item piece) with (entry_item <$> piece) in *.
  rewrite concat_cons in *. apply Forall_app in Hex as [Hex1 Hex2]. apply ordered_idents_app in Hs as (Hs1 & Hs2 & _).
  apply holds_cons in Hm as [Hm1 Hm2]. destruct (IH pieces Hm2 Hg Hex2 Hs2) as (pieces' & Hf & Hsame).
  rewrite <-list_fmap_compose in Hb. change (fst ∘ _) with IndexEntryFacts.image in Hb.
  assert (piece ≠ []) as Hpne by by intros ->.
  pose proof (decode_built_leaf _ _ _ _ _ Hb Hpne Hex1 Hs1) as Hd.
  exists (imap (λ s e, located e next (Z.of_nat s)) piece :: pieces'). split.
  - rewrite nodes_of_cons. constructor; [|done]. cbn [fst snd]. split.
    + exists p. split_and!; [done|by apply Hb|done|]. by destruct piece.
    + rewrite (same_entries_idents _ _ (same_entries_located piece Z.of_nat next)).
      rewrite <-list_fmap_compose. change (snd ∘ _) with eident.
      assert (∃ x, last (eident <$> piece) = Some x) as [x ->] by (apply last_is_Some; by destruct piece). done.
  - constructor; [apply same_entries_located|done].
Qed.

(** *** Pointers over a forest *)

Lemma pointer_item_Ok n x : pointer_item n.1 n.2 = Ok x → ∃ p, pointer_wf p ∧ ChildPointer.child_page p = n.1 ∧
  pident p = n.2 ∧ x = (pointer_image p, n.2).
Proof.
  destruct n as [pg [k r]]. unfold pointer_item. cbn [fst snd]. intros H. inv_ok H. injection H as <-.
  apply record_ref_decode_inv in E as [Hv ->]. unfold ChildPointer.make in E0. apply pointer_post_init_Ok in E0 as [-> Hwf].
  rewrite pointer_encode in E1 by done. injection E1 as <-. apply ordered_entry_identity_Ok in E2 as [_ ->].
  by eexists.
Qed.

Lemma traverse_pointer_items nodes items : traverse (λ n, pointer_item n.1 n.2) nodes = Ok items →
  ∃ ps, Forall pointer_wf ps ∧ nodes = (λ p, (ChildPointer.child_page p, pident p)) <$> ps ∧
        items = (λ p, (pointer_image p, pident p)) <$> ps.
Proof.
  intros H%traverse_Ok. induction H as [|n x nodes items Hx _ (ps & Hf & -> & ->)]; [by exists []|].
  destruct (pointer_item_Ok _ _ Hx) as (p & Hp & Hc & Hi & ->). exists (p :: ps). split_and!; [by constructor|..].
  - rewrite fmap_cons, Hc, Hi. by destruct n.
  - by rewrite fmap_cons, Hi.
Qed.

(** The pages of a forest are distinct: two nodes on one page would share its entries. *)
Lemma forest_nodup M d nodes pieces : forest M d nodes pieces → ordered_idents (concat pieces) → NoDup nodes.*1.
Proof.
  induction 1 as [|n piece nodes pieces [Ht Hl] Hf IH]; intros Hs; [constructor|]. rewrite concat_cons in Hs.
  pose proof (ordered_idents_app _ _ Hs) as (Hs1 & Hs2 & Hlt). rewrite fmap_cons. constructor; [|by apply IH].
  rewrite list_elem_of_fmap. intros (n' & Heq & Hin). apply list_elem_of_lookup in Hin as [i Hi].
  destruct (Forall2_lookup_l _ _ _ _ _ Hf Hi) as (piece' & Hp & Ht' & _). rewrite <-Heq in Ht'.
  destruct (tree_unique _ _ _ _ _ _ Ht Ht') as [_ <-]. destruct (tree_entries _ _ _ _ Ht) as [Hne _].
  destruct piece as [|e piece]; [done|]. apply (ident_lt_irrefl (eident e)), Hlt; [by left|].
  rewrite <-(take_drop_middle _ _ _ Hp), concat_app, concat_cons. rewrite !elem_of_app. right; left. by left.
Qed.

Lemma forest_sorted M d nodes pieces : forest M d nodes pieces → ordered_idents (concat pieces) → StronglySorted ident_lt nodes.*2.
Proof.
  induction 1 as [|n piece nodes pieces [Ht Hl] Hf IH]; intros Hs; [constructor|]. rewrite concat_cons in Hs.
  pose proof (ordered_idents_app _ _ Hs) as (Hs1 & Hs2 & Hlt). rewrite fmap_cons. constructor; [by apply IH|].
  apply Forall_forall. intros m (n' & -> & Hin)%list_elem_of_fmap. apply list_elem_of_lookup in Hin as [i Hi].
  destruct (Forall2_lookup_l _ _ _ _ _ Hf Hi) as (piece' & Hp & _ & Hl').
  apply last_Some in Hl as [l Hl]. apply last_Some in Hl' as [l' Hl'].
  assert (n.2 ∈ eident <$> piece) as (e & -> & He)%list_elem_of_fmap by (rewrite Hl; apply elem_of_app; right; by left).
  assert (n'.2 ∈ eident <$> piece') as (e' & -> & He')%list_elem_of_fmap by (rewrite Hl'; apply elem_of_app; right; by left).
  apply Hlt; [done|]. rewrite <-(take_drop_middle _ _ _ Hp), concat_app, concat_cons. rewrite !elem_of_app. tauto.
Qed.

Lemma Forall2_concat_split {A B} (R : A → B → Prop) (ls : list (list A)) (k : list B) : Forall2 R (concat ls) k →
  ∃ ks, k = concat ks ∧ Forall2 (Forall2 R) ls ks.
Proof.
  revert k. induction ls as [|l ls IH]; intros k H.
  { apply Forall2_nil_inv_l in H as ->. by exists []. }
  rewrite concat_cons in H. apply Forall2_app_inv_l in H as (k1 & k2 & H1 & H2 & ->).
  destruct (IH k2 H2) as (ks & -> & Hks). exists (k1 :: ks). split; [done|by constructor].
Qed.

(** The internal pages of a packing of pointers: one level up. *)
Lemma packed_internals M d size lsn next groups ps (nodegroups : list (list node)) pieces :
  packed INDEX_ORDERED_INTERNAL size lsn next groups ps → holds M next ps →
  traverse (λ n, pointer_item n.1 n.2) (concat nodegroups) = Ok (concat groups) →
  Forall2 (λ ng g, length ng = length g) nodegroups groups →
  forest M d (concat nodegroups) pieces → ordered_idents (concat pieces) →
  Forall (λ n, n.1 < next) (concat nodegroups) →
  ∃ piecegroups, pieces = concat piecegroups ∧ Forall2 (forest M d) nodegroups piecegroups ∧
    forest M (S d) (nodes_of next groups) (concat (A:=IndexEntry.t) <$> piecegroups).
Proof.
  intros H. revert nodegroups pieces. induction H as [next|next g gs p ps Hne Hlt Hb _ _ IH];
    intros nodegroups pieces Hm Ht Hlen Hf Hs Hlow.
  { apply Forall2_nil_inv_r in Hlen as ->. apply Forall2_nil_inv_l in Hf as ->. exists []. split_and!; constructor. }
  apply Forall2_cons_inv_r in Hlen as (ng & nodegroups' & Hl & Hlen & ->). rewrite !concat_cons in *.
  apply traverse_Ok in Ht. apply Forall2_app_inv in Ht as [Ht1 Ht2]; [|done].
  apply traverse_Ok in Ht1, Ht2. apply Forall2_app_inv_l in Hf as (piece & pieces' & Hf1 & Hf2 & ->).
  rewrite concat_app in Hs. apply ordered_idents_app in Hs as (Hs1 & Hs2 & _). apply Forall_app in Hlow as [Hlow1 Hlow2].
  apply holds_cons in Hm as [Hm1 Hm2].
  destruct (IH nodegroups' pieces' Hm2 Ht2 Hlen Hf2 Hs2) as (pgs & -> & Hpgs & Hfor).
  { eapply Forall_impl; [exact Hlow2|]. intros. simpl in *. lia. }
  exists (piece :: pgs). split_and!; [done|by constructor|]. rewrite nodes_of_cons, fmap_cons. constructor; [|done].
  destruct (traverse_pointer_items _ _ Ht1) as (ptrs & Hwf & -> & ->). cbn [fst snd].
  rewrite <-!list_fmap_compose in Hb. change (fst ∘ _) with pointer_image in Hb.
  rewrite <-list_fmap_compose. change (snd ∘ _) with pident.
  assert (ptrs ≠ []) as Hpne by by intros ->.
  pose proof (forest_nodup _ _ _ _ Hf1 Hs1) as Hnd. pose proof (forest_sorted _ _ _ _ Hf1 Hs1) as Hsort.
  rewrite <-list_fmap_compose in Hnd, Hsort. rewrite Forall_fmap in Hlow1.
  unfold forest in Hf1. rewrite Forall2_fmap_l in Hf1. split.
  - exists p. split_and!; [done|by apply Hb|]. exists ptrs, piece. split_and!; [|done|done|exact Hf1].
    apply (decode_built_internal _ _ _ _ _ Hb Hpne); [|exact Hsort|exact Hnd].
    apply Forall_and. split; [done|exact Hlow1].
  - assert (∃ q, last ptrs = Some q) as [q Hq] by by apply last_is_Some.
    rewrite (fmap_last pident), Hq. simpl. destruct (Forall2_last _ _ _ _ Hf1 Hq) as (pc & Hpc & _ & Hlast).
    by eapply last_concat.
Qed.

(** ** Stores of fresh pages *)

(** Pages numbered consecutively from [start], on top of the pages [old]. *)
Definition fresh (start : Z) (pages : list Page.t) : Prop :=
  ∀ i p, pages !! i = Some p → Page.page_index p = start + Z.of_nat i.

Definition store (old : gmap Z Page.t) (pages : list Page.t) : gmap Z Page.t := page_map pages ∪ old.

Lemma packed_fresh t size lsn next groups ps : packed t size lsn next groups ps → fresh next ps.
Proof.
  induction 1 as [next|next g gs p ps Hne Hlt Hb Hfit _ IH]; [by intros i p|].
  intros [|i] q; simpl; [intros [= <-]; rewrite (built_index _ _ _ _ _ _ Hb); lia|].
  intros Hq. rewrite (IH i q Hq). lia.
Qed.

Lemma fresh_app start ps qs : fresh start (ps ++ qs) ↔ fresh start ps ∧ fresh (start + zlen ps) qs.
Proof.
  unfold fresh, zlen. split.
  - intros H. split; intros i p Hp.
    + apply H. by apply lookup_app_l_Some.
    + rewrite (H (length ps + i)%nat p); [lia|]. rewrite lookup_app_r by lia. by rewrite Nat.add_comm, Nat.add_sub.
  - intros [H1 H2] i p [Hp|[Hle Hp]]%lookup_app_Some; [by apply H1|]. rewrite (H2 _ _ Hp). lia.
Qed.

Lemma fresh_keys start ps : fresh start ps → NoDup ((λ p, (Page.page_index p, p)) <$> ps).*1.
Proof.
  intros H. rewrite <-list_fmap_compose. apply NoDup_fmap_2_strong.
  2:{ apply NoDup_alt. intros i j p Hi Hj. apply H in Hi, Hj. simpl in *. lia. }
  intros p q Hp Hq Heq. apply list_elem_of_lookup in Hp as [i Hi], Hq as [j Hj].
  pose proof (H _ _ Hi). pose proof (H _ _ Hj). simpl in *. assert (i = j) as -> by lia. by simplify_eq.
Qed.

Lemma page_map_fresh start ps i p : fresh start ps → ps !! i = Some p → page_map ps !! (start + Z.of_nat i) = Some p.
Proof.
  intros H Hi. apply elem_of_list_to_map_1; [by apply (fresh_keys start)|]. apply list_elem_of_fmap.
  exists p. rewrite (H _ _ Hi). split; [done|]. by eapply list_elem_of_lookup_2.
Qed.

Lemma page_map_outside start ps q : fresh start ps → q < start ∨ start + zlen ps <= q → page_map ps !! q = None.
Proof.
  intros H Hq. apply not_elem_of_list_to_map_1. rewrite <-list_fmap_compose, list_elem_of_fmap.
  intros (p & -> & Hp). apply list_elem_of_lookup in Hp as [i Hi]. apply lookup_lt_Some in Hi as Hlt.
  unfold compose in Hq. cbn [fst] in Hq. rewrite (H _ _ Hi) in Hq. unfold zlen in Hq. lia.
Qed.

Lemma store_new old start ps qs : fresh start (ps ++ qs) → holds (store old (ps ++ qs)) (start + zlen ps) qs.
Proof.
  intros H i q Hq. unfold store. apply lookup_union_Some_l.
  replace (start + zlen ps + Z.of_nat i) with (start + Z.of_nat (length ps + i)) by (unfold zlen; lia).
  apply page_map_fresh; [done|]. rewrite lookup_app_r by lia. by rewrite Nat.add_comm, Nat.add_sub.
Qed.

Lemma store_kept old start ps qs q : fresh start (ps ++ qs) → q < start + zlen ps →
  store old (ps ++ qs) !! q = store old ps !! q.
Proof.
  intros H Hq. unfold store, page_map. rewrite fmap_app, list_to_map_app.
  apply fresh_app in H as [H1 H2]. pose proof (page_map_outside (start + zlen ps) qs q H2 ltac:(lia)) as Hn.
  unfold page_map in Hn. rewrite !lookup_union, Hn. by rewrite (right_id_L None (∪)).
Qed.

Lemma store_old old start ps q : fresh start ps → q < start → store old ps !! q = old !! q.
Proof. intros H Hq. unfold store. rewrite lookup_union, (page_map_outside start ps q H) by lia. by rewrite (left_id_L None (∪)). Qed.

(** Pages made for one publication: well formed, of one size, stamped with one LSN, numbered below
    the sentinel. *)
Definition stamped (size lsn : Z) (pages : list Page.t) : Prop :=
  Forall (λ p, Page.wf p ∧ Page.page_size p = size ∧ Page.page_lsn p = lsn ∧ Page.page_index p < NO_PAGE) pages.

Lemma packed_stamped t size lsn next groups ps : packed t size lsn next groups ps → stamped size lsn ps.
Proof. induction 1 as [|next g gs p ps _ Hlt Hb _ _ IH]; constructor; [|done]. destruct Hb. split_and!; [done..|lia]. Qed.

Lemma stamped_below size lsn start pages pg : fresh start pages → stamped size lsn pages →
  start <= pg < start + zlen pages → pg < NO_PAGE.
Proof.
  intros Hfr Hst Hpg. destruct (lookup_lt_is_Some_2 pages (Z.to_nat (pg - start))) as [p Hp]; [unfold zlen in *; lia|].
  pose proof (Hfr _ _ Hp) as Hi. unfold stamped in Hst. rewrite Forall_lookup in Hst.
  destruct (Hst _ _ Hp) as (_ & _ & _ & Hlt). lia.
Qed.

(** A tree depends only on pages that are not above its root. *)
Lemma tree_agree M M' d pg es : (∀ q, q <= pg → M' !! q = M !! q) → tree M d pg es → tree M' d pg es.
Proof.
  revert pg es. induction d as [|d IH]; intros pg es Hag Ht.
  - destruct Ht as (p & Hp & H). exists p. by rewrite Hag.
  - apply tree_internal in Ht as (p & ps & pieces & Hp & Hi & Hd & Hne & -> & _ & Hlow & _ & Hf).
    exists p. rewrite Hag by done. split_and!; [done..|]. exists ps, pieces. split_and!; [done..|].
    rewrite Forall_forall in Hlow. apply Forall2_same_length_lookup. split; [by eapply Forall2_length|].
    intros i q piece Hq Hpc. destruct (Forall2_lookup_lr _ _ _ _ _ _ Hf Hq Hpc) as [Ht Hc]. split; [|done].
    apply IH; [|done]. intros r Hr. apply Hag. specialize (Hlow q (list_elem_of_lookup_2 _ _ _ Hq)). lia.
Qed.

Lemma forest_agree M M' d nodes pieces next : (∀ q, q < next → M' !! q = M !! q) → Forall (λ n, n.1 < next) nodes →
  forest M d nodes pieces → forest M' d nodes pieces.
Proof.
  intros Hag Hlow Hf. rewrite Forall_forall in Hlow. apply Forall2_same_length_lookup. split; [by eapply Forall2_length|].
  intros i n piece Hn Hpc. destruct (Forall2_lookup_lr _ _ _ _ _ _ Hf Hn Hpc) as [Ht Hl]. split; [|done].
  eapply tree_agree; [|exact Ht]. intros q Hq. apply Hag. specialize (Hlow n (list_elem_of_lookup_2 _ _ _ Hn)). lia.
Qed.

Lemma nodes_of_low next groups : Forall (λ n, next <= n.1 < next + zlen groups) (nodes_of next groups).
Proof.
  apply Forall_lookup. intros i n Hn. unfold nodes_of in Hn. rewrite list_lookup_imap in Hn.
  destruct (groups !! i) eqn:E; [|done]. injection Hn as <-. apply lookup_lt_Some in E. unfold zlen. simpl. lia.
Qed.

(** ** The levels of the bulk build *)

Definition level_nodes (level : list Subtree) : list node := (λ s, (st_page s, maximum s)) <$> level.

Record level_ok (M : gmap Z Page.t) (d : nat) (level : list Subtree) (pieces : list (list IndexEntry.t)) : Prop := {
  level_forest : forest M d (level_nodes level) pieces;
  level_sums : Forall2 (λ s piece, summarises s (st_page s) piece) level pieces
}.

(** Splitting a list as a list of groups is split. *)
Lemma split_like {A B} (l : list A) (groups : list (list B)) : length l = length (concat groups) →
  ∃ lgs, l = concat lgs ∧ Forall2 (λ lg g, length lg = length g) lgs groups.
Proof.
  revert l. induction groups as [|g gs IH]; intros l Hl.
  { destruct l; [|done]. exists []. split; [done|constructor]. }
  rewrite concat_cons, length_app in Hl. destruct (IH (drop (length g) l)) as (lgs & Hd & Hf).
  { rewrite length_drop. lia. }
  exists (take (length g) l :: lgs). split; [by rewrite concat_cons, <-Hd, take_drop|].
  constructor; [rewrite length_take; lia|done].
Qed.

Lemma regroup_ok next groups lgs pgs rest :
  Forall2 (λ lg g, length lg = length g) lgs groups → Forall (λ lg, lg ≠ []) lgs →
  Forall2 (Forall2 (λ s piece, summarises s (st_page s) piece)) lgs pgs →
  ∃ rebuilt, regroup (summaries_of next groups) (concat lgs ++ rest) = Ok rebuilt ∧
    Forall2 (λ s pg, summarises s (st_page s) (concat pg)) rebuilt pgs ∧
    st_page <$> rebuilt = (nodes_of next groups).*1.
Proof.
  intros H. revert next pgs. induction H as [|lg g lgs groups Hl H IH]; intros next pgs Hne Hs.
  { apply Forall2_nil_inv_l in Hs as ->. exists []. split_and!; [done|constructor|done]. }
  apply Forall_cons in Hne as [Hne1 Hne]. apply Forall2_cons_inv_l in Hs as (pg & pgs' & Hs1 & Hs & ->).
  destruct (IH (next + 1) pgs' Hne Hs) as (rebuilt & Hr & Hsum & Hpages).
  rewrite summaries_of_cons, nodes_of_cons. cbn [regroup summary_of st_count st_page].
  replace (Z.to_nat (zlen g)) with (length lg) by (unfold zlen; lia).
  rewrite concat_cons, <-app_assoc, take_app_length, drop_app_length, Hr.
  assert (∃ a, head lg = Some a) as [a Ha] by (destruct lg; [done|by eexists]).
  assert (∃ b, last lg = Some b) as [b Hb] by by apply last_is_Some.
  rewrite (proj2 (py_get_Ok _ _ _)) by (by rewrite <-head_lookup). cbn [mbind result_bind].
  rewrite (proj2 (py_last_Ok _ _)) by done. cbn [mbind result_bind].
  eexists. split; [done|]. split; [|by rewrite !fmap_cons, Hpages].
  constructor; [|done]. cbn [st_page]. eapply summarises_children; [|done..].
  eapply Forall2_impl; [exact Hs1|]. intros s piece Hsp. by exists (st_page s).
Qed.

Lemma Forall2_flip_length {A B} (l : list (list A)) (k : list (list B)) :
  Forall2 (λ a b, length a = length b) l k → Forall (λ b, b ≠ []) k → Forall (λ a, a ≠ []) l.
Proof.
  induction 1 as [|a b l k Hab _ IH]; intros Hk; [constructor|]. apply Forall_cons in Hk as [Hb Hk].
  constructor; [|by apply IH]. intros ->. by destruct b.
Qed.

Lemma packed_nonempty t size lsn next groups ps : packed t size lsn next groups ps → Forall (λ g, g ≠ []) groups.
Proof. induction 1; constructor; done. Qed.

Lemma concat_map_split {A B} (f : A → B) l (groups : list (list B)) : concat groups = f <$> l →
  ∃ pieces, l = concat pieces ∧ groups = map (map f) pieces.
Proof.
  revert l. induction groups as [|g gs IH]; intros l H.
  { destruct l; [|done]. by exists []. }
  rewrite concat_cons in H. symmetry in H. apply fmap_app_inv in H as (l1 & l2 & -> & Hl2 & ->).
  destruct (IH l2 Hl2) as (pieces & -> & ->). by exists (l1 :: pieces).
Qed.

(** The regrouped summaries name the pages and the maxima of the packing. *)
Lemma rebuilt_nodes M d next groups rebuilt pgs :
  Forall2 (λ s pg, summarises s (st_page s) (concat pg)) rebuilt pgs →
  st_page <$> rebuilt = (nodes_of next groups).*1 →
  forest M d (nodes_of next groups) (concat (A:=IndexEntry.t) <$> pgs) →
  level_nodes rebuilt = nodes_of next groups.
Proof.
  intros Hsum Hpages Hup. generalize dependent (nodes_of next groups). intros nodes. revert nodes.
  induction Hsum as [|s pg rebuilt pgs Hs _ IH]; intros [|n nodes] Hpages Hup; try done.
  rewrite !fmap_cons in Hpages. injection Hpages as Hp Hpages. rewrite fmap_cons in Hup.
  apply Forall2_cons in Hup as [[_ Hlast] Hup]. unfold level_nodes. rewrite fmap_cons. f_equal; [|by apply IH].
  rewrite (sum_maximum _ _ _ Hs) in Hlast. injection Hlast as Hlast. destruct n as [a b]. simpl in *. by subst.
Qed.

(** Packing pointers to the nodes of a forest after the pages made so far: a forest one level up,
    with the same entries. *)
Lemma pack_pointers_ok old d size start lsn nodes pieces pages sums pages' :
  fresh start pages → forest (store old pages) d nodes pieces → ordered_idents (concat pieces) →
  Forall (λ n, n.1 < start + zlen pages) nodes →
  append_packed_pages (λ n, pointer_item n.1 n.2) nodes INDEX_ORDERED_INTERNAL size start lsn pages = Ok (sums, pages') →
  ∃ new groups nodegroups piecegroups, pages' = pages ++ new ∧ sums = summaries_of (start + zlen pages) groups ∧
    nodes = concat nodegroups ∧ pieces = concat piecegroups ∧
    Forall2 (λ ng g, length ng = length g) nodegroups groups ∧ Forall (λ g, g ≠ []) groups ∧
    Forall2 (forest (store old pages') d) nodegroups piecegroups ∧
    forest (store old pages') (S d) (nodes_of (start + zlen pages) groups) (concat (A:=IndexEntry.t) <$> piecegroups) ∧
    fresh start pages' ∧ stamped size lsn new ∧ length new = length groups.
Proof.
  intros Hfr Hfor Hs Hlow Ha.
  destruct (append_packed_pages_ok _ _ _ _ _ _ _ _ _ Ha) as (items & groups & new & Ht & Hg & Hpk & -> & ->).
  assert (fresh start (pages ++ new)) as Hfr' by (apply fresh_app; split; [done|by eapply packed_fresh]).
  assert (length nodes = length (concat groups)) as Hlen.
  { rewrite Hg. apply traverse_Ok in Ht. by eapply Forall2_length. }
  destruct (split_like nodes groups Hlen) as (ngs & -> & Hngs). rewrite <-Hg in Ht.
  pose proof (forest_agree _ (store old (pages ++ new)) _ _ _ _ (λ q Hq, store_kept old start pages new q Hfr' Hq) Hlow Hfor) as Hfor'.
  destruct (packed_internals (store old (pages ++ new)) d size lsn (start + zlen pages) groups new ngs pieces)
    as (pgs & -> & Hpgs & Hup); [done|by apply store_new|done..|].
  exists new, groups, ngs, pgs. split_and!; try done; [by eapply packed_nonempty|by eapply packed_stamped|by eapply packed_length].
Qed.

Lemma append_packed_map {A B} (f : A → B) item l t size start lsn pages :
  append_packed_pages (λ a, item (f a)) l t size start lsn pages = append_packed_pages item (f <$> l) t size start lsn pages.
Proof.
  unfold append_packed_pages. f_equal. generalize (MkPacking pages None None None 0 []).
  induction l as [|a l IH]; intros st; [done|]. rewrite fmap_cons. cbn [pack_items]. destruct (item (f a)); [|done].
  cbn [mbind result_bind]. destruct (pack_step _ _ _ _ _ _); [|done]. cbn [mbind result_bind]. apply IH.
Qed.

(** One round of [build_levels]. *)
Lemma build_round old d size start lsn level pieces pages next_level pages' :
  fresh start pages → level_ok (store old pages) d level pieces → ordered_idents (concat pieces) →
  Forall (λ n, start <= n.1 < start + zlen pages) (level_nodes level) →
  append_packed_pages (λ s, pointer_item (st_page s) (maximum s)) level INDEX_ORDERED_INTERNAL size start lsn pages
    = Ok (next_level, pages') →
  ∃ rebuilt pieces', regroup next_level level = Ok rebuilt ∧ concat pieces' = concat pieces ∧ fresh start pages' ∧
    level_ok (store old pages') (S d) rebuilt pieces' ∧
    Forall (λ n, start <= n.1 < start + zlen pages') (level_nodes rebuilt) ∧ length rebuilt = length next_level ∧
    (level ≠ [] → rebuilt ≠ []) ∧ (stamped size lsn pages → stamped size lsn pages').
Proof.
  intros Hfr [Hfor Hsums] Hs Hlow Ha.
  assert (Forall (λ n, n.1 < start + zlen pages) (level_nodes level)) as Hbelow.
  { eapply Forall_impl; [exact Hlow|]. intros n Hn. simpl in *. lia. }
  rewrite (append_packed_map (λ s, (st_page s, maximum s)) (λ n, pointer_item n.1 n.2)) in Ha.
  destruct (pack_pointers_ok _ _ _ _ _ _ _ _ _ _ Hfr Hfor Hs Hbelow Ha)
    as (new & groups & ngs & pgs & -> & -> & Hngs & -> & Hlens & Hgne & Hpgs & Hup & Hfr' & Hst & Hnew).
  symmetry in Hngs. destruct (concat_map_split (λ s, (st_page s, maximum s)) level ngs Hngs) as (lgs & -> & ->).
  change (map (map (λ s, (st_page s, maximum s))) lgs) with (level_nodes <$> lgs) in *.
  rewrite Forall2_fmap_l in Hpgs, Hlens.
  assert (Forall2 (λ lg g, length lg = length g) lgs groups) as Hlgs.
  { eapply Forall2_impl; [exact Hlens|]. intros lg g. unfold compose, level_nodes. by rewrite length_fmap. }
  assert (Forall2 (Forall2 (λ s piece, summarises s (st_page s) piece)) lgs pgs) as Hsums'.
  { destruct (Forall2_concat_split _ _ _ Hsums) as (ks & Hks & Hf). assert (ks = pgs) as ->; [|done].
    clear -Hks Hf Hpgs. revert pgs Hks Hpgs.
    induction Hf as [|lg k lgs ks Hlg Hf IH]; intros pgs Heq Hpgs; [by apply Forall2_nil_inv_l in Hpgs as ->|].
    apply Forall2_cons_inv_l in Hpgs as (pg & pgs' & Hpg & Hpgs & ->). rewrite !concat_cons in Heq.
    apply Forall2_length in Hpg as H1. unfold level_nodes in H1. rewrite length_fmap in H1. apply Forall2_length in Hlg as H2.
    apply app_inj_1 in Heq as [-> Heq]; [|lia]. f_equal. by apply IH. }
  destruct (regroup_ok (start + zlen pages) groups lgs pgs [] Hlgs) as (rebuilt & Hr & Hsum & Hpages); [|done|].
  { by eapply Forall2_flip_length. }
  rewrite app_nil_r in Hr. exists rebuilt, (concat (A:=IndexEntry.t) <$> pgs).
  pose proof (rebuilt_nodes _ _ _ _ _ _ Hsum Hpages Hup) as Hnodes.
  split_and!; [done| |done| | | | |].
  - clear. induction pgs as [|pg pgs IH]; [done|]. by rewrite fmap_cons, !concat_cons, IH, concat_app.
  - split; [by rewrite Hnodes|]. by apply Forall2_fmap_r.
  - rewrite Hnodes, zlen_app. eapply Forall_impl; [apply nodes_of_low|]. intros n Hn. simpl in *.
    unfold zlen in *. lia.
  - apply (f_equal length) in Hpages. rewrite !length_fmap in Hpages. rewrite Hpages. unfold nodes_of, summaries_of.
    by rewrite !length_imap.
  - intros Hne ->. destruct groups as [|g gs]; [|done]. apply Forall2_nil_inv_r in Hlgs as ->. done.
  - intros Hpst. by apply Forall_app.
Qed.

(** The rounds end with one subtree, which holds the entries of the first level. *)
Lemma build_levels_ok old size start lsn fuel level pages d pieces level' height' pages' :
  fresh start pages → stamped size lsn pages → level_ok (store old pages) d level pieces →
  ordered_idents (concat pieces) → Forall (λ n, start <= n.1 < start + zlen pages) (level_nodes level) →
  level ≠ [] → (length level <= fuel)%nat →
  build_levels fuel size start lsn level (Z.of_nat (S d)) pages = Ok (level', height', pages') →
  ∃ s d', level' = [s] ∧ height' = Z.of_nat (S d') ∧ fresh start pages' ∧ stamped size lsn pages' ∧
    start <= st_page s < start + zlen pages' ∧ tree (store old pages') d' (st_page s) (concat pieces).
Proof.
  revert level pages d pieces. induction fuel as [|fuel IH]; intros level pages d pieces Hfr Hst Hok Hs Hlow Hne Hfuel H.
  { destruct level; simpl in *; [done|lia]. }
  cbn [build_levels] in H. destruct (Z.leb_spec (zlen level) 1) as [Hone|Hmore].
  - injection H as <- <- <-. destruct level as [|s [|]]; [done| |unfold zlen in Hone; simpl in Hone; lia].
    apply Forall_cons in Hlow as [Hlow _]. cbn [fst] in Hlow. exists s, d. split_and!; [done..|lia|lia|].
    destruct Hok as [Hf _]. unfold level_nodes in Hf. apply Forall2_cons_inv_l in Hf as (piece & rest & [Ht _] & Hr & ->).
    apply Forall2_nil_inv_l in Hr as ->. by rewrite concat_cons, app_nil_r.
  - apply bind_Ok in H as ([next_level pages1] & Ha & H). destruct (Z.leb_spec (zlen level) (zlen next_level)); [done|].
    destruct (build_round _ _ _ _ _ _ _ _ _ _ Hfr Hok Hs Hlow Ha) as (rebuilt & pieces' & Hr & Hc & Hfr' & Hok' & Hlow' & Hlen & Hne' & Hst').
    rewrite Hr in H. cbn [mbind result_bind] in H. rewrite <-Hc. eapply IH; [done|by apply Hst'|done|by rewrite Hc|done|by apply Hne'|unfold zlen in *; lia|].
    by replace (Z.of_nat (S d) + 1) with (Z.of_nat (S (S d))) in H by lia.
Qed.

(** ** Enough room *)

(** Two entries with this key fit one leaf, and two pointers with it one internal page. *)
Definition roomy (size : Z) (e : IndexEntry.t) : Prop :=
  2 * (INDEX_ENTRY_HEADER_SIZE + zlen (IndexEntry.key e) + SLOT_ENTRY_SIZE) <= size - PAGE_HEADER_SIZE.

Lemma pointer_item_entry page e : exact_entry e → FIRST_ORDERED_TREE_PAGE <= page < NO_PAGE →
  ∃ p, pointer_wf p ∧ ChildPointer.high_key p = IndexEntry.key e ∧
       pointer_item page (eident e) = Ok (pointer_image p, eident e).
Proof.
  intros (Hwf & _ & Hk) Hp. exists (ChildPointer.Mk (IndexEntry.key e) (IndexEntry.ref e) page).
  assert (pointer_wf (ChildPointer.Mk (IndexEntry.key e) (IndexEntry.ref e) page)) as Hpwf.
  { split; simpl; [split; [done|apply Hwf]|apply Hwf|done]. }
  split; [done|]. split; [done|]. unfold pointer_item, eident, ident_of. cbn [fst snd].
  rewrite record_ref_decode_ok by apply Hwf. cbn [mbind result_bind].
  replace (RecordRef.Mk _ _) with (IndexEntry.ref e) by by destruct (IndexEntry.ref e).
  unfold ChildPointer.make. rewrite (proj2 (pointer_post_init_Ok _ _) (conj eq_refl Hpwf)). cbn [mbind result_bind].
  rewrite pointer_encode by done. cbn [mbind result_bind]. unfold ChildPointer.high_identity.
  by rewrite ordered_entry_identity_valid by apply Hwf.
Qed.

Lemma last_entry (piece : list IndexEntry.t) i : last (eident <$> piece) = Some i → ∃ e, e ∈ piece ∧ eident e = i.
Proof.
  rewrite (fmap_last eident). intros (e & He & ->)%fmap_Some. exists e. split; [|done].
  apply last_Some in He as [l ->]. set_solver.
Qed.

Lemma node_items_roomy size M d nodes pieces : forest M d nodes pieces →
  Forall (λ n, FIRST_ORDERED_TREE_PAGE <= n.1 < NO_PAGE) nodes →
  Forall exact_entry (concat pieces) → Forall (roomy size) (concat pieces) →
  ∃ items, traverse (λ n, pointer_item n.1 n.2) nodes = Ok items ∧ Forall (fits_twice size) items.
Proof.
  induction 1 as [|n piece nodes pieces [_ Hl] _ IH]; intros Hlow Hex Hro; [by exists []|].
  rewrite concat_cons in Hex, Hro. apply Forall_app in Hex as [Hex1 Hex2], Hro as [Hro1 Hro2].
  apply Forall_cons in Hlow as [Hl1 Hl2].
  destruct (IH Hl2 Hex2 Hro2) as (items & Ht & Hf). destruct (last_entry _ _ Hl) as (e & He & Hmax).
  rewrite Forall_forall in Hex1, Hro1. destruct (pointer_item_entry n.1 e (Hex1 e He) Hl1) as (p & Hp & Hk & Hi).
  simpl. rewrite <-Hmax, Hi. cbn [mbind result_bind]. rewrite Ht. eexists. split; [done|]. constructor; [|done].
  unfold fits_twice. cbn [fst]. rewrite zlen_pointer_image, Hk by done. specialize (Hro1 e He). unfold roomy in Hro1.
  change INDEX_ENTRY_HEADER_SIZE with 27 in Hro1. lia.
Qed.

Lemma zlen_summaries next groups : zlen (summaries_of next groups) = zlen groups.
Proof. unfold summaries_of, zlen. by rewrite length_imap. Qed.

Lemma zlen_traverse {A B} (f : A → result B) l k : traverse f l = Ok k → zlen k = zlen l.
Proof. intros H%traverse_Ok. unfold zlen. by rewrite (Forall2_length _ _ _ H). Qed.

(** With enough room a packing succeeds and halves what it packs, rounding up. *)
Lemma append_packed_pages_halves {A} (item : A → result (bytes * ident)) t size start lsn l items pages :
  validate_page_size size = Ok size → 0 <= lsn <= MAX_U64 → 0 <= start →
  traverse item l = Ok items → Forall (fits_twice size) items → start + zlen pages + zlen l <= NO_PAGE →
  ∃ sums pages', append_packed_pages item l t size start lsn pages = Ok (sums, pages') ∧
    2 * zlen sums <= zlen l + 1 ∧ zlen pages' = zlen pages + zlen sums.
Proof.
  intros Hs Hl Hst Ht Hf Hlt.
  destruct (append_packed_pages_succeeds item t size start lsn l items pages) as [[sums pages'] H]; [done..| |done|].
  { eapply Forall_impl; [exact Hf|]. intros. by apply fits_twice_fits. }
  exists sums, pages'. split; [done|].
  destruct (append_packed_pages_ok _ _ _ _ _ _ _ _ _ H) as (items' & groups & new & Ht' & Hg & Hpk & -> & ->).
  rewrite Ht in Ht'. injection Ht' as <-. rewrite zlen_summaries, zlen_app. pose proof (packed_length _ _ _ _ _ _ Hpk).
  rewrite <-Hg in Hf. pose proof (packed_halves _ _ _ _ _ _ Hpk Hf) as Hh. rewrite Hg, (zlen_traverse _ _ _ Ht) in Hh.
  unfold zlen in *. lia.
Qed.

Lemma zlen_level_nodes level : zlen level = zlen (level_nodes level).
Proof. unfold zlen, level_nodes. by rewrite length_fmap. Qed.

Lemma build_levels_succeeds old size start lsn fuel level pages d pieces height :
  validate_page_size size = Ok size → 0 <= lsn <= MAX_U64 → FIRST_ORDERED_TREE_PAGE <= start →
  fresh start pages → level_ok (store old pages) d level pieces → ordered_idents (concat pieces) →
  Forall exact_entry (concat pieces) → Forall (roomy size) (concat pieces) →
  Forall (λ n, start <= n.1 < start + zlen pages) (level_nodes level) → level ≠ [] →
  start + zlen pages + 2 * zlen level <= NO_PAGE →
  ∃ r, build_levels fuel size start lsn level height pages = Ok r.
Proof.
  intros Hs Hl Hst. revert level pages d pieces height.
  induction fuel as [|fuel IH]; intros level pages d pieces height Hfr Hok Hso Hex Hro Hlow Hne Hlt; [by eexists|].
  cbn [build_levels]. destruct (Z.leb_spec (zlen level) 1) as [|Hmore]; [by eexists|].
  change FIRST_ORDERED_TREE_PAGE with 3 in *.
  destruct (node_items_roomy size _ _ _ _ (level_forest _ _ _ _ Hok)) as (items & Ht & Hf); [|done..|].
  { eapply Forall_impl; [exact Hlow|]. intros n Hn. change FIRST_ORDERED_TREE_PAGE with 3. simpl in *. lia. }
  pose proof (zlen_level_nodes level) as Hln.
  destruct (append_packed_pages_halves _ INDEX_ORDERED_INTERNAL size start lsn (level_nodes level) items pages Hs Hl ltac:(lia) Ht Hf)
    as (sums & pages' & Ha & Hh & Hz); [lia|]. rewrite <-Hln in Hh. unfold level_nodes in Ha.
  rewrite <-(append_packed_map (λ s, (st_page s, maximum s)) (λ n, pointer_item n.1 n.2)) in Ha. cbn [fst snd] in Ha.
  rewrite Ha. cbn [mbind result_bind]. rewrite (proj2 (Z.leb_gt _ _)) by lia.
  destruct (build_round _ _ _ _ _ _ _ _ _ _ Hfr Hok Hso Hlow Ha) as (rebuilt & pieces' & Hr & Hc & Hfr' & Hok' & Hlow' & Hlen & Hne' & _).
  rewrite Hr. cbn [mbind result_bind]. assert (zlen rebuilt = zlen sums) as Hzr by (unfold zlen; lia).
  apply (IH rebuilt pages' (S d) pieces'); rewrite ?Hc; try done; [by apply Hne'|lia].
Qed.

(** ** The leaves *)

Lemma leaf_items l : Forall exact_entry l → traverse leaf_item l = Ok (entry_item <$> l).
Proof.
  intros H. apply traverse_Ok. apply Forall2_fmap_r. apply Forall_Forall2_diag. eapply Forall_impl; [exact H|].
  intros e (Hwf & _). unfold leaf_item. rewrite IndexEntryFacts.encode_wf by done. cbn [mbind result_bind].
  unfold identity_of_entry. by rewrite ordered_entry_identity_valid by apply Hwf.
Qed.

Lemma level_nodes_summaries next groups : level_nodes (summaries_of next groups) = nodes_of next groups.
Proof. unfold level_nodes, summaries_of. by rewrite fmap_imap. Qed.

Lemma leaf_summaries next (ps0 ps : list (list IndexEntry.t)) : Forall2 same_entries ps ps0 → Forall (λ p, p ≠ []) ps0 →
  Forall2 (λ s piece, summarises s (st_page s) piece) (summaries_of next (map (map entry_item) ps0)) ps.
Proof.
  intros H. revert next. induction H as [|p p0 ps ps0 Hp _ IH]; intros next Hne; [constructor|].
  apply Forall_cons in Hne as [Hne1 Hne]. cbn [map]. rewrite summaries_of_cons. constructor; [|by apply IH].
  pose proof (same_entries_idents _ _ Hp) as Hid. unfold summary_of. change (map entry_item p0) with (entry_item <$> p0).
  split; cbn [st_page minimum maximum st_count]; rewrite <-?list_fmap_compose; change (snd ∘ entry_item) with eident; rewrite ?Hid.
  - done.
  - by destruct p0.
  - assert (∃ i, last (eident <$> p0) = Some i) as [i ->]; [|done]. apply last_is_Some. by destruct p0.
  - unfold zlen. rewrite length_fmap. apply (f_equal length) in Hid. rewrite !length_fmap in Hid. lia.
Qed.

(** Packing ordered entries into leaves after the pages made so far. *)
Lemma pack_leaves_ok old size start lsn l sums pages pages' :
  fresh start pages → Forall exact_entry l → ordered_idents l →
  append_packed_pages leaf_item l INDEX_ORDERED_LEAF size start lsn pages = Ok (sums, pages') →
  ∃ new pieces, pages' = pages ++ new ∧ fresh start pages' ∧ stamped size lsn new ∧
    level_ok (store old pages') 0 sums pieces ∧ same_entries (concat pieces) l ∧
    Forall (λ n, start + zlen pages <= n.1 < start + zlen pages') (level_nodes sums) ∧ (l ≠ [] → sums ≠ []).
Proof.
  intros Hfr Hex Hs Ha.
  destruct (append_packed_pages_ok _ _ _ _ _ _ _ _ _ Ha) as (items & groups & new & Ht & Hg & Hpk & -> & ->).
  rewrite leaf_items in Ht by done. injection Ht as <-. destruct (concat_map_split _ _ _ Hg) as (ps0 & -> & Hgr).
  assert (fresh start (pages ++ new)) as Hfr' by (apply fresh_app; split; [done|by eapply packed_fresh]).
  destruct (packed_leaves (store old (pages ++ new)) _ _ _ _ _ ps0 Hpk) as (pieces & Hfor & Hsame);
    [by apply store_new|done..|].
  exists new, pieces. split_and!; [done|done|by eapply packed_stamped| | | |].
  - split; [by rewrite level_nodes_summaries|]. rewrite Hgr. apply leaf_summaries; [done|].
    pose proof (packed_nonempty _ _ _ _ _ _ Hpk) as Hne. rewrite Hgr in Hne.
    change (map (map entry_item) ps0) with (map entry_item <$> ps0) in Hne. rewrite Forall_fmap in Hne.
    eapply Forall_impl; [exact Hne|]. by intros [].
  - clear -Hsame. induction Hsame as [|p q ps qs Hp _ IH]; [done|]. by apply same_entries_app.
  - rewrite level_nodes_summaries. eapply Forall_impl; [apply nodes_of_low|]. intros n Hn. simpl in *.
    rewrite zlen_app. pose proof (packed_length _ _ _ _ _ _ Hpk). unfold zlen in *. lia.
  - intros Hne Hnil. destruct groups; [|done]. by destruct ps0.
Qed.

(** ** Sorting the input *)

#[export] Instance key_le_total : Total key_le.
Proof.
  intros a b. unfold key_le. rewrite (cmp_flip (cmp:=ident_cmp) a.1 b.1). destruct (ident_cmp a.1 b.1); [left|left|right]; done.
Qed.

Lemma ident_le (a b : ident) : ident_cmp a b ≠ Gt ↔ a = b ∨ ident_lt a b.
Proof.
  unfold ident_lt. pose proof (cmp_Eq (cmp:=ident_cmp) a b) as He. destruct (ident_cmp a b); naive_solver.
Qed.

#[export] Instance key_le_trans : Transitive key_le.
Proof.
  intros a b c. unfold key_le. rewrite !ident_le. generalize a.1, b.1, c.1. intros i j k [->|H1] [->|H2]; [by left|by right|by right|right; by etrans].
Qed.

Lemma keyed_entries l : Forall exact_entry l → traverse keyed l = Ok ((λ e, (eident e, e)) <$> l).
Proof.
  intros H. apply traverse_Ok. apply Forall2_fmap_r. apply Forall_Forall2_diag. eapply Forall_impl; [exact H|].
  intros e (Hwf & _). unfold keyed, identity_of_entry. by rewrite ordered_entry_identity_valid by apply Hwf.
Qed.

Lemma has_duplicate_sorted (l : list (ident * IndexEntry.t)) : StronglySorted key_le l →
  (has_duplicate l = false ↔ StronglySorted ident_lt l.*1).
Proof.
  intros Hs. split.
  - intros H. apply Sorted_StronglySorted; [apply _|]. apply StronglySorted_Sorted in Hs.
    induction Hs as [|a l Hs IH Hhd]; [constructor|]. rewrite fmap_cons. destruct l as [|b l]; [by repeat constructor|].
    change (bool_decide (a.1 = b.1) || has_duplicate (b :: l) = false) in H. apply orb_false_iff in H as [Hab H].
    apply bool_decide_eq_false in Hab. constructor; [by apply IH|]. rewrite fmap_cons. constructor.
    apply HdRel_inv in Hhd. unfold key_le in Hhd. by apply ident_le in Hhd as [?|?].
  - clear Hs. induction l as [|a l IH]; [done|]. intros H. rewrite fmap_cons in H. apply StronglySorted_inv in H as [H Hall].
    destruct l as [|b l]; [done|]. change (bool_decide (a.1 = b.1) || has_duplicate (b :: l) = false).
    rewrite fmap_cons in Hall. apply Forall_cons in Hall as [Hab _]. rewrite IH by done. rewrite bool_decide_false; [done|].
    intros Heq. unfold ident_lt in Hab. rewrite Heq, (cmp_refl ident_cmp) in Hab. done.
Qed.

(** A sorted list of distinct identities is strictly sorted, and of entries under their own
    identities it is ordered. *)
Lemma sorted_strict (l : list (ident * IndexEntry.t)) : StronglySorted key_le l → NoDup l.*1 → StronglySorted ident_lt l.*1.
Proof.
  intros Hs. induction Hs as [|a l Hs IH Hall]; intros Hnd; [constructor|]. rewrite fmap_cons in *.
  apply NoDup_cons in Hnd as [Hni Hnd]. constructor; [by apply IH|]. apply Forall_fmap. rewrite Forall_forall in *.
  intros b Hb. specialize (Hall b Hb). unfold key_le in Hall. simpl. apply ident_le in Hall as [Heq|]; [|done].
  destruct Hni. rewrite Heq. by apply (list_elem_of_fmap_2 fst).
Qed.

Lemma keyed_idents (l : list (ident * IndexEntry.t)) : Forall (λ x, x.1 = eident x.2) l → l.*1 = eident <$> l.*2.
Proof. induction 1 as [|x l Hx _ IH]; [done|]. by rewrite !fmap_cons, Hx, IH. Qed.

(** The sorted input: the entries again, in the order of their identities unless two coincide. *)
Lemma sorted_input l : Forall exact_entry l →
  let ordered := merge_sort key_le ((λ e, (eident e, e)) <$> l) in
  ordered.*2 ≡ₚ l ∧ zlen ordered = zlen l ∧ Forall exact_entry ordered.*2 ∧
  (has_duplicate ordered = false → ordered_idents ordered.*2) ∧
  (NoDup (eident <$> l) → has_duplicate ordered = false).
Proof.
  intros Hex ordered. pose proof (merge_sort_Permutation key_le ((λ e, (eident e, e)) <$> l)) as Hp. fold ordered in Hp.
  pose proof (StronglySorted_merge_sort key_le ((λ e, (eident e, e)) <$> l)) as Hs. fold ordered in Hs.
  assert (ordered.*1 = eident <$> ordered.*2) as Hid.
  { apply keyed_idents. rewrite Hp. apply Forall_fmap. by apply Forall_true. }
  assert (ordered.*2 ≡ₚ l) as Hp2.
  { rewrite Hp, <-list_fmap_compose. by rewrite list_fmap_id. }
  split_and!; [done| | | |].
  - unfold zlen. by rewrite <-Hp2, length_fmap.
  - by rewrite Hp2.
  - intros H. apply has_duplicate_sorted in H; [|done]. unfold ordered_idents. by rewrite <-Hid.
  - intros Hnd. apply has_duplicate_sorted; [done|]. rewrite <-Hp2, <-Hid in Hnd. by apply sorted_strict.
Qed.

Lemma store_empty pages : store ∅ pages = page_map pages.
Proof. unfold store. apply (right_id_L ∅ (∪)). Qed.

Lemma checked_entries entries us : Forall IndexEntry.wf entries → traverse check_build_entry entries = Ok us →
  Forall exact_entry entries.
Proof.
  intros Hwf Ht%traverse_Ok. rewrite Forall_forall in Hwf. apply Forall_forall. intros e He.
  apply list_elem_of_lookup in He as Hi. destruct Hi as [i Hi]. destruct (Forall2_lookup_l _ _ _ _ _ Ht Hi) as (u & _ & Hu).
  unfold check_build_entry in Hu. destruct (IndexEntry.versioned e) eqn:Hv; [done|]. inv_ok Hu.
  apply key_bytes_Ok in E as [_ Hk]. split; [by apply Hwf|]. split; [done|apply Hk].
Qed.

Lemma exact_checked entries : Forall exact_entry entries → traverse check_build_entry entries = Ok ((λ _, ()) <$> entries).
Proof.
  intros H. apply traverse_Ok. apply Forall2_fmap_r. apply Forall_Forall2_diag. eapply Forall_impl; [exact H|].
  intros e (Hwf & Hv & Hk). unfold check_build_entry. rewrite Hv. destruct Hwf.
  by rewrite (proj2 (key_bytes_Ok (IndexEntry.key e) false (IndexEntry.key e))).
Qed.

Lemma forest_exact M d nodes pieces : forest M d nodes pieces → Forall exact_entry (concat pieces).
Proof. intros H. induction H as [|n piece nodes pieces [Ht _] _ IH]; [constructor|]. apply Forall_app. split; [by eapply tree_entries|done]. Qed.

Lemma same_entries_roomy size es es' : same_entries es es' → Forall (roomy size) es' → Forall (roomy size) es.
Proof.
  unfold same_entries. intros Heq H. assert (Forall (roomy size) (IndexEntry.unlocated <$> es')) as Hu by by apply Forall_fmap.
  rewrite <-Heq in Hu. exact (proj1 (Forall_fmap _ _ _) Hu).
Qed.

(** ** A sample *)

(** Sixteen keys of sixty bytes: more than one 512-byte leaf holds, so the tree has two levels. *)
Definition wide_entries : list IndexEntry.t :=
  (λ k, IndexEntry.Mk (k :: repeat Byte.x2d 59) (RecordRef.Mk 9 1) false 0 0 NO_PAGE 0)
  <$> [Byte.x70; Byte.x61; Byte.x62; Byte.x6f; Byte.x63; Byte.x64; Byte.x6e; Byte.x65; Byte.x66; Byte.x6d;
       Byte.x67; Byte.x68; Byte.x6c; Byte.x69; Byte.x6a; Byte.x6b].

Example wide_tree : (λ b, (b_root_page b, b_height b, b_entry_count b, zlen (b_pages b)))
  <$> build_ordered_tree wide_entries 512 3 7 = Ok (7, 2, 16, 5).
Proof. vm_compute. reflexivity. Qed.

(** ** The bulk build is right, and it succeeds *)

(** C33: what a bulk build publishes is an exact tree of its input.  Whenever the build returns, its
    pages hold a valid ordered tree under the root and height it reports, whose entries are those
    given to it (each where its leaf put it) and as many as it counts; its pages carry consecutive
    numbers from the start page, the page size and the publication's LSN; the independent verifier
    accepts it with that count; and an exact seek finds precisely the entries of a key. *)
Theorem build_ordered_tree_ok (entries : list IndexEntry.t) (page_size start_page page_lsn : Z) (b : OrderedTreeBuild)
    (Hwf : Forall IndexEntry.wf entries)
    (Hbuild : build_ordered_tree entries page_size start_page page_lsn = Ok b) :
  ∃ es, ordered_tree (page_map (b_pages b)) (b_root_page b) (b_height b) es ∧
    IndexEntry.unlocated <$> es ≡ₚ IndexEntry.unlocated <$> entries ∧ b_entry_count b = zlen entries ∧
    fresh start_page (b_pages b) ∧ stamped page_size page_lsn (b_pages b) ∧
    (∃ v, verify_ordered_tree (b_root_page b) (b_height b) (page_map (b_pages b)) (Some (b_entry_count b)) = Ok v) ∧
    (∀ key, 0 < zlen key <= MAX_INDEX_KEY_BYTES →
       seek_ordered_exact (b_root_page b) (b_height b) (page_map (b_pages b)) key
       = Ok (filter (λ e, IndexEntry.key e = key) es)).
Proof.
  unfold build_ordered_tree in Hbuild. apply bind_Ok in Hbuild as (sz & Hsize & Hbuild).
  destruct (negb _); [done|]. destruct ((FIRST_ORDERED_TREE_PAGE <=? start_page) && _) eqn:Hstart; [|done]. cbn [negb] in Hbuild.
  apply bind_Ok in Hbuild as (us & Hck & Hbuild). apply checked_entries in Hck as Hex; [|done].
  rewrite keyed_entries in Hbuild by done. cbn [mbind result_bind] in Hbuild.
  destruct (sorted_input entries Hex) as (Hperm & Hlen & Hex' & Hord & _).
  set (ordered := merge_sort _ _) in *. destruct (has_duplicate ordered) eqn:Hdup; [done|]. specialize (Hord eq_refl).
  assert (∃ es, ordered_tree (page_map (b_pages b)) (b_root_page b) (b_height b) es ∧
    IndexEntry.unlocated <$> es ≡ₚ IndexEntry.unlocated <$> entries ∧ b_entry_count b = zlen entries ∧
    fresh start_page (b_pages b) ∧ stamped page_size page_lsn (b_pages b)) as (es & Ht & Hp & Hc & Hrest).
  2:{ exists es. split_and!; [done..|apply Hrest|apply Hrest| |by intros; apply seek_ordered].
      destruct (verify_complete _ _ _ (Some (b_entry_count b)) _ Ht) as (v & Hv & _); [|by exists v]. right. rewrite Hc.
      apply Permutation_length in Hp. rewrite !length_fmap in Hp. unfold zlen. by rewrite Hp. }
  case_bool_decide as Hnil.
  { injection Hbuild as <-. exists []. rewrite Hnil in Hperm, Hlen. cbn in Hperm. apply Permutation_nil_l in Hperm as <-.
    split_and!; [|done|done|by intros i p|constructor]. by unfold ordered_tree. }
  apply bind_Ok in Hbuild as ([level pages] & Ha & Hbuild).
  destruct (pack_leaves_ok ∅ page_size start_page page_lsn ordered.*2 level [] pages)
    as (new & pieces & -> & Hfr & Hst & Hlev & Hsame & Hlow & Hne); [by intros i p|done..|].
  cbn [app] in *. apply bind_Ok in Hbuild as ([[level' height'] pages'] & Hl & Hbuild).
  pose proof (same_entries_ordered _ _ Hsame Hord) as Hord'.
  destruct (build_levels_ok ∅ page_size start_page page_lsn (length level) level new 0 pieces level' height' pages')
    as (s & d & -> & -> & Hfr' & Hst' & Hs & Ht); [done..| | |done|done|].
  { eapply Forall_impl; [exact Hlow|]. intros n Hn. change (zlen (@nil Page.t)) with 0 in Hn. simpl in *. lia. }
  { apply Hne. intros Hn. apply Hnil. by apply fmap_nil_inv in Hn. }
  cbn in Hbuild. injection Hbuild as <-. exists (concat pieces). cbn [b_root_page b_height b_entry_count b_pages].
  rewrite store_empty in Ht. split_and!; [| |done|done|done].
  - pose proof (stamped_below _ _ _ _ _ Hfr' Hst' Hs) as Hlt. apply andb_true_iff in Hstart as [H1 H2].
    unfold ordered_tree. rewrite decide_False by lia. split_and!; [lia|lia| |done]. by replace (Z.to_nat _) with d by lia.
  - unfold same_entries in Hsame. by rewrite Hsame, Hperm.
Qed.


Lemma build_ordered_tree_ok_witness :
  ∃ b, build_ordered_tree wide_entries 512 3 7 = Ok b ∧ b_height b = 2 ∧
    ∃ es, ordered_tree (page_map (b_pages b)) (b_root_page b) (b_height b) es ∧ zlen es = 16.
Proof.
  eexists. split; [vm_compute; reflexivity|]. split; [reflexivity|].
  edestruct (build_ordered_tree_ok wide_entries 512 3 7) as (es & Ht & Hp & _).
  - apply Forall_forall. intros e He. apply list_elem_of_fmap in He as (k & -> & _).
    split; vm_compute; done.
  - vm_compute. reflexivity.
  - exists es. split; [exact Ht|]. apply Permutation_length in Hp. rewrite !length_fmap in Hp. unfold zlen. rewrite Hp. reflexivity.
Defined.

(** a bulk build of distinct entries that leave room succeeds.  For a legal page size, LSN and
    start page, entries whose identities are distinct and whose keys leave room for two entries on a
    page are built, as long as three page numbers for each entry are left below the sentinel: the
    levels halve, so the loop that adds them ends with a root and never refuses. *)
Theorem build_ordered_tree_succeeds (entries : list IndexEntry.t) (page_size start_page page_lsn : Z)
    (Hsize : validate_page_size page_size = Ok page_size)
    (Hlsn : NO_LSN <= page_lsn < PROVISIONAL_CSN)
    (Hstart : FIRST_ORDERED_TREE_PAGE <= start_page)
    (Hexact : Forall exact_entry entries)
    (Hdistinct : NoDup (eident <$> entries))
    (Hroom : Forall (roomy page_size) entries)
    (Hpages : start_page + 3 * zlen entries < NO_PAGE) :
  ∃ b, build_ordered_tree entries page_size start_page page_lsn = Ok b.
Proof.
  pose proof (zlen_nonneg entries) as Hz. unfold build_ordered_tree. rewrite Hsize. cbn [mbind result_bind].
  destruct Hlsn as [Hl1 Hl2]. rewrite (proj2 (Z.leb_le _ _) Hl1), (proj2 (Z.ltb_lt _ _) Hl2). cbn [andb negb].
  rewrite (proj2 (Z.leb_le _ _) Hstart), (proj2 (Z.ltb_lt start_page NO_PAGE)) by lia. cbn [andb negb].
  rewrite exact_checked, keyed_entries by done. cbn [mbind result_bind].
  destruct (sorted_input entries Hexact) as (Hperm & Hlen & Hex & Hord & Hdup). specialize (Hdup Hdistinct).
  set (ordered := merge_sort _ _) in *. rewrite Hdup. specialize (Hord Hdup). case_bool_decide as Hnil; [by eexists|].
  assert (0 <= page_lsn <= MAX_U64) as Hlsn by (unfold NO_LSN, PROVISIONAL_CSN, MAX_U64 in *; lia).
  assert (zlen ordered.*2 = zlen entries) as Hz2 by (unfold zlen in *; by rewrite length_fmap).
  destruct (append_packed_pages_halves leaf_item INDEX_ORDERED_LEAF page_size start_page page_lsn ordered.*2
    (entry_item <$> ordered.*2) []) as (level & pages & Ha & Hh & Hzp); [done|done| |by apply leaf_items| | |].
  { by change FIRST_ORDERED_TREE_PAGE with 3 in *; lia. }
  { apply Forall_fmap. rewrite Hperm. pose proof (proj2 (Forall_and _ _) (conj Hexact Hroom)) as Hboth.
    eapply Forall_impl; [exact Hboth|]. intros e [(Hwf & _) Hr].
    unfold compose, fits_twice, entry_item. cbn [fst]. by rewrite IndexEntryFacts.zlen_image. }
  { change (zlen (@nil Page.t)) with 0. lia. }
  rewrite Ha. cbn [mbind result_bind]. change (zlen (@nil Page.t)) with 0 in *.
  destruct (pack_leaves_ok ∅ page_size start_page page_lsn ordered.*2 level [] pages)
    as (new & pieces & -> & Hfr & Hst & Hlev & Hsame & Hlow & Hne); [by intros i p|done..|].
  cbn [app] in *. pose proof (same_entries_ordered _ _ Hsame Hord) as Hord'.
  assert (level ≠ []) as Hlne by (apply Hne; intros Hn; by apply Hnil, (fmap_nil_inv snd)).
  assert (Forall (λ n, start_page <= n.1 < start_page + zlen new) (level_nodes level)) as Hlow'.
  { eapply Forall_impl; [exact Hlow|]. intros n Hn. change (zlen (@nil Page.t)) with 0 in Hn. simpl in *. lia. }
  assert (Forall exact_entry (concat pieces)) as Hexp by (eapply forest_exact, Hlev).
  assert (Forall (roomy page_size) (concat pieces)) as Hrop.
  { eapply same_entries_roomy; [exact Hsame|]. by rewrite Hperm. }
  destruct (build_levels_succeeds ∅ page_size start_page page_lsn (length level) level new 0 pieces 1)
    as [[[level' height'] pages'] Hl]; [done..|lia|].
  rewrite Hl. cbn [mbind result_bind].
  destruct (build_levels_ok ∅ page_size start_page page_lsn (length level) level new 0 pieces level' height' pages')
    as (s & d & -> & _); [done..|]. by eexists.
Qed.

Lemma wide_exact : Forall exact_entry wide_entries.
Proof.
  apply Forall_forall. intros e He. apply list_elem_of_fmap in He as (k & -> & _).
  split; [split; vm_compute; done|]. split; vm_compute; done.
Qed.

Lemma build_ordered_tree_succeeds_witness :
  ∃ b, build_ordered_tree wide_entries 512 3 7 = Ok b.
Proof.
  apply (build_ordered_tree_succeeds wide_entries 512 3 7); [reflexivity|split; vm_compute; done|done|apply wide_exact| | |reflexivity].
  - apply (bool_decide_unpack (NoDup (eident <$> wide_entries))). vm_compute. exact I.
  - apply (bool_decide_unpack (Forall (λ e, 2 * (INDEX_ENTRY_HEADER_SIZE + zlen (IndexEntry.key e) + SLOT_ENTRY_SIZE)
      <= 512 - PAGE_HEADER_SIZE) wide_entries)). vm_compute. exact I.
Defined.

Lemma regroup_length parents level rebuilt : regroup parents level = Ok rebuilt → length rebuilt = length parents.
Proof.
  revert level rebuilt. induction parents as [|s parents IH]; intros level rebuilt H; cbn [regroup] in H; [by injection H as <-|].
  inv_ok H. injection H as <-. simpl. f_equal. by eapply IH.
Qed.

(** The loop that adds levels terminates.  Every round either refuses or shortens the level, so
    on any subtrees, of any origin, as many rounds as there are subtrees reach the end of the loop:
    more fuel changes nothing, and what the loop returns is at most one subtree. *)
Theorem build_levels_terminates (page_size start_page page_lsn height : Z) (level : list Subtree) (pages : list Page.t) (fuel : nat)
    (Hfuel : (length level <= fuel)%nat) :
  build_levels fuel page_size start_page page_lsn level height pages
  = build_levels (length level) page_size start_page page_lsn level height pages ∧
  (∀ level' height' pages',
     build_levels (length level) page_size start_page page_lsn level height pages = Ok (level', height', pages') →
     (length level' <= 1)%nat ∧ height <= height').
Proof.
  assert (∀ n m level height pages, (length level <= n)%nat → (length level <= m)%nat →
    build_levels n page_size start_page page_lsn level height pages = build_levels m page_size start_page page_lsn level height pages ∧
    (∀ level' height' pages', build_levels n page_size start_page page_lsn level height pages = Ok (level', height', pages') →
       (length level' <= 1)%nat ∧ height <= height')) as H.
  2:{ split; [by apply H|]. by apply (H (length level) (length level)). }
  clear. induction n as [|n IH]; intros m level height pages Hn Hm.
  { destruct level; simpl in Hn; [|lia]. split; [by destruct m|]. intros ??? [= <- <- <-]. simpl. lia. }
  cbn [build_levels]. destruct (Z.leb_spec (zlen level) 1) as [Hone|Hmore].
  { split; [|intros ??? [= <- <- <-]; unfold zlen in Hone; lia].
    destruct m; cbn [build_levels]; [done|]. by rewrite (proj2 (Z.leb_le _ _) Hone). }
  destruct m as [|m]; [unfold zlen in Hmore; lia|]. cbn [build_levels]. rewrite (proj2 (Z.leb_gt _ _) Hmore).
  destruct (append_packed_pages _ level _ _ _ _ pages) as [[next_level pages']|e]; cbn [mbind result_bind]; [|done].
  destruct (Z.leb_spec (zlen level) (zlen next_level)) as [|Hless]; [done|].
  destruct (regroup next_level level) as [rebuilt|e] eqn:Hr; cbn [mbind result_bind]; [|done].
  apply regroup_length in Hr. unfold zlen in Hless.
  destruct (IH m rebuilt (height + 1) pages') as [-> Hres]; [lia|lia|]. split; [done|].
  intros level' height' pages'' Hl. apply Hres in Hl. lia.
Qed.

Lemma build_levels_terminates_witness :
  ∃ level, length level = 2%nat ∧
    build_levels 9 512 3 7 level 1 [] = build_levels (length level) 512 3 7 level 1 [].
Proof.
  exists [MkSubtree 3 ([Byte.x61], 1) ([Byte.x62], 1) 2; MkSubtree 4 ([Byte.x63], 1) ([Byte.x64], 1) 2].
  split; [reflexivity|]. apply build_levels_terminates. simpl. lia.
Defined.
