(* ===== verification/OrderedCow.v ===== *)
(** The ordered tree, copy on write: [mutate_ordered_tree] of
    src/src/okto_grafx/domain/index/ordered_tree.py.

    A batch of index changes is routed to the leaves it concerns, each such leaf is rewritten once
    on fresh pages, and the pages above it are repacked on the way up; everything else is shared
    with the old tree.  The abstract side is a finite map from identities to entries on which one
    change acts with [apply_change]; the theorems say that the new tree holds the old contents with
    the batch applied in the caller's order, that the old tree stays readable, and when the
    mutation is sure to end. *)

From S2P Require Import Prelude Ids Layout Slotted Utf8 IndexEntry OrderedKeys IndexChange OrderedTree OrderedBuild.

#[export] Instance byte_countable : Countable byte := inj_countable' Z_of_byte byte_of_Z byte_of_Z_of_byte.

(** ** Packing *)

(** [_CowResult]; its nodes are the pairs [node] of a page and its maximum ([_CowNode]). *)
Record CowResult := MkCow {
  cr_nodes : list node;
  cr_changed : bool;
  cr_delta : Z;
  cr_missing : Z
}.

Definition allocate (t : PageType) (page_size start_page page_lsn : Z) (new_pages : list Page.t) : result Page.t :=
  let page_index := start_page + zlen new_pages in
  if NO_PAGE <=? page_index then raise GrafxIndexError "page_index"
  else new_page t page_size page_index page_lsn.

(** The page being filled is kept apart from the finished ones. *)
Record CowPacking := MkCowPacking {
  cp_pages : list Page.t;
  cp_current : option Page.t;
  cp_maximum : option ident;
  cp_nodes : list node
}.

Definition cow_close (st : CowPacking) : list node :=
  match cp_current st, cp_maximum st with
  | Some current, Some maximum => cp_nodes st ++ [(Page.page_index current, maximum)]
  | _, _ => cp_nodes st
  end.

Definition cow_pages (st : CowPacking) : list Page.t := cp_pages st ++ option_to_list (cp_current st).

Definition cow_step (t : PageType) (page_size start_page page_lsn : Z) (st : CowPacking)
    (item : bytes * ident) : result CowPacking :=
  let '(payload, identity) := item in
  '(current, st) ←
    match cp_current st with
    | Some current =>
        if Page.can_fit current (zlen payload) then Ok (current, st)
        else
          let st := MkCowPacking (cow_pages st) None (cp_maximum st) (cow_close st) in
          current ← allocate t page_size start_page page_lsn (cp_pages st);
          if negb (Page.can_fit current (zlen payload)) then raise GrafxIndexError "page_size"
          else Ok (current, st)
    | None =>
        current ← allocate t page_size start_page page_lsn (cp_pages st);
        if negb (Page.can_fit current (zlen payload)) then raise GrafxIndexError "page_size"
        else Ok (current, st)
    end;
  '(_, current) ← Page.insert_slot current payload;
  Ok (MkCowPacking (cp_pages st) (Some current) (Some identity) (cp_nodes st)).

Fixpoint cow_items {A} (item : A → result (bytes * ident)) (t : PageType)
    (page_size start_page page_lsn : Z) (st : CowPacking) (l : list A) : result CowPacking :=
  match l with
  | [] => Ok st
  | a :: l =>
      x ← item a;
      st ← cow_step t page_size start_page page_lsn st x;
      cow_items item t page_size start_page page_lsn st l
  end.

Definition cow_pack {A} (item : A → result (bytes * ident)) (t : PageType) (page_size start_page page_lsn : Z)
    (l : list A) (new_pages : list Page.t) : result (list node * list Page.t) :=
  st ← cow_items item t page_size start_page page_lsn (MkCowPacking new_pages None None []) l;
  Ok (cow_close st, cow_pages st).

Definition pack_leaf (page_size start_page page_lsn : Z) (entries : list IndexEntry.t) (new_pages : list Page.t)
    : result (list node * list Page.t) :=
  cow_pack leaf_item INDEX_ORDERED_LEAF page_size start_page page_lsn entries new_pages.

Definition node_item (n : node) : result (bytes * ident) :=
  ref ← RecordRef.decode n.2.2;
  pointer ← ChildPointer.make n.2.1 ref n.1;
  raw ← ChildPointer.encode pointer;
  Ok (raw, n.2).

Definition pack_internal (page_size start_page page_lsn : Z) (nodes : list node) (new_pages : list Page.t)
    : result (list node * list Page.t) :=
  cow_pack node_item INDEX_ORDERED_INTERNAL page_size start_page page_lsn nodes new_pages.

(** ** One leaf *)

Abbreviation dict := (gmap ident IndexEntry.t).

Record LeafState := MkLeaf {
  by_identity : dict;
  lf_changed : bool;
  lf_delta : Z;
  lf_missing : Z
}.

Definition leaf_step (st : LeafState) (change : IndexChange.t) : result LeafState :=
  identity ← ordered_entry_identity (IndexChange.key change) (IndexChange.ref change);
  match IndexChange.operation change, by_identity st !! identity with
  | INSERT, None =>
      e ← IndexEntry.make (IndexChange.key change) (IndexChange.ref change) false NO_CSN NO_CSN;
      Ok (MkLeaf (<[identity := e]> (by_identity st)) true (lf_delta st + 1) (lf_missing st))
  | INSERT, Some _ => Ok st
  | _, None => Ok (MkLeaf (by_identity st) (lf_changed st) (lf_delta st) (lf_missing st + 1))
  | TOMBSTONE, Some existing =>
      if IndexEntry.live existing then
        e ← IndexEntry.ended_at existing (IndexChange.csn change);
        Ok (MkLeaf (<[identity := e]> (by_identity st)) true (lf_delta st) (lf_missing st))
      else Ok st
  | _, Some _ => Ok (MkLeaf (delete identity (by_identity st)) true (lf_delta st - 1) (lf_missing st))
  end.

Fixpoint leaf_steps (st : LeafState) (batch : list IndexChange.t) : result LeafState :=
  match batch with
  | [] => Ok st
  | change :: batch => st ← leaf_step st change; leaf_steps st batch
  end.

(** [by_identity[identity] for identity in sorted(by_identity)]. *)
Definition sorted_entries (m : dict) : list IndexEntry.t := (merge_sort key_le (map_to_list m)).*2.

Definition dict_of (pairs : list (ident * IndexEntry.t)) : dict := fold_left (λ m x, <[x.1 := x.2]> m) pairs ∅.

Definition apply_leaf (pages : gmap Z Page.t) (page_size start_page page_lsn : Z) (page_index : Z)
    (batch : list IndexChange.t) (new_pages : list Page.t) : result (CowResult * list Page.t) :=
  match pages !! page_index with
  | None => raise GrafxCorruptionDetected "child_page"
  | Some page =>
      current ← decode_ordered_leaf page;
      pairs ← traverse keyed current;
      st ← leaf_steps (MkLeaf (dict_of pairs) false 0 0) batch;
      if negb (lf_changed st) then
        final ← py_last current;
        identity ← identity_of_entry final;
        Ok (MkCow [(page_index, identity)] false 0 (lf_missing st), new_pages)
      else
        '(nodes, new_pages) ← pack_leaf page_size start_page page_lsn (sorted_entries (by_identity st)) new_pages;
        Ok (MkCow nodes true (lf_delta st) (lf_missing st), new_pages)
  end.

(** ** One subtree *)

(** [groups[position].append(item)]: an empty page of pointers makes the position -1, which an empty
    list refuses. *)
Definition group_change (highs : list ident) (groups : list (list IndexChange.t)) (change : IndexChange.t)
    : result (list (list IndexChange.t)) :=
  identity ← ordered_entry_identity (IndexChange.key change) (IndexChange.ref change);
  if bool_decide (highs = []) then raise IndexError ""
  else Ok (alter (λ g, g ++ [change]) (Nat.min (bisect_left ident_ltb highs identity) (length highs - 1)) groups).

Fixpoint group_changes (highs : list ident) (groups : list (list IndexChange.t)) (batch : list IndexChange.t)
    : result (list (list IndexChange.t)) :=
  match batch with
  | [] => Ok groups
  | change :: batch => groups ← group_change highs groups change; group_changes highs groups batch
  end.

Fixpoint cow_children (visit_child : Z → list IndexChange.t → list Page.t → result (CowResult * list Page.t))
    (l : list (ChildPointer.t * list IndexChange.t)) (acc : CowResult) (new_pages : list Page.t)
    : result (CowResult * list Page.t) :=
  match l with
  | [] => Ok (acc, new_pages)
  | (pointer, group) :: l =>
      if bool_decide (group = []) then
        high ← ChildPointer.high_identity pointer;
        cow_children visit_child l
          (MkCow (cr_nodes acc ++ [(ChildPointer.child_page pointer, high)]) (cr_changed acc) (cr_delta acc) (cr_missing acc))
          new_pages
      else
        '(child, new_pages) ← visit_child (ChildPointer.child_page pointer) group new_pages;
        cow_children visit_child l
          (MkCow (cr_nodes acc ++ cr_nodes child) (cr_changed acc || cr_changed child)
             (cr_delta acc + cr_delta child) (cr_missing acc + cr_missing child))
          new_pages
  end.

Fixpoint cow_visit (pages : gmap Z Page.t) (page_size start_page page_lsn : Z) (d : nat) (page_index : Z)
    (batch : list IndexChange.t) (new_pages : list Page.t) : result (CowResult * list Page.t) :=
  match d with
  | O => apply_leaf pages page_size start_page page_lsn page_index batch new_pages
  | S d =>
      match pages !! page_index with
      | None => raise GrafxCorruptionDetected "child_page"
      | Some page =>
          pointers ← decode_ordered_internal page;
          highs ← traverse ChildPointer.high_identity pointers;
          groups ← group_changes highs (replicate (length pointers) []) batch;
          '(child, new_pages) ← cow_children (cow_visit pages page_size start_page page_lsn d) (zip pointers groups)
                                  (MkCow [] false 0 0) new_pages;
          if negb (cr_changed child) then
            final ← py_last pointers;
            high ← ChildPointer.high_identity final;
            Ok (MkCow [(page_index, high)] false 0 (cr_missing child), new_pages)
          else
            '(nodes, new_pages) ← pack_internal page_size start_page page_lsn (cr_nodes child) new_pages;
            Ok (MkCow nodes true (cr_delta child) (cr_missing child), new_pages)
      end
  end.

(** ** The whole batch *)

Record OrderedTreeMutation := MkMutation {
  m_root_page : Z;
  m_height : Z;
  m_entry_count : Z;
  m_pages : list Page.t;
  m_changed : bool;
  m_missing_targets : Z
}.

Definition check_change (change : IndexChange.t) : result unit :=
  if IndexChange.versioned change then raise GrafxIndexError "versioned"
  else if bool_decide (IndexChange.operation change = RESET) then raise GrafxIndexError "operation"
  else _ ← key_bytes (IndexChange.key change) false; Ok ().

Definition check_batch (page_size start_page page_lsn entry_count : Z) (changes : list IndexChange.t) : result unit :=
  _ ← validate_page_size page_size;
  if negb ((FIRST_ORDERED_TREE_PAGE <=? start_page) && (start_page <? NO_PAGE))
  then raise GrafxIndexError "start_page"
  else if negb ((NO_LSN <=? page_lsn) && (page_lsn <? PROVISIONAL_CSN)) then raise GrafxIndexError "page_lsn"
  else if entry_count <? 0 then raise GrafxIndexError "entry_count"
  else _ ← traverse check_change changes; Ok ().

(** The batch sorted by identity, and by position in the batch within one identity. *)
Abbreviation placed := ((ident * nat) * IndexChange.t)%type.

Definition place (x : nat * IndexChange.t) : result placed :=
  identity ← ordered_entry_identity (IndexChange.key x.2) (IndexChange.ref x.2); Ok ((identity, x.1), x.2).

Definition place_cmp : ident * nat → ident * nat → comparison := pair_cmp ident_cmp Nat.compare.

Definition place_le (a b : placed) : Prop := place_cmp a.1 b.1 ≠ Gt.
#[export] Instance place_le_dec a b : Decision (place_le a b).
Proof. unfold place_le. apply _. Defined.

Definition order_changes (changes : list IndexChange.t) : result (list IndexChange.t) :=
  items ← traverse place (imap pair changes); Ok (merge_sort place_le items).*2.

(** Up to the loop on the root: the nodes of the new top level with the height below it. *)
Definition apply_batch (root_page height entry_count : Z) (pages : gmap Z Page.t) (ordered : list IndexChange.t)
    (page_size start_page page_lsn : Z) : result (CowResult * Z * list Page.t) :=
  if root_page =? NO_PAGE then
    if negb (height =? 0) || negb (entry_count =? 0) then raise GrafxCorruptionDetected "root_page"
    else
      st ← leaf_steps (MkLeaf ∅ false 0 0) ordered;
      '(nodes, new_pages) ← pack_leaf page_size start_page page_lsn (sorted_entries (by_identity st)) [];
      Ok (MkCow nodes (negb (bool_decide (nodes = []))) (lf_delta st) (lf_missing st),
          if bool_decide (nodes = []) then 0 else 1, new_pages)
  else if height <=? 0 then raise GrafxCorruptionDetected "height"
  else
    '(res, new_pages) ← cow_visit pages page_size start_page page_lsn (Z.to_nat (height - 1)) root_page ordered [];
    Ok (res, if bool_decide (cr_nodes res = []) then 0 else height, new_pages).

(** [while len(nodes) > 1]: the source has no bound, so the fuel may run out ([None]).  With room for
    two entries on a page, as many rounds as nodes are enough ([collapse_succeeds]); without, no number
    is ([collapse_stalls]). *)
Fixpoint collapse (fuel : nat) (page_size start_page page_lsn : Z) (nodes : list node) (height : Z)
    (new_pages : list Page.t) : option (result (list node * Z * list Page.t)) :=
  if zlen nodes <=? 1 then Some (Ok (nodes, height, new_pages))
  else
    match fuel with
    | O => None
    | S fuel =>
        match pack_internal page_size start_page page_lsn nodes new_pages with
        | Err e => Some (Err e)
        | Ok (nodes, new_pages) => collapse fuel page_size start_page page_lsn nodes (height + 1) new_pages
        end
    end.

Definition mutate_ordered_tree (fuel : nat) (root_page height entry_count : Z) (pages : gmap Z Page.t)
    (changes : list IndexChange.t) (page_size start_page page_lsn : Z) : option (result OrderedTreeMutation) :=
  match check_batch page_size start_page page_lsn entry_count changes with
  | Err e => Some (Err e)
  | Ok _ =>
      if bool_decide (changes = []) then Some (Ok (MkMutation root_page height entry_count [] false 0))
      else
        match (ordered ← order_changes changes;
               apply_batch root_page height entry_count pages ordered page_size start_page page_lsn) with
        | Err e => Some (Err e)
        | Ok (res, height, new_pages) =>
            match collapse fuel page_size start_page page_lsn (cr_nodes res) height new_pages with
            | None => None
            | Some (Err e) => Some (Err e)
            | Some (Ok (nodes, height, new_pages)) =>
                let new_count := entry_count + cr_delta res in
                if (new_count <? 0) || negb (Bool.eqb (negb (bool_decide (nodes = []))) (negb (new_count =? 0)))
                then Some (raise GrafxCorruptionDetected "entry_count")
                else
                  Some (Ok (MkMutation (match nodes with [] => NO_PAGE | n :: _ => n.1 end) height new_count
                              new_pages (cr_changed res) (cr_missing res)))
            end
        end
  end.

(** ** The abstract side *)

(** What one change does to the entry of its identity, and to a finite map of entries. *)
Definition change_ident (c : IndexChange.t) : ident := ident_of (IndexChange.key c) (IndexChange.ref c).

Definition change_entry (c : IndexChange.t) (existing : option IndexEntry.t) : option IndexEntry.t :=
  match IndexChange.operation c, existing with
  | INSERT, None => Some (IndexEntry.Mk (IndexChange.key c) (IndexChange.ref c) false NO_CSN NO_CSN NO_PAGE 0)
  | TOMBSTONE, Some e =>
      Some (if IndexEntry.live e
            then IndexEntry.Mk (IndexEntry.key e) (IndexEntry.ref e) (IndexEntry.versioned e) (IndexEntry.born_csn e)
                   (IndexChange.csn c) (IndexEntry.page e) (IndexEntry.slot e)
            else e)
  | REMOVE, Some _ => None
  | _, existing => existing
  end.

Definition apply_change (m : dict) (c : IndexChange.t) : dict := partial_alter (change_entry c) (change_ident c) m.

(** The entries of a tree as a map; where they are stored is not part of them. *)
Definition contents_of (es : list IndexEntry.t) : dict :=
  list_to_map ((λ e, (eident e, IndexEntry.unlocated e)) <$> es).

(** A change an ordered exact index may receive. *)
Definition exact_change (c : IndexChange.t) : Prop :=
  IndexChange.wf c ∧ IndexChange.versioned c = false ∧ IndexChange.operation c ≠ RESET ∧ 0 < zlen (IndexChange.key c).

(** ** The packing is the one of the bulk build *)

Definition proj (st : Packing) : CowPacking :=
  MkCowPacking (pk_pages st) (pk_current st) (pk_last st) (level_nodes (pk_summaries st)).

Lemma allocate_eq t size start lsn pages :
  allocate t size start lsn pages = (i ← next_page_index start pages; new_page t size i lsn).
Proof. unfold allocate, next_page_index. by case_match. Qed.

Lemma cow_step_sim t size start lsn st x :
  pk_current st = None ∧ pk_last st = None ∨ (∃ g, filling t size start lsn st g) →
  cow_step t size start lsn (proj st) x = (st ← pack_step t size start lsn st x; Ok (proj st)).
Proof.
  destruct x as [payload identity]. unfold cow_step, pack_step. intros [[Hc Hl]|[g [(p & Hc & Hb) Hne Hf Hl Hn Hlt]]].
  - unfold proj. cbn [cp_current cp_pages cp_nodes cp_maximum]. rewrite Hc, allocate_eq.
    destruct (next_page_index start (pk_pages st)) as [i|]; cbn [mbind result_bind]; [|done].
    destruct (new_page t size i lsn) as [c|] eqn:Hp; cbn [mbind result_bind]; [|done]. apply new_page_built in Hp.
    rewrite (slot_count_built _ _ _ _ _ _ Hp). cbn [bool_decide].
    destruct (Page.can_fit c (zlen payload)); cbn [negb mbind result_bind]; [|done].
    destruct (Page.insert_slot c payload) as [[s p']|]; done.
  - unfold proj. cbn [cp_current cp_pages cp_nodes cp_maximum]. rewrite Hc. cbn [mbind result_bind].
    destruct (Page.can_fit p (zlen payload)); cbn [negb mbind result_bind].
    { destruct (Page.insert_slot p payload) as [[s p']|]; done. }
    rewrite (slot_count_built _ _ _ _ _ _ Hb), bool_decide_false by by destruct g.
    unfold publish. cbn [pk_current pk_first pk_last pk_pages]. rewrite Hf, Hl.
    assert (∃ a, head g.*2 = Some a) as [a Ha] by (destruct g; [done|by eexists]).
    assert (∃ b, last g.*2 = Some b) as [b Hbb] by (apply last_is_Some; by destruct g).
    rewrite Ha, Hbb. unfold cow_pages, cow_close. cbn [cp_current cp_pages cp_maximum cp_nodes pk_pages].
    rewrite ?Hl, ?Hbb, ?Hc. cbn [option_to_list]. rewrite allocate_eq.
    destruct (next_page_index start (pk_pages st ++ [p])) as [i|]; cbn [mbind result_bind]; [|done].
    destruct (new_page t size i lsn) as [c|]; cbn [mbind result_bind]; [|done].
    destruct (Page.can_fit c (zlen payload)); cbn [negb mbind result_bind]; [|done].
    destruct (Page.insert_slot c payload) as [[s p']|]; cbn [mbind result_bind]; [|done].
    cbn [pk_pages pk_summaries]. unfold level_nodes. by rewrite fmap_app.
Qed.

Lemma cow_items_sim {A} (item : A → result (bytes * ident)) t size start lsn l st g :
  filling t size start lsn st g →
  cow_items item t size start lsn (proj st) l = (st ← pack_items item t size start lsn st l; Ok (proj st)).
Proof.
  revert st g. induction l as [|a l IH]; intros st g Hfill; [done|]. cbn [cow_items pack_items].
  destruct (item a) as [x|]; cbn [mbind result_bind]; [|done]. rewrite cow_step_sim by (right; by exists g).
  destruct (pack_step t size start lsn st x) as [st'|] eqn:Hs; cbn [mbind result_bind]; [|done].
  destruct (pack_step_filling _ _ _ _ _ _ _ _ Hfill Hs) as [(Hf & _)|(p & _ & _ & Hf & _)]; by eapply IH.
Qed.

Lemma finish_proj t size start lsn st g : filling t size start lsn st g →
  (cow_close (proj st), cow_pages (proj st)) = (level_nodes (finish st).1, (finish st).2).
Proof.
  intros [(p & Hc & Hb) Hne Hf Hl Hn Hlt]. unfold finish, publish, cow_close, cow_pages, proj.
  cbn [cp_current cp_maximum cp_pages cp_nodes]. rewrite Hc, Hf, Hl.
  assert (∃ a, head g.*2 = Some a) as [a Ha] by (destruct g; [done|by eexists]).
  assert (∃ b, last g.*2 = Some b) as [b Hbb] by (apply last_is_Some; by destruct g).
  rewrite Ha, Hbb. cbn. unfold level_nodes. by rewrite fmap_app, app_nil_r.
Qed.

(** One packing routine, written three times in the source. *)
Lemma cow_pack_eq {A} (item : A → result (bytes * ident)) t size start lsn l pages :
  cow_pack item t size start lsn l pages
  = ('(sums, pages') ← append_packed_pages item l t size start lsn pages; Ok (level_nodes sums, pages')).
Proof.
  unfold cow_pack, append_packed_pages. destruct l as [|a l]; [cbn; unfold cow_pages; cbn; done|].
  change (MkCowPacking pages None None []) with (proj (MkPacking pages None None None 0 [])).
  cbn [cow_items pack_items]. destruct (item a) as [x|]; cbn [mbind result_bind]; [|done].
  rewrite cow_step_sim by by left.
  destruct (pack_step t size start lsn _ x) as [st|] eqn:Hs; cbn [mbind result_bind]; [|done].
  destruct (pack_step_open _ _ _ _ (MkPacking pages None None None 0 []) _ _ eq_refl eq_refl eq_refl Hs) as (Hf & _).
  rewrite (cow_items_sim _ _ _ _ _ _ _ _ Hf).
  destruct (pack_items item t size start lsn st l) as [st'|] eqn:Hi; cbn [mbind result_bind]; [|done].
  destruct (pack_items_ends _ _ _ _ _ _ _ _ _ Hf Hi) as [g Hg]. pose proof (finish_proj _ _ _ _ _ _ Hg) as Hfin.
  destruct (finish st') as [sums pages']. by rewrite Hfin.
Qed.

Lemma node_item_pointer n : node_item n = pointer_item n.1 n.2.
Proof.
  unfold node_item, pointer_item. destruct (RecordRef.decode n.2.2) as [r|] eqn:Hr; cbn [mbind result_bind]; [|done].
  apply record_ref_decode_inv in Hr as [Hv Hr]. unfold ChildPointer.make.
  destruct (ChildPointer.post_init _) as [p|] eqn:Hp; cbn [mbind result_bind]; [|done].
  apply pointer_post_init_Ok in Hp as [-> Hwf]. rewrite pointer_encode by done. cbn [mbind result_bind].
  unfold ChildPointer.high_identity. rewrite ordered_entry_identity_valid by done. cbn [mbind result_bind ChildPointer.high_key ChildPointer.high_ref].
  unfold ident_of. rewrite <-Hr. by destruct n as [? []].
Qed.

Lemma pack_internal_eq size start lsn nodes pages :
  pack_internal size start lsn nodes pages
  = ('(sums, pages') ← append_packed_pages (λ n, pointer_item n.1 n.2) nodes INDEX_ORDERED_INTERNAL size start lsn pages;
     Ok (level_nodes sums, pages')).
Proof.
  unfold pack_internal. rewrite cow_pack_eq. unfold append_packed_pages. f_equal. f_equal.
  generalize (MkPacking pages None None None 0 []). induction nodes as [|n nodes IH]; intros st; [done|].
  cbn [pack_items]. rewrite node_item_pointer. destruct (pointer_item n.1 n.2); [|done]. cbn [mbind result_bind].
  destruct (pack_step _ _ _ _ _ _); [|done]. apply IH.
Qed.

(** ** Entries as a map *)

Lemma ordered_idents_nodup es : ordered_idents es → NoDup (eident <$> es).
Proof.
  unfold ordered_idents. induction (eident <$> es) as [|i l IH]; intros H; [constructor|].
  apply StronglySorted_inv in H as [H Hall]. constructor; [|by apply IH]. intros Hi.
  rewrite Forall_forall in Hall. by apply (ident_lt_irrefl i), Hall.
Qed.

Lemma contents_of_Some es i e : ordered_idents es →
  contents_of es !! i = Some e ↔ ∃ e0, e0 ∈ es ∧ eident e0 = i ∧ IndexEntry.unlocated e0 = e.
Proof.
  intros Hs%ordered_idents_nodup. unfold contents_of. rewrite <-elem_of_list_to_map, list_elem_of_fmap.
  - split; [intros (e0 & [= -> ->] & He); by exists e0|intros (e0 & He & <- & <-); by exists e0].
  - rewrite <-list_fmap_compose. exact Hs.
Qed.

Lemma contents_of_None es i : contents_of es !! i = None ↔ i ∉ eident <$> es.
Proof. unfold contents_of. rewrite <-not_elem_of_list_to_map, <-list_fmap_compose. done. Qed.

Lemma contents_of_app es es' i : contents_of (es ++ es') !! i = contents_of es !! i ∪ contents_of es' !! i.
Proof. unfold contents_of. by rewrite fmap_app, list_to_map_app, lookup_union. Qed.

Lemma contents_same es es' : same_entries es es' → contents_of es = contents_of es'.
Proof.
  intros H. unfold contents_of. f_equal. unfold same_entries in H.
  assert (∀ l : list IndexEntry.t, (λ e, (eident e, IndexEntry.unlocated e)) <$> l = (λ e, (eident e, e)) <$> (IndexEntry.unlocated <$> l)) as Hl.
  { intros l. rewrite <-list_fmap_compose. done. }
  by rewrite !Hl, H.
Qed.

(** The contents of a list of pieces at an identity that only one of them can hold. *)
Lemma contents_of_concat (pieces : list (list IndexEntry.t)) k piece i : pieces !! k = Some piece →
  (∀ j p, pieces !! j = Some p → j ≠ k → contents_of p !! i = None) →
  contents_of (concat pieces) !! i = contents_of piece !! i.
Proof.
  revert k. induction pieces as [|p pieces IH]; intros k Hk Hother; [done|]. rewrite concat_cons, contents_of_app.
  destruct k as [|k].
  - injection Hk as ->. assert (contents_of (concat pieces) !! i = None) as ->.
    2:{ by rewrite (right_id_L None (∪)). }
    apply contents_of_None. intros (e & He & Hin)%list_elem_of_fmap. apply list_elem_of_In, in_concat in Hin as (p & Hp & Hin).
    apply list_elem_of_In, list_elem_of_lookup in Hp as [j Hj]. pose proof (Hother (S j) p Hj ltac:(lia)) as Hn.
    apply contents_of_None in Hn. apply Hn. rewrite He. by apply list_elem_of_fmap_2, list_elem_of_In.
  - rewrite (Hother 0%nat p eq_refl) by lia. rewrite (left_id_L None (∪)). apply (IH k); [done|].
    intros j q Hj Hne. apply (Hother (S j)); [done|lia].
Qed.

(** Pieces of an ordered list are ordered, and below one another. *)
Lemma ordered_pieces_split (pieces : list (list IndexEntry.t)) k piece : pieces !! k = Some piece →
  concat pieces = concat (take k pieces) ++ piece ++ concat (drop (S k) pieces).
Proof. intros H. rewrite <-(take_drop_middle pieces k piece H) at 1. by rewrite concat_app, concat_cons. Qed.

Lemma ordered_piece (pieces : list (list IndexEntry.t)) k piece : ordered_idents (concat pieces) →
  pieces !! k = Some piece → ordered_idents piece.
Proof.
  intros Hs Hk. rewrite (ordered_pieces_split _ _ _ Hk) in Hs. apply ordered_idents_app in Hs as (_ & Hs & _).
  by apply ordered_idents_app in Hs as (? & _).
Qed.

Lemma elem_of_concat {A} (x : A) ls : x ∈ concat ls ↔ ∃ l, l ∈ ls ∧ x ∈ l.
Proof. rewrite list_elem_of_In, in_concat. split; intros (l & H1 & H2); exists l; by rewrite list_elem_of_In, ?list_elem_of_In in *. Qed.

Lemma ordered_pieces_lt (pieces : list (list IndexEntry.t)) j k p q e e' : ordered_idents (concat pieces) →
  (j < k)%nat → pieces !! j = Some p → pieces !! k = Some q → e ∈ p → e' ∈ q → ident_lt (eident e) (eident e').
Proof.
  intros Hs Hjk Hj Hk He He'. rewrite (ordered_pieces_split _ _ _ Hk) in Hs. apply ordered_idents_app in Hs as (_ & _ & H).
  apply H; [|by apply elem_of_app; left]. apply elem_of_concat. exists p. split; [|done].
  apply (list_elem_of_lookup_2 _ j). by rewrite lookup_take_lt.
Qed.

Lemma ordered_concat (pieces : list (list IndexEntry.t)) :
  (∀ k p, pieces !! k = Some p → ordered_idents p) →
  (∀ j k p q e e', (j < k)%nat → pieces !! j = Some p → pieces !! k = Some q → e ∈ p → e' ∈ q → ident_lt (eident e) (eident e')) →
  ordered_idents (concat pieces).
Proof.
  induction pieces as [|p pieces IH]; intros Ho Hlt; [constructor|]. rewrite concat_cons. apply ordered_idents_app_2.
  - by apply (Ho 0%nat).
  - apply IH; [intros k q Hk; by apply (Ho (S k))|]. intros j k a b e e' Hjk Ha Hb. by apply (Hlt (S j) (S k)); [lia|..].
  - intros e e' He (q & Hq & He')%elem_of_concat. apply list_elem_of_lookup in Hq as [k Hk].
    by apply (Hlt 0%nat (S k) p q); [lia|..].
Qed.

(** *** Changes on a map *)

Definition concerning (i : ident) (batch : list IndexChange.t) : list IndexChange.t := filter (λ c, change_ident c = i) batch.

Definition apply_changes (m : dict) (batch : list IndexChange.t) : dict := fold_left apply_change batch m.

Definition change_entries (o : option IndexEntry.t) (batch : list IndexChange.t) : option IndexEntry.t :=
  fold_left (λ o c, change_entry c o) batch o.

(** Changes to different identities do not meet. *)
Lemma apply_changes_lookup batch m i :
  apply_changes m batch !! i = change_entries (m !! i) (concerning i batch).
Proof.
  unfold apply_changes, change_entries, concerning. revert m. induction batch as [|c batch IH]; intros m; [done|].
  cbn [fold_left]. rewrite IH, filter_cons. unfold apply_change. case_decide as Hi.
  - subst i. cbn [fold_left]. by rewrite lookup_partial_alter_eq.
  - by rewrite lookup_partial_alter_ne.
Qed.

(** ** One leaf applies its batch *)

Definition dict_ok (m : dict) : Prop := map_Forall (λ i e, eident e = i ∧ exact_entry e) m.

Lemma ended_at_Ok e csn e' : IndexEntry.ended_at e csn = Ok e' →
  e' = IndexEntry.Mk (IndexEntry.key e) (IndexEntry.ref e) (IndexEntry.versioned e) (IndexEntry.born_csn e) csn
         (IndexEntry.page e) (IndexEntry.slot e) ∧ 0 <= csn < PROVISIONAL_CSN.
Proof.
  unfold IndexEntry.ended_at, require_commit_number. destruct (negb _); [done|]. cbn [mbind result_bind].
  intros (-> & _ & _ & H & _)%IndexEntryFacts.post_init_Ok. done.
Qed.

Lemma exact_entry_made key ref e : 0 < zlen key → RecordRef.valid ref →
  IndexEntry.make key ref false NO_CSN NO_CSN = Ok e →
  e = IndexEntry.Mk key ref false NO_CSN NO_CSN NO_PAGE 0 ∧ exact_entry e.
Proof.
  intros Hk Hr (-> & Hl & Hb & Hd & Hv)%IndexEntryFacts.post_init_Ok. split; [done|].
  split; [by split|]. done.
Qed.

(** A map altered at one identity, seen without locations. *)
Lemma altered_unlocated (m m' : dict) i f : (∀ j, j ≠ i → m' !! j = m !! j) →
  IndexEntry.unlocated <$> m' !! i = f (IndexEntry.unlocated <$> m !! i) →
  IndexEntry.unlocated <$> m' = partial_alter f i (IndexEntry.unlocated <$> m).
Proof.
  intros Hne Hi. apply map_eq. intros j. destruct (decide (j = i)) as [->|Hj].
  - by rewrite lookup_partial_alter_eq, !lookup_fmap.
  - by rewrite lookup_partial_alter_ne, !lookup_fmap, Hne.
Qed.

(** One change leaves a good map, acts as the abstract change, and keeps the books. *)
Record stepped (st : LeafState) (batch : list IndexChange.t) (st' : LeafState) : Prop := {
  stepped_ok : dict_ok (by_identity st');
  stepped_map : IndexEntry.unlocated <$> by_identity st' = apply_changes (IndexEntry.unlocated <$> by_identity st) batch;
  stepped_delta : lf_delta st' - lf_delta st = Z.of_nat (size (by_identity st')) - Z.of_nat (size (by_identity st));
  stepped_same : lf_changed st' = false → by_identity st' = by_identity st ∧ lf_delta st' = lf_delta st ∧ lf_changed st = false
}.

Lemma leaf_step_ok st c st' : dict_ok (by_identity st) → exact_change c → leaf_step st c = Ok st' → stepped st [c] st'.
Proof.
  intros Hd (Hwf & Hv & Ho & Hk) H. unfold leaf_step in H.
  rewrite ordered_entry_identity_valid in H by apply Hwf. cbn [mbind result_bind] in H. fold (change_ident c) in H.
  destruct st as [m ch dl ms]. cbn [by_identity lf_changed lf_delta lf_missing] in *.
  assert (∀ o, IndexChange.operation c = o → o ≠ RESET) as Hno by (by intros ? <-).
  destruct (IndexChange.operation c) eqn:Hop, (m !! change_ident c) as [e|] eqn:He; try (by destruct (Hno _ eq_refl)).
  - injection H as <-. split; [done| |simpl; lia|done]. apply altered_unlocated; [done|]. cbn [by_identity]. rewrite He. unfold change_entry. by rewrite Hop.
  - apply bind_Ok in H as (e & [-> Hex]%exact_entry_made & H); [|done|apply Hwf]. injection H as <-. split; [| | |done]; cbn.
    + by apply map_Forall_insert_2.
    + apply altered_unlocated; [intros; by rewrite lookup_insert_ne|]. rewrite lookup_insert_eq, He. unfold change_entry. by rewrite Hop.
    + rewrite map_size_insert_None by done. lia.
  - destruct (Hd _ _ He) as [Hid Hex]. destruct (IndexEntry.live e) eqn:Hl.
    + apply bind_Ok in H as (e' & [-> Hcsn]%ended_at_Ok & H). injection H as <-. split; [| | |done]; cbn.
      * apply map_Forall_insert_2; [|done]. split; [done|]. destruct Hex as ([] & Hve & Hke). split; [by split|done].
      * apply altered_unlocated; [intros; by rewrite lookup_insert_ne|]. rewrite lookup_insert_eq, He. unfold change_entry. rewrite Hop.
        cbn. change (IndexEntry.live (IndexEntry.unlocated e)) with (IndexEntry.live e). by rewrite Hl.
      * rewrite map_size_insert_Some by (by eexists). lia.
    + injection H as <-. split; [done| |simpl; lia|done]. apply altered_unlocated; [done|]. cbn [by_identity]. rewrite He. unfold change_entry. rewrite Hop.
      cbn. change (IndexEntry.live (IndexEntry.unlocated e)) with (IndexEntry.live e). by rewrite Hl.
  - injection H as <-. split; [done| |simpl; lia|done]. apply altered_unlocated; [done|]. cbn [by_identity]. rewrite He. unfold change_entry. by rewrite Hop.
  - injection H as <-. split; [| | |done]; cbn.
    + by apply map_Forall_delete.
    + apply altered_unlocated; [intros; by rewrite lookup_delete_ne|]. rewrite lookup_delete_eq, He. unfold change_entry. by rewrite Hop.
    + rewrite map_size_delete_Some by (by eexists). assert (size m ≠ 0%nat); [|lia].
      intros Hz%map_size_empty_inv. by rewrite Hz in He.
  - injection H as <-. split; [done| |simpl; lia|done]. apply altered_unlocated; [done|]. cbn [by_identity]. rewrite He. unfold change_entry. by rewrite Hop.
Qed.

Lemma leaf_steps_ok st batch st' : dict_ok (by_identity st) → Forall exact_change batch → leaf_steps st batch = Ok st' →
  stepped st batch st'.
Proof.
  revert st. induction batch as [|c batch IH]; intros st Hd Hb H; cbn [leaf_steps] in H.
  { injection H as <-. split; [done|done|lia|done]. }
  apply Forall_cons in Hb as [Hc Hb]. apply bind_Ok in H as (st1 & H1 & H).
  apply leaf_step_ok in H1 as [Hd1 Hm1 Hdl1 Hs1]; [|done..]. apply IH in H as [Hd2 Hm2 Hdl2 Hs2]; [|done..].
  split; [done| |lia|].
  - rewrite Hm2, Hm1. done.
  - intros Hf. destruct (Hs2 Hf) as (-> & -> & Hf1). by apply Hs1.
Qed.

Lemma sorted_entries_ok (m : dict) : dict_ok m →
  ordered_idents (sorted_entries m) ∧ Forall exact_entry (sorted_entries m) ∧
  contents_of (sorted_entries m) = IndexEntry.unlocated <$> m ∧ zlen (sorted_entries m) = Z.of_nat (size m).
Proof.
  intros Hd. unfold sorted_entries. pose proof (merge_sort_Permutation key_le (map_to_list m)) as Hp.
  pose proof (StronglySorted_merge_sort key_le (map_to_list m)) as Hs. set (l := merge_sort _ _) in *.
  assert (Forall (λ x, x.1 = eident x.2 ∧ exact_entry x.2) l) as Hf.
  { rewrite Hp. apply Forall_forall. intros [i e] Hi%elem_of_map_to_list. by destruct (Hd _ _ Hi) as [<- ?]. }
  apply Forall_and in Hf as [Hk Hex]. apply keyed_idents in Hk.
  assert (NoDup l.*1) as Hnd by (rewrite Hp; apply NoDup_fst_map_to_list).
  split_and!.
  - unfold ordered_idents. rewrite <-Hk. by apply sorted_strict.
  - by apply Forall_fmap.
  - apply map_eq. intros i. unfold contents_of. rewrite lookup_fmap.
    assert ((λ e, (eident e, IndexEntry.unlocated e)) <$> l.*2 = prod_map id IndexEntry.unlocated <$> l) as ->.
    { clear -Hk. induction l as [|[j e] l IH]; [done|]. rewrite !fmap_cons in Hk. injection Hk as -> Hk.
      rewrite !fmap_cons, IH by done. done. }
    rewrite list_to_map_fmap, lookup_fmap. f_equal.
    rewrite (list_to_map_proper l (map_to_list m)) by done. by rewrite list_to_map_to_list.
  - unfold zlen. rewrite length_fmap, Hp, length_map_to_list. done.
Qed.

Lemma dict_of_list pairs : NoDup pairs.*1 → dict_of pairs = list_to_map pairs.
Proof.
  unfold dict_of. intros Hnd. rewrite <-(right_id_L ∅ (∪) (list_to_map pairs)). generalize (∅ : dict). revert Hnd.
  induction pairs as [|[i e] l IH]; intros Hnd m; [symmetry; apply (left_id_L ∅ (∪))|].
  rewrite fmap_cons in Hnd. apply NoDup_cons in Hnd as [Hni Hnd]. cbn [fold_left fst snd]. rewrite IH by done.
  change (list_to_map ((i, e) :: l)) with (<[i := e]> (list_to_map l) : dict). rewrite <-insert_union_l.
  symmetry. apply insert_union_r. by apply not_elem_of_list_to_map_1.
Qed.

(** The dictionary of a decoded leaf. *)
Lemma leaf_dict es : ordered_idents es → Forall exact_entry es →
  let m := dict_of ((λ e, (eident e, e)) <$> es) in
  dict_ok m ∧ IndexEntry.unlocated <$> m = contents_of es ∧ Z.of_nat (size m) = zlen es.
Proof.
  intros Hs Hex m. pose proof (ordered_idents_nodup _ Hs) as Hnd. rewrite Forall_forall in Hex.
  assert (NoDup ((λ e, (eident e, e)) <$> es).*1) as Hnd' by by rewrite <-list_fmap_compose.
  unfold m. rewrite dict_of_list by done. split_and!.
  - intros i e Hi. apply elem_of_list_to_map in Hi; [|done]. apply list_elem_of_fmap in Hi as (e' & [= -> ->] & He). auto.
  - unfold contents_of. rewrite <-list_to_map_fmap. f_equal. by rewrite <-list_fmap_compose.
  - unfold zlen. rewrite <-(length_fmap (λ e, (eident e, e)) es), <-length_map_to_list. f_equal.
    by rewrite map_to_list_to_map.
Qed.

Lemma below_only lo hi (nodes : list node) : Forall (λ n, lo <= n.1 < hi) nodes → Forall (λ n, n.1 < hi) nodes.
Proof. intros H. eapply Forall_impl; [exact H|]. intros n Hn. cbn beta in *. lia. Qed.

(** ** What copying one subtree achieves *)

(** The new nodes carry trees over the fresh pages and the untouched old ones, and hold the old
    entries with the batch applied. *)
Definition copied (old : gmap Z Page.t) (size start lsn : Z) (d : nat) (es : list IndexEntry.t)
    (batch : list IndexChange.t) (pages : list Page.t) (res : CowResult) (pages' : list Page.t) : Prop :=
  ∃ new pieces, pages' = pages ++ new ∧ fresh start pages' ∧ stamped size lsn new ∧
    forest (store old pages') d (cr_nodes res) pieces ∧ ordered_idents (concat pieces) ∧
    Forall (λ n, FIRST_ORDERED_TREE_PAGE <= n.1 < start + zlen pages') (cr_nodes res) ∧
    contents_of (concat pieces) = apply_changes (contents_of es) batch ∧
    cr_delta res = zlen (concat pieces) - zlen es ∧
    (cr_changed res = false → pages' = pages ∧ concat pieces = es).

Lemma pack_leaf_ok old size start lsn l pages nodes pages' :
  fresh start pages → Forall exact_entry l → ordered_idents l → pack_leaf size start lsn l pages = Ok (nodes, pages') →
  ∃ new pieces, pages' = pages ++ new ∧ fresh start pages' ∧ stamped size lsn new ∧
    forest (store old pages') 0 nodes pieces ∧ same_entries (concat pieces) l ∧
    Forall (λ n, start + zlen pages <= n.1 < start + zlen pages') nodes ∧ (l ≠ [] → nodes ≠ []).
Proof.
  intros Hfr Hex Hs H. unfold pack_leaf in H. rewrite cow_pack_eq in H. apply bind_Ok in H as ([sums pages1] & Ha & H).
  injection H as <- ->. destruct (pack_leaves_ok old _ _ _ _ _ _ _ Hfr Hex Hs Ha) as (new & pieces & -> & Hfr' & Hst & Hlev & Hsame & Hlow & Hne).
  exists new, pieces. split_and!; try done; [apply Hlev|]. intros Hl Hn. apply Hne; [done|]. by apply fmap_nil_inv in Hn.
Qed.

Lemma pack_internal_ok old d size start lsn nodes pieces pages nodes' pages' :
  fresh start pages → forest (store old pages) d nodes pieces → ordered_idents (concat pieces) →
  Forall (λ n, n.1 < start + zlen pages) nodes → pack_internal size start lsn nodes pages = Ok (nodes', pages') →
  ∃ new pieces', pages' = pages ++ new ∧ fresh start pages' ∧ stamped size lsn new ∧
    forest (store old pages') (S d) nodes' pieces' ∧ concat pieces' = concat pieces ∧
    Forall (λ n, start + zlen pages <= n.1 < start + zlen pages') nodes' ∧ (nodes ≠ [] → nodes' ≠ []).
Proof.
  intros Hfr Hfor Hs Hlow H. rewrite pack_internal_eq in H. apply bind_Ok in H as ([sums pages1] & Ha & H).
  injection H as <- ->. destruct (pack_pointers_ok _ _ _ _ _ _ _ _ _ _ Hfr Hfor Hs Hlow Ha)
    as (new & groups & ngs & pgs & -> & -> & -> & -> & Hlens & Hgne & _ & Hup & Hfr' & Hst & Hnew).
  exists new, (concat (A:=IndexEntry.t) <$> pgs). rewrite level_nodes_summaries. split_and!; try done.
  - clear. induction pgs as [|pg pgs IH]; [done|]. by rewrite fmap_cons, !concat_cons, IH, concat_app.
  - eapply Forall_impl; [apply nodes_of_low|]. intros n Hn. cbn beta in *. rewrite zlen_app. unfold zlen in *. lia.
  - intros Hne Hn. destruct groups; [|done]. by apply Forall2_nil_inv_r in Hlens as ->.
Qed.

(** A tree of the old pages below the start page is one of the extended store. *)
Lemma tree_old old start pages d pg es : fresh start pages → pg < start → tree old d pg es → tree (store old pages) d pg es.
Proof. intros Hfr Hpg. apply tree_agree. intros q Hq. apply (store_old old start); [done|lia]. Qed.

Lemma tree_last pages d pg es : tree pages d pg es → ∃ e, last es = Some e ∧ last (eident <$> es) = Some (eident e) ∧ exact_entry e.
Proof.
  intros [Hne Hex]%tree_entries. assert (∃ e, last es = Some e) as [e He] by by apply last_is_Some.
  exists e. split; [done|]. split; [by rewrite (fmap_last eident), He|].
  rewrite Forall_forall in Hex. apply Hex. apply last_Some in He as [l ->]. set_solver.
Qed.

Lemma apply_leaf_ok old size start lsn pg es batch pages res pages' :
  tree old 0 pg es → FIRST_ORDERED_TREE_PAGE <= pg < start → fresh start pages → Forall exact_change batch →
  apply_leaf old size start lsn pg batch pages = Ok (res, pages') → copied old size start lsn 0 es batch pages res pages'.
Proof.
  intros Ht Hpg Hfr Hb H. apply tree_leaf in Ht as Hl. destruct Hl as (page & Hp & Hpi & Hdec & Hne & Hex & Hs).
  unfold apply_leaf in H. rewrite Hp, Hdec in H. cbn [mbind result_bind] in H.
  rewrite keyed_entries in H by done. cbn [mbind result_bind] in H.
  destruct (leaf_dict es Hs Hex) as (Hd & Hm & Hsz). set (m := dict_of _) in *.
  apply bind_Ok in H as (st & Hst & H). apply leaf_steps_ok in Hst as [Hd' Hm' Hdl Hsame]; [|done..].
  cbn [by_identity lf_changed lf_delta] in *. rewrite Hm in Hm'.
  destruct (sorted_entries_ok _ Hd') as (Hso & Hexo & Hco & Hzo).
  destruct (lf_changed st) eqn:Hch; cbn [negb] in H.
  - apply bind_Ok in H as ([nodes pages1] & Hpk & H). injection H as <- ->.
    destruct (pack_leaf_ok old _ _ _ _ _ _ _ Hfr Hexo Hso Hpk) as (new & pieces & -> & Hfr' & Hstp & Hfor & Hse & Hlow & _).
    exists new, pieces. cbn [cr_nodes cr_delta cr_changed]. split_and!; try done.
    + by eapply same_entries_ordered.
    + eapply Forall_impl; [exact Hlow|]. intros n Hn. cbn beta in *. pose proof (zlen_nonneg pages). lia.
    + by rewrite (contents_same _ _ Hse), Hco.
    + apply (f_equal length) in Hse. rewrite !length_fmap in Hse. unfold zlen in *. lia.
  - destruct (Hsame eq_refl) as (Hbi & Hd0 & _). destruct (tree_last _ _ _ _ Ht) as (e & Hle & Hli & Hee).
    rewrite (proj2 (py_last_Ok _ _) Hle) in H. cbn [mbind result_bind] in H. unfold identity_of_entry in H.
    rewrite ordered_entry_identity_valid in H by apply Hee. cbn [mbind result_bind] in H. injection H as <- <-.
    exists [], [es]. cbn [cr_nodes cr_delta cr_changed concat]. rewrite !app_nil_r. split_and!; try done; [constructor| | | |].
    + constructor; [|constructor]. split; cbn [fst snd]; [apply (tree_old old start); [done|lia|done]|done].
    + constructor; [|constructor]. cbn [fst]. pose proof (zlen_nonneg pages). split; [apply Hpg|lia].
    + by rewrite <-Hm', Hbi, Hm.
    + lia.
Qed.

(** ** Routing a batch to the children *)

Definition bucket (highs : list ident) (i : ident) : nat :=
  Nat.min (bisect_left ident_ltb highs i) (length highs - 1).

(** The changes of a batch that child [k] receives, in their order. *)
Definition routed (highs : list ident) (batch : list IndexChange.t) (k : nat) : list IndexChange.t :=
  filter (λ c, bucket highs (change_ident c) = k) batch.

Lemma group_changes_ok highs batch groups : highs ≠ [] → Forall exact_change batch →
  ∃ groups', group_changes highs groups batch = Ok groups' ∧ length groups' = length groups ∧
    ∀ k g, groups !! k = Some g → groups' !! k = Some (g ++ routed highs batch k).
Proof.
  intros Hne Hb. revert groups. induction Hb as [|c batch Hc _ IH]; intros groups; cbn [group_changes].
  { exists groups. split_and!; [done..|]. intros k g ->. by rewrite app_nil_r. }
  unfold group_change. rewrite ordered_entry_identity_valid by apply Hc. cbn [mbind result_bind].
  fold (change_ident c). rewrite bool_decide_false by done. fold (bucket highs (change_ident c)). cbn [mbind result_bind].
  set (b := bucket highs (change_ident c)) in *.
  destruct (IH (alter (λ g, g ++ [c]) b groups)) as (gs & -> & Hlen & Hgs).
  exists gs. split; [done|]. split; [by rewrite Hlen, length_alter|]. intros k g Hk. unfold routed. rewrite filter_cons.
  fold b. case_decide as Hbk.
  - subst k. rewrite (Hgs b (g ++ [c])) by (by rewrite list_lookup_alter_eq, Hk). by rewrite <-app_assoc.
  - apply Hgs. by rewrite list_lookup_alter_ne.
Qed.

Lemma bucket_lt highs i : highs ≠ [] → (bucket highs i < length highs)%nat.
Proof. intros Hne. unfold bucket. destruct highs; [done|]. simpl length. lia. Qed.

Lemma bucket_mono highs i j : StronglySorted ident_lt highs → i = j ∨ ident_lt i j → (bucket highs i <= bucket highs j)%nat.
Proof.
  intros Hs Hij. unfold bucket. enough (bisect_left ident_ltb highs i <= bisect_left ident_ltb highs j)%nat by lia.
  destruct (bisect_left_sorted highs i Hs) as (Hi1 & _ & Hi3). destruct (bisect_left_sorted highs j Hs) as (_ & Hj2 & Hj3).
  set (bi := bisect_left ident_ltb highs i) in *. set (bj := bisect_left ident_ltb highs j) in *.
  destruct (decide (bi <= bj)%nat) as [|Hgt]; [done|]. exfalso.
  destruct (lookup_lt_is_Some_2 highs bj) as [h Hh]; [lia|]. rewrite Forall_lookup in Hi1, Hj2.
  pose proof (Hi1 bj h) as Hlt. rewrite lookup_take_lt in Hlt by lia. specialize (Hlt Hh).
  pose proof (Hj2 0%nat h) as Hnlt. rewrite lookup_drop, Nat.add_0_r in Hnlt. specialize (Hnlt Hh).
  assert (ident_ltb h j = true); [|congruence]. apply ident_ltb_lt. destruct Hij as [->|Hij]; [done|by etrans].
Qed.

(** An entry is found in the child its identity is routed to. *)
Lemma bucket_hit pointers pieces k piece e : StronglySorted ident_lt (pident <$> pointers) →
  Forall2 covers pointers pieces → ordered_idents (concat pieces) → pieces !! k = Some piece → e ∈ piece →
  bucket (pident <$> pointers) (eident e) = k.
Proof.
  intros Hs Hcov Ho Hk He. set (highs := pident <$> pointers) in *. pose proof (Forall2_length _ _ _ Hcov) as Hlen.
  apply lookup_lt_Some in Hk as Hklt. unfold bucket. unfold highs at 2. rewrite length_fmap.
  destruct (bisect_left_sorted highs (eident e) Hs) as (H1 & H2 & H3). set (b := bisect_left ident_ltb highs (eident e)) in *.
  enough (b = k) by lia. rewrite Forall_lookup in H1, H2.
  assert (∀ j, (j < length pieces)%nat → ∃ p pc, pointers !! j = Some p ∧ pieces !! j = Some pc ∧ covers p pc) as Hat.
  { intros j Hj. destruct (lookup_lt_is_Some_2 pieces j Hj) as [pc Hpc]. destruct (Forall2_lookup_r _ _ _ _ _ Hcov Hpc) as (p & Hp & Hc).
    by exists p, pc. }
  apply Nat.le_antisymm.
  - apply Nat.nlt_ge. intros Hlt. destruct (Hat k Hklt) as (p & pc & Hp & Hpc & Hc). rewrite Hk in Hpc. injection Hpc as <-.
    assert (ordered_idents piece) as Hpo by by eapply ordered_piece.
    pose proof (H1 k (pident p)) as Hpl. rewrite lookup_take_lt in Hpl by done. unfold highs in Hpl at 1.
    rewrite list_lookup_fmap, Hp in Hpl. specialize (Hpl eq_refl).
    destruct (covers_upper _ _ _ Hc Hpo He) as [Heq|Hl2]; [rewrite Heq in Hpl; by apply ident_lt_irrefl in Hpl|].
    eapply ident_lt_irrefl. by etrans.
  - apply Nat.nlt_ge. intros Hlt. destruct (Hat b) as (p & pc & Hp & Hpc & Hc); [lia|].
    pose proof (H2 0%nat (pident p)) as Hnl. rewrite lookup_drop, Nat.add_0_r in Hnl. unfold highs in Hnl at 1.
    rewrite list_lookup_fmap, Hp in Hnl. specialize (Hnl eq_refl).
    destruct (covers_last _ _ Hc) as (e' & He' & Heq). assert (ident_lt (eident e') (eident e)) as Hl.
    { by eapply (ordered_pieces_lt pieces b k). }
    apply ident_ltb_lt in Hl. rewrite Heq in Hl. congruence.
Qed.

(** ** Copying the children and the path above them *)

Section children.
Context (old : gmap Z Page.t) (size start lsn : Z) (d : nat).
Context (visit_child : Z → list IndexChange.t → list Page.t → result (CowResult * list Page.t)).
Hypothesis visit_child_ok : ∀ pg es batch pages res pages',
  tree old d pg es → ordered_idents es → FIRST_ORDERED_TREE_PAGE <= pg < start → fresh start pages → Forall exact_change batch →
  visit_child pg batch pages = Ok (res, pages') → copied old size start lsn d es batch pages res pages'.

(** A pointer with its share of the batch, and the entries below it. *)
Definition child_ok (x : ChildPointer.t * list IndexChange.t) (piece : list IndexEntry.t) : Prop :=
  tree old d (ChildPointer.child_page x.1) piece ∧ covers x.1 piece ∧ pointer_wf x.1 ∧ ordered_idents piece ∧
  FIRST_ORDERED_TREE_PAGE <= ChildPointer.child_page x.1 < start ∧ Forall exact_change x.2.

Definition child_done (x : ChildPointer.t * list IndexChange.t) (piece out : list IndexEntry.t) : Prop :=
  ordered_idents out ∧ contents_of out = apply_changes (contents_of piece) x.2.

(** The children of an internal page, copied or shared, with the entries each ends with. *)
Definition children_done (l : list (ChildPointer.t * list IndexChange.t)) (pieces : list (list IndexEntry.t))
    (acc : CowResult) (pages : list Page.t) (acc' : CowResult) (pages' : list Page.t) : Prop :=
  ∃ new nodes fpieces outs, pages' = pages ++ new ∧ fresh start pages' ∧ stamped size lsn new ∧
    cr_nodes acc' = cr_nodes acc ++ nodes ∧ forest (store old pages') d nodes fpieces ∧
    Forall (λ n, FIRST_ORDERED_TREE_PAGE <= n.1 < start + zlen pages') nodes ∧ concat fpieces = concat outs ∧ Forall3 child_done l pieces outs ∧
    cr_delta acc' = cr_delta acc + zlen (concat outs) - zlen (concat pieces) ∧
    (cr_changed acc' = false → cr_changed acc = false ∧ pages' = pages ∧ concat outs = concat pieces).

Lemma cow_children_ok l pieces acc pages acc' pages' : Forall2 child_ok l pieces → fresh start pages →
  cow_children visit_child l acc pages = Ok (acc', pages') → children_done l pieces acc pages acc' pages'.
Proof using visit_child_ok.
  intros H. revert acc pages. induction H as [|[p g] piece l pieces (Ht & Hcov & Hp & Ho & Hlow & Hg) _ IH];
    intros acc pages Hfr Hc; cbn [cow_children] in Hc.
  { injection Hc as <- <-. exists [], [], [], []. rewrite !app_nil_r. split_and!; try done; try constructor. cbn. lia. }
  cbn [fst snd] in *. case_bool_decide as Hempty.
  - unfold ChildPointer.high_identity in Hc. rewrite ordered_entry_identity_valid in Hc by apply Hp. cbn [mbind result_bind] in Hc.
    destruct (IH _ _ Hfr Hc) as (new & nodes & fps & outs & -> & Hfr' & Hst & Hn & Hfor & Hl & Hcc & Hdone & Hdel & Hch).
    cbn [cr_nodes cr_changed cr_delta] in *.
    exists new, ((ChildPointer.child_page p, pident p) :: nodes), (piece :: fps), (piece :: outs).
    rewrite !concat_cons. split_and!; try done.
    + by rewrite Hn, <-app_assoc.
    + constructor; [|done]. split; cbn [fst snd]; [apply (tree_old old start); [done|lia|done]|done].
    + constructor; [|done]. cbn [fst]. pose proof (zlen_nonneg (pages ++ new)). lia.
    + by rewrite Hcc.
    + constructor; [|done]. split; [done|]. subst g. done.
    + rewrite !zlen_app. lia.
    + intros Hf. destruct (Hch Hf) as (? & ? & ->). done.
  - apply bind_Ok in Hc as ([child pages1] & Hv & Hc). apply visit_child_ok with (es := piece) in Hv; [|done..].
    destruct Hv as (new1 & ps1 & -> & Hfr1 & Hst1 & Hfor1 & Ho1 & Hl1 & Hm1 & Hd1 & Hch1).
    destruct (IH _ _ Hfr1 Hc) as (new & nodes & fps & outs & -> & Hfr' & Hst & Hn & Hfor & Hl & Hcc & Hdone & Hdel & Hch).
    cbn [cr_nodes cr_changed cr_delta] in *.
    exists (new1 ++ new), (cr_nodes child ++ nodes), (ps1 ++ fps), (concat ps1 :: outs).
    rewrite concat_app, !concat_cons. split_and!; try done.
    + by rewrite app_assoc.
    + by apply Forall_app.
    + by rewrite Hn, app_assoc.
    + apply Forall2_app; [|done]. eapply forest_agree; [|exact (below_only _ _ _ Hl1)|exact Hfor1]. intros q Hq. by apply (store_kept old start).
    + apply Forall_app. split; [|done]. eapply Forall_impl; [exact Hl1|]. intros n Hn1. cbn beta in *.
      pose proof (zlen_nonneg new). rewrite (zlen_app (pages ++ new1) new). lia.
    + by rewrite Hcc.
    + by constructor.
    + rewrite !zlen_app. lia.
    + intros Hf. destruct (Hch Hf) as (Hor & Hpages & ->). apply orb_false_iff in Hor as [-> Hcf].
      destruct (Hch1 Hcf) as [Hp1 ->]. split; [done|]. split; [|done]. by rewrite Hpages, Hp1.
Qed.

End children.

Lemma concerning_routed highs batch k i :
  concerning i (routed highs batch k) = if decide (bucket highs i = k) then concerning i batch else [].
Proof.
  unfold concerning, routed. rewrite list_filter_filter. case_decide as Hk.
  - apply list_filter_iff. intros c. naive_solver.
  - induction batch as [|c batch IH]; [done|]. rewrite filter_cons, decide_False; [done|]. naive_solver.
Qed.

Section routing.
Context (pointers : list ChildPointer.t) (pieces outs : list (list IndexEntry.t)) (batch : list IndexChange.t).
Context (Hs : StronglySorted ident_lt (pident <$> pointers)) (Hne : pointers ≠ []).
Context (Hcov : Forall2 covers pointers pieces) (Ho : ordered_idents (concat pieces)) (Hlen : length outs = length pieces).
Context (Hdone : ∀ k piece out, pieces !! k = Some piece → outs !! k = Some out →
  ordered_idents out ∧ contents_of out = apply_changes (contents_of piece) (routed (pident <$> pointers) batch k)).

Lemma piece_elsewhere i k piece : pieces !! k = Some piece → bucket (pident <$> pointers) i ≠ k → contents_of piece !! i = None.
Proof using Hs Hcov Ho.
  intros Hk Hb. apply contents_of_None. intros (e & -> & He)%list_elem_of_fmap. apply Hb. by eapply bucket_hit.
Qed.

Lemma out_at k out : outs !! k = Some out → ∃ piece, pieces !! k = Some piece ∧ ordered_idents out ∧
  ∀ i, contents_of out !! i =
    if decide (bucket (pident <$> pointers) i = k) then change_entries (contents_of piece !! i) (concerning i batch) else None.
Proof using All.
  intros Hk. destruct (lookup_lt_is_Some_2 pieces k) as [piece Hp]; [rewrite <-Hlen; by eapply lookup_lt_Some|].
  exists piece. split; [done|]. destruct (Hdone _ _ _ Hp Hk) as [Hoo Hc]. split; [done|]. intros i.
  rewrite Hc, apply_changes_lookup, concerning_routed. case_decide as Hb; [done|]. cbn. by eapply piece_elsewhere.
Qed.

Lemma out_bucket k out e : outs !! k = Some out → e ∈ out → bucket (pident <$> pointers) (eident e) = k.
Proof using All.
  intros Hk He. destruct (out_at k out Hk) as (piece & _ & _ & Hi). specialize (Hi (eident e)).
  destruct (decide _) as [|Hb] in Hi; [done|]. apply contents_of_None in Hi. destruct Hi. by apply list_elem_of_fmap_2.
Qed.

(** Routing loses nothing and mixes nothing: the copied children, side by side, are the whole with
    the whole batch applied. *)
Lemma routed_whole : ordered_idents (concat outs) ∧ contents_of (concat outs) = apply_changes (contents_of (concat pieces)) batch.
Proof using All.
  split.
  - apply ordered_concat; [intros k p Hk; by destruct (out_at k p Hk) as (? & _ & ? & _)|].
    intros j k p q e e' Hjk Hj Hk He He'. pose proof (out_bucket _ _ _ Hj He) as Hbe. pose proof (out_bucket _ _ _ Hk He') as Hbe'.
    destruct (ident_cmp (eident e) (eident e')) eqn:Hc; [|done|].
    + apply (cmp_Eq (cmp:=ident_cmp)) in Hc. rewrite Hc in Hbe. lia.
    + assert (ident_lt (eident e') (eident e)) as Hl.
      { unfold ident_lt. by rewrite (cmp_flip (cmp:=ident_cmp) (eident e) (eident e')), Hc. }
      pose proof (bucket_mono _ _ _ Hs (or_intror Hl)). lia.
  - apply map_eq. intros i. rewrite apply_changes_lookup. set (k := bucket (pident <$> pointers) i).
    assert (k < length pieces)%nat as Hk.
    { rewrite <-(Forall2_length _ _ _ Hcov), <-(length_fmap pident). apply bucket_lt. intros Hn. by apply fmap_nil_inv in Hn. }
    destruct (lookup_lt_is_Some_2 pieces k Hk) as [piece Hp]. rewrite <-Hlen in Hk.
    destruct (lookup_lt_is_Some_2 outs k Hk) as [out Hout]. destruct (out_at k out Hout) as (piece' & Hp' & _ & Hi).
    rewrite Hp in Hp'. injection Hp' as <-.
    rewrite (contents_of_concat outs k out i Hout), (contents_of_concat pieces k piece i Hp).
    + rewrite Hi. by rewrite decide_True.
    + intros j p Hj Hjk. by eapply piece_elsewhere.
    + intros j p Hj Hjk. destruct (out_at j p Hj) as (q & _ & _ & Hq). rewrite Hq. by rewrite decide_False.
Qed.
End routing.

Lemma concat_alter_length {A} (ls : list (list A)) k x : (k < length ls)%nat →
  zlen (concat (alter (λ g, g ++ [x]) k ls)) = zlen (concat ls) + 1.
Proof.
  revert k. induction ls as [|l ls IH]; intros k Hk; simpl in Hk; [lia|]. destruct k as [|k].
  - change (alter _ 0%nat (l :: ls)) with ((l ++ [x]) :: ls). rewrite !concat_cons, !zlen_app. change (zlen [x]) with 1. lia.
  - change (alter ?f (S k) (l :: ls)) with (l :: alter f k ls). rewrite !concat_cons, !zlen_app, IH by lia. lia.
Qed.

Lemma group_changes_total highs batch groups groups' : length highs = length groups →
  group_changes highs groups batch = Ok groups' → zlen (concat groups') = zlen (concat groups) + zlen batch.
Proof.
  revert groups. induction batch as [|c batch IH]; intros groups Hl H; cbn [group_changes] in H.
  { injection H as <-. change (zlen (@nil IndexChange.t)) with 0. lia. }
  apply bind_Ok in H as (gs & Hg & H). unfold group_change in Hg. apply bind_Ok in Hg as (i & _ & Hg).
  case_bool_decide as Hne; [done|]. injection Hg as <-. apply IH in H; [|by rewrite length_alter].
  rewrite H, concat_alter_length, zlen_cons; [lia|]. rewrite <-Hl. destruct highs; [done|]. simpl length. lia.
Qed.

(** The groups an internal page makes of a batch, one for each child. *)
Lemma groups_ok old start d pg pointers pieces batch : ordered_idents (concat pieces) → FIRST_ORDERED_TREE_PAGE <= pg < start →
  Forall exact_change batch → Forall pointer_wf pointers → Forall (λ p, ChildPointer.child_page p < pg) pointers →
  StronglySorted ident_lt (pident <$> pointers) →
  Forall2 (λ p piece, tree old d (ChildPointer.child_page p) piece ∧ covers p piece) pointers pieces → pointers ≠ [] →
  ∃ groups, group_changes (pident <$> pointers) (replicate (length pointers) []) batch = Ok groups ∧
    (∀ k, (k < length pointers)%nat → groups !! k = Some (routed (pident <$> pointers) batch k)) ∧
    Forall2 (child_ok old start d) (zip pointers groups) pieces ∧
    length groups = length pointers ∧ zlen (concat groups) = zlen batch.
Proof.
  intros Ho Hpg Hb Hwf Hlow Hs Hf Hne. set (highs := pident <$> pointers) in *.
  destruct (group_changes_ok highs batch (replicate (length pointers) [])) as (groups & Hg & Hlg & Hgs); [|done|].
  { intros Hn. by apply fmap_nil_inv in Hn. }
  apply group_changes_total in Hg as Htot; [|by unfold highs; rewrite length_fmap, length_replicate].
  rewrite length_replicate in Hlg.
  assert (∀ k, (k < length pointers)%nat → groups !! k = Some (routed highs batch k)) as Hgk.
  { intros k Hk. apply (Hgs k []). by apply lookup_replicate_2. }
  exists groups. split_and!; [done..| |done|].
  - apply Forall2_same_length_lookup. pose proof (Forall2_length _ _ _ Hf). split; [rewrite length_zip_with; lia|].
    intros k [p g] piece Hk Hpc. apply lookup_zip_with_Some in Hk as (? & ? & [= <- <-] & Hkp & Hkg).
    pose proof (lookup_lt_Some _ _ _ Hkp) as Hkl. rewrite (Hgk k Hkl) in Hkg. injection Hkg as <-.
    destruct (Forall2_lookup_lr _ _ _ _ _ _ Hf Hkp Hpc) as [Htp Hcp]. rewrite Forall_forall in Hwf, Hlow.
    pose proof (list_elem_of_lookup_2 _ _ _ Hkp) as Hin. specialize (Hwf _ Hin). split_and!; cbn [fst snd]; try done; [by eapply ordered_piece|apply Hwf| |].
    + specialize (Hlow _ Hin). cbn beta in Hlow. lia.
    + rewrite Forall_forall in Hb |- *. intros c [_ Hin']%list_elem_of_filter. by apply Hb.
  - assert (∀ n, concat (replicate n (@nil IndexChange.t)) = []) as Hn by (induction n; done).
    rewrite Htot, Hn. done.
Qed.

(** The copied children side by side are the page's entries with the whole batch applied. *)
Lemma children_whole old d pointers pieces outs groups batch :
  StronglySorted ident_lt (pident <$> pointers) → pointers ≠ [] →
  Forall2 (λ p piece, tree old d (ChildPointer.child_page p) piece ∧ covers p piece) pointers pieces →
  ordered_idents (concat pieces) →
  (∀ k, (k < length pointers)%nat → groups !! k = Some (routed (pident <$> pointers) batch k)) →
  Forall3 child_done (zip pointers groups) pieces outs →
  ordered_idents (concat outs) ∧ contents_of (concat outs) = apply_changes (contents_of (concat pieces)) batch.
Proof.
  intros Hs Hne Hf Ho Hgk Hdone. apply (routed_whole pointers pieces outs batch Hs Hne); [|done| |].
  { eapply Forall2_impl; [exact Hf|]. by intros p piece [_ ?]. }
  { by apply Forall3_length_lr in Hdone as Hl3; apply Forall3_length_lm in Hdone; lia. }
  { intros k piece out Hk Hout. destruct (Forall3_lookup_m _ _ _ _ _ _ Hdone Hk) as ([p g] & out' & Hz & Hout' & Hd).
    rewrite Hout in Hout'. injection Hout' as <-. apply lookup_zip_with_Some in Hz as (? & ? & [= <- <-] & Hkp & Hkg).
    rewrite (Hgk k (lookup_lt_Some _ _ _ Hkp)) in Hkg. injection Hkg as <-. exact Hd. }
Qed.

Lemma cow_visit_ok old size start lsn d pg es batch pages res pages' :
  tree old d pg es → ordered_idents es → FIRST_ORDERED_TREE_PAGE <= pg < start → fresh start pages → Forall exact_change batch →
  cow_visit old size start lsn d pg batch pages = Ok (res, pages') → copied old size start lsn d es batch pages res pages'.
Proof.
  revert pg es batch pages res pages'. induction d as [|d IH]; intros pg es batch pages res pages' Ht Ho Hpg Hfr Hb H;
    [by eapply apply_leaf_ok|].
  apply tree_internal in Ht as Hi. destruct Hi as (page & pointers & pieces & Hp & Hpi & Hdec & Hne & -> & Hwf & Hlow & Hs & Hf).
  cbn [cow_visit] in H. rewrite Hp, Hdec in H. cbn [mbind result_bind] in H. rewrite traverse_highs in H by done.
  cbn [mbind result_bind] in H. set (highs := pident <$> pointers) in *.
  destruct (groups_ok old start d pg pointers pieces batch Ho Hpg Hb Hwf Hlow Hs Hf Hne) as (groups & Hg & Hgk & Hok & _).
  fold highs in Hg, Hgk. rewrite Hg in H. cbn [mbind result_bind] in H. apply bind_Ok in H as ([child pages1] & Hc & H).
  apply (cow_children_ok old size start lsn d) with (pieces := pieces) in Hc; [|exact IH|done..].
  destruct Hc as (new & nodes & fps & outs & -> & Hfr1 & Hst & Hn & Hfor & Hl & Hcc & Hdone & Hdel & Hch).
  cbn [cr_nodes cr_changed cr_delta app] in *. subst nodes.
  destruct (children_whole old d pointers pieces outs groups batch Hs Hne Hf Ho Hgk Hdone) as [Hoo Hco].
  rewrite <-Hcc in Hoo, Hco. destruct (cr_changed child) eqn:Hchd; cbn [negb] in H.
  - apply bind_Ok in H as ([nodes pages2] & Hpk & H). injection H as <- ->.
    destruct (pack_internal_ok old d size start lsn _ _ _ _ _ Hfr1 Hfor Hoo (below_only _ _ _ Hl) Hpk)
      as (new2 & ps2 & -> & Hfr2 & Hst2 & Hfor2 & Hcc2 & Hl2 & _).
    exists (new ++ new2), ps2. cbn [cr_nodes cr_changed cr_delta]. rewrite Hcc2. split_and!; try done.
    + by rewrite app_assoc.
    + by apply Forall_app.
    + eapply Forall_impl; [exact Hl2|]. intros n Hn2. cbn beta in *. pose proof (zlen_nonneg (pages ++ new)). lia.
    + rewrite Hcc. lia.
  - destruct (Hch eq_refl) as (_ & Hpages & Hsame). destruct (tree_last _ _ _ _ Ht) as (e & Hle & Hli & Hee).
    assert (∃ q, last pointers = Some q) as [q Hq] by by apply last_is_Some.
    rewrite (proj2 (py_last_Ok _ _) Hq) in H. cbn [mbind result_bind] in H. unfold ChildPointer.high_identity in H.
    assert (pointer_wf q) as Hqwf.
    { rewrite Forall_forall in Hwf. apply Hwf. apply last_Some in Hq as [l ->]. set_solver. }
    rewrite ordered_entry_identity_valid in H by apply Hqwf. cbn [mbind result_bind] in H. injection H as <- <-.
    exists [], [concat pieces]. cbn [cr_nodes cr_delta cr_changed concat]. rewrite Hpages, !app_nil_r.
    split_and!; try done; [constructor| | | |].
    + constructor; [|constructor]. split; cbn [fst snd]; [apply (tree_old old start); [done|lia|done]|].
      destruct (Forall2_last _ _ _ _ Hf Hq) as (pc & Hpc & _ & Hlast). by eapply last_concat.
    + constructor; [|constructor]. cbn [fst]. pose proof (zlen_nonneg pages). split; [apply Hpg|lia].
    + by rewrite <-Hco, Hcc, Hsame.
    + lia.
Qed.

(** ** Sorting the batch *)

#[export] Instance nat_compare_total : TotalCompare Nat.compare.
Proof.
  split.
  - apply Nat.compare_eq_iff.
  - intros. apply Nat.compare_antisym.
  - intros a b c. rewrite !Nat.compare_lt_iff. lia.
Qed.

Lemma place_le_alt a b : place_le a b ↔ ident_lt a.1.1 b.1.1 ∨ a.1.1 = b.1.1 ∧ (a.1.2 <= b.1.2)%nat.
Proof.
  unfold place_le, place_cmp, pair_cmp, ident_lt. pose proof (cmp_Eq (cmp:=ident_cmp) a.1.1 b.1.1) as He.
  destruct (ident_cmp a.1.1 b.1.1); simpl; [|naive_solver..]. rewrite Nat.compare_le_iff. naive_solver.
Qed.

#[export] Instance place_le_total : Total place_le.
Proof.
  intros a b. rewrite !place_le_alt. unfold ident_lt. pose proof (cmp_Eq (cmp:=ident_cmp) a.1.1 b.1.1) as He.
  rewrite (cmp_flip (cmp:=ident_cmp) a.1.1 b.1.1). destruct (ident_cmp a.1.1 b.1.1); [|by left; left|by right; left].
  rewrite (proj1 He eq_refl). destruct (Nat.le_ge_cases a.1.2 b.1.2); [left|right]; by right.
Qed.

#[export] Instance place_le_trans : Transitive place_le.
Proof.
  intros a b c. rewrite !place_le_alt. intros [H1|[H1 H1']] [H2|[H2 H2']].
  - left. by etrans.
  - left. by rewrite <-H2.
  - left. by rewrite H1.
  - right. split; [congruence|lia].
Qed.

Definition placed_of (k : nat) (changes : list IndexChange.t) : list placed := imap (λ i c, ((change_ident c, (k + i)%nat), c)) changes.

Lemma placed_of_cons k c changes : placed_of k (c :: changes) = ((change_ident c, k), c) :: placed_of (S k) changes.
Proof.
  unfold placed_of. cbn [imap]. f_equal; [by rewrite Nat.add_0_r|]. apply imap_ext. intros. simpl. by rewrite Nat.add_succ_r.
Qed.

Lemma placed_of_ok changes : Forall exact_change changes → traverse place (imap pair changes) = Ok (placed_of 0 changes).
Proof.
  intros H. apply traverse_Ok. apply Forall2_same_length_lookup. unfold placed_of. split; [by rewrite !length_imap|].
  intros i x y Hx Hy. rewrite list_lookup_imap in Hx. rewrite list_lookup_imap in Hy. destruct (changes !! i) as [c|] eqn:Hc; [|done].
  injection Hx as <-. injection Hy as <-. unfold place. cbn [fst snd]. rewrite Forall_forall in H.
  rewrite ordered_entry_identity_valid; [done|]. apply (H c). by eapply list_elem_of_lookup_2.
Qed.

Lemma placed_of_elem k changes x : x ∈ placed_of k changes → (k <= x.1.2)%nat ∧ x.1.1 = change_ident x.2.
Proof.
  revert k. induction changes as [|c changes IH]; intros k; [by intros ?%elem_of_nil|]. rewrite placed_of_cons.
  intros [->|H]%elem_of_cons; [done|]. apply IH in H as [H1 H2]. split; [lia|done].
Qed.

Lemma placed_of_concerning i k changes :
  (filter (λ x : placed, x.1.1 = i) (placed_of k changes)).*2 = concerning i changes.
Proof.
  revert k. induction changes as [|c changes IH]; intros k; [done|]. rewrite placed_of_cons. unfold concerning.
  rewrite !filter_cons. cbn [fst]. case_decide; [rewrite fmap_cons; cbn [snd]; f_equal|]; apply IH.
Qed.

Lemma placed_of_sorted i k changes : StronglySorted place_le (filter (λ x : placed, x.1.1 = i) (placed_of k changes)).
Proof.
  revert k. induction changes as [|c changes IH]; intros k; [constructor|]. rewrite placed_of_cons, filter_cons.
  case_decide as Hi; [|apply IH]. constructor; [apply IH|]. apply Forall_forall. intros x [Hx1 Hx2]%list_elem_of_filter.
  apply placed_of_elem in Hx2 as [Hx2 _]. apply place_le_alt. cbn [fst snd] in *. right. split; [congruence|lia].
Qed.

Lemma placed_of_inj k changes x y : x ∈ placed_of k changes → y ∈ placed_of k changes → x.1.2 = y.1.2 → x = y.
Proof.
  revert k. induction changes as [|c changes IH]; intros k; [by intros ?%elem_of_nil|]. rewrite placed_of_cons.
  intros [->|Hx]%elem_of_cons [->|Hy]%elem_of_cons Heq; [done| | |by eapply IH].
  - apply placed_of_elem in Hy as [Hy _]. cbn in Heq. lia.
  - apply placed_of_elem in Hx as [Hx _]. cbn in Heq. lia.
Qed.

Lemma sorted_filter {A} (R : A → A → Prop) (P : A → Prop) `{!∀ x, Decision (P x)} l :
  StronglySorted R l → StronglySorted R (filter P l).
Proof.
  induction 1 as [|x l _ IH Hall]; [constructor|]. rewrite filter_cons. case_decide; [|done]. constructor; [done|].
  rewrite Forall_forall in Hall |- *. intros y [_ Hy]%list_elem_of_filter. by apply Hall.
Qed.

(** Sorting moves a change only past changes to other identities. *)
Lemma order_changes_ok changes : Forall exact_change changes → ∃ ordered, order_changes changes = Ok ordered ∧
  ordered ≡ₚ changes ∧ ∀ i, concerning i ordered = concerning i changes.
Proof.
  intros H. unfold order_changes. rewrite placed_of_ok by done. cbn [mbind result_bind]. eexists. split; [done|].
  pose proof (merge_sort_Permutation place_le (placed_of 0 changes)) as Hp.
  pose proof (StronglySorted_merge_sort place_le (placed_of 0 changes)) as Hs. set (l := merge_sort _ _) in *.
  split.
  - rewrite Hp. clear. generalize 0%nat. induction changes as [|c changes IH]; intros k; [done|].
    rewrite placed_of_cons, fmap_cons. by rewrite IH.
  - intros i. rewrite <-(placed_of_concerning i 0 changes).
    assert (filter (λ x : placed, x.1.1 = i) l = filter (λ x : placed, x.1.1 = i) (placed_of 0 changes)) as <-.
    { apply (StronglySorted_unique_strong place_le).
      - intros x y [Hx Hxl]%list_elem_of_filter [Hy Hyl]%list_elem_of_filter. rewrite Hp in Hxl. rewrite !place_le_alt.
        intros Hxy Hyx. apply (placed_of_inj 0 changes); [done..|].
        destruct Hxy as [Hxy|[_ Hxy]]; [rewrite Hx, Hy in Hxy; by apply ident_lt_irrefl in Hxy|].
        destruct Hyx as [Hyx|[_ Hyx]]; [rewrite Hx, Hy in Hyx; by apply ident_lt_irrefl in Hyx|]. lia.
      - by apply sorted_filter.
      - apply placed_of_sorted.
      - by rewrite Hp. }
    assert (Forall (λ x : placed, x.1.1 = change_ident x.2) l) as Hk.
    { rewrite Hp. apply Forall_forall. intros x Hx. by apply placed_of_elem in Hx as [_ ?]. }
    clear -Hk. induction Hk as [|x l Hx _ IH]; [done|]. rewrite fmap_cons. unfold concerning in *. rewrite !filter_cons.
    rewrite <-Hx. case_decide; [rewrite fmap_cons; f_equal|]; apply IH.
Qed.

Lemma apply_changes_ordered m batch batch' : (∀ i, concerning i batch = concerning i batch') →
  apply_changes m batch = apply_changes m batch'.
Proof. intros H. apply map_eq. intros i. by rewrite !apply_changes_lookup, H. Qed.

(** ** The loop on the root *)

Lemma collapse_ok old size start lsn fuel d nodes pieces pages nodes' height' pages' :
  fresh start pages → forest (store old pages) d nodes pieces → ordered_idents (concat pieces) →
  FIRST_ORDERED_TREE_PAGE <= start → Forall (λ n, FIRST_ORDERED_TREE_PAGE <= n.1 < start + zlen pages) nodes → stamped size lsn pages →
  collapse fuel size start lsn nodes (Z.of_nat (S d)) pages = Some (Ok (nodes', height', pages')) →
  ∃ d' pieces', height' = Z.of_nat (S d') ∧ fresh start pages' ∧ stamped size lsn pages' ∧ zlen nodes' <= 1 ∧
    Forall (λ n, FIRST_ORDERED_TREE_PAGE <= n.1 < start + zlen pages') nodes' ∧ forest (store old pages') d' nodes' pieces' ∧ concat pieces' = concat pieces ∧ (nodes ≠ [] → nodes' ≠ []) ∧
    (∃ new, pages' = pages ++ new).
Proof.
  intros Hfr Hfor Hs Hst3. revert d nodes pieces pages Hfr Hfor Hs. induction fuel as [|fuel IH]; intros d nodes pieces pages Hfr Hfor Hs Hlow Hst H;
    cbn [collapse] in H; destruct (Z.leb_spec (zlen nodes) 1) as [Hone|Hmore]; try done.
  1,2: injection H as <- <- <-; exists d, pieces; split_and!; try done; exists []; by rewrite app_nil_r.
  destruct (pack_internal size start lsn nodes pages) as [[nodes1 pages1]|] eqn:Hpk; [|done].
  destruct (pack_internal_ok old d size start lsn _ _ _ _ _ Hfr Hfor Hs (below_only _ _ _ Hlow) Hpk)
    as (new & ps1 & -> & Hfr1 & Hst1 & Hfor1 & Hcc1 & Hl1 & Hne1).
  replace (Z.of_nat (S d) + 1) with (Z.of_nat (S (S d))) in H by lia.
  destruct (IH _ _ _ _ Hfr1 Hfor1) as (d' & ps' & -> & Hfr' & Hst' & Hle & Hlow' & Hfor' & Hcc' & Hne' & new' & ->); [| | |done|].
  - by rewrite Hcc1.
  - eapply Forall_impl; [exact Hl1|]. intros n Hn. cbn beta in *. pose proof (zlen_nonneg pages). lia.
  - by apply Forall_app.
  - exists d', ps'. rewrite Hcc', Hcc1. split_and!; try done; [by intros ?%Hne1%Hne'|]. exists (new ++ new'). by rewrite app_assoc.
Qed.

Lemma change_wf_csn c : IndexChange.wf c → zlen (IndexChange.key c) <= MAX_INDEX_KEY_BYTES ∧ 0 <= IndexChange.csn c < PROVISIONAL_CSN.
Proof.
  intros [H _ _]. pose proof (IndexChangeFacts.post_init_csn _ _ H).
  apply IndexChangeFacts.post_init_inv in H as (_ & _ & Hk & Hc & _). unfold MAX_U64, PROVISIONAL_CSN in *. lia.
Qed.

(** What a tree under a root holds, the empty tree included. *)
Lemma apply_batch_ok old size start lsn root height count es batch res height' pages' :
  ordered_tree old root height es → FIRST_ORDERED_TREE_PAGE <= start → root = NO_PAGE ∨ root < start → Forall exact_change batch →
  apply_batch root height count old batch size start lsn = Ok (res, height', pages') →
  ∃ d pieces, (cr_nodes res ≠ [] → height' = Z.of_nat (S d)) ∧ (cr_nodes res = [] → height' = 0) ∧
    fresh start pages' ∧ stamped size lsn pages' ∧ forest (store old pages') d (cr_nodes res) pieces ∧
    ordered_idents (concat pieces) ∧
    Forall (λ n, FIRST_ORDERED_TREE_PAGE <= n.1 < start + zlen pages') (cr_nodes res) ∧
    contents_of (concat pieces) = apply_changes (contents_of es) batch ∧ cr_delta res = zlen (concat pieces) - zlen es.
Proof.
  intros Ht Hst3 Hroot Hb H. unfold apply_batch in H. unfold ordered_tree in Ht. case_decide as Hr.
  - destruct Ht as [-> ->]. rewrite (proj2 (Z.eqb_eq _ _) Hr) in H. cbn [Z.eqb negb orb] in H.
    destruct (count =? 0); [|done]. cbn [negb] in H. apply bind_Ok in H as (st & Hst & H).
    apply bind_Ok in H as ([nodes pages1] & Hpk & H). injection H as <- <- ->.
    apply leaf_steps_ok in Hst as [Hd Hm Hdl _]; [|done..]. cbn [by_identity lf_delta] in *.
    destruct (sorted_entries_ok _ Hd) as (Hso & Hexo & Hco & Hzo).
    destruct (pack_leaf_ok old size start lsn (sorted_entries (by_identity st)) [] nodes pages') as (new & pieces & -> & Hfr' & Hst' & Hfor & Hse & Hlow & _);
      [by intros i p|done..|].
    exists 0%nat, pieces. cbn [cr_nodes cr_delta app] in *. split_and!; try done.
    + intros Hn. by rewrite bool_decide_false.
    + intros ->. done.
    + by eapply same_entries_ordered.
    + eapply Forall_impl; [exact Hlow|]. intros n Hn. cbn beta in *. change (zlen (@nil Page.t)) with 0 in Hn. lia.
    + rewrite (contents_same _ _ Hse), Hco, Hm. done.
    + apply (f_equal length) in Hse. rewrite !length_fmap in Hse. unfold zlen in *. rewrite map_size_empty in Hdl. simpl. lia.
  - destruct Ht as (Hh & Hr3 & Ht & Hs). rewrite (proj2 (Z.eqb_neq _ _) Hr), (proj2 (Z.leb_gt _ _) Hh) in H.
    apply bind_Ok in H as ([res1 pages1] & Hv & H). injection H as <- <- ->. destruct Hroot as [|Hroot]; [done|].
    destruct (cow_visit_ok old size start lsn _ _ _ batch [] res1 pages' Ht Hs (conj Hr3 Hroot)) as
      (new & pieces & -> & Hfr & Hst & Hfor & Hoo & Hlow & Hco & Hdl & _); [by intros i p|done..|].
    cbn [app] in *. exists (Z.to_nat (height - 1)), pieces. split_and!; try done.
    + intros Hn. rewrite bool_decide_false by done. lia.
    + intros ->. done.
Qed.

Lemma check_batch_ok size start lsn count changes : Forall IndexChange.wf changes →
  check_batch size start lsn count changes = Ok () →
  FIRST_ORDERED_TREE_PAGE <= start < NO_PAGE ∧ Forall exact_change changes.
Proof.
  unfold check_batch. intros Hwf H. apply bind_Ok in H as (sz & _ & H).
  destruct ((FIRST_ORDERED_TREE_PAGE <=? start) && (start <? NO_PAGE)) eqn:Hs; [|done]. cbn [negb] in H.
  destruct (negb _); [done|]. destruct (count <? 0); [done|]. apply bind_Ok in H as (us & Ht & _).
  split; [apply andb_true_iff in Hs; lia|]. apply traverse_Ok in Ht. rewrite Forall_forall in Hwf |- *.
  intros c Hc. apply list_elem_of_lookup in Hc as Hi. destruct Hi as [i Hi].
  destruct (Forall2_lookup_l _ _ _ _ _ Ht Hi) as (u & _ & Hu). unfold check_change in Hu.
  destruct (IndexChange.versioned c) eqn:Hv; [done|]. case_bool_decide as Ho; [done|]. inv_ok Hu.
  apply key_bytes_Ok in E as [_ Hk]. split; [by apply Hwf|]. split; [done|]. split; [done|apply Hk].
Qed.

Lemma check_batch_succeeds size start lsn count changes : validate_page_size size = Ok size →
  NO_LSN <= lsn < PROVISIONAL_CSN → FIRST_ORDERED_TREE_PAGE <= start < NO_PAGE → 0 <= count → Forall exact_change changes →
  check_batch size start lsn count changes = Ok ().
Proof.
  intros Hs [Hl1 Hl2] [Hst1 Hst2] Hc Hex. unfold check_batch. rewrite Hs. cbn [mbind result_bind].
  rewrite (proj2 (Z.leb_le _ _) Hl1), (proj2 (Z.ltb_lt _ _) Hl2), (proj2 (Z.leb_le _ _) Hst1), (proj2 (Z.ltb_lt _ _) Hst2).
  rewrite (proj2 (Z.ltb_ge _ _) Hc). cbn [andb negb].
  assert (traverse check_change changes = Ok ((λ _, ()) <$> changes)) as ->; [|done].
  apply traverse_Ok, Forall2_fmap_r, Forall_Forall2_diag. eapply Forall_impl; [exact Hex|]. intros c (Hwf & Hv & Ho & Hk).
  unfold check_change. rewrite Hv, bool_decide_false by done.
  rewrite (proj2 (key_bytes_Ok (IndexChange.key c) false (IndexChange.key c))); [done|]. split; [done|]. split; [done|].
  by apply change_wf_csn.
Qed.

(** A tree over the old pages is one over any store of fresh pages on top of them. *)
Lemma ordered_tree_old old start pages root height es : (∀ q p, old !! q = Some p → q < start) → fresh start pages →
  ordered_tree old root height es → ordered_tree (store old pages) root height es.
Proof.
  unfold ordered_tree. intros Hlow Hfr Ht. case_decide; [done|]. destruct Ht as (Hh & Hr & Ht & Hs). split_and!; [done..| |done].
  apply (tree_old old start); [done| |done]. destruct (Z.to_nat (height - 1)); destruct Ht as (p & Hp & _); by eapply Hlow.
Qed.

Lemma ordered_tree_root old root height es : ordered_tree old root height es → root = NO_PAGE ∨ ∃ p, old !! root = Some p.
Proof.
  unfold ordered_tree. case_decide; [by left|]. intros (_ & _ & Ht & _). right.
  destruct (Z.to_nat (height - 1)); destruct Ht as (p & Hp & _); by exists p.
Qed.

(** C34: a copy-on-write batch refines the changes applied to a finite map.  Over a valid tree whose
    pages lie below the start page, whenever the mutation returns, the pages it made together with
    the old ones hold a valid tree under the reported root and height; the contents of that tree are
    the old contents with the changes applied one after the other in the caller's order (an insert
    of a present identity, and a tombstone or removal of an absent one, change nothing); the
    reported count is the number of its entries; the new pages are numbered consecutively and
    stamped; the independent verifier accepts the result with that count; and the old tree is still
    there, entry for entry. *)
Theorem mutate_ordered_tree_ok (fuel : nat) (root_page height : Z) (pages : gmap Z Page.t) (es : list IndexEntry.t)
    (changes : list IndexChange.t) (page_size start_page page_lsn : Z) (m : OrderedTreeMutation)
    (Htree : ordered_tree pages root_page height es)
    (Hlow : ∀ q p, pages !! q = Some p → q < start_page)
    (Hwf : Forall IndexChange.wf changes)
    (Hmutate : mutate_ordered_tree fuel root_page height (zlen es) pages changes page_size start_page page_lsn
               = Some (Ok m)) :
  fresh start_page (m_pages m) ∧ stamped page_size page_lsn (m_pages m) ∧
  ordered_tree (store pages (m_pages m)) root_page height es ∧
  ∃ es', ordered_tree (store pages (m_pages m)) (m_root_page m) (m_height m) es' ∧
    contents_of es' = apply_changes (contents_of es) changes ∧ m_entry_count m = zlen es' ∧
    ∃ v, verify_ordered_tree (m_root_page m) (m_height m) (store pages (m_pages m)) (Some (m_entry_count m)) = Ok v.
Proof.
  unfold mutate_ordered_tree in Hmutate. destruct (check_batch _ _ _ _ _) as [[]|] eqn:Hck; [|done].
  apply check_batch_ok in Hck as [Hst Hex]; [|done].
  assert (fresh start_page (m_pages m) ∧ stamped page_size page_lsn (m_pages m) ∧
    ∃ es', ordered_tree (store pages (m_pages m)) (m_root_page m) (m_height m) es' ∧
    contents_of es' = apply_changes (contents_of es) changes ∧ m_entry_count m = zlen es') as (Hfr & Hstm & es' & Ht & Hc & Hn).
  2:{ split_and!; [done..|by eapply ordered_tree_old|]. exists es'. split_and!; [done..|].
      destruct (verify_complete _ _ _ (Some (m_entry_count m)) _ Ht) as (v & Hv & _); [|by exists v]. right. by rewrite Hn. }
  case_bool_decide as Hnil.
  { injection Hmutate as <-. subst changes. cbn [m_pages m_root_page m_height m_entry_count].
    split_and!; [by intros i p|constructor|]. exists es. split_and!; [|done|done].
    eapply ordered_tree_old; [done|by intros i p|done]. }
  destruct (order_changes_ok changes Hex) as (ordered & Hord & Hperm & Hconc). rewrite Hord in Hmutate. cbn [mbind result_bind] in Hmutate.
  destruct (apply_batch _ _ _ _ _ _ _ _) as [[[res height1] pages1]|] eqn:Hb; [|done].
  assert (Forall exact_change ordered) as Hexo by by rewrite Hperm.
  assert (root_page = NO_PAGE ∨ root_page < start_page) as Hroot.
  { destruct (ordered_tree_root _ _ _ _ Htree) as [->|[p Hp]]; [by left|right; by eapply Hlow]. }
  destruct (apply_batch_ok _ _ _ _ _ _ _ _ _ _ _ _ Htree (proj1 Hst) Hroot Hexo Hb)
    as (d & pieces & Hh1 & Hh0 & Hfr1 & Hst1 & Hfor & Ho & Hl & Hco & Hdl).
  rewrite (apply_changes_ordered _ _ _ Hconc) in Hco.
  destruct (collapse _ _ _ _ _ _ _) as [[[[nodes height2] pages2]|]|] eqn:Hcol; [|done|done].
  destruct (_ || _) eqn:Hcheck in Hmutate; [done|]. injection Hmutate as <-. cbn [m_pages m_root_page m_height m_entry_count].
  replace (zlen es + cr_delta res) with (zlen (concat pieces)) in * by lia.
  destruct (decide (cr_nodes res = [])) as [Hn|Hn].
  - rewrite Hn in Hcol, Hfor. apply Forall2_nil_inv_l in Hfor as ->. destruct fuel; injection Hcol as <- <- <-.
    all: split_and!; [done..|]; exists []; split_and!; [|done|done]; unfold ordered_tree; by rewrite Hh0.
  - rewrite (Hh1 Hn) in Hcol. destruct (collapse_ok pages _ _ _ _ _ _ _ _ _ _ _ Hfr1 Hfor Ho (proj1 Hst) Hl Hst1 Hcol)
      as (d' & ps' & -> & Hfr2 & Hst2 & Hle & Hl2 & Hfor2 & Hcc & Hne & _).
    split_and!; [done..|]. exists (concat pieces). split_and!; [|done|done].
    specialize (Hne Hn). destruct nodes as [|n [|n' ns]]; [done| |unfold zlen in Hle; simpl in Hle; lia].
    apply Forall2_cons_inv_l in Hfor2 as (piece & rest & [Htr _] & Hrest & ->). apply Forall2_nil_inv_l in Hrest as ->.
    rewrite concat_cons, app_nil_r in Hcc. subst piece. apply Forall_cons in Hl2 as [[Hl3 Hl2] _].
    assert (n.1 < NO_PAGE) as Hlt.
    { destruct (decide (n.1 < start_page)); [lia|]. eapply stamped_below; [exact Hfr2|exact Hst2|lia]. }
    unfold ordered_tree. rewrite decide_False by lia. split_and!; [lia|done| |done]. by replace (Z.to_nat _) with d' by lia.
Qed.

Definition wide_pages : gmap Z Page.t :=
  match build_ordered_tree wide_entries 512 3 7 with Ok b => page_map (b_pages b) | Err _ => ∅ end.

(** Three changes to the two-level sample: a key beyond the last, a removal and a tombstone. *)
Definition sample_changes : list IndexChange.t :=
  [IndexChange.Mk (str "by_name") INSERT [Byte.x7a] (RecordRef.Mk 9 2) 0 false 1;
   IndexChange.Mk (str "by_name") REMOVE (Byte.x61 :: repeat Byte.x2d 59) (RecordRef.Mk 9 1) 0 false 1;
   IndexChange.Mk (str "by_name") TOMBSTONE (Byte.x62 :: repeat Byte.x2d 59) (RecordRef.Mk 9 1) 5 false 1].

Lemma sample_changes_wf : Forall IndexChange.wf sample_changes.
Proof. repeat constructor; try (vm_compute; done). Qed.

Lemma wide_pages_low q p : wide_pages !! q = Some p → q < 8.
Proof.
  intros Hq. apply elem_of_map_to_list in Hq.
  assert (Forall (λ x, x.1 < 8) (map_to_list wide_pages)) as Hf.
  { apply (bool_decide_unpack (Forall (λ x, x.1 < 8) (map_to_list wide_pages))). vm_compute. exact I. }
  rewrite Forall_forall in Hf. exact (Hf _ Hq).
Qed.

(** The entries of the sample tree are the ones it was built from. *)
Lemma wide_roomy es : ordered_tree wide_pages 7 2 es → Forall (roomy 512) es.
Proof.
  intros Ht. pose proof (walk_ordered wide_pages 7 2 es None None Ht ltac:(done) ltac:(done)) as Hw.
  assert (reverse es = (walk_ordered_desc 7 2 wide_pages None None).1) as Hr by (rewrite Hw; done).
  rewrite <-(reverse_involutive es), Hr. clear. apply Forall_reverse.
  apply (bool_decide_unpack (Forall (λ e, 2 * (INDEX_ENTRY_HEADER_SIZE + zlen (IndexEntry.key e) + SLOT_ENTRY_SIZE)
    <= 512 - PAGE_HEADER_SIZE) (walk_ordered_desc 7 2 wide_pages None None).1)). vm_compute. exact I.
Qed.

Lemma mutate_ordered_tree_ok_witness :
  ∃ m es es', mutate_ordered_tree 4 7 2 16 wide_pages sample_changes 512 8 9 = Some (Ok m) ∧
    m_height m = 2 ∧ m_entry_count m = 16 ∧ zlen (m_pages m) = 3 ∧
    ordered_tree wide_pages 7 2 es ∧ ordered_tree (store wide_pages (m_pages m)) (m_root_page m) (m_height m) es' ∧
    contents_of es' = apply_changes (contents_of es) sample_changes.
Proof.
  destruct (verify_sound wide_pages 7 2 (Some 16) (match verify_ordered_tree 7 2 wide_pages (Some 16) with
    Ok v => v | Err _ => MkVerification 0 0 0 0 None None end)) as (es & Ht & He); [vm_compute; reflexivity|].
  assert (zlen es = 16) as Hz by (destruct He as [|[= He]]; done).
  destruct (mutate_ordered_tree 4 7 2 16 wide_pages sample_changes 512 8 9) as [[m|]|] eqn:Hm;
    [|vm_compute in Hm; discriminate|vm_compute in Hm; discriminate].
  destruct (mutate_ordered_tree_ok 4 7 2 wide_pages es sample_changes 512 8 9 m) as (_ & _ & _ & es' & Ht' & Hc & _).
  - exact Ht.
  - exact wide_pages_low.
  - apply sample_changes_wf.
  - by rewrite Hz.
  - exists m, es, es'. split; [reflexivity|]. split; [|split; [|split; [|split; [exact Ht|split; [exact Ht'|exact Hc]]]]].
    all: vm_compute in Hm; injection Hm as <-; reflexivity.
Defined.

(** ** Enough room for the batch *)

Definition roomy_ident (size : Z) (i : ident) : Prop :=
  2 * (INDEX_ENTRY_HEADER_SIZE + zlen i.1 + SLOT_ENTRY_SIZE) <= size - PAGE_HEADER_SIZE.

Lemma apply_changes_ident m batch i : apply_changes m batch !! i ≠ None → m !! i ≠ None ∨ i ∈ change_ident <$> batch.
Proof.
  rewrite apply_changes_lookup. unfold concerning. intros H. destruct (filter (λ c, change_ident c = i) batch) as [|c l] eqn:Hf; [by left|].
  right. assert (c ∈ filter (λ c, change_ident c = i) batch) as [<- Hc]%list_elem_of_filter by (rewrite Hf; by left).
  by apply list_elem_of_fmap_2.
Qed.

Lemma apply_changes_size (m : dict) batch : (size (apply_changes m batch) <= size m + length batch)%nat.
Proof.
  unfold apply_changes. revert m. induction batch as [|c batch IH]; intros m; [simpl; lia|]. cbn [fold_left length].
  etrans; [apply IH|]. enough (size (apply_change m c) <= S (size m))%nat by lia. unfold apply_change.
  destruct (change_entry c (m !! change_ident c)) as [e|] eqn:He.
  - assert (partial_alter (change_entry c) (change_ident c) m = <[change_ident c := e]> m) as ->.
    { apply map_eq. intros j. destruct (decide (j = change_ident c)) as [->|Hj];
        [by rewrite lookup_partial_alter_eq, lookup_insert_eq|by rewrite lookup_partial_alter_ne, lookup_insert_ne]. }
    destruct (m !! change_ident c) eqn:Hm; [rewrite map_size_insert_Some by (by eexists); lia|by rewrite map_size_insert_None].
  - assert (partial_alter (change_entry c) (change_ident c) m = delete (change_ident c) m) as ->.
    { apply map_eq. intros j. destruct (decide (j = change_ident c)) as [->|Hj];
        [by rewrite lookup_partial_alter_eq, lookup_delete_eq|by rewrite lookup_partial_alter_ne, lookup_delete_ne]. }
    rewrite map_size_delete. destruct (m !! change_ident c); unfold id; lia.
Qed.

Lemma contents_size es : ordered_idents es → Z.of_nat (size (contents_of es)) = zlen es.
Proof.
  intros Hs%ordered_idents_nodup. unfold contents_of, zlen. rewrite <-length_map_to_list, map_to_list_to_map.
  - by rewrite length_fmap.
  - by rewrite <-list_fmap_compose.
Qed.

Section room.
Context (old : gmap Z Page.t) (page_size start lsn : Z).
Context (Hsize : validate_page_size page_size = Ok page_size) (Hlsn : 0 <= lsn <= MAX_U64) (Hstart : FIRST_ORDERED_TREE_PAGE <= start).

(** The entries and the changes leave room, and so do the entries the changes end in. *)
Definition entries_roomy (es : list IndexEntry.t) : Prop := ∀ i, contents_of es !! i ≠ None → roomy_ident page_size i.
Definition changes_roomy (batch : list IndexChange.t) : Prop := ∀ c, c ∈ batch → roomy_ident page_size (change_ident c).

Lemma entries_roomy_alt es : ordered_idents es → entries_roomy es ↔ Forall (roomy page_size) es.
Proof using Type.
  intros Hs. rewrite Forall_forall. unfold entries_roomy. split.
  - intros H e He. specialize (H (eident e)). unfold roomy_ident in H. apply H.
    rewrite contents_of_None. intros Hn. apply Hn. by apply list_elem_of_fmap_2.
  - intros H i Hi. destruct (contents_of es !! i) eqn:He; [|done]. apply contents_of_Some in He as (e & Hin & <- & _); [|done].
    by apply (H e).
Qed.

Lemma changed_roomy es batch es' : entries_roomy es → changes_roomy batch →
  contents_of es' = apply_changes (contents_of es) batch → entries_roomy es'.
Proof using Type.
  intros He Hb Hc i. rewrite Hc. intros [Hi|(c & -> & Hi)%list_elem_of_fmap]%apply_changes_ident; [by apply He|by apply Hb].
Qed.

Lemma changed_length es batch es' : ordered_idents es → ordered_idents es' →
  contents_of es' = apply_changes (contents_of es) batch → zlen es' <= zlen es + zlen batch.
Proof using Type.
  intros Hs Hs' Hc. rewrite <-(contents_size es), <-(contents_size es'), Hc by done.
  pose proof (apply_changes_size (contents_of es) batch). unfold zlen. lia.
Qed.

Lemma leaf_step_succeeds st c : dict_ok (by_identity st) → exact_change c → ∃ st', leaf_step st c = Ok st'.
Proof using Type.
  intros Hd (Hwf & Hv & Ho & Hk). unfold leaf_step. rewrite ordered_entry_identity_valid by apply Hwf. cbn [mbind result_bind].
  fold (change_ident c). destruct (change_wf_csn c Hwf) as [Hkl Hcsn].
  destruct (IndexChange.operation c) eqn:Hop, (by_identity st !! change_ident c) as [e|] eqn:He; try by eexists.
  - unfold IndexEntry.make. rewrite IndexEntryFacts.post_init_wf; [by eexists|]. by split; [|apply Hwf|..].
  - destruct (IndexEntry.live e); [|by eexists]. destruct (Hd _ _ He) as [_ ([] & Hve & _)].
    unfold IndexEntry.ended_at, require_commit_number.
    rewrite (proj2 (Z.leb_le _ _) (proj1 Hcsn)). rewrite (proj2 (Z.leb_le (IndexChange.csn c) MAX_U64)) by (unfold PROVISIONAL_CSN, MAX_U64 in *; lia).
    cbn [andb negb mbind result_bind]. rewrite IndexEntryFacts.post_init_wf; [by eexists|]. by split.
Qed.
Lemma leaf_steps_succeed st batch : dict_ok (by_identity st) → Forall exact_change batch → ∃ st', leaf_steps st batch = Ok st'.
Proof using Type.
  intros Hd Hb. revert st Hd. induction Hb as [|c batch Hc _ IH]; intros st Hd; [by eexists|]. cbn [leaf_steps].
  destruct (leaf_step_succeeds st c Hd Hc) as [st1 H1]. rewrite H1. cbn [mbind result_bind]. apply IH.
  by apply (leaf_step_ok st c st1 Hd Hc).
Qed.

Lemma pack_leaf_succeeds l pages : Forall exact_entry l → Forall (roomy page_size) l → start + zlen pages + zlen l <= NO_PAGE →
  ∃ nodes pages', pack_leaf page_size start lsn l pages = Ok (nodes, pages') ∧ zlen pages' <= zlen pages + zlen l.
Proof using Hsize Hlsn Hstart.
  intros Hex Hro Hb. pose proof (zlen_nonneg l). change FIRST_ORDERED_TREE_PAGE with 3 in Hstart.
  destruct (append_packed_pages_halves leaf_item INDEX_ORDERED_LEAF page_size start lsn l (entry_item <$> l) pages)
    as (sums & pages' & Ha & Hh & Hz); [done|done|lia|by apply leaf_items| |done|].
  - apply Forall_fmap. eapply Forall_impl; [exact (proj2 (Forall_and _ _) (conj Hex Hro))|]. intros e [(Hwf & _) Hr].
    unfold compose, fits_twice, entry_item. cbn [fst]. by rewrite IndexEntryFacts.zlen_image.
  - unfold pack_leaf. rewrite cow_pack_eq, Ha. cbn [mbind result_bind]. eexists _, _. split; [done|]. lia.
Qed.

Lemma pack_internal_succeeds M d nodes pieces pages : forest M d nodes pieces →
  Forall (λ n, FIRST_ORDERED_TREE_PAGE <= n.1 < NO_PAGE) nodes → Forall (roomy page_size) (concat pieces) →
  start + zlen pages + zlen nodes <= NO_PAGE →
  ∃ nodes' pages', pack_internal page_size start lsn nodes pages = Ok (nodes', pages') ∧
    2 * zlen nodes' <= zlen nodes + 1 ∧ zlen pages' = zlen pages + zlen nodes'.
Proof using Hsize Hlsn Hstart.
  intros Hf Hlow Hro Hb. change FIRST_ORDERED_TREE_PAGE with 3 in Hstart.
  destruct (node_items_roomy page_size _ _ _ _ Hf Hlow (forest_exact _ _ _ _ Hf) Hro) as (items & Ht & Hfit).
  destruct (append_packed_pages_halves (λ n : node, pointer_item n.1 n.2) INDEX_ORDERED_INTERNAL page_size start lsn nodes items pages)
    as (sums & pages' & Ha & Hh & Hz); [done|done|lia|done|done|done|].
  rewrite pack_internal_eq. unfold node in *. rewrite Ha. cbn [mbind result_bind]. eexists _, _. split; [done|]. by rewrite <-zlen_level_nodes.
Qed.

Lemma forest_length M d nodes pieces : forest M d nodes pieces → zlen nodes <= zlen (concat pieces).
Proof using Type.
  intros H. induction H as [|n piece nodes pieces [Ht _] _ IH]; [done|]. rewrite concat_cons, zlen_app, zlen_cons.
  apply tree_entries in Ht as [Hne _]. destruct piece; [done|]. rewrite zlen_cons. pose proof (zlen_nonneg piece). lia.
Qed.

Lemma apply_leaf_succeeds pg es batch pages : tree old 0 pg es → Forall exact_change batch → entries_roomy es → changes_roomy batch →
  start + zlen pages + (zlen es + zlen batch) <= NO_PAGE →
  ∃ res pages', apply_leaf old page_size start lsn pg batch pages = Ok (res, pages') ∧
    zlen pages' <= zlen pages + (zlen es + zlen batch).
Proof using Hsize Hlsn Hstart.
  intros Ht Hb Hre Hrb Hlt. destruct (tree_last _ _ _ _ Ht) as (e & Hle & _ & Hee).
  apply tree_leaf in Ht as (page & Hp & _ & Hdec & Hne & Hex & Hs). pose proof (zlen_nonneg es). pose proof (zlen_nonneg batch).
  unfold apply_leaf. rewrite Hp, Hdec. cbn [mbind result_bind]. rewrite keyed_entries by done. cbn [mbind result_bind].
  destruct (leaf_dict es Hs Hex) as (Hd & Hm & Hsz). set (m := dict_of _) in *.
  destruct (leaf_steps_succeed (MkLeaf m false 0 0) batch Hd Hb) as [st Hst]. rewrite Hst. cbn [mbind result_bind].
  destruct (lf_changed st); cbn [negb].
  - apply leaf_steps_ok in Hst as [Hd' Hm' _ _]; [|done..]. cbn [by_identity] in *. rewrite Hm in Hm'.
    destruct (sorted_entries_ok _ Hd') as (Hso & Hexo & Hco & Hzo). rewrite Hm' in Hco.
    pose proof (changed_length _ _ _ Hs Hso Hco) as Hlen.
    destruct (pack_leaf_succeeds (sorted_entries (by_identity st)) pages) as (nodes & pages' & Hpk & Hz); [done| |lia|].
    { apply entries_roomy_alt; [done|]. by eapply changed_roomy. }
    rewrite Hpk. cbn [mbind result_bind]. eexists _, _. split; [done|]. lia.
  - rewrite (proj2 (py_last_Ok _ _) Hle). cbn [mbind result_bind]. unfold identity_of_entry.
    rewrite ordered_entry_identity_valid by apply Hee. cbn [mbind result_bind]. eexists _, _. split; [done|]. lia.
Qed.

Section children_room.
Context (d : nat) (K : Z) (HK : 0 <= K).
Context (visit_child : Z → list IndexChange.t → list Page.t → result (CowResult * list Page.t)).
Hypothesis visit_child_ok : ∀ pg es batch pages res pages',
  tree old d pg es → ordered_idents es → FIRST_ORDERED_TREE_PAGE <= pg < start → fresh start pages → Forall exact_change batch →
  visit_child pg batch pages = Ok (res, pages') → copied old page_size start lsn d es batch pages res pages'.
Hypothesis visit_child_succeeds : ∀ pg es batch pages,
  tree old d pg es → ordered_idents es → FIRST_ORDERED_TREE_PAGE <= pg < start → fresh start pages → Forall exact_change batch →
  entries_roomy es → changes_roomy batch → start + zlen pages + K * (zlen es + zlen batch) <= NO_PAGE →
  ∃ res pages', visit_child pg batch pages = Ok (res, pages') ∧ zlen pages' <= zlen pages + K * (zlen es + zlen batch).

Lemma cow_children_succeeds l pieces acc pages : Forall2 (child_ok old start d) l pieces →
  Forall2 (λ x piece, entries_roomy piece ∧ changes_roomy x.2) l pieces → fresh start pages →
  start + zlen pages + K * (zlen (concat pieces) + zlen (concat l.*2)) <= NO_PAGE →
  ∃ acc' pages', cow_children visit_child l acc pages = Ok (acc', pages') ∧
    zlen pages' <= zlen pages + K * (zlen (concat pieces) + zlen (concat l.*2)).
Proof using HK Hstart visit_child_ok visit_child_succeeds.
  intros H. revert acc pages. induction H as [|[p g] piece l pieces (Ht & Hcov & Hp & Ho & Hlow & Hg) _ IH];
    intros acc pages Hr Hfr Hb; [eexists _, _; split; [done|]; simpl; change (zlen (@nil IndexEntry.t)) with 0; change (zlen (@nil IndexChange.t)) with 0; lia|].
  apply Forall2_cons in Hr as [[Hr1 Hr2] Hr]. cbn [fst snd] in *. rewrite fmap_cons in *. cbn [snd] in *.
  rewrite !concat_cons, !zlen_app in *. cbn [cow_children].
  pose proof (zlen_nonneg piece). pose proof (zlen_nonneg g). pose proof (zlen_nonneg (concat pieces)). pose proof (zlen_nonneg (concat l.*2)).
  assert (0 <= K * (zlen piece + zlen g)) by nia. assert (0 <= K * (zlen (concat pieces) + zlen (concat l.*2))) by nia.
  case_bool_decide as Hempty.
  - unfold ChildPointer.high_identity. rewrite ordered_entry_identity_valid by apply Hp. cbn [mbind result_bind].
    destruct (IH (MkCow (cr_nodes acc ++ [(ChildPointer.child_page p, ident_of (ChildPointer.high_key p) (ChildPointer.high_ref p))])
      (cr_changed acc) (cr_delta acc) (cr_missing acc)) pages Hr Hfr) as (acc' & pages' & Hc & Hz); [lia|].
    eexists _, _. split; [exact Hc|]. lia.
  - destruct (visit_child_succeeds _ piece g pages Ht Ho Hlow Hfr Hg Hr1 Hr2) as (child & pages1 & Hv & Hz1); [lia|].
    rewrite Hv. cbn [mbind result_bind].
    destruct (visit_child_ok _ _ _ _ _ _ Ht Ho Hlow Hfr Hg Hv) as (new1 & ps1 & _ & Hfr1 & _).
    destruct (IH (MkCow (cr_nodes acc ++ cr_nodes child) (cr_changed acc || cr_changed child)
      (cr_delta acc + cr_delta child) (cr_missing acc + cr_missing child)) pages1 Hr Hfr1) as (acc' & pages' & Hc & Hz); [lia|].
    eexists _, _. split; [exact Hc|]. lia.
Qed.
End children_room.

Lemma cow_visit_succeeds d pg es batch pages :
  tree old d pg es → ordered_idents es → FIRST_ORDERED_TREE_PAGE <= pg < start → start < NO_PAGE → fresh start pages →
  Forall exact_change batch → entries_roomy es → changes_roomy batch →
  start + zlen pages + Z.of_nat (S d) * (zlen es + zlen batch) <= NO_PAGE →
  ∃ res pages', cow_visit old page_size start lsn d pg batch pages = Ok (res, pages') ∧
    zlen pages' <= zlen pages + Z.of_nat (S d) * (zlen es + zlen batch).
Proof using Hsize Hlsn Hstart.
  revert pg es batch pages. induction d as [|d IH]; intros pg es batch pages Ht Ho Hpg Hlt Hfr Hb Hre Hrb Hroom.
  { destruct (apply_leaf_succeeds pg es batch pages Ht Hb Hre Hrb) as (res & pages' & H & Hz); [lia|].
    exists res, pages'. split; [exact H|]. lia. }
  apply tree_internal in Ht as Hi. destruct Hi as (page & pointers & pieces & Hp & Hpi & Hdec & Hne & -> & Hwf & Hlow & Hs & Hf).
  cbn [cow_visit]. rewrite Hp, Hdec. cbn [mbind result_bind]. rewrite traverse_highs by done. cbn [mbind result_bind].
  destruct (groups_ok old start d pg pointers pieces batch Ho Hpg Hb Hwf Hlow Hs Hf Hne) as (groups & Hg & Hgk & Hok & Hz).
  rewrite Hg. cbn [mbind result_bind].
  pose proof (zlen_nonneg (concat pieces)). pose proof (zlen_nonneg batch). destruct Hz as [Hgl Hz].
  assert ((zip pointers groups).*2 = groups) as Hzip by (apply snd_zip; lia).
  destruct (cow_children_succeeds d (Z.of_nat (S d)) ltac:(lia) (cow_visit old page_size start lsn d)) with (l := zip pointers groups)
    (pieces := pieces) (acc := MkCow [] false 0 0) (pages := pages) as (child & pages1 & Hc & Hz1);
    [by intros; eapply cow_visit_ok|by intros; apply IH|done| |done|rewrite Hzip, Hz; nia|].
  { apply Forall2_same_length_lookup. split; [by eapply Forall2_length|]. intros k [p g] piece Hk Hpc.
    apply lookup_zip_with_Some in Hk as (? & ? & [= <- <-] & Hkp & Hkg). rewrite (Hgk k (lookup_lt_Some _ _ _ Hkp)) in Hkg.
    injection Hkg as <-. cbn [snd]. split.
    - intros i Hi. apply Hre. rewrite contents_of_None in Hi |- *. intros Hn. apply Hi. intros (e & -> & He)%list_elem_of_fmap.
      apply Hn. apply list_elem_of_fmap_2, elem_of_concat. exists piece. split; [by eapply list_elem_of_lookup_2|done].
    - intros c [_ Hin]%list_elem_of_filter. by apply Hrb. }
  rewrite Hc. cbn [mbind result_bind]. rewrite Hzip, Hz in Hz1.
  destruct (cr_changed child) eqn:Hch; cbn [negb].
  - apply (cow_children_ok old page_size start lsn d) with (pieces := pieces) in Hc; [|intros; by eapply cow_visit_ok|done..].
    destruct Hc as (new & nodes & fps & outs & -> & Hfr1 & Hst & Hn & Hfor & Hl & Hcc & Hdone & _).
    cbn [cr_nodes app] in Hn. subst nodes.
    destruct (children_whole old d pointers pieces outs groups batch Hs Hne Hf Ho Hgk Hdone) as [Hoo Hco].
    rewrite <-Hcc in Hoo, Hco. pose proof (changed_length _ _ _ Ho Hoo Hco) as Hlen. pose proof (forest_length _ _ _ _ Hfor) as Hnl.
    destruct (pack_internal_succeeds _ _ _ _ (pages ++ new) Hfor) as (nodes & pages2 & Hpk & Hh & Hz2); [| |nia|].
    + eapply Forall_impl; [exact Hl|]. intros n Hn. cbn beta in *. nia.
    + apply entries_roomy_alt; [done|]. by eapply changed_roomy.
    + rewrite Hpk. cbn [mbind result_bind]. eexists _, _. split; [done|]. nia.
  - destruct (last_is_Some pointers) as [_ [q Hq]]; [done|].
    rewrite (proj2 (py_last_Ok _ _) Hq). cbn [mbind result_bind]. unfold ChildPointer.high_identity.
    assert (pointer_wf q) as Hqwf.
    { rewrite Forall_forall in Hwf. apply Hwf. apply last_Some in Hq as [l ->]. set_solver. }
    rewrite ordered_entry_identity_valid by apply Hqwf. cbn [mbind result_bind]. eexists _, _. split; [done|]. nia.
Qed.


Lemma collapse_succeeds fuel d nodes pieces pages height : fresh start pages → forest (store old pages) d nodes pieces →
  ordered_idents (concat pieces) → Forall (λ n, FIRST_ORDERED_TREE_PAGE <= n.1 < start + zlen pages) nodes →
  Forall (roomy page_size) (concat pieces) → start + zlen pages + 2 * zlen nodes <= NO_PAGE → (length nodes <= fuel)%nat →
  ∃ r, collapse fuel page_size start lsn nodes height pages = Some (Ok r).
Proof using Hsize Hlsn Hstart.
  revert d nodes pieces pages height. induction fuel as [|fuel IH]; intros d nodes pieces pages height Hfr Hfor Ho Hlow Hro Hroom Hfuel;
    cbn [collapse]; destruct (Z.leb_spec (zlen nodes) 1) as [Hone|Hmore]; try by eexists.
  { unfold zlen in Hmore. lia. }
  assert (Forall (λ n : node, FIRST_ORDERED_TREE_PAGE <= n.1 < NO_PAGE) nodes) as Hlow'.
  { eapply Forall_impl; [exact Hlow|]. intros n Hn. cbn beta in *. pose proof (zlen_nonneg nodes). lia. }
  destruct (pack_internal_succeeds _ _ _ _ pages Hfor Hlow' Hro) as (nodes' & pages' & Hpk & Hh & Hz); [lia|].
  rewrite Hpk. destruct (pack_internal_ok old d _ _ _ _ _ _ _ _ Hfr Hfor Ho (below_only _ _ _ Hlow) Hpk)
    as (new & ps & -> & Hfr' & _ & Hfor' & Hcc & Hl' & _).
  apply (IH _ _ _ _ _ Hfr' Hfor'); rewrite ?Hcc; try done; [|lia|unfold zlen in *; lia].
  eapply Forall_impl; [exact Hl'|]. intros n Hn. cbn beta in *. pose proof (zlen_nonneg pages). lia.
Qed.

(** Up to the loop, with the number of pages it may take. *)
Lemma apply_batch_succeeds root height es batch : ordered_tree old root height es → root = NO_PAGE ∨ root < start → start < NO_PAGE →
  Forall exact_change batch → entries_roomy es → changes_roomy batch →
  start + Z.max height 1 * (zlen es + zlen batch) <= NO_PAGE →
  ∃ res height' pages', apply_batch root height (zlen es) old batch page_size start lsn = Ok (res, height', pages') ∧
    zlen pages' <= Z.max height 1 * (zlen es + zlen batch).
Proof using Hsize Hlsn Hstart.
  intros Ht Hroot Hlt Hb Hre Hrb Hroom. unfold apply_batch. unfold ordered_tree in Ht. case_decide as Hr.
  - destruct Ht as [-> ->]. rewrite (proj2 (Z.eqb_eq _ _) Hr). change (zlen (@nil IndexEntry.t)) with 0 in *. cbn [Z.eqb negb orb].
    destruct (leaf_steps_succeed (MkLeaf ∅ false 0 0) batch) as [st Hst]; [done..|]. rewrite Hst. cbn [mbind result_bind].
    apply leaf_steps_ok in Hst as [Hd Hm _ _]; [|done..]. cbn [by_identity] in *.
    destruct (sorted_entries_ok _ Hd) as (Hso & Hexo & Hco & Hzo). rewrite Hm in Hco.
    assert (ordered_idents []) as Hon by constructor.
    change (IndexEntry.unlocated <$> (∅ : dict)) with (contents_of []) in Hco.
    pose proof (changed_length [] _ _ Hon Hso Hco) as Hlen. change (zlen (@nil IndexEntry.t)) with 0 in Hlen.
    destruct (pack_leaf_succeeds (sorted_entries (by_identity st)) []) as (nodes & pages' & Hpk & Hz); [done| |change (zlen (@nil Page.t)) with 0; lia|].
    { apply entries_roomy_alt; [done|]. by eapply changed_roomy. }
    rewrite Hpk. cbn [mbind result_bind]. eexists _, _, _. split; [done|]. change (zlen (@nil Page.t)) with 0 in Hz. lia.
  - destruct Ht as (Hh & Hr3 & Ht & Ho). rewrite (proj2 (Z.eqb_neq _ _) Hr), (proj2 (Z.leb_gt _ _) Hh).
    destruct Hroot as [|Hroot]; [done|]. replace (Z.max height 1) with height in * by lia.
    destruct (cow_visit_succeeds (Z.to_nat (height - 1)) root es batch []) as (res & pages' & Hv & Hz);
      [done|done|done|done|by intros i p|done|done|done| |].
    { replace (Z.of_nat (S (Z.to_nat (height - 1)))) with height by lia. change (zlen (@nil Page.t)) with 0. lia. }
    rewrite Hv. cbn [mbind result_bind]. eexists _, _, _. split; [done|].
    replace (Z.of_nat (S (Z.to_nat (height - 1)))) with height in Hz by lia. change (zlen (@nil Page.t)) with 0 in Hz. lia.
Qed.
End room.

(** C35: a copy-on-write batch of keys that leave room succeeds and ends.  Over a valid tree below the
    start page, with a legal page size, LSN and start page, exact changes, and every key of the tree
    and of the batch leaving room for two entries on a page, the mutation returns a new tree as long
    as page numbers last - at most twice the entries and changes for the loop on the root, and as
    many again for every level - and as many rounds of that loop as there are entries and changes
    are enough. *)
Theorem mutate_ordered_tree_succeeds (fuel : nat) (root_page height : Z) (pages : gmap Z Page.t) (es : list IndexEntry.t)
    (changes : list IndexChange.t) (page_size start_page page_lsn : Z)
    (Htree : ordered_tree pages root_page height es)
    (Hlow : ∀ q p, pages !! q = Some p → q < start_page)
    (Hsize : validate_page_size page_size = Ok page_size)
    (Hlsn : NO_LSN <= page_lsn < PROVISIONAL_CSN)
    (Hstart : FIRST_ORDERED_TREE_PAGE <= start_page < NO_PAGE)
    (Hexact : Forall exact_change changes)
    (Hentries : Forall (roomy page_size) es)
    (Hchanges : Forall (λ c, roomy_ident page_size (change_ident c)) changes)
    (Hpages : start_page + (Z.max height 1 + 2) * (zlen es + zlen changes) <= NO_PAGE)
    (Hfuel : (length es + length changes <= fuel)%nat) :
  ∃ m, mutate_ordered_tree fuel root_page height (zlen es) pages changes page_size start_page page_lsn = Some (Ok m).
Proof.
  pose proof (zlen_nonneg es) as Hz1. pose proof (zlen_nonneg changes) as Hz2.
  assert (ordered_idents es) as Ho.
  { unfold ordered_tree in Htree. case_decide; [destruct Htree as [_ ->]; constructor|]. by destruct Htree as (_ & _ & _ & ?). }
  unfold mutate_ordered_tree. rewrite check_batch_succeeds by done. case_bool_decide as Hnil; [by eexists|].
  destruct (order_changes_ok changes Hexact) as (ordered & Hord & Hperm & Hconc). rewrite Hord. cbn [mbind result_bind].
  assert (zlen ordered = zlen changes) as Hzo by (unfold zlen; by rewrite Hperm).
  assert (0 <= page_lsn <= MAX_U64) as Hl by (unfold NO_LSN, PROVISIONAL_CSN, MAX_U64 in *; lia).
  assert (root_page = NO_PAGE ∨ root_page < start_page) as Hroot.
  { destruct (ordered_tree_root _ _ _ _ Htree) as [->|[p Hp]]; [by left|right; by eapply Hlow]. }
  assert (Forall exact_change ordered) as Hexo by by rewrite Hperm.
  assert (entries_roomy page_size es) as Hre by by apply entries_roomy_alt.
  assert (changes_roomy page_size ordered) as Hrb.
  { intros c Hc. rewrite Hperm in Hc. rewrite Forall_forall in Hchanges. by apply Hchanges. }
  destruct (apply_batch_succeeds pages page_size start_page page_lsn Hsize Hl (proj1 Hstart) root_page height es ordered)
    as (res & height1 & pages1 & Hb & Hzp); [done..|apply Hstart|done|done|done|rewrite Hzo; nia|].
  rewrite Hb. destruct (apply_batch_ok _ _ _ _ _ _ _ _ _ _ _ _ Htree (proj1 Hstart) Hroot Hexo Hb)
    as (d & pieces & Hh1 & Hh0 & Hfr1 & Hst1 & Hfor & Hoo & Hlo & Hco & Hdl).
  pose proof (changed_length _ _ _ Ho Hoo Hco) as Hlen. pose proof (forest_length _ _ _ _ Hfor) as Hnl.
  destruct (collapse_succeeds pages page_size start_page page_lsn Hsize Hl (proj1 Hstart) fuel d (cr_nodes res) pieces pages1 height1)
    as [[[nodes height2] pages2] Hcol]; [done..| |nia|unfold zlen in *; lia|].
  { apply entries_roomy_alt; [done|]. by eapply changed_roomy. }
  rewrite Hcol. replace (zlen es + cr_delta res) with (zlen (concat pieces)) by lia.
  rewrite (proj2 (Z.ltb_ge _ _) (zlen_nonneg _)). cbn [orb].
  assert (bool_decide (nodes = []) = (zlen (concat pieces) =? 0)) as ->; [|destruct (_ =? 0); by eexists].
  destruct (decide (cr_nodes res = [])) as [Hn|Hn].
  - rewrite Hn in Hcol, Hfor. apply Forall2_nil_inv_l in Hfor as ->. destruct fuel; by injection Hcol as <- <- <-.
  - rewrite (Hh1 Hn) in Hcol. destruct (collapse_ok pages _ _ _ _ _ _ _ _ _ _ _ Hfr1 Hfor Hoo (proj1 Hstart) Hlo Hst1 Hcol)
      as (d' & ps' & _ & _ & _ & _ & _ & _ & _ & Hne & _).
    rewrite bool_decide_false by by apply Hne. symmetry. apply Z.eqb_neq.
    destruct (cr_nodes res) as [|n ns]; [done|]. rewrite zlen_cons in Hnl. pose proof (zlen_nonneg ns). lia.
Qed.

Lemma mutate_ordered_tree_succeeds_witness :
  ∃ m, mutate_ordered_tree 19 7 2 16 wide_pages sample_changes 512 8 9 = Some (Ok m).
Proof.
  destruct (verify_sound wide_pages 7 2 (Some 16) (match verify_ordered_tree 7 2 wide_pages (Some 16) with
    Ok v => v | Err _ => MkVerification 0 0 0 0 None None end)) as (es & Ht & He); [vm_compute; reflexivity|].
  assert (zlen es = 16) as Hz by (destruct He as [|[= He]]; done). rewrite <-Hz.
  apply (mutate_ordered_tree_succeeds 19 7 2 wide_pages es sample_changes 512 8 9).
  - exact Ht.
  - exact wide_pages_low.
  - reflexivity.
  - split; vm_compute; done.
  - split; vm_compute; done.
  - pose proof sample_changes_wf as Hwf. repeat (apply Forall_cons in Hwf as [? Hwf]).
    repeat constructor; try done; vm_compute; done.
  - by eapply wide_roomy.
  - repeat constructor; vm_compute; done.
  - rewrite Hz. vm_compute. done.
  - unfold zlen in Hz. assert (length es = 16%nat) as -> by lia. vm_compute. lia.
Defined.

(** ** Keys without room *)

(** A pointer with this identity fits a page, two of them do not. *)
Definition cramped_ident (size : Z) (i : ident) : Prop :=
  14 + zlen i.1 + SLOT_ENTRY_SIZE <= size - PAGE_HEADER_SIZE < 2 * (14 + zlen i.1 + SLOT_ENTRY_SIZE).

(** A node whose pointer takes a page of its own. *)
Definition crowded (size : Z) (n : node) : Prop :=
  (∃ e, exact_entry e ∧ n.2 = eident e) ∧ cramped_ident size n.2 ∧ FIRST_ORDERED_TREE_PAGE <= n.1 < NO_PAGE.

Definition bulky (size : Z) (x : bytes * ident) : Prop :=
  (∃ e, exact_entry e ∧ x.2 = eident e) ∧ cramped_ident size x.2 ∧ zlen x.1 = 14 + zlen x.2.1.

Lemma built_fits t size i lsn payloads p : built t size i lsn payloads p → PAGE_HEADER_SIZE + payload_bytes payloads <= size.
Proof.
  intros H. pose proof (Page.body_space _ _ _ _ (Page.wf_body _ (built_wf _ _ _ _ _ _ H))) as Hs.
  rewrite (built_slots _ _ _ _ _ _ H), (built_size _ _ _ _ _ _ H), (built_dense _ _ _ _ _ _ H) in Hs.
  rewrite payload_bytes_sum. lia.
Qed.

Lemma payload_bytes_nonneg l : 0 <= payload_bytes l.
Proof.
  induction l as [|x l IH]; [done|]. change (payload_bytes (x :: l)) with (zlen x + SLOT_ENTRY_SIZE + payload_bytes l).
  pose proof (zlen_nonneg x). assert (0 < SLOT_ENTRY_SIZE) by done. lia.
Qed.

Lemma crowded_items size (nodes : list node) : Forall (crowded size) nodes →
  ∃ items, traverse (λ n : node, pointer_item n.1 n.2) nodes = Ok items ∧ Forall (bulky size) items ∧ Forall (fits_page size) items ∧ length items = length nodes.
Proof.
  induction 1 as [|n nodes ((e & He & E) & Hc & Hp) _ (items & Ht & Hb & Hf & Hlen)]; [by exists []|].
  destruct (pointer_item_entry n.1 e He Hp) as (p & Hw & Hk & Hi). pose proof (zlen_pointer_image _ Hw) as Hz. rewrite Hk in Hz.
  exists ((pointer_image p, eident e) :: items). split; [simpl; rewrite E, Hi; cbn [mbind result_bind]; by rewrite Ht|].
  rewrite E in Hc. split; [|split; [|cbn; lia]]; constructor; try done.
  - split; [by exists e|]. split; [done|exact Hz].
  - unfold fits_page, cramped_ident in *. cbn [fst] in *. unfold eident, ident_of in Hc. cbn [fst] in Hc. unfold SLOT_ENTRY_SIZE in *. lia.
Qed.

(** Bulky items are packed on a page each. *)
Lemma packed_alone t size lsn next groups ps : packed t size lsn next groups ps → Forall (bulky size) (concat groups) →
  ∀ g, g ∈ groups → ∃ x, g = [x].
Proof.
  induction 1 as [next|next g gs p ps Hne _ Hb _ _ IH]; intros Hall g' Hg'; [by apply not_elem_of_nil in Hg'|].
  cbn [concat] in Hall. apply Forall_app in Hall as [Hg Hall]. apply elem_of_cons in Hg' as [->|Hg']; [|by apply IH].
  destruct g as [|x [|y g]]; [done|by exists x|exfalso]. apply Forall_cons in Hg as [(_ & Hx & Hzx) Hg]. apply Forall_cons in Hg as [(_ & Hy & Hzy) _].
  apply built_fits in Hb. cbn in Hb. pose proof (payload_bytes_nonneg g.*1) as Hz. unfold payload_bytes in Hz. unfold cramped_ident in *. lia.
Qed.

Lemma nodes_of_crowded size next groups : Forall (bulky size) (concat groups) → (∀ g, g ∈ groups → ∃ x, g = [x]) →
  FIRST_ORDERED_TREE_PAGE <= next → next + zlen groups <= NO_PAGE → Forall (crowded size) (nodes_of next groups) ∧ length (nodes_of next groups) = length groups.
Proof.
  revert next. induction groups as [|g groups IH]; intros next Hb Ha Hlo Hhi; [done|]. rewrite zlen_cons in Hhi. pose proof (zlen_nonneg groups).
  destruct (Ha g) as [x ->]; [by left|]. cbn [concat app] in Hb. apply Forall_cons in Hb as [(He & Hc & _) Hb]. rewrite nodes_of_cons.
  destruct (IH (next + 1)) as [H1 H2]; [done|intros g Hg; apply Ha; by right|lia|lia|]. split; [|cbn; by rewrite H2].
  constructor; [|done]. split; [exact He|]. split; [exact Hc|]. cbn [fst]. lia.
Qed.

(** A level of crowded nodes makes as many crowded nodes again. *)
Lemma pack_crowded size start lsn nodes pages : validate_page_size size = Ok size → 0 <= lsn <= MAX_U64 →
  FIRST_ORDERED_TREE_PAGE <= start → Forall (crowded size) nodes → start + zlen pages + zlen nodes <= NO_PAGE →
  ∃ nodes' pages', pack_internal size start lsn nodes pages = Ok (nodes', pages') ∧ Forall (crowded size) nodes' ∧
    zlen nodes' = zlen nodes ∧ zlen pages' = zlen pages + zlen nodes.
Proof.
  intros Hs Hl Hst Hn Hroom. change FIRST_ORDERED_TREE_PAGE with 3 in Hst. destruct (crowded_items size nodes Hn) as (items & Ht & Hb & Hf & Hlen).
  destruct (append_packed_pages_succeeds _ INDEX_ORDERED_INTERNAL size start lsn nodes items pages Hs Hl ltac:(lia) Ht Hf Hroom) as [[sums pages'] Ha].
  destruct (append_packed_pages_ok _ _ _ _ _ _ _ _ _ Ha) as (items' & groups & new & Ht' & Hg & Hpk & -> & ->).
  rewrite Ht in Ht'. injection Ht' as <-. subst items. pose proof (packed_alone _ _ _ _ _ _ Hpk Hb) as Halone.
  assert (length groups = length (concat groups)) as Hgl.
  { clear -Halone. induction groups as [|g groups IH]; [done|]. destruct (Halone g) as [x ->]; [by left|]. cbn. rewrite <-IH; [done|]. intros g Hg. apply Halone. by right. }
  rewrite pack_internal_eq. unfold node in *. rewrite Ha. cbn [mbind result_bind]. rewrite level_nodes_summaries. pose proof (packed_length _ _ _ _ _ _ Hpk) as Hnew.
  pose proof (zlen_nonneg pages). change FIRST_ORDERED_TREE_PAGE with 3.
  destruct (nodes_of_crowded size (start + zlen pages) groups) as [H1 H2]; [done|done|change FIRST_ORDERED_TREE_PAGE with 3; lia|unfold zlen in *; lia|].
  eexists _, _. split; [done|]. split; [exact H1|]. rewrite zlen_app. unfold zlen, node in *. rewrite H2. lia.
Qed.

Lemma collapse_stalls size start lsn fuel nodes pages height : validate_page_size size = Ok size → 0 <= lsn <= MAX_U64 →
  FIRST_ORDERED_TREE_PAGE <= start → Forall (crowded size) nodes → 2 <= zlen nodes →
  start + zlen pages + zlen nodes * Z.of_nat fuel <= NO_PAGE → collapse fuel size start lsn nodes height pages = None.
Proof.
  intros Hs Hl Hst. revert nodes pages height. induction fuel as [|fuel IH]; intros nodes pages height Hn H2 Hroom; cbn [collapse];
    rewrite (proj2 (Z.leb_gt _ _)) by lia; [done|].
  destruct (pack_crowded size start lsn nodes pages) as (nodes' & pages' & Hpk & Hn' & Hz & Hz'); try done; [nia|]. rewrite Hpk.
  apply IH; [done|lia|]. rewrite Hz, Hz'. lia.
Qed.

(** C36: the loop on the root of a copy-on-write batch does not end when keys leave no room.  Over
    any valid tree below the start page, for any batch the mutation accepts and carries out up to
    that loop: when the batch leaves two or more nodes on the top level, and of every identity the
    tree then holds one pointer fits a page but two do not, every round of the loop makes as many
    nodes as it was given.  So whatever number of rounds is allowed, the loop is still running, until
    the page numbers run out at the sentinel.  (The bulk build of such entries refuses at once: the
    witness has two keys of 230 bytes on pages of 512.) *)
Theorem long_keys_never_collapse (fuel : nat) (root_page height : Z) (pages : gmap Z Page.t) (es : list IndexEntry.t)
    (changes ordered : list IndexChange.t) (page_size start_page page_lsn : Z) (res : CowResult) (height' : Z) (new_pages : list Page.t)
    (Htree : ordered_tree pages root_page height es)
    (Hlow : ∀ q p, pages !! q = Some p → q < start_page)
    (Hsize : validate_page_size page_size = Ok page_size)
    (Hlsn : 0 <= page_lsn <= MAX_U64)
    (Hstart : FIRST_ORDERED_TREE_PAGE <= start_page < NO_PAGE)
    (Hchanges : changes ≠ [])
    (Hexact : Forall exact_change changes)
    (Hcheck : check_batch page_size start_page page_lsn (zlen es) changes = Ok ())
    (Horder : order_changes changes = Ok ordered)
    (Hbatch : apply_batch root_page height (zlen es) pages ordered page_size start_page page_lsn = Ok (res, height', new_pages))
    (Htop : 2 <= zlen (cr_nodes res))
    (Hcramped : ∀ i, apply_changes (contents_of es) ordered !! i ≠ None → cramped_ident page_size i)
    (Hpages : start_page + zlen new_pages + zlen (cr_nodes res) * Z.of_nat fuel <= NO_PAGE) :
  mutate_ordered_tree fuel root_page height (zlen es) pages changes page_size start_page page_lsn = None.
Proof.
  unfold mutate_ordered_tree. rewrite Hcheck. destruct (order_changes_ok changes Hexact) as (ordered' & Hord & Hperm & _).
  rewrite Horder in Hord. injection Hord as <-. rewrite Horder. cbn [mbind result_bind]. rewrite Hbatch.
  assert (root_page = NO_PAGE ∨ root_page < start_page) as Hroot.
  { destruct (ordered_tree_root _ _ _ _ Htree) as [->|[p Hp]]; [by left|right; by eapply Hlow]. }
  assert (Forall exact_change ordered) as Hexo by by rewrite Hperm.
  destruct (apply_batch_ok _ _ _ _ _ _ _ _ _ _ _ _ Htree (proj1 Hstart) Hroot Hexo Hbatch)
    as (d & pieces & _ & _ & _ & _ & Hfor & Hoo & Hlo & Hco & _).
  rewrite bool_decide_false by done. pose proof (zlen_nonneg new_pages).
  rewrite (collapse_stalls page_size start_page page_lsn fuel); [reflexivity|exact Hsize|exact Hlsn|exact (proj1 Hstart)| |exact Htop|exact Hpages].
  assert (∀ i, i ∈ eident <$> concat pieces → cramped_ident page_size i) as Hall.
  { intros i Hi. apply Hcramped. rewrite <-Hco, contents_of_None. by intros Hn. }
  apply Forall_forall. intros n Hn. rewrite Forall_forall in Hlo. specialize (Hlo n Hn).
  apply list_elem_of_lookup in Hn as [j Hj]. destruct (Forall2_lookup_l _ _ _ _ _ Hfor Hj) as (piece & Hpiece%list_elem_of_lookup_2 & Ht & Hlast).
  destruct (tree_last _ _ _ _ Ht) as (e & He & Hle & Hex). rewrite Hlast in Hle. injection Hle as Hle.
  split; [by exists e|]. split; [|nia]. apply Hall. rewrite Hle. apply list_elem_of_fmap_2, elem_of_concat. exists piece. split; [done|].
  apply last_Some in He as [l ->]. set_solver.
Qed.

(** Two keys of 230 bytes, for 512-byte pages; the bound an index of such pages may be given is 449. *)
Definition long_entry (k : byte) : IndexEntry.t := IndexEntry.Mk (k :: repeat Byte.x2d 229) (RecordRef.Mk 9 1) false 0 0 NO_PAGE 0.
Definition long_change (k : byte) : IndexChange.t :=
  IndexChange.Mk (str "by_name") INSERT (k :: repeat Byte.x2d 229) (RecordRef.Mk 9 1) 0 false 1.

Lemma long_exact k : exact_entry (long_entry k).
Proof. split; [split; vm_compute; done|]. split; vm_compute; done. Qed.

Lemma long_pair i : apply_changes (contents_of []) [long_change Byte.x61; long_change Byte.x62] !! i ≠ None →
  i = eident (long_entry Byte.x61) ∨ i = eident (long_entry Byte.x62).
Proof.
  rewrite apply_changes_lookup. unfold concerning. rewrite !filter_cons. intros Hi.
  case_decide as H1; [left; by rewrite <-H1|]. case_decide as H2; [right; by rewrite <-H2|]. destruct Hi. apply lookup_empty.
Qed.

(** Two inserts of such keys into an empty index are carried out with a leaf each; the loop on their
    root is then still running after a thousand rounds, while the bulk build of the two entries is
    refused. *)
Lemma long_keys_never_collapse_witness :
  mutate_ordered_tree 1000 NO_PAGE 0 0 ∅ [long_change Byte.x61; long_change Byte.x62] 512 3 7 = None ∧
  build_ordered_tree [long_entry Byte.x61; long_entry Byte.x62] 512 3 7 = raise GrafxIndexError "page_size".
Proof.
  split; [|vm_compute; reflexivity].
  destruct (apply_batch NO_PAGE 0 0 ∅ [long_change Byte.x61; long_change Byte.x62] 512 3 7) as [[[res height'] new_pages]|] eqn:E;
    [|vm_compute in E; discriminate].
  assert (zlen (cr_nodes res) = 2 ∧ zlen new_pages = 2) as [Hn Hp].
  { vm_compute in E. injection E as <- _ <-. exact (conj eq_refl eq_refl). }
  apply (long_keys_never_collapse 1000 NO_PAGE 0 ∅ [] [long_change Byte.x61; long_change Byte.x62]
           [long_change Byte.x61; long_change Byte.x62] 512 3 7 res height' new_pages).
  - exact (conj eq_refl eq_refl).
  - intros q p Hq. rewrite lookup_empty in Hq. discriminate.
  - vm_compute. reflexivity.
  - split; vm_compute; discriminate.
  - split; [vm_compute; discriminate|vm_compute; reflexivity].
  - discriminate.
  - repeat constructor; vm_compute; try discriminate; reflexivity.
  - vm_compute. reflexivity.
  - vm_compute. reflexivity.
  - exact E.
  - rewrite Hn. vm_compute. discriminate.
  - intros i Hi. apply long_pair in Hi as [->| ->]; split; vm_compute; done.
  - rewrite Hn, Hp. vm_compute. discriminate.
Defined.
