(* ===== verification/OrderedRoot.v ===== *)
(** The two root pages of an ordered index: src/src/okto_grafx/domain/index/ordered_root.py.

    A publication of a tree generation is one checksummed descriptor; two pages carry alternating
    descriptors and a reader takes the newest that checks.  The theorems: the descriptor codec is
    exact and sees every damaged byte, and overwriting the page a selection names for the next
    publication leaves either the old root or the new one selected. *)

From S2P Require Import Prelude Ids Layout Checksum Slotted IndexEntry OrderedTree OrderedBuild.

Definition ORDERED_ROOT_DESCRIPTOR_MAGIC : bytes :=
  [Byte.x47; Byte.x52; Byte.x46; Byte.x58; Byte.x4f; Byte.x52; Byte.x44; Byte.x52].
Definition ORDERED_ROOT_DESCRIPTOR_FORMAT_VERSION : Z := 1.
Definition ORDERED_ROOT_PAGE_A : Z := 1.
Definition ORDERED_ROOT_PAGE_B : Z := 2.
Definition DEFINITION_DIGEST_SIZE : Z := 16.
Definition ROOT_BODY : list field := [Raw 8; U 2; U 2; U 8; U 8; U 4; U 2; U 2; U 8; U 8; U 8; Raw 16].
Definition ROOT_CHECKSUM : list field := [U 4].
Definition ROOT_BODY_size : Z := Z.of_nat (struct_size ROOT_BODY).
Definition ORDERED_ROOT_DESCRIPTOR_SIZE : Z := ROOT_BODY_size + Z.of_nat (struct_size ROOT_CHECKSUM).

Definition unsigned (field : string) (value maximum : Z) : result unit :=
  if negb ((0 <=? value) && (value <=? maximum)) then raise GrafxIndexError field else Ok ().

Module RootDescriptor.

Record t := Mk {
  artifact_nonce : Z;
  generation : Z;
  root_page : Z;
  height : Z;
  entry_count : Z;
  applied_through_lsn : Z;
  reconciled_through_lsn : Z;
  definition_digest : bytes;
  format_version : Z;
  flags : Z
}.

#[global] Instance eq_dec : EqDecision t.
Proof. solve_decision. Defined.

Definition post_init (d : t) : result t :=
  _ ← unsigned "format_version" (format_version d) MAX_U16;
  _ ← unsigned "flags" (flags d) MAX_U16;
  _ ← unsigned "artifact_nonce" (artifact_nonce d) MAX_U64;
  _ ← unsigned "generation" (generation d) MAX_U64;
  _ ← unsigned "root_page" (root_page d) NO_PAGE;
  _ ← unsigned "height" (height d) MAX_U16;
  _ ← unsigned "entry_count" (entry_count d) MAX_U64;
  _ ← unsigned "applied_through_lsn" (applied_through_lsn d) MAX_U64;
  _ ← unsigned "reconciled_through_lsn" (reconciled_through_lsn d) MAX_U64;
  if ORDERED_ROOT_DESCRIPTOR_FORMAT_VERSION <? format_version d then raise GrafxSchemaVersionMismatch "format_version"
  else if format_version d =? 0 then raise GrafxIndexError "format_version"
  else if artifact_nonce d =? 0 then raise GrafxIndexError "artifact_nonce"
  else if generation d =? 0 then raise GrafxIndexError "generation"
  else if negb (flags d =? 0) then raise GrafxIndexError "flags"
  else if (applied_through_lsn d =? PROVISIONAL_CSN) || (reconciled_through_lsn d =? PROVISIONAL_CSN)
  then raise GrafxIndexError
         (if applied_through_lsn d =? PROVISIONAL_CSN then "applied_through_lsn" else "reconciled_through_lsn")
  else if applied_through_lsn d <? reconciled_through_lsn d then raise GrafxIndexError "reconciled_through_lsn"
  else if negb (zlen (definition_digest d) =? DEFINITION_DIGEST_SIZE) then raise GrafxIndexError "definition_digest"
  else
    let empty := root_page d =? NO_PAGE in
    if negb (Bool.eqb empty (height d =? 0)) || negb (Bool.eqb empty (entry_count d =? 0))
    then raise GrafxIndexError "root_page"
    else if negb empty && (root_page d <? FIRST_ORDERED_TREE_PAGE) then raise GrafxIndexError "root_page"
    else Ok d.

Definition fields (d : t) : fvals ROOT_BODY :=
  (ORDERED_ROOT_DESCRIPTOR_MAGIC, (format_version d, (flags d, (artifact_nonce d, (generation d, (root_page d,
    (height d, (0, (entry_count d, (applied_through_lsn d, (reconciled_through_lsn d, (definition_digest d, ())))))))))))).

Definition encode (d : t) : result bytes :=
  body ← struct_pack ROOT_BODY (fields d);
  checksum ← struct_pack ROOT_CHECKSUM (crc32c_of body, ());
  Ok (body ++ checksum).

Definition decode (image : bytes) : result t :=
  if negb (zlen image =? ORDERED_ROOT_DESCRIPTOR_SIZE) then raise GrafxCorruptionDetected "ordered_root"
  else
    let body := slice image 0 ROOT_BODY_size in
    '(stored_checksum, _) ← struct_unpack_from ROOT_CHECKSUM image ROOT_BODY_size;
    if negb (stored_checksum =? crc32c_of body) then raise GrafxCorruptionDetected "checksum"
    else
      '(magic, (format_version, (flags, (artifact_nonce, (generation, (root_page, (height, (reserved, (entry_count,
        (applied_through_lsn, (reconciled_through_lsn, (definition_digest, _)))))))))))) ← struct_unpack_from ROOT_BODY body 0;
      if negb (bool_decide (magic = ORDERED_ROOT_DESCRIPTOR_MAGIC)) then raise GrafxCorruptionDetected "magic"
      else if ORDERED_ROOT_DESCRIPTOR_FORMAT_VERSION <? format_version then raise GrafxSchemaVersionMismatch "format_version"
      else if format_version =? 0 then raise GrafxCorruptionDetected "format_version"
      else if negb (reserved =? 0) then raise GrafxCorruptionDetected "reserved"
      else
        match post_init (Mk artifact_nonce generation root_page height entry_count applied_through_lsn
                           reconciled_through_lsn definition_digest format_version flags) with
        | Ok d => Ok d
        | Err failure =>
            if bool_decide (err_class failure = GrafxIndexError)
               || bool_decide (err_class failure = GrafxSchemaVersionMismatch)
            then raise GrafxCorruptionDetected
                   (if String.eqb (err_field failure) "" then "ordered_root" else err_field failure)
            else Err failure
        end.

(** The descriptors the constructor accepts. *)
Definition wf (d : t) : Prop := post_init d = Ok d.

End RootDescriptor.

(** ** Pages *)

Record OrderedRootSelection := MkSelection {
  sel_descriptor : RootDescriptor.t;
  sel_page_index : Z;
  sel_publication_page : Z;
  sel_damaged_pages : list Z
}.

Definition is_root_page (page_index : Z) : bool :=
  (page_index =? ORDERED_ROOT_PAGE_A) || (page_index =? ORDERED_ROOT_PAGE_B).

Definition make_ordered_root_page (d : RootDescriptor.t) (page_index page_size : Z) : result Page.t :=
  if negb (is_root_page page_index) then raise GrafxIndexError "page_index"
  else
    page ← Page.make (page_type_value INDEX_ORDERED_ROOT) page_size page_index
             (RootDescriptor.applied_through_lsn d) 0 0 NO_PAGE;
    raw ← RootDescriptor.encode d;
    '(_, page) ← Page.insert_slot page raw;
    Ok page.

Definition decode_ordered_root_page (page : Page.t) : result RootDescriptor.t :=
  if negb (is_root_page (Page.page_index page)) then raise GrafxCorruptionDetected "page_index"
  else if negb (Page.page_type page =? page_type_value INDEX_ORDERED_ROOT) then raise GrafxCorruptionDetected "page_type"
  else if negb (Page.flags page =? 0) || negb (Page.next_page page =? NO_PAGE)
          || negb (PageHeader.reserved (Page.header page) =? 0)
  then raise GrafxCorruptionDetected "page_header"
  else if negb (Z.land (Page.seq page) 1 =? 0) then raise GrafxCorruptionDetected "seq"
  else if negb (Page.slot_count page =? 1) then raise GrafxCorruptionDetected "slot_count"
  else
    raw ← Page.read_slot page 0;
    d ← RootDescriptor.decode raw;
    if negb (Page.page_lsn page =? RootDescriptor.applied_through_lsn d) then raise GrafxCorruptionDetected "page_lsn"
    else Ok d.

(** One candidate: a descriptor, a damaged page, or a refusal of the whole selection. *)
Definition candidate (expected_page : Z) (page : option Page.t) : result (option RootDescriptor.t) :=
  match page with
  | None => Ok None
  | Some page =>
      if negb (Page.page_index page =? expected_page) then raise GrafxCorruptionDetected "page_index"
      else
        match decode_ordered_root_page page with
        | Ok d => Ok (Some d)
        | Err failure => if bool_decide (err_class failure = GrafxCorruptionDetected) then Ok None else Err failure
        end
  end.

Definition select_ordered_root (page_a page_b : option Page.t) : result OrderedRootSelection :=
  a ← candidate ORDERED_ROOT_PAGE_A page_a;
  b ← candidate ORDERED_ROOT_PAGE_B page_b;
  match a, b with
  | None, None => raise GrafxCorruptionDetected "ordered_root"
  | Some d, None => Ok (MkSelection d ORDERED_ROOT_PAGE_A ORDERED_ROOT_PAGE_B [ORDERED_ROOT_PAGE_B])
  | None, Some d => Ok (MkSelection d ORDERED_ROOT_PAGE_B ORDERED_ROOT_PAGE_A [ORDERED_ROOT_PAGE_A])
  | Some first, Some second =>
      if negb (RootDescriptor.artifact_nonce first =? RootDescriptor.artifact_nonce second)
      then raise GrafxCorruptionDetected "artifact_nonce"
      else if negb (bool_decide (RootDescriptor.definition_digest first = RootDescriptor.definition_digest second))
      then raise GrafxCorruptionDetected "definition_digest"
      else if RootDescriptor.generation first =? RootDescriptor.generation second then
        if negb (bool_decide (first = second)) then raise GrafxCorruptionDetected "generation"
        else Ok (MkSelection first ORDERED_ROOT_PAGE_A ORDERED_ROOT_PAGE_B [])
      else if negb (Z.abs (RootDescriptor.generation first - RootDescriptor.generation second) =? 1)
      then raise GrafxCorruptionDetected "generation"
      else if RootDescriptor.generation second <? RootDescriptor.generation first
      then Ok (MkSelection first ORDERED_ROOT_PAGE_A ORDERED_ROOT_PAGE_B [])
      else Ok (MkSelection second ORDERED_ROOT_PAGE_B ORDERED_ROOT_PAGE_A [])
  end.

(** ** Lemmas: the descriptor *)

Module RootDescriptorFacts.
Import RootDescriptor.

Lemma root_unsigned_Ok f v m u : unsigned f v m = Ok u ↔ 0 <= v <= m.
Proof. unfold unsigned. destruct u, (Z.leb_spec 0 v), (Z.leb_spec v m); cbn; split; try done; lia. Qed.

Lemma root_post_init_id d d' : post_init d = Ok d' → d' = d.
Proof.
  unfold post_init. intros H. inv_ok H.
  repeat (case_match; [discriminate H|]). by injection H as <-.
Qed.

Lemma root_post_init_errs d :
  errs_in (λ c, c = GrafxIndexError ∨ c = GrafxSchemaVersionMismatch) (post_init d).
Proof.
  unfold post_init, unsigned.
  repeat first [apply errs_in_bind; [|intros ? _] | apply errs_in_if | apply errs_in_Ok | (apply errs_in_raise; tauto)].
Qed.

Lemma root_fields_fit d : wf d → struct_fits ROOT_BODY (fields d).
Proof.
  unfold wf, post_init. intros H. inv_ok H.
  repeat match goal with E : unsigned _ _ _ = Ok _ |- _ => apply root_unsigned_Ok in E end.
  repeat (case_match; [discriminate H|]).
  unfold MAX_U16, MAX_U64, NO_PAGE, DEFINITION_DIGEST_SIZE in *. unfold fields. unfold zlen in *. solve_fits.
Qed.

Definition body (d : t) : bytes := struct_image ROOT_BODY (fields d).
Definition image (d : t) : bytes := body d ++ le_pack 4 (crc32c_of (body d)).

Lemma root_zlen_body d : wf d → zlen (body d) = 76.
Proof. intros H. unfold body. by rewrite zlen_struct_image by (by apply root_fields_fit). Qed.

Lemma root_zlen_image d : wf d → zlen (image d) = ORDERED_ROOT_DESCRIPTOR_SIZE.
Proof. intros H. unfold image. by rewrite zlen_app, root_zlen_body, zlen_le_pack. Qed.

Lemma root_crc_fits data : struct_fits ROOT_CHECKSUM (crc32c_of data, ()).
Proof.
  pose proof (crc32c_of_range data) as Hc. unfold in32 in Hc. change (2 ^ 32) with 4294967296 in Hc.
  solve_fits.
Qed.

Lemma root_encode_wf d : wf d → encode d = Ok (image d).
Proof.
  intros H. unfold encode. rewrite (struct_pack_image ROOT_BODY) by (by apply root_fields_fit).
  cbn [mbind result_bind]. rewrite (struct_pack_image ROOT_CHECKSUM) by apply root_crc_fits. reflexivity.
Qed.

(** [decode] past its checksum. *)
Definition decode_body (b : bytes) : result t :=
  '(magic, (format_version, (flags, (artifact_nonce, (generation, (root_page, (height, (reserved, (entry_count,
    (applied_through_lsn, (reconciled_through_lsn, (definition_digest, _)))))))))))) ← struct_unpack_from ROOT_BODY b 0;
  if negb (bool_decide (magic = ORDERED_ROOT_DESCRIPTOR_MAGIC)) then raise GrafxCorruptionDetected "magic"
  else if ORDERED_ROOT_DESCRIPTOR_FORMAT_VERSION <? format_version then raise GrafxSchemaVersionMismatch "format_version"
  else if format_version =? 0 then raise GrafxCorruptionDetected "format_version"
  else if negb (reserved =? 0) then raise GrafxCorruptionDetected "reserved"
  else
    match post_init (Mk artifact_nonce generation root_page height entry_count applied_through_lsn
                       reconciled_through_lsn definition_digest format_version flags) with
    | Ok d => Ok d
    | Err failure =>
        if bool_decide (err_class failure = GrafxIndexError)
           || bool_decide (err_class failure = GrafxSchemaVersionMismatch)
        then raise GrafxCorruptionDetected
               (if String.eqb (err_field failure) "" then "ordered_root" else err_field failure)
        else Err failure
    end.

Lemma root_decode_frame k trailer : zlen k = ROOT_BODY_size → length trailer = 4%nat →
  decode (k ++ trailer)
  = if negb (le_unpack trailer =? crc32c_of k) then raise GrafxCorruptionDetected "checksum" else decode_body k.
Proof.
  intros Hk Ht. unfold decode.
  assert (zlen (k ++ trailer) = ORDERED_ROOT_DESCRIPTOR_SIZE) as -> by (rewrite zlen_app, Hk; unfold zlen; by rewrite Ht).
  rewrite Z.eqb_refl. cbn [negb].
  assert (slice (k ++ trailer) 0 ROOT_BODY_size = k) as -> by (rewrite slice_app_l by lia; apply slice_full; lia).
  assert (struct_unpack_from ROOT_CHECKSUM (k ++ trailer) ROOT_BODY_size = Ok (le_unpack trailer, ())) as ->; [|done].
  rewrite <-Hk. unfold struct_unpack_from. rewrite zlen_app.
  rewrite (proj2 (Z.leb_le _ _)) by (unfold zlen; rewrite Ht; cbn; lia).
  unfold zlen. rewrite Nat2Z.id, drop_app_length. cbn [ROOT_CHECKSUM unpack_prefix unpack_field width].
  by rewrite take_ge by lia.
Qed.

(** Bytes of a descriptor's length are a body and a trailer. *)
Lemma root_frame_of (raw : bytes) : zlen raw = ORDERED_ROOT_DESCRIPTOR_SIZE →
  ∃ k trailer, raw = k ++ trailer ∧ zlen k = ROOT_BODY_size ∧ length trailer = 4%nat.
Proof.
  change ORDERED_ROOT_DESCRIPTOR_SIZE with 80. change ROOT_BODY_size with 76. intros H. unfold zlen in *.
  exists (take 76 raw), (drop 76 raw). rewrite take_drop, length_take, length_drop. split; [done|lia].
Qed.

Lemma root_decode_image d : wf d → decode (image d) = Ok d.
Proof.
  intros H. pose proof (root_fields_fit d H) as Hf. pose proof (crc32c_of_range (body d)) as Hc.
  unfold image. rewrite root_decode_frame by (rewrite ?length_le_pack; done || by apply root_zlen_body).
  rewrite le_unpack_pack by exact Hc. rewrite Z.eqb_refl. cbn [negb]. unfold decode_body.
  assert (struct_unpack_from ROOT_BODY (body d) 0 = Ok (fields d)) as ->.
  { rewrite <-(app_nil_r (body d)). by apply struct_unpack_image_0. }
  cbn [mbind result_bind fields]. rewrite bool_decide_true by done. cbn [negb].
  assert (Mk (artifact_nonce d) (generation d) (root_page d) (height d) (entry_count d) (applied_through_lsn d)
    (reconciled_through_lsn d) (definition_digest d) (format_version d) (flags d) = d) as -> by (by destruct d).
  rewrite H. change (0 =? 0) with true. cbn [negb].
  unfold wf, post_init in H. inv_ok H. repeat (case_match; [discriminate H|]). done.
Qed.

Lemma root_decode_inv raw d : decode raw = Ok d → wf d ∧ raw = image d.
Proof.
  intros H. assert (zlen raw = ORDERED_ROOT_DESCRIPTOR_SIZE) as Hl.
  { unfold decode in H. destruct (Z.eqb_spec (zlen raw) ORDERED_ROOT_DESCRIPTOR_SIZE); done. }
  destruct (root_frame_of raw Hl) as (k & trailer & -> & Hk & Ht). rewrite root_decode_frame in H by done.
  destruct (Z.eqb_spec (le_unpack trailer) (crc32c_of k)) as [Hc|]; [cbn [negb] in H|done].
  unfold decode_body in H. inv_ok H. pose proof (struct_unpack_from_Ok ROOT_BODY k 0 x ltac:(done) E) as (_ & _ & Himg).
  destruct x as (magic & fv & fl & nonce & gen & root & he & res & count & app & rec & dig & []).
  repeat (case_match; [discriminate H|]). destruct (post_init _) as [d'|failure] eqn:Hp; [injection H as ->|by case_match].
  pose proof (root_post_init_id _ _ Hp) as ->. split; [done|].
  assert (body (Mk nonce gen root he count app rec dig fv fl) = k) as Hbody.
  { rewrite slice_full in Himg by (change ROOT_BODY_size with 76 in Hk; change (struct_size ROOT_BODY) with 76%nat; lia).
    rewrite <-Himg. unfold body, fields. cbn.
    repeat match goal with E : negb _ = false |- _ => apply negb_false_iff in E end.
    repeat match goal with E : bool_decide _ = true |- _ => apply bool_decide_eq_true in E end.
    repeat match goal with E : (_ =? _) = true |- _ => apply Z.eqb_eq in E end. by subst. }
  unfold image. rewrite Hbody, <-Hc. f_equal. rewrite <-Ht. by rewrite le_pack_unpack.
Qed.

Definition refused (c : error_class) : Prop := c = GrafxCorruptionDetected ∨ c = GrafxSchemaVersionMismatch.

Lemma root_decode_body_errs k : zlen k = ROOT_BODY_size → errs_in refused (decode_body k).
Proof.
  intros Hk. unfold decode_body, struct_unpack_from. rewrite (proj2 (Z.leb_le _ _)) by (rewrite Hk; done).
  cbn [mbind result_bind]. destruct (unpack_prefix _ _) as (magic & fv & fl & nonce & gen & root & he & res & count & app & rec & dig & []).
  unfold refused. repeat (apply errs_in_if; [apply errs_in_raise; tauto|]).
  intros e. pose proof (root_post_init_errs (Mk nonce gen root he count app rec dig fv fl)) as He.
  destruct (post_init _) as [d|f]; [done|]. specialize (He f eq_refl). cbv beta in He.
  destruct (bool_decide_reflect (err_class f = GrafxIndexError)); [by intros [= <-]; left|].
  destruct (bool_decide_reflect (err_class f = GrafxSchemaVersionMismatch)); [by intros [= <-]; left|]. tauto.
Qed.

Lemma root_decode_errs raw : errs_in refused (decode raw).
Proof.
  destruct (decide (zlen raw = ORDERED_ROOT_DESCRIPTOR_SIZE)) as [Hl|Hl].
  - destruct (root_frame_of raw Hl) as (k & trailer & -> & Hk & Ht). rewrite root_decode_frame by done.
    apply errs_in_if; [apply errs_in_raise; by left|by apply root_decode_body_errs].
  - unfold decode. rewrite (proj2 (Z.eqb_neq _ _)) by done. apply errs_in_raise. by left.
Qed.

(** A damaged byte is refused by the checksum, whatever it says about the format. *)
Lemma root_decode_damaged d pre b c post : wf d → image d = pre ++ b :: post → b ≠ c →
  decode (pre ++ c :: post) = raise GrafxCorruptionDetected "checksum".
Proof.
  intros Hd Himg Hbc. assert (zlen (pre ++ c :: post) = ORDERED_ROOT_DESCRIPTOR_SIZE) as Hl.
  { rewrite <-(root_zlen_image d Hd), Himg. by rewrite !zlen_app, !zlen_cons. }
  destruct (root_frame_of _ Hl) as (k & trailer & Heq & Hk & Ht). rewrite Heq, root_decode_frame by done.
  destruct (Z.eqb_spec (le_unpack trailer) (crc32c_of k)) as [Hc|]; [exfalso|done].
  eapply (crc_trailer_one_byte (body d) k trailer pre post b c); [exact Himg|done..|].
  rewrite <-Hc, <-Ht. by rewrite le_pack_unpack.
Qed.

End RootDescriptorFacts.

(** ** Lemmas: pages and selections *)

Import RootDescriptorFacts.

Lemma root_page_cases i : is_root_page i = true ↔ i = ORDERED_ROOT_PAGE_A ∨ i = ORDERED_ROOT_PAGE_B.
Proof. unfold is_root_page. rewrite orb_true_iff, !Z.eqb_eq. done. Qed.

Lemma wf_lsn d : RootDescriptor.wf d → 0 <= RootDescriptor.applied_through_lsn d <= MAX_U64.
Proof.
  unfold RootDescriptor.wf, RootDescriptor.post_init. intros H. inv_ok H.
  match goal with E : unsigned "applied_through_lsn" _ _ = Ok _ |- _ => by apply root_unsigned_Ok in E end.
Qed.

Lemma make_root_ok d i size : RootDescriptor.wf d → is_root_page i = true → validate_page_size size = Ok size →
  ∃ p, make_ordered_root_page d i size = Ok p ∧
       built INDEX_ORDERED_ROOT size i (RootDescriptor.applied_through_lsn d) [image d] p.
Proof.
  intros Hd Hi Hs. unfold make_ordered_root_page. rewrite Hi. cbn [negb].
  destruct (new_page_Ok INDEX_ORDERED_ROOT size i (RootDescriptor.applied_through_lsn d)) as [p Hp]; [done| |by apply wf_lsn|].
  { apply root_page_cases in Hi as [->| ->]; by vm_compute. }
  pose proof Hp as Hb. apply new_page_built in Hb. unfold new_page in Hp. rewrite Hp. cbn [mbind result_bind].
  rewrite root_encode_wf by done. cbn [mbind result_bind].
  destruct (insert_built _ _ _ _ _ _ (image d) Hb) as (s & p' & -> & Hb').
  { rewrite (built_can_fit _ _ _ _ _ _ _ Hb), root_zlen_image by done. apply validate_page_size_Ok in Hs as (_ & Hs & _).
    unfold MIN_PAGE_SIZE in Hs. change ORDERED_ROOT_DESCRIPTOR_SIZE with 80. cbn. unfold SLOT_ENTRY_SIZE, PAGE_HEADER_SIZE. lia. }
  by exists p'.
Qed.

Lemma decode_built_root d i size p : RootDescriptor.wf d → is_root_page i = true →
  built INDEX_ORDERED_ROOT size i (RootDescriptor.applied_through_lsn d) [image d] p →
  decode_ordered_root_page p = Ok d.
Proof.
  intros Hd Hi Hb. unfold decode_ordered_root_page. pose proof (built_slots _ _ _ _ _ _ Hb) as Hn.
  pose proof (read_slot_agrees p 0 (built_wf _ _ _ _ _ _ Hb)) as Hr.
  rewrite (built_contents _ _ _ _ _ _ Hb) in Hr. destruct Hb as [_ _ Ht Hx Hl (Hf & Hnext & Hres & Hseq) _ _].
  unfold Page.slot_count. rewrite Hx, Hi, Ht, Hf, Hnext, Hseq, Hn, Hl. cbn [negb]. rewrite !Z.eqb_refl. cbn [negb orb].
  unfold Page.header. cbn [PageHeader.reserved]. rewrite Hres. change (0 =? 0) with true.
  change (Z.land 0 1) with 0. change (0 =? 0) with true.
  change (zlen [image d] =? 1) with true. cbn [negb]. rewrite Hr.
  change (PageSpec.live (Some <$> [image d]) 0) with (Ok (image d)). cbn [mbind result_bind].
  rewrite root_decode_image by done.
  cbn [mbind result_bind]. by rewrite Z.eqb_refl.
Qed.

Lemma root_candidate_valid i p d : decode_ordered_root_page p = Ok d → Page.page_index p = i → candidate i (Some p) = Ok (Some d).
Proof. intros H Hi. unfold candidate. by rewrite Hi, Z.eqb_refl, H. Qed.

(** What a candidate page is worth. *)
Definition damaged (i : Z) (page : option Page.t) : Prop :=
  match page with
  | None => True
  | Some p => Page.page_index p = i ∧ ∃ e, decode_ordered_root_page p = Err e ∧ err_class e = GrafxCorruptionDetected
  end.

Lemma candidate_damaged i page : damaged i page → candidate i page = Ok None.
Proof.
  destruct page as [p|]; [|done]. intros (Hi & e & He & Hc). unfold candidate.
  rewrite Hi, Z.eqb_refl, He, Hc. cbn [negb]. by rewrite bool_decide_true.
Qed.

(** The two arguments of a selection, by page number. *)
Definition slot_of (i : Z) (a b : option Page.t) : option Page.t := if i =? ORDERED_ROOT_PAGE_A then a else b.
Definition replace_a (i : Z) (new a : option Page.t) : option Page.t := if i =? ORDERED_ROOT_PAGE_A then new else a.
Definition replace_b (i : Z) (new b : option Page.t) : option Page.t := if i =? ORDERED_ROOT_PAGE_A then b else new.
Definition selected (i : Z) (d : RootDescriptor.t) (a b : option Page.t) : Prop :=
  candidate i (slot_of i a b) = Ok (Some d).

Lemma select_Ok a b sel : select_ordered_root a b = Ok sel →
  selected (sel_page_index sel) (sel_descriptor sel) a b ∧
  ((sel_page_index sel = ORDERED_ROOT_PAGE_A ∧ sel_publication_page sel = ORDERED_ROOT_PAGE_B) ∨
   (sel_page_index sel = ORDERED_ROOT_PAGE_B ∧ sel_publication_page sel = ORDERED_ROOT_PAGE_A)).
Proof.
  unfold select_ordered_root, selected, slot_of. intros H. inv_ok H.
  destruct x as [d|], x0 as [d'|]; repeat (case_match; try discriminate H); injection H as <-; cbn;
    (split; [done|first [by left|by right]]).
Qed.

(** The page a selection keeps decides together with whatever stands on the other page. *)
Lemma select_replaced a b i j new d : selected i d a b →
  (i = ORDERED_ROOT_PAGE_A ∧ j = ORDERED_ROOT_PAGE_B) ∨ (i = ORDERED_ROOT_PAGE_B ∧ j = ORDERED_ROOT_PAGE_A) →
  (candidate j new = Ok None →
     select_ordered_root (replace_a j new a) (replace_b j new b) = Ok (MkSelection d i j [j])) ∧
  (∀ d', candidate j new = Ok (Some d') →
     RootDescriptor.artifact_nonce d' = RootDescriptor.artifact_nonce d →
     RootDescriptor.definition_digest d' = RootDescriptor.definition_digest d →
     RootDescriptor.generation d' = RootDescriptor.generation d + 1 →
     select_ordered_root (replace_a j new a) (replace_b j new b) = Ok (MkSelection d' j i [])).
Proof.
  unfold selected, slot_of, replace_a, replace_b, select_ordered_root.
  intros Hs [[-> ->]|[-> ->]]; cbn in Hs |- *; rewrite Hs; cbn [mbind result_bind]; (split;
    [intros ->; done|intros d' -> Hn Hd Hg; cbn [mbind result_bind]]).
  - rewrite Hn, Hd, Hg, Z.eqb_refl, bool_decide_true by done. cbn [negb].
    rewrite (proj2 (Z.eqb_neq _ _)) by lia. rewrite (proj2 (Z.eqb_eq (Z.abs _) 1)) by lia. cbn [negb].
    by rewrite (proj2 (Z.ltb_ge _ _)) by lia.
  - rewrite Hn, Hd, Hg, Z.eqb_refl, bool_decide_true by done. cbn [negb].
    rewrite (proj2 (Z.eqb_neq _ _)) by lia. rewrite (proj2 (Z.eqb_eq (Z.abs _) 1)) by lia. cbn [negb].
    by rewrite (proj2 (Z.ltb_lt _ _)) by lia.
Qed.

(** ** Theorems *)

(** the root descriptor codec is exact: every descriptor the constructor accepts is written as
    80 bytes that decode to it, whatever decodes is an accepted descriptor and its only image, a
    refusal is a corruption or a schema mismatch, and an image with one damaged byte is always the
    checksum's refusal. *)
Theorem root_descriptor_codec (d : RootDescriptor.t) (raw : bytes) :
  (RootDescriptor.wf d → ∃ img, RootDescriptor.encode d = Ok img ∧
     zlen img = ORDERED_ROOT_DESCRIPTOR_SIZE ∧ RootDescriptor.decode img = Ok d ∧
     ∀ pre b c post, img = pre ++ b :: post → b ≠ c →
       RootDescriptor.decode (pre ++ c :: post) = raise GrafxCorruptionDetected "checksum") ∧
  (RootDescriptor.decode raw = Ok d → RootDescriptor.wf d ∧ RootDescriptor.encode d = Ok raw) ∧
  (∀ e, RootDescriptor.decode raw = Err e →
     err_class e = GrafxCorruptionDetected ∨ err_class e = GrafxSchemaVersionMismatch).
Proof.
  split_and!.
  - intros Hd. exists (image d). split_and!; [by apply root_encode_wf|by apply root_zlen_image|by apply root_decode_image|].
    intros pre b c post Himg Hbc. by eapply root_decode_damaged.
  - intros [Hd ->]%root_decode_inv. split; [done|by apply root_encode_wf].
  - intros e He. by apply (root_decode_errs raw).
Qed.

Definition root_example (generation applied : Z) : RootDescriptor.t :=
  RootDescriptor.Mk 7 generation 9 2 100 applied 3 (zeros 16) 1 0.

Lemma root_descriptor_codec_witness :
  RootDescriptor.encode (root_example 4 50) = Ok (image (root_example 4 50)) ∧
  RootDescriptor.decode (image (root_example 4 50)) = Ok (root_example 4 50) ∧
  RootDescriptor.wf (root_example 4 50).
Proof.
  destruct (root_descriptor_codec (root_example 4 50) (image (root_example 4 50))) as (Henc & Hdec & _).
  assert (RootDescriptor.decode (image (root_example 4 50)) = Ok (root_example 4 50)) as H by (by vm_compute).
  destruct (Henc ltac:(by vm_compute)) as (img & Himg & _). destruct (Hdec H) as [Hwf He]. by split_and!.
Defined.

(** C38: publishing the next generation is safe whatever happens to the write.  The page a selection
    names for publication is not the page it selected; a descriptor of the same artifact and
    definition with the next generation always makes a page there; installing that page selects the
    new descriptor and leaves the old page for the next publication; and if the write is lost or
    leaves any damaged page, the old descriptor is still the one selected, the same page is still
    the publication page, and it is reported damaged. *)
Theorem root_publication_safe (a b : option Page.t) (sel : OrderedRootSelection) (d : RootDescriptor.t) (page_size : Z) :
  select_ordered_root a b = Ok sel →
  RootDescriptor.wf d → validate_page_size page_size = Ok page_size →
  RootDescriptor.artifact_nonce d = RootDescriptor.artifact_nonce (sel_descriptor sel) →
  RootDescriptor.definition_digest d = RootDescriptor.definition_digest (sel_descriptor sel) →
  RootDescriptor.generation d = RootDescriptor.generation (sel_descriptor sel) + 1 →
  let published := sel_publication_page sel in
  published ≠ sel_page_index sel ∧
  (∃ page, make_ordered_root_page d published page_size = Ok page ∧
     decode_ordered_root_page page = Ok d ∧
     select_ordered_root (replace_a published (Some page) a) (replace_b published (Some page) b)
       = Ok (MkSelection d published (sel_page_index sel) [])) ∧
  (∀ torn, damaged published torn →
     select_ordered_root (replace_a published torn a) (replace_b published torn b)
       = Ok (MkSelection (sel_descriptor sel) (sel_page_index sel) published [published])).
Proof.
  intros Hsel Hd Hs Hn Hdig Hg published. apply select_Ok in Hsel as [Hsel Hpages].
  split; [|split].
  - unfold published. by destruct Hpages as [[-> ->]|[-> ->]].
  - assert (is_root_page published = true) as Hr
      by (apply root_page_cases; unfold published; destruct Hpages as [[_ ->]|[_ ->]]; auto).
    destruct (make_root_ok d published page_size Hd Hr Hs) as (page & Hp & Hb). exists page.
    pose proof (decode_built_root _ _ _ _ Hd Hr Hb) as Hdec. split_and!; [done..|].
    eapply select_replaced; try done. apply root_candidate_valid; [done|apply Hb].
  - intros torn Ht. eapply select_replaced; try done. by apply candidate_damaged.
Qed.

Definition example_root_page (generation applied page_index : Z) : option Page.t :=
  match make_ordered_root_page (root_example generation applied) page_index 512 with Ok p => Some p | Err _ => None end.

Lemma root_publication_safe_witness :
  select_ordered_root (example_root_page 4 50 1) (example_root_page 3 40 2)
    = Ok (MkSelection (root_example 4 50) 1 2 []) ∧
  select_ordered_root (example_root_page 4 50 1) None = Ok (MkSelection (root_example 4 50) 1 2 [2]) ∧
  select_ordered_root (example_root_page 4 50 1) (example_root_page 5 60 2)
    = Ok (MkSelection (root_example 5 60) 2 1 []).
Proof.
  assert (select_ordered_root (example_root_page 4 50 1) (example_root_page 3 40 2)
    = Ok (MkSelection (root_example 4 50) 1 2 [])) as H by (by vm_compute).
  destruct (root_publication_safe _ _ _ (root_example 5 60) 512 H) as (_ & (page & Hp & _ & Hnew) & Hold);
    [by vm_compute|by vm_compute|reflexivity..|].
  split; [done|]. split; [exact (Hold None I)|].
  cbn [sel_publication_page sel_page_index] in Hp, Hnew.
  assert (example_root_page 5 60 2 = Some page) as -> by (unfold example_root_page; by rewrite Hp). exact Hnew.
Defined.
