(* ===== verification/Intents.v ===== *)
(** The row intents of a transaction: src/src/okto_grafx/domain/txn/intents.py, with [RowIntent],
    [RowOperation] and [PendingRowRef] of src/src/okto_grafx/domain/txn/context.py.

    A reference is a stored row or a pending insert of the same transaction.  Two references are
    one dictionary key when they are equal ([ref_key]), while the endpoint plan asks for the same
    object ([obj_id], Python's [id]).  A stored column value is any type [V]: nothing here reads
    one.  An intent's private encoding proof is not modelled: it takes no part in its equality and
    never changes an outcome.

    The theorems: the reducer equals a per-reference fold placed at first-seen positions, replaying
    its outcome leaves the rows that replaying the intents leaves, and the endpoint planner accepts
    exactly the sequences whose every pending value names an earlier node insert of the right table. *)

From S2P Require Import Prelude Ids Utf8.

#[export] Existing Instance RecordRef.eq_dec.

(** ** Data *)

Inductive RowOperation := INSERT | UPDATE | DELETE.

#[export] Instance row_operation_eq_dec : EqDecision RowOperation.
Proof. solve_decision. Defined.

Module PendingRowRef.

Record t := Mk { txn_id : Z; table_id : Z; token : Z }.

#[global] Instance eq_dec : EqDecision t.
Proof. solve_decision. Defined.

#[global] Instance countable : Countable t.
Proof.
  refine (inj_countable' (λ r, (txn_id r, table_id r, token r)) (λ '(a, b, c), Mk a b c) _). by intros [].
Defined.

(** [__post_init__]. *)
Definition post_init (r : t) : result t :=
  if txn_id r <? 1 then raise GrafxConfigurationError "txn_id"
  else if table_id r <? 1 then raise GrafxConfigurationError "table_id"
  else if 0 <=? token r then raise GrafxConfigurationError "token"
  else Ok r.

Definition make (txn_id table_id token : Z) : result t := post_init (Mk txn_id table_id token).

End PendingRowRef.

#[export] Instance record_ref_countable : Countable RecordRef.t.
Proof. refine (inj_countable' (λ r, (RecordRef.page r, RecordRef.slot r)) (λ '(a, b), RecordRef.Mk a b) _). by intros []. Defined.

(** A [PendingRowRef] object: its identity and its value. *)
Record PendingObj := MkPendingObj { obj_id : Z; obj_ref : PendingRowRef.t }.

#[export] Instance pending_obj_eq_dec : EqDecision PendingObj.
Proof. solve_decision. Defined.

(** What [RowIntent.reference] may name, and its value as a dictionary key. *)
Inductive reference := Stored (r : RecordRef.t) | Pending (o : PendingObj).

#[export] Instance reference_eq_dec : EqDecision reference.
Proof. solve_decision. Defined.

Definition ref_key : Type := RecordRef.t + PendingRowRef.t.
Definition key_of_ref (r : reference) : ref_key :=
  match r with Stored r => inl r | Pending o => inr (obj_ref o) end.

(** The attributes of a staged table that staging reads. *)
Inductive TableKind := NodeTable | RelTable.

#[export] Instance table_kind_eq_dec : EqDecision TableKind.
Proof. solve_decision. Defined.

Record Table := MkTable {
  table_id : Z;
  table_name : pystr;
  table_kind : TableKind;
  from_table : option pystr;
  to_table : option pystr
}.

#[export] Instance table_eq_dec : EqDecision Table.
Proof. solve_decision. Defined.

Definition is_relationship (t : Table) : bool := bool_decide (table_kind t = RelTable).

Definition ENDPOINT_COLUMN_COUNT : nat := 2.

Section intents.
Context {V : Type}.

(** One column of a staged row: a stored value, or the identity of a row not written yet. *)
Inductive cell := Plain (v : V) | Promise (o : PendingObj).

Record RowIntent := MkIntent {
  table : Table;
  values : list cell;
  record_id : option Z;
  operation : RowOperation;
  intent_reference : option reference;
  node_labels : option (list pystr)
}.

(** ** [reduce_row_intents] *)

Record Reduction := MkReduction {
  outcomes : gmap ref_key RowIntent;
  first_seen : gmap ref_key nat;
  cancelled : gset ref_key;
  passthrough : list (nat * RowIntent)
}.

Definition empty_reduction : Reduction := MkReduction ∅ ∅ ∅ [].

Definition labels_or (labels inherited : option (list pystr)) : option (list pystr) :=
  match labels with None => inherited | Some _ => labels end.

Definition with_labels (i : RowIntent) (labels : option (list pystr)) : RowIntent :=
  MkIntent (table i) (values i) (record_id i) (operation i) (intent_reference i) labels.

(** A later intent meeting the outcome its reference has so far: the outcome that replaces it, or
    none when a pending insert is cancelled. *)
Definition fold_intent (previous intent : RowIntent) : result (option RowIntent) :=
  match operation previous, operation intent with
  | DELETE, _ => Ok (Some previous)
  | INSERT, UPDATE =>
      Ok (Some (MkIntent (table previous) (values intent) (record_id previous) INSERT (intent_reference intent)
                 (labels_or (node_labels intent) (node_labels previous))))
  | INSERT, DELETE => Ok None
  | INSERT, INSERT => raise GrafxTransactionStateError "reference"
  | UPDATE, INSERT => raise GrafxTransactionStateError "reference"
  | UPDATE, UPDATE => Ok (Some (with_labels intent (labels_or (node_labels intent) (node_labels previous))))
  | UPDATE, DELETE => Ok (Some intent)
  end.

Definition reduce_step (st : Reduction) (position : nat) (intent : RowIntent) : result Reduction :=
  match intent_reference intent with
  | None => Ok (MkReduction (outcomes st) (first_seen st) (cancelled st) (passthrough st ++ [(position, intent)]))
  | Some reference =>
      let k := key_of_ref reference in
      let seen := match first_seen st !! k with Some _ => first_seen st | None => <[k := position]> (first_seen st) end in
      if bool_decide (k ∈ cancelled st) then Ok (MkReduction (outcomes st) seen (cancelled st) (passthrough st))
      else
        match outcomes st !! k with
        | None => Ok (MkReduction (<[k := intent]> (outcomes st)) seen (cancelled st) (passthrough st))
        | Some previous =>
            folded ← fold_intent previous intent;
            match folded with
            | Some outcome => Ok (MkReduction (<[k := outcome]> (outcomes st)) seen (cancelled st) (passthrough st))
            | None => Ok (MkReduction (delete k (outcomes st)) seen ({[k]} ∪ cancelled st) (passthrough st))
            end
        end
  end.

Fixpoint reduce_from (st : Reduction) (position : nat) (intents : list RowIntent) : result Reduction :=
  match intents with
  | [] => Ok st
  | intent :: intents => st ← reduce_step st position intent; reduce_from st (S position) intents
  end.

Definition position_le (a b : nat * RowIntent) : Prop := (a.1 <= b.1)%nat.
#[global] Instance position_le_dec a b : Decision (position_le a b) := decide_rel (≤)%nat a.1 b.1.

Definition placed (st : Reduction) : list (nat * RowIntent) :=
  passthrough st ++ ((λ x, (default 0%nat (first_seen st !! x.1), x.2)) <$> map_to_list (outcomes st)).

Definition reduce_row_intents (intents : list RowIntent) : result (list RowIntent) :=
  st ← reduce_from empty_reduction 0 intents;
  Ok (merge_sort position_le (placed st)).*2.

#[global] Instance position_le_trans : Transitive position_le.
Proof. intros a b c. unfold position_le. lia. Qed.
#[global] Instance position_le_total : Total position_le.
Proof. intros a b. unfold position_le. lia. Qed.

(** ** [plan_relationship_endpoints] *)

Record PendingEndpoint := MkEndpoint {
  relationship_position : nat;
  endpoint_slot : nat;
  endpoint_position : nat
}.

Fixpoint refuse_pending_cells (cells : list cell) : result unit :=
  match cells with
  | [] => Ok ()
  | Promise _ :: _ => raise GrafxTransactionStateError "values"
  | Plain _ :: cells => refuse_pending_cells cells
  end.

(** [_refuse_pending_values(intent, after=...)]. *)
Definition refuse_pending_values (intent : RowIntent) (after : nat) : result unit :=
  refuse_pending_cells (drop after (values intent)).

Section plan.
Context (txn_id : Z) (owns : PendingObj → bool).

Definition plan_one_endpoint (intents : list RowIntent) (positions : gmap Z nat) (intent : RowIntent)
    (position slot : nat) (endpoint : PendingObj) : result PendingEndpoint :=
  if negb (PendingRowRef.txn_id (obj_ref endpoint) =? txn_id) || negb (owns endpoint)
  then raise GrafxTransactionStateError "pending_row_reference"
  else
    match positions !! obj_id endpoint with
    | None => raise GrafxTransactionStateError "pending_row_reference"
    | Some at_position =>
        match intents !! at_position with
        | None => raise IndexError ""
        | Some named =>
            let declared := if (slot =? 0)%nat then from_table (table intent) else to_table (table intent) in
            if negb (bool_decide (table_kind (table named) = NodeTable))
            then raise GrafxTransactionStateError "pending_row_reference"
            else if negb (PendingRowRef.table_id (obj_ref endpoint) =? table_id (table named))
                    || negb (bool_decide (Some (table_name (table named)) = declared))
            then raise GrafxTransactionStateError "pending_row_reference"
            else Ok (MkEndpoint position slot at_position)
        end
    end.

(** The endpoint columns of one relationship insert. *)
Fixpoint plan_slots (intents : list RowIntent) (positions : gmap Z nat) (intent : RowIntent) (position slot : nat)
    (cells : list cell) : result (list PendingEndpoint) :=
  match cells with
  | [] => Ok []
  | Plain _ :: cells => plan_slots intents positions intent position (S slot) cells
  | Promise endpoint :: cells =>
      p ← plan_one_endpoint intents positions intent position slot endpoint;
      ps ← plan_slots intents positions intent position (S slot) cells;
      Ok (p :: ps)
  end.

Definition note_position (positions : gmap Z nat) (position : nat) (intent : RowIntent) : gmap Z nat :=
  match operation intent, intent_reference intent with
  | INSERT, Some (Pending o) => <[obj_id o := position]> positions
  | _, _ => positions
  end.

Definition plan_intent (intents : list RowIntent) (positions : gmap Z nat) (position : nat) (intent : RowIntent)
    : result (list PendingEndpoint) :=
  if bool_decide (operation intent = DELETE) then Ok []
  else if negb (is_relationship (table intent)) || negb (bool_decide (operation intent = INSERT))
  then _ ← refuse_pending_values intent 0; Ok []
  else
    ps ← plan_slots intents positions intent position 0 (take ENDPOINT_COLUMN_COUNT (values intent));
    _ ← refuse_pending_values intent ENDPOINT_COLUMN_COUNT;
    Ok ps.

Fixpoint plan_from (intents : list RowIntent) (positions : gmap Z nat) (position : nat) (rest : list RowIntent)
    : result (list PendingEndpoint) :=
  match rest with
  | [] => Ok []
  | intent :: rest =>
      let positions := note_position positions position intent in
      ps ← plan_intent intents positions position intent;
      qs ← plan_from intents positions (S position) rest;
      Ok (ps ++ qs)
  end.

Definition plan_relationship_endpoints (intents : list RowIntent) : result (list PendingEndpoint) :=
  plan_from intents ∅ 0 intents.

End plan.

(** ** The reducer as a fold per reference

    [settled k intents] folds the intents of one reference in order; [reduced] puts each outcome
    where its reference was first seen, and anonymous inserts where they stand. *)

Inductive Outcome := Kept (i : RowIntent) | Cancelled.

Definition fold_step (so_far : option Outcome) (intent : RowIntent) : result (option Outcome) :=
  match so_far with
  | None => Ok (Some (Kept intent))
  | Some Cancelled => Ok (Some Cancelled)
  | Some (Kept previous) =>
      folded ← fold_intent previous intent;
      Ok (Some (match folded with Some outcome => Kept outcome | None => Cancelled end))
  end.

Fixpoint fold_all (so_far : option Outcome) (intents : list RowIntent) : result (option Outcome) :=
  match intents with
  | [] => Ok so_far
  | intent :: intents => so_far ← fold_step so_far intent; fold_all so_far intents
  end.

Definition intent_key (i : RowIntent) : option ref_key := key_of_ref <$> intent_reference i.

Definition settled (k : ref_key) (intents : list RowIntent) : result (option Outcome) :=
  fold_all None (filter (λ i, intent_key i = Some k) intents).

Fixpoint positioned {A B} (f : nat → A → option B) (position : nat) (l : list A) : list (nat * B) :=
  match l with
  | [] => []
  | x :: l => match f position x with Some y => [(position, y)] | None => [] end ++ positioned f (S position) l
  end.

Definition survivor (intents : list RowIntent) (position : nat) (intent : RowIntent) : option RowIntent :=
  match intent_key intent with
  | None => Some intent
  | Some k =>
      if decide (Some k ∈ intent_key <$> take position intents) then None
      else match settled k intents with Ok (Some (Kept outcome)) => Some outcome | _ => None end
  end.

Definition reduced (intents : list RowIntent) : list RowIntent := (positioned (survivor intents) 0 intents).*2.

(** ** What the writer does with intents

    A row is live or gone for good; an update keeps the table and the identity of the row and the
    labels it does not replace.  [replayable]: inserts name new rows, updates and deletes known ones. *)

Record Row := MkRow {
  row_table : Table;
  row_values : list cell;
  row_labels : option (list pystr);
  row_id : option Z
}.

Inductive RowState := Live (r : Row) | Gone.

Definition replay_state (s : option RowState) (i : RowIntent) : option RowState :=
  match s, operation i with
  | Some Gone, _ => Some Gone
  | None, INSERT => Some (Live (MkRow (table i) (values i) (node_labels i) (record_id i)))
  | None, _ => None
  | Some (Live r), INSERT => Some (Live r)
  | Some (Live r), UPDATE =>
      Some (Live (MkRow (row_table r) (values i) (labels_or (node_labels i) (row_labels r)) (row_id r)))
  | Some (Live r), DELETE => Some Gone
  end.

Definition replay_intent (rows : gmap ref_key RowState) (i : RowIntent) : gmap ref_key RowState :=
  match intent_key i with None => rows | Some k => partial_alter (λ s, replay_state s i) k rows end.
Definition replay (rows : gmap ref_key RowState) (intents : list RowIntent) : gmap ref_key RowState :=
  fold_left replay_intent intents rows.

(** The rows a reader would see. *)
Definition live_rows (rows : gmap ref_key RowState) : gmap ref_key Row :=
  omap (λ s, match s with Live r => Some r | Gone => None end) rows.

Definition anonymous (intents : list RowIntent) : list RowIntent := filter (λ i, intent_key i = None) intents.

Definition replayable_state (s : option RowState) (i : RowIntent) : Prop :=
  match operation i with INSERT => s = None | _ => is_Some s end.

Fixpoint replayable (rows : gmap ref_key RowState) (intents : list RowIntent) : Prop :=
  match intents with
  | [] => True
  | i :: intents =>
      (∀ k, intent_key i = Some k → replayable_state (rows !! k) i) ∧ replayable (replay_intent rows i) intents
  end.

(** ** Lemmas: the reducer *)

Lemma positioned_elem {A B} (f : nat → A → option B) n l p y :
  (p, y) ∈ positioned f n l ↔ ∃ i x, p = (n + i)%nat ∧ l !! i = Some x ∧ f p x = Some y.
Proof.
  revert n. induction l as [|x l IH]; intros n; simpl.
  - split; [by intros ?%elem_of_nil|by intros (? & ? & _ & ? & _)].
  - rewrite elem_of_app, IH. split.
    + intros [H|(i & z & -> & Hl & Hf)]; [|exists (S i), z; split_and!; [lia|done..]].
      destruct (f n x) eqn:E; [|by apply elem_of_nil in H]. apply list_elem_of_singleton in H as [= -> ->].
      exists 0%nat, x. split_and!; [lia|done..].
    + intros ([|i] & z & -> & Hl & Hf); simplify_eq/=.
      * left. rewrite Nat.add_0_r in *. rewrite Hf. by apply list_elem_of_singleton.
      * right. exists i, z. split_and!; [lia|done..].
Qed.

Lemma positioned_sorted {A B} (f : nat → A → option B) n l :
  StronglySorted (λ a b, (a.1 < b.1)%nat) (positioned f n l).
Proof.
  revert n. induction l as [|x l IH]; intros n; simpl; [constructor|].
  destruct (f n x); simpl; [|done]. constructor; [done|]. apply Forall_forall. intros [p y] H.
  apply positioned_elem in H as (i & z & -> & _). simpl. lia.
Qed.

Lemma sorted_nodup {A} (l : list (nat * A)) : StronglySorted (λ a b, (a.1 < b.1)%nat) l → NoDup l.
Proof.
  induction 1 as [|x l Hs IH Hx]; [constructor|]. constructor; [|done].
  intros H. rewrite Forall_forall in Hx. specialize (Hx _ H). lia.
Qed.

(** Sorting by position a list with the elements of a list strictly sorted by position. *)
Lemma sort_positions (l k : list (nat * RowIntent)) : StronglySorted (λ a b, (a.1 < b.1)%nat) k → NoDup l →
  (∀ x, x ∈ l ↔ x ∈ k) → merge_sort position_le l = k.
Proof.
  intros Hk Hl Helem. assert (l ≡ₚ k) as Hp by (apply NoDup_Permutation; [done|by apply sorted_nodup|done]).
  apply (StronglySorted_unique_strong position_le).
  - intros x y Hx Hy Hxy Hyx. rewrite merge_sort_Permutation, Hp in Hx.
    clear -Hk Hx Hy Hxy Hyx. unfold position_le in *. induction Hk as [|z k Hk IH Hz]; [by apply elem_of_nil in Hx|].
    rewrite Forall_forall in Hz. apply elem_of_cons in Hx as [->|Hx], Hy as [->|Hy]; auto.
    + specialize (Hz _ Hy). lia.
    + specialize (Hz _ Hx). lia.
  - apply (StronglySorted_merge_sort position_le).
  - clear -Hk. induction Hk as [|x k Hk IH Hx]; constructor; [done|].
    eapply Forall_impl; [exact Hx|]. intros y. unfold position_le. lia.
  - by rewrite merge_sort_Permutation.
Qed.
Lemma fold_all_app o l k : fold_all o (l ++ k) = (o ← fold_all o l; fold_all o k).
Proof. revert o. induction l as [|x l IH]; intros o; simpl; [done|]. destruct (fold_step o x); simpl; [apply IH|done]. Qed.

Lemma settled_snoc k intents i : settled k (intents ++ [i])
  = if decide (intent_key i = Some k) then (o ← settled k intents; fold_step o i) else settled k intents.
Proof.
  unfold settled. rewrite filter_app. case_decide as Hk.
  - rewrite filter_cons_True, filter_nil, fold_all_app by done. destruct (fold_all None _); simpl; [|done].
    by destruct (fold_step _ i).
  - rewrite filter_cons_False, filter_nil, app_nil_r by done. done.
Qed.

Lemma settled_prefix_err k pre rest e : settled k pre = Err e → settled k (pre ++ rest) = Err e.
Proof. unfold settled. rewrite filter_app, fold_all_app. by intros ->. Qed.

(** [outcome_in st k]: the outcome the state of a reduction holds for a reference. *)
Definition outcome_in (st : Reduction) (k : ref_key) : option Outcome :=
  if decide (k ∈ cancelled st) then Some Cancelled else Kept <$> outcomes st !! k.

(** Where a reference is first named. *)
Definition first_index (k : ref_key) (l : list RowIntent) : option nat :=
  fst <$> list_find (λ x, intent_key x = Some k) l.

Lemma first_index_snoc k l i : first_index k (l ++ [i])
  = match first_index k l with
    | Some p => Some p
    | None => if decide (intent_key i = Some k) then Some (length l) else None
    end.
Proof.
  unfold first_index. destruct (list_find _ l) as [[p x]|] eqn:E; simpl.
  - by rewrite (list_find_app_l _ _ [i] _ _ E).
  - rewrite (list_find_app_r _ _ [i] E). simpl. by case_decide.
Qed.

Lemma first_index_Some k l p : first_index k l = Some p →
  (∃ x, l !! p = Some x ∧ intent_key x = Some k) ∧ Some k ∉ intent_key <$> take p l.
Proof.
  unfold first_index. intros ([q x] & (Hx & Hk & Hq)%list_find_Some & ->)%fmap_Some. simpl. split; [by eauto|].
  intros (y & Hy & (j & Hj)%list_elem_of_lookup)%list_elem_of_fmap. apply lookup_take_Some in Hj as [Hj ?].
  by eapply Hq.
Qed.

Lemma first_index_None k l : first_index k l = None → Some k ∉ intent_key <$> l.
Proof.
  unfold first_index. intros H%fmap_None. apply list_find_None in H. rewrite Forall_forall in H.
  intros (y & Hy & Hl)%list_elem_of_fmap. by eapply H.
Qed.

Lemma first_index_lookup k l p x : l !! p = Some x → intent_key x = Some k → Some k ∉ intent_key <$> take p l →
  first_index k l = Some p.
Proof.
  intros Hx Hk Hn. unfold first_index. apply fmap_Some. exists (p, x). split; [|done].
  apply list_find_Some. split_and!; [done..|]. intros j y Hj Hlt Hy. apply Hn.
  apply list_elem_of_fmap. exists y. split; [done|]. apply list_elem_of_lookup. exists j. by rewrite lookup_take_lt.
Qed.

Lemma first_index_inj k j l p : first_index k l = Some p → first_index j l = Some p → k = j.
Proof. intros [(x & Hx & Hk) _]%first_index_Some [(y & Hy & Hj) _]%first_index_Some. congruence. Qed.

Record reduction_of (pre : list RowIntent) (st : Reduction) : Prop := {
  red_settled : ∀ k, settled k pre = Ok (outcome_in st k);
  red_cancelled : ∀ k, k ∈ cancelled st → outcomes st !! k = None;
  red_first : ∀ k, first_seen st !! k = first_index k pre;
  red_live : ∀ k, is_Some (outcomes st !! k) → is_Some (first_seen st !! k);
  red_passthrough : passthrough st =
    positioned (λ _ i, match intent_key i with Some _ => None | None => Some i end) 0 pre
}.

Lemma positioned_snoc {A B} (f : nat → A → option B) n l x :
  positioned f n (l ++ [x]) = positioned f n l ++ match f (n + length l)%nat x with Some y => [((n + length l)%nat, y)] | None => [] end.
Proof.
  revert n. induction l as [|y l IH]; intros n; simpl.
  - by rewrite Nat.add_0_r, app_nil_r.
  - rewrite IH, <-app_assoc. by rewrite Nat.add_succ_r.
Qed.

Lemma empty_reduction_of : reduction_of [] empty_reduction.
Proof. split; try done. by intros k [? ?]. Qed.

(** The state after an intent that names reference [k], whatever its outcome. *)
Lemma reduction_of_keyed pre st i k outcomes' cancelled' : reduction_of pre st → intent_key i = Some k →
  let seen := match first_seen st !! k with Some _ => first_seen st | None => <[k := length pre]> (first_seen st) end in
  let st' := MkReduction outcomes' seen cancelled' (passthrough st) in
  fold_step (outcome_in st k) i = Ok (outcome_in st' k) →
  (∀ j, j ≠ k → outcomes' !! j = outcomes st !! j ∧ (j ∈ cancelled' ↔ j ∈ cancelled st)) →
  (k ∈ cancelled' → outcomes' !! k = None) →
  reduction_of (pre ++ [i]) st'.
Proof.
  intros [Hs Hc Hf Hl Hp] Hk seen st' Hfold Hother Hck.
  assert (∀ j, seen !! j = first_index j (pre ++ [i])) as Hseen.
  { intros j. rewrite first_index_snoc, <-Hf. unfold seen. destruct (first_seen st !! k) eqn:E.
    - destruct (first_seen st !! j) eqn:Ej; [done|]. case_decide; [|done]. congruence.
    - destruct (decide (j = k)) as [->|Hjk].
      + by rewrite lookup_insert_eq, E, decide_True by done.
      + rewrite lookup_insert_ne by done. destruct (first_seen st !! j); [done|]. rewrite decide_False; congruence. }
  split; unfold st'; simpl.
  - intros j. rewrite settled_snoc, Hs. case_decide as Hj; simpl.
    + assert (j = k) as -> by congruence. exact Hfold.
    + assert (j ≠ k) as Hjk by congruence. destruct (Hother j Hjk) as [Ho Hcj]. unfold outcome_in. simpl.
      rewrite Ho. f_equal. by repeat case_decide; try tauto.
  - intros j Hj. destruct (decide (j = k)) as [->|Hjk]; [by apply Hck|]. destruct (Hother j Hjk) as [-> Hcj].
    by apply Hc, Hcj.
  - done.
  - intros j Hj. rewrite Hseen, first_index_snoc, <-Hf. destruct (decide (j = k)) as [->|Hjk].
    + rewrite decide_True by done. by destruct (first_seen st !! k).
    + destruct (Hother j Hjk) as [Ho _]. rewrite Ho in Hj. apply Hl in Hj as [p ->]. by eexists.
  - rewrite Hp, positioned_snoc, Hk, app_nil_r. done.
Qed.

Lemma reduce_step_ok pre st i : reduction_of pre st →
  match reduce_step st (length pre) i with
  | Ok st' => reduction_of (pre ++ [i]) st'
  | Err e => e = MkError GrafxTransactionStateError "reference" "" ∧ ∃ k, settled k (pre ++ [i]) = Err e
  end.
Proof.
  intros Hred. pose proof Hred as [Hs Hc Hf Hl Hp]. unfold reduce_step.
  destruct (intent_reference i) as [r|] eqn:Hr.
  2:{ split; simpl; [|done|..].
      - intros k. rewrite settled_snoc, decide_False by (unfold intent_key; by rewrite Hr). apply Hs.
      - intros k. rewrite first_index_snoc, <-Hf. destruct (first_seen st !! k); [done|].
        by rewrite decide_False by (unfold intent_key; by rewrite Hr).
      - done.
      - rewrite Hp, positioned_snoc. unfold intent_key. by rewrite Hr. }
  assert (intent_key i = Some (key_of_ref r)) as Hk by (unfold intent_key; by rewrite Hr).
  set (k := key_of_ref r) in *.
  assert (∀ j, j ≠ k → outcomes st !! j = outcomes st !! j ∧ (j ∈ cancelled st ↔ j ∈ cancelled st)) as Hid by done.
  destruct (bool_decide_reflect (k ∈ cancelled st)) as [Hin|Hin].
  { apply (reduction_of_keyed _ _ _ k); [done|done| |done|by apply Hc].
    unfold outcome_in. simpl. by rewrite decide_True. }
  assert (outcome_in st k = Kept <$> outcomes st !! k) as Hout by (unfold outcome_in; by rewrite decide_False).
  destruct (outcomes st !! k) as [previous|] eqn:Ho.
  2:{ apply (reduction_of_keyed _ _ _ k); [done|done|..|done].
      - rewrite Hout. unfold outcome_in. simpl. by rewrite decide_False, lookup_insert_eq by done.
      - intros j Hj. by rewrite lookup_insert_ne by done. }
  destruct (fold_intent previous i) as [folded|e] eqn:Hfi; simpl.
  - destruct folded as [outcome|]; (apply (reduction_of_keyed _ _ _ k); [done|done|..]).
    + rewrite Hout. simpl. rewrite Hfi. simpl. unfold outcome_in. simpl.
      by rewrite decide_False, lookup_insert_eq by done.
    + intros j Hj. by rewrite lookup_insert_ne by done.
    + done.
    + rewrite Hout. simpl. rewrite Hfi. simpl. unfold outcome_in. simpl. by rewrite decide_True by set_solver.
    + intros j Hj. rewrite lookup_delete_ne by done. set_solver.
    + intros _. apply lookup_delete_eq.
  - split.
    + unfold fold_intent, raise in Hfi. by destruct (operation previous), (operation i); simplify_eq/=.
    + exists k. rewrite settled_snoc, decide_True, Hs, Hout by done. simpl. by rewrite Hfi.
Qed.

Lemma reduce_from_ok pre st rest : reduction_of pre st →
  match reduce_from st (length pre) rest with
  | Ok st' => reduction_of (pre ++ rest) st'
  | Err e => e = MkError GrafxTransactionStateError "reference" "" ∧ ∃ k, settled k (pre ++ rest) = Err e
  end.
Proof.
  revert pre st. induction rest as [|i rest IH]; intros pre st Hst; simpl; [by rewrite app_nil_r|].
  pose proof (reduce_step_ok pre st i Hst) as Hi. destruct (reduce_step st (length pre) i) as [st'|e]; simpl.
  - specialize (IH (pre ++ [i]) st' Hi). rewrite length_app in IH. simpl in IH. rewrite Nat.add_1_r in IH.
    by rewrite <-app_assoc in IH.
  - destruct Hi as (-> & k & Hk). split; [done|]. exists k.
    change (i :: rest) with ([i] ++ rest). rewrite (app_assoc pre [i] rest).
    by apply settled_prefix_err.
Qed.

Lemma placed_elem intents st x : reduction_of intents st →
  x ∈ placed st ↔ x ∈ positioned (survivor intents) 0 intents.
Proof.
  intros [Hs Hc Hf Hl Hp]. destruct x as [p y]. unfold placed.
  rewrite elem_of_app, Hp, !positioned_elem, list_elem_of_fmap. split.
  - intros [(i & x & -> & Hx & Hy)|([k z] & [= -> ->] & Hz%elem_of_map_to_list)].
    + exists i, x. split_and!; [done..|]. unfold survivor. by destruct (intent_key x).
    + simpl. destruct (Hl k) as [q Hq]; [by eexists|]. rewrite Hq. simpl. rewrite Hf in Hq.
      apply first_index_Some in Hq as [(x & Hx & Hk) Hn]. exists q, x. split_and!; [done..|].
      unfold survivor. rewrite Hk, decide_False, Hs by done. unfold outcome_in. rewrite Hz, decide_False; [done|].
      intros Hin. apply Hc in Hin. congruence.
  - intros (i & x & -> & Hx & Hy). unfold survivor in Hy. destruct (intent_key x) as [k|] eqn:Hk.
    + right. case_decide as Hn; [done|]. rewrite Hs in Hy. unfold outcome_in in Hy.
      case_decide; [done|]. destruct (outcomes st !! k) as [z|] eqn:Hz; simplify_eq/=.
      exists (k, y). split; [|by apply elem_of_map_to_list]. simpl.
      rewrite Hf, (first_index_lookup k intents i x) by done. done.
    + left. exists i, x. split_and!; [done..|]. by rewrite Hk.
Qed.

Lemma placed_nodup intents st : reduction_of intents st → NoDup (placed st).
Proof.
  intros [Hs Hc Hf Hl Hp]. unfold placed. apply NoDup_app. split_and!.
  - rewrite Hp. apply sorted_nodup, positioned_sorted.
  - intros [p x] Hx (y & [= -> ->] & Hy)%list_elem_of_fmap. destruct y as [k z]. simpl in *.
    apply elem_of_map_to_list in Hy. destruct (Hl k) as [q Hq]; [by eexists|]. rewrite Hq in Hx. simpl in Hx.
    rewrite Hf in Hq. apply first_index_Some in Hq as [(w & Hw & Hk) _].
    rewrite Hp in Hx. apply positioned_elem in Hx as (j & v & -> & Hv & Hsome). simpl in Hw.
    assert (v = w) as -> by congruence. by rewrite Hk in Hsome.
  - apply NoDup_fmap_2_strong; [|apply NoDup_map_to_list]. intros [k x] [j y] Hx Hy Heq. simpl in Heq.
    apply elem_of_map_to_list in Hx, Hy. injection Heq as Heq ->.
    destruct (Hl k) as [p Hp1]; [by eexists|]. destruct (Hl j) as [q Hq]; [by eexists|].
    rewrite Hp1, Hq in Heq. simpl in Heq. subst q. rewrite Hf in Hp1, Hq.
    f_equal. by eapply first_index_inj.
Qed.

Lemma reduce_ok intents :
  match reduce_row_intents intents with
  | Ok rs => (∀ k, ∃ o, settled k intents = Ok o) ∧ rs = reduced intents
  | Err e => e = MkError GrafxTransactionStateError "reference" "" ∧ ∃ k, settled k intents = Err e
  end.
Proof.
  unfold reduce_row_intents. pose proof (reduce_from_ok [] empty_reduction intents empty_reduction_of) as H.
  change (length (@nil RowIntent)) with 0%nat in H. destruct (reduce_from _ _ _) as [st|e]; simpl; [|done].
  simpl in H. split; [intros k; eexists; by apply H|]. unfold reduced. f_equal. apply sort_positions.
  - apply positioned_sorted.
  - by eapply placed_nodup.
  - intros x. by apply placed_elem.
Qed.
(** ** Lemmas: replaying the outcome *)

Fixpoint replayable_from (s : option RowState) (l : list RowIntent) : Prop :=
  match l with [] => True | i :: l => replayable_state s i ∧ replayable_from (replay_state s i) l end.

Lemma replay_lookup rows intents k :
  replay rows intents !! k = fold_left replay_state (filter (λ i, intent_key i = Some k) intents) (rows !! k).
Proof.
  unfold replay. revert rows. induction intents as [|i l IH]; intros rows; [done|]. simpl. rewrite IH.
  unfold replay_intent. destruct (decide (intent_key i = Some k)) as [Hk|Hk].
  - rewrite filter_cons_True, Hk by done. simpl. by rewrite lookup_partial_alter_eq.
  - rewrite filter_cons_False by done. destruct (intent_key i) as [j|] eqn:Hj; [|done].
    rewrite lookup_partial_alter_ne by congruence. done.
Qed.

Lemma replayable_lookup rows intents :
  replayable rows intents ↔ ∀ k, replayable_from (rows !! k) (filter (λ i, intent_key i = Some k) intents).
Proof.
  revert rows. induction intents as [|i l IH]; intros rows; [done|]. simpl. rewrite IH. split.
  - intros [Hi Hl] k. specialize (Hl k). destruct (decide (intent_key i = Some k)) as [Hk|Hk].
    + rewrite filter_cons_True by done. split; [auto|]. unfold replay_intent in Hl.
      by rewrite Hk, lookup_partial_alter_eq in Hl.
    + rewrite filter_cons_False by done. unfold replay_intent in Hl. destruct (intent_key i); [|done].
      by rewrite lookup_partial_alter_ne in Hl by congruence.
  - intros H. split.
    + intros k Hk. specialize (H k). rewrite filter_cons_True in H by done. by destruct H.
    + intros k. specialize (H k). unfold replay_intent. destruct (decide (intent_key i = Some k)) as [Hk|Hk].
      * rewrite filter_cons_True in H by done. rewrite Hk, lookup_partial_alter_eq. by destruct H.
      * rewrite filter_cons_False in H by done. destruct (intent_key i); [|done].
        by rewrite lookup_partial_alter_ne by congruence.
Qed.

(** What a fold holds of the row it started from. *)
Definition folded_from (k : ref_key) (s0 : option RowState) (o : option Outcome) (s : option RowState) : Prop :=
  match o with
  | None => s = s0
  | Some (Kept x) => intent_key x = Some k ∧ replayable_state s0 x ∧ s = replay_state s0 x
  | Some Cancelled => s0 = None ∧ s = Some Gone
  end.

Lemma labels_or_assoc a b c : labels_or a (labels_or b c) = labels_or (labels_or a b) c.
Proof. by destruct a, b. Qed.

Lemma fold_step_from k s0 o s i : folded_from k s0 o s → intent_key i = Some k → replayable_state s i →
  ∃ o', fold_step o i = Ok o' ∧ folded_from k s0 o' (replay_state s i).
Proof.
  destruct o as [[x|]|]; simpl.
  - intros (Hx & Hok & ->) Hi Hs. unfold fold_intent, replayable_state, replay_state in *.
    destruct (operation x) eqn:Ex, (operation i) eqn:Ei, s0 as [[r|]|]; repeat match goal with H : is_Some _ |- _ => destruct H end; simplify_eq/=;
      (eexists; split; [reflexivity|]); unfold folded_from, replayable_state, replay_state, with_labels; simpl;
      rewrite ?Ex, ?Ei, ?labels_or_assoc; eauto.
  - intros [-> ->] Hi Hs. exists (Some Cancelled). split; [done|]. split; [done|].
    unfold replay_state. by destruct (operation i).
  - intros -> Hi Hs. by exists (Some (Kept i)).
Qed.

Lemma fold_all_from k s0 o s l : folded_from k s0 o s → Forall (λ i, intent_key i = Some k) l → replayable_from s l →
  ∃ o', fold_all o l = Ok o' ∧ folded_from k s0 o' (fold_left replay_state l s).
Proof.
  revert o s. induction l as [|i l IH]; intros o s Ho Hl Hr; [by exists o|].
  apply Forall_cons in Hl as [Hi Hl]. destruct Hr as [Hs Hr].
  destruct (fold_step_from k s0 o s i Ho Hi Hs) as (o' & Ho' & Hf). simpl. rewrite Ho'. simpl. by apply IH.
Qed.

Lemma filter_key_Forall k (l : list RowIntent) :
  Forall (λ i, intent_key i = Some k) (filter (λ i, intent_key i = Some k) l).
Proof. apply Forall_forall. by intros x [? _]%list_elem_of_filter. Qed.

Lemma settled_from rows intents k : replayable rows intents →
  ∃ o, settled k intents = Ok o ∧ folded_from k (rows !! k) o (replay rows intents !! k).
Proof.
  intros Hr. rewrite replay_lookup. apply (fold_all_from k _ None); [done|apply filter_key_Forall|].
  by apply replayable_lookup.
Qed.

(** The outcomes of one reference in the reduced sequence. *)
Definition kept (o : option Outcome) : list RowIntent := match o with Some (Kept x) => [x] | _ => [] end.

Lemma survivors_of rows intents pre l k o : replayable rows intents → settled k intents = Ok o →
  intents = pre ++ l →
  filter (λ i, intent_key i = Some k) (positioned (survivor intents) (length pre) l).*2
  = if decide (Some k ∈ intent_key <$> pre) then [] else if decide (Some k ∈ intent_key <$> l) then kept o else [].
Proof.
  intros Hr Ho. revert pre. induction l as [|i l IH]; intros pre Heq.
  { simpl. by repeat case_decide. }
  assert (intents = (pre ++ [i]) ++ l) as Heq' by (by rewrite <-app_assoc).
  specialize (IH (pre ++ [i]) Heq'). rewrite length_app in IH. simpl in IH. rewrite Nat.add_1_r in IH.
  simpl. rewrite fmap_app, filter_app, IH. rewrite fmap_app. clear IH.
  assert (take (length pre) intents = pre) as Htake by (rewrite Heq; by rewrite take_app_length).
  unfold survivor. rewrite Htake. destruct (intent_key i) as [j|] eqn:Hj.
  - destruct (settled_from rows intents j Hr) as (oj & Hoj & Hfj). rewrite Hoj.
    destruct (decide (j = k)) as [->|Hjk].
    + rewrite Ho in Hoj. injection Hoj as <-.
      simpl. rewrite Hj. repeat case_decide; try done; try (exfalso; set_solver).
      destruct o as [[x|]|]; [|done..]. destruct Hfj as (Hx & _ & _). simpl. by rewrite filter_cons_True.
    + assert (filter (λ i, intent_key i = Some k) (match (if decide (Some j ∈ intent_key <$> pre) then None
        else match oj with Some (Kept outcome) => Some outcome | _ => None end) with
        | Some y => [(length pre, y)] | None => [] end).*2 = []) as ->.
      { case_decide; [done|]. destruct oj as [[x|]|]; [|done..]. destruct Hfj as (Hx & _ & _). simpl.
        by rewrite filter_cons_False by congruence. }
      simpl. rewrite Hj. repeat case_decide; try done; exfalso; set_solver.
  - simpl. rewrite filter_cons_False by congruence. simpl. rewrite Hj.
    repeat case_decide; try done; exfalso; set_solver.
Qed.

Lemma settled_absent k intents : Some k ∉ intent_key <$> intents → settled k intents = Ok None.
Proof.
  intros Hk. unfold settled. rewrite filter_none; [done|]. intros x Hx Heq. apply Hk.
  apply list_elem_of_fmap. by exists x.
Qed.

Lemma reduced_of rows intents k o : replayable rows intents → settled k intents = Ok o →
  filter (λ i, intent_key i = Some k) (reduced intents) = kept o.
Proof.
  intros Hr Ho. unfold reduced. change 0%nat with (length (@nil RowIntent)).
  rewrite (survivors_of rows intents [] intents k o) by done. rewrite decide_False by (by intros ?%elem_of_nil).
  case_decide as Hk; [done|]. rewrite (settled_absent k intents Hk) in Ho. by injection Ho as <-.
Qed.

Lemma reduced_anonymous rows intents : replayable rows intents → anonymous (reduced intents) = anonymous intents.
Proof.
  intros Hr. unfold reduced, anonymous. change 0%nat with (length (@nil RowIntent)).
  assert (∀ pre l, intents = pre ++ l → filter (λ i, intent_key i = None) (positioned (survivor intents) (length pre) l).*2
    = filter (λ i, intent_key i = None) l) as H; [|by apply H].
  intros pre l. revert pre. induction l as [|i l IH]; intros pre Heq; [done|].
  assert (intents = (pre ++ [i]) ++ l) as Heq' by (by rewrite <-app_assoc).
  specialize (IH (pre ++ [i]) Heq'). rewrite length_app in IH. simpl in IH. rewrite Nat.add_1_r in IH.
  simpl. rewrite fmap_app, filter_app, IH. unfold survivor. destruct (intent_key i) as [j|] eqn:Hj.
  - rewrite (filter_cons_False (λ i, intent_key i = None)) by congruence.
    destruct (settled_from rows intents j Hr) as (oj & Hoj & Hfj). rewrite Hoj.
    case_decide; [done|]. destruct oj as [[x|]|]; [|done..]. destruct Hfj as (Hx & _ & _). simpl.
    by rewrite filter_cons_False by congruence.
  - simpl. by rewrite !filter_cons_True by done.
Qed.
Lemma nodup_keys (l : list RowIntent) : (∀ k, (length (filter (λ i, intent_key i = Some k) l) <= 1)%nat) →
  NoDup (omap intent_key l).
Proof.
  induction l as [|i l IH]; intros Hk; simpl; [constructor|].
  assert (NoDup (omap intent_key l)) as Hl.
  { apply IH. intros k. specialize (Hk k). rewrite filter_cons in Hk. case_decide; simpl in Hk; lia. }
  destruct (intent_key i) as [k|] eqn:Hi; [|done]. constructor; [|done].
  intros (x & Hx & Hxk)%list_elem_of_omap. specialize (Hk k). rewrite filter_cons_True in Hk by done.
  assert (x ∈ filter (λ i, intent_key i = Some k) l) as Hin by (by apply list_elem_of_filter).
  destruct (filter _ l); [by apply elem_of_nil in Hin|]. simpl in Hk. lia.
Qed.

Lemma reduced_replays rows intents : replayable rows intents →
  reduce_row_intents intents = Ok (reduced intents) ∧ replayable rows (reduced intents) ∧
  live_rows (replay rows (reduced intents)) = live_rows (replay rows intents) ∧
  NoDup (omap intent_key (reduced intents)).
Proof.
  intros Hr. split_and!.
  - pose proof (reduce_ok intents) as H. destruct (reduce_row_intents intents) as [rs|e]; [by destruct H as [_ ->]|].
    destruct H as (_ & k & Hk). destruct (settled_from rows intents k Hr) as (o & Ho & _). congruence.
  - apply replayable_lookup. intros k. destruct (settled_from rows intents k Hr) as (o & Ho & Hf).
    rewrite (reduced_of rows intents k o) by done. destruct o as [[x|]|]; [|done..]. simpl. by destruct Hf as (_ & ? & _).
  - apply map_eq. intros k. unfold live_rows. rewrite !lookup_omap, replay_lookup.
    destruct (settled_from rows intents k Hr) as (o & Ho & Hf). rewrite (reduced_of rows intents k o) by done.
    destruct o as [[x|]|]; simpl in *.
    + by destruct Hf as (_ & _ & ->).
    + by destruct Hf as [-> ->].
    + by rewrite Hf.
  - apply nodup_keys. intros k. destruct (settled_from rows intents k Hr) as (o & Ho & Hf).
    rewrite (reduced_of rows intents k o) by done. destruct o as [[x|]|]; simpl; lia.
Qed.

(** ** Lemmas: the endpoint plan *)

Definition insert_obj (i : RowIntent) : option Z :=
  match operation i, intent_reference i with INSERT, Some (Pending o) => Some (obj_id o) | _, _ => None end.

Lemma note_position_insert positions p i :
  note_position positions p i = match insert_obj i with Some id => <[id := p]> positions | None => positions end.
Proof. unfold note_position, insert_obj. by destruct (operation i), (intent_reference i) as [[]|]. Qed.

(** Where the inserts of a prefix stand. *)
Definition positions_of (pre : list RowIntent) (positions : gmap Z nat) : Prop :=
  ∀ id q, positions !! id = Some q ↔ ∃ i, pre !! q = Some i ∧ insert_obj i = Some id.

Lemma positions_of_snoc pre positions i : positions_of pre positions → NoDup (omap insert_obj (pre ++ [i])) →
  positions_of (pre ++ [i]) (note_position positions (length pre) i).
Proof.
  unfold positions_of. intros Hp Hnd id q. rewrite note_position_insert. rewrite omap_app in Hnd. apply NoDup_app in Hnd as (_ & Hfresh & _).
  assert (∀ x, pre !! q = Some x → (pre ++ [i]) !! q = Some x) as Happ by (intros; by apply lookup_app_l_Some).
  destruct (insert_obj i) as [id'|] eqn:Hi.
  - destruct (decide (id' = id)) as [->|Hid].
    + rewrite lookup_insert_eq. split.
      * intros [= <-]. exists i. by rewrite list_lookup_middle.
      * intros (x & Hx & Hid). apply lookup_app_Some in Hx as [Hx|[Hle Hx]].
        -- exfalso. apply (Hfresh id).
           ++ apply list_elem_of_omap. exists x. split; [by eapply list_elem_of_lookup_2|done].
           ++ apply list_elem_of_omap. exists i. split; [by left|done].
        -- apply list_lookup_singleton_Some in Hx as [? _]. f_equal. lia.
    + rewrite lookup_insert_ne by done. rewrite Hp. split; intros (x & Hx & Hxi); exists x; split; auto.
      apply lookup_app_Some in Hx as [Hx|[Hle Hx]]; [done|]. apply list_lookup_singleton_Some in Hx as [_ <-]. congruence.
  - rewrite Hp. split; intros (x & Hx & Hxi); exists x; split; auto.
    apply lookup_app_Some in Hx as [Hx|[Hle Hx]]; [done|]. apply list_lookup_singleton_Some in Hx as [_ <-]. congruence.
Qed.

Section planned.
Context (txn_id : Z) (owns : PendingObj → bool).

(** The insert at [q] keeps the promise [o] made in column [slot] of the relationship insert [i] at [p]. *)
Definition keeps_promise (intents : list RowIntent) (p : nat) (i : RowIntent) (slot : nat) (o : PendingObj) (q : nat) : Prop :=
  PendingRowRef.txn_id (obj_ref o) = txn_id ∧ owns o = true ∧ (q < p)%nat ∧
  ∃ n, intents !! q = Some n ∧ insert_obj n = Some (obj_id o) ∧ table_kind (table n) = NodeTable ∧
       PendingRowRef.table_id (obj_ref o) = table_id (table n) ∧
       Some (table_name (table n)) = (if (slot =? 0)%nat then from_table (table i) else to_table (table i)).

Definition state_error {A} (m : result A) : Prop := errs_in (λ c, c = GrafxTransactionStateError) m.

Lemma plan_one_endpoint_Ok intents pre i rest positions slot o : intents = pre ++ i :: rest →
  table_kind (table i) = RelTable → positions_of (pre ++ [i]) positions →
  match plan_one_endpoint txn_id owns intents positions i (length pre) slot o with
  | Ok e => ∃ q, e = MkEndpoint (length pre) slot q ∧ keeps_promise intents (length pre) i slot o q
  | Err e => err_class e = GrafxTransactionStateError ∧ ∀ q, ¬ keeps_promise intents (length pre) i slot o q
  end.
Proof.
  intros Heq Hrel Hpos. unfold plan_one_endpoint.
  destruct (Z.eqb_spec (PendingRowRef.txn_id (obj_ref o)) txn_id) as [Ht|Ht]; simpl.
  2:{ split; [done|]. intros q (? & _). done. }
  destruct (owns o) eqn:Ho; simpl.
  2:{ split; [done|]. intros q (_ & ? & _). congruence. }
  assert (∀ q n, q < length pre → intents !! q = Some n ↔ (pre ++ [i]) !! q = Some n)%nat as Hpre.
  { intros q n Hq. rewrite Heq. by rewrite !lookup_app_l by lia. }
  destruct (positions !! obj_id o) as [q|] eqn:Hq.
  2:{ split; [done|]. intros q (_ & _ & Hlt & n & Hn & Hid & _). apply Hpre in Hn; [|done].
      assert (positions !! obj_id o = Some q) by (apply Hpos; eauto). congruence. }
  pose proof Hq as Hq'. apply Hpos in Hq as (n & Hn & Hid).
  assert (∀ q', keeps_promise intents (length pre) i slot o q' → q' = q) as Huniq.
  { intros q' (_ & _ & Hlt & n' & Hn' & Hid' & _). apply Hpre in Hn'; [|done].
    assert (positions !! obj_id o = Some q') by (apply Hpos; eauto). congruence. }
  assert (intents !! q = Some n) as Hin.
  { rewrite Heq. change (i :: rest) with ([i] ++ rest). rewrite (app_assoc pre [i] rest). by apply lookup_app_l_Some. }
  rewrite Hin. destruct (bool_decide_reflect (table_kind (table n) = NodeTable)) as [Hk|Hk]; simpl.
  2:{ split; [done|]. intros q' Hkeep. pose proof (Huniq _ Hkeep) as ->.
      destruct Hkeep as (_ & _ & _ & n' & Hn' & _ & Hk' & _). congruence. }
  assert (q < length pre)%nat as Hlt.
  { apply lookup_app_Some in Hn as [Hn|[_ Hn]]; [by apply lookup_lt_Some in Hn|].
    apply list_lookup_singleton_Some in Hn as [_ <-]. congruence. }
  destruct (Z.eqb_spec (PendingRowRef.table_id (obj_ref o)) (table_id (table n))) as [Hid2|Hid2]; simpl.
  2:{ split; [done|]. intros q' Hkeep. pose proof (Huniq _ Hkeep) as ->.
      destruct Hkeep as (_ & _ & _ & n' & Hn' & _ & _ & ? & _). congruence. }
  destruct (bool_decide_reflect (Some (table_name (table n))
    = (if (slot =? 0)%nat then from_table (table i) else to_table (table i)))) as [Hd|Hd]; simpl.
  - exists q. split; [done|]. unfold keeps_promise. eauto 12.
  - split; [done|]. intros q' Hkeep. pose proof (Huniq _ Hkeep) as ->.
    destruct Hkeep as (_ & _ & _ & n' & Hn' & _ & _ & _ & ?). congruence.
Qed.

(** A promise is kept only in an endpoint column of a relationship insert. *)
Definition kept_at (intents : list RowIntent) (p : nat) (i : RowIntent) (slot : nat) (o : PendingObj) (q : nat) : Prop :=
  operation i = INSERT ∧ table_kind (table i) = RelTable ∧ (slot < ENDPOINT_COLUMN_COUNT)%nat ∧
  keeps_promise intents p i slot o q.

Lemma plan_slots_Ok intents pre i rest positions slot cells : intents = pre ++ i :: rest →
  table_kind (table i) = RelTable → positions_of (pre ++ [i]) positions →
  match plan_slots txn_id owns intents positions i (length pre) slot cells with
  | Ok es =>
      (∀ j o, cells !! j = Some (Promise o) → ∃ q, MkEndpoint (length pre) (slot + j) q ∈ es ∧
         keeps_promise intents (length pre) i (slot + j) o q) ∧
      (∀ e, e ∈ es → relationship_position e = length pre ∧ ∃ j o, cells !! j = Some (Promise o) ∧
         endpoint_slot e = (slot + j)%nat ∧ keeps_promise intents (length pre) i (slot + j) o (endpoint_position e))
  | Err e => err_class e = GrafxTransactionStateError ∧ ∃ j o, cells !! j = Some (Promise o) ∧
      ∀ q, ¬ keeps_promise intents (length pre) i (slot + j) o q
  end.
Proof.
  intros Heq Hrel Hpos. revert slot. induction cells as [|c cells IH]; intros slot; simpl.
  { split; [intros j o Hj; done|by intros e ?%elem_of_nil]. }
  specialize (IH (S slot)). destruct c as [v|o].
  - destruct (plan_slots _ _ _ _ _ _ _ cells) as [es|e].
    + destruct IH as [H1 H2]. split.
      * intros [|j] o Hj; [done|]. destruct (H1 j o Hj) as (q & Hq & Hk). rewrite Nat.add_succ_r. by exists q.
      * intros e He. destruct (H2 e He) as (Hr & j & o & Hj & Hs & Hk). split; [done|]. exists (S j), o.
        rewrite Nat.add_succ_r. done.
    + destruct IH as (He & j & o & Hj & Hk). split; [done|]. exists (S j), o. rewrite Nat.add_succ_r. done.
  - pose proof (plan_one_endpoint_Ok intents pre i rest positions slot o Heq Hrel Hpos) as Hone.
    destruct (plan_one_endpoint _ _ _ _ _ _ _ _) as [p|e]; simpl.
    2:{ destruct Hone as [He Hk]. split; [done|]. exists 0%nat, o. rewrite Nat.add_0_r. done. }
    destruct Hone as (q & -> & Hk). destruct (plan_slots _ _ _ _ _ _ _ cells) as [es|e]; simpl.
    + destruct IH as [H1 H2]. split.
      * intros [|j] o' Hj; simplify_eq/=.
        -- exists q. rewrite Nat.add_0_r. split; [by left|done].
        -- destruct (H1 j o' Hj) as (q' & Hq & Hk'). rewrite Nat.add_succ_r. exists q'. split; [by right|done].
      * intros e He. apply elem_of_cons in He as [->|He]; simpl.
        -- split; [done|]. exists 0%nat, o. by rewrite Nat.add_0_r.
        -- destruct (H2 e He) as (Hr & j & o' & Hj & Hs & Hk'). split; [done|]. exists (S j), o'.
           rewrite Nat.add_succ_r. done.
    + destruct IH as (He & j & o' & Hj & Hk'). split; [done|]. exists (S j), o'. rewrite Nat.add_succ_r. done.
Qed.

Lemma refuse_pending_cells_Ok cells :
  match refuse_pending_cells cells with
  | Ok _ => ∀ j o, cells !! j ≠ Some (Promise o)
  | Err e => err_class e = GrafxTransactionStateError ∧ ∃ j o, cells !! j = Some (Promise o)
  end.
Proof.
  induction cells as [|[v|o] cells IH]; simpl; [done| |].
  - destruct (refuse_pending_cells cells); [intros [|j] o; [done|apply IH]|]. destruct IH as (He & j & o & Hj). split; [done|]. by exists (S j), o.
  - split; [done|]. by exists 0%nat, o.
Qed.

Lemma plan_intent_Ok intents pre i rest positions : intents = pre ++ i :: rest → positions_of (pre ++ [i]) positions →
  match plan_intent txn_id owns intents positions (length pre) i with
  | Ok es =>
      (∀ slot o, operation i ≠ DELETE → values i !! slot = Some (Promise o) →
         ∃ q, MkEndpoint (length pre) slot q ∈ es ∧ kept_at intents (length pre) i slot o q) ∧
      (∀ e, e ∈ es → relationship_position e = length pre ∧ ∃ o, values i !! endpoint_slot e = Some (Promise o) ∧
         kept_at intents (length pre) i (endpoint_slot e) o (endpoint_position e))
  | Err e => err_class e = GrafxTransactionStateError ∧ operation i ≠ DELETE ∧
      ∃ slot o, values i !! slot = Some (Promise o) ∧ ∀ q, ¬ kept_at intents (length pre) i slot o q
  end.
Proof.
  intros Heq Hpos. unfold plan_intent, refuse_pending_values, is_relationship.
  destruct (bool_decide_reflect (operation i = DELETE)) as [Hd|Hd].
  { split; [by intros|by intros e ?%elem_of_nil]. }
  destruct (decide (table_kind (table i) = RelTable ∧ operation i = INSERT)) as [[Hk Hi]|Hn].
  2:{ assert (negb (bool_decide (table_kind (table i) = RelTable)) || negb (bool_decide (operation i = INSERT)) = true) as ->.
      { repeat case_bool_decide; try done. naive_solver. }
      pose proof (refuse_pending_cells_Ok (drop 0 (values i))) as Href. rewrite drop_0 in *.
      destruct (refuse_pending_cells (values i)); simpl.
      - split; [|by intros e ?%elem_of_nil]. intros slot o _ Hs. by destruct (Href slot o).
      - destruct Href as (He & j & o & Hj). split_and!; [done..|]. exists j, o. split; [done|].
        intros q (? & ? & _). tauto. }
  rewrite !bool_decide_true by done. simpl.
  pose proof (plan_slots_Ok intents pre i rest positions 0 (take ENDPOINT_COLUMN_COUNT (values i)) Heq Hk Hpos) as Hs.
  destruct (plan_slots _ _ _ _ _ _ _ _) as [es|e]; simpl.
  2:{ destruct Hs as (He & j & o & Hj & Hno). apply lookup_take_Some in Hj as [Hj Hlt]. split_and!; [done..|].
      exists j, o. split; [done|]. intros q (_ & _ & _ & Hkeep). by apply (Hno q). }
  destruct Hs as [H1 H2]. pose proof (refuse_pending_cells_Ok (drop ENDPOINT_COLUMN_COUNT (values i))) as Href.
  destruct (refuse_pending_cells _) as [u|e]; simpl.
  - split.
    + intros slot o _ Hslot. destruct (decide (slot < ENDPOINT_COLUMN_COUNT)%nat) as [Hlt|Hge].
      * destruct (H1 slot o) as (q & Hq & Hkeep); [by rewrite lookup_take_lt|]. by exists q.
      * exfalso. apply (Href (slot - ENDPOINT_COLUMN_COUNT)%nat o). rewrite lookup_drop. rewrite <-Hslot. f_equal. lia.
    + intros e He. destruct (H2 e He) as (Hr & j & o & Hj & Hsl & Hkeep). split; [done|]. exists o.
      apply lookup_take_Some in Hj as [Hj Hlt]. rewrite Hsl. done.
  - destruct Href as (He & j & o & Hj). rewrite lookup_drop in Hj. split_and!; [done..|].
    exists (ENDPOINT_COLUMN_COUNT + j)%nat, o. split; [done|]. intros q (_ & _ & Hlt & _). lia.
Qed.

(** Every promise, wherever it stands. *)
Definition promised (intents : list RowIntent) (p : nat) (i : RowIntent) (slot : nat) (o : PendingObj) : Prop :=
  intents !! p = Some i ∧ operation i ≠ DELETE ∧ values i !! slot = Some (Promise o).

Lemma plan_from_Ok intents pre rest positions : intents = pre ++ rest → NoDup (omap insert_obj intents) →
  positions_of pre positions →
  match plan_from txn_id owns intents positions (length pre) rest with
  | Ok es =>
      (∀ p i slot o, (length pre <= p)%nat → promised intents p i slot o →
         ∃ q, MkEndpoint p slot q ∈ es ∧ kept_at intents p i slot o q) ∧
      (∀ e, e ∈ es → ∃ i o, promised intents (relationship_position e) i (endpoint_slot e) o ∧
         kept_at intents (relationship_position e) i (endpoint_slot e) o (endpoint_position e))
  | Err e => err_class e = GrafxTransactionStateError ∧
      ∃ p i slot o, promised intents p i slot o ∧ ∀ q, ¬ kept_at intents p i slot o q
  end.
Proof.
  intros Heq Hnd. revert pre positions Heq. induction rest as [|i rest IH]; intros pre positions Heq Hpos; simpl.
  { split; [|by intros e ?%elem_of_nil]. intros p i slot o Hp (Hi & _). rewrite Heq, app_nil_r in Hi.
    apply lookup_lt_Some in Hi. lia. }
  assert (intents = (pre ++ [i]) ++ rest) as Heq' by (by rewrite <-app_assoc).
  assert (positions_of (pre ++ [i]) (note_position positions (length pre) i)) as Hpos'.
  { apply positions_of_snoc; [done|]. rewrite Heq', omap_app in Hnd. by apply NoDup_app in Hnd as (? & _). }
  assert (intents !! length pre = Some i) as Hi by (rewrite Heq; by rewrite list_lookup_middle).
  pose proof (plan_intent_Ok intents pre i rest _ Heq Hpos') as Hone.
  destruct (plan_intent _ _ _ _ _ _) as [es|e]; simpl.
  2:{ destruct Hone as (He & Hd & slot & o & Hs & Hno). split; [done|]. by exists (length pre), i, slot, o. }
  destruct Hone as [H1 H2]. specialize (IH (pre ++ [i]) _ Heq' Hpos').
  rewrite length_app in IH. simpl in IH. rewrite Nat.add_1_r in IH.
  destruct (plan_from _ _ _ _ _ rest) as [qs|e]; simpl; [|done].
  destruct IH as [H3 H4]. split.
  - intros p x slot o Hp Hprom. destruct (decide (p = length pre)) as [->|Hne].
    + destruct Hprom as (Hx & Hd & Hs). assert (x = i) as -> by congruence.
      destruct (H1 slot o Hd Hs) as (q & Hq & Hk). exists q. rewrite elem_of_app. auto.
    + destruct (H3 p x slot o ltac:(lia) Hprom) as (q & Hq & Hk). exists q. rewrite elem_of_app. auto.
  - intros e [He|He]%elem_of_app; [|by apply H4]. destruct (H2 e He) as (Hr & o & Hs & Hk).
    exists i, o. rewrite Hr. split; [|done]. unfold promised. split_and!; [done| |done].
    destruct Hk as (Hop & _). congruence.
Qed.

End planned.
End intents.
Arguments cell : clear implicits.
Arguments RowIntent : clear implicits.
Arguments Reduction : clear implicits.
Arguments Row : clear implicits.
Arguments RowState : clear implicits.
Arguments Outcome : clear implicits.

(** ** Theorems *)

(** reducing a batch of row intents is folding each reference on its own.  The reducer succeeds
    exactly when every reference's intents fold, and then its answer is the folded outcome of each
    surviving reference at the place where the reference was first seen, with the anonymous inserts
    where they stood; a refusal is the state error about the reference that does not fold. *)
Theorem reduce_row_intents_exact {V} (intents : list (RowIntent V)) :
  match reduce_row_intents intents with
  | Ok rs => (∀ k, ∃ outcome, settled k intents = Ok outcome) ∧ rs = reduced intents
  | Err e => e = MkError GrafxTransactionStateError "reference" "" ∧ ∃ k, settled k intents = Err e
  end.
Proof. apply reduce_ok. Qed.

(** C28: writing the reduced batch is writing the batch.  For any rows in which the batch makes sense
    (its inserts are new, its updates and deletes name rows it knows), the reducer succeeds, its answer
    still makes sense, names each reference at most once, keeps the anonymous inserts in order, and
    leaves a reader exactly the rows that replaying every intent one by one leaves. *)
Theorem reduced_batch_replays {V} (rows : gmap ref_key (RowState V)) (intents : list (RowIntent V)) :
  replayable rows intents →
  ∃ rs, reduce_row_intents intents = Ok rs ∧ replayable rows rs ∧ NoDup (omap intent_key rs) ∧
        anonymous rs = anonymous intents ∧ live_rows (replay rows rs) = live_rows (replay rows intents).
Proof.
  intros Hr. destruct (reduced_replays rows intents Hr) as (Hred & Hok & Hlive & Hnd).
  exists (reduced intents). split_and!; try done. by eapply reduced_anonymous.
Qed.

Definition sample_node : Table := MkTable 3 (str "Person") NodeTable None None.
Definition sample_rel : Table := MkTable 4 (str "Knows") RelTable (Some (str "Person")) (Some (str "Person")).
Definition sample_pending (n : Z) : PendingObj := MkPendingObj n (PendingRowRef.Mk 7 3 (- n)).
Definition sample_intent (t : Table) (cells : list (cell Z)) (op : RowOperation) (r : reference) : RowIntent Z :=
  MkIntent t cells None op (Some r) None.

(** Two inserts, one of them updated, the other cancelled; a stored row updated and then deleted. *)
Definition sample_batch : list (RowIntent Z) := [
  sample_intent sample_node [Plain 1] INSERT (Pending (sample_pending 1));
  sample_intent sample_node [Plain 2] UPDATE (Stored (RecordRef.Mk 5 0));
  sample_intent sample_node [Plain 3] INSERT (Pending (sample_pending 2));
  sample_intent sample_node [Plain 4] UPDATE (Pending (sample_pending 1));
  sample_intent sample_node [] DELETE (Pending (sample_pending 2));
  sample_intent sample_node [] DELETE (Stored (RecordRef.Mk 5 0))].
Definition sample_rows : gmap ref_key (RowState Z) :=
  {[inl (RecordRef.Mk 5 0) := Live (MkRow sample_node [Plain 9] None (Some 12))]}.

Lemma reduced_batch_replays_witness :
  ∃ rs, reduce_row_intents sample_batch = Ok rs ∧
    (operation <$> rs, values <$> rs) = ([INSERT; DELETE], [[Plain 4]; []]) ∧
    live_rows (replay sample_rows rs) = live_rows (replay sample_rows sample_batch).
Proof.
  destruct (reduced_batch_replays sample_rows sample_batch) as (rs & Hrs & _ & _ & _ & Hlive).
  - repeat (split; [intros k [= <-]; vm_compute; by eauto|]). exact I.
  - exists rs. split_and!; [done| |done]. vm_compute in Hrs. by injection Hrs as <-.
Defined.

(** C29: the endpoint planner is exact.  In a batch whose inserts are distinct objects it succeeds if and
    only if every pending value outside a delete stands in an endpoint column of a relationship insert
    and names, by identity, a node insert of this transaction that comes earlier and belongs to the table
    that column declares; its answer then lists exactly those endpoints with the insert each one names,
    and otherwise it is a state error. *)
Theorem planned_endpoints_exact {V} (txn_id : Z) (owns : PendingObj → bool) (intents : list (RowIntent V)) :
  NoDup (omap insert_obj intents) →
  match plan_relationship_endpoints txn_id owns intents with
  | Ok es =>
      (∀ p i slot o, promised intents p i slot o →
         ∃ q, MkEndpoint p slot q ∈ es ∧ kept_at txn_id owns intents p i slot o q) ∧
      (∀ e, e ∈ es → ∃ i o, promised intents (relationship_position e) i (endpoint_slot e) o ∧
         kept_at txn_id owns intents (relationship_position e) i (endpoint_slot e) o (endpoint_position e))
  | Err e => err_class e = GrafxTransactionStateError ∧
      ∃ p i slot o, promised intents p i slot o ∧ ∀ q, ¬ kept_at txn_id owns intents p i slot o q
  end.
Proof.
  intros Hnd. unfold plan_relationship_endpoints.
  pose proof (plan_from_Ok txn_id owns intents [] intents ∅ eq_refl Hnd) as H. simpl in H.
  assert (positions_of (V := V) [] ∅) as Hempty.
  { intros id q. rewrite lookup_empty. split; [done|]. by intros (i & Hi & _). }
  specialize (H Hempty). destruct (plan_from _ _ _ _ _ _); [|done]. destruct H as [H1 H2]. split; [|done].
  intros p i slot o. apply H1. lia.
Qed.

Definition sample_edges : list (RowIntent Z) := [
  sample_intent sample_node [Plain 1] INSERT (Pending (sample_pending 1));
  sample_intent sample_rel [Promise (sample_pending 1); Plain 8; Plain 0] INSERT (Pending (sample_pending 2))].

Lemma planned_endpoints_exact_witness :
  plan_relationship_endpoints 7 (λ _, true) sample_edges = Ok [MkEndpoint 1 0 0] ∧
  ∃ i o, promised sample_edges 1 i 0 o ∧ kept_at 7 (λ _, true) sample_edges 1 i 0 o 0.
Proof.
  pose proof (planned_endpoints_exact 7 (λ _, true) sample_edges) as H.
  assert (plan_relationship_endpoints 7 (λ _, true) sample_edges = Ok [MkEndpoint 1 0 0]) as Hp by reflexivity.
  rewrite Hp in H. split; [done|]. destruct H as [_ H].
  - change (omap insert_obj sample_edges) with [1; 2]. apply (bool_decide_unpack _). by vm_compute.
  - exact (H (MkEndpoint 1 0 0) ltac:(by left)).
Defined.
