(* ===== verification/TxnContext.v ===== *)
(** What one open transaction holds: src/src/okto_grafx/domain/txn/context.py.

    A context is a record; a method that raises answers [Err] and leaves the context as it was.
    Python objects compared with [is] carry their identity: a pending reference and a staging mark
    have a number of their own, and a page image is the number of an immutable bytes object whose
    bytes are [content].  The schema layer (tuple encoding, typed assignments, label sets) is the
    class [Schema], SHA-256 the function [sha256].  The context is the one opened without tuple
    encoding proofs (the default), so nothing is retained for them; memo fields are left out.

    The theorems: discarding a statement restores what was staged before it, budgets hold, the
    staged batch always reduces and replays, and an ended transaction refuses everything. *)

From S2P Require Import Prelude Ids Layout Utf8 WalRecord CommitPayload IndexChange PageRecord Intents.

#[export] Existing Instance RecordRef.eq_dec.

(** ** Modes and states *)

Inductive TransactionMode := READ | WRITE.
Inductive TransactionState := ACTIVE | COMMITTED | ABORTED.

#[export] Instance transaction_mode_eq_dec : EqDecision TransactionMode.
Proof. solve_decision. Defined.
#[export] Instance transaction_state_eq_dec : EqDecision TransactionState.
Proof. solve_decision. Defined.

Definition mode_value (m : TransactionMode) : pystr := match m with READ => str "read" | WRITE => str "write" end.

(** [TransactionMode.parse] of a string. *)
Definition parse_mode (mode : pystr) : result TransactionMode :=
  if bool_decide (mode = mode_value READ) then Ok READ
  else if bool_decide (mode = mode_value WRITE) then Ok WRITE
  else raise GrafxConfigurationError "mode".

Record CommitReport := MkReport { csn : Z; durable : bool; report_wrote : bool }.

(** ** What the schema layer answers *)

Class Schema (V : Type) := {
  (** [SIZING_ENDPOINT], the value a promise is measured as. *)
  sizing_endpoint : V;
  (** Python's [==] of two stored values. *)
  value_eqb : V → V → bool;
  (** [len(encode_tuple(table, values))]. *)
  tuple_length : Table → list V → result Z;
  (** [_normalize_typed_assignments(table, values)]. *)
  normalize_typed_assignments : Table → list (cell V) → result (list (cell V));
  (** [_node_label_payload_bytes(table, labels)] of labels that are given. *)
  label_length : Table → list pystr → result Z
}.

(** A staging mark: its identity and the three counts it shows. *)
Record Mark := MkMark { mark_id : Z; mark_rows : nat; mark_records : nat; mark_pages : nat }.

#[export] Instance mark_eq_dec : EqDecision Mark.
Proof. solve_decision. Defined.

Abbreviation location := (pystr * Z)%type.

(** What a live mark keeps: the images, their proofs and the accounting at that point. *)
Record Snapped := MkSnapped {
  snap_mark : Mark;
  snap_images : gmap location Z;
  snap_proofs : gmap location bytes;
  snap_reads : gset Z;
  snap_writes : gset Z;
  snap_payload_bytes : Z
}.

Definition require_partition (partition : Z) : result Z :=
  if partition <? 0 then raise GrafxConfigurationError "partition" else Ok partition.

Definition require_optional_positive_limit (field : string) (value : option Z) : result (option Z) :=
  match value with
  | None => Ok None
  | Some limit => if limit <=? 0 then raise GrafxConfigurationError field else Ok (Some limit)
  end.

Section context.
Context {V : Type} `{Schema V}.
Context (content : Z → bytes) (sha256 : bytes → bytes).

Record TransactionContext := MkContext {
  txn : Z;
  mode : TransactionMode;
  snapshot : Snapshot.t;
  ctx_epoch : Z;
  state : TransactionState;
  conflicts : Z;
  commit_csn : Z;
  read_partitions : gset Z;
  write_partitions : gset Z;
  pending_records : list WalRecord;
  page_images : gmap location Z;
  page_image_proofs : gmap location bytes;
  page_staging_capability : Z;
  max_transaction_rows : option Z;
  max_transaction_bytes : option Z;
  staged_payload_bytes : Z;
  staging_marks : list Snapped;
  next_pending_token : Z;
  pending_row_refs : gmap Z PendingObj;
  effective_row_tables : option (gset (Z * pystr));
  row_intents : list (RowIntent V);
  row_refs : list RecordRef.t
}.

Definition open_context (txn_id : Z) (mode : TransactionMode) (snapshot : Snapshot.t) (epoch capability : Z)
    (max_rows max_bytes : option Z) : result TransactionContext :=
  rows ← require_optional_positive_limit "max_transaction_rows" max_rows;
  bytes ← require_optional_positive_limit "max_transaction_bytes" max_bytes;
  Ok (MkContext txn_id mode snapshot epoch ACTIVE 0 NO_CSN ∅ ∅ [] ∅ ∅ capability rows bytes 0 [] (-1) ∅ None [] []).

(** Assignments to the fields of a context, one group per kind of work. *)
Definition with_partitions (c : TransactionContext) (reads writes : gset Z) : TransactionContext :=
  MkContext (txn c) (mode c) (snapshot c) (ctx_epoch c) (state c) (conflicts c) (commit_csn c) reads writes
    (pending_records c) (page_images c) (page_image_proofs c) (page_staging_capability c)
    (max_transaction_rows c) (max_transaction_bytes c) (staged_payload_bytes c) (staging_marks c)
    (next_pending_token c) (pending_row_refs c) (effective_row_tables c) (row_intents c) (row_refs c).
Definition with_payload (c : TransactionContext) (payload : Z) : TransactionContext :=
  MkContext (txn c) (mode c) (snapshot c) (ctx_epoch c) (state c) (conflicts c) (commit_csn c) (read_partitions c)
    (write_partitions c) (pending_records c) (page_images c) (page_image_proofs c) (page_staging_capability c)
    (max_transaction_rows c) (max_transaction_bytes c) payload (staging_marks c)
    (next_pending_token c) (pending_row_refs c) (effective_row_tables c) (row_intents c) (row_refs c).
Definition with_records (c : TransactionContext) (records : list WalRecord) : TransactionContext :=
  MkContext (txn c) (mode c) (snapshot c) (ctx_epoch c) (state c) (conflicts c) (commit_csn c) (read_partitions c)
    (write_partitions c) records (page_images c) (page_image_proofs c) (page_staging_capability c)
    (max_transaction_rows c) (max_transaction_bytes c) (staged_payload_bytes c) (staging_marks c)
    (next_pending_token c) (pending_row_refs c) (effective_row_tables c) (row_intents c) (row_refs c).
Definition with_images (c : TransactionContext) (images : gmap location Z) (proofs : gmap location bytes) : TransactionContext :=
  MkContext (txn c) (mode c) (snapshot c) (ctx_epoch c) (state c) (conflicts c) (commit_csn c) (read_partitions c)
    (write_partitions c) (pending_records c) images proofs (page_staging_capability c)
    (max_transaction_rows c) (max_transaction_bytes c) (staged_payload_bytes c) (staging_marks c)
    (next_pending_token c) (pending_row_refs c) (effective_row_tables c) (row_intents c) (row_refs c).
Definition with_marks (c : TransactionContext) (marks : list Snapped) : TransactionContext :=
  MkContext (txn c) (mode c) (snapshot c) (ctx_epoch c) (state c) (conflicts c) (commit_csn c) (read_partitions c)
    (write_partitions c) (pending_records c) (page_images c) (page_image_proofs c) (page_staging_capability c)
    (max_transaction_rows c) (max_transaction_bytes c) (staged_payload_bytes c) marks
    (next_pending_token c) (pending_row_refs c) (effective_row_tables c) (row_intents c) (row_refs c).
Definition with_rows (c : TransactionContext) (intents : list (RowIntent V)) (refs : gmap Z PendingObj) (token : Z) : TransactionContext :=
  MkContext (txn c) (mode c) (snapshot c) (ctx_epoch c) (state c) (conflicts c) (commit_csn c) (read_partitions c)
    (write_partitions c) (pending_records c) (page_images c) (page_image_proofs c) (page_staging_capability c)
    (max_transaction_rows c) (max_transaction_bytes c) (staged_payload_bytes c) (staging_marks c)
    token refs (effective_row_tables c) intents (row_refs c).
Definition with_life (c : TransactionContext) (epoch : Z) (state' : TransactionState) (conflicts' commit_csn' : Z) : TransactionContext :=
  MkContext (txn c) (mode c) (snapshot c) epoch state' conflicts' commit_csn' (read_partitions c)
    (write_partitions c) (pending_records c) (page_images c) (page_image_proofs c) (page_staging_capability c)
    (max_transaction_rows c) (max_transaction_bytes c) (staged_payload_bytes c) (staging_marks c)
    (next_pending_token c) (pending_row_refs c) (effective_row_tables c) (row_intents c) (row_refs c).

Definition active (c : TransactionContext) : bool := bool_decide (state c = ACTIVE).

Definition wrote (c : TransactionContext) : bool :=
  negb (bool_decide (pending_records c = [])) || negb (bool_decide (page_images c = ∅))
  || negb (match row_intents c with [] => true | _ => false end) || negb (bool_decide (write_partitions c = ∅)).

Definition require_active (c : TransactionContext) : result unit :=
  if active c then Ok () else raise GrafxTransactionStateError "".
Definition require_write_mode (c : TransactionContext) : result unit :=
  if bool_decide (mode c = WRITE) then Ok () else raise GrafxTransactionStateError "".

(** ** Budgets *)

Definition raise_if_over_budget (field : string) (observed limit : Z) : result unit :=
  if observed <=? limit then Ok () else raise GrafxTransactionBudgetExceeded field.

Definition require_row_count_capacity (c : TransactionContext) : result unit :=
  match max_transaction_rows c with
  | None => Ok ()
  | Some limit => raise_if_over_budget "max_transaction_rows" (zlen (row_intents c) + 1) limit
  end.

Definition require_payload_capacity (c : TransactionContext) (additional_bytes : Z) : result unit :=
  match max_transaction_bytes c with
  | None => Ok ()
  | Some limit => raise_if_over_budget "max_transaction_bytes" (staged_payload_bytes c + additional_bytes) limit
  end.

(** [_sizing_values]. *)
Definition sizing_values (cells : list (cell V)) : list V :=
  (λ x, match x with Plain v => v | Promise _ => sizing_endpoint end) <$> cells.

Definition node_label_payload_bytes (t : Table) (labels : option (list pystr)) : result Z :=
  match labels with None => Ok 0 | Some labels => label_length t labels end.

(** [_row_payload_bytes]; without a byte budget the values are not encoded, the labels still are. *)
Definition row_payload_bytes (max_bytes : option Z) (t : Table) (cells : list (cell V)) (labels : option (list pystr)) : result Z :=
  label_bytes ← node_label_payload_bytes t labels;
  match max_bytes with
  | None => Ok 0
  | Some _ => tuple_bytes ← tuple_length t (sizing_values cells); Ok (tuple_bytes + label_bytes)
  end.

Definition record_payload_bytes (max_bytes : option Z) (record : WalRecord) : result Z :=
  match max_bytes with None => Ok 0 | Some _ => encoded_length record end.

Definition intent_payload_bytes (max_bytes : option Z) (i : RowIntent V) : result Z :=
  if bool_decide (operation i = DELETE) then Ok 0
  else row_payload_bytes max_bytes (table i) (values i) (node_labels i).

Fixpoint sum_results (l : list (result Z)) : result Z :=
  match l with [] => Ok 0 | m :: l => x ← m; rest ← sum_results l; Ok (x + rest) end.

(** [_retained_page_payload_bytes]: the images of the map, then those of each live mark not seen yet. *)
Definition retain_image (acc : gset (location * Z) * Z) (entry : location * Z) : gset (location * Z) * Z :=
  if bool_decide (entry ∈ acc.1) then acc else ({[entry]} ∪ acc.1, acc.2 + zlen (content entry.2)).

Definition retained_page_payload_bytes (images : gmap location Z) (marks : list Snapped) : Z :=
  let current := (list_to_set (map_to_list images), foldr (λ e acc, zlen (content e.2) + acc) 0 (map_to_list images)) in
  (fold_left (λ acc snap, fold_left retain_image (map_to_list (snap_images snap)) acc) marks current).2.

Definition image_is_retained_by_mark (c : TransactionContext) (l : location) (image : Z) : bool :=
  existsb (λ snap, bool_decide (snap_images snap !! l = Some image)) (staging_marks c).

(** The bytes a recomputation observes. *)
Definition observed_bytes (max_bytes : option Z) (intents : list (RowIntent V)) (records : list WalRecord)
    (images : gmap location Z) (marks : list Snapped) : result Z :=
  rows ← sum_results (intent_payload_bytes max_bytes <$> intents);
  logical ← sum_results (record_payload_bytes max_bytes <$> records);
  Ok (rows + logical + retained_page_payload_bytes images marks).

Definition reconcile_staged_payload_bytes (c : TransactionContext) : result TransactionContext :=
  match max_transaction_bytes c with
  | None => Ok c
  | Some limit =>
      observed ← observed_bytes (Some limit) (row_intents c) (pending_records c) (page_images c) (staging_marks c);
      _ ← raise_if_over_budget "max_transaction_bytes" observed limit;
      Ok (with_payload c observed)
  end.

Definition validate_budgets (c : TransactionContext) : result TransactionContext :=
  _ ← require_active c;
  _ ← match max_transaction_rows c with
      | None => Ok ()
      | Some limit => raise_if_over_budget "max_transaction_rows" (zlen (row_intents c)) limit
      end;
  reconcile_staged_payload_bytes c.

(** ** Partitions *)

Definition note_read (c : TransactionContext) (partition : Z) : result TransactionContext :=
  _ ← require_active c;
  partition ← require_partition partition;
  Ok (with_partitions c ({[partition]} ∪ read_partitions c) (write_partitions c)).

Definition note_write (c : TransactionContext) (partition : Z) : result TransactionContext :=
  _ ← require_active c;
  _ ← require_write_mode c;
  partition ← require_partition partition;
  Ok (with_partitions c (read_partitions c) ({[partition]} ∪ write_partitions c)).

(** [note_reads] and [note_writes] keep what they recorded before a refusal. *)
Fixpoint note_all (note : TransactionContext → Z → result TransactionContext) (c : TransactionContext) (partitions : list Z)
    : TransactionContext * result unit :=
  match partitions with
  | [] => (c, Ok ())
  | partition :: partitions =>
      match note c partition with Ok c => note_all note c partitions | Err e => (c, Err e) end
  end.
Definition note_reads := note_all note_read.
Definition note_writes := note_all note_write.

(** ** Records and pages *)

Definition stage_record (c : TransactionContext) (record : WalRecord) : result TransactionContext :=
  _ ← require_active c;
  _ ← require_write_mode c;
  if negb (bool_decide (record_type record ∈ [record_type_value INDEX_WRITE; record_type_value INDEX_RECONCILE]))
  then raise GrafxConfigurationError "record_type"
  else if negb (lsn record =? 0) then raise GrafxConfigurationError "lsn"
  else if negb (txn_id record =? txn c) then raise GrafxConfigurationError "txn_id"
  else
    record_bytes ← record_payload_bytes (max_transaction_bytes c) record;
    _ ← require_payload_capacity c record_bytes;
    Ok (with_payload (with_records c (pending_records c ++ [record])) (staged_payload_bytes c + record_bytes)).

(** The public [stage_page_image] refuses every call. *)
Definition stage_page_image (c : TransactionContext) : result TransactionContext :=
  _ ← require_active c;
  _ ← require_write_mode c;
  raise GrafxConfigurationError "page_image_provenance".

(** How much more a page image keeps alive than what it replaces. *)
Definition image_delta (c : TransactionContext) (l : location) (image : Z) : Z :=
  match page_images c !! l with
  | Some previous =>
      if previous =? image then 0
      else if image_is_retained_by_mark c l previous then zlen (content image)
      else zlen (content image) - zlen (content previous)
  | None => zlen (content image)
  end.

Definition stage_page_image_private (c : TransactionContext) (file : pystr) (page_index image capability : Z)
    : result TransactionContext :=
  _ ← require_active c;
  _ ← require_write_mode c;
  if negb (capability =? page_staging_capability c) then raise GrafxConfigurationError "page_image_capability"
  else if negb (is_redoable_page_file file) then raise GrafxConfigurationError "file"
  else if page_index <? 0 then raise GrafxConfigurationError "page_index"
  else
    let l := (file, page_index) in
    let delta := image_delta c l image in
    _ ← require_payload_capacity c delta;
    partition ← page_partition file page_index;
    let c := with_images c (<[l := image]> (page_images c)) (<[l := sha256 (content image)]> (page_image_proofs c)) in
    let c := with_payload c (staged_payload_bytes c + delta) in
    Ok (with_partitions c (read_partitions c) ({[partition]} ∪ write_partitions c)).

(** [unproved_page_images]: the locations of either map that the other does not prove. *)
Definition proved_page_image (c : TransactionContext) (l : location) : bool :=
  match page_images c !! l, page_image_proofs c !! l with
  | Some image, Some proof => bool_decide (sha256 (content image) = proof)
  | _, _ => false
  end.
Definition unproved_page_images (c : TransactionContext) : list location :=
  filter (λ l, proved_page_image c l = false) (elements (dom (page_images c) ∪ dom (page_image_proofs c))).

(** ** Rows *)

(** [is]: the object this context handed out for that token. *)
Definition owns_pending_row_ref (c : TransactionContext) (o : PendingObj) : bool :=
  bool_decide (pending_row_refs c !! PendingRowRef.token (obj_ref o) = Some o).

Fixpoint require_stageable_cells (c : TransactionContext) (endpoints slot : nat) (cells : list (cell V)) : result unit :=
  match cells with
  | [] => Ok ()
  | Plain _ :: cells => require_stageable_cells c endpoints (S slot) cells
  | Promise o :: cells =>
      if (endpoints <=? slot)%nat then raise GrafxTransactionStateError "values"
      else if negb (PendingRowRef.txn_id (obj_ref o) =? txn c) || negb (owns_pending_row_ref c o)
      then raise GrafxTransactionStateError "pending_row_reference"
      else require_stageable_cells c endpoints (S slot) cells
  end.

Definition require_stageable_values (c : TransactionContext) (t : Table) (cells : list (cell V)) (inserting : bool) : result unit :=
  require_stageable_cells c (if inserting && is_relationship t then ENDPOINT_COLUMN_COUNT else 0%nat) 0 cells.

Definition allocate_pending_row_ref (c : TransactionContext) (t : Table) (oid : Z) : result (PendingObj * TransactionContext) :=
  if table_id t <? 1 then raise GrafxConfigurationError "table_id"
  else
    reference ← PendingRowRef.make (txn c) (table_id t) (next_pending_token c);
    let o := MkPendingObj oid reference in
    Ok (o, with_rows c (row_intents c) (<[next_pending_token c := o]> (pending_row_refs c)) (next_pending_token c - 1)).

(** [oid] is the identity Python gives the new reference object. *)
Definition stage_row_insert (c : TransactionContext) (t : Table) (cells : list (cell V)) (record_id : option Z)
    (labels : option (list pystr)) (oid : Z) : result (PendingObj * TransactionContext) :=
  _ ← require_active c;
  _ ← require_write_mode c;
  if match record_id with Some r => r <? 1 | None => false end then raise GrafxConfigurationError "record_id"
  else
    _ ← require_row_count_capacity c;
    _ ← require_stageable_values c t cells true;
    cells ← normalize_typed_assignments t cells;
    payload_bytes ← row_payload_bytes (max_transaction_bytes c) t cells labels;
    _ ← require_payload_capacity c payload_bytes;
    '(o, c) ← allocate_pending_row_ref c t oid;
    let intent := MkIntent t cells record_id INSERT (Some (Pending o)) labels in
    let c := with_rows c (row_intents c ++ [intent]) (pending_row_refs c) (next_pending_token c) in
    Ok (o, with_payload c (staged_payload_bytes c + payload_bytes)).

Definition require_row_reference (c : TransactionContext) (t : Table) (r : reference) : result reference :=
  match r with
  | Stored _ => Ok r
  | Pending o =>
      if negb (PendingRowRef.txn_id (obj_ref o) =? txn c) || negb (PendingRowRef.table_id (obj_ref o) =? table_id t)
         || negb (owns_pending_row_ref c o)
      then raise GrafxTransactionStateError "pending_row_reference"
      else Ok r
  end.

Definition cell_eqb (a b : cell V) : bool :=
  match a, b with
  | Plain v, Plain w => value_eqb v w
  | Promise o, Promise p => bool_decide (obj_ref o = obj_ref p)
  | _, _ => false
  end.
Fixpoint cells_eqb (a b : list (cell V)) : bool :=
  match a, b with
  | [], [] => true
  | x :: a, y :: b => cell_eqb x y && cells_eqb a b
  | _, _ => false
  end.

(** Whether an update of a pending relationship keeps the endpoints of the insert it reduces into:
    the first insert or delete of that object, walking back. *)
Fixpoint retains_endpoints (o : PendingObj) (cells : list (cell V)) (newest_first : list (RowIntent V)) : bool :=
  match newest_first with
  | [] => false
  | intent :: older =>
      if negb (bool_decide (intent_reference intent = Some (Pending o))) then retains_endpoints o cells older
      else
        match operation intent with
        | DELETE => false
        | INSERT => cells_eqb (take ENDPOINT_COLUMN_COUNT cells) (take ENDPOINT_COLUMN_COUNT (values intent))
        | UPDATE => retains_endpoints o cells older
        end
  end.

Definition stage_row_update (c : TransactionContext) (t : Table) (r : reference) (cells : list (cell V))
    (labels : option (list pystr)) : result TransactionContext :=
  _ ← require_active c;
  _ ← require_write_mode c;
  r ← require_row_reference c t r;
  _ ← require_row_count_capacity c;
  let retained :=
    match r with
    | Pending o => is_relationship t && retains_endpoints o cells (reverse (row_intents c))
    | Stored _ => false
    end in
  _ ← require_stageable_values c t cells retained;
  cells ← normalize_typed_assignments t cells;
  payload_bytes ← row_payload_bytes (max_transaction_bytes c) t cells labels;
  _ ← require_payload_capacity c payload_bytes;
  let intent := MkIntent t cells None UPDATE (Some r) labels in
  let c := with_rows c (row_intents c ++ [intent]) (pending_row_refs c) (next_pending_token c) in
  Ok (with_payload c (staged_payload_bytes c + payload_bytes)).

Definition stage_row_delete (c : TransactionContext) (t : Table) (r : reference) : result TransactionContext :=
  _ ← require_active c;
  _ ← require_write_mode c;
  r ← require_row_reference c t r;
  _ ← require_row_count_capacity c;
  let intent := MkIntent t [] None DELETE (Some r) None in
  Ok (with_rows c (row_intents c ++ [intent]) (pending_row_refs c) (next_pending_token c)).

(** ** Statements *)

Definition staging_mark (c : TransactionContext) (id : Z) : Mark * TransactionContext :=
  let mark := MkMark id (length (row_intents c)) (length (pending_records c)) (size (page_images c)) in
  (mark, with_marks c (staging_marks c ++
     [MkSnapped mark (page_images c) (page_image_proofs c) (read_partitions c) (write_partitions c) (staged_payload_bytes c)])).

(** The most recent mark, when it is this very one. *)
Definition top_mark (c : TransactionContext) (mark : Mark) : result Snapped :=
  match last (staging_marks c) with
  | Some snap => if bool_decide (snap_mark snap = mark) then Ok snap else raise GrafxTransactionStateError "mark"
  | None => raise GrafxTransactionStateError "mark"
  end.

Definition insert_objects (intents : list (RowIntent V)) : list PendingObj :=
  omap (λ i, match operation i, intent_reference i with INSERT, Some (Pending o) => Some o | _, _ => None end) intents.

(** Forget the references of discarded inserts that no remaining insert holds. *)
Definition forget_ref (remaining : list Z) (refs : gmap Z PendingObj) (o : PendingObj) : gmap Z PendingObj :=
  if negb (bool_decide (obj_id o ∈ remaining))
     && bool_decide (refs !! PendingRowRef.token (obj_ref o) = Some o)
  then delete (PendingRowRef.token (obj_ref o)) refs
  else refs.

Definition discard_since (c : TransactionContext) (mark : Mark) : result TransactionContext :=
  if (length (row_intents c) <? mark_rows mark)%nat || (length (pending_records c) <? mark_records mark)%nat
     || (size (page_images c) <? mark_pages mark)%nat
  then raise GrafxTransactionStateError "mark"
  else
    snap ← top_mark c mark;
    let kept := take (mark_rows mark) (row_intents c) in
    let refs := fold_left (forget_ref (obj_id <$> insert_objects kept))
                  (insert_objects (drop (mark_rows mark) (row_intents c))) (pending_row_refs c) in
    let c := with_marks c (removelast (staging_marks c)) in
    let c := with_rows c kept refs (next_pending_token c) in
    let c := with_records c (take (mark_records mark) (pending_records c)) in
    let c := with_images c (snap_images snap) (snap_proofs snap) in
    let c := with_partitions c (snap_reads snap) (snap_writes snap) in
    Ok (with_payload c (snap_payload_bytes snap)).

Definition settle_staging_mark (c : TransactionContext) (mark : Mark) : result TransactionContext :=
  _ ← top_mark c mark;
  reconcile_staged_payload_bytes (with_marks c (removelast (staging_marks c))).

(** ** Life *)

Definition bind_epoch (c : TransactionContext) (epoch : Z) : result TransactionContext :=
  if epoch <? 0 then raise GrafxConfigurationError "epoch"
  else Ok (with_life c epoch (state c) (conflicts c) (commit_csn c)).

Definition mark_conflicted (c : TransactionContext) : TransactionContext :=
  with_life c (ctx_epoch c) (state c) (conflicts c + 1) (commit_csn c).

Definition adopt_conflicts (c : TransactionContext) (count : Z) : result TransactionContext :=
  if count <? 0 then raise GrafxConfigurationError "count"
  else Ok (with_life c (ctx_epoch c) (state c) (conflicts c + count) (commit_csn c)).

Definition mark_committed (c : TransactionContext) (csn : Z) : result TransactionContext :=
  _ ← require_active c;
  Ok (with_life c (ctx_epoch c) COMMITTED (conflicts c) csn).

Definition mark_aborted (c : TransactionContext) : result TransactionContext :=
  _ ← require_active c;
  Ok (MkContext (txn c) (mode c) (snapshot c) (ctx_epoch c) ABORTED (conflicts c) (commit_csn c) ∅ ∅ [] ∅ ∅
        (page_staging_capability c) (max_transaction_rows c) (max_transaction_bytes c) 0 [] (-1) ∅ None [] []).

(** [_pending_reference_for_query]. *)
Definition pending_reference_for_query (c : TransactionContext) (txn_id table token : Z) : result PendingObj :=
  _ ← require_active c;
  match pending_row_refs c !! token with
  | Some o =>
      if negb (txn_id =? txn c) || negb (PendingRowRef.table_id (obj_ref o) =? table)
      then raise GrafxConfigurationError "query_spill.pending_reference"
      else Ok o
  | None => raise GrafxConfigurationError "query_spill.pending_reference"
  end.

(** ** Actions

    What a caller can do to a context, the identities of new objects included. *)

Inductive action :=
  | NoteRead (partition : Z)
  | NoteWrite (partition : Z)
  | StageRecord (record : WalRecord)
  | StagePage (file : pystr) (page_index image capability : Z)
  | StageInsert (t : Table) (cells : list (cell V)) (record_id : option Z) (labels : option (list pystr)) (oid : Z)
  | StageUpdate (t : Table) (r : reference) (cells : list (cell V)) (labels : option (list pystr))
  | StageDelete (t : Table) (r : reference)
  | TakeMark (id : Z)
  | Discard (mark : Mark)
  | Settle (mark : Mark)
  | ValidateBudgets
  | BindEpoch (epoch : Z)
  | MarkConflicted
  | AdoptConflicts (count : Z)
  | MarkCommitted (csn : Z)
  | MarkAborted.

Definition perform (c : TransactionContext) (a : action) : result TransactionContext :=
  match a with
  | NoteRead p => note_read c p
  | NoteWrite p => note_write c p
  | StageRecord r => stage_record c r
  | StagePage f i image cap => stage_page_image_private c f i image cap
  | StageInsert t cells rid labels oid => '(_, c) ← stage_row_insert c t cells rid labels oid; Ok c
  | StageUpdate t r cells labels => stage_row_update c t r cells labels
  | StageDelete t r => stage_row_delete c t r
  | TakeMark id => Ok (staging_mark c id).2
  | Discard m => discard_since c m
  | Settle m => settle_staging_mark c m
  | ValidateBudgets => validate_budgets c
  | BindEpoch e => bind_epoch c e
  | MarkConflicted => Ok (mark_conflicted c)
  | AdoptConflicts n => adopt_conflicts c n
  | MarkCommitted n => mark_committed c n
  | MarkAborted => mark_aborted c
  end.

(** A refused action leaves the context as it was. *)
Definition act (c : TransactionContext) (a : action) : TransactionContext :=
  match perform c a with Ok c' => c' | Err _ => c end.
Definition acts (c : TransactionContext) (l : list action) : TransactionContext := fold_left act l c.

(** ** What a performed action changes *)

Definition capacity_for (c : TransactionContext) (n : Z) : Prop :=
  ∀ m, max_transaction_bytes c = Some m → staged_payload_bytes c + n <= m.
Definition room_for_row (c : TransactionContext) : Prop :=
  ∀ m, max_transaction_rows c = Some m → zlen (row_intents c) + 1 <= m.
Definition writing (c : TransactionContext) : Prop := state c = ACTIVE ∧ mode c = WRITE.

Definition add_row (c : TransactionContext) (i : RowIntent V) (n : Z) : TransactionContext :=
  with_payload (with_rows c (row_intents c ++ [i]) (pending_row_refs c) (next_pending_token c)) (staged_payload_bytes c + n).

(** A reference an update or a delete may name. *)
Definition live_reference (c : TransactionContext) (r : reference) : Prop :=
  match r with
  | Stored _ => True
  | Pending o => PendingRowRef.txn_id (obj_ref o) = txn c ∧
      pending_row_refs c !! PendingRowRef.token (obj_ref o) = Some o
  end.

Inductive effect (c : TransactionContext) : action → TransactionContext → Prop :=
  | eff_partitions a reads writes : state c = ACTIVE → read_partitions c ⊆ reads → write_partitions c ⊆ writes →
      (mode c = READ → writes = write_partitions c) →
      match a with NoteRead _ | NoteWrite _ => True | _ => False end →
      effect c a (with_partitions c reads writes)
  | eff_record r n : writing c → record_payload_bytes (max_transaction_bytes c) r = Ok n → capacity_for c n →
      effect c (StageRecord r) (with_payload (with_records c (pending_records c ++ [r])) (staged_payload_bytes c + n))
  | eff_page f i image cap writes : writing c → let l := (f, i) in capacity_for c (image_delta c l image) →
      write_partitions c ⊆ writes →
      effect c (StagePage f i image cap)
        (with_partitions (with_payload (with_images c (<[l := image]> (page_images c))
           (<[l := sha256 (content image)]> (page_image_proofs c))) (staged_payload_bytes c + image_delta c l image))
           (read_partitions c) writes)
  | eff_insert t cells cells' rid labels oid n : writing c → room_for_row c →
      let o := MkPendingObj oid (PendingRowRef.Mk (txn c) (table_id t) (next_pending_token c)) in
      let i := MkIntent t cells' rid INSERT (Some (Pending o)) labels in
      intent_payload_bytes (max_transaction_bytes c) i = Ok n → capacity_for c n → next_pending_token c < 0 →
      effect c (StageInsert t cells rid labels oid)
        (add_row (with_rows c (row_intents c) (<[next_pending_token c := o]> (pending_row_refs c)) (next_pending_token c - 1)) i n)
  | eff_row a t cells op r labels n : writing c → room_for_row c → live_reference c r → op ≠ INSERT →
      let i := MkIntent t cells None op (Some r) labels in
      intent_payload_bytes (max_transaction_bytes c) i = Ok n → capacity_for c n ∨ n = 0 →
      match a with StageUpdate _ _ _ _ | StageDelete _ _ => True | _ => False end →
      effect c a (add_row c i n)
  | eff_mark id : effect c (TakeMark id) (staging_mark c id).2
  | eff_discard m c' : discard_since c m = Ok c' → effect c (Discard m) c'
  | eff_settle m c' : (∃ snap, last (staging_marks c) = Some snap ∧ snap_mark snap = m) →
      reconcile_staged_payload_bytes (with_marks c (removelast (staging_marks c))) = Ok c' → effect c (Settle m) c'
  | eff_validate c' : state c = ACTIVE → reconcile_staged_payload_bytes c = Ok c' → effect c ValidateBudgets c'
  | eff_life a e st k n : (st = state c ∧ n = commit_csn c) ∨ (state c = ACTIVE ∧ st = COMMITTED) →
      match a with BindEpoch _ | MarkConflicted | AdoptConflicts _ => st = state c | MarkCommitted _ => state c = ACTIVE | _ => False end →
      effect c a (with_life c e st k n)
  | eff_abort c' : state c = ACTIVE → mark_aborted c = Ok c' → effect c MarkAborted c'.

Lemma require_active_Ok c u : require_active c = Ok u ↔ state c = ACTIVE.
Proof. unfold require_active, active, raise. destruct u. case_bool_decide; naive_solver. Qed.

Lemma require_write_mode_Ok c u : require_write_mode c = Ok u ↔ mode c = WRITE.
Proof. unfold require_write_mode, raise. destruct u. case_bool_decide; naive_solver. Qed.

Lemma over_budget_Ok f a b u : raise_if_over_budget f a b = Ok u ↔ a <= b.
Proof. unfold raise_if_over_budget, raise. destruct u, (Z.leb_spec a b); split; (done || lia). Qed.

Lemma payload_capacity_Ok c n u : require_payload_capacity c n = Ok u ↔ capacity_for c n.
Proof.
  unfold require_payload_capacity, capacity_for. destruct u, (max_transaction_bytes c) as [m|].
  - rewrite over_budget_Ok. split; [by intros ? ? [= <-]|by auto].
  - done.
Qed.

Lemma row_capacity_Ok c u : require_row_count_capacity c = Ok u ↔ room_for_row c.
Proof.
  unfold require_row_count_capacity, room_for_row. destruct u, (max_transaction_rows c) as [m|].
  - rewrite over_budget_Ok. split; [by intros ? ? [= <-]|by auto].
  - done.
Qed.

Lemma top_mark_Ok c m snap : top_mark c m = Ok snap ↔ last (staging_marks c) = Some snap ∧ snap_mark snap = m.
Proof.
  unfold top_mark, raise. destruct (last (staging_marks c)) as [s|]; [|naive_solver].
  case_bool_decide; naive_solver.
Qed.

Lemma row_reference_Ok c t r r' : require_row_reference c t r = Ok r' → r' = r ∧ live_reference c r.
Proof.
  unfold require_row_reference, live_reference, owns_pending_row_ref. destruct r as [r|o]; [by intros [= <-]|].
  case_match eqn:E; [done|]. intros [= <-]. apply orb_false_iff in E as [[E1 E2]%orb_false_iff E3].
  apply negb_false_iff in E1, E2, E3. apply Z.eqb_eq in E1. apply bool_decide_eq_true in E3. done.
Qed.

(** Read off the guards of a hypothesis that says an action succeeded. *)
Ltac guards := repeat match goal with
  | E : require_active _ = Ok _ |- _ => apply require_active_Ok in E
  | E : require_write_mode _ = Ok _ |- _ => apply require_write_mode_Ok in E
  | E : require_payload_capacity _ _ = Ok _ |- _ => apply payload_capacity_Ok in E
  | E : require_row_count_capacity _ = Ok _ |- _ => apply row_capacity_Ok in E
  | E : top_mark _ _ = Ok _ |- _ => apply top_mark_Ok in E as [? ?]
  | E : require_row_reference _ _ _ = Ok _ |- _ => apply row_reference_Ok in E as [-> ?]
  end.

Lemma insert_effect c t cells rid labels oid o c' : stage_row_insert c t cells rid labels oid = Ok (o, c') →
  effect c (StageInsert t cells rid labels oid) c' ∧ o = MkPendingObj oid (PendingRowRef.Mk (txn c) (table_id t) (next_pending_token c)).
Proof.
  unfold stage_row_insert. intros Hp. inv_ok Hp. case_match; [done|]. inv_ok Hp.
  destruct x6 as [o' c1]. injection Hp as <- <-. unfold allocate_pending_row_ref in E6.
  case_match; [done|]. inv_ok E6. unfold PendingRowRef.make, PendingRowRef.post_init in E7.
  repeat (case_match; [done|]). injection E7 as <-. injection E6 as <- <-. guards. split; [|done].
  match goal with H : (0 <=? _) = false |- _ => apply Z.leb_gt in H; simpl in H end.
  apply (eff_insert c t cells x3 rid labels oid x4); try done.
Qed.

Lemma perform_effect c a c' : perform c a = Ok c' → effect c a c'.
Proof.
  destruct a as [p|p|r|f i image cap|t cells rid labels oid|t r cells labels|t r|id|m|m| |e| |n|n|]; simpl; intros Hp.
  - unfold note_read in Hp. inv_ok Hp. guards. injection Hp as <-. apply eff_partitions; [done|set_solver..|done|done].
  - unfold note_write in Hp. inv_ok Hp. guards. injection Hp as <-.
    apply eff_partitions; [done|set_solver..|congruence|done].
  - unfold stage_record in Hp. inv_ok Hp. repeat (case_match; [done|]). inv_ok Hp. guards. injection Hp as <-.
    by apply eff_record.
  - unfold stage_page_image_private in Hp. inv_ok Hp. repeat (case_match; [done|]). inv_ok Hp. guards. injection Hp as <-.
    apply eff_page; [done|done|set_solver].
  - inv_ok Hp. destruct x as [o c1]. injection Hp as <-. by eapply insert_effect.
  - unfold stage_row_update in Hp. inv_ok Hp. guards. injection Hp as <-.
    eapply eff_row; try done. by left.
  - unfold stage_row_delete in Hp. inv_ok Hp. guards. injection Hp as <-.
    assert (with_rows c (row_intents c ++ [MkIntent t [] None DELETE (Some r) None]) (pending_row_refs c) (next_pending_token c)
      = add_row c (MkIntent t [] None DELETE (Some r) None) 0) as -> by (unfold add_row; rewrite Z.add_0_r; done).
    apply eff_row; try done. by right.
  - injection Hp as <-. apply eff_mark.
  - by apply eff_discard.
  - unfold settle_staging_mark in Hp. inv_ok Hp. guards. apply eff_settle; eauto.
  - unfold validate_budgets in Hp. inv_ok Hp. guards. by apply eff_validate.
  - unfold bind_epoch in Hp. case_match; [done|]. injection Hp as <-. apply eff_life; auto.
  - injection Hp as <-. apply eff_life; auto.
  - unfold adopt_conflicts in Hp. case_match; [done|]. injection Hp as <-. apply eff_life; auto.
  - unfold mark_committed in Hp. inv_ok Hp. guards. injection Hp as <-. apply eff_life; auto.
  - pose proof Hp as Hp'. unfold mark_aborted in Hp. inv_ok Hp. guards. by apply eff_abort.
Qed.

(** ** Reached contexts

    The identities Python gives to new objects differ from those of the objects still alive. *)

Definition fresh_for (c : TransactionContext) (a : action) : Prop :=
  match a with
  | StageInsert _ _ _ _ oid => oid ∉ obj_id <$> insert_objects (row_intents c)
  | TakeMark id => id ∉ (λ s, mark_id (snap_mark s)) <$> staging_marks c
  | _ => True
  end.

Fixpoint fresh_run (c : TransactionContext) (l : list action) : Prop :=
  match l with [] => True | a :: l => fresh_for c a ∧ fresh_run (act c a) l end.

(** A property of the contexts that every performed action keeps. *)
Lemma acts_invariant (P : TransactionContext → Prop) c l :
  (∀ c a c', P c → fresh_for c a → effect c a c' → P c') → P c → fresh_run c l → P (acts c l).
Proof.
  intros Hstep. unfold acts. revert c. induction l as [|a l IH]; intros c Hc Hl; simpl; [done|].
  destruct Hl as [Ha Hl]. apply IH; [|done]. unfold act. destruct (perform c a) eqn:E; [|done].
  eapply Hstep; [done..|by apply perform_effect].
Qed.

(** ** Staged rows *)

Definition token_of (o : PendingObj) : Z := PendingRowRef.token (obj_ref o).

Definition refs_of (intents : list (RowIntent V)) : gmap Z PendingObj :=
  list_to_map ((λ o, (token_of o, o)) <$> insert_objects intents).

(** What may come after the intents [earlier]. *)
Definition intent_follows (earlier : list (RowIntent V)) (i : RowIntent V) : Prop :=
  match operation i, intent_reference i with
  | INSERT, Some (Pending _) => True
  | INSERT, _ => False
  | _, Some (Stored _) => True
  | _, Some (Pending o) => o ∈ insert_objects earlier
  | _, None => False
  end.

Record rows_ok (c : TransactionContext) : Prop := {
  rows_refs : pending_row_refs c = refs_of (row_intents c);
  rows_tokens : NoDup (token_of <$> insert_objects (row_intents c));
  rows_ids : NoDup (obj_id <$> insert_objects (row_intents c));
  rows_range : Forall (λ o, next_pending_token c < token_of o < 0 ∧ PendingRowRef.txn_id (obj_ref o) = txn c)
                 (insert_objects (row_intents c));
  rows_next : next_pending_token c < 0;
  rows_follow : ∀ p i, row_intents c !! p = Some i → intent_follows (take p (row_intents c)) i
}.

Lemma insert_objects_app l k : insert_objects (l ++ k) = insert_objects l ++ insert_objects k.
Proof. apply omap_app. Qed.

Lemma insert_objects_split n l : insert_objects l = insert_objects (take n l) ++ insert_objects (drop n l).
Proof. by rewrite <-insert_objects_app, take_drop. Qed.

Lemma forget_refs (A B : list PendingObj) : NoDup (token_of <$> A ++ B) → NoDup (obj_id <$> A ++ B) →
  fold_left (forget_ref (obj_id <$> A)) B (list_to_map ((λ o, (token_of o, o)) <$> A ++ B))
  = list_to_map ((λ o, (token_of o, o)) <$> A).
Proof.
  revert A. induction B as [|o B IH]; intros A Ht Hi; simpl; [by rewrite app_nil_r|].
  assert (∀ l : list PendingObj, ((λ o, (token_of o, o)) <$> l).*1 = token_of <$> l) as Hfst.
  { intros l. by rewrite <-list_fmap_compose. }
  assert (A ++ o :: B ≡ₚ o :: A ++ B) as Hp by by rewrite Permutation_middle.
  pose proof Ht as Ht'. rewrite Hp in Ht', Hi. rewrite !fmap_cons in Ht', Hi.
  apply NoDup_cons in Ht' as [Hto Ht']. apply NoDup_cons in Hi as [Hio Hi].
  assert (list_to_map ((λ o, (token_of o, o)) <$> A ++ o :: B)
    = <[token_of o := o]> (list_to_map ((λ o, (token_of o, o)) <$> A ++ B)) :> gmap Z PendingObj) as ->.
  { change (<[token_of o := o]> (list_to_map ((λ o, (token_of o, o)) <$> A ++ B)) : gmap Z PendingObj)
      with (list_to_map ((λ o, (token_of o, o)) <$> o :: A ++ B) : gmap Z PendingObj).
    apply list_to_map_proper; [by rewrite Hfst|]. by rewrite Hp. }
  unfold forget_ref at 2. fold (token_of o). rewrite bool_decide_false by (rewrite fmap_app in Hio; set_solver).
  rewrite lookup_insert_eq, bool_decide_true by done. simpl.
  rewrite delete_insert_id; [by apply IH|]. apply not_elem_of_list_to_map_1. by rewrite Hfst.
Qed.

Lemma rows_ok_same c c' : rows_ok c → txn c' = txn c → pending_row_refs c' = pending_row_refs c →
  row_intents c' = row_intents c → next_pending_token c' = next_pending_token c → rows_ok c'.
Proof. intros [] Ht Hr Hi Hn. split; rewrite ?Ht, ?Hr, ?Hi, ?Hn; done. Qed.

Lemma intent_follows_snoc l i : (∀ p x, l !! p = Some x → intent_follows (take p l) x) → intent_follows l i →
  ∀ p x, (l ++ [i]) !! p = Some x → intent_follows (take p (l ++ [i])) x.
Proof.
  intros Hl Hi p x Hx. apply lookup_app_Some in Hx as [Hx|[Hle Hx]].
  - rewrite take_app_le by (apply lookup_lt_Some in Hx; lia). by apply Hl.
  - apply list_lookup_singleton_Some in Hx as [Hz <-]. rewrite take_app_length' by lia. done.
Qed.

Lemma rows_ok_discard c n refs : rows_ok c →
  refs = fold_left (forget_ref (obj_id <$> insert_objects (take n (row_intents c))))
           (insert_objects (drop n (row_intents c))) (pending_row_refs c) →
  refs = refs_of (take n (row_intents c)) ∧ rows_ok (with_rows c (take n (row_intents c)) refs (next_pending_token c)).
Proof.
  intros [Hr Ht Hi Hra Hn Hf] Hrefs.
  assert (refs = refs_of (take n (row_intents c))) as Heq.
  { rewrite Hrefs, Hr. unfold refs_of. rewrite (insert_objects_split n (row_intents c)) in Ht, Hi |- *.
    by apply forget_refs. }
  split; [done|]. rewrite (insert_objects_split n) in Ht, Hi, Hra. rewrite fmap_app in Ht, Hi.
  apply NoDup_app in Ht as (Ht & _), Hi as (Hi & _). apply Forall_app in Hra as [Hra _].
  split; simpl; try done. intros p i Hp. apply lookup_take_Some in Hp as [Hp Hlt]. rewrite take_take.
  rewrite Nat.min_l by lia. by apply Hf.
Qed.

Lemma refs_of_elem intents token o : NoDup (token_of <$> insert_objects intents) →
  refs_of intents !! token = Some o ↔ o ∈ insert_objects intents ∧ token_of o = token.
Proof.
  intros Hnd. unfold refs_of. rewrite <-elem_of_list_to_map.
  - rewrite list_elem_of_fmap. split; [by intros (x & [= -> ->] & Hx)|intros [Ho <-]; by exists o].
  - by rewrite <-list_fmap_compose.
Qed.

Lemma rows_ok_step c a c' : rows_ok c → fresh_for c a → effect c a c' → rows_ok c'.
Proof.
  intros Hok Hfresh Heff. destruct Heff as [a reads writes|r n|f i image cap writes Hw l Hc|t cells cells' rid labels oid n Hw Hroom o i Hn Hc Hneg
    |a t cells op r labels n Hw Hroom Hlive Hop i Hn Hc Ha|id|m c' Hd|m c' Hm Hc|c' Ha Hc|a e st k n|c' Ha Hc].
  - by apply (rows_ok_same c).
  - by apply (rows_ok_same c).
  - by apply (rows_ok_same c).
  - destruct Hok as [Hr Ht Hi Hra Hne Hf]. unfold add_row. simpl in Hfresh.
    assert (insert_objects (row_intents c ++ [i]) = insert_objects (row_intents c) ++ [o]) as Ho
      by (rewrite insert_objects_app; done).
    assert (next_pending_token c ∉ token_of <$> insert_objects (row_intents c)) as Hnew.
    { intros (x & Hx & Hin)%list_elem_of_fmap. rewrite Forall_forall in Hra. specialize (Hra x Hin). lia. }
    split; simpl; rewrite ?Ho; unfold refs_of; rewrite ?Ho, ?fmap_app.
    + rewrite Hr. simpl. symmetry. apply list_to_map_snoc. rewrite <-list_fmap_compose. exact Hnew.
    + apply NoDup_app. split_and!; [done| |apply NoDup_singleton]. intros x Hx ->%list_elem_of_singleton. by apply Hnew.
    + apply NoDup_app. split_and!; [done| |apply NoDup_singleton]. intros x Hx ->%list_elem_of_singleton. by apply Hfresh.
    + apply Forall_app. split; [|apply Forall_singleton; unfold token_of; simpl; split; [lia|done]]. eapply Forall_impl; [exact Hra|]. intros x. simpl. lia.
    + lia.
    + by apply intent_follows_snoc.
  - destruct Hok as [Hr Ht Hi Hra Hne Hf]. unfold add_row.
    assert (insert_objects (row_intents c ++ [i]) = insert_objects (row_intents c)) as Ho.
    { rewrite insert_objects_app. simpl. destruct op; [done| |]; by rewrite app_nil_r. }
    split; simpl; unfold refs_of; rewrite ?Ho; try done. apply intent_follows_snoc; [done|].
    unfold intent_follows. simpl. destruct op; [done|..].
    all: destruct r as [r|o]; [done|]; destruct Hlive as [_ Hl]; rewrite Hr in Hl; by apply refs_of_elem in Hl as [? _].
  - by apply (rows_ok_same c).
  - unfold discard_since in Hd. case_match; [done|]. inv_ok Hd. injection Hd as <-.
    destruct (rows_ok_discard c (mark_rows m) _ Hok eq_refl) as [_ H']. by apply (rows_ok_same _ _ H').
  - unfold reconcile_staged_payload_bytes in Hc. case_match; [inv_ok Hc|]; injection Hc as <-; by apply (rows_ok_same c).
  - unfold reconcile_staged_payload_bytes in Hc. case_match; [inv_ok Hc|]; injection Hc as <-; by apply (rows_ok_same c).
  - by apply (rows_ok_same c).
  - unfold mark_aborted in Hc. inv_ok Hc. injection Hc as <-. split; simpl; try done; try apply NoDup_nil_2; lia.
Qed.

(** ** Marks

    What a mark shows never exceeds what is staged, and a later mark never shows less. *)

Definition view : Type := nat * nat * gset location.
Definition view_le (v w : view) : Prop := (v.1.1 <= w.1.1)%nat ∧ (v.1.2 <= w.1.2)%nat ∧ v.2 ⊆ w.2.
Definition snap_view (s : Snapped) : view := (mark_rows (snap_mark s), mark_records (snap_mark s), dom (snap_images s)).
Definition view_of (c : TransactionContext) : view :=
  (length (row_intents c), length (pending_records c), dom (page_images c)).

#[local] Instance view_le_preorder : PreOrder view_le.
Proof.
  split; [intros v; unfold view_le; split_and!; [lia|lia|done]|].
  intros u v w (?&?&?) (?&?&?). unfold view_le. split; [lia|split; [lia|by etrans]].
Qed.

Record marks_ok (c : TransactionContext) : Prop := {
  marks_sorted : StronglySorted view_le (snap_view <$> staging_marks c);
  marks_below : Forall (λ s, view_le (snap_view s) (view_of c)) (staging_marks c);
  marks_sizes : Forall (λ s, mark_pages (snap_mark s) = size (snap_images s)) (staging_marks c);
  marks_nodup : NoDup ((λ s, mark_id (snap_mark s)) <$> staging_marks c)
}.

Lemma sorted_app_inv {A} (R : A → A → Prop) l x : StronglySorted R (l ++ [x]) →
  StronglySorted R l ∧ Forall (λ y, R y x) l.
Proof.
  induction l as [|y l IH]; simpl; intros Hs; [by split; constructor|].
  inversion Hs as [|? ? Hl Hy]; subst. apply Forall_app in Hy as [Hy Hyx]. rewrite Forall_singleton in Hyx.
  apply IH in Hl as [Hl Hx]. split; by constructor.
Qed.

Lemma sorted_snoc {A} (R : A → A → Prop) l x : StronglySorted R l → Forall (λ y, R y x) l → StronglySorted R (l ++ [x]).
Proof.
  induction 1 as [|y l Hl IH Hy]; simpl; intros Hx; [by repeat constructor|].
  apply Forall_cons in Hx as [Hyx Hx]. constructor; [by apply IH|]. apply Forall_app. split; [done|by apply Forall_singleton].
Qed.

Lemma marks_ok_grow c c' : marks_ok c → staging_marks c' = staging_marks c → view_le (view_of c) (view_of c') → marks_ok c'.
Proof.
  intros [Hs Hb Hz Hn] Hm Hv. split; rewrite ?Hm; try done. eapply Forall_impl; [exact Hb|].
  intros s Hsv. exact (transitivity Hsv Hv).
Qed.

(** Without its last mark. *)
Lemma marks_ok_pop c c' s : marks_ok c → last (staging_marks c) = Some s →
  staging_marks c' = removelast (staging_marks c) → view_le (snap_view s) (view_of c') → marks_ok c'.
Proof.
  intros [Hs Hb Hz Hn] (ms & Hms)%last_Some Hm Hv. rewrite Hms in *. rewrite removelast_last in Hm.
  rewrite !fmap_app in *. apply sorted_app_inv in Hs as [Hs Hsx]. apply Forall_app in Hz as [Hz _].
  apply NoDup_app in Hn as (Hn & _). apply Forall_fmap in Hsx. split; rewrite ?Hm; try done.
  eapply Forall_impl; [exact Hsx|]. intros x Hx. exact (transitivity Hx Hv).
Qed.

Lemma discard_Ok c m c' : discard_since c m = Ok c' → ∃ s,
  last (staging_marks c) = Some s ∧ snap_mark s = m ∧
  (mark_rows m <= length (row_intents c))%nat ∧ (mark_records m <= length (pending_records c))%nat ∧
  staging_marks c' = removelast (staging_marks c) ∧
  row_intents c' = take (mark_rows m) (row_intents c) ∧ pending_records c' = take (mark_records m) (pending_records c) ∧
  page_images c' = snap_images s ∧ page_image_proofs c' = snap_proofs s ∧ read_partitions c' = snap_reads s ∧
  write_partitions c' = snap_writes s ∧ staged_payload_bytes c' = snap_payload_bytes s ∧
  next_pending_token c' = next_pending_token c ∧ max_transaction_rows c' = max_transaction_rows c ∧
  max_transaction_bytes c' = max_transaction_bytes c ∧ mode c' = mode c ∧ state c' = state c ∧ commit_csn c' = commit_csn c.
Proof.
  unfold discard_since. intros Hd. case_match eqn:E; [done|]. inv_ok Hd. guards. injection Hd as <-.
  apply orb_false_iff in E as [[E1%Nat.ltb_ge E2%Nat.ltb_ge]%orb_false_iff _]. exists x. by split_and!.
Qed.

Lemma reconcile_Ok c c' : reconcile_staged_payload_bytes c = Ok c' →
  (max_transaction_bytes c = None ∧ c' = c) ∨
  (∃ m n, max_transaction_bytes c = Some m ∧
     observed_bytes (Some m) (row_intents c) (pending_records c) (page_images c) (staging_marks c) = Ok n ∧ n <= m ∧
     c' = with_payload c n).
Proof.
  unfold reconcile_staged_payload_bytes. destruct (max_transaction_bytes c) as [m|]; [|intros [= <-]; by left].
  intros Hc. inv_ok Hc. apply over_budget_Ok in E0. injection Hc as <-. right. by exists m, x.
Qed.

Lemma settled_mark_Ok c c' : reconcile_staged_payload_bytes c = Ok c' →
  staging_marks c' = staging_marks c ∧ view_of c' = view_of c.
Proof. intros [[_ ->]|(m & n & _ & _ & _ & ->)]%reconcile_Ok; done. Qed.

Lemma marks_ok_step c a c' : marks_ok c → fresh_for c a → effect c a c' → marks_ok c'.
Proof.
  intros Hok Hfresh Heff. destruct Heff as [a reads writes|r n|f i image cap writes Hw l Hc|t cells cells' rid labels oid n Hw Hroom o i Hn Hc Hneg
    |a t cells op r labels n Hw Hroom Hlive Hop i Hn Hc Ha|id|m c' Hd|m c' Hm Hc|c' Ha Hc|a e st k n|c' Ha Hc].
  - by apply (marks_ok_grow c).
  - apply (marks_ok_grow c); [done|done|]. unfold view_of, view_le. simpl. rewrite length_app. split_and!; [lia|lia|done].
  - apply (marks_ok_grow c); [done|done|]. unfold view_of, view_le. simpl. split_and!; [lia|lia|set_solver].
  - apply (marks_ok_grow c); [done|done|]. unfold view_of, view_le. simpl. rewrite length_app. split_and!; [lia|lia|done].
  - apply (marks_ok_grow c); [done|done|]. unfold view_of, view_le. simpl. rewrite length_app. split_and!; [lia|lia|done].
  - destruct Hok as [Hs Hb Hz Hn]. simpl in Hfresh. split; simpl; rewrite ?fmap_app, ?Forall_app, ?Forall_singleton.
    + apply sorted_snoc; [done|]. by apply Forall_fmap.
    + done.
    + done.
    + apply NoDup_app. split_and!; [done| |apply NoDup_singleton]. by intros x Hx ->%list_elem_of_singleton.
  - apply discard_Ok in Hd as (s & Hs & <- & Hr & Hrec & Hms & Hrows & Hrecs & Himg & _).
    apply (marks_ok_pop c _ s); [done..|]. unfold view_le, view_of, snap_view. rewrite Hrows, Hrecs, Himg.
    simpl. rewrite !length_take. split_and!; [lia|lia|done].
  - destruct Hm as (s & Hs & <-). apply settled_mark_Ok in Hc as [Hms Hv]. apply (marks_ok_pop c _ s); [done..|].
    rewrite Hv. pose proof (marks_below c Hok) as Hb. rewrite Forall_forall in Hb. apply Hb.
    apply last_Some in Hs as [ms ->]. set_solver.
  - apply settled_mark_Ok in Hc as [Hms Hv]. apply (marks_ok_grow c); [done..|]. by rewrite Hv.
  - by apply (marks_ok_grow c).
  - unfold mark_aborted in Hc. inv_ok Hc. injection Hc as <-. split; simpl; constructor.
Qed.

(** ** Discarding back to a mark

    [since base m c]: the mark [m] taken of [base] is gone for good, or it still holds what [base]
    had and everything staged in between lies above it. *)

Definition since (base : TransactionContext) (snap : Snapped) (c : TransactionContext) : Prop :=
  snap_mark snap ∉ snap_mark <$> staging_marks c ∨
  ∃ above, staging_marks c = staging_marks base ++ snap :: above ∧
    snap_mark snap ∉ snap_mark <$> above ∧
    take (length (row_intents base)) (row_intents c) = row_intents base ∧
    take (length (pending_records base)) (pending_records c) = pending_records base.

(** What [staging_mark] keeps of the context it is taken of. *)
Definition snapped_of (c : TransactionContext) (id : Z) : Snapped :=
  MkSnapped (staging_mark c id).1 (page_images c) (page_image_proofs c) (read_partitions c) (write_partitions c)
    (staged_payload_bytes c).

Lemma prefix_grow {A} (l k base : list A) : take (length base) l = base → take (length base) (l ++ k) = base.
Proof.
  intros Hl. assert (length base <= length l)%nat.
  { apply (f_equal length) in Hl. rewrite length_take in Hl. lia. }
  by rewrite take_app_le.
Qed.

Lemma since_grow base snap c c' : since base snap c → staging_marks c' = staging_marks c →
  (∃ rows, row_intents c' = row_intents c ++ rows) → (∃ records, pending_records c' = pending_records c ++ records) →
  since base snap c'.
Proof.
  intros [Hno|(above & Hms & Ha & Hr & Hrec)] Hm [rows Hrows] [records Hrecs]; unfold since; rewrite Hm; [by left|].
  right. exists above. rewrite Hrows, Hrecs. split_and!; try done; by apply prefix_grow.
Qed.

(** A mark leaves the top: either it is this one, or one above it. *)
Lemma since_pop base snap c c' s : since base snap c → last (staging_marks c) = Some s →
  snap_mark snap ∉ snap_mark <$> staging_marks base → staging_marks c' = removelast (staging_marks c) →
  (∀ above, staging_marks c' = staging_marks base ++ snap :: above → 
     take (length (row_intents base)) (row_intents c) = row_intents base →
     take (length (pending_records base)) (pending_records c) = pending_records base →
     s ∈ drop (S (length (staging_marks base))) (staging_marks c) →
     take (length (row_intents base)) (row_intents c') = row_intents base ∧
     take (length (pending_records base)) (pending_records c') = pending_records base) →
  since base snap c'.
Proof.
  intros Hsince (ms & Hms)%last_Some Hfresh Hm Hkept. rewrite Hms, removelast_last in Hm. unfold since. rewrite Hm.
  destruct Hsince as [Hno|(above & Heq & Ha & Hr & Hrec)].
  { left. rewrite Hms, fmap_app in Hno. set_solver. }
  rewrite Hms in Heq. destruct above as [|x above _] using rev_ind.
  - change (snap :: []) with ([snap]) in Heq. apply app_inj_tail in Heq as [-> ->]. by left.
  - rewrite app_comm_cons, app_assoc in Heq. apply app_inj_tail in Heq as [-> ->]. right. exists above.
    rewrite fmap_app in Ha. destruct (Hkept above) as [H1 H2]; try done.
    + rewrite Hms, <-app_assoc, <-app_comm_cons. rewrite drop_app_ge by lia.
      replace (S (length (staging_marks base)) - length (staging_marks base))%nat with 1%nat by lia. simpl. set_solver.
    + split_and!; [done|set_solver|done|done].
Qed.

Lemma since_step base id c a c' : marks_ok c → a ≠ TakeMark id →
  snap_mark (snapped_of base id) ∉ snap_mark <$> staging_marks base →
  since base (snapped_of base id) c → effect c a c' → since base (snapped_of base id) c'.
Proof.
  intros Hok Hid Hfresh Hs Heff. destruct Heff as [a reads writes|r n|f i image cap writes Hw l Hc|t cells cells' rid labels oid n Hw Hroom o i Hn Hc Hneg
    |a t cells op r labels n Hw Hroom Hlive Hop i Hn Hc Ha|id'|m c' Hd|m c' Hm Hc|c' Ha Hc|a e st k n|c' Ha Hc].
  - apply (since_grow _ _ c); [done|done|by exists []; rewrite app_nil_r..].
  - apply (since_grow _ _ c); [done|done|by exists []; rewrite app_nil_r|by eexists].
  - apply (since_grow _ _ c); [done|done|by exists []; rewrite app_nil_r..].
  - apply (since_grow _ _ c); [done|done|by eexists|by exists []; rewrite app_nil_r].
  - apply (since_grow _ _ c); [done|done|by eexists|by exists []; rewrite app_nil_r].
  - destruct Hs as [Hno|(above & Hms & Ha & Hr & Hrec)]; unfold since; simpl.
    + left. rewrite fmap_app. simpl. intros [Hin|Hin]%elem_of_app; [done|].
      apply list_elem_of_singleton in Hin. injection Hin as Hin _ _ _. congruence.
    + right. exists (above ++ [snapped_of c id']). rewrite Hms. split_and!; try done.
      * by rewrite <-app_assoc, <-app_comm_cons.
      * rewrite fmap_app. intros [Hin|Hin]%elem_of_app; [done|]. apply list_elem_of_singleton in Hin.
        injection Hin as Hin _ _ _. congruence.
  - apply discard_Ok in Hd as (s & Hl & <- & Hr & Hrec & Hms & Hrows & Hrecs & _). apply (since_pop _ _ c _ s); [done..|].
    intros above Habove Hbase1 Hbase2 Hin. rewrite Hrows, Hrecs.
    assert (view_le (snap_view (snapped_of base id)) (snap_view s)) as (Hle1 & Hle2 & _).
    { destruct Hs as [Hno|(above' & Heq & _)].
      - exfalso. apply Hno. rewrite Hms in Habove. apply last_Some in Hl as [ms Hl]. rewrite Hl, removelast_last in Habove.
        rewrite Hl, Habove, !fmap_app. set_solver.
      - pose proof (marks_sorted c Hok) as Hsort. rewrite Heq in Hsort, Hin. rewrite drop_app_ge in Hin by lia.
        replace (S (length (staging_marks base)) - length (staging_marks base))%nat with 1%nat in Hin by lia. simpl in Hin.
        rewrite fmap_app in Hsort. apply StronglySorted_app_1_r in Hsort. simpl in Hsort.
        inversion Hsort as [|? ? _ Hall]; subst. rewrite Forall_forall in Hall. apply Hall. by apply list_elem_of_fmap_2. }
    simpl in Hle1, Hle2. rewrite !take_take, !Nat.min_l by done. done.
  - destruct Hm as (s & Hl & <-). destruct (reconcile_Ok _ _ Hc) as [[_ ->]|(lim & n & _ & _ & _ & ->)];
      (eapply (since_pop _ _ c _ s); [done..|by intros]).
  - destruct (reconcile_Ok _ _ Hc) as [[_ ->]|(lim & n & _ & _ & _ & ->)]; [done|].
    apply (since_grow _ _ c); [done|done|by exists []; rewrite app_nil_r..].
  - apply (since_grow _ _ c); [done|done|by exists []; rewrite app_nil_r..].
  - unfold mark_aborted in Hc. inv_ok Hc. injection Hc as <-. left. simpl. by intros ?%elem_of_nil.
Qed.

(** Contexts the manager can come to hold. *)
Definition reached (c : TransactionContext) : Prop :=
  ∃ txn_id mode snapshot epoch capability max_rows max_bytes c0 l,
    open_context txn_id mode snapshot epoch capability max_rows max_bytes = Ok c0 ∧ fresh_run c0 l ∧ c = acts c0 l.

Lemma open_context_Ok t md sn e cap rows bytes c : open_context t md sn e cap rows bytes = Ok c →
  c = MkContext t md sn e ACTIVE 0 NO_CSN ∅ ∅ [] ∅ ∅ cap rows bytes 0 [] (-1) ∅ None [] [] ∧
  (∀ m, rows = Some m → 0 < m) ∧ (∀ m, bytes = Some m → 0 < m).
Proof.
  unfold open_context, require_optional_positive_limit. intros Hc. inv_ok Hc.
  destruct rows as [r|], bytes as [b|]; repeat case_match; simplify_eq/=;
    repeat match goal with H : (_ <=? 0) = false |- _ => apply Z.leb_gt in H end;
    (split; [done|split; intros m Hm; simplify_eq; done]).
Qed.

Lemma reached_invariant (P : TransactionContext → Prop) c :
  (∀ t md sn e cap rows bytes, (∀ m, rows = Some m → 0 < m) → (∀ m, bytes = Some m → 0 < m) →
     P (MkContext t md sn e ACTIVE 0 NO_CSN ∅ ∅ [] ∅ ∅ cap rows bytes 0 [] (-1) ∅ None [] [])) →
  (∀ c a c', P c → fresh_for c a → effect c a c' → P c') → reached c → P c.
Proof.
  intros Hopen Hstep (t & md & sn & e & cap & rows & bytes & c0 & l & Hc & Hl & ->).
  apply open_context_Ok in Hc as (-> & Hr & Hb). apply acts_invariant; auto.
Qed.

Lemma reached_rows c : reached c → rows_ok c.
Proof.
  apply reached_invariant; [|apply rows_ok_step]. intros. split; simpl; try done; try apply NoDup_nil_2; lia.
Qed.

Lemma reached_marks c : reached c → marks_ok c.
Proof. apply reached_invariant; [|apply marks_ok_step]. intros. split; simpl; constructor. Qed.

(** What a discarded statement leaves: everything staged as it was, and no reference of its own. *)
Record restored (c c' : TransactionContext) : Prop := {
  restored_rows : row_intents c' = row_intents c;
  restored_records : pending_records c' = pending_records c;
  restored_pages : page_images c' = page_images c ∧ page_image_proofs c' = page_image_proofs c;
  restored_partitions : read_partitions c' = read_partitions c ∧ write_partitions c' = write_partitions c;
  restored_bytes : staged_payload_bytes c' = staged_payload_bytes c;
  restored_refs : pending_row_refs c' = pending_row_refs c;
  restored_marks : staging_marks c' = staging_marks c
}.

Lemma statement_top c id l : rows_ok c → marks_ok c → fresh_for c (TakeMark id) →
  let c1 := (staging_mark c id).2 in
  fresh_run c1 l → TakeMark id ∉ l →
  rows_ok (acts c1 l) ∧ marks_ok (acts c1 l) ∧ since c (snapped_of c id) (acts c1 l).
Proof.
  intros Hr Hm Hfresh c1 Hl Hid.
  assert (snap_mark (snapped_of c id) ∉ snap_mark <$> staging_marks c) as Hnew.
  { simpl in Hfresh. intros (s & Hs & Hin)%list_elem_of_fmap. apply Hfresh. apply list_elem_of_fmap. exists s.
    by rewrite <-Hs. }
  assert (rows_ok c1) as Hr1 by (by apply (rows_ok_step c (TakeMark id)); [done..|apply eff_mark]).
  assert (marks_ok c1) as Hm1 by (by apply (marks_ok_step c (TakeMark id)); [done..|apply eff_mark]).
  assert (since c (snapped_of c id) c1) as Hs1.
  { right. exists []. split_and!; [done|by intros ?%elem_of_nil|by rewrite firstn_all..]. }
  clearbody c1. revert c1 Hr1 Hm1 Hs1 Hl. induction l as [|a l IH]; intros c1 Hr1 Hm1 Hs1 Hl; [done|].
  destruct Hl as [Ha Hl]. simpl in Hl |- *. unfold act in *. destruct (perform c1 a) as [c2|e] eqn:E; [|apply IH; set_solver].
  apply perform_effect in E. apply IH; [set_solver|by eapply rows_ok_step|by eapply marks_ok_step| |done].
  eapply since_step; [done| |done..]. set_solver.
Qed.

Lemma last_app_cons {A} (l k : list A) x : last (l ++ x :: k) = last (x :: k).
Proof. by rewrite last_app; destruct (last (x :: k)) eqn:E; [|apply last_None in E]. Qed.

Lemma discard_restores c id c2 : rows_ok c → marks_ok c2 → rows_ok c2 → since c (snapped_of c id) c2 →
  let m := (staging_mark c id).1 in
  (∀ c', discard_since c2 m = Ok c' → restored c c') ∧
  (snap_mark <$> last (staging_marks c2) = Some m → is_ok (discard_since c2 m) = true).
Proof.
  intros Hr Hm2 Hr2 Hs m.
  assert (∀ s, last (staging_marks c2) = Some s → snap_mark s = m → s = snapped_of c id ∧
    staging_marks c2 = staging_marks c ++ [snapped_of c id] ∧
    take (mark_rows m) (row_intents c2) = row_intents c ∧ take (mark_records m) (pending_records c2) = pending_records c) as Htop.
  { intros s Hl Hsm. destruct Hs as [Hno|(above & Hms & Ha & H1 & H2)].
    - exfalso. apply Hno. change (snap_mark (snapped_of c id)) with m. apply last_Some in Hl as [ms ->].
      rewrite fmap_app, <-Hsm. set_solver.
    - rewrite Hms, last_app_cons in Hl. destruct above as [|x above _] using rev_ind; [by injection Hl as <-|].
      exfalso. apply Ha. rewrite app_comm_cons, last_snoc in Hl. injection Hl as ->.
      change (snap_mark (snapped_of c id)) with m. rewrite fmap_app, <-Hsm. set_solver. }
  split.
  - intros c' Hd. destruct (rows_ok_discard c2 (mark_rows m) _ Hr2 eq_refl) as [Hrefs _].
    pose proof Hd as Hd'. apply discard_Ok in Hd' as (s & Hl & Hsm & _ & _ & Hms & Hrows & Hrecs & Hi & Hp & Hre & Hw & Hb & _).
    destruct (Htop s Hl Hsm) as (-> & Hms2 & H1 & H2).
    split; rewrite ?Hrows, ?Hrecs, ?Hi, ?Hp, ?Hre, ?Hw, ?Hb; try done.
    + unfold discard_since in Hd. case_match; [done|]. inv_ok Hd. injection Hd as <-.
      etrans; [exact Hrefs|]. rewrite H1. symmetry. apply Hr.
    + by rewrite Hms, Hms2, removelast_last.
  - destruct (last (staging_marks c2)) as [s|] eqn:Hl; [|done]. intros [= Hsm]. destruct (Htop s eq_refl Hsm) as (-> & Hms2 & H1 & H2).
    unfold discard_since, top_mark. rewrite Hl, bool_decide_true by done.
    pose proof (marks_below c2 Hm2) as Hb. rewrite Forall_forall in Hb.
    destruct (Hb (snapped_of c id)) as (Hb1 & Hb2 & Hb3); [rewrite Hms2; set_solver|].
    apply subseteq_size in Hb3. simpl in Hb1, Hb2, Hb3. rewrite !size_dom in Hb3. unfold m. simpl.
    rewrite (proj2 (Nat.ltb_ge _ _)) by done. rewrite (proj2 (Nat.ltb_ge _ _)) by done.
    by rewrite (proj2 (Nat.ltb_ge _ _)) by done.
Qed.

(** ** Budgets *)

Definition image_bytes (e : location * Z) : Z := zlen (content e.2).
Definition weigh (l : list (location * Z)) : Z := foldr (λ e acc, image_bytes e + acc) 0 l.
Definition weight (X : gset (location * Z)) : Z := weigh (elements X).

#[local] Instance weigh_proper : Proper ((≡ₚ) ==> eq) weigh.
Proof. intros l k Hp. unfold weigh. induction Hp; simpl; lia. Qed.

Lemma weigh_nonneg l : 0 <= weigh l.
Proof. unfold weigh, image_bytes. induction l as [|e l IH]; simpl; [lia|]. pose proof (zlen_nonneg (content e.2)). lia. Qed.

Lemma weight_insert e X : e ∉ X → weight ({[e]} ∪ X) = image_bytes e + weight X.
Proof. intros He. unfold weight. by rewrite elements_union_singleton. Qed.

Lemma weight_delete e X : e ∈ X → weight X = image_bytes e + weight (X ∖ {[e]}).
Proof. intros He. rewrite <-weight_insert by set_solver. f_equal. apply set_eq. intros x. destruct (decide (x = e)); set_solver. Qed.

Lemma weight_mono X Y : X ⊆ Y → weight X <= weight Y.
Proof.
  revert Y. induction X as [|e X He IH] using set_ind_L; intros Y HXY; [apply weigh_nonneg|].
  rewrite weight_insert by done. rewrite (weight_delete e Y) by set_solver.
  specialize (IH (Y ∖ {[e]}) ltac:(set_solver)). lia.
Qed.

Lemma weight_list l : NoDup l → weight (list_to_set l) = weigh l.
Proof. intros Hl. unfold weight. by rewrite elements_list_to_set. Qed.

(** The images a context keeps alive: those of its map and those of its marks. *)
Definition images_of (m : gmap location Z) : gset (location * Z) := list_to_set (map_to_list m).
Definition marked_images (marks : list Snapped) : gset (location * Z) := ⋃ ((λ s, images_of (snap_images s)) <$> marks).

Lemma images_of_elem m l image : (l, image) ∈ images_of m ↔ m !! l = Some image.
Proof. unfold images_of. by rewrite elem_of_list_to_set, elem_of_map_to_list. Qed.

Lemma retain_images l acc : acc.2 = weight acc.1 →
  let acc' := fold_left retain_image l acc in acc'.1 = list_to_set l ∪ acc.1 ∧ acc'.2 = weight acc'.1.
Proof.
  revert acc. induction l as [|e l IH]; intros acc Hacc; simpl; [split; [set_solver|done]|].
  assert ((retain_image acc e).2 = weight (retain_image acc e).1 ∧ (retain_image acc e).1 = {[e]} ∪ acc.1) as [H1 H2].
  { unfold retain_image. case_bool_decide as He; simpl; [split; [done|set_solver]|].
    rewrite weight_insert, Hacc by done. unfold image_bytes. split; [lia|done]. }
  destruct (IH _ H1) as [H3 H4]. split; [|done]. rewrite H3, H2. set_solver.
Qed.

Lemma retained_weight images marks :
  retained_page_payload_bytes images marks = weight (images_of images ∪ marked_images marks).
Proof.
  unfold retained_page_payload_bytes. set (start := (list_to_set (map_to_list images) : gset (location * Z), _)).
  assert (start.2 = weight start.1) as Hs by (unfold start; simpl; rewrite weight_list by apply NoDup_map_to_list; done).
  assert (start.1 = images_of images) as Hi by done. rewrite <-Hi. clearbody start. clear Hi. revert start Hs.
  induction marks as [|s marks IH]; intros start Hs; simpl.
  { rewrite Hs. f_equal. unfold marked_images. set_solver. }
  destruct (retain_images (map_to_list (snap_images s)) start Hs) as [H1 H2]. rewrite (IH _ H2), H1. f_equal.
  unfold marked_images. simpl. unfold images_of at 2. set_solver.
Qed.

Lemma marked_images_app marks s : marked_images (marks ++ [s]) = marked_images marks ∪ images_of (snap_images s).
Proof. unfold marked_images. rewrite fmap_app, union_list_app_L. simpl. by rewrite (right_id_L ∅ (∪)). Qed.

Lemma image_retained c l image : image_is_retained_by_mark c l image = true ↔ (l, image) ∈ marked_images (staging_marks c).
Proof.
  unfold image_is_retained_by_mark, marked_images. rewrite existsb_exists, elem_of_union_list. split.
  - intros (s & Hin%list_elem_of_In & Hs%bool_decide_eq_true). exists (images_of (snap_images s)).
    split; [by apply (list_elem_of_fmap_2 (λ s, images_of (snap_images s)))|by apply images_of_elem].
  - intros (X & (s & -> & Hin)%list_elem_of_fmap & HX%images_of_elem). exists s.
    split; [by apply list_elem_of_In|by apply bool_decide_eq_true].
Qed.

(** Replacing an image never keeps more alive than [image_delta] accounts for. *)
Lemma retained_stage c l image :
  retained_page_payload_bytes (<[l := image]> (page_images c)) (staging_marks c)
  <= retained_page_payload_bytes (page_images c) (staging_marks c) + image_delta c l image.
Proof.
  rewrite !retained_weight. set (M := marked_images (staging_marks c)). set (I := page_images c).
  assert (∀ x, x ∈ images_of (<[l := image]> I) → x = (l, image) ∨ (x.1 ≠ l ∧ x ∈ images_of I)) as Hin.
  { intros [k y] Hx%images_of_elem. destruct (decide (k = l)) as [->|Hk].
    - rewrite lookup_insert_eq in Hx. left. congruence.
    - rewrite lookup_insert_ne in Hx by done. right. split; [done|by apply images_of_elem]. }
  assert (∀ X, (∀ x, x ∈ images_of (<[l := image]> I) ∪ M → x = (l, image) ∨ x ∈ X) →
    weight (images_of (<[l := image]> I) ∪ M) <= zlen (content image) + weight X) as Hbound.
  { intros X HX. etrans; [apply (weight_mono _ ({[(l, image)]} ∪ X)); set_solver|].
    destruct (decide ((l, image) ∈ X)) as [He|He].
    - assert ({[(l, image)]} ∪ X = X) as -> by set_solver. pose proof (zlen_nonneg (content image)). lia.
    - rewrite weight_insert by done. done. }
  unfold image_delta. fold I. destruct (I !! l) as [previous|] eqn:Hl.
  - destruct (Z.eqb_spec previous image) as [->|Hne]; [rewrite insert_id by done; lia|].
    destruct (image_is_retained_by_mark c l previous) eqn:Hret.
    + specialize (Hbound (images_of I ∪ M)). etrans; [apply Hbound|lia]. set_solver.
    + assert ((l, previous) ∉ M) as Hnot by (intros Hm%image_retained; congruence).
      rewrite (weight_delete (l, previous) (images_of I ∪ M)) by (apply elem_of_union_l; by apply images_of_elem).
      specialize (Hbound ((images_of I ∪ M) ∖ {[(l, previous)]})). unfold image_bytes. simpl.
      etrans; [apply Hbound|lia]. intros x [Hx|Hx]%elem_of_union.
      * apply Hin in Hx as [->|[Hx1 Hx2]]; [by left|]. right. apply elem_of_difference. split; [set_solver|].
        intros ->%elem_of_singleton. by apply Hx1.
      * right. apply elem_of_difference. split; [set_solver|]. intros ->%elem_of_singleton. done.
  - specialize (Hbound (images_of I ∪ M)). etrans; [apply Hbound|lia]. set_solver.
Qed.

Lemma sum_results_app l k a b : sum_results l = Ok a → sum_results k = Ok b → sum_results (l ++ k) = Ok (a + b).
Proof.
  revert a. induction l as [|m l IH]; intros a Ha Hb; simpl in *; [by injection Ha as <-|].
  inv_ok Ha. injection Ha as <-. rewrite E. simpl. rewrite (IH _ E0 Hb). simpl. by rewrite Z.add_assoc.
Qed.

Lemma observed_row mb intents records images marks total i n :
  observed_bytes mb intents records images marks = Ok total → intent_payload_bytes mb i = Ok n →
  observed_bytes mb (intents ++ [i]) records images marks = Ok (total + n).
Proof.
  unfold observed_bytes. intros Ht Hn. inv_ok Ht. injection Ht as <-. rewrite fmap_app.
  rewrite (sum_results_app _ _ x n E) by (simpl; rewrite Hn; simpl; by rewrite Z.add_0_r). simpl. rewrite E0. simpl. f_equal. lia.
Qed.

Lemma observed_record mb intents records images marks total r n :
  observed_bytes mb intents records images marks = Ok total → record_payload_bytes mb r = Ok n →
  observed_bytes mb intents (records ++ [r]) images marks = Ok (total + n).
Proof.
  unfold observed_bytes. intros Ht Hn. inv_ok Ht. injection Ht as <-. rewrite E. simpl. rewrite fmap_app.
  rewrite (sum_results_app _ _ x0 n E0) by (simpl; rewrite Hn; simpl; by rewrite Z.add_0_r). simpl. f_equal. lia.
Qed.

Lemma observed_images mb intents records images marks images' marks' total :
  observed_bytes mb intents records images marks = Ok total →
  observed_bytes mb intents records images' marks'
  = Ok (total - retained_page_payload_bytes images marks + retained_page_payload_bytes images' marks').
Proof.
  unfold observed_bytes. intros Ht. inv_ok Ht. injection Ht as <-. rewrite E. simpl. rewrite E0. simpl. f_equal. lia.
Qed.

(** The accounting covers what a recomputation observes, within the limits. *)
Definition within_budget (max_rows max_bytes : option Z) (intents : list (RowIntent V)) (records : list WalRecord)
    (images : gmap location Z) (marks : list Snapped) (payload : Z) : Prop :=
  (∀ m, max_rows = Some m → zlen intents <= m) ∧
  (∀ m, max_bytes = Some m → ∃ total, observed_bytes (Some m) intents records images marks = Ok total ∧ total <= payload <= m).

Record budget_ok (c : TransactionContext) : Prop := {
  budget_limit : ∀ m, max_transaction_bytes c = Some m → 0 < m;
  budget_now : within_budget (max_transaction_rows c) (max_transaction_bytes c) (row_intents c) (pending_records c)
                 (page_images c) (staging_marks c) (staged_payload_bytes c);
  budget_marks : ∀ k s, staging_marks c !! k = Some s →
    within_budget (max_transaction_rows c) (max_transaction_bytes c) (take (mark_rows (snap_mark s)) (row_intents c))
      (take (mark_records (snap_mark s)) (pending_records c)) (snap_images s) (take k (staging_marks c)) (snap_payload_bytes s)
}.

(** The marks see no more than prefixes, which growing keeps. *)
Lemma budget_marks_grow c c' rows records : marks_ok c → budget_ok c → staging_marks c' = staging_marks c →
  max_transaction_rows c' = max_transaction_rows c → max_transaction_bytes c' = max_transaction_bytes c →
  row_intents c' = row_intents c ++ rows → pending_records c' = pending_records c ++ records →
  within_budget (max_transaction_rows c') (max_transaction_bytes c') (row_intents c') (pending_records c')
    (page_images c') (staging_marks c') (staged_payload_bytes c') →
  budget_ok c'.
Proof.
  intros Hm [Hlim _ Hb] Hms Hr Hby Hrows Hrecs Hnow. split; [by rewrite Hby|done|]. intros k s Hk. rewrite Hms in *. rewrite Hr, Hby, Hrows, Hrecs.
  pose proof (marks_below c Hm) as Hbelow. rewrite Forall_forall in Hbelow.
  destruct (Hbelow s) as (H1 & H2 & _); [by eapply list_elem_of_lookup_2|]. simpl in H1, H2.
  rewrite !take_app_le by done. by apply Hb.
Qed.

(** Back at an earlier mark, or with its last mark gone. *)
Lemma budget_marks_pop c c' : marks_ok c → budget_ok c → staging_marks c ≠ [] →
  staging_marks c' = removelast (staging_marks c) →
  max_transaction_rows c' = max_transaction_rows c → max_transaction_bytes c' = max_transaction_bytes c →
  (∃ n, row_intents c' = take n (row_intents c) ∧ ∀ s, s ∈ removelast (staging_marks c) → (mark_rows (snap_mark s) <= n)%nat) →
  (∃ n, pending_records c' = take n (pending_records c) ∧
     ∀ s, s ∈ removelast (staging_marks c) → (mark_records (snap_mark s) <= n)%nat) →
  within_budget (max_transaction_rows c') (max_transaction_bytes c') (row_intents c') (pending_records c')
    (page_images c') (staging_marks c') (staged_payload_bytes c') →
  budget_ok c'.
Proof.
  intros Hm [Hlim _ Hb] Hne Hms Hr Hby (n & Hrows & Hn) (n' & Hrecs & Hn') Hnow. split; [by rewrite Hby|done|]. intros k s Hk.
  assert (∃ x, staging_marks c = staging_marks c' ++ [x]) as [x Hx].
  { rewrite Hms. destruct (staging_marks c) as [|x ms _] using rev_ind; [done|]. exists x. by rewrite removelast_last. }
  assert (s ∈ removelast (staging_marks c)) as Hs by (rewrite <-Hms; by eapply list_elem_of_lookup_2).
  rewrite Hr, Hby, Hrows, Hrecs, !take_take, !Nat.min_l by auto.
  assert (take k (staging_marks c') = take k (staging_marks c)) as ->.
  { rewrite Hx. symmetry. apply take_app_le. apply lookup_lt_Some in Hk. lia. }
  apply Hb. rewrite Hx. by apply lookup_app_l_Some.
Qed.

Lemma last_ne {A} (l : list A) x : last l = Some x → l ≠ [].
Proof. by destruct l. Qed.

Lemma budget_step c a c' : marks_ok c → budget_ok c → effect c a c' → budget_ok c'.
Proof.
  intros Hm Hb Heff. pose proof Hb as [Hpos [Hr Hby] Hbm].
  destruct Heff as [a reads writes|r n|f i image cap writes Hw l Hc|t cells cells' rid labels oid n Hw Hroom o i Hn Hc Hneg
    |a t cells op r labels n Hw Hroom Hlive Hop i Hn Hc Ha|id|m c' Hd|m c' Hmk Hc|c' Ha Hc|a e st k n|c' Ha Hc].
  - apply (budget_marks_grow c _ [] []); first [done|by rewrite app_nil_r|exact (budget_now c Hb)].
  - apply (budget_marks_grow c _ [] [r]); try done; [by rewrite app_nil_r|]. split; [done|]. intros lim Hlim. simpl in *.
    destruct (Hby lim Hlim) as (total & Ht & Hle). exists (total + n). specialize (H2 lim Hlim). rewrite Hlim in H1.
    split; [by apply observed_record|lia].
  - apply (budget_marks_grow c _ [] []); try done; try by rewrite app_nil_r. split; [done|]. intros lim Hlim. simpl in *.
    destruct (Hby lim Hlim) as (total & Ht & Hle). specialize (Hc lim Hlim). pose proof (retained_stage c l image).
    eexists. split; [by apply (observed_images _ _ _ _ _ _ _ _ Ht)|]. lia.
  - apply (budget_marks_grow c _ [i] []); try done; [by rewrite app_nil_r|]. split; simpl.
    + intros lim Hlim. rewrite zlen_app. specialize (Hroom lim Hlim). by change (zlen [i]) with 1.
    + intros lim Hlim. destruct (Hby lim Hlim) as (total & Ht & Hle). specialize (Hc lim Hlim). rewrite Hlim in Hn.
      exists (total + n). split; [by apply observed_row|lia].
  - apply (budget_marks_grow c _ [i] []); try done; [by rewrite app_nil_r|]. split; simpl.
    + intros lim Hlim. rewrite zlen_app. specialize (Hroom lim Hlim). by change (zlen [i]) with 1.
    + intros lim Hlim. destruct (Hby lim Hlim) as (total & Ht & Hle). rewrite Hlim in Hn.
      exists (total + n). split; [by apply observed_row|]. destruct Hc as [Hc| ->]; [specialize (Hc lim Hlim); lia|lia].
  - assert (∀ lim, max_transaction_bytes c = Some lim → ∃ total, observed_bytes (Some lim) (row_intents c) (pending_records c)
      (page_images c) (staging_marks c ++ [snapped_of c id]) = Ok total ∧ total <= staged_payload_bytes c <= lim) as Hnew.
    { intros lim Hlim. destruct (Hby lim Hlim) as (total & Ht & Hle). exists total. split; [|done].
      rewrite (observed_images _ _ _ _ _ (page_images c) (staging_marks c ++ [snapped_of c id]) _ Ht).
      f_equal. rewrite !retained_weight, marked_images_app. simpl.
      assert (images_of (page_images c) ∪ (marked_images (staging_marks c) ∪ images_of (page_images c))
        = images_of (page_images c) ∪ marked_images (staging_marks c)) as -> by set_solver. lia. }
    split; simpl; [done|by split|]. intros k s Hk. apply lookup_app_Some in Hk as [Hk|[Hle Hk]].
    + rewrite take_app_le by (apply lookup_lt_Some in Hk; lia). by apply Hbm.
    + apply list_lookup_singleton_Some in Hk as [Hz <-]. simpl. rewrite !firstn_all, take_app_length' by lia. by split.
  - apply discard_Ok in Hd as (s & Hl & <- & _ & _ & Hms & Hrows & Hrecs & Hi & _ & _ & _ & Hp & _ & Hmr & Hmb & _).
    pose proof Hl as (ms & Hmarks)%last_Some.
    assert (∀ x, x ∈ removelast (staging_marks c) → view_le (snap_view x) (snap_view s)) as Hle.
    { pose proof (marks_sorted c Hm) as Hsort. rewrite Hmarks, fmap_app in Hsort. apply sorted_app_inv in Hsort as [_ Hall].
      rewrite Hmarks, removelast_last. apply Forall_fmap in Hall. by rewrite Forall_forall in Hall. }
    apply (budget_marks_pop c); try done; [by eapply last_ne|..].
    + exists (mark_rows (snap_mark s)). split; [done|]. intros x (Hx & _ & _)%Hle; exact Hx.
    + exists (mark_records (snap_mark s)). split; [done|]. intros x (_ & Hx & _)%Hle; exact Hx.
    + rewrite Hmr, Hmb, Hrows, Hrecs, Hi, Hms, Hp. specialize (Hbm (length ms) s). rewrite Hmarks in Hbm |- *.
      rewrite removelast_last. rewrite list_lookup_middle, take_app_length in Hbm by done. by apply Hbm.
  - destruct Hmk as (s & Hl & <-).
    assert (∀ x, x ∈ removelast (staging_marks c) → view_le (snap_view x) (view_of c)) as Hle.
    { intros x Hx. pose proof (marks_below c Hm) as Hall. rewrite Forall_forall in Hall. apply Hall.
      apply last_Some in Hl as [ms Hms]. rewrite Hms, removelast_last in *. set_solver. }
    assert (view_of c' = view_of c ∧ staging_marks c' = removelast (staging_marks c) ∧ row_intents c' = row_intents c ∧
      pending_records c' = pending_records c ∧ max_transaction_rows c' = max_transaction_rows c ∧
      max_transaction_bytes c' = max_transaction_bytes c ∧
      within_budget (max_transaction_rows c) (max_transaction_bytes c) (row_intents c) (pending_records c)
        (page_images c') (staging_marks c') (staged_payload_bytes c')) as (_ & Hms & Hrows & Hrecs & Hmr & Hmb & Hnow).
    { destruct (reconcile_Ok _ _ Hc) as [[Hn ->]|(lim & n & Hlim & Hn & Hle2 & ->)]; simpl in *; split_and!; try done;
        (split; [done|]); intros lim' Hlim'; [congruence|]. assert (lim' = lim) as -> by congruence. by exists n. }
    apply (budget_marks_pop c); try done; [by eapply last_ne|..].
    + exists (length (row_intents c)). rewrite firstn_all. split; [done|]. intros x (Hx & _ & _)%Hle; exact Hx.
    + exists (length (pending_records c)). rewrite firstn_all. split; [done|]. intros x (_ & Hx & _)%Hle; exact Hx.
    + by rewrite Hmr, Hmb, Hrows, Hrecs.
  - destruct (reconcile_Ok _ _ Hc) as [[_ ->]|(lim & n & Hlim & Hn & Hle & ->)]; [done|].
    apply (budget_marks_grow c _ [] []); try done; try by rewrite app_nil_r. split; [done|]. simpl.
    intros lim' Hlim'. assert (lim' = lim) as -> by congruence. by exists n.
  - apply (budget_marks_grow c _ [] []); first [done|by rewrite app_nil_r|exact (budget_now c Hb)].
  - unfold mark_aborted in Hc. inv_ok Hc. injection Hc as <-. split; simpl; [done| |by intros k s ?%list_elem_of_lookup_2%elem_of_nil].
    split; [|intros lim Hlim; exists 0; split; [done|]].
    + intros lim Hlim. specialize (Hr lim Hlim). pose proof (zlen_nonneg (row_intents c)). change (zlen (@nil (RowIntent V))) with 0. lia.
    + specialize (Hpos lim Hlim). lia.
Qed.

Lemma reached_budget c : reached c → budget_ok c.
Proof.
  intros Hc. apply (reached_invariant (λ c, marks_ok c ∧ budget_ok c)) in Hc as [_ Hb]; [done|..].
  - intros t md sn e cap rows bytes Hr Hb. split; [split; simpl; constructor|].
    split; simpl; [done| |by intros k x ?%list_elem_of_lookup_2%elem_of_nil]. split; intros m Hm.
    + specialize (Hr m Hm). change (zlen (@nil (RowIntent V))) with 0. lia.
    + specialize (Hb m Hm). exists 0. split; [done|lia].
  - intros c1 a c2 [Hm Hb] Hf He. split; [by eapply marks_ok_step|by eapply budget_step].
Qed.

(** ** The staged batch *)

Lemma replayable_known s (l : list (RowIntent V)) : is_Some s → Forall (λ i, operation i ≠ INSERT) l → replayable_from s l.
Proof.
  intros Hs Hl. revert s Hs. induction Hl as [|i l Hi Hl IH]; intros s Hs; simpl; [done|]. split.
  - unfold replayable_state. by destruct (operation i).
  - apply IH. destruct Hs as [[r|] ->]; unfold replay_state; by destruct (operation i).
Qed.

Lemma insert_objects_elem (l : list (RowIntent V)) o : o ∈ insert_objects l →
  ∃ i, i ∈ l ∧ operation i = INSERT ∧ intent_reference i = Some (Pending o).
Proof.
  intros (i & Hi & Ho)%list_elem_of_omap. exists i. split; [done|].
  destruct (operation i), (intent_reference i) as [[]|]; simplify_eq; done.
Qed.

(** The intents of one pending reference: its insert, then updates and deletes. *)
Lemma pending_intents l p : NoDup (token_of <$> insert_objects l) →
  (∀ n i, l !! n = Some i → intent_follows (take n l) i) →
  let k : ref_key := inr p in let mine := filter (λ i, intent_key i = Some k) l in
  mine = [] ∨ ∃ i rest, mine = i :: rest ∧ operation i = INSERT ∧ Forall (λ i, operation i ≠ INSERT) rest.
Proof.
  intros Hnd Hf k. cbn zeta. induction l as [|x l IH] using rev_ind; [by left|].
  rewrite insert_objects_app, fmap_app in Hnd. apply NoDup_app in Hnd as (Hnd & Hdisj & _).
  destruct IH as [IH|(i & rest & IH & Hi & Hrest)]; [done| |..].
  { intros n i Hn. pose proof (Hf n i ltac:(by apply lookup_app_l_Some)) as H1.
    by rewrite take_app_le in H1 by (apply lookup_lt_Some in Hn; lia). }
  all: pose proof (Hf (length l) x ltac:(by rewrite list_lookup_middle)) as Hx; rewrite take_app_length in Hx.
  all: rewrite filter_app, IH, filter_cons, filter_nil; case_decide as Hk; [|rewrite app_nil_r].
  - destruct (decide (operation x = INSERT)) as [Hop|Hop]; [right; by exists x, []|exfalso].
    unfold intent_key in Hk. destruct (intent_reference x) as [[r|o]|] eqn:Hr; simplify_eq/=.
    assert (o ∈ insert_objects l) as Ho by (unfold intent_follows in Hx; rewrite Hr in Hx; by destruct (operation x)).
    apply insert_objects_elem in Ho as (y & Hy & _ & Hyr).
    assert (y ∈ @nil (RowIntent V)) as Hin by (rewrite <-IH; apply list_elem_of_filter; split; [unfold intent_key; by rewrite Hyr|done]).
    by apply elem_of_nil in Hin.
  - by left.
  - right. exists i, (rest ++ [x]). split_and!; [done|done|]. apply Forall_app. split; [done|]. apply Forall_singleton.
    intros Hop. assert (i ∈ i :: rest) as Hin by (by left). rewrite <-IH in Hin.
    apply list_elem_of_filter in Hin as [Hik Hil]. unfold intent_key in *.
    destruct (intent_reference x) as [[r|o]|] eqn:Hr, (intent_reference i) as [[r'|o']|] eqn:Hr'; simplify_eq/=.
    apply (Hdisj (token_of o')).
    + apply list_elem_of_fmap_2. unfold insert_objects. apply list_elem_of_omap. exists i. by rewrite Hi, Hr'.
    + unfold insert_objects. simpl. rewrite Hop, Hr. simpl. apply list_elem_of_singleton. unfold token_of. congruence.
  - right. by exists i, rest.
Qed.

(** Every physical row the batch names. *)
Definition knows_rows (rows : gmap ref_key (RowState V)) (l : list (RowIntent V)) : Prop :=
  (∀ p, rows !! (inr p : ref_key) = None) ∧
  ∀ i r, i ∈ l → intent_reference i = Some (Stored r) → is_Some (rows !! (inl r : ref_key)).

Lemma staged_replayable c rows : rows_ok c → knows_rows rows (row_intents c) → replayable rows (row_intents c).
Proof.
  intros [_ Ht _ _ _ Hf] [Hnew Hknown]. apply replayable_lookup. intros [r|p].
  - destruct (filter _ (row_intents c)) as [|i l] eqn:E; [done|]. rewrite <-E. apply replayable_known.
    + assert (i ∈ i :: l) as Hin by (by left). rewrite <-E in Hin.
      apply list_elem_of_filter in Hin as [Hik Hil]. unfold intent_key in Hik.
      destruct (intent_reference i) as [[r'|o]|] eqn:Hr; simplify_eq/=. by apply (Hknown i).
    + apply Forall_forall. intros x [Hxk Hx]%list_elem_of_filter Hop. unfold intent_key in Hxk.
      apply list_elem_of_lookup in Hx as [n Hx]. apply Hf in Hx. unfold intent_follows in Hx. rewrite Hop in Hx.
      by destruct (intent_reference x) as [[]|].
  - rewrite Hnew. destruct (pending_intents (row_intents c) p Ht Hf) as [E|(i & rest & E & Hi & Hrest)]; rewrite E; [done|].
    simpl. unfold replayable_state. rewrite Hi. split; [done|]. apply replayable_known; [|done].
    unfold replay_state. rewrite ?Hi. by eexists.
Qed.

Lemma fold_intent_reference (x i y : RowIntent V) : fold_intent x i = Ok (Some y) →
  intent_reference y = intent_reference x ∨ intent_reference y = intent_reference i.
Proof. unfold fold_intent. destruct (operation x), (operation i); intros [= <-]; auto. Qed.

Lemma fold_all_reference (l : list (RowIntent V)) o y : fold_all o l = Ok (Some (Kept y)) →
  (∃ x, o = Some (Kept x) ∧ intent_reference y = intent_reference x) ∨ ∃ i, i ∈ l ∧ intent_reference y = intent_reference i.
Proof.
  revert o. induction l as [|i l IH]; intros o Hl; simpl in Hl; [injection Hl as ->; left; by eexists|].
  inv_ok Hl. destruct (IH _ Hl) as [(x' & -> & Hx)|(j & Hj & Hx)]; [|right; exists j; split; [by right|done]].
  destruct o as [[z|]|]; simpl in E.
  - inv_ok E. destruct x as [w|]; [|done]. injection E as ->. apply fold_intent_reference in E0 as [E0|E0].
    + left. exists z. split; [done|congruence].
    + right. exists i. split; [by left|congruence].
  - done.
  - injection E as ->. right. exists x'. split; [by left|done].
Qed.

Lemma nodup_omap {A B C} (f : A → option B) (g : A → option C) l : NoDup (omap f l) →
  (∀ x y c, x ∈ l → y ∈ l → g x = Some c → g y = Some c → ∃ b, f x = Some b ∧ f y = Some b) → NoDup (omap g l).
Proof.
  induction l as [|x l IH]; intros Hf Hg; simpl; [constructor|].
  assert (NoDup (omap g l)) as Hl.
  { apply IH; [simpl in Hf; destruct (f x); [by apply NoDup_cons in Hf as [_ ?]|done]|].
    intros y z c Hy Hz. apply Hg; by right. }
  destruct (g x) as [c|] eqn:Hx; [|done]. constructor; [|done]. intros (y & Hy & Hyc)%list_elem_of_omap.
  destruct (Hg x y c) as (b & Hb & Hyb); [by left|by right|done..|]. simpl in Hf. rewrite Hb in Hf.
  apply NoDup_cons in Hf as [Hf _]. apply Hf. apply list_elem_of_omap. by exists y.
Qed.

Lemma reduced_reference (l : list (RowIntent V)) y : y ∈ reduced l → ∃ i, i ∈ l ∧ intent_reference y = intent_reference i.
Proof.
  unfold reduced. intros ([p x] & -> & Hin)%list_elem_of_fmap. simpl.
  apply positioned_elem in Hin as (n & i & -> & Hi & Hs). unfold survivor in Hs.
  destruct (intent_key i) as [k|]; [|injection Hs as ->; exists x; split; [by eapply list_elem_of_lookup_2|done]].
  case_decide; [done|]. destruct (settled k l) as [[[z|]|]|] eqn:Hk; try done. injection Hs as ->.
  unfold settled in Hk. apply fold_all_reference in Hk as [(w & ? & _)|(j & Hj & Hr)]; [done|].
  apply list_elem_of_filter in Hj as [_ Hj]. by exists j.
Qed.

Lemma reduced_objects c rows : rows_ok c → replayable rows (row_intents c) → NoDup (omap insert_obj (reduced (row_intents c))).
Proof.
  intros Hok Hr. destruct (reduced_replays rows _ Hr) as (_ & _ & _ & Hnd). destruct Hok as [_ _ Hids _ _ Hf].
  assert (∀ x o, x ∈ reduced (row_intents c) → intent_reference x = Some (Pending o) → o ∈ insert_objects (row_intents c)) as Hobj.
  { intros x o Hx Hxr. apply reduced_reference in Hx as (i & Hi & Heq). rewrite Hxr in Heq. pose proof Hi as (n & Hn)%list_elem_of_lookup.
    apply Hf in Hn. unfold intent_follows in Hn. rewrite <-Heq in Hn. destruct (operation i) eqn:Hop.
    - unfold insert_objects. apply list_elem_of_omap. exists i. by rewrite Hop, <-Heq.
    - rewrite (insert_objects_split n). set_solver.
    - rewrite (insert_objects_split n). set_solver. }
  apply (nodup_omap intent_key); [done|]. intros x y id Hx Hy Hxi Hyi. unfold insert_obj in Hxi, Hyi.
  destruct (operation x), (intent_reference x) as [[r|o]|] eqn:Hxr; try done. injection Hxi as Hxi.
  destruct (operation y), (intent_reference y) as [[r'|o']|] eqn:Hyr; try done. injection Hyi as Hyi.
  assert (o = o') as ->.
  { pose proof (Hobj x o Hx Hxr) as (a & Ha)%list_elem_of_lookup. pose proof (Hobj y o' Hy Hyr) as (b & Hb)%list_elem_of_lookup.
    assert (a = b) as ->; [|congruence]. eapply (NoDup_lookup _ a b id Hids); rewrite list_lookup_fmap.
    - by rewrite Ha, <-Hxi.
    - by rewrite Hb, <-Hyi. }
  exists (inr (obj_ref o')). unfold intent_key. by rewrite Hxr, Hyr.
Qed.

(** ** Ended and read-only transactions *)

Definition guarded (a : action) : bool :=
  match a with
  | TakeMark _ | Discard _ | Settle _ | BindEpoch _ | MarkConflicted | AdoptConflicts _ => false
  | _ => true
  end.

Lemma ended_refuses c a : state c ≠ ACTIVE → guarded a = true → perform c a = raise GrafxTransactionStateError "".
Proof.
  intros Hc Ha. assert (require_active c = raise GrafxTransactionStateError "") as Hr.
  { unfold require_active, active. by rewrite bool_decide_false. }
  destruct a; try done; simpl; unfold note_read, note_write, stage_record, stage_page_image_private, stage_row_insert,
    stage_row_update, stage_row_delete, validate_budgets, mark_committed, mark_aborted; by rewrite Hr.
Qed.

Lemma ended_step c a c' : state c ≠ ACTIVE → effect c a c' →
  state c' = state c ∧ commit_csn c' = commit_csn c ∧ row_intents c' `prefix_of` row_intents c ∧
  pending_records c' `prefix_of` pending_records c.
Proof.
  intros Hc Heff. destruct Heff as [a reads writes Hact|r n [Hact _]|f i image cap writes [Hact _] l Hcap|t cells cells' rid labels oid n [Hact _]
    |a t cells op r labels n [Hact _]|id|m c' Hd|m c' Hm Hrec|c' Hact Hrec|a e st k n Hst Ha|c' Hact Hab]; try done.
  - apply discard_Ok in Hd as (s & _ & _ & _ & _ & _ & Hrows & Hrecs & _ & _ & _ & _ & _ & _ & _ & _ & _ & Hs & Hn).
    rewrite Hrows, Hrecs, Hs, Hn. split_and!; [done|done|apply prefix_take|apply prefix_take].
  - destruct (reconcile_Ok _ _ Hrec) as [[_ ->]|(lim & n & _ & _ & _ & ->)]; done.
  - simpl. destruct Hst as [[-> ->]|[? _]]; done.
Qed.

Definition stages_nothing (c : TransactionContext) : Prop :=
  row_intents c = [] ∧ pending_records c = [] ∧ page_images c = ∅ ∧ write_partitions c = ∅ ∧
  Forall (λ s, snap_images s = ∅ ∧ snap_writes s = ∅) (staging_marks c).

Lemma effect_mode c a c' : effect c a c' → mode c' = mode c.
Proof.
  intros Heff. destruct Heff as [| | | | | |m c' Hd|m c' Hm Hc|c' Ha Hc| |c' Ha Hc]; try done.
  - by apply discard_Ok in Hd as (s & _ & _ & _ & _ & _ & _ & _ & _ & _ & _ & _ & _ & _ & _ & _ & Hmode & _).
  - by destruct (reconcile_Ok _ _ Hc) as [[_ ->]|(lim & n & _ & _ & _ & ->)].
  - by destruct (reconcile_Ok _ _ Hc) as [[_ ->]|(lim & n & _ & _ & _ & ->)].
  - unfold mark_aborted in Hc. inv_ok Hc. by injection Hc as <-.
Qed.

Lemma read_step c a c' : mode c = READ ∧ stages_nothing c → effect c a c' → mode c' = READ ∧ stages_nothing c'.
Proof.
  intros [Hc (Hr & Hrec & Hi & Hw & Hm)] Heff. unfold stages_nothing.
  destruct Heff as [a reads writes Hact Hsub1 Hsub2 Hread|r n [_ Hact]|f i image cap writes [_ Hact] l Hcap|t cells cells' rid labels oid n [_ Hact]
    |a t cells op r labels n [_ Hact]|id|m c' Hd|m c' Hmk Hre|c' Hact Hre|a e st k n Hst Ha|c' Hact Hab]; try congruence.
  - simpl. by rewrite (Hread Hc).
  - simpl. rewrite Forall_app, Forall_singleton. done.
  - apply discard_Ok in Hd as (s & Hl & _ & _ & _ & Hms & Hrows & Hrecs & Him & _ & _ & Hwr & _ & _ & _ & _ & Hmode & _).
    apply last_Some in Hl as [ms Hl]. rewrite Hl in Hm, Hms. apply Forall_app in Hm as [Hm Hs].
    rewrite Forall_singleton in Hs. destruct Hs as [Hs1 Hs2]. rewrite removelast_last in Hms.
    rewrite Hrows, Hrecs, Him, Hwr, Hmode, Hms, Hr, Hrec, Hs1, Hs2, !take_nil. done.
  - destruct Hmk as (s & Hl & _). apply last_Some in Hl as [ms Hl]. rewrite Hl in Hm. apply Forall_app in Hm as [Hm _].
    destruct (reconcile_Ok _ _ Hre) as [[_ ->]|(lim & n & _ & _ & _ & ->)]; simpl; by rewrite Hl, removelast_last.
  - destruct (reconcile_Ok _ _ Hre) as [[_ ->]|(lim & n & _ & _ & _ & ->)]; done.
  - done.
  - unfold mark_aborted in Hab. inv_ok Hab. injection Hab as <-. simpl. split_and!; try done; constructor.
Qed.
End context.
Arguments TransactionContext : clear implicits.
Arguments action : clear implicits.

(** ** Theorems *)

Section theorems.
Context {V : Type} `{Schema V} (content : Z → bytes) (sha256 : bytes → bytes).

(** C26: a statement that is discarded leaves nothing of itself.  After a mark, whatever actions follow
    (nested statements settled or discarded, replaced page images, refused calls, an abort), discarding
    back to the mark, when it succeeds, restores every staged row, record, page image and proof, both
    partition sets, the byte accounting, the live pending references and the marks below; and it does
    succeed whenever the mark is the most recent unsettled one. *)
Theorem discarded_statement_restores (c : TransactionContext V) (id : Z) (l : list (action V)) :
  reached content sha256 c → fresh_for c (TakeMark id) →
  let '(mark, c1) := staging_mark c id in
  fresh_run content sha256 c1 l → TakeMark id ∉ l →
  let c2 := acts content sha256 c1 l in
  (∀ c', discard_since c2 mark = Ok c' → restored c c') ∧
  (snap_mark <$> last (staging_marks c2) = Some mark → is_ok (discard_since c2 mark) = true).
Proof.
  intros Hc Hf. destruct (staging_mark c id) as [mark c1] eqn:E. intros Hl Hid.
  assert (c1 = (staging_mark c id).2) as -> by (by rewrite E).
  assert (mark = (staging_mark c id).1) as -> by (by rewrite E).
  destruct (statement_top content sha256 c id l) as (Hr & Hm & Hs); try done; [by eapply reached_rows|by eapply reached_marks|].
  apply discard_restores; try done. by eapply reached_rows.
Qed.

(** C27: budgets hold for as long as a transaction lives.  However a context was reached, it never holds
    more rows than its row limit, and under a byte limit its accounting is at least what a recomputation
    from everything retained observes (rows, logical records, current page images and the older images
    that live marks keep) and at most the limit; so no revalidation of an active transaction refuses. *)
Theorem budgets_hold (c : TransactionContext V) :
  reached content sha256 c →
  (∀ m, max_transaction_rows c = Some m → zlen (row_intents c) <= m) ∧
  (∀ m, max_transaction_bytes c = Some m → ∃ observed,
     observed_bytes content (Some m) (row_intents c) (pending_records c) (page_images c) (staging_marks c) = Ok observed ∧
     observed <= staged_payload_bytes c <= m) ∧
  (state c = ACTIVE → is_ok (validate_budgets content c) = true).
Proof.
  intros Hc%reached_budget. destruct Hc as [_ [Hr Hb] _]. split_and!; [done..|].
  intros Ha. unfold validate_budgets, require_active, active. rewrite Ha. cbn [mbind result_bind].
  assert (∀ m, max_transaction_rows c = Some m → raise_if_over_budget "max_transaction_rows" (zlen (row_intents c)) m = Ok ()) as Hrows
    by (intros m Hm; apply over_budget_Ok; auto).
  assert (is_ok (reconcile_staged_payload_bytes content c) = true) as Hrec.
  { unfold reconcile_staged_payload_bytes. destruct (max_transaction_bytes c) as [m|]; [|done].
    destruct (Hb m eq_refl) as (n & -> & Hle). cbn [mbind result_bind]. by rewrite (proj2 (over_budget_Ok _ _ _ ())) by lia. }
  rewrite bool_decide_true by done. cbn [mbind result_bind].
  destruct (max_transaction_rows c) as [m|]; [|done]. by rewrite (Hrows m eq_refl).
Qed.

(** what a transaction has staged can always be settled.  For any rows that hold the physical rows
    its updates and deletes name (and no pending ones), the batch of a reached context reduces, the
    reduced batch leaves exactly the rows the staged intents leave one by one, and its inserts are
    distinct objects, which is what the endpoint planner asks for. *)
Theorem staged_batch_settles (c : TransactionContext V) (rows : gmap ref_key (RowState V)) :
  reached content sha256 c → knows_rows rows (row_intents c) →
  ∃ rs, reduce_row_intents (row_intents c) = Ok rs ∧
        live_rows (replay rows rs) = live_rows (replay rows (row_intents c)) ∧
        NoDup (omap insert_obj rs).
Proof.
  intros Hc%reached_rows Hk. pose proof (staged_replayable c rows Hc Hk) as Hr.
  destruct (reduced_replays rows _ Hr) as (Hred & _ & Hlive & _). exists (reduced (row_intents c)).
  split_and!; [done..|by eapply reduced_objects].
Qed.

(** An ended transaction is final.  Once a context is committed or aborted its state and commit
    number never change, its staged rows and records never grow, and every call that stages, validates
    or ends is the state error; and a context opened for reading stages nothing, ever. *)
Theorem ended_transaction_final (c : TransactionContext V) (l : list (action V)) :
  (state c ≠ ACTIVE →
     let c' := acts content sha256 c l in
     state c' = state c ∧ commit_csn c' = commit_csn c ∧
     row_intents c' `prefix_of` row_intents c ∧ pending_records c' `prefix_of` pending_records c ∧
     ∀ a, guarded a = true → perform content sha256 c' a = raise GrafxTransactionStateError "") ∧
  (reached content sha256 c → mode c = READ → wrote c = false).
Proof.
  split.
  - intros Hc. cbn zeta. unfold acts.
    assert (∀ c0, state c0 = state c ∧ commit_csn c0 = commit_csn c ∧ row_intents c0 `prefix_of` row_intents c ∧
      pending_records c0 `prefix_of` pending_records c →
      let c' := fold_left (act content sha256) l c0 in
      state c' = state c ∧ commit_csn c' = commit_csn c ∧ row_intents c' `prefix_of` row_intents c ∧
      pending_records c' `prefix_of` pending_records c) as Hrun.
    { induction l as [|a l IH]; intros c0 Hc0; simpl; [done|]. apply IH. unfold act.
      destruct (perform content sha256 c0 a) as [c1|e] eqn:E; [|done]. destruct Hc0 as (Hs & Hn & Hr & Hp).
      apply perform_effect, ended_step in E as (Hs' & Hn' & Hr' & Hp'); [|congruence].
      split_and!; [congruence|congruence|by etrans|by etrans]. }
    destruct (Hrun c) as (Hs & Hn & Hr & Hp); [done|]. split_and!; try done. intros a Ha. apply ended_refuses; [congruence|done].
  - intros Hc. assert (mode c = READ → stages_nothing c) as Hread.
    { apply (reached_invariant content sha256 (λ c, mode c = READ → stages_nothing c) c); [|intros c0 a c1 Hc0 _ He Hm|done].
      - intros. split_and!; done.
      - rewrite (effect_mode content sha256 _ _ _ He) in Hm. eapply read_step; [|done]. eauto. }
    intros Hm. destruct (Hread Hm) as (Hr & Hrec & Hi & Hw & _). unfold wrote. by rewrite Hr, Hrec, Hi, Hw, !bool_decide_true.
Qed.

End theorems.

(** ** A concrete schema, and the theorems at work *)

#[export] Instance sample_schema : Schema Z := {
  sizing_endpoint := 1;
  value_eqb := Z.eqb;
  tuple_length _ vs := Ok (9 * zlen vs);
  normalize_typed_assignments _ cells := Ok cells;
  label_length _ labels := Ok (zlen labels)
}.

Definition sample_content (image : Z) : bytes := zeros image.
Definition sample_digest (b : bytes) : bytes := take 4 b.

Definition sample_ref (oid token : Z) : PendingObj := MkPendingObj oid (PendingRowRef.Mk 7 3 token).
Definition sample_open : TransactionContext Z :=
  MkContext 7 WRITE (Snapshot.Mk 5) 0 ACTIVE 0 NO_CSN ∅ ∅ [] ∅ ∅ 99 (Some 10) (Some 10000) 0 [] (-1) ∅ None [] [].
Definition sample_prefix : list (action Z) := [
  StageInsert sample_node [Plain 1] None None 1;
  StagePage (str "heap.dat") 2 512 99;
  NoteWrite 5].
Definition sample_context : TransactionContext Z := acts sample_content sample_digest sample_open sample_prefix.

(** A statement with a nested one: it replaces a page, inserts an edge and deletes the node again. *)
Definition sample_statement : list (action Z) := [
  StageInsert sample_rel [Promise (sample_ref 1 (-1)); Plain 8; Plain 0] None None 2;
  StagePage (str "heap.dat") 2 513 99;
  TakeMark 51;
  StageUpdate sample_node (Pending (sample_ref 1 (-1))) [Plain 4] None;
  Settle (MkMark 51 2 0 1);
  StageDelete sample_node (Pending (sample_ref 1 (-1)));
  NoteRead 9].

Ltac decide_fresh :=
  repeat (split; [first [exact I | apply (bool_decide_unpack _); vm_compute; reflexivity]|]); exact I.

Lemma sample_reached : reached sample_content sample_digest sample_context.
Proof.
  exists 7, WRITE, (Snapshot.Mk 5), 0, 99, (Some 10), (Some 10000), sample_open, sample_prefix.
  split; [reflexivity|]. split; [decide_fresh|reflexivity].
Qed.

Lemma discarded_statement_restores_witness :
  let '(mark, c1) := staging_mark sample_context 50 in
  let c2 := acts sample_content sample_digest c1 sample_statement in
  zlen (row_intents c2) = 4 ∧ zlen (row_intents sample_context) = 1 ∧
  ∃ c', discard_since c2 mark = Ok c' ∧ restored sample_context c'.
Proof.
  pose proof (discarded_statement_restores sample_content sample_digest sample_context 50 sample_statement sample_reached) as H.
  cbn [staging_mark] in *. split; [by vm_compute|]. split; [by vm_compute|].
  destruct H as [Hr Hok]; [apply (bool_decide_unpack _); by vm_compute|decide_fresh| |].
  - unfold sample_statement. rewrite !not_elem_of_cons. split_and!; try discriminate. apply not_elem_of_nil.
  - specialize (Hok ltac:(by vm_compute)). cbn beta. destruct (discard_since _ _) as [c'|e]; [|discriminate Hok].
    exists c'. split; [done|by apply Hr].
Defined.

Lemma budgets_hold_witness :
  max_transaction_bytes sample_context = Some 10000 ∧ staged_payload_bytes sample_context = 521 ∧
  is_ok (validate_budgets sample_content sample_context) = true.
Proof.
  destruct (budgets_hold sample_content sample_digest sample_context sample_reached) as (_ & _ & H).
  split_and!; [by vm_compute|by vm_compute|apply H; by vm_compute].
Defined.

Lemma staged_batch_settles_witness :
  knows_rows (V := Z) ∅ (row_intents sample_context) ∧
  ∃ rs, reduce_row_intents (row_intents sample_context) = Ok rs ∧ NoDup (omap insert_obj rs).
Proof.
  assert (knows_rows (V := Z) ∅ (row_intents sample_context)) as Hk.
  { split; [intros p; apply lookup_empty|]. intros i r Hi. vm_compute in Hi.
    apply list_elem_of_singleton in Hi as ->. discriminate. }
  split; [done|]. destruct (staged_batch_settles sample_content sample_digest sample_context ∅ sample_reached Hk) as (rs & H1 & _ & H2).
  exists rs. exact (conj H1 H2).
Defined.

Lemma ended_transaction_final_witness :
  let c := act sample_content sample_digest sample_context (MarkCommitted 77) in
  state c = COMMITTED ∧ commit_csn (acts sample_content sample_digest c sample_statement) = 77.
Proof.
  destruct (ended_transaction_final sample_content sample_digest
    (act sample_content sample_digest sample_context (MarkCommitted 77)) sample_statement) as [H _].
  destruct H as (_ & Hn & _); [by vm_compute|]. split; [by vm_compute|]. rewrite Hn. by vm_compute.
Defined.
