(* ===== verification/WalScan.v ===== *)
(** How the log is read: the walk over the bytes of a segment, the sparse marks that let a read
    enter a segment part way, and the payload of the record that opens a segment.  The functions
    and generators of src/src/okto_grafx/engine/wal_manager.py that need no device.

    A generator is modelled by the list of what it yields within one segment; across segments it
    is driven by its consumer ([WalManager.walk]).  The clock's float is its 64-bit image.  The
    texts and samples of a failure are not modelled.

    The theorems: a scan of any bytes ends and accounts for every one of them; a scan of whole
    records yields them and nothing else, and the torn tail of a write shows as one failure. *)

From S2P Require Import Prelude Ids Layout Utf8 WalRecord Recovery.

(** ** Constants *)

Definition MAGIC_BYTES : bytes := le_pack 4 WAL_MAGIC.
Definition MIN_SEGMENT_BYTES : Z := 256.
Definition MAX_SEGMENT_READ_BYTES : Z := 1024 * 1024 * 1024.
Definition MAX_RESYNC_CANDIDATES : Z := 4096.
Definition RESYNC_CHECKSUM_BUDGET_FACTOR : Z := 2.
Definition LSN_INDEX_STRIDE_BYTES : Z := 4096.
Definition TOTAL_LENGTH_OFFSET : Z := 12.

(** ** The record that opens a segment *)

Module SegmentHeader.
Definition SEGMENT_HEADER : list field := [U 8; U 8; U 8].

Record t := Mk { number : Z; previous_last_lsn : Z; created_at_wall : Z }.

Definition encode (h : t) : result bytes :=
  struct_pack SEGMENT_HEADER (number h, (previous_last_lsn h, (created_at_wall h, ()))).

Definition decode (payload : bytes) : result t :=
  if zlen payload <? Z.of_nat (struct_size SEGMENT_HEADER)
  then raise_reason GrafxCorruptionDetected "short_segment_header"
  else
    fields ← struct_unpack_from SEGMENT_HEADER payload 0;
    let '(number, (previous, (created, _))) := fields in
    Ok (Mk number previous created).
End SegmentHeader.

(** ** Finding the next record after damage *)

(** [data.find(pattern, start)]. *)
Fixpoint bytes_start (pattern data : bytes) : bool :=
  match pattern, data with
  | [], _ => true
  | a :: pattern, b :: data => bool_decide (a = b) && bytes_start pattern data
  | _ :: _, [] => false
  end.

Fixpoint find_at (pattern data : bytes) (index : Z) : option Z :=
  if bytes_start pattern data then Some index
  else match data with [] => None | _ :: data => find_at pattern data (index + 1) end.

Definition find (pattern data : bytes) (start : Z) : option Z :=
  find_at pattern (drop (Z.to_nat start) data) start.

Definition declared_length (data : bytes) (offset : Z) : option Z :=
  if zlen data - offset <? WAL_HEADER_LENGTH then None
  else Some (le_unpack (slice data (offset + TOTAL_LENGTH_OFFSET) (offset + TOTAL_LENGTH_OFFSET + 4))).

(** The loop of [_next_record_offset] from one occurrence of the magic to the next. *)
Fixpoint next_candidate (fuel : nat) (data : bytes) (index : option Z) (candidates spent budget : Z)
    : option Z * Z * Z :=
  match index, fuel with
  | None, _ | _, O => (None, candidates, spent)
  | Some index, S fuel =>
      if MAX_RESYNC_CANDIDATES <=? candidates then (None, candidates, spent)
      else
        let following := find MAGIC_BYTES data (index + 1) in
        match declared_length data index with
        | None => next_candidate fuel data following candidates spent budget
        | Some declared =>
            if budget <? spent + declared then next_candidate fuel data following candidates spent budget
            else if ok (decode_record data index) then (Some index, candidates + 1, spent + declared)
            else next_candidate fuel data following (candidates + 1) (spent + declared) budget
        end
  end.

Definition next_record_offset (data : bytes) (start candidates spent budget : Z) : option Z * Z * Z :=
  next_candidate (S (length data)) data (find MAGIC_BYTES data start) candidates spent budget.

(** ** One segment of a walk

    What [_walk] yields for the bytes [data] of a segment read from byte [base], from byte
    [offset] on, and the sequence number it expects afterwards. *)

Definition fail_item (name : pystr) (offset : Z) (reason : FailureReason) (length : Z) (expected : Z) : ScanItem :=
  MkItem name offset None (Some (MkFailure reason name offset length expected)).
Definition record_item (name : pystr) (offset : Z) (r : WalRecord) : ScanItem :=
  MkItem name offset (Some r) None.

Section scan.
Context (name : pystr) (data : bytes) (base : Z).

Fixpoint scan_from (fuel : nat) (offset candidates spent : Z) (expected : option Z) : list ScanItem * option Z :=
  match fuel with
  | O => ([], expected)
  | S fuel =>
      if zlen data <=? offset - base then ([], expected)
      else
        let outcome := decode_record data (offset - base) in
        let left := zlen data - (offset - base) in
        let fail := fail_item name offset in
        match record outcome with
        | Some r =>
            let gap := match expected with
                       | Some e => if lsn r =? e then [] else [fail LSN_DISCONTINUITY left e]
                       | None => []
                       end in
            let '(items, e) := scan_from fuel (offset + consumed outcome) candidates spent (Some (lsn r + 1)) in
            (gap ++ record_item name offset r :: items, e)
        | None =>
            let why := default BAD_HEADER (reason outcome) in
            let wanted := default NO_LSN expected in
            if decide (why = TRUNCATED_TAIL) then ([fail why left wanted], expected)
            else if 0 <? consumed outcome then
              let '(items, e) := scan_from fuel (offset + consumed outcome) candidates spent expected in
              (fail why (consumed outcome) wanted :: items, e)
            else
              let '(following, candidates, spent) :=
                next_record_offset data (offset - base + 1) candidates spent
                  (zlen data * RESYNC_CHECKSUM_BUDGET_FACTOR) in
              let stop := default (zlen data) following in
              match following with
              | None => ([fail why (stop - (offset - base)) wanted], expected)
              | Some f =>
                  let '(items, e) := scan_from fuel (base + f) candidates spent expected in
                  (fail why (stop - (offset - base)) wanted :: items, e)
              end
        end
  end.

Definition scan_segment (expected : option Z) : list ScanItem * option Z :=
  scan_from (S (length data)) base 0 0 expected.
End scan.

(** ** Marks *)


Definition note_mark (marks : gmap pystr (list (Z * Z))) (name : pystr) (lsn offset : Z)
    : gmap pystr (list (Z * Z)) :=
  let kept := default [] (marks !! name) in
  match last kept with
  | Some (_, previous) =>
      if offset - previous <? LSN_INDEX_STRIDE_BYTES then <[name := kept]> marks
      else <[name := kept ++ [(lsn, offset)]]> marks
  | None => <[name := kept ++ [(lsn, offset)]]> marks
  end.

(** [bisect_right(marks, start, key=lambda mark: mark[0])]. *)
Fixpoint bisect_right (fuel : nat) (marks : list (Z * Z)) (start : Z) (lo hi : nat) : nat :=
  match fuel with
  | O => lo
  | S fuel =>
      if (lo <? hi)%nat then
        let mid := Nat.div (lo + hi) 2 in
        match marks !! mid with
        | Some (key, _) =>
            if start <? key then bisect_right fuel marks start lo mid
            else bisect_right fuel marks start (S mid) hi
        | None => lo
        end
      else lo
  end.

Definition mark_offset (marks : option (list (Z * Z))) (start : Z) : Z :=
  match marks with
  | None | Some [] => 0
  | Some marks =>
      match bisect_right (length marks) marks start 0 (length marks) with
      | O => 0
      | S position => match marks !! position with Some (_, offset) => offset | None => 0 end
      end
  end.

(** ** Lemmas: decoding does not see what is before or after a record *)

Lemma slice_drop {A} (l : list A) o a b : 0 <= o → 0 <= a → slice l (o + a) (o + b) = slice (drop (Z.to_nat o) l) a b.
Proof.
  intros Ho Ha. unfold slice. rewrite drop_drop. f_equal; [lia|]. f_equal. lia.
Qed.

Lemma zlen_drop {A} (l : list A) o : 0 <= o → o <= zlen l → zlen (drop (Z.to_nat o) l) = zlen l - o.
Proof. unfold zlen. rewrite length_drop. lia. Qed.

Lemma drop_drop_Z {A} (l : list A) a b : 0 <= a → 0 <= b →
  drop (Z.to_nat b) (drop (Z.to_nat a) l) = drop (Z.to_nat (a + b)) l.
Proof. intros. rewrite drop_drop. f_equal. lia. Qed.

Lemma drop_app_zlen {A} (l m : list A) n : n = zlen l → drop (Z.to_nat n) (l ++ m) = m.
Proof. intros ->. apply drop_app_length'. unfold zlen. lia. Qed.

Lemma slice_from {A} (l : list A) a b : 0 <= a → zlen l <= b → slice l a b = drop (Z.to_nat a) l.
Proof. intros. unfold slice. apply take_ge. rewrite length_drop. unfold zlen in *. lia. Qed.

Lemma decode_checked_drop data o (fields : fvals HEADER) : 0 <= o → struct_fits HEADER fields →
  let '(_, (_, (_, (h, (_, (total, (_, (_, (_, (dl, (_, _))))))))))) := fields in
  decode_checked data o fields = decode_checked (drop (Z.to_nat o) data) 0 fields.
Proof.
  intros Ho Hf. destruct fields as (k&v&t&h&f&total&l&e&x&dl&pl&[]).
  cbn [struct_fits field_fits fst snd HEADER] in Hf. unfold decode_checked.
  rewrite <-(Z.add_assoc o h dl), !Z.add_0_l, slice_drop by lia.
  replace (o + total - CHECKSUM_LENGTH) with (o + (total - CHECKSUM_LENGTH)) by lia.
  by rewrite slice_drop by lia.
Qed.

(** Decoding at an offset is decoding what is left from there. *)
Lemma decode_record_drop data o : 0 <= o → o <= zlen data →
  decode_record data o = decode_record (drop (Z.to_nat o) data) 0.
Proof.
  intros Ho Hl. unfold decode_record. rewrite (proj2 (Z.ltb_ge o 0)) by lia. cbn [Z.ltb Z.compare].
  rewrite !zlen_drop, Z.sub_0_r by lia.
  destruct (_ <=? 0); [done|]. destruct (_ <? WAL_HEADER_LENGTH); [done|].
  assert (struct_unpack_from HEADER (drop (Z.to_nat o) data) 0 = struct_unpack_from HEADER data o) as ->.
  { unfold struct_unpack_from. by rewrite zlen_drop, Z.sub_0_r by lia. }
  destruct (struct_unpack_from HEADER data o) as [fields|] eqn:E; [|done].
  apply (struct_unpack_from_Ok HEADER) in E as (Hf & _ & _); [|lia].
  pose proof (decode_checked_drop data o fields Ho Hf) as Hc.
  destruct fields as (k&v&t&h&f&total&l&e&x&dl&pl&[]).
  cbn [struct_fits field_fits fst snd HEADER] in Hf. rewrite Hc.
  destruct (negb (k =? WAL_MAGIC)); [done|]. destruct (negb (bool_decide _)) eqn:Hv; [done|].
  destruct (negb (h =? _)) eqn:Eh; [done|].
  destruct (negb (total =? _)) eqn:Et; [done|]. destruct (_ <? total); [done|].
  apply negb_false_iff, Z.eqb_eq in Et. apply negb_false_iff, Z.eqb_eq in Eh.
  apply negb_false_iff, bool_decide_eq_true in Hv.
  rewrite (proj1 (header_lengths_supported v) Hv) in Eh. cbn in Eh. unfold WAL_HEADER_LENGTH, CHECKSUM_LENGTH in *.
  replace (o + total - 4) with (o + (total - 4)) by lia. replace (0 + total - 4) with (total - 4) by lia.
  rewrite Z.add_0_l, slice_drop by lia.
  replace (slice data o (o + (total - 4))) with (slice (drop (Z.to_nat o) data) 0 (total - 4)); [done|].
  rewrite <-slice_drop by lia. by rewrite Z.add_0_r.
Qed.

Lemma decode_checked_app data more (fields : fvals HEADER) : struct_fits HEADER fields →
  let '(_, (_, (_, (h, (_, (total, (_, (_, (_, (dl, (pl, _))))))))))) := fields in
  total = h + dl + pl + CHECKSUM_LENGTH → total <= zlen data →
  decode_checked (data ++ more) 0 fields = decode_checked data 0 fields.
Proof.
  destruct fields as (k&v&t&h&f&total&l&e&x&dl&pl&[]). cbn [struct_fits field_fits fst snd HEADER].
  intros Hf Ht Hl. unfold decode_checked, CHECKSUM_LENGTH in *. by rewrite !slice_app_l by lia.
Qed.

(** A record that was read is at least as long as its header and checksum. *)
Lemma consumed_min data offset r : record (decode_record data offset) = Some r → 52 <= consumed (decode_record data offset).
Proof.
  destruct (decide (offset < 0)) as [Hneg|Hoff].
  { unfold decode_record. by rewrite (proj2 (Z.ltb_lt _ _)) by lia. }
  destruct (decode_record_decoded data offset) as
    [|?| |v t k h f total l e x dl pl Hver Hh Htot Hend Hk fields Hf Hhead Hcrc]; [done..|]. intros _.
  pose proof (decode_checked_cases data offset fields) as H. unfold fields in H at 1. cbv zeta in H. destruct H as (-> & _ & _).
  unfold fields in Hf. cbn [struct_fits field_fits fst snd HEADER] in Hf. unfold WAL_HEADER_LENGTH, CHECKSUM_LENGTH in *. lia.
Qed.

(** What follows has no say in how bytes decode, unless they end inside the record. *)
Lemma decode_record_prefix data more :
  decode_record (data ++ more) 0 = decode_record data 0 ∨
  record (decode_record data 0) = None ∧
  ∀ r, record (decode_record (data ++ more) 0) = Some r → zlen data < consumed (decode_record (data ++ more) 0).
Proof.
  assert (zlen data < 52 → record (decode_record data 0) = None ∧
    ∀ r, record (decode_record (data ++ more) 0) = Some r → zlen data < consumed (decode_record (data ++ more) 0)) as Hshort.
  { intros Hl. split; [|intros r Hr; apply consumed_min in Hr; lia]. destruct (record (decode_record data 0)) as [r|] eqn:E; [|done].
    apply consumed_min in E as Hm. apply decode_record_inv in E as (_ & _ & _ & ? & _). lia. }
  destruct (Z.ltb_spec (zlen data) 52) as [Hl|Hl]; [right; by apply Hshort|clear Hshort].
  unfold decode_record. cbn [Z.ltb Z.compare]. rewrite !Z.sub_0_r, zlen_app. pose proof (zlen_nonneg more).
  rewrite !(proj2 (Z.leb_gt _ 0)) by lia. unfold WAL_HEADER_LENGTH at 1 3. rewrite !(proj2 (Z.ltb_ge _ 48)) by lia.
  assert (struct_unpack_from HEADER (data ++ more) 0 = struct_unpack_from HEADER data 0) as ->.
  { unfold struct_unpack_from. rewrite zlen_app, !Z.sub_0_r. change (Z.of_nat (struct_size HEADER)) with 48.
    rewrite !(proj2 (Z.leb_le _ _)) by lia. cbn [Z.to_nat]. rewrite !drop_0. f_equal.
    assert (∀ fmt (a b : bytes), (struct_size fmt <= length a)%nat →
      unpack_prefix fmt (a ++ b) = unpack_prefix fmt a) as Hp.
    { induction fmt as [|g fmt IH]; intros a b Hs; cbn [unpack_prefix struct_size] in *; [done|].
      rewrite take_app_le, drop_app_le by lia. by rewrite IH by (rewrite length_drop; lia). }
    apply Hp. change (struct_size HEADER) with 48%nat. unfold zlen in *. lia. }
  destruct (struct_unpack_from HEADER data 0) as [fields|] eqn:E; [|by left].
  apply (struct_unpack_from_Ok HEADER) in E as (Hf & _ & _); [|lia].
  pose proof (decode_checked_app data more fields Hf) as Hc. pose proof (decode_checked_cases (data ++ more) 0 fields) as Hcases.
  destruct fields as (k&v&t&h&f&total&l&e&x&dl&pl&[]). cbn [struct_fits field_fits fst snd HEADER] in Hf. cbv zeta in Hcases.
  destruct (negb (k =? WAL_MAGIC)); [by left|]. destruct (negb (bool_decide _)) eqn:Hv; [by left|].
  destruct (negb (h =? _)) eqn:Eh; [by left|]. destruct (negb (total =? _)) eqn:Et; [by left|].
  apply negb_false_iff, Z.eqb_eq in Et, Eh. apply negb_false_iff, bool_decide_eq_true in Hv.
  rewrite (proj1 (header_lengths_supported v) Hv) in Eh. cbn in Eh. unfold WAL_HEADER_LENGTH, CHECKSUM_LENGTH in *.
  destruct (Z.ltb_spec (zlen data) total).
  - right. split; [done|]. intros r. destruct (_ <? total); [done|]. destruct (negb _); [done|]. intros _. by destruct Hcases as [-> _].
  - left. rewrite (proj2 (Z.ltb_ge _ _)) by lia. rewrite !slice_app_l by lia. destruct (negb _); [done|]. apply Hc; lia.
Qed.

Lemma decode_record_app data more r :
  record (decode_record data 0) = Some r → decode_record (data ++ more) 0 = decode_record data 0.
Proof. intros Hr. destruct (decode_record_prefix data more) as [?|[Hn _]]; [done|]. by rewrite Hn in Hr. Qed.

(** A record decodes as well from the bytes cut after it. *)
Lemma decode_record_take data n r k : decode_record data 0 = Outcome n (Some r) None true → n <= k →
  decode_record (take (Z.to_nat k) data) 0 = Outcome n (Some r) None true.
Proof.
  intros Hd Hk. destruct (decide (zlen data <= k)) as [Hge|Hlt].
  { by rewrite take_ge by (unfold zlen in *; lia). }
  destruct (decode_record_prefix (take (Z.to_nat k) data) (drop (Z.to_nat k) data)) as [E|[_ Hx]].
  - by rewrite <-E, take_drop.
  - rewrite take_drop, Hd in Hx. specialize (Hx r eq_refl). cbn in Hx.
    assert (0 < n) by (pose proof (consumed_min data 0 r) as Hm; rewrite Hd in Hm; specialize (Hm eq_refl); cbn in Hm; lia).
    unfold zlen in *. rewrite length_take in Hx. lia.
Qed.

(** The length a record was read over is the length it encodes to. *)
Lemma decoded_length data offset r : record (decode_record data offset) = Some r →
  encoded_length r = Ok (consumed (decode_record data offset)).
Proof.
  destruct (decide (offset < 0)) as [Hneg|Hoff].
  { unfold decode_record. by rewrite (proj2 (Z.ltb_lt _ _)) by lia. }
  destruct (decode_record_decoded data offset) as
    [|?| |v t k h f total l e x dl pl Hver Hh Htot Hend Hk fields Hf Hhead Hcrc]; [done..|].
  pose proof (decode_checked_cases data offset fields) as H. unfold fields in H at 1. cbv zeta in H.
  destruct H as (Hc & _ & Hr). intros Hrec. rewrite Hrec in Hr. destruct Hr as (s & -> & Hs & Hpi & _).
  unfold fields in Hf. cbn [struct_fits field_fits fst snd HEADER] in Hf. subst h.
  unfold WAL_HEADER_LENGTH, CHECKSUM_LENGTH in *. apply utf8_decode_inv in Hs.
  unfold encoded_length. cbn [format_version descriptor payload].
  rewrite (proj2 (header_length_of_Ok _ _) (conj Hver eq_refl)). cbn [mbind result_bind].
  erewrite (proj2 (encoded_descriptor_Ok (Mk _ _ s _ _ _ _ _) _)) by exact Hs. cbn [mbind result_bind]. rewrite Hc.
  rewrite !zlen_slice by lia. unfold WAL_HEADER_LENGTH, CHECKSUM_LENGTH. f_equal. lia.
Qed.

Lemma decoded_reason data offset : reason (decode_record data offset) ≠ Some LSN_DISCONTINUITY.
Proof.
  unfold decode_record, truncated, refused.
  repeat (case_match; [done|]). unfold decode_checked. repeat (case_match; try done).
Qed.

Lemma decoded_span data offset : reason (decode_record data offset) ≠ Some TRUNCATED_TAIL →
  consumed (decode_record data offset) = 0 ∨
  0 < consumed (decode_record data offset) ∧ offset + consumed (decode_record data offset) <= zlen data.
Proof.
  destruct (decode_record_decoded data offset) as
    [|why| |v t k h f total l e x dl pl Hver Hh Htot Hend Hk fields Hf Hhead Hcrc]; [done|by left|by left|].
  intros _. right. pose proof (decode_checked_cases data offset fields) as H. unfold fields in H at 1.
  cbv zeta in H. destruct H as (-> & _ & _). unfold fields in Hf.
  cbn [struct_fits field_fits fst snd HEADER] in Hf. unfold WAL_HEADER_LENGTH, CHECKSUM_LENGTH in *. lia.
Qed.

(** ** Lemmas: the search for the next record *)

Lemma find_at_bounds pattern data index i : pattern ≠ [] →
  find_at pattern data index = Some i → index <= i < index + zlen data.
Proof.
  intros Hp. revert index. induction data as [|b data IH]; intros index; cbn [find_at].
  - destruct (bytes_start pattern []) eqn:E; [|done]. by destruct pattern.
  - rewrite zlen_cons. pose proof (zlen_nonneg data).
    destruct (bytes_start _ _); [intros [= <-]; lia|]. intros ?%IH. lia.
Qed.

Lemma find_bounds data start i : 0 <= start → find MAGIC_BYTES data start = Some i → start <= i < zlen data.
Proof.
  unfold find. intros Hs H. apply find_at_bounds in H; [|done]. unfold zlen in *. rewrite length_drop in H. lia.
Qed.

Lemma next_candidate_Some fuel data index candidates spent budget i c s :
  next_candidate fuel data index candidates spent budget = (Some i, c, s) → (∀ j, index = Some j → 0 <= j) →
  ok (decode_record data i) = true ∧ ∃ j, index = Some j ∧ j <= i.
Proof.
  revert index candidates spent. induction fuel as [|fuel IH]; intros [j|] candidates spent; cbn [next_candidate]; try done.
  intros H Hj. specialize (Hj j eq_refl).
  assert (∀ cc ss, next_candidate fuel data (find MAGIC_BYTES data (j + 1)) cc ss budget = (Some i, c, s) →
    ok (decode_record data i) = true ∧ ∃ j0, Some j = Some j0 ∧ j0 <= i) as Hrec.
  { intros cc ss H'. apply IH in H' as [Hok (j' & Hf & Hle)].
    - apply find_bounds in Hf; [|lia]. split; [done|]. exists j. split; [done|lia].
    - intros j' Hf. apply find_bounds in Hf; lia. }
  destruct (_ <=? candidates); [done|].
  destruct (declared_length data j) as [declared|]; [|exact (Hrec _ _ H)].
  destruct (_ <? _); [exact (Hrec _ _ H)|]. destruct (ok (decode_record data j)) eqn:Hok; [|exact (Hrec _ _ H)].
  injection H as <- _ _. split; [done|]. by exists j.
Qed.

Lemma next_record_offset_Some data start candidates spent budget i c s : 0 <= start →
  next_record_offset data start candidates spent budget = (Some i, c, s) →
  start <= i < zlen data ∧ ok (decode_record data i) = true.
Proof.
  intros Hs H. unfold next_record_offset in H. apply next_candidate_Some in H as [Hok (j & Hf & Hle)].
  - apply find_bounds in Hf; [|done]. split; [|done]. split; [lia|].
    unfold ok in Hok. apply bool_decide_eq_true in Hok as [r Hr].
    apply decode_record_inv in Hr as (_ & _ & ? & ? & _). lia.
  - intros j Hf. apply find_bounds in Hf; lia.
Qed.

(** ** Every byte is accounted for

    [accounts data name base offset expected items]: the items tile the bytes of the segment from
    [offset] on.  A record stands where it decodes and carries the expected number, or right
    after a discontinuity that says which one was expected; anything else is a stretch of damage
    that starts where no record decodes and ends at the end of the bytes, past the declared
    length of an intact record this build cannot use, or at the next record. *)

Section accounts.
Context (name : pystr) (data : bytes) (base : Z).

Inductive accounts : Z → option Z → list ScanItem → Prop :=
  | acc_end offset e : zlen data <= offset - base → accounts offset e []
  | acc_record offset e r n items :
      decode_record data (offset - base) = Outcome n (Some r) None true →
      (∀ x, e = Some x → lsn r = x) →
      accounts (offset + n) (Some (lsn r + 1)) items →
      accounts offset e (record_item name offset r :: items)
  | acc_gap offset x r n items :
      decode_record data (offset - base) = Outcome n (Some r) None true → lsn r ≠ x →
      accounts (offset + n) (Some (lsn r + 1)) items →
      accounts offset (Some x)
        (fail_item name offset LSN_DISCONTINUITY (zlen data - (offset - base)) x :: record_item name offset r :: items)
  | acc_damage offset e why length items :
      record (decode_record data (offset - base)) = None →
      why = default BAD_HEADER (reason (decode_record data (offset - base))) → why ≠ LSN_DISCONTINUITY →
      0 < length → offset - base + length <= zlen data →
      offset - base + length = zlen data
      ∨ consumed (decode_record data (offset - base)) = length
        ∧ checked (decode_record data (offset - base)) = true
      ∨ is_Some (record (decode_record data (offset - base + length))) →
      accounts (offset + length) e items →
      accounts offset e (fail_item name offset why length (default NO_LSN e) :: items).

Lemma decode_record_eq offset r : record (decode_record data offset) = Some r →
  decode_record data offset = Outcome (consumed (decode_record data offset)) (Some r) None true.
Proof.
  unfold decode_record, truncated, refused. repeat (case_match; [done|]). unfold decode_checked.
  repeat (case_match; try done). cbn. by intros [= ->].
Qed.

Lemma scan_from_accounts fuel offset candidates spent expected :
  zlen data - (offset - base) < Z.of_nat fuel → 0 <= offset - base →
  accounts offset expected (scan_from name data base fuel offset candidates spent expected).1.
Proof.
  revert offset candidates spent expected. induction fuel as [|fuel IH]; intros offset candidates spent expected Hf Ho.
  { constructor. lia. }
  cbn [scan_from]. destruct (Z.leb_spec (zlen data) (offset - base)); [by constructor|].
  destruct (record _) as [r|] eqn:Hr.
  - pose proof (decode_record_inv _ _ _ Hr) as (_ & _ & Hpos & Hend & _). apply decode_record_eq in Hr as Heq.
    specialize (IH (offset + consumed (decode_record data (offset - base))) candidates spent (Some (lsn r + 1)) ltac:(lia) ltac:(lia)).
    destruct (scan_from _ _ _ _ _ _ _ _) as [items e]. cbn [fst] in *.
    destruct expected as [x|]; [|by eapply acc_record].
    destruct (Z.eqb_spec (lsn r) x) as [Hx|]; cbn [app].
    + eapply acc_record; [done| |done]. by intros ? [= <-].
    + by eapply acc_gap.
  - pose proof (decoded_reason data (offset - base)) as Hnr.
    assert (default BAD_HEADER (reason (decode_record data (offset - base))) ≠ LSN_DISCONTINUITY) as Hnd.
    { destruct (reason _) as [w|]; cbn; congruence. }
    case_decide as Ht.
    { apply acc_damage; [done..|lia|lia|left; lia|constructor; lia]. }
    pose proof (decode_record_not_taken _ _ Hr) as Hnt.
    destruct (Z.ltb_spec 0 (consumed (decode_record data (offset - base)))) as [Hc|Hc].
    + destruct (decoded_span data (offset - base)) as [?|[_ Hend]]; [by intros E; rewrite E in Ht|lia|].
      specialize (IH (offset + consumed (decode_record data (offset - base))) candidates spent expected ltac:(lia) ltac:(lia)).
      destruct (scan_from _ _ _ _ _ _ _ _) as [items e]. cbn [fst] in *.
      eapply acc_damage; [done..|lia| |done]. right. left. split; [done|].
      destruct Hnt as [?|[[E _]|?]]; [lia|by rewrite E in Ht|done].
    + destruct (next_record_offset _ _ _ _ _) as [[[f|] c] s] eqn:Hn; cbn [default].
      * apply next_record_offset_Some in Hn as [Hb Hok]; [|lia].
        assert (offset - base + 1 <= f < zlen data) by exact Hb.
        specialize (IH (base + f) c s expected ltac:(lia) ltac:(lia)).
        destruct (scan_from _ _ _ _ _ _ _ _) as [items e]. cbn [fst from_option] in *. unfold id.
        eapply acc_damage; [done..|lia|lia| |].
        -- right. right. replace (offset - base + (f - (offset - base))) with f by lia.
           unfold ok in Hok. by apply bool_decide_eq_true in Hok.
        -- by replace (offset + (f - (offset - base))) with (base + f) by lia.
      * cbn [fst from_option]. unfold id. apply acc_damage; [done..|lia|lia|left; lia|constructor; lia].
Qed.
End accounts.

(** ** Whole records *)

(** The records the bytes hold, end to end, with the length of each. *)
Inductive clean : bytes → list (Z * WalRecord) → Prop :=
  | clean_nil : clean [] []
  | clean_cons data n r rest : decode_record data 0 = Outcome n (Some r) None true →
      clean (drop (Z.to_nat n) data) rest → clean data ((n, r) :: rest).

Fixpoint contiguous (expected : option Z) (rs : list WalRecord) : Prop :=
  match rs with
  | [] => True
  | r :: rs => (∀ x, expected = Some x → lsn r = x) ∧ contiguous (Some (lsn r + 1)) rs
  end.

Fixpoint next_expected (expected : option Z) (rs : list WalRecord) : option Z :=
  match rs with [] => expected | r :: rs => next_expected (Some (lsn r + 1)) rs end.

(** The items of whole records that start at [offset]. *)
Fixpoint items_of (name : pystr) (offset : Z) (es : list (Z * WalRecord)) : list ScanItem :=
  match es with [] => [] | (n, r) :: es => record_item name offset r :: items_of name (offset + n) es end.

Definition span (es : list (Z * WalRecord)) : Z := foldr (λ e acc, e.1 + acc) 0 es.

Lemma span_app a b : span (a ++ b) = span a + span b.
Proof. induction a as [|[n r] a IH]; cbn [app span foldr fst]; [done|]. fold (span (a ++ b)) (span a). lia. Qed.

Lemma clean_head data n r : decode_record data 0 = Outcome n (Some r) None true → 0 < n <= zlen data.
Proof.
  intros H. pose proof (decode_record_inv data 0 r) as Hi. rewrite H in Hi. cbn in Hi.
  destruct (Hi eq_refl) as (_ & _ & ? & ? & _). lia.
Qed.

Lemma clean_span data es : clean data es → span es = zlen data.
Proof.
  induction 1 as [|data n r rest Hd Hc IH]; [done|]. cbn [span foldr fst]. fold (span rest).
  apply clean_head in Hd. rewrite IH, zlen_drop by lia. lia.
Qed.

Lemma clean_det data a b : clean data a → clean data b → a = b.
Proof.
  intros Ha. revert b. induction Ha as [|data n r rest Hd Hc IH]; intros b Hb.
  - destruct b as [|[n r] b]; [done|]. inversion Hb as [|? ? ? ? Hd Hc]; subst.
    apply clean_head in Hd. change (zlen (@nil byte)) with 0 in Hd. lia.
  - destruct b as [|[m q] b].
    + apply clean_span in Hb. apply clean_head in Hd. cbn in Hb. lia.
    + inversion Hb as [|data' n' r' rest' Hd' Hc']; subst.
      rewrite Hd in Hd'. injection Hd' as <- <-. f_equal. by apply IH.
Qed.

Lemma clean_app a b es fs : clean a es → clean b fs → clean (a ++ b) (es ++ fs).
Proof.
  intros Ha Hb. induction Ha as [|data n r rest Hd Hc IH]; [done|]. cbn [app]. pose proof (clean_head _ _ _ Hd).
  constructor.
  - rewrite (decode_record_app data b r) by (by rewrite Hd). done.
  - unfold zlen in *. rewrite drop_app_le by lia. done.
Qed.

Lemma clean_image r b : post_init r = Ok r → encode r = Ok b → clean b [(zlen b, r)].
Proof.
  intros Hp He. pose proof Hp as [_ [d Hv]]%record_post_init_Ok.
  pose proof (proj1 (encode_Ok r d b Hv) He) as [Hw ->].
  pose proof (decode_record_image r d [] [] Hv Hw) as Hd. rewrite app_nil_l, app_nil_r in Hd.
  econstructor; [exact Hd|]. rewrite drop_ge by (unfold zlen; lia). constructor.
Qed.

Lemma clean_nonneg data es fs : clean data (es ++ fs) → 0 <= span es.
Proof.
  revert data. induction es as [|[n r] es IH]; intros data; cbn [app span foldr fst]; [done|]. fold (span es).
  intros H. inversion H as [|? ? ? ? Hd Hc]; subst. apply clean_head in Hd. apply IH in Hc. lia.
Qed.

Lemma clean_drop data es fs : clean data (es ++ fs) → clean (drop (Z.to_nat (span es)) data) fs.
Proof.
  revert data. induction es as [|[n r] es IH]; intros data; cbn [app span foldr fst]; [by rewrite drop_0|].
  fold (span es). intros H. inversion H as [|? ? ? ? Hd Hc]; subst. apply IH in Hc as Hc'.
  pose proof (clean_head _ _ _ Hd). pose proof (clean_nonneg _ _ _ Hc).
  by rewrite drop_drop_Z in Hc' by lia.
Qed.

Lemma clean_length data es : clean data es → Z.of_nat (length es) <= zlen data.
Proof.
  induction 1 as [|data n r rest Hd Hc IH]; cbn [length]; [done|]. apply clean_head in Hd.
  rewrite zlen_drop in IH by lia. lia.
Qed.

(** A scan that stands at whole records yields them and goes on after them. *)
Lemma scan_from_prefix name data base es part rest : clean part es →
  ∀ fuel offset c s e, 0 <= offset - base → offset - base <= zlen data →
  drop (Z.to_nat (offset - base)) data = part ++ rest → (length es <= fuel)%nat → contiguous e es.*2 →
  scan_from name data base fuel offset c s e =
    let '(items, e') := scan_from name data base (fuel - length es) (offset + span es) c s (next_expected e es.*2) in
    (items_of name offset es ++ items, e').
Proof.
  intros Hc. induction Hc as [|part n r es Hd Hc IH]; intros fuel offset c s e Ho Hl Hdrop Hf Hcon.
  { cbn [length items_of next_expected fmap list_fmap span foldr app]. rewrite Nat.sub_0_r, Z.add_0_r.
    by destruct (scan_from _ _ _ _ _ _ _ _). }
  destruct fuel as [|fuel]; [cbn in Hf; lia|]. pose proof (clean_head _ _ _ Hd).
  assert (zlen (part ++ rest) = zlen data - (offset - base)) as Hlen by (rewrite <-Hdrop; apply zlen_drop; lia).
  rewrite zlen_app in Hlen. pose proof (zlen_nonneg rest).
  assert (decode_record data (offset - base) = Outcome n (Some r) None true) as Hdec.
  { rewrite decode_record_drop, Hdrop by lia. rewrite (decode_record_app part rest r) by (by rewrite Hd). done. }
  cbn [scan_from]. rewrite (proj2 (Z.leb_gt _ _)) by lia. rewrite Hdec. cbn [record consumed].
  change (((n, r) :: es).*2) with (r :: es.*2) in *. destruct Hcon as [Hexp Hcon].
  rewrite (IH fuel (offset + n) c s (Some (lsn r + 1))); [|lia|lia| |cbn in Hf; lia|done].
  - cbn [length next_expected span foldr fst items_of]. fold (span es). cbn [Nat.sub].
    replace (offset + n + span es) with (offset + (n + span es)) by lia.
    destruct (scan_from _ _ _ _ _ _ _ _) as [items e']. destruct e as [x|]; [|done].
    by rewrite (Hexp x eq_refl), Z.eqb_refl.
  - replace (offset + n - base) with (offset - base + n) by lia. rewrite <-drop_drop_Z, Hdrop by lia.
    unfold zlen in *. by rewrite drop_app_le by lia.
Qed.

Lemma scan_segment_clean name data base es e : clean data es → contiguous e es.*2 →
  scan_segment name data base e = (items_of name base es, next_expected e es.*2).
Proof.
  intros Hc Hcon. unfold scan_segment. pose proof (clean_length _ _ Hc). pose proof (clean_span _ _ Hc) as Hs.
  pose proof (zlen_nonneg data).
  rewrite (scan_from_prefix name data base es data []); try done; try lia.
  - destruct (S (length data) - length es)%nat as [|k] eqn:Hk; [unfold zlen in *; lia|].
    cbn [scan_from]. rewrite (proj2 (Z.leb_le _ _)) by lia. by rewrite app_nil_r.
  - rewrite Z.sub_diag, app_nil_r. cbn [Z.to_nat]. by rewrite drop_0.
  - unfold zlen in *. lia.
Qed.

(** ** Lemmas: marks *)

(** One more mark for a segment. *)
Definition note (kept : list (Z * Z)) (lsn offset : Z) : list (Z * Z) :=
  match last kept with
  | Some (_, previous) => if offset - previous <? LSN_INDEX_STRIDE_BYTES then kept else kept ++ [(lsn, offset)]
  | None => kept ++ [(lsn, offset)]
  end.

Lemma note_mark_note marks name l o :
  note_mark marks name l o = <[name := note (default [] (marks !! name)) l o]> marks.
Proof. unfold note_mark, note. repeat case_match; done. Qed.

Fixpoint notes (kept : list (Z * Z)) (offset : Z) (es : list (Z * WalRecord)) : list (Z * Z) :=
  match es with [] => kept | (n, r) :: es => notes (note kept (lsn r) offset) (offset + n) es end.

Lemma notes_app kept offset a b : notes kept offset (a ++ b) = notes (notes kept offset a) (offset + span a) b.
Proof.
  revert kept offset. induction a as [|[n r] a IH]; intros kept offset; cbn [app notes span foldr fst].
  - by rewrite Z.add_0_r.
  - fold (span a). rewrite IH. f_equal. lia.
Qed.

Lemma note_not_nil kept l o : note kept l o ≠ [].
Proof. unfold note. destruct (last kept) as [[? ?]|] eqn:E; [|by destruct kept]. case_match; [|by destruct kept]. by destruct kept. Qed.

Lemma notes_not_nil kept offset es : kept ≠ [] ∨ es ≠ [] → notes kept offset es ≠ [].
Proof.
  revert kept offset. induction es as [|[n r] es IH]; intros kept offset; cbn [notes]; [naive_solver|].
  intros _. apply IH. left. apply note_not_nil.
Qed.

(** Every mark is where a record with its number stands. *)
Definition boundary (es : list (Z * WalRecord)) (l o : Z) : Prop :=
  ∃ a n r b, es = a ++ (n, r) :: b ∧ span a = o ∧ lsn r = l.

Lemma notes_boundary es : ∀ before kept,
  (∀ l o, (l, o) ∈ kept → boundary (before ++ es) l o) →
  ∀ l o, (l, o) ∈ notes kept (span before) es → boundary (before ++ es) l o.
Proof.
  induction es as [|[n r] es IH]; intros before kept Hk l o; cbn [notes]; [apply Hk|].
  replace (span before + n) with (span (before ++ [(n, r)])) by (rewrite span_app; cbn; lia).
  intros H. replace (before ++ (n, r) :: es) with ((before ++ [(n, r)]) ++ es) in * by (by rewrite <-app_assoc).
  revert H. apply IH. intros l' o' H. unfold note in H.
  destruct (last kept) as [[? ?]|]; [case_match; [by apply Hk|]|];
    (apply elem_of_app in H as [H|H]; [by apply Hk|]; apply list_elem_of_singleton in H as [= -> ->];
     exists before, n, r, es; split_and!; [by rewrite <-app_assoc|done|done]).
Qed.

Lemma bisect_right_le fuel marks start lo hi p : (hi <= length marks)%nat →
  (lo = O ∨ ∃ l o, marks !! pred lo = Some (l, o) ∧ l <= start) →
  bisect_right fuel marks start lo hi = S p → ∃ l o, marks !! p = Some (l, o) ∧ l <= start.
Proof.
  revert lo hi. induction fuel as [|fuel IH]; intros lo hi Hhi Hlo; cbn [bisect_right].
  { intros ->. destruct Hlo as [?|Hlo]; [done|exact Hlo]. }
  destruct (Nat.ltb_spec lo hi) as [Hlt|]; [|intros ->; destruct Hlo as [?|Hlo]; [done|exact Hlo]].
  assert (Nat.div (lo + hi) 2 < hi)%nat by (apply Nat.Div0.div_lt_upper_bound; lia).
  destruct (marks !! Nat.div (lo + hi) 2) as [[l o]|] eqn:Hm.
  2:{ intros ->. destruct Hlo as [?|Hlo]; [done|exact Hlo]. }
  destruct (Z.ltb_spec start l).
  - apply IH; [lia|done].
  - apply IH; [done|]. right. exists l, o. by split.
Qed.

Lemma contiguous_lt rs : ∀ e x, contiguous e rs → (∀ y, e = Some y → x < y) → e ≠ None → Forall (λ r, x < lsn r) rs.
Proof.
  induction rs as [|r rs IH]; intros e x; cbn [contiguous]; [constructor|]. intros [H1 H2] Hx He.
  destruct e as [y|]; [|done]. specialize (H1 y eq_refl). specialize (Hx y eq_refl). constructor; [lia|].
  eapply IH; [done| |done]. intros ? [= <-]. lia.
Qed.

Lemma contiguous_app e a b : contiguous e (a ++ b) ↔ contiguous e a ∧ contiguous (next_expected e a) b.
Proof. revert e. induction a as [|r a IH]; intros e; cbn [app contiguous next_expected]; [naive_solver|]. rewrite IH. tauto. Qed.

Lemma next_expected_app e a b : next_expected e (a ++ b) = next_expected (next_expected e a) b.
Proof. revert e. induction a as [|r a IH]; intros e; cbn [app next_expected]; [done|]. apply IH. Qed.

Lemma contiguous_before e a r b : contiguous e (a ++ r :: b) → Forall (λ x, lsn x < lsn r) a.
Proof.
  revert e. induction a as [|y a IH]; intros e; [constructor|]. cbn [app contiguous]. intros [_ H].
  constructor; [|by eapply IH]. pose proof (contiguous_lt _ _ (lsn y) H) as Hl.
  rewrite Forall_app, Forall_cons in Hl. apply Hl; [|done]. intros ? [= <-]. lia.
Qed.

(** Entering a segment at the mark for [start] skips only smaller numbers. *)
Lemma mark_offset_skips es start e : contiguous e es.*2 →
  ∃ a b, es = a ++ b ∧ span a = mark_offset (Some (notes [] 0 es)) start ∧ Forall (λ x, lsn x.2 < start) a.
Proof.
  intros Hc. assert (∃ a b, es = a ++ b ∧ span a = 0 ∧ Forall (λ x, lsn x.2 < start) a) as Hnil by (by exists [], es).
  unfold mark_offset. destruct (notes [] 0 es) as [|m ms] eqn:Hn; [done|]. rewrite <-Hn.
  destruct (bisect_right _ _ _ _ _) as [|p] eqn:Hb; [done|].
  apply bisect_right_le in Hb as (l & o & Hp & Hle); [|done|by left]. rewrite Hp.
  apply list_elem_of_lookup_2 in Hp.
  destruct (notes_boundary es [] [] (λ l o H, False_ind _ (not_elem_of_nil _ H)) l o Hp) as (a & n & r & b & Heq & <- & <-).
  cbn [app] in Heq. subst es.
  exists a, ((n, r) :: b). split_and!; [done..|]. rewrite fmap_app in Hc. cbn [fmap list_fmap snd] in Hc.
  apply contiguous_before in Hc. rewrite Forall_fmap in Hc. eapply Forall_impl; [exact Hc|]. cbn. intros [? ?]. cbn. lia.
Qed.

(** ** Properties *)

(** C21: a scan ends and accounts for every byte.  Whatever the bytes of a segment are, the walk
    over them reaches their end, and its items tile them in order: records stand exactly where
    they decode, with the number that follows the one before or right after a discontinuity that
    names the one expected; every other stretch is reported once, starts where no record
    decodes, and ends at the end of the bytes, past an intact record this build cannot use, or
    where the next record decodes. *)
Theorem scan_accounts (name : pystr) (data : bytes) (base : Z) (expected : option Z) :
  accounts name data base base expected (scan_segment name data base expected).1.
Proof. unfold scan_segment. apply scan_from_accounts; unfold zlen; lia. Qed.

(** an interrupted batch is its whole records and one torn tail.  The bytes a writer leaves
    when it stores the images of some records and stops anywhere inside the image of the next
    one are scanned as exactly those records, each at its place, and, when anything of the next
    one is there, one truncated tail as long as what is there. *)
Theorem scan_torn_write (name : pystr) (rs : list WalRecord) (images : list bytes) (r : WalRecord)
    (b : bytes) (n : nat) (expected : option Z)
    (Hrs : Forall2 (λ r b, post_init r = Ok r ∧ encode r = Ok b) rs images)
    (Hr : post_init r = Ok r) (Hb : encode r = Ok b) (Hn : (n < length b)%nat)
    (Hlsn : contiguous expected rs) :
  let whole := concat images in
  scan_segment name (whole ++ take n b) 0 expected =
    (items_of name 0 (zip (zlen <$> images) rs) ++
       (if decide (n = O) then []
        else [fail_item name (zlen whole) TRUNCATED_TAIL (Z.of_nat n) (default NO_LSN (next_expected expected rs))]),
     next_expected expected rs).
Proof.
  cbv zeta. pose proof (zlen_nonneg (concat images)).
  assert (clean (concat images) (zip (zlen <$> images) rs) ∧ (zip (zlen <$> images) rs).*2 = rs) as [Hc Hsnd].
  { clear Hlsn. induction Hrs as [|x i rs images [Hx Hi] Hrs IH]; [split; [constructor|done]|].
    destruct IH as [IH1 IH2]; [apply zlen_nonneg|]. cbn [concat fmap list_fmap zip]. split.
    - apply (clean_app i _ [(zlen i, x)]); [by apply clean_image|done].
    - change (x :: (zip (zlen <$> images) rs).*2 = x :: rs). by rewrite IH2. }
  pose proof (clean_span _ _ Hc) as Hspan. pose proof (clean_length _ _ Hc) as Hlen.
  unfold scan_segment. assert (length (take n b) = n) as Htake by (rewrite length_take; lia).
  rewrite (scan_from_prefix name (concat images ++ take n b) 0 _ (concat images) (take n b) Hc); try done; try lia.
  - rewrite Hspan, Hsnd. destruct (S _ - _)%nat as [|fuel] eqn:Hf; [rewrite length_app in Hf; unfold zlen in *; lia|].
    cbn [scan_from]. rewrite zlen_app, Z.add_0_l, Z.sub_0_r.
    assert (zlen (take n b) = Z.of_nat n) as -> by (unfold zlen; lia). destruct (decide (n = O)).
    + rewrite (proj2 (Z.leb_le _ _)) by lia. done.
    + rewrite (proj2 (Z.leb_gt _ _)) by lia. rewrite (decode_record_torn r b _ n Hr Hb Hn).
      cbn [record reason default from_option]. unfold id. rewrite decide_True by done. repeat f_equal; lia.
  - rewrite zlen_app. unfold zlen. lia.
  - rewrite length_app. unfold zlen in *. lia.
  - by rewrite Hsnd.
Qed.

Lemma scan_torn_write_witness :
  let r1 := Mk 4 [Byte.x01] [] 7 1 3 0 1 in let r2 := Mk 5 [] [] 8 1 3 0 1 in
  ∃ b1 b2, encode r1 = Ok b1 ∧ encode r2 = Ok b2 ∧
    scan_segment (str "wal/a") (concat [b1] ++ take 20 b2) 0 (Some 7) =
      (items_of (str "wal/a") 0 (zip (zlen <$> [b1]) [r1]) ++
         [fail_item (str "wal/a") (zlen (concat [b1])) TRUNCATED_TAIL 20 8], Some 8).
Proof.
  intros r1 r2. destruct (encode r1) as [b1|] eqn:E1; [|vm_compute in E1; discriminate E1].
  destruct (encode r2) as [b2|] eqn:E2; [|vm_compute in E2; discriminate E2].
  exists b1, b2. split; [reflexivity|]. split; [reflexivity|].
  apply (scan_torn_write (str "wal/a") [r1] [b1] r2 b2 20 (Some 7)).
  - constructor; [by split|constructor].
  - reflexivity.
  - exact E2.
  - vm_compute in E2. injection E2 as <-. vm_compute. lia.
  - split; [by intros ? [= <-]|done].
Defined.

(** A record the search passes over: two headers before it that declare as many bytes as the file
    has use up the checksum budget, so the intact record after them is reported as damage. *)
Example resync_skips_record :
  let r := Mk 4 [Byte.x01] [] 7 1 3 0 1 in
  match encode r with
  | Ok image =>
      let total := 1 + 48 + 48 + zlen image in
      let decoy := MAGIC_BYTES ++ zeros 8 ++ le_pack 4 total ++ zeros 32 in
      let data := [Byte.xff] ++ decoy ++ decoy ++ image in
      record (decode_record data 97) = Some r ∧
      (scan_segment (str "wal/a") data 0 None).1 = [fail_item (str "wal/a") 0 BAD_MAGIC total NO_LSN]
  | Err _ => False
  end.
Proof. vm_compute. split; reflexivity. Qed.
