(* ===== verification/WalManager.v ===== *)
(** The log manager: src/src/okto_grafx/engine/wal_manager.py, class WalManager.

    A manager is a record; its methods are effectful code over a storage device and that record
    ([World]), so a failure keeps what was done before it.  The accounting of the log (its
    segments, marks, last number, newest epoch, damage, size and next segment number) is the
    record [Index].  A walk over several segments is driven by its consumer, which may stop it.
    Metrics are off, the canonical-record memo (a cache of a pure function) is left out, and the
    clock's answer is an argument.  Every corruption a device raises while a segment is read names
    that segment.

    The theorems about it are in WalTheorems. *)

From S2P Require Import Prelude Ids Layout Utf8 WalRecord Segment Recovery Storage WalScan.

(** ** State *)

Record Index := MkIndex {
  segments : list SegmentInfo;
  marks : gmap pystr (list (Z * Z));
  log_last_lsn : Z;
  max_epoch : Z;
  damage : option ScanFailure;
  total_bytes : Z;
  next_number : Z
}.

Record Wal := MkWal {
  directory : pystr;
  segment_bytes : Z;
  log_descriptor : pystr;
  opened : bool;
  indexed : bool;
  index : Index;
  append_uncertain : bool;
  unflushed : list pystr;
  tail_hold_depth : Z
}.

Definition with_index (i : Index) (w : Wal) : Wal :=
  MkWal (directory w) (segment_bytes w) (log_descriptor w) (opened w) (indexed w) i (append_uncertain w)
    (unflushed w) (tail_hold_depth w).
Definition with_unflushed (l : list pystr) (w : Wal) : Wal :=
  MkWal (directory w) (segment_bytes w) (log_descriptor w) (opened w) (indexed w) (index w) (append_uncertain w)
    l (tail_hold_depth w).
Definition with_uncertain (b : bool) (w : Wal) : Wal :=
  MkWal (directory w) (segment_bytes w) (log_descriptor w) (opened w) (indexed w) (index w) b (unflushed w)
    (tail_hold_depth w).
Definition with_hold (n : Z) (w : Wal) : Wal :=
  MkWal (directory w) (segment_bytes w) (log_descriptor w) (opened w) (indexed w) (index w) (append_uncertain w)
    (unflushed w) n.
(** What a survey or a pass leaves: open, and indexed or not. *)
Definition with_pass (is_indexed : bool) (i : Index) (l : list pystr) (w : Wal) : Wal :=
  MkWal (directory w) (segment_bytes w) (log_descriptor w) true is_indexed i (append_uncertain w) l (tail_hold_depth w).

Definition with_damage (f : option ScanFailure) (i : Index) : Index :=
  MkIndex (segments i) (marks i) (log_last_lsn i) (max_epoch i) f (total_bytes i) (next_number i).
Definition with_next_number (n : Z) (i : Index) : Index :=
  MkIndex (segments i) (marks i) (log_last_lsn i) (max_epoch i) (damage i) (total_bytes i) n.

Definition empty_index : Index := MkIndex [] ∅ NO_LSN 0 None 0 MIN_SEGMENT_NUMBER.

Definition validate_directory (directory : pystr) : result pystr :=
  if bool_decide (directory = []) then raise GrafxConfigurationError "directory"
  else if ends_with [47] directory || existsb (Z.eqb 92) directory || starts_with [47] directory
  then raise GrafxConfigurationError "directory"
  else Ok directory.

Definition validate_segment_bytes (segment_bytes : Z) : result Z :=
  if segment_bytes <? MIN_SEGMENT_BYTES then raise GrafxConfigurationError "segment_bytes"
  else if MAX_SEGMENT_READ_BYTES <? segment_bytes then raise GrafxConfigurationError "segment_bytes"
  else Ok segment_bytes.

Definition validate_descriptor (descriptor : pystr) : result pystr :=
  if bool_decide (descriptor = []) then raise GrafxConfigurationError "descriptor"
  else match utf8_encode descriptor with
       | Err _ => raise GrafxConfigurationError "descriptor"
       | Ok encoded => if MAX_DESCRIPTOR_BYTES <? zlen encoded then raise GrafxConfigurationError "descriptor"
                       else Ok descriptor
       end.

(** [WalManager.__init__]. *)
Definition make (directory : pystr) (segment_bytes : Z) (descriptor : pystr) : result Wal :=
  directory ← validate_directory directory;
  segment_bytes ← validate_segment_bytes segment_bytes;
  descriptor ← validate_descriptor descriptor;
  Ok (MkWal directory segment_bytes descriptor false false empty_index false [] 0).

Definition require_positive_limit (label : string) (value : Z) : result Z :=
  limit ← require_lsn label value;
  if limit =? 0 then raise GrafxConfigurationError label else Ok limit.

(** ** Consumers of a walk *)

Inductive verdict (S : Type) :=
  | More (s : S)
  | Halt (s : S)
  | Refuse (e : error).
Arguments More {S} s.
Arguments Halt {S} s.
Arguments Refuse {S} e.

Fixpoint consume {S} (f : S → ScanItem → verdict S) (s : S) (items : list ScanItem) : verdict S :=
  match items with
  | [] => More s
  | item :: items => match f s item with More s => consume f s items | v => v end
  end.

(** How a walk ended: it was exhausted or left, or reading the segment [name] raised. *)
Inductive ended (S : Type) :=
  | Finished (s : S)
  | Broken (s : S) (name : pystr) (e : error).
Arguments Finished {S} s.
Arguments Broken {S} s name e.

(** What a pass has counted: of each segment its first and last number and its records. *)
Record Tally := MkTally { first_seen : Z; last_seen : Z; count : Z }.
Definition no_tally : Tally := MkTally NO_LSN NO_LSN 0.

Record Pass := MkPass {
  tallies : gmap pystr Tally;
  p_marks : gmap pystr (list (Z * Z));
  p_last : Z;
  p_epoch : Z;
  p_damage : option ScanFailure
}.

Definition account_record (p : Pass) (item : ScanItem) (r : WalRecord) : Pass :=
  let t := default no_tally (tallies p !! item_segment item) in
  MkPass (<[item_segment item := MkTally (if first_seen t =? NO_LSN then lsn r else first_seen t) (lsn r) (count t + 1)]> (tallies p))
    (note_mark (p_marks p) (item_segment item) (lsn r) (item_offset item)) (lsn r)
    (if p_epoch p <? epoch r then epoch r else p_epoch p) (p_damage p).

(** The body of the loop of [_refresh_tail]; the one of [_index_pass] does nothing once there is
    damage, and goes on after damage when [stop] is false. *)
Definition account (stop : bool) (p : Pass) (item : ScanItem) : verdict Pass :=
  match item_failure item with
  | Some f =>
      let p := MkPass (tallies p) (p_marks p) (p_last p) (p_epoch p) (Some f) in
      if stop then Halt p else More p
  | None => match item_record item with Some r => More (account_record p item r) | None => More p end
  end.

Definition account_once (stop : bool) (p : Pass) (item : ScanItem) : verdict Pass :=
  if bool_decide (is_Some (p_damage p)) then More p else account stop p item.

(** A consumer that also keeps the items it is handed, for the caller of a generator. *)
Definition keeping {S} (f : S → ScanItem → verdict S) (s : S * list ScanItem) (item : ScanItem) : verdict (S * list ScanItem) :=
  match f s.1 item with
  | More s' => More (s', s.2 ++ [item])
  | Halt s' => Halt (s', s.2 ++ [item])
  | Refuse e => Refuse e
  end.

Definition size_in (sizes : gmap pystr Z) (n : pystr) : Z := default 0 (sizes !! n).

Definition info_of (sizes : gmap pystr Z) (tallies : gmap pystr Tally) (found : Z * pystr) : option SegmentInfo :=
  let size := size_in sizes found.2 in
  let t := default no_tally (tallies !! found.2) in
  if size =? 0 then None
  else Some (MkSegment found.1 found.2 (first_seen t) (last_seen t) size (count t)).

Definition sum_sizes (l : list SegmentInfo) : Z := foldr (λ s acc, size_bytes s + acc) 0 l.

Definition following_number (discovered : list (Z * pystr)) : Z :=
  match last discovered with Some (number, _) => number + 1 | None => MIN_SEGMENT_NUMBER end.

(** The accounting a pass over the discovered segments leaves. *)
Definition index_of_pass (discovered : list (Z * pystr)) (sizes : gmap pystr Z) (p : Pass) : Index :=
  let infos := omap (info_of sizes (tallies p)) discovered in
  MkIndex infos (p_marks p) (p_last p) (p_epoch p) (p_damage p) (sum_sizes infos) (following_number discovered).

Definition unreadable (p : Pass) (name : pystr) (size : Z) : ScanFailure :=
  MkFailure UNREADABLE_SEGMENT name 0 size (p_last p + 1).
Definition damaged_pass (p : Pass) (f : ScanFailure) : Pass :=
  MkPass (tallies p) (p_marks p) (p_last p) (p_epoch p) (Some f).

Definition tally_of (s : SegmentInfo) : Tally := MkTally (first_lsn s) (Segment.last_lsn s) (record_count s).
Definition known_segments (i : Index) : gmap pystr SegmentInfo := list_to_map ((λ s, (name s, s)) <$> segments i).
(** The entries of a map whose names are still there. *)
Definition still_named {A} (names : list pystr) (m : gmap pystr A) : gmap pystr A := filter (λ e, e.1 ∈ names) m.

(** A name that is new or whose size moved; a known name that lost bytes. *)
Definition is_changed (known : gmap pystr SegmentInfo) (sizes : gmap pystr Z) (n : pystr) : bool :=
  match known !! n with Some s => negb (size_in sizes n =? size_bytes s) | None => true end.
Definition has_shrunk (known : gmap pystr SegmentInfo) (sizes : gmap pystr Z) (n : pystr) : bool :=
  match known !! n with Some s => size_in sizes n <? size_bytes s | None => false end.

(** The failures a scan absorbs: [except (GrafxCorruptionDetected, GrafxSchemaVersionMismatch)]. *)
Definition absorbed (e : error) : bool :=
  bool_decide (err_class e ∈ [GrafxCorruptionDetected; GrafxSchemaVersionMismatch]).

Definition found_le (a b : Z * pystr) : Prop := a.1 <= b.1.
#[export] Instance found_le_dec : RelDecision found_le := λ a b, Z_le_dec a.1 b.1.

(** ** The manager over a device *)

Section manager.
Context {Dev : Type} `{StorageDevice Dev}.

Record World := MkWorld { dev : Dev; wal : Wal }.

Definition on_dev {A} (m : M Dev A) : M World A := λ w, let '(r, d) := m (dev w) in (r, MkWorld d (wal w)).
Definition get {A} (f : Wal → A) : M World A := gets (λ w, f (wal w)).
Definition update (f : Wal → Wal) : M World () := modify (λ w, MkWorld (dev w) (f (wal w))).
Definition fail {A} (e : error) : M World A := lift (Err e).

Definition require_open : M World () :=
  is_open ← get opened;
  if (is_open : bool) then mret () else lift (raise GrafxTransactionStateError "state").

Definition require_healthy : M World () :=
  i ← get index;
  uncertain ← get append_uncertain;
  match damage i with
  | Some f => fail (as_error f)
  | None => if (uncertain : bool) then lift (raise_reason GrafxCorruptionDetected "append_uncertain") else mret ()
  end.

Definition discover : M World (list (Z * pystr)) :=
  dir ← get directory;
  names ← on_dev (list_files (dir ++ [47]));
  mret (merge_sort found_le (omap (λ name, (λ number, (number, name)) <$> parse_segment_number dir name) names)).

Fixpoint sizes_of (names : list pystr) : M World (gmap pystr Z) :=
  match names with
  | [] => mret ∅
  | name :: names => n ← on_dev (log_size name); rest ← sizes_of names; mret (<[name := n]> rest)
  end.

Definition read_segment (name : pystr) (size base : Z) : M World bytes :=
  if MAX_SEGMENT_READ_BYTES <? size - base then lift (raise_reason GrafxCorruptionDetected "oversized_segment")
  else on_dev (read_log name base (size - base)).

(** [for item in self._walk(...)]. *)
Fixpoint walk {S} (f : S → ScanItem → verdict S) (names : list pystr) (sizes starts : gmap pystr Z)
    (expected : option Z) (s : S) : M World (ended S) :=
  match names with
  | [] => mret (Finished s)
  | name :: names =>
      let size := size_in sizes name in
      let base := size_in starts name in
      if size <=? base then walk f names sizes starts expected s
      else
        data ← attempt (read_segment name size base);
        match data with
        | Err e => mret (Broken s name e)
        | Ok data =>
            let '(items, expected) := scan_segment name data base expected in
            match consume f s items with
            | More s => walk f names sizes starts expected s
            | Halt s => mret (Finished s)
            | Refuse e => fail e
            end
        end
  end.

(** ** Opening and refreshing *)

Definition survey : M World () :=
  discovered ← discover;
  sizes ← sizes_of discovered.*2;
  let infos := omap (info_of sizes ∅) discovered in
  update (with_pass false (MkIndex infos ∅ NO_LSN 0 None (sum_sizes infos) (following_number discovered)) []).

Definition open_ : M World () := _ ← update (with_unflushed []); survey.

Definition index_pass (stop_at_damage : bool) : M World (list ScanItem) :=
  discovered ← discover;
  sizes ← sizes_of discovered.*2;
  let install p :=
    update (λ w, with_pass true (index_of_pass discovered sizes p)
                   (filter (λ name, is_Some (sizes !! name)) (unflushed w)) w) in
  outcome ← walk (keeping (account_once stop_at_damage)) discovered.*2 sizes ∅ None (MkPass ∅ ∅ NO_LSN 0 None, []);
  match outcome with
  | Finished (p, items) => _ ← install p; mret items
  | Broken (p, items) name e =>
      if stop_at_damage && absorbed e
      then _ ← install (damaged_pass p (unreadable p name (size_in sizes name))); mret items
      else fail e
  end.

Definition rebuild : M World () := _ ← index_pass true; mret ().

(** [_refresh_tail]; [None] declines a bounded refresh. *)
Definition refresh_tail (max_read_bytes : option Z) : M World (option Z) :=
  is_indexed ← get indexed;
  let full := match max_read_bytes with Some _ => mret None | None => _ ← rebuild; mret (Some 0) end in
  if negb is_indexed then full
  else
    discovered ← discover;
    i ← get index;
    let names := discovered.*2 in
    let cached := name <$> segments i in
    let known := known_segments i in
    unchanged ← match last (segments i) with
                | None => mret (bool_decide (names = []))
                | Some tail =>
                    if bool_decide (names = cached) then n ← on_dev (log_size (name tail)); mret (n =? size_bytes tail)
                    else mret false
                end;
    if (unchanged : bool) then mret (Some 0)
    else if match last cached with Some anchor => bool_decide (anchor ∉ names) | None => false end then full
    else
      sizes ← sizes_of names;
      let changed := filter (λ n, is_changed known sizes n = true) names in
      if bool_decide (is_Some (damage i)) && bool_decide (changed ≠ []) then full
      else
        unflushed ← get unflushed;
        let pending := filter (λ n, n ∈ names) unflushed in
        _ ← update (with_unflushed (pending ++ filter (λ n, n ∉ pending) changed));
        if existsb (has_shrunk known sizes) names then full
        else
          let starts := size_bytes <$> still_named names known in
          let planned := foldr (λ n acc, size_in sizes n - size_in starts n + acc) 0 names in
          if match max_read_bytes with Some limit => limit <? planned | None => false end then mret None
          else
            let p := MkPass (tally_of <$> still_named names known) (still_named names (marks i)) (log_last_lsn i)
                       (max_epoch i) (damage i) in
            let install p :=
              update (λ w, with_pass true (index_of_pass discovered sizes p)
                             (filter (λ name, is_Some (sizes !! name)) (WalManager.unflushed w)) w) in
            outcome ← walk (account true) names sizes starts
                        (if log_last_lsn i =? 0 then None else Some (log_last_lsn i + 1)) p;
            match outcome with
            | Finished p => _ ← install p; mret (Some planned)
            | Broken p name e =>
                if absorbed e
                then _ ← install (damaged_pass p (unreadable p name (size_in sizes name))); mret (Some planned)
                else fail e
            end.

Definition refresh : M World () := _ ← require_open; _ ← refresh_tail None; mret ().

Definition refresh_tail_if_needed (max_read_bytes : option Z) : M World (option Z) :=
  depth ← get tail_hold_depth;
  if depth =? 0 then refresh_tail max_read_bytes else mret (Some 0).

Definition refresh_if_open : M World () :=
  is_open ← get opened;
  if (is_open : bool) then _ ← refresh_tail_if_needed None; mret () else mret ().

(** [with self.hold_tail()]: what is done on the way in and on the way out. *)
Definition hold_tail_enter : M World () :=
  _ ← require_open;
  depth ← get tail_hold_depth;
  _ ← (if depth =? 0 then _ ← refresh_tail None; mret () else mret ());
  update (λ w, with_hold (tail_hold_depth w + 1) w).
Definition hold_tail_exit : M World () := update (λ w, with_hold (tail_hold_depth w - 1) w).

Definition last_lsn_ : M World Z := _ ← refresh_if_open; i ← get index; mret (log_last_lsn i).
Definition damage_ : M World (option ScanFailure) := _ ← refresh_if_open; i ← get index; mret (damage i).
Definition segments_ : M World (list SegmentInfo) := _ ← refresh_if_open; i ← get index; mret (segments i).
Definition total_bytes_ : M World Z := _ ← refresh_if_open; i ← get index; mret (total_bytes i).

(** ** Appending *)

(** [_canonical_record] of a record whose fields are exact. *)
Definition canonical_record (r : WalRecord) (descriptor : pystr) : result WalRecord :=
  _ ← post_init r;
  if bool_decide (descriptor = []) || negb (bool_decide (WalRecord.descriptor r = [])) then Ok r
  else with_descriptor r descriptor.

Definition validate_record (w : Wal) (r : WalRecord) : result WalRecord :=
  r ← canonical_record r (log_descriptor w);
  if negb (lsn r =? NO_LSN) then raise GrafxConfigurationError "lsn"
  else if negb (is_known_type r) then raise GrafxConfigurationError "record_type"
  else if epoch r <? max_epoch (index w) then raise GrafxStaleEpoch ""
  else Ok r.

Definition validate_batch (w : Wal) (records : list WalRecord) : result (list WalRecord) :=
  if bool_decide (records = []) then raise GrafxConfigurationError "records"
  else traverse (validate_record w) records.

Definition needs_roll (w : Wal) (body_length : Z) : bool :=
  match last (segments (index w)) with
  | None => true
  | Some tail => segment_bytes w <? size_bytes tail + body_length
  end.

(** [WalRecord(record_type=SEGMENT_HEADER, ...)], with the default format version. *)
Definition header_record (payload : bytes) (descriptor : pystr) (lsn epoch : Z) : result WalRecord :=
  post_init (WalRecord.Mk (record_type_value SEGMENT_HEADER) payload descriptor lsn epoch 0 0 WAL_LEGACY_FORMAT_VERSION).

Definition sum_lengths (batch : list WalRecord) : result Z :=
  lengths ← traverse encoded_length batch; Ok (foldr Z.add 0 lengths).

(** The batch, its length, whether it opens a segment, and the number of its last record. *)
Definition plan_batch (w : Wal) (records : list WalRecord) : result (list WalRecord * Z * bool * Z) :=
  batch ← validate_batch w records;
  body_length ← sum_lengths batch;
  let rolling := needs_roll w body_length in
  header_length ← (if rolling then
                     header ← header_record (zeros (Z.of_nat (struct_size SegmentHeader.SEGMENT_HEADER))) (log_descriptor w) NO_LSN 0;
                     encoded_length header
                   else Ok 0);
  let size_before := if rolling then 0
                     else match last (segments (index w)) with Some tail => size_bytes tail | None => 0 end in
  if MAX_SEGMENT_READ_BYTES <? size_before + header_length + body_length then raise GrafxConfigurationError "records"
  else
    let terminal := log_last_lsn (index w) + zlen batch + (if rolling then 1 else 0) in
    if PROVISIONAL_CSN <=? terminal then raise GrafxConfigurationError "last_lsn"
    else Ok (batch, body_length, rolling, terminal).

Definition planned_terminal_lsn (records : list WalRecord) : M World Z :=
  _ ← require_open;
  _ ← refresh_tail_if_needed None;
  _ ← require_healthy;
  w ← get id;
  plan ← lift (plan_batch w records);
  mret plan.2.

(** The records of a batch with their numbers, their images and where each lands. *)
Fixpoint stamp (batch : list WalRecord) (lsn cursor : Z) : result (list (WalRecord * bytes * Z)) :=
  match batch with
  | [] => Ok []
  | r :: batch =>
      r ← with_lsn r (lsn + 1);
      image ← encode r;
      rest ← stamp batch (lsn + 1) (cursor + zlen image);
      Ok ((r, image, cursor) :: rest)
  end.

Definition undo_append (name : pystr) (size_before : Z) (created : bool) : M World bool :=
  outcome ← attempt (
    current ← on_dev (log_size name);
    current ← (if size_before <? current then _ ← on_dev (truncate_log name size_before); on_dev (log_size name)
               else mret current);
    if negb (current =? size_before) then lift (raise_reason GrafxCorruptionDetected "unrepaired_append")
    else if created then
      _ ← on_dev (recycle name);
      update (λ w, with_index (with_next_number
        (Z.max (next_number (index w)) (default 0 (parse_segment_number (directory w) name)) + 1) (index w)) w)
    else mret ());
  match outcome with
  | Ok _ => mret true
  | Err _ =>
      _ ← update (λ w, with_uncertain true (with_index (with_damage
            (Some (MkFailure TRUNCATED_TAIL name size_before 0 (log_last_lsn (index w) + 1))) (index w)) w));
      mret false
  end.

(** The last segment after an append in place; the source reads [segments[-1]]. *)
Definition extend_tail (l : list SegmentInfo) (last_lsn size : Z) (records : Z) : list SegmentInfo :=
  match last l with
  | Some s => removelast l ++ [MkSegment (number s) (name s) (first_lsn s) last_lsn size (record_count s + records)]
  | None => l
  end.

Definition register_append (number : Z) (name : pystr) (size_before : Z) (blob : bytes) (stamped : list WalRecord)
    (rolling : bool) (placed : list (Z * Z)) (w : Wal) : Wal :=
  let i := index w in
  let size_after := size_before + zlen blob in
  let first := match stamped with r :: _ => lsn r | [] => 0 end in
  let final := match last stamped with Some r => lsn r | None => 0 end in
  let i := MkIndex
    (if rolling then segments i ++ [MkSegment number name (first - 1) final size_after (zlen stamped + 1)]
     else extend_tail (segments i) final size_after (zlen stamped))
    (foldl (λ m p, note_mark m name p.1 p.2) (marks i) placed)
    final
    (foldl (λ e r, if e <? epoch r then epoch r else e) (max_epoch i) stamped)
    (damage i) (total_bytes i + zlen blob)
    (if rolling then number + 1 else next_number i) in
  with_unflushed (if bool_decide (name ∈ unflushed w) then unflushed w else unflushed w ++ [name]) (with_index i w).

(** What a batch writes: the segment, its number, its size before, and the placed images, the
    header first when it rolls. *)
Record Batch := MkBatch {
  b_number : Z;
  b_name : pystr;
  b_size_before : Z;
  b_rolling : bool;
  b_header : option (WalRecord * bytes);
  b_stamped : list (WalRecord * bytes * Z)
}.

Definition prepare_batch (w : Wal) (wall : Z) (batch : list WalRecord) (rolling : bool) : result Batch :=
  let i := index w in
  if rolling then
    name ← segment_name (directory w) (next_number i);
    payload ← SegmentHeader.encode (SegmentHeader.Mk (next_number i) (log_last_lsn i) wall);
    header ← header_record payload (log_descriptor w) (log_last_lsn i + 1)
               (Z.max (max_epoch i) (foldr Z.max 0 (epoch <$> batch)));
    image ← encode header;
    stamped ← stamp batch (log_last_lsn i + 1) (zlen image);
    Ok (MkBatch (next_number i) name 0 true (Some (header, image)) stamped)
  else
    match last (segments i) with
    | None => raise IndexError ""
    | Some tail =>
        stamped ← stamp batch (log_last_lsn i) (size_bytes tail);
        Ok (MkBatch (number tail) (name tail) (size_bytes tail) false None stamped)
    end.

Definition batch_blob (b : Batch) : bytes :=
  match b_header b with Some (_, image) => image | None => [] end ++ concat ((λ s, s.1.2) <$> b_stamped b).
Definition batch_placed (b : Batch) : list (Z * Z) :=
  match b_header b with Some (header, _) => [(lsn header, 0)] | None => [] end
  ++ ((λ s, (lsn s.1.1, s.2)) <$> b_stamped b).

(** [append_many]; taking the append into the index cannot raise here. *)
Definition append_many (wall : Z) (records : list WalRecord) (expected_terminal_lsn : option Z) : M World Z :=
  _ ← require_open;
  _ ← refresh_tail_if_needed None;
  _ ← require_healthy;
  w ← get id;
  plan ← lift (plan_batch w records);
  let '(batch, _, rolling, terminal) := plan in
  _ ← match expected_terminal_lsn with
      | None => mret ()
      | Some expected =>
          expected ← lift (require_lsn "expected_terminal_lsn" expected);
          if negb (terminal =? expected) then lift (raise GrafxTransactionStateError "expected_terminal_lsn") else mret ()
      end;
  b ← lift (prepare_batch w wall batch rolling);
  written ← attempt (_ ← (if rolling then on_dev (create (b_name b) true) else mret ());
                     on_dev (append_log (b_name b) (batch_blob b)));
  match written with
  | Err e => _ ← undo_append (b_name b) (b_size_before b) rolling; fail e
  | Ok _ =>
      _ ← update (register_append (b_number b) (b_name b) (b_size_before b) (batch_blob b)
                    ((λ s, s.1.1) <$> b_stamped b) rolling (batch_placed b));
      mret (match last (b_stamped b) with Some (r, _, _) => lsn r | None => 0 end)
  end.

Definition append (wall : Z) (record : WalRecord) : M World Z := append_many wall [record] None.

(** ** Durability *)

Fixpoint flush (targets : list pystr) : M World () :=
  match targets with
  | [] => mret ()
  | name :: targets => _ ← on_dev (durable_barrier (Some name)); flush targets
  end.

Definition barrier : M World () :=
  _ ← require_open;
  targets ← get unflushed;
  if bool_decide (targets = []) then mret ()
  else _ ← flush targets; update (with_unflushed []).

Definition intersects (first through : Z) (s : SegmentInfo) : bool :=
  (first_lsn s <=? through) && (first <=? Segment.last_lsn s).

Definition force_barrier_range (first_lsn through_lsn : Z) : M World (list pystr) :=
  _ ← require_open;
  first ← lift (require_lsn "first_lsn" first_lsn);
  through ← lift (require_lsn "through_lsn" through_lsn);
  if first =? NO_LSN then lift (raise GrafxConfigurationError "first_lsn")
  else if through <? first then mret []
  else
    _ ← refresh_tail None;
    i ← get index;
    match damage i with
    | Some f => fail (as_error f)
    | None =>
        if log_last_lsn i <? through then lift (raise GrafxTransactionStateError "through_lsn")
        else
          let intersecting := filter (λ s, intersects first through s = true) (segments i) in
          match head intersecting, last intersecting with
          | Some low, Some high =>
              if (first <? Segment.first_lsn low) || (Segment.last_lsn high <? through)
              then lift (raise GrafxTransactionStateError "wal_range")
              else
                let targets := name <$> intersecting in
                _ ← flush targets;
                _ ← update (λ w, with_unflushed (filter (λ n, n ∉ targets) (unflushed w)) w);
                _ ← (if through =? log_last_lsn i then update (with_uncertain false) else mret ());
                mret targets
          | _, _ => lift (raise GrafxTransactionStateError "wal_range")
          end
    end.

(** ** Reading *)

(** [_read_plan]: once a segment is selected every later one is. *)
Fixpoint select_from (marks : gmap pystr (list (Z * Z))) (start : Z) (l : list SegmentInfo)
    : list pystr * gmap pystr Z :=
  match l with
  | [] => ([], ∅)
  | s :: rest =>
      if negb (Segment.last_lsn s =? NO_LSN) && (Segment.last_lsn s <? start) then select_from marks start rest
      else (name <$> l, {[ name s := mark_offset (marks !! name s) start ]})
  end.

Definition index_sizes (i : Index) : gmap pystr Z := list_to_map ((λ s, (name s, size_bytes s)) <$> segments i).

Definition read_plan (i : Index) (start : Z) : list pystr * gmap pystr Z * gmap pystr Z :=
  match damage i with
  | Some _ => (name <$> segments i, index_sizes i, ∅)
  | None => let '(names, starts) := select_from (marks i) start (segments i) in (names, index_sizes i, starts)
  end.

Definition read_consumer (start : Z) (out : list WalRecord) (item : ScanItem) : verdict (list WalRecord) :=
  match item_failure item with
  | Some f => Refuse (as_error f)
  | None => match item_record item with
            | Some r => More (if start <=? lsn r then out ++ [r] else out)
            | None => More out
            end
  end.

(** [read_from] driven by a consumer, which may stop before the end. *)
Definition reading_from {S} (f : S → ScanItem → verdict S) (s : S) (start : Z) : M World S :=
  _ ← require_open;
  start ← lift (require_lsn "lsn" start);
  _ ← refresh_tail_if_needed None;
  i ← get index;
  let '(names, sizes, starts) := read_plan i start in
  outcome ← walk f names sizes starts None s;
  match outcome with Finished out => mret out | Broken _ _ e => fail e end.

(** The records a consumer that exhausts [read_from] is handed. *)
Definition read_from (start : Z) : M World (list WalRecord) := reading_from (read_consumer start) [] start.

(** Where a bounded read stands: the records so far, or an answer. *)
Definition bounded_consumer (first through : Z) (st : Z * list WalRecord * option (option (list WalRecord)))
    (item : ScanItem) : verdict (Z * list WalRecord * option (option (list WalRecord))) :=
  let '(expected, out, answer) := st in
  match item_failure item with
  | Some f => Refuse (as_error f)
  | None =>
      match item_record item with
      | None => More st
      | Some r =>
          if lsn r <? first then More st
          else if negb (lsn r =? expected) then Halt (expected, out, Some None)
          else if lsn r =? through then Halt (expected, out, Some (Some (out ++ [r])))
          else More (expected + 1, out ++ [r], None)
      end
  end.

(** The names of a plan up to the segment that holds [through]. *)
Fixpoint names_through (known : gmap pystr SegmentInfo) (through : Z) (names : list pystr) : option (list pystr) :=
  match names with
  | [] => None
  | n :: names =>
      match known !! n with
      | None => None
      | Some s => if through <=? Segment.last_lsn s then Some [n]
                  else (λ rest, n :: rest) <$> names_through known through names
      end
  end.

Definition read_bounded (first_lsn through_lsn max_records max_bytes : Z) : M World (option (list WalRecord)) :=
  _ ← require_open;
  first ← lift (require_lsn "first_lsn" first_lsn);
  through ← lift (require_lsn "through_lsn" through_lsn);
  record_limit ← lift (require_positive_limit "max_records" max_records);
  byte_limit ← lift (require_positive_limit "max_bytes" max_bytes);
  if through <? first then lift (raise GrafxConfigurationError "through_lsn")
  else if record_limit <? through - first + 1 then mret None
  else
    refreshed ← refresh_tail_if_needed (Some byte_limit);
    match refreshed with
    | None => mret None
    | Some refreshed_bytes =>
        w ← get id;
        let i := index w in
        if bool_decide (is_Some (damage i)) || append_uncertain w then mret None
        else
          match head (segments i) with
          | None => mret None
          | Some low =>
              if log_last_lsn i <? through then mret None
              else if (Segment.first_lsn low =? NO_LSN) || (first <? Segment.first_lsn low) then mret None
              else
                let '(names, sizes, starts) := read_plan i first in
                match names_through (known_segments i) through names with
                | None => mret None
                | Some frozen =>
                    let planned := foldr (λ n acc, size_in sizes n - size_in starts n + acc) 0 frozen in
                    if byte_limit - refreshed_bytes <? planned then mret None
                    else
                      outcome ← walk (bounded_consumer first through) frozen (still_named frozen sizes)
                                  (still_named frozen starts) None (first, [], None);
                      match outcome with
                      | Finished (_, _, answer) => mret (default None answer)
                      | Broken _ _ e => fail e
                      end
                end
          end
    end.

Definition collect (out : list ScanItem) (item : ScanItem) : verdict (list ScanItem) := More (out ++ [item]).

(** [_walk_registered] driven by a consumer. *)
Definition walk_registered {S} (f : S → ScanItem → verdict S) (s : S) : M World (ended S) :=
  i ← get index;
  walk f (name <$> segments i) (index_sizes i) ∅ None s.

(** The items a consumer that exhausts [scan_all] is handed. *)
Definition scan_all : M World (list ScanItem) :=
  _ ← require_open;
  is_indexed ← get indexed;
  if negb is_indexed then index_pass false
  else
    _ ← refresh_tail_if_needed None;
    outcome ← walk_registered collect [];
    match outcome with Finished items => mret items | Broken _ _ e => fail e end.

(** ** Repair *)

Record TruncationReport := MkTruncation {
  t_last_lsn : Z;
  removed_records : Z;
  removed_bytes : Z;
  truncated_segment : option pystr;
  removed_segments : list pystr;
  deferred_segments : list pystr;
  completed : bool
}.

(** The end of a walk whose corruption ends it like its last item. *)
Definition settle {S} (outcome : ended S) : M World S :=
  match outcome with
  | Finished s => mret s
  | Broken s _ e => if absorbed e then mret s else fail e
  end.

Definition cut_consumer (target : Z) (cut : option (pystr * Z)) (item : ScanItem) : verdict (option (pystr * Z)) :=
  match item_failure item, item_record item with
  | None, Some r =>
      if target <? lsn r then Halt cut
      else match encoded_length r with
           | Ok n => More (Some (item_segment item, item_offset item + n))
           | Err e => Refuse e
           end
  | _, _ => Halt cut
  end.

Definition find_cut (target : Z) : M World (option (pystr * Z)) :=
  outcome ← walk_registered (cut_consumer target) None; settle outcome.

Definition count_records : M World Z :=
  outcome ← walk_registered (λ n item, More (if bool_decide (is_Some (item_record item)) then n + 1 else n)) 0;
  settle outcome.

(** The segments after the one of the cut; all of them when there is no cut. *)
Fixpoint after_name (cut : option pystr) (l : list SegmentInfo) : option (list SegmentInfo) :=
  match l with
  | [] => None
  | s :: l => if bool_decide (cut = Some (name s)) then Some l else after_name cut l
  end.

Definition reserve_empty_segment : M World pystr :=
  w ← get id;
  name ← lift (segment_name (directory w) (next_number (index w)));
  _ ← on_dev (create name true);
  _ ← update (λ w, with_index (with_next_number (next_number (index w) + 1) (index w)) w);
  _ ← flush [name];
  mret name.

Definition roll_cut_segment (cut_name : pystr) (cut_offset : Z) : M World (pystr * bool * bool) :=
  surviving ← on_dev (read_log cut_name 0 cut_offset);
  w ← get id;
  name ← lift (segment_name (directory w) (next_number (index w)));
  _ ← on_dev (create name true);
  _ ← on_dev (append_log name surviving);
  _ ← update (λ w, with_index (with_next_number (next_number (index w) + 1) (index w)) w);
  _ ← flush [name];
  released ← on_dev (recycle cut_name);
  gone ← (if (released : bool) then mret true else there ← on_dev (exists_ cut_name); mret (negb there));
  mret (name, gone, negb released).

(** What a truncation has removed and deferred so far. *)
Record Removal := MkRemoval { removed : list pystr; deferred : list pystr; bytes_removed : Z; going : bool }.

Fixpoint remove_doomed (empties : bool) (doomed : list SegmentInfo) (st : Removal) : M World Removal :=
  match doomed with
  | [] => mret st
  | s :: doomed =>
      _ ← (if empties && bool_decide (doomed = []) then _ ← reserve_empty_segment; mret () else mret ());
      released ← on_dev (recycle (name s));
      gone ← (if (released : bool) then mret true else there ← on_dev (exists_ (name s)); mret (negb there));
      if (gone : bool) then
        remove_doomed empties doomed
          (MkRemoval (removed st ++ [name s]) (if (released : bool) then deferred st else deferred st ++ [name s])
             (bytes_removed st + size_bytes s) true)
      else mret (MkRemoval (removed st) (deferred st ++ [name s]) (bytes_removed st) false)
  end.

Definition truncate_after (lsn : Z) : M World TruncationReport :=
  _ ← require_open;
  target ← lift (require_lsn "lsn" lsn);
  _ ← refresh_tail None;
  cut ← find_cut target;
  before_count ← count_records;
  i ← get index;
  let cut_name := fst <$> cut in
  let doomed := reverse (default (segments i) (after_name cut_name (segments i))) in
  st ← remove_doomed (bool_decide (cut_name = None) && negb (bool_decide (doomed = []))) doomed (MkRemoval [] [] 0 true);
  cut_done ← match cut with
             | Some (cut_name, cut_offset) =>
                 if going st then
                   current ← on_dev (log_size cut_name);
                   if cut_offset <? current then
                     rolled ← roll_cut_segment cut_name cut_offset;
                     let '(fresh, gone, was_deferred) := rolled in
                     mret (Some fresh,
                       if (gone : bool) then
                         MkRemoval (removed st ++ [cut_name]) (if (was_deferred : bool) then deferred st ++ [cut_name] else deferred st)
                           (bytes_removed st + (current - cut_offset)) true
                       else MkRemoval (removed st) (deferred st ++ [cut_name]) (bytes_removed st) false)
                   else mret (None, st)
                 else mret (None, st)
             | None => mret (None, st)
             end;
  let '(truncated, st) := cut_done in
  _ ← (if negb (bool_decide (removed st = [])) || bool_decide (is_Some truncated) then
         _ ← update (λ w, with_unflushed (filter (λ n, n ∉ removed st) (unflushed w)) w);
         _ ← barrier;
         rebuild
       else mret ());
  after_count ← count_records;
  i ← get index;
  _ ← (if going st && negb (bool_decide (is_Some (damage i))) then update (with_uncertain false) else mret ());
  mret (MkTruncation (log_last_lsn i) (before_count - after_count) (bytes_removed st) truncated (reverse (removed st))
          (deferred st) (going st)).

(** ** Reclamation *)

Record RecycleReport := MkRecycle {
  r_horizon_lsn : Z;
  r_recycled : list pystr;
  r_deferred : list pystr;
  r_retained : list pystr;
  r_reclaimed_bytes : Z;
  r_lag_segments : Z
}.

(** The loop over the recyclable prefix: what was recycled and deferred, the bytes reclaimed and
    how many segments went. *)
Fixpoint release (l : list SegmentInfo) (recycled deferred : list pystr) (reclaimed : Z) (dropped : nat)
    : M World (list pystr * list pystr * Z * nat) :=
  match l with
  | [] => mret (recycled, deferred, reclaimed, dropped)
  | s :: l =>
      released ← on_dev (recycle (name s));
      if (released : bool) then release l (recycled ++ [name s]) deferred (reclaimed + size_bytes s) (S dropped)
      else
        there ← on_dev (exists_ (name s));
        if (there : bool) then mret (recycled, deferred ++ [name s], reclaimed, dropped)
        else release l recycled (deferred ++ [name s]) reclaimed (S dropped)
  end.

Definition recycle_ (horizon_lsn : Z) : M World RecycleReport :=
  _ ← require_open;
  _ ← refresh_tail_if_needed None;
  i ← get index;
  match damage i with
  | Some f =>
      if refuses_recovery (failure_reason f) then fail (as_error f) else mret ()
  | None => mret ()
  end ≫= λ _,
  horizon ← lift (require_lsn "horizon_lsn" horizon_lsn);
  count ← lift (recyclable_prefix (segments i) horizon);
  outcome ← release (take (Z.to_nat count) (segments i)) [] [] 0 0;
  let '(recycled, deferred, reclaimed, dropped) := outcome in
  let surviving := drop dropped (segments i) in
  let kept := name <$> surviving in
  let gone := filter (λ n, n ∉ kept) (recycled ++ deferred) in
  _ ← update (λ w, with_unflushed (filter (λ n, n ∉ gone) (unflushed w))
                     (with_index (MkIndex surviving (still_named kept (marks i)) (log_last_lsn i) (max_epoch i) (damage i)
                                    (sum_sizes surviving) (next_number i)) w));
  mret (MkRecycle horizon recycled deferred kept reclaimed (Z.max (zlen surviving - 1) 0)).

End manager.
