(* ===== verification/WalTrail.v ===== *)
(** The calls the log manager's code makes of its device.

    [trails m]: the device [m] leaves came from the one it was given by calls of the port, whatever
    it did in between.  [unread] is what a walk that stopped at a segment has seen: the segment is
    too long to be read, or the device, on its way, answered the read of it with a corruption.  So
    a theorem can say which reads failed in the very run it speaks of. *)

From S2P Require Import Prelude Ids Layout Utf8 WalRecord Segment Recovery Storage WalScan WalManager.

Lemma reaches_refl {Dev} `{StorageDevice Dev} (d : Dev) : reaches d d.
Proof. apply rtc_refl. Qed.

Lemma reaches_trans {Dev} `{StorageDevice Dev} (d d1 d2 : Dev) : reaches d d1 → reaches d1 d2 → reaches d d2.
Proof. unfold reaches. intros H1 H2. induction H1; [done|]. eapply rtc_l; [done|auto]. Qed.

Lemma reaches_call {Dev} `{StorageDevice Dev} (d d' : Dev) : called d d' → reaches d d'.
Proof. apply rtc_once. Qed.

#[export] Hint Resolve reaches_refl reaches_call : core.

(** ** Code that reaches its device by calls *)

Section trails.
Context {Dev : Type} {SD : StorageDevice Dev}.
#[local] Abbreviation World := (@WalManager.World Dev).

Definition trails {A} (m : M World A) : Prop := ∀ w, reaches (dev w) (dev (m w).2).

Lemma trails_ret {A} (a : A) : trails (mret a).
Proof. intros w. cbn. apply reaches_refl. Qed.
Lemma trails_get {A} (f : Wal → A) : trails (get f).
Proof. intros w. cbn. apply reaches_refl. Qed.
Lemma trails_update f : trails (update f).
Proof. intros w. cbn. apply reaches_refl. Qed.
Lemma trails_lift {A} (r : result A) : trails (lift r).
Proof. intros w. cbn. apply reaches_refl. Qed.

Lemma trails_bind {A B} (m : M World A) (k : A → M World B) : trails m → (∀ a, trails (k a)) → trails (m ≫= k).
Proof.
  intros Hm Hk w. unfold mbind, m_bind. specialize (Hm w). destruct (m w) as [[a|e] w']; cbn in *; [|done].
  eapply reaches_trans; [exact Hm|apply Hk].
Qed.

Lemma trails_attempt {A} (m : M World A) : trails m → trails (attempt m).
Proof. intros Hm w. unfold attempt. specialize (Hm w). by destruct (m w) as [r w']. Qed.

Lemma trails_on_dev {A} (op : M Dev A) : (∀ d, called d (op d).2) → trails (on_dev op).
Proof. intros Hop w. unfold on_dev. specialize (Hop (dev w)). destruct (op (dev w)) as [r d]. by apply reaches_call. Qed.
End trails.

Create HintDb trails discriminated.
#[export] Hint Resolve trails_ret trails_get trails_update trails_lift : trails.
#[export] Hint Extern 2 (trails (on_dev _)) => apply trails_on_dev; intros ?; constructor : trails.

(** One step into a piece of code. *)
Ltac trail :=
  cbv zeta;
  repeat first
    [ solve [auto with trails]
    | apply trails_attempt
    | apply trails_bind; [|intros ?; cbv zeta]
    | case_match ].

Section code.
Context {Dev : Type} {SD : StorageDevice Dev}.
#[local] Abbreviation World := (@WalManager.World Dev).

Lemma trails_require_open : trails (Dev := Dev) require_open.
Proof. unfold require_open. trail. Qed.
Lemma trails_fail {A} e : trails (Dev := Dev) (A := A) (fail e).
Proof. unfold fail. trail. Qed.
#[local] Hint Resolve trails_require_open trails_fail : trails.

Lemma trails_discover : trails (Dev := Dev) discover.
Proof. unfold discover. trail. Qed.
Lemma trails_sizes names : trails (Dev := Dev) (sizes_of names).
Proof. induction names as [|n names IH]; cbn [sizes_of]; trail. Qed.
Lemma trails_read_segment n size base : trails (Dev := Dev) (read_segment n size base).
Proof. unfold read_segment. trail. Qed.
#[local] Hint Resolve trails_discover trails_sizes trails_read_segment : trails.

Lemma trails_walk {S} (f : S → ScanItem → verdict S) names sizes starts e s : trails (Dev := Dev) (walk f names sizes starts e s).
Proof. revert e s. induction names as [|n names IH]; intros e s; cbn [walk]; trail. Qed.
#[local] Hint Resolve trails_walk : trails.

Lemma trails_index_pass stop : trails (Dev := Dev) (index_pass stop).
Proof. unfold index_pass. trail. Qed.
#[local] Hint Resolve trails_index_pass : trails.
Lemma trails_rebuild : trails (Dev := Dev) rebuild.
Proof. unfold rebuild. trail. Qed.
#[local] Hint Resolve trails_rebuild : trails.
Lemma trails_refresh limit : trails (Dev := Dev) (refresh_tail limit).
Proof. unfold refresh_tail. trail. Qed.

Lemma trails_walk_registered {S} (f : S → ScanItem → verdict S) s : trails (Dev := Dev) (walk_registered f s).
Proof. unfold walk_registered. trail. Qed.
Lemma trails_settle {S} (o : ended S) : trails (Dev := Dev) (settle o).
Proof. unfold settle. trail. Qed.
#[local] Hint Resolve trails_walk_registered trails_settle : trails.
Lemma trails_find_cut t : trails (Dev := Dev) (find_cut t).
Proof. unfold find_cut. trail. Qed.
Lemma trails_count_records : trails (Dev := Dev) count_records.
Proof. unfold count_records. trail. Qed.
Lemma trails_flush l : trails (Dev := Dev) (flush l).
Proof. induction l as [|n l IH]; cbn [flush]; trail. Qed.
#[local] Hint Resolve trails_flush : trails.
Lemma trails_barrier : trails (Dev := Dev) barrier.
Proof. unfold barrier. trail. Qed.
Lemma trails_reserve : trails (Dev := Dev) reserve_empty_segment.
Proof. unfold reserve_empty_segment. trail. Qed.
#[local] Hint Resolve trails_reserve : trails.
Lemma trails_roll n o : trails (Dev := Dev) (roll_cut_segment n o).
Proof. unfold roll_cut_segment. trail. Qed.
Lemma trails_remove empties doomed st : trails (Dev := Dev) (remove_doomed empties doomed st).
Proof. revert st. induction doomed as [|s doomed IH]; intros st; cbn [remove_doomed]; trail. Qed.
End code.

#[export] Hint Resolve trails_require_open trails_fail trails_discover trails_sizes trails_read_segment trails_walk
  trails_index_pass trails_rebuild trails_refresh trails_walk_registered trails_settle trails_find_cut trails_count_records trails_flush
  trails_barrier trails_reserve trails_roll trails_remove : trails.

(** ** Why a walk stopped *)

Section blame.
Context {Dev : Type} {SD : StorageDevice Dev} {SL : StorageLaws Dev}.
#[local] Abbreviation World := (@WalManager.World Dev).

(** Between [d0] and [d] the bytes [base] to [size] of the file were not to be had. *)
Definition unread (d0 : Dev) (name : pystr) (size base : Z) (d : Dev) : Prop :=
  MAX_SEGMENT_READ_BYTES < size - base ∨
  ∃ d1 e d2, reaches d0 d1 ∧ files d1 = files d0 ∧ read_log name base (size - base) d1 = (Err e, d2) ∧ absorbed e = true ∧ reaches d2 d.

Lemma unread_from d d0 name size base d' : reaches d d0 → files d0 = files d → unread d0 name size base d' → unread d name size base d'.
Proof.
  intros Hr Hf [?|(d1 & e & d2 & H1 & H2 & H)]; [by left|right]. exists d1, e, d2. split; [by eapply reaches_trans|]. split; [congruence|done].
Qed.

Lemma unread_to d0 name size base d d' : unread d0 name size base d → reaches d d' → unread d0 name size base d'.
Proof.
  intros [?|(d1 & e & d2 & H1 & H2 & H3 & H4 & H5)] Hr; [by left|right]. exists d1, e, d2. split_and!; [done..|by eapply reaches_trans].
Qed.

Lemma walk_blame {S} (f : S → ScanItem → verdict S) names sizes starts e s (w : World) :
  match walk f names sizes starts e s w with
  | (Ok (Broken _ n err), w') => n ∈ names ∧ (absorbed err = true → unread (dev w) n (size_in sizes n) (size_in starts n) (dev w'))
  | _ => True
  end.
Proof.
  revert e s w. induction names as [|n names IH]; intros e s w; cbn [walk]; [done|].
  assert (∀ e s (w1 : World), reaches (dev w) (dev w1) → files (dev w1) = files (dev w) → match walk f names sizes starts e s w1 with
    | (Ok (Broken _ n' err), w') => n' ∈ n :: names ∧ (absorbed err = true → unread (dev w) n' (size_in sizes n') (size_in starts n') (dev w'))
    | _ => True end) as Hrest.
  { intros e1 s1 w1 Hr Hf. specialize (IH e1 s1 w1). destruct (walk f names sizes starts e1 s1 w1) as [[[s'|s' n' err]|err] w']; [done| |done].
    destruct IH as [Hn Hu]. split; [by right|]. intros Ha. eapply unread_from; [done..|by apply Hu]. }
  destruct (_ <=? _); [by apply Hrest|]. unfold mbind at 1, m_bind at 1, attempt, read_segment.
  destruct (Z.ltb_spec MAX_SEGMENT_READ_BYTES (size_in sizes n - size_in starts n)) as [Hbig|_].
  { cbn. split; [by left|]. intros _. by left. }
  unfold on_dev. pose proof (read_log_law n (size_in starts n) (size_in sizes n - size_in starts n) (dev w)) as [_ Hlaw].
  destruct (read_log n (size_in starts n) (size_in sizes n - size_in starts n) (dev w)) as [[data|err] d] eqn:Er.
  - destruct Hlaw as [[Hf _] _]. destruct (scan_segment n data (size_in starts n) e) as [items e'].
    destruct (consume f s items) as [s'|s'|err]; [|done|done]. apply Hrest; cbn; [|done].
    replace d with (read_log n (size_in starts n) (size_in sizes n - size_in starts n) (dev w)).2 by (by rewrite Er). apply reaches_call. constructor.
  - cbn. split; [by left|]. intros Ha. right. exists (dev w), err, d. split_and!; [apply reaches_refl|done|exact Er|done|apply reaches_refl].
Qed.
End blame.
