(* ===== verification/WalTheorems.v ===== *)
(** What the log manager promises: the theorems about WalManager.

    A log is a list of segments, each with the records its bytes hold; [holds] says that the files
    of a device are such a log, [tracks] that a manager's accounting is the one of a log. *)

From S2P Require Import Prelude Ids Layout Utf8 WalRecord Segment Recovery Storage WalScan WalManager WalTrail.

(** ** Rules for code over a device *)

Section rules.
Context {Dev : Type} {SD : StorageDevice Dev} {SL : StorageLaws Dev} {LL : LogLaws Dev}.
#[local] Abbreviation World := (@WalManager.World Dev).
Implicit Types (w : World) (F : gmap pystr bytes) (R : pystr → option bytes → Prop) (W : Wal).

(** The device holds the files [F], a loss of power may bring back [R], the manager is [W]. *)
Definition at_ F R W w : Prop := files (dev w) = F ∧ recoverable (dev w) = R ∧ wal w = W.

Lemma bind_at {A B} (m : M World A) (k : A → M World B) φ P F R W (Q : B → World → Prop) (E E' : World → Prop) :
  spec P m (λ a w, φ a ∧ at_ F R W w) E' → (∀ w, E' w → E w) →
  (∀ a, φ a → spec (at_ F R W) (k a) Q E) → spec P (m ≫= k) Q E.
Proof.
  intros Hm HE Hk. eapply spec_bind.
  - eapply spec_weaken; [exact Hm|done|intros a w Ha; exact Ha|exact HE].
  - intros a. apply spec_fact. apply Hk.
Qed.

Lemma get_at {A} (f : Wal → A) F R W E : spec (at_ F R W) (get f) (λ a w, a = f W ∧ at_ F R W w) E.
Proof. intros w (HF & HR & HW). cbn. by rewrite HW. Qed.

Lemma update_at f F R W E : spec (at_ F R W) (update f) (λ a w, a = () ∧ at_ F R (f W) w) E.
Proof. intros w (HF & HR & HW). cbn. unfold at_. cbn. by rewrite HW. Qed.

Lemma lift_at {A} (r : result A) F R W :
  spec (at_ F R W) (lift r) (λ a w, r = Ok a ∧ at_ F R W w) (at_ F R W).
Proof. intros w Hw. unfold lift. destruct r; auto. Qed.

Lemma ret_at {A} (a : A) F R W E : spec (at_ F R W) (mret a) (λ x w, x = a ∧ at_ F R W w) E.
Proof. intros w Hw. by split. Qed.

(** A device operation that changes nothing. *)
Lemma reading_at {A} (op : M Dev A) (φ : gmap pystr bytes → A → Prop) F R W :
  effect op (λ d a d', untouched d d' ∧ φ (files d) a) untouched →
  spec (at_ F R W) (on_dev op) (λ a w, φ F a ∧ at_ F R W w) (at_ F R W).
Proof.
  intros Hop w (HF & HR & HW). unfold on_dev. destruct (Hop (dev w)) as [_ H].
  destruct (op (dev w)) as [[a|e] d]; cbn in *.
  - destruct H as [[HF' HR'] Hφ]. rewrite HF in Hφ. split; [done|]. unfold at_. cbn. split_and!; congruence.
  - destruct H as [HF' HR']. unfold at_. cbn. split_and!; congruence.
Qed.

(** A device operation that may change one file. *)
Lemma changing_at {A} (op : M Dev A) Q E F R W :
  effect op Q E →
  spec (at_ F R W) (on_dev op)
    (λ a w, ∃ d, files d = F ∧ recoverable d = R ∧ wal w = W ∧ Q d a (dev w))
    (λ w, ∃ d, files d = F ∧ recoverable d = R ∧ wal w = W ∧ E d (dev w)).
Proof.
  intros Hop w (HF & HR & HW). unfold on_dev. destruct (Hop (dev w)) as [_ H].
  destruct (op (dev w)) as [[a|e] d]; cbn in *; exists (dev w); by rewrite HW.
Qed.

(** Any state is described by itself. *)
Lemma spec_here {A : Type} (P : World → Prop) (m : M World A) Q (E : World → Prop) :
  (∀ w, P w → spec (at_ (files (dev w)) (recoverable (dev w)) (wal w)) m Q E) → spec P m Q E.
Proof. intros H w Hw. by apply (H w Hw). Qed.

(** The device came from [d0], which held the same files. *)
Definition from_ (d0 : Dev) F R W w : Prop := at_ F R W w ∧ reaches d0 (dev w) ∧ files d0 = F.

Lemma spec_from {A} (m : M World A) d0 F R W (Q : A → World → Prop) (E : World → Prop) : trails m → spec (at_ F R W) m Q E →
  spec (from_ d0 F R W) m (λ a w, Q a w ∧ reaches d0 (dev w) ∧ files d0 = F) (λ w, E w ∧ reaches d0 (dev w) ∧ files d0 = F).
Proof.
  intros Ht Hm w (Hw & Hr & Hf). specialize (Hm w Hw). specialize (Ht w). destruct (m w) as [[a|e] w']; cbn in *.
  - split; [done|]. split; [by eapply reaches_trans|done].
  - split; [done|]. split; [by eapply reaches_trans|done].
Qed.

Lemma bind_from {A B} (m : M World A) (k : A → M World B) φ d0 F R W W' (Q : B → World → Prop) (E E' : World → Prop) : trails m →
  spec (at_ F R W) m (λ a w, φ a ∧ at_ F R W' w) E' → (∀ w, E' w → E w) →
  (∀ a, φ a → spec (from_ d0 F R W') (k a) Q E) → spec (from_ d0 F R W) (m ≫= k) Q E.
Proof.
  intros Ht Hm HE Hk. eapply spec_bind.
  - eapply spec_weaken; [apply (spec_from m d0 F R W _ _ Ht Hm)|done|intros a w H; exact H|intros w [H _]; by apply HE].
  - intros a w ([Hφ Hw] & Hr & Hf). by apply (Hk a Hφ).
Qed.

(** What is known of a run, and that its device came from the one it began on. *)
Lemma spec_then {A} (m : M World A) F R W (w0 : World) (Q Q' : A → World → Prop) (E E' : World → Prop) : at_ F R W w0 → trails m →
  spec (at_ F R W) m Q E → (∀ a w, Q a w → reaches (dev w0) (dev w) → Q' a w) → (∀ w, E w → reaches (dev w0) (dev w) → E' w) →
  match m w0 with (Ok a, w) => Q' a w | (Err _, w) => E' w end.
Proof.
  intros Hw Ht Hm HQ HE. specialize (Hm w0 Hw). specialize (Ht w0). destruct (m w0) as [[a|e] w]; cbn in *; auto.
Qed.

Lemma from_start d0 F R W (w : World) : at_ F R W w ∧ dev w = d0 → from_ d0 F R W w.
Proof. intros [Hw <-]. split; [done|]. split; [apply reaches_refl|by destruct Hw]. Qed.

Lemma from_here (w : World) : from_ (dev w) (files (dev w)) (recoverable (dev w)) (wal w) w.
Proof. by split_and!. Qed.

(** ** The small operations *)

Definition is_segment (dir : pystr) F (n : Z) (f : pystr) : Prop :=
  is_Some (F !! f) ∧ parse_segment_number dir f = Some n.

(** The segment files of a directory, oldest first. *)
Record discovered (dir : pystr) F (l : list (Z * pystr)) : Prop := {
  disc_mem n f : (n, f) ∈ l ↔ is_segment dir F n f;
  disc_sorted : StronglySorted (λ a b, a.1 < b.1) l
}.

Lemma parse_injective dir f g n :
  parse_segment_number dir f = Some n → parse_segment_number dir g = Some n → f = g.
Proof. intros (_ & _ & ->)%parse_segment_number_inv (_ & _ & ->)%parse_segment_number_inv. done. Qed.

Lemma parse_starts dir f n : parse_segment_number dir f = Some n → starts_with (dir ++ [47]) f = true.
Proof. intros (_ & _ & ->)%parse_segment_number_inv. rewrite app_assoc. apply starts_with_app. Qed.

Lemma strongly_sorted_lt {A} (f : A → Z) l :
  StronglySorted (λ a b, f a <= f b) l → NoDup (f <$> l) → StronglySorted (λ a b, f a < f b) l.
Proof.
  induction l as [|x l IH]; intros Hs Hn; [constructor|]. apply StronglySorted_inv in Hs as [Hs Hx].
  cbn in Hn. apply NoDup_cons in Hn as [Hx' Hn]. constructor; [by apply IH|].
  rewrite Forall_forall in *. intros y Hy. specialize (Hx y Hy).
  assert (f x ≠ f y); [|lia]. intros E. apply Hx'. rewrite E. by apply list_elem_of_fmap_2.
Qed.

Lemma discover_at F R W :
  spec (at_ F R W) discover (λ l w, discovered (directory W) F l ∧ at_ F R W w) (at_ F R W).
Proof.
  unfold discover. eapply bind_at; [apply get_at|done|]. intros dir ->.
  eapply bind_at; [apply (reading_at _ (λ F names, NoDup names ∧ ∀ f, f ∈ names ↔ is_Some (F !! f) ∧ starts_with (directory W ++ [47]) f = true));
    apply list_files_law|done|].
  intros names [Hnd Hmem]. intros w Hw. split; [|done].
  set (g := λ name, (λ number, (number, name)) <$> parse_segment_number (directory W) name).
  assert (∀ n f, (n, f) ∈ omap g names ↔ is_segment (directory W) F n f) as Hel.
  { intros n f. unfold is_segment. rewrite list_elem_of_omap. unfold g. split.
    - intros (x & Hx%Hmem & (m & Hm & [= -> ->])%fmap_Some). by split; [apply Hx|].
    - intros [Hf Hp]. exists f. split; [|by rewrite Hp]. apply Hmem. split; [done|by eapply parse_starts]. }
  assert (NoDup (fst <$> omap g names)) as Hnd1.
  { clear Hel Hmem. induction names as [|x names IH]; [constructor|]. apply NoDup_cons in Hnd as [Hx Hnd].
    cbn [omap list_omap]. destruct (g x) as [[n f]|] eqn:Hg; [|by apply IH]. cbn. apply NoDup_cons. split; [|by apply IH].
    intros ([m y] & Hm & (z & Hz & Hgz)%list_elem_of_omap)%list_elem_of_fmap. cbn in Hm. subst m.
    unfold g in Hg, Hgz. apply fmap_Some in Hg as (n' & Hn' & [= -> ->]). apply fmap_Some in Hgz as (m' & Hm' & [= -> ->]).
    by rewrite (parse_injective _ _ _ _ Hn' Hm') in Hx. }
  constructor.
  - intros n f. rewrite merge_sort_Permutation. apply Hel.
  - apply strongly_sorted_lt; [|by rewrite merge_sort_Permutation].
    assert (Transitive found_le) by (intros a b c; unfold found_le; lia).
    assert (Total found_le) by (intros a b; unfold found_le; lia).
    apply (StronglySorted_merge_sort found_le).
Qed.

(** The sizes of the named files. *)
Definition sizes_are F (names : list pystr) (sizes : gmap pystr Z) : Prop :=
  ∀ n, match sizes !! n with
       | Some z => n ∈ names ∧ ∃ c, F !! n = Some c ∧ z = zlen c
       | None => n ∉ names
       end.

Lemma sizes_at F R W names :
  spec (at_ F R W) (sizes_of names) (λ sizes w, sizes_are F names sizes ∧ at_ F R W w) (at_ F R W).
Proof.
  induction names as [|n names IH]; cbn [sizes_of].
  - intros w Hw. split; [|done]. intros n. rewrite lookup_empty. apply not_elem_of_nil.
  - eapply bind_at; [apply (reading_at _ (λ F z, ∃ c, F !! n = Some c ∧ z = zlen c)); apply log_size_law|done|].
    intros z Hz. eapply bind_at; [exact IH|done|]. intros rest Hrest w Hw. split; [|done]. intros x.
    destruct (decide (x = n)) as [->|Hne].
    + rewrite lookup_insert_eq. by split; [left|].
    + rewrite lookup_insert_ne by done. specialize (Hrest x).
      destruct (rest !! x) as [y|]; [destruct Hrest; split; [by right|done]|].
      intros [?|?]%elem_of_cons; done.
Qed.

Lemma size_in_are F names sizes n : sizes_are F names sizes → n ∈ names → ∃ c, F !! n = Some c ∧ size_in sizes n = zlen c.
Proof. intros H Hn. specialize (H n). unfold size_in. destruct (sizes !! n); [naive_solver|done]. Qed.

Lemma read_segment_at F R W name size base :
  spec (at_ F R W) (read_segment name size base)
    (λ data w, (∃ c, F !! name = Some c ∧ 0 <= base ∧ data = slice c base size) ∧ at_ F R W w) (at_ F R W).
Proof.
  unfold read_segment. case_match.
  - intros w Hw. done.
  - eapply spec_weaken; [apply (reading_at _ (λ F data, ∃ c, F !! name = Some c ∧ 0 <= base ∧ 0 <= size - base ∧
      data = slice c base (base + (size - base)))); apply read_log_law|done| |done].
    intros data w [(c & Hc & Hb & Hs & ->) Hw]. split; [|done]. exists c. split_and!; [done..|]. f_equal. lia.
Qed.
End rules.

(** ** Logs *)

Record Seg := MkSeg { s_number : Z; s_name : pystr; s_entries : list (Z * WalRecord) }.

Definition seg_records (s : Seg) : list WalRecord := (s_entries s).*2.
Definition log_records (L : list Seg) : list WalRecord := L ≫= seg_records.
Definition seg_items (s : Seg) : list ScanItem := items_of (s_name s) 0 (s_entries s).
Definition seg_span (s : Seg) : Z := span (s_entries s).

(** The files of a device are the log [L]: every segment file is one of it, whole records end to
    end, or empty; numbers follow one another across segments and start above zero. *)
Record holds (dir : pystr) (F : gmap pystr bytes) (L : list Seg) : Prop := {
  holds_seg s : s ∈ L → parse_segment_number dir (s_name s) = Some (s_number s) ∧ s_entries s ≠ [] ∧
                        ∃ c, F !! s_name s = Some c ∧ clean c (s_entries s);
  holds_sorted : StronglySorted (λ a b, s_number a < s_number b) L;
  holds_file n f : is_segment dir F n f → (∃ s, s ∈ L ∧ s_name s = f) ∨ F !! f = Some [];
  holds_contiguous : contiguous None (log_records L);
  holds_positive : Forall (λ r, 0 < lsn r) (log_records L)
}.

Definition last_of (start : Z) (rs : list WalRecord) : Z := foldl (λ _ r, lsn r) start rs.
Definition epoch_of (start : Z) (rs : list WalRecord) : Z := foldl (λ e r, if e <? epoch r then epoch r else e) start rs.

Definition seg_info (s : Seg) : SegmentInfo :=
  MkSegment (s_number s) (s_name s) (match seg_records s with r :: _ => lsn r | [] => NO_LSN end)
    (last_of NO_LSN (seg_records s)) (seg_span s) (zlen (s_entries s)).

Definition log_marks (L : list Seg) : gmap pystr (list (Z * Z)) :=
  list_to_map ((λ s, (s_name s, notes [] 0 (s_entries s))) <$> L).

(** The accounting of the log [L]; the epoch may be one seen in records since recycled. *)
Record tracks (L : list Seg) (i : Index) : Prop := {
  tracks_segments : segments i = seg_info <$> L;
  tracks_marks : marks i = log_marks L;
  tracks_last : log_last_lsn i = last_of NO_LSN (log_records L);
  tracks_epoch : Forall (λ r, epoch r <= max_epoch i) (log_records L);
  tracks_damage : damage i = None;
  tracks_total : total_bytes i = sum_sizes (seg_info <$> L)
}.

(** The segments a manager lists are those of the log, whatever it made of their records. *)
Definition lists (L : list Seg) (i : Index) : Prop :=
  (λ s, (name s, size_bytes s)) <$> segments i = (λ s, (s_name s, seg_span s)) <$> L.

(** Every segment number on the device is below the next one. *)
Definition numbers_below (dir : pystr) (F : gmap pystr bytes) (n : Z) : Prop := ∀ m f, is_segment dir F m f → m < n.

(** What a manager knows when its device holds [L]: everything, or that there is damage. *)
Record synced (F : gmap pystr bytes) (L : list Seg) (W : Wal) : Prop := {
  synced_open : opened W = true;
  synced_indexed : indexed W = true;
  synced_lists : lists L (index W);
  synced_tracks : damage (index W) = None → tracks L (index W);
  synced_next : MIN_SEGMENT_NUMBER <= next_number (index W) ∧ numbers_below (directory W) F (next_number (index W))
}.

Lemma names_NoDup dir F L : holds dir F L → NoDup (s_name <$> L).
Proof.
  intros H. assert (∀ s, s ∈ L → parse_segment_number dir (s_name s) = Some (s_number s)) as Hp by (intros s Hs; by apply H).
  pose proof (holds_sorted _ _ _ H) as Hs. clear H.
  induction L as [|s L IH]; [constructor|]. apply StronglySorted_inv in Hs as [Hs Hx]. cbn. apply NoDup_cons.
  split; [|apply IH; [|done]; intros; apply Hp; by right]. intros (t & Ht & Hin)%list_elem_of_fmap.
  rewrite Forall_forall in Hx. specialize (Hx t Hin).
  pose proof (Hp s ltac:(left)) as H1. pose proof (Hp t ltac:(by right)) as H2. rewrite Ht in H1. rewrite H1 in H2.
  injection H2 as H2. lia.
Qed.

(** ** Walking whole records *)

Definition piece : Type := pystr * Z * list (Z * WalRecord).
Definition piece_items (p : piece) : list ScanItem := items_of p.1.1 p.1.2 p.2.

(** A stretch of a file, from a byte on, that is whole records. *)
Definition chunk (F : gmap pystr bytes) (sizes starts : gmap pystr Z) (n : pystr) (p : piece) : Prop :=
  p.1.1 = n ∧ p.1.2 = size_in starts n ∧
  ∃ c, F !! n = Some c ∧ size_in sizes n = zlen c ∧ 0 <= p.1.2 <= zlen c ∧ clean (drop (Z.to_nat p.1.2) c) p.2.

Lemma consume_app {S} (f : S → ScanItem → verdict S) s a b :
  consume f s (a ++ b) = match consume f s a with More s' => consume f s' b | v => v end.
Proof. revert s. induction a as [|x a IH]; intros s; cbn [app consume]; [done|]. destruct (f s x); [apply IH|done|done]. Qed.

Section walking.
Context {Dev : Type} {SD : StorageDevice Dev} {SL : StorageLaws Dev} {LL : LogLaws Dev}.
#[local] Abbreviation World := (@WalManager.World Dev).
Implicit Types (w : World) (F : gmap pystr bytes) (R : pystr → option bytes → Prop) (W : Wal).

(** Over whole, contiguous records a walk hands its consumer exactly the items of the records,
    unless reading fails. *)
Lemma walk_at {S} (f : S → ScanItem → verdict S) F R W names sizes starts expected s pieces :
  Forall2 (chunk F sizes starts) names pieces →
  contiguous expected (pieces ≫= λ p, p.2.*2) →
  spec (at_ F R W) (walk f names sizes starts expected s)
    (λ out w, match out with
              | Finished s' => consume f s (pieces ≫= piece_items) = More s' ∨ consume f s (pieces ≫= piece_items) = Halt s'
              | Broken _ _ _ => True
              end ∧ at_ F R W w)
    (λ w, at_ F R W w).
Proof.
  intros Hp. revert expected s. induction Hp as [|n p names pieces Hn Hp IH]; intros expected s Hc; cbn [walk].
  { intros w Hw. split; [by left|done]. }
  destruct p as [[pn base] es]. destruct Hn as (Hpn & Hbase & c & Hf & Hsize & Hb & Hcl). cbn [fst snd] in *. subst pn.
  cbn [mbind list_bind] in Hc |- *. rewrite contiguous_app in Hc. destruct Hc as [Hc1 Hc2].
  unfold piece_items at 1 3. cbn [fst snd]. rewrite <-Hbase, Hsize.
  destruct (Z.leb_spec (zlen c) base) as [Hle|Hgt].
  { assert (es = []) as ->; [|by apply IH].
    apply clean_span in Hcl as Hs. rewrite zlen_drop in Hs by lia. destruct es as [|[k r] es]; [done|].
    inversion Hcl as [|? ? ? ? Hd ?]; subst. apply clean_head in Hd. rewrite zlen_drop in Hd by lia. lia. }
  eapply spec_bind; [apply spec_attempt, read_segment_at|]. intros [data|e]; cbn beta iota.
  2:{ intros w Hw. by split. }
  apply spec_fact. intros (c' & Hf' & _ & ->). rewrite Hf in Hf'. injection Hf' as <-.
  rewrite slice_from by lia. rewrite (scan_segment_clean n _ base es expected) by done.
  rewrite consume_app. destruct (consume f s (items_of n base es)) as [s'|s'|e].
  - by apply IH.
  - intros w Hw. split; [by right|done].
  - intros w Hw. done.
Qed.

(** The same, and what stopped it. *)
Lemma walk_from {S} (f : S → ScanItem → verdict S) d0 F R W names sizes starts expected s pieces :
  Forall2 (chunk F sizes starts) names pieces →
  contiguous expected (pieces ≫= λ p, p.2.*2) →
  spec (from_ d0 F R W) (walk f names sizes starts expected s)
    (λ out w, match out with
              | Finished s' => consume f s (pieces ≫= piece_items) = More s' ∨ consume f s (pieces ≫= piece_items) = Halt s'
              | Broken _ n e => n ∈ names ∧ (absorbed e = true → unread d0 n (size_in sizes n) (size_in starts n) (dev w))
              end ∧ at_ F R W w)
    (λ w, at_ F R W w).
Proof.
  intros Hp Hc w (Hw & Hr & Hf). pose proof (walk_at f F R W names sizes starts expected s pieces Hp Hc w Hw) as H.
  pose proof (walk_blame f names sizes starts expected s w) as Hb. destruct (walk f names sizes starts expected s w) as [[[s'|s' n e]|e] w']; [done| |done].
  destruct H as [_ H]. split; [|done]. destruct Hb as [Hn Hb]. split; [done|]. intros Ha. eapply unread_from; [exact Hr| |by apply Hb].
  destruct Hw as (-> & _). done.
Qed.
End walking.

(** Some file was not to be read to its end. *)
Definition blamed {Dev} {SD : StorageDevice Dev} {SL : StorageLaws Dev} (d0 : Dev) (F : gmap pystr bytes) (d : Dev) : Prop :=
  ∃ n c base, F !! n = Some c ∧ 0 <= base ∧ unread d0 n (zlen c) base d.

(** ** What a pass counts *)

Fixpoint pass_after (p : Pass) (n : pystr) (offset : Z) (es : list (Z * WalRecord)) : Pass :=
  match es with
  | [] => p
  | (k, r) :: es => pass_after (account_record p (record_item n offset r) r) n (offset + k) es
  end.
Definition pass_all (p : Pass) (pieces : list piece) : Pass := foldl (λ p x, pass_after p x.1.1 x.1.2 x.2) p pieces.

Lemma pass_after_damage p n o es : p_damage (pass_after p n o es) = p_damage p.
Proof. revert p o. induction es as [|[k r] es IH]; intros p o; cbn [pass_after]; [done|]. by rewrite IH. Qed.

Lemma pass_all_damage p pieces : p_damage (pass_all p pieces) = p_damage p.
Proof. unfold pass_all. revert p. induction pieces as [|x pieces IH]; intros p; cbn [foldl]; [done|]. by rewrite IH, pass_after_damage. Qed.

Lemma consume_account stop p n o es : consume (account stop) p (items_of n o es) = More (pass_after p n o es).
Proof. revert p o. induction es as [|[k r] es IH]; intros p o; [done|]. apply IH. Qed.

Lemma consume_account_once stop p n o es : p_damage p = None →
  consume (account_once stop) p (items_of n o es) = More (pass_after p n o es).
Proof.
  revert p o. induction es as [|[k r] es IH]; intros p o Hp; [done|]. cbn [items_of consume pass_after].
  unfold account_once at 1. rewrite Hp. rewrite bool_decide_eq_false_2 by (by intros []). by apply IH.
Qed.

Lemma consume_pieces {S} (f : S → ScanItem → verdict S) (g : S → piece → S) (ok : S → Prop) s pieces : ok s →
  (∀ s p, ok s → consume f s (piece_items p) = More (g s p) ∧ ok (g s p)) →
  consume f s (pieces ≫= piece_items) = More (foldl g s pieces).
Proof.
  intros Hs H. revert s Hs. induction pieces as [|p pieces IH]; intros s Hs; cbn [mbind list_bind foldl]; [done|].
  rewrite consume_app. destruct (H s p Hs) as [-> Hs']. by apply IH.
Qed.

Lemma consume_all stop p pieces : consume (account stop) p (pieces ≫= piece_items) = More (pass_all p pieces).
Proof.
  apply (consume_pieces _ (λ p x, pass_after p x.1.1 x.1.2 x.2) (λ _, True)); [done|].
  intros q x _. split; [apply consume_account|done].
Qed.

Lemma consume_all_once stop p pieces : p_damage p = None →
  consume (account_once stop) p (pieces ≫= piece_items) = More (pass_all p pieces).
Proof.
  intros Hp. apply (consume_pieces _ (λ p x, pass_after p x.1.1 x.1.2 x.2) (λ p, p_damage p = None)); [done|].
  intros q x Hq. split; [by apply consume_account_once|by rewrite pass_after_damage].
Qed.

Lemma consume_keeping {S} (f : S → ScanItem → verdict S) s out items s' :
  consume f s items = More s' → consume (keeping f) (s, out) items = More (s', out ++ items).
Proof.
  revert s out. induction items as [|x items IH]; intros s out; cbn [consume].
  - intros [= ->]. by rewrite app_nil_r.
  - unfold keeping at 1. cbn [fst snd]. destruct (f s x) as [s1|s1|e]; [|done..].
    intros H. rewrite (IH s1 (out ++ [x]) H). by rewrite <-app_assoc.
Qed.

Definition tally_after (t : Tally) (rs : list WalRecord) : Tally :=
  foldl (λ t r, MkTally (if first_seen t =? NO_LSN then lsn r else first_seen t) (lsn r) (count t + 1)) t rs.
Definition tally_at (p : Pass) (n : pystr) : Tally := default no_tally (tallies p !! n).

Lemma pass_after_tally p n o es m :
  tally_at (pass_after p n o es) m = if decide (m = n) then tally_after (tally_at p m) es.*2 else tally_at p m.
Proof.
  revert p o. induction es as [|[k r] es IH]; intros p o; cbn [pass_after]; [by case_decide|].
  rewrite IH. unfold tally_at. cbn [account_record tallies record_item item_segment].
  case_decide as E; [subst; rewrite !lookup_insert_eq|rewrite !lookup_insert_ne by done]; done.
Qed.

Lemma pass_after_marks p n o es m :
  p_marks (pass_after p n o es) !! m =
    if decide (m = n ∧ es ≠ []) then Some (notes (default [] (p_marks p !! m)) o es) else p_marks p !! m.
Proof.
  revert p o. induction es as [|[k r] es IH]; intros p o; cbn [pass_after].
  { by rewrite decide_False by (by intros []). }
  rewrite IH. cbn [account_record p_marks record_item item_segment item_offset]. rewrite note_mark_note.
  destruct (decide (m = n)) as [->|Hne].
  - rewrite !lookup_insert_eq. rewrite (decide_True (P := n = n ∧ (k, r) :: es ≠ [])) by done. cbn [notes default].
    destruct es as [|e es]; [by rewrite decide_False by (by intros [])|]. by rewrite decide_True.
  - rewrite !(decide_False (P := m = n ∧ _)) by (by intros []). by rewrite lookup_insert_ne.
Qed.

Lemma pass_after_last p n o es : p_last (pass_after p n o es) = last_of (p_last p) es.*2.
Proof. revert p o. induction es as [|[k r] es IH]; intros p o; [done|]. cbn [pass_after]. by rewrite IH. Qed.

Lemma pass_after_epoch p n o es : p_epoch (pass_after p n o es) = epoch_of (p_epoch p) es.*2.
Proof. revert p o. induction es as [|[k r] es IH]; intros p o; [done|]. cbn [pass_after]. by rewrite IH. Qed.

Lemma last_of_app a x y : last_of a (x ++ y) = last_of (last_of a x) y.
Proof. apply foldl_app. Qed.
Lemma epoch_of_app a x y : epoch_of a (x ++ y) = epoch_of (epoch_of a x) y.
Proof. apply foldl_app. Qed.
Lemma tally_after_app t x y : tally_after t (x ++ y) = tally_after (tally_after t x) y.
Proof. apply foldl_app. Qed.

Lemma epoch_of_ge a rs : a <= epoch_of a rs ∧ Forall (λ r, epoch r <= epoch_of a rs) rs.
Proof.
  revert a. induction rs as [|r rs IH]; intros a; [by split|]. cbn [epoch_of foldl].
  destruct (IH (if a <? epoch r then epoch r else a)) as [H1 H2]. unfold epoch_of in *.
  destruct (Z.ltb_spec a (epoch r)); (split; [lia|constructor; [lia|done]]).
Qed.

Lemma pass_all_spec p pieces : NoDup ((λ x : piece, x.1.1) <$> pieces) →
  p_damage (pass_all p pieces) = p_damage p ∧
  p_last (pass_all p pieces) = last_of (p_last p) (pieces ≫= λ x, x.2.*2) ∧
  p_epoch (pass_all p pieces) = epoch_of (p_epoch p) (pieces ≫= λ x, x.2.*2) ∧
  (∀ m, m ∉ ((λ x : piece, x.1.1) <$> pieces) →
     tally_at (pass_all p pieces) m = tally_at p m ∧ p_marks (pass_all p pieces) !! m = p_marks p !! m) ∧
  (∀ x, x ∈ pieces →
     tally_at (pass_all p pieces) x.1.1 = tally_after (tally_at p x.1.1) x.2.*2 ∧
     p_marks (pass_all p pieces) !! x.1.1 =
       if decide (x.2 = []) then p_marks p !! x.1.1 else Some (notes (default [] (p_marks p !! x.1.1)) x.1.2 x.2)).
Proof.
  revert p. induction pieces as [|y pieces IH]; intros p Hnd.
  { split_and!; [done..|]. by intros x ?%not_elem_of_nil. }
  change (((λ x : piece, x.1.1) <$> y :: pieces)) with (y.1.1 :: ((λ x : piece, x.1.1) <$> pieces)) in *.
  apply NoDup_cons in Hnd as [Hy Hnd]. cbn [pass_all foldl]. fold (pass_all (pass_after p y.1.1 y.1.2 y.2) pieces).
  destruct (IH (pass_after p y.1.1 y.1.2 y.2) Hnd) as (H1 & H2 & H3 & H4 & H5). cbn [mbind list_bind].
  rewrite last_of_app, epoch_of_app, H1, H2, H3, pass_after_damage, pass_after_last, pass_after_epoch. split_and!; [done..| |].
  - intros m Hm. apply not_elem_of_cons in Hm as [Hm1 Hm2]. destruct (H4 m Hm2) as [-> ->].
    rewrite pass_after_tally, pass_after_marks, (decide_False (P := m = y.1.1)) by done.
    by rewrite (decide_False (P := m = y.1.1 ∧ _)) by (by intros []).
  - intros x [->|Hx]%elem_of_cons.
    + destruct (H4 _ Hy) as [-> ->]. rewrite pass_after_tally, pass_after_marks, decide_True by done. split; [done|].
      destruct (decide (y.2 = [])); [by rewrite decide_False by (by intros [])|by rewrite decide_True].
    + assert (x.1.1 ≠ y.1.1) as Hne.
      { intros E. apply Hy. rewrite <-E. by apply (list_elem_of_fmap_2 (λ x : piece, x.1.1)). }
      destruct (H5 x Hx) as [-> ->]. rewrite pass_after_tally, pass_after_marks, (decide_False (P := x.1.1 = y.1.1)) by done.
      by rewrite !(decide_False (P := x.1.1 = y.1.1 ∧ _)) by (by intros []).
Qed.

(** ** From what a pass counted to the accounting of a log *)

Definition entries_in (K : list Seg) (n : pystr) : list (Z * WalRecord) :=
  default [] ((list_to_map ((λ s, (s_name s, s_entries s)) <$> K) : gmap pystr (list (Z * WalRecord))) !! n).

Definition seg_append (s : Seg) (es : list (Z * WalRecord)) : Seg := MkSeg (s_number s) (s_name s) (s_entries s ++ es).

(** [L] is [K] with records added to its last segment and segments added after it. *)
Definition extends (K L : list Seg) : Prop :=
  K = [] ∨ ∃ K' s ext fresh, K = K' ++ [s] ∧ L = K' ++ [seg_append s ext] ++ fresh.

Lemma entries_in_elem K s : NoDup (s_name <$> K) → s ∈ K → entries_in K (s_name s) = s_entries s.
Proof.
  intros Hn Hs. unfold entries_in. erewrite elem_of_list_to_map_1; [done| |].
  - by rewrite <-list_fmap_compose.
  - by apply (list_elem_of_fmap_2 (λ s, (s_name s, s_entries s))).
Qed.

Lemma entries_in_not K n : n ∉ s_name <$> K → entries_in K n = [].
Proof.
  intros Hn. unfold entries_in. rewrite (proj1 (not_elem_of_list_to_map _ _)); [done|]. by rewrite <-list_fmap_compose.
Qed.

Lemma log_marks_elem K s : NoDup (s_name <$> K) → s ∈ K → log_marks K !! s_name s = Some (notes [] 0 (s_entries s)).
Proof.
  intros Hn Hs. unfold log_marks. apply elem_of_list_to_map_1; [by rewrite <-list_fmap_compose|].
  by apply (list_elem_of_fmap_2 (λ s, (s_name s, notes [] 0 (s_entries s)))).
Qed.

Lemma log_marks_not K n : n ∉ s_name <$> K → log_marks K !! n = None.
Proof. intros Hn. unfold log_marks. apply not_elem_of_list_to_map. by rewrite <-list_fmap_compose. Qed.

Lemma bind_nil {A B} (f : A → list B) l : (∀ x, x ∈ l → f x = []) → l ≫= f = [].
Proof.
  induction l as [|x l IH]; intros H; [done|]. cbn [mbind list_bind]. rewrite H by left. apply IH.
  intros y Hy. apply H. by right.
Qed.

Lemma bind_ext_in {A B} (f g : A → list B) l : (∀ x, x ∈ l → f x = g x) → l ≫= f = l ≫= g.
Proof.
  induction l as [|x l IH]; intros H; [done|]. cbn [mbind list_bind]. rewrite H by left. f_equal. apply IH.
  intros y Hy. apply H. by right.
Qed.

Lemma bind_fmap_l {A B C} (f : A → B) (g : B → list C) l : (f <$> l) ≫= g = l ≫= (λ x, g (f x)).
Proof. induction l as [|x l IH]; [done|]. cbn. by rewrite IH. Qed.

Lemma bind_filter_nil {A B} (P : A → Prop) `{∀ x, Decision (P x)} (f : A → list B) (l : list A) :
  (∀ x, x ∈ l → ¬ P x → f x = []) → l ≫= f = filter P l ≫= f.
Proof.
  induction l as [|x l IH]; intros Hf; [done|]. cbn [mbind list_bind]. rewrite filter_cons, IH.
  - case_decide; [done|]. by rewrite Hf by (done || left).
  - intros y Hy. apply Hf. by right.
Qed.

Lemma omap_filter {A B} (P : A → Prop) `{∀ x, Decision (P x)} (f : A → option B) (g : A → B) (l : list A) :
  (∀ x, f x = if decide (P x) then Some (g x) else None) → omap f l = g <$> filter P l.
Proof.
  intros Hf. induction l as [|x l IH]; [done|]. cbn [omap list_omap]. rewrite Hf, filter_cons, IH. by case_decide.
Qed.

Lemma sorted_distinct {A} (f : A → Z) l : StronglySorted (λ a b, f a < f b) l → NoDup l.
Proof.
  intros Hs. induction l as [|x l IH]; [constructor|]. apply StronglySorted_inv in Hs as [Hs Hx].
  apply NoDup_cons. split; [|by apply IH]. intros Hin. rewrite Forall_forall in Hx. specialize (Hx x Hin). lia.
Qed.

Lemma sorted_same {A} (f : A → Z) l k :
  StronglySorted (λ a b, f a < f b) l → StronglySorted (λ a b, f a < f b) k → (∀ x, x ∈ l ↔ x ∈ k) → l = k.
Proof.
  intros Hl Hk Hm. assert (AntiSymm (=) (λ a b, f a < f b)) by (intros a b ??; lia).
  apply (StronglySorted_unique (λ a b, f a < f b)); [done|done|].
  apply NoDup_Permutation; [by eapply sorted_distinct|by eapply sorted_distinct|done].
Qed.

(** ** Segments of any bytes *)

Record Raw := MkRaw { r_number : Z; r_name : pystr; r_bytes : bytes }.

(** The segment files of a device are [K]; an empty file is none. *)
Record stored (dir : pystr) (F : gmap pystr bytes) (K : list Raw) : Prop := {
  stored_seg s : s ∈ K → parse_segment_number dir (r_name s) = Some (r_number s) ∧ r_bytes s ≠ [] ∧ F !! r_name s = Some (r_bytes s);
  stored_sorted : StronglySorted (λ a b, r_number a < r_number b) K;
  stored_file n f : is_segment dir F n f → (∃ s, s ∈ K ∧ r_name s = f) ∨ F !! f = Some []
}.

Lemma stored_NoDup dir F K : stored dir F K → NoDup (r_name <$> K).
Proof.
  intros H. apply NoDup_fmap_2_strong; [|apply (sorted_distinct r_number), H].
  intros a b Ha Hb E. destruct (stored_seg _ _ _ H a Ha) as (Hpa & _ & Hfa), (stored_seg _ _ _ H b Hb) as (Hpb & _ & Hfb).
  rewrite E in Hpa, Hfa. destruct a, b. cbn in *. congruence.
Qed.

Section raw.
Context (dir : pystr) (F : gmap pystr bytes) (K : list Raw) (l : list (Z * pystr)) (sizes : gmap pystr Z).
Context (HK : stored dir F K) (Hl : discovered dir F l) (Hsz : sizes_are F l.*2 sizes).

Definition raw_pair (s : Raw) : Z * pystr := (r_number s, r_name s).

Lemma raw_discovered s : s ∈ K → raw_pair s ∈ l ∧ size_in sizes (r_name s) = zlen (r_bytes s) ∧ 0 < zlen (r_bytes s).
Proof.
  intros Hs. destruct (stored_seg _ _ _ HK s Hs) as (Hp & Hne & Hc).
  assert (raw_pair s ∈ l) as Hin by (apply (disc_mem _ _ _ Hl); split; [by eexists|done]).
  split; [done|]. destruct (size_in_are F l.*2 sizes (r_name s) Hsz) as (c' & Hc' & ->).
  { by apply (list_elem_of_fmap_2 snd _ (raw_pair s)). }
  rewrite Hc in Hc'. injection Hc' as <-. split; [done|]. destruct (r_bytes s) as [|x data]; [done|]. rewrite zlen_cons. pose proof (zlen_nonneg data). lia.
Qed.

Lemma discovered_raws : filter (λ x, size_in sizes x.2 ≠ 0) l = raw_pair <$> K.
Proof.
  apply (sorted_same fst).
  - pose proof (disc_sorted _ _ _ Hl) as Hs. clear -Hs. induction Hs as [|x l Hs IH Hx]; [constructor|].
    rewrite filter_cons. case_decide; [|done]. constructor; [done|]. rewrite Forall_forall in *.
    intros y [_ Hy]%list_elem_of_filter. by apply Hx.
  - pose proof (stored_sorted _ _ _ HK) as Hs. clear -Hs. induction Hs as [|x K Hs IH Hx]; [constructor|].
    cbn. constructor; [done|]. by rewrite Forall_fmap.
  - intros [n f]. rewrite list_elem_of_filter, list_elem_of_fmap. cbn [snd]. split.
    + intros [Hsize Hin]. apply (disc_mem _ _ _ Hl) in Hin as Hseg.
      destruct (stored_file _ _ _ HK n f Hseg) as [(s & Hs & <-)|He].
      * exists s. split; [|done]. unfold raw_pair. f_equal. destruct Hseg as [_ Hp].
        destruct (stored_seg _ _ _ HK s Hs) as [Hp' _]. congruence.
      * exfalso. apply Hsize. destruct (size_in_are F l.*2 sizes f Hsz) as (c & Hc & ->).
        { by apply (list_elem_of_fmap_2 snd _ (n, f)). }
        rewrite He in Hc. by injection Hc as <-.
    + intros (s & [= -> ->] & Hs). destruct (raw_discovered s Hs) as (Hin & -> & Hpos). split; [lia|done].
Qed.

Lemma infos_raw t : omap (info_of sizes t) l =
  (λ s, MkSegment (r_number s) (r_name s) (first_seen (default no_tally (t !! r_name s)))
          (last_seen (default no_tally (t !! r_name s))) (size_in sizes (r_name s)) (count (default no_tally (t !! r_name s)))) <$> K.
Proof.
  rewrite (omap_filter (λ x, size_in sizes x.2 ≠ 0) _ (λ x, MkSegment x.1 x.2 (first_seen (default no_tally (t !! x.2)))
    (last_seen (default no_tally (t !! x.2))) (size_in sizes x.2) (count (default no_tally (t !! x.2))))).
  - rewrite discovered_raws. by rewrite <-list_fmap_compose.
  - intros x. unfold info_of. case_decide as E; destruct (Z.eqb_spec (size_in sizes x.2) 0); done.
Qed.
End raw.

(** The bytes behind the segments of a log. *)
Definition raw_of (F : gmap pystr bytes) (s : Seg) : Raw := MkRaw (s_number s) (s_name s) (default [] (F !! s_name s)).

Lemma raw_of_bytes dir F L s : holds dir F L → s ∈ L → F !! s_name s = Some (r_bytes (raw_of F s)) ∧
  zlen (r_bytes (raw_of F s)) = seg_span s ∧ r_bytes (raw_of F s) ≠ [].
Proof.
  intros HL Hs. destruct (holds_seg _ _ _ HL s Hs) as (_ & Hne & c & Hc & Hcl). unfold raw_of, seg_span. cbn [r_bytes].
  rewrite Hc, (clean_span _ _ Hcl). cbn. split_and!; [done..|]. intros ->. inversion Hcl as [|? ? ? ? Hd ?]; subst; [done|].
  apply clean_head in Hd. change (zlen (@nil byte)) with 0 in Hd. lia.
Qed.

Lemma holds_stored dir F L : holds dir F L → stored dir F (raw_of F <$> L).
Proof.
  intros HL. constructor.
  - intros r (s & -> & Hs)%list_elem_of_fmap. destruct (raw_of_bytes dir F L s HL Hs) as (? & _ & ?).
    split_and!; [apply (holds_seg _ _ _ HL s Hs)|done|done].
  - pose proof (holds_sorted _ _ _ HL) as Hs. clear -Hs. induction Hs as [|x L Hs IH Hx]; [constructor|].
    cbn. constructor; [done|]. by rewrite Forall_fmap.
  - intros n f Hf. destruct (holds_file _ _ _ HL n f Hf) as [(s & Hs & <-)|?]; [|by right].
    left. exists (raw_of F s). split; [by apply list_elem_of_fmap_2|done].
Qed.

Section pure.
Context (dir : pystr) (F : gmap pystr bytes) (L : list Seg) (l : list (Z * pystr)) (sizes : gmap pystr Z).
Context (HL : holds dir F L) (Hl : discovered dir F l) (Hsz : sizes_are F l.*2 sizes).

Definition seg_pair (s : Seg) : Z * pystr := (s_number s, s_name s).

Lemma seg_discovered s : s ∈ L → seg_pair s ∈ l ∧ size_in sizes (s_name s) = seg_span s ∧ 0 < seg_span s.
Proof.
  intros Hs. destruct (raw_of_bytes dir F L s HL Hs) as (_ & <- & _).
  apply (raw_discovered dir F _ l sizes (holds_stored _ _ _ HL) Hl Hsz (raw_of F s)). by apply list_elem_of_fmap_2.
Qed.

Lemma discovered_segs : filter (λ x, size_in sizes x.2 ≠ 0) l = seg_pair <$> L.
Proof. rewrite (discovered_raws dir F _ l sizes (holds_stored _ _ _ HL) Hl Hsz). by rewrite <-list_fmap_compose. Qed.

Lemma bind_discovered {B} (f : Z * pystr → list B) :
  (∀ x, x ∈ l → size_in sizes x.2 = 0 → f x = []) → l ≫= f = L ≫= (λ s, f (seg_pair s)).
Proof.
  intros Hf. rewrite (bind_filter_nil (λ x, size_in sizes x.2 ≠ 0)).
  - by rewrite discovered_segs, bind_fmap_l.
  - intros x Hx Hn. apply Hf; [done|]. destruct (decide (size_in sizes x.2 = 0)); [done|by destruct Hn].
Qed.

Lemma infos_discovered t : omap (info_of sizes t) l =
  (λ s, MkSegment (s_number s) (s_name s) (first_seen (default no_tally (t !! s_name s)))
          (last_seen (default no_tally (t !! s_name s))) (size_in sizes (s_name s)) (count (default no_tally (t !! s_name s)))) <$> L.
Proof. rewrite (infos_raw dir F _ l sizes (holds_stored _ _ _ HL) Hl Hsz). by rewrite <-list_fmap_compose. Qed.

(** Whatever was counted, the segments listed are those of the log. *)
Lemma lists_pass p : lists L (index_of_pass l sizes p).
Proof.
  unfold lists, index_of_pass. cbn [segments]. rewrite infos_discovered, <-list_fmap_compose.
  apply list_fmap_ext. intros i s Hs%list_elem_of_lookup_2. cbn. by destruct (seg_discovered s Hs) as (_ & -> & _).
Qed.

Lemma following_above : MIN_SEGMENT_NUMBER <= following_number l ∧ numbers_below dir F (following_number l).
Proof.
  unfold following_number. destruct (last l) as [[n f]|] eqn:E.
  - assert ((n, f) ∈ l) as Hin by (by apply last_Some_elem_of).
    split.
    + apply (disc_mem _ _ _ Hl) in Hin as [_ Hp]. apply parse_segment_number_inv in Hp as (_ & ? & _). lia.
    + intros m g Hg. apply (disc_mem _ _ _ Hl) in Hg. apply last_Some in E as [k ->].
      apply elem_of_app in Hg as [Hg|Hg]; [|apply list_elem_of_singleton in Hg as [= -> _]; lia].
      pose proof (disc_sorted _ _ _ Hl) as Hs. apply StronglySorted_app_1_elem_of with (x1 := (m, g)) (x2 := (n, f)) in Hs; [cbn in Hs; lia|done|by left].
  - apply last_None in E as ->. split; [done|]. intros m g Hg. by apply (disc_mem _ _ _ Hl), not_elem_of_nil in Hg.
Qed.

(** *** A pass that starts from what is known of [K] *)

Context (K : list Seg) (Hext : extends K L).

Definition pieces_from : list piece :=
  (λ x, (x.2, span (entries_in K x.2), drop (length (entries_in K x.2)) (entries_in L x.2))) <$> l.

Definition new_in (s : Seg) : list (Z * WalRecord) := drop (length (entries_in K (s_name s))) (s_entries s).

Lemma names_split : ∃ rest, s_name <$> L = (s_name <$> K) ++ rest.
Proof.
  destruct Hext as [->|(K' & s & ext & fresh & -> & ->)]; [by exists (s_name <$> L)|].
  exists (s_name <$> fresh). by rewrite !fmap_app, <-app_assoc.
Qed.

Lemma names_K : NoDup (s_name <$> K) ∧ (∀ n, n ∈ s_name <$> K → n ∈ s_name <$> L).
Proof.
  pose proof (names_NoDup _ _ _ HL) as Hn. destruct names_split as [rest E]. rewrite E in Hn |- *.
  split; [by apply NoDup_app in Hn as [? _]|]. intros n Hn'. apply elem_of_app. by left.
Qed.

(** A segment added after those of [K] is not one of them. *)
Lemma fresh_not_in K' k ext fresh s : K = K' ++ [k] → L = K' ++ [seg_append k ext] ++ fresh → s ∈ fresh → s_name s ∉ s_name <$> K.
Proof.
  intros -> E Hs Hin. pose proof (names_NoDup _ _ _ HL) as Hn.
  assert (s_name <$> L = (s_name <$> K' ++ [k]) ++ (s_name <$> fresh)) as EL by (by rewrite E, !fmap_app, <-app_assoc).
  rewrite EL in Hn. apply NoDup_app in Hn as (_ & Hd & _). apply (Hd (s_name s)); [done|]. by apply list_elem_of_fmap_2.
Qed.

Lemma entries_K s : s ∈ L → s_entries s = entries_in K (s_name s) ++ new_in s.
Proof.
  intros Hs. destruct names_K as [HnK _]. unfold new_in.
  destruct Hext as [->|(K' & k & ext & fresh & EK & E)]; [done|]. rewrite E in Hs. rewrite !elem_of_app in Hs.
  destruct Hs as [Hs|[Hs|Hs]].
  - rewrite entries_in_elem by (done || rewrite EK; apply elem_of_app; by left). by rewrite drop_all, app_nil_r.
  - apply list_elem_of_singleton in Hs as ->. cbn [s_name seg_append s_entries].
    rewrite entries_in_elem by (done || rewrite EK; apply elem_of_app; right; by left). by rewrite drop_app_length.
  - by rewrite entries_in_not by (by eapply fresh_not_in).
Qed.

Lemma new_records : log_records L = log_records K ++ (pieces_from ≫= λ x, x.2.*2).
Proof.
  assert (pieces_from ≫= (λ x, x.2.*2) = L ≫= (λ s, (new_in s).*2)) as ->.
  { unfold pieces_from. rewrite bind_fmap_l, bind_discovered.
    - apply bind_ext_in. intros s Hs. cbn [snd seg_pair]. unfold new_in.
      rewrite (entries_in_elem L s) by (done || by eapply names_NoDup). done.
    - intros x Hx Hz. cbn [snd]. rewrite (entries_in_not L); [by rewrite drop_nil|].
      intros (s & E & Hs)%list_elem_of_fmap. destruct (seg_discovered s Hs) as (_ & Hsz' & ?). rewrite <-E in Hsz'. lia. }
  destruct names_K as [HnK _]. unfold log_records, new_in.
  destruct Hext as [->|(K' & k & ext & fresh & EK & E)].
  - apply bind_ext_in. intros s Hs. unfold seg_records. by rewrite entries_in_not by apply not_elem_of_nil.
  - rewrite E at 1 2. rewrite EK at 1. rewrite !bind_app. cbn [mbind list_bind]. rewrite !app_nil_r.
    rewrite (bind_nil (λ s, (drop (length (entries_in K (s_name s))) (s_entries s)).*2) K').
    2:{ intros s Hs. rewrite entries_in_elem by (done || rewrite EK; apply elem_of_app; by left). by rewrite drop_all. }
    cbn [app seg_append s_name s_entries seg_records].
    rewrite (entries_in_elem K k) by (done || rewrite EK; apply elem_of_app; right; by left).
    rewrite drop_app_length. unfold seg_records. cbn [seg_append s_entries]. rewrite fmap_app, <-!app_assoc. do 3 f_equal.
    apply bind_ext_in. intros s Hs. by rewrite entries_in_not by (by eapply fresh_not_in).
Qed.

Lemma pieces_chunks starts : (∀ n, n ∈ l.*2 → size_in starts n = span (entries_in K n)) →
  Forall2 (chunk F sizes starts) l.*2 pieces_from.
Proof.
  intros Hst. unfold pieces_from. rewrite Forall2_fmap. apply Forall_Forall2_diag, Forall_forall. intros [n f] Hin.
  assert (f ∈ l.*2) as Hf by (by apply (list_elem_of_fmap_2 snd _ (n, f))). cbn [snd].
  destruct (size_in_are F l.*2 sizes f Hsz Hf) as (c & Hc & Hsize). split; [done|]. split; [by rewrite Hst|].
  exists c. cbn [fst snd]. split; [done|]. split; [done|].
  apply (disc_mem _ _ _ Hl) in Hin as Hseg. destruct (holds_file _ _ _ HL n f Hseg) as [(s & Hs & <-)|He].
  - destruct (holds_seg _ _ _ HL s Hs) as (_ & _ & c' & Hc' & Hcl). rewrite Hc in Hc'. injection Hc' as <-.
    rewrite (entries_in_elem L s) by (done || by eapply names_NoDup).
    pose proof (entries_K s Hs) as E. unfold new_in in E. rewrite E in Hcl at 1. pose proof (clean_nonneg _ _ _ Hcl).
    pose proof (clean_span _ _ Hcl) as Hsp. rewrite span_app in Hsp. apply clean_drop in Hcl as Hcl'.
    split; [|done]. pose proof (clean_nonneg _ _ [] ltac:(by rewrite app_nil_r)). lia.
  - rewrite He in Hc. injection Hc as <-.
    assert (f ∉ s_name <$> L) as Hno.
    { intros (s & -> & Hs)%list_elem_of_fmap. destruct (seg_discovered s Hs) as (_ & E & ?). rewrite Hsize in E.
      change (zlen (@nil byte)) with 0 in E. lia. }
    rewrite !entries_in_not; [|done|intros Hk; apply Hno; by apply names_K]. cbn [span foldr length Z.to_nat].
    split; [change (zlen (@nil byte)) with 0; lia|]. rewrite drop_nil. constructor.
Qed.

Lemma pieces_contiguous : contiguous (next_expected None (log_records K)) (pieces_from ≫= λ x, x.2.*2).
Proof. pose proof (holds_contiguous _ _ _ HL) as H. rewrite new_records, contiguous_app in H. apply H. Qed.

(** What is known when a pass starts: the counts of [K]. *)
Record knows (p : Pass) : Prop := {
  knows_tally n : tally_at p n = tally_after no_tally (entries_in K n).*2;
  knows_marks : p_marks p = log_marks K;
  knows_last : p_last p = last_of NO_LSN (log_records K);
  knows_epoch : Forall (λ r, epoch r <= p_epoch p) (log_records K);
  knows_damage : p_damage p = None
}.

Lemma tally_records rs r : rs ≠ [] → Forall (λ r, 0 < lsn r) rs → head rs = Some r →
  tally_after no_tally rs = MkTally (lsn r) (last_of NO_LSN rs) (zlen rs).
Proof.
  intros Hne Hp Hh. destruct rs as [|x rs]; [done|]. injection Hh as ->. apply Forall_cons in Hp as [Hx _].
  cbn [tally_after foldl last_of]. change (first_seen no_tally =? NO_LSN) with true. cbn [last_seen count no_tally].
  assert (∀ t, 0 < first_seen t → foldl (λ t r, MkTally (if first_seen t =? NO_LSN then lsn r else first_seen t) (lsn r) (count t + 1)) t rs
    = MkTally (first_seen t) (last_of (last_seen t) rs) (count t + zlen rs)) as H.
  { induction rs as [|y rs IH]; intros [a b c] Ht; cbn [first_seen last_seen count foldl last_of] in *.
    - by rewrite Z.add_0_r.
    - destruct (Z.eqb_spec a NO_LSN); [unfold NO_LSN in *; lia|]. rewrite IH by done. cbn [first_seen last_seen count].
      rewrite zlen_cons. f_equal. lia. }
  rewrite H by done. cbn [first_seen last_seen count]. by rewrite zlen_cons.
Qed.

Lemma seg_positive s : s ∈ L → Forall (λ r, 0 < lsn r) (seg_records s).
Proof.
  intros Hs. pose proof (holds_positive _ _ _ HL) as H. rewrite Forall_forall in H |- *. intros r Hr. apply H.
  unfold log_records. apply list_elem_of_bind. by exists s.
Qed.

Lemma pieces_names : (λ x : piece, x.1.1) <$> pieces_from = l.*2 ∧ NoDup ((λ x : piece, x.1.1) <$> pieces_from).
Proof.
  assert ((λ x : piece, x.1.1) <$> pieces_from = l.*2) as E by (unfold pieces_from; by rewrite <-list_fmap_compose).
  split; [done|]. rewrite E. apply NoDup_fmap_2_strong; [|by apply (sorted_distinct fst), Hl].
  intros [n f] [m g] Hx Hy Eq. cbn in Eq. subst g. apply (disc_mem _ _ _ Hl) in Hx as [_ Hx], Hy as [_ Hy]. congruence.
Qed.

Lemma piece_of s : s ∈ L → (s_name s, span (entries_in K (s_name s)), new_in s) ∈ pieces_from.
Proof.
  intros Hs. destruct (seg_discovered s Hs) as (Hin & _). unfold pieces_from. apply list_elem_of_fmap.
  exists (seg_pair s). split; [|done]. cbn [seg_pair snd]. rewrite (entries_in_elem L s) by (done || by eapply names_NoDup). done.
Qed.

(** The marks after the pass, one file at a time. *)
Lemma pass_marks p : knows p → p_marks (pass_all p pieces_from) = log_marks L.
Proof.
  intros [_ Hm _ _ _]. destruct pieces_names as [Hnames Hnd]. destruct (pass_all_spec p pieces_from Hnd) as (_ & _ & _ & H4 & H5).
  rewrite Hnames, Hm in H4. rewrite Hm in H5. destruct names_K as [HnK HKL]. apply map_eq. intros n.
  destruct (decide (n ∈ s_name <$> L)) as [(s & -> & Hs)%list_elem_of_fmap|Hno].
  - rewrite (log_marks_elem L s) by (done || by eapply names_NoDup).
    destruct (H5 _ (piece_of s Hs)) as [_ E]. cbn [fst snd] in E. rewrite E. clear E.
    destruct (holds_seg _ _ _ HL s Hs) as (_ & Hne & _). rewrite (entries_K s Hs) in Hne |- *. rewrite notes_app, Z.add_0_l.
    destruct (decide (s_name s ∈ s_name <$> K)) as [(k & Ek & Hk)%list_elem_of_fmap|Hno].
    + rewrite Ek, (log_marks_elem K k), (entries_in_elem K k) by done. cbn [default]. unfold id.
      case_decide as En; [by rewrite En|done].
    + rewrite log_marks_not, entries_in_not in * by done. by rewrite decide_False.
  - rewrite (log_marks_not L) by done.
    assert (log_marks K !! n = None) as HK by (apply log_marks_not; auto).
    destruct (decide (n ∈ l.*2)) as [(x & -> & Hx)%list_elem_of_fmap|Hin]; [|by destruct (H4 n Hin) as [_ ->]].
    assert ((x.2, span (entries_in K x.2), drop (length (entries_in K x.2)) (entries_in L x.2)) ∈ pieces_from) as Hin.
    { unfold pieces_from. by apply (list_elem_of_fmap_2 (λ x, (x.2, span (entries_in K x.2), drop (length (entries_in K x.2)) (entries_in L x.2)))). }
    destruct (H5 _ Hin) as [_ E]. cbn [fst snd] in E. by rewrite E, (entries_in_not L), drop_nil by done.
Qed.

Lemma pass_tracks p : knows p → tracks L (index_of_pass l sizes (pass_all p pieces_from)).
Proof.
  intros Hknows. pose proof Hknows as [Ht _ Hla Hep Hd]. destruct pieces_names as [_ Hnd].
  destruct (pass_all_spec p pieces_from Hnd) as (H1 & H2 & H3 & _ & H5). pose proof (pass_marks p Hknows) as Hmarks.
  set (q := pass_all p pieces_from) in *.
  assert (segments (index_of_pass l sizes q) = seg_info <$> L) as Hsegs.
  { cbn [index_of_pass segments]. rewrite infos_discovered. apply list_fmap_ext. intros i s Hs%list_elem_of_lookup_2.
    destruct (seg_discovered s Hs) as (_ & -> & _). fold (tally_at q (s_name s)).
    destruct (H5 _ (piece_of s Hs)) as [E _]. cbn [fst snd] in E. rewrite E, Ht, <-tally_after_app, <-fmap_app, <-entries_K by done.
    destruct (holds_seg _ _ _ HL s Hs) as (_ & Hne & _). unfold seg_info. fold (seg_records s).
    destruct (seg_records s) as [|r rs] eqn:Er; [unfold seg_records in Er; by destruct (s_entries s)|].
    rewrite (tally_records (r :: rs) r); [|done|rewrite <-Er; by apply seg_positive|done].
    cbn [first_seen last_seen count]. f_equal. rewrite <-Er. unfold seg_records, zlen. by rewrite length_fmap. }
  constructor; try exact Hsegs.
  - cbn [index_of_pass marks]. exact Hmarks.
  - cbn [index_of_pass log_last_lsn]. rewrite H2, Hla, <-last_of_app. by rewrite new_records.
  - cbn [index_of_pass max_epoch]. rewrite H3, new_records, Forall_app.
    destruct (epoch_of_ge (p_epoch p) (pieces_from ≫= λ x, x.2.*2)) as [Hge Hall]. split; [|done].
    eapply Forall_impl; [exact Hep|]. cbn. intros; lia.
  - cbn [index_of_pass damage]. by rewrite H1.
  - cbn [index_of_pass total_bytes]. cbn [index_of_pass segments] in Hsegs. by rewrite Hsegs.
Qed.
End pure.

(** ** Passes and refreshes *)

Definition log_items (L : list Seg) : list ScanItem := L ≫= seg_items.

(** What no pass changes of a manager. *)
Definition same_config (W W' : Wal) : Prop :=
  directory W' = directory W ∧ segment_bytes W' = segment_bytes W ∧ log_descriptor W' = log_descriptor W ∧
  append_uncertain W' = append_uncertain W ∧ tail_hold_depth W' = tail_hold_depth W.

Lemma extends_nil L : extends [] L.
Proof. by left. Qed.

Lemma pieces_items dir F L l sizes : holds dir F L → discovered dir F l → sizes_are F l.*2 sizes →
  pieces_from L l [] ≫= piece_items = log_items L.
Proof.
  intros HL Hl Hsz. unfold pieces_from. rewrite bind_fmap_l.
  rewrite (bind_discovered dir F L l sizes HL Hl Hsz).
  - apply bind_ext_in. intros s Hs. unfold piece_items, seg_items. cbn [fst snd seg_pair].
    rewrite (entries_in_elem L s) by (done || by eapply names_NoDup). done.
  - intros x Hx Hz. rewrite (entries_in_not L).
    + unfold piece_items. cbn [fst snd]. by rewrite drop_nil.
    + intros (s & E & Hs)%list_elem_of_fmap. destruct (seg_discovered dir F L l sizes HL Hl Hsz s Hs) as (_ & Hsz' & ?).
      rewrite <-E in Hsz'. lia.
Qed.

Lemma knows_nil : knows [] (MkPass ∅ ∅ NO_LSN 0 None).
Proof. constructor; [|done..|constructor|done]. intros n. unfold tally_at. cbn. by rewrite lookup_empty. Qed.

Section passing.
Context {Dev : Type} {SD : StorageDevice Dev} {SL : StorageLaws Dev} {LL : LogLaws Dev}.
#[local] Abbreviation World := (@WalManager.World Dev).
Implicit Types (w : World) (F : gmap pystr bytes) (R : pystr → option bytes → Prop) (W : Wal).

(** What a pass leaves when the device holds [L]. *)
Definition passed F L W W' : Prop := same_config W W' ∧ synced F L W'.

Lemma passed_index F L W l sizes p u : holds (directory W) F L → discovered (directory W) F l → sizes_are F l.*2 sizes →
  (p_damage p = None → tracks L (index_of_pass l sizes p)) →
  passed F L W (with_pass true (index_of_pass l sizes p) u W).
Proof.
  intros HL Hl Hsz Ht. split; [by split_and!|]. constructor; cbn; [done|done| |done|].
  - by apply (lists_pass (directory W) F L l sizes).
  - exact (following_above (directory W) F l sizes Hl Hsz).
Qed.

Lemma index_pass_from stop d0 F R W L : holds (directory W) F L →
  spec (from_ d0 F R W) (index_pass stop)
    (λ items w, ∃ W', at_ F R W' w ∧ passed F L W W' ∧ (damage (index W') = None → items = log_items L) ∧
                (stop = false → damage (index W') = None) ∧ (damage (index W') = None ∨ blamed d0 F (dev w)))
    (at_ F R W).
Proof.
  intros HL. unfold index_pass. eapply bind_from; [auto with trails|apply discover_at|done|]. intros l Hl.
  eapply bind_from; [auto with trails|apply sizes_at|done|]. intros sizes Hsz. cbv zeta.
  pose proof (pieces_contiguous (directory W) F L l sizes HL Hl Hsz [] (extends_nil L)) as Hcon.
  pose proof (pieces_chunks (directory W) F L l sizes HL Hl Hsz [] (extends_nil L) ∅) as Hch.
  eapply spec_bind; [apply (walk_from (keeping (account_once stop)) d0 F R W l.*2 sizes ∅ None (MkPass ∅ ∅ NO_LSN 0 None, []) (pieces_from L l []))|].
  { apply Hch. intros n _. unfold size_in. by rewrite lookup_empty. }
  { exact Hcon. }
  intros out w [Hout Hw]. revert Hw. destruct out as [[p items]|[p items] n e].
  - pose proof (consume_all_once stop (MkPass ∅ ∅ NO_LSN 0 None) (pieces_from L l []) eq_refl) as Hc.
    rewrite (consume_keeping _ _ [] _ _ Hc) in Hout.
    destruct Hout as [[= <- <-]|[=]]. intros (HF & HRc & HW). eexists. split; [by split_and!|]. cbn [wal]. rewrite HW. split.
    + apply passed_index; [done..|]. intros _. eapply pass_tracks; [done..|apply extends_nil|apply knows_nil].
    + cbn. rewrite pass_all_damage. split; [intros _; by apply (pieces_items (directory W) F L l sizes)|]. split; [done|by left].
  - destruct (stop && absorbed e) eqn:Hstop; [|done]. apply andb_true_iff in Hstop as [Hstop Habs].
    intros (HF & HRc & HW). eexists. split; [by split_and!|]. cbn [wal]. rewrite HW. split; [by apply passed_index|]. split; [done|].
    split; [by rewrite Hstop|]. right. destruct Hout as [Hn Hu]. destruct (size_in_are _ _ _ _ Hsz Hn) as (c & Hc & Hz).
    exists n, c, (size_in ∅ n). split; [done|]. split; [unfold size_in; by rewrite lookup_empty|]. rewrite <-Hz. by apply Hu.
Qed.

Lemma index_pass_at stop F R W L : holds (directory W) F L →
  spec (at_ F R W) (index_pass stop)
    (λ items w, ∃ W', at_ F R W' w ∧ passed F L W W' ∧ (damage (index W') = None → items = log_items L) ∧
                (stop = false → damage (index W') = None))
    (at_ F R W).
Proof.
  intros HL w Hw. pose proof (index_pass_from stop (dev w) F R W L HL w) as H. destruct Hw as (<- & <- & <-). specialize (H (from_here w)).
  destruct (index_pass stop w) as [[items|e] w']; [|done]. destruct H as (W' & H1 & H2 & H3 & H4 & _). by exists W'.
Qed.

Lemma rebuild_at F R W L : holds (directory W) F L →
  spec (at_ F R W) rebuild (λ _ w, ∃ W', at_ F R W' w ∧ passed F L W W') (at_ F R W).
Proof.
  intros HL. unfold rebuild. eapply spec_bind; [by apply index_pass_at|]. intros items w (W' & Hw & Hp & _ & _).
  by exists W'.
Qed.
End passing.

(** ** What a manager remembers *)

(** The manager [W] once saw the log [L0] under [dir]. *)
Record knew (dir : pystr) (L0 : list Seg) (W : Wal) : Prop := {
  knew_open : opened W = true;
  knew_indexed : indexed W = true;
  knew_lists : lists L0 (index W);
  knew_tracks : damage (index W) = None → tracks L0 (index W);
  knew_next : MIN_SEGMENT_NUMBER <= next_number (index W);
  knew_seg s : s ∈ L0 → parse_segment_number dir (s_name s) = Some (s_number s) ∧ 0 < seg_span s ∧
                         s_entries s ≠ [] ∧ s_number s < next_number (index W);
  knew_names : NoDup (s_name <$> L0);
  knew_positive : Forall (λ r, 0 < lsn r) (log_records L0)
}.

(** What may have become of the log since: the segment it ended in is gone, or it lost whole
    segments at the front and got records and segments at the end. *)
Definition later (F : gmap pystr bytes) (L0 L : list Seg) : Prop :=
  L0 = []
  ∨ (∃ s, last L0 = Some s ∧ s_name s ∉ s_name <$> L)
  ∨ ∃ k, drop k L0 ≠ [] ∧ extends (drop k L0) L ∧ ∀ s, s ∈ take k L0 → F !! s_name s = None.

Lemma synced_knew F L W : holds (directory W) F L → synced F L W → knew (directory W) L W.
Proof.
  intros HL [Ho Hi Hli Ht [Hn1 Hn2]]. constructor; try done.
  - intros s Hs. destruct (holds_seg _ _ _ HL s Hs) as (Hp & Hne & c & Hc & Hcl). split_and!; [done| |done|].
    + unfold seg_span. rewrite (clean_span _ _ Hcl). destruct (s_entries s) as [|[k r] es]; [done|].
      inversion Hcl as [|? ? ? ? Hd ?]; subst. apply clean_head in Hd. lia.
    + apply (Hn2 _ (s_name s)). split; [by exists c|done].
  - by eapply names_NoDup.
  - by apply (holds_positive _ _ _ HL).
Qed.

Lemma later_refl F L : later F L L.
Proof.
  destruct L as [|s L] using rev_ind; [by left|]. right. right. exists 0%nat. rewrite drop_0, take_0. split_and!.
  - by destruct L.
  - right. exists L, s, [], []. split; [done|]. unfold seg_append. rewrite !app_nil_r. by destruct s.
  - by intros t ?%not_elem_of_nil.
Qed.

Lemma next_expected_last rs : Forall (λ r, 0 < lsn r) rs →
  next_expected None rs = if last_of NO_LSN rs =? 0 then None else Some (last_of NO_LSN rs + 1).
Proof.
  destruct rs as [|r rs] using rev_ind; [done|]. intros [_ Hr]%Forall_app. rewrite Forall_singleton in Hr.
  rewrite next_expected_app, last_of_app. cbn [next_expected last_of foldl]. by destruct (Z.eqb_spec (lsn r) 0); [lia|].
Qed.

Section remembering.
Context (dir : pystr) (L0 : list Seg) (W : Wal) (HK : knew dir L0 W).

Lemma knew_cached : name <$> segments (index W) = s_name <$> L0.
Proof.
  pose proof (knew_lists _ _ _ HK) as H. unfold lists in H. apply (f_equal (fmap fst)) in H.
  by rewrite <-!list_fmap_compose in H.
Qed.

Lemma known_lookup n : match known_segments (index W) !! n with
  | Some i => ∃ s, s ∈ L0 ∧ s_name s = n ∧ size_bytes i = seg_span s ∧ (damage (index W) = None → i = seg_info s)
  | None => n ∉ s_name <$> L0
  end.
Proof.
  unfold known_segments. destruct (list_to_map _ !! n) as [i|] eqn:E.
  - apply elem_of_list_to_map_2, list_elem_of_fmap in E as (j & [= -> ->] & Hj). apply list_elem_of_lookup in Hj as [k Hk].
    pose proof (knew_lists _ _ _ HK) as H. unfold lists in H. apply (f_equal (λ l, l !! k)) in H.
    rewrite !list_lookup_fmap, Hk in H. destruct (L0 !! k) as [s|] eqn:Es; [|done]. injection H as Hn Hz.
    exists s. split_and!; [by eapply list_elem_of_lookup_2|done|done|]. intros Hd.
    pose proof (tracks_segments _ _ (knew_tracks _ _ _ HK Hd)) as Ht. rewrite Ht, list_lookup_fmap, Es in Hk. by injection Hk.
  - apply not_elem_of_list_to_map in E. rewrite <-list_fmap_compose in E. rewrite <-knew_cached. exact E.
Qed.

Lemma known_elem s : s ∈ L0 → ∃ i, known_segments (index W) !! s_name s = Some i ∧ size_bytes i = seg_span s ∧
  (damage (index W) = None → i = seg_info s).
Proof.
  intros Hs. pose proof (known_lookup (s_name s)) as H. destruct (known_segments (index W) !! s_name s) as [i|].
  - destruct H as (t & Ht & E & Hz & Hi). exists i. split; [done|].
    assert (t = s) as ->; [|done]. pose proof (knew_names _ _ _ HK) as Hnd.
    apply list_elem_of_lookup in Ht as [a Ha], Hs as [b Hb]. assert (a = b) as ->; [|congruence].
    eapply (NoDup_lookup _ _ _ (s_name s) Hnd); rewrite list_lookup_fmap; [rewrite Ha|rewrite Hb]; cbn; congruence.
  - destruct H. by apply list_elem_of_fmap_2.
Qed.
End remembering.

(** [K] are the last of the segments [L0], all that are still named when not all are. *)
Record remains (names : list pystr) (K L0 : list Seg) : Prop := {
  rem_split : ∃ gone, L0 = gone ++ K ∧ ∀ s, s ∈ gone → s_name s ∉ names;
  rem_named s : s ∈ K → s_name s ∈ names;
  rem_some : K = [] → L0 = []
}.

Definition by_name {A} (g : Seg → A) (L : list Seg) : gmap pystr A := list_to_map ((λ s, (s_name s, g s)) <$> L).

Lemma by_name_elem {A} (g : Seg → A) L s : NoDup (s_name <$> L) → s ∈ L → by_name g L !! s_name s = Some (g s).
Proof.
  intros Hn Hs. apply elem_of_list_to_map_1; [by rewrite <-list_fmap_compose|].
  by apply (list_elem_of_fmap_2 (λ s, (s_name s, g s))).
Qed.

Lemma by_name_not {A} (g : Seg → A) L n : n ∉ s_name <$> L → by_name g L !! n = None.
Proof. intros Hn. apply not_elem_of_list_to_map. by rewrite <-list_fmap_compose. Qed.

Lemma still_named_remains {A} (g : Seg → A) names K L0 : NoDup (s_name <$> L0) → remains names K L0 →
  still_named names (by_name g L0) = by_name g K.
Proof.
  intros Hn [(gone & E & Hgone) Hnamed _]. apply map_eq. intros n. unfold still_named. rewrite map_lookup_filter.
  assert (NoDup (s_name <$> K)) as HnK by (rewrite E, fmap_app in Hn; by apply NoDup_app in Hn as (_ & _ & ?)).
  destruct (decide (n ∈ s_name <$> K)) as [(s & -> & Hs)%list_elem_of_fmap|Hno].
  - rewrite !by_name_elem by (done || rewrite E; apply elem_of_app; by right). cbn. by rewrite option_guard_True by auto.
  - rewrite (by_name_not _ K) by done. destruct (by_name g L0 !! n) as [a|] eqn:Ea; [|done]. cbn.
    rewrite option_guard_False; [done|]. cbn. intros Hin. apply elem_of_list_to_map_2, list_elem_of_fmap in Ea as (s & [= -> ->] & Hs).
    rewrite E in Hs. apply elem_of_app in Hs as [Hs|Hs]; [by apply (Hgone s)|]. apply Hno. by apply list_elem_of_fmap_2.
Qed.

Lemma last_of_nonempty a b rs : rs ≠ [] → last_of a rs = last_of b rs.
Proof. destruct rs; done. Qed.

Lemma log_records_app A B : log_records (A ++ B) = log_records A ++ log_records B.
Proof. apply bind_app. Qed.

(** The pass that goes on from what is remembered. *)
Definition remembered (names : list pystr) (i : Index) : Pass :=
  MkPass (tally_of <$> still_named names (known_segments i)) (still_named names (marks i)) (log_last_lsn i) (max_epoch i) (damage i).

Section remaining.
Context (dir : pystr) (L0 K : list Seg) (W : Wal) (names : list pystr).
Context (HK : knew dir L0 W) (Hd : damage (index W) = None) (HR : remains names K L0).

Lemma remains_NoDup : NoDup (s_name <$> K).
Proof. pose proof (knew_names _ _ _ HK) as Hn. destruct HR as [(gone & -> & _) _ _]. rewrite fmap_app in Hn. by apply NoDup_app in Hn as (_ & _ & ?). Qed.

Lemma remains_in s : s ∈ K → s ∈ L0.
Proof. destruct HR as [(gone & -> & _) _ _]. intros. apply elem_of_app. by right. Qed.

Lemma remains_records : ∃ before, log_records L0 = before ++ log_records K.
Proof. destruct HR as [(gone & -> & _) _ _]. exists (log_records gone). apply log_records_app. Qed.

Lemma known_by_name : known_segments (index W) = by_name seg_info L0.
Proof.
  unfold known_segments, by_name. rewrite (tracks_segments _ _ (knew_tracks _ _ _ HK Hd)), <-list_fmap_compose. done.
Qed.

Lemma remembered_tally n : tally_at (remembered names (index W)) n = tally_after no_tally (entries_in K n).*2.
Proof.
  unfold tally_at, remembered. cbn [tallies]. rewrite lookup_fmap, known_by_name.
  rewrite (still_named_remains seg_info names K L0) by (done || apply HK).
  destruct (decide (n ∈ s_name <$> K)) as [(s & -> & Hs)%list_elem_of_fmap|Hno].
  - rewrite by_name_elem, entries_in_elem by (done || apply remains_NoDup). cbn [fmap option_fmap option_map default].
    destruct (knew_seg _ _ _ HK s (remains_in s Hs)) as (_ & _ & Hne & _). fold (seg_records s). unfold id, tally_of, seg_info.
    cbn [first_lsn Segment.last_lsn record_count]. destruct (seg_records s) as [|r rs] eqn:Er; [unfold seg_records in Er; by destruct (s_entries s)|].
    rewrite (tally_records (r :: rs) r); [|done| |done].
    + f_equal. rewrite <-Er. unfold seg_records, zlen. by rewrite length_fmap.
    + rewrite <-Er. pose proof (knew_positive _ _ _ HK) as Hp. rewrite Forall_forall in Hp |- *. intros x Hx. apply Hp.
      apply list_elem_of_bind. exists s. split; [done|by apply remains_in].
  - by rewrite by_name_not, entries_in_not.
Qed.

Lemma remembered_last : log_last_lsn (index W) = last_of NO_LSN (log_records K).
Proof.
  rewrite (tracks_last _ _ (knew_tracks _ _ _ HK Hd)). destruct HR as [(gone & E & _) _ Hs].
  destruct K as [|s rest] eqn:EK; [by rewrite Hs|]. rewrite E, log_records_app, last_of_app. apply last_of_nonempty.
  cbn. destruct (knew_seg _ _ _ HK s) as (_ & _ & Hne & _); [rewrite E; apply elem_of_app; right; by left|].
  unfold seg_records. by destruct (s_entries s).
Qed.

Lemma remembered_knows : knows K (remembered names (index W)).
Proof.
  constructor.
  - apply remembered_tally.
  - cbn. rewrite (tracks_marks _ _ (knew_tracks _ _ _ HK Hd)). apply (still_named_remains _ _ _ _ (knew_names _ _ _ HK) HR).
  - apply remembered_last.
  - cbn. pose proof (tracks_epoch _ _ (knew_tracks _ _ _ HK Hd)) as He. destruct remains_records as [b E]. rewrite E in He.
    by apply Forall_app in He as [_ ?].
  - done.
Qed.

Lemma remembered_expected :
  (if log_last_lsn (index W) =? 0 then None else Some (log_last_lsn (index W) + 1)) = next_expected None (log_records K).
Proof.
  rewrite next_expected_last, remembered_last; [done|]. destruct remains_records as [b E].
  pose proof (knew_positive _ _ _ HK) as Hp. rewrite E in Hp. by apply Forall_app in Hp as [_ ?].
Qed.

Lemma remembered_starts n : size_in (size_bytes <$> still_named names (known_segments (index W))) n = span (entries_in K n).
Proof.
  unfold size_in. rewrite lookup_fmap, known_by_name, (still_named_remains seg_info names K L0) by (done || apply HK).
  destruct (decide (n ∈ s_name <$> K)) as [(s & -> & Hs)%list_elem_of_fmap|Hno].
  - by rewrite by_name_elem, entries_in_elem by (done || apply remains_NoDup).
  - by rewrite by_name_not, entries_in_not.
Qed.

Lemma remembered_starts_nonneg n : 0 <= size_in (size_bytes <$> still_named names (known_segments (index W))) n.
Proof.
  rewrite remembered_starts. destruct (decide (n ∈ s_name <$> K)) as [(s & -> & Hs)%list_elem_of_fmap|Hno]; [|by rewrite entries_in_not].
  rewrite entries_in_elem by (done || apply remains_NoDup). destruct (knew_seg _ _ _ HK s (remains_in s Hs)) as (_ & H & _). unfold seg_span in H. lia.
Qed.
End remaining.

Section catching_up.
Context (F : gmap pystr bytes) (L0 L : list Seg) (W : Wal) (l : list (Z * pystr)).
Context (HK : knew (directory W) L0 W) (HL : holds (directory W) F L) (Hlater : later F L0 L).
Context (Hl : discovered (directory W) F l).

Lemma found_named s : s ∈ L0 → s_name s ∈ l.*2 → is_Some (F !! s_name s).
Proof.
  intros _ ([n f] & E & Hin)%list_elem_of_fmap. cbn in E. subst f. by apply (disc_mem _ _ _ Hl) in Hin as [? _].
Qed.

Lemma named_found s : s ∈ L → s_name s ∈ l.*2.
Proof.
  intros Hs. destruct (holds_seg _ _ _ HL s Hs) as (Hp & _ & c & Hc & _).
  apply (list_elem_of_fmap_2 snd l (s_number s, s_name s)), (disc_mem _ _ _ Hl). split; [by exists c|done].
Qed.

(** A remembered segment that is named but is not of the log any more is an empty file. *)
Lemma named_empty s : s ∈ L0 → s_name s ∈ l.*2 → s_name s ∉ s_name <$> L → F !! s_name s = Some [].
Proof.
  intros Hs ([n f] & E & Hin)%list_elem_of_fmap Hno. cbn in E. subst f. apply (disc_mem _ _ _ Hl) in Hin.
  destruct (holds_file _ _ _ HL _ _ Hin) as [(t & Ht & Et)|?]; [|done]. destruct Hno. rewrite <-Et. by apply list_elem_of_fmap_2.
Qed.

Lemma later_remains : (∀ s, last L0 = Some s → s_name s ∈ l.*2) →
  (∀ s c, s ∈ L0 → F !! s_name s = Some c → s_name s ∈ l.*2 → seg_span s <= zlen c) →
  ∃ K, remains l.*2 K L0 ∧ extends K L.
Proof.
  intros Hanchor Hsize. destruct Hlater as [->|[(s & Hs & Hno)|(k & Hne & Hext & Hgone)]].
  - exists []. split; [|by left]. constructor; [|by intros s ?%not_elem_of_nil|done].
    exists []. split; [done|]. by intros s ?%not_elem_of_nil.
  - exfalso. assert (s ∈ L0) as Hin by (by apply last_Some_elem_of). pose proof (Hanchor s Hs) as Hf.
    specialize (Hsize s [] Hin (named_empty s Hin Hf Hno) Hf). destruct (knew_seg _ _ _ HK s Hin) as (_ & ? & _).
    change (zlen (@nil byte)) with 0 in Hsize. lia.
  - exists (drop k L0). split; [|done]. constructor; [|intros s Hs|done].
    + exists (take k L0). split; [by rewrite take_drop|]. intros s Hs Hin.
      destruct (found_named s) as [c Hc]; [by eapply elem_of_take in Hs as (? & ? & _); eapply list_elem_of_lookup_2|done|].
      by rewrite Hgone in Hc.
    + destruct (names_split (directory W) F L HL (drop k L0) Hext) as [rest E].
      assert (s_name s ∈ s_name <$> L) as (t & -> & Ht)%list_elem_of_fmap; [|by apply named_found].
      rewrite E. apply elem_of_app. left. by apply list_elem_of_fmap_2.
Qed.

(** When the files named are those remembered, the last of the same size, nothing happened. *)
Lemma later_same : l.*2 = s_name <$> L0 →
  (∀ s, last L0 = Some s → ∃ c, F !! s_name s = Some c ∧ zlen c = seg_span s) → L0 = L.
Proof.
  intros Hnames Htail. destruct Hlater as [->|[(s & Hs & Hno)|(k & Hne & Hext & Hgone)]].
  - symmetry. apply elem_of_nil_inv. intros s Hs%named_found. rewrite Hnames in Hs. by apply not_elem_of_nil in Hs.
  - exfalso. assert (s ∈ L0) as Hin by (by apply last_Some_elem_of). destruct (Htail s Hs) as (c & Hc & Hz).
    rewrite (named_empty s Hin) in Hc; [|rewrite Hnames; by apply list_elem_of_fmap_2|done]. injection Hc as <-.
    destruct (knew_seg _ _ _ HK s Hin) as (_ & ? & _). change (zlen (@nil byte)) with 0 in Hz. lia.
  - assert (drop k L0 = L0) as E0.
    { pose proof (take_drop k L0) as Ek. destruct (take k L0) as [|s t] eqn:Et; [done|]. exfalso.
      assert (s ∈ L0) as Hin by (rewrite <-Ek; by left).
      destruct (found_named s Hin) as [c Hc]; [rewrite Hnames; by apply list_elem_of_fmap_2|].
      by rewrite Hgone in Hc by left. }
    rewrite E0 in *. clear Hgone. pose proof Hext as Hx. destruct Hext as [->|(K' & s & ext & fresh & EK & EL)]; [done|].
    assert (fresh = []) as ->.
    { destruct fresh as [|t fresh]; [done|]. exfalso. assert (t ∈ L) as Ht by (rewrite EL, !elem_of_app; right; right; by left).
      pose proof (named_found t Ht) as Hin. rewrite Hnames in Hin. exact (fresh_not_in _ _ _ HL L0 Hx K' s ext (t :: fresh) t EK EL ltac:(by left) Hin). }
    rewrite app_nil_r in EL. rewrite EK, EL. f_equal. f_equal. destruct s as [n f es]. unfold seg_append. cbn. f_equal.
    destruct (Htail (MkSeg n f es)) as (c & Hc & Hz); [by rewrite EK, last_snoc|].
    destruct (holds_seg _ _ _ HL (MkSeg n f (es ++ ext))) as (_ & _ & c' & Hc' & Hcl);
      [rewrite EL; apply elem_of_app; right; by left|]. cbn [s_name s_entries] in *. rewrite Hc in Hc'. injection Hc' as <-.
    pose proof (clean_span _ _ Hcl) as Hs. rewrite span_app in Hs. unfold seg_span in Hz. cbn [s_entries] in Hz.
    destruct ext as [|[j r] ext]; [by rewrite app_nil_r|]. exfalso. apply clean_drop in Hcl as Hd.
    pose proof (clean_span _ _ Hd) as Hsd. inversion Hd as [|? ? ? ? Hh ?]; subst. apply clean_head in Hh. lia.
Qed.
End catching_up.

Section refreshing.
Context {Dev : Type} {SD : StorageDevice Dev} {SL : StorageLaws Dev} {LL : LogLaws Dev}.
#[local] Abbreviation World := (@WalManager.World Dev).
Implicit Types (w : World) (R : pystr → option bytes → Prop) (W : Wal).

(** Nothing but the list of unflushed segments may differ. *)
Definition undecided (F : gmap pystr bytes) R W w : Prop := ∃ u, at_ F R (with_unflushed u W) w.

Lemma at_undecided (F : gmap pystr bytes) R W w : at_ F R W w → undecided F R W w.
Proof. intros H. exists (unflushed W). by destruct W. Qed.

Lemma walk_skip {S} (f : S → ScanItem → verdict S) (F : gmap pystr bytes) R W names sizes starts expected s :
  (∀ n, n ∈ names → size_in sizes n <= size_in starts n) →
  spec (at_ F R W) (walk f names sizes starts expected s) (λ out w, out = Finished s ∧ at_ F R W w) (at_ F R W).
Proof.
  induction names as [|n names IH]; intros H; cbn [walk]; [by intros w Hw|].
  rewrite (proj2 (Z.leb_le _ _)) by (apply H; by left). apply IH. intros m Hm. apply H. by right.
Qed.

Lemma tail_walk_from (d0 : Dev) (F : gmap pystr bytes) R W W' L0 L l sizes : knew (directory W) L0 W → holds (directory W) F L → later F L0 L →
  discovered (directory W) F l → sizes_are F l.*2 sizes →
  (∀ s, last L0 = Some s → s_name s ∈ l.*2) →
  (∀ n, n ∈ l.*2 → has_shrunk (known_segments (index W)) sizes n = false) →
  (is_Some (damage (index W)) → ∀ n, n ∈ l.*2 → is_changed (known_segments (index W)) sizes n = false) →
  spec (from_ d0 F R W') (walk (account true) l.*2 sizes (size_bytes <$> still_named l.*2 (known_segments (index W)))
        (if log_last_lsn (index W) =? 0 then None else Some (log_last_lsn (index W) + 1)) (remembered l.*2 (index W)))
    (λ out w, match out with
              | Finished q => (p_damage q = None → tracks L (index_of_pass l sizes q)) ∧ p_damage q = damage (index W)
              | Broken _ _ e => absorbed e = true → blamed d0 F (dev w)
              end ∧ at_ F R W' w) (at_ F R W').
Proof.
  intros HK HL Hlater Hl Hsz Hanchor Hshrunk Hchanged. destruct (damage (index W)) as [f|] eqn:Hd.
  - eapply (spec_weaken _ (at_ F R W')); [apply (walk_skip _ F R W')|by intros w (? & _)| |done].
    + intros n Hn. specialize (Hchanged ltac:(by exists f) n Hn). unfold is_changed in Hchanged. unfold size_in at 2.
      rewrite lookup_fmap. unfold still_named. rewrite map_lookup_filter. destruct (known_segments (index W) !! n) as [i|] eqn:Ei; [|done].
      apply negb_false_iff, Z.eqb_eq in Hchanged. cbn. rewrite option_guard_True by done. cbn. lia.
    + intros out w [-> Hw]. split; [|done]. cbn. split; [by rewrite Hd|done].
  - destruct (later_remains F L0 L W l HK HL Hlater Hl Hanchor) as (K & HR & Hext).
    { intros s c Hs Hc Hn. specialize (Hshrunk _ Hn). unfold has_shrunk in Hshrunk.
      destruct (known_elem _ _ _ HK s Hs) as (i & Hi & Hz & _). rewrite Hi in Hshrunk. apply Z.ltb_ge in Hshrunk.
      destruct (size_in_are _ _ _ _ Hsz Hn) as (c' & Hc' & Hz'). rewrite Hc in Hc'. injection Hc' as <-. lia. }
    rewrite (remembered_expected (directory W) L0 K W l.*2 HK Hd HR).
    eapply spec_weaken; [apply (walk_from (account true) d0 F R W' l.*2 sizes _ _ _ (pieces_from L l K))|done| |done].
    + apply (pieces_chunks (directory W) F L l sizes HL Hl Hsz K Hext). intros n _.
      exact (remembered_starts (directory W) L0 K W l.*2 HK Hd HR n).
    + exact (pieces_contiguous (directory W) F L l sizes HL Hl Hsz K Hext).
    + intros out w [Hout Hw]. split; [|done]. destruct out as [q|q n e].
      * rewrite consume_all in Hout. destruct Hout as [[= <-]|[=]]. split; [|by rewrite pass_all_damage]. intros _. eapply pass_tracks; [done..|].
        exact (remembered_knows (directory W) L0 K W l.*2 HK Hd HR).
      * intros Ha. destruct Hout as [Hn Hu]. destruct (size_in_are _ _ _ _ Hsz Hn) as (c & Hc & Hz). eexists n, c, _. split; [done|].
        rewrite <-Hz. split; [|by apply Hu]. exact (remembered_starts_nonneg (directory W) L0 K W l.*2 HK Hd HR n).
Qed.

Lemma size_read_at (F : gmap pystr bytes) R W f :
  spec (at_ F R W) (on_dev (log_size f)) (λ n w, (∃ c, F !! f = Some c ∧ n = zlen c) ∧ at_ F R W w) (at_ F R W).
Proof. apply (reading_at _ (λ F n, ∃ c, F !! f = Some c ∧ n = zlen c)), log_size_law. Qed.

(** What the quick look at the names and the size of the last segment says. *)
Lemma unchanged_at (F : gmap pystr bytes) R W L0 L l : knew (directory W) L0 W → holds (directory W) F L → later F L0 L →
  discovered (directory W) F l →
  spec (at_ F R W)
    (match last (segments (index W)) with
     | None => mret (bool_decide (l.*2 = []))
     | Some tail =>
         if bool_decide (l.*2 = name <$> segments (index W)) then n ← on_dev (log_size (name tail)); mret (n =? size_bytes tail)
         else mret false
     end)
    (λ b w, (b = true → passed F L W W) ∧ at_ F R W w) (at_ F R W).
Proof.
  intros HK HL Hlater Hl. pose proof (knew_lists _ _ _ HK) as Hlist. pose proof (knew_cached _ _ _ HK) as Hcached.
  assert (l.*2 = s_name <$> L0 → L0 = L → passed F L W W) as Hsame.
  { intros Hn <-. split; [done|]. destruct HK as [Ho Hi Hli Ht Hnx Hseg Hnd Hpos]. constructor; [done..|]. split; [done|].
    intros m f Hf. destruct Hf as [Hin Hp]. assert (f ∈ l.*2) as Hf.
    { by apply (list_elem_of_fmap_2 snd l (m, f)), (disc_mem _ _ _ Hl). }
    rewrite Hn in Hf. apply list_elem_of_fmap in Hf as (s & -> & Hs). destruct (Hseg s Hs) as (Hp' & _ & _ & ?).
    rewrite Hp in Hp'. by injection Hp' as ->. }
  unfold lists in Hlist. destruct (last (segments (index W))) as [tail|] eqn:Etail.
  - case_bool_decide as En; [|by intros w Hw].
    rewrite Hcached in En. eapply bind_at; [apply size_read_at|done|]. intros n (c & Hc & ->) w Hw. split; [|done].
    intros Hz%Z.eqb_eq. apply Hsame; [done|]. apply (later_same F L0 L W l HK HL Hlater Hl En). intros s Hs.
    apply (f_equal last) in Hlist. rewrite !fmap_last, Etail, Hs in Hlist. injection Hlist as Hn' Hz'.
    rewrite <-Hn'. exists c. split; [done|]. lia.
  - intros w Hw. split; [|done]. intros Hn%bool_decide_eq_true.
    apply last_None in Etail. rewrite Etail in Hlist. assert (L0 = []) as -> by (by destruct L0).
    apply Hsame; [by rewrite Hn|]. by apply (later_same F [] L W l HK HL Hlater Hl).
Qed.

(** What a refresh leaves: everything known, or a bounded one declined. *)
Definition refreshed (F : gmap pystr bytes) R W L (limit answer : option Z) (w : World) : Prop :=
  match answer with
  | Some _ => ∃ W', at_ F R W' w ∧ passed F L W W'
  | None => limit ≠ None ∧ undecided F R W w
  end.

Lemma passed_unflushed (F : gmap pystr bytes) L W u W' : passed F L (with_unflushed u W) W' → passed F L W W'.
Proof. by intros [? ?]. Qed.

(** The same with why damage is reported, when it is, and how many bytes were to be read. *)
Definition caught_up (d0 : Dev) (F : gmap pystr bytes) R W L (limit answer : option Z) (w : World) : Prop :=
  match answer with
  | Some n => ∃ W', at_ F R W' w ∧ passed F L W W' ∧
      (damage (index W') = None ∨ indexed W = true ∧ damage (index W') = damage (index W) ∨ blamed d0 F (dev w)) ∧
      ∀ m, limit = Some m → n <= Z.max 0 m
  | None => limit ≠ None ∧ undecided F R W w
  end.

(** The full pass a refresh falls back to when it is not bounded. *)
Lemma full_from (limit : option Z) (d0 : Dev) (F : gmap pystr bytes) R W u L : holds (directory W) F L →
  spec (from_ d0 F R (with_unflushed u W))
    (match limit with Some _ => mret None | None => _ ← rebuild; mret (Some 0) end)
    (caught_up d0 F R W L limit) (undecided F R W).
Proof.
  intros HL. destruct limit as [z|].
  - intros w (Hw & _). split; [done|]. by exists u.
  - unfold rebuild. eapply (spec_bind _ _ _ (λ _ w, ∃ W', at_ F R W' w ∧ passed F L (with_unflushed u W) W' ∧ (damage (index W') = None ∨ blamed d0 F (dev w)))).
    { eapply spec_bind; [eapply spec_weaken; [apply (index_pass_from true d0 F R (with_unflushed u W) L HL)|done|intros items w H; exact H|intros w Hw; by exists u]|].
      intros items w (W' & H1 & H2 & _ & _ & H3). by exists W'. }
    intros _ w (W' & Hw & Hp & Hd). exists W'. split; [done|]. split; [by eapply passed_unflushed|]. split; [|done]. tauto.
Qed.

Lemma full_from' (limit : option Z) (d0 : Dev) (F : gmap pystr bytes) R W L : holds (directory W) F L →
  spec (from_ d0 F R W) (match limit with Some _ => mret None | None => _ ← rebuild; mret (Some 0) end)
    (caught_up d0 F R W L limit) (undecided F R W).
Proof. intros HL. pose proof (full_from limit d0 F R W (unflushed W) L HL) as H. by destruct W. Qed.

Lemma install_from (d0 d : Dev) (F : gmap pystr bytes) R W u L l sizes q (planned : Z) (limit : option Z) : holds (directory W) F L →
  discovered (directory W) F l → sizes_are F l.*2 sizes →
  (p_damage q = None → tracks L (index_of_pass l sizes q)) → indexed W = true →
  p_damage q = damage (index W) ∨ blamed d0 F d → (∀ m, limit = Some m → planned <= m) →
  spec (λ w, at_ F R (with_unflushed u W) w ∧ dev w = d)
    (_ ← update (λ V, with_pass true (index_of_pass l sizes q) (filter (λ name, is_Some (sizes !! name)) (unflushed V)) V);
     mret (Some planned))
    (caught_up d0 F R W L limit) (undecided F R W).
Proof.
  intros HL Hl Hsz Hq Hi Hd Hlim w [(HF & HR & HW) Hdev]. eexists. split; [by split_and!|]. cbn [wal dev]. rewrite HW.
  split; [eapply passed_unflushed, passed_index; done|]. split; [|intros m Hm; specialize (Hlim m Hm); lia].
  right. destruct Hd as [?|?]; [by left|right]. by rewrite Hdev.
Qed.

Lemma refresh_tail_from (d0 : Dev) (limit : option Z) (F : gmap pystr bytes) R W L : holds (directory W) F L →
  (indexed W = true → ∃ L0, knew (directory W) L0 W ∧ later F L0 L) →
  spec (from_ d0 F R W) (refresh_tail limit) (caught_up d0 F R W L limit) (undecided F R W).
Proof.
  intros HL Hknew. pose proof (at_undecided F R W) as HE. unfold refresh_tail.
  eapply bind_from; [auto with trails|apply (get_at _ _ _ _ (at_ F R W))|done|]. intros is_indexed ->.
  destruct (indexed W) eqn:Hi; cbn [negb]; [|by apply full_from'].
  destruct (Hknew eq_refl) as (L0 & HK & Hlater). clear Hknew.
  eapply bind_from; [auto with trails|apply discover_at|done|]. intros l Hl.
  eapply bind_from; [auto with trails|apply (get_at _ _ _ _ (at_ F R W))|done|]. intros i ->. cbv zeta.
  eapply bind_from; [trail|by apply (unchanged_at F R W L0 L l)|done|]. intros b Hb. destruct b.
  { intros w (Hw & _). exists W. split; [done|]. split; [by apply Hb|]. split; [by right; left|]. intros m _. lia. }
  clear Hb. rewrite (knew_cached _ _ _ HK). rewrite fmap_last.
  destruct (match s_name <$> last L0 with Some anchor => bool_decide (anchor ∉ l.*2) | None => false end) eqn:Ha; [by apply full_from'|].
  assert (∀ s, last L0 = Some s → s_name s ∈ l.*2) as Hanchor.
  { intros s Hs. rewrite Hs in Ha. cbn in Ha. by apply bool_decide_eq_false, dec_stable in Ha. }
  eapply bind_from; [auto with trails|apply sizes_at|done|]. intros sizes Hsz.
  destruct (bool_decide (is_Some (damage (index W))) && _) eqn:Hdc; [by apply full_from'|].
  eapply bind_from; [auto with trails|apply (get_at _ _ _ _ (at_ F R W))|done|]. intros u ->.
  eapply bind_from; [auto with trails|apply (update_at _ _ _ _ (at_ F R W))|done|]. intros _ _.
  destruct (existsb _ l.*2) eqn:Hsh; [by apply full_from|].
  destruct (match limit with Some _ => _ | None => false end) eqn:Hlim.
  { intros w (Hw & _). split; [by destruct limit|]. by eexists. }
  eapply (spec_bind _ _ (from_ d0 F R _)); [eapply spec_weaken; [eapply (tail_walk_from d0 F R W _ L0 L l sizes); try done|intros w Hw; exact Hw|intros out w Hw; exact Hw|intros w Hw; by eexists]|].
  { intros n Hn. destruct (has_shrunk _ _ n) eqn:E; [|done]. rewrite <-Hsh. symmetry. apply existsb_exists. exists n.
    by rewrite list_elem_of_In in Hn. }
  { intros Hd n Hn. rewrite bool_decide_eq_true_2 in Hdc by done. cbn in Hdc. apply bool_decide_eq_false, dec_stable in Hdc.
    destruct (is_changed _ _ n) eqn:E; [|done]. assert (n ∈ filter (λ n, is_changed (known_segments (index W)) sizes n = true) l.*2) as Hin
      by (by apply list_elem_of_filter). rewrite Hdc in Hin. by apply not_elem_of_nil in Hin. }
  match type of Hlim with match limit with Some _ => _ <? ?p | None => _ end = _ =>
    assert (∀ m, limit = Some m → p <= m) as Hp by (intros m ->; by apply Z.ltb_ge in Hlim) end.
  intros out w [Hout Hw]. destruct out as [q|q n e].
  - destruct Hout as [Ht Hd]. by eapply (install_from d0 (dev w) F R W _ L l sizes q); [..|by left| |split].
  - destruct (absorbed e); [|by eexists]. by eapply (install_from d0 (dev w) F R W _ L l sizes); [..|right; apply Hout| |split].
Qed.

Lemma refresh_tail_at (limit : option Z) (F : gmap pystr bytes) R W L : holds (directory W) F L →
  (indexed W = true → ∃ L0, knew (directory W) L0 W ∧ later F L0 L) →
  spec (at_ F R W) (refresh_tail limit) (refreshed F R W L limit) (undecided F R W).
Proof.
  intros HL HK w Hw. pose proof (refresh_tail_from (dev w) limit F R W L HL HK w) as H. destruct Hw as (<- & <- & <-). specialize (H (from_here w)).
  destruct (refresh_tail limit w) as [[[n|]|e] w']; [|done..]. destruct H as (W' & H1 & H2 & _). by exists W'.
Qed.
End refreshing.

(** ** Up to date *)

Section ready.
Context {Dev : Type} {SD : StorageDevice Dev} {SL : StorageLaws Dev} {LL : LogLaws Dev}.
#[local] Abbreviation World := (@WalManager.World Dev).
Implicit Types (w : World) (R : pystr → option bytes → Prop) (W : Wal).

(** A manager that can come to know the log [L] of its device: it never looked, or it once saw
    what [L] came from; while the tail is held it knows [L] already. *)
Record ready (F : gmap pystr bytes) L W : Prop := {
  ready_knew : indexed W = true → ∃ L0, knew (directory W) L0 W ∧ later F L0 L;
  ready_held : tail_hold_depth W ≠ 0 → synced F L W
}.

Lemma ready_synced (F : gmap pystr bytes) L W : holds (directory W) F L → synced F L W → ready F L W.
Proof. intros HL Hs. constructor; [|done]. intros _. exists L. split; [by apply (synced_knew F)|apply later_refl]. Qed.

Lemma refresh_if_needed_at (F : gmap pystr bytes) R W L : holds (directory W) F L → ready F L W →
  spec (at_ F R W) (refresh_tail_if_needed None) (λ _ w, ∃ W', at_ F R W' w ∧ passed F L W W') (undecided F R W).
Proof.
  intros HL [Hk Hh]. unfold refresh_tail_if_needed. eapply bind_at; [apply get_at|done|]. intros depth ->.
  destruct (Z.eqb_spec (tail_hold_depth W) 0) as [E|E].
  - eapply spec_weaken; [by apply (refresh_tail_at None F R W L)|done| |done].
    intros [n|] w; cbn [refreshed]; [done|]. by intros [? _].
  - intros w Hw. exists W. split; [done|]. split; [done|]. by apply Hh.
Qed.

Lemma require_open_at (F : gmap pystr bytes) R W :
  spec (at_ F R W) require_open (λ _ w, opened W = true ∧ at_ F R W w) (at_ F R W).
Proof.
  unfold require_open. eapply bind_at; [apply get_at|done|]. intros b ->. destruct (opened W) eqn:E; by intros w Hw.
Qed.

Lemma require_healthy_at (F : gmap pystr bytes) R W :
  spec (at_ F R W) require_healthy
    (λ _ w, (damage (index W) = None ∧ append_uncertain W = false) ∧ at_ F R W w) (at_ F R W).
Proof.
  unfold require_healthy. eapply bind_at; [apply get_at|done|]. intros i ->. eapply bind_at; [apply get_at|done|]. intros b ->.
  destruct (damage (index W)) as [f|]; [by intros w Hw|]. destruct (append_uncertain W); by intros w Hw.
Qed.

Lemma get_world_at (F : gmap pystr bytes) R W E : spec (at_ F R W) (get id) (λ a w, a = W ∧ at_ F R W w) E.
Proof. apply (get_at id). Qed.
End ready.
