(* ===== verification/WalAppend.v ===== *)
(** Appending to the log: what [append_many] writes when it succeeds, and what it leaves when it
    does not. *)

From S2P Require Import Prelude Ids Layout Utf8 WalRecord Segment Recovery Storage MemoryStorage WalScan WalManager WalTheorems.

#[local] Abbreviation Files := (gmap pystr bytes).

(** ** What a batch writes *)

(** A record under another number; the records of a batch under the numbers after [l]. *)
Definition at_lsn (r : WalRecord) (l : Z) : WalRecord :=
  Mk (record_type r) (payload r) (descriptor r) l (epoch r) (txn_id r) (flags r) (format_version r).

Fixpoint renumber (l : Z) (rs : list WalRecord) : list WalRecord :=
  match rs with [] => [] | r :: rs => at_lsn r (l + 1) :: renumber (l + 1) rs end.

(** Where the records that start at [offset] land. *)
Fixpoint places (offset : Z) (es : list (Z * WalRecord)) : list (Z * Z) :=
  match es with [] => [] | (n, r) :: es => (lsn r, offset) :: places (offset + n) es end.

Definition stamped_entries (st : list (WalRecord * bytes * Z)) : list (Z * WalRecord) :=
  (λ s, (zlen s.1.2, s.1.1)) <$> st.

Definition batch_entries (b : Batch) : list (Z * WalRecord) :=
  match b_header b with Some (h, image) => [(zlen image, h)] | None => [] end ++ stamped_entries (b_stamped b).

Lemma stamp_Ok batch l cursor st : stamp batch l cursor = Ok st →
  (stamped_entries st).*2 = renumber l batch ∧ (λ s, s.1.1) <$> st = renumber l batch ∧
  clean (concat ((λ s, s.1.2) <$> st)) (stamped_entries st) ∧
  (λ s, (lsn s.1.1, s.2)) <$> st = places cursor (stamped_entries st) ∧
  Forall (λ r, 0 <= epoch r) batch.
Proof.
  revert l cursor st. induction batch as [|r batch IH]; intros l cursor st; cbn [stamp].
  { intros [= <-]. split_and!; [done..|constructor|done|constructor]. }
  intros H. inv_ok H. injection H as <-.
  match goal with H1 : with_lsn r _ = Ok ?x, H2 : encode ?x = Ok ?img, H3 : stamp _ _ _ = Ok ?rest |- _ =>
    rename x into r', img into image, rest into st', H1 into Hr, H2 into Hi, H3 into Hst end.
  destruct (IH _ _ _ Hst) as (E1 & E2 & Hc & E4 & E5). unfold with_lsn in Hr.
  pose proof (proj1 (record_post_init_Ok _ _) Hr) as [-> (d & _ & _ & _ & _ & _ & _ & _ & Hepoch & _)]. fold (at_lsn r (l + 1)) in *.
  split_and!.
  - cbn. f_equal. exact E1.
  - cbn. f_equal. exact E2.
  - apply (clean_app image _ [(zlen image, at_lsn r (l + 1))]); [by apply clean_image|exact Hc].
  - cbn. f_equal. exact E4.
  - constructor; [cbn in Hepoch; lia|done].
Qed.

Lemma renumber_contiguous l e rs : (e = None ∨ e = Some (l + 1)) → contiguous e (renumber l rs).
Proof.
  revert l e. induction rs as [|r rs IH]; intros l e He; cbn [renumber contiguous]; [done|]. split.
  - intros x ->. destruct He as [?|[= ->]]; [done|]. done.
  - apply IH. by right.
Qed.

Lemma renumber_positive l rs : 0 <= l → Forall (λ r, 0 < lsn r) (renumber l rs).
Proof. revert l. induction rs as [|r rs IH]; intros l Hl; cbn [renumber]; constructor; [cbn; lia|apply IH; lia]. Qed.

Lemma renumber_last l rs a : rs ≠ [] → last_of a (renumber l rs) = l + zlen rs.
Proof.
  revert l a. induction rs as [|r rs IH]; intros l a Hne; [done|]. cbn [renumber last_of foldl]. rewrite zlen_cons.
  destruct rs as [|r' rs]; [cbn; unfold zlen; cbn; lia|]. fold (last_of (lsn (at_lsn r (l + 1))) (renumber (l + 1) (r' :: rs))).
  rewrite IH by done. lia.
Qed.

Lemma renumber_epoch l rs : epoch <$> renumber l rs = epoch <$> rs.
Proof. revert l. induction rs as [|r rs IH]; intros l; cbn; [done|]. by rewrite IH. Qed.

Lemma note_places m n o es :
  foldl (λ m p, note_mark m n p.1 p.2) m (places o es) =
    if decide (es = []) then m else <[n := notes (default [] (m !! n)) o es]> m.
Proof.
  revert m o. induction es as [|[k r] es IH]; intros m o; cbn [places foldl notes]; [done|].
  rewrite IH, note_mark_note. cbn [fst snd]. rewrite (decide_False (P := (k, r) :: es = [])) by done.
  destruct (decide (es = [])) as [->|]; [done|]. rewrite lookup_insert_eq. cbn [default]. by rewrite insert_insert_eq.
Qed.

(** ** The log after a batch *)

Definition grown (L : list Seg) (b : Batch) : list Seg :=
  if b_rolling b then L ++ [MkSeg (b_number b) (b_name b) (batch_entries b)]
  else match last L with Some s => removelast L ++ [seg_append s (batch_entries b)] | None => L end.

(** The batch [b] continues the log [L] under [dir]; [next] is the number of a fresh segment. *)
Record continues (dir : pystr) (L : list Seg) (next : Z) (b : Batch) : Prop := {
  cont_clean : clean (batch_blob b) (batch_entries b);
  cont_contiguous : contiguous (next_expected None (log_records L)) (batch_entries b).*2;
  cont_positive : Forall (λ r, 0 < lsn r) (batch_entries b).*2;
  cont_some : b_stamped b ≠ [];
  cont_placed : batch_placed b = places (b_size_before b) (batch_entries b);
  cont_where :
    if b_rolling b
    then segment_name dir next = Ok (b_name b) ∧ b_number b = next ∧ b_size_before b = 0 ∧ is_Some (b_header b)
    else ∃ K s, L = K ++ [s] ∧ b_number b = s_number s ∧ b_name b = s_name s ∧ b_size_before b = seg_span s ∧ b_header b = None
}.

Lemma grown_in_place L b K s : L = K ++ [s] → b_rolling b = false → grown L b = K ++ [seg_append s (batch_entries b)].
Proof. intros -> Hb. unfold grown. by rewrite Hb, last_snoc, removelast_last. Qed.

Lemma grown_records dir L next b : continues dir L next b → log_records (grown L b) = log_records L ++ (batch_entries b).*2.
Proof.
  intros H. pose proof (cont_where _ _ _ _ H) as Hw. destruct (b_rolling b) eqn:Hb.
  - unfold grown. rewrite Hb, log_records_app. cbn. by rewrite app_nil_r.
  - destruct Hw as (K & s & E & _). rewrite (grown_in_place L b K s E Hb), E, !log_records_app. cbn.
    unfold seg_records. cbn. by rewrite fmap_app, !app_nil_r, app_assoc.
Qed.

Lemma batch_entries_nil dir L next b : continues dir L next b → batch_entries b ≠ [].
Proof. intros H E. apply app_nil in E as [_ E%fmap_nil_inv]. by apply (cont_some _ _ _ _ H). Qed.

Lemma last_nonneg rs : Forall (λ r, 0 < lsn r) rs → 0 <= last_of NO_LSN rs.
Proof.
  destruct rs as [|r rs] using rev_ind; [done|]. intros [_ Hr]%Forall_app. rewrite Forall_singleton in Hr.
  rewrite last_of_app. cbn. lia.
Qed.

Lemma next_expected_after L dir F : holds dir F L →
  let last := last_of NO_LSN (log_records L) in
  next_expected None (log_records L) = None ∨ next_expected None (log_records L) = Some (last + 1).
Proof. intros H last. rewrite next_expected_last by apply H. case_match; [by left|by right]. Qed.

(** What a header record says. *)
Definition is_header (h : WalRecord) (number previous wall : Z) : Prop :=
  record_type h = record_type_value SEGMENT_HEADER ∧
  SegmentHeader.decode (payload h) = Ok (SegmentHeader.Mk number previous wall).

Lemma struct_pack_unsigned ns v b : struct_pack (U <$> ns) v = Ok b → struct_fits (U <$> ns) v.
Proof.
  revert v b. induction ns as [|n ns IH]; intros v b H; [done|]. change (U <$> n :: ns) with (U n :: (U <$> ns)) in *. destruct v as [x v].
  unfold struct_pack in H. fold struct_pack in H. apply bind_Ok in H as (p & Hp & H). apply bind_Ok in H as (q & Hq & _).
  unfold pack_field in Hp. cbn [fst snd] in Hp. destruct (andb _ _) eqn:Hc in Hp; [|done]. split; [cbn; lia|by eapply IH].
Qed.

Lemma header_decodes h payload : SegmentHeader.encode h = Ok payload → SegmentHeader.decode payload = Ok h.
Proof.
  destruct h as [a b c]. intros H. unfold SegmentHeader.encode in H. cbn [SegmentHeader.number SegmentHeader.previous_last_lsn SegmentHeader.created_at_wall] in H.
  assert (struct_fits SegmentHeader.SEGMENT_HEADER (a, (b, (c, ())))) as Hf.
  { by apply (struct_pack_unsigned [8;8;8]%nat) in H. }
  unfold SegmentHeader.decode. apply struct_pack_length in H as Hl. unfold zlen. rewrite Hl, Z.ltb_irrefl.
  pose proof (struct_unpack_from_app _ [] payload [] _ H Hf) as Hu. rewrite app_nil_r in Hu. cbn [app] in Hu.
  change (zlen (@nil byte)) with 0 in Hu. by rewrite Hu.
Qed.

(** The numbers of what a batch adds to [L]: the header record first when it opens a segment. *)
Definition adds (L : list Seg) (next wall : Z) (b : Batch) (batch : list WalRecord) : Prop :=
  let last := last_of NO_LSN (log_records L) in
  if b_rolling b
  then ∃ h, (batch_entries b).*2 = h :: renumber (last + 1) batch ∧ lsn h = last + 1 ∧ is_header h next last wall
  else (batch_entries b).*2 = renumber last batch.

Lemma last_seg_info L s i : tracks L i → last (segments i) = Some s → ∃ K t, L = K ++ [t] ∧ s = seg_info t.
Proof.
  intros Ht Hs. rewrite (tracks_segments _ _ Ht), fmap_last in Hs. destruct (last L) as [t|] eqn:E; [|done].
  injection Hs as <-. apply last_Some in E as [K ->]. by exists K, t.
Qed.

Lemma stamped_nil (st : list (WalRecord * bytes * Z)) l batch : (λ s, s.1.1) <$> st = renumber l batch → batch ≠ [] → st ≠ [].
Proof. intros H Hne ->. by destruct batch. Qed.

Lemma max_epochs (rs : list WalRecord) x : Forall (λ r, epoch r <= x) rs → 0 <= x → foldr Z.max 0 (epoch <$> rs) <= x.
Proof. induction 1 as [|r rs Hr Hrs IH]; intros Hx; cbn; [done|]. apply Z.max_lub; [done|by apply IH]. Qed.

Lemma prepare_continues F w wall batch rolling b L : tracks L (index w) → holds (directory w) F L → batch ≠ [] →
  prepare_batch w wall batch rolling = Ok b →
  b_rolling b = rolling ∧ continues (directory w) L (next_number (index w)) b ∧ adds L (next_number (index w)) wall b batch ∧
  (λ s : WalRecord * bytes * Z, s.1.1) <$> b_stamped b = renumber (last_of NO_LSN (log_records L) + if rolling then 1 else 0) batch ∧
  Forall (λ r, epoch r <= epoch_of (max_epoch (index w)) ((λ s : WalRecord * bytes * Z, s.1.1) <$> b_stamped b)) (batch_entries b).*2.
Proof.
  intros Ht HL Hne H. pose proof (last_nonneg _ (holds_positive _ _ _ HL)) as Hl0.
  pose proof (next_expected_after L _ _ HL) as Hnext. cbv zeta in Hnext.
  unfold prepare_batch in H. rewrite (tracks_last _ _ Ht) in H.
  set (l := last_of NO_LSN (log_records L)) in *. destruct rolling.
  - inv_ok H. injection H as <-.
    match goal with H1 : segment_name _ _ = Ok ?x, H2 : SegmentHeader.encode _ = Ok ?p, H3 : header_record _ _ _ _ = Ok ?h,
      H4 : encode ?h = Ok ?i, H5 : stamp _ _ _ = Ok ?u |- _ => rename H1 into Hname, H2 into Hp, H3 into Hh, H4 into Hi, H5 into Hst,
      h into header, i into image, u into st end.
    unfold header_record in Hh. pose proof (proj1 (record_post_init_Ok _ _) Hh) as [-> _].
    destruct (stamp_Ok _ _ _ _ Hst) as (E1 & E2 & Hc & E4 & E5). split; [done|]. split; [|split; [|split; [done|]]].
    + constructor; cbn [b_rolling b_stamped b_header b_name b_number b_size_before].
      * unfold batch_blob, batch_entries. cbn [b_header b_stamped]. apply (clean_app image _ [(zlen image, _)]); [by apply clean_image|done].
      * unfold batch_entries. cbn [b_header b_stamped app fmap list_fmap snd]. fold (fmap snd (stamped_entries st)). rewrite E1. cbn [contiguous lsn]. split.
        -- intros y Hy. destruct Hnext as [E|E]; rewrite E in Hy; [done|]. by injection Hy.
        -- apply renumber_contiguous. by right.
      * unfold batch_entries. cbn [b_header b_stamped app fmap list_fmap snd]. fold (fmap snd (stamped_entries st)). rewrite E1.
        constructor; [cbn; lia|apply renumber_positive; lia].
      * by eapply stamped_nil.
      * unfold batch_placed, batch_entries. cbn [b_header b_stamped app places lsn]. by rewrite E4.
      * by split_and!.
    + unfold adds. cbn [b_rolling]. eexists. split.
      * unfold batch_entries. cbn [b_header b_stamped app fmap list_fmap snd]. fold (fmap snd (stamped_entries st)). rewrite E1. reflexivity.
      * split; [done|]. split; [done|]. exact (header_decodes _ _ Hp).
    + unfold batch_entries. cbn [b_header b_stamped app fmap list_fmap snd]. fold (fmap snd (stamped_entries st)). rewrite E1.
      fold (fmap (λ s : WalRecord * bytes * Z, s.1.1) st). rewrite E2.
      pose proof (epoch_of_ge (max_epoch (index w)) (renumber (l + 1) batch)) as [Hge Hall]. constructor; [|done]. cbn [epoch].
      apply Z.max_lub; [done|]. rewrite <-(renumber_epoch (l + 1) batch). apply max_epochs.
      * done.
      * destruct batch as [|r batch]; [done|]. cbn [renumber] in *. apply Forall_cons in E5 as [? _], Hall as [? _].
        cbn [epoch at_lsn] in *. lia.
  - destruct (last (segments (index w))) as [tail|] eqn:Htail; [|done]. inv_ok H. injection H as <-.
    match goal with H5 : stamp _ _ _ = Ok ?u |- _ => rename H5 into Hst, u into st end.
    destruct (last_seg_info L tail _ Ht Htail) as (K & s & EL & ->).
    destruct (stamp_Ok _ _ _ _ Hst) as (E1 & E2 & Hc & E4 & E5). rewrite Z.add_0_r. split; [done|]. split; [|split].
    + constructor; cbn [b_rolling b_stamped b_header b_name b_number b_size_before]; unfold batch_blob, batch_placed, batch_entries;
        cbn [b_header b_stamped app]; [done| | | |done|].
      * rewrite E1. by apply renumber_contiguous.
      * rewrite E1. by apply renumber_positive.
      * by eapply stamped_nil.
      * by exists K, s.
    + unfold adds, batch_entries. cbn [b_rolling b_header b_stamped app]. done.
    + cbn [b_stamped]. rewrite E2. split; [done|]. unfold batch_entries. cbn [b_header b_stamped app]. rewrite E1. apply epoch_of_ge.
Qed.

(** ** The files and the accounting after a batch *)

Section growing.
Context (dir : pystr) (F : gmap pystr bytes) (L : list Seg) (next : Z) (b : Batch).
Context (HL : holds dir F L) (Hb : continues dir L next b).
Context (Hnext : MIN_SEGMENT_NUMBER <= next ∧ numbers_below dir F next).
Context (Hfresh : b_rolling b = true → F !! b_name b = None).

Definition written : gmap pystr bytes := <[b_name b := default [] (F !! b_name b) ++ batch_blob b]> F.

Lemma rolling_name : b_rolling b = true → parse_segment_number dir (b_name b) = Some (b_number b) ∧ b_number b = next.
Proof.
  intros Hr. pose proof (cont_where _ _ _ _ Hb) as Hw. rewrite Hr in Hw. destruct Hw as (Hn & -> & _).
  apply segment_name_Ok in Hn as (Hd & Hm & ->). split; [by apply parse_segment_number_name|done].
Qed.

Lemma grown_contiguous : contiguous None (log_records (grown L b)) ∧ Forall (λ r, 0 < lsn r) (log_records (grown L b)).
Proof.
  rewrite (grown_records _ _ _ _ Hb), contiguous_app, Forall_app.
  split; (split; [apply HL|]); [apply (cont_contiguous _ _ _ _ Hb)|apply (cont_positive _ _ _ _ Hb)].
Qed.

Lemma number_of_seg s : s ∈ L → is_segment dir F (s_number s) (s_name s).
Proof. intros Hs. destruct (holds_seg _ _ _ HL s Hs) as (? & _ & c & ? & _). split; [by exists c|done]. Qed.

Lemma written_is_segment n f : is_segment dir written n f →
  is_segment dir F n f ∨ (b_rolling b = true ∧ f = b_name b ∧ n = b_number b).
Proof.
  intros [[c Hc] Hp]. unfold written in Hc. destruct (decide (f = b_name b)) as [->|Hne].
  - destruct (b_rolling b) eqn:Hr.
    + right. destruct (rolling_name Hr) as [Hp' _]. rewrite Hp in Hp'. by injection Hp'.
    + left. split; [|done]. pose proof (cont_where _ _ _ _ Hb) as Hw. rewrite Hr in Hw.
      destruct Hw as (K & s & EL & _ & -> & _). destruct (holds_seg _ _ _ HL s) as (_ & _ & c' & Hc' & _); [|by exists c'].
      rewrite EL. apply elem_of_app. right. by left.
  - rewrite lookup_insert_ne in Hc by done. left. split; [by exists c|done].
Qed.

Lemma numbers_below_written : numbers_below dir written (if b_rolling b then next + 1 else next).
Proof.
  intros n f [H|(Hr & -> & ->)]%written_is_segment.
  - apply Hnext in H. case_match; lia.
  - destruct (rolling_name Hr) as [_ ->]. rewrite Hr. lia.
Qed.

Lemma holds_rolled : b_rolling b = true → holds dir written (grown L b).
Proof.
  intros Hr. pose proof (Hfresh Hr) as Hnone. destruct (rolling_name Hr) as [Hp Hn]. destruct grown_contiguous as [Hcon Hpos].
  assert (∀ s, s ∈ L → s_name s ≠ b_name b) as Hother.
  { intros s Hs E. destruct (holds_seg _ _ _ HL s Hs) as (_ & _ & c & Hc & _). by rewrite E, Hnone in Hc. }
  constructor; [| | |done|done]; unfold grown; rewrite Hr.
  - intros s [Hs|Hs]%elem_of_app.
    + destruct (holds_seg _ _ _ HL s Hs) as (? & ? & c & Hc & ?). split_and!; [done..|]. exists c. split; [|done].
      unfold written. by rewrite lookup_insert_ne by (symmetry; auto).
    + apply list_elem_of_singleton in Hs as ->. cbn. split_and!; [done|by eapply batch_entries_nil|].
      exists (batch_blob b). split; [|apply (cont_clean _ _ _ _ Hb)]. unfold written. by rewrite lookup_insert_eq, Hnone.
  - apply StronglySorted_app. split_and!; [|apply (holds_sorted _ _ _ HL)|].
    + intros s t Hs ->%list_elem_of_singleton. cbn. rewrite Hn. by apply (proj2 Hnext _ (s_name s)), number_of_seg.
    + repeat constructor.
  - intros n f [H|(_ & -> & ->)]%written_is_segment.
    + destruct (decide (f = b_name b)) as [->|Hne]; [destruct H as [[c Hc] _]; by rewrite Hnone in Hc|].
      destruct (holds_file _ _ _ HL n f H) as [(s & Hs & <-)|He].
      * left. exists s. split; [|done]. apply elem_of_app. by left.
      * right. unfold written. by rewrite lookup_insert_ne.
    + left. eexists. split; [apply elem_of_app; right; by left|done].
Qed.

Lemma holds_in_place : b_rolling b = false → holds dir written (grown L b).
Proof.
  intros Hr. destruct grown_contiguous as [Hcon Hpos]. pose proof (cont_where _ _ _ _ Hb) as Hw. rewrite Hr in Hw.
  destruct Hw as (K & s & EL & Hnum & Hname & _). pose proof (names_NoDup _ _ _ HL) as Hnd.
  assert (s ∈ L) as Hs by (rewrite EL; apply elem_of_app; right; by left).
  destruct (holds_seg _ _ _ HL s Hs) as (Hp & Hne & c & Hc & Hcl).
  assert (∀ t, t ∈ K → s_name t ≠ s_name s) as Hother.
  { intros t Ht E. rewrite EL, fmap_app in Hnd. apply NoDup_app in Hnd as (_ & Hd & _).
    apply (Hd (s_name t)); [by apply list_elem_of_fmap_2|]. rewrite E. by left. }
  constructor; [| | |done|done]; rewrite (grown_in_place L b K s EL Hr).
  - intros t [Ht|Ht]%elem_of_app.
    + destruct (holds_seg _ _ _ HL t) as (? & ? & c' & Hc' & ?); [rewrite EL; apply elem_of_app; by left|]. split_and!; [done..|].
      exists c'. split; [|done]. unfold written. rewrite Hname, lookup_insert_ne by (symmetry; auto). done.
    + apply list_elem_of_singleton in Ht as ->. cbn. split_and!; [done| |].
      { intros E. apply app_nil in E as [? _]. done. }
      exists (c ++ batch_blob b). unfold written. rewrite Hname, lookup_insert_eq, Hc. split; [done|].
      apply clean_app; [done|apply (cont_clean _ _ _ _ Hb)].
  - pose proof (holds_sorted _ _ _ HL) as Hsort. rewrite EL in Hsort. apply StronglySorted_app in Hsort as (H1 & H2 & H3).
    apply StronglySorted_app. split_and!; [|done|repeat constructor].
    intros x t Hx ->%list_elem_of_singleton. cbn. apply H1; [done|by left].
  - intros n f [H|(E & _)]%written_is_segment; [|by rewrite Hr in E].
    destruct (decide (f = s_name s)) as [->|Hne'].
    { left. eexists. split; [apply elem_of_app; right; by left|done]. }
    destruct (holds_file _ _ _ HL n f H) as [(t & Ht & <-)|He].
    + left. rewrite EL in Ht. apply elem_of_app in Ht as [Ht|Ht]; [|by apply list_elem_of_singleton in Ht as ->].
      exists t. split; [|done]. apply elem_of_app. by left.
    + right. unfold written. by rewrite Hname, lookup_insert_ne.
Qed.

Lemma holds_grown : holds dir written (grown L b).
Proof. destruct (decide (b_rolling b = true)) as [Hr|Hr%not_true_is_false]; [by apply holds_rolled|by apply holds_in_place]. Qed.
End growing.

Lemma zlen_fmap {A B} (f : A → B) l : zlen (f <$> l) = zlen l.
Proof. unfold zlen. by rewrite length_fmap. Qed.

Section registering.
Context (F : gmap pystr bytes) (L : list Seg) (W : Wal) (b : Batch).
#[local] Abbreviation dir := (directory W).
Context (HL : holds dir F L) (Hs : synced F L W) (Ht : tracks L (index W)).
Context (Hb : continues dir L (next_number (index W)) b).
Context (Hfresh : b_rolling b = true → F !! b_name b = None).

Definition stamped_of : list WalRecord := (λ s : WalRecord * bytes * Z, s.1.1) <$> b_stamped b.
Context (Hepoch : Forall (λ r, epoch r <= epoch_of (max_epoch (index W)) stamped_of) (batch_entries b).*2).

Definition registered : Wal :=
  register_append (b_number b) (b_name b) (b_size_before b) (batch_blob b) stamped_of (b_rolling b) (batch_placed b) W.

Lemma batch_split : (batch_entries b).*2 = match b_header b with Some (h, _) => [h] | None => [] end ++ stamped_of.
Proof.
  unfold batch_entries, stamped_of, stamped_entries. rewrite fmap_app, <-list_fmap_compose.
  by destruct (b_header b) as [[h i]|].
Qed.

Lemma stamped_of_some : ∃ r rest, stamped_of = r :: rest.
Proof. pose proof (cont_some _ _ _ _ Hb). unfold stamped_of. destruct (b_stamped b) as [|x l]; [done|]. by eexists _, _. Qed.

Lemma stamped_last a : last_of a stamped_of = match last stamped_of with Some r => lsn r | None => 0 end.
Proof.
  destruct stamped_of_some as (r & rest & ->). destruct (r :: rest) as [|x l] eqn:E using rev_ind; [done|].
  by rewrite last_of_app, last_snoc.
Qed.

Lemma blob_span : span (batch_entries b) = zlen (batch_blob b).
Proof. apply clean_span, (cont_clean _ _ _ _ Hb). Qed.

Lemma registered_segments : segments (index registered) = seg_info <$> grown L b.
Proof.
  unfold registered, register_append. cbn [with_unflushed with_index index segments]. rewrite (tracks_segments _ _ Ht).
  pose proof (cont_where _ _ _ _ Hb) as Hw. pose proof batch_split as Hsp. destruct stamped_of_some as (r & rest & Est).
  unfold grown. destruct (b_rolling b).
  - destruct Hw as (_ & _ & -> & [[h i] Hh]). rewrite Hh in Hsp. rewrite fmap_app. f_equal. cbn [fmap list_fmap]. f_equal.
    unfold seg_info, seg_records, seg_span. cbn [s_number s_name s_entries]. rewrite Hsp, blob_span. cbn [app]. f_equal.
    + rewrite Est. pose proof (cont_contiguous _ _ _ _ Hb) as Hc. rewrite Hsp, Est in Hc. cbn [app contiguous] in Hc.
      destruct Hc as (_ & Hr & _). specialize (Hr _ eq_refl). lia.
    + rewrite <-(stamped_last (lsn h)). done.
    + rewrite <-(zlen_fmap snd (batch_entries b)), Hsp. cbn [app]. by rewrite zlen_cons, Z.add_comm.
  - destruct Hw as (K & s & EL & _ & _ & -> & Hh). rewrite Hh in Hsp. cbn [app] in Hsp.
    unfold extend_tail. rewrite EL, fmap_app, last_snoc. cbn [fmap list_fmap]. rewrite last_snoc, !removelast_last, fmap_app. f_equal.
    cbn [fmap list_fmap]. f_equal. cbn [seg_info Segment.number Segment.name first_lsn record_count].
    destruct (holds_seg _ _ _ HL s) as (_ & Hne & _); [rewrite EL; apply elem_of_app; right; by left|].
    unfold seg_info, seg_records, seg_span. cbn [seg_append s_number s_name s_entries]. rewrite fmap_app, span_app, Hsp, blob_span. f_equal.
    + by destruct (s_entries s).
    + by rewrite last_of_app, stamped_last.
    + rewrite zlen_app, <-(zlen_fmap snd (batch_entries b)), Hsp. done.
Qed.

Lemma log_marks_app A s : NoDup (s_name <$> A ++ [s]) → log_marks (A ++ [s]) = <[s_name s := notes [] 0 (s_entries s)]> (log_marks A).
Proof.
  intros Hn. apply map_eq. intros n. destruct (decide (n = s_name s)) as [->|Hne].
  { rewrite lookup_insert_eq. apply log_marks_elem; [done|]. apply elem_of_app. right. by left. }
  rewrite lookup_insert_ne by done. destruct (decide (n ∈ s_name <$> A)) as [(t & -> & Hin)%list_elem_of_fmap|Hno].
  - rewrite !log_marks_elem; [done| |done|done|apply elem_of_app; by left]. rewrite fmap_app in Hn. by apply NoDup_app in Hn as [? _].
  - rewrite !log_marks_not; [done|done|]. rewrite fmap_app. intros [?|?%list_elem_of_singleton]%elem_of_app; done.
Qed.

Lemma registered_marks : marks (index registered) = log_marks (grown L b).
Proof.
  unfold registered, register_append. cbn [with_unflushed with_index index marks]. rewrite (tracks_marks _ _ Ht), (cont_placed _ _ _ _ Hb), note_places.
  rewrite decide_False by (by eapply batch_entries_nil).
  pose proof (names_NoDup _ _ _ (holds_grown _ _ _ _ _ HL Hb (synced_next _ _ _ Hs) Hfresh)) as Hnd.
  pose proof (names_NoDup _ _ _ HL) as HndL. pose proof (cont_where _ _ _ _ Hb) as Hw. unfold grown in *. destruct (b_rolling b).
  - destruct Hw as (_ & _ & -> & _). rewrite (log_marks_app L) by done. cbn [s_name s_entries]. do 2 f_equal.
    rewrite log_marks_not; [done|]. rewrite fmap_app in Hnd. apply NoDup_app in Hnd as (_ & Hd & _).
    intros Hin. apply (Hd _ Hin). by left.
  - destruct Hw as (K & s & EL & _ & -> & -> & _). rewrite EL, last_snoc, removelast_last in *.
    rewrite !log_marks_app by done. cbn [s_name s_entries seg_append]. rewrite lookup_insert_eq. cbn [default]. unfold id.
    by rewrite insert_insert_eq, notes_app, Z.add_0_l.
Qed.

Lemma sum_sizes_app x y : sum_sizes (x ++ y) = sum_sizes x + sum_sizes y.
Proof. induction x as [|s x IH]; cbn [app sum_sizes foldr]; [done|]. fold (sum_sizes (x ++ y)) (sum_sizes x). lia. Qed.

Lemma registered_total : total_bytes (index registered) = sum_sizes (seg_info <$> grown L b).
Proof.
  unfold registered, register_append. cbn [with_unflushed with_index index total_bytes]. rewrite (tracks_total _ _ Ht), <-blob_span.
  pose proof (cont_where _ _ _ _ Hb) as Hw. unfold grown. destruct (b_rolling b).
  - rewrite fmap_app, sum_sizes_app. cbn [sum_sizes foldr fmap list_fmap seg_info size_bytes]. unfold seg_span. cbn [s_entries]. lia.
  - destruct Hw as (K & s & EL & _). rewrite EL, last_snoc, removelast_last, !fmap_app, !sum_sizes_app.
    cbn [sum_sizes foldr fmap list_fmap seg_info size_bytes]. unfold seg_span. cbn [s_entries seg_append]. rewrite span_app. lia.
Qed.

Lemma registered_tracks : tracks (grown L b) (index registered).
Proof.
  constructor.
  - apply registered_segments.
  - apply registered_marks.
  - rewrite (grown_records _ _ _ _ Hb), last_of_app, batch_split, last_of_app, stamped_last. done.
  - rewrite (grown_records _ _ _ _ Hb), Forall_app. split; [|exact Hepoch].
    eapply Forall_impl; [apply (tracks_epoch _ _ Ht)|]. cbn beta. intros r Hr. etransitivity; [exact Hr|]. apply epoch_of_ge.
  - apply (tracks_damage _ _ Ht).
  - apply registered_total.
Qed.

Lemma registered_synced : synced (written F b) (grown L b) registered.
Proof.
  pose proof registered_tracks as Htr. destruct Hs as [Ho Hi _ _ Hn].
  constructor; [done|done| |done|].
  - unfold lists. rewrite (tracks_segments _ _ Htr), <-list_fmap_compose. done.
  - pose proof (numbers_below_written dir F L _ b HL Hb Hn Hfresh) as Hbelow.
    unfold registered, register_append. cbn [with_unflushed with_index index next_number directory].
    destruct (b_rolling b) eqn:Hr; [|by split; [apply Hn|]].
    destruct (rolling_name dir L _ b Hb Hr) as [_ ->]. split; [lia|done].
Qed.
End registering.

(** ** Effects on one file *)

Section appending.
Context {Dev : Type} {SD : StorageDevice Dev} {SL : StorageLaws Dev} {LL : LogLaws Dev}.
#[local] Abbreviation World := (@WalManager.World Dev).
Implicit Types (w : World) (R : pystr → option bytes → Prop) (W : Wal) (φ : option bytes → Prop).

(** Nothing but the file [f] differs from [F] and [R], and its content satisfies [φ]. *)
Definition near (F : Files) R (f : pystr) W φ w : Prop :=
  wal w = W ∧ (∀ g, g ≠ f → files (dev w) !! g = F !! g ∧ recoverable (dev w) g = R g) ∧ φ (files (dev w) !! f).

Lemma at_near (F : Files) R f W w : at_ F R W w → near F R f W (λ c, c = F !! f) w.
Proof. intros (HF & HR & HW). split_and!; [done| |by rewrite HF]. intros g _. by rewrite HF, HR. Qed.

Lemma near_op {A} (op : M Dev A) (Q : Dev → A → Dev → Prop) (E : Dev → Dev → Prop) (F : Files) R f W φ (ψ : A → option bytes → Prop) χ :
  effect op Q E →
  (∀ d a d', φ (files d !! f) → Q d a d' → only f d d' ∧ ψ a (files d' !! f)) →
  (∀ d d', φ (files d !! f) → E d d' → only f d d' ∧ χ (files d' !! f)) →
  spec (near F R f W φ) (on_dev op) (λ a, near F R f W (ψ a)) (near F R f W χ).
Proof.
  intros Hop HQ HE w (HW & Hg & Hf). unfold on_dev. destruct (Hop (dev w)) as [_ H].
  destruct (op (dev w)) as [[a|e] d]; cbn [fst snd] in H.
  - destruct (HQ _ _ _ Hf H) as [Ho Hψ]. split; [done|]. split; [|done]. intros g Hne. cbn [dev]. destruct (Ho g Hne) as [-> ->]. by apply Hg.
  - destruct (HE _ _ Hf H) as [Ho Hχ]. split; [done|]. split; [|done]. intros g Hne. cbn [dev]. destruct (Ho g Hne) as [-> ->]. by apply Hg.
Qed.

Lemma untouched_only f d d' : untouched d d' → only f d d'.
Proof. intros [H1 H2] g _. by rewrite H1, H2. Qed.

Lemma near_size (F : Files) R f W φ :
  spec (near F R f W φ) (on_dev (log_size f))
    (λ n, near F R f W (λ c, φ c ∧ ∃ data, c = Some data ∧ n = zlen data)) (near F R f W φ).
Proof.
  eapply near_op; [apply log_size_law| |].
  - intros d n d' Hφ [Hu (c & Hc & ->)]. split; [by apply untouched_only|]. destruct Hu as [-> _]. split; [done|]. by exists c.
  - intros d d' Hφ Hu. split; [by apply untouched_only|]. by destruct Hu as [-> _].
Qed.

Lemma near_truncate (F : Files) R f W old extra :
  spec (near F R f W (λ c, c = Some (old ++ extra))) (on_dev (truncate_log f (zlen old)))
    (λ _, near F R f W (λ c, c = Some old)) (near F R f W (λ c, ∃ extra, c = Some (old ++ extra))).
Proof.
  assert (slice (old ++ extra) 0 (zlen old) = old) as Hs.
  { unfold slice. rewrite drop_0, Z.sub_0_r. unfold zlen. by rewrite Nat2Z.id, take_app_length. }
  eapply near_op; [apply truncate_log_law| |].
  - intros d [] d' Hc (Ho & c & Hc' & _ & E). split; [done|]. rewrite Hc in Hc'. injection Hc' as <-. by rewrite E, Hs.
  - intros d d' Hc (Ho & [E|(c & Hc' & _ & E)]); (split; [done|]); rewrite E.
    + by exists extra.
    + rewrite Hc in Hc'. injection Hc' as <-. exists []. by rewrite Hs, app_nil_r.
Qed.

Lemma near_recycle (F : Files) R f W :
  spec (near F R f W (λ c, c = Some [])) (on_dev (recycle f))
    (λ _, near F R f W (λ c, c = None ∨ c = Some [])) (near F R f W (λ _, True)).
Proof.
  eapply near_op; [apply recycle_law| |].
  - intros d b d' Hc (Ho & [E|[_ E]]); (split; [done|]); rewrite E; [by left|by right].
  - intros d d' Hc (Ho & _). by split.
Qed.

Lemma near_imp (F : Files) R f W φ φ' w : (∀ c, φ c → φ' c) → near F R f W φ w → near F R f W φ' w.
Proof. intros H (? & ? & ?). split_and!; auto. Qed.

Lemma near_weaken {A} (m : M World A) (F : Files) R f W φ φ' (Q : A → World → Prop) (E : World → Prop) :
  (∀ c, φ c → φ' c) → spec (near F R f W φ') m Q E → spec (near F R f W φ) m Q E.
Proof. intros H Hm w (? & ? & ?). apply Hm. split_and!; auto. Qed.

Lemma near_split {A} (m : M World A) (F : Files) R f W (p : Prop) φ (Q : A → World → Prop) (E : World → Prop) :
  (p → spec (near F R f W φ) m Q E) → spec (near F R f W (λ c, φ c ∧ p)) m Q E.
Proof. intros H w (? & ? & ? & Hp). by apply H. Qed.

Lemma near_ex {A} {T : Type} (m : M World A) (F : Files) R f W (φ : T → option bytes → Prop) (Q : A → World → Prop) (E : World → Prop) :
  (∀ t, spec (near F R f W (φ t)) m Q E) → spec (near F R f W (λ c, ∃ t, φ t c)) m Q E.
Proof. intros H w (? & ? & t & Ht). by apply (H t). Qed.

(** *** Undoing *)

Definition latched (f : pystr) (size : Z) W : Wal :=
  with_uncertain true (with_index (with_damage (Some (MkFailure TRUNCATED_TAIL f size 0 (log_last_lsn (index W) + 1))) (index W)) W).

Definition bumped (f : pystr) W : Wal :=
  with_index (with_next_number (Z.max (next_number (index W)) (default 0 (parse_segment_number (directory W) f)) + 1) (index W)) W.

Lemma near_update (g : Wal → Wal) (F : Files) R f W φ (E : World → Prop) :
  spec (near F R f W φ) (update g) (λ _, near F R f (g W) φ) E.
Proof. intros w (<- & Hg & Hf). by split_and!. Qed.

(** A failed undo leaves the manager latched. *)
Lemma undo_verdict (m : M World ()) (P Q : World → Prop) (F : Files) R f W size φ :
  spec P m (λ _, Q) (near F R f W φ) →
  spec P (outcome ← attempt m;
          match outcome with
          | Ok _ => mret true
          | Err _ =>
              _ ← update (λ V, with_uncertain true (with_index (with_damage
                    (Some (MkFailure TRUNCATED_TAIL f size 0 (log_last_lsn (index V) + 1))) (index V)) V));
              mret false
          end)
    (λ ok w, if (ok : bool) then Q w else near F R f (latched f size W) φ w) (λ _, False).
Proof.
  intros Hm. eapply spec_bind; [apply spec_attempt, Hm|]. intros [[]|e]; cbn beta iota.
  - by intros w Hw.
  - eapply spec_bind; [apply near_update|]. by intros [] w Hw.
Qed.

Lemma undo_in_place (F : Files) R f W old :
  spec (near F R f W (λ c, ∃ extra, c = Some (old ++ extra))) (undo_append f (zlen old) false)
    (λ ok w, if (ok : bool) then near F R f W (λ c, c = Some old) w
             else near F R f (latched f (zlen old) W) (λ c, ∃ extra, c = Some (old ++ extra)) w) (λ _, False).
Proof.
  apply undo_verdict. apply near_ex. intros extra.
  assert (∀ w, near F R f W (λ c, c = Some (old ++ extra)) w → near F R f W (λ c, ∃ extra, c = Some (old ++ extra)) w) as Hw1.
  { intros w. apply near_imp. intros c ->. by exists extra. }
  eapply spec_bind; [exact (spec_weaken _ _ _ _ _ _ _ (near_size F R f W (λ c, c = Some (old ++ extra))) (λ _ H, H) (λ _ _ H, H) Hw1)|]. intros current.
  apply (near_weaken _ F R f W _ (λ c, c = Some (old ++ extra) ∧ current = zlen (old ++ extra))).
  { intros c (-> & data & [= <-] & ->). done. }
  apply near_split. intros ->. rewrite zlen_app. pose proof (zlen_nonneg extra).
  eapply (spec_bind _ _ _ (λ cur, near F R f W (λ c, c = Some old ∧ cur = zlen old))).
  - destruct (Z.ltb_spec (zlen old) (zlen old + zlen extra)) as [Hlt|Hle].
    + eapply spec_bind; [apply near_truncate|]. intros [].
      eapply spec_weaken; [apply near_size|done| |].
      * intros n w. apply near_imp. by intros c (-> & data & [= <-] & ->).
      * intros w. apply near_imp. intros c ->. exists []. by rewrite app_nil_r.
    + assert (extra = []) as -> by (destruct extra; [done|rewrite zlen_cons in *; pose proof (zlen_nonneg extra); lia]).
      intros w. apply near_imp. intros c ->. rewrite app_nil_r. split; [done|]. change (zlen (@nil byte)) with 0. lia.
  - intros cur. apply near_split. intros ->. rewrite Z.eqb_refl. cbn [negb]. by intros w Hw.
Qed.

Lemma undo_created (F : Files) R f W :
  spec (near F R f W (λ _, True)) (undo_append f 0 true)
    (λ ok w, if (ok : bool) then near F R f (bumped f W) (λ c, c = None ∨ c = Some []) w
             else near F R f (latched f 0 W) (λ _, True) w) (λ _, False).
Proof.
  apply undo_verdict.
  assert (∀ φ w, near F R f W φ w → near F R f W (λ _, True) w) as Hany by (intros φ w; by apply near_imp).
  eapply spec_bind; [eapply spec_weaken; [apply near_size|done|intros n w H; exact H|apply Hany]|]. intros current.
  eapply (spec_bind _ _ _ (λ cur, near F R f W (λ c, ∃ data, c = Some data ∧ cur = zlen data))).
  - destruct (Z.ltb_spec 0 current) as [Hlt|Hle].
    + eapply (spec_bind _ _ _ (λ _, near F R f W (λ _, True))).
      * apply (near_weaken _ F R f W _ (λ _, True)); [done|].
        refine (near_op _ _ _ F R f W (λ _, True) (λ _ _, True) (λ _, True) (truncate_log_law f 0) _ _).
        -- by intros d [] d' _ [Ho _].
        -- by intros d d' _ [Ho _].
      * intros []. eapply spec_weaken; [apply near_size|done| |apply Hany]. intros n w. apply near_imp. by intros c [_ ?].
    + intros w. apply near_imp. by intros c [_ ?].
  - intros cur. destruct (Z.eqb_spec cur 0) as [->|]; cbn [negb].
    + apply (near_weaken _ F R f W _ (λ c, c = Some [])).
      { intros c ([|x data] & -> & Hz); [done|]. rewrite zlen_cons in Hz. pose proof (zlen_nonneg data). lia. }
      eapply spec_bind; [apply near_recycle|]. intros b. apply near_update.
    + intros w Hw. by eapply Hany.
Qed.
End appending.

(** ** Appending *)

Lemma plan_batch_Ok w records plan : plan_batch w records = Ok plan →
  Forall2 (λ r c, validate_record w r = Ok c) records plan.1.1.1 ∧ plan.1.1.1 ≠ [].
Proof.
  intros H. unfold plan_batch in H. apply bind_Ok in H as (batch & Hv & H). apply bind_Ok in H as (n & _ & H).
  apply bind_Ok in H as (h & _ & H). case_match; [done|]. case_match; [done|]. injection H as <-. cbn [fst].
  unfold validate_batch in Hv. case_bool_decide; [done|]. apply traverse_Ok in Hv. split; [done|].
  intros E. rewrite E in Hv. by apply Forall2_nil_inv_r in Hv.
Qed.

Lemma plan_in_place w records batch n terminal : plan_batch w records = Ok (batch, n, false, terminal) →
  ∃ s, last (segments (index w)) = Some s.
Proof.
  intros H. unfold plan_batch in H. apply bind_Ok in H as (b & _ & H). apply bind_Ok in H as (k & _ & H).
  apply bind_Ok in H as (h & _ & H). case_match; [done|]. case_match; [done|]. injection H as _ _ H _.
  unfold needs_roll in H. case_match; [by eexists|done].
Qed.

(** A log that grew by a batch: in its last segment, or by a segment of its own with a header. *)
Inductive appended (L L' : list Seg) (wall : Z) (f : pystr) (batch : list WalRecord) : Prop :=
  | appended_in_place K s es :
      L = K ++ [s] → L' = K ++ [seg_append s es] → f = s_name s →
      es.*2 = renumber (last_of NO_LSN (log_records L)) batch → appended L L' wall f batch
  | appended_segment number h es :
      L' = L ++ [MkSeg number f es] →
      es.*2 = h :: renumber (last_of NO_LSN (log_records L) + 1) batch →
      lsn h = last_of NO_LSN (log_records L) + 1 → is_header h number (last_of NO_LSN (log_records L)) wall →
      appended L L' wall f batch.

Lemma grown_appended dir L next wall b batch : continues dir L next b → adds L next wall b batch →
  appended L (grown L b) wall (b_name b) batch.
Proof.
  intros Hc Ha. pose proof (cont_where _ _ _ _ Hc) as Hw. unfold adds in Ha. destruct (b_rolling b) eqn:Hr.
  - destruct Hw as (_ & Hn & _). destruct Ha as (h & E & Hl & Hh). rewrite <-Hn in Hh.
    apply (appended_segment _ _ _ _ _ (b_number b) h (batch_entries b)); [|done..]. unfold grown. by rewrite Hr.
  - destruct Hw as (K & s & EL & _ & Hn & _).
    apply (appended_in_place _ _ _ _ _ K s (batch_entries b)); [done|by apply grown_in_place|done..].
Qed.

Section append_many.
Context {Dev : Type} {SD : StorageDevice Dev} {SL : StorageLaws Dev} {LL : LogLaws Dev}.
#[local] Abbreviation World := (@WalManager.World Dev).
Implicit Types (w : World) (R : pystr → option bytes → Prop) (W : Wal).

Lemma near_files (F : Files) R f W x w : near F R f W (λ c, c = Some x) w → files (dev w) = <[f := x]> F.
Proof.
  intros (_ & Hg & Hf). apply map_eq. intros g. destruct (decide (g = f)) as [->|Hne]; [by rewrite lookup_insert_eq|].
  rewrite lookup_insert_ne by done. by apply Hg.
Qed.

(** The write of a batch: all of it, or what the undo starts from. *)
Definition interrupted (F : Files) (b : Batch) (c : option bytes) : Prop :=
  b_rolling b = true ∨ ∃ extra, c = Some (default [] (F !! b_name b) ++ extra).

Lemma write_batch_at (F : Files) R W L b :
  holds (directory W) F L → continues (directory W) L (next_number (index W)) b →
  (b_rolling b = true → F !! b_name b = None) →
  spec (at_ F R W)
    (_ ← (if b_rolling b then on_dev (create (b_name b) true) else mret ()); on_dev (append_log (b_name b) (batch_blob b)))
    (λ _, near F R (b_name b) W (λ c, c = Some (default [] (F !! b_name b) ++ batch_blob b)))
    (near F R (b_name b) W (interrupted F b)).
Proof.
  intros HL Hb Hfresh. set (f := b_name b) in *. set (old := default [] (F !! f)).
  eapply (spec_bind _ _ _ (λ _, near F R f W (λ c, c = Some old))).
  - destruct (b_rolling b) eqn:Hr.
    + eapply (spec_weaken _ (near F R f W (λ c, c = F !! f))); [|apply at_near|intros a w H; exact H|intros w H; exact H].
      refine (near_op _ _ _ F R f W (λ c, c = F !! f) (λ _ c, c = Some old) (interrupted F b) (create_law f true) _ _).
      * intros d [] d' Hc [Ho Hd]. split; [done|]. unfold old. by rewrite Hc, (Hfresh eq_refl) in *.
      * intros d d' _ Ho. split; [done|]. by left.
    + intros w Hw. apply at_near with (f := f) in Hw. revert Hw. apply near_imp. intros c ->. unfold old.
      pose proof (cont_where _ _ _ _ Hb) as Hw. rewrite Hr in Hw. destruct Hw as (K & s & EL & _ & Hn & _).
      destruct (holds_seg _ _ _ HL s) as (_ & _ & c & Hc & _); [rewrite EL; apply elem_of_app; right; by left|].
      unfold f. by rewrite Hn, Hc.
  - intros _. refine (near_op _ _ _ F R f W (λ c, c = Some old) (λ _ c, c = Some (old ++ batch_blob b)) (interrupted F b) (append_log_law f (batch_blob b)) _ _).
    + intros d n d' Hc (Ho & (c & Hc' & _ & E) & _). split; [done|]. rewrite Hc in Hc'. by injection Hc' as <-.
    + intros d d' Hc (Ho & Hd & _). split; [done|]. right. destruct Hd as [E|(c & k & Hc' & E)].
      * exists []. by rewrite app_nil_r, E.
      * rewrite Hc in Hc'. injection Hc' as <-. by eexists.
Qed.

(** *** When it fails *)

(** An empty file that is not known yet changes nothing. *)
Lemma holds_empty (F : Files) dir L f : F !! f = None → holds dir F L → holds dir (<[f := []]> F) L.
Proof.
  intros Hf HL. constructor.
  - intros s Hs. destruct (holds_seg _ _ _ HL s Hs) as (? & ? & c & Hc & ?). split_and!; [done..|]. exists c.
    split; [|done]. rewrite lookup_insert_ne; [done|]. intros ->. by rewrite Hf in Hc.
  - apply HL.
  - intros n g [Hg Hp]. destruct (decide (g = f)) as [->|Hne]; [right; by rewrite lookup_insert_eq|].
    rewrite lookup_insert_ne in * by done. by apply (holds_file _ _ _ HL n g).
  - apply HL.
  - apply HL.
Qed.

Lemma synced_empty (F : Files) L W f : F !! f = None → synced F L W → synced (<[f := []]> F) L (bumped f W).
Proof.
  intros Hf [Ho Hi Hl Ht [Hn1 Hn2]]. constructor; [done|done|done| |].
  - intros Hd. destruct (Ht Hd) as [? ? ? ? ? ?]. by constructor.
  - cbn [bumped with_index index with_next_number next_number directory]. split; [lia|]. intros m g [Hg Hp].
    destruct (decide (g = f)) as [->|Hne]; [rewrite Hp; cbn; lia|].
    rewrite lookup_insert_ne in Hg by done. assert (m < next_number (index W)) by (by apply (Hn2 m g)). lia.
Qed.

Lemma synced_bumped (F : Files) L W f : synced F L W → synced F L (bumped f W).
Proof.
  intros [Ho Hi Hl Ht [Hn1 Hn2]]. constructor; [done|done|done| |].
  - intros Hd. destruct (Ht Hd) as [? ? ? ? ? ?]. by constructor.
  - cbn [bumped with_index index with_next_number next_number directory]. split; [lia|]. intros m g Hg.
    specialize (Hn2 m g Hg). lia.
Qed.

(** The append left the log as it was: no file changed but perhaps a new, empty segment file. *)
Definition undone (F : Files) R L W w : Prop := ∃ f,
  (∀ g, g ≠ f → files (dev w) !! g = F !! g ∧ recoverable (dev w) g = R g) ∧
  (files (dev w) !! f = F !! f ∨ F !! f = None ∧ files (dev w) !! f = Some []) ∧
  holds (directory W) (files (dev w)) L ∧ passed (files (dev w)) L W (wal w) ∧ damage (index (wal w)) = None.

(** The manager gave up on the tail: it lost nothing of what the file held, and says so. *)
Definition gave_up (F : Files) R w : Prop := ∃ f,
  (∀ g, g ≠ f → files (dev w) !! g = F !! g ∧ recoverable (dev w) g = R g) ∧
  (∀ old, F !! f = Some old → ∃ extra, files (dev w) !! f = Some (old ++ extra)) ∧
  append_uncertain (wal w) = true ∧ is_Some (damage (index (wal w))).

Lemma undo_at (F : Files) R W L b e : holds (directory W) F L → synced F L W → damage (index W) = None →
  continues (directory W) L (next_number (index W)) b →
  (b_rolling b = true → F !! b_name b = None) →
  spec (near F R (b_name b) W (interrupted F b))
    (_ ← undo_append (b_name b) (b_size_before b) (b_rolling b); fail (A := Z) e)
    (λ _ _, False) (λ w, undone F R L W w ∨ gave_up F R w).
Proof.
  intros HL Hs Hd Hb Hfresh. pose proof (cont_where _ _ _ _ Hb) as Hw. set (f := b_name b) in *. unfold interrupted. fold f.
  destruct (b_rolling b).
  - destruct Hw as (_ & _ & -> & _). specialize (Hfresh eq_refl).
    apply (near_weaken _ F R f W _ (λ _, True)); [done|].
    eapply spec_bind; [eapply spec_weaken; [apply undo_created|done|intros ok w H; exact H|done]|].
    intros [] w (HW & Hg & Hf); cbn.
    + left. exists f. split; [done|]. rewrite HW.
      assert (files (dev w) = F ∨ files (dev w) = <[f := []]> F) as [E|E].
      { destruct Hf as [Hf|Hf].
        - left. apply map_eq. intros g. destruct (decide (g = f)) as [->|Hne]; [by rewrite Hf|by apply Hg].
        - right. by apply (near_files F R f (bumped f W) []). }
      * rewrite E. split; [by left|]. split; [done|]. split; [|done]. split; [by split_and!|by apply synced_bumped].
      * rewrite E. split; [right; by rewrite lookup_insert_eq|]. split; [by apply holds_empty|]. split; [|done].
        split; [by split_and!|by apply synced_empty].
    + right. exists f. rewrite HW. split_and!; [done| |done|by eexists]. intros old Ho. by rewrite Hfresh in Ho.
  - destruct Hw as (K & s & EL & _ & Hn & -> & _).
    destruct (holds_seg _ _ _ HL s) as (_ & _ & old & Hold & Hcl); [rewrite EL; apply elem_of_app; right; by left|].
    assert (F !! f = Some old) as Hf by (by rewrite Hn).
    unfold seg_span. rewrite (clean_span _ _ Hcl).
    apply (near_weaken _ F R f W _ (λ c, ∃ extra, c = Some (old ++ extra))).
    { intros c [?|[extra ->]]; [done|]. exists extra. by rewrite Hf. }
    eapply spec_bind; [eapply spec_weaken; [apply undo_in_place|done|intros ok w H; exact H|done]|].
    intros [] w (HW & Hg & Hc); cbn.
    + left. exists f. split; [done|]. rewrite HW. assert (files (dev w) = F) as E.
      { apply map_eq. intros g. destruct (decide (g = f)) as [->|Hne]; [by rewrite Hc|by apply Hg]. }
      rewrite E. split; [by left|]. split; [done|]. split; [|done]. by split; [split_and!|].
    + right. exists f. rewrite HW. split_and!; [done| |done|by eexists]. intros o Ho. rewrite Hf in Ho. by injection Ho as <-.
Qed.

(** *** When it succeeds *)

(** The records of a batch as they are stored: canonical, of a known type, and of an epoch that
    no record of the log [L] is newer than. *)
Definition admitted (descriptor : pystr) L (records batch : list WalRecord) : Prop :=
  Forall2 (λ r c, canonical_record r descriptor = Ok c ∧ is_known_type c = true ∧
                  Forall (λ x, epoch x <= epoch c) (log_records L)) records batch.

Lemma validated_admitted L W records batch : tracks L (index W) →
  Forall2 (λ r c, validate_record W r = Ok c) records batch → admitted (log_descriptor W) L records batch.
Proof.
  intros Ht Hval. eapply Forall2_impl; [exact Hval|]. intros r c H. unfold validate_record in H. apply bind_Ok in H as (r' & Hr & H).
  case_match; [done|]. case_match eqn:Hk; [done|]. apply negb_false_iff in Hk. case_match eqn:He; [done|]. injection H as <-.
  split_and!; [done..|]. apply Z.ltb_ge in He. eapply Forall_impl; [apply (tracks_epoch _ _ Ht)|]. cbn. intros; lia.
Qed.

(** The log grew by the batch, one file got longer, and the manager knows. *)
Definition grew (F : Files) R L W wall records (answer : Z) w : Prop := ∃ batch f L',
  admitted (log_descriptor W) L records batch ∧ appended L L' wall f batch ∧
  (∀ g, g ≠ f → files (dev w) !! g = F !! g ∧ recoverable (dev w) g = R g) ∧
  (∃ blob, files (dev w) !! f = Some (default [] (F !! f) ++ blob)) ∧
  holds (directory W) (files (dev w)) L' ∧ passed (files (dev w)) L' W (wal w) ∧ damage (index (wal w)) = None ∧
  answer = last_of NO_LSN (log_records L') ∧ f ∈ unflushed (wal w).

Lemma same_config_trans W1 W2 W3 : same_config W1 W2 → same_config W2 W3 → same_config W1 W3.
Proof. intros (?&?&?&?&?) (?&?&?&?&?). unfold same_config. split_and!; congruence. Qed.

Lemma registered_unflushed W b : b_name b ∈ unflushed (registered W b).
Proof.
  unfold registered, register_append. cbn [with_unflushed unflushed]. case_bool_decide; [done|].
  apply elem_of_app. right. by left.
Qed.

Lemma register_at (F : Files) R L W wall records batch b : holds (directory W) F L → synced F L W → tracks L (index W) →
  admitted (log_descriptor W) L records batch → batch ≠ [] →
  prepare_batch W wall batch (b_rolling b) = Ok b →
  (b_rolling b = true → F !! b_name b = None) →
  spec (near F R (b_name b) W (λ c, c = Some (default [] (F !! b_name b) ++ batch_blob b)))
    (_ ← update (register_append (b_number b) (b_name b) (b_size_before b) (batch_blob b)
                   ((λ s, s.1.1) <$> b_stamped b) (b_rolling b) (batch_placed b));
     mret (match last (b_stamped b) with Some (r, _, _) => lsn r | None => 0 end))
    (grew F R L W wall records) (λ _, False).
Proof.
  intros HL Hs Ht Had Hne Hprep Hfresh. destruct (prepare_continues F W wall batch _ b L Ht HL Hne Hprep) as (_ & Hb & Hadds & Hst & Hep).
  eapply spec_bind; [apply near_update|]. intros [] w Hw. pose proof (near_files _ _ _ _ _ _ Hw) as E. destruct Hw as (HW & Hg & Hc).
  cbn. exists batch, (b_name b), (grown L b). rewrite HW. fold (stamped_of b) (registered W b).
  split; [done|]. split; [by eapply grown_appended|]. split; [done|]. split; [by eexists|].
  fold (written F b) in E. rewrite E.
  split; [by apply (holds_grown _ _ _ _ _ HL Hb (synced_next _ _ _ Hs))|].
  split; [split; [by split_and!|by apply registered_synced]|].
  split; [apply (tracks_damage _ _ Ht)|]. split; [|apply registered_unflushed].
  rewrite (grown_records _ _ _ _ Hb), last_of_app, batch_split, last_of_app, (stamped_last L _ b Hb).
  unfold stamped_of. rewrite fmap_last. by destruct (last (b_stamped b)) as [[[r i] o]|].
Qed.

(** What a failed append leaves: nothing was written, or it was undone, or the manager gave up. *)
Definition declined (F : Files) R L W w : Prop :=
  undecided F R W w ∨ (∃ W', at_ F R W' w ∧ passed F L W W') ∨ undone F R L W w ∨ gave_up F R w.

Lemma grew_passed (F : Files) R L W W1 wall records answer w : passed F L W W1 →
  grew F R L W1 wall records answer w → grew F R L W wall records answer w.
Proof.
  intros [Hcfg _] (batch & f & L' & H1 & H2 & H3 & H4 & H5 & [H6 H6'] & H7 & H8 & H9).
  pose proof Hcfg as (Hdir & _ & Hdesc & _). rewrite Hdir, Hdesc in *. exists batch, f, L'.
  do 5 (split; [done|]). split; [split; [by eapply same_config_trans|done]|done].
Qed.

Lemma undone_passed (F : Files) R L W W1 w : passed F L W W1 → undone F R L W1 w → undone F R L W w.
Proof.
  intros [Hcfg _] (f & H1 & H2 & H3 & [H4 H4'] & H5). pose proof Hcfg as (Hdir & _). rewrite Hdir in *.
  exists f. split; [done|]. split; [done|]. split; [done|]. split; [|done]. split; [by eapply same_config_trans|done].
Qed.

(** The part of [append_many] that writes. *)
Lemma commit_batch_at (F : Files) R L W wall records batch b : holds (directory W) F L → synced F L W → tracks L (index W) →
  admitted (log_descriptor W) L records batch → batch ≠ [] →
  prepare_batch W wall batch (b_rolling b) = Ok b →
  spec (at_ F R W)
    (written ← attempt (_ ← (if b_rolling b then on_dev (create (b_name b) true) else mret ());
                        on_dev (append_log (b_name b) (batch_blob b)));
     match written with
     | Err e => _ ← undo_append (b_name b) (b_size_before b) (b_rolling b); fail e
     | Ok _ =>
         _ ← update (register_append (b_number b) (b_name b) (b_size_before b) (batch_blob b)
                       ((λ s, s.1.1) <$> b_stamped b) (b_rolling b) (batch_placed b));
         mret (match last (b_stamped b) with Some (r, _, _) => lsn r | None => 0 end)
     end)
    (grew F R L W wall records) (λ w, undone F R L W w ∨ gave_up F R w).
Proof.
  intros HL Hs Ht Had Hne Hprep.
  destruct (prepare_continues F W wall batch _ b L Ht HL Hne Hprep) as (_ & Hb & _).
  assert (b_rolling b = true → F !! b_name b = None) as Hfresh.
  { intros Hr. destruct (rolling_name _ _ _ _ Hb Hr) as [Hp Hn]. destruct (F !! b_name b) as [c|] eqn:E; [|done]. exfalso.
    destruct (synced_next _ _ _ Hs) as [_ Hbelow]. specialize (Hbelow (b_number b) (b_name b)).
    assert (b_number b < next_number (index W)); [|lia]. apply Hbelow. split; [by exists c|done]. }
  eapply spec_bind; [by apply spec_attempt, (write_batch_at F R W L b)|]. intros [n|e]; cbn beta iota.
  - eapply spec_weaken; [by apply (register_at F R L W wall records batch b)|done..].
  - eapply spec_weaken; [apply (undo_at F R W L b e); try done; apply Ht|done..].
Qed.

Lemma append_many_at (F : Files) R W L wall records expected : holds (directory W) F L → ready F L W →
  spec (at_ F R W) (append_many wall records expected) (grew F R L W wall records) (declined F R L W).
Proof.
  intros HL Hr. unfold append_many.
  eapply bind_at; [apply require_open_at|intros w Hw; left; by apply at_undecided|]. intros [] Hopen.
  eapply spec_bind; [eapply spec_weaken; [by apply (refresh_if_needed_at F R W L)|done|intros a w H; exact H|intros w Hw; by left]|].
  intros answer. apply spec_ex. intros W1. eapply (spec_weaken _ (λ w, passed F L W W1 ∧ at_ F R W1 w)); [|by intros w [? ?]|intros a w H; exact H|intros w H; exact H].
  apply spec_fact. intros Hp. pose proof Hp as [Hcfg Hs]. pose proof Hcfg as (Hdir & _).
  assert (∀ w, at_ F R W1 w → declined F R L W w) as HE by (intros w Hw; right; left; by exists W1).
  eapply bind_at; [apply require_healthy_at|exact HE|]. intros [] [Hd Hu].
  eapply bind_at; [apply get_world_at|exact HE|]. intros w1 ->.
  eapply bind_at; [apply lift_at|exact HE|]. intros [[[batch n] rolling] terminal] Hplan.
  destruct (plan_batch_Ok _ _ _ Hplan) as [Hval Hne]. cbn [fst] in Hval, Hne.
  eapply (bind_at _ _ (λ _, True)); [|exact HE|].
  { destruct expected as [x|]; [|by intros w Hw]. eapply bind_at; [apply lift_at|intros w Hw; exact Hw|]. intros y _.
    case_match; by intros w Hw. }
  intros _ _. eapply bind_at; [apply lift_at|exact HE|]. intros b Hprep.
  pose proof (synced_tracks _ _ _ Hs Hd) as Ht. rewrite <-Hdir in HL.
  destruct (prepare_continues F W1 wall batch _ b L Ht HL Hne Hprep) as (Hroll & _). subst rolling.
  eapply spec_weaken; [apply (commit_batch_at F R L W1 wall records batch b); try done; by apply validated_admitted|done| |].
  - intros a w. by apply grew_passed.
  - intros w [H|H]; right; right; [left; by eapply undone_passed|by right].
Qed.
End append_many.

(** ** Properties *)

(** A manager on an empty device that stops after [n] operations. *)
Definition fresh_wal : Wal := MkWal (str "wal") 256 (str "log") true false empty_index false [] 0.
Definition fresh_world (n : nat) : @World (Limited Memory.t) := MkWorld (Limit (Memory.Mk 512 None ∅ ∅ false) n) fresh_wal.
Definition sample_record : WalRecord := Mk 4 [Byte.x01] [] 0 1 3 0 1.

Lemma holds_nothing dir : holds dir ∅ [].
Proof. constructor; [by intros s ?%not_elem_of_nil|constructor|by intros n f [[? ?] _]|done|constructor]. Qed.

Lemma fresh_at n : at_ ∅ (recoverable (dev (fresh_world n))) fresh_wal (fresh_world n).
Proof. by split_and!. Qed.

Lemma fresh_ready : ready ∅ [] fresh_wal.
Proof. by constructor. Qed.

(** C14: an append that returns has appended.  On any lawful device that holds the log [L], and
    from any manager that can come to know it, [append_many] that returns leaves a log that is [L]
    and the admitted records in order, numbered without a gap after the last: inside the last
    segment, or in a new one after a header record that names its number and the number before
    it.  No record of an epoch older than one in the log is admitted.  One file grew at its end,
    no other changed; the manager's segments, marks, last number and size are those of the new
    log, the file is due at the next barrier, and the number returned is the new log's last. *)
Theorem append_grows {Dev} {SD : StorageDevice Dev} {SL : StorageLaws Dev} {LL : LogLaws Dev}
    (F : gmap pystr bytes) (R : pystr → option bytes → Prop) (W : Wal) (L : list Seg) (wall : Z) (records : list WalRecord) (expected : option Z)
    (HL : holds (directory W) F L) (HW : ready F L W) :
  spec (at_ F R W) (append_many wall records expected) (grew F R L W wall records) (λ _, True).
Proof. eapply spec_weaken; [by apply append_many_at|done..]. Qed.

Lemma append_grows_witness :
  ∃ w, append_many 7 [sample_record] None (fresh_world 100) = (Ok 2, w) ∧
       grew ∅ (recoverable (dev (fresh_world 100))) [] fresh_wal 7 [sample_record] 2 w.
Proof.
  pose proof (append_grows ∅ (recoverable (dev (fresh_world 100))) fresh_wal [] 7 [sample_record] None
    (holds_nothing _) fresh_ready _ (fresh_at 100)) as H.
  assert ((append_many 7 [sample_record] None (fresh_world 100)).1 = Ok 2) as E by (vm_compute; reflexivity).
  destruct (append_many 7 [sample_record] None (fresh_world 100)) as [r w]. cbn in E. subst r. by exists w.
Defined.

(** C15: an append that raises loses nothing.  Whatever the device did, wherever it stopped: the
    files are as they were before, and the manager knows the log or what it knew; or the write was
    undone, byte for byte, at most an empty new file being left; or one file holds what it held
    with a torn tail after it, no other file changed, and the manager has latched and reports the
    damage. *)
Theorem append_fails_safely {Dev} {SD : StorageDevice Dev} {SL : StorageLaws Dev} {LL : LogLaws Dev}
    (F : gmap pystr bytes) (R : pystr → option bytes → Prop) (W : Wal) (L : list Seg) (wall : Z) (records : list WalRecord) (expected : option Z)
    (HL : holds (directory W) F L) (HW : ready F L W) :
  spec (at_ F R W) (append_many wall records expected) (λ _ _, True) (declined F R L W).
Proof. eapply spec_weaken; [by apply append_many_at|done..]. Qed.

Lemma append_fails_safely_witness :
  ∃ e w, append_many 7 [sample_record] None (fresh_world 2) = (Err e, w) ∧
         append_uncertain (wal w) = true ∧ declined ∅ (recoverable (dev (fresh_world 2))) [] fresh_wal w.
Proof.
  pose proof (append_fails_safely ∅ (recoverable (dev (fresh_world 2))) fresh_wal [] 7 [sample_record] None
    (holds_nothing _) fresh_ready _ (fresh_at 2)) as H.
  assert (append_uncertain (wal (append_many 7 [sample_record] None (fresh_world 2)).2) = true) as Hu by (vm_compute; reflexivity).
  destruct (append_many 7 [sample_record] None (fresh_world 2)) as [[n|e] w] eqn:E.
  - vm_compute in E. discriminate E.
  - exists e, w. by split_and!.
Defined.
