(* ===== verification/WalRead.v ===== *)
(** Reading the log, refusing to write it, and making it durable: what [read_from] hands out, what
    no reading changes, that a latched manager appends nothing, and what a barrier promises. *)

From S2P Require Import Prelude Ids Layout Utf8 WalRecord Segment Recovery Storage MemoryStorage WalScan WalManager WalTrail WalTheorems WalAppend.

#[local] Abbreviation Files := (gmap pystr bytes).

(** ** Code that changes no file *)

Section quiet.
Context {Dev : Type} {SD : StorageDevice Dev} {SL : StorageLaws Dev} {LL : LogLaws Dev}.
#[local] Abbreviation World := (@WalManager.World Dev).
Context (F : Files) (R : pystr → option bytes → Prop) (u : bool).

Definition still (w : World) : Prop := files (dev w) = F ∧ recoverable (dev w) = R ∧ append_uncertain (wal w) = u.
Definition quiet {A} (m : M World A) : Prop := spec still m (λ _, still) still.

Lemma quiet_ret {A} (a : A) : quiet (mret a).
Proof. by intros w Hw. Qed.
Lemma quiet_bind {A B} (m : M World A) (k : A → M World B) : quiet m → (∀ a, quiet (k a)) → quiet (m ≫= k).
Proof. intros Hm Hk. eapply spec_bind; [exact Hm|exact Hk]. Qed.
Lemma quiet_get {A} (f : Wal → A) : quiet (get f).
Proof. by intros w Hw. Qed.
Lemma quiet_lift {A} (r : result A) : quiet (lift r).
Proof. intros w Hw. unfold lift. by destruct r. Qed.
Lemma quiet_fail {A} (e : error) : quiet (fail (A := A) e).
Proof. by intros w Hw. Qed.
Lemma quiet_attempt {A} (m : M World A) : quiet m → quiet (attempt m).
Proof. intros Hm w Hw. unfold attempt. specialize (Hm w Hw). destruct (m w) as [[a|e] w']; done. Qed.
Lemma quiet_update (f : Wal → Wal) : (∀ V, append_uncertain (f V) = append_uncertain V) → quiet (update f).
Proof. intros Hf w (? & ? & E). split_and!; [done..|]. cbn. by rewrite Hf. Qed.
Lemma quiet_dev {A} (op : M Dev A) (Q : Dev → A → Dev → Prop) :
  effect op (λ d a d', untouched d d' ∧ Q d a d') untouched → quiet (on_dev op).
Proof.
  intros Hop w (HF & HR & Hu). unfold on_dev. destruct (Hop (dev w)) as [_ H].
  destruct (op (dev w)) as [[a|e] d]; cbn in H.
  - destruct H as [[H1 H2] _]. unfold still. cbn. by rewrite H1, H2.
  - destruct H as [H1 H2]. unfold still. cbn. by rewrite H1, H2.
Qed.

Lemma quiet_discover : quiet discover.
Proof. apply quiet_bind; [apply quiet_get|]. intros dir. apply quiet_bind; [eapply quiet_dev, list_files_law|]. intros names. apply quiet_ret. Qed.

Lemma quiet_sizes names : quiet (sizes_of names).
Proof.
  induction names as [|n names IH]; cbn [sizes_of]; [apply quiet_ret|]. apply quiet_bind; [eapply quiet_dev, log_size_law|]. intros z.
  apply quiet_bind; [done|]. intros rest. apply quiet_ret.
Qed.

Lemma quiet_walk {S} (f : S → ScanItem → verdict S) names sizes starts e s : quiet (walk f names sizes starts e s).
Proof.
  revert e s. induction names as [|n names IH]; intros e s; cbn [walk]; [apply quiet_ret|]. case_match; [apply IH|].
  apply quiet_bind.
  - apply quiet_attempt. unfold read_segment. case_match; [apply quiet_lift|]. eapply quiet_dev, read_log_law.
  - intros [data|err]; [|apply quiet_ret]. destruct (scan_segment _ _ _ _) as [items e'].
    destruct (consume f s items); [apply IH|apply quiet_ret|apply quiet_fail].
Qed.

Lemma quiet_index_pass stop : quiet (index_pass stop).
Proof.
  unfold index_pass. apply quiet_bind; [apply quiet_discover|]. intros l. apply quiet_bind; [apply quiet_sizes|]. intros sizes.
  apply quiet_bind; [apply quiet_walk|]. intros [[p items]|[p items] n e].
  - apply quiet_bind; [by apply quiet_update|]. intros []. apply quiet_ret.
  - case_match; [|apply quiet_fail]. apply quiet_bind; [by apply quiet_update|]. intros []. apply quiet_ret.
Qed.

Lemma quiet_full (limit : option Z) : quiet (match limit with Some _ => mret None | None => _ ← rebuild; mret (Some 0) end).
Proof.
  destruct limit; [apply quiet_ret|]. apply quiet_bind; [|intros; apply quiet_ret].
  apply quiet_bind; [apply quiet_index_pass|intros; apply quiet_ret].
Qed.

Lemma quiet_refresh_tail limit : quiet (refresh_tail limit).
Proof.
  unfold refresh_tail. apply quiet_bind; [apply quiet_get|]. intros b. destruct b; cbn [negb]; [|apply quiet_full].
  apply quiet_bind; [apply quiet_discover|]. intros l. apply quiet_bind; [apply quiet_get|]. intros i. cbv zeta.
  apply quiet_bind.
  { destruct (last (segments i)); [|apply quiet_ret]. case_bool_decide; [|apply quiet_ret].
    apply quiet_bind; [eapply quiet_dev, log_size_law|]. intros z. apply quiet_ret. }
  intros unchanged. destruct unchanged; [apply quiet_ret|]. destruct (match last _ with Some _ => _ | None => _ end); [apply quiet_full|].
  apply quiet_bind; [apply quiet_sizes|]. intros sizes. destruct (_ && _); [apply quiet_full|].
  apply quiet_bind; [apply quiet_get|]. intros un. apply quiet_bind; [by apply quiet_update|]. intros [].
  destruct (existsb _ _); [apply quiet_full|]. destruct (match limit with Some _ => _ | None => _ end); [apply quiet_ret|].
  apply quiet_bind; [apply quiet_walk|]. intros [p|p n e].
  - apply quiet_bind; [by apply quiet_update|]. intros []. apply quiet_ret.
  - case_match; [|apply quiet_fail]. apply quiet_bind; [by apply quiet_update|]. intros []. apply quiet_ret.
Qed.

Lemma quiet_refresh_if_needed limit : quiet (refresh_tail_if_needed limit).
Proof. apply quiet_bind; [apply quiet_get|]. intros d. case_match; [apply quiet_refresh_tail|apply quiet_ret]. Qed.

Lemma quiet_require_open : quiet require_open.
Proof. apply quiet_bind; [apply quiet_get|]. intros b. case_match; [apply quiet_ret|apply quiet_lift]. Qed.
End quiet.

(** ** The plan of a read *)

Lemma contiguous_None e rs : contiguous e rs → contiguous None rs.
Proof. destruct rs as [|r rs]; [done|]. cbn. by intros [_ ?]. Qed.

Lemma contiguous_last e rs a : contiguous e rs → Forall (λ r, lsn r <= last_of a rs) rs.
Proof.
  destruct rs as [|r rs] using rev_ind; [done|]. intros H. rewrite last_of_app. cbn. apply Forall_app. split.
  - apply contiguous_before in H. eapply Forall_impl; [exact H|]. cbn. intros; lia.
  - by repeat constructor.
Qed.

Lemma consume_read start out n o es :
  consume (read_consumer start) out (items_of n o es) = More (out ++ filter (λ r, start <= lsn r) es.*2).
Proof.
  revert out o. induction es as [|[k r] es IH]; intros out o; cbn [items_of consume]; [by rewrite app_nil_r|].
  unfold read_consumer at 1. cbn [item_failure item_record record_item]. rewrite IH. cbn [fmap list_fmap snd]. rewrite filter_cons.
  destruct (Z.leb_spec start (lsn r)); case_decide; try lia; [|done]. by rewrite <-app_assoc.
Qed.

Lemma consume_read_pieces start pieces out :
  consume (read_consumer start) out (pieces ≫= piece_items) = More (out ++ filter (λ r, start <= lsn r) (pieces ≫= λ p : piece, p.2.*2)).
Proof.
  revert out. induction pieces as [|p pieces IH]; intros out; cbn [mbind list_bind]; [by rewrite app_nil_r|].
  unfold piece_items at 1. rewrite consume_app, consume_read, IH, filter_app, app_assoc. done.
Qed.

Section plan.
Context (F : Files) (W : Wal) (L : list Seg).
Context (HL : holds (directory W) F L) (Hs : synced F L W).

Lemma index_sizes_by_name : index_sizes (index W) = by_name seg_span L.
Proof. unfold index_sizes, by_name. f_equal. pose proof (synced_lists _ _ _ Hs) as H. unfold lists in H. exact H. Qed.

Lemma size_of_seg s : s ∈ L → size_in (index_sizes (index W)) (s_name s) = seg_span s.
Proof. intros Hin. rewrite index_sizes_by_name. unfold size_in. by rewrite by_name_elem by (done || by eapply names_NoDup). Qed.

Lemma chunk_of starts s a b : s ∈ L → s_entries s = a ++ b → size_in starts (s_name s) = span a →
  chunk F (index_sizes (index W)) starts (s_name s) (s_name s, span a, b).
Proof.
  intros Hin E Hst. destruct (holds_seg _ _ _ HL s Hin) as (_ & _ & c & Hc & Hcl). split; [done|]. split; [done|].
  exists c. cbn [fst snd]. rewrite size_of_seg by done. unfold seg_span. rewrite (clean_span _ _ Hcl).
  rewrite E in Hcl. pose proof (clean_nonneg _ _ _ Hcl). pose proof (clean_span _ _ Hcl) as Hsp. rewrite span_app in Hsp.
  pose proof (clean_drop _ _ _ Hcl) as Hd. pose proof (clean_nonneg _ b [] ltac:(by rewrite app_nil_r)). split_and!; [done|done|lia|lia|done].
Qed.

Definition whole (s : Seg) : piece := (s_name s, 0, s_entries s).

Lemma chunks_whole starts l : (∀ s, s ∈ l → s ∈ L ∧ size_in starts (s_name s) = 0) →
  Forall2 (chunk F (index_sizes (index W)) starts) (s_name <$> l) (whole <$> l).
Proof.
  intros H. rewrite Forall2_fmap. apply Forall_Forall2_diag, Forall_forall. intros s Hin. destruct (H s Hin) as [HsL H0].
  by apply (chunk_of starts s [] (s_entries s)).
Qed.

Lemma whole_records l : (whole <$> l) ≫= (λ p : piece, p.2.*2) = log_records l.
Proof. by rewrite bind_fmap_l. Qed.

(** A plan skips only records before [start] and reads all others where they stand. *)
Definition plans (start : Z) (plan : list pystr * gmap pystr Z * gmap pystr Z) : Prop :=
  ∃ pieces skipped, Forall2 (chunk F plan.1.2 plan.2) plan.1.1 pieces ∧
    log_records L = skipped ++ (pieces ≫= λ p : piece, p.2.*2) ∧ Forall (λ r, lsn r < start) skipped.

Lemma select_from_ok start before after : L = before ++ after → tracks L (index W) →
  ∃ pieces skipped, Forall2 (chunk F (index_sizes (index W)) (select_from (marks (index W)) start (seg_info <$> after)).2)
      (select_from (marks (index W)) start (seg_info <$> after)).1 pieces ∧
    log_records after = skipped ++ (pieces ≫= λ p : piece, p.2.*2) ∧ Forall (λ r, lsn r < start) skipped.
Proof.
  revert before. induction after as [|s after IH]; intros before E Ht.
  { exists [], []. by split_and!. }
  assert (s ∈ L) as Hin by (rewrite E; apply elem_of_app; right; by left).
  pose proof (holds_contiguous _ _ _ HL) as Hcon. rewrite E, log_records_app, contiguous_app in Hcon. destruct Hcon as [_ Hcon].
  change (log_records (s :: after)) with (seg_records s ++ log_records after) in *. rewrite contiguous_app in Hcon. destruct Hcon as [Hcs _].
  cbn [fmap list_fmap select_from]. destruct (negb _ && _) eqn:Hskip.
  - destruct (IH (before ++ [s])) as (pieces & skipped & H1 & H2 & H3); [by rewrite E, <-app_assoc|done|].
    exists pieces, (seg_records s ++ skipped). split; [done|]. rewrite H2, <-app_assoc. split; [done|].
    apply Forall_app. split; [|done]. apply andb_true_iff in Hskip as [_ Hskip%Z.ltb_lt].
    eapply Forall_impl; [apply (contiguous_last _ _ NO_LSN Hcs)|]. cbn. intros r Hr. cbn [seg_info Segment.last_lsn] in Hskip. lia.
  - clear IH. rewrite (tracks_marks _ _ Ht). cbn [fst snd Segment.name seg_info].
    pose proof (names_NoDup _ _ _ HL) as Hnd. rewrite (log_marks_elem L s) by done.
    destruct (mark_offset_skips (s_entries s) start _ Hcs) as (a & b & Eab & Hspan & Hlt).
    exists ((s_name s, span a, b) :: (whole <$> after)), (a.*2). rewrite <-Hspan.
    split; [|split].
    + apply Forall2_cons. split.
      * apply (chunk_of _ s a b); [done|done|]. unfold size_in. by rewrite lookup_singleton_eq.
      * rewrite <-list_fmap_compose. apply chunks_whole. intros t Hin'. split; [rewrite E; apply elem_of_app; right; by right|].
        unfold size_in. rewrite lookup_singleton_ne; [done|]. intros En. rewrite E, fmap_app in Hnd.
        apply NoDup_app in Hnd as (_ & _ & Hnd). cbn in Hnd. apply NoDup_cons in Hnd as [Hnd _]. apply Hnd. rewrite En. by apply list_elem_of_fmap_2.
    + cbn [mbind list_bind snd]. rewrite whole_records, app_assoc, <-fmap_app, <-Eab. done.
    + by rewrite Forall_fmap.
Qed.

Lemma read_plan_ok start : plans start (read_plan (index W) start).
Proof.
  unfold read_plan. destruct (damage (index W)) as [f|] eqn:Hd.
  - exists (whole <$> L), []. cbn [fst snd]. split; [|split; [by rewrite whole_records|done]].
    assert (name <$> segments (index W) = s_name <$> L) as ->.
    { apply (knew_cached (directory W) L W). by apply (synced_knew F). }
    apply chunks_whole. intros s Hin. split; [done|]. unfold size_in. by rewrite lookup_empty.
  - pose proof (synced_tracks _ _ _ Hs Hd) as Ht. destruct (select_from_ok start [] L eq_refl Ht) as (pieces & skipped & H).
    rewrite (tracks_segments _ _ Ht). destruct (select_from _ _ _) as [names starts]. by exists pieces, skipped.
Qed.
End plan.

(** ** Reading *)

Section reading.
Context {Dev : Type} {SD : StorageDevice Dev} {SL : StorageLaws Dev} {LL : LogLaws Dev}.
#[local] Abbreviation World := (@WalManager.World Dev).
Implicit Types (w : World) (R : pystr → option bytes → Prop) (W : Wal).

(** Reading changed nothing and the manager knows the log or what it knew. *)
Definition read_only (F : Files) R L W w : Prop := undecided F R W w ∨ ∃ W', at_ F R W' w ∧ passed F L W W'.

Lemma read_only_at (F : Files) R L W w : at_ F R W w → read_only F R L W w.
Proof. intros Hw. left. by apply at_undecided. Qed.

(** Code that first refreshes and then goes on from a manager that knows the log. *)
Lemma after_refresh {A} (k : option Z → M World A) (F : Files) R W L (Q : A → World → Prop) (E : World → Prop) :
  holds (directory W) F L → ready F L W → (∀ w, read_only F R L W w → E w) →
  (∀ a W', passed F L W W' → holds (directory W') F L → spec (at_ F R W') (k a) Q E) →
  spec (at_ F R W) (refresh_tail_if_needed None ≫= k) Q E.
Proof.
  intros HL Hr HE Hk. eapply spec_bind.
  - eapply spec_weaken; [by apply (refresh_if_needed_at F R W L)|done|intros a w H; exact H|intros w Hw; apply HE; by left].
  - intros a. apply spec_ex. intros W'. intros w [Hw Hp]. apply (Hk a W' Hp); [|done]. by destruct Hp as [[-> _] _].
Qed.

(** A consumer meets, at least, every record from [start] on, in order. *)
Definition meets {S} (f : S → ScanItem → verdict S) (s : S) (start : Z) L (φ : S → Prop) : Prop :=
  ∀ skipped pieces out, log_records L = skipped ++ (pieces ≫= λ p : piece, p.2.*2) → Forall (λ r, lsn r < start) skipped →
    consume f s (pieces ≫= piece_items) = More out ∨ consume f s (pieces ≫= piece_items) = Halt out → φ out.

Lemma planned_read_at {S} (f : S → ScanItem → verdict S) (s : S) (start : Z) (φ : S → Prop) (F : Files) R W L : holds (directory W) F L → synced F L W →
  meets f s start L φ →
  spec (at_ F R W)
    (i ← get index;
     let '(names, sizes, starts) := read_plan i start in
     outcome ← walk f names sizes starts None s;
     match outcome with Finished out => mret out | Broken _ _ e => fail e end)
    (λ out w, φ out ∧ at_ F R W w) (at_ F R W).
Proof.
  intros HL Hs Hφ. eapply bind_at; [apply get_at|done|]. intros i ->.
  destruct (read_plan_ok F W L HL Hs start) as (pieces & skipped & Hch & Erec & Hskip).
  destruct (read_plan (index W) start) as [[names sizes] starts]. cbn [fst snd] in Hch.
  pose proof (holds_contiguous _ _ _ HL) as Hcon. rewrite Erec, contiguous_app in Hcon. destruct Hcon as [_ Hcon%contiguous_None].
  eapply bind_at; [by apply (walk_at f F R W names sizes starts None s pieces)|done|].
  intros [out|out n e] Hout; [|by intros w Hw]. intros w Hw. split; [by apply (Hφ skipped pieces)|done].
Qed.

Lemma reading_from_at {S} (f : S → ScanItem → verdict S) (s : S) (start : Z) (φ : S → Prop) (F : Files) R W L : holds (directory W) F L → ready F L W →
  meets f s start L φ →
  spec (at_ F R W) (reading_from f s start) (λ out w, φ out ∧ ∃ W', at_ F R W' w ∧ passed F L W W') (read_only F R L W).
Proof.
  intros HL Hr Hφ. unfold reading_from. eapply bind_at; [apply require_open_at|apply read_only_at|]. intros [] _.
  eapply bind_at; [apply lift_at|apply read_only_at|]. intros st Hst.
  assert (st = start) as -> by (unfold require_lsn in Hst; case_match; [done|by injection Hst]).
  apply (after_refresh _ F R W L); [done..|]. intros _ W' Hp HL'. pose proof Hp as [_ Hs].
  eapply spec_weaken; [by apply (planned_read_at f s start φ F R W' L)|done| |].
  - intros out w [Hout Hw]. split; [done|by exists W'].
  - intros w Hw. right. by exists W'.
Qed.

Lemma read_from_at (start : Z) (F : Files) R W L : holds (directory W) F L → ready F L W →
  spec (at_ F R W) (read_from start)
    (λ out w, out = filter (λ r, start <= lsn r) (log_records L) ∧ ∃ W', at_ F R W' w ∧ passed F L W W')
    (read_only F R L W).
Proof.
  intros HL Hr. apply (reading_from_at _ _ _ (λ out, out = filter (λ r, start <= lsn r) (log_records L))); [done..|].
  intros skipped pieces out Erec Hskip Hout. rewrite consume_read_pieces in Hout. destruct Hout as [[= <-]|[=]].
  rewrite Erec, filter_app, (filter_none _ skipped); [done|]. intros r Hr'. rewrite Forall_forall in Hskip. specialize (Hskip r Hr'). lia.
Qed.

Lemma consume_collect (items out : list ScanItem) : consume collect out items = More (out ++ items).
Proof.
  revert out. induction items as [|x items IH]; intros out; cbn [consume collect]; [by rewrite app_nil_r|].
  rewrite IH. by rewrite <-app_assoc.
Qed.

(** A walk over the registered segments meets every record of the log. *)
Lemma walk_registered_at {S} (f : S → ScanItem → verdict S) (s : S) (F : Files) R W L : holds (directory W) F L → synced F L W →
  spec (at_ F R W) (walk_registered f s)
    (λ out w, match out with
              | Finished s' => consume f s (log_items L) = More s' ∨ consume f s (log_items L) = Halt s'
              | Broken _ _ _ => True
              end ∧ at_ F R W w) (at_ F R W).
Proof.
  intros HL Hs. unfold walk_registered. eapply bind_at; [apply get_at|done|]. intros i ->.
  assert (name <$> segments (index W) = s_name <$> L) as ->.
  { apply (knew_cached (directory W) L W). by apply (synced_knew F). }
  assert (log_items L = (whole <$> L) ≫= piece_items) as -> by (by rewrite bind_fmap_l).
  apply walk_at.
  - apply (chunks_whole F W L); [done..|]. intros t Ht. split; [done|]. unfold size_in. by rewrite lookup_empty.
  - rewrite whole_records. apply HL.
Qed.

Lemma scan_all_at (F : Files) R W L : holds (directory W) F L → ready F L W →
  spec (at_ F R W) scan_all (λ items w, items = log_items L ∧ ∃ W', at_ F R W' w ∧ passed F L W W') (read_only F R L W).
Proof.
  intros HL Hr. unfold scan_all. eapply bind_at; [apply require_open_at|apply read_only_at|]. intros [] _.
  eapply bind_at; [apply get_at|apply read_only_at|]. intros b ->. destruct (indexed W); cbn [negb].
  - apply (after_refresh _ F R W L); [done..|]. intros _ W' Hp HL'. pose proof Hp as [_ Hs].
    assert (∀ w, at_ F R W' w → read_only F R L W w) as HE by (intros w Hw; right; by exists W').
    eapply bind_at; [by apply (walk_registered_at collect [] F R W' L)|exact HE|].
    intros [out|out n e] Hout; [|intros w Hw; by apply HE]. rewrite consume_collect in Hout. cbn [app] in Hout.
    destruct Hout as [[= <-]|[=]]. intros w Hw. split; [done|by exists W'].
  - eapply spec_weaken; [by apply (index_pass_at false F R W L)|done| |apply read_only_at].
    intros items w (W' & Hw & Hp & Hi & Hd). split; [by apply Hi, Hd|by exists W'].
Qed.

(** ** Durability *)

(** The files have not changed, and a loss of power may bring back no more than before. *)
Definition flushed_at (F : Files) R W (targets : list pystr) w : Prop :=
  files (dev w) = F ∧ wal w = W ∧ (∀ g x, recoverable (dev w) g x → R g x) ∧
  ∀ f, f ∈ targets → is_Some (F !! f) ∧ ∀ x, recoverable (dev w) f x → x = F !! f.

Lemma flush_at (F : Files) R W done_ targets :
  spec (flushed_at F R W done_) (flush targets) (λ _, flushed_at F R W (done_ ++ targets)) (flushed_at F R W done_).
Proof.
  revert done_. induction targets as [|f targets IH]; intros done_; cbn [flush]; [intros w Hw; by rewrite app_nil_r|].
  eapply (spec_bind _ _ _ (λ _, flushed_at F R W (done_ ++ [f]))).
  - intros w (HF & HW & HR & Hd). unfold on_dev. destruct (durable_barrier_law f (dev w)) as [_ H].
    destruct (durable_barrier (Some f) (dev w)) as [[[]|e] d]; cbn in H.
    + destruct H as (H1 & H2 & H3 & H4). unfold flushed_at. cbn. rewrite HF in *. split_and!; [congruence|done|by intros g x ?%H2; apply HR|].
      intros g [Hg|Hg]%elem_of_app.
      * destruct (Hd g Hg) as [? Hx]. split; [done|]. by intros x ?%H2; apply Hx.
      * apply list_elem_of_singleton in Hg as ->. done.
    + destruct H as (H1 & H2). unfold flushed_at. cbn. rewrite HF in *. split_and!; [congruence|done|by intros g x ?%H2; apply HR|].
      intros g Hg. destruct (Hd g Hg) as [? Hx]. split; [done|]. by intros x ?%H2; apply Hx.
  - intros []. eapply spec_weaken; [apply (IH (done_ ++ [f]))|done| |].
    + intros a w. by rewrite <-app_assoc.
    + intros w (? & ? & ? & Hd). split_and!; [done..|]. intros g Hg. apply Hd, elem_of_app. by left.
Qed.

Lemma barrier_at (F : Files) R W :
  spec (at_ F R W) barrier (λ _, flushed_at F R (with_unflushed [] W) (unflushed W)) (flushed_at F R W []).
Proof.
  assert (∀ w, at_ F R W w → flushed_at F R W [] w) as HE.
  { intros w (HF & HR & HW). split_and!; [done..|by intros g x; rewrite HR|by intros f ?%not_elem_of_nil]. }
  unfold barrier. eapply bind_at; [apply require_open_at|exact HE|]. intros [] _. eapply bind_at; [apply get_at|exact HE|]. intros l ->.
  case_bool_decide as El.
  - intros w Hw. apply HE in Hw. rewrite El. destruct W. cbn in El. subst. exact Hw.
  - eapply spec_bind; [eapply spec_weaken; [apply (flush_at F R W [] (unflushed W))|exact HE|intros a w H; exact H|done]|].
    intros []. intros w (HF & HW & HR & Hd). cbn. split_and!; [done| |done|done]. by rewrite HW.
Qed.
End reading.

(** ** Properties *)

Lemma healthy_refused {Dev} {SD : StorageDevice Dev} {SL : StorageLaws Dev} (F : Files) (R : pystr → option bytes → Prop) :
  spec (still F R true) (require_healthy (Dev := Dev)) (λ _ _, False) (still F R true).
Proof.
  intros w (HF & HR & Hu). unfold require_healthy, get, gets, mbind, m_bind. rewrite Hu. by destruct (damage (index (wal w))).
Qed.

(** A latched manager appends nothing.  Whatever bytes the device holds, once
    [append_uncertain] is set every append raises, leaves every file as it was, and leaves the
    latch set. *)
Theorem append_refused_when_latched {Dev} {SD : StorageDevice Dev} {SL : StorageLaws Dev} {LL : LogLaws Dev}
    (F : gmap pystr bytes) (R : pystr → option bytes → Prop) (wall : Z) (records : list WalRecord) (expected : option Z) :
  spec (still F R true) (append_many (Dev := Dev) wall records expected) (λ _ _, False) (still F R true).
Proof.
  unfold append_many. eapply spec_bind; [apply quiet_require_open|]. intros [].
  eapply spec_bind; [apply quiet_refresh_if_needed|]. intros answer.
  eapply spec_bind; [apply healthy_refused|]. by intros [] w Hw.
Qed.

(** A device with a log of one segment of two records, and a manager that has not looked yet. *)
Definition sample_batch : list WalRecord := renumber 0 [sample_record; sample_record].
Definition encoded (r : WalRecord) : bytes := match encode r with Ok b => b | Err _ => [] end.
Definition sample_images : list bytes := encoded <$> sample_batch.
Definition sample_log : list Seg := [MkSeg 1 (str "wal/000000000001.wal") (zip (zlen <$> sample_images) sample_batch)].
Definition sample_files : gmap pystr bytes := {[str "wal/000000000001.wal" := concat sample_images]}.
Definition sample_world : @WalManager.World Memory.t := MkWorld (Memory.Mk 512 None sample_files {[str "wal"]} false) fresh_wal.

Lemma clean_encoded r : post_init r = Ok r → is_Some (match encode r with Ok b => Some b | Err _ => None end) →
  clean (encoded r) [(zlen (encoded r), r)].
Proof. intros Hr He. unfold encoded. destruct (encode r) as [b|] eqn:E; [by apply clean_image|by destruct He]. Qed.

Lemma sample_holds : holds (str "wal") sample_files sample_log.
Proof.
  constructor.
  - intros s Hs. apply list_elem_of_singleton in Hs as ->. split_and!; [vm_compute; reflexivity|done|].
    exists (concat sample_images). split; [apply lookup_singleton_eq|]. cbn [s_entries].
    unfold sample_batch. cbn [renumber]. unfold sample_images.
    apply (clean_app _ _ [_]); [apply clean_encoded; [reflexivity|by eexists]|].
    apply (clean_app _ _ [_]); [apply clean_encoded; [reflexivity|by eexists]|constructor].
  - repeat constructor.
  - intros n f [[c Hc] _]. left. unfold sample_files in Hc. apply lookup_singleton_Some in Hc as [<- _]. by eexists; split; [left|].
  - vm_compute. split; [done|]. split; [|done]. by intros x [= <-].
  - repeat constructor.
Qed.

Lemma append_refused_when_latched_witness :
  let w := MkWorld (dev sample_world) (with_uncertain true fresh_wal) in
  ∃ e w', append_many 7 [sample_record] None w = (Err e, w') ∧ still sample_files (recoverable (dev sample_world)) true w'.
Proof.
  intros w. pose proof (append_refused_when_latched sample_files (recoverable (dev sample_world)) 7 [sample_record] None w ltac:(by split_and!)) as H.
  destruct (append_many 7 [sample_record] None w) as [[n|e] w']; [destruct H|]. by exists e, w'.
Defined.

Lemma sample_at : at_ sample_files (recoverable (dev sample_world)) fresh_wal sample_world.
Proof. by split_and!. Qed.

Lemma sample_ready : ready sample_files sample_log fresh_wal.
Proof. by constructor. Qed.

(** C17: reading from a number yields exactly the records from there on.  Over a log whose bytes
    are whole records, [read_from start] that returns has handed out every record with a number
    of at least [start], in order, and no other, though it skipped whole segments and entered the
    first one at a mark; no file changed.  When it raises, nothing changed either. *)
Theorem read_from_exact {Dev} {SD : StorageDevice Dev} {SL : StorageLaws Dev} {LL : LogLaws Dev}
    (start : Z) (F : gmap pystr bytes) (R : pystr → option bytes → Prop) (W : Wal) (L : list Seg)
    (HL : holds (directory W) F L) (HW : ready F L W) :
  spec (at_ F R W) (read_from start)
    (λ out w, out = filter (λ r, start <= lsn r) (log_records L) ∧ ∃ W', at_ F R W' w ∧ passed F L W W')
    (read_only F R L W).
Proof. by apply read_from_at. Qed.

Lemma read_from_exact_witness :
  (read_from 2 sample_world).1 = Ok [at_lsn sample_record 2] ∧
  filter (λ r, 2 <= lsn r) (log_records sample_log) = [at_lsn sample_record 2].
Proof.
  pose proof (read_from_exact 2 sample_files _ fresh_wal sample_log sample_holds sample_ready _ sample_at) as H.
  assert ((read_from 2 sample_world).1 = Ok [at_lsn sample_record 2]) as E by (vm_compute; reflexivity).
  split; [exact E|]. destruct (read_from 2 sample_world) as [[out|e] w]; [|discriminate E]. injection E as ->. symmetry. apply H.
Defined.

(** A full scan hands out the log.  [scan_all] that returns has yielded one item per record,
    at its segment and offset, in order, and no failure, whether the log was indexed in the same
    pass or before. *)
Theorem scan_all_exact {Dev} {SD : StorageDevice Dev} {SL : StorageLaws Dev} {LL : LogLaws Dev}
    (F : gmap pystr bytes) (R : pystr → option bytes → Prop) (W : Wal) (L : list Seg)
    (HL : holds (directory W) F L) (HW : ready F L W) :
  spec (at_ F R W) scan_all (λ items w, items = log_items L ∧ ∃ W', at_ F R W' w ∧ passed F L W W') (read_only F R L W).
Proof. by apply scan_all_at. Qed.

Lemma scan_all_exact_witness : (scan_all sample_world).1 = Ok (log_items sample_log) ∧ length (log_items sample_log) = 2%nat.
Proof.
  split; [|reflexivity].
  pose proof (scan_all_exact sample_files _ fresh_wal sample_log sample_holds sample_ready _ sample_at) as H.
  assert (match (scan_all sample_world).1 with Ok _ => True | Err _ => False end) as E by (vm_compute; exact I).
  destruct (scan_all sample_world) as [[items|e] w]; [|destruct E]. destruct H as [-> _]. reflexivity.
Defined.

(** Append a batch, then make it durable. *)
Definition append_durably {Dev} {SD : StorageDevice Dev} (wall : Z) (records : list WalRecord) (expected : option Z) : M WalManager.World Z :=
  last ← append_many wall records expected; _ ← barrier; mret last.

(** a barrier after an append makes it durable.  When both return, the log has grown by the
    admitted records, nothing is due any more, and whatever a loss of power brings back of the
    file they were written to is all that it holds, the whole batch included. *)
Theorem append_barrier_durable {Dev} {SD : StorageDevice Dev} {SL : StorageLaws Dev} {LL : LogLaws Dev}
    (F : gmap pystr bytes) (R : pystr → option bytes → Prop) (W : Wal) (L : list Seg) (wall : Z) (records : list WalRecord) (expected : option Z)
    (HL : holds (directory W) F L) (HW : ready F L W) :
  spec (at_ F R W) (append_durably wall records expected)
    (λ answer w, ∃ batch f L' content,
       admitted (log_descriptor W) L records batch ∧ appended L L' wall f batch ∧
       holds (directory W) (files (dev w)) L' ∧ answer = last_of NO_LSN (log_records L') ∧
       files (dev w) !! f = Some content ∧ (∀ x, recoverable (dev w) f x → x = Some content) ∧
       unflushed (wal w) = [])
    (λ _, True).
Proof.
  unfold append_durably. eapply spec_bind; [eapply spec_weaken; [by apply append_many_at|done|intros a w H; exact H|done]|].
  intros answer w1 (batch & f & L' & H1 & H2 & _ & (blob & H4) & H5 & _ & _ & H8 & H9).
  pose proof (barrier_at (files (dev w1)) (recoverable (dev w1)) (wal w1) w1 ltac:(by split_and!)) as Hb.
  unfold mbind, m_bind. destruct (barrier w1) as [[[]|e] w]; [|done]. destruct Hb as (HF & HW' & _ & Hd).
  destruct (Hd f H9) as [_ Hx]. rewrite H4 in Hx. cbn.
  exists batch, f, L', (default [] (F !! f) ++ blob). rewrite HF, HW'. by split_and!.
Qed.

Lemma append_barrier_durable_witness :
  ∃ w, append_durably 7 [sample_record] None sample_world = (Ok 3, w) ∧ unflushed (wal w) = [].
Proof.
  pose proof (append_barrier_durable sample_files _ fresh_wal sample_log 7 [sample_record] None sample_holds sample_ready _ sample_at) as H.
  assert ((append_durably 7 [sample_record] None sample_world).1 = Ok 3) as E by (vm_compute; reflexivity).
  destruct (append_durably 7 [sample_record] None sample_world) as [[n|e] w]; [|discriminate E].
  injection E as ->. exists w. split; [reflexivity|]. by destruct H as (? & ? & ? & ? & ? & ? & ? & ? & ? & ? & ?).
Defined.







