(* ===== verification/WalRecycle.v ===== *)
(** Reclaiming segments: what [recycle] releases and what it leaves. *)

From S2P Require Import Prelude Ids Layout Utf8 WalRecord Segment Recovery Storage MemoryStorage WalScan WalManager WalTheorems WalAppend WalRead.

#[local] Abbreviation Files := (gmap pystr bytes).

(** ** Dropping the oldest segments *)

(** The files of the first [n] segments of [L] are gone, nothing else has changed. *)
Definition without (F : Files) (L : list Seg) (n : nat) (F' : Files) : Prop :=
  (∀ g, g ∉ s_name <$> take n L → F' !! g = F !! g) ∧ (∀ s, s ∈ take n L → F' !! s_name s = None).

Section dropping.
Context (dir : pystr) (F F' : Files) (L : list Seg) (n : nat).
Context (HL : holds dir F L) (HF : without F L n F').

Lemma kept_names s : s ∈ drop n L → s_name s ∉ s_name <$> take n L.
Proof.
  pose proof (names_NoDup _ _ _ HL) as Hn. rewrite <-(take_drop n L), fmap_app in Hn. apply NoDup_app in Hn as (_ & Hd & _).
  intros Hs Hin. apply (Hd _ Hin). by apply list_elem_of_fmap_2.
Qed.

Lemma in_drop s : s ∈ drop n L → s ∈ L.
Proof. intros Hs. rewrite <-(take_drop n L). apply elem_of_app. by right. Qed.

Lemma drop_records : log_records L = log_records (take n L) ++ log_records (drop n L).
Proof. by rewrite <-log_records_app, take_drop. Qed.

Lemma holds_drop : holds dir F' (drop n L).
Proof.
  destruct HF as [Hkeep Hgone]. constructor.
  - intros s Hs. destruct (holds_seg _ _ _ HL s (in_drop s Hs)) as (? & ? & c & Hc & ?). split_and!; [done..|]. exists c.
    split; [|done]. rewrite Hkeep; [done|by apply kept_names].
  - pose proof (holds_sorted _ _ _ HL) as Hs. rewrite <-(take_drop n L) in Hs. by apply StronglySorted_app in Hs as (_ & _ & ?).
  - intros m f [[c Hc] Hp]. destruct (decide (f ∈ s_name <$> take n L)) as [(s & -> & Hs)%list_elem_of_fmap|Hno].
    { by rewrite Hgone in Hc. }
    rewrite Hkeep in Hc |- * by done. destruct (holds_file _ _ _ HL m f) as [(s & Hs & <-)|?]; [by split; [exists c|]| |by right].
    left. exists s. split; [|done]. rewrite <-(take_drop n L) in Hs. apply elem_of_app in Hs as [Hs|Hs]; [|done].
    destruct Hno. by apply list_elem_of_fmap_2.
  - pose proof (holds_contiguous _ _ _ HL) as Hc. rewrite drop_records, contiguous_app in Hc. by eapply contiguous_None, Hc.
  - pose proof (holds_positive _ _ _ HL) as Hp. rewrite drop_records in Hp. by apply Forall_app in Hp as [_ ?].
Qed.

Context (Hsome : drop n L = [] → L = []).

Lemma later_drop : later F' L (drop n L).
Proof.
  destruct (decide (drop n L = [])) as [E|E]; [left; by apply Hsome|]. right. right. exists n. split; [done|]. split; [|apply HF].
  right. destruct (last (drop n L)) as [s|] eqn:Es; [|by apply last_None in Es]. apply last_Some in Es as [K EK].
  exists K, s, [], []. split; [done|]. rewrite EK. unfold seg_append. rewrite !app_nil_r. by destruct s.
Qed.

(** The accounting that is left when the first segments are struck from it. *)
Definition struck (i : Index) : Index :=
  MkIndex (drop n (segments i)) (still_named (name <$> drop n (segments i)) (marks i)) (log_last_lsn i) (max_epoch i)
    (damage i) (sum_sizes (drop n (segments i))) (next_number i).

Lemma struck_names i : tracks L i → name <$> drop n (segments i) = s_name <$> drop n L.
Proof. intros Ht. rewrite (tracks_segments _ _ Ht), <-fmap_drop, <-list_fmap_compose. done. Qed.

Lemma struck_remains : remains (s_name <$> drop n L) (drop n L) L.
Proof.
  constructor.
  - exists (take n L). split; [by rewrite take_drop|]. intros s Hs (t & E & Ht)%list_elem_of_fmap.
    apply (kept_names t Ht). rewrite <-E. by apply list_elem_of_fmap_2.
  - intros s Hs. by apply list_elem_of_fmap_2.
  - done.
Qed.

Lemma struck_tracks i : tracks L i → tracks (drop n L) (struck i).
Proof.
  intros Ht. pose proof (struck_names i Ht) as En. constructor; cbn.
  - by rewrite (tracks_segments _ _ Ht), fmap_drop.
  - rewrite En, (tracks_marks _ _ Ht).
    exact (still_named_remains (λ s, notes [] 0 (s_entries s)) _ _ _ (names_NoDup _ _ _ HL) struck_remains).
  - rewrite (tracks_last _ _ Ht), drop_records, last_of_app. destruct (drop n L) as [|s l] eqn:E; [by rewrite (Hsome eq_refl), take_nil|].
    apply last_of_nonempty. destruct (holds_seg _ _ _ HL s) as (_ & Hne & _); [apply in_drop; rewrite E; by left|].
    cbn. unfold seg_records. by destruct (s_entries s).
  - pose proof (tracks_epoch _ _ Ht) as He. rewrite drop_records in He. by apply Forall_app in He as [_ ?].
  - apply (tracks_damage _ _ Ht).
  - by rewrite (tracks_segments _ _ Ht), fmap_drop.
Qed.
End dropping.

(** ** The rule *)

Lemma recyclable_below dir F L horizon l : holds dir F L → l ⊆ L →
  ∃ k, count_recyclable horizon (seg_info <$> l) = Z.of_nat k ∧ (k <= length l)%nat ∧
    Forall (λ s, Forall (λ r, lsn r < horizon) (seg_records s)) (take k l) ∧
    (k = length l ∨ ∃ s, l !! k = Some s ∧ horizon <= last_of NO_LSN (seg_records s)).
Proof.
  intros HL. induction l as [|s l IH]; intros Hsub.
  { exists 0%nat. split_and!; [done..|by left]. }
  assert (s ∈ L) as Hs by (apply Hsub; by left). destruct IH as (k & Hk & Hle & Hall & Hend); [intros t Ht; apply Hsub; by right|].
  cbn [fmap list_fmap count_recyclable]. pose proof (seg_positive dir F L HL s Hs) as Hpos.
  destruct (holds_seg _ _ _ HL s Hs) as (_ & Hne & _).
  assert (is_readable (seg_info s) = true) as ->.
  { unfold is_readable, seg_info. cbn [record_count Segment.last_lsn]. pose proof (last_nonneg _ Hpos).
    apply andb_true_iff. split; [apply Z.ltb_lt; destruct (s_entries s); [done|rewrite zlen_cons; pose proof (zlen_nonneg l0); lia]|].
    apply negb_true_iff, Z.eqb_neq. unfold NO_LSN in *. unfold seg_records in *.
    destruct (s_entries s) as [|e es] using rev_ind; [done|]. rewrite fmap_app, Forall_app in Hpos. destruct Hpos as [_ Hpos].
    rewrite fmap_app, last_of_app. cbn in *. apply Forall_cons in Hpos as [? _]. lia. }
  cbn [negb]. change (Segment.last_lsn (seg_info s)) with (last_of NO_LSN (seg_records s)). destruct (Z.leb_spec horizon (last_of NO_LSN (seg_records s))) as [Hh|Hh].
  - exists 0%nat. split_and!; [done|lia|constructor|]. right. by exists s.
  - exists (S k). rewrite Hk. split_and!; [lia|cbn; lia| |].
    + cbn [take]. constructor; [|done]. pose proof (holds_contiguous _ _ _ HL) as Hc.
      apply list_elem_of_split in Hs as (a & b & E). rewrite E, log_records_app in Hc. cbn in Hc. rewrite contiguous_app in Hc.
      destruct Hc as [_ Hc]. unfold log_records in Hc. cbn [mbind list_bind] in Hc. rewrite contiguous_app in Hc. destruct Hc as [Hc _].
      eapply Forall_impl; [apply (contiguous_last _ _ NO_LSN Hc)|]. cbn. intros; lia.
    + destruct Hend as [->|(t & Ht & Hh')]; [left; done|]. right. by exists t.
Qed.

(** ** Releasing *)

Section releasing.
Context {Dev : Type} {SD : StorageDevice Dev} {SL : StorageLaws Dev} {LL : LogLaws Dev}.
#[local] Abbreviation World := (@WalManager.World Dev).
Implicit Types (w : World) (R : pystr → option bytes → Prop) (W : Wal) (φ : Dev → Prop).

(** The files [D] are gone; of the others none but those of [X] differs from [F]; and [φ]. *)
Definition mid (F : Files) (D X : list pystr) W φ w : Prop :=
  wal w = W ∧ (∀ g, g ∉ D → g ∉ X → files (dev w) !! g = F !! g) ∧ (∀ g, g ∈ D → files (dev w) !! g = None) ∧ φ (dev w).

(** A fact that no change of the file [g] touches. *)
Definition steady (g : pystr) φ : Prop := ∀ d d', only g d d' → φ d → φ d'.

Lemma only_refl g d : only g d d.
Proof. by intros x _. Qed.

Lemma untouched_only_any g d d' : untouched d d' → only g d d'.
Proof. intros [H1 H2] x _. by rewrite H1, H2. Qed.

Lemma mid_gone (F : Files) D X W φ g d d' : g ∉ X → steady g φ → mid F D X W φ (MkWorld d W) → only g d d' → files d' !! g = None →
  mid F (D ++ [g]) X W φ (MkWorld d' W).
Proof.
  intros HX Hst (_ & Hkeep & Hgone & Hφ) Ho Hg. cbn in *. split_and!; [done| | |by eapply Hst].
  - intros x Hx HxX. apply not_elem_of_app in Hx as [H1 H2]. cbn. assert (x ≠ g) by (intros ->; apply H2; by left).
    destruct (Ho x) as [-> _]; [done|]. by apply Hkeep.
  - intros x Hx. cbn. destruct (decide (x = g)) as [->|Hne]; [done|]. destruct (Ho x Hne) as [-> _]. apply Hgone.
    apply elem_of_app in Hx as [?|?%list_elem_of_singleton]; done.
Qed.

Lemma mid_same (F : Files) D X W φ g d d' : steady g φ → mid F D X W φ (MkWorld d W) → only g d d' → files d' !! g = files d !! g →
  mid F D X W φ (MkWorld d' W).
Proof.
  intros Hst (_ & Hkeep & Hgone & Hφ) Ho Hg. cbn in *.
  assert (∀ x, files d' !! x = files d !! x) as E by (intros x; destruct (decide (x = g)) as [->|Hne]; [done|by apply Ho]).
  split_and!; [done| | |by eapply Hst]; intros x; cbn; rewrite E; auto.
Qed.

(** One file: it went, or it is still there. *)
Lemma mid_recycle (F : Files) D X W φ g : g ∉ X → steady g φ →
  spec (mid F D X W φ) (on_dev (recycle g))
    (λ released w, mid F (D ++ [g]) X W φ w ∨ released = false ∧ mid F D X W φ w)
    (λ w, mid F D X W φ w ∨ mid F (D ++ [g]) X W φ w).
Proof.
  intros HX Hst [d W'] Hw. pose proof Hw as (HW & _). cbn in HW. subst W'. unfold on_dev. cbn [dev wal].
  destruct (recycle_law g d) as [_ H]. destruct (recycle g d) as [[b|e] d']; cbn in H.
  - destruct H as [Ho [E|[-> E]]]; [left; by eapply mid_gone|right; split; [done|by eapply mid_same]].
  - destruct H as [Ho [E|E]]; [right; by eapply mid_gone|left; by eapply mid_same].
Qed.

Lemma mid_exists (F : Files) D X W φ g : steady g φ →
  spec (mid F D X W φ) (on_dev (exists_ g)) (λ b w, b = bool_decide (is_Some (files (dev w) !! g)) ∧ mid F D X W φ w) (mid F D X W φ).
Proof.
  intros Hst [d W'] Hw. pose proof Hw as (HW & _). cbn in HW. subst W'. unfold on_dev. cbn [dev wal].
  destruct (exists_law g d) as [_ H]. destruct (exists_ g d) as [[b|e] d']; cbn in H.
  - destruct H as [Hu ->]. pose proof Hu as [E _]. split; [cbn; by rewrite E|].
    eapply mid_same; [done..|by apply untouched_only_any|by rewrite E].
  - pose proof H as [E _]. eapply mid_same; [done..|by apply untouched_only_any|by rewrite E].
Qed.

(** Asking whether a file that was not reported released is there tells which of the two it is. *)
Lemma mid_asked (F : Files) D X W φ g : g ∉ X → g ∉ D → is_Some (F !! g) → steady g φ →
  spec (λ w, mid F (D ++ [g]) X W φ w ∨ mid F D X W φ w) (on_dev (exists_ g))
    (λ there w, if (there : bool) then mid F D X W φ w else mid F (D ++ [g]) X W φ w)
    (λ w, mid F D X W φ w ∨ mid F (D ++ [g]) X W φ w).
Proof.
  intros HX HD Hsome Hst w [Hw|Hw].
  - pose proof (mid_exists F (D ++ [g]) X W φ g Hst w Hw) as H. destruct (on_dev (exists_ g) w) as [[b|e] w']; [|by right].
    destruct H as [-> H]. case_bool_decide as E; [|done]. destruct H as (_ & _ & Hg & _).
    rewrite Hg in E by (apply elem_of_app; right; by left). by destruct E.
  - pose proof (mid_exists F D X W φ g Hst w Hw) as H. destruct (on_dev (exists_ g) w) as [[b|e] w']; [|by left].
    destruct H as [-> H]. case_bool_decide as E; [done|]. destruct H as (_ & Hk & _). rewrite (Hk g) in E by done. done.
Qed.

(** The recycling of the log's first segments. *)
Definition released_at (F : Files) L W n w : Prop := wal w = W ∧ without F L n (files (dev w)).

Lemma released_mid (F : Files) L W n w : released_at F L W n w ↔ mid F (s_name <$> take n L) [] W (λ _, True) w.
Proof.
  unfold released_at, without, mid. split.
  - intros (? & Hk & Hg). split_and!; [done|by intros g ? _; apply Hk| |done]. by intros g (s & -> & Hs)%list_elem_of_fmap; apply Hg.
  - intros (? & Hk & Hg & _). split_and!; [done|intros g Hno; apply Hk; [done|apply not_elem_of_nil]|]. intros s Hs. apply Hg. by apply list_elem_of_fmap_2.
Qed.

Lemma released_S (F : Files) L W n s w : L !! n = Some s →
  mid F ((s_name <$> take n L) ++ [s_name s]) [] W (λ _, True) w → released_at F L W (S n) w.
Proof. intros Hs H. apply released_mid. rewrite (take_S_r _ _ _ Hs), fmap_app. exact H. Qed.

Lemma release_at (F : Files) dir L W m : ∀ n rec def recl dropped, holds dir F L → (n + m <= length L)%nat →
  spec (released_at F L W n) (release (take m (drop n (seg_info <$> L))) rec def recl dropped)
    (λ out w, ∃ k, (k <= m)%nat ∧ released_at F L W (n + k) w ∧ out.2 = (dropped + k)%nat ∧ (out.1.1.2 = [] → k = m))
    (λ w, ∃ k, (k <= m)%nat ∧ released_at F L W (n + k) w).
Proof.
  induction m as [|m IH]; intros n rec def recl dropped HL Hm.
  { rewrite take_0. cbn [release]. intros w Hw. exists 0%nat. rewrite Nat.add_0_r. by split_and!. }
  destruct (lookup_lt_is_Some_2 L n) as [s Hs]; [lia|].
  assert (drop n (seg_info <$> L) = seg_info s :: drop (S n) (seg_info <$> L)) as ->
    by (apply drop_S; by rewrite list_lookup_fmap, Hs).
  cbn [take release]. change (Segment.name (seg_info s)) with (s_name s).
  assert (∀ d rc df, spec (released_at F L W (S n)) (release (take m (drop (S n) (seg_info <$> L))) rc df d (S dropped))
    (λ out w, ∃ k, (k <= S m)%nat ∧ released_at F L W (n + k) w ∧ out.2 = (dropped + k)%nat ∧ (out.1.1.2 = [] → k = S m))
    (λ w, ∃ k, (k <= S m)%nat ∧ released_at F L W (n + k) w)) as Hnext.
  { intros d rc df. eapply spec_weaken; [apply (IH (S n)); [done|lia]|done| |].
    - intros out w (k & Hk & Hw & Hout & Hdef). exists (S k). replace (n + S k)%nat with (S n + k)%nat by lia. split_and!; [lia|done|lia|].
      intros E. by rewrite Hdef.
    - intros w (k & Hk & Hw). exists (S k). replace (n + S k)%nat with (S n + k)%nat by lia. by split; [lia|]. }
  set (D := s_name <$> take n L). assert (∀ w, mid F D [] W (λ _, True) w ∨ mid F (D ++ [s_name s]) [] W (λ _, True) w →
    ∃ k, (k <= S m)%nat ∧ released_at F L W (n + k) w) as HE.
  { intros w [Hw|Hw]; [exists 0%nat; rewrite Nat.add_0_r; split; [lia|by apply released_mid]|exists 1%nat; rewrite Nat.add_1_r].
    split; [lia|by eapply released_S]. }
  assert (s ∈ L) as HsL by (by eapply list_elem_of_lookup_2).
  assert (s_name s ∉ D) as HD.
  { pose proof (kept_names dir F L n HL s) as Hno. apply Hno. rewrite (drop_S _ _ _ Hs). by left. }
  eapply spec_bind; [eapply spec_weaken; [apply (mid_recycle F D [] W (λ _, True) (s_name s)); [apply not_elem_of_nil|done]|by intros w Hw; apply released_mid|intros b w H; exact H|exact HE]|].
  intros released. destruct released.
  - intros w [Hw|[? _]]; [|done]. apply Hnext. by eapply released_S.
  - eapply spec_bind; [eapply spec_weaken; [apply (mid_asked F D [] W (λ _, True) (s_name s)); [apply not_elem_of_nil|done| |done]| |intros b w H; exact H|exact HE]|].
    + destruct (holds_seg _ _ _ HL s HsL) as (_ & _ & c & Hc & _). by exists c.
    + intros w [?|[_ ?]]; auto.
    + intros there. destruct there; [|intros w Hw; apply Hnext; by eapply released_S].
      intros w Hw. exists 0%nat. rewrite Nat.add_0_r. split_and!; [lia|by apply released_mid|cbn; lia|].
      cbn. intros E. by apply app_nil in E as [_ ?].
Qed.
End releasing.

(** ** Recycling *)

Section recycling.
Context {Dev : Type} {SD : StorageDevice Dev} {SL : StorageLaws Dev} {LL : LogLaws Dev}.
#[local] Abbreviation World := (@WalManager.World Dev).
Implicit Types (w : World) (R : pystr → option bytes → Prop) (W : Wal).

(** The first [n] segments of [L] are gone and held nothing at or past the horizon. *)
Definition reclaimed (F : Files) L W (horizon : Z) (n : nat) w : Prop :=
  without F L n (files (dev w)) ∧ holds (directory W) (files (dev w)) (drop n L) ∧
  Forall (λ r, lsn r < horizon) (log_records (take n L)) ∧ (drop n L = [] → L = []).

(** What a recycling that answers leaves: the manager [W1] it worked from knew [L]. *)
Definition recycled_to (F : Files) L W (horizon : Z) (report : RecycleReport) w : Prop :=
  damage (index (wal w)) = None → ∃ n W1, passed F L W W1 ∧ reclaimed F L W horizon n w ∧
    passed (files (dev w)) (drop n L) W (wal w) ∧ r_retained report = s_name <$> drop n L ∧
    (∀ f, f ∈ s_name <$> drop n L → f ∈ unflushed W1 → f ∈ unflushed (wal w)) ∧
    (r_deferred report = [] → (length (drop n L) <= 1)%nat ∨
       ∃ s, L !! n = Some s ∧ horizon <= last_of NO_LSN (seg_records s)).

(** What one that raises leaves: nothing was touched, or some of the segments went and the manager
    can come to know what is left. *)
Definition recycling_stopped (F : Files) R L W (horizon : Z) w : Prop :=
  read_only F R L W w ∨
  (damage (index (wal w)) = None → ∃ n, reclaimed F L W horizon n w ∧
     (tail_hold_depth W = 0 → ready (files (dev w)) (drop n L) (wal w))).

Lemma released_damaged (f : ScanFailure) l rec def (recl : Z) (n : nat) :
  spec (λ w, damage (index (wal w)) = Some f) (release (Dev := Dev) l rec def recl n)
    (λ _ w, damage (index (wal w)) = Some f) (λ w, damage (index (wal w)) = Some f).
Proof.
  assert (∀ A (op : M Dev A), spec (λ w : World, damage (index (wal w)) = Some f) (on_dev op)
    (λ _ w, damage (index (wal w)) = Some f) (λ w, damage (index (wal w)) = Some f)) as Hop.
  { intros A op w Hw. unfold on_dev. by destruct (op (dev w)) as [[a|e] d]. }
  revert rec def recl n. induction l as [|s l IH]; intros rec def recl n; cbn [release]; [by intros w Hw|].
  eapply spec_bind; [apply Hop|]. intros b. destruct b; [apply IH|].
  eapply spec_bind; [apply Hop|]. intros b. destruct b; [by intros w Hw|apply IH].
Qed.

Lemma struck_passed (F : Files) L W n W1 F' u : holds (directory W) F L → passed F L W W1 → damage (index W1) = None →
  without F L n F' → (drop n L = [] → L = []) →
  passed F' (drop n L) W (with_unflushed u (with_index (struck n (index W1)) W1)).
Proof.
  intros HL [Hcfg Hs] Hd HF Hsome. pose proof (synced_tracks _ _ _ Hs Hd) as Ht.
  pose proof (struck_tracks (directory W) F L n HL Hsome _ Ht) as Hst. pose proof Hcfg as (Hdir & _).
  destruct Hs as [Ho Hi _ _ [Hn1 Hn2]]. split; [exact Hcfg|]. constructor; [done|done| |done|].
  - unfold lists. cbn [with_unflushed with_index index]. rewrite (tracks_segments _ _ Hst), <-list_fmap_compose. done.
  - split; [done|]. intros m f [[c Hc] Hp]. cbn [with_unflushed with_index index directory next_number struck] in *.
    apply (Hn2 m f). split; [|done]. destruct HF as [Hkeep Hgone].
    destruct (decide (f ∈ s_name <$> take n L)) as [(s & -> & Hs)%list_elem_of_fmap|Hno]; [by rewrite Hgone in Hc|].
    rewrite Hkeep in Hc by done. by exists c.
Qed.

Lemma reclaimed_at (F : Files) L W horizon n w : holds (directory W) F L → without F L n (files (dev w)) →
  Forall (λ r, lsn r < horizon) (log_records (take n L)) → (n <= pred (length L))%nat → reclaimed F L W horizon n w.
Proof.
  intros HL HF Hlt Hn. split; [done|]. split; [by apply (holds_drop _ F)|]. split; [done|].
  intros E. apply (f_equal length) in E. rewrite length_drop in E. destruct L; [done|]. cbn in *. lia.
Qed.

Lemma removelast_take {A} (l : list A) : removelast l = take (pred (length l)) l.
Proof.
  destruct l as [|x l] using rev_ind; [done|]. rewrite removelast_last, length_app. cbn.
  replace (pred (length l + 1)) with (length l) by lia. by rewrite take_app_length.
Qed.

(** What the rule lets go: segments whose records are all below the horizon, never the last. *)
Lemma recyclable_prefix_at (dir : pystr) (F : Files) L W horizon count : holds dir F L → tracks L (index W) →
  recyclable_prefix (segments (index W)) horizon = Ok count →
  ∃ m, Z.to_nat count = m ∧ (m <= pred (length L))%nat ∧
    (∀ n, (n <= m)%nat → Forall (λ r, lsn r < horizon) (log_records (take n L))) ∧
    ((length (drop m L) <= 1)%nat ∨ ∃ s, L !! m = Some s ∧ horizon <= last_of NO_LSN (seg_records s)).
Proof.
  intros HL Ht H. unfold recyclable_prefix in H. case_match; [done|]. injection H as <-.
  rewrite (tracks_segments _ _ Ht), removelast_take, length_fmap, <-fmap_take.
  destruct (recyclable_below dir F L horizon (take (pred (length L)) L) HL) as (k & -> & Hk & Hall & Hend).
  { intros s Hs. apply elem_of_take in Hs as (i & Hi & _). by eapply list_elem_of_lookup_2. }
  rewrite length_take in Hk. exists k. rewrite Nat2Z.id. split_and!; [done|lia| |].
  - intros n Hn. unfold log_records. apply Forall_forall. intros r (s & Hr & Hs)%list_elem_of_bind.
    rewrite Forall_forall in Hall. specialize (Hall s). rewrite Forall_forall in Hall. apply Hall; [|done].
    rewrite take_take, Nat.min_l by lia. apply elem_of_take in Hs as (i & Hi & Hlt). apply elem_of_take. exists i. split; [done|lia].
  - destruct Hend as [E|(s & Hs & Hh)].
    + left. rewrite length_take in E. rewrite length_drop. lia.
    + right. exists s. split; [|done]. by apply lookup_take_Some in Hs as [? _].
Qed.

Lemma recycle_from_at (F : Files) R L W W1 horizon_lsn : holds (directory W) F L → passed F L W W1 → damage (index W1) = None →
  spec (at_ F R W1)
    (horizon ← lift (require_lsn "horizon_lsn" horizon_lsn);
     count ← lift (recyclable_prefix (segments (index W1)) horizon);
     outcome ← release (take (Z.to_nat count) (segments (index W1))) [] [] 0 0;
     let '(recycled, deferred, reclaimed, dropped) := outcome in
     let surviving := drop dropped (segments (index W1)) in
     let kept := name <$> surviving in
     let gone := filter (λ n, n ∉ kept) (recycled ++ deferred) in
     _ ← update (λ V, with_unflushed (filter (λ n, n ∉ gone) (unflushed V))
                        (with_index (MkIndex surviving (still_named kept (marks (index W1))) (log_last_lsn (index W1)) (max_epoch (index W1))
                                       (damage (index W1)) (sum_sizes surviving) (next_number (index W1))) V));
     mret (MkRecycle horizon recycled deferred kept reclaimed (Z.max (zlen surviving - 1) 0)))
    (recycled_to F L W horizon_lsn) (recycling_stopped F R L W horizon_lsn).
Proof.
  intros HL Hp Hd. pose proof Hp as [Hcfg Hs]. pose proof (synced_tracks _ _ _ Hs Hd) as Ht.
  assert (∀ w, at_ F R W1 w → recycling_stopped F R L W horizon_lsn w) as HE by (intros w Hw; left; right; by exists W1).
  eapply bind_at; [apply lift_at|exact HE|]. intros h Hh. assert (h = horizon_lsn) as ->.
  { unfold require_lsn in Hh. case_match; [done|by injection Hh]. }
  eapply bind_at; [apply lift_at|exact HE|]. intros count Hcount.
  destruct (recyclable_prefix_at (directory W) F L W1 horizon_lsn count HL Ht Hcount) as (m & -> & Hm & Hlt & Hend).
  rewrite (tracks_segments _ _ Ht).
  eapply spec_bind; [eapply spec_weaken; [apply (release_at F (directory W) L W1 m 0 [] [] 0 0 HL); lia| |intros out w H; exact H|]|].
  - intros w (HF & _ & HW). split; [done|]. rewrite HF. split; [done|]. by intros s ?%not_elem_of_nil.
  - intros w (k & Hk & HW & HF). right. intros _. exists k. split; [apply reclaimed_at; [done..|by apply Hlt|lia]|]. intros Hdepth.
    rewrite HW. constructor.
    + intros _. exists L. destruct Hcfg as (Hdir & _). split; [apply (synced_knew F); [by rewrite Hdir|done]|].
      eapply later_drop; [exact HF|]. intros E. apply (f_equal length) in E. rewrite length_drop in E. cbn in *. destruct L; [done|cbn in *; lia].
    + destruct Hcfg as (_ & _ & _ & _ & ->). done.
  - intros [[[rec def] recl] dropped] w (k & Hk & [HW HF] & Hout & Hdef) _. cbn [fst snd] in Hout, Hdef. cbn in Hout. subst dropped.
    cbn in HF. assert (drop k L = [] → L = []) as Hsome.
    { intros E. apply (f_equal length) in E. rewrite length_drop in E. destruct L; [done|cbn in *; lia]. }
    exists k, W1. split; [done|]. split; [apply reclaimed_at; [done..|by apply Hlt|lia]|].
    cbn [wal dev r_retained r_deferred]. rewrite HW, <-!fmap_drop. split; [|split; [|split]].
    + pose proof (struck_passed F L W k W1 (files (dev w))) as Hst. unfold struck in Hst. rewrite (tracks_segments _ _ Ht), <-fmap_drop in Hst. by apply Hst.
    + by rewrite <-list_fmap_compose.
    + intros f Hf Hu. cbn [with_unflushed unflushed]. apply list_elem_of_filter. split; [|done].
      intros [Hno _]%list_elem_of_filter. apply Hno. rewrite <-list_fmap_compose. exact Hf.
    + intros E. by rewrite Hdef.
Qed.

Lemma recycle_at_log (F : Files) R L W horizon_lsn : holds (directory W) F L → ready F L W →
  spec (at_ F R W) (recycle_ horizon_lsn) (recycled_to F L W horizon_lsn) (recycling_stopped F R L W horizon_lsn).
Proof.
  intros HL Hr. unfold recycle_. eapply bind_at; [apply require_open_at|intros w Hw; left; by apply read_only_at|]. intros [] _.
  apply (after_refresh _ F R W L); [done|done|by intros w Hw; left|]. intros _ W1 Hp _.
  eapply bind_at; [apply get_at|intros w Hw; left; right; by exists W1|]. intros i ->.
  destruct (damage (index W1)) as [f|] eqn:Hd.
  - (* damage: whatever happens, it is still reported *)
    assert (∀ w, damage (index (wal w)) = Some f → recycling_stopped F R L W horizon_lsn w) as HE by (intros w Hw; right; by rewrite Hw).
    apply (spec_weaken (A := RecycleReport)) with (P := λ w, damage (index (wal w)) = Some f)
      (Q := λ (_ : RecycleReport) w, damage (index (wal w)) = Some f) (E := λ w, damage (index (wal w)) = Some f).
    + eapply (spec_bind _ _ _ (λ _ w, damage (index (wal w)) = Some f)).
      { destruct (refuses_recovery _); by intros w Hw. }
      intros []. eapply (spec_bind _ _ _ (λ _ w, damage (index (wal w)) = Some f)); [intros w Hw; unfold lift; by destruct (require_lsn _ _)|]. intros h.
      eapply (spec_bind _ _ _ (λ _ w, damage (index (wal w)) = Some f)); [intros w Hw; unfold lift; by destruct (recyclable_prefix _ _)|]. intros count.
      eapply spec_bind; [apply released_damaged|]. by intros [[[rec def] recl] dropped] w Hw.
    + intros w (_ & _ & ->). done.
    + intros report w Hw Hnone. by rewrite Hw in Hnone.
    + exact HE.
  - eapply (spec_bind _ _ _ (λ _, at_ F R W1)); [by intros w Hw|]. intros [].
    pose proof (recycle_from_at F R L W W1 horizon_lsn HL Hp Hd) as Hrec. rewrite Hd in Hrec. exact Hrec.
Qed.
End recycling.

(** ** Properties *)

(** C20: recycling drops only what the horizon lets go, from the front, and forgets nothing else.
    When it answers, the log is the old one without some first segments, all of whose records are
    below the horizon; the last segment always stays; the accounting is that of the log that is
    left, and no file of it that was due at the next barrier has been struck from the list.  When
    every deletion was taken, the next segment was kept for a record at or past the horizon or as
    the last.  When it raises, some of those segments may be gone and the manager can come to know
    what is left.  (Damage in the accounting, which on such a log only a failing device causes,
    stays reported.) *)
Theorem recycle_keeps_suffix {Dev} {SD : StorageDevice Dev} {SL : StorageLaws Dev} {LL : LogLaws Dev}
    (F : gmap pystr bytes) (R : pystr → option bytes → Prop) (W : Wal) (L : list Seg) (horizon : Z)
    (HL : holds (directory W) F L) (HW : ready F L W) :
  spec (at_ F R W) (recycle_ horizon) (recycled_to F L W horizon) (recycling_stopped F R L W horizon).
Proof. by apply recycle_at_log. Qed.

(** Two segments, the second one opened by a header record. *)
Definition longer_world : @WalManager.World Memory.t := (append_many 7 (replicate 4 sample_record) None sample_world).2.

Lemma longer_log : ∃ L, holds (directory (wal longer_world)) (files (dev longer_world)) L ∧
  ready (files (dev longer_world)) L (wal longer_world).
Proof.
  pose proof (append_many_at sample_files (recoverable (dev sample_world)) fresh_wal sample_log 7 (replicate 4 sample_record) None
    sample_holds sample_ready sample_world sample_at) as H.
  assert (match (append_many 7 (replicate 4 sample_record) None sample_world).1 with Ok _ => True | Err _ => False end) as E
    by (vm_compute; exact I).
  unfold longer_world. destruct (append_many 7 (replicate 4 sample_record) None sample_world) as [[n|e] w]; [|destruct E].
  destruct H as (batch & f & L & _ & _ & _ & _ & HL & [(Hdir & _) Hs] & _). cbn [snd]. rewrite Hdir in *.
  exists L. split; [done|]. apply ready_synced; [by rewrite Hdir|done].
Qed.

Lemma recycle_keeps_suffix_witness :
  ∃ report w L n, recycle_ 3 longer_world = (Ok report, w) ∧ length (r_recycled report) = 1%nat ∧
    holds (directory (wal longer_world)) (files (dev longer_world)) L ∧
    reclaimed (files (dev longer_world)) L (wal longer_world) 3 n w.
Proof.
  destruct longer_log as (L & HL & HW).
  pose proof (recycle_keeps_suffix (files (dev longer_world)) (recoverable (dev longer_world)) (wal longer_world) L 3 HL HW
    longer_world ltac:(by split_and!)) as H.
  assert (match (recycle_ 3 longer_world).1 with Ok r => length (r_recycled r) = 1%nat | Err _ => False end ∧
          damage (index (wal (recycle_ 3 longer_world).2)) = None) as [E Ed] by (vm_compute; by split).
  destruct (recycle_ 3 longer_world) as [[report|e] w]; [|destruct E]. destruct (H Ed) as (n & W1 & _ & Hr & _).
  by exists report, w, L, n.
Defined.
