(* ===== verification/WalTruncate.v ===== *)
(** Repair: what [truncate_after] makes of a log, whatever bytes its segments hold. *)

From S2P Require Import Prelude Ids Layout Utf8 WalRecord Segment Recovery Storage MemoryStorage WalScan WalManager WalTrail WalTheorems WalAppend WalRead WalRecycle.

#[local] Abbreviation Files := (gmap pystr bytes).

(** ** The good part of a scan *)

(** The record of an item that is one, with a number of at most [t]. *)
Definition good_item (t : Z) (i : ScanItem) : option WalRecord :=
  match item_failure i, item_record i with
  | None, Some r => if lsn r <=? t then Some r else None
  | _, _ => None
  end.

(** The records before the first failure and before the first number past [t]. *)
Fixpoint good_records (t : Z) (items : list ScanItem) : list WalRecord :=
  match items with
  | [] => []
  | i :: items => match good_item t i with Some r => r :: good_records t items | None => [] end
  end.

(** What the segments scan as, one list of items for each. *)
Fixpoint scan_raw (K : list Raw) (e : option Z) : list (list ScanItem) :=
  match K with
  | [] => []
  | s :: K => let '(items, e) := scan_segment (r_name s) (r_bytes s) 0 e in items :: scan_raw K e
  end.
Definition raw_items (K : list Raw) (e : option Z) : list ScanItem := concat (scan_raw K e).

Lemma good_records_app t n o es rest : Forall (λ r, lsn r <= t) es.*2 →
  good_records t (items_of n o es ++ rest) = es.*2 ++ good_records t rest.
Proof.
  revert o. induction es as [|[k r] es IH]; intros o; [done|]. cbn [fmap list_fmap snd]. intros [Hr Hes]%Forall_cons.
  cbn [items_of app good_records]. unfold good_item. cbn [item_failure item_record record_item].
  rewrite (proj2 (Z.leb_le _ _)) by done. by rewrite IH.
Qed.

(** The items of one segment: good records end to end, then nothing or something that is not. *)
Definition good_then (t : Z) (name : pystr) (data : bytes) (offset : Z) (e : option Z) (items : list ScanItem) : Prop :=
  ∃ es rest, items = items_of name offset es ++ rest ∧ Forall (λ r, lsn r <= t) es.*2 ∧ contiguous e es.*2 ∧
    clean (take (Z.to_nat (span es)) (drop (Z.to_nat offset) data)) es ∧ 0 <= span es ∧
    match rest with
    | [] => zlen data <= offset + span es
    | i :: _ => good_item t i = None ∧ offset + span es < zlen data
    end.

Lemma good_none t name data offset e items :
  match items with [] => zlen data <= offset | i :: _ => good_item t i = None ∧ offset < zlen data end →
  good_then t name data offset e items.
Proof.
  intros H. exists [], items. split; [done|]. split; [constructor|]. split; [done|]. split; [constructor|]. split; [done|].
  by rewrite Z.add_0_r.
Qed.

Lemma good_cons t name data offset e n r items : decode_record data offset = Outcome n (Some r) None true → 0 <= offset →
  (∀ x, e = Some x → lsn r = x) → lsn r <= t →
  good_then t name data (offset + n) (Some (lsn r + 1)) items → good_then t name data offset e (record_item name offset r :: items).
Proof.
  intros Hd Ho He Hr (es & rest & -> & Hall & Hcon & Hcl & Hsp & Hrest).
  assert (0 < n ∧ offset + n <= zlen data) as [Hn Hin].
  { pose proof (decode_record_inv data offset r) as Hi. rewrite Hd in Hi. cbn in Hi. destruct (Hi eq_refl) as (_ & _ & ? & ? & _). lia. }
  exists ((n, r) :: es), rest. change (span ((n, r) :: es)) with (n + span es). split; [done|].
  cbn [fmap list_fmap snd]. split; [by constructor|]. split; [done|]. split; [|split; [lia|]].
  - constructor.
    + apply decode_record_take; [|lia]. by rewrite <-decode_record_drop by lia.
    + replace (Z.to_nat (n + span es)) with (Z.to_nat n + Z.to_nat (span es))%nat by lia.
      rewrite <-take_drop_commute, drop_drop. replace (Z.to_nat offset + Z.to_nat n)%nat with (Z.to_nat (offset + n)) by lia. done.
  - destruct rest; [lia|]. destruct Hrest. split; [done|lia].
Qed.

Lemma accounts_good t name data offset e items : accounts name data 0 offset e items → 0 <= offset →
  good_then t name data offset e items.
Proof.
  intros H. induction H as [offset e Hend|offset e r n items Hd He Hacc IH|offset x r n items Hd Hne Hacc IH|offset e why len items Hd Hw Hnl Hlen Hle _ Hacc IH];
    intros Ho; rewrite ?Z.sub_0_r in *.
  - by apply good_none.
  - assert (0 < n ∧ offset + n <= zlen data) as [Hn Hin].
    { pose proof (decode_record_inv data offset r) as Hi. rewrite Hd in Hi. cbn in Hi. destruct (Hi eq_refl) as (_ & _ & ? & ? & _). lia. }
    destruct (Z.leb_spec (lsn r) t) as [Hr|Hr]; [eapply good_cons; try done; apply IH; lia|].
    apply good_none. split; [|lia]. unfold good_item. cbn. by rewrite (proj2 (Z.leb_gt _ _)) by lia.
  - apply good_none. split; [done|].
    pose proof (decode_record_inv data offset r) as Hi. rewrite Hd in Hi. cbn in Hi. destruct (Hi eq_refl) as (_ & _ & ? & ? & _). lia.
  - apply good_none. split; [done|lia].
Qed.

Lemma good_records_stop t i items : good_item t i = None → good_records t (i :: items) = [].
Proof. intros H. cbn. by rewrite H. Qed.

(** ** The cut *)

Definition whole_seg (a : Raw) (u : Seg) : Prop :=
  s_number u = r_number a ∧ s_name u = r_name a ∧ s_entries u ≠ [] ∧ clean (r_bytes a) (s_entries u).

(** Some whole segments, perhaps the good part of one more, and the rest. *)
Inductive split_at (t : Z) : list Raw → option Z → list Seg → option (Raw * list (Z * WalRecord)) → list Raw → Prop :=
  | split_end e : split_at t [] e [] None []
  | split_whole s K e u LA p B : whole_seg s u → Forall (λ r, lsn r <= t) (seg_records u) → contiguous e (seg_records u) →
      split_at t K (next_expected e (seg_records u)) LA p B → split_at t (s :: K) e (u :: LA) p B
  | split_none s K e : split_at t (s :: K) e [] None (s :: K)
  | split_part s K e es : es ≠ [] → clean (take (Z.to_nat (span es)) (r_bytes s)) es → 0 < span es < zlen (r_bytes s) →
      Forall (λ r, lsn r <= t) es.*2 → contiguous e es.*2 → split_at t (s :: K) e [] (Some (s, es)) K.

Definition part_records (p : option (Raw * list (Z * WalRecord))) : list WalRecord :=
  match p with Some (_, es) => es.*2 | None => [] end.

Definition cut_after (c : option (pystr * Z)) (LA : list Seg) (p : option (Raw * list (Z * WalRecord))) : option (pystr * Z) :=
  match p with
  | Some (s, es) => Some (r_name s, span es)
  | None => match last LA with Some u => Some (s_name u, seg_span u) | None => c end
  end.

Lemma consume_cut t c n o data es : clean data es → Forall (λ r, lsn r <= t) es.*2 →
  consume (cut_consumer t) c (items_of n o es) = More (if decide (es = []) then c else Some (n, o + span es)).
Proof.
  intros Hcl. revert c o. induction Hcl as [|data k r es Hd Hcl IH]; intros c o Hall; [done|].
  cbn [fmap list_fmap snd] in Hall. apply Forall_cons in Hall as [Hr Hall].
  cbn [items_of consume]. unfold cut_consumer at 1. cbn [item_failure item_record record_item item_segment item_offset].
  rewrite (proj2 (Z.ltb_ge _ _)) by done.
  pose proof (decoded_length data 0 r) as Hlen. rewrite Hd in Hlen. rewrite (Hlen eq_refl). cbn [consumed].
  rewrite IH by done. f_equal. rewrite (decide_False (P := (k, r) :: es = [])) by done. cbn [span foldr fst]. fold (span es).
  destruct (decide (es = [])) as [->|]; [f_equal; f_equal; cbn; lia|f_equal; f_equal; lia].
Qed.

Lemma consume_cut_bad t c i items : good_item t i = None → consume (cut_consumer t) c (i :: items) = Halt c.
Proof.
  unfold good_item. cbn [consume]. unfold cut_consumer at 1. destruct (item_failure i); [done|].
  destruct (item_record i) as [r|]; [|done]. destruct (Z.leb_spec (lsn r) t); [done|]. by rewrite (proj2 (Z.ltb_lt _ _)) by lia.
Qed.

Lemma raw_split t K : ∀ e c, (∀ s, s ∈ K → r_bytes s ≠ []) →
  ∃ LA p B, split_at t K e LA p B ∧ good_records t (raw_items K e) = log_records LA ++ part_records p ∧
    (consume (cut_consumer t) c (raw_items K e) = More (cut_after c LA p) ∨
     consume (cut_consumer t) c (raw_items K e) = Halt (cut_after c LA p)).
Proof.
  induction K as [|s K IH]; intros e c Hne.
  { exists [], None, []. split; [constructor|]. split; [done|by left]. }
  unfold raw_items. cbn [scan_raw]. pose proof (scan_from_accounts (r_name s) (r_bytes s) 0 (S (length (r_bytes s))) 0 0 0 e) as Hacc.
  fold (scan_segment (r_name s) (r_bytes s) 0 e) in Hacc.
  assert (accounts (r_name s) (r_bytes s) 0 0 e (scan_segment (r_name s) (r_bytes s) 0 e).1) as Ha by (apply Hacc; unfold zlen; lia).
  apply (accounts_good t) in Ha as (es & rest & Ei & Hall & Hcon & Hcl & Hsp & Hrest); [|done].
  cbn [Z.to_nat] in Hcl. rewrite drop_0 in Hcl. destruct (scan_segment (r_name s) (r_bytes s) 0 e) as [items e'] eqn:Escan. cbn [fst] in Ei. subst items.
  cbn [concat]. rewrite Z.add_0_l in Hrest. destruct rest as [|i rest].
  - (* the whole segment is good *)
    rewrite app_nil_r in *. rewrite take_ge in Hcl by (unfold zlen in *; lia).
    assert (es ≠ []) as Hes.
    { intros ->. inversion Hcl as [E|]. specialize (Hne s ltac:(by left)). by rewrite <-E in Hne. }
    pose proof (scan_segment_clean (r_name s) _ 0 es e Hcl Hcon) as Es. rewrite Escan in Es. injection Es as ->.
    destruct (IH (next_expected e es.*2) (Some (r_name s, span es))) as (LA & p & B & Hsplit & Hgood & Hcons); [intros x Hx; apply Hne; by right|].
    exists (MkSeg (r_number s) (r_name s) es :: LA), p, B. split; [by apply split_whole|]. split.
    + rewrite good_records_app by done. unfold raw_items in Hgood. rewrite Hgood. change (log_records (MkSeg (r_number s) (r_name s) es :: LA)) with (es.*2 ++ log_records LA).
      by rewrite app_assoc.
    + rewrite consume_app, (consume_cut t c _ 0 _ _ Hcl Hall), decide_False by done. unfold raw_items in Hcons. rewrite Z.add_0_l.
      assert (cut_after (Some (r_name s, span es)) LA p = cut_after c (MkSeg (r_number s) (r_name s) es :: LA) p) as <-; [|exact Hcons].
      unfold cut_after. destruct p as [[? ?]|]; [done|]. rewrite last_cons. by destruct (last LA).
  - destruct Hrest as [Hbad Hlt]. rewrite <-app_assoc, good_records_app by done. cbn [app]. rewrite good_records_stop, app_nil_r by done.
    rewrite consume_app, (consume_cut t c _ 0 _ _ Hcl Hall), consume_cut_bad by done. destruct (decide (es = [])) as [->|Hes].
    + exists [], None, (s :: K). split; [constructor|]. split; [done|by right].
    + exists [], (Some (s, es)), K. split; [|split; [done|by right]]. constructor; try done. split; [|done].
      destruct es as [|[k r] es]; [done|]. inversion Hcl as [|? ? ? ? Hd Hc']; subst. apply clean_head in Hd.
      apply clean_span in Hc'. cbn [span foldr fst]. fold (span es). rewrite Hc'. pose proof (zlen_nonneg (drop (Z.to_nat k) (take (Z.to_nat (span ((k, r) :: es))) (r_bytes s)))). lia.
Qed.

(** ** Refreshing and walking a log of any bytes *)

(** The manager lists the segments of [K], whatever it made of their records. *)
Record surveyed (F : Files) (K : list Raw) (W : Wal) : Prop := {
  sv_open : opened W = true;
  sv_indexed : indexed W = true;
  sv_lists : (λ s, (name s, size_bytes s)) <$> segments (index W) = (λ s, (r_name s, zlen (r_bytes s))) <$> K;
  sv_next : MIN_SEGMENT_NUMBER <= next_number (index W) ∧ numbers_below (directory W) F (next_number (index W))
}.

Lemma installed_raw (F : Files) K W l sizes p u : stored (directory W) F K → discovered (directory W) F l → sizes_are F l.*2 sizes →
  surveyed F K (with_pass true (index_of_pass l sizes p) u W).
Proof.
  intros HK Hl Hsz. constructor; [done|done| |exact (following_above (directory W) F l sizes Hl Hsz)].
  cbn [with_pass index index_of_pass segments]. rewrite (infos_raw (directory W) F K l sizes HK Hl Hsz), <-list_fmap_compose.
  apply list_fmap_ext. intros i s Hs%list_elem_of_lookup_2. cbn. by destruct (raw_discovered (directory W) F K l sizes HK Hl Hsz s Hs) as (_ & -> & _).
Qed.

Lemma surveyed_names F K W : surveyed F K W → name <$> segments (index W) = r_name <$> K.
Proof. intros H. pose proof (sv_lists _ _ _ H) as E. apply (f_equal (fmap fst)) in E. by rewrite <-!list_fmap_compose in E. Qed.

Section raw_walks.
Context {Dev : Type} {SD : StorageDevice Dev} {SL : StorageLaws Dev} {LL : LogLaws Dev}.
#[local] Abbreviation World := (@WalManager.World Dev).
Implicit Types (w : World) (R : pystr → option bytes → Prop) (W : Wal).

Lemma walk_any {S} (f : S → ScanItem → verdict S) (F : Files) R W names sizes starts e s :
  spec (at_ F R W) (walk f names sizes starts e s) (λ _, at_ F R W) (at_ F R W).
Proof.
  revert e s. induction names as [|n names IH]; intros e s; cbn [walk]; [by intros w Hw|]. case_match; [apply IH|].
  eapply spec_bind; [apply spec_attempt, read_segment_at|]. intros [data|err]; [|by intros w Hw].
  destruct (scan_segment _ _ _ _) as [items e']. intros w [_ Hw]. revert w Hw.
  change (spec (at_ F R W) (match consume f s items with More s => walk f names sizes starts e' s | Halt s => mret (Finished s) | Refuse e => fail e end)
    (λ _, at_ F R W) (at_ F R W)).
  destruct (consume f s items); [apply IH|by intros w Hw|by intros w Hw].
Qed.

(** What a refresh leaves: the same files, and a manager that lists them. *)
Definition resurveyed (F : Files) R K W w : Prop := ∃ W', at_ F R W' w ∧ same_config W W' ∧ surveyed F K W'.

Lemma rebuild_raw_at (F : Files) R W K : stored (directory W) F K →
  spec (at_ F R W) rebuild (λ _, resurveyed F R K W) (at_ F R W).
Proof.
  intros HK. unfold rebuild. eapply (spec_bind _ _ _ (λ _, resurveyed F R K W)); [|intros items w Hw; exact Hw].
  unfold index_pass. eapply bind_at; [apply discover_at|done|]. intros l Hl. eapply bind_at; [apply sizes_at|done|]. intros sizes Hsz. cbv zeta.
  assert (∀ p (items : list ScanItem), spec (at_ F R W)
    (_ ← update (λ V, with_pass true (index_of_pass l sizes p) (filter (λ n, is_Some (sizes !! n)) (unflushed V)) V); mret items)
    (λ _, resurveyed F R K W) (at_ F R W)) as Hinst.
  { intros p items. eapply bind_at; [apply (update_at _ F R W (at_ F R W))|done|]. intros _ _ w Hw. eexists. split; [exact Hw|].
    split; [by split_and!|by apply installed_raw]. }
  eapply spec_bind; [apply walk_any|]. intros [[p items]|[p items] n e]; [apply Hinst|].
  destruct (true && absorbed e); [apply Hinst|by intros w Hw].
Qed.

Lemma refresh_raw_at (F : Files) R W K : stored (directory W) F K → (indexed W = true → surveyed F K W) →
  spec (at_ F R W) (refresh_tail None) (λ _, resurveyed F R K W) (undecided F R W).
Proof.
  intros HK Hsv. pose proof (at_undecided F R W) as HE. unfold refresh_tail.
  assert (∀ u, spec (at_ F R (with_unflushed u W)) (_ ← rebuild; mret (Some 0)) (λ _, resurveyed F R K W) (undecided F R W)) as Hfull.
  { intros u. eapply spec_bind; [eapply spec_weaken; [by apply (rebuild_raw_at F R (with_unflushed u W) K)|done|intros x w H; exact H|]|].
    - intros w Hw. by exists u.
    - intros x w (W' & Hw & Hc & Hs). by exists W'. }
  assert (spec (at_ F R W) (_ ← rebuild; mret (Some 0)) (λ _, resurveyed F R K W) (undecided F R W)) as Hfull0.
  { specialize (Hfull (unflushed W)). by destruct W. }
  eapply bind_at; [apply get_at|done|]. intros b ->. destruct (indexed W) eqn:Hi; cbn [negb]; [|exact Hfull0]. specialize (Hsv eq_refl).
  eapply bind_at; [apply discover_at|done|]. intros l Hl. eapply bind_at; [apply get_at|done|]. intros i ->. cbv zeta.
  eapply (spec_bind _ _ _ (λ _, at_ F R W)).
  { destruct (last (segments (index W))); [|by intros w Hw]. case_bool_decide; [|by intros w Hw].
    eapply bind_at; [apply size_read_at|done|]. by intros z _ w Hw. }
  intros unchanged. destruct unchanged; [intros w Hw; by exists W|].
  destruct (match last _ with Some _ => _ | None => _ end); [exact Hfull0|].
  eapply bind_at; [apply sizes_at|done|]. intros sizes Hsz. destruct (_ && _); [exact Hfull0|].
  eapply bind_at; [apply get_at|done|]. intros u ->. eapply bind_at; [apply update_at|done|]. intros _ _.
  destruct (existsb _ _); [apply Hfull|].
  assert (∀ u p (z : option Z), spec (at_ F R (with_unflushed u W))
    (_ ← update (λ V, with_pass true (index_of_pass l sizes p) (filter (λ n, is_Some (sizes !! n)) (unflushed V)) V); mret z)
    (λ _, resurveyed F R K W) (undecided F R W)) as Hinst.
  { intros u p z. eapply bind_at; [apply (update_at _ F R (with_unflushed u W) (undecided F R W))|done|].
    intros _ _ w Hw. eexists. split; [exact Hw|]. split; [by split_and!|by apply installed_raw]. }
  eapply spec_bind; [eapply spec_weaken; [apply walk_any|done|intros x w H; exact H|intros w Hw; by eexists]|].
  intros [p|p n e]; [apply Hinst|]. destruct (absorbed e); [apply Hinst|]. intros w Hw. by eexists.
Qed.

Lemma read_whole_at (F : Files) R W s : F !! r_name s = Some (r_bytes s) →
  spec (at_ F R W) (attempt (read_segment (r_name s) (zlen (r_bytes s)) 0))
    (λ r w, match r with Ok data => data = r_bytes s | Err _ => True end ∧ at_ F R W w) (λ _, False).
Proof.
  intros Hs w Hw. unfold attempt. pose proof (read_segment_at F R W (r_name s) (zlen (r_bytes s)) 0 w Hw) as H.
  destruct (read_segment _ _ _ w) as [[data|e] w']; [|by split]. destruct H as [(c & Hc & _ & ->) Hw']. split; [|done].
  rewrite Hs in Hc. injection Hc as <-. unfold slice. rewrite Z.sub_0_r. cbn [Z.to_nat]. rewrite drop_0. apply take_ge. unfold zlen. lia.
Qed.

Lemma raw_items_cons s K e : raw_items (s :: K) e =
  (scan_segment (r_name s) (r_bytes s) 0 e).1 ++ raw_items K (scan_segment (r_name s) (r_bytes s) 0 e).2.
Proof. unfold raw_items. cbn [scan_raw]. by destruct (scan_segment _ _ _ _) as [items e']. Qed.

Lemma walk_segments_at {S} (f : S → ScanItem → verdict S) (F : Files) R W sizes K e s :
  (∀ x, x ∈ K → r_bytes x ≠ [] ∧ F !! r_name x = Some (r_bytes x) ∧ size_in sizes (r_name x) = zlen (r_bytes x)) →
  spec (at_ F R W) (walk f (r_name <$> K) sizes ∅ e s)
    (λ out w, match out with
              | Finished s' => consume f s (raw_items K e) = More s' ∨ consume f s (raw_items K e) = Halt s'
              | Broken s' n _ => ∃ A x B, K = A ++ x :: B ∧ consume f s (raw_items A e) = More s' ∧ n = r_name x
              end ∧ at_ F R W w) (at_ F R W).
Proof.
  revert e s. induction K as [|x K IH]; intros e s HK; cbn [walk fmap list_fmap]; [intros w Hw; split; [by left|done]|].
  destruct (HK x) as (Hne & Hx & Hz); [by left|]. assert (size_in ∅ (r_name x) = 0) as -> by (unfold size_in; by rewrite lookup_empty).
  rewrite Hz. assert (0 < zlen (r_bytes x)) as Hpos by (destruct (r_bytes x) as [|b l]; [done|]; rewrite zlen_cons; pose proof (zlen_nonneg l); lia).
  rewrite (proj2 (Z.leb_gt _ _)) by done.
  eapply spec_bind; [eapply spec_weaken; [by apply (read_whole_at F R W x)|done|intros a w H; exact H|done]|].
  intros [data|err]; cbn beta iota.
  - apply spec_fact. intros ->. rewrite raw_items_cons. destruct (scan_segment (r_name x) (r_bytes x) 0 e) as [items e'] eqn:Es. cbn [fst snd].
    rewrite consume_app. destruct (consume f s items) as [s'|s'|err] eqn:Ec.
    + eapply spec_weaken; [apply (IH e' s'); intros y Hy; apply HK; by right|done| |done].
      intros out w [Hout Hw]. split; [|done]. destruct out as [|s1 n err]; [done|]. destruct Hout as (A & y & B & -> & Hc & Hr).
      exists (x :: A), y, B. split; [done|]. split; [|done]. rewrite raw_items_cons, Es. cbn [fst snd]. by rewrite consume_app, Ec.
    + intros w Hw. split; [by right|done].
    + by intros w Hw.
  - intros w [_ Hw]. split; [|done]. by exists [], x, K.
Qed.

Lemma surveyed_size (F : Files) W K x : stored (directory W) F K → surveyed F K W → x ∈ K →
  size_in (index_sizes (index W)) (r_name x) = zlen (r_bytes x).
Proof.
  intros HK Hs Hx. unfold index_sizes. rewrite (sv_lists _ _ _ Hs). unfold size_in. erewrite elem_of_list_to_map_1; [done| |].
  - rewrite <-list_fmap_compose. by eapply stored_NoDup.
  - by apply (list_elem_of_fmap_2 (λ s, (r_name s, zlen (r_bytes s)))).
Qed.

(** On its way from [d0] to [d] the device did not let the segment be read. *)
Definition refused (d0 : Dev) (s : Raw) (d : Dev) : Prop := unread d0 (r_name s) (zlen (r_bytes s)) 0 d.

Lemma walk_raw_at {S} (f : S → ScanItem → verdict S) (s : S) (d0 : Dev) (F : Files) R W K : stored (directory W) F K → surveyed F K W →
  spec (from_ d0 F R W) (walk_registered f s)
    (λ out w, match out with
              | Finished s' => consume f s (raw_items K None) = More s' ∨ consume f s (raw_items K None) = Halt s'
              | Broken s' _ e => ∃ A x B, K = A ++ x :: B ∧ consume f s (raw_items A None) = More s' ∧ (absorbed e = true → refused d0 x (dev w))
              end ∧ at_ F R W w) (at_ F R W).
Proof.
  intros HK Hs. unfold walk_registered. eapply bind_from; [auto with trails|apply (get_at _ _ _ _ (at_ F R W))|done|]. intros i ->.
  rewrite (surveyed_names F K W Hs). intros w (Hw & Hr & Hf).
  pose proof (walk_segments_at f F R W (index_sizes (index W)) K None s) as H. specialize (H ltac:(intros x Hx; destruct (stored_seg _ _ _ HK x Hx) as (_ & ? & ?);
    split_and!; [done..|by eapply surveyed_size]) w Hw).
  pose proof (walk_blame f (r_name <$> K) (index_sizes (index W)) ∅ None s w) as Hb.
  destruct (walk f _ _ _ _ _ w) as [[[s'|s' n e]|e] w']; [done| |done]. destruct H as [(A & x & B & E & Hc & ->) Hw']. split; [|done].
  exists A, x, B. split; [done|]. split; [done|]. intros Ha. destruct Hb as [_ Hb]. specialize (Hb Ha).
  rewrite (surveyed_size F W K x HK Hs) in Hb by (rewrite E; apply elem_of_app; right; by left).
  eapply unread_from; [exact Hr|by destruct Hw as (-> & _)|]. unfold size_in in Hb. by rewrite lookup_empty in Hb.
Qed.

Lemma find_cut_at (t : Z) (d0 : Dev) (F : Files) R W K : stored (directory W) F K → surveyed F K W →
  spec (from_ d0 F R W) (find_cut t)
    (λ cut w, (∃ K0 rest LA p B, K = K0 ++ rest ∧ (rest = [] ∨ ∃ x, head rest = Some x ∧ refused d0 x (dev w)) ∧
                 split_at t K0 None LA p B ∧ cut = cut_after None LA p ∧
                 good_records t (raw_items K0 None) = log_records LA ++ part_records p) ∧ at_ F R W w) (at_ F R W).
Proof.
  intros HK Hs. unfold find_cut.
  assert (∀ K0, K0 ⊆ K → ∃ LA p B, split_at t K0 None LA p B ∧ good_records t (raw_items K0 None) = log_records LA ++ part_records p ∧
    (consume (cut_consumer t) None (raw_items K0 None) = More (cut_after None LA p) ∨
     consume (cut_consumer t) None (raw_items K0 None) = Halt (cut_after None LA p))) as Hsplit.
  { intros K0 Hsub. apply raw_split. intros s Hin. apply (stored_seg _ _ _ HK s). by apply Hsub. }
  eapply spec_bind; [by apply (walk_raw_at (cut_consumer t) None d0 F R W K)|]. intros [cut|cut n e] w [Hout Hw]; cbn [settle].
  - split; [|done]. destruct (Hsplit K) as (LA & p & B & H1 & H2 & H3); [done|].
    exists K, [], LA, p, B. split_and!; [by rewrite app_nil_r|by left|done| |done].
    destruct Hout as [Ho|Ho], H3 as [H3|H3]; rewrite Ho in H3; congruence.
  - destruct (absorbed e); [|done]. destruct Hout as (A & x & B' & E & Hc & Hr). specialize (Hr eq_refl). split; [|done].
    destruct (Hsplit A) as (LA & p & B & H1 & H2 & H3); [rewrite E; intros y Hy; apply elem_of_app; by left|].
    exists A, (x :: B'), LA, p, B. split_and!; [done|right; by exists x|done| |done].
    destruct H3 as [H3|H3]; rewrite Hc in H3; congruence.
Qed.
End raw_walks.

(** ** The log that is kept *)

Lemma split_names t K e LA p B : split_at t K e LA p B →
  ∃ A, K = A ++ match p with Some (s, _) => [s] | None => [] end ++ B ∧ Forall2 whole_seg A LA.
Proof.
  induction 1 as [e|s K e u LA p B Hw _ _ _ (A & -> & HA)|s K e|s K e es]; [by exists []| |by exists []|by exists []].
  exists (s :: A). by split; [|constructor].
Qed.

Lemma split_records t K e LA p B : split_at t K e LA p B →
  contiguous e (log_records LA ++ part_records p) ∧ Forall (λ r, lsn r <= t) (log_records LA ++ part_records p).
Proof.
  induction 1 as [e|s K e u LA p B Hw Hle Hc _ [IH1 IH2]|s K e|s K e es]; [done| |done|done].
  change (log_records (u :: LA)) with (seg_records u ++ log_records LA). rewrite <-app_assoc. split; [by apply contiguous_app|by apply Forall_app].
Qed.

Lemma split_part_ok t K e LA s es B : split_at t K e LA (Some (s, es)) B →
  es ≠ [] ∧ clean (take (Z.to_nat (span es)) (r_bytes s)) es ∧ 0 < span es < zlen (r_bytes s).
Proof. intros H. remember (Some (s, es)) as p eqn:E. induction H; try done; [by apply IHsplit_at|]. by injection E as -> ->. Qed.

(** The segment a repair adds: its number, its name, its bytes and their records. *)
Definition extra_log (extra : option (Z * pystr * bytes * list (Z * WalRecord))) : list Seg :=
  match extra with
  | Some (m, f, _, es) => if decide (es = []) then [] else [MkSeg m f es]
  | None => []
  end.

Lemma extra_elem extra v : v ∈ extra_log extra → ∃ m f c es, extra = Some (m, f, c, es) ∧ es ≠ [] ∧ v = MkSeg m f es.
Proof.
  destruct extra as [[[[m f] c] es]|]; cbn; [|by intros ?%not_elem_of_nil]. case_decide; [by intros ?%not_elem_of_nil|].
  intros ->%list_elem_of_singleton. by exists m, f, c, es.
Qed.

Section kept.
Context (dir : pystr) (F G : Files) (K A Dr : list Raw) (LA : list Seg) (extra : option (Z * pystr * bytes * list (Z * WalRecord))).
Context (HK : stored dir F K) (EK : K = A ++ Dr) (HA : Forall2 whole_seg A LA).
Context (Hkeep : ∀ g, g ∉ r_name <$> Dr → (∀ m f c es, extra = Some (m, f, c, es) → g ≠ f) → G !! g = F !! g).
Context (Hgone : ∀ g, g ∈ r_name <$> Dr → G !! g = None).
Context (Hextra : ∀ m f c es, extra = Some (m, f, c, es) → F !! f = None ∧ parse_segment_number dir f = Some m ∧
  numbers_below dir F m ∧ G !! f = Some c ∧ clean c es).

Lemma kept_seg u : u ∈ LA → ∃ a, a ∈ A ∧ whole_seg a u.
Proof. intros Hu. apply list_elem_of_lookup in Hu as [i Hi]. destruct (Forall2_lookup_r _ _ _ _ _ HA Hi) as (a & Ha & Hw). exists a. split; [by eapply list_elem_of_lookup_2|done]. Qed.

Lemma kept_file a : a ∈ A → F !! r_name a = Some (r_bytes a) ∧ G !! r_name a = Some (r_bytes a) ∧ parse_segment_number dir (r_name a) = Some (r_number a).
Proof.
  intros Ha. destruct (stored_seg _ _ _ HK a) as (Hp & _ & Hf); [rewrite EK; apply elem_of_app; by left|]. split_and!; [done| |done].
  rewrite Hkeep; [done| |].
  - pose proof (stored_NoDup _ _ _ HK) as Hn. rewrite EK, fmap_app in Hn. apply NoDup_app in Hn as (_ & Hd & _). apply Hd. by apply list_elem_of_fmap_2.
  - intros m f c es E Ef. destruct (Hextra _ _ _ _ E) as (Hno & _). by rewrite Ef, Hno in Hf.
Qed.

Lemma kept_sorted : StronglySorted (λ a b, s_number a < s_number b) LA.
Proof.
  pose proof (stored_sorted _ _ _ HK) as Hs. rewrite EK in Hs. apply StronglySorted_app in Hs as (_ & Hs & _). clear -HA Hs.
  induction HA as [|a u A LA Hw HA' IH]; [constructor|]. apply StronglySorted_inv in Hs as [Hs Hx]. constructor; [by apply IH|].
  clear -Hw HA' Hx. induction HA' as [|b v A LA Hw' HA' IH]; [constructor|]. apply Forall_cons in Hx as [Hb Hx]. constructor; [|by apply IH].
  destruct Hw as (-> & _), Hw' as (-> & _). done.
Qed.

Lemma kept_holds : contiguous None (log_records (LA ++ extra_log extra)) → Forall (λ r, 0 < lsn r) (log_records (LA ++ extra_log extra)) →
  holds dir G (LA ++ extra_log extra).
Proof.
  intros Hc Hp. constructor; [| | |done|done].
  - intros u [Hu|(m & f & c & es & E & Hne & ->)%extra_elem]%elem_of_app.
    + destruct (kept_seg u Hu) as (a & Ha & Hn & Hnm & Hne & Hcl). destruct (kept_file a Ha) as (_ & HG & Hpa). rewrite Hn, Hnm.
      split_and!; [done..|]. by exists (r_bytes a).
    + destruct (Hextra _ _ _ _ E) as (_ & Hpf & _ & HG & Hcl). split_and!; [done..|]. by exists c.
  - apply StronglySorted_app. split_and!; [|apply kept_sorted|].
    + intros u v Hu (m & f & c & es & E & _ & ->)%extra_elem. cbn.
      destruct (kept_seg u Hu) as (a & Ha & Hn & _). destruct (kept_file a Ha) as (HF & _ & Hpa). rewrite Hn.
      destruct (Hextra _ _ _ _ E) as (_ & _ & Hbelow & _). apply (Hbelow _ (r_name a)). split; [by eexists|done].
    + unfold extra_log. repeat case_match; repeat constructor.
  - intros n f [[c Hc'] Hpf]. destruct (decide (f ∈ r_name <$> Dr)) as [Hin|Hno]; [by rewrite Hgone in Hc'|].
    assert ((∃ m c es, extra = Some (m, f, c, es)) ∨ ∀ m g c es, extra = Some (m, g, c, es) → f ≠ g) as [(m & c1 & es & E)|Hother].
    { destruct extra as [[[[m g] c1] es]|]; [|by right]. destruct (decide (f = g)) as [->|Hne]; [left; by eauto|right; by intros ? ? ? ? [= <- <- <- <-]]. }
    + destruct (Hextra _ _ _ _ E) as (_ & _ & _ & HG & Hcl). destruct (decide (es = [])) as [->|Ees].
      * right. inversion Hcl; by subst.
      * left. exists (MkSeg m f es). split; [|done]. apply elem_of_app. right. rewrite E. cbn. rewrite decide_False by done. by left.
    + rewrite (Hkeep f Hno Hother) in Hc' |- *. destruct (stored_file _ _ _ HK n f) as [(a & Ha & <-)|?]; [by split; [eexists|]| |by right].
      left. rewrite EK in Ha. apply elem_of_app in Ha as [Ha|Ha]; [|destruct Hno; by apply list_elem_of_fmap_2].
      apply list_elem_of_lookup in Ha as [i Hi]. destruct (Forall2_lookup_l _ _ _ _ _ HA Hi) as (u & Hu & Hw).
      exists u. split; [apply elem_of_app; left; by eapply list_elem_of_lookup_2|]. by destruct Hw as (_ & -> & _).
Qed.
End kept.

(** ** Dropping segments from the end *)

Section removing.
Context {Dev : Type} {SD : StorageDevice Dev} {SL : StorageLaws Dev} {LL : LogLaws Dev}.
#[local] Abbreviation World := (@WalManager.World Dev).
Implicit Types (w : World) (R : pystr → option bytes → Prop) (W : Wal) (φ : Dev → Prop).

(** A fact that no call which writes no file touches. *)
Definition calm φ : Prop := ∀ d d', files d' = files d → (∀ g x, recoverable d' g x → recoverable d g x) → φ d → φ d'.

Lemma mid_weaken (F : Files) D X X' W φ φ' w : mid F D X W φ w → (∀ g, g ∈ X → g ∈ X') → (∀ d, φ d → φ' d) → mid F D X' W φ' w.
Proof. intros (? & Hk & ? & ?) HX Hφ. split_and!; [done| |done|by apply Hφ]. intros g Hd Hx. apply Hk; [done|]. intros Hg. by apply Hx, HX. Qed.

Lemma calm_files (f : pystr) (c : bytes) : calm (λ d, files d !! f = Some c).
Proof. intros d d' HF _ H. by rewrite HF. Qed.

Lemma calm_and φ φ' : calm φ → calm φ' → calm (λ d, φ d ∧ φ' d).
Proof. intros H1 H2 d d' HF HR [? ?]. split; [by eapply H1|by eapply H2]. Qed.

(** A deletion, the question that settles what it did, and the rest. *)
Lemma gone_step {B : Type} (F : Files) D X W φ g (k : bool → bool → M World B) Q E : g ∉ X → g ∉ D → is_Some (F !! g) → steady g φ →
  (∀ b, spec (mid F (D ++ [g]) X W φ) (k b true) Q E) → spec (mid F D X W φ) (k false false) Q E →
  (∀ w, mid F D X W φ w ∨ mid F (D ++ [g]) X W φ w → E w) →
  spec (mid F D X W φ)
    (released ← on_dev (recycle g);
     gone ← (if (released : bool) then mret true else there ← on_dev (exists_ g); mret (negb there)); k released gone) Q E.
Proof.
  intros HX HD HF Hst Hgone Hthere HE. eapply spec_bind; [eapply spec_weaken; [by apply (mid_recycle F D X W φ g)|intros w H; exact H|intros b w H; exact H|exact HE]|].
  intros released. destruct released; cbn.
  - eapply (spec_bind _ _ _ (λ b w, b = true ∧ mid F (D ++ [g]) X W φ w)); [intros w [Hw|[? _]]; done|].
    intros b. apply spec_fact. intros ->. apply Hgone.
  - eapply (spec_bind _ _ _ (λ b w, if (b : bool) then mid F (D ++ [g]) X W φ w else mid F D X W φ w)).
    { eapply spec_bind; [eapply spec_weaken; [by apply (mid_asked F D X W φ g)| |intros b w H; exact H|exact HE]|].
      - intros w [?|[_ ?]]; auto.
      - intros there w Hw. by destruct there. }
    intros b. destruct b; [apply Hgone|exact Hthere].
Qed.

Lemma mid_change (F : Files) D X W φ (ψ : Dev → Prop) f d d' : f ∉ D → (∀ g, g ∈ X → g = f) → mid F D X W φ (MkWorld d W) → only f d d' →
  ψ d' → mid F D [f] W ψ (MkWorld d' W).
Proof.
  intros HD HX (_ & Hk & Hg & _) Ho Hψ. cbn in *. split_and!; [done| | |done]; cbn.
  - intros g Hd Hf. assert (g ≠ f) as Hne by (intros ->; apply Hf; by left). destruct (Ho g Hne) as [-> _]. apply Hk; [done|]. by intros ?%HX.
  - intros g Hd. assert (g ≠ f) as Hne by (by intros ->). destruct (Ho g Hne) as [-> _]. by apply Hg.
Qed.

Lemma create_mid (F : Files) D W φ f : f ∉ D → steady f φ →
  spec (mid F D [] W φ) (on_dev (create f true)) (λ _ w, F !! f = None ∧ mid F D [f] W (λ d, φ d ∧ files d !! f = Some []) w) (mid F D [f] W φ).
Proof.
  intros HD Hst [d W'] Hw. pose proof Hw as (HW & Hk & _ & Hφ). cbn in *. subst W'. unfold on_dev. cbn [dev wal].
  assert (∀ g, g ∈ [] → g = f) as HX by (by intros g ?%not_elem_of_nil).
  destruct (create_law f true d) as [_ H]. destruct (create f true d) as [[[]|e] d']; cbn in H.
  - destruct H as [Ho H]. destruct (files d !! f) eqn:Ef; [by destruct H|]. split; [by rewrite Hk in Ef by (done || apply not_elem_of_nil)|].
    eapply mid_change; [done..|]. split; [by eapply Hst|done].
  - eapply mid_change; [done..|by eapply Hst].
Qed.

Lemma append_mid (F : Files) D W φ f c data : f ∉ D → steady f φ →
  spec (mid F D [f] W (λ d, φ d ∧ files d !! f = Some c)) (on_dev (append_log f data))
    (λ _, mid F D [f] W (λ d, φ d ∧ files d !! f = Some (c ++ data))) (mid F D [f] W φ).
Proof.
  intros HD Hst [d W'] Hw. pose proof Hw as (HW & _ & _ & Hφ & Hf). cbn in *. subst W'. unfold on_dev. cbn [dev wal].
  assert (∀ g, g ∈ [f] → g = f) as HX by (by intros g ?%list_elem_of_singleton).
  destruct (append_log_law f data d) as [_ H]. destruct (append_log f data d) as [[n|e] d']; cbn in H.
  - destruct H as (Ho & (c' & Hc & _ & Hc') & _). rewrite Hf in Hc. injection Hc as <-. eapply mid_change; [done..|]. split; [by eapply Hst|done].
  - destruct H as (Ho & _). eapply mid_change; [done..|by eapply Hst].
Qed.

(** The fresh segment: what it holds is on the device for good. *)
Definition fixed (f : pystr) (c : bytes) (d : Dev) : Prop := files d !! f = Some c ∧ ∀ x, recoverable d f x → x = Some c.

Lemma flush_mid (F : Files) D X W φ f c : calm φ →
  spec (mid F D X W (λ d, φ d ∧ files d !! f = Some c)) (flush [f]) (λ _, mid F D X W (λ d, φ d ∧ fixed f c d)) (mid F D X W φ).
Proof.
  intros Hcalm [d W'] Hw. pose proof Hw as (HW & Hk & Hg & Hφ & Hf). cbn in *. subst W'.
  unfold mbind, m_bind, on_dev. cbn [dev wal]. destruct (durable_barrier_law f d) as [_ H]. destruct (durable_barrier (Some f) d) as [[[]|e] d']; cbn in H.
  - destruct H as (HF & HR & _ & Hx). unfold mid, fixed. cbn. rewrite HF in *. rewrite Hf in Hx. split_and!; [done|done|done|exact (Hcalm d d' HF HR Hφ)|done|done].
  - destruct H as (HF & HR). unfold mid. cbn. rewrite HF. split_and!; [done|done|done|exact (Hcalm d d' HF HR Hφ)].
Qed.

Lemma reading_mid {A : Type} (op : M Dev A) (Q : gmap pystr bytes → A → Prop) (F : Files) D X W φ : calm φ →
  effect op (λ d a d', untouched d d' ∧ Q (files d) a) untouched →
  spec (mid F D X W φ) (on_dev op) (λ a w, Q (files (dev w)) a ∧ mid F D X W φ w) (mid F D X W φ).
Proof.
  intros Hcalm Hop [d W'] (HW & Hk & Hg & Hφ). cbn in *. subst W'. unfold on_dev. cbn [dev wal].
  assert (∀ d', untouched d d' → mid F D X W φ (MkWorld d' W)) as Hmid.
  { intros d' [HF HR]. unfold mid. cbn. rewrite HF. split_and!; [done|done|done|]. eapply Hcalm; [exact HF| |done]. intros g x. by rewrite HR. }
  destruct (Hop d) as [_ H]. destruct (op d) as [[a|e] d']; cbn in H; [|by apply Hmid].
  destruct H as [Hu HQ]. split; [|by apply Hmid]. destruct Hu as [HF _]. cbn. by rewrite HF.
Qed.

Lemma get_mid {A : Type} (f : Wal → A) (F : Files) D X W φ E : spec (mid F D X W φ) (get f) (λ a w, a = f W ∧ mid F D X W φ w) E.
Proof. intros w (HW & H). cbn. rewrite HW. by split. Qed.

Definition bumped W : Wal := with_index (with_next_number (next_number (index W) + 1) (index W)) W.

Lemma bump_mid (F : Files) D X W φ E :
  spec (mid F D X W φ) (update (λ V, with_index (with_next_number (next_number (index V) + 1) (index V)) V)) (λ _, mid F D X (bumped W) φ) E.
Proof. intros w (HW & Hk & Hg & Hφ). unfold mid. cbn. rewrite HW. by split_and!. Qed.

(** The files [D] are gone, and when there is one, a fresh segment is on the device for good. *)
Definition spared (F : Files) D W φ (sp : option (pystr * bytes)) w : Prop :=
  match sp with
  | None => mid F D [] W φ w
  | Some (f, c) => segment_name (directory W) (next_number (index W)) = Ok f ∧ F !! f = None ∧
                   mid F D [f] (bumped W) (λ d, φ d ∧ fixed f c d) w
  end.

(** The files [D] are gone, and the next segment may have been begun. *)
Definition partway (F : Files) D W φ w : Prop :=
  ∃ X W', (∀ g, g ∈ X → segment_name (directory W) (next_number (index W)) = Ok g) ∧ mid F D X W' φ w.

Lemma mid_partway (F : Files) D W φ w : mid F D [] W φ w → partway F D W φ w.
Proof. intros H. exists [], W. by split; [intros g ?%not_elem_of_nil|]. Qed.

(** A fresh segment of the bytes [c]: create, append unless it is to stay empty, flush. *)
Lemma fresh_segment_at {A B : Type} (F : Files) D W φ (fill : pystr → M World A) (k : pystr → M World B) (c : bytes) Q E : calm φ →
  (∀ f, segment_name (directory W) (next_number (index W)) = Ok f → (f ∉ D) ∧ steady f φ) →
  (∀ f, f ∉ D → steady f φ → spec (mid F D [f] W (λ d, φ d ∧ files d !! f = Some [])) (fill f) (λ _, mid F D [f] W (λ d, φ d ∧ files d !! f = Some c)) (mid F D [f] W φ)) →
  (∀ f, spec (spared F D W φ (Some (f, c))) (k f) Q E) → (∀ w, partway F D W φ w → E w) →
  spec (mid F D [] W φ)
    (V ← get id; name ← lift (segment_name (directory V) (next_number (index V)));
     _ ← on_dev (create name true); _ ← fill name;
     _ ← update (λ V, with_index (with_next_number (next_number (index V) + 1) (index V)) V); _ ← flush [name]; k name) Q E.
Proof.
  intros Hcalm Hname Hfill Hk HE. eapply spec_bind; [apply get_mid|]. intros V. apply spec_fact. intros ->. cbn [id].
  destruct (segment_name _ _) as [f|e] eqn:En; [|by intros w Hw; apply HE, mid_partway]. destruct (Hname f eq_refl) as [HD Hst].
  eapply (spec_bind _ _ _ (λ a w, a = f ∧ mid F D [] W φ w)); [by intros w Hw|]. intros a. apply spec_fact. intros ->.
  assert (∀ W' w, mid F D [f] W' φ w → E w) as HE'.
  { intros W' w Hw. apply HE. exists [f], W'. split; [|done]. intros g Hg. apply list_elem_of_singleton in Hg as ->. exact En. }
  eapply spec_bind; [eapply spec_weaken; [by apply (create_mid F D W φ f)|done|intros a w H; exact H|by apply HE']|]. intros []. apply spec_fact. intros HFf.
  eapply spec_bind; [eapply spec_weaken; [by apply Hfill|done|intros a w H; exact H|by apply HE']|]. intros a.
  eapply spec_bind; [apply bump_mid|]. intros [].
  eapply spec_bind; [eapply spec_weaken; [by apply (flush_mid F D [f] (bumped W) φ f c)|done|intros b w H; exact H|by apply HE']|].
  intros [] w Hw. apply Hk. by split_and!.
Qed.

Lemma spared_weaken (F : Files) D W φ φ' sp w : spared F D W φ sp w → (∀ d, φ d → φ' d) → spared F D W φ' sp w.
Proof.
  intros H Hφ. destruct sp as [[f c]|]; [destruct H as (? & ? & H); split_and!; [done..|]|]; (eapply mid_weaken; [exact H|done|]); [|done].
  intros d [? ?]. split; [by apply Hφ|done].
Qed.

Lemma spared_partway (F : Files) D W φ sp w : spared F D W φ sp w → partway F D W φ w.
Proof.
  destruct sp as [[f c]|]; [|apply mid_partway]. intros (Hn & _ & H). exists [f], (bumped W). split.
  - intros g Hg. apply list_elem_of_singleton in Hg as ->. exact Hn.
  - eapply mid_weaken; [exact H|done|by intros d [? _]].
Qed.

Lemma spared_step {B : Type} (F : Files) D W φ sp g (k : bool → bool → M World B) Q (E : World → Prop) : g ∉ D → is_Some (F !! g) → steady g φ →
  (∀ b, spec (spared F (D ++ [g]) W φ sp) (k b true) Q E) → spec (spared F D W φ sp) (k false false) Q E →
  (∀ w, spared F D W φ sp w ∨ spared F (D ++ [g]) W φ sp w → E w) →
  spec (spared F D W φ sp)
    (released ← on_dev (recycle g);
     gone ← (if (released : bool) then mret true else there ← on_dev (exists_ g); mret (negb there)); k released gone) Q E.
Proof.
  intros HD Hg Hst Hgone Hthere HE. destruct sp as [[f c]|].
  - intros w (Hn & HF & Hw). revert w Hw. apply gone_step.
    + intros ->%list_elem_of_singleton. rewrite HF in Hg. by destruct Hg.
    + done.
    + done.
    + intros d d' Ho [Hd [Hf Hr]]. split; [by eapply Hst|]. assert (f ≠ g) as Hne by (intros ->; rewrite HF in Hg; by destruct Hg).
      destruct (Ho f Hne) as [E1 E2]. unfold fixed. by rewrite E1, E2.
    + intros b w Hw. apply Hgone. by split_and!.
    + intros w Hw. apply Hthere. by split_and!.
    + intros w [Hw|Hw]; apply HE; [left|right]; by split_and!.
  - apply gone_step; [apply not_elem_of_nil|done..].
Qed.

Section doomed.
Context (F : Files) (W : Wal) (φ : Dev → Prop) (Hcalm : calm φ).
Context (Hname : ∀ f, segment_name (directory W) (next_number (index W)) = Ok f → F !! f = None ∧ steady f φ).

Lemma reserve_at D : (∀ g, g ∈ D → is_Some (F !! g)) →
  spec (mid F D [] W φ) reserve_empty_segment (λ f, spared F D W φ (Some (f, []))) (partway F D W φ).
Proof.
  intros HD. refine (fresh_segment_at F D W φ (λ _, mret ()) mret [] (λ f, spared F D W φ (Some (f, []))) (partway F D W φ) Hcalm _ _ _ _).
  - intros f Hf. destruct (Hname f Hf) as [HF Hst]. split; [|done]. intros Hin%HD. by rewrite HF in Hin; destruct Hin.
  - intros f _ _. by intros w Hw.
  - intros f. by intros w Hw.
  - done.
Qed.

(** What may be doomed: files that are there, and that [φ] does not speak of. *)
Definition doomable (names D : list pystr) : Prop :=
  NoDup names ∧ ∀ g, g ∈ names → (g ∉ D) ∧ is_Some (F !! g) ∧ steady g φ.

(** Going through the doomed segments from the last: those before the first refusal are gone, and
    before the very last goes, when nothing would be left, a fresh empty one is there. *)
Lemma remove_doomed_at empties doomed : ∀ D st, (∀ g, g ∈ D → is_Some (F !! g)) → doomable (name <$> doomed) D → going st = true →
  spec (mid F D [] W φ) (remove_doomed empties doomed st)
    (λ st' w, ∃ k sp, spared F (D ++ take k (name <$> doomed)) W φ sp w ∧ removed st' = removed st ++ take k (name <$> doomed) ∧
       (going st' = true → (length doomed <= k)%nat) ∧ (∀ f c, sp = Some (f, c) → empties = true ∧ c = []))
    (λ w, ∃ k, partway F (D ++ take k (name <$> doomed)) W φ w).
Proof.
  induction doomed as [|s doomed IH]; intros D st HD [Hnd Hok] Hgo; cbn [remove_doomed].
  { intros w Hw. exists 0%nat, None. cbn. rewrite !app_nil_r. by split_and!. }
  cbn [fmap list_fmap] in *. apply NoDup_cons in Hnd as [Hno Hnd]. destruct (Hok (name s)) as (Hs & HF & Hst); [by left|].
  assert (∀ w, partway F D W φ w → ∃ k, partway F (D ++ take k (name s :: (name <$> doomed))) W φ w) as HE.
  { intros w Hw. exists 0%nat. cbn. by rewrite app_nil_r. }
  assert (∀ w, partway F (D ++ [name s]) W φ w → ∃ k, partway F (D ++ take k (name s :: (name <$> doomed))) W φ w) as HE1.
  { intros w Hw. by exists 1%nat. }
  eapply (spec_bind _ _ _ (λ _ w, ∃ sp, (sp = None ∨ doomed = [] ∧ empties = true ∧ ∃ f, sp = Some (f, [])) ∧ spared F D W φ sp w)).
  { destruct empties; cbn [andb]; [case_bool_decide as Ed|].
    - eapply spec_bind; [eapply spec_weaken; [by apply (reserve_at D)|done|intros a w H; exact H|exact HE]|]. intros f w Hw. exists (Some (f, [])).
      split; [|done]. right. split_and!; [done..|]. by exists f.
    - intros w Hw. exists None. split; [by left|done].
    - intros w Hw. exists None. split; [by left|done]. }
  intros []. apply spec_ex. intros sp. apply spec_fact. intros Hsp.
  assert (∀ f c, sp = Some (f, c) → empties = true ∧ c = []) as Hsp'.
  { intros f c ->. destruct Hsp as [|(_ & ? & g & [= -> ->])]; [done|by split]. }
  apply spared_step; [done..| | |].
  - intros b. destruct Hsp as [->|(-> & He & f & ->)].
    + eapply spec_weaken; [apply (IH (D ++ [name s]))|done| |].
      * intros g [?|?%list_elem_of_singleton]%elem_of_app; [by apply HD|by subst].
      * split; [done|]. intros g Hg. destruct (Hok g) as (? & ? & ?); [by right|]. split_and!; [|done..].
        intros [?|?%list_elem_of_singleton]%elem_of_app; [done|by subst].
      * done.
      * intros st' w (k & sp & Hw & Hr & Hg & Hc). exists (S k), sp. cbn [take length removed] in *. rewrite <-app_assoc in Hw. rewrite Hr, <-app_assoc.
        split_and!; [exact Hw|done| |done]. intros H. specialize (Hg H). lia.
      * intros w (k & Hw). exists (S k). cbn [take]. by rewrite <-app_assoc in Hw.
    + cbn [remove_doomed]. intros w Hw. exists 1%nat, (Some (f, [])). cbn [take length removed]. rewrite take_0. by split_and!.
  - intros w Hw. exists 0%nat, sp. cbn. rewrite !app_nil_r. by split_and!.
  - intros w [Hw|Hw]; [apply HE|apply HE1]; by eapply spared_partway.
Qed.

(** The cut segment gives way to a fresh one that keeps its first [off] bytes. *)
Lemma roll_at D φ' cut c off : (∀ g, g ∈ D → is_Some (F !! g)) → cut ∉ D → F !! cut = Some c → (∀ d, φ d → φ' d) → steady cut φ' →
  spec (mid F D [] W φ) (roll_cut_segment cut off)
    (λ out, spared F (if out.1.2 then D ++ [cut] else D) W φ' (Some (out.1.1, slice c 0 off)))
    (λ w, partway F D W φ w ∨ ∃ f D', (D' = D ∨ D' = D ++ [cut]) ∧ spared F D' W φ' (Some (f, slice c 0 off)) w).
Proof.
  intros HD Hcut HF Hφ Hst. unfold roll_cut_segment.
  eapply (spec_bind _ _ _ (λ x w, x = slice c 0 off ∧ mid F D [] W φ w)).
  { eapply spec_weaken; [exact (reading_mid _ (λ G data, ∃ c', G !! cut = Some c' ∧ 0 <= 0 ∧ 0 <= off ∧ data = slice c' 0 (0 + off)) F D [] W φ Hcalm
      (read_log_law cut 0 off))|done| |intros w Hw; left; by apply mid_partway].
    intros x w [(c' & Hc & _ & _ & ->) Hw]. split; [|done]. destruct Hw as (_ & Hk & _).
    rewrite Hk, HF in Hc by (done || apply not_elem_of_nil). by injection Hc as <-. }
  intros x. apply spec_fact. intros ->.
  apply (fresh_segment_at F D W φ (λ name, on_dev (append_log name (slice c 0 off))) _ (slice c 0 off)); [done| | | |].
  - intros f Hf. destruct (Hname f Hf) as [HFf Hstf]. split; [|done]. intros Hin%HD. by rewrite HFf in Hin; destruct Hin.
  - intros f Hf Hstf. exact (append_mid F D W φ f [] (slice c 0 off) Hf Hstf).
  - intros f. eapply spec_weaken; [|intros w Hw; eapply spared_weaken; [exact Hw|exact Hφ]|intros out w H; exact H|intros w H; right; exact H].
    apply spared_step; [done|by eexists|done| | |].
    + intros b w Hw. exact Hw.
    + intros w Hw. exact Hw.
    + intros w [Hw|Hw]; exists f; eexists; (split; [|exact Hw]); by auto.
  - intros w Hw. by left.
Qed.
End doomed.

(** ** The end of a repair *)

(** The same files; a loss of power brings back no more. *)
Definition shrunk (F : Files) R w : Prop := files (dev w) = F ∧ ∀ g x, recoverable (dev w) g x → R g x.

Lemma count_records_at (F : Files) R W : spec (at_ F R W) count_records (λ _, at_ F R W) (at_ F R W).
Proof.
  unfold count_records, walk_registered. eapply spec_bind.
  - eapply bind_at; [apply get_at|intros w Hw; exact Hw|]. intros i _. apply walk_any.
  - intros [n|n f e]; cbn [settle]; [by intros w Hw|]. destruct (absorbed e); by intros w Hw.
Qed.

(** A pass changes no file, and comes to know the log that is there. *)
Lemma rebuild_knows (F : Files) R W :
  spec (at_ F R W) rebuild (λ _ w, files (dev w) = F ∧ recoverable (dev w) = R ∧ ∀ L, holds (directory W) F L → synced F L (wal w))
    (λ w, files (dev w) = F ∧ recoverable (dev w) = R).
Proof.
  intros w Hw. assert (spec (still F R (append_uncertain W)) rebuild (λ _, still F R (append_uncertain W)) (still F R (append_uncertain W))) as Hq.
  { unfold rebuild. eapply spec_bind; [apply (quiet_index_pass F R (append_uncertain W))|]. by intros items v Hv. }
  pose proof (λ L HL, rebuild_at F R W L HL w Hw) as Hk. destruct Hw as (HF & HR & HW).
  specialize (Hq w ltac:(split_and!; [done|done|by rewrite HW])). destruct (rebuild w) as [[[]|e] w'].
  - destruct Hq as (? & ? & _). split_and!; [done..|]. intros L HL. destruct (Hk L HL) as (W' & (_ & _ & ->) & _ & Hs). exact Hs.
  - by destruct Hq as (? & ? & _).
Qed.

Definition concluded (F : Files) R W st truncated (report : TruncationReport) w : Prop :=
  shrunk F R w ∧ completed report = going st ∧ truncated_segment report = truncated ∧ removed_segments report = reverse (removed st) ∧
  t_last_lsn report = log_last_lsn (index (wal w)) ∧
  (∀ L, holds (directory W) F L → removed st ≠ [] → synced F L (wal w)) ∧
  (going st = true → damage (index (wal w)) = None → append_uncertain (wal w) = false).

Lemma conclude_at (F : Files) R W before_count st truncated :
  spec (at_ F R W)
    (_ ← (if negb (bool_decide (removed st = [])) || bool_decide (is_Some truncated) then
            _ ← update (λ V, with_unflushed (filter (λ n, n ∉ removed st) (unflushed V)) V);
            _ ← barrier;
            rebuild
          else mret ());
     after_count ← count_records;
     i ← get index;
     _ ← (if going st && negb (bool_decide (is_Some (damage i))) then update (with_uncertain false) else mret ());
     mret (MkTruncation (log_last_lsn i) (before_count - after_count) (bytes_removed st) truncated (reverse (removed st))
             (deferred st) (going st)))
    (concluded F R W st truncated) (shrunk F R).
Proof.
  eapply (spec_bind _ _ _ (λ _ w, shrunk F R w ∧ ∀ L, holds (directory W) F L → removed st ≠ [] → synced F L (wal w))).
  { destruct (negb _ || _) eqn:Eb.
    - eapply bind_at; [apply (update_at _ F R W (shrunk F R))|done|]. intros _ _.
      set (W' := with_unflushed _ W). eapply spec_bind; [eapply spec_weaken; [apply (barrier_at F R W')|done|intros a w H; exact H|by intros w (? & _ & ? & _)]|].
      intros [] w (HF & HW & HR & _).
      pose proof (rebuild_knows (files (dev w)) (recoverable (dev w)) (wal w) w ltac:(by split_and!)) as H. destruct (rebuild w) as [[[]|e] w']; rewrite HF in H.
      + destruct H as (H1 & H2 & H3). split; [split; [done|by rewrite H2]|]. intros L HL _. apply H3. by rewrite HW.
      + destruct H as [H1 H2]. split; [done|by rewrite H2].
    - intros w (HF & HR & HW). split; [split; [done|by rewrite HR]|]. intros L _ Hne. apply orb_false_iff in Eb as [Eb _].
      by rewrite bool_decide_eq_false_2 in Eb. }
  intros []. apply spec_here. intros w [[HF HR] Hs]. rewrite HF. eapply spec_bind.
  { eapply spec_weaken; [apply count_records_at|done|intros a v H; exact H|]. intros v (? & E & _). unfold shrunk. by rewrite E. }
  intros after_count. eapply bind_at; [apply (get_at _ _ _ _ (shrunk F R))|done|]. intros i ->.
  assert (∀ W', index W' = index (wal w) → (going st = true → damage (index W') = None → append_uncertain W' = false) →
    (∀ L, synced F L (wal w) → synced F L W') → spec (at_ F (recoverable (dev w)) W')
      (mret (MkTruncation (log_last_lsn (index (wal w))) (before_count - after_count) (bytes_removed st) truncated (reverse (removed st)) (deferred st) (going st)))
      (concluded F R W st truncated) (shrunk F R)) as Hend.
  { intros W' Hi Hu Hy v (HF' & HR' & HW'). unfold concluded. cbn. rewrite HW', Hi. split_and!; [split; [done|by rewrite HR']|done..| |by rewrite <-Hi].
    intros L HL Hne. apply Hy. by apply Hs. }
  destruct (going st && _) eqn:Eg.
  - eapply bind_at; [apply (update_at _ _ _ _ (shrunk F R))|done|]. intros _ _. apply Hend; [done..|].
    intros L [H1 H2 H3 H4 H5]. by constructor.
  - eapply (spec_bind _ _ _ (λ _, at_ F (recoverable (dev w)) (wal w))); [by intros v Hv|]. intros []. apply Hend; [done| |done].
    intros Hg Hd. rewrite Hg, Hd in Eg. done.
Qed.
End removing.

(** ** The whole repair *)

Lemma after_cut n l A B : name <$> l = A ++ n :: B → n ∉ A → ∃ lb, after_name (Some n) l = Some lb ∧ name <$> lb = B.
Proof.
  revert A. induction l as [|s l IH]; intros A; [by destruct A|]. destruct A as [|a A]; cbn; intros [= <- E] Hn.
  - exists l. by rewrite bool_decide_eq_true_2.
  - rewrite bool_decide_eq_false_2; [apply (IH A); [done|]; intros ?; apply Hn; by right|]. intros [= ->]. apply Hn. by left.
Qed.

Lemma after_none l : after_name None l = None.
Proof. by induction l. Qed.

(** The segments that are kept, as runs of records. *)
Definition kept_segs (LA : list Seg) (p : option (Raw * list (Z * WalRecord))) : list Seg :=
  LA ++ match p with Some (s, es) => [MkSeg (r_number s) (r_name s) es] | None => [] end.
Definition part_seg (p : option (Raw * list (Z * WalRecord))) : list Raw := match p with Some (s, _) => [s] | None => [] end.

Lemma part_cases (p : option (Raw * list (Z * WalRecord))) : (∃ s es, p = Some (s, es)) ∨ p = None.
Proof. destruct p as [[s es]|]; [left; by exists s, es|by right]. Qed.

Section whole.
Context {Dev : Type} {SD : StorageDevice Dev} {SL : StorageLaws Dev} {LL : LogLaws Dev}.
#[local] Abbreviation World := (@WalManager.World Dev).
Context (F : Files) (R : pystr → option bytes → Prop) (W : Wal) (t : Z) (K A Dr : list Raw) (LA : list Seg).
Context (p : option (Raw * list (Z * WalRecord))).
Context (HK : stored (directory W) F K) (Hsv : surveyed F K W) (EK : K = A ++ part_seg p ++ Dr) (HA : Forall2 whole_seg A LA).
Context (Hp : ∀ s es, p = Some (s, es) → es ≠ [] ∧ clean (take (Z.to_nat (span es)) (r_bytes s)) es ∧ 0 < span es < zlen (r_bytes s)).

(** The records of a run are at the start of some segment, and no loss of power takes them away
    that could not have done so before. *)
Definition survives (L : list Seg) (d : Dev) : Prop :=
  ∀ u, u ∈ L → ∃ f c m, parse_segment_number (directory W) f = Some m ∧ files d !! f = Some c ∧
    clean (take (Z.to_nat (seg_span u)) c) (s_entries u) ∧
    (F !! f = Some c ∧ (∀ x, recoverable d f x → R f x) ∨ F !! f = None ∧ ∀ x, recoverable d f x → x = Some c).

Definition no_more (names : list pystr) (d : Dev) : Prop := ∀ g x, g ∈ names → recoverable d g x → R g x.

Lemma no_more_calm names : calm (no_more names).
Proof. intros d d' _ HR H g x Hg Hx. by apply H, HR. Qed.
Lemma no_more_steady names g : g ∉ names → steady g (no_more names).
Proof. intros Hno d d' Ho H f x Hf Hx. assert (f ≠ g) as Hne by (by intros ->). destruct (Ho f Hne) as [_ E]. rewrite E in Hx. by apply H. Qed.

Lemma whole_names : r_name <$> K = (r_name <$> A) ++ (r_name <$> part_seg p) ++ (r_name <$> Dr).
Proof. by rewrite EK, !fmap_app. Qed.

Lemma names_apart : NoDup ((r_name <$> A) ++ (r_name <$> part_seg p) ++ (r_name <$> Dr)).
Proof. rewrite <-whole_names. by eapply stored_NoDup. Qed.

Lemma names_there g : g ∈ (r_name <$> A) ++ (r_name <$> part_seg p) ++ (r_name <$> Dr) → is_Some (F !! g).
Proof. rewrite <-whole_names. intros (s & -> & Hs)%list_elem_of_fmap. destruct (stored_seg _ _ _ HK s Hs) as (_ & _ & H). by eexists. Qed.

Lemma fresh_name f : segment_name (directory W) (next_number (index W)) = Ok f →
  parse_segment_number (directory W) f = Some (next_number (index W)) ∧ F !! f = None.
Proof.
  intros Hf. assert (parse_segment_number (directory W) f = Some (next_number (index W))) as Hpf.
  { apply segment_name_Ok in Hf as (Hd & Hm & ->). by apply parse_segment_number_name. }
  split; [done|]. apply eq_None_not_Some. intros Hs. destruct (sv_next _ _ _ Hsv) as [_ Hb]. specialize (Hb (next_number (index W)) f ltac:(by split)). lia.
Qed.

(** Which segments the repair takes for doomed. *)
Lemma doomed_names : let cut_name := fst <$> cut_after None LA p in
  name <$> default (segments (index W)) (after_name cut_name (segments (index W))) = r_name <$> Dr ∧
  (p ≠ None → cut_name ≠ None).
Proof.
  pose proof (surveyed_names F K W Hsv) as En. pose proof names_apart as Hnd. rewrite whole_names in En. unfold cut_after, part_seg in *.
  destruct p as [[s es]|].
  - cbn in *. apply NoDup_app in Hnd as (_ & Hd & _). destruct (after_cut (r_name s) _ _ _ En) as (lb & -> & E).
    { intros Hin. apply (Hd _ Hin). by left. }
    by split.
  - split; [|done]. cbn [fmap list_fmap app] in *. destruct (last LA) as [u|] eqn:El.
    + apply last_Some in El as [LA' EL]. rewrite EL in HA. apply Forall2_app_inv_r in HA as (A' & A'' & _ & Hu & ->).
      apply Forall2_cons_inv_r in Hu as (a & A3 & (_ & Hn & _) & Hnil & ->). apply Forall2_nil_inv_r in Hnil as ->.
      rewrite fmap_app, <-app_assoc in En. cbn in En |- *. rewrite Hn. rewrite fmap_app, <-app_assoc in Hnd. apply NoDup_app in Hnd as (_ & Hd & _).
      destruct (after_cut (r_name a) _ _ _ En) as (lb & -> & E); [|done]. intros Hin. apply (Hd _ Hin). by left.
    + apply last_None in El as ->. apply Forall2_nil_inv_r in HA as ->. cbn in *. by rewrite after_none.
Qed.

(** *** What every step keeps *)

Lemma whole_survives a u d : a ∈ A → whole_seg a u → files d !! r_name a = F !! r_name a → no_more [r_name a] d →
  ∃ f c m, parse_segment_number (directory W) f = Some m ∧ files d !! f = Some c ∧ clean (take (Z.to_nat (seg_span u)) c) (s_entries u) ∧
    (F !! f = Some c ∧ (∀ x, recoverable d f x → R f x) ∨ F !! f = None ∧ ∀ x, recoverable d f x → x = Some c).
Proof.
  intros Ha (_ & _ & _ & Hcl) Hd Hr. destruct (stored_seg _ _ _ HK a) as (Hpa & _ & Hf); [rewrite EK; apply elem_of_app; by left|].
  exists (r_name a), (r_bytes a), (r_number a). split; [done|]. split; [by rewrite Hd|]. split.
  - rewrite take_ge; [done|]. pose proof (clean_span _ _ Hcl). unfold seg_span, zlen in *. lia.
  - left. split; [done|]. intros x Hx. apply Hr; [by left|done].
Qed.

Lemma mid_survives D X W' w : mid F D X W' (no_more (r_name <$> A ++ part_seg p)) w → (∀ g, g ∈ D → g ∈ r_name <$> Dr) → (∀ g, g ∈ X → F !! g = None) →
  survives (kept_segs LA p) (dev w).
Proof.
  intros (_ & Hk & _ & Hr) HD HX.
  assert (∀ a, a ∈ A ++ part_seg p → files (dev w) !! r_name a = F !! r_name a ∧ is_Some (F !! r_name a) ∧ no_more [r_name a] (dev w)) as Hsame.
  { intros a Ha. assert (is_Some (F !! r_name a)) as Hs.
    { apply names_there. rewrite app_assoc, <-fmap_app. apply elem_of_app. left. by apply list_elem_of_fmap_2. }
    split_and!; [|done|].
    - apply Hk; [|intros HXa%HX; rewrite HXa in Hs; by destruct Hs]. intros Hin%HD.
      pose proof names_apart as Hnd. rewrite app_assoc, <-fmap_app in Hnd. apply NoDup_app in Hnd as (_ & Hd & _).
      apply (Hd (r_name a)); [by apply list_elem_of_fmap_2|done].
    - intros g x Hg. apply list_elem_of_singleton in Hg as ->. apply Hr. by apply list_elem_of_fmap_2. }
  intros u [Hu|Hu]%elem_of_app.
  - destruct (kept_seg A LA HA u Hu) as (a & Ha & Hw). destruct (Hsame a) as (H1 & _ & H2); [apply elem_of_app; by left|]. by eapply whole_survives.
  - destruct p as [[s es]|]; [|by apply not_elem_of_nil in Hu]. apply list_elem_of_singleton in Hu as ->.
    destruct (Hsame s) as (H1 & _ & H2); [apply elem_of_app; right; by left|]. destruct (stored_seg _ _ _ HK s) as (Hps & _ & Hf).
    { rewrite EK. apply elem_of_app. right. by left. }
    destruct (Hp s es eq_refl) as (_ & Hcl & _). exists (r_name s), (r_bytes s), (r_number s). rewrite H1. split_and!; [done..|].
    left. split; [done|]. intros x Hx. apply H2; [by left|done].
Qed.

Lemma spared_survives D φ sp w : spared F D W φ sp w → (∀ d, φ d → no_more (r_name <$> A ++ part_seg p) d) →
  (∀ g, g ∈ D → g ∈ r_name <$> Dr) → survives (kept_segs LA p) (dev w).
Proof.
  intros Hw Hφ HD. destruct (spared_partway _ _ _ _ _ _ Hw) as (X & W' & HX & Hm). eapply mid_survives; [eapply mid_weaken; [exact Hm|done|exact Hφ]|done|].
  intros g Hg%HX. by apply fresh_name.
Qed.

Lemma rolled_survives s es D f w : p = Some (s, es) → spared F D W (no_more (r_name <$> A)) (Some (f, take (Z.to_nat (span es)) (r_bytes s))) w →
  (∀ g, g ∈ D → g ∈ r_name <$> part_seg p ++ Dr) → survives (kept_segs LA p) (dev w).
Proof.
  intros Ep (Hn & HF & Hw) HD. destruct (fresh_name f Hn) as [Hpf _]. destruct Hw as (_ & Hk & _ & Hr & Hfix & Hx).
  destruct (Hp s es Ep) as (_ & Hcl & Hsp). rewrite Ep in HD |- *. cbn [kept_segs]. intros u [Hu|Hu]%elem_of_app.
  - destruct (kept_seg A LA HA u Hu) as (a & Ha & Hw). eapply whole_survives; [done..| |].
    + apply Hk.
      * intros Hin%HD. pose proof names_apart as Hnd. rewrite Ep, <-fmap_app in Hnd. apply NoDup_app in Hnd as (_ & Hd & _).
        apply (Hd (r_name a)); [by apply list_elem_of_fmap_2|done].
      * intros Hin%list_elem_of_singleton. destruct (names_there (r_name a)) as [c Hc]; [|rewrite Hin in Hc; congruence]. apply elem_of_app. left. by apply list_elem_of_fmap_2.
    + intros g x Hg. apply list_elem_of_singleton in Hg as ->. apply Hr. by apply list_elem_of_fmap_2.
  - apply list_elem_of_singleton in Hu as ->. exists f, (take (Z.to_nat (span es)) (r_bytes s)), (next_number (index W)).
    unfold seg_span. cbn [s_entries]. rewrite take_take, Nat.min_id. split_and!; [done..|]. right. split; [done|]. exact Hx.
Qed.

(** *** The steps *)

#[local] Abbreviation cut := (cut_after None LA p).
#[local] Abbreviation doomed_segs := (reverse (default (segments (index W)) (after_name (fst <$> cut) (segments (index W))))).
#[local] Abbreviation doomed_list := (reverse (r_name <$> Dr)).

Lemma doomed_list_names : name <$> doomed_segs = doomed_list.
Proof. destruct doomed_names as [E _]. by rewrite fmap_reverse, E. Qed.

Definition removed_so_far (st : Removal) w : Prop :=
  ∃ k sp, spared F (take k doomed_list) W (no_more (r_name <$> A ++ part_seg p)) sp w ∧ removed st = take k doomed_list ∧
    (going st = true → (length doomed_list <= k)%nat) ∧ (∀ f c, sp = Some (f, c) → cut = None ∧ c = []).

Lemma in_doomed k g : g ∈ take k doomed_list → g ∈ r_name <$> Dr.
Proof. intros Hg. apply elem_of_take in Hg as (i & Hi & _). apply list_elem_of_lookup_2 in Hi. by rewrite elem_of_reverse in Hi. Qed.

Lemma fresh_steady f : segment_name (directory W) (next_number (index W)) = Ok f → F !! f = None ∧ steady f (no_more (r_name <$> A ++ part_seg p)).
Proof.
  intros Hf. destruct (fresh_name f Hf) as [_ HF]. split; [done|]. apply no_more_steady. intros Hin. destruct (names_there f) as [c Hc]; [|congruence].
  rewrite app_assoc, <-fmap_app. apply elem_of_app. by left.
Qed.

Lemma remove_step : spec (at_ F R W)
  (remove_doomed (bool_decide (fst <$> cut = None) && negb (bool_decide (doomed_segs = []))) doomed_segs (MkRemoval [] [] 0 true))
  removed_so_far (λ w, survives (kept_segs LA p) (dev w)).
Proof.
  pose proof names_apart as Hnd. rewrite app_assoc, <-fmap_app in Hnd. apply NoDup_app in Hnd as (_ & Hd & Hnd).
  eapply (spec_weaken _ (mid F [] [] W (no_more (r_name <$> A ++ part_seg p)))).
  - apply (remove_doomed_at F W _ (no_more_calm _) fresh_steady).
    + by intros g ?%not_elem_of_nil.
    + rewrite doomed_list_names. split; [by rewrite reverse_Permutation|]. intros g Hg. rewrite elem_of_reverse in Hg. split_and!; [apply not_elem_of_nil| |].
      * apply names_there. rewrite app_assoc. apply elem_of_app. by right.
      * apply no_more_steady. intros Hin. by apply (Hd g).
    + done.
  - intros w (HF & HR & HW). split_and!; [done|by intros g _ _; rewrite HF|by intros g ?%not_elem_of_nil|]. intros g x _ Hx. by rewrite <-HR.
  - intros st w (k & sp & Hw & Hr & Hg & Hc). rewrite doomed_list_names in Hw, Hr. exists k, sp. split_and!; [done|done| |].
    + intros H. rewrite <-doomed_list_names, length_fmap. by apply Hg.
    + intros f c E. destruct (Hc f c E) as [He ->]. split; [|done]. apply andb_true_iff in He as [He _]. apply bool_decide_eq_true in He.
      by destruct cut.
  - intros w (k & X & W' & HX & Hw). rewrite doomed_list_names in Hw. eapply mid_survives; [exact Hw|by apply in_doomed|].
    intros g Hg%HX. by apply fresh_name.
Qed.

(** The removal went through: the segments past the cut are gone, the cut one as well when it held more. *)
Definition gone_through (st : Removal) w : Prop :=
  ∃ sp, spared F (doomed_list ++ (r_name <$> part_seg p)) W (no_more (r_name <$> A)) sp w ∧
    removed st = doomed_list ++ (r_name <$> part_seg p) ∧
    match p with
    | None => ∀ f c, sp = Some (f, c) → c = []
    | Some (s, es) => ∃ f, sp = Some (f, take (Z.to_nat (span es)) (r_bytes s))
    end.

Definition cut_made (out : option pystr * Removal) w : Prop :=
  survives (kept_segs LA p) (dev w) ∧ directory (wal w) = directory W ∧ (going out.2 = true → gone_through out.2 w).

Lemma spared_directory D φ sp w : spared F D W φ sp w → directory (wal w) = directory W.
Proof. destruct sp as [[f c]|]; [intros (_ & _ & -> & _)|intros (-> & _)]; done. Qed.

Lemma removed_so_far_made st w : removed_so_far st w → (going st = true → p = None) → cut_made (None, st) w.
Proof.
  intros (k & sp & Hw & Hr & Hg & Hc) Hp'. split; [|split].
  - eapply spared_survives; [exact Hw|done|by apply in_doomed].
  - by eapply spared_directory.
  - cbn. intros H. specialize (Hg H). specialize (Hp' H). rewrite take_ge in Hw, Hr by done. exists sp. rewrite Hp'. cbn. rewrite app_nil_r.
    split_and!; [|done|by intros f c E; eapply Hc]. eapply spared_weaken; [exact Hw|]. intros d. rewrite Hp', app_nil_r. done.
Qed.

Lemma size_step a k : a ∈ A ++ part_seg p →
  spec (mid F (take k doomed_list) [] W (no_more (r_name <$> A ++ part_seg p))) (on_dev (log_size (r_name a)))
    (λ z w, z = zlen (r_bytes a) ∧ mid F (take k doomed_list) [] W (no_more (r_name <$> A ++ part_seg p)) w)
    (λ w, survives (kept_segs LA p) (dev w)).
Proof.
  intros Ha. eapply spec_weaken.
  - exact (reading_mid _ (λ G z, ∃ c, G !! r_name a = Some c ∧ z = zlen c) F (take k doomed_list) [] W _ (no_more_calm (r_name <$> A ++ part_seg p)) (log_size_law (r_name a))).
  - done.
  - intros z w [(c & Hc & ->) Hw]. split; [|done]. destruct Hw as (_ & Hk & _). rewrite Hk in Hc; [|intros Hin%in_doomed|apply not_elem_of_nil].
    + destruct (stored_seg _ _ _ HK a) as (_ & _ & Hf); [rewrite EK, app_assoc; apply elem_of_app; by left|]. rewrite Hf in Hc. by injection Hc as <-.
    + pose proof names_apart as Hnd. rewrite app_assoc, <-fmap_app in Hnd. apply NoDup_app in Hnd as (_ & Hd & _). apply (Hd (r_name a)); [by apply list_elem_of_fmap_2|done].
  - intros w Hw. eapply (mid_survives _ []); [exact Hw|by apply in_doomed|by intros g ?%not_elem_of_nil].
Qed.

Lemma cut_step st : spec (removed_so_far st)
  (match cut with
   | Some (cut_name, cut_offset) =>
       if going st then
         current ← on_dev (log_size cut_name);
         if cut_offset <? current then
           rolled ← roll_cut_segment cut_name cut_offset;
           let '(fresh, gone, was_deferred) := rolled in
           mret (Some fresh,
             if (gone : bool) then
               MkRemoval (removed st ++ [cut_name]) (if (was_deferred : bool) then deferred st ++ [cut_name] else deferred st)
                 (bytes_removed st + (current - cut_offset)) true
             else MkRemoval (removed st) (deferred st ++ [cut_name]) (bytes_removed st) false)
         else mret (None, st)
       else mret (None, st)
   | None => mret (None, st)
   end)
  cut_made (λ w, survives (kept_segs LA p) (dev w)).
Proof.
  destruct cut as [[n o]|] eqn:Ec; [|intros w Hw; apply removed_so_far_made; [done|]; intros _; by destruct p as [[s es]|]].
  destruct (going st) eqn:Hgo; [|intros w Hw; apply removed_so_far_made; [done|]; by rewrite Hgo].
  intros w (k & sp & Hw & Hr & Hk & Hc). specialize (Hk Hgo). assert (sp = None) as ->.
  { destruct sp as [[f c]|]; [|done]. destruct (Hc f c eq_refl) as [E _]. congruence. }
  cbn [spared] in Hw. clear Hc. revert w Hw.
  assert (∃ a, a ∈ A ++ part_seg p ∧ r_name a = n ∧ match p with Some (s, es) => a = s ∧ o = span es | None => o = zlen (r_bytes a) end) as (a & Ha & <- & Ho).
  { unfold cut_after in Ec. destruct p as [[s es]|].
    - injection Ec as <- <-. exists s. split_and!; [apply elem_of_app; right; by left|done..].
    - destruct (last LA) as [u|] eqn:El; [|done]. injection Ec as <- <-.
      destruct (kept_seg A LA HA u) as (a & Ha & _ & Hn & _ & Hcl); [rewrite last_lookup in El; by eapply list_elem_of_lookup_2|].
      exists a. split_and!; [apply elem_of_app; by left|done|]. by apply clean_span in Hcl. }
  eapply spec_bind; [apply size_step, Ha|]. intros z. apply spec_fact. intros ->.
  destruct (part_cases p) as [(s & es & Ep)|Ep]; rewrite Ep in Ho.
  - destruct Ho as [-> ->]. destruct (Hp s es Ep) as (Hne & Hcl & Hsp). rewrite (proj2 (Z.ltb_lt _ _)) by lia.
    assert (slice (r_bytes s) 0 (span es) = take (Z.to_nat (span es)) (r_bytes s)) as Esl.
    { unfold slice. by rewrite Z.sub_0_r. }
    assert (r_name s ∉ r_name <$> A) as HnA.
    { pose proof names_apart as Hnd. rewrite Ep in Hnd. apply NoDup_app in Hnd as (_ & Hd & _). intros Hin. apply (Hd _ Hin). by left. }
    assert (∀ g, g ∈ take k doomed_list ++ [r_name s] → g ∈ r_name <$> part_seg p ++ Dr) as Hin.
    { intros g [Hg%in_doomed|Hg%list_elem_of_singleton]%elem_of_app; rewrite fmap_app; apply elem_of_app; [by right|]. left. rewrite Ep, Hg. by left. }
    eapply spec_bind; [eapply spec_weaken; [apply (roll_at F W _ (no_more_calm _) fresh_steady (take k doomed_list) (no_more (r_name <$> A)) (r_name s) (r_bytes s) (span es))| | |]|].
    + intros g Hg. apply names_there. rewrite !elem_of_app. right. right. by eapply in_doomed.
    + intros Hg%in_doomed. pose proof names_apart as Hnd. rewrite Ep in Hnd. apply NoDup_app in Hnd as (_ & _ & Hnd). apply NoDup_app in Hnd as (_ & Hd & _).
      apply (Hd (r_name s)); [by left|done].
    + destruct (stored_seg _ _ _ HK s) as (_ & _ & Hf); [rewrite EK, Ep; apply elem_of_app; right; by left|done].
    + intros d Hd g x Hg. apply Hd. rewrite fmap_app. apply elem_of_app. by left.
    + by apply no_more_steady.
    + done.
    + intros out v H. exact H.
    + intros v [Hv|(f & D' & HD' & Hv)].
      * destruct Hv as (X & W' & HX & Hm). eapply mid_survives; [exact Hm|by apply in_doomed|]. intros g Hg%HX. by apply fresh_name.
      * rewrite Esl in Hv. eapply rolled_survives; [exact Ep|exact Hv|]. intros g Hg. apply Hin. destruct HD' as [-> | ->]; [apply elem_of_app; by left|done].
    + intros [[fresh gone] was_deferred] v Hv. cbn [fst snd] in Hv. rewrite Esl in Hv. split; [|split].
      * eapply rolled_survives; [exact Ep|exact Hv|]. intros g Hg. apply Hin. destruct gone; [done|apply elem_of_app; by left].
      * by eapply spared_directory.
      * destruct gone; [|done]. intros _. rewrite take_ge in Hv, Hr by done. exists (Some (fresh, take (Z.to_nat (span es)) (r_bytes s))).
        rewrite Ep. cbn [part_seg fmap list_fmap snd removed]. rewrite Hr. split_and!; [exact Hv|done|]. by exists fresh.
  - subst o. rewrite Z.ltb_irrefl. intros v Hv. apply removed_so_far_made; [|done]. exists k, None. split_and!; [exact Hv|done|done|done].
Qed.

(** What is left is a log again, of the records that were kept. *)
Lemma gone_holds st w : gone_through st w → contiguous None (log_records LA ++ part_records p) →
  ∃ L, log_records L = log_records LA ++ part_records p ∧
    (Forall (λ r, 0 < lsn r) (log_records L) → holds (directory W) (files (dev w)) L).
Proof.
  intros (sp & Hw & _ & Hsp) Hc.
  set (extra := (λ x : pystr * bytes, (next_number (index W), x.1, x.2, match p with Some (_, es) => es | None => [] end)) <$> sp).
  assert (log_records (extra_log extra) = part_records p) as Er.
  { unfold extra. destruct (part_cases p) as [(s & es & Ep)|Ep]; rewrite Ep in Hsp |- *.
    - destruct Hsp as [f ->]. destruct (Hp s es Ep) as (Hne & _). cbn. rewrite decide_False by done. apply app_nil_r.
    - destruct sp; [|done]. by cbn. }
  exists (LA ++ extra_log extra). assert (log_records (LA ++ extra_log extra) = log_records LA ++ part_records p) as El by (by rewrite log_records_app, Er).
  split; [done|]. intros Hpos. assert (∀ g, g ∈ r_name <$> part_seg p ++ Dr ↔ g ∈ doomed_list ++ (r_name <$> part_seg p)) as Hdr.
  { intros g. rewrite fmap_app, !elem_of_app, elem_of_reverse. tauto. }
  apply (kept_holds (directory W) F _ K A (part_seg p ++ Dr) LA extra HK EK HA); [| | |by rewrite El|done].
  - intros g Hg Hx. rewrite Hdr in Hg. unfold extra in Hx. destruct sp as [[f c]|].
    + destruct Hw as (_ & _ & _ & Hk & _). apply Hk; [done|]. intros Hin%list_elem_of_singleton. by eapply Hx.
    + destruct Hw as (_ & Hk & _). apply Hk; [done|apply not_elem_of_nil].
  - intros g Hg. rewrite Hdr in Hg. destruct sp as [[f c]|]; [destruct Hw as (_ & _ & _ & _ & Hg' & _)|destruct Hw as (_ & _ & Hg' & _)]; by apply Hg'.
  - intros m f c es E. unfold extra in E. destruct sp as [[f' c']|]; [|done]. injection E as <- <- <- <-.
    destruct Hw as (Hn & HF & _ & _ & _ & _ & Hfile & _). destruct (fresh_name f' Hn) as [Hpf _]. split_and!; [done..|apply (sv_next _ _ _ Hsv)|done|].
    destruct (part_cases p) as [(s & es & Ep)|Ep]; rewrite Ep in Hsp |- *.
    + destruct Hsp as [f [= -> ->]]. by destruct (Hp s es Ep) as (_ & Hcl & _).
    + rewrite (Hsp _ _ eq_refl). constructor.
Qed.

Lemma survives_shrunk L F2 R2 v w : survives L (dev v) → files (dev v) = F2 → recoverable (dev v) = R2 → shrunk F2 R2 w → survives L (dev w).
Proof.
  intros H <- <- [HF HR] u Hu. destruct (H u Hu) as (f & c & m & Hpf & Hf & Hcl & Hx). exists f, c, m. rewrite HF. split_and!; [done..|].
  destruct Hx as [[? Hx]|[? Hx]]; [left|right]; (split; [done|]; intros x ?%HR; by apply Hx).
Qed.
End whole.

Section repair.
Context {Dev : Type} {SD : StorageDevice Dev} {SL : StorageLaws Dev} {LL : LogLaws Dev}.
#[local] Abbreviation World := (@WalManager.World Dev).
Context (d0 : Dev) (F : Files) (R : pystr → option bytes → Prop) (W : Wal) (K : list Raw) (t : Z).
Context (HK : stored (directory W) F K) (Hi : indexed W = true → surveyed F K W).

(** All the segments; or those before one that is too long to be read, or whose read the device, on
    its way from [d0] to [d], answered with a corruption. *)
Definition readable (d : Dev) (K0 rest : list Raw) : Prop :=
  K = K0 ++ rest ∧ (rest = [] ∨ ∃ x, head rest = Some x ∧ refused d0 x d).

(** Whatever came of it: the records that should stay are still there, and would be after a loss of power. *)
Definition records_survive (w : World) : Prop :=
  ∃ K0 rest L, readable (dev w) K0 rest ∧ log_records L = good_records t (raw_items K0 None) ∧ survives F R W L (dev w).

(** It came to its end: the log is those records, and the manager knows it. *)
Definition repaired (report : TruncationReport) (w : World) : Prop :=
  ∃ K0 rest L, readable (dev w) K0 rest ∧ log_records L = good_records t (raw_items K0 None) ∧
    (Forall (λ r, 0 < lsn r) (log_records L) → holds (directory W) (files (dev w)) L ∧
       (removed_segments report ≠ [] → synced (files (dev w)) L (wal w) ∧
          (damage (index (wal w)) = None → t_last_lsn report = last_of NO_LSN (log_records L)))) ∧
    (damage (index (wal w)) = None → append_uncertain (wal w) = false).

Lemma unchanged_survive w : files (dev w) = F → recoverable (dev w) = R → records_survive w.
Proof.
  intros HF HR. destruct (raw_split t K None None) as (LA & p & B & Hs & Hg & _); [intros s Hin; apply (stored_seg _ _ _ HK s Hin)|].
  exists K, [], (kept_segs LA p). split; [split; [by rewrite app_nil_r|by left]|]. split.
  { unfold kept_segs. rewrite log_records_app, Hg. f_equal. destruct p as [[s es]|]; [apply app_nil_r|done]. }
  destruct (split_names _ _ _ _ _ _ Hs) as (A & EA & HA).
  eapply (mid_survives F R W K A B LA p HK EA HA _ [] [] (wal w)).
  - split_and!; [done|by intros g _ _; rewrite HF|by intros g ?%not_elem_of_nil|]. intros g x _ Hx. by rewrite <-HR.
  - by intros g ?%not_elem_of_nil.
  - by intros g ?%not_elem_of_nil.
  Unshelve. intros s es ->. by eapply split_part_ok.
Qed.

Lemma undecided_survive w : undecided F R W w → records_survive w.
Proof. intros (u & HF & HR & _). by apply unchanged_survive. Qed.
Lemma at_survive W' w : at_ F R W' w → records_survive w.
Proof. intros (HF & HR & _). by apply unchanged_survive. Qed.

(** What a repair that came to its end leaves, once the cut is found. *)
Definition kept_log (LA : list Seg) (p : option (Raw * list (Z * WalRecord))) (report : TruncationReport) (w : World) : Prop :=
  ∃ L, log_records L = log_records LA ++ part_records p ∧
    (Forall (λ r, 0 < lsn r) (log_records L) → holds (directory W) (files (dev w)) L ∧
       (removed_segments report ≠ [] → synced (files (dev w)) L (wal w) ∧
          (damage (index (wal w)) = None → t_last_lsn report = last_of NO_LSN (log_records L)))) ∧
    (damage (index (wal w)) = None → append_uncertain (wal w) = false).

Lemma truncate_at : spec (from_ d0 F R W) (truncate_after t)
  (λ report w, records_survive w ∧ (completed report = true → repaired report w)) records_survive.
Proof.
  unfold truncate_after. eapply bind_from; [auto with trails|apply require_open_at|apply at_survive|]. intros [] _.
  eapply bind_from; [auto with trails|apply lift_at|apply at_survive|]. intros t' Ht.
  assert (t' = t) as -> by (unfold require_lsn in Ht; destruct (t <? 0); [done|by injection Ht as <-]).
  eapply spec_bind; [eapply spec_weaken; [eapply (spec_from _ d0 F R W _ _ (trails_refresh None)); by apply (refresh_raw_at F R W K)|done|intros a w H; exact H|intros w [H _]; by apply undecided_survive]|].
  intros answer w ((W1 & Hw & (Edir & _) & Hsv) & Hr0 & Hf0). assert (stored (directory W1) F K) as HK1 by (by rewrite Edir).
  pose proof (find_cut_at t d0 F R W1 K HK1 Hsv w ltac:(by split)) as Hcut.
  unfold mbind at 1, m_bind at 1. destruct (find_cut t w) as [[c|e] w1]; [|by eapply at_survive].
  destruct Hcut as [(K0 & rest & LA & p & B & EK & Hrest & Hsplit & -> & Hgood) Hw1]. clear Hw Hr0 Hf0 w.
  destruct (split_names _ _ _ _ _ _ Hsplit) as (A & EA & HA). destruct (split_records _ _ _ _ _ _ Hsplit) as [Hcon _].
  assert (K = A ++ part_seg p ++ (B ++ rest)) as EK1 by (rewrite EK, EA, <-!app_assoc; done).
  assert (∀ s es, p = Some (s, es) → es ≠ [] ∧ clean (take (Z.to_nat (span es)) (r_bytes s)) es ∧ 0 < span es < zlen (r_bytes s)) as Hp.
  { intros s es ->. by eapply split_part_ok. }
  assert (∀ w, reaches (dev w1) (dev w) → readable (dev w) K0 rest) as Hread.
  { intros w Hr. split; [done|]. destruct Hrest as [?|(x & Hx & Hu)]; [by left|right]. exists x. split; [done|]. by eapply unread_to. }
  assert (∀ w, survives F R W1 (kept_segs LA p) (dev w) → reaches (dev w1) (dev w) → records_survive w) as HE.
  { intros w Hw Hr. exists K0, rest, (kept_segs LA p). split; [by apply Hread|]. split.
    - unfold kept_segs. rewrite log_records_app, Hgood. f_equal. destruct p as [[s es]|]; [apply app_nil_r|done].
    - unfold survives in *. by rewrite <-Edir. }
  assert (∀ w, at_ F R W1 w → survives F R W1 (kept_segs LA p) (dev w)) as Hsame.
  { intros w (HF & HR & _). eapply (mid_survives F R W1 K A (B ++ rest) LA p HK1 EK1 HA Hp [] [] (wal w)).
    - split_and!; [done|by intros g _ _; rewrite HF|by intros g ?%not_elem_of_nil|]. intros g x _ Hx. by rewrite <-HR.
    - by intros g ?%not_elem_of_nil.
    - by intros g ?%not_elem_of_nil. }
  apply (spec_then _ F R W1 w1 (λ report w, survives F R W1 (kept_segs LA p) (dev w) ∧ (completed report = true → kept_log LA p report w)) _
    (λ w, survives F R W1 (kept_segs LA p) (dev w))); [exact Hw1|trail| | |].
  - eapply spec_bind; [eapply spec_weaken; [by apply (count_records_at F R W1)|done|intros a w H; exact H|by apply Hsame]|]. intros before_count.
    eapply bind_at; [apply (get_at _ _ _ _ (λ w, survives F R W1 (kept_segs LA p) (dev w)))|done|]. intros i ->. cbv zeta.
    eapply spec_bind; [eapply spec_weaken; [exact (remove_step F R W1 K A (B ++ rest) LA p HK1 Hsv EK1 HA Hp)|done|intros st w H; exact H|done]|].
    intros st. eapply spec_bind; [eapply spec_weaken; [exact (cut_step F R W1 K A (B ++ rest) LA p HK1 Hsv EK1 HA Hp st)|done|intros x w H; exact H|done]|].
    intros [truncated st']. apply spec_here. intros v (Hv & Hdir & Hgone). cbn [snd] in Hgone.
    eapply spec_weaken; [apply conclude_at|done| |].
    + intros report w (Hsh & Hcomp & _ & Hrem & Hlast & Hsync & Hun). split; [by eapply survives_shrunk|].
      rewrite Hcomp. intros Hgo. destruct (gone_holds F R W1 K A (B ++ rest) LA p HK1 Hsv EK1 HA Hp st' v (Hgone Hgo) Hcon) as (L & EL & HL).
      exists L. split; [done|]. split; [|by apply Hun]. intros Hpos. specialize (HL Hpos).
      destruct Hsh as [HF _]. rewrite HF, Edir in *. split; [done|]. intros Hne. rewrite Hdir in Hsync.
      assert (synced (files (dev v)) L (wal w)) as Hs.
      { apply Hsync; [done|]. rewrite Hrem in Hne. intros E. by rewrite E in Hne. }
      split; [done|]. intros Hd. rewrite Hlast. by apply tracks_last, (synced_tracks _ _ _ Hs).
    + intros w Hsh. by eapply survives_shrunk.
  - intros report w [Hw Hk] Hr. split; [by apply HE|]. intros Hc. destruct (Hk Hc) as (L & EL & H). exists K0, rest, L.
    split; [by apply Hread|]. split; [by rewrite Hgood|done].
  - intros w Hw Hr. by apply HE.
Qed.
End repair.

(** ** Properties *)

(** C18: a repair that comes to its end leaves exactly the records that are good.  Whatever bytes the
    segments hold, when [truncate_after] reports that it completed, the files are a log again, of
    the records that scan without a failure up to the first number past the target; when it had
    something to remove, the manager's accounting is the one of that log and the report names its
    last number; the latch that refuses appends is off unless the log still reports damage.  Only a
    segment that is too long to be read in one piece, or whose read the device answered in this very
    run with a corruption, counts, with everything after it, as not there ([readable]): a device that
    answers its reads, as the one in memory does ([memory_readable]), has all its good records kept.
    (A log whose first record carries the number zero, which no append writes, is left out.) *)
Theorem truncate_exact {Dev} {SD : StorageDevice Dev} {SL : StorageLaws Dev} {LL : LogLaws Dev}
    (d0 : Dev) (F : gmap pystr bytes) (R : pystr → option bytes → Prop) (W : Wal) (K : list Raw) (t : Z)
    (HK : stored (directory W) F K) (Hi : indexed W = true → surveyed F K W) :
  spec (λ w, at_ F R W w ∧ dev w = d0) (truncate_after t) (λ report w, completed report = true → repaired d0 W K t report w) (λ _, True).
Proof. eapply spec_weaken; [by apply truncate_at|by apply from_start|by intros report w []|done]. Qed.

(** C19: no repair loses a record it should keep.  Whatever bytes the segments hold and wherever
    [truncate_after] stops, completed, giving up or raising, the records that scan without a failure
    up to the first number past the target are still on the device, in order, in runs that start
    some segment; a run is where it was, with no new way to lose it in a loss of power, or in a
    fresh segment that is there for good.  The segments scanned are all of them, unless one was too
    long to be read in one piece or the device answered the read of it in this very run with a
    corruption ([readable]). *)
Theorem truncate_keeps {Dev} {SD : StorageDevice Dev} {SL : StorageLaws Dev} {LL : LogLaws Dev}
    (d0 : Dev) (F : gmap pystr bytes) (R : pystr → option bytes → Prop) (W : Wal) (K : list Raw) (t : Z)
    (HK : stored (directory W) F K) (Hi : indexed W = true → surveyed F K W) :
  spec (λ w, at_ F R W w ∧ dev w = d0) (truncate_after t) (λ _, records_survive d0 F R W K t) (records_survive d0 F R W K t).
Proof. eapply spec_weaken; [by apply truncate_at|by apply from_start|by intros report w []|done]. Qed.

(** On the device in memory every segment that is not too long is read. *)
Lemma memory_readable (d0 d : Memory.t) K K0 rest : (∀ s, s ∈ K → is_Some (files d0 !! r_name s) ∧ zlen (r_bytes s) <= MAX_SEGMENT_READ_BYTES) →
  readable d0 K d K0 rest → K0 = K ∧ rest = [].
Proof.
  intros Hall [E Hrest]. assert (rest = []) as Er; [|subst; by rewrite app_nil_r]. destruct Hrest as [?|(x & Hx & Hu)]; [done|exfalso].
  destruct (Hall x) as [Hs Hz]; [rewrite E; apply elem_of_app; right; destruct rest; [done|]; injection Hx as ->; by left|].
  destruct Hu as [?|(d1 & e & d2 & _ & Hf & Hrd & Ha & _)]; [lia|]. rewrite <-Hf in Hs. apply MemoryStorage.read_log_stored in Hrd; [|exact Hs].
  unfold absorbed in Ha. apply bool_decide_eq_true in Ha. rewrite Hrd in Ha. set_solver.
Qed.

(** A log whose last record was torn, and a segment that holds no record at all. *)
Definition torn_raws : list Raw :=
  [MkRaw 1 (str "wal/000000000001.wal") (concat sample_images ++ take 20 (encoded sample_record));
   MkRaw 2 (str "wal/000000000002.wal") (replicate 9 Byte.x07)].
Definition torn_files : gmap pystr bytes := list_to_map ((λ s, (r_name s, r_bytes s)) <$> torn_raws).
Definition torn_world : @WalManager.World Memory.t := MkWorld (Memory.Mk 512 None torn_files {[str "wal"]} false) fresh_wal.

Lemma torn_stored : stored (directory fresh_wal) torn_files torn_raws.
Proof.
  constructor.
  - intros s Hs. unfold torn_raws in Hs. apply elem_of_cons in Hs as [-> |Hs]; [by vm_compute|]. apply list_elem_of_singleton in Hs as ->. by vm_compute.
  - by repeat constructor.
  - intros n f [[c Hc] _]. left. unfold torn_files in Hc. apply elem_of_list_to_map_2, list_elem_of_fmap in Hc as (s & [= -> ->] & Hs). by exists s.
Qed.

Lemma torn_at : at_ torn_files (recoverable (dev torn_world)) fresh_wal torn_world.
Proof. by split_and!. Qed.

Lemma torn_short s : s ∈ torn_raws → is_Some (files (dev torn_world) !! r_name s) ∧ zlen (r_bytes s) <= MAX_SEGMENT_READ_BYTES.
Proof.
  intros [-> |Hs]%elem_of_cons; [|apply list_elem_of_singleton in Hs as ->].
  all: split; [by eexists; vm_compute|apply Z.leb_le; vm_compute; reflexivity].
Qed.

Lemma torn_good : good_records 5 (raw_items torn_raws None) = sample_batch.
Proof. vm_compute. reflexivity. Qed.

Lemma truncate_exact_witness : ∃ report w L, truncate_after 5 torn_world = (Ok report, w) ∧ completed report = true ∧
  removed_segments report = r_name <$> torn_raws ∧ holds (str "wal") (files (dev w)) L ∧ log_records L = sample_batch.
Proof.
  pose proof (truncate_exact (dev torn_world) torn_files _ fresh_wal torn_raws 5 torn_stored ltac:(done) _ (conj torn_at eq_refl)) as H.
  assert (match (truncate_after 5 torn_world).1 with Ok r => completed r = true ∧ removed_segments r = r_name <$> torn_raws | Err _ => False end) as E
    by (vm_compute; by split).
  destruct (truncate_after 5 torn_world) as [[report|e] w]; [|destruct E]. destruct E as [E1 E2].
  destruct (H E1) as (K0 & rest & L & Hread & EL & Hpos & _). apply (memory_readable _ _ _ _ _ torn_short) in Hread as [-> _]. rewrite torn_good in EL.
  exists report, w, L. split; [reflexivity|]. split; [exact E1|]. split; [exact E2|]. split; [|exact EL].
  rewrite EL in Hpos. apply Hpos. apply (bool_decide_unpack _). vm_compute. exact I.
Defined.

Lemma truncate_keeps_witness : ∃ w L, (truncate_after 5 torn_world).2 = w ∧ log_records L = sample_batch ∧
  survives torn_files (recoverable (dev torn_world)) fresh_wal L (dev w).
Proof.
  pose proof (truncate_keeps (dev torn_world) torn_files _ fresh_wal torn_raws 5 torn_stored ltac:(done) _ (conj torn_at eq_refl)) as H.
  exists (truncate_after 5 torn_world).2. assert (records_survive (dev torn_world) torn_files (recoverable (dev torn_world)) fresh_wal torn_raws 5 (truncate_after 5 torn_world).2) as Hw
    by (revert H; destruct (truncate_after 5 torn_world) as [[report|e] w]; intros H; exact H).
  clear H. destruct Hw as (K0 & rest & L & Hread & EL & Hs). apply (memory_readable _ _ _ _ _ torn_short) in Hread as [-> _]. rewrite torn_good in EL.
  exists L. split; [reflexivity|]. split; [exact EL|exact Hs].
Defined.
