(* ===== verification/Commit.v ===== *)
(** Optimistic commit: the part of src/src/okto_grafx/engine/txn_manager.py that decides whether a
    transaction may commit and puts its records in the log.

    The conflict predicate ([find_conflict]), what keeps it honest when segments were recycled
    ([require_log_retains_from]), the declaration of the pages a commit is about to overwrite
    ([declare_page_interest]) and the check that nothing else changed while rows were materialised
    ([materialized_page_delta]), the COMMIT record, and [commit_window], the order in which the
    commit section runs them over the log manager.  What the heap and the index contribute to a
    batch, the rows written, the pages the pool saw modified and the records of their effects, are
    arguments. *)

From S2P Require Import Prelude Ids Layout Utf8 WalRecord CommitPayload Segment Intents TxnContext Recovery Storage MemoryStorage WalScan WalManager WalTheorems WalAppend WalRead WalRecycle.

(** ** The conflict predicate *)

Section occ.
Context {Dev : Type} {SD : StorageDevice Dev} {V : Type} {SV : Schema V} (content : Z → bytes).
#[local] Abbreviation World := (@WalManager.World Dev).
Abbreviation Txn := (TransactionContext V).

(** The loop over [read_from(floor + 1)]: what is still unknown, or the partitions in conflict. *)
Definition conflict_consumer (interested : gset Z) (floor : Z) (found : option (list Z)) (item : ScanItem) : verdict (option (list Z)) :=
  match item_failure item with
  | Some f => Refuse (as_error f)
  | None =>
      match item_record item with
      | None => More found
      | Some r =>
          if lsn r <? floor + 1 then More found
          else if negb (record_type r =? record_type_value COMMIT) then More found
          else if lsn r <=? floor then More found
          else
            match CommitPayload.decode (payload r) with
            | Err e => Refuse e
            | Ok p =>
                let overlap := interested ∩ list_to_set (CommitPayload.write_partitions p) in
                if decide (overlap = ∅) then More found else Halt (Some (merge_sort Z.le (elements overlap)))
            end
      end
  end.

Definition require_log_retains_from (start : Z) : M World () :=
  segments ← segments_;
  match filter (λ s, Segment.first_lsn s ≠ NO_LSN) segments with
  | [] => mret ()
  | lowest :: _ =>
      if start <? Segment.first_lsn lowest then
        last ← last_lsn_;
        if start <=? last then lift (raise GrafxWriteConflict "") else mret ()
      else mret ()
  end.

Definition find_conflict (c : Txn) (interested_partitions : option (gset Z)) (baseline_lsn : option Z) : M World (option (list Z)) :=
  let interested := default (read_partitions c ∪ write_partitions c) interested_partitions in
  if decide (interested = ∅) then mret None
  else
    let floor := default (Snapshot.read_lsn (snapshot c)) baseline_lsn in
    if floor <? Snapshot.read_lsn (snapshot c) then lift (raise GrafxTransactionStateError "baseline_lsn")
    else
      _ ← require_log_retains_from (floor + 1);
      reading_from (conflict_consumer interested floor) None (floor + 1).

(** ** The pages of a commit *)

(** One heap change, as far as the page interest goes: the version it created and the version it
    ended; the row values that the index reads off it are not kept. *)
Record RowWrite := MkRowWrite { born : option RecordRef.t; ended : option RecordRef.t }.

(** [_pages_touched_by]. *)
Definition pages_touched_by (rows : list RowWrite) : list Z :=
  merge_sort Z.le (remove_dups (rows ≫= λ row, RecordRef.page <$> (option_list (born row) ++ option_list (ended row)))).

(** The order of tuples, a file name first. *)
Definition location_le (a b : location) : Prop := (str_le a.1 b.1 ∧ a.1 ≠ b.1) ∨ (a.1 = b.1 ∧ a.2 <= b.2).

#[export] Instance location_le_dec : RelDecision location_le.
Proof. intros a b. unfold location_le. apply _. Defined.

Definition staged_pages (c : Txn) : list location := merge_sort location_le (elements (dom (page_images c))).

(** [txn.write_partitions.add(page_partition(file, page_index))] for each page. *)
Fixpoint note_pages (c : Txn) (pages : list location) : result Txn :=
  match pages with
  | [] => Ok c
  | l :: pages =>
      partition ← page_partition l.1 l.2;
      note_pages (with_partitions c (read_partitions c) ({[partition]} ∪ write_partitions c)) pages
  end.

(** The context with the interests it now has, and the pages materialisation brought. *)
Definition declare_page_interest (heap_file : pystr) (c : Txn) (rows : list RowWrite) (attempt_pages : list location)
    : result (Txn * gset location) :=
  let heap_pages := (λ i, (heap_file, i)) <$> pages_touched_by rows in
  c ← note_pages c (staged_pages c);
  c ← note_pages c heap_pages;
  c ← note_pages c attempt_pages;
  if wrote c && (bool_decide (read_partitions c = ∅) && bool_decide (write_partitions c = ∅))
  then raise GrafxTransactionStateError "write_partitions"
  else Ok (c, list_to_set (heap_pages ++ attempt_pages)).

Definition page_partitions (pages : gset location) : result (gset Z) :=
  partitions ← traverse (λ l : location, page_partition l.1 l.2) (elements pages); Ok (list_to_set partitions).

Definition materialized_page_delta (c : Txn) (snapshot_interest : gset Z) (pre_staged_pages materialized_pages : gset location)
    : result (gset Z) :=
  let current_staged_pages : gset location := list_to_set (staged_pages c) in
  let staged_drift := (current_staged_pages ∖ pre_staged_pages) ∪ (pre_staged_pages ∖ current_staged_pages) in
  let staged_overlap := pre_staged_pages ∩ materialized_pages in
  fresh_partitions ← page_partitions (materialized_pages ∖ pre_staged_pages);
  let current_interest := read_partitions c ∪ write_partitions c in
  let missing := snapshot_interest ∖ current_interest in
  let added := current_interest ∖ snapshot_interest in
  let eligible := fresh_partitions ∖ snapshot_interest in
  if bool_decide (missing ≠ ∅) || bool_decide (added ≠ eligible) || bool_decide (staged_drift ≠ ∅) || bool_decide (staged_overlap ≠ ∅)
  then raise GrafxTransactionStateError "transaction_interest"
  else Ok eligible.

(** ** The batch *)

(** The last record of [_build_records]; [staged] are all the pages the batch logs. *)
Definition commit_record (ids : FileIdMap.t) (descriptor : pystr) (c : Txn) (epoch : Z) (staged : list location) : result WalRecord :=
  touches ← traverse (λ l : location, id ← FileIdMap.id_of ids l.1; touch_post_init (Touch id l.2)) staged;
  p ← CommitPayload.build (Snapshot.read_lsn (snapshot c)) (elements (read_partitions c)) (elements (write_partitions c)) touches;
  payload ← CommitPayload.encode p;
  post_init (WalRecord.Mk (record_type_value COMMIT) payload descriptor NO_LSN epoch (txn c) 0 WAL_LEGACY_FORMAT_VERSION).

Definition validate_wal_batch_budget (max_wal_batch_bytes : option Z) (records : list WalRecord) : result () :=
  match max_wal_batch_bytes with
  | None => Ok ()
  | Some limit =>
      lengths ← traverse encoded_length records;
      if foldr Z.add 0 lengths <=? limit then Ok () else raise GrafxTransactionBudgetExceeded "max_wal_batch_bytes"
  end.

Definition require_forward_commit (committed published : Z) : result Z :=
  if published <? committed then Ok committed else raise GrafxTransactionStateError "csn".

(** ** The commit window *)

(** [with self._hold_wal_tail():]. *)
Definition hold_tail {A} (m : M World A) : M World A :=
  _ ← hold_tail_enter;
  outcome ← attempt m;
  _ ← hold_tail_exit;
  lift outcome.

Inductive Outcome := Conflicted (partitions : list Z) | Committed (csn : Z).

(** What the other parts of a commit bring: what the lease answers when the section is entered and
    before the append, the rows written and the pages the pool saw modified, the effect records as
    they are first built and as they are appended, and the pages they log. *)
Record Materialized := MkMaterialized {
  m_admission : result ();
  m_lease : result ();
  m_rows : list RowWrite;
  m_attempt_pages : list location;
  m_raw : list WalRecord;
  m_effects : list WalRecord;
  m_staged : list location
}.

(** What one manager is configured with. *)
Record Config := MkConfig {
  heap_file_ : pystr;
  file_ids : FileIdMap.t;
  cfg_descriptor : pystr;
  max_wal_batch_bytes : option Z
}.

(** From the first validation to the barrier, in a commit that has no identity range to reserve (a
    reservation is a commit of its own, after which the first validation is run once more over what
    it appended); [current] is the published number the commit started from, [epoch] the one of the
    lease, [wall] the clock.  Between the two validations the code also settles its read view and
    brings its indexes up to date. *)
Definition commit_window (cfg : Config) (wall epoch current : Z) (c : Txn) (m : Materialized) : M World (Txn * Outcome) :=
  hold_tail (
    _ ← lift (m_admission m);
    let snapshot_interest := read_partitions c ∪ write_partitions c in
    let pre_staged_pages : gset location := list_to_set (staged_pages c) in
    conflict ← find_conflict c (Some snapshot_interest) None;
    match conflict with
    | Some partitions => mret (mark_conflicted c, Conflicted partitions)
    | None =>
        declared ← lift (declare_page_interest (heap_file_ cfg) c (m_rows m) (m_attempt_pages m));
        let '(c, materialized_pages) := declared in
        materialized_interest ← lift (materialized_page_delta c snapshot_interest pre_staged_pages materialized_pages);
        conflict ← find_conflict c (Some materialized_interest) (Some current);
        match conflict with
        | Some partitions => mret (mark_conflicted c, Conflicted partitions)
        | None =>
            commit ← lift (commit_record (file_ids cfg) (cfg_descriptor cfg) c epoch (m_staged m));
            c ← lift (validate_budgets content c);
            planned ← planned_terminal_lsn (m_raw m ++ [commit]);
            _ ← lift (validate_wal_batch_budget (max_wal_batch_bytes cfg) (m_effects m ++ [commit]));
            _ ← lift (m_lease m);
            committed ← append_many wall (m_effects m ++ [commit]) (Some planned);
            _ ← lift (require_forward_commit committed current);
            _ ← barrier;
            c ← lift (bind_epoch c epoch);
            c ← lift (mark_committed c committed);
            mret (c, Committed committed)
        end
    end).
End occ.

(** ** What the predicate answers *)

(** A record that the predicate passes over. *)
Definition harmless (interested : gset Z) (floor : Z) (r : WalRecord) : Prop :=
  record_type r = record_type_value COMMIT → floor < lsn r →
  ∃ p, CommitPayload.decode (payload r) = Ok p ∧ interested ∩ list_to_set (CommitPayload.write_partitions p) = ∅.

(** The first record that is not: what it wrote and the commit is interested in. *)
Definition conflicting (interested : gset Z) (floor : Z) (rs : list WalRecord) (partitions : list Z) : Prop :=
  ∃ before r after p, rs = before ++ r :: after ∧ Forall (harmless interested floor) before ∧
    record_type r = record_type_value COMMIT ∧ floor < lsn r ∧ CommitPayload.decode (payload r) = Ok p ∧
    interested ∩ list_to_set (CommitPayload.write_partitions p) ≠ ∅ ∧
    partitions = merge_sort Z.le (elements (interested ∩ list_to_set (CommitPayload.write_partitions p))).

Definition answers (interested : gset Z) (floor : Z) (rs : list WalRecord) (out : option (list Z)) : Prop :=
  match out with
  | None => Forall (harmless interested floor) rs
  | Some partitions => conflicting interested floor rs partitions
  end.

(** The log holds every record past [floor] that was ever written. *)
Definition unbroken (L : list Seg) (floor : Z) : Prop :=
  match log_records L with
  | [] => True
  | r :: _ => lsn r <= floor + 1 ∨ last_of NO_LSN (log_records L) <= floor
  end.

Lemma harmless_skip interested floor r : lsn r <= floor → harmless interested floor r.
Proof. intros H _ ?. lia. Qed.

Lemma answers_app interested floor before rs out : Forall (harmless interested floor) before → answers interested floor rs out →
  answers interested floor (before ++ rs) out.
Proof.
  intros Hb. destruct out as [l|]; cbn; [|intros ?; by apply Forall_app].
  intros (b & r & a & p & -> & Hb' & H). exists (before ++ b), r, a, p. rewrite <-app_assoc. split; [done|]. split; [by apply Forall_app|done].
Qed.

Lemma consume_conflict interested floor n o es :
  match consume (conflict_consumer interested floor) None (items_of n o es) with
  | More out => out = None ∧ Forall (harmless interested floor) es.*2
  | Halt out => is_Some out ∧ ∀ rest, answers interested floor (es.*2 ++ rest) out
  | Refuse _ => True
  end.
Proof.
  revert o. induction es as [|[k r] es IH]; intros o; cbn [items_of consume]; [done|].
  assert (harmless interested floor r → ∀ o, match consume (conflict_consumer interested floor) None (items_of n o es) with
    | More out => out = None ∧ Forall (harmless interested floor) ((k, r) :: es).*2
    | Halt out => is_Some out ∧ ∀ rest, answers interested floor (((k, r) :: es).*2 ++ rest) out
    | Refuse _ => True end) as Hskip.
  { intros Hr o'. specialize (IH o'). destruct (consume _ _ _); [| |done].
    - destruct IH as [-> IH]. split; [done|]. by constructor.
    - destruct IH as [Hs IH]. split; [done|]. intros rest. apply (answers_app _ _ [r]); [by repeat constructor|apply IH]. }
  unfold conflict_consumer at 1. cbn [item_failure item_record record_item].
  destruct (Z.ltb_spec (lsn r) (floor + 1)); [apply Hskip, harmless_skip; lia|].
  destruct (Z.eqb_spec (record_type r) (record_type_value COMMIT)) as [Et|Et]; cbn [negb]; [|by apply Hskip; intros E].
  destruct (Z.leb_spec (lsn r) floor); [lia|].
  destruct (CommitPayload.decode (payload r)) as [p|e] eqn:Ep; [|done]. case_decide as Eo.
  - apply Hskip. intros _ _. by exists p.
  - split; [done|]. intros rest. cbn. exists [], r, (es.*2 ++ rest), p. split_and!; [done|done|done|lia|done|done|done].
Qed.

Lemma consume_conflict_pieces interested floor (pieces : list piece) :
  match consume (conflict_consumer interested floor) None (pieces ≫= piece_items) with
  | More out | Halt out => answers interested floor (pieces ≫= λ p : piece, p.2.*2) out
  | Refuse _ => True
  end.
Proof.
  assert (match consume (conflict_consumer interested floor) None (pieces ≫= piece_items) with
    | More out => out = None ∧ Forall (harmless interested floor) (pieces ≫= λ p : piece, p.2.*2)
    | Halt out => answers interested floor (pieces ≫= λ p : piece, p.2.*2) out
    | Refuse _ => True end) as H.
  { induction pieces as [|p pieces IH]; [done|]. rewrite !bind_cons, consume_app. unfold piece_items at 1.
    pose proof (consume_conflict interested floor p.1.1 p.1.2 p.2) as Hp. destruct (consume _ None (items_of _ _ _)) as [out|out|e]; [| |done].
    - destruct Hp as [-> Hp]. destruct (consume _ None (pieces ≫= piece_items)) as [out|out|e].
      + destruct IH as [-> IH]. split; [done|]. by apply Forall_app.
      + by apply answers_app.
      + done.
    - apply Hp. }
  destruct (consume _ _ _); [|done|done]. by destruct H as [-> H].
Qed.

Section held.
Context {Dev : Type} {SD : StorageDevice Dev} {SL : StorageLaws Dev} {LL : LogLaws Dev} {V : Type}.
#[local] Abbreviation World := (@WalManager.World Dev).
Context (F : gmap pystr bytes) (R : pystr → option bytes → Prop) (W : Wal) (L : list Seg).
Context (HL : holds (directory W) F L) (Hs : synced F L W) (Hheld : tail_hold_depth W ≠ 0).

(** While the tail is held a manager that knows the log goes by what it knows. *)
Lemma refresh_held_at : spec (at_ F R W) (refresh_tail_if_needed (Dev := Dev) None) (λ _, at_ F R W) (at_ F R W).
Proof.
  unfold refresh_tail_if_needed. eapply bind_at; [apply get_at|done|]. intros depth ->. destruct (Z.eqb_spec (tail_hold_depth W) 0); [done|].
  by intros w Hw.
Qed.

Lemma refresh_if_open_held_at : spec (at_ F R W) (refresh_if_open (Dev := Dev)) (λ _, at_ F R W) (at_ F R W).
Proof.
  unfold refresh_if_open. eapply bind_at; [apply get_at|done|]. intros b ->. destruct (opened W); [|by intros w Hw].
  eapply spec_bind; [apply refresh_held_at|]. by intros a w Hw.
Qed.

Lemma last_lsn_held_at : spec (at_ F R W) (last_lsn_ (Dev := Dev)) (λ z w, z = log_last_lsn (index W) ∧ at_ F R W w) (at_ F R W).
Proof.
  unfold last_lsn_. eapply spec_bind; [apply refresh_if_open_held_at|]. intros []. eapply bind_at; [apply get_at|done|]. intros i ->. by intros w Hw.
Qed.

Lemma segments_held_at : spec (at_ F R W) (segments_ (Dev := Dev)) (λ l w, l = segments (index W) ∧ at_ F R W w) (at_ F R W).
Proof.
  unfold segments_. eapply spec_bind; [apply refresh_if_open_held_at|]. intros []. eapply bind_at; [apply get_at|done|]. intros i ->. by intros w Hw.
Qed.

Lemma retained_first : tracks L (index W) →
  head (filter (λ s, Segment.first_lsn s ≠ NO_LSN) (segments (index W))) = seg_info <$> head L ∧
  match L with [] => True | s :: _ => ∃ r rs, log_records L = r :: rs ∧ Segment.first_lsn (seg_info s) = lsn r end.
Proof.
  intros Ht. rewrite (tracks_segments _ _ Ht). destruct L as [|s L'] eqn:EL; [done|].
  destruct (holds_seg _ _ _ HL s) as (_ & Hne & _); [by left|]. pose proof (seg_positive _ _ _ HL s ltac:(by left)) as Hpos.
  unfold seg_records in Hpos. destruct (s_entries s) as [|[k r] es] eqn:Ees; [done|]. cbn [fmap list_fmap snd] in Hpos. apply Forall_cons in Hpos as [Hr _].
  assert (Segment.first_lsn (seg_info s) = lsn r) as Ef by (unfold seg_info, seg_records; cbn; by rewrite Ees).
  split.
  - cbn [fmap list_fmap]. rewrite filter_cons_True; [done|]. rewrite Ef. unfold NO_LSN. lia.
  - exists r, (es.*2 ++ log_records L'). split; [|done]. cbn. unfold seg_records at 1. by rewrite Ees.
Qed.

Lemma retains_at start : spec (at_ F R W) (require_log_retains_from (Dev := Dev) start)
  (λ _ w, (damage (index W) = None → unbroken L (start - 1)) ∧ at_ F R W w) (at_ F R W).
Proof.
  unfold require_log_retains_from. eapply bind_at; [apply segments_held_at|done|]. intros l ->.
  assert (damage (index W) = None → _) as Hfirst by (intros Hd; apply retained_first, (synced_tracks _ _ _ Hs Hd)).
  assert (∀ Hd : damage (index W) = None, log_last_lsn (index W) = last_of NO_LSN (log_records L)) as Hlast
    by (intros Hd; apply tracks_last, (synced_tracks _ _ _ Hs Hd)).
  destruct (filter _ _) as [|lowest rest]; cbn [head] in Hfirst.
  - intros w Hw. split; [|done]. intros Hd. destruct (Hfirst Hd) as [H _]. by destruct L.
  - assert (Segment.first_lsn lowest <= start ∨ log_last_lsn (index W) < start → damage (index W) = None → unbroken L (start - 1)) as Hend.
    { intros H Hd. destruct (Hfirst Hd) as [E Hm]. rewrite (Hlast Hd) in H. destruct L as [|s L'] eqn:EL; [done|]. injection E as ->.
      destruct Hm as (r & rs & Er & Ef). unfold unbroken. rewrite Er in *. rewrite Ef in H. lia. }
    destruct (Z.ltb_spec start (Segment.first_lsn lowest)); [|intros w Hw; split; [apply Hend; by left|done]].
    eapply bind_at; [apply last_lsn_held_at|done|]. intros last ->. destruct (Z.leb_spec start (log_last_lsn (index W))); [by intros w Hw|].
    intros w Hw. split; [apply Hend; by right|done].
Qed.

Definition decided (c : TransactionContext V) (interest : gset Z) (floor : Z) (out : option (list Z)) : Prop :=
  interest = ∅ ∧ out = None ∨
  interest ≠ ∅ ∧ Snapshot.read_lsn (snapshot c) <= floor ∧ answers interest floor (log_records L) out ∧
    (damage (index W) = None → unbroken L floor).

Lemma find_conflict_at (c : TransactionContext V) interested baseline :
  spec (at_ F R W) (find_conflict c interested baseline)
    (λ out w, decided c (default (read_partitions c ∪ write_partitions c) interested) (default (Snapshot.read_lsn (snapshot c)) baseline) out ∧
       at_ F R W w) (at_ F R W).
Proof.
  unfold find_conflict. set (interest := default _ interested). set (floor := default _ baseline). case_decide as Ei.
  { intros w Hw. split; [by left|done]. }
  destruct (Z.ltb_spec floor (Snapshot.read_lsn (snapshot c))) as [Hf|Hf]; [by intros w Hw|].
  eapply bind_at; [apply retains_at|done|]. intros [] Hun. replace (floor + 1 - 1) with floor in Hun by lia.
  unfold reading_from. eapply bind_at; [apply require_open_at|done|]. intros [] _. eapply bind_at; [apply lift_at|done|]. intros st Hst.
  assert (st = floor + 1) as -> by (unfold require_lsn in Hst; case_match; [done|by injection Hst]).
  eapply spec_bind; [apply refresh_held_at|]. intros a.
  eapply spec_weaken; [apply (planned_read_at (conflict_consumer interest floor) None (floor + 1) (answers interest floor (log_records L)) F R W L HL Hs)|done| |done].
  - intros skipped pieces out -> Hskip Hout. apply answers_app.
    + eapply Forall_impl; [exact Hskip|]. cbn. intros r Hr. apply harmless_skip. lia.
    + pose proof (consume_conflict_pieces interest floor pieces) as H. destruct Hout as [E|E]; by rewrite E in H.
  - intros out w [Ho Hw]. split; [|done]. right. by split_and!.
Qed.
End held.

(** ** The record a commit leaves *)

(** The payload carries what the transaction read, what it wrote and from which snapshot. *)
Definition carries {V} (c : TransactionContext V) (p : CommitPayload.t) : Prop :=
  CommitPayload.snapshot_lsn p = Snapshot.read_lsn (snapshot c) ∧
  list_to_set (CommitPayload.read_partitions p) = read_partitions c ∧
  list_to_set (CommitPayload.write_partitions p) = write_partitions c.

Lemma sorted_set_elements (X : gset Z) : list_to_set (CommitPayload.sorted_set (elements X)) = X.
Proof. apply set_eq. intros x. rewrite elem_of_list_to_set, (proj2 (sorted_set_spec _)). by rewrite elem_of_elements. Qed.

Lemma commit_record_Ok {V} ids descriptor (c : TransactionContext V) epoch staged r :
  commit_record ids descriptor c epoch staged = Ok r →
  record_type r = record_type_value COMMIT ∧
  ∃ p, CommitPayload.decode (payload r) = Ok p ∧ carries c p.
Proof.
  unfold commit_record. intros H. apply bind_Ok in H as (touches & Ht & H). apply bind_Ok in H as (p & Hp & H). apply bind_Ok in H as (b & Hb & H).
  apply record_post_init_Ok in H as [-> _]. cbn [record_type payload]. split; [done|]. exists p.
  unfold CommitPayload.build in Hp. apply PayloadLemmas.payload_post_init_Ok in Hp as [-> Hv].
  assert (Forall PayloadLemmas.touch_ok (merge_sort CommitPayload.touch_le (remove_dups touches))) as Hto.
  { apply Forall_forall. intros t Hin. rewrite merge_sort_Permutation, elem_of_remove_dups in Hin. apply traverse_Ok in Ht.
    apply list_elem_of_lookup in Hin as [i Hi]. destruct (Forall2_lookup_r _ _ _ _ _ Ht Hi) as (l & _ & Hl).
    apply bind_Ok in Hl as (id & _ & Hl). by apply PayloadLemmas.touch_post_init_Ok in Hl as [-> ?]. }
  rewrite PayloadLemmas.encode_ok in Hb by done. injection Hb as <-. split; [by apply PayloadLemmas.payload_decode_image|].
  unfold carries. cbn. by rewrite !sorted_set_elements.
Qed.

Lemma note_pages_Ok {V} (c c' : TransactionContext V) pages : note_pages c pages = Ok c' →
  read_partitions c' = read_partitions c ∧ write_partitions c ⊆ write_partitions c' ∧ snapshot c' = snapshot c ∧ conflicts c' = conflicts c.
Proof.
  revert c. induction pages as [|l pages IH]; intros c; cbn [note_pages]; [by intros [= ->]|].
  intros (q & _ & H)%bind_Ok. apply IH in H as (-> & Hw & -> & ->). cbn in *. split_and!; [done|set_solver|done|done].
Qed.

Lemma declare_Ok {V} heap_file (c c' : TransactionContext V) rows attempt mats : declare_page_interest heap_file c rows attempt = Ok (c', mats) →
  read_partitions c' = read_partitions c ∧ write_partitions c ⊆ write_partitions c' ∧ snapshot c' = snapshot c ∧ conflicts c' = conflicts c.
Proof.
  unfold declare_page_interest. intros H. apply bind_Ok in H as (c1 & H1 & H). apply bind_Ok in H as (c2 & H2 & H). apply bind_Ok in H as (c3 & H3 & H).
  destruct (_ && _); [done|]. injection H as <- _.
  apply note_pages_Ok in H1 as (E1 & S1 & N1 & C1), H2 as (E2 & S2 & N2 & C2), H3 as (E3 & S3 & N3 & C3). split_and!; [congruence|set_solver|congruence|congruence].
Qed.

(** What a transaction is interested in. *)
Definition interest {V} (c : TransactionContext V) : gset Z := read_partitions c ∪ write_partitions c.

Lemma delta_Ok {V} (c : TransactionContext V) asked pre mats out : materialized_page_delta c asked pre mats = Ok out →
  out = interest c ∖ asked ∧ asked ⊆ interest c.
Proof.
  unfold materialized_page_delta. intros (fresh & _ & H)%bind_Ok. destruct (_ || _) eqn:Eb; [done|]. injection H as <-.
  rewrite !orb_false_iff, !bool_decide_eq_false in Eb. destruct Eb as [[[H1 H2] _] _]. unfold interest. apply dec_stable in H1, H2.
  split; [by rewrite <-H2|]. intros x Hx. destruct (decide (x ∈ read_partitions c ∪ write_partitions c)); [done|set_solver].
Qed.

Lemma canonical_same r d c : canonical_record r d = Ok c → record_type c = record_type r ∧ payload c = payload r.
Proof.
  unfold canonical_record. intros (r' & _ & H)%bind_Ok. destruct (_ || _); [by injection H as <-|].
  unfold with_descriptor in H. by apply record_post_init_Ok in H as [-> _].
Qed.

Lemma validate_budgets_Ok {V} {SV : Schema V} content (c c' : TransactionContext V) : validate_budgets content c = Ok c' → ∃ n, c' = with_payload c n.
Proof.
  unfold validate_budgets, reconcile_staged_payload_bytes. intros (? & _ & (? & _ & Hc)%bind_Ok)%bind_Ok.
  destruct (max_transaction_bytes c); [|injection Hc as <-; exists (staged_payload_bytes c); by destruct c].
  apply bind_Ok in Hc as (n & _ & (? & _ & Hc)%bind_Ok). injection Hc as <-. by exists n.
Qed.

Definition is_commit (r : WalRecord) : Prop := record_type r = record_type_value COMMIT.

Lemma renumber_app l a b : renumber l (a ++ b) = renumber l a ++ renumber (l + zlen a) b.
Proof.
  revert l. induction a as [|r a IH]; intros l; cbn [app renumber]; [by rewrite Z.add_0_r|]. rewrite IH, zlen_cons. cbn. do 3 f_equal. lia.
Qed.

Lemma renumber_type l rs : record_type <$> renumber l rs = record_type <$> rs.
Proof. revert l. induction rs as [|r rs IH]; intros l; cbn; [done|]. by rewrite IH. Qed.

(** The log after a batch of effects and a commit. *)
Lemma appended_commit (L L' : list Seg) wall f batch effects commit d :
  appended L L' wall f batch → Forall2 (λ r c, canonical_record r d = Ok c) (effects ++ [commit]) batch →
  Forall (λ r, ¬ is_commit r) effects → is_commit commit →
  ∃ new r, log_records L' = log_records L ++ new ++ [r] ∧ Forall (λ r, ¬ is_commit r) new ∧ is_commit r ∧ payload r = payload commit.
Proof.
  intros Ha Hc He Hcom. apply Forall2_app_inv_l in Hc as (b1 & b2 & H1 & H2 & ->).
  apply Forall2_cons_inv_l in H2 as (c & b3 & Hcc & Hnil & ->). apply Forall2_nil_inv_l in Hnil as ->. apply canonical_same in Hcc as [Et Ep]. unfold is_commit in Hcom. rewrite <-Et in Hcom.
  assert (∀ l, Forall (λ r, ¬ is_commit r) (renumber l b1)) as Hnew.
  { intros l. assert (Forall (λ t, t ≠ record_type_value COMMIT) (record_type <$> renumber l b1)) as H; [|by rewrite Forall_fmap in H].
    rewrite renumber_type. clear -H1 He. induction H1 as [|r c rs cs Hrc H1 IH]; [constructor|]. apply Forall_cons in He as [Hr He].
    apply canonical_same in Hrc as [E _]. constructor; [|by apply IH]. intros Hx. apply Hr. unfold is_commit. by rewrite <-E. }
  destruct Ha as [K s es -> -> _ Ees|number h es -> Ees _ [Hh _]]; rewrite renumber_app in Ees; cbn [renumber] in Ees.
  - eexists (renumber _ b1), _. rewrite !log_records_app. cbn [log_records mbind list_bind]. unfold seg_records. cbn [seg_append s_entries].
    rewrite fmap_app, Ees, !app_nil_r, !app_assoc. split_and!; [done|apply Hnew|exact Hcom|exact Ep].
  - eexists (h :: renumber _ b1), _. rewrite log_records_app. cbn [log_records mbind list_bind]. unfold seg_records. cbn [s_entries].
    rewrite Ees, app_nil_r. split_and!; [done|constructor; [|apply Hnew]|exact Hcom|exact Ep].
    unfold is_commit. rewrite Hh. done.
Qed.

(** ** The window *)

(** No commit past [floor] wrote a partition of [interest], and none was forgotten. *)
Definition validated (L : list Seg) (interest : gset Z) (floor : Z) : Prop :=
  interest = ∅ ∨ Forall (harmless interest floor) (log_records L) ∧ unbroken L floor.

Section window.
Context {Dev : Type} {SD : StorageDevice Dev} {SL : StorageLaws Dev} {LL : LogLaws Dev} {V : Type} {SV : Schema V} (content : Z → bytes).
#[local] Abbreviation World := (@WalManager.World Dev).
#[local] Abbreviation Txn := (TransactionContext V).
Implicit Types (w : World) (R : pystr → option bytes → Prop) (W : Wal).

Definition unhold w : World := MkWorld (dev w) (with_hold (tail_hold_depth (wal w) - 1) (wal w)).

Lemma synced_hold (F : gmap pystr bytes) L W (n : Z) : synced F L W → synced F L (with_hold n W).
Proof. intros [H1 H2 H3 H4 H5]. by constructor. Qed.

(** Code under a hold runs on a manager that knows the log, and goes on by what it knows. *)
Lemma hold_tail_at {A : Type} (m : M World A) (F : gmap pystr bytes) R W L Q E : holds (directory W) F L → ready F L W → 0 <= tail_hold_depth W →
  (∀ W0, passed F L W W0 → spec (at_ F R (with_hold (tail_hold_depth W + 1) W0)) m (λ a w, Q a (unhold w)) (λ w, E (unhold w))) →
  (∀ w, undecided F R W w → E w) →
  spec (at_ F R W) (hold_tail m) Q E.
Proof.
  intros HL Hr Hd Hm HE. unfold hold_tail.
  eapply (spec_bind _ _ _ (λ _ w, ∃ W0, passed F L W W0 ∧ at_ F R (with_hold (tail_hold_depth W + 1) W0) w)).
  { unfold hold_tail_enter. eapply bind_at; [apply require_open_at|intros w Hw; by apply HE, at_undecided|]. intros [] _.
    eapply bind_at; [apply (get_at _ F R W E)|done|]. intros depth ->.
    eapply (spec_bind _ _ _ (λ _ w, ∃ W0, at_ F R W0 w ∧ passed F L W W0)).
    - pose proof (refresh_if_needed_at F R W L HL Hr) as H. unfold refresh_tail_if_needed in H.
      assert (∀ P Q E (m : M World (option Z)), spec P m Q E → spec P (_ ← m; mret ()) (λ _ w, ∃ a, Q a w) E) as Hdrop.
      { intros P Q' E' m' Hm' w Hw. specialize (Hm' w Hw). unfold mbind, m_bind. destruct (m' w) as [[a|e] w']; [by exists a|done]. }
      destruct (Z.eqb_spec (tail_hold_depth W) 0) as [E0|E0].
      + eapply spec_weaken; [apply (Hdrop (at_ F R W) (refreshed F R W L None) (undecided F R W))|done| |exact HE].
        * by apply refresh_tail_at; [|apply Hr].
        * intros [] w ([z|] & Hz); [exact Hz|]. destruct Hz as [Hz _]. done.
      + intros w Hw. exists W. split; [done|]. split; [by split_and!|]. by apply Hr.
    - intros []. apply spec_ex. intros W0 w [(HF & HR & HW) Hp]. cbn. exists W0. split; [done|]. unfold at_. cbn. rewrite HW.
      destruct Hp as [(_ & _ & _ & _ & ->) _]. done. }
  intros []. apply spec_ex. intros W0 w [Hp Hw]. specialize (Hm W0 Hp w Hw). unfold mbind, m_bind, attempt, hold_tail_exit, update, modify, lift.
  by destruct (m w) as [[a|e] w'].
Qed.

(** A commit that went through: what was validated, what the log got, what is on the device. *)
Definition went_through (F : gmap pystr bytes) L W cfg (wall epoch current : Z) (c : Txn) m (c' : Txn) (csn : Z) w : Prop := ∃ L' f batch commit new r p,
  validated L (interest c) (Snapshot.read_lsn (snapshot c)) ∧ validated L (interest c' ∖ interest c) current ∧
  (read_partitions c' = read_partitions c ∧ write_partitions c ⊆ write_partitions c' ∧ state c' = COMMITTED ∧ commit_csn c' = csn) ∧
  commit_record (file_ids cfg) (cfg_descriptor cfg) c' epoch (m_staged m) = Ok commit ∧
  admitted (log_descriptor W) L (m_effects m ++ [commit]) batch ∧ appended L L' wall f batch ∧
  log_records L' = log_records L ++ new ++ [r] ∧ Forall (λ r, ¬ is_commit r) new ∧
  (is_commit r ∧ lsn r = csn ∧ current < csn ∧ CommitPayload.decode (payload r) = Ok p ∧ carries c' p) ∧
  (∀ g, g ≠ f → files (dev w) !! g = F !! g) ∧ (∀ x, recoverable (dev w) f x → x = files (dev w) !! f) ∧
  holds (directory W) (files (dev w)) L' ∧ passed (files (dev w)) L' W (wal w).

(** One that did not: nothing was written, and the partitions it lost are named. *)
Definition gave_way (F : gmap pystr bytes) R L W (current : Z) (c c' : Txn) (partitions : list Z) w : Prop :=
  conflicts c' = conflicts c + 1 ∧ (∃ W', at_ F R W' w ∧ passed F L W W') ∧
  ∃ asked floor, conflicting asked floor (log_records L) partitions ∧
    (asked = interest c ∧ floor = Snapshot.read_lsn (snapshot c) ∨
     asked ## interest c ∧ floor = current ∧ Snapshot.read_lsn (snapshot c) <= current).

Definition window_done (F : gmap pystr bytes) R L W cfg (wall epoch current : Z) (c : Txn) m (out : Txn * Outcome) w : Prop :=
  match out.2 with
  | Committed csn => went_through F L W cfg wall epoch current c m out.1 csn w
  | Conflicted partitions => gave_way F R L W current c out.1 partitions w
  end.

Lemma planned_held_at (F : gmap pystr bytes) R W rs : tail_hold_depth W ≠ 0 →
  spec (at_ F R W) (planned_terminal_lsn (Dev := Dev) rs) (λ _ w, damage (index W) = None ∧ at_ F R W w) (at_ F R W).
Proof.
  intros Hh. unfold planned_terminal_lsn. eapply bind_at; [apply require_open_at|done|]. intros [] _.
  eapply spec_bind; [by apply refresh_held_at|]. intros a. eapply bind_at; [apply require_healthy_at|done|]. intros [] [Hd _].
  eapply bind_at; [apply get_world_at|done|]. intros V0 ->. eapply bind_at; [apply lift_at|done|]. intros plan _. by intros w Hw.
Qed.

Lemma decided_validated W L (c : Txn) I floor out : damage (index W) = None → decided W L c I floor out → out = None → validated L I floor.
Proof. intros Hd [[-> _]|(_ & _ & Ha & Hu)] ->; [by left|right]. split; [exact Ha|by apply Hu]. Qed.

Lemma passed_hold (F : gmap pystr bytes) L W W0 W1 (n : Z) : same_config W W0 → tail_hold_depth W + 1 = n →
  passed F L (with_hold n W0) W1 → passed F L W (with_hold (tail_hold_depth W1 - 1) W1).
Proof.
  intros (H1 & H2 & H3 & H4 & H5) <- [(K1 & K2 & K3 & K4 & K5) Hs]. split; [|by apply synced_hold]. cbn in *.
  unfold same_config. cbn. split_and!; [congruence|congruence|congruence|congruence|rewrite K5; lia].
Qed.

(** The batch is the end of the log and on the device for good. *)
Definition landed (F : gmap pystr bytes) L W (wall current : Z) effects commit (csn : Z) w : Prop := ∃ L' f batch new r,
  admitted (log_descriptor W) L (effects ++ [commit]) batch ∧ appended L L' wall f batch ∧ log_records L' = log_records L ++ new ++ [r] ∧ Forall (λ r, ¬ is_commit r) new ∧
  (is_commit r ∧ lsn r = csn ∧ current < csn ∧ payload r = payload commit) ∧
  (∀ g, g ≠ f → files (dev w) !! g = F !! g) ∧ (∀ x, recoverable (dev w) f x → x = files (dev w) !! f) ∧
  holds (directory W) (files (dev w)) L' ∧ passed (files (dev w)) L' W (wal w).

Lemma append_durable_at {B : Type} (k : Z → M World B) (F : gmap pystr bytes) R W L (wall current : Z) commit effects (planned : Z) Q :
  holds (directory W) F L → synced F L W → Forall (λ r, ¬ is_commit r) effects → is_commit commit →
  (∀ csn, spec (landed F L W wall current effects commit csn) (k csn) Q (λ _, True)) →
  spec (at_ F R W)
    (committed ← append_many wall (effects ++ [commit]) (Some planned); _ ← lift (require_forward_commit committed current); _ ← barrier; k committed)
    Q (λ _, True).
Proof.
  intros HL Hs He Hc Hk. eapply spec_bind.
  { eapply spec_weaken; [by apply (append_many_at F R W L); [|apply ready_synced]|done|intros a w H; exact H|done]. }
  intros csn. apply spec_here. intros w (batch & f & L' & Had & Hap & Hsame & _ & HL' & Hp & _ & -> & Hu).
  assert (Forall2 (λ r c, canonical_record r (log_descriptor W) = Ok c) (effects ++ [commit]) batch) as Hcan.
  { eapply Forall2_impl; [exact Had|]. by intros r c' (? & _). }
  destruct (appended_commit L L' wall f batch effects commit _ Hap Hcan He Hc) as (new & r & El & Hnew & Hr & Epay).
  assert (last_of NO_LSN (log_records L') = lsn r) as Elast by (by rewrite El, app_assoc, last_of_app).
  eapply bind_at; [apply lift_at|done|]. intros x Hx. unfold require_forward_commit in Hx. destruct (Z.ltb_spec current (last_of NO_LSN (log_records L'))); [|done].
  eapply spec_bind; [eapply spec_weaken; [apply barrier_at|done|intros a v H1; exact H1|done]|].
  intros [] v (HF & HW & HR & Hd). apply Hk. destruct (Hd f Hu) as [_ Hdur]. unfold landed. rewrite HF, HW.
  exists L', f, batch, new, r. split; [done|]. split; [done|]. split; [done|]. split; [done|]. split; [by rewrite Elast in *|].
  split; [intros g Hg; by apply Hsame|]. split; [exact Hdur|]. split; [done|]. destruct Hp as [Hcfg [K1 K2 K3 K4 K5]]. split; [exact Hcfg|by constructor].
Qed.

Lemma commit_window_at (F : gmap pystr bytes) R W L cfg (wall epoch current : Z) (c : Txn) m : holds (directory W) F L → ready F L W → 0 <= tail_hold_depth W →
  Forall (λ r, ¬ is_commit r) (m_effects m) →
  spec (at_ F R W) (commit_window content cfg wall epoch current c m) (window_done F R L W cfg wall epoch current c m) (λ _, True).
Proof.
  intros HL Hr Hd He. apply (hold_tail_at _ F R W L); [done..| |done]. intros W0 [Hcfg Hs0].
  set (Wh := with_hold (tail_hold_depth W + 1) W0). assert (synced F L Wh) as Hs by (by apply synced_hold).
  assert (directory Wh = directory W) as Edir by (by destruct Hcfg). assert (holds (directory Wh) F L) as HLh by (by rewrite Edir).
  assert (tail_hold_depth Wh ≠ 0) as Hh by (cbn; lia).
  assert (∀ c' (I : gset Z) floor l, conflicts c' = conflicts c → conflicting I floor (log_records L) l →
    (I = interest c ∧ floor = Snapshot.read_lsn (snapshot c) ∨ I ## interest c ∧ floor = current ∧ Snapshot.read_lsn (snapshot c) <= current) →
    spec (at_ F R Wh) (mret (mark_conflicted c', Conflicted l)) (λ a w, window_done F R L W cfg wall epoch current c m a (unhold w)) (λ _, True)) as Hgave.
  { intros c' I floor l Hconf Hcon Hwhich w (HF & HR & HW). split; [cbn; by rewrite Hconf|]. split; [|by exists I, floor].
    eexists. split; [by split_and!|]. cbn. rewrite HW. eapply (passed_hold F L W W0); [done|done|]. by split; [split_and!|]. }
  eapply bind_at; [apply lift_at|done|]. intros [] _.
  eapply bind_at; [by apply find_conflict_at|done|]. intros [l|] Hdec1; cbn [default] in Hdec1.
  { destruct Hdec1 as [[_ ?]|(_ & _ & Ha & _)]; [done|]. apply (Hgave c (interest c) (Snapshot.read_lsn (snapshot c))); [done|exact Ha|by left]. }
  eapply bind_at; [apply lift_at|done|]. intros [c1 mats] Hdecl. apply declare_Ok in Hdecl as (Er & Sw & Esn & Ecf).
  eapply bind_at; [apply lift_at|done|]. intros I Hdelta. apply delta_Ok in Hdelta as [-> Hsub].
  eapply bind_at; [by apply find_conflict_at|done|]. intros [l|] Hdec2; cbn [default] in Hdec2.
  { destruct Hdec2 as [[_ ?]|(_ & Hfl & Ha & _)]; [done|]. rewrite Esn in Hfl.
    apply (Hgave c1 (interest c1 ∖ interest c) current); [done|exact Ha|right]. split_and!; [set_solver|done|done]. }
  eapply bind_at; [apply lift_at|done|]. intros commit Hcommit. pose proof (commit_record_Ok _ _ _ _ _ _ Hcommit) as (Hcom & p & Hp & Ew).
  eapply bind_at; [apply lift_at|done|]. intros cv [n ->]%validate_budgets_Ok.
  eapply bind_at; [by apply planned_held_at|done|]. intros planned Hnone. eapply bind_at; [apply lift_at|done|]. intros [] _.
  eapply bind_at; [apply lift_at|done|]. intros [] _.
  apply (append_durable_at _ F R Wh L); [done..|]. intros csn. apply spec_here.
  intros w (L' & f & batch & new & r & Had & Hap & El & Hnew & (Hr1 & Hr2 & Hr3 & Hr4) & Hsame & Hdur & HL' & Hpass).
  eapply bind_at; [apply lift_at|done|]. intros c2 Hc2. eapply bind_at; [apply lift_at|done|]. intros c3 Hc3.
  intros v (HF & HRv & HW). unfold bind_epoch in Hc2. destruct (epoch <? 0); [done|]. injection Hc2 as <-.
  unfold mark_committed in Hc3. apply bind_Ok in Hc3 as (? & _ & Hc3). injection Hc3 as <-.
  exists L', f, batch, commit, new, r, p. split; [by apply (decided_validated Wh L c _ _ None)|].
  split; [by apply (decided_validated Wh L c1 _ _ None)|]. split; [by split_and!|]. split; [exact Hcommit|].
  split; [by replace (log_descriptor W) with (log_descriptor Wh) by (by destruct Hcfg as (_ & _ & ? & _))|]. split; [done|]. split; [done|]. split; [done|].
  split; [rewrite Hr4; by split_and!|]. cbn [unhold dev wal]. rewrite HF, HRv, HW. split; [done|]. split; [done|]. split; [by rewrite <-Edir|].
  by eapply passed_hold.
Qed.
End window.

(** ** Properties *)

(** C3: the conflict predicate is exact.  With the tail held, over a log of whole records,
    [find_conflict] answers nothing exactly when every COMMIT record past the baseline decodes and
    wrote none of the partitions asked about, and otherwise the sorted partitions that the first
    offending one wrote; it never answers from a log that has lost records past the baseline
    (unless damage is reported, and then no append is admitted); no file changes, whether it
    answers or raises. *)
Theorem find_conflict_exact {Dev} {SD : StorageDevice Dev} {SL : StorageLaws Dev} {LL : LogLaws Dev} {V : Type}
    (F : gmap pystr bytes) (R : pystr → option bytes → Prop) (W : Wal) (L : list Seg) (c : TransactionContext V)
    (interested : option (gset Z)) (baseline : option Z)
    (HL : holds (directory W) F L) (HW : ready F L W) (Hd : 0 <= tail_hold_depth W) :
  spec (at_ F R W) (hold_tail (find_conflict c interested baseline))
    (λ out w, ∃ W', at_ F R W' w ∧ passed F L W W' ∧
       decided W' L c (default (interest c) interested) (default (Snapshot.read_lsn (snapshot c)) baseline) out)
    (λ w, files (dev w) = F).
Proof.
  apply (hold_tail_at _ F R W L); [done..| |by intros w (u & ? & _)]. intros W0 [Hcfg Hs0].
  eapply spec_weaken; [apply (find_conflict_at F R (with_hold (tail_hold_depth W + 1) W0) L)|done| |by intros w (? & _)].
  - destruct Hcfg as (E & _). cbn. by rewrite E.
  - by apply synced_hold.
  - cbn. lia.
  - intros out w [Hdec (HF & HR & HW')]. exists (with_hold (tail_hold_depth (wal w) - 1) (wal w)). split; [by split_and!|].
    rewrite HW'. split; [|exact Hdec]. eapply (passed_hold F L W W0); [done|done|]. split; [by split_and!|by apply synced_hold].
Qed.

(** C2: what the commit window guarantees.  When it reports a commit, no COMMIT record past the
    transaction's snapshot wrote a partition the transaction declared, none past the published
    number wrote a page it found under way, and the log held them all; the log has grown by every
    effect record of the transaction, in canonical form and in their order, numbered without a gap
    after the last record, and behind them its COMMIT record, the only one of the batch, which has
    the reported number and carries the snapshot, the partitions read and the partitions written;
    one file changed, and a loss of power cannot take it back; the manager knows the new log.  When
    it reports a conflict, nothing was written and the partitions named are those the first
    conflicting commit wrote. *)
Theorem commit_window_safe {Dev} {SD : StorageDevice Dev} {SL : StorageLaws Dev} {LL : LogLaws Dev} {V : Type} {SV : Schema V} (content : Z → bytes)
    (F : gmap pystr bytes) (R : pystr → option bytes → Prop) (W : Wal) (L : list Seg) cfg (wall epoch current : Z) (c : TransactionContext V) m
    (HL : holds (directory W) F L) (HW : ready F L W) (Hd : 0 <= tail_hold_depth W) (He : Forall (λ r, ¬ is_commit r) (m_effects m)) :
  spec (at_ F R W) (commit_window content cfg wall epoch current c m) (window_done F R L W cfg wall epoch current c m) (λ _, True).
Proof. by apply commit_window_at. Qed.

Definition sample_cfg : Config := MkConfig (str "heap.dat") FileIdMap.default_map [] None.
Definition sample_txn (id snap : Z) (reads writes : gset Z) : TransactionContext Z :=
  MkContext id WRITE (Snapshot.Mk snap) 0 ACTIVE 0 NO_CSN reads writes [] ∅ ∅ 99 None None 0 [] (-1) ∅ None [] [].
Definition sample_materialized (page : Z) : Materialized :=
  MkMaterialized (Ok ()) (Ok ()) [MkRowWrite (Some (RecordRef.Mk page 0)) None] [(str "heap.dat", page)] [sample_record] [sample_record] [(str "heap.dat", page)].

Lemma sample_effects page : Forall (λ r, ¬ is_commit r) (m_effects (sample_materialized page)).
Proof. by repeat constructor. Qed.

Lemma find_conflict_exact_witness : ∃ w W', hold_tail (find_conflict (sample_txn 7 0 {[1]} {[5]}) None None) sample_world = (Ok None, w) ∧
  decided W' sample_log (sample_txn 7 0 {[1]} {[5]}) {[1; 5]} 0 None.
Proof.
  pose proof (find_conflict_exact sample_files _ fresh_wal sample_log (sample_txn 7 0 {[1]} {[5]}) None None sample_holds sample_ready ltac:(done) _ sample_at) as H.
  assert ((hold_tail (find_conflict (sample_txn 7 0 {[1]} {[5]}) None None) sample_world).1 = Ok None) as E by (vm_compute; reflexivity).
  destruct (hold_tail _ sample_world) as [[out|e] w]; [|done]. injection E as ->. destruct H as (W' & _ & _ & H). exists w, W'. by split.
Defined.

Lemma commit_window_safe_witness : ∃ c' w, commit_window sample_content sample_cfg 7 1 2 (sample_txn 7 2 {[1]} {[5]}) (sample_materialized 3) sample_world = (Ok (c', Committed 5), w) ∧
  went_through sample_files sample_log fresh_wal sample_cfg 7 1 2 (sample_txn 7 2 {[1]} {[5]}) (sample_materialized 3) c' 5 w.
Proof.
  pose proof (commit_window_safe sample_content sample_files _ fresh_wal sample_log sample_cfg 7 1 2 (sample_txn 7 2 {[1]} {[5]}) (sample_materialized 3)
    sample_holds sample_ready ltac:(done) (sample_effects 3) _ sample_at) as H.
  assert (match (commit_window sample_content sample_cfg 7 1 2 (sample_txn 7 2 {[1]} {[5]}) (sample_materialized 3) sample_world).1 with
    Ok (_, Committed n) => n = 5 | _ => False end) as E by (vm_compute; reflexivity).
  destruct (commit_window _ _ _ _ _ _ _ sample_world) as [[[c' [l|n]]|e] w]; [done| |done]. cbn in E. subst n. exists c', w. split; [reflexivity|exact H].
Defined.
