(* ===== verification/CommitHistory.v ===== *)
(** Many participants over one log: commits, recycling and reading in any interleaving, and that
    what they commit is serializable. *)

From S2P Require Import Prelude Ids Layout Utf8 WalRecord CommitPayload Segment Intents TxnContext Recovery Storage MemoryStorage WalScan WalManager WalTheorems WalAppend WalRead WalRecycle Commit.

(** ** What becomes of a log that was seen *)

(** The log [L0] was seen; since then it grew at its end and may have lost segments at its front,
    or it is all gone and what is there was written later. *)
Definition survived (F : gmap pystr bytes) (L0 L : list Seg) : Prop :=
  StronglySorted (λ a b, s_number a < s_number b) L0 ∧
  (L0 = [] ∨
   (L ≠ [] ∧ ∃ s, last L0 = Some s ∧ ∀ u, u ∈ L → s_number s < s_number u) ∨
   ∃ k, drop k L0 ≠ [] ∧ extends (drop k L0) L ∧ ∀ s, s ∈ take k L0 → F !! s_name s = None).

Lemma survived_refl dir F L : holds dir F L → survived F L L.
Proof.
  intros HL. split; [apply (holds_sorted _ _ _ HL)|]. destruct L as [|s L] using rev_ind; [by left|]. right. right. exists 0%nat. rewrite drop_0. split_and!.
  - by destruct L.
  - right. exists L, s, [], []. split; [done|]. unfold seg_append. rewrite !app_nil_r. by destruct s.
  - by intros s' ?%not_elem_of_nil.
Qed.

Lemma survived_later dir F L0 L W : knew dir L0 W → holds dir F L → survived F L0 L → later F L0 L.
Proof.
  intros HK HL [_ [H|[(Hne & s & Hs & Hlt)|H]]]; [by left| |by right; right]. right. left. exists s. split; [done|].
  intros (u & En & Hu)%list_elem_of_fmap. specialize (Hlt u Hu). destruct (holds_seg _ _ _ HL u Hu) as (Hpu & _).
  destruct (knew_seg _ _ _ HK s) as (Hps & _); [rewrite last_lookup in Hs; by eapply list_elem_of_lookup_2|]. rewrite En, Hpu in Hps. injection Hps. lia.
Qed.

Lemma extends_elem K L s : extends K L → s ∈ K → ∃ u, u ∈ L ∧ s_number u = s_number s ∧ s_name u = s_name s.
Proof.
  intros [->|(K' & x & ext & fresh & -> & ->)]; [by intros ?%not_elem_of_nil|]. intros [Hs|Hs%list_elem_of_singleton]%elem_of_app.
  - exists s. split; [apply elem_of_app; by left|done].
  - subst. exists (seg_append x ext). split; [apply elem_of_app; right; by left|done].
Qed.

Lemma extends_appended K L L' wall f batch : extends K L → appended L L' wall f batch → extends K L'.
Proof.
  intros [->|(K' & x & ext & fresh & -> & ->)] Ha; [by left|]. right. destruct Ha as [K s es E -> _ _|number h es -> _ _ _].
  - destruct fresh as [|y fresh _] using rev_ind.
    + rewrite app_nil_r in E. apply app_inj_tail in E as [-> <-]. exists K, x, (ext ++ es), []. split; [done|]. unfold seg_append. cbn. by rewrite <-app_assoc.
    + rewrite !app_assoc in E. apply app_inj_tail in E as [<- <-]. exists K', x, ext, (fresh ++ [seg_append y es]). split; [done|]. by rewrite <-!app_assoc.
  - exists K', x, ext, (fresh ++ [MkSeg number f es]). split; [done|]. by rewrite <-!app_assoc.
Qed.

(** A new segment has a number past all others. *)
Lemma appended_number dir F' L L' wall f batch u : holds dir F' L' → appended L L' wall f batch → u ∈ L' →
  (∃ v, v ∈ L ∧ s_number v = s_number u ∧ s_name v = s_name u) ∨ (s_name u = f ∧ ∀ v, v ∈ L → s_number v < s_number u).
Proof.
  intros HL' Ha Hu. pose proof (holds_sorted _ _ _ HL') as Hs. destruct Ha as [K s es -> -> _ _|number h es -> _ _ _].
  - left. apply elem_of_app in Hu as [Hu|Hu%list_elem_of_singleton]; [exists u; split; [apply elem_of_app; by left|done]|].
    subst. exists s. split; [apply elem_of_app; right; by left|done].
  - apply StronglySorted_app in Hs as (Hcross & _). apply elem_of_app in Hu as [Hu|Hu%list_elem_of_singleton]; [left; by exists u|].
    subst. right. split; [done|]. intros v Hv. apply Hcross; [done|by left].
Qed.

Lemma survived_appended dir F F' L0 L L' wall f batch W : knew dir L0 W → holds dir F L → holds dir F' L' → appended L L' wall f batch →
  (∀ g, g ≠ f → F' !! g = F !! g) → survived F L0 L → survived F' L0 L'.
Proof.
  intros HK HL HL' Ha Hsame [Hsorted H]. split; [done|]. destruct H as [H|[(Hne & s & Hs & Hlt)|(k & Hk & Hext & Hgone)]]; [by left| |].
  - right. left. split.
    + destruct Ha as [K x es -> -> _ _|number h es -> _ _ _]; by destruct K + destruct L.
    + exists s. split; [done|]. intros u Hu. destruct (appended_number dir F' L L' wall f batch u HL' Ha Hu) as [(v & Hv & <- & _)|[_ Hall]]; [by apply Hlt|].
      destruct L as [|v L]; [done|]. specialize (Hlt v ltac:(by left)). specialize (Hall v ltac:(by left)). lia.
  - right. right. exists k. split; [done|]. split; [by eapply extends_appended|]. intros s Hs. rewrite Hsame; [by apply Hgone|]. intros En.
    assert (s ∈ L0) as Hs0 by (apply elem_of_take in Hs as (i & Hi & _); by eapply list_elem_of_lookup_2).
    destruct (knew_seg _ _ _ HK s Hs0) as (Hps & _). specialize (Hgone s Hs). rewrite En in Hps, Hgone.
    destruct (drop k L0) as [|x rest] eqn:Ed; [done|]. destruct (extends_elem _ _ x Hext ltac:(by left)) as (u & Hu & Enum & _).
    assert (s_number s < s_number x) as Hlt.
    { rewrite <-(take_drop k L0), Ed in Hsorted. apply StronglySorted_app in Hsorted as (Hc & _). apply Hc; [done|by left]. }
    destruct Ha as [K y es -> -> -> _|number h es EL' _ _ _].
    + destruct (holds_seg _ _ _ HL y) as (_ & _ & c & Hc & _); [apply elem_of_app; right; by left|]. by rewrite Hc in Hgone.
    + pose proof (holds_sorted _ _ _ HL') as Hs'. rewrite EL' in Hs'. apply StronglySorted_app in Hs' as (Hc & _).
      specialize (Hc u (MkSeg number f es) Hu ltac:(by left)). cbn in Hc.
      destruct (holds_seg _ _ _ HL' (MkSeg number f es)) as (Hpf & _); [rewrite EL'; apply elem_of_app; right; by left|]. cbn in Hpf. rewrite Hpf in Hps. injection Hps as ->. lia.
Qed.

Lemma survived_recycled dir F F' L0 L n : holds dir F L → without F L n F' → (drop n L = [] → L = []) → survived F L0 L → survived F' L0 (drop n L).
Proof.
  intros HL [Hkeep Hgone'] Hne [Hsorted H]. split; [done|]. pose proof (holds_sorted _ _ _ HL) as HsL.
  destruct H as [H|[(HneL & s & Hs & Hlt)|(k & Hk & Hext & Hgone)]]; [by left| |].
  - right. left. split; [auto|]. exists s. split; [done|]. intros u Hu. apply Hlt. by apply (in_drop _ n).
  - destruct Hext as [?|(K' & x & ext & fresh & EK & EL)]; [done|]. destruct (decide (n <= length K')%nat) as [Hn|Hn].
    + right. right. exists (k + n)%nat. rewrite <-drop_drop, EK, drop_app_le by done. split_and!; [by destruct (drop n K')| |].
      * right. exists (drop n K'), x, ext, fresh. split; [done|]. by rewrite EL, drop_app_le.
      * intros s Hs. assert (∀ t, F !! s_name t = None → F' !! s_name t = None) as Hnone.
        { intros t Ht. destruct (decide (s_name t ∈ s_name <$> take n L)) as [(v & E & Hv)%list_elem_of_fmap|Hno]; [rewrite E; by apply Hgone'|by rewrite Hkeep]. }
        assert (length (take k L0) = k) as Elen.
        { rewrite length_take. assert (length (drop k L0) ≠ 0)%nat as Hpos by (rewrite EK, length_app; cbn; lia). rewrite length_drop in Hpos. lia. }
        rewrite <-(take_drop k L0), take_app, Elen in Hs. replace (k + n - k)%nat with n in Hs by lia. apply elem_of_app in Hs as [Hs|Hs].
        -- apply Hnone, Hgone. rewrite take_take in Hs. apply elem_of_take in Hs as (i & Hi & Hlt). apply elem_of_take. exists i. split; [done|lia].
        -- apply Hgone'. rewrite EL, take_app_le by done. rewrite EK, take_app_le in Hs.
           ++ apply elem_of_take in Hs as (i & Hi & Hlt). apply elem_of_take. by exists i.
           ++ done.
    + right. left. assert (L ≠ []) as HneL by (rewrite EL; by destruct K'). split; [auto|]. exists x. split.
      * rewrite <-(take_drop k L0), EK, last_app. by rewrite last_snoc.
      * intros u Hu. rewrite EL, drop_app_ge in Hu by lia. rewrite EL in HsL. apply StronglySorted_app in HsL as (_ & _ & HsL).
        cbn [app] in HsL, Hu. apply StronglySorted_inv in HsL as [_ HsL]. rewrite Forall_forall in HsL.
        apply (HsL u). destruct (n - length K')%nat as [|j] eqn:Ej; [lia|]. cbn [drop] in Hu. apply list_elem_of_lookup in Hu as [i Hi].
        rewrite lookup_drop in Hi. by eapply list_elem_of_lookup_2.
Qed.

(** ** Participants *)

Section system.
Context {Dev : Type} {SD : StorageDevice Dev} {SL : StorageLaws Dev} {LL : LogLaws Dev} {V : Type} {SV : Schema V} (content : Z → bytes).
#[local] Abbreviation World := (@WalManager.World Dev).
#[local] Abbreviation Txn := (TransactionContext V).

(** One device, and the log manager of each participant. *)
Record System := MkSystem { device : Dev; managers : nat → Wal }.

Definition set_manager (i : nat) (W : Wal) (ws : nat → Wal) (j : nat) : Wal := if decide (j = i) then W else ws j.

(** What participant [i] does while it has the device to itself. *)
Definition run {A} (i : nat) (m : M World A) (S : System) : result A * System :=
  let '(r, w) := m (MkWorld (device S) (managers S i)) in (r, MkSystem (dev w) (set_manager i (wal w) (managers S))).

(** A commit that went through: the snapshot and the published number it started from, the partitions
    it declared and the pages it found under way, what it wrote, and its number. *)
Record Entry := MkEntry {
  e_snapshot : Z;
  e_current : Z;
  e_asked : gset Z;
  e_found : gset Z;
  e_writes : gset Z;
  e_csn : Z
}.

Definition entry_of (current : Z) (c c' : Txn) (csn : Z) : Entry :=
  MkEntry (Snapshot.read_lsn (snapshot c)) current (interest c) (interest c' ∖ interest c) (write_partitions c') csn.

(** The moves of the system and the commits made so far. *)
Inductive step (dir : pystr) : System * list Entry → System * list Entry → Prop :=
  | step_commit i cfg wall epoch current (c : Txn) m c' csn S S' h :
      Forall (λ r, ¬ is_commit r) (m_effects m) → Snapshot.read_lsn (snapshot c) <= current →
      run i (commit_window content cfg wall epoch current c m) S = (Ok (c', Committed csn), S') →
      step dir (S, h) (S', h ++ [entry_of current c c' csn])
  | step_give_way i cfg wall epoch current (c : Txn) m c' partitions S S' h :
      Forall (λ r, ¬ is_commit r) (m_effects m) →
      run i (commit_window content cfg wall epoch current c m) S = (Ok (c', Conflicted partitions), S') → step dir (S, h) (S', h)
  | step_recycle i horizon report S S' h :
      run i (recycle_ horizon) S = (Ok report, S') → damage (index (managers S' i)) = None → step dir (S, h) (S', h)
  | step_read i start records S S' h : run i (read_from start) S = (Ok records, S') → step dir (S, h) (S', h)
  | step_join i W S h : directory W = dir → indexed W = false → tail_hold_depth W = 0 →
      step dir (S, h) (MkSystem (device S) (set_manager i W (managers S)), h).

(** A manager that can come to know the log whatever the others do. *)
Record participant (dir : pystr) (F : gmap pystr bytes) (L : list Seg) (W : Wal) : Prop := {
  part_directory : directory W = dir;
  part_hold : tail_hold_depth W = 0;
  part_knew : indexed W = true → ∃ L0, knew dir L0 W ∧ survived F L0 L
}.

(** The commit of [e] is in the log. *)
Definition recorded (L : list Seg) (e : Entry) : Prop := ∃ r p,
  r ∈ log_records L ∧ is_commit r ∧ lsn r = e_csn e ∧ CommitPayload.decode (payload r) = Ok p ∧
  list_to_set (CommitPayload.write_partitions p) = e_writes e.

(** [e] did not step over [e']. *)
Definition compatible (e e' : Entry) : Prop :=
  (e_snapshot e < e_csn e' < e_csn e → e_asked e ## e_writes e') ∧ (e_current e < e_csn e' < e_csn e → e_found e ## e_writes e').

Record coherent (dir : pystr) (S : System) (h : list Entry) (L : list Seg) : Prop := {
  coh_holds : holds dir (files (device S)) L;
  coh_managers i : participant dir (files (device S)) L (managers S i);
  coh_last e : e ∈ h → e_csn e <= last_of NO_LSN (log_records L);
  coh_recorded e : e ∈ h → recorded L e ∨ ∃ r, head (log_records L) = Some r ∧ e_csn e < lsn r;
  coh_sorted : StronglySorted (λ e e', e_csn e < e_csn e') h;
  coh_compatible e e' : e ∈ h → e' ∈ h → compatible e e';
  coh_started e : e ∈ h → e_snapshot e <= e_current e < e_csn e
}.

Lemma participant_ready dir F L W : holds dir F L → participant dir F L W → holds (directory W) F L ∧ ready F L W.
Proof.
  intros HL [Hd Hh Hk]. rewrite Hd. split; [done|]. constructor; [|by rewrite Hh]. intros Hi. destruct (Hk Hi) as (L0 & HK & Hs).
  exists L0. rewrite Hd. split; [done|]. by eapply survived_later.
Qed.

Lemma passed_participant dir F L W W' : holds dir F L → directory W = dir → tail_hold_depth W = 0 → passed F L W W' → participant dir F L W'.
Proof.
  intros HL Hd Hh [(Ed & _ & _ & _ & Eh) Hs]. constructor; [congruence|congruence|]. intros _. exists L. split; [|by eapply survived_refl].
  assert (directory W' = dir) as E by congruence. rewrite <-E. apply (synced_knew F); [by rewrite E|done].
Qed.

Lemma set_manager_all (P : Wal → Prop) i W ws : (∀ j, j ≠ i → P (ws j)) → P W → ∀ j, P (set_manager i W ws j).
Proof. intros Hall HW j. unfold set_manager. case_decide; [done|by apply Hall]. Qed.

(** Nothing was written. *)
Lemma quiet_step dir (S : System) h L i W' d' : coherent dir S h L → files d' = files (device S) → passed (files (device S)) L (managers S i) W' →
  coherent dir (MkSystem d' (set_manager i W' (managers S))) h L.
Proof.
  intros [H1 H2 H3 H4 H5 H6 H7] HF Hp. constructor; cbn [device managers]; rewrite ?HF; try done.
  apply set_manager_all; [done|]. destruct (H2 i). by eapply passed_participant.
Qed.

(** *** A commit *)

Lemma last_among rs a : rs ≠ [] → ∃ r, r ∈ rs ∧ last_of a rs = lsn r.
Proof.
  destruct rs as [|r rs _] using rev_ind; [done|]. intros _. exists r. split; [apply elem_of_app; right; by left|]. by rewrite last_of_app.
Qed.

Lemma validated_disjoint dir S h L I floor e : coherent dir S h L → validated L I floor → e ∈ h → floor < e_csn e → I ## e_writes e.
Proof.
  intros Hcoh [->|[Hall Hun]] He Hlt; [set_solver|]. destruct (coh_recorded _ _ _ _ Hcoh e He) as [(r & p & Hr & Hc & El & Hp & <-)|(r & Hr & Hb)].
  - rewrite Forall_forall in Hall. destruct (Hall r Hr Hc) as (p' & Hp' & Hdis); [lia|]. rewrite Hp in Hp'. injection Hp' as <-. set_solver.
  - exfalso. pose proof (coh_last _ _ _ _ Hcoh e He). unfold unbroken in Hun. destruct (log_records L) as [|r' rs]; [done|]. injection Hr as ->. lia.
Qed.

Lemma commit_step dir (S : System) h L i cfg (wall epoch current : Z) (c : Txn) m (c' : Txn) csn (w : World) : coherent dir S h L → Snapshot.read_lsn (snapshot c) <= current →
  went_through (files (device S)) L (managers S i) cfg wall epoch current c m c' csn w →
  ∃ L', coherent dir (MkSystem (dev w) (set_manager i (wal w) (managers S))) (h ++ [entry_of current c c' csn]) L'.
Proof.
  intros Hcoh Hsnap (L' & f & batch & commit & new & r & p & Hv1 & Hv2 & (_ & _ & _ & _) & _ & _ & Hap & El & Hnew & (Hr & Hlsn & Hcur & Hp & _ & _ & Ew) & Hsame & _ & HL' & Hpass).
  destruct (coh_managers _ _ _ _ Hcoh i) as [Hdir Hhold _]. rewrite Hdir in HL'. exists L'.
  pose proof (coh_holds _ _ _ _ Hcoh) as HL. pose proof (holds_contiguous _ _ _ HL') as Hcon. pose proof (holds_positive _ _ _ HL') as Hpos.
  rewrite El in Hcon, Hpos. rewrite app_assoc in Hcon. apply contiguous_before in Hcon as Hbefore. rewrite !Forall_app, Forall_singleton in Hpos. destruct Hpos as (_ & _ & Hpos).
  assert (last_of NO_LSN (log_records L) < csn) as Hlast.
  { destruct (decide (log_records L = [])) as [->|Hne]; [cbn; unfold NO_LSN; lia|]. destruct (last_among _ NO_LSN Hne) as (x & Hx & ->).
    rewrite Forall_forall in Hbefore. rewrite <-Hlsn. apply Hbefore. apply elem_of_app. by left. }
  assert (∀ e, e ∈ h → e_csn e < csn) as Hlt by (intros e He; pose proof (coh_last _ _ _ _ Hcoh e He); lia).
  constructor; cbn [device managers]; [done| | | | | |].
  - apply set_manager_all; [|by eapply passed_participant]. intros j _. destruct (coh_managers _ _ _ _ Hcoh j) as [Hd Hh Hk]. constructor; [done|done|].
    intros Hi. destruct (Hk Hi) as (L0 & HK & Hs). exists L0. split; [done|]. eapply survived_appended; [done|done|exact HL'|exact Hap|done|done].
  - intros e [He|He%list_elem_of_singleton]%elem_of_app; rewrite El, app_assoc, last_of_app; cbn; [specialize (Hlt e He); lia|by rewrite He, Hlsn].
  - intros e [He|He%list_elem_of_singleton]%elem_of_app.
    + destruct (coh_recorded _ _ _ _ Hcoh e He) as [(x & q & Hx & H)|(x & Hx & H)].
      * left. exists x, q. split; [rewrite El; apply elem_of_app; by left|done].
      * right. exists x. rewrite El. by destruct (log_records L).
    + left. exists r, p. subst e. split_and!; [rewrite El, !elem_of_app; right; right; by left|done..].
  - apply StronglySorted_app. split_and!; [|apply (coh_sorted _ _ _ _ Hcoh)|by repeat constructor].
    intros e e' He He'%list_elem_of_singleton. subst. by apply Hlt.
  - intros e e' [He|He%list_elem_of_singleton]%elem_of_app [He'|He'%list_elem_of_singleton]%elem_of_app.
    + by apply (coh_compatible _ _ _ _ Hcoh).
    + subst e'. specialize (Hlt e He). split; cbn; intros; lia.
    + subst e. split; cbn; intros [Hb _]; by eapply validated_disjoint.
    + subst. split; cbn; intros; lia.
  - intros e [He|He%list_elem_of_singleton]%elem_of_app; [by apply (coh_started _ _ _ _ Hcoh)|]. subst. by cbn.
Qed.

(** *** Recycling *)

Lemma records_nonempty dir F L : holds dir F L → L ≠ [] → log_records L ≠ [].
Proof.
  intros HL. destruct L as [|s L]; [done|]. intros _. destruct (holds_seg _ _ _ HL s) as (_ & Hent & _); [by left|].
  cbn. unfold seg_records at 1. by destruct (s_entries s).
Qed.

Lemma recycle_step dir (S : System) h L i n (w : World) W1 (horizon : Z) : coherent dir S h L →
  passed (files (device S)) L (managers S i) W1 → reclaimed (files (device S)) L (managers S i) horizon n w →
  passed (files (dev w)) (drop n L) (managers S i) (wal w) →
  coherent dir (MkSystem (dev w) (set_manager i (wal w) (managers S))) h (drop n L).
Proof.
  intros Hcoh _ (Hwo & HL' & _ & Hne) Hpass. pose proof (coh_holds _ _ _ _ Hcoh) as HL.
  destruct (coh_managers _ _ _ _ Hcoh i) as [Hdir Hhold _]. rewrite Hdir in HL'.
  assert (last_of NO_LSN (log_records (drop n L)) = last_of NO_LSN (log_records L)) as Elast.
  { rewrite (drop_records L n), last_of_app. destruct (decide (drop n L = [])) as [E|Hsome]; [rewrite (Hne E), drop_nil; by rewrite take_nil|].
    by eapply last_of_nonempty, records_nonempty. }
  assert (∀ x, x ∈ log_records (take n L) → ∃ y, head (log_records (drop n L)) = Some y ∧ lsn x < lsn y) as Hfront.
  { intros x Hx. pose proof (holds_contiguous _ _ _ HL) as Hcon. rewrite (drop_records L n) in Hcon.
    destruct (log_records (drop n L)) as [|y rest] eqn:Er.
    - exfalso. destruct (decide (drop n L = [])) as [E|Hsome]; [rewrite (Hne E), take_nil in Hx; by apply not_elem_of_nil in Hx|].
      by apply (records_nonempty _ _ _ HL' Hsome).
    - exists y. split; [done|]. apply contiguous_before in Hcon. rewrite Forall_forall in Hcon. by apply Hcon. }
  constructor; cbn [device managers]; [done| |by rewrite Elast; apply Hcoh| |apply Hcoh..].
  - apply set_manager_all; [|by eapply passed_participant]. intros j _. destruct (coh_managers _ _ _ _ Hcoh j) as [Hd Hh Hk]. constructor; [done|done|].
    intros Hi. destruct (Hk Hi) as (L0 & HK & Hs). exists L0. split; [done|]. by eapply survived_recycled.
  - intros e He. destruct (coh_recorded _ _ _ _ Hcoh e He) as [(x & q & Hx & Hc & El & H)|(x & Hx & Hlt)].
    + rewrite (drop_records L n) in Hx. apply elem_of_app in Hx as [Hx|Hx]; [|left; by exists x, q].
      right. destruct (Hfront x Hx) as (y & Hy & Hxy). exists y. split; [done|lia].
    + right. rewrite (drop_records L n) in Hx. destruct (log_records (take n L)) as [|z rs]; [by exists x|]. injection Hx as ->.
      destruct (Hfront x) as (y & Hy & Hxy); [by left|]. exists y. split; [done|lia].
Qed.

(** *** Every move *)

Lemma run_spec {A : Type} i (m : M World A) S r S' Q E : run i m S = (r, S') →
  spec (at_ (files (device S)) (recoverable (device S)) (managers S i)) m Q E →
  ∃ w, S' = MkSystem (dev w) (set_manager i (wal w) (managers S)) ∧ match r with Ok a => Q a w | Err _ => E w end.
Proof.
  unfold run. intros H Hm. specialize (Hm (MkWorld (device S) (managers S i)) ltac:(by split_and!)).
  destruct (m _) as [r' w]. injection H as <- <-. exists w. split; [done|]. by destruct r'.
Qed.

Lemma step_coherent dir (S S' : System) h h' L : coherent dir S h L → step dir (S, h) (S', h') → ∃ L', coherent dir S' h' L'.
Proof.
  intros Hcoh Hstep. pose proof (coh_holds _ _ _ _ Hcoh) as HL.
  assert (∀ i, holds (directory (managers S i)) (files (device S)) L ∧ ready (files (device S)) L (managers S i) ∧ 0 <= tail_hold_depth (managers S i)) as Hpart.
  { intros i. pose proof (coh_managers _ _ _ _ Hcoh i) as Hi. destruct (participant_ready _ _ _ _ HL Hi). destruct Hi as [_ -> _]. by split_and!. }
  inversion Hstep as [i cfg wall epoch current c m c' csn S0 S1 h0 Heff Hsnap Hrun|i cfg wall epoch current c m c' l S0 S1 h0 Heff Hrun|
                      i horizon report S0 S1 h0 Hrun Hd|i start rs S0 S1 h0 Hrun|i W' S0 h0 Hd Hi Hh]; subst.
  - destruct (Hpart i) as (HL' & Hr & Hhold).
    destruct (run_spec i _ _ _ _ _ _ Hrun (commit_window_at content _ _ _ L cfg wall epoch current c m HL' Hr Hhold Heff)) as (w & -> & Hw).
    exact (commit_step dir S h L i cfg wall epoch current c m c' csn w Hcoh Hsnap Hw).
  - destruct (Hpart i) as (HL' & Hr & Hhold).
    destruct (run_spec i _ _ _ _ _ _ Hrun (commit_window_at content _ _ _ L cfg wall epoch current c m HL' Hr Hhold Heff)) as (w & -> & _ & (W' & (HF & _ & ->) & Hp) & _).
    exists L. by apply quiet_step.
  - destruct (Hpart i) as (HL' & Hr & _). destruct (run_spec i _ _ _ _ _ _ Hrun (recycle_at_log _ _ L _ horizon HL' Hr)) as (w & -> & Hw).
    unfold set_manager in Hd. cbn in Hd. rewrite decide_True in Hd by done. destruct (Hw Hd) as (n & W1 & Hp & Hrec & Hp' & _). exists (drop n L). by eapply recycle_step.
  - destruct (Hpart i) as (HL' & Hr & _). destruct (run_spec i _ _ _ _ _ _ Hrun (read_from_at start _ _ _ L HL' Hr)) as (w & -> & _ & W' & (HF & _ & ->) & Hp).
    exists L. by apply quiet_step.
  - exists L. destruct Hcoh as [H1 H2 H3 H4 H5 H6 H7]. constructor; cbn [device managers]; try done.
    apply set_manager_all; [done|]. constructor; [done|done|by rewrite Hi].
Qed.

(** A device that holds a log, with participants that can come to know it. *)
Definition starts (dir : pystr) (S : System) (L : list Seg) : Prop :=
  holds dir (files (device S)) L ∧ ∀ i, participant dir (files (device S)) L (managers S i).

Lemma reachable_coherent dir (S0 S : System) h L : starts dir S0 L → rtc (step dir) (S0, []) (S, h) → ∃ L', coherent dir S h L'.
Proof.
  intros [HL Hm] Hrun. assert (∃ L', coherent dir S0 [] L') as Hstart.
  { exists L. constructor; [done|done|by intros e ?%not_elem_of_nil|by intros e ?%not_elem_of_nil|constructor|by intros e e' ?%not_elem_of_nil|by intros e ?%not_elem_of_nil]. }
  clear HL Hm. remember (S0, []) as a eqn:Ea. remember (S, h) as b eqn:Eb. revert Hstart.
  assert (∀ h0, a = (S0, h0) → (∃ L', coherent dir S0 h0 L') → ∃ L', coherent dir S h L') as H; [|intros Hs; by apply (H [])].
  clear Ea. revert S0. induction Hrun as [x|x [S1 h1] z Hstep _ IH]; intros S0 h0 Ea [L' HL'].
  - subst. injection Ea as <- <-. by exists L'.
  - subst. destruct (step_coherent _ _ _ _ _ _ HL' Hstep) as [L1 HL1]. eapply IH; [done|done|by exists L1].
Qed.
End system.

(** ** Serial histories *)

(** Which commit of [h], in the order given, wrote [q] last. *)
Definition written_by (h : list Entry) (q : Z) : option Z := last (e_csn <$> filter (λ e, q ∈ e_writes e) h).

(** What a snapshot at [n] shows of [q]. *)
Definition seen_at (h : list Entry) (n : Z) (q : Z) : option Z := written_by (filter (λ e, e_csn e <= n) h) q.

Lemma seen_before before e after (q n : Z) : StronglySorted (λ a b, e_csn a < e_csn b) (before ++ e :: after) → n < e_csn e →
  (∀ e', e' ∈ before → n < e_csn e' → q ∉ e_writes e') → seen_at (before ++ e :: after) n q = written_by before q.
Proof.
  intros Hs Hn Hno. unfold seen_at, written_by. do 2 f_equal. apply StronglySorted_app in Hs as (Hcross & _ & Hs). apply StronglySorted_inv in Hs as [_ Hs].
  rewrite !filter_app, (filter_none _ (e :: after)), filter_nil, app_nil_r.
  - clear Hcross Hs. induction before as [|x before IH]; [done|]. rewrite !filter_cons. destruct (decide (e_csn x <= n)) as [Hx|Hx].
    + rewrite filter_cons, IH; [done|]. intros e' He'. apply Hno. by right.
    + rewrite IH; [|intros e' He'; apply Hno; by right]. rewrite decide_False; [done|]. apply Hno; [by left|lia].
  - intros x [->|Hx]%elem_of_cons; [lia|]. rewrite Forall_forall in Hs. specialize (Hs x Hx). lia.
Qed.

(** ** Properties *)

(** C1: what the participants commit is serializable.  Any number of participants share a device,
    each with a manager of its own that may look at the log only now and then; they commit through
    the window, give way, recycle segments below any horizon, read and reopen, in any order.  Every
    history they reach is in the order of its commit numbers, and each commit saw, of everything it
    declared to have read or written, exactly what the commits before it in that order left,
    although it looked at its older snapshot; of the pages it found under way, the same of the
    published state it started from.  (The commits run in their order one after the other see the
    same.)  The device then holds a log, and every commit is in it, as the COMMIT record of its
    number with the partitions it wrote, or below the first record of the log, where a recycling cut
    it off. *)
Theorem commits_serializable {Dev} {SD : StorageDevice Dev} {SL : StorageLaws Dev} {LL : LogLaws Dev} {V : Type} {SV : Schema V} (content : Z → bytes)
    (dir : pystr) (S0 S : System (Dev := Dev)) (L : list Seg) (before : list Entry) (e : Entry) (after : list Entry) (q : Z)
    (Hstart : starts dir S0 L) (Hrun : rtc (step (V := V) content dir) (S0, []) (S, before ++ e :: after)) :
  StronglySorted (λ a b, e_csn a < e_csn b) (before ++ e :: after) ∧
  (q ∈ e_asked e → seen_at (before ++ e :: after) (e_snapshot e) q = written_by before q) ∧
  (q ∈ e_found e → seen_at (before ++ e :: after) (e_current e) q = written_by before q) ∧
  ∃ L', holds dir (files (device S)) L' ∧
    ∀ e', e' ∈ before ++ e :: after → recorded L' e' ∨ ∃ r, head (log_records L') = Some r ∧ e_csn e' < lsn r.
Proof.
  destruct (reachable_coherent content dir S0 S _ L Hstart Hrun) as (L' & Hcoh). pose proof (coh_sorted _ _ _ _ Hcoh) as Hs. split; [done|].
  assert (e ∈ before ++ e :: after) as He by (apply elem_of_app; right; by left). destruct (coh_started _ _ _ _ Hcoh e He).
  assert (∀ e', e' ∈ before → compatible e e' ∧ e_csn e' < e_csn e) as Hb.
  { intros e' He'. split; [apply (coh_compatible _ _ _ _ Hcoh); [done|apply elem_of_app; by left]|].
    apply StronglySorted_app in Hs as (Hc & _). apply Hc; [done|by left]. }
  split_and!; [..|exists L'; split; [apply Hcoh|exact (coh_recorded _ _ _ _ Hcoh)]]; intros Hq; apply seen_before; [done|lia| |done|lia|]; intros e' He' Hn Hw; destruct (Hb e' He') as [[H1 H2] Hlt]; [apply (H1 (conj Hn Hlt) q Hq Hw)|apply (H2 (conj Hn Hlt) q Hq Hw)].
Qed.

Definition sample_system : System (Dev := Memory.t) := MkSystem (dev sample_world) (λ _, fresh_wal).
Definition first_commit := run 0 (commit_window sample_content sample_cfg 7 1 2 (sample_txn 7 2 {[1]} {[5]}) (sample_materialized 3)) sample_system.
(** Another participant, from the same snapshot. *)
Definition second_commit := run 1 (commit_window sample_content sample_cfg 8 1 5 (sample_txn 8 2 {[9]} {[9]}) (sample_materialized 4)) first_commit.2.

Example stale_read_gives_way : match (run 1 (commit_window sample_content sample_cfg 8 1 5 (sample_txn 8 2 {[5]} {[9]}) (sample_materialized 4)) first_commit.2).1 with
  Ok (_, Conflicted l) => l = [5] | _ => False end.
Proof. vm_compute. reflexivity. Qed.

Lemma sample_starts : starts (str "wal") sample_system sample_log.
Proof. split; [exact sample_holds|]. by constructor. Qed.

Lemma commits_serializable_witness : ∃ S a b, rtc (step (V := Z) sample_content (str "wal")) (sample_system, []) (S, [a; b]) ∧
  e_snapshot b = 2 ∧ e_csn a = 5 ∧ 9 ∈ e_asked b ∧ seen_at [a; b] 2 9 = written_by [a] 9 ∧
  ∃ L', holds (str "wal") (files (device S)) L' ∧
    ∀ e, e ∈ [a; b] → recorded L' e ∨ ∃ r, head (log_records L') = Some r ∧ e_csn e < lsn r.
Proof.
  assert (match first_commit.1 with Ok (_, Committed n) => n = 5 | _ => False end) as E1 by (vm_compute; reflexivity).
  assert (match second_commit.1 with Ok (_, Committed n) => n = 8 | _ => False end) as E2 by (vm_compute; reflexivity).
  unfold second_commit in E2. destruct first_commit as [[[c1 [l|n]]|err] S1] eqn:Er1; [destruct E1| |destruct E1]. cbn [fst] in E1. subst n. cbn [snd] in E2.
  destruct (run 1 _ S1) as [[[c2 [l|n]]|err] S2] eqn:Er2 in E2; [destruct E2| |destruct E2]. cbn [fst] in E2. subst n.
  set (a := entry_of 2 (sample_txn 7 2 {[1]} {[5]}) c1 5). set (b := entry_of 5 (sample_txn 8 2 {[9]} {[9]}) c2 8).
  assert (rtc (step (V := Z) sample_content (str "wal")) (sample_system, []) (S2, [a] ++ b :: [])) as Hrun.
  { eapply rtc_l; [exact (step_commit sample_content (str "wal") 0 sample_cfg 7 1 2 (sample_txn 7 2 {[1]} {[5]}) (sample_materialized 3) c1 5 sample_system S1 []
      (sample_effects 3) (Z.le_refl 2) Er1)|].
    eapply rtc_l; [exact (step_commit sample_content (str "wal") 1 sample_cfg 8 1 5 (sample_txn 8 2 {[9]} {[9]}) (sample_materialized 4) c2 8 S1 S2 [a]
      (sample_effects 4) (ltac:(cbn; lia) : 2 <= 5) Er2)|]. apply rtc_refl. }
  exists S2, a, b. split; [exact Hrun|]. assert (9 ∈ e_asked b) as Hq by set_solver. split; [done|]. split; [done|]. split; [exact Hq|].
  destruct (commits_serializable (V := Z) sample_content (str "wal") sample_system S2 sample_log [a] b [] 9 sample_starts Hrun) as (_ & Ha & _ & Hl).
  split; [exact (Ha Hq)|exact Hl].
Defined.
