(* ===== verification/BufferPool.v ===== *)
(** The page cache: src/src/okto_grafx/engine/buffer_pool.py and adapters/codec_v1.py.

    The pool keeps decoded pages in frames, lends them to callers under a pin, evicts the least
    recently used page nobody holds, and writes a page back before it forgets it.  It is the
    pool of a process with a guard that cannot wait: no read or write of a page is in flight while
    another door runs, so the tables of loads and of evictions are empty and have no counterpart
    here.  Metrics are off, and the storage adapter caches no descriptors.

    A page is an object that its frame and its holders share: a frame carries the identity of its
    object and the state of it, and a holder names the object by its identity. *)

From S2P Require Import Prelude Ids Layout Slotted SlottedCodec Utf8 Storage.

Definition TORN_READ_RETRY_BUDGET : nat := 8.
Definition MAX_SEQ : Z := 0xFFFFFFFF.
Definition CLEAN_CANDIDATE_LINGER_PER_FILE : Z := 32.
Definition READ_VIEW_MAX_TARGETS : Z := 1024.
Definition HEADER_PAGE_INDEX : Z := 0.

(** A page of a file, the key of the frame table. *)
Definition place : Type := pystr * Z.

Definition require_page_index (field : string) (page_index : Z) : result Z :=
  if negb ((0 <=? page_index) && (page_index <=? MAX_PAGE_INDEX)) then raise GrafxCorruptionDetected field
  else Ok page_index.

Definition next_seq (seq : Z) : Z := Z.land (Z.lor seq 1 + 1) MAX_SEQ.

(** ** The codec *)

Definition encode_page (ps : Z) (p : Page.t) : result bytes :=
  if negb (Page.page_size p =? ps) then raise GrafxCorruptionDetected "page_size"
  else
    image ← to_bytes p;
    if negb (zlen image =? ps) then raise GrafxCorruptionDetected "page_image" else Ok image.

Definition decode_page (ps : Z) (raw : bytes) : result Page.t := from_bytes raw (Some ps) None true.

(** ** The state *)

Record Frame := MkFrame {
  object : nat;
  page : Page.t;
  pins : Z;
  doomed : bool;
  discard_unwritten : bool;
  device_base_seq : Z
}.

Definition with_page (p : Page.t) (fr : Frame) : Frame :=
  MkFrame (object fr) p (pins fr) (doomed fr) (discard_unwritten fr) (device_base_seq fr).
Definition with_pins (n : Z) (fr : Frame) : Frame :=
  MkFrame (object fr) (page fr) n (doomed fr) (discard_unwritten fr) (device_base_seq fr).
Definition with_base (n : Z) (fr : Frame) : Frame :=
  MkFrame (object fr) (page fr) (pins fr) (doomed fr) (discard_unwritten fr) n.
(** [frame.doomed = True], and [frame.discard_unwritten = True] when [unwritten]. *)
Definition doom (unwritten : bool) (fr : Frame) : Frame :=
  MkFrame (object fr) (page fr) (pins fr) true (unwritten || discard_unwritten fr) (device_base_seq fr).
Definition discard_only (fr : Frame) : Frame :=
  MkFrame (object fr) (page fr) (pins fr) (doomed fr) true (device_base_seq fr).
Definition is_dirty (fr : Frame) : bool := Page.dirty (page fr).
Definition mark (dirty : bool) (fr : Frame) : Frame := with_page (Page.set_dirty (page fr) dirty) fr.

(** [frames] and [order] are one ordered dictionary, the least recently used page first. *)
Record Pool := MkPool {
  frames : gmap place Frame;
  order : list place;
  doomed_frames : gmap place (list Frame);
  grown : gset place;
  abandoned : gmap pystr (list Z);
  dirty_candidates : gset place;
  clean_candidate_linger : gmap pystr (list Z);
  modified : gset place;
  structure_epochs : gmap pystr Z;
  drop_epochs : gmap pystr Z;
  every_file_drop : Z;
  read_view_token : option Z;
  next_object : nat
}.

Definition with_frames (fs : gmap place Frame) (o : list place) (P : Pool) : Pool :=
  MkPool fs o (doomed_frames P) (grown P) (abandoned P) (dirty_candidates P) (clean_candidate_linger P)
    (modified P) (structure_epochs P) (drop_epochs P) (every_file_drop P) (read_view_token P) (next_object P).
Definition with_doomed (ds : gmap place (list Frame)) (P : Pool) : Pool :=
  MkPool (frames P) (order P) ds (grown P) (abandoned P) (dirty_candidates P) (clean_candidate_linger P)
    (modified P) (structure_epochs P) (drop_epochs P) (every_file_drop P) (read_view_token P) (next_object P).
Definition with_claims (g : gset place) (a : gmap pystr (list Z)) (P : Pool) : Pool :=
  MkPool (frames P) (order P) (doomed_frames P) g a (dirty_candidates P) (clean_candidate_linger P)
    (modified P) (structure_epochs P) (drop_epochs P) (every_file_drop P) (read_view_token P) (next_object P).
Definition with_candidates (c : gset place) (l : gmap pystr (list Z)) (P : Pool) : Pool :=
  MkPool (frames P) (order P) (doomed_frames P) (grown P) (abandoned P) c l
    (modified P) (structure_epochs P) (drop_epochs P) (every_file_drop P) (read_view_token P) (next_object P).
Definition with_modified (m : gset place) (P : Pool) : Pool :=
  MkPool (frames P) (order P) (doomed_frames P) (grown P) (abandoned P) (dirty_candidates P)
    (clean_candidate_linger P) m (structure_epochs P) (drop_epochs P) (every_file_drop P)
    (read_view_token P) (next_object P).
Definition with_epochs (s d : gmap pystr Z) (n : Z) (P : Pool) : Pool :=
  MkPool (frames P) (order P) (doomed_frames P) (grown P) (abandoned P) (dirty_candidates P)
    (clean_candidate_linger P) (modified P) s d n (read_view_token P) (next_object P).
Definition with_token (t : option Z) (P : Pool) : Pool :=
  MkPool (frames P) (order P) (doomed_frames P) (grown P) (abandoned P) (dirty_candidates P)
    (clean_candidate_linger P) (modified P) (structure_epochs P) (drop_epochs P) (every_file_drop P)
    t (next_object P).
Definition with_next_object (n : nat) (P : Pool) : Pool :=
  MkPool (frames P) (order P) (doomed_frames P) (grown P) (abandoned P) (dirty_candidates P)
    (clean_candidate_linger P) (modified P) (structure_epochs P) (drop_epochs P) (every_file_drop P)
    (read_view_token P) n.

Definition empty_pool : Pool := MkPool ∅ [] ∅ ∅ ∅ ∅ ∅ ∅ ∅ ∅ 0 None 0.

(** *** The ordered dictionary of frames *)

(** [frames[k] = fr]: a new key goes to the end, a present one keeps its place. *)
Definition store_frame (k : place) (fr : Frame) (P : Pool) : Pool :=
  with_frames (<[k := fr]> (frames P)) (if decide (is_Some (frames P !! k)) then order P else order P ++ [k]) P.
Definition remove_frame (k : place) (P : Pool) : Pool :=
  with_frames (delete k (frames P)) (filter (λ k', k' ≠ k) (order P)) P.
Definition move_to_end (k : place) (P : Pool) : Pool :=
  with_frames (frames P) (filter (λ k', k' ≠ k) (order P) ++ [k]) P.
Definition change_frame (k : place) (f : Frame → Frame) (P : Pool) : Pool :=
  with_frames (alter f k (frames P)) (order P) P.

(** [dict[k].remove(...)] and the deletion of an entry that became empty. *)
Definition set_list {K A} `{Countable K} (k : K) (l : list A) (m : gmap K (list A)) : gmap K (list A) :=
  match l with [] => delete k m | _ => <[k := l]> m end.

Definition doomed_at (k : place) (P : Pool) : list Frame := default [] (doomed_frames P !! k).
Definition set_doomed (k : place) (l : list Frame) (P : Pool) : Pool := with_doomed (set_list k l (doomed_frames P)) P.
(** [doomed.setdefault(k, []).append(fr)]. *)
Definition add_doomed (k : place) (fr : Frame) (P : Pool) : Pool :=
  with_doomed (<[k := doomed_at k P ++ [fr]]> (doomed_frames P)) P.

(** *** Epochs *)

Definition structure_epoch (P : Pool) (file : pystr) : Z := default 0 (structure_epochs P !! file).
Definition cache_drop_epoch (P : Pool) (file : pystr) : Z := every_file_drop P + default 0 (drop_epochs P !! file).
Definition derived_epoch (P : Pool) (file : pystr) : Z := structure_epoch P file + cache_drop_epoch P file.
Definition bump_structure_epoch (file : pystr) (P : Pool) : Pool :=
  with_epochs (<[file := default 0 (structure_epochs P !! file) + 1]> (structure_epochs P)) (drop_epochs P)
    (every_file_drop P) P.
Definition bump_drop_epoch (file : pystr) (P : Pool) : Pool :=
  with_epochs (structure_epochs P) (<[file := default 0 (drop_epochs P !! file) + 1]> (drop_epochs P))
    (every_file_drop P) P.
Definition bump_every_file_drop_epoch (P : Pool) : Pool :=
  with_epochs (structure_epochs P) (drop_epochs P) (every_file_drop P + 1) P.

(** *** The index of pages that may be dirty *)

Definition frame_needs_dirty_candidate (fr : Frame) : bool := is_dirty fr || (0 <? pins fr).

Definition add_dirty_candidate (k : place) (P : Pool) : Pool :=
  with_candidates ({[k]} ∪ dirty_candidates P) (clean_candidate_linger P) P.

Definition forget_clean_linger (k : place) (P : Pool) : Pool :=
  match clean_candidate_linger P !! k.1 with
  | None => P
  | Some l =>
      with_candidates (dirty_candidates P)
        (set_list k.1 (filter (λ i, i ≠ k.2) l) (clean_candidate_linger P)) P
  end.

Definition remove_dirty_candidate (k : place) (P : Pool) : Pool :=
  forget_clean_linger k (with_candidates (dirty_candidates P ∖ {[k]}) (clean_candidate_linger P) P).

Definition refresh_dirty_candidate (k : place) (P : Pool) : Pool :=
  if from_option frame_needs_dirty_candidate false (frames P !! k)
     || existsb frame_needs_dirty_candidate (doomed_at k P)
  then add_dirty_candidate k (forget_clean_linger k P)
  else remove_dirty_candidate k P.

Definition linger_clean_candidate (k : place) (P : Pool) : Pool :=
  let lingering := default [] (clean_candidate_linger P !! k.1) in
  if bool_decide (k.2 ∈ lingering) then P
  else
    let P := add_dirty_candidate k
      (with_candidates (dirty_candidates P) (<[k.1 := lingering ++ [k.2]]> (clean_candidate_linger P)) P) in
    if zlen (lingering ++ [k.2]) <=? CLEAN_CANDIDATE_LINGER_PER_FILE then P
    else
      match lingering ++ [k.2] with
      | [] => P
      | oldest :: rest =>
          refresh_dirty_candidate (k.1, oldest)
            (with_candidates (dirty_candidates P) (set_list k.1 rest (clean_candidate_linger P)) P)
      end.

Definition dirty_candidate_keys (file : option pystr) (P : Pool) : list place :=
  match file with
  | None => elements (dirty_candidates P)
  | Some f => elements (filter (λ k : place, k.1 = f) (dirty_candidates P))
  end.

(** [_assert_dirty_candidate_coverage], the oracle of the tests: whether the index is what a scan
    of every frame finds, and the pages that linger. *)
Definition assert_dirty_candidate_coverage (P : Pool) : bool :=
  let authoritative : gset place :=
    filter (λ k, from_option frame_needs_dirty_candidate false (frames P !! k) = true) (dom (frames P))
    ∪ filter (λ k, existsb frame_needs_dirty_candidate (doomed_at k P) = true) (dom (doomed_frames P)) in
  let lingering : gset place :=
    list_to_set ('(file, indexes) ← map_to_list (clean_candidate_linger P); (λ i, (file, i)) <$> (indexes : list Z)) in
  bool_decide (dirty_candidates P = authoritative ∪ lingering).

(** *** The owner of a page object *)

Definition owning_frame (k : place) (o : nat) (P : Pool) : option Frame :=
  match frames P !! k with
  | Some fr => if decide (object fr = o) then Some fr
               else find (λ fr, bool_decide (object fr = o)) (doomed_at k P)
  | None => find (λ fr, bool_decide (object fr = o)) (doomed_at k P)
  end.

(** An assignment to an attribute of that frame, or of its page. *)
Definition change_owned (k : place) (o : nat) (f : Frame → Frame) (P : Pool) : Pool :=
  let there (fr : Frame) := if decide (object fr = o) then f fr else fr in
  with_doomed (alter (fmap there) k (doomed_frames P)) (change_frame k there P).

Definition find_victim (P : Pool) : option place :=
  find (λ k, from_option (λ fr, pins fr =? 0) false (frames P !! k)) (order P).

(** [_reclaim]. *)
Definition reclaim (k : place) (P : Pool) : Pool :=
  if decide (k ∈ grown P) then
    let P := with_claims (grown P ∖ {[k]}) (abandoned P) P in
    if k.2 =? HEADER_PAGE_INDEX then P
    else with_claims (grown P) (<[k.1 := default [] (abandoned P !! k.1) ++ [k.2]]> (abandoned P)) P
  else P.

(** [list.remove]. *)
Fixpoint remove_first (x : Z) (l : list Z) : list Z :=
  match l with [] => [] | y :: l => if y =? x then l else y :: remove_first x l end.

Definition remember_write_back (k : place) (P : Pool) : Pool :=
  let P := with_modified ({[k]} ∪ modified P) P in
  let waiting := default [] (abandoned P !! k.1) in
  let P := with_claims (grown P ∖ {[k]})
    (if bool_decide (k.2 ∈ waiting) then set_list k.1 (remove_first k.2 waiting) (abandoned P) else abandoned P) P in
  refresh_dirty_candidate k P.

(** What a pool is built with: its budget, the size of its pages, the files whose page 0 is a
    clock other participants watch, and the registered classifiers of structure: whether two pages
    of a file have the same structure. *)
Record Config := MkConfig {
  page_bytes : Z;
  budget_bytes : Z;
  page_sequence_fence : pystr → Z → bool;
  structure_signature : pystr → option (Page.t → Page.t → bool)
}.

Definition validate_budget (budget_bytes page_size : Z) : result Z :=
  if budget_bytes <? page_size then raise GrafxConfigurationError "budget_bytes" else Ok budget_bytes.

Definition capacity_pages (cfg : Config) : Z := budget_bytes cfg / page_bytes cfg.

(** ** The doors *)

Section pool.
Context {Dev : Type} {SD : StorageDevice Dev}.

(** The device and the pool over it. *)
Record World := MkWorld { dev : Dev; pool : Pool }.

Definition on_dev {A} (m : M Dev A) : M World A := λ w,
  let '(r, d) := m (dev w) in (r, MkWorld d (pool w)).
Definition get {A} (f : Pool → A) : M World A := gets (λ w, f (pool w)).
Definition update (f : Pool → Pool) : M World () := modify (λ w, MkWorld (dev w) (f (pool w))).

(** [BufferPool(storage, codec, ...)]. *)
Definition make_config (page_size budget_bytes : Z) (fence : pystr → Z → bool)
    (signature : pystr → option (Page.t → Page.t → bool)) : result Config :=
  page_size ← validate_page_size page_size;
  budget ← validate_budget budget_bytes page_size;
  Ok (MkConfig page_size budget fence signature).

Section with_config.
Variable cfg : Config.

(** *** Reading a page from the device *)

(** [attempts] more reads of the torn-read protocol.  [known] is the image a witness proves: the
    answer [None] says that the device still holds it.  The image read comes with the answer. *)
Fixpoint read_page_attempts (k : place) (known : option bytes) (attempts : nat) : M World (option Page.t * bytes) :=
  match attempts with
  | O => lift (raise GrafxCorruptionDetected "")
  | S attempts =>
      raw ← on_dev (read_page k.1 k.2);
      if bool_decide (known = Some raw) then mret (None, raw)
      else if is_unwritten_image raw (page_bytes cfg) then
        page ← lift (Page.make (page_type_value FREE) (page_bytes cfg) k.2 0 0 0 NO_PAGE);
        mret (Some page, raw)
      else
        match decode_page (page_bytes cfg) raw with
        | Err e =>
            if decide (err_class e = GrafxCorruptionDetected) then read_page_attempts k known attempts
            else lift (Err e)
        | Ok page =>
            if Page.seq page mod 2 =? 1 then read_page_attempts k known attempts
            else page ← lift (Page.set_page_index page k.2); mret (Some page, raw)
        end
  end.

Definition read_page_observation (k : place) (known : option bytes) : M World (option Page.t * bytes) :=
  read_page_attempts k known (TORN_READ_RETRY_BUDGET + 1).

(** [_read_page]: without a witness there always is a page. *)
Definition read_page_ (k : place) : M World Page.t :=
  observed ← read_page_observation k None;
  match observed.1 with Some page => mret page | None => lift (raise GrafxCorruptionDetected "") end.

Definition read_fresh_page (k : place) : M World Page.t :=
  _ ← lift (require_page_index "page_index" k.2); read_page_ k.

(** A witness: the place and the image it was taken of. *)
Definition observe_fresh_page (k : place) (previous : option (place * bytes)) : M World (option Page.t * (place * bytes)) :=
  _ ← lift (require_page_index "page_index" k.2);
  let known := match previous with Some (k', image) => if decide (k' = k) then Some image else None | None => None end in
  observed ← read_page_observation k known;
  mret (observed.1, (k, observed.2)).

(** *** Writing a page back *)

(** [owner] is the object [p] is the state of, [None] for a page no frame holds. *)
Definition put_page (k : place) (owner : option nat) (f : Frame → Frame) : M World () :=
  match owner with Some o => update (change_owned k o f) | None => mret () end.

(** The sequence number a publication starts from; for a fenced page 0, a compare and swap. *)
Definition publish_base (k : place) (owner : option nat) (p : Page.t) : M World Z :=
  if (k.2 =? HEADER_PAGE_INDEX) && page_sequence_fence cfg k.1 k.2 then
    base ← get (λ P, o ← owner; device_base_seq <$> owning_frame k o P);
    match base with
    | None => lift (raise GrafxUnsupportedOperation "page_sequence_base")
    | Some base =>
        fresh ← read_page_ k;
        if negb (Page.seq fresh =? base) then lift (raise GrafxUnsupportedOperation "page_sequence_conflict")
        else
          let start := Z.max (Page.seq p) (Page.seq fresh) in
          if MAX_SEQ - 1 <=? start then lift (raise GrafxUnsupportedOperation "page_sequence_exhausted")
          else mret start
    end
  else mret (Page.seq p).

Definition publish_page (k : place) (owner : option nat) (p : Page.t) : M World () :=
  p ← lift (Page.set_page_index p k.2);
  _ ← put_page k owner (with_page p);
  base ← publish_base k owner p;
  let previous_seq := Page.seq p in
  q ← lift (Page.set_seq p (next_seq base));
  _ ← put_page k owner (with_page q);
  outcome ← attempt (image ← lift (encode_page (page_bytes cfg) q); on_dev (write_page k.1 k.2 image));
  match outcome with
  | Err e =>
      q ← lift (Page.set_seq q previous_seq);
      _ ← put_page k owner (with_page q);
      lift (Err e)
  | Ok _ =>
      _ ← put_page k owner (with_base (Page.seq q));
      put_page k owner (with_page (Page.set_dirty q false))
  end.

Definition write_back_page (k : place) (owner : option nat) (p : Page.t) : M World () :=
  _ ← publish_page k owner p; update (remember_write_back k).

(** [_write_back(file, page_index, frame.page)] of a resident or a doomed frame. *)
Definition write_back_frame (k : place) (fr : Frame) : M World () := write_back_page k (Some (object fr)) (page fr).

(** *** Room *)

(** [_make_room]: a frame goes in every round, so as many rounds as there are frames are enough.
    [diagnose] finds the page index a refusal names. *)
Fixpoint make_room_rounds (diagnose : M World ()) (rounds : nat) : M World () :=
  occupied ← get (λ P, Z.of_nat (size (frames P)));
  if (occupied + 1) * page_bytes cfg <=? budget_bytes cfg then mret ()
  else
    victim ← get (λ P, k ← find_victim P; fr ← frames P !! k; Some (k, fr));
    match victim, rounds with
    | Some (k, fr), S rounds =>
        _ ← (if is_dirty fr then write_back_frame k fr else mret ());
        _ ← update (λ P, refresh_dirty_candidate k (remove_frame k P));
        make_room_rounds diagnose rounds
    | _, _ => _ ← diagnose; lift (raise GrafxBufferBudgetExceeded "")
    end.

Definition make_room (diagnose : M World ()) : M World () :=
  frames ← get (λ P, size (frames P)); make_room_rounds diagnose frames.

(** *** Pins *)

(** A new frame over a new page object. *)
Definition install (k : place) (p : Page.t) (n base : Z) (P : Pool) : Pool :=
  with_next_object (S (next_object P)) (store_frame k (MkFrame (next_object P) p n false false base) P).

Definition pin (k : place) : M World nat :=
  _ ← lift (require_page_index "page_index" k.2);
  resident ← get (λ P, frames P !! k);
  match resident with
  | Some fr =>
      _ ← update (λ P,
        let P := if pins fr =? 0 then add_dirty_candidate k P else P in
        change_frame k (with_pins (pins fr + 1)) (move_to_end k P));
      mret (object fr)
  | None =>
      _ ← make_room (mret ());
      p ← read_page_ k;
      o ← get next_object;
      _ ← update (λ P, install k p 1 (Page.seq p) (add_dirty_candidate k P));
      mret o
  end.

(** [unpin(..., page=...)] when the object is not the resident one. *)
Definition unpin_doomed (k : place) (dirty : bool) (o : nat) : M World () :=
  _ ← update (λ P,
    change_owned k o (λ fr, with_pins (pins fr - 1) (if dirty then mark true fr else fr))
      (if dirty then add_dirty_candidate k P else P));
  doomed ← get (λ P, find (λ fr, bool_decide (object fr = o)) (doomed_at k P));
  match doomed with
  | Some fr =>
      if pins fr <=? 0 then
        _ ← (if is_dirty fr && negb (discard_unwritten fr) then write_back_frame k fr else mret ());
        update (λ P,
          refresh_dirty_candidate k (bump_drop_epoch k.1
            (set_doomed k (filter (λ fr, object fr ≠ o) (doomed_at k P)) P)))
      else mret ()
  | None => mret ()
  end.

Definition unpin (k : place) (dirty : bool) (o : option nat) : M World () :=
  _ ← lift (require_page_index "page_index" k.2);
  resident ← get (λ P, frames P !! k);
  doomed ← get (λ P, match o with
    | Some o => if bool_decide (object <$> (frames P !! k) = Some o) then None
                else find (λ fr, bool_decide (object fr = o)) (doomed_at k P)
    | None => None end);
  match doomed, resident with
  | Some fr, _ => unpin_doomed k dirty (object fr)
  | None, None => lift (raise GrafxUnsupportedOperation "")
  | None, Some fr =>
      if pins fr <=? 0 then lift (raise GrafxUnsupportedOperation "")
      else
        update (λ P,
          let P := if dirty then add_dirty_candidate k P else P in
          let fr := with_pins (pins fr - 1) (if dirty then mark true fr else fr) in
          let P := change_frame k (λ _, fr) P in
          if (pins fr =? 0) && negb (is_dirty fr) then
            if decide (is_Some (doomed_frames P !! k)) then refresh_dirty_candidate k P
            else linger_clean_candidate k P
          else P)
  end.

(** The state of a page a caller holds. *)
Definition held (k : place) (o : nat) (P : Pool) : option Page.t := page <$> owning_frame k o P.

(** A call of a method of a held page. *)
Definition call_page {A} (k : place) (o : nat) (f : Page.t → result (A * Page.t)) : M World A :=
  p ← get (held k o);
  match p with
  | None => lift (raise GrafxUnsupportedOperation "")
  | Some p =>
      '(a, p) ← lift (f p);
      _ ← update (change_owned k o (with_page p));
      mret a
  end.

(** [with self.pinned(file, page_index) as page:]. *)
Definition pinned {A} (k : place) (body : nat → M World A) : M World A :=
  o ← pin k;
  outcome ← attempt (body o);
  dirty ← get (λ P, from_option Page.dirty false (held k o P));
  _ ← unpin k dirty (Some o);
  lift outcome.

(** *** Allocation *)

Definition claim_is_unwritten (k : place) : M World bool :=
  raw ← on_dev (read_page k.1 k.2); mret (is_unwritten_image raw (page_bytes cfg)).

(** [del self._abandoned[file]] when its list is empty. *)
Definition prune_abandoned (file : pystr) (P : Pool) : Pool :=
  with_claims (grown P) (set_list file (default [] (abandoned P !! file)) (abandoned P)) P.

(** The loop of [_reusable_index] over the positions below [n], the last one first. *)
Fixpoint reusable_below (file : pystr) (n : nat) : M World (option Z) :=
  match n with
  | O => _ ← update (prune_abandoned file); mret None
  | S position =>
      waiting ← get (λ P, default [] (abandoned P !! file));
      match waiting !! position with
      | None => reusable_below file position
      | Some candidate =>
          held ← get (λ P, from_option (λ fr, negb (pins fr =? 0)) false (frames P !! (file, candidate)));
          if (held : bool) then reusable_below file position
          else
            _ ← update (λ P, with_claims (grown P) (<[file := delete position waiting]> (abandoned P)) P);
            unwritten ← claim_is_unwritten (file, candidate);
            if (unwritten : bool) then _ ← update (prune_abandoned file); mret (Some candidate)
            else
              _ ← update (λ P, with_claims (grown P ∖ {[(file, candidate)]}) (abandoned P) P);
              reusable_below file position
      end
  end.

Definition reusable_index (file : pystr) : M World (option Z) :=
  waiting ← get (λ P, default [] (abandoned P !! file));
  match waiting with [] => mret None | _ => reusable_below file (length waiting) end.

(** Installs the frame of a fresh page and answers its object. *)
Definition install_fresh_frame (k : place) (page_type n : Z) : M World nat :=
  _ ← update (λ P,
    let P := with_claims ({[k]} ∪ grown P) (abandoned P) P in
    add_dirty_candidate k
      (if decide (is_Some (frames P !! k)) then remove_dirty_candidate k (remove_frame k P) else P));
  made ← attempt (lift (Page.make page_type (page_bytes cfg) k.2 0 0 0 NO_PAGE));
  match made with
  | Err e => _ ← update (refresh_dirty_candidate k); lift (Err e)
  | Ok p =>
      o ← get next_object;
      _ ← update (install k (Page.set_dirty p true) n 0);
      mret o
  end.

(** [page_count], or nothing for a file that is not there: only [missing_file] means absence. *)
Definition prospective_index (file : pystr) : M World Z :=
  count ← attempt (on_dev (page_count file));
  match count with
  | Ok n => mret n
  | Err e => if decide (err_reason e = "missing_file"%string) then mret 0 else lift (Err e)
  end.

(** The index of the page and its object, which comes pinned. *)
Definition allocate (file : pystr) (page_type : Z) (reuse : bool) : M World (Z * nat) :=
  _ ← make_room (_ ← prospective_index file; mret ());
  reused ← (if reuse then reusable_index file else mret None);
  page_index ← (match reused with Some i => mret i | None => on_dev (Storage.allocate file 1) end);
  o ← install_fresh_frame (file, page_index) page_type 1;
  mret (page_index, o).

Fixpoint install_run (file : pystr) (page_type : Z) (first : Z) (offsets : list nat) : M World () :=
  match offsets with
  | [] => mret ()
  | offset :: offsets =>
      _ ← (if decide (offset = 0%nat) then mret () else make_room (mret ()));
      _ ← install_fresh_frame (file, first + Z.of_nat offset) page_type 0;
      install_run file page_type first offsets
  end.

Definition allocate_run (file : pystr) (page_type count : Z) : M World Z :=
  if count <=? 0 then lift (raise_reason GrafxUnsupportedOperation "invalid_page_count")
  else
    _ ← prospective_index file;
    _ ← make_room (mret ());
    first ← on_dev (Storage.allocate file count);
    _ ← install_run file page_type first (seq 0 (Z.to_nat count));
    mret first.

(** *** Writing out *)

(** The candidates in the order [flush] takes them: page 0 of a file after its data pages. *)
Definition headers_last (candidates : list place) : list place :=
  filter (λ k, k.2 ≠ HEADER_PAGE_INDEX) candidates ++ filter (λ k, k.2 = HEADER_PAGE_INDEX) candidates.

Fixpoint flush_pages (candidates : list place) : M World Z :=
  match candidates with
  | [] => mret 0
  | k :: candidates =>
      resident ← get (λ P, frames P !! k);
      match resident with
      | Some fr =>
          if is_dirty fr then
            _ ← write_back_frame k fr; written ← flush_pages candidates; mret (written + 1)
          else _ ← update (refresh_dirty_candidate k); flush_pages candidates
      | None => _ ← update (refresh_dirty_candidate k); flush_pages candidates
      end
  end.

Definition flush (file : option pystr) : M World Z :=
  candidates ← get (dirty_candidate_keys file); flush_pages (headers_last candidates).

Definition resident_dirty (P : Pool) (k : place) : bool := from_option is_dirty false (frames P !! k).
Definition in_file (file : option pystr) (k : place) : bool :=
  match file with None => true | Some f => bool_decide (k.1 = f) end.

Definition modified_pages (file : option pystr) : M World (gset place) :=
  candidates ← get (dirty_candidate_keys file);
  live ← get (λ P, filter (λ k, resident_dirty P k = true) candidates);
  answer ← get (λ P, filter (λ k, in_file file k = true) (list_to_set live ∪ modified P));
  _ ← update (λ P, foldl (λ P k, refresh_dirty_candidate k P) P (filter (λ k, resident_dirty P k = false) candidates));
  mret answer.

(** The loop of [has_dirty_pages]: the clean candidates before the first dirty one are refreshed. *)
Fixpoint dirty_among (candidates : list place) : M World bool :=
  match candidates with
  | [] => mret false
  | k :: candidates =>
      found ← get (λ P, resident_dirty P k || existsb is_dirty (doomed_at k P));
      if (found : bool) then mret true
      else _ ← update (refresh_dirty_candidate k); dirty_among candidates
  end.

Definition has_dirty_pages (file : option pystr) : M World bool :=
  candidates ← get (dirty_candidate_keys file); dirty_among candidates.

Definition pages_written_back (file : option pystr) : M World (gset place) :=
  get (λ P, filter (λ k, in_file file k = true) (modified P)).

Definition write_back (k : place) : M World bool :=
  resident ← get (λ P, frames P !! k);
  match resident with None => mret false | Some fr => _ ← write_back_frame k fr; mret true end.

Definition forget_modified : M World () := update (with_modified ∅).

Fixpoint settle_claims (file : pystr) (claims : list Z) : M World Z :=
  match claims with
  | [] => mret 0
  | i :: claims =>
      unwritten ← claim_is_unwritten (file, i);
      if (unwritten : bool) then
        blank ← lift (Page.make (page_type_value FREE) (page_bytes cfg) i 0 0 0 NO_PAGE);
        _ ← write_back_page (file, i) None blank;
        written ← settle_claims file claims; mret (written + 1)
      else
        _ ← update (λ P, with_claims (grown P ∖ {[(file, i)]}) (abandoned P) P);
        settle_claims file claims
  end.

Fixpoint settle_files (names : list pystr) : M World Z :=
  match names with
  | [] => mret 0
  | file :: names =>
      claims ← get (λ P, default [] (abandoned P !! file));
      _ ← update (λ P, with_claims (grown P) (delete file (abandoned P)) P);
      n ← settle_claims file claims;
      m ← settle_files names;
      mret (n + m)
  end.

Definition settle_abandoned (file : option pystr) : M World Z :=
  names ← get (λ P, match file with Some f => [f] | None => merge_sort str_le (elements (dom (abandoned P))) end);
  settle_files names.

Definition durability_barrier (file : option pystr) : M World () := on_dev (durable_barrier file).

Definition checkpoint (file : option pystr) : M World Z :=
  written ← flush file; _ ← durability_barrier file; mret written.

(** *** Forgetting *)

Definition refuse_dirty {A} : M World A := lift (raise GrafxUnsupportedOperation "dirty").

Definition discard (k : place) : M World bool :=
  _ ← lift (require_page_index "page_index" k.2);
  resident ← get (λ P, frames P !! k);
  _ ← update (set_doomed k []);
  match resident with
  | None => _ ← update (refresh_dirty_candidate k); mret false
  | Some fr =>
      if negb (pins fr =? 0) then
        _ ← update (λ P, refresh_dirty_candidate k (change_frame k (mark false) P)); mret false
      else
        _ ← update (λ P, bump_drop_epoch k.1 (reclaim k (refresh_dirty_candidate k (remove_frame k P))));
        mret true
  end.

(** A dirty frame that may still be published. *)
Definition publishable (fr : Frame) : bool := is_dirty fr && negb (discard_unwritten fr).
Definition publishable_at (k : place) (P : Pool) : bool :=
  from_option publishable false (frames P !! k) || existsb publishable (doomed_at k P).

(** The frames of one page leave: a pinned resident one is doomed, and of those doomed before only
    the pinned ones stay, discard-only. *)
Definition drop_clean_frames (k : place) (P : Pool) : Pool :=
  let stay := discard_only <$> filter (λ fr, pins fr ≠ 0) (doomed_at k P) in
  let P' :=
    match frames P !! k with
    | Some fr =>
        set_doomed k (stay ++ (if pins fr =? 0 then [] else [doom true fr])) (remove_frame k P)
    | None => set_doomed k stay P
    end in
  refresh_dirty_candidate k P'.

Definition discard_clean_page (k : place) : M World bool :=
  _ ← lift (require_page_index "page_index" k.2);
  refused ← get (publishable_at k);
  if (refused : bool) then refuse_dirty
  else
    dropped ← get (λ P, bool_decide (is_Some (frames P !! k)));
    _ ← update (λ P, bump_drop_epoch k.1 (drop_clean_frames k P));
    mret dropped.

(** The places of a file, or of every file, that have a frame. *)
Definition framed (file : option pystr) (P : Pool) : list place :=
  elements (filter (λ k, in_file file k = true) (dom (frames P) ∪ dom (doomed_frames P))).

Definition resident_in (file : option pystr) (P : Pool) : list place :=
  filter (λ k, in_file file k = true) (order P).

Definition discard_clean_file (file : pystr) : M World Z :=
  targets ← get (framed (Some file));
  refused ← get (λ P, existsb (λ k, publishable_at k P) targets);
  if (refused : bool) then refuse_dirty
  else
    dropped ← get (λ P, zlen (resident_in (Some file) P));
    _ ← update (λ P, bump_drop_epoch file (foldl (λ P k, drop_clean_frames k P) P targets));
    mret dropped.

Definition replace_clean_page_without_read (k : place) (image : Page.t) : M World () :=
  _ ← lift (require_page_index "page_index" k.2);
  if k.2 =? HEADER_PAGE_INDEX then lift (raise GrafxUnsupportedOperation "page_sequence_base")
  else if negb (Page.page_index image =? k.2) then lift (raise GrafxCorruptionDetected "page_index")
  else
    _ ← discard_clean_page k;
    _ ← publish_page k None image;
    update (remember_write_back k).

(** The loop of [_invalidate] over the resident pages. *)
Fixpoint invalidate_pages (doom_pinned : bool) (targets : list place) : M World () :=
  match targets with
  | [] => mret ()
  | k :: targets =>
      resident ← get (λ P, frames P !! k);
      match resident with
      | None => invalidate_pages doom_pinned targets
      | Some fr =>
          _ ← (if negb (pins fr =? 0) then
                 update (λ P, refresh_dirty_candidate k
                   (add_doomed k (doom (doom_pinned && negb (is_dirty fr)) fr) (remove_frame k P)))
               else
                 _ ← (if is_dirty fr then write_back_frame k fr else mret ());
                 update (λ P, refresh_dirty_candidate k (remove_frame k P)));
          invalidate_pages doom_pinned targets
      end
  end.

Definition invalidate_ (file : option pystr) (doom_pinned : bool) : M World () :=
  targets ← get (resident_in file);
  pinned ← get (λ P, existsb (λ k, from_option (λ fr, negb (pins fr =? 0)) false (frames P !! k)) targets);
  if negb doom_pinned && pinned then lift (raise GrafxUnsupportedOperation "")
  else
    _ ← invalidate_pages doom_pinned targets;
    update (λ P, match file with None => bump_every_file_drop_epoch P | Some f => bump_drop_epoch f P end).

Definition invalidate (file : option pystr) : M World () := invalidate_ file false.

Definition require_file_unpinned (file : pystr) : M World () :=
  held ← get (λ P, existsb (λ k, from_option (λ fr, negb (pins fr =? 0)) false (frames P !! k)
                                 || existsb (λ fr, negb (pins fr =? 0)) (doomed_at k P)) (framed (Some file) P));
  if (held : bool) then lift (raise GrafxUnsupportedOperation "") else mret ().

Fixpoint discard_all (keys : list place) : M World () :=
  match keys with [] => mret () | k :: keys => _ ← discard k; discard_all keys end.

Definition discard_unowned_file (file : pystr) : M World () :=
  _ ← require_file_unpinned file;
  keys ← get (framed (Some file));
  _ ← discard_all keys;
  update (λ P, bump_drop_epoch file
    (with_claims (filter (λ k : place, k.1 ≠ file) (grown P)) (delete file (abandoned P)) P)).

(** *** Read views *)

(** A change set is proved clean before anything moves; [every_file] takes all there is. *)
Definition discard_clean_changes (pages : gset place) (files : gset pystr) (every_file : bool) : M World Z :=
  targets ← get (λ P,
    filter (λ k : place, every_file = true ∨ k ∈ pages ∨ k.1 ∈ files) (elements (dom (frames P) ∪ dom (doomed_frames P))));
  refused ← get (λ P, existsb (λ k, publishable_at k P) targets);
  if (refused : bool) then refuse_dirty
  else
    dropped ← get (λ P, zlen (filter (λ k, is_Some (frames P !! k)) targets));
    _ ← update (λ P, foldl (λ P k, drop_clean_frames k P) P targets);
    _ ← update (λ P,
      if every_file then bump_every_file_drop_epoch P
      else foldl (λ P f, bump_drop_epoch f P) P (elements (files ∪ set_map fst pages)));
    mret dropped.

Definition require_read_view_file (field : string) (file : pystr) : result pystr :=
  if bool_decide (file = []) || bool_decide (0 ∈ file) then raise GrafxConfigurationError field else Ok file.

Definition read_view_targets (changed_pages : list place) (changed_files : list pystr)
    : result (gset place * gset pystr) :=
  if (READ_VIEW_MAX_TARGETS <? zlen changed_pages) || (READ_VIEW_MAX_TARGETS <? zlen changed_files)
  then raise GrafxConfigurationError "read_view_changes"
  else
    pages ← traverse (λ k : place,
      file ← require_read_view_file "changed_pages" k.1; i ← require_page_index "changed_pages" k.2;
      Ok ((file, i) : place)) changed_pages;
    files ← traverse (require_read_view_file "changed_files") changed_files;
    let pages : gset place := list_to_set pages in
    let files : gset pystr := list_to_set files in
    if READ_VIEW_MAX_TARGETS <? Z.of_nat (size pages + size files) then raise GrafxConfigurationError "read_view_changes"
    else Ok (pages, files).

(** What a caller claims a new view is of. *)
Record Claim := MkClaim {
  token : option Z;
  own : bool;
  allow_writeback : bool;
  unfenced_file : option pystr;
  changed_pages : option (list place);
  changed_files : list pystr;
  expected_previous : option (option Z)
}.

Definition begin_read_view (c : Claim) : M World bool :=
  previous ← get read_view_token;
  targets ← lift (match changed_pages c with
    | None => Ok None
    | Some pages => t ← read_view_targets pages (changed_files c); Ok (Some t) end);
  unfenced ← lift (match unfenced_file c with
    | None => Ok None
    | Some f => f ← require_read_view_file "unfenced_file" f; Ok (Some f) end);
  let unfenced_set : gset pystr := match unfenced with None => ∅ | Some f => {[f]} end in
  if bool_decide (token c ≠ None ∧ token c = previous) then
    match unfenced with
    | None => mret false
    | Some _ => dropped ← discard_clean_changes ∅ unfenced_set false; mret (negb (dropped =? 0))
    end
  else
    dirty_elsewhere ← get (λ P, existsb (resident_dirty P)
      (filter (λ k : place, Some k.1 ≠ unfenced) (dirty_candidate_keys None P)));
    if own c && bool_decide (previous ≠ None) && negb dirty_elsewhere then
      match unfenced with
      | None => _ ← update (with_token (token c)); mret false
      | Some _ =>
          dropped ← discard_clean_changes ∅ unfenced_set false;
          _ ← update (with_token (token c));
          mret (negb (dropped =? 0))
      end
    else
      _ ← match targets with
          | Some (pages, files) =>
              if bool_decide (token c ≠ None ∧ previous ≠ None ∧ expected_previous c = Some previous) then
                let files := files ∪ unfenced_set in
                dropped ← discard_clean_changes (filter (λ k : place, k.1 ∉ files) pages) files false; mret ()
              else if bool_decide (previous ≠ None ∧ is_Some (expected_previous c) ∧ expected_previous c ≠ Some previous) then
                dropped ← discard_clean_changes ∅ ∅ true; mret ()
              else if allow_writeback c then invalidate_ None true
              else dropped ← discard_clean_changes ∅ ∅ true; mret ()
          | None =>
              if allow_writeback c then invalidate_ None true
              else dropped ← discard_clean_changes ∅ ∅ true; mret ()
          end;
      _ ← update (with_token (token c));
      mret true.
End with_config.
End pool.
