(* ===== verification/BufferTheorems.v ===== *)
(** The page cache of [BufferPool]: what its doors keep.

    [picture] is what a page says, and a pool over a device shows a picture at every place: that of
    the resident page, or what a reader of the device decodes.  [wf_pool] is the invariant of the
    tables, the index of dirty candidates and the budget included; [moved] says that a door left
    what is shown as it was.  Each door is proved to keep both, whether it returns or raises. *)

From S2P Require Import Prelude Ids Layout Slotted SlottedCodec Utf8 Storage ControlRecord BufferPool.
Import Page.

(** ** What a page says *)

(** What a page says: all but its place, its sequence counter, its dirty mark and how its payloads
    lie in its bytes. *)
Record Picture := MkPicture {
  pic_type : Z;
  pic_flags : Z;
  pic_lsn : Z;
  pic_next : Z;
  pic_reserved : Z;
  pic_contents : list (option bytes)
}.

Definition picture (p : Page.t) : Picture :=
  MkPicture (page_type p) (flags p) (page_lsn p) (next_page p) (reserved p) (contents p).

Lemma picture_reload p i : wf p → 0 <= i <= MAX_U32 → picture (reload p i) = picture p.
Proof. intros Hwf Hi. destruct (reload_wf p i Hwf Hi) as [_ Hc]. unfold picture. by rewrite Hc. Qed.

(** *** Sequence counters *)

Lemma next_seq_range s : 0 <= next_seq s <= MAX_U32.
Proof.
  unfold next_seq. change MAX_SEQ with (Z.ones 32). rewrite Z.land_ones by lia.
  pose proof (Z.mod_pos_bound (Z.lor s 1 + 1) (2 ^ 32) ltac:(lia)). unfold MAX_U32. lia.
Qed.

Lemma next_seq_even s : next_seq s mod 2 = 0.
Proof.
  unfold next_seq. change MAX_SEQ with (Z.ones 32). rewrite Z.land_ones by lia.
  rewrite Z.mod_mod_divide by (exists (2 ^ 31); lia).
  rewrite <-Z.add_mod_idemp_l by done. assert (Z.lor s 1 mod 2 = 1) as ->; [|done].
  change 2 with (2 ^ 1). rewrite <-Z.land_ones by lia. change (Z.ones 1) with 1.
  rewrite Z.land_lor_distr_l. apply Z.bits_inj'. intros n Hn. rewrite Z.lor_spec, !Z.land_spec.
  destruct (Z.testbit s n), (Z.testbit 1 n); done.
Qed.

(** ** Pictures on a device *)

Section device.
Variable ps : Z.

Definition blank (page_type : Z) : Page.t := Mk ps 0 page_type 0 0 0 NO_PAGE 0 [] (zeros ps) PAGE_HEADER_SIZE false.

Definition image_picture (raw : bytes) : option Picture :=
  if is_unwritten_image raw ps then Some (picture (blank (page_type_value FREE)))
  else
    match decode_page ps raw with
    | Ok p => if seq p mod 2 =? 1 then None else Some (picture p)
    | Err _ => None
    end.

Definition image_at (F : gmap pystr bytes) (k : place) : option bytes :=
  c ← F !! k.1;
  if (0 <=? k.2) && ((k.2 + 1) * ps <=? zlen c) then Some (page_slice ps c k.2) else None.

(** What a reader of the device finds at a place: nothing where no page decodes. *)
Definition device_picture (F : gmap pystr bytes) (k : place) : option Picture := image_at F k ≫= image_picture.

Lemma image_at_Some F k c : F !! k.1 = Some c → 0 <= k.2 → (k.2 + 1) * ps <= zlen c →
  image_at F k = Some (page_slice ps c k.2).
Proof. intros H ??. unfold image_at. rewrite H. cbn. by rewrite (proj2 (Z.leb_le _ _)), (proj2 (Z.leb_le _ _)). Qed.

Lemma image_at_other F F' k : F' !! k.1 = F !! k.1 → image_at F' k = image_at F k.
Proof. intros H. unfold image_at. by rewrite H. Qed.

Lemma image_at_set F F' f c i img (k : place) : 0 <= ps → zlen img = ps → F !! f = Some c → 0 <= i → (i + 1) * ps <= zlen c →
  F' !! f = Some (set_page ps c i img) → (∀ g, g ≠ f → F' !! g = F !! g) →
  image_at F' k = if decide (k = (f, i)) then Some img else image_at F k.
Proof.
  intros Hps Himg Hc Hi Hl HF' Ho. destruct (decide (k.1 = f)) as [Hf|Hf].
  - assert (zlen (set_page ps c i img) = zlen c) as Hz.
    { unfold set_page. rewrite zlen_set_slice; nia. }
    unfold image_at. rewrite Hf, HF', Hc. cbn. rewrite Hz.
    destruct (Z.leb_spec 0 k.2), (Z.leb_spec ((k.2 + 1) * ps) (zlen c)); cbn;
      try (case_decide as Hk; [subst k; cbn in *; nia|done]).
    rewrite page_slice_set_page by done.
    destruct k as [g j]. cbn in *. subst g. repeat case_decide; congruence.
  - rewrite (image_at_other F F') by (by apply Ho). case_decide; [by subst k|done].
Qed.

Lemma slice_zeros n a b : 0 <= a → a <= b → b <= n → slice (zeros n) a b = zeros (b - a).
Proof.
  intros. unfold slice, zeros. rewrite drop_replicate, take_replicate. f_equal. lia.
Qed.

(** A file grown by zeros shows the new pages blank. *)
Lemma image_at_grown F F' f c n (k : place) : 0 < ps → 0 <= n → F !! f = Some c → zlen c mod ps = 0 →
  F' !! f = Some (c ++ zeros n) → (∀ g, g ≠ f → F' !! g = F !! g) →
  image_at F' k = if decide (k.1 = f ∧ zlen c <= k.2 * ps ∧ (k.2 + 1) * ps <= zlen c + n) then Some (zeros ps) else image_at F k.
Proof.
  intros Hps Hn Hc Hm HF' Ho. destruct (decide (k.1 = f)) as [Hf|Hf].
  - pose proof (Z.div_mod (zlen c) ps ltac:(lia)) as Hd. rewrite Hm in Hd. set (q := zlen c / ps) in *.
    assert (zlen c = q * ps) as Hq by lia. assert (0 <= q) by (pose proof (zlen_nonneg c); nia).
    unfold image_at. rewrite Hf, HF', Hc. cbn. rewrite zlen_app, zlen_zeros by done.
    case_decide as Hr.
    + rewrite (proj2 (Z.leb_le _ _)), (proj2 (Z.leb_le _ _)) by nia. cbn. f_equal. unfold page_slice.
      rewrite slice_app_r by nia. rewrite slice_zeros by nia. f_equal. lia.
    + destruct (Z.leb_spec 0 k.2), (Z.leb_spec ((k.2 + 1) * ps) (zlen c)); cbn.
      * rewrite (proj2 (Z.leb_le _ _)) by nia. unfold page_slice. by rewrite slice_app_l by nia.
      * rewrite (proj2 (Z.leb_gt _ _)); [done|]. apply Z.nle_gt. intros Hle. apply Hr.
        assert (q <= k.2) by (apply Z.lt_succ_r, (Z.mul_lt_mono_pos_r ps); lia). split_and!; [done|nia|lia].
      * done.
      * done.
  - rewrite (image_at_other F F') by (by apply Ho). case_decide; [naive_solver|done].
Qed.

Lemma zeros_unwritten : 0 < ps → is_unwritten_image (zeros ps) ps = true.
Proof.
  intros. unfold is_unwritten_image. rewrite zlen_zeros, Z.eqb_refl by lia. rewrite (proj2 (Z.ltb_lt _ _)) by done. cbn.
  apply negb_true_iff, not_true_iff_false. intros (b & Hb & Hz)%existsb_exists. unfold zeros in Hb.
  apply list_elem_of_In, elem_of_replicate in Hb as [-> _]. done.
Qed.

(** What is encoded under an even counter is found again. *)
Lemma encoded_picture p raw : wf p → seq p mod 2 = 0 → encode_page ps p = Ok raw →
  zlen raw = ps ∧ image_picture raw = Some (picture p).
Proof.
  intros Hwf Hs He. unfold encode_page in He. destruct (Z.eqb_spec (page_size p) ps) as [Hps|]; [|done]. cbn in He.
  inv_ok He. destruct (Z.eqb_spec (zlen x) ps) as [Hz|]; [|done]. injection He as ->. split; [done|].
  unfold image_picture. rewrite <-Hps at 1. rewrite (written_page_is_written p raw Hwf E).
  rewrite to_bytes_ok in E by done. injection E as <-. unfold decode_page. rewrite <-Hps.
  rewrite (from_bytes_image p None true Hwf) by (cbn; unfold MAX_U32; lia). cbn [default].
  change (seq (reload p 0)) with (seq p). rewrite Hs. cbn. f_equal. apply (picture_reload p 0 Hwf). unfold MAX_U32. lia.
Qed.
End device.

(** *** What a pool shows *)

Definition cached (P : Pool) : gmap place Page.t := BufferPool.page <$> frames P.

Section view.
Variable ps : Z.

Definition shown_at (F : gmap pystr bytes) (C : gmap place Page.t) (k : place) : option Picture :=
  match C !! k with Some p => Some (picture p) | None => device_picture ps F k end.

(** A cached page has its place on the device, which holds it when it is clean. *)
Definition faithful_to (F : gmap pystr bytes) (C : gmap place Page.t) : Prop :=
  ∀ k p, C !! k = Some p → is_Some (image_at ps F k) ∧ (dirty p = false → device_picture ps F k = Some (picture p)).

(** No page of the device goes. *)
Definition pages_stay (F F' : gmap pystr bytes) : Prop := ∀ k, is_Some (image_at ps F k) → is_Some (image_at ps F' k).

Definition moved F C F' C' : Prop :=
  pages_stay F F' ∧ (faithful_to F C → faithful_to F' C' ∧ ∀ k, shown_at F' C' k = shown_at F C k).

(** Nothing but the page at [k] changed, and no page went. *)
Definition same_but (F F' : gmap pystr bytes) (k : place) : Prop :=
  (∀ k', k' ≠ k → device_picture ps F' k' = device_picture ps F k') ∧ pages_stay F F'.

Lemma same_but_refl F k : same_but F F k.
Proof. split; [done|by intros k']. Qed.

Lemma pictured_place F k p : device_picture ps F k = Some p → is_Some (image_at ps F k).
Proof. unfold device_picture. destruct (image_at ps F k); [by eexists|done]. Qed.

Lemma pages_stay_refl F : pages_stay F F.
Proof. by intros k. Qed.

Lemma moved_refl F C : moved F C F C.
Proof. split; [apply pages_stay_refl|done]. Qed.

Lemma moved_trans F C F1 C1 F2 C2 : moved F C F1 C1 → moved F1 C1 F2 C2 → moved F C F2 C2.
Proof.
  intros [Hp1 H1] [Hp2 H2]. split; [intros k Hk; by apply Hp2, Hp1|]. intros H. destruct (H1 H) as [Hf Hs].
  destruct (H2 Hf) as [Hf' Hs']. split; [done|]. intros k. by rewrite Hs'.
Qed.

Lemma moved_failed F C F' k p q : C !! k = Some p → picture q = picture p →
  dirty q = true ∨ (dirty q = false → dirty p = false) ∧ device_picture ps F' k = device_picture ps F k →
  same_but F F' k → moved F C F' (<[k := q]> C).
Proof.
  intros HC Hq Hd [Ho Hi]. split; [exact Hi|]. intros Hf. split.
  - intros k' p'. destruct (decide (k' = k)) as [->|Hk].
    + rewrite lookup_insert_eq. intros [= <-]. destruct (Hf _ _ HC) as [Hp Hc]. split; [auto|]. intros Hq0.
      destruct Hd as [Hd|[Hd Hd']]; [congruence|]. rewrite Hd', Hq. auto.
    + rewrite lookup_insert_ne by done. intros Hp'. destruct (Hf _ _ Hp') as [Hp Hc]. split; [auto|]. by rewrite Ho.
  - intros k'. unfold shown_at. destruct (decide (k' = k)) as [->|Hk].
    + rewrite lookup_insert_eq, HC. by rewrite Hq.
    + rewrite lookup_insert_ne by done. case_match; [done|]. by apply Ho.
Qed.

Lemma moved_written F C F' k p q : C !! k = Some p → picture q = picture p →
  device_picture ps F' k = Some (picture p) → same_but F F' k → moved F C F' (<[k := q]> C).
Proof.
  intros HC Hq Hd [Ho Hi]. split; [exact Hi|]. intros Hf. split.
  - intros k' p'. destruct (decide (k' = k)) as [->|Hk].
    + rewrite lookup_insert_eq. intros [= <-]. split; [by eapply pictured_place|]. intros _. by rewrite Hd, Hq.
    + rewrite lookup_insert_ne by done. intros Hp'. destruct (Hf _ _ Hp') as [Hp Hc]. split; [auto|]. by rewrite Ho.
  - intros k'. unfold shown_at. destruct (decide (k' = k)) as [->|Hk].
    + rewrite lookup_insert_eq, HC. by rewrite Hq.
    + rewrite lookup_insert_ne by done. case_match; [done|]. by apply Ho.
Qed.

Lemma moved_forget F C k p : C !! k = Some p → dirty p = false → moved F C F (delete k C).
Proof.
  intros HC Hd. split; [by intros k'|]. intros Hf. split.
  - intros k' p' [_ Hp']%lookup_delete_Some. by apply Hf.
  - intros k'. unfold shown_at. destruct (decide (k' = k)) as [->|Hk].
    + rewrite lookup_delete_eq, HC. by apply Hf.
    + by rewrite lookup_delete_ne.
Qed.

Lemma moved_admit F C k p : C !! k = None → device_picture ps F k = Some (picture p) → moved F C F (<[k := p]> C).
Proof.
  intros HC Hd. split; [by intros k'|]. intros Hf. split.
  - intros k' p'. destruct (decide (k' = k)) as [->|Hk].
    + rewrite lookup_insert_eq. intros [= <-]. split; [by eapply pictured_place|done].
    + rewrite lookup_insert_ne by done. by apply Hf.
  - intros k'. unfold shown_at. destruct (decide (k' = k)) as [->|Hk].
    + by rewrite lookup_insert_eq, HC.
    + by rewrite lookup_insert_ne.
Qed.
End view.

(** ** The invariant of the tables *)

Section invariant.
Variable cfg : Config.
#[local] Abbreviation ps := (page_bytes cfg).

Record frame_ok (n : nat) (fr : Frame) : Prop := {
  fo_wf : wf (BufferPool.page fr);
  fo_size : page_size (BufferPool.page fr) = ps;
  fo_pins : 0 <= pins fr;
  fo_object : (object fr < n)%nat
}.

Definition in_range (k : place) : Prop := 0 <= k.2 <= MAX_PAGE_INDEX.

Record table_ok (P : Pool) : Prop := {
  to_order : NoDup (order P);
  to_members k : k ∈ order P ↔ is_Some (frames P !! k);
  to_frame k fr : frames P !! k = Some fr → frame_ok (next_object P) fr ∧ in_range k;
  to_doomed k fr : fr ∈ doomed_at k P → frame_ok (next_object P) fr ∧ in_range k;
  to_distinct k : NoDup (object <$> option_list (frames P !! k) ++ doomed_at k P);
  to_linger f l : clean_candidate_linger P !! f = Some l → l ≠ [] ∧ NoDup l ∧ zlen l <= CLEAN_CANDIDATE_LINGER_PER_FILE
}.

(** A page that is dirty, or that a holder can make dirty. *)
Definition needs (P : Pool) (k : place) : bool :=
  from_option frame_needs_dirty_candidate false (frames P !! k)
  || existsb frame_needs_dirty_candidate (doomed_at k P).

Definition lingers (P : Pool) (k : place) : Prop := k.2 ∈ default [] (clean_candidate_linger P !! k.1).

(** The index of candidates is the full scan of the frames, and the pages that linger. *)
Definition covered_if (φ : place → Prop) (P : Pool) : Prop :=
  ∀ k, φ k → k ∈ dirty_candidates P ↔ needs P k = true ∨ lingers P k.
Definition covered : Pool → Prop := covered_if (λ _, True).

Record wf_pool (P : Pool) : Prop := {
  wp_table : table_ok P;
  wp_covered : covered P;
  wp_room : Z.of_nat (size (frames P)) * ps <= budget_bytes cfg
}.

(** *** The candidate index *)

Lemma set_list_lookup {K A} `{Countable K} (k k' : K) (l : list A) (m : gmap K (list A)) :
  default [] (set_list k l m !! k') = if decide (k' = k) then l else default [] (m !! k').
Proof.
  unfold set_list. destruct l as [|x l]; case_decide; subst;
    rewrite ?lookup_delete_eq, ?lookup_insert_eq, ?lookup_delete_ne, ?lookup_insert_ne by done; done.
Qed.

Lemma set_list_Some {K A} `{Countable K} (k k' : K) (l : list A) (m : gmap K (list A)) l' :
  set_list k l m !! k' = Some l' → k' = k ∧ l' = l ∧ l ≠ [] ∨ k' ≠ k ∧ m !! k' = Some l'.
Proof.
  unfold set_list. destruct l as [|x l], (decide (k' = k)) as [->|?];
    rewrite ?lookup_delete_eq, ?lookup_insert_eq, ?lookup_delete_ne, ?lookup_insert_ne by done; naive_solver.
Qed.

Definition linger_ok (m : gmap pystr (list Z)) : Prop :=
  ∀ f l, m !! f = Some l → l ≠ [] ∧ NoDup l ∧ zlen l <= CLEAN_CANDIDATE_LINGER_PER_FILE.

(** Every change of the index is this one. *)
Definition recandidated (P P' : Pool) : Prop :=
  ∃ c l, P' = with_candidates c l P ∧ (linger_ok (clean_candidate_linger P) → linger_ok l).

Lemma recandidated_table P P' : recandidated P P' → table_ok P → table_ok P'.
Proof. intros (c & l & -> & Hl) [????? Ht]. split; try done. by apply Hl. Qed.

Lemma recandidated_refl P : recandidated P P.
Proof. exists (dirty_candidates P), (clean_candidate_linger P). by destruct P. Qed.

Lemma recandidated_trans P P1 P2 : recandidated P P1 → recandidated P1 P2 → recandidated P P2.
Proof. intros (c & l & -> & H1) (c2 & l2 & -> & H2). exists c2, l2. split; [done|]. naive_solver. Qed.

Lemma forget_recandidated k P : recandidated P (forget_clean_linger k P).
Proof.
  unfold forget_clean_linger. destruct (_ !! k.1) as [l|] eqn:E; [|apply recandidated_refl].
  eexists _, _. split; [done|]. intros Hl f l' [(-> & -> & Hne)|[Hne H]]%set_list_Some; [|by apply (Hl f)].
  destruct (Hl _ _ E) as (_ & Hnd & Hz). split_and!; [done|by apply NoDup_filter|].
  unfold zlen in *. pose proof (length_filter (λ i, i ≠ k.2) l). lia.
Qed.

Lemma refresh_recandidated k P : recandidated P (refresh_dirty_candidate k P).
Proof.
  unfold refresh_dirty_candidate. case_match.
  - eapply recandidated_trans; [apply (forget_recandidated k)|]. by eexists _, _.
  - unfold remove_dirty_candidate. eapply recandidated_trans; [|apply (forget_recandidated k)]. by eexists _, _.
Qed.

Lemma forget_lingers k k' P : lingers (forget_clean_linger k P) k' ↔ k' ≠ k ∧ lingers P k'.
Proof.
  unfold forget_clean_linger, lingers. destruct k as [f i], k' as [f' i']. cbn.
  destruct (clean_candidate_linger P !! f) as [l|] eqn:E.
  - cbn. rewrite set_list_lookup. case_decide as Hf.
    + subst. rewrite E. cbn. rewrite list_elem_of_filter. naive_solver.
    + naive_solver.
  - split; [|naive_solver]. intros H. split; [|done]. intros [= -> ->]. rewrite E in H. cbn in H. by apply not_elem_of_nil in H.
Qed.

Lemma forget_candidates k P : dirty_candidates (forget_clean_linger k P) = dirty_candidates P.
Proof. unfold forget_clean_linger. by case_match. Qed.

Lemma recandidated_needs P P' k : recandidated P P' → needs P' k = needs P k.
Proof. by intros (c & l & -> & _). Qed.

Lemma refresh_covers φ k P : covered_if (λ k', k' ≠ k ∧ φ k') P → covered_if φ (refresh_dirty_candidate k P).
Proof.
  intros H k' Hφ. rewrite (recandidated_needs _ _ _ (refresh_recandidated k P)).
  unfold refresh_dirty_candidate. fold (needs P k). destruct (needs P k) eqn:Hn.
  - cbn. rewrite forget_candidates. unfold lingers at 1. cbn.
    change (_ ∈ default [] _) with (lingers (forget_clean_linger k P) k'). rewrite forget_lingers.
    rewrite elem_of_union, elem_of_singleton. destruct (decide (k' = k)) as [->|Hk]; [by rewrite Hn; naive_solver|].
    specialize (H k' (conj Hk Hφ)). naive_solver.
  - unfold remove_dirty_candidate. rewrite forget_candidates, forget_lingers. cbn. unfold lingers. cbn.
    fold (lingers P k'). rewrite elem_of_difference, elem_of_singleton.
    destruct (decide (k' = k)) as [->|Hk]; [rewrite Hn; naive_solver|]. specialize (H k' (conj Hk Hφ)). naive_solver.
Qed.

Lemma linger_recandidated k P : recandidated P (linger_clean_candidate k P).
Proof.
  unfold linger_clean_candidate. case_bool_decide as Hin; [apply recandidated_refl|].
  set (l := default [] (clean_candidate_linger P !! k.1)) in *.
  assert (linger_ok (clean_candidate_linger P) → NoDup (l ++ [k.2]) ∧ zlen l <= CLEAN_CANDIDATE_LINGER_PER_FILE) as Hnd.
  { intros Hl. subst l. destruct (_ !! k.1) as [l|] eqn:E; cbn in *.
    - destruct (Hl _ _ E) as (_ & Hnd & Hz). split; [|done]. apply NoDup_app. split_and!; [done| |apply NoDup_singleton].
      intros x Hx ->%list_elem_of_singleton. done.
    - split; [apply NoDup_singleton|done]. }
  case_match eqn:Hz; [|destruct (l ++ [k.2]) as [|oldest rest] eqn:Hl].
  - eexists _, _. split; [done|]. cbn. intros Hok f l'. destruct (decide (f = k.1)) as [->|?].
    + rewrite lookup_insert_eq. intros [= <-]. split_and!; [by destruct l|by apply Hnd|by apply Z.leb_le].
    + rewrite lookup_insert_ne by done. apply Hok.
  - by destruct l.
  - eapply recandidated_trans; [|apply refresh_recandidated]. eexists _, _. split; [done|]. cbn.
    intros Hok f l' [(-> & -> & Hne)|[Hne H]]%set_list_Some.
    + destruct (Hnd Hok) as [Hd Hzl]. apply NoDup_cons in Hd as [_ Hd]. split_and!; [done|done|].
      assert (zlen (l ++ [k.2]) = zlen (oldest :: rest)) as He by (by rewrite Hl).
      rewrite zlen_app in He. unfold zlen in *. cbn in He. lia.
    + rewrite lookup_insert_ne in H by done. by apply (Hok f).
Qed.

Lemma linger_covers k P : covered_if (λ k', k' ≠ k) P → k ∈ dirty_candidates P →
  covered (linger_clean_candidate k P).
Proof.
  intros H Hk. unfold linger_clean_candidate. case_bool_decide as Hin.
  { intros k' _. destruct (decide (k' = k)) as [->|Hk']; [|by apply H]. split; [by right|done]. }
  set (l := default [] (clean_candidate_linger P !! k.1)) in *.
  assert (∀ m P', P' = add_dirty_candidate k (with_candidates (dirty_candidates P) (<[k.1 := l ++ [k.2]]> m) P) →
    m = clean_candidate_linger P → covered P') as Hadd.
  { intros m P' -> -> k' _. cbn. unfold needs. cbn. fold (needs P k'). unfold lingers. cbn.
    rewrite elem_of_union, elem_of_singleton. destruct k as [f i], k' as [f' i']. cbn in *.
    destruct (decide (f' = f)) as [->|Hf].
    - rewrite lookup_insert_eq. cbn. rewrite elem_of_app, list_elem_of_singleton. fold l.
      destruct (decide (i' = i)) as [->|Hi]; [naive_solver|].
      specialize (H (f, i') ltac:(naive_solver)). unfold lingers in H. cbn in H. fold l in H. naive_solver.
    - rewrite lookup_insert_ne by done. specialize (H (f', i') ltac:(naive_solver)). unfold lingers in H. naive_solver. }
  specialize (Hadd _ _ eq_refl eq_refl). case_match; [done|]. destruct (l ++ [k.2]) as [|oldest rest] eqn:Hl; [done|].
  apply refresh_covers. intros k' [Hne _]. specialize (Hadd k' I). cbn in Hadd |- *. unfold needs in *. cbn in *.
  rewrite Hadd. unfold lingers. cbn. rewrite set_list_lookup. case_decide as Hf; [|by rewrite lookup_insert_ne by done].
  rewrite Hf, lookup_insert_eq. cbn. rewrite elem_of_cons. destruct k' as [f' i']. cbn in *. subst. naive_solver.
Qed.

Lemma covered_oracle P : covered P → assert_dirty_candidate_coverage P = true.
Proof.
  intros Hc. unfold assert_dirty_candidate_coverage. apply bool_decide_eq_true, set_eq. intros k.
  rewrite (Hc k I). rewrite !elem_of_union, !elem_of_filter, !elem_of_dom, elem_of_list_to_set.
  assert (k ∈ ('(file, indexes) ← map_to_list (clean_candidate_linger P); (λ i, (file, i)) <$> (indexes : list Z)) ↔ lingers P k) as ->.
  { rewrite list_elem_of_bind. unfold lingers. destruct k as [f i]. cbn. split.
    - intros ([f' l] & Hin & Hl%elem_of_map_to_list). apply list_elem_of_fmap in Hin as (j & [= -> ->] & Hj). by rewrite Hl.
    - intros H. destruct (clean_candidate_linger P !! f) as [l|] eqn:E; [|by apply not_elem_of_nil in H].
      exists (f, l). rewrite elem_of_map_to_list. split; [by apply list_elem_of_fmap_2|done]. }
  unfold needs, doomed_at. destruct (frames P !! k) as [fr|], (doomed_frames P !! k) as [l|]; cbn;
    rewrite ?orb_true_iff; naive_solver.
Qed.

(** *** Changes of the tables *)

(** A change that leaves the other pages alone. *)
Definition elsewhere (P P' : Pool) (k : place) : Prop :=
  (∀ k', k' ≠ k → frames P' !! k' = frames P !! k' ∧ doomed_at k' P' = doomed_at k' P) ∧
  dirty_candidates P' = dirty_candidates P ∧ clean_candidate_linger P' = clean_candidate_linger P.

Lemma elsewhere_covered φ P P' k : elsewhere P P' k → covered_if φ P → covered_if (λ k', k' ≠ k ∧ φ k') P'.
Proof.
  intros (He & Hc & Hl) H k' [Hk Hφ]. specialize (H k' Hφ). destruct (He k' Hk) as [Hf Hd].
  unfold needs, lingers in *. by rewrite Hc, Hl, Hf, Hd.
Qed.

Lemma doomed_at_alter f k k' P : doomed_at k' (with_doomed (alter (fmap f) k (doomed_frames P)) P)
  = if decide (k' = k) then f <$> doomed_at k P else doomed_at k' P.
Proof.
  unfold doomed_at. cbn. case_decide as Hk; [subst|by rewrite lookup_alter_ne].
  rewrite lookup_alter_eq. by destruct (doomed_frames P !! k).
Qed.

Lemma change_owned_frames k o g P k' : frames (change_owned k o g P) !! k'
  = (if decide (k' = k) then (λ fr, if decide (object fr = o) then g fr else fr) <$> frames P !! k else frames P !! k').
Proof.
  unfold change_owned. cbn. case_decide as Hk; [subst; by rewrite lookup_alter_eq|by rewrite lookup_alter_ne].
Qed.

Lemma change_owned_doomed k o g P k' : doomed_at k' (change_owned k o g P)
  = if decide (k' = k) then (λ fr, if decide (object fr = o) then g fr else fr) <$> doomed_at k P else doomed_at k' P.
Proof.
  unfold change_owned, doomed_at. cbn. case_decide as Hk; [subst|by rewrite lookup_alter_ne].
  rewrite lookup_alter_eq. by destruct (doomed_frames P !! k).
Qed.

Lemma change_owned_elsewhere k o g P : elsewhere P (change_owned k o g P) k.
Proof.
  split_and!; try done. intros k' Hk. rewrite change_owned_frames, change_owned_doomed. by rewrite !decide_False.
Qed.

Lemma change_owned_table k o g P : table_ok P →
  (∀ fr, object fr = o → frame_ok (next_object P) fr → frame_ok (next_object P) (g fr) ∧ object (g fr) = o) →
  table_ok (change_owned k o g P).
Proof.
  intros [Ho Hm Hf Hd Hn Hl] Hg. split; [done| | | | |done].
  - intros k'. rewrite change_owned_frames. cbn. rewrite Hm. case_decide; [subst; by rewrite fmap_is_Some|done].
  - intros k' fr. rewrite change_owned_frames. case_decide as Hk; [subst|by apply Hf].
    intros (fr0 & H & ->)%fmap_Some. destruct (Hf _ _ H) as [Hok Hr]. split; [|done]. case_decide; [by apply Hg|done].
  - intros k' fr. rewrite change_owned_doomed. case_decide as Hk; [subst|by apply Hd].
    intros (fr0 & -> & H)%list_elem_of_fmap. destruct (Hd _ _ H) as [Hok Hr]. split; [|done]. case_decide; [by apply Hg|done].
  - intros k'. rewrite change_owned_frames, change_owned_doomed. case_decide as Hk; [subst|by apply Hn].
    specialize (Hn k). enough ((object <$> option_list ((λ fr, if decide (object fr = o) then g fr else fr) <$> frames P !! k)
      ++ ((λ fr, if decide (object fr = o) then g fr else fr) <$> doomed_at k P))
      = (object <$> option_list (frames P !! k) ++ doomed_at k P)) as -> by done.
    assert (∀ fr, frame_ok (next_object P) fr → object (if decide (object fr = o) then g fr else fr) = object fr) as Hobj.
    { intros fr Hok. case_decide as E; [|done]. rewrite E. by apply Hg. }
    rewrite !fmap_app, <-list_fmap_compose. f_equal.
    + destruct (frames P !! k) as [fr|] eqn:E; cbn; [|done]. by rewrite Hobj by (by eapply Hf).
    + apply list_fmap_ext. intros i fr Hi. cbn. apply Hobj. eapply Hd. by eapply list_elem_of_lookup_2.
Qed.

(** Changing the resident page changes nothing else. *)
Lemma change_owned_resident k o g P fr : table_ok P → frames P !! k = Some fr → object fr = o →
  change_owned k o g P = with_frames (<[k := g fr]> (frames P)) (order P) P.
Proof.
  intros Ht Hf Ho. unfold change_owned, change_frame, with_doomed, with_frames. destruct P as [fs od ds ? ? ? ? ? ? ? ? ? ?]. cbn in *. f_equal.
  - apply map_eq. intros k'. destruct (decide (k' = k)) as [->|Hk].
    + rewrite lookup_alter_eq, lookup_insert_eq, Hf. cbn. by rewrite decide_True.
    + by rewrite lookup_alter_ne, lookup_insert_ne.
  - apply map_eq. intros k'. destruct (decide (k' = k)) as [->|Hk]; [|by rewrite lookup_alter_ne].
    rewrite lookup_alter_eq. destruct (ds !! k) as [l|] eqn:E; [|done]. cbn. f_equal.
    pose proof (to_distinct _ Ht k) as Hn. unfold doomed_at in Hn. cbn in Hn. rewrite Hf, E in Hn. cbn in Hn.
    apply NoDup_cons in Hn as [Hn _]. rewrite <-(list_fmap_id l) at 2. apply list_fmap_ext. intros i x Hx. cbn.
    case_decide as Hox; [|done]. destruct Hn. rewrite Ho, <-Hox. apply list_elem_of_fmap_2. by eapply list_elem_of_lookup_2.
Qed.

Lemma cached_insert k fr P o : cached (with_frames (<[k := fr]> (frames P)) o P) = <[k := BufferPool.page fr]> (cached P).
Proof. unfold cached. cbn. apply fmap_insert. Qed.

Lemma remove_frame_table k P : table_ok P → table_ok (remove_frame k P).
Proof.
  intros [Ho Hm Hf Hd Hn Hl]. split; [by apply NoDup_filter| | |done| |done].
  - intros k'. cbn. rewrite list_elem_of_filter, Hm. destruct (decide (k' = k)) as [->|Hk].
    + rewrite lookup_delete_eq. split; [naive_solver|]. by intros [].
    + rewrite lookup_delete_ne by done. naive_solver.
  - intros k' fr. cbn. intros [_ H]%lookup_delete_Some. by apply Hf.
  - intros k'. cbn. unfold doomed_at. cbn. fold (doomed_at k' P). specialize (Hn k').
    destruct (decide (k' = k)) as [->|Hk]; [|by rewrite lookup_delete_ne].
    rewrite lookup_delete_eq. cbn. rewrite fmap_app in Hn. by apply NoDup_app in Hn as (_ & _ & Hn).
Qed.

Lemma remove_frame_elsewhere k P : elsewhere P (remove_frame k P) k.
Proof. split_and!; try done. intros k' Hk. cbn. by rewrite lookup_delete_ne. Qed.

Lemma remove_frame_size k P fr : frames P !! k = Some fr → size (frames P) = S (size (frames (remove_frame k P))).
Proof. intros H. cbn. rewrite map_size_delete, H. pose proof (map_size_ne_0_lookup_2 _ k ltac:(by eexists)). lia. Qed.

Lemma change_frame_table k f P : table_ok P →
  (∀ fr, frames P !! k = Some fr → frame_ok (next_object P) fr → frame_ok (next_object P) (f fr) ∧ object (f fr) = object fr) →
  table_ok (change_frame k f P).
Proof.
  intros [Ho Hm Hf Hd Hn Hl] Hg. split; [done| | |done| |done].
  - intros k'. cbn. rewrite Hm. destruct (decide (k' = k)) as [->|Hk]; [|by rewrite lookup_alter_ne].
    rewrite lookup_alter_eq. by rewrite fmap_is_Some.
  - intros k' fr. cbn. destruct (decide (k' = k)) as [->|Hk]; [|rewrite lookup_alter_ne by done; by apply Hf].
    rewrite lookup_alter_eq. intros (fr0 & H & ->)%fmap_Some. destruct (Hf _ _ H) as [Hok Hr]. split; [|done]. by apply Hg.
  - intros k'. cbn. specialize (Hn k'). destruct (decide (k' = k)) as [->|Hk]; [|by rewrite lookup_alter_ne].
    rewrite lookup_alter_eq. change (doomed_at k _) with (doomed_at k P). destruct (frames P !! k) as [fr|] eqn:E; [|done].
    cbn in *. destruct (Hg fr eq_refl) as [_ ->]; [by eapply Hf|done].
Qed.

Lemma change_frame_elsewhere k f P : elsewhere P (change_frame k f P) k.
Proof. split_and!; try done. intros k' Hk. cbn. by rewrite lookup_alter_ne. Qed.

Lemma move_to_end_table k P : table_ok P → is_Some (frames P !! k) → table_ok (move_to_end k P).
Proof.
  intros [Ho Hm Hf Hd Hn Hl] Hk. split; [| |done..].
  - cbn. apply NoDup_app. split_and!; [by apply NoDup_filter| |apply NoDup_singleton].
    intros x [Hx _]%list_elem_of_filter ->%list_elem_of_singleton. done.
  - intros k'. cbn. rewrite elem_of_app, list_elem_of_filter, list_elem_of_singleton, Hm. destruct (decide (k' = k)); naive_solver.
Qed.

Lemma frame_ok_mono n n' fr : (n <= n')%nat → frame_ok n fr → frame_ok n' fr.
Proof. intros Hn []. split; try done. lia. Qed.

Lemma admit_table k p n b P : table_ok P → wf p → page_size p = ps → 0 <= n → in_range k → frames P !! k = None →
  table_ok (install k p n b P).
Proof.
  intros [Ho Hm Hf Hd Hn Hl] Hp Hs Hn0 Hr Hk.
  assert (∀ fr, frame_ok (next_object P) fr → frame_ok (S (next_object P)) fr) as Hmono
    by (intros; eapply frame_ok_mono; [|done]; lia).
  unfold install, store_frame. rewrite decide_False by (rewrite Hk; by intros []). split; [| | | | |done].
  - cbn. apply NoDup_app. split_and!; [done| |apply NoDup_singleton].
    intros x Hx ->%list_elem_of_singleton. apply Hm in Hx. rewrite Hk in Hx. by destruct Hx.
  - intros k'. cbn. rewrite elem_of_app, list_elem_of_singleton, Hm. destruct (decide (k' = k)) as [->|Hne].
    + rewrite lookup_insert_eq. split; [by eexists|by right].
    + rewrite lookup_insert_ne by done. naive_solver.
  - intros k' fr. cbn. destruct (decide (k' = k)) as [->|Hne].
    + rewrite lookup_insert_eq. intros [= <-]. split; [|done]. split; cbn; [done..|lia].
    + rewrite lookup_insert_ne by done. intros H. destruct (Hf _ _ H). auto.
  - intros k' fr H. destruct (Hd _ _ H). auto.
  - intros k'. cbn. specialize (Hn k'). change (doomed_at k' _) with (doomed_at k' P). destruct (decide (k' = k)) as [->|Hne].
    + rewrite lookup_insert_eq. rewrite Hk in Hn. cbn in *. apply NoDup_cons. split; [|done].
      intros (fr & Ho' & Hin)%list_elem_of_fmap. destruct (Hd _ _ Hin) as [[_ _ _ Hlt] _]. lia.
    + by rewrite lookup_insert_ne.
Qed.

Lemma admit_elsewhere k p n b P : elsewhere P (install k p n b P) k.
Proof. split_and!; try done. intros k' Hk. cbn. by rewrite lookup_insert_ne. Qed.

Lemma set_doomed_at k l P k' : doomed_at k' (set_doomed k l P) = if decide (k' = k) then l else doomed_at k' P.
Proof. apply set_list_lookup. Qed.

Lemma set_doomed_table k l P : table_ok P → (∀ fr, fr ∈ l → frame_ok (next_object P) fr ∧ in_range k) →
  NoDup (object <$> option_list (frames P !! k) ++ l) → table_ok (set_doomed k l P).
Proof.
  intros [Ho Hm Hf Hd Hn Hl] Hok Hnd. split; [done..| | |done].
  - intros k' fr. rewrite set_doomed_at. case_decide; [subst; apply Hok|apply Hd].
  - intros k'. rewrite set_doomed_at. case_decide; [by subst|apply Hn].
Qed.

Lemma set_doomed_elsewhere k l P : elsewhere P (set_doomed k l P) k.
Proof. split_and!; try done. intros k' Hk. by rewrite set_doomed_at, decide_False. Qed.

(** The identities at one place, after the frames [l] leave or change without changing identity. *)
Lemma distinct_filter (φ : Frame → Prop) `{∀ fr, Decision (φ fr)} (l l' : list Frame) :
  NoDup (object <$> l ++ l') → NoDup (object <$> l ++ filter φ l').
Proof.
  intros H'. eapply sublist_NoDup; [exact H'|]. apply fmap_sublist, sublist_app; [done|apply sublist_filter].
Qed.

Lemma elsewhere_trans P P1 P2 k : elsewhere P P1 k → elsewhere P1 P2 k → elsewhere P P2 k.
Proof.
  intros (H1 & Hc1 & Hl1) (H2 & Hc2 & Hl2). split_and!; [|congruence..]. intros k' Hk.
  destruct (H1 k' Hk) as [Ha Hb], (H2 k' Hk) as [Hc Hd]. split; congruence.
Qed.

Lemma elsewhere_refl P k : elsewhere P P k.
Proof. done. Qed.

(** What the tables do not see. *)
Definition same_tables (P P' : Pool) : Prop :=
  frames P' = frames P ∧ order P' = order P ∧ doomed_frames P' = doomed_frames P ∧ next_object P' = next_object P ∧
  dirty_candidates P' = dirty_candidates P ∧ clean_candidate_linger P' = clean_candidate_linger P.

Lemma same_tables_wf P P' : same_tables P P' → wf_pool P → wf_pool P'.
Proof.
  intros (Hf & Ho & Hd & Hn & Hc & Hl) [[????? ?] Hcov Hr]. destruct P, P'. cbn in *. subst.
  split; [by split|exact Hcov|exact Hr].
Qed.

Lemma same_tables_elsewhere P P' k : same_tables P P' → elsewhere P P' k.
Proof.
  intros (Hf & Ho & Hd & Hn & Hc & Hl). split_and!; [|done..]. intros k' _. unfold doomed_at. by rewrite Hf, Hd.
Qed.

(** A change at one place and a refresh of its candidacy keep the invariant. *)
Lemma refreshed_wf k P P' : covered P → elsewhere P P' k → table_ok P' → Z.of_nat (size (frames P')) * ps <= budget_bytes cfg →
  wf_pool (refresh_dirty_candidate k P').
Proof.
  intros Hc He Ht Hs. split.
  - by eapply recandidated_table; [apply refresh_recandidated|].
  - apply refresh_covers. eapply elsewhere_covered; [done|exact Hc].
  - by destruct (refresh_recandidated k P') as (? & ? & -> & _).
Qed.

(** A place that is a candidate, or becomes one, needs no refresh. *)
Lemma candidate_wf k P P' : covered P → elsewhere P P' k → table_ok P' → Z.of_nat (size (frames P')) * ps <= budget_bytes cfg →
  k ∈ dirty_candidates P → needs P' k = true → wf_pool P'.
Proof.
  intros Hc He Ht Hs Hk Hn. split; [done| |done]. intros k' _. destruct (decide (k' = k)) as [->|Hne].
  - destruct He as (_ & -> & _). naive_solver.
  - by apply (elsewhere_covered _ _ _ _ He Hc).
Qed.

Lemma added_covered φ k P : covered_if (λ k', k' ≠ k ∧ φ k') P → needs P k = true → covered_if φ (add_dirty_candidate k P).
Proof.
  intros H Hn k' Hφ. cbn. unfold needs in *. cbn in *. rewrite elem_of_union, elem_of_singleton.
  destruct (decide (k' = k)) as [->|Hne]; [naive_solver|]. unfold lingers in *. cbn. specialize (H k' (conj Hne Hφ)). naive_solver.
Qed.
End invariant.

(** ** Outcomes *)

Definition out {S A} (x : result A * S) (Q : A → S → Prop) (E : S → Prop) : Prop :=
  match x with (Ok a, s) => Q a s | (Err _, s) => E s end.

Section out.
Context {S : Type}.

Lemma out_bind {A B} (m : M S A) (f : A → M S B) s (Q : A → S → Prop) (E : S → Prop) Q' (E' : S → Prop) :
  out (m s) Q E → (∀ a s', Q a s' → out (f a s') Q' E') → (∀ s', E s' → E' s') → out ((m ≫= f) s) Q' E'.
Proof. unfold mbind, m_bind. destruct (m s) as [[a|e] s']; cbn; auto. Qed.

Lemma out_weaken {A} (x : result A * S) (Q Q' : A → S → Prop) (E E' : S → Prop) :
  out x Q E → (∀ a s, Q a s → Q' a s) → (∀ s, E s → E' s) → out x Q' E'.
Proof. destruct x as [[a|e] s]; cbn; auto. Qed.

Lemma out_gets {A B} (f : S → A) (g : A → M S B) s Q E : out (g (f s) s) Q E → out ((gets f ≫= g) s) Q E.
Proof. done. Qed.

Lemma out_modify {B} (f : S → S) (g : () → M S B) s Q E : out (g () (f s)) Q E → out ((modify f ≫= g) s) Q E.
Proof. done. Qed.

Lemma out_lift {A B} (r : result A) (g : A → M S B) s Q (E : S → Prop) :
  (∀ a, r = Ok a → out (g a s) Q E) → (∀ e, r = Err e → E s) → out ((lift r ≫= g) s) Q E.
Proof. unfold mbind, m_bind, lift. destruct r; cbn; eauto. Qed.

Lemma out_attempt {A} (m : M S A) s (Q : A → S → Prop) (E E' : S → Prop) :
  out (m s) Q E → out (attempt m s) (λ r s, match r with Ok a => Q a s | Err _ => E s end) E'.
Proof. unfold attempt. destruct (m s) as [[a|e] s']; done. Qed.
End out.

(** ** The doors *)

Section doors.
Context {Dev : Type} {SD : StorageDevice Dev} {SL : StorageLaws Dev} {PL : PageLaws Dev}.
Variable cfg : Config.
Hypothesis Hps : validate_page_size (page_bytes cfg) = Ok (page_bytes cfg).
#[local] Abbreviation ps := (page_bytes cfg).
#[local] Abbreviation World := (@BufferPool.World Dev).
#[local] Abbreviation F_ w := (files (dev w)).
#[local] Abbreviation picture_at w k := (device_picture ps (files (dev w)) k).

Lemma ps_pos : 0 < ps.
Proof using Hps. apply validate_page_size_Ok in Hps as (_ & H & _). unfold MIN_PAGE_SIZE in H. lia. Qed.

(** The device serves pages of the configured size. *)
Definition sized (w : World) : Prop := Storage.page_size (dev w) = ps.

(** Nothing but time passed. *)
Definition quiet (w w' : World) : Prop := pool w' = pool w ∧ F_ w' = F_ w ∧ sized w'.

Lemma on_dev_out {A : Type} (m : M Dev A) (Q : Dev → A → Dev → Prop) E w : effect m Q E → sized w →
  out (on_dev m w) (λ a w', pool w' = pool w ∧ sized w' ∧ Q (dev w) a (dev w'))
                   (λ w', pool w' = pool w ∧ sized w' ∧ E (dev w) (dev w')).
Proof.
  intros Hm Hs. specialize (Hm (dev w)). unfold on_dev, sized in *. destruct (m (dev w)) as [[a|e] d]; cbn in *;
    destruct Hm as [H1 H2]; split_and!; congruence.
Qed.

Lemma make_Ok t i p : make t ps i 0 0 0 NO_PAGE = Ok p →
  wf p ∧ page_size p = ps ∧ dirty p = false ∧ picture p = picture (blank ps t) ∧ page_type p = t ∧ page_index p = i.
Proof using Hps.
  intros H. pose proof (make_ok _ _ _ _ _ _ _ _ H) as (Hw & _ & _ & Hsz). pose proof H as H'. unfold make in H'. inv_ok H'.
  repeat match goal with E : check_unsigned _ _ _ = Ok _ |- _ => apply check_unsigned_Ok in E as [-> ?] end.
  rewrite Hps in E. injection E as <-. injection H' as <-. split_and!; try done.
Qed.

(** *** Reading *)

Lemma read_page_attempts_out k n w : sized w → in_range k →
  out (read_page_attempts cfg k None n w)
    (λ a w', quiet w w' ∧ ∃ p, a.1 = Some p ∧ wf p ∧ page_size p = ps ∧ dirty p = false ∧ picture_at w k = Some (picture p))
    (λ w', quiet w w').
Proof using Hps.
  intros Hs Hk. revert w Hs. induction n as [|n IH]; intros w Hs; [done|]. cbn [read_page_attempts].
  eapply out_bind; [apply on_dev_out; [apply read_page_law|done]| |].
  2:{ intros w' (Hp & Hs' & Hu). split; [done|]. split; [apply Hu|done]. }
  intros raw w' (Hp & Hs' & [Hu _] & c & Hc & Hi & Hl & Hraw).
  assert (quiet w w') as Hq by done.
  rewrite Hs in *. assert (picture_at w k = image_picture ps raw) as Himg.
  { unfold device_picture. rewrite (image_at_Some ps (F_ w) k c) by done. cbn. by rewrite <-Hraw. }
  rewrite bool_decide_eq_false_2 by done.
  assert (out (read_page_attempts cfg k None n w')
    (λ a w'', quiet w w'' ∧ ∃ p, a.1 = Some p ∧ wf p ∧ page_size p = ps ∧ dirty p = false ∧ picture_at w k = Some (picture p))
    (λ w'', quiet w w'')) as Hagain.
  { eapply out_weaken; [apply (IH w' Hs')| |].
    - intros a w'' [(Ha & Hb & Hc') (p & Hr)]. rewrite Hu in Hr. split; [|by exists p]. split; [congruence|]. split; [congruence|done].
    - intros w'' (Ha & Hb & Hc'). split; [congruence|]. split; [congruence|done]. }
  case_match eqn:Hunw.
  - apply out_lift; [|done]. intros p Hpg. cbn. split; [done|]. exists p.
    apply make_Ok in Hpg as (Hw & Hsz & Hd & Hpic & _). split_and!; [done..|]. rewrite Himg. unfold image_picture. by rewrite Hunw, Hpic.
  - destruct (decode_page ps raw) as [p|e] eqn:Hdec; [|case_decide; done].
    case_match eqn:Hodd; [done|]. apply out_lift; [|done]. intros q Hset. cbn. split; [done|]. exists q.
    unfold decode_page in Hdec. apply from_bytes_ok_inv in Hdec as Hinv. destruct Hinv as (Hw & Hz & _ & Hd & _).
    assert (zlen raw = ps) as Hzl.
    { pose proof ps_pos. rewrite Hraw. unfold page_slice. rewrite zlen_slice; nia. }
    unfold set_page_index in Hset. inv_ok Hset. apply check_unsigned_Ok in E as [-> Hr]. injection Hset as <-.
    split_and!; [done| |by cbn; congruence|done|].
    + destruct Hw. split; done.
    + rewrite Himg. unfold image_picture. rewrite Hunw. unfold decode_page. rewrite Hdec. by rewrite Hodd.
Qed.

Lemma read_page_out k w : sized w → in_range k →
  out (read_page_ cfg k w)
    (λ p w', quiet w w' ∧ wf p ∧ page_size p = ps ∧ dirty p = false ∧ picture_at w k = Some (picture p))
    (λ w', quiet w w').
Proof using Hps.
  intros Hs Hk. unfold read_page_, read_page_observation.
  eapply out_bind; [by apply read_page_attempts_out| |done]. intros a w' (Hq & p & -> & H). done.
Qed.

(** *** Writing back *)

Definition apply_owner (k : place) (owner : option nat) (g : Frame → Frame) (P : Pool) : Pool :=
  match owner with Some o => change_owned k o g P | None => P end.

Lemma alter_alter {A : Type} (f g : A → A) (k : place) (m : gmap place A) :
  alter f k (alter g k m) = alter (λ x, f (g x)) k m.
Proof.
  apply map_eq. intros k'. destruct (decide (k' = k)) as [->|Hk]; [|by rewrite !lookup_alter_ne].
  rewrite !lookup_alter_eq. by destruct (m !! k).
Qed.

Lemma change_owned_compose k o g1 g2 P : (∀ fr, object (g1 fr) = object fr) →
  change_owned k o g2 (change_owned k o g1 P) = change_owned k o (λ fr, g2 (g1 fr)) P.
Proof.
  intros Hg. unfold change_owned, change_frame, with_doomed, with_frames. cbn. f_equal.
  - rewrite alter_alter. apply alter_ext. intros fr _. cbn. repeat (case_decide; try rewrite Hg in *); congruence.
  - rewrite alter_alter. apply alter_ext. intros l _. cbn. rewrite <-list_fmap_compose. apply list_fmap_ext.
    intros i fr _. cbn. repeat (case_decide; try rewrite Hg in *); congruence.
Qed.

Lemma apply_owner_compose k owner g1 g2 P : (∀ fr, object (g1 fr) = object fr) →
  apply_owner k owner g2 (apply_owner k owner g1 P) = apply_owner k owner (λ fr, g2 (g1 fr)) P.
Proof. destruct owner; [apply change_owned_compose|done]. Qed.

Lemma out_put {B : Type} k owner g (f : () → M World B) (w : World) Q E :
  out (f () (MkWorld (dev w) (apply_owner k owner g (pool w)))) Q E → out ((put_page k owner g ≫= f) w) Q E.
Proof. destruct owner; [done|]. by destruct w. Qed.

Lemma publish_base_out k owner p w : sized w → in_range k →
  out (publish_base cfg k owner p w) (λ _ w', quiet w w') (λ w', quiet w w').
Proof using Hps SL.
  intros Hs Hk. unfold publish_base. case_match; [|done]. apply out_gets. case_match; [|done].
  eapply out_bind; [by apply read_page_out| |done]. intros fresh w' [Hq _]. by repeat case_match.
Qed.

(** The page was written and nothing else changed. *)
Definition wrote_page (w w' : World) (k : place) (pic : Picture) : Prop :=
  picture_at w' k = Some pic ∧ same_but ps (F_ w) (F_ w') k.

Lemma wrote_page_files w0 w1 w2 w3 k pic pic' : F_ w0 = F_ w1 → F_ w2 = F_ w3 → pic = pic' →
  wrote_page w0 w2 k pic → wrote_page w1 w3 k pic'.
Proof. unfold wrote_page. by intros -> -> ->. Qed.

Lemma same_but_images F F' k : (∀ k', k' ≠ k → image_at ps F' k' = image_at ps F k') →
  (is_Some (image_at ps F k) → is_Some (image_at ps F' k)) → same_but ps F F' k.
Proof.
  intros H Hk. split; [intros k' Hne; unfold device_picture; by rewrite H|].
  intros k'. destruct (decide (k' = k)) as [->|Hne]; [done|by rewrite H].
Qed.

Lemma write_page_out k q w : sized w → wf q → seq q mod 2 = 0 →
  out ((image ← lift (encode_page ps q); on_dev (write_page k.1 k.2 image)) w)
    (λ _ w', pool w' = pool w ∧ sized w' ∧ wrote_page w w' k (picture q))
    (λ w', pool w' = pool w ∧ sized w' ∧ same_but ps (F_ w) (F_ w') k).
Proof using Hps.
  intros Hs Hw He. pose proof ps_pos. apply out_lift; [|intros e _; split; [done|split; [done|apply same_but_refl]]]. intros image Henc.
  destruct (encoded_picture ps q image Hw He Henc) as [Hz Hpic]. destruct k as [f i]. cbn [fst snd].
  eapply out_weaken; [exact (on_dev_out _ _ _ w (write_page_law f i image) Hs)| |].
  - intros _ w' (Hp & Hs' & Ho & _ & (c & Hc & Hi & Hl & Hc') & _). rewrite Hs in *. split_and!; [done..|].
    assert (∀ k', image_at ps (F_ w') k' = if decide (k' = (f, i)) then Some image else image_at ps (F_ w) k') as Him.
    { intros k'. apply (image_at_set ps (F_ w) (F_ w') f c i image k'); try done; [lia|]. intros g Hg. by apply Ho. }
    split; [unfold device_picture; by rewrite Him, decide_True|].
    apply same_but_images; [intros k' Hk; by rewrite Him, decide_False|]. rewrite Him, decide_True by done. by eexists.
  - intros w' (Hp & Hs' & Ho & Hc & _). rewrite Hs in *. split_and!; [done..|].
    destruct Hc as [Hc|(c & page & Hc & Hi & Hl & _ & Hzp & Hc')].
    + assert (∀ k', image_at ps (F_ w') k' = image_at ps (F_ w) k') as Him; [|by apply same_but_images; intros; rewrite Him].
      intros k'. unfold image_at. destruct (decide (k'.1 = f)) as [->|Hf]; [by rewrite Hc|]. by destruct (Ho _ Hf) as [-> _].
    + assert (∀ k', image_at ps (F_ w') k' = if decide (k' = (f, i)) then Some page else image_at ps (F_ w) k') as Him.
      { intros k'. apply (image_at_set ps (F_ w) (F_ w') f c i page k'); try done; [lia|]. intros g Hg. by apply Ho. }
      apply same_but_images; [intros k' Hk; by rewrite Him, decide_False|]. rewrite Him, decide_True by done. by eexists.
Qed.

(** A state of the page that says the same. *)
Definition alike (p q : Page.t) : Prop := picture q = picture p ∧ wf q ∧ page_size q = page_size p.

Lemma alike_trans p q r : alike p q → alike q r → alike p r.
Proof. intros (? & ? & ?) (? & ? & ?). split_and!; congruence. Qed.

Lemma set_index_alike p i q : wf p → set_page_index p i = Ok q → alike p q ∧ dirty q = dirty p ∧ seq q = seq p.
Proof.
  intros Hw H. unfold set_page_index in H. inv_ok H. apply check_unsigned_Ok in E as [-> Hr]. injection H as <-.
  split; [|done]. split_and!; [done| |done]. by destruct Hw.
Qed.

Lemma set_seq_alike p n q : wf p → set_seq p n = Ok q → alike p q ∧ dirty q = true ∧ seq q = n.
Proof.
  intros Hw H. unfold set_seq in H. inv_ok H. apply check_unsigned_Ok in E as [-> Hr]. injection H as <-.
  split; [|done]. split_and!; [done| |done]. by destruct Hw.
Qed.

Lemma set_dirty_alike p b : wf p → alike p (set_dirty p b).
Proof. intros []. split_and!; done. Qed.

Lemma set_seq_total p n : 0 <= n <= MAX_U32 → ∃ q, set_seq p n = Ok q.
Proof. intros H. unfold set_seq. rewrite (proj2 (check_unsigned_Ok _ _ _ n)) by done. cbn. by eexists. Qed.

Lemma publish_page_out k owner p w : sized w → in_range k → wf p →
  out (publish_page cfg k owner p w)
    (λ _ w', sized w' ∧ wrote_page w w' k (picture p) ∧ ∃ n q, alike p q ∧ dirty q = false ∧
       pool w' = apply_owner k owner (λ fr, with_base n (with_page q fr)) (pool w))
    (λ w', sized w' ∧ same_but ps (F_ w) (F_ w') k ∧ ∃ q, alike p q ∧
       (dirty q = true ∨ dirty q = dirty p ∧ F_ w' = F_ w) ∧ pool w' = apply_owner k owner (with_page q) (pool w)).
Proof using Hps.
  intros Hs Hk Hw. unfold publish_page. apply out_lift.
  2:{ intros e. unfold set_page_index. rewrite (proj2 (check_unsigned_Ok _ _ _ k.2)); [done|].
      unfold in_range, MAX_PAGE_INDEX, MAX_U32 in *. done. }
  intros p1 Hp1. apply (set_index_alike _ _ _ Hw) in Hp1 as (Ha1 & Hd1 & Hq1). pose proof Ha1 as (_ & Hw1 & _).
  apply out_put. eapply out_bind; [by apply publish_base_out| |].
  2:{ cbn. intros w' (Hp' & Hf' & Hs'). split; [done|]. rewrite Hf'. split; [apply same_but_refl|]. exists p1. auto. }
  cbn. intros base w1 (Hp' & Hf' & Hs1). apply out_lift.
  2:{ intros e He. destruct (set_seq_total p1 (next_seq base) (next_seq_range _)). congruence. }
  intros q Hq. apply (set_seq_alike _ _ _ Hw1) in Hq as (Ha2 & Hd2 & Hq2). pose proof Ha2 as (Hpic2 & Hw2 & _).
  apply out_put. eapply out_bind; [refine (out_attempt _ _ _ _ (λ _, False) _); apply write_page_out; [done..|rewrite Hq2; apply next_seq_even]| |by intros ?].
  cbn. intros [[]|e] w2; intros (Hp2 & Hs2 & Hwr).
  - apply out_put. destruct owner as [o|]; cbn.
    + split; [done|]. split.
      { revert Hwr. by apply wrote_page_files; [|done|rewrite Hpic2; apply Ha1]. }
      exists (seq q), (set_dirty q false). split; [exact (alike_trans _ _ _ Ha1 (alike_trans _ _ _ Ha2 (set_dirty_alike _ false Hw2)))|]. split; [done|].
      rewrite Hp2, Hp'. cbn [apply_owner pool]. by rewrite !change_owned_compose by done.
    + split; [done|]. split.
      { revert Hwr. by apply wrote_page_files; [|done|rewrite Hpic2; apply Ha1]. }
      exists 0, (set_dirty q false). split; [exact (alike_trans _ _ _ Ha1 (alike_trans _ _ _ Ha2 (set_dirty_alike _ false Hw2)))|]. split; [done|].
      rewrite Hp2, Hp'. done.
  - apply out_lift.
    2:{ intros e' He. destruct (set_seq_total q (seq p1)) as [x Hx]; [by apply wf_seq|]. congruence. }
    intros r Hr. apply (set_seq_alike _ _ _ Hw2) in Hr as (Ha3 & Hd3 & _). apply out_put. cbn.
    split; [done|]. cbn in Hwr. unfold same_but in Hwr |- *. rewrite Hf' in Hwr. split; [done|].
    exists r. split; [exact (alike_trans _ _ _ Ha1 (alike_trans _ _ _ Ha2 Ha3))|]. split; [by left|].
    rewrite Hp2, Hp'. cbn [pool]. by rewrite !apply_owner_compose by done.
Qed.
End doors.
