(* ===== verification/BufferDoors.v ===== *)
(** The page cache of [BufferPool]: the doors.

    A door is [steady] when it keeps the invariant of the tables, shows every place what it showed,
    forgets no change a checkpoint must know of, and leaves the pages in the hands of callers where
    they are.  Making room, loading, writing back, flushing and invalidating are steady whether they
    return or raise; the rest is exact about what it changes. *)

From S2P Require Import Prelude Ids Layout Slotted SlottedCodec Utf8 Storage ControlRecord BufferPool BufferTheorems.
Import Page.

Section doors.
Context {Dev : Type} {SD : StorageDevice Dev} {SL : StorageLaws Dev} {PL : PageLaws Dev}.
Variable cfg : Config.
Hypothesis Hps : validate_page_size (page_bytes cfg) = Ok (page_bytes cfg).
#[local] Abbreviation ps := (page_bytes cfg).
#[local] Abbreviation World := (@BufferPool.World Dev).
#[local] Abbreviation F_ w := (files (dev w)).
#[local] Abbreviation picture_at w k := (device_picture ps (files (dev w)) k).
#[local] Abbreviation sized := (sized cfg).
#[local] Abbreviation quiet := (quiet cfg).
#[local] Abbreviation covered := (BufferTheorems.covered).

(** *** What doors keep *)

(** What [modified_pages] accounts for is not forgotten. *)
Definition accounted (P : Pool) (k : place) : Prop := k ∈ modified P ∨ resident_dirty P k = true.
Definition remembers (P P' : Pool) : Prop := ∀ k, accounted P k → accounted P' k.

(** The object of a page in the hands of callers, and how often it is held. *)
Definition holding (P : Pool) (k : place) : option (nat * Z) :=
  fr ← frames P !! k; if pins fr =? 0 then None else Some (object fr, pins fr).
Definition held_same (P P' : Pool) : Prop := ∀ k, holding P' k = holding P k.

(** [H] is what is held afterwards. *)
Record kept (H : place → option (nat * Z)) (w w' : World) : Prop := {
  st_sized : sized w';
  st_wf : wf_pool cfg (pool w');
  st_moved : moved ps (F_ w) (cached (pool w)) (F_ w') (cached (pool w'));
  st_doomed : doomed_frames (pool w') = doomed_frames (pool w);
  st_remembers : remembers (pool w) (pool w');
  st_held k : holding (pool w') k = H k
}.
#[local] Abbreviation steady w w' := (kept (holding (pool w)) w w').

Lemma kept_as H H' w w' : (∀ k, H' k = H k) → kept H w w' → kept H' w w'.
Proof. intros He [????? Hh]. split; try done. intros k. by rewrite Hh, He. Qed.

Lemma kept_trans H H' w w1 w2 : kept H w w1 → kept H' w1 w2 → kept H' w w2.
Proof.
  intros [Hs1 Hw1 Hm1 Hd1 Hr1 Hh1] [Hs2 Hw2 Hm2 Hd2 Hr2 Hh2]. split; [done|done|by eapply moved_trans|congruence| |done].
  intros k Hk. auto.
Qed.

Lemma steady_refl w : sized w → wf_pool cfg (pool w) → steady w w.
Proof. intros Hs Hw. split; [done|done|apply moved_refl|done|by intros k|by intros k]. Qed.

Lemma steady_trans w w1 w2 : steady w w1 → steady w1 w2 → steady w w2.
Proof. intros H1 H2. eapply kept_as; [|by eapply kept_trans]. intros k. by rewrite (st_held _ _ _ H1). Qed.

Lemma steady_quiet w w' : wf_pool cfg (pool w) → quiet w w' → steady w w'.
Proof.
  intros Hw (Hp & Hf & Hs). split; [done|by rewrite Hp|rewrite Hp, Hf; apply moved_refl|by rewrite Hp|rewrite Hp; by intros k|].
  rewrite Hp. by intros k.
Qed.

(** A sequence of steady steps. *)
Lemma out_steady {A B : Type} (m : M World A) (f : A → M World B) w (Q : A → World → Prop) (Q' : B → World → Prop) :
  out (m w) (λ a w1, steady w w1 ∧ Q a w1) (λ w1, steady w w1) →
  (∀ a w1, steady w w1 → Q a w1 → out (f a w1) (λ b w2, steady w1 w2 ∧ Q' b w2) (λ w2, steady w1 w2)) →
  out ((m ≫= f) w) (λ b w2, steady w w2 ∧ Q' b w2) (λ w2, steady w w2).
Proof.
  intros Hm Hf. eapply out_bind; [exact Hm| |done]. intros a w1 [Hs HQ].
  eapply out_weaken; [by apply Hf| |]; cbn.
  - intros b w2 [Hs2 HQ2]. split; [by eapply steady_trans|done].
  - intros w2 Hs2. by eapply steady_trans.
Qed.

Lemma remember_same_tables k P : ∃ P', remember_write_back k P = refresh_dirty_candidate k P' ∧ same_tables P P' ∧
  modified P' = {[k]} ∪ modified P.
Proof. eexists. by split_and!. Qed.

Lemma same_tables_table P P' : same_tables P P' → table_ok cfg P → table_ok cfg P'.
Proof. intros (Hf & Ho & Hd & Hn & Hc & Hl) [????? ?]. destruct P, P'. cbn in *. subst. by split. Qed.

Lemma remembered_wf k P P1 : covered P → elsewhere P P1 k → table_ok cfg P1 →
  Z.of_nat (size (frames P1)) * ps <= budget_bytes cfg → wf_pool cfg (remember_write_back k P1).
Proof.
  intros Hc He Ht Hs. destruct (remember_same_tables k P1) as (P2 & -> & Hst & _). apply (refreshed_wf cfg k P).
  - done.
  - eapply elsewhere_trans; [done|]. by apply same_tables_elsewhere.
  - by eapply same_tables_table.
  - destruct Hst as (-> & _). done.
Qed.

(** After a publication that failed the index still covers the page, if it did before. *)
Lemma failed_wf k P fr q : wf_pool cfg P → frames P !! k = Some fr → k ∈ dirty_candidates P → alike (BufferPool.page fr) q →
  (dirty q = true ∨ dirty q = is_dirty fr) → wf_pool cfg (with_frames (<[k := with_page q fr]> (frames P)) (order P) P).
Proof.
  intros [Ht Hc Hr] Hf Hk (Hpic & Hwq & Hsz) Hd. rewrite <-(change_owned_resident cfg k (object fr) (with_page q) P fr) by done. split.
  - apply change_owned_table; [done|]. intros fr' Ho [? ? ? ?]. split; [|done]. destruct (to_frame _ _ Ht _ _ Hf) as [[_ Hs _ _] _].
    split; cbn; [done|congruence|done..].
  - intros k' _. destruct (decide (k' = k)) as [->|Hne].
    + change (dirty_candidates (change_owned _ _ _ _)) with (dirty_candidates P).
      unfold lingers. change (clean_candidate_linger (change_owned _ _ _ _)) with (clean_candidate_linger P).
      specialize (Hc k I). unfold needs, lingers in *. rewrite change_owned_frames, change_owned_doomed, !decide_True, Hf by done. cbn.
      rewrite decide_True by done. rewrite Hf in Hc. cbn in Hc.
      unfold frame_needs_dirty_candidate at 1. unfold is_dirty. cbn. unfold frame_needs_dirty_candidate at 1 in Hc.
      destruct Hd as [-> | ->]; cbn; [naive_solver|].
      enough (existsb frame_needs_dirty_candidate ((λ fr0, if decide (object fr0 = object fr) then with_page q fr0 else fr0) <$> doomed_at k P)
        = existsb frame_needs_dirty_candidate (doomed_at k P)) as -> by done.
      f_equal. rewrite <-(list_fmap_id (doomed_at k P)) at 2. apply list_fmap_ext. intros i x Hx. cbn. case_decide as Ho; [|done].
      exfalso. pose proof (to_distinct _ _ Ht k) as Hn. rewrite Hf in Hn. cbn in Hn. apply NoDup_cons in Hn as [Hn _]. apply Hn.
      rewrite <-Ho. apply list_elem_of_fmap_2. by eapply list_elem_of_lookup_2.
    + apply (elsewhere_covered _ _ _ _ (change_owned_elsewhere k (object fr) (with_page q) P) Hc). done.
  - rewrite (change_owned_resident cfg k (object fr) _ P fr) by done. cbn. rewrite map_size_insert_Some by done. done.
Qed.

Lemma remember_fields k P (P' := remember_write_back k P) :
  frames P' = frames P ∧ order P' = order P ∧ doomed_frames P' = doomed_frames P ∧ next_object P' = next_object P ∧
  modified P' = {[k]} ∪ modified P.
Proof.
  destruct (remember_same_tables k P) as (P1 & Heq & (Hf & Ho & Hd & Hn & _) & Hm). subst P'. rewrite Heq.
  by destruct (refresh_recandidated k P1) as (c & l & -> & _).
Qed.

Lemma held_insert P P' k fr fr' : frames P !! k = Some fr → frames P' = <[k := fr']> (frames P) →
  object fr' = object fr → pins fr' = pins fr → held_same P P'.
Proof.
  intros Hf HP' Ho Hp k0. unfold holding. rewrite HP'. destruct (decide (k0 = k)) as [->|Hk].
  - rewrite lookup_insert_eq, Hf. cbn. by rewrite Ho, Hp.
  - by rewrite lookup_insert_ne.
Qed.

Lemma held_delete P P' k fr : frames P !! k = Some fr → pins fr = 0 → frames P' = delete k (frames P) → held_same P P'.
Proof.
  intros Hf Hp HP' k0. unfold holding. rewrite HP'. destruct (decide (k0 = k)) as [->|Hk].
  - rewrite lookup_delete_eq, Hf. cbn. by rewrite Hp.
  - by rewrite lookup_delete_ne.
Qed.

Lemma insert_cached P P' k fr : frames P' = <[k := fr]> (frames P) → cached P' = <[k := BufferPool.page fr]> (cached P).
Proof. unfold cached. intros ->. apply fmap_insert. Qed.

Lemma cached_Some P k fr : frames P !! k = Some fr → cached P !! k = Some (BufferPool.page fr).
Proof. unfold cached. intros H. by rewrite lookup_fmap, H. Qed.

(** The resident page was written. *)
Definition cleaned (w w' : World) (k : place) (fr : Frame) : Prop :=
  ∃ fr', frames (pool w') = <[k := fr']> (frames (pool w)) ∧ is_dirty fr' = false ∧ pins fr' = pins fr ∧
    modified (pool w') = {[k]} ∪ modified (pool w).

Lemma write_back_frame_out k fr w : sized w → wf_pool cfg (pool w) → frames (pool w) !! k = Some fr → k ∈ dirty_candidates (pool w) →
  out (write_back_frame cfg k fr w) (λ _ w', steady w w' ∧ cleaned w w' k fr) (λ w', steady w w').
Proof using Hps PL.
  intros Hs Hw Hf Hk. pose proof (wp_table _ _ Hw) as Ht. destruct (to_frame _ _ Ht _ _ Hf) as [[Hwf Hsz Hpn Hob] Hr].
  unfold write_back_frame, write_back_page.
  eapply out_bind; [by apply (publish_page_out cfg Hps)| |].
  - intros [] w1 (Hs1 & [Hpic Hsame] & n & q & Ha & Hd & Hp). cbn [apply_owner] in Hp. pose proof Ha as (Hpq & Hwq & Hzq).
    set (fr' := with_base n (with_page q fr)). pose proof Hp as Hp'.
    rewrite (change_owned_resident cfg k _ _ _ fr Ht Hf eq_refl) in Hp'. fold fr' in Hp'. cbn.
    destruct (remember_fields k (pool w1)) as (Ef & _ & Ed & _ & Em).
    rewrite Hp' in Ef, Ed, Em. cbn in Ef, Ed, Em. rewrite <-Hp' in Ef, Ed, Em.
    assert (cached (remember_write_back k (pool w1)) = <[k := q]> (cached (pool w))) as Hcache by (by apply (insert_cached _ _ _ fr')).
    split; [|exists fr'; by split_and!]. split; cbn.
    + done.
    + rewrite Hp. apply (remembered_wf k (pool w)); [apply Hw|apply change_owned_elsewhere| |].
      * apply change_owned_table; [done|]. intros fr0 Ho0 [? ? ? ?]. split; [|done]. split; cbn; [done|congruence|done..].
      * rewrite <-Hp, Hp'. cbn. rewrite map_size_insert_Some by done. apply Hw.
    + rewrite Hcache. eapply moved_written; [by apply cached_Some|done|done|done].
    + done.
    + intros k0 [H0|H0]; [left; rewrite Em; set_solver|]. destruct (decide (k0 = k)) as [->|Hne]; [left; rewrite Em; set_solver|].
      right. unfold resident_dirty in *. by rewrite Ef, lookup_insert_ne.
    + by eapply (held_insert _ _ k fr fr').
  - intros w1 (Hs1 & Hsame & q & Ha & Hd & Hp). pose proof Ha as (Hpq & Hwq & Hzq). cbn [apply_owner] in Hp.
    rewrite (change_owned_resident cfg k _ _ _ fr Ht Hf eq_refl) in Hp.
    assert (frames (pool w1) = <[k := with_page q fr]> (frames (pool w))) as Ef by (by rewrite Hp).
    split.
    + done.
    + rewrite Hp. apply (failed_wf k (pool w) fr q); try done. destruct Hd as [?|[? _]]; auto.
    + rewrite (insert_cached _ _ _ _ Ef). eapply moved_failed; [by apply cached_Some|done| |done].
      destruct Hd as [?|[? HF]]; [by left|right]. split; [cbn; congruence|by rewrite HF].
    + by rewrite Hp.
    + intros k0 [H0|H0]; [left; by rewrite Hp|]. right. unfold resident_dirty in *. rewrite Ef.
      destruct (decide (k0 = k)) as [->|Hne]; [|by rewrite lookup_insert_ne]. rewrite lookup_insert_eq. rewrite Hf in H0. cbn in *.
      destruct Hd as [?|[? _]]; [done|]. unfold is_dirty in *. cbn. congruence.
    + by eapply (held_insert _ _ k fr (with_page q fr)).
Qed.

(** The direct door writes a page the index may not know.  When the publication fails the index is
    exact everywhere else. *)
Lemma write_back_index k w : sized w → wf_pool cfg (pool w) →
  out (write_back cfg k w) (λ _ w', wf_pool cfg (pool w'))
    (λ w', covered_if (λ k', k' ≠ k) (pool w') ∧ size (frames (pool w')) = size (frames (pool w))).
Proof using Hps PL.
  intros Hs Hw. unfold write_back. apply out_gets. destruct (frames (pool w) !! k) as [fr|] eqn:Hf; [|done].
  pose proof (wp_table _ _ Hw) as Ht. destruct (to_frame _ _ Ht _ _ Hf) as [[Hwf Hsz Hpn Hob] Hr]. unfold write_back_frame, write_back_page.
  eapply out_bind; [eapply out_bind; [by apply (publish_page_out cfg Hps)| |]| |]; cycle 2; [intros ? w' H; exact H|intros w' H; exact H|..].
  - intros [] w1 (_ & _ & n & q & Ha & _ & Hp). cbn [apply_owner] in Hp. pose proof Ha as (Hpq & Hwq & Hzq). cbn. rewrite Hp.
    apply (remembered_wf k (pool w)); [apply Hw|apply change_owned_elsewhere| |].
    + apply change_owned_table; [done|]. intros fr0 Ho0 [? ? ? ?]. split; [|done]. split; cbn; [done|congruence|done..].
    + rewrite (change_owned_resident cfg k _ _ _ fr Ht Hf eq_refl). cbn. rewrite map_size_insert_Some by done. apply Hw.
  - intros w1 (_ & _ & q & _ & _ & Hp). cbn [apply_owner] in Hp. rewrite Hp. split.
    + intros k' Hk'. by apply (elsewhere_covered _ _ _ _ (change_owned_elsewhere k (object fr) (with_page q) (pool w)) (wp_covered _ _ Hw)).
    + rewrite (change_owned_resident cfg k _ _ _ fr Ht Hf eq_refl). cbn. by rewrite map_size_insert_Some.
Qed.

(** *** Making room *)

Lemma bind_assoc {A B C : Type} (m : M World A) (g : A → M World B) (h : B → M World C) w :
  ((m ≫= g) ≫= h) w = (m ≫= λ a, g a ≫= h) w.
Proof. unfold mbind, m_bind. by destruct (m w) as [[a|e] w']. Qed.

Lemma out_update {B : Type} g (f : () → M World B) (w : World) Q E :
  out (f () (MkWorld (dev w) (g (pool w)))) Q E → out ((update g ≫= f) w) Q E.
Proof. done. Qed.

Lemma dirty_candidate P k fr : wf_pool cfg P → frames P !! k = Some fr → is_dirty fr = true → k ∈ dirty_candidates P.
Proof.
  intros Hw Hf Hd. apply (wp_covered _ _ Hw k I). left. unfold needs. rewrite Hf. cbn. unfold frame_needs_dirty_candidate.
  by rewrite Hd.
Qed.

Lemma forgotten_steady w k fr : sized w → wf_pool cfg (pool w) → frames (pool w) !! k = Some fr → pins fr = 0 → is_dirty fr = false →
  steady w (MkWorld (dev w) (refresh_dirty_candidate k (remove_frame k (pool w)))).
Proof.
  intros Hs Hw Hf Hp Hd. pose proof (refresh_recandidated k (remove_frame k (pool w))) as (c & l & Heq & _).
  assert (frames (refresh_dirty_candidate k (remove_frame k (pool w))) = delete k (frames (pool w))) as Ef by (by rewrite Heq).
  split; cbn.
  - done.
  - apply (refreshed_wf cfg k (pool w)); [apply Hw|apply remove_frame_elsewhere|apply remove_frame_table, Hw|].
    pose proof (wp_room _ _ Hw) as Hr. rewrite (remove_frame_size k _ _ Hf) in Hr. pose proof (ps_pos cfg Hps). lia.
  - unfold cached at 2. rewrite Ef, fmap_delete. apply (moved_forget _ _ _ _ (BufferPool.page fr)); [by apply cached_Some|done].
  - by rewrite Heq.
  - intros k0 [H0|H0]; [left; by rewrite Heq|]. right. unfold resident_dirty in *. rewrite Ef.
    destruct (decide (k0 = k)) as [->|?]; [|by rewrite lookup_delete_ne]. rewrite Hf in H0. cbn in H0. congruence.
  - by eapply (held_delete _ _ k fr).
Qed.

Lemma find_victim_Some P k : find_victim P = Some k → ∃ fr, frames P !! k = Some fr ∧ pins fr = 0.
Proof.
  unfold find_victim. intros [_ H]%find_some. destruct (frames P !! k) as [fr|]; [|done]. cbn in H. exists fr. split; [done|lia].
Qed.

Lemma steady_write_back (dirty : bool) k fr w : sized w → wf_pool cfg (pool w) → frames (pool w) !! k = Some fr → dirty = is_dirty fr →
  out ((if dirty then write_back_frame cfg k fr else mret ()) w)
    (λ _ w', steady w w' ∧ ∃ fr', frames (pool w') = <[k := fr']> (frames (pool w)) ∧ is_dirty fr' = false ∧ pins fr' = pins fr)
    (λ w', steady w w').
Proof using Hps PL.
  intros Hs Hw Hf ->. destruct (is_dirty fr) eqn:Hd.
  - eapply out_weaken; [apply (write_back_frame_out k fr w); try done; by eapply dirty_candidate| |done].
    intros _ w' [Hst (fr' & H1 & H2 & H3 & _)]. eauto 6.
  - cbn. split; [by apply steady_refl|]. exists fr. by rewrite insert_id.
Qed.

(** A page leaves the pool, written first when it is dirty. *)
Lemma evict_out {B : Type} (f : () → M World B) k fr w (Q : B → World → Prop) : sized w → wf_pool cfg (pool w) →
  frames (pool w) !! k = Some fr → pins fr = 0 →
  (∀ w1, steady w w1 → frames (pool w1) = delete k (frames (pool w)) → out (f () w1) (λ b w2, steady w1 w2 ∧ Q b w2) (λ w2, steady w1 w2)) →
  out ((_ ← (if is_dirty fr then write_back_frame cfg k fr else mret ());
        _ ← update (λ P, refresh_dirty_candidate k (remove_frame k P)); f ()) w)
    (λ b w2, steady w w2 ∧ Q b w2) (λ w2, steady w w2).
Proof using Hps PL.
  intros Hs Hw Hf Hp Hcont. eapply out_steady; [by apply steady_write_back|]. intros _ w1 Hst (fr' & Hf1 & Hd1 & Hp1).
  apply out_update.
  assert (steady w1 (MkWorld (dev w1) (refresh_dirty_candidate k (remove_frame k (pool w1))))) as Hst1.
  { apply (forgotten_steady w1 k fr'); [apply Hst|apply Hst|by rewrite Hf1, lookup_insert_eq|congruence|done]. }
  eapply out_weaken; [apply Hcont; [by eapply steady_trans|]| |].
  - cbn. destruct (refresh_recandidated k (remove_frame k (pool w1))) as (c & l & -> & _). cbn. rewrite Hf1. by rewrite delete_insert_eq.
  - intros b w2 [H1 H2]. split; [by eapply steady_trans|done].
  - intros w2 H. by eapply steady_trans.
Qed.

Definition harmless (m : M World ()) : Prop := ∀ w, sized w → wf_pool cfg (pool w) → out (m w) (λ _ w', steady w w') (λ w', steady w w').

Lemma nothing_harmless : harmless (mret ()).
Proof. intros w Hs Hw. by apply steady_refl. Qed.

Definition roomy (w : World) : Prop := (Z.of_nat (size (frames (pool w))) + 1) * ps <= budget_bytes cfg.
Definition absent_stays (w w' : World) : Prop := ∀ k, frames (pool w) !! k = None → frames (pool w') !! k = None.

Lemma make_room_rounds_out diagnose n w : harmless diagnose → sized w → wf_pool cfg (pool w) →
  out (make_room_rounds cfg diagnose n w) (λ _ w', steady w w' ∧ roomy w' ∧ absent_stays w w') (λ w', steady w w').
Proof using Hps PL.
  intros Hd. revert w. induction n as [|n IH]; intros w Hs Hw; cbn [make_room_rounds]; apply out_gets.
  all: case_match eqn:Hroom; [cbn; split; [by apply steady_refl|]; split; [unfold roomy; lia|by intros ?]|].
  all: apply out_gets.
  - assert (out ((diagnose ≫= λ _, lift (raise GrafxBufferBudgetExceeded "")) w)
      (λ (_ : ()) w', steady w w' ∧ roomy w' ∧ absent_stays w w') (λ w', steady w w')) as Hraise.
    { eapply out_bind; [by apply Hd| |done]. by intros [] w' H. }
    by destruct (find_victim (pool w) ≫= _) as [[k fr]|].
  - destruct (find_victim (pool w)) as [k|] eqn:Hv; cbn.
    2:{ eapply out_bind; [by apply Hd| |done]. by intros [] w' H. }
    destruct (find_victim_Some _ _ Hv) as (fr & Hf & Hp). rewrite Hf. cbn.
    eapply out_weaken; [apply (evict_out (λ _, make_room_rounds cfg diagnose n) k fr w (λ _ w', roomy w' ∧ absent_stays w w')); try done| |done].
    + intros w1 Hst Hf1. eapply out_weaken; [apply IH; apply Hst| |done]. intros _ w2 (H1 & H2 & H3). split_and!; [done|done|].
      intros k0 Hk0. apply H3. rewrite Hf1. apply lookup_delete_None. by right.
    + done.
Qed.

Lemma make_room_out diagnose w : harmless diagnose → sized w → wf_pool cfg (pool w) →
  out (make_room cfg diagnose w) (λ _ w', steady w w' ∧ roomy w' ∧ absent_stays w w') (λ w', steady w w').
Proof using Hps PL. intros. unfold make_room. apply out_gets. by apply make_room_rounds_out. Qed.

(** *** Lending a page *)

Definition lend (P : Pool) (k : place) (h : option (nat * Z)) : place → option (nat * Z) :=
  λ k', if decide (k' = k) then h else holding P k'.

(** One place changes in the table of frames, or joins it. *)
Definition reframed (P P' : Pool) (k : place) (fr : Frame) : Prop :=
  frames P' !! k = Some fr ∧ ∀ k', k' ≠ k → frames P' !! k' = frames P !! k'.

Lemma reframed_cached P P' k fr : reframed P P' k fr → cached P' = <[k := BufferPool.page fr]> (cached P).
Proof.
  intros [Hk Ho]. unfold cached. apply map_eq. intros k'. rewrite lookup_fmap. destruct (decide (k' = k)) as [->|Hne].
  - by rewrite Hk, lookup_insert_eq.
  - by rewrite Ho, lookup_insert_ne, lookup_fmap.
Qed.

Lemma reframed_holding P P' k fr k' : reframed P P' k fr →
  holding P' k' = lend P k (if pins fr =? 0 then None else Some (object fr, pins fr)) k'.
Proof.
  intros [Hk Ho]. unfold lend, holding. destruct (decide (k' = k)) as [->|Hne]; [by rewrite Hk|by rewrite Ho].
Qed.

(** The dirty mark is not lost at that place. *)
Lemma reframed_remembers P P' k fr : reframed P P' k fr → modified P' = modified P →
  (∀ fr0, frames P !! k = Some fr0 → is_dirty fr0 = true → is_dirty fr = true) → remembers P P'.
Proof.
  intros [Hk Ho] Hm Hd k' [H|H]; [left; by rewrite Hm|right]. unfold resident_dirty in *.
  destruct (decide (k' = k)) as [->|Hne]; [|by rewrite Ho]. rewrite Hk. cbn.
  destruct (frames P !! k) as [fr0|] eqn:E; [|done]. by apply (Hd fr0).
Qed.

(** The page a place has in the pool, when it is in the hands of callers. *)
Lemma holding_Some P k o n : table_ok cfg P → holding P k = Some (o, n) →
  ∃ fr, frames P !! k = Some fr ∧ object fr = o ∧ pins fr = n ∧ 1 <= n.
Proof.
  intros Ht. unfold holding. destruct (frames P !! k) as [fr|] eqn:E; [|done]. cbn. case_match eqn:Hp; [done|].
  intros [= <- <-]. exists fr. pose proof (fo_pins _ _ _ (proj1 (to_frame _ _ Ht _ _ E))). split_and!; [done..|lia].
Qed.

Lemma holding_None P k fr : frames P !! k = Some fr → holding P k = None ↔ pins fr = 0.
Proof. intros H. unfold holding. rewrite H. cbn. case_match; [split; [lia|done]|split; [done|lia]]. Qed.

Lemma needs_pinned P k fr : frames P !! k = Some fr → 1 <= pins fr → needs P k = true.
Proof.
  intros H Hp. unfold needs. rewrite H. cbn. unfold frame_needs_dirty_candidate. rewrite (proj2 (Z.ltb_lt _ _)) by lia.
  by rewrite orb_true_r.
Qed.

Lemma needs_candidate P k : wf_pool cfg P → needs P k = true → k ∈ dirty_candidates P.
Proof. intros Hw H. apply (wp_covered _ _ Hw k I). by left. Qed.

(** What a holder gets. *)
Definition lent (w w' : World) (k : place) (o : nat) : Prop :=
  ∃ n, kept (lend (pool w) k (Some (o, n))) w w' ∧
    (holding (pool w) k = None ∧ n = 1 ∨ holding (pool w) k = Some (o, n - 1)).

Lemma reframed_frames P P' k fr : reframed P P' k fr → frames P' = <[k := fr]> (frames P).
Proof.
  intros [Hk Ho]. apply map_eq. intros k'. destruct (decide (k' = k)) as [->|Hne]; [by rewrite Hk, lookup_insert_eq|].
  by rewrite Ho, lookup_insert_ne.
Qed.

Lemma reframed_kept w P' k fr : sized w → wf_pool cfg P' → reframed (pool w) P' k fr →
  moved ps (F_ w) (cached (pool w)) (F_ w) (<[k := BufferPool.page fr]> (cached (pool w))) →
  doomed_frames P' = doomed_frames (pool w) → modified P' = modified (pool w) →
  (∀ fr0, frames (pool w) !! k = Some fr0 → is_dirty fr0 = true → is_dirty fr = true) →
  kept (lend (pool w) k (if pins fr =? 0 then None else Some (object fr, pins fr))) w (MkWorld (dev w) P').
Proof.
  intros Hs Hw Hre Hm Hd Hmod Hdirty. split; cbn.
  - done.
  - done.
  - by rewrite (reframed_cached _ _ _ _ Hre).
  - done.
  - by eapply reframed_remembers.
  - intros k'. by apply reframed_holding.
Qed.

Lemma added_wf k P P' : wf_pool cfg P → elsewhere P P' k → table_ok cfg P' → Z.of_nat (size (frames P')) * ps <= budget_bytes cfg →
  needs P' k = true → wf_pool cfg (add_dirty_candidate k P').
Proof.
  intros Hw He Ht Hs Hn. split; [|apply added_covered; [by eapply elsewhere_covered; [|apply Hw]|done]|done].
  apply (recandidated_table cfg P'); [by eexists _, _|done].
Qed.

Lemma pin_resident_out k fr w : sized w → wf_pool cfg (pool w) → frames (pool w) !! k = Some fr →
  lent w (MkWorld (dev w) (let P := if pins fr =? 0 then add_dirty_candidate k (pool w) else pool w in
            change_frame k (with_pins (pins fr + 1)) (move_to_end k P))) k (object fr).
Proof.
  intros Hs Hw Hf. set (P := pool w) in *. pose proof (wp_table _ _ Hw) as Ht.
  pose proof (fo_pins _ _ _ (proj1 (to_frame _ _ Ht _ _ Hf))) as Hn.
  set (fr1 := with_pins (pins fr + 1) fr).
  set (P1 := change_frame k (with_pins (pins fr + 1)) (move_to_end k P)).
  assert (reframed P P1 k fr1) as Hre.
  { split; [cbn; by rewrite lookup_alter_eq, Hf|]. intros k' Hk. cbn. by rewrite lookup_alter_ne. }
  assert (table_ok cfg P1) as Ht1.
  { apply change_frame_table; [apply move_to_end_table; [done|by eexists]|]. intros fr0 _ [? ? ? ?].
    split; [|done]. split; cbn; [done|done|lia|done]. }
  assert (elsewhere P P1 k) as He by (eapply elsewhere_trans; [|apply change_frame_elsewhere]; done).
  assert (needs P1 k = true) as Hneeds by (eapply needs_pinned; [apply Hre|cbn; lia]).
  assert (Z.of_nat (size (frames P1)) * ps <= budget_bytes cfg) as Hsize.
  { rewrite (reframed_frames _ _ _ _ Hre), map_size_insert_Some by done. apply Hw. }
  set (P2 := if pins fr =? 0 then add_dirty_candidate k P1 else P1).
  assert (wf_pool cfg P2) as Hw2.
  { subst P2. case_match eqn:Hp.
    - by apply (added_wf k P).
    - apply (candidate_wf cfg k P P1); [apply Hw|done|done|done| |done]. eapply needs_candidate; [done|].
      eapply needs_pinned; [done|lia]. }
  match goal with |- lent w (MkWorld _ ?P3) _ _ => assert (P3 = P2) as -> by (unfold P2; by destruct (pins fr =? 0)) end.
  assert (reframed P P2 k fr1 ∧ doomed_frames P2 = doomed_frames P ∧ modified P2 = modified P) as (Hre2 & Hd2 & Hm2)
    by (unfold P2; by destruct (pins fr =? 0)).
  exists (pins fr + 1). split.
  - replace (Some (object fr, pins fr + 1)) with (if pins fr1 =? 0 then None else Some (object fr1, pins fr1))
      by (cbn; by rewrite (proj2 (Z.eqb_neq _ _)) by lia).
    apply reframed_kept; try done.
    + rewrite insert_id by exact (cached_Some _ _ _ Hf). apply moved_refl.
    + intros fr0 Hf0. assert (Some fr0 = Some fr) as [= ->] by (by rewrite <-Hf0, <-Hf). done.
  - destruct (decide (pins fr = 0)) as [H0|H0]; [left|right].
    + split; [by apply (holding_None P k fr)|lia].
    + unfold holding. fold P. rewrite Hf. cbn. rewrite (proj2 (Z.eqb_neq _ _)) by done. f_equal. f_equal. lia.
Qed.

Lemma require_page_index_Ok f i r : require_page_index f i = Ok r → r = i ∧ 0 <= i <= MAX_PAGE_INDEX.
Proof. unfold require_page_index. case_match eqn:E; [done|]. intros [= <-]. apply negb_false_iff, andb_true_iff in E. lia. Qed.

Lemma admitted_reframed P k p n b : reframed P (install k p n b P) k (MkFrame (next_object P) p n false false b).
Proof. split; cbn; [by rewrite lookup_insert_eq|]. intros k' Hk. by rewrite lookup_insert_ne. Qed.

Lemma installed_wf k p n b P : table_ok cfg P → covered_if (λ k', k' ≠ k) P → frames P !! k = None →
  (Z.of_nat (size (frames P)) + 1) * ps <= budget_bytes cfg → wf p → page_size p = ps → in_range k →
  0 <= n → dirty p = true ∨ 1 <= n → wf_pool cfg (install k p n b (add_dirty_candidate k P)).
Proof.
  intros Ht Hc Hk Hroom Hp Hz Hr Hn Hd. change (wf_pool cfg (add_dirty_candidate k (install k p n b P))).
  assert (needs (install k p n b P) k = true) as Hneeds.
  { unfold needs. rewrite (proj1 (admitted_reframed _ _ _ _ _)). cbn. unfold frame_needs_dirty_candidate, is_dirty. cbn.
    destruct Hd as [-> |]; [done|]. rewrite (proj2 (Z.ltb_lt _ _)) by lia. by rewrite orb_true_r. }
  split.
  - apply (recandidated_table cfg (install k p n b P)); [by eexists _, _|]. by apply admit_table.
  - apply added_covered; [|done]. intros k' [Hk' _].
    by apply (elsewhere_covered _ _ _ _ (admit_elsewhere k p n b P) Hc).
  - cbn. rewrite map_size_insert_None by done. rewrite Nat2Z.inj_succ. lia.
Qed.

Lemma admitted_wf w k p n b : wf_pool cfg (pool w) → roomy w → wf p → page_size p = ps → in_range k → frames (pool w) !! k = None →
  0 <= n → dirty p = true ∨ 1 <= n → wf_pool cfg (install k p n b (add_dirty_candidate k (pool w))).
Proof. intros Hw. intros. apply installed_wf; try done; [apply Hw|]. intros k' _. by apply Hw. Qed.

(** A pin answers the page, or raises and changes nothing that is shown. *)
Lemma pin_out k w : sized w → wf_pool cfg (pool w) → out (pin cfg k w) (λ o w', lent w w' k o) (λ w', steady w w').
Proof using Hps PL SL.
  intros Hs Hw. unfold pin. apply out_lift; [|intros; by apply steady_refl]. intros i Hi.
  apply require_page_index_Ok in Hi as [_ Hr]. apply out_gets. destruct (frames (pool w) !! k) as [fr|] eqn:Hf.
  { by apply (pin_resident_out k fr). }
  eapply out_bind; [apply make_room_out; [apply nothing_harmless|done..]| |done].
  intros [] w1 (Hst1 & Hroom & Habs). eapply out_bind; [apply (read_page_out cfg Hps); [apply Hst1|done]| |].
  2:{ intros w2 Hq. eapply steady_trans; [done|]. by apply steady_quiet; [apply Hst1|]. }
  intros p w2 (Hq & Hwf & Hz & Hd & Hpic). apply out_gets. apply out_update. cbn.
  pose proof (steady_quiet _ _ (st_wf _ _ _ Hst1) Hq) as Hst2. pose proof Hq as (Hp2 & HF2 & _).
  assert (frames (pool w2) !! k = None) as Hf2 by (rewrite Hp2; by apply Habs).
  assert (steady w w2) as Hst by (by eapply steady_trans).
  exists 1. split; [|left; split; [by unfold holding; rewrite Hf|done]].
  eapply kept_as; [|eapply kept_trans; [exact Hst|]].
  2:{ apply (reframed_kept w2 _ k (MkFrame (next_object (pool w2)) p 1 false false (seq p))); try done.
      - apply Hst.
      - apply admitted_wf; try done; [apply Hst| |by right]. unfold roomy in *. by rewrite Hp2.
      - by apply (admitted_reframed (add_dirty_candidate k (pool w2))).
      - cbn. apply moved_admit; [unfold cached; by rewrite lookup_fmap, Hf2|by rewrite HF2].
      - intros fr0. by rewrite Hf2. }
  intros k'. unfold lend. cbn. case_decide; [done|]. by rewrite (st_held _ _ _ Hst).
Qed.

(** *** Taking a page back *)

Definition take_back (n : Z) (o : nat) : option (nat * Z) := if n =? 1 then None else Some (o, n - 1).

Lemma recandidated_reframed P P' P2 k fr : recandidated P' P2 → reframed P P' k fr → reframed P P2 k fr.
Proof. by intros (c & l & -> & _). Qed.

Lemma lingered_wf k P P' : wf_pool cfg P → elsewhere P P' k → table_ok cfg P' → Z.of_nat (size (frames P')) * ps <= budget_bytes cfg →
  k ∈ dirty_candidates P → wf_pool cfg (linger_clean_candidate k P').
Proof.
  intros Hw He Ht Hs Hk. split.
  - by eapply recandidated_table; [apply linger_recandidated|].
  - apply linger_covers; [|by destruct He as (_ & -> & _)]. intros k' Hk'.
    by apply (elsewhere_covered _ _ _ _ He (wp_covered _ _ Hw)).
  - by destruct (linger_recandidated k P') as (? & ? & -> & _).
Qed.

Lemma unpin_out k dirty o n w : sized w → wf_pool cfg (pool w) → holding (pool w) k = Some (o, n) →
  out (unpin cfg k dirty (Some o) w) (λ _ w', kept (lend (pool w) k (take_back n o)) w w') (λ w', False).
Proof.
  intros Hs Hw Hh. destruct (holding_Some _ _ _ _ (wp_table _ _ Hw) Hh) as (fr & Hf & Ho & Hn & Hge).
  pose proof (wp_table _ _ Hw) as Ht. destruct (to_frame _ _ Ht _ _ Hf) as [[Hwf Hz _ Hob] Hr].
  unfold unpin. apply out_lift.
  2:{ intros e He. unfold require_page_index in He. unfold in_range in Hr.
      rewrite (proj2 (Z.leb_le 0 _)), (proj2 (Z.leb_le _ _)) in He by lia. done. }
  intros i _. apply out_gets. apply out_gets. rewrite Hf. cbn [fmap option_fmap option_map].
  rewrite bool_decide_eq_true_2 by (by rewrite Ho). rewrite (proj2 (Z.leb_gt _ _)) by lia.
  set (fr1 := with_pins (pins fr - 1) (if dirty then mark true fr else fr)).
  set (P0 := if dirty then add_dirty_candidate k (pool w) else pool w).
  set (P1 := change_frame k (λ _, fr1) P0).
  assert (needs (pool w) k = true) as Hneeds by (eapply needs_pinned; [done|lia]).
  assert (wf_pool cfg P0 ∧ frames P0 = frames (pool w) ∧ k ∈ dirty_candidates P0 ∧ doomed_frames P0 = doomed_frames (pool w) ∧
    modified P0 = modified (pool w)) as (Hw0 & Hf0 & Hk0 & Hd0 & Hm0).
  { unfold P0. destruct dirty; split_and!; try done.
    - apply (added_wf k (pool w)); try done. apply Hw.
    - cbn. set_solver.
    - by apply needs_candidate. }
  assert (reframed (pool w) P1 k fr1) as Hre.
  { split; cbn; rewrite Hf0; [by rewrite lookup_alter_eq, Hf|]. intros k' Hk. by rewrite lookup_alter_ne. }
  assert (alike (BufferPool.page fr) (BufferPool.page fr1)) as Ha1.
  { unfold fr1. destruct dirty; [by apply set_dirty_alike|done]. }
  assert (table_ok cfg P1) as Ht1.
  { apply change_frame_table; [apply Hw0|]. rewrite Hf0, Hf. intros ? [= <-] _. destruct Ha1 as (_ & Hwf1 & Hz1).
    unfold fr1 in *. split; [split; cbn in *; [done|congruence|lia|by destruct dirty]|by destruct dirty]. }
  pose proof (change_frame_elsewhere k (λ _, fr1) P0) as He. fold P1 in He.
  assert (Z.of_nat (size (frames P1)) * ps <= budget_bytes cfg) as Hsize.
  { rewrite (reframed_frames _ _ _ _ Hre), map_size_insert_Some by done. apply Hw. }
  set (P2 := if (pins fr1 =? 0) && negb (is_dirty fr1) then
     if decide (is_Some (doomed_frames P1 !! k)) then refresh_dirty_candidate k P1 else linger_clean_candidate k P1 else P1).
  assert (wf_pool cfg P2 ∧ recandidated P1 P2) as [Hw2 Hr2].
  { unfold P2. case_match eqn:Hc; [case_decide|].
    - split; [by apply (refreshed_wf cfg k P0); [apply Hw0|..]|apply refresh_recandidated].
    - split; [by apply (lingered_wf k P0)|apply linger_recandidated].
    - split; [|apply recandidated_refl]. apply (candidate_wf cfg k P0); try done; [apply Hw0|].
      unfold needs. rewrite (proj1 Hre). cbn. unfold frame_needs_dirty_candidate.
      destruct (is_dirty fr1); [done|]. apply andb_false_iff in Hc as [Hc|]; [|done].
      assert (0 <= pins fr1) by (unfold fr1; cbn; lia). rewrite (proj2 (Z.ltb_lt 0 _)) by lia. by rewrite orb_true_r. }
  change (kept (lend (pool w) k (take_back n o)) w (MkWorld (dev w) P2)).
  assert (object fr1 = o ∧ pins fr1 = n - 1) as [Ho1 Hn1] by (unfold fr1; destruct dirty; cbn; split; congruence).
  replace (take_back n o) with (if pins fr1 =? 0 then None else Some (object fr1, pins fr1)).
  2:{ unfold take_back. rewrite Ho1, Hn1. repeat case_match; try done; lia. }
  destruct Hr2 as (c & l & HP2 & _). apply reframed_kept; try done.
  - rewrite HP2. apply Hre.
  - eapply moved_failed; [by apply cached_Some|apply Ha1| |apply same_but_refl]. unfold fr1.
    destruct dirty; [by left|by right].
  - rewrite HP2. cbn. done.
  - rewrite HP2. cbn. done.
  - rewrite Hf. intros fr0 [= <-]. unfold fr1. by destruct dirty.
Qed.

(** *** Changing what is shown *)

#[local] Abbreviation shown w := (shown_at ps (files (dev w)) (cached (pool w))).

(** A place that showed nothing and shows a blank free page. *)
Definition sprouted (a b : option Picture) : Prop := a = None ∧ b = Some (picture (blank ps (page_type_value FREE))).

(** [R] relates what a place showed to what it shows. *)
Record stepped (R : place → option Picture → option Picture → Prop) (H : place → option (nat * Z)) (w w' : World) : Prop := {
  sp_sized : sized w';
  sp_wf : wf_pool cfg (pool w');
  sp_pages : pages_stay ps (F_ w) (F_ w');
  sp_shown : faithful_to ps (F_ w) (cached (pool w)) →
    faithful_to ps (F_ w') (cached (pool w')) ∧ ∀ k, R k (shown w k) (shown w' k);
  sp_doomed : doomed_frames (pool w') = doomed_frames (pool w);
  sp_remembers : remembers (pool w) (pool w');
  sp_told : faithful_to ps (F_ w) (cached (pool w)) → ∀ k, shown w' k = shown w k ∨ accounted (pool w') k ∨ sprouted (shown w k) (shown w' k);
  sp_held k : holding (pool w') k = H k
}.

Definition becomes (k : place) (pic : Picture) (k' : place) (a b : option Picture) : Prop :=
  b = if decide (k' = k) then Some pic else a.
(** Pages of [φ] that were not there show blank. *)
Definition grew (φ : place → Prop) (k : place) (a b : option Picture) : Prop :=
  b = a ∨ φ k ∧ a = None ∧ b = Some (picture (blank ps (page_type_value FREE))).

Lemma kept_stepped (R : place → option Picture → option Picture → Prop) H w w' : (∀ k a, R k a a) → kept H w w' → stepped R H w w'.
Proof.
  intros HR [? ? Hm ? ? ?]. split; try done.
  - apply Hm.
  - intros Hf. destruct (proj2 Hm Hf) as [? Hs]. split; [done|]. intros k. rewrite Hs. apply HR.
  - intros Hf k. destruct (proj2 Hm Hf) as [_ Hs]. auto.
Qed.

Lemma kept_stepped_trans R H H' w w1 w2 : kept H w w1 → stepped R H' w1 w2 → stepped R H' w w2.
Proof.
  intros [? ? Hm Hd Hr ?] [? ? Hp Hsh Hd' Hr' Ht ?]. split; try done; [| |congruence|intros k; auto|].
  - intros k Hk. by apply Hp, Hm.
  - intros Hf. destruct (proj2 Hm Hf) as [Hf1 Hs]. destruct (Hsh Hf1) as [Hf2 Hs2]. split; [done|]. intros k. rewrite <-Hs. apply Hs2.
  - intros Hf k. destruct (proj2 Hm Hf) as [Hf1 Hs]. rewrite <-Hs. by apply Ht.
Qed.

Lemma stepped_as R R' H H' w w' : (∀ k a b, R k a b → R' k a b) → (∀ k, H' k = H k) → stepped R H w w' → stepped R' H' w w'.
Proof.
  intros HR HH [? ? ? Hsh ? ? ? Hh]. split; try done.
  - intros Hf. destruct (Hsh Hf) as [? Hs]. split; [done|]. intros k. auto.
  - intros k. by rewrite Hh, HH.
Qed.

(** A method of a page: what it changes it marks dirty. *)
Definition page_method {A : Type} (f : Page.t → result (A * Page.t)) : Prop :=
  ∀ p a p', wf p → f p = Ok (a, p') →
    wf p' ∧ page_size p' = page_size p ∧ (dirty p' = true ∨ picture p' = picture p ∧ dirty p' = dirty p).

Lemma shown_inserted F C k p q : C !! k = Some p → faithful_to ps F C →
  dirty q = true ∨ picture q = picture p ∧ dirty q = dirty p →
  faithful_to ps F (<[k := q]> C) ∧ ∀ k', becomes k (picture q) k' (shown_at ps F C k') (shown_at ps F (<[k := q]> C) k').
Proof.
  intros HC Hf Hd. split.
  - intros k' p'. destruct (decide (k' = k)) as [->|Hk]; [|rewrite lookup_insert_ne by done; by apply Hf].
    rewrite lookup_insert_eq. intros [= <-]. destruct (Hf _ _ HC) as [Hp Hc]. split; [done|]. intros Hq.
    destruct Hd as [Hd|[Hpic Hd]]; [congruence|]. rewrite Hpic. apply Hc. congruence.
  - intros k'. unfold becomes, shown_at. case_decide as Hk; [subst k'; by rewrite lookup_insert_eq|by rewrite lookup_insert_ne].
Qed.

Lemma call_page_out {A : Type} k o n (f : Page.t → result (A * Page.t)) w : sized w → wf_pool cfg (pool w) →
  holding (pool w) k = Some (o, n) → page_method f →
  ∃ p, wf p ∧ page_size p = ps ∧ cached (pool w) !! k = Some p ∧
    match f p with
    | Ok (a, p') => ∃ w', call_page k o f w = (Ok a, w') ∧ stepped (becomes k (picture p')) (holding (pool w)) w w'
    | Err e => call_page k o f w = (Err e, w)
    end.
Proof.
  intros Hs Hw Hh Hm. pose proof (wp_table _ _ Hw) as Ht. destruct (holding_Some _ _ _ _ Ht Hh) as (fr & Hf & Ho & Hn & Hge).
  destruct (to_frame _ _ Ht _ _ Hf) as [[Hwf Hz _ Hob] Hr]. exists (BufferPool.page fr). split; [done|].
  split; [done|]. split; [by apply cached_Some|]. unfold call_page, get, gets, mbind, m_bind, held, owning_frame. rewrite Hf, decide_True by done. cbn.
  destruct (f (BufferPool.page fr)) as [[a p']|e] eqn:Hc; [|done]. cbn. eexists. split; [done|].
  destruct (Hm _ _ _ Hwf Hc) as (Hwf' & Hz' & Hd').
  rewrite (change_owned_resident cfg k o _ _ fr Ht Hf Ho). set (P' := with_frames _ _ _).
  assert (reframed (pool w) P' k (with_page p' fr)) as Hre.
  { split; [cbn; by rewrite lookup_insert_eq|]. intros k' Hk. cbn. by rewrite lookup_insert_ne. }
  assert (wf_pool cfg P') as Hw'.
  { apply (candidate_wf cfg k (pool w)); [apply Hw| | | | |].
    - split_and!; try done. intros k' Hk. by rewrite (proj2 Hre).
    - unfold P'. rewrite <-(change_owned_resident cfg k o (with_page p') _ fr Ht Hf Ho). apply change_owned_table; [done|].
      intros fr' Ho' []. split; [|done]. split; cbn; [done|congruence|done|done].
    - cbn. rewrite map_size_insert_Some by done. apply Hw.
    - apply needs_candidate; [done|]. eapply needs_pinned; [done|lia].
    - eapply needs_pinned; [apply Hre|cbn; lia]. }
  assert (cached P' = <[k := p']> (cached (pool w))) as Hca by apply (reframed_cached _ _ _ _ Hre).
  split; cbn [dev pool].
  - done.
  - done.
  - apply pages_stay_refl.
  - rewrite Hca. intros Hfa. by apply (shown_inserted _ _ _ (BufferPool.page fr)); [apply cached_Some|..].
  - done.
  - eapply reframed_remembers; [done..|]. rewrite Hf. intros fr0 [= <-] H0. unfold is_dirty in *. cbn.
    destruct Hd' as [?|[_ ->]]; done.
  - intros Hfa k'. rewrite Hca. unfold shown_at. destruct (decide (k' = k)) as [->|Hk]; [|left; by rewrite lookup_insert_ne].
    rewrite lookup_insert_eq, (cached_Some _ _ _ Hf). destruct Hd' as [Hd'|[-> _]]; [|by left].
    right. left. right. unfold resident_dirty. by rewrite (proj1 Hre).
  - intros k'. rewrite (reframed_holding _ _ _ _ k' Hre). unfold lend. case_decide; [subst k'|done].
    unfold holding. by rewrite Hf.
Qed.

(** *** Allocating *)

Lemma same_tables_steady w w' : sized w' → wf_pool cfg (pool w) → F_ w' = F_ w → same_tables (pool w) (pool w') →
  modified (pool w') = modified (pool w) → steady w w'.
Proof.
  intros Hs Hw HF Hst Hm. pose proof Hst as (Hf & _ & Hd & _). split.
  - done.
  - by apply (same_tables_wf cfg (pool w)).
  - unfold cached. rewrite HF, Hf. apply moved_refl.
  - done.
  - intros k. unfold accounted, resident_dirty. by rewrite Hm, Hf.
  - intros k. unfold holding. by rewrite Hf.
Qed.

Lemma prospective_index_out file w : sized w → out (prospective_index file w) (λ _ w', quiet w w') (λ w', quiet w w').
Proof using PL.
  intros Hs. unfold prospective_index.
  eapply out_bind; [refine (out_attempt _ _ _ _ (λ _, False) _); exact (on_dev_out _ _ _ _ w (page_count_law file) Hs)| |by intros ?].
  intros r w' H. assert (quiet w w') as Hq by (destruct r; [destruct H as (? & ? & [? _] & _)|destruct H as (? & ? & [? _])]; done).
  destruct r; [done|]. by case_decide.
Qed.

Lemma prospective_harmless file : harmless (_ ← prospective_index file; mret ()).
Proof using PL Hps.
  intros w Hs Hw. eapply out_bind; [by apply prospective_index_out| |]; [intros ? w' Hq|intros w' Hq]; by apply steady_quiet.
Qed.

Lemma claim_out k w : sized w →
  out (claim_is_unwritten cfg k w)
    (λ b w', quiet w w' ∧ (b = true → picture_at w k = Some (picture (blank ps (page_type_value FREE))))) (λ w', quiet w w').
Proof.
  intros Hs. unfold claim_is_unwritten. destruct k as [f i]. cbn [fst snd].
  eapply out_bind; [exact (on_dev_out _ _ _ _ w (read_page_law f i) Hs)| |].
  - intros raw w' (Hp & Hs' & [Hu _] & c & Hc & Hi & Hl & Hraw). split; [done|]. intros Hb. cbn in Hb. rewrite Hs in *.
    unfold device_picture. rewrite (image_at_Some ps (F_ w) (f, i) c) by done. cbn. rewrite <-Hraw. unfold image_picture. by rewrite Hb.
  - intros w' (Hp & Hs' & [Hu _]). done.
Qed.

Lemma unheld P k : from_option (λ fr, negb (pins fr =? 0)) false (frames P !! k) = false → holding P k = None.
Proof. unfold holding. destruct (frames P !! k) as [fr|]; [|done]. cbn. by destruct (pins fr =? 0). Qed.

Lemma off_device_unheld w k : faithful_to ps (F_ w) (cached (pool w)) → image_at ps (F_ w) k = None → holding (pool w) k = None.
Proof.
  intros Hfa Hno. unfold holding. destruct (frames (pool w) !! k) as [fr|] eqn:E; [|done].
  destruct (Hfa _ _ (cached_Some _ _ _ E)) as [Him _]. rewrite Hno in Him. by destruct Him.
Qed.

Lemma off_device_shown w k : faithful_to ps (F_ w) (cached (pool w)) → image_at ps (F_ w) k = None → shown w k = None.
Proof.
  intros Hfa Hno. unfold shown_at. destruct (cached (pool w) !! k) as [p|] eqn:E; [|unfold device_picture; by rewrite Hno].
  destruct (Hfa _ _ E) as [[? Him] _]. congruence.
Qed.

(** The last page of [file] nobody wrote and nobody holds. *)
Definition reusable (w : World) (file : pystr) (r : option Z) : Prop :=
  ∀ i, r = Some i → holding (pool w) (file, i) = None ∧ is_Some (image_at ps (F_ w) (file, i)).

Lemma reusable_below_out file n w : sized w → wf_pool cfg (pool w) →
  out (reusable_below cfg file n w) (λ r w', steady w w' ∧ frames (pool w') = frames (pool w) ∧ reusable w' file r) (λ w', steady w w').
Proof.
  revert w. induction n as [|n IH]; intros w Hs Hw; cbn [reusable_below].
  { split_and!; [by apply same_tables_steady|done|by intros ?]. }
  apply out_gets. destruct (_ !! n) as [candidate|]; [|by apply IH]. apply out_gets.
  case_match eqn:Hheld; [by apply IH|]. apply out_update. set (w1 := MkWorld (dev w) _).
  assert (steady w w1) as Hst1 by (by apply same_tables_steady).
  eapply out_bind; [apply (claim_out (file, candidate) w1); apply Hst1| |].
  2:{ intros w2 Hq. eapply steady_trans; [done|]. by apply steady_quiet; [apply Hst1|]. }
  intros b w2 [Hq Hb]. pose proof (steady_quiet _ _ (st_wf _ _ _ Hst1) Hq) as Hst2.
  assert (steady w w2) as Hst by (by eapply steady_trans). pose proof Hq as (Hp2 & HF2 & Hs2).
  destruct b.
  - apply out_update. cbn. assert (steady w2 (MkWorld (dev w2) (prune_abandoned file (pool w2)))) as Hst3.
    { apply same_tables_steady; try done. apply Hst. }
    split; [by eapply steady_trans|]. split; [cbn; by rewrite Hp2|]. intros i [= <-]. split.
    + rewrite (st_held _ _ _ Hst3), (st_held _ _ _ Hst). by apply unheld.
    + cbn. eapply pictured_place. rewrite HF2. by apply Hb.
  - apply out_update. set (w3 := MkWorld (dev w2) _).
    assert (steady w2 w3) as Hst3 by (apply same_tables_steady; try done; apply Hst).
    assert (steady w w3) as Hst4 by (by eapply steady_trans).
    eapply out_weaken; [apply (IH w3); apply Hst3| |].
    + intros r w4 (H1 & H2 & H3). split; [by eapply steady_trans|]. split; [rewrite H2; cbn; by rewrite Hp2|done].
    + intros w4 H. by eapply steady_trans.
Qed.

Lemma reusable_index_out file w : sized w → wf_pool cfg (pool w) →
  out (reusable_index cfg file w) (λ r w', steady w w' ∧ frames (pool w') = frames (pool w) ∧ reusable w' file r) (λ w', steady w w').
Proof.
  intros Hs Hw. unfold reusable_index. apply out_gets. case_match; [|by apply reusable_below_out].
  split_and!; [by apply steady_refl|done|by intros ?].
Qed.

Lemma stepped_trans R1 R2 R3 H H' w w1 w2 : (∀ k a b c, R1 k a b → R2 k b c → R3 k a c) →
  stepped R1 H w w1 → stepped R2 H' w1 w2 → stepped R3 H' w w2.
Proof.
  intros HR [? ? Hp Hsh Hd Hr Ht ?] [? ? Hp' Hsh' Hd' Hr' Ht' ?]. split; try done; [| |congruence|intros k; auto|].
  - intros k Hk. by apply Hp', Hp.
  - intros Hf. destruct (Hsh Hf) as [Hf1 Hs]. destruct (Hsh' Hf1) as [Hf2 Hs2]. split; [done|]. intros k. eauto.
  - intros Hf k. destruct (Hsh Hf) as [Hf1 _]. specialize (Ht Hf k). specialize (Ht' Hf1 k). specialize (Hr' k).
    destruct Ht as [E|[?|[E1 E2]]]; [rewrite E in Ht'; tauto|auto|]. destruct Ht' as [E|[?|[E _]]]; [|auto|congruence].
    right. right. split; [done|congruence].
Qed.

(** The device grew by blank pages. *)
Definition extended (φ : place → Prop) (F F' : gmap pystr bytes) : Prop := ∀ k,
  image_at ps F' k = image_at ps F k ∨ φ k ∧ image_at ps F k = None ∧ image_at ps F' k = Some (zeros ps).

Lemma extended_stepped φ w w' : sized w' → wf_pool cfg (pool w) → pool w' = pool w → extended φ (F_ w) (F_ w') →
  stepped (grew φ) (holding (pool w)) w w'.
Proof using Hps.
  intros Hs Hw Hp He.
  assert (∀ k, device_picture ps (F_ w') k = device_picture ps (F_ w) k ∨
    φ k ∧ image_at ps (F_ w) k = None ∧ device_picture ps (F_ w') k = Some (picture (blank ps (page_type_value FREE)))) as Hd.
  { intros k. unfold device_picture. destruct (He k) as [-> |(H1 & H2 & ->)]; [by left|right]. split_and!; [done..|]. cbn.
    unfold image_picture. by rewrite zeros_unwritten by apply (ps_pos cfg Hps). }
  assert (∀ k, shown w' k = shown w k ∨ φ k ∧ shown w k = None ∧ shown w' k = Some (picture (blank ps (page_type_value FREE)))) as Hsh.
  { intros k. unfold shown_at. rewrite Hp. case_match; [by left|]. destruct (Hd k) as [H1|(H1 & H2 & H3)]; [by left|right].
    split_and!; try done. unfold device_picture. by rewrite H2. }
  split; try (by rewrite Hp).
  - done.
  - intros k [x Hk]. destruct (He k) as [-> |(_ & Hno & _)]; [by exists x|congruence].
  - intros Hf. split; [|intros k; destruct (Hsh k); [by left|by right]]. rewrite Hp. intros k p Hk. destruct (Hf k p Hk) as [Hi Hc]. split.
    + destruct (He k) as [-> |(_ & _ & ->)]; [done|by eexists].
    + intros Hclean. destruct (Hd k) as [-> |(_ & H2 & _)]; [auto|]. rewrite H2 in Hi. by destruct Hi.
  - rewrite Hp. by intros k.
  - intros _ k. destruct (Hsh k) as [?|(? & ? & ?)]; [by left|]. right. by right.
Qed.

Lemma allocate_device_out file w : sized w →
  out (on_dev (Storage.allocate file 1) w)
    (λ i w', pool w' = pool w ∧ sized w' ∧ extended (λ k, k = (file, i)) (F_ w) (F_ w') ∧ is_Some (image_at ps (F_ w') (file, i)) ∧
       image_at ps (F_ w) (file, i) = None)
    (λ w', pool w' = pool w ∧ sized w' ∧ extended (λ k, k.1 = file) (F_ w) (F_ w')).
Proof using Hps PL.
  intros Hs. pose proof (ps_pos cfg Hps) as Hpos.
  pose proof (on_dev_out _ _ _ _ w (allocate_law file 1) Hs) as H1.
  pose proof (on_dev_out _ _ _ _ w (allocate_failure_law file 1) Hs) as H2.
  destruct (on_dev (Storage.allocate file 1) w) as [[i|e] w']; cbn in *.
  - destruct H1 as (Hp & Hs' & Ho & c & Hc & Hi & Hc'). rewrite Hs in *. clear H2. split_and!; [done|done|..].
    all: assert (∀ k, image_at ps (F_ w') k = if decide (k.1 = file ∧ zlen c <= k.2 * ps ∧ (k.2 + 1) * ps <= zlen c + 1 * ps)
      then Some (zeros ps) else image_at ps (F_ w) k) as Him
      by (intros k; apply (image_at_grown ps (F_ w) (F_ w') file c); try done; [lia|rewrite <-Hi; by apply Z_mod_mult|intros g Hg; by apply Ho]).
    all: assert (∀ k, k.1 = file ∧ zlen c <= k.2 * ps ∧ (k.2 + 1) * ps <= zlen c + 1 * ps ↔ k = (file, i)) as Hk
      by (intros [g j]; cbn; split; [intros (-> & ? & ?); f_equal; nia|intros [= -> ->]; split_and!; [done|lia|lia]]).
    all: assert (image_at ps (F_ w) (file, i) = None) as Hno
      by (unfold image_at; cbn; rewrite Hc; cbn; rewrite (proj2 (Z.leb_gt _ (zlen c))) by lia; by rewrite andb_false_r).
    + intros k. rewrite Him. case_decide as Hd; [|by left]. apply Hk in Hd as ->. by right.
    + rewrite Him, decide_True by (by apply Hk). by eexists.
    + done.
  - destruct H1 as (Hp & Hs' & Ho). destruct H2 as (_ & _ & H2). rewrite Hs in *. split_and!; [done|done|]. intros k.
    destruct H2 as [H2|(c & i & m & Hc & Hi & Hm & Hc')].
    + left. apply image_at_other. destruct (decide (k.1 = file)) as [->|Hg]; [done|by apply Ho].
    + assert (zlen c mod ps = 0) as Hmod by (rewrite <-Hi; by apply Z_mod_mult).
      rewrite (image_at_grown ps (F_ w) (F_ w') file c m k Hpos Hm Hc Hmod Hc' (λ g Hg, proj1 (Ho g Hg))).
      case_decide as Hd; [right|by left]. destruct Hd as (Hk & H3 & H4). split_and!; [done| |done].
      unfold image_at. rewrite Hk, Hc. cbn. rewrite (proj2 (Z.leb_gt _ (zlen c))) by lia. by rewrite andb_false_r.
Qed.

Lemma remove_recandidated k P : recandidated P (remove_dirty_candidate k P).
Proof. unfold remove_dirty_candidate. eapply recandidated_trans; [|apply (forget_recandidated k)]. by eexists _, _. Qed.

Lemma remove_covers k P : covered_if (λ k', k' ≠ k) P → covered_if (λ k', k' ≠ k) (remove_dirty_candidate k P).
Proof.
  intros H k' Hk. rewrite (recandidated_needs _ _ _ (remove_recandidated k P)).
  unfold remove_dirty_candidate. rewrite forget_candidates, forget_lingers. cbn. unfold lingers. cbn. fold (lingers P k').
  rewrite elem_of_difference, elem_of_singleton. specialize (H k' Hk). naive_solver.
Qed.

Lemma make_total t i : 0 <= t <= MAX_U16 → in_range (i : place) → ∃ p, make t ps i.2 0 0 0 NO_PAGE = Ok p.
Proof using Hps.
  intros Ht Hi. unfold make. rewrite Hps. cbn.
  rewrite (proj2 (check_unsigned_Ok _ i.2 MAX_U32 _) (conj eq_refl Hi)). cbn.
  rewrite (proj2 (check_unsigned_Ok _ t MAX_U16 _) (conj eq_refl Ht)). cbn. by eexists.
Qed.

(** Whoever was there leaves the table, and the index. *)
Lemma cleared_place k P (P0 := if decide (is_Some (frames P !! k)) then remove_dirty_candidate k (remove_frame k P) else P) :
  wf_pool cfg P → (Z.of_nat (size (frames P)) + 1) * ps <= budget_bytes cfg →
  table_ok cfg P0 ∧ covered_if (λ k', k' ≠ k) P0 ∧ (Z.of_nat (size (frames P0)) + 1) * ps <= budget_bytes cfg ∧
  frames P0 = delete k (frames P) ∧ doomed_frames P0 = doomed_frames P ∧ modified P0 = modified P ∧ next_object P0 = next_object P.
Proof.
  intros Hw Hroom. subst P0. case_decide as Hk.
  - destruct Hk as [fr Hk]. pose proof (remove_recandidated k (remove_frame k P)) as Hrc. split.
    { eapply recandidated_table; [exact Hrc|]. by apply remove_frame_table, Hw. }
    split. { apply remove_covers. intros k' Hk'. by apply (elsewhere_covered _ _ _ _ (remove_frame_elsewhere k P) (wp_covered _ _ Hw)). }
    destruct Hrc as (c & l & -> & _). split_and!; try done. pose proof (wp_room _ _ Hw) as Hr.
    rewrite (remove_frame_size k _ _ Hk) in Hr. cbn in *. lia.
  - split_and!; try done; [apply Hw|intros k' _; by apply Hw|]. rewrite delete_id; [done|].
    destruct (frames P !! k) as [fr|] eqn:E; [|done]. destruct Hk. by exists fr.
Qed.

(** The new page shows at its place, whatever was there. *)
Lemma installed_stepped k p b P0 w (P1 := install k p 1 b (add_dirty_candidate k P0)) : sized w → wf_pool cfg P1 →
  frames P0 = delete k (frames (pool w)) → doomed_frames P0 = doomed_frames (pool w) → modified P0 = modified (pool w) →
  is_Some (image_at ps (F_ w) k) → dirty p = true →
  stepped (becomes k (picture p)) (lend (pool w) k (Some (next_object P0, 1))) w (MkWorld (dev w) P1).
Proof.
  intros Hs Hw1 Hf0 Hd0 Hm0 Him Hd. set (fr := MkFrame (next_object P0) p 1 false false b).
  assert (reframed (pool w) P1 k fr) as Hre.
  { split; cbn; [by rewrite lookup_insert_eq|]. intros k' Hne. by rewrite lookup_insert_ne, Hf0, lookup_delete_ne. }
  assert (cached P1 = <[k := p]> (cached (pool w))) as Hca by apply (reframed_cached _ _ _ _ Hre).
  assert (accounted P1 k) as Hacc by (right; unfold resident_dirty; by rewrite (proj1 Hre)).
  split; cbn [dev pool].
  - done.
  - done.
  - apply pages_stay_refl.
  - rewrite Hca. intros Hfa. split.
    + intros k' p'. destruct (decide (k' = k)) as [->|Hne]; [rewrite lookup_insert_eq; intros [= <-]; split; [done|congruence]|].
      rewrite lookup_insert_ne by done. by apply Hfa.
    + intros k'. unfold becomes, shown_at. case_decide as Hne; [subst k'; by rewrite lookup_insert_eq|by rewrite lookup_insert_ne].
  - done.
  - by eapply reframed_remembers.
  - intros Hfa k'. destruct (decide (k' = k)) as [->|Hne]; [auto|]. left. unfold shown_at. by rewrite Hca, lookup_insert_ne.
  - intros k'. by rewrite (reframed_holding _ _ _ _ k' Hre).
Qed.

Lemma make_out (φ : Prop) k t (w : World) : in_range k ∨ φ → 0 <= t <= MAX_U16 →
  out (attempt (lift (make t ps k.2 0 0 0 NO_PAGE)) w)
    (λ r w', w' = w ∧ match r with Ok p => make t ps k.2 0 0 0 NO_PAGE = Ok p | Err _ => φ end) (λ _, False).
Proof using Hps.
  intros Hr Ht. unfold attempt, lift. destruct (make t ps k.2 0 0 0 NO_PAGE) as [p|e] eqn:Hmake; [done|]. split; [done|].
  destruct Hr as [Hr|]; [|done]. destruct (make_total t k Ht Hr) as [p Hp]. congruence.
Qed.

Lemma install_out k t w : sized w → wf_pool cfg (pool w) → roomy w → 0 <= t <= MAX_U16 → holding (pool w) k = None →
  is_Some (image_at ps (F_ w) k) →
  out (install_fresh_frame cfg k t 1 w)
    (λ o w', stepped (becomes k (picture (blank ps t))) (lend (pool w) k (Some (o, 1))) w w') (λ w', steady w w').
Proof using Hps PL.
  intros Hs Hw Hroom Ht Hh Him. unfold install_fresh_frame. apply out_update. cbn zeta.
  set (Pc := with_claims ({[k]} ∪ grown (pool w)) (abandoned (pool w)) (pool w)).
  assert (wf_pool cfg Pc) as Hwc by by apply (same_tables_wf cfg (pool w)).
  destruct (cleared_place k Pc Hwc Hroom) as (Ht0 & Hc0 & Hr0 & Hf0 & Hd0 & Hm0 & Hn0).
  set (P0 := if decide (is_Some (frames Pc !! k)) then remove_dirty_candidate k (remove_frame k Pc) else Pc) in *.
  change (frames Pc) with (frames (pool w)) in Hf0.
  assert (frames P0 !! k = None) as Hk0 by (by rewrite Hf0, lookup_delete_eq).
  assert (in_range k ∨ frames (pool w) !! k = None) as Hr.
  { destruct (frames (pool w) !! k) as [fr|] eqn:E; [left|by right]. by apply (to_frame _ _ (wp_table _ _ Hw) _ _ E). }
  eapply out_bind; [by apply (make_out (frames (pool w) !! k = None))| |by intros ?]. intros r w1 [-> Hm]. destruct r as [p|e].
  - apply out_gets. apply out_update. cbn.
    assert (in_range k) as Hir.
    { unfold make in Hm. rewrite Hps in Hm. cbn in Hm. inv_ok Hm. by apply check_unsigned_Ok in E as [_ E]. }
    apply (make_Ok cfg Hps) in Hm as (Hwf & Hz & _ & <- & _). change (picture p) with (picture (set_dirty p true)).
    apply installed_stepped; try done. apply installed_wf; try done; [|by left]. by apply set_dirty_alike.
  - apply out_update. cbn. set (P1 := refresh_dirty_candidate k _).
    assert (frames P1 = frames (pool w) ∧ doomed_frames P1 = doomed_frames (pool w) ∧ modified P1 = modified (pool w)) as (Hf1 & Hd1 & Hm1).
    { unfold P1. destruct (refresh_recandidated k (add_dirty_candidate k P0)) as (? & ? & -> & _). cbn. by rewrite Hf0, delete_id. }
    split; cbn [dev pool].
    + done.
    + split.
      * unfold P1. eapply recandidated_table; [apply refresh_recandidated|]. eapply recandidated_table; [by eexists _, _|done].
      * unfold P1. apply refresh_covers. intros k' [Hne _]. specialize (Hc0 k' Hne). cbn. unfold needs in *. cbn.
        unfold lingers in *. cbn. rewrite elem_of_union, elem_of_singleton. naive_solver.
      * rewrite Hf1. apply Hw.
    + unfold cached. rewrite Hf1. apply moved_refl.
    + done.
    + intros k'. unfold accounted, resident_dirty. by rewrite Hm1, Hf1.
    + intros k'. unfold holding. by rewrite Hf1.
Qed.

Definition kind_ok (t : Z) : Prop := 0 <= t <= MAX_U16.

(** A new page is blank, held once, and nobody held its place; one that is not a page taken again is
    at a place the device did not have; a failure leaves blank pages at most. *)
Lemma allocate_out file t reuse w : sized w → wf_pool cfg (pool w) → kind_ok t → faithful_to ps (F_ w) (cached (pool w)) →
  out (BufferPool.allocate cfg file t reuse w)
    (λ r w', (holding (pool w) (file, r.1) = None ∧ (reuse = false → image_at ps (F_ w) (file, r.1) = None)) ∧
       stepped (becomes (file, r.1) (picture (blank ps t))) (lend (pool w) (file, r.1) (Some (r.2, 1))) w w')
    (λ w', stepped (grew (λ k, k.1 = file)) (holding (pool w)) w w').
Proof using Hps PL.
  intros Hs Hw Ht Hfa. unfold BufferPool.allocate.
  assert (∀ w', steady w w' → stepped (grew (λ k, k.1 = file)) (holding (pool w)) w w') as Hsteady.
  { intros w'. apply kept_stepped. by left. }
  eapply out_bind; [apply make_room_out; [apply prospective_harmless|done..]| |done].
  intros [] w1 (Hst1 & Hroom & _). eapply (out_bind _ _ _ (λ r w', steady w w' ∧ roomy w' ∧ reusable w' file r ∧ (reuse = false → r = None)) (λ w', steady w w')); [| |done].
  { destruct reuse; [|cbn; split_and!; [done|done|by intros ?|done]].
    eapply out_weaken; [apply reusable_index_out; apply Hst1| |].
    - intros r w2 (H1 & H2 & H3). split; [by eapply steady_trans|]. split; [unfold roomy; by rewrite H2|]. by split.
    - intros w2 H. by eapply steady_trans. }
  intros r w2 (Hst2 & Hroom2 & Hre & Hnone).
  assert (∀ i w3 (R1 : place → option Picture → option Picture → Prop), stepped R1 (holding (pool w)) w w3 → roomy w3 →
    holding (pool w) (file, i) = None ∧ (reuse = false → image_at ps (F_ w) (file, i) = None) → is_Some (image_at ps (F_ w3) (file, i)) →
    (∀ k a b c, R1 k a b → becomes (file, i) (picture (blank ps t)) k b c → becomes (file, i) (picture (blank ps t)) k a c) →
    (∀ k a b, R1 k a b → grew (λ k, k.1 = file) k a b) →
    out ((o ← install_fresh_frame cfg (file, i) t 1; mret (i, o)) w3)
      (λ r w', (holding (pool w) (file, r.1) = None ∧ (reuse = false → image_at ps (F_ w) (file, r.1) = None)) ∧
         stepped (becomes (file, r.1) (picture (blank ps t))) (lend (pool w) (file, r.1) (Some (r.2, 1))) w w')
      (λ w', stepped (grew (λ k, k.1 = file)) (holding (pool w)) w w')) as Hinstall.
  { intros i w3 R1 Hsp Hroom3 Hh Him HR1 HR2.
    eapply out_bind; [apply (install_out (file, i) t w3); [apply Hsp|apply Hsp|done|done|rewrite (sp_held _ _ _ _ Hsp); apply Hh|done]| |].
    - intros o w4 Hsp4. split; [done|]. cbn.
      eapply stepped_as; [by intros ??? H; apply H| |exact (stepped_trans _ _ _ _ _ _ _ _ HR1 Hsp Hsp4)].
      intros k. unfold lend. case_decide; [done|]. by rewrite (sp_held _ _ _ _ Hsp).
    - intros w4 Hst4. assert (stepped R1 (holding (pool w3)) w w4) as Hsp4.
      { refine (stepped_trans R1 (λ k a b, b = a) R1 _ _ _ _ _ _ Hsp (kept_stepped _ _ _ _ _ Hst4)); [by intros ????? ->|done]. }
      eapply stepped_as; [exact HR2| |exact Hsp4]. intros k. by rewrite (sp_held _ _ _ _ Hsp). }
  destruct r as [i|].
  - destruct (Hre i eq_refl) as [Hh Him]. cbn. apply (Hinstall i w2 (λ k a b, b = a)); try done.
    + by apply kept_stepped.
    + split; [by rewrite <-(st_held _ _ _ Hst2)|]. intros Hr. by specialize (Hnone Hr).
    + by intros ???? ->.
    + by left.
  - eapply out_bind; [apply allocate_device_out, Hst2| |].
    + intros i w3 (Hp3 & Hs3 & Hex & Him & Hno). pose proof (extended_stepped _ w2 w3 Hs3 (st_wf _ _ _ Hst2) Hp3 Hex) as Hsp3.
      apply (Hinstall i w3 (grew (λ k, k = (file, i)))).
      * eapply kept_stepped_trans; [done|]. refine (stepped_as _ _ _ _ _ _ _ _ Hsp3); [done|]. intros k. by rewrite (st_held _ _ _ Hst2).
      * unfold roomy. by rewrite Hp3.
      * destruct (proj2 (st_moved _ _ _ Hst2) Hfa) as [Hfa2 Hsh2]. split.
        -- rewrite <-(st_held _ _ _ Hst2). by apply off_device_unheld.
        -- intros _. destruct (image_at ps (F_ w) (file, i)) as [x|] eqn:Hx; [|done].
           destruct (proj1 (st_moved _ _ _ Hst2) (file, i)) as [y Hy]; [by exists x|congruence].
      * done.
      * intros k a b c [-> |(-> & -> & ->)]; [done|]. unfold becomes. by rewrite !decide_True.
      * intros k a b [-> |(-> & -> & ->)]; [by left|by right].
    + intros w3 (Hp3 & Hs3 & Hex). eapply kept_stepped_trans; [done|].
      refine (stepped_as _ _ _ _ _ _ _ _ (extended_stepped _ w2 w3 Hs3 (st_wf _ _ _ Hst2) Hp3 Hex)); [done|].
      intros k. by rewrite (st_held _ _ _ Hst2).
Qed.

(** *** Writing out *)

Lemma refresh_steady w k : sized w → wf_pool cfg (pool w) → steady w (MkWorld (dev w) (refresh_dirty_candidate k (pool w))).
Proof.
  intros Hs Hw. destruct (refresh_recandidated k (pool w)) as (c & l & Heq & _). split; cbn [dev pool].
  - done.
  - apply (refreshed_wf cfg k (pool w)); [apply Hw|apply elsewhere_refl|apply Hw|apply Hw].
  - rewrite Heq; apply moved_refl.
  - by rewrite Heq.
  - rewrite Heq. by intros k'.
  - by rewrite Heq.
Qed.

Lemma elem_of_headers_last k l : k ∈ headers_last l ↔ k ∈ l.
Proof. unfold headers_last. rewrite elem_of_app, !list_elem_of_filter. destruct (decide (k.2 = HEADER_PAGE_INDEX)); naive_solver. Qed.

Lemma in_file_candidates k file P : k ∈ dirty_candidate_keys file P ↔ k ∈ dirty_candidates P ∧ in_file file k = true.
Proof.
  unfold dirty_candidate_keys, in_file. destruct file as [f|]; rewrite elem_of_elements; [|naive_solver].
  rewrite elem_of_filter, bool_decide_eq_true. naive_solver.
Qed.

Lemma resident_dirty_candidate P k : wf_pool cfg P → resident_dirty P k = true → k ∈ dirty_candidates P.
Proof.
  unfold resident_dirty. intros Hw H. destruct (frames P !! k) as [fr|] eqn:E; [|done]. by eapply dirty_candidate.
Qed.

(** Pages only become clean, those of [l] all. *)
Definition cleaner (l : list place) (w w' : World) : Prop :=
  ∀ k, resident_dirty (pool w') k = true → resident_dirty (pool w) k = true ∧ k ∉ l.

Lemma flush_pages_out l w : sized w → wf_pool cfg (pool w) →
  out (flush_pages cfg l w) (λ _ w', steady w w' ∧ cleaner l w w') (λ w', steady w w').
Proof using Hps PL.
  revert w. induction l as [|k l IH]; intros w Hs Hw; cbn [flush_pages].
  { split; [by apply steady_refl|]. intros k H. split; [done|]. by apply not_elem_of_nil. }
  apply out_gets.
  assert (∀ w1 (m : M World Z), steady w w1 → cleaner [k] w w1 →
    (∀ Q : World → Prop, out (flush_pages cfg l w1) (λ _ w', Q w') (λ w', steady w1 w') → out (m w1) (λ _ w', Q w') (λ w', steady w1 w')) →
    out (m w1) (λ _ w', steady w w' ∧ cleaner (k :: l) w w') (λ w', steady w w')) as Hrest.
  { intros w1 m Hst Hcl Hm. eapply out_weaken; [apply (Hm (λ w', steady w1 w' ∧ cleaner l w1 w')); apply IH; apply Hst| |].
    - intros _ w2 [H1 H2]. split; [by eapply steady_trans|]. intros k' Hk'. destruct (H2 k' Hk') as [H3 H4].
      destruct (Hcl k' H3) as [H5 H6]. split; [done|]. set_solver.
    - intros w2 H. by eapply steady_trans. }
  assert (resident_dirty (pool w) k = false → out ((_ ← update (refresh_dirty_candidate k); flush_pages cfg l) w)
    (λ _ w', steady w w' ∧ cleaner (k :: l) w w') (λ w', steady w w')) as Hclean.
  { intros Hc. apply out_update. apply Hrest; [by apply refresh_steady| |by intros Q H].
    intros k' Hk'. cbn in Hk'. unfold resident_dirty in Hk'. destruct (refresh_recandidated k (pool w)) as (? & ? & Heq & _).
    rewrite Heq in Hk'. split; [done|]. intros ->%list_elem_of_singleton. unfold resident_dirty in Hc. cbn in Hk'. congruence. }
  destruct (frames (pool w) !! k) as [fr|] eqn:Hf; [|apply Hclean; unfold resident_dirty; by rewrite Hf].
  case_match eqn:Hd; [|apply Hclean; unfold resident_dirty; by rewrite Hf].
  eapply out_bind; [apply (write_back_frame_out k fr w); try done; by eapply dirty_candidate| |done].
  intros [] w1 [Hst (fr' & Hf1 & Hc1 & _)]. apply Hrest; [done| |].
  - intros k' Hk'. unfold resident_dirty in *. rewrite Hf1 in Hk'. destruct (decide (k' = k)) as [->|Hne].
    + rewrite lookup_insert_eq in Hk'. cbn in Hk'. congruence.
    + rewrite lookup_insert_ne in Hk' by done. split; [done|]. by intros ?%list_elem_of_singleton.
  - intros Q H. eapply out_bind; [exact H|by intros|done].
Qed.

Lemma flush_out file w : sized w → wf_pool cfg (pool w) →
  out (flush cfg file w)
    (λ _ w', steady w w' ∧ ∀ k, in_file file k = true → resident_dirty (pool w') k = false) (λ w', steady w w').
Proof using Hps PL.
  intros Hs Hw. unfold flush. apply out_gets. eapply out_weaken; [by apply flush_pages_out| |done].
  intros _ w' [Hst Hcl]. split; [done|]. intros k Hk. apply not_true_iff_false. intros Hd. destruct (Hcl k Hd) as [Hd0 Hn].
  apply Hn. apply elem_of_headers_last, in_file_candidates. split; [by apply resident_dirty_candidate|done].
Qed.

(** Where nothing is dirty the device holds what is shown. *)
Lemma clean_shown w k : faithful_to ps (F_ w) (cached (pool w)) → resident_dirty (pool w) k = false → picture_at w k = shown w k.
Proof.
  unfold shown_at, resident_dirty. intros Hf Hd. destruct (cached (pool w) !! k) as [p|] eqn:E; [|done].
  unfold cached in E. rewrite lookup_fmap in E. destruct (frames (pool w) !! k) as [fr|] eqn:Ef; [|done]. injection E as <-.
  by apply (Hf k); [apply cached_Some|].
Qed.

Lemma refreshes_steady l w : sized w → wf_pool cfg (pool w) →
  steady w (MkWorld (dev w) (foldl (λ P k, refresh_dirty_candidate k P) (pool w) l)).
Proof.
  revert w. induction l as [|k l IH]; intros w Hs Hw; [destruct w; by apply steady_refl|]. cbn [foldl].
  pose proof (refresh_steady w k Hs Hw) as Hst. eapply steady_trans; [exact Hst|]. apply (IH (MkWorld _ _)); apply Hst.
Qed.

(** The pages that were changed are those written back since and those dirty now: the candidates
    are all there is to look at. *)
Lemma modified_pages_out file w : sized w → wf_pool cfg (pool w) →
  out (modified_pages file w)
    (λ a w', steady w w' ∧ ∀ k, k ∈ a ↔ in_file file k = true ∧ accounted (pool w) k) (λ w', False).
Proof.
  intros Hs Hw. unfold modified_pages. do 3 apply out_gets. apply out_update. split; [by apply refreshes_steady|].
  intros k. rewrite elem_of_filter, elem_of_union, elem_of_list_to_set, list_elem_of_filter, in_file_candidates. unfold accounted.
  split; [naive_solver|]. intros [Hk [?|Hd]]; [by auto|]. split; [done|]. left. split_and!; try done. by apply resident_dirty_candidate.
Qed.

(** *** Forgetting *)

Lemma invalidate_pages_out l w : sized w → wf_pool cfg (pool w) → (∀ k, k ∈ l → holding (pool w) k = None) →
  out (invalidate_pages cfg false l w) (λ _ w', steady w w') (λ w', steady w w').
Proof using Hps PL.
  revert w. induction l as [|k l IH]; intros w Hs Hw Hl; cbn [invalidate_pages]; [by apply steady_refl|].
  apply out_gets. destruct (frames (pool w) !! k) as [fr|] eqn:Hf; [|apply IH; try done; intros; apply Hl; by right].
  assert (pins fr = 0) as Hp by (apply (holding_None _ _ _ Hf), Hl; by left). rewrite Hp. cbn [Z.eqb negb].
  rewrite bind_assoc.
  eapply out_weaken; [apply (evict_out (λ _, invalidate_pages cfg false l) k fr w (λ _ _, True)); try done| |done]; [|by intros ?? []].
  intros w1 Hst _. eapply out_weaken; [apply IH; [apply Hst|apply Hst|]| |done].
  - intros k' Hk'. rewrite (st_held _ _ _ Hst). apply Hl. by right.
  - done.
Qed.

Lemma invalidate_out file w : sized w → wf_pool cfg (pool w) →
  out (invalidate cfg file w) (λ _ w', steady w w') (λ w', steady w w').
Proof using Hps PL.
  intros Hs Hw. unfold invalidate, invalidate_. do 2 apply out_gets. case_match eqn:Hp; [by apply steady_refl|].
  cbn [negb andb] in Hp. eapply out_bind; [apply invalidate_pages_out; [done..|]| |done].
  - intros k Hk. apply unheld. apply not_true_iff_false. intros Hh. apply not_true_iff_false in Hp. apply Hp.
    apply existsb_exists. exists k. split; [by apply list_elem_of_In|done].
  - intros [] w1 Hst. cbn. eapply steady_trans; [exact Hst|]. apply same_tables_steady; try (by destruct file); try apply Hst.
Qed.

(** A checkpoint of a file leaves it clean, and whatever a loss of power leaves of it is what the
    device shows. *)
Lemma checkpoint_out file w : sized w → wf_pool cfg (pool w) →
  out (checkpoint cfg (Some file) w)
    (λ _ w', steady w w' ∧ (∀ k, k.1 = file → resident_dirty (pool w') k = false) ∧
       is_Some (F_ w' !! file) ∧ ∀ x, recoverable (dev w') file x → x = F_ w' !! file)
    (λ w', steady w w').
Proof using Hps PL.
  intros Hs Hw. unfold checkpoint. eapply out_bind; [by apply flush_out| |done]. intros n w1 [Hst Hcl].
  eapply out_bind; [exact (on_dev_out _ _ _ _ w1 (durable_barrier_law file) (st_sized _ _ _ Hst))| |].
  - intros _ w2 (Hp & Hs2 & HF & _ & Hsome & Hx). split.
    + eapply steady_trans; [exact Hst|]. apply steady_quiet; [apply Hst|done].
    + split; [intros k Hk; rewrite Hp; apply Hcl; cbn; by apply bool_decide_eq_true|]. rewrite HF. split; [done|apply Hx].
  - intros w2 (Hp & Hs2 & HF & _). eapply steady_trans; [exact Hst|]. apply steady_quiet; [apply Hst|done].
Qed.

(** *** Rounds enough *)

Lemma bind_congr {A B : Type} (m : M World A) (f g : A → M World B) w :
  (∀ a w', m w = (Ok a, w') → f a w' = g a w') → (m ≫= f) w = (m ≫= g) w.
Proof. intros H. unfold mbind, m_bind. destruct (m w) as [[a|e] w'] eqn:E; [by apply H|done]. Qed.

Lemma no_victim P : table_ok cfg P → size (frames P) = 0%nat → find_victim P = None.
Proof.
  intros Ht Hz. apply map_size_empty_inv in Hz. destruct (find_victim P) as [k|] eqn:E; [|done].
  apply find_victim_Some in E as (fr & Hf & _). by rewrite Hz in Hf.
Qed.

(** Every round takes a page away, so rounds beyond one for each page make no difference. *)
Lemma rounds_agree diagnose n m w : sized w → wf_pool cfg (pool w) → (size (frames (pool w)) ≤ n)%nat → (size (frames (pool w)) ≤ m)%nat →
  make_room_rounds cfg diagnose n w = make_room_rounds cfg diagnose m w.
Proof using Hps PL.
  revert m w. induction n as [|n IH]; intros m w Hs Hw Hn Hm.
  - assert (size (frames (pool w)) = 0%nat) as Hz by lia. pose proof (no_victim _ (wp_table _ _ Hw) Hz) as Hv.
    destruct m; [done|]. cbn [make_room_rounds]. apply bind_congr. intros o w1 [= <- <-]. case_match; [done|].
    apply bind_congr. intros v w2 [= <- <-]. rewrite Hv. done.
  - destruct m as [|m].
    { assert (size (frames (pool w)) = 0%nat) as Hz by lia. pose proof (no_victim _ (wp_table _ _ Hw) Hz) as Hv.
      cbn [make_room_rounds]. apply bind_congr. intros o w1 [= <- <-]. case_match; [done|].
      apply bind_congr. intros v w2 [= <- <-]. rewrite Hv. done. }
    cbn [make_room_rounds]. apply bind_congr. intros o w1 [= <- <-]. case_match; [done|].
    apply bind_congr. intros v w2 [= <- <-]. destruct (find_victim (pool w)) as [k|] eqn:Hv; [|done].
    destruct (find_victim_Some _ _ Hv) as (fr & Hf & Hp). cbn. rewrite Hf. cbn.
    apply bind_congr. intros [] w1 H1. pose proof (steady_write_back _ k fr w Hs Hw Hf eq_refl) as Hwb. rewrite H1 in Hwb.
    destruct Hwb as [Hst (fr' & Hf1 & Hd1 & Hp1)]. apply bind_congr. intros [] w2 [= <-].
    assert (size (frames (refresh_dirty_candidate k (remove_frame k (pool w1)))) = pred (size (frames (pool w)))) as Hsz.
    { destruct (refresh_recandidated k (remove_frame k (pool w1))) as (c & l & -> & _). cbn. rewrite Hf1, delete_insert_eq.
      by rewrite map_size_delete, Hf. }
    pose proof (forgotten_steady w1 k fr' (st_sized _ _ _ Hst) (st_wf _ _ _ Hst)) as Hfs.
    rewrite Hf1, lookup_insert_eq in Hfs. specialize (Hfs eq_refl ltac:(congruence) Hd1).
    apply IH; cbn [pool dev]; [apply Hfs|apply Hfs|rewrite Hsz; lia|rewrite Hsz; lia].
Qed.

Lemma victim_found P k fr : wf_pool cfg P → frames P !! k = Some fr → pins fr = 0 →
  ∃ k1 fr1, find_victim P = Some k1 ∧ frames P !! k1 = Some fr1 ∧ pins fr1 = 0.
Proof.
  intros Hw Hk Hp. destruct (find_victim P) as [k1|] eqn:E.
  - destruct (find_victim_Some _ _ E) as (fr1 & ? & ?). by exists k1, fr1.
  - exfalso. unfold find_victim in E. pose proof (find_none _ _ E k) as H. cbn in H. rewrite Hk in H. cbn in H. rewrite Hp in H.
    apply (proj2 (not_true_iff_false _)) in H; [done|]. apply list_elem_of_In. apply (to_members _ _ (wp_table _ _ Hw)). by eexists.
Qed.
End doors.
