(* ===== verification/BufferClient.v ===== *)
(** The page cache of [BufferPool] as its clients see it.

    A [Store] says what every place shows and which page is in whose hands.  The pool over a device
    is such a store whatever it evicts, loads and writes back meanwhile: [pool_refines_store] holds
    of every history of requests.  The other theorems say what a checkpoint can rely on. *)

From S2P Require Import Prelude Ids Layout Slotted SlottedCodec Utf8 Storage ControlRecord MemoryStorage BufferPool BufferTheorems BufferDoors.
Import Page.

(** ** The store a pool stands for *)

Record Store := MkStore {
  shows : place → option Picture;
  holds : place → option (nat * Z)
}.

Section client.
(** What the methods of a page answer. *)
Context {A : Type}.

Inductive request :=
  | Pin (k : place)
  | Call (k : place) (o : nat) (f : Page.t → result (A * Page.t))
  | Unpin (k : place) (dirty : bool) (o : nat)
  | Allocate (file : pystr) (page_type : Z) (reuse : bool)
  | Flush (file : option pystr)
  | Checkpoint (file : pystr)
  | Invalidate (file : option pystr)
  | ModifiedPages (file : option pystr).

Inductive answer :=
  | Lent (o : nat)
  | Returned (a : A)
  | Finished
  | Fresh (i : Z) (o : nat)
  | Places (s : gset place).

(** A client uses and gives back only what it holds, and changes a page through its methods. *)
Definition legal (s : Store) (r : request) : Prop :=
  match r with
  | Call k o f => (∃ n, holds s k = Some (o, n)) ∧ page_method f
  | Unpin k _ o => ∃ n, holds s k = Some (o, n)
  | Allocate _ t _ => kind_ok t
  | _ => True
  end.

Definition same_shows (s s' : Store) : Prop := ∀ k, shows s' k = shows s k.
Definition same_holds (s s' : Store) : Prop := ∀ k, holds s' k = holds s k.
Definition holds_at (s s' : Store) (k : place) (h : option (nat * Z)) : Prop :=
  ∀ k', holds s' k' = if decide (k' = k) then h else holds s k'.

Variable cfg : Config.
#[local] Abbreviation ps := (page_bytes cfg).

(** What a request may answer, and what it does. *)
Definition answers (s : Store) (r : request) (res : result answer) (s' : Store) : Prop :=
  match r, res with
  | Pin k, Ok (Lent o) => same_shows s s' ∧ is_Some (shows s k) ∧
      ∃ n, (holds s k = None ∧ n = 1 ∨ holds s k = Some (o, n - 1)) ∧ holds_at s s' k (Some (o, n))
  | Call k o f, _ => same_holds s s' ∧ ∃ p, wf p ∧ shows s k = Some (picture p) ∧
      match f p with
      | Ok (a, p') => res = Ok (Returned a) ∧ ∀ k', becomes k (picture p') k' (shows s k') (shows s' k')
      | Err e => res = Err e ∧ same_shows s s'
      end
  | Unpin k _ o, Ok Finished => same_shows s s' ∧ ∃ n, holds s k = Some (o, n) ∧ holds_at s s' k (take_back n o)
  | Allocate file t _, Ok (Fresh i o) => holds s (file, i) = None ∧ holds_at s s' (file, i) (Some (o, 1)) ∧
      ∀ k, becomes (file, i) (picture (blank ps t)) k (shows s k) (shows s' k)
  | Allocate file _ _, Err _ => same_holds s s' ∧ ∀ k, grew cfg (λ k, k.1 = file) k (shows s k) (shows s' k)
  | ModifiedPages _, Ok (Places _) => same_holds s s' ∧ same_shows s s'
  | (Flush _ | Checkpoint _ | Invalidate _), Ok Finished => same_holds s s' ∧ same_shows s s'
  | (Pin _ | Flush _ | Checkpoint _ | Invalidate _), Err _ => same_holds s s' ∧ same_shows s s'
  | _, _ => False
  end.

(** A history of requests and what was answered. *)
Inductive behaves : Store → list (request * result answer) → Store → Prop :=
  | behaves_end s s' : same_shows s s' → same_holds s s' → behaves s [] s'
  | behaves_step s r res s1 l s2 : legal s r → answers s r res s1 → behaves s1 l s2 → behaves s ((r, res) :: l) s2.

Section pool.
Context {Dev : Type} {SD : StorageDevice Dev} {SL : StorageLaws Dev} {PL : PageLaws Dev}.
Hypothesis Hps : validate_page_size ps = Ok ps.
#[local] Abbreviation World := (@BufferPool.World Dev).
#[local] Abbreviation shown w := (shown_at ps (files (dev w)) (cached (pool w))).

Definition view (w : World) : Store := MkStore (λ k, shown w k) (λ k, holding (pool w) k).

(** The pool and the device agree, and the tables are in order. *)
Record inv (w : World) : Prop := {
  iv_sized : sized cfg w;
  iv_wf : wf_pool cfg (pool w);
  iv_faithful : faithful_to ps (files (dev w)) (cached (pool w))
}.

Definition perform (r : request) : M World answer :=
  match r with
  | Pin k => o ← pin cfg k; mret (Lent o)
  | Call k o f => a ← call_page k o f; mret (Returned a)
  | Unpin k dirty o => _ ← unpin cfg k dirty (Some o); mret Finished
  | Allocate file t reuse => r ← BufferPool.allocate cfg file t reuse; mret (Fresh r.1 r.2)
  | Flush file => _ ← flush cfg file; mret Finished
  | Checkpoint file => _ ← checkpoint cfg (Some file); mret Finished
  | Invalidate file => _ ← invalidate cfg file; mret Finished
  | ModifiedPages file => s ← modified_pages file; mret (Places s)
  end.

Fixpoint history (w : World) (rs : list request) : list (request * result answer) * World :=
  match rs with
  | [] => ([], w)
  | r :: rs => let '(res, w1) := perform r w in let '(l, w2) := history w1 rs in ((r, res) :: l, w2)
  end.

Fixpoint lawful (w : World) (rs : list request) : Prop :=
  match rs with [] => True | r :: rs => legal (view w) r ∧ lawful (perform r w).2 rs end.

(** *** One request *)

Lemma steady_view w w' : inv w → kept cfg (holding (pool w)) w w' →
  inv w' ∧ same_holds (view w) (view w') ∧ same_shows (view w) (view w').
Proof.
  intros [Hs Hw Hf] [Hs' Hw' Hm Hd Hr Hh]. destruct (proj2 Hm Hf) as [Hf' Hsh]. split_and!; [done|exact Hh|exact Hsh].
Qed.

Lemma kept_view H w w' : inv w → kept cfg H w w' → inv w' ∧ same_shows (view w) (view w').
Proof. intros [Hs Hw Hf] [Hs' Hw' Hm Hd Hr Hh]. destruct (proj2 Hm Hf) as [Hf' Hsh]. by split. Qed.

Lemma stepped_inv R H w w' : inv w → stepped cfg R H w w' → inv w'.
Proof. intros [Hs Hw Hf] [Hs' Hw' _ Hsh Hd Hr Ht Hh]. by destruct (Hsh Hf) as [Hf' _]. Qed.

Lemma bind_out {B : Type} (m : M World B) (g : B → answer) w (Q : B → World → Prop) (E : World → Prop)
    (T : result answer → World → Prop) :
  out (m w) Q E → (∀ b w', Q b w' → T (Ok (g b)) w') → (∀ e w', E w' → T (Err e) w') →
  T ((b ← m; mret (g b)) w).1 ((b ← m; mret (g b)) w).2.
Proof. unfold mbind, m_bind. destruct (m w) as [[b|e] w']; cbn; auto. Qed.

(** What every request keeps: what it changes a checkpoint will know of. *)
Definition told (w w' : World) : Prop :=
  remembers (pool w) (pool w') ∧ ∀ k, shown w' k = shown w k ∨ accounted (pool w') k ∨ sprouted cfg (shown w k) (shown w' k).

Definition performs (r : request) (w : World) (res : result answer) (w' : World) : Prop :=
  inv w' ∧ answers (view w) r res (view w') ∧ told w w'.

Lemma kept_told H w w' : inv w → kept cfg H w w' → told w w'.
Proof. intros [_ _ Hf] [_ _ Hm _ Hr _]. destruct (proj2 Hm Hf) as [_ Hs]. split; [done|]. intros k. by left. Qed.

Lemma stepped_told R H w w' : inv w → stepped cfg R H w w' → told w w'.
Proof. intros [_ _ Hf] [_ _ _ _ _ Hr Ht _]. split; [done|]. by apply Ht. Qed.

Lemma kept_performs r res w w' : inv w → kept cfg (holding (pool w)) w w' →
  (same_holds (view w) (view w') → same_shows (view w) (view w') → answers (view w) r res (view w')) → performs r w res w'.
Proof.
  intros Hi Hst Ha. destruct (steady_view w w' Hi Hst) as (Hi' & Hh & Hs). split; [done|]. split; [auto|]. by eapply kept_told.
Qed.

Lemma stepped_performs R H r res w w' : inv w → stepped cfg R H w w' →
  ((∀ k, holding (pool w') k = H k) → (∀ k, R k (shown w k) (shown w' k)) → answers (view w) r res (view w')) → performs r w res w'.
Proof.
  intros Hi Hsp Ha. split; [by eapply stepped_inv|]. split; [|by eapply stepped_told].
  apply Ha; [apply Hsp|]. by apply (sp_shown _ _ _ _ _ Hsp), Hi.
Qed.

Lemma lent_shown w w' k o n : inv w → kept cfg (lend (pool w) k (Some (o, n))) w w' → is_Some (shown w k).
Proof.
  intros Hi Hk. destruct (kept_view _ w w' Hi Hk) as [Hi' Hs]. specialize (Hs k). cbn in Hs. rewrite <-Hs.
  pose proof (st_held _ _ _ _ Hk k) as Hh. unfold lend in Hh. rewrite decide_True in Hh by done.
  destruct (holding_Some cfg _ _ _ _ (wp_table _ _ (iv_wf _ Hi')) Hh) as (fr & Hf & _).
  unfold shown_at. rewrite (cached_Some _ _ _ Hf). by eexists.
Qed.

Lemma performed r w : inv w → legal (view w) r → performs r w (perform r w).1 (perform r w).2.
Proof using Hps PL.
  intros Hi Hl. pose proof Hi as [Hs Hw Hf]. destruct r as [k|k o f|k dirty o|file t reuse|file|file|file|file]; cbn [perform].
  - eapply (bind_out _ Lent _ _ _ (performs (Pin k) w)); [by apply (pin_out cfg Hps)| |].
    + intros o w' (n & Hk & Hn). destruct (kept_view _ w w' Hi Hk) as [Hi' Hsh]. split; [done|]. split; [|by eapply kept_told].
      split; [done|]. split; [by eapply lent_shown|]. exists n. split; [done|]. exact (st_held _ _ _ _ Hk).
    + intros e w' Hk. by apply kept_performs.
  - destruct Hl as [[n Hh] Hm]. destruct (call_page_out cfg k o n f w Hs Hw Hh Hm) as (p & Hwf & _ & Hc & Hp).
    assert (shown w k = Some (picture p)) as Hsh by (unfold shown_at; by rewrite Hc).
    destruct (f p) as [[a p']|e] eqn:Hfp.
    + destruct Hp as (w' & Heq & Hsp). unfold mbind, m_bind. rewrite Heq. cbn. eapply stepped_performs; [done..|].
      intros Hh' Hs'. split; [done|]. exists p. split; [done|]. split; [done|]. by rewrite Hfp.
    + unfold mbind, m_bind. rewrite Hp. cbn. apply kept_performs; [done|by apply steady_refl|]. intros Hh' Hs'.
      split; [done|]. exists p. split; [done|]. split; [done|]. by rewrite Hfp.
  - destruct Hl as [n Hh]. eapply (bind_out _ (λ _, Finished) _ _ _ (performs (Unpin k dirty o) w)); [by apply (unpin_out cfg Hps k dirty o n)| |done].
    intros ? w' Hk. destruct (kept_view _ w w' Hi Hk) as [Hi' Hsh]. split; [done|].
    split; [|exact (kept_told _ _ _ Hi Hk)]. split; [done|]. exists n. split; [done|]. exact (st_held _ _ _ _ Hk).
  - eapply (bind_out _ (λ r, Fresh r.1 r.2) _ _ _ (performs (Allocate file t reuse) w)); [by apply (allocate_out cfg Hps)| |].
    + intros [i o] w' [[Hh _] Hsp]. eapply stepped_performs; [done..|]. intros Hh' Hs'. split; [done|]. by split.
    + intros e w' Hsp. eapply stepped_performs; [done..|]. intros Hh' Hs'. by split.
  - eapply (bind_out _ (λ _, Finished) _ _ _ (performs (Flush file) w)); [by apply (flush_out cfg Hps)| |].
    + intros ? w' [Hk _]. by apply kept_performs.
    + intros e w' Hk. by apply kept_performs.
  - eapply (bind_out _ (λ _, Finished) _ _ _ (performs (Checkpoint file) w)); [by apply (checkpoint_out cfg Hps)| |].
    + intros ? w' [Hk _]. by apply kept_performs.
    + intros e w' Hk. by apply kept_performs.
  - eapply (bind_out _ (λ _, Finished) _ _ _ (performs (Invalidate file) w)); [by apply (invalidate_out cfg Hps)| |].
    + intros ? w' Hk. by apply kept_performs.
    + intros e w' Hk. by apply kept_performs.
  - eapply (bind_out _ Places _ _ _ (performs (ModifiedPages file) w)); [by apply (modified_pages_out cfg)| |done].
    intros ? w' [Hk _]. by apply kept_performs.
Qed.
Lemma told_trans w w1 w2 : told w w1 → told w1 w2 → told w w2.
Proof.
  intros [Hr Ht] [Hr' Ht']. split; [intros k; auto|]. intros k. specialize (Ht k). specialize (Ht' k). specialize (Hr' k).
  destruct Ht as [E|[?|[E1 E2]]]; [rewrite E in Ht'; tauto|auto|]. destruct Ht' as [E|[?|[E _]]]; [|auto|congruence].
  right. right. split; [done|congruence].
Qed.

(** *** Histories *)

Lemma history_performs rs w : inv w → lawful w rs →
  inv (history w rs).2 ∧ behaves (view w) (history w rs).1 (view (history w rs).2) ∧ told w (history w rs).2.
Proof using Hps PL.
  revert w. induction rs as [|r rs IH]; intros w Hi Hl; cbn [history].
  { split; [done|]. split; [by apply behaves_end|]. split; [by intros k|by left]. }
  destruct Hl as [Hr Hl]. destruct (performed r w Hi Hr) as (Hi1 & Ha1 & Ht1).
  destruct (perform r w) as [res w1]. cbn in *. destruct (IH w1 Hi1 Hl) as (Hi2 & Hb2 & Ht2).
  destruct (history w1 rs) as [l w2]. cbn in *. split; [done|]. split; [by eapply behaves_step|by eapply told_trans].
Qed.

(** A new pool over a device. *)
Definition opened (d : Dev) : World := MkWorld d empty_pool.

Lemma opened_inv d : Storage.page_size d = ps → 0 <= budget_bytes cfg → inv (opened d).
Proof.
  intros Hs Hb. split; [done| |by intros k p]. split.
  - split; cbn; try done.
    + constructor.
    + intros k. rewrite lookup_empty. split; [by intros ?%not_elem_of_nil|by intros []].
    + intros k fr H. by apply not_elem_of_nil in H.
    + intros k. rewrite lookup_empty. constructor.
  - intros k _. unfold needs, lingers. cbn. rewrite !lookup_empty. cbn. split; [by intros ?%not_elem_of_empty|].
    intros [?|H]; [done|by apply not_elem_of_nil in H].
  - cbn. rewrite map_size_empty. lia.
Qed.
End pool.
End client.

Arguments request : clear implicits.
Arguments answer : clear implicits.

(** ** The theorems *)

Lemma make_config_Ok n b fence signature cfg : make_config n b fence signature = Ok cfg →
  validate_page_size (page_bytes cfg) = Ok (page_bytes cfg) ∧ 0 <= budget_bytes cfg.
Proof.
  unfold make_config. intros H. inv_ok H. injection H as <-. cbn. apply validate_page_size_Ok in E as Hs. destruct Hs as (-> & Hs & _).
  split; [done|]. unfold validate_budget in E0. case_match eqn:Hb; [done|]. injection E0 as <-. unfold MIN_PAGE_SIZE in Hs. lia.
Qed.

(** C4: A pool made over a device is a store of pages, whatever it loads, evicts and writes back:
    along any history of lawful requests every pin answers the page its place shows, under the object
    its other holders have; every call of a page works on what the place shows, and its change is what
    the place shows from then on; a new page is blank and nobody held its place; flushing,
    checkpointing, invalidating and measuring change nothing that is shown; and a request that raises
    changes nothing that is shown either, but that a growth that failed may leave blank pages. *)
Theorem pool_refines_store {A Dev : Type} {SD : StorageDevice Dev} {SL : StorageLaws Dev} {PL : PageLaws Dev}
    (n b : Z) (fence : pystr → Z → bool) (signature : pystr → option (Page.t → Page.t → bool)) (cfg : Config)
    (d : Dev) (rs : list (request A)) (Hcfg : make_config n b fence signature = Ok cfg) (Hd : Storage.page_size d = page_bytes cfg)
    (Hl : lawful cfg (opened d) rs) :
  let '(l, w) := history cfg (opened d) rs in
  behaves cfg (view cfg (opened d)) l (view cfg w) ∧
  (∀ k, shows (view cfg (opened d)) k = device_picture (page_bytes cfg) (files d) k) ∧ ∀ k, holds (view cfg (opened d)) k = None.
Proof.
  destruct (make_config_Ok _ _ _ _ _ Hcfg) as [Hps Hb].
  pose proof (history_performs cfg Hps rs (opened d) (opened_inv cfg d Hd Hb) Hl) as (_ & H & _).
  destruct (history cfg (opened d) rs) as [l w]. by split_and!.
Qed.

(** The oracle of the tests is satisfied and the budget is kept. *)
Definition indexed (cfg : Config) (P : Pool) : Prop :=
  assert_dirty_candidate_coverage P = true ∧ Z.of_nat (size (frames P)) * page_bytes cfg <= budget_bytes cfg.

(** The same, the entry of [k] apart. *)
Definition indexed_but (cfg : Config) (k : place) (P : Pool) : Prop :=
  (∀ k', k' ≠ k → k' ∈ dirty_candidates P ↔ needs P k' = true ∨ lingers P k') ∧
  Z.of_nat (size (frames P)) * page_bytes cfg <= budget_bytes cfg.

Lemma wf_indexed cfg P : wf_pool cfg P → indexed cfg P.
Proof. intros Hw. split; [apply covered_oracle|]; apply Hw. Qed.

(** C7: The index of the pages that may be dirty is exact after every lawful history of pins, calls,
    unpins, allocations, flushes, checkpoints, invalidations and reports, whether each returned or
    raised: the oracle of the tests, a scan of every frame, finds no difference; and the pages
    resident together never take more than the budget.  A direct [write_back] that then returns keeps
    it so; one that raises can only leave the entry of its own place wrong (and does, for a clean
    page: [failed_write_back_escapes]). *)
Theorem pool_index_exact {A Dev : Type} {SD : StorageDevice Dev} {SL : StorageLaws Dev} {PL : PageLaws Dev}
    (n b : Z) (fence : pystr → Z → bool) (signature : pystr → option (Page.t → Page.t → bool)) (cfg : Config)
    (d : Dev) (rs : list (request A)) (Hcfg : make_config n b fence signature = Ok cfg) (Hd : Storage.page_size d = page_bytes cfg)
    (Hl : lawful cfg (opened d) rs) :
  let w := (history cfg (opened d) rs).2 in
  indexed cfg (pool w) ∧
  ∀ k, let '(r, w') := write_back cfg k w in
    match r with Ok _ => indexed cfg (pool w') | Err _ => indexed_but cfg k (pool w') end.
Proof.
  destruct (make_config_Ok _ _ _ _ _ Hcfg) as [Hps Hb].
  pose proof (history_performs cfg Hps rs (opened d) (opened_inv cfg d Hd Hb) Hl) as ([Hs Hw _] & _). cbn zeta.
  split; [by apply wf_indexed|]. intros k. pose proof (write_back_index cfg Hps k _ Hs Hw) as Hk.
  destruct (write_back cfg k _) as [[b'|e] w']; cbn in Hk; [by apply wf_indexed|]. destruct Hk as [Hc Hn].
  split; [exact Hc|]. rewrite Hn. apply Hw.
Qed.

(** C6: What a statement changed a checkpoint hears of: after any lawful requests [modified_pages]
    returns, and names every page of the file that shows something else than before, those that were
    not there before among them; left out are only places that showed nothing and now show a blank
    free page, which a growth of the file leaves when no allocation came of it. *)
Theorem modified_pages_tell {A Dev : Type} {SD : StorageDevice Dev} {SL : StorageLaws Dev} {PL : PageLaws Dev}
    (cfg : Config) (w : World) (rs : list (request A)) (file : option pystr)
    (Hps : validate_page_size (page_bytes cfg) = Ok (page_bytes cfg)) (Hi : inv cfg w) (Hl : lawful cfg w rs) :
  let w1 := (history cfg w rs).2 in
  ∃ told w2, modified_pages file w1 = (Ok told, w2) ∧
    ∀ k, in_file file k = true → shows (view cfg w1) k ≠ shows (view cfg w) k →
      k ∈ told ∨ sprouted cfg (shows (view cfg w) k) (shows (view cfg w1) k).
Proof.
  destruct (history_performs cfg Hps rs w Hi Hl) as ([Hs Hw _] & _ & _ & Ht). cbn zeta.
  pose proof (modified_pages_out cfg file _ Hs Hw) as Hm. destruct (modified_pages file _) as [[a|e] w2]; [|done].
  destruct Hm as [_ Hm]. exists a, w2. split; [done|]. intros k Hk Hne.
  destruct (Ht k) as [?|[?|Hno]]; [done| |by right]. left. by apply Hm.
Qed.

(** Rounds of eviction end: one for each resident page is enough, whatever happens in them, and
    when a page nobody holds is resident and none of those is dirty, room is made without touching
    the device, by dropping one page at most. *)
Theorem make_room_returns {Dev : Type} {SD : StorageDevice Dev} {SL : StorageLaws Dev} {PL : PageLaws Dev}
    (cfg : Config) (w : World) (diagnose : M World ()) (rounds : nat) (k : place) (fr : Frame)
    (Hps : validate_page_size (page_bytes cfg) = Ok (page_bytes cfg)) (Hi : inv cfg w) (Hrounds : (size (frames (pool w)) ≤ rounds)%nat)
    (Hk : frames (pool w) !! k = Some fr) (Hfree : pins fr = 0)
    (Hclean : ∀ k fr, frames (pool w) !! k = Some fr → pins fr = 0 → is_dirty fr = false) :
  make_room_rounds cfg diagnose rounds w = make_room cfg diagnose w ∧
  ∃ w', make_room cfg diagnose w = (Ok (), w') ∧ dev w' = dev w ∧
    (size (frames (pool w)) ≤ S (size (frames (pool w'))))%nat ∧
    (Z.of_nat (size (frames (pool w'))) + 1) * page_bytes cfg <= budget_bytes cfg.
Proof.
  pose proof Hi as [Hs Hw Hf]. split; [by apply (rounds_agree cfg Hps)|].
  destruct (victim_found cfg _ _ _ Hw Hk Hfree) as (k1 & fr1 & Hv & Hk1 & Hp1).
  pose proof (remove_frame_size k1 _ _ Hk1) as Hsz. pose proof (wp_room _ _ Hw) as Hr. pose proof (ps_pos cfg Hps).
  unfold make_room, get, gets, mbind, m_bind. cbn. rewrite Hsz in Hr |- *. cbn [make_room_rounds]. unfold get, gets, mbind, m_bind.
  rewrite Hsz. case_match eqn:Hroom; [exists w; split_and!; [done|done|lia|rewrite Hsz; by apply Z.leb_le]|].
  rewrite Hv. cbn. rewrite Hk1. cbn. rewrite (Hclean _ _ Hk1 Hp1). cbn. set (P1 := refresh_dirty_candidate k1 _).
  assert (size (frames P1) = size (frames (remove_frame k1 (pool w)))) as Hs1
    by (unfold P1; by destruct (refresh_recandidated k1 (remove_frame k1 (pool w))) as (c & l & -> & _)).
  assert ((Z.of_nat (size (frames P1)) + 1) * page_bytes cfg <= budget_bytes cfg) as Hr1 by (rewrite Hs1; lia).
  exists (MkWorld (dev w) P1). split_and!; [|done|cbn [pool]; rewrite Hs1; apply le_n|done].
  generalize (size (delete k1 (frames (pool w)))). intros [|n]; cbn [make_room_rounds]; unfold get, gets, mbind, m_bind; cbn [pool];
    by rewrite (proj2 (Z.leb_le _ _) Hr1).
Qed.

(** C5: A checkpoint of a file that returns is durable: whatever a loss of power may leave of the
    file, a reader finds at every place of it what the pool shows. *)
Theorem checkpoint_durable {Dev : Type} {SD : StorageDevice Dev} {SL : StorageLaws Dev} {PL : PageLaws Dev}
    (cfg : Config) (w w' : World) (file : pystr) (written : Z)
    (Hps : validate_page_size (page_bytes cfg) = Ok (page_bytes cfg)) (Hi : inv cfg w)
    (Hrun : checkpoint cfg (Some file) w = (Ok written, w')) :
  inv cfg w' ∧ (∀ k, shows (view cfg w') k = shows (view cfg w) k) ∧
  ∀ left, recoverable (dev w') file left → ∃ c, left = Some c ∧
    ∀ i, device_picture (page_bytes cfg) {[file := c]} (file, i) = shows (view cfg w) (file, i).
Proof.
  pose proof Hi as [Hs Hw Hf]. pose proof (checkpoint_out cfg Hps file w Hs Hw) as Hc. rewrite Hrun in Hc. cbn in Hc.
  destruct Hc as (Hst & Hcl & [c Hsome] & Hx). destruct (steady_view cfg w w' Hi Hst) as (Hi' & _ & Hsh). split; [done|]. split; [done|].
  intros left Hleft. exists c. rewrite (Hx _ Hleft). split; [done|]. intros i. rewrite <-(Hsh (file, i)). cbn.
  rewrite <-(clean_shown cfg w' (file, i)) by (apply Hi' || by apply Hcl). unfold device_picture. f_equal.
  apply image_at_other. cbn [fst]. rewrite lookup_singleton_eq. exact (eq_sym Hsome).
Qed.

(** ** Through the pool to the records of a page *)

Lemma compact_picture p : wf p → picture (compact p).2 = picture p ∧ (dirty (compact p).2 = true ∨ dirty (compact p).2 = dirty p).
Proof.
  intros Hw. destruct (compact_ok p Hw) as (_ & Hc & _). unfold picture. rewrite Hc. unfold compact.
  destruct (fold_left _ _ _) as [[packed cursor] rebuilt]. cbn. split; [done|]. case_match; auto.
Qed.

(** The requests of a slotted page are methods of it. *)
Lemma serve_method r : page_method (λ p, serve p r).
Proof.
  intros p a p' Hw H. pose proof (serve_agrees p r Hw) as Hag. rewrite H in Hag. cbn in Hag.
  destruct (serve_spec (page_size p) (contents p) r) as [[b c]|]; [|done]. destruct Hag as (_ & Hw' & Hz & _). split; [done|]. split; [done|].
  destruct r as [x|slot x|slot|slot| |]; cbn [serve] in H.
  - left. inv_ok H. destruct x0 as [i q]. injection H as _ <-. unfold insert_slot in E.
    repeat case_match; try done; by injection E as _ <-.
  - left. inv_ok H. injection H as _ <-. unfold update_slot in E. inv_ok E. destruct x1 as [o l].
    repeat case_match; try done; by injection E as <-.
  - left. inv_ok H. destruct x as [i q]. injection H as _ <-. unfold free_slot in E. inv_ok E. destruct x as [o l]. by injection E as _ <-.
  - right. inv_ok H. by injection H as _ <-.
  - injection H as _ <-. destruct (compact_picture p Hw) as [Hp [Hd|Hd]]; auto.
  - left. by injection H as _ <-.
Qed.

(** A request to a held page is the request of the page specification on the payloads its place
    shows: the same answer or the same refusal, and afterwards the place shows the specified
    payloads and every other place what it showed. *)
Theorem held_page_refines {Dev : Type} {SD : StorageDevice Dev} {SL : StorageLaws Dev} {PL : PageLaws Dev}
    (cfg : Config) (w : World) (k : place) (o : nat) (n : Z) (pic : Picture) (r : Slotted.request) (Hi : inv cfg w)
    (Hh : holds (view cfg w) k = Some (o, n)) (Hpic : shows (view cfg w) k = Some pic) :
  let '(res, w') := call_page k o (λ p, serve p r) w in
  match res, serve_spec (page_bytes cfg) (pic_contents pic) r with
  | Ok a, Ok (b, contents) => a = b ∧ inv cfg w' ∧ (∀ k', holds (view cfg w') k' = holds (view cfg w) k') ∧
      (∃ pic', shows (view cfg w') k = Some pic' ∧ pic_contents pic' = contents) ∧
      ∀ k', k' ≠ k → shows (view cfg w') k' = shows (view cfg w) k'
  | Err e, Err e' => e = e' ∧ w' = w
  | _, _ => False
  end.
Proof.
  pose proof Hi as [Hs Hw Hf]. destruct (call_page_out cfg k o n _ w Hs Hw Hh (serve_method r)) as (p & Hwf & Hz & Hc & Hp).
  cbn in Hpic. unfold shown_at in Hpic. rewrite Hc in Hpic. injection Hpic as <-. cbn [pic_contents picture].
  pose proof (serve_agrees p r Hwf) as Hag. rewrite Hz in Hag.
  destruct (serve p r) as [[a p']|e], (serve_spec _ _ _) as [[b c]|e']; try done; cbn in Hag.
  - destruct Hp as (w' & -> & Hsp). destruct Hag as (-> & _ & _ & Hcon & _). pose proof (sp_shown _ _ _ _ _ Hsp Hf) as [_ Hsh].
    split; [done|]. split; [by eapply stepped_inv|]. split; [apply (sp_held _ _ _ _ _ Hsp)|]. split.
    + exists (picture p'). split; [|done]. cbn. rewrite (Hsh k). by rewrite decide_True.
    + intros k' Hk'. cbn. rewrite (Hsh k'). by rewrite decide_False.
  - rewrite Hp. by rewrite Hag.
Qed.

(** ** Witnesses *)

Definition heap : pystr := str "heap.dat".
Definition sample_device : Memory.t := (Storage.create heap true (Memory.Mk 512 None ∅ ∅ false)).2.
Definition sample_config : Config := MkConfig 512 512 (λ _ _, false) (λ _, None).

(** One page of budget, two pages: the first is written out when the second comes. *)
Definition sample_requests : list (request Slotted.answer) :=
  [Allocate heap 2 true; Call (heap, 0) 0 (λ p, serve p (Insert ([Byte.x61; Byte.x62]))); Unpin (heap, 0) true 0;
   Allocate heap 2 true; Unpin (heap, 1) true 1;
   Pin (heap, 0); Call (heap, 0) 2 (λ p, serve p (Read 0)); Unpin (heap, 0) false 2].

Definition first_two : list (request Slotted.answer) := take 2 sample_requests.

Lemma sample_lawful : lawful sample_config (opened sample_device) sample_requests.
Proof.
  cbn [sample_requests lawful]. split_and!; try exact I; cbn [legal].
  all: try (split; [|apply serve_method]).
  all: try (exists 1; vm_compute; reflexivity).
  all: unfold kind_ok, MAX_U16; lia.
Defined.

Definition answers_of (rs : list (request Slotted.answer)) : list (result (answer Slotted.answer)) :=
  snd <$> (history sample_config (opened sample_device) rs).1.

Lemma pool_refines_store_witness :
  answers_of sample_requests = [Ok (Fresh 0 0); Ok (Returned (Slotted.Slot 0)); Ok Finished; Ok (Fresh 1 1); Ok Finished;
    Ok (Lent 2); Ok (Returned (Slotted.Payload [Byte.x61; Byte.x62])); Ok Finished] ∧
  let '(l, w) := history sample_config (opened sample_device) sample_requests in
  behaves sample_config (view sample_config (opened sample_device)) l (view sample_config w) ∧
  (∀ k, shows (view sample_config (opened sample_device)) k = device_picture 512 (files sample_device) k) ∧
  ∀ k, holds (view sample_config (opened sample_device)) k = None.
Proof.
  split; [vm_compute; reflexivity|].
  exact (pool_refines_store 512 512 (λ _ _, false) (λ _, None) sample_config sample_device sample_requests eq_refl eq_refl sample_lawful).
Defined.

Lemma pool_index_exact_witness :
  let w := (history sample_config (opened sample_device) sample_requests).2 in
  indexed sample_config (pool w) ∧
  ∀ k, let '(r, w') := write_back sample_config k w in
    match r with Ok _ => indexed sample_config (pool w') | Err _ => indexed_but sample_config k (pool w') end.
Proof.
  exact (pool_index_exact 512 512 (λ _ _, false) (λ _, None) sample_config sample_device sample_requests eq_refl eq_refl sample_lawful).
Defined.

(** The world after the first page was made and given back. *)
Definition sample_world : World := (history sample_config (opened sample_device) (take 3 sample_requests)).2.

Lemma sample_inv : inv sample_config sample_world.
Proof.
  apply (history_performs sample_config eq_refl (take 3 sample_requests)); [apply opened_inv; [reflexivity|cbn; lia]|].
  cbn [take sample_requests lawful]. split_and!; try exact I; cbn [legal].
  all: try (split; [|apply serve_method]).
  all: try (exists 1; vm_compute; reflexivity).
  all: unfold kind_ok, MAX_U16; lia.
Qed.

(** The same world, its page written out. *)
Definition flushed_world : World := (flush sample_config None sample_world).2.

Lemma flushed_inv : inv sample_config flushed_world.
Proof.
  unfold flushed_world. pose proof sample_inv as [Hs Hw Hf]. revert Hs Hw Hf. generalize sample_world. intros w Hs Hw Hf.
  pose proof (flush_out sample_config eq_refl None w Hs Hw) as H. destruct (flush sample_config None w) as [[n|e] w']; cbn in H.
  - destruct H as [H _]. split; [apply H|apply H|]. by apply (st_moved _ _ _ _ H).
  - split; [apply H|apply H|]. by apply (st_moved _ _ _ _ H).
Qed.

(** A row of the first page goes, and a second page is made. *)
Definition later_requests : list (request Slotted.answer) :=
  [Flush None; Pin (heap, 0); Call (heap, 0) 0 (λ p, serve p (Free 0)); Unpin (heap, 0) true 0;
   Allocate heap 2 true].

Lemma later_lawful : lawful sample_config sample_world later_requests.
Proof.
  cbn [later_requests lawful]. split_and!; try exact I; cbn [legal].
  all: try (split; [|apply serve_method]).
  all: try (exists 1; vm_compute; reflexivity).
  unfold kind_ok, MAX_U16; lia.
Defined.

Lemma modified_pages_tell_witness :
  let w1 := (history sample_config sample_world later_requests).2 in
  shows (view sample_config w1) (heap, 0) ≠ shows (view sample_config sample_world) (heap, 0) ∧
  shows (view sample_config sample_world) (heap, 1) = None ∧
  ∃ told w2, modified_pages None w1 = (Ok told, w2) ∧ (heap, 0) ∈ told ∧ (heap, 1) ∈ told.
Proof.
  pose proof (modified_pages_tell sample_config sample_world later_requests None eq_refl sample_inv later_lawful) as (told & w2 & E & H).
  assert (shows (view sample_config (history sample_config sample_world later_requests).2) (heap, 0) ≠ shows (view sample_config sample_world) (heap, 0)) as H0
    by (vm_compute; discriminate).
  assert (shows (view sample_config (history sample_config sample_world later_requests).2) (heap, 1) ≠ shows (view sample_config sample_world) (heap, 1)) as H1
    by (vm_compute; discriminate).
  split; [exact H0|]. split; [vm_compute; reflexivity|]. exists told, w2. split; [exact E|]. split.
  - destruct (H (heap, 0) eq_refl H0) as [H2|[H2 _]]; [exact H2|]. vm_compute in H2. discriminate H2.
  - destruct (H (heap, 1) eq_refl H1) as [H2|[_ H2]]; [exact H2|]. vm_compute in H2. discriminate H2.
Defined.

Lemma checkpoint_durable_witness :
  let w' := (checkpoint sample_config (Some heap) sample_world).2 in
  checkpoint sample_config (Some heap) sample_world = (Ok 1, w') ∧
  inv sample_config w' ∧ (∀ k, shows (view sample_config w') k = shows (view sample_config sample_world) k) ∧
  ∀ left, recoverable (dev w') heap left → ∃ c, left = Some c ∧
    ∀ i, device_picture 512 {[heap := c]} (heap, i) = shows (view sample_config sample_world) (heap, i).
Proof.
  cbn zeta. assert (checkpoint sample_config (Some heap) sample_world
    = (Ok 1, (checkpoint sample_config (Some heap) sample_world).2)) as H by (vm_compute; reflexivity).
  split; [exact H|]. exact (checkpoint_durable sample_config sample_world _ heap 1 eq_refl sample_inv H).
Defined.

Definition pin_first : list (request Slotted.answer) := [Pin (heap, 0)].
Lemma make_room_returns_witness :
  let w := flushed_world in
  size (frames (pool w)) = 1%nat ∧
  make_room_rounds sample_config (mret ()) 5 w = make_room sample_config (mret ()) w ∧
  ∃ w', make_room sample_config (mret ()) w = (Ok (), w') ∧ dev w' = dev w ∧
    (size (frames (pool w)) ≤ S (size (frames (pool w'))))%nat ∧
    (Z.of_nat (size (frames (pool w'))) + 1) * page_bytes sample_config <= budget_bytes sample_config.
Proof.
  cbn zeta. assert (size (frames (pool flushed_world)) = 1%nat) as Hsize by (vm_compute; reflexivity).
  assert (∃ fr, frames (pool flushed_world) !! (heap, 0) = Some fr ∧ pins fr = 0) as (fr & Hk & Hp)
    by (eexists; split; [vm_compute; reflexivity|reflexivity]).
  assert (map_Forall (λ _ fr, pins fr = 0 → is_dirty fr = false) (frames (pool flushed_world))) as Hc
    by (refine (bool_decide_unpack _ _); vm_compute; exact I).
  split; [exact Hsize|].
  refine (make_room_returns sample_config flushed_world (mret ()) 5 (heap, 0) fr eq_refl flushed_inv _ Hk Hp Hc).
  rewrite Hsize. lia.
Defined.

Definition held_world : World := (history sample_config sample_world pin_first).2.

Lemma held_inv : inv sample_config held_world.
Proof.
  unfold held_world. pose proof sample_inv as H. revert H. generalize sample_world. intros w H.
  refine (proj1 (history_performs sample_config eq_refl pin_first w H _)). exact (conj I I).
Qed.

Definition held_picture : Picture := MkPicture 2 0 0 NO_PAGE 0 [Some [Byte.x61; Byte.x62]].

Lemma held_page_refines_witness :
  shows (view sample_config held_world) (heap, 0) = Some held_picture ∧
  let '(res, w') := call_page (heap, 0) 0 (λ p, serve p (Read 0)) held_world in
  match res, serve_spec (page_bytes sample_config) (pic_contents held_picture) (Read 0) with
  | Ok a, Ok (b, contents) => a = b ∧ inv sample_config w' ∧
      (∀ k', holds (view sample_config w') k' = holds (view sample_config held_world) k') ∧
      (∃ pic', shows (view sample_config w') (heap, 0) = Some pic' ∧ pic_contents pic' = contents) ∧
      ∀ k', k' ≠ (heap, 0) → shows (view sample_config w') k' = shows (view sample_config held_world) k'
  | Err e, Err e' => e = e' ∧ w' = held_world
  | _, _ => False
  end.
Proof.
  assert (holds (view sample_config held_world) (heap, 0) = Some (0%nat, 1)) as H1 by (vm_compute; reflexivity).
  assert (shows (view sample_config held_world) (heap, 0) = Some held_picture) as H2 by (vm_compute; reflexivity).
  split; [exact H2|]. exact (held_page_refines sample_config held_world (heap, 0) 0 1 held_picture (Read 0) held_inv H1 H2).
Defined.

(** *** A write that fails *)

(** The same device, until it is out of operations. *)
Definition limited_world (operations : nat) (w : World) : @World (Limited Memory.t) := MkWorld (Limit (dev w) operations) (pool w).
Definition failed_world : @World (Limited Memory.t) := (write_back sample_config (heap, 0) (limited_world 0 flushed_world)).2.

(** A direct write of a clean page that fails leaves the page dirty and outside the index: the
    oracle of the tests, which held before, fails, and a later flush over a device that works again
    writes nothing. *)
Theorem failed_write_back_escapes :
  assert_dirty_candidate_coverage (pool flushed_world) = true ∧
  fst (write_back sample_config (heap, 0) (limited_world 0 flushed_world)) = raise_reason GrafxUnsupportedOperation "device_closed" ∧
  resident_dirty (pool failed_world) (heap, 0) = true ∧
  assert_dirty_candidate_coverage (pool failed_world) = false ∧
  fst (flush sample_config None (MkWorld (Limit (inner (dev failed_world)) 9) (pool failed_world))) = Ok 0.
Proof. vm_compute. split_and!; reflexivity. Qed.
