(* ===== verification/BufferViews.v ===== *)
(** The page cache of [BufferPool]: moving to a new view of the device.

    Another process may have written pages since this pool last looked.  [begin_read_view] is told
    what may have changed, and drops it; [read_view_faithful] says that when the claim is true the
    pool agrees with the device afterwards, and that a refusal moves nothing. *)

From S2P Require Import Prelude Ids Layout Slotted SlottedCodec Utf8 Storage ControlRecord MemoryStorage BufferPool BufferTheorems BufferDoors BufferClient.
Import Page.

Section views.
Context {Dev : Type} {SD : StorageDevice Dev} {SL : StorageLaws Dev} {PL : PageLaws Dev}.
Variable cfg : Config.
Hypothesis Hps : validate_page_size (page_bytes cfg) = Ok (page_bytes cfg).
#[local] Abbreviation ps := (page_bytes cfg).
#[local] Abbreviation World := (@BufferPool.World Dev).
#[local] Abbreviation F_ w := (files (dev w)).
#[local] Abbreviation covered := (BufferTheorems.covered).

(** *** Dropping frames *)

Lemma refreshed_frames k P : frames (refresh_dirty_candidate k P) = frames P.
Proof. by destruct (refresh_recandidated k P) as (c & l & -> & _). Qed.

Lemma drop_frames k P : frames (drop_clean_frames k P) = delete k (frames P).
Proof.
  unfold drop_clean_frames. rewrite refreshed_frames. destruct (frames P !! k) as [fr|] eqn:E; [done|]. cbn.
  by rewrite delete_id.
Qed.

Lemma frame_ok_doom n b fr : frame_ok cfg n fr → frame_ok cfg n (doom b fr) ∧ frame_ok cfg n (discard_only fr).
Proof. by intros []. Qed.

(** A frame leaves the table with its page still in the hands of callers. *)
Lemma doomed_wf k fr b P : wf_pool cfg P → frames P !! k = Some fr →
  wf_pool cfg (refresh_dirty_candidate k (add_doomed k (doom b fr) (remove_frame k P))).
Proof using Hps.
  intros Hw Hf. pose proof (wp_table _ _ Hw) as Ht. destruct (to_frame _ _ Ht _ _ Hf) as [Hok Hr].
  assert (add_doomed k (doom b fr) (remove_frame k P) = set_doomed k (doomed_at k P ++ [doom b fr]) (remove_frame k P)) as ->.
  { unfold add_doomed, set_doomed, set_list. change (doomed_at k (remove_frame k P)) with (doomed_at k P). by destruct (doomed_at k P). }
  apply (refreshed_wf cfg k P); [apply Hw| | |].
  - eapply elsewhere_trans; [apply remove_frame_elsewhere|apply set_doomed_elsewhere].
  - apply set_doomed_table; [by apply remove_frame_table| |].
    + intros fr' [Hin| ->%list_elem_of_singleton]%elem_of_app; [by apply (to_doomed _ _ Ht)|]. split; [by apply frame_ok_doom|done].
    + cbn. rewrite lookup_delete_eq. cbn. pose proof (to_distinct _ _ Ht k) as Hn. rewrite Hf in Hn. cbn in Hn.
      rewrite fmap_app. cbn. change (object (doom b fr)) with (object fr). by rewrite <-Permutation_cons_append.
  - cbn. pose proof (wp_room _ _ Hw) as Hsz. rewrite (remove_frame_size k _ _ Hf) in Hsz. pose proof (ps_pos cfg Hps). cbn in Hsz. lia.
Qed.

Lemma drop_wf k P : wf_pool cfg P → wf_pool cfg (drop_clean_frames k P).
Proof using Hps.
  intros Hw. pose proof (wp_table _ _ Hw) as Ht. unfold drop_clean_frames.
  set (stay := discard_only <$> filter (λ fr, pins fr ≠ 0) (doomed_at k P)).
  assert (∀ fr, fr ∈ stay → frame_ok cfg (next_object P) fr ∧ in_range k) as Hstay.
  { intros fr (fr0 & -> & [_ Hin]%list_elem_of_filter)%list_elem_of_fmap. destruct (to_doomed _ _ Ht _ _ Hin) as [? ?].
    split; [by apply (frame_ok_doom _ true)|done]. }
  assert (object <$> stay = object <$> filter (λ fr, pins fr ≠ 0) (doomed_at k P)) as Hobj
    by (unfold stay; rewrite <-list_fmap_compose; by apply list_fmap_ext).
  pose proof (to_distinct _ _ Ht k) as Hn. apply (distinct_filter (λ fr, pins fr ≠ 0)) in Hn. rewrite fmap_app, <-Hobj in Hn.
  apply (refreshed_wf cfg k P); [apply Hw| | |]; destruct (frames P !! k) as [fr|] eqn:Hf; cbn in Hn.
  - eapply elsewhere_trans; [apply remove_frame_elsewhere|apply set_doomed_elsewhere].
  - apply set_doomed_elsewhere.
  - destruct (to_frame _ _ Ht _ _ Hf) as [Hok Hr]. apply set_doomed_table; [by apply remove_frame_table| |].
    + intros fr' [Hin|Hin]%elem_of_app; [by apply Hstay|]. case_match; [by apply not_elem_of_nil in Hin|].
      apply list_elem_of_singleton in Hin as ->. split; [by apply frame_ok_doom|done].
    + cbn. rewrite lookup_delete_eq. cbn. rewrite fmap_app. case_match; cbn; [rewrite app_nil_r; by apply NoDup_cons in Hn as [_ Hn]|].
      change (object (doom true fr)) with (object fr). by rewrite <-Permutation_cons_append.
  - apply set_doomed_table; [done|done|]. by rewrite Hf.
  - cbn. pose proof (wp_room _ _ Hw) as Hsz. rewrite (remove_frame_size k _ _ Hf) in Hsz. pose proof (ps_pos cfg Hps). cbn in Hsz. lia.
  - apply Hw.
Qed.

Lemma drop_token k P : read_view_token (drop_clean_frames k P) = read_view_token P.
Proof.
  unfold drop_clean_frames. destruct (refresh_recandidated k (match frames P !! k with
    | Some fr => set_doomed k ((discard_only <$> filter (λ fr, pins fr ≠ 0) (doomed_at k P)) ++ (if pins fr =? 0 then [] else [doom true fr])) (remove_frame k P)
    | None => set_doomed k (discard_only <$> filter (λ fr, pins fr ≠ 0) (doomed_at k P)) P end)) as (c & l & -> & _).
  by destruct (frames P !! k).
Qed.

Lemma drops_ok l P : wf_pool cfg P →
  wf_pool cfg (foldl (λ P k, drop_clean_frames k P) P l) ∧
  read_view_token (foldl (λ P k, drop_clean_frames k P) P l) = read_view_token P ∧
  ∀ k, frames (foldl (λ P k, drop_clean_frames k P) P l) !! k = if decide (k ∈ l) then None else frames P !! k.
Proof using Hps.
  revert P. induction l as [|k l IH]; intros P Hw; cbn [foldl]; [done|].
  destruct (IH _ (drop_wf k P Hw)) as (Hw' & Htok & Hf'). split; [done|]. split; [by rewrite Htok, drop_token|]. intros k'. rewrite Hf', drop_frames.
  destruct (decide (k' = k)) as [->|Hne].
  - rewrite lookup_delete_eq. rewrite (decide_True (P := k ∈ k :: l)) by (by left). by case_decide.
  - rewrite lookup_delete_ne by done. destruct (decide (k' ∈ l)); [by rewrite decide_True by by right|].
    rewrite decide_False; [done|]. by intros [?|?]%elem_of_cons.
Qed.

(** What a change set drops, when it is not refused. *)
Definition targeted (pages : gset place) (files : gset pystr) (every_file : bool) (k : place) : Prop :=
  every_file = true ∨ k ∈ pages ∨ k.1 ∈ files.

Lemma epochs_kept (f : Pool → Pool) P : (∃ s d n, f P = with_epochs s d n P) → frames (f P) = frames P ∧ (wf_pool cfg P → wf_pool cfg (f P)) ∧
  read_view_token (f P) = read_view_token P.
Proof. intros (s & d & n & ->). split_and!; [done|by apply same_tables_wf|done]. Qed.

Lemma bumps_epochs l P : ∃ s d n, foldl (λ P f, bump_drop_epoch f P) P l = with_epochs s d n P.
Proof.
  revert P. induction l as [|f l IH]; intros P; cbn [foldl]; [exists (structure_epochs P), (drop_epochs P), (every_file_drop P); by destruct P|].
  destruct (IH (bump_drop_epoch f P)) as (s & d & n & ->). by exists s, d, n.
Qed.

Lemma discard_clean_changes_out pages names every (w : World) (m := discard_clean_changes pages names every w) : wf_pool cfg (pool w) →
  match m with
  | (Ok dropped, w') => dev w' = dev w ∧ wf_pool cfg (pool w') ∧
      (∀ k fr, frames (pool w') !! k = Some fr → frames (pool w) !! k = Some fr ∧ ¬ targeted pages names every k) ∧
      (dropped = 0 → frames (pool w') = frames (pool w)) ∧ read_view_token (pool w') = read_view_token (pool w)
  | (Err _, w') => w' = w
  end.
Proof using Hps.
  intros Hw. subst m. unfold discard_clean_changes, get, gets, mbind, m_bind, update, modify, mret, m_ret. cbn.
  set (targets := filter _ (elements _)). destruct (existsb _ targets); [by destruct w|]. cbn.
  destruct (drops_ok targets (pool w) Hw) as (Hw' & Htok & Hf'). set (P1 := foldl _ _ targets) in *.
  set (f := λ P, if every then bump_every_file_drop_epoch P else foldl (λ P f, bump_drop_epoch f P) P (elements (names ∪ set_map fst pages))).
  assert (∃ s d n, f P1 = with_epochs s d n P1) as He by (unfold f; destruct every; [by eexists _, _, _|apply bumps_epochs]).
  destruct (epochs_kept f P1 He) as (Hf & Hwf & Hft). fold (f P1). rewrite Hf. split; [done|]. split; [auto|].
  assert (∀ k, k ∈ targets ↔ targeted pages names every k ∧ (is_Some (frames (pool w) !! k) ∨ is_Some (doomed_frames (pool w) !! k))) as Ht.
  { intros k. unfold targets. rewrite list_elem_of_filter, elem_of_elements, elem_of_union, !elem_of_dom. done. }
  split_and!.
  - intros k fr. rewrite Hf'. case_decide as Hk; [done|]. intros Hk'. split; [done|]. intros Htk. apply Hk, Ht. split; [done|]. left. by eexists.
  - intros H0. apply map_eq. intros k. rewrite Hf'. case_decide as Hk; [|done]. destruct (frames (pool w) !! k) as [fr|] eqn:E; [|done].
    exfalso. unfold zlen in H0. apply (Nat2Z.inj _ 0) in H0. apply nil_length_inv in H0.
    assert (k ∈ filter (λ k, is_Some (frames (pool w) !! k)) targets) as Hin by (apply list_elem_of_filter; rewrite E; split; [by eexists|done]).
    rewrite H0 in Hin. by apply not_elem_of_nil in Hin.
  - by rewrite Hft, Htok.
Qed.

(** Every resident page leaves: the pinned ones doomed, the dirty ones written. *)
Definition emptied (l : list place) (w w' : World) : Prop :=
  ∀ k, is_Some (frames (pool w') !! k) → is_Some (frames (pool w) !! k) ∧ k ∉ l.

Lemma leave_out k l (w w1 : World) (m : M World ()) : frames (pool w1) = delete k (frames (pool w)) →
  out (m w1) (λ _ w', (sized cfg w' ∧ wf_pool cfg (pool w')) ∧ emptied l w1 w') (λ w', sized cfg w' ∧ wf_pool cfg (pool w')) →
  out (m w1) (λ _ w', (sized cfg w' ∧ wf_pool cfg (pool w')) ∧ emptied (k :: l) w w') (λ w', sized cfg w' ∧ wf_pool cfg (pool w')).
Proof.
  intros Hf H. eapply out_weaken; [exact H| |done]. cbn. intros _ w' [H1 H2]. split; [done|]. intros k' Hk'.
  destruct (H2 k' Hk') as [H3 H4]. rewrite Hf in H3. destruct (decide (k' = k)) as [->|Hne].
  - rewrite lookup_delete_eq in H3. by destruct H3.
  - rewrite lookup_delete_ne in H3 by done. split; [done|]. by intros [?|?]%elem_of_cons.
Qed.

Lemma invalidate_doomed_out l w : sized cfg w → wf_pool cfg (pool w) →
  out (invalidate_pages cfg true l w) (λ _ w', (sized cfg w' ∧ wf_pool cfg (pool w')) ∧ emptied l w w')
    (λ w', sized cfg w' ∧ wf_pool cfg (pool w')).
Proof using Hps PL.
  revert w. induction l as [|k l IH]; intros w Hs Hw; cbn [invalidate_pages].
  { split; [done|]. intros k H. split; [done|]. by apply not_elem_of_nil. }
  apply out_gets. destruct (frames (pool w) !! k) as [fr|] eqn:Hf.
  2:{ eapply out_weaken; [by apply IH| |done]. cbn. intros _ w' [H1 H2]. split; [done|]. intros k' Hk'.
      destruct (H2 k' Hk') as [H3 H4]. split; [done|]. intros [-> |?]%elem_of_cons; [|done]. rewrite Hf in H3. by destruct H3. }
  destruct (Z.eqb_spec (pins fr) 0) as [Hp|Hp]; cbn [negb].
  - rewrite bind_assoc. eapply out_bind; [by apply (steady_write_back cfg Hps)| |].
    2:{ intros w1 Hst. split; apply Hst. }
    intros _ w1 [Hst (fr' & Hf1 & Hd1 & Hp1)]. apply out_update. cbn beta.
    pose proof (forgotten_steady cfg Hps w1 k fr' (st_sized _ _ _ _ Hst) (st_wf _ _ _ _ Hst)) as Hfs.
    rewrite Hf1, lookup_insert_eq in Hfs. specialize (Hfs eq_refl ltac:(congruence) Hd1).
    apply leave_out; [|apply IH; apply Hfs]. cbn. by rewrite refreshed_frames; cbn; rewrite Hf1, delete_insert_eq.
  - apply out_update. cbn beta. apply leave_out; [by cbn; rewrite refreshed_frames|].
    apply IH; [done|]. cbn. by apply doomed_wf.
Qed.

Lemma invalidate_all_out w : sized cfg w → wf_pool cfg (pool w) →
  out (invalidate_ cfg None true w) (λ _ w', wf_pool cfg (pool w') ∧ frames (pool w') = ∅) (λ w', wf_pool cfg (pool w')).
Proof using Hps PL.
  intros Hs Hw. unfold invalidate_. do 2 apply out_gets. cbn [negb andb].
  eapply out_bind; [by apply invalidate_doomed_out| |by intros w1 [_ ?]].
  intros _ w1 [[Hs1 Hw1] He]. cbn. split; [by apply (same_tables_wf cfg (pool w1))|]. apply map_eq. intros k. rewrite lookup_empty.
  destruct (frames (pool w1) !! k) as [fr|] eqn:Hf; [|done]. exfalso. destruct (He k) as [H1 H2]; [by rewrite Hf; eexists|].
  apply H2. unfold resident_in. apply list_elem_of_filter. split; [done|]. by apply (to_members _ _ (wp_table _ _ Hw)).
Qed.

(** *** A new view *)

(** What the caller promises: the place holds what it held when this pool took its view. *)
Definition claimed_fresh (c : Claim) (P : Pool) (k : place) : Prop :=
  unfenced_file c ≠ Some k.1 ∧
  (token c ≠ None ∧ token c = read_view_token P ∨
   own c = true ∧ read_view_token P ≠ None ∨
   ∃ pages, changed_pages c = Some pages ∧ expected_previous c = Some (read_view_token P) ∧ k ∉ pages ∧ k.1 ∉ changed_files c).

(** Where the caller promised that nothing changed, nothing did. *)
Definition true_claim (c : Claim) (w : World) : Prop := ∀ k p, cached (pool w) !! k = Some p → claimed_fresh c (pool w) k →
  is_Some (image_at ps (F_ w) k) ∧ (dirty p = false → device_picture ps (F_ w) k = Some (picture p)).

Lemma require_read_view_file_Ok field f g : require_read_view_file field f = Ok g → g = f.
Proof. unfold require_read_view_file. case_match; [done|]. by intros [= <-]. Qed.

Lemma traverse_same {T : Type} (g : T → result T) l l' : (∀ x y, g x = Ok y → y = x) → traverse g l = Ok l' → l' = l.
Proof. intros Hg H%traverse_Ok. induction H; [done|]. f_equal; eauto. Qed.

Lemma read_view_targets_Ok ps_ fs pages names : read_view_targets ps_ fs = Ok (pages, names) →
  (∀ k, k ∈ pages ↔ k ∈ ps_) ∧ ∀ f, f ∈ names ↔ f ∈ fs.
Proof.
  unfold read_view_targets. case_match; [done|]. intros H1. inv_ok H1. apply traverse_same in E.
  2:{ intros [f i] y Hy. inv_ok Hy. apply require_read_view_file_Ok in E1 as ->. apply require_page_index_Ok in E2 as [-> _]. by injection Hy as <-. }
  apply traverse_same in E0; [|by intros x1 y ?%require_read_view_file_Ok]. subst. case_match; [done|]. injection H1 as <- <-.
  split; intros; by rewrite elem_of_list_to_set.
Qed.

Lemma dropped_faithful c pages names every w : wf_pool cfg (pool w) → true_claim c w →
  (∀ k, ¬ targeted pages names every k → claimed_fresh c (pool w) k) →
  out (discard_clean_changes pages names every w)
    (λ dropped w', wf_pool cfg (pool w') ∧ faithful_to ps (F_ w') (cached (pool w')) ∧
       (dropped = 0 → frames (pool w') = frames (pool w)) ∧ read_view_token (pool w') = read_view_token (pool w))
    (λ w', w' = w).
Proof using Hps.
  intros Hw Hc Ht. pose proof (discard_clean_changes_out pages names every w Hw) as H.
  destruct (discard_clean_changes pages names every w) as [[n|e] w']; [|done]. destruct H as (Hd & Hw' & Hf & Hn & Htok).
  cbn. split_and!; try done. rewrite Hd. intros k p Hk. unfold cached in Hk. rewrite lookup_fmap in Hk.
  destruct (frames (pool w') !! k) as [fr|] eqn:E; [|done]. injection Hk as <-. destruct (Hf _ _ E) as [Hf0 Hnt].
  apply Hc; [by apply cached_Some|by apply Ht].
Qed.

(** What moving to a view gives: the tables in order, the device and the pool agreed, the token
    taken, and a truthful answer; a refusal that may not write changed nothing. *)
Definition moved_view (c : Claim) (w : World) (changed : bool) (w' : World) : Prop :=
  wf_pool cfg (pool w') ∧ faithful_to ps (F_ w') (cached (pool w')) ∧ read_view_token (pool w') = token c ∧
  (changed = false → frames (pool w') = frames (pool w)).
Definition unmoved_view (c : Claim) (w w' : World) : Prop :=
  wf_pool cfg (pool w') ∧ (allow_writeback c = false → w' = w).

Lemma unmoved_same c w : wf_pool cfg (pool w) → unmoved_view c w w.
Proof. done. Qed.

Lemma token_view (b : bool) c w w1 : wf_pool cfg (pool w1) → faithful_to ps (F_ w1) (cached (pool w1)) →
  (b = false → frames (pool w1) = frames (pool w)) →
  out ((_ ← update (with_token (token c)); mret b) w1) (moved_view c w) (unmoved_view c w).
Proof. intros Hw Hf Hb. split_and!; [by apply (same_tables_wf cfg (pool w1))|done|done|done]. Qed.

Lemma fresh_faithful c w : true_claim c w → (∀ k, claimed_fresh c (pool w) k) → faithful_to ps (F_ w) (cached (pool w)).
Proof. intros Hc Hk k p Hp. by apply Hc. Qed.

Lemma begin_read_view_out c w : sized cfg w → wf_pool cfg (pool w) → true_claim c w →
  out (begin_read_view cfg c w) (moved_view c w) (unmoved_view c w).
Proof using Hps PL.
  intros Hs Hw Hc. unfold begin_read_view. apply out_gets. set (previous := read_view_token (pool w)).
  apply out_lift; [|intros; by apply unmoved_same]. intros targets Htg. apply out_lift; [|intros; by apply unmoved_same].
  intros unfenced Hun.
  assert (unfenced = unfenced_file c) as ->.
  { destruct (unfenced_file c) as [f|]; [|by injection Hun as <-]. inv_ok Hun. apply require_read_view_file_Ok in E as ->. by injection Hun as <-. }
  clear Hun. set (unfenced_set := match unfenced_file c with None => ∅ | Some f => {[f]} end : gset pystr). cbn zeta.
  assert (∀ k : place, k.1 ∈ unfenced_set ↔ unfenced_file c = Some k.1) as Hset.
  { intros k. unfold unfenced_set. destruct (unfenced_file c) as [f|]; [rewrite elem_of_singleton; naive_solver|set_solver]. }
  assert (∀ φ : Prop, φ → (φ → ∀ k : place, unfenced_file c ≠ Some k.1 → claimed_fresh c (pool w) k) →
    out (discard_clean_changes ∅ unfenced_set false w)
      (λ dropped w', wf_pool cfg (pool w') ∧ faithful_to ps (F_ w') (cached (pool w')) ∧
         (dropped = 0 → frames (pool w') = frames (pool w)) ∧ read_view_token (pool w') = previous)
      (λ w', w' = w)) as Hdrop.
  { intros φ Hφ Hk. apply (dropped_faithful c); [done|done|]. intros k Hnt. apply Hk; [done|]. intros Hu. apply Hnt. right. right. by apply Hset. }
  case_bool_decide as Hsame.
  { assert (∀ k : place, unfenced_file c ≠ Some k.1 → claimed_fresh c (pool w) k) as Hfresh by (intros k Hk; split; [done|by left]).
    destruct (unfenced_file c) as [f|] eqn:Hu.
    - eapply out_bind; [by apply (Hdrop _ Hsame)| |intros w' ->; by apply unmoved_same]. intros n w1 (H1 & H2 & H3 & H4). cbn.
      split_and!; [done|done|by rewrite H4; destruct Hsame|]. intros Hn. apply H3. by apply negb_false_iff, Z.eqb_eq in Hn.
    - split_and!; [done| |by destruct Hsame as [_ ->]|done]. apply (fresh_faithful c); [done|]. intros k. by apply Hfresh. }
  apply out_gets. destruct (own c && bool_decide _ && _) eqn:Hown.
  { apply andb_true_iff in Hown as [[Ho Hprev]%andb_true_iff _]. apply bool_decide_eq_true in Hprev.
    assert (∀ k : place, unfenced_file c ≠ Some k.1 → claimed_fresh c (pool w) k) as Hfresh by (intros k Hk; split; [done|by right; left]).
    destruct (unfenced_file c) as [f|] eqn:Hu.
    - eapply out_bind; [by apply (Hdrop _ Hprev)| |intros w' ->; by apply unmoved_same]. intros n w1 (H1 & H2 & H3 & H4).
      apply token_view; [done|done|]. intros Hn. apply H3. by apply negb_false_iff, Z.eqb_eq in Hn.
    - apply token_view; [done| |done]. apply (fresh_faithful c); [done|]. intros k. by apply Hfresh. }
  clear Hown.
  assert (∀ w1, wf_pool cfg (pool w1) → faithful_to ps (F_ w1) (cached (pool w1)) →
    out ((_ ← update (with_token (token c)); mret true) w1) (moved_view c w) (unmoved_view c w)) as Hend
    by (intros w1 H1 H2; by apply token_view).
  assert (out ((_ ← discard_clean_changes ∅ ∅ true; mret ()) w)
    (λ _ w', wf_pool cfg (pool w') ∧ faithful_to ps (F_ w') (cached (pool w'))) (unmoved_view c w)) as Hall.
  { eapply out_bind; [apply (dropped_faithful c ∅ ∅ true); [done|done|]| |intros w' ->; by apply unmoved_same].
    - intros k Hnt. destruct Hnt. by left.
    - intros n w1 (H1 & H2 & _). done. }
  assert (out ((if allow_writeback c then invalidate_ cfg None true else _ ← discard_clean_changes ∅ ∅ true; mret ()) w)
    (λ _ w', wf_pool cfg (pool w') ∧ faithful_to ps (F_ w') (cached (pool w'))) (unmoved_view c w)) as Hany.
  { destruct (allow_writeback c) eqn:Haw; [|done]. eapply out_weaken; [by apply invalidate_all_out| |].
    - cbn. intros _ w' [H1 H2]. split; [done|]. intros k p. unfold cached. by rewrite H2, lookup_fmap.
    - intros w' H1. split; [done|]. by rewrite Haw. }
  eapply (out_bind _ _ _ (λ _ w', wf_pool cfg (pool w') ∧ faithful_to ps (F_ w') (cached (pool w')))); [| |done].
  2:{ intros [] w1 [H1 H2]. by apply Hend. }
  destruct targets as [[pages names]|]; [|done].
  case_bool_decide as Hexp; [|by case_bool_decide].
  destruct (changed_pages c) as [pl|] eqn:Hcp; [|done]. inv_ok Htg. injection Htg as ->.
  apply read_view_targets_Ok in E as [Hpages Hnames].
  eapply out_bind; [apply (dropped_faithful c)| |intros w' ->; by apply unmoved_same]; [done|done| |].
  - intros k Hnt. split.
    + intros Hu. apply Hnt. right. right. apply elem_of_union. right. by apply Hset.
    + right. right. exists pl. split; [done|]. split; [by destruct Hexp as (_ & _ & ?)|]. unfold targeted in Hnt.
      rewrite elem_of_filter, elem_of_union, Hpages, Hnames in Hnt. split; [|tauto]. intros Hin. apply Hnt. right. destruct (decide (k.1 ∈ names ∪ unfenced_set)) as [Hm|Hm].
      * right. by rewrite elem_of_union, Hnames in Hm.
      * left. split; [|done]. rewrite elem_of_union, Hnames in Hm. done.
  - intros n w1 (H1 & H2 & _). done.
Qed.
End views.

(** C8: When the caller's claim is true (where it promises that nothing changed, nothing did), a
    read view that begins leaves no stale page behind: every clean page the pool still holds is the
    one the device holds, the index of dirty pages is exact, the token is taken, and the answer
    [false] means that no page left.  A refusal keeps the tables in order, and one that was not
    allowed to write back moved nothing at all. *)
Theorem read_view_faithful {Dev : Type} {SD : StorageDevice Dev} {SL : StorageLaws Dev} {PL : PageLaws Dev}
    (cfg : Config) (c : Claim) (w : World) (Hps : validate_page_size (page_bytes cfg) = Ok (page_bytes cfg))
    (Hs : sized cfg w) (Hw : wf_pool cfg (pool w)) (Hclaim : true_claim cfg c w) :
  match begin_read_view cfg c w with
  | (Ok changed, w') =>
      wf_pool cfg (pool w') ∧ faithful_to (page_bytes cfg) (files (dev w')) (cached (pool w')) ∧
      read_view_token (pool w') = token c ∧ (changed = false → frames (pool w') = frames (pool w))
  | (Err _, w') => wf_pool cfg (pool w') ∧ (allow_writeback c = false → w' = w)
  end.
Proof.
  pose proof (begin_read_view_out cfg Hps c w Hs Hw Hclaim) as H. by destruct (begin_read_view cfg c w) as [[b|e] w'].
Qed.

(** Another process cleared the page this pool has cached. *)
Definition foreign_device : Memory.t := (Storage.write_page heap 0 (zeros 512) (dev flushed_world)).2.
Definition stale_world : World := MkWorld foreign_device (with_token (Some 1) (pool flushed_world)).
Definition sample_claim : Claim := MkClaim (Some 2) false false None (Some [(heap, 0)]) [] (Some (Some 1)).

Lemma stale_wf : wf_pool sample_config (pool stale_world).
Proof.
  unfold stale_world. cbn [pool]. pose proof (iv_wf _ _ flushed_inv) as H. revert H. generalize (pool flushed_world). intros P H.
  by apply (same_tables_wf sample_config P).
Qed.

Lemma sample_claim_true : true_claim sample_config sample_claim stale_world.
Proof.
  assert (map_Forall (λ k _, k = (heap, 0)) (cached (pool stale_world))) as H by (refine (bool_decide_unpack _ _); vm_compute; exact I).
  intros k p Hk (_ & Hfresh). apply (map_Forall_lookup_1 _ _ _ _ H) in Hk as ->.
  assert (read_view_token (pool stale_world) = Some 1) as Ht by reflexivity. rewrite Ht in Hfresh.
  destruct Hfresh as [[_ H1]|[[H1 _]|(pages & [= <-] & _ & H1 & _)]]; [done|done|]. destruct H1. by left.
Qed.

Lemma read_view_faithful_witness :
  fst (begin_read_view sample_config sample_claim stale_world) = Ok true ∧
  match begin_read_view sample_config sample_claim stale_world with
  | (Ok changed, w') =>
      wf_pool sample_config (pool w') ∧ faithful_to 512 (files (dev w')) (cached (pool w')) ∧
      read_view_token (pool w') = Some 2 ∧ (changed = false → frames (pool w') = frames (pool stale_world))
  | (Err _, w') => wf_pool sample_config (pool w') ∧ (false = false → w' = stale_world)
  end.
Proof.
  split; [vm_compute; reflexivity|].
  refine (read_view_faithful sample_config sample_claim stale_world eq_refl _ _ sample_claim_true).
  - vm_compute. reflexivity.
  - exact stale_wf.
Defined.
