(* ===== verification/PageChain.v ===== *)
(** Page chains and redo images: the module functions at the end of
    src/src/okto_grafx/engine/buffer_pool.py.

    A payload larger than a page lies on a chain of pages of one file, linked by [next_page]; a redo
    image is a whole page that the log carries and that replaces its page when it is newer. *)

From S2P Require Import Prelude Ids Layout Slotted SlottedCodec Utf8 Storage BufferPool.

Definition MAX_REDO_GAP_PAGES : Z := 4096.

Section chain.
Context {Dev : Type} {SD : StorageDevice Dev}.
Variable cfg : Config.
#[local] Abbreviation World := (@BufferPool.World Dev).

(** *** Guards *)

Definition require_reserved_header_page (file : pystr) : M World () :=
  count ← attempt (on_dev (page_count file));
  present ← (match count with
    | Ok n => mret (Some n)
    | Err e =>
        if decide (err_class e = GrafxCorruptionDetected ∧ err_reason e = "missing_file"%string)
        then mret None else lift (Err e)
    end);
  zero_length_file ← (if bool_decide (present = Some 0) then on_dev (exists_ file) else mret false);
  if (zero_length_file : bool) then lift (raise GrafxCorruptionDetected "") else mret ().

(** The loop over the reuse list, [seen] what it has passed. *)
Fixpoint require_distinct_from (seen : list Z) (reuse : list Z) : result () :=
  match reuse with
  | [] => Ok ()
  | candidate :: reuse =>
      _ ← require_page_index "reuse" candidate;
      if bool_decide (candidate ∈ seen) then raise GrafxCorruptionDetected "reuse"
      else if candidate =? HEADER_PAGE_INDEX then raise GrafxCorruptionDetected ""
      else require_distinct_from (candidate :: seen) reuse
  end.

Definition require_distinct_reusable_pages (reuse : list Z) : result () := require_distinct_from [] reuse.

Definition require_chain_file (file : pystr) : M World () :=
  there ← on_dev (exists_ file);
  if (there : bool) then mret () else lift (raise GrafxCorruptionDetected "").

(** *** Writing and reading a chain *)

(** The page after position [i]. *)
Definition next_of (indices : list Z) (position : nat) : Z := default NO_PAGE (indices !! S position).

(** [while len(indices) < len(chunks)]: one new page for each chunk that has none. *)
Fixpoint allocate_pages (file : pystr) (page_type : Z) (missing : nat) : M World (list Z) :=
  match missing with
  | O => mret []
  | S missing =>
      page ← BufferPool.allocate cfg file page_type false;
      _ ← unpin cfg (file, page.1) true None;
      rest ← allocate_pages file page_type missing;
      mret (page.1 :: rest)
  end.

(** A method of a held page that answers nothing. *)
Definition call_ (k : place) (o : nat) (f : Page.t → result Page.t) : M World () :=
  call_page k o (λ p, p ← f p; Ok ((), p)).

Definition write_chunk (file : pystr) (page_type index next : Z) (chunk : bytes) : M World () :=
  pinned cfg (file, index) (λ o,
    _ ← call_ (file, index) o (λ p, Ok (Page.clear p));
    _ ← call_ (file, index) o (λ p, Page.set_page_type p page_type);
    _ ← call_ (file, index) o (λ p, Page.set_next_page p next);
    _ ← call_page (file, index) o (λ p, Page.insert_slot p chunk);
    mret ()).

(** The loop over the positions from [position] on. *)
Fixpoint write_chunks (file : pystr) (page_type : Z) (indices : list Z) (position : nat) (chunks : list bytes) : M World () :=
  match chunks with
  | [] => mret ()
  | chunk :: chunks =>
      match indices !! position with
      | None => mret ()
      | Some index =>
          _ ← write_chunk file page_type index (next_of indices position) chunk;
          write_chunks file page_type indices (S position) chunks
      end
  end.

Definition write_chain (file : pystr) (payload : bytes) (page_type : Z) (reuse : list Z) : M World (list Z) :=
  _ ← require_reserved_header_page file;
  _ ← lift (require_distinct_reusable_pages reuse);
  _ ← require_chain_file file;
  _ ← (match reuse with [] => mret () | _ => update (bump_structure_epoch file) end);
  capacity ← lift (chunk_capacity (page_bytes cfg));
  chunks ← lift (split_payload payload capacity);
  let reused := take (length chunks) reuse in
  fresh ← allocate_pages file page_type (length chunks - length reused);
  let indices := reused ++ fresh in
  _ ← write_chunks file page_type indices 0 chunks;
  mret indices.

(** The chunk of one page of a chain and the page after it. *)
Definition read_chunk (file : pystr) (index : Z) (page_type : option Z) : M World (bytes * Z) :=
  pinned cfg (file, index) (λ o,
    page ← get (held (file, index) o);
    match page with
    | None => lift (raise GrafxUnsupportedOperation "")
    | Some page =>
        if bool_decide (is_Some page_type ∧ page_type ≠ Some (Page.page_type page)) then lift (raise GrafxCorruptionDetected "")
        else if Page.slot_count page <? 1 then lift (raise GrafxCorruptionDetected "")
        else
          chunk ← lift (Page.read_slot page 0);
          mret (chunk, Page.next_page page)
    end).

(** The walk of [read_chain]: [steps] more pages may be visited before [refuse_endless_chain]. *)
Fixpoint read_chain_from (file : pystr) (page_type : option Z) (steps : nat) (visited : list Z) (index : Z) : M World (list bytes) :=
  if index =? NO_PAGE then mret []
  else
    match steps with
    | O => lift (raise GrafxCorruptionDetected "chain_length")
    | S steps =>
        if bool_decide (index ∈ visited) then lift (raise GrafxCorruptionDetected "cycle")
        else
          chunk ← read_chunk file index page_type;
          chunks ← read_chain_from file page_type steps (index :: visited) chunk.2;
          mret (chunk.1 :: chunks)
    end.

Definition read_chain (file : pystr) (first_page : Z) (page_type : option Z) : M World bytes :=
  count ← on_dev (page_count file);
  chunks ← read_chain_from file page_type (Z.to_nat (count + 1)) [] first_page;
  mret (join_chunks chunks).

(** *** Building the images of a chain *)

(** The reuse list may only name pages the file has. *)
Definition require_present (present : Z) (reuse : list Z) : result () :=
  if existsb (λ candidate, present <=? candidate) reuse then raise GrafxCorruptionDetected "reuse" else Ok ().

Definition chain_image (page_type index next : Z) (chunk : bytes) : result (Z * bytes) :=
  page ← Page.make page_type (page_bytes cfg) index 0 0 0 NO_PAGE;
  page ← Page.set_next_page page next;
  '(_, page) ← Page.insert_slot page chunk;
  image ← encode_page (page_bytes cfg) page;
  Ok (index, image).

Definition build_chain_images (file : pystr) (payload : bytes) (page_type : Z) (reuse : list Z) : M World (list (Z * bytes)) :=
  _ ← require_reserved_header_page file;
  _ ← lift (require_distinct_reusable_pages reuse);
  _ ← require_chain_file file;
  present ← on_dev (page_count file);
  _ ← lift (require_present present reuse);
  capacity ← lift (chunk_capacity (page_bytes cfg));
  chunks ← lift (split_payload payload capacity);
  let reused := take (length chunks) reuse in
  let indices := reused ++ ((λ i, present + Z.of_nat i) <$> seq 0 (length chunks - length reused)) in
  lift (traverse (λ '(position, (index, chunk)), chain_image page_type index (next_of indices position) chunk)
    (imap pair (zip indices chunks))).

(** *** Redo *)

(** The loop of [grow_to]: how many pages it took. *)
Fixpoint grow_rounds (file : pystr) (page_index : Z) (rounds : nat) : M World Z :=
  count ← on_dev (page_count file);
  if page_index <? count then mret 0
  else
    match rounds with
    | O => lift (raise GrafxUnsupportedOperation "rounds")
    | S rounds =>
        page ← BufferPool.allocate cfg file (page_type_value FREE) false;
        _ ← unpin cfg (file, page.1) true None;
        grown ← grow_rounds file page_index rounds;
        mret (grown + 1)
    end.

Definition grow_to (file : pystr) (page_index : Z) : M World Z :=
  _ ← lift (require_page_index "page_index" page_index);
  count ← attempt (on_dev (page_count file));
  present ← (match count with
    | Ok n => mret n
    | Err e =>
        if decide (err_reason e = "missing_file"%string) then _ ← on_dev (create file true); mret 0 else lift (Err e)
    end);
  if present + MAX_REDO_GAP_PAGES <=? page_index then lift (raise GrafxCorruptionDetected "page_index")
  else grow_rounds file page_index (Z.to_nat MAX_REDO_GAP_PAGES).

(** The image as it will be installed. *)
Definition decode_image (page_index : Z) (image : bytes) : result Page.t :=
  decoded ← decode_page (page_bytes cfg) image;
  decoded ← Page.set_page_index decoded page_index;
  if Page.seq decoded mod 2 =? 0 then Ok decoded else Page.set_seq decoded (next_seq (Page.seq decoded)).

(** A page that is not free and as new as the image is left alone. *)
Definition covers (page decoded : Page.t) : bool :=
  negb (Page.page_type page =? page_type_value FREE) && (Page.page_lsn decoded <=? Page.page_lsn page).

(** Whether the two have one structure; without a classifier nothing says so. *)
Definition structure_changed (signature : option (Page.t → Page.t → bool)) (page decoded : Page.t) : bool :=
  match signature with Some same => negb (same page decoded) | None => true end.

Definition apply_page_image (file : pystr) (page_index : Z) (image : bytes)
    (signature : option (Page.t → Page.t → bool)) : M World bool :=
  decoded ← lift (decode_image page_index image);
  let effective := match signature with Some s => Some s | None => structure_signature cfg file end in
  _ ← grow_to file page_index;
  pinned cfg (file, page_index) (λ o,
    page ← get (held (file, page_index) o);
    match page with
    | None => lift (raise GrafxUnsupportedOperation "")
    | Some page =>
        if covers page decoded then mret false
        else
          _ ← call_ (file, page_index) o (λ p, Page.replace_with p decoded);
          _ ← (if structure_changed effective page decoded then update (bump_structure_epoch file) else mret ());
          mret true
    end).
End chain.
