(* ===== verification/PageDoors.v ===== *)
(** Work on pages through pins, over the pool of [BufferPool].

    [pinned_out] carries a body over one held page through pin and unpin; [grow_to] only adds blank
    pages, in as many rounds as pages are missing; [apply_page_image] replaces exactly the page it
    names, when the image is newer ([redone]). *)

From S2P Require Import Prelude Ids Layout Slotted SlottedCodec Utf8 Storage ControlRecord MemoryStorage BufferPool BufferTheorems BufferDoors BufferClient PageChain.
Import Page.

Section chain.
Context {Dev : Type} {SD : StorageDevice Dev} {SL : StorageLaws Dev} {PL : PageLaws Dev}.
Variable cfg : Config.
Hypothesis Hps : validate_page_size (page_bytes cfg) = Ok (page_bytes cfg).
#[local] Abbreviation ps := (page_bytes cfg).
#[local] Abbreviation World := (@BufferPool.World Dev).
#[local] Abbreviation shown w := (shown_at ps (files (dev w)) (cached (pool w))).
#[local] Abbreviation held_in w := (holding (pool w)).
#[local] Abbreviation inv := (inv cfg).
#[local] Abbreviation stepped := (stepped cfg).
#[local] Abbreviation steady w w' := (kept cfg (holding (pool w)) w w').

(** *** Work on one page *)

(** Nothing but [k] may show something else. *)
Definition only_at (k : place) (k' : place) (a b : option Picture) : Prop := k' ≠ k → b = a.
Definition nothing (k' : place) (a b : option Picture) : Prop := b = a.

Lemma becomes_only k pic k' a b : becomes k pic k' a b → only_at k k' a b.
Proof. unfold becomes, only_at. intros -> Hk. by rewrite decide_False. Qed.

Lemma stepped_shown R H w w' k : inv w → stepped R H w w' → R k (shown w k) (shown w' k).
Proof. intros Hi Hs. by apply (sp_shown _ _ _ _ _ Hs), Hi. Qed.

Lemma steady_stepped w w' : steady w w' → stepped nothing (held_in w) w w'.
Proof. by apply kept_stepped. Qed.

Lemma inv_steady w : inv w → steady w w.
Proof. intros Hi. apply steady_refl; apply Hi. Qed.

Lemma stepped_kept (R : place → option Picture → option Picture → Prop) H H' w w1 w2 :
  stepped R H w w1 → kept cfg H' w1 w2 → stepped R H' w w2.
Proof.
  intros H1 H2. refine (stepped_trans cfg R nothing R _ _ _ _ _ _ H1 (kept_stepped cfg _ _ _ _ _ H2)); [by intros k a b c ? ->|done].
Qed.

(** A page that was lent and is taken back is held as before. *)
Lemma lend_back (w w1 w2 : World) k o n (R : place → option Picture → option Picture → Prop) : inv w →
  kept cfg (lend (pool w) k (Some (o, n))) w w1 →
  (held_in w k = None ∧ n = 1 ∨ held_in w k = Some (o, n - 1)) →
  stepped R (held_in w1) w1 w2 → ∀ w3, kept cfg (lend (pool w2) k (take_back n o)) w2 w3 → stepped R (held_in w) w w3.
Proof.
  intros Hi Hk Hn Hs w3 Hk3. pose proof (kept_stepped_trans cfg _ _ _ _ _ _ Hk (stepped_kept _ _ _ _ _ _ Hs Hk3)) as Hst.
  refine (stepped_as cfg _ _ _ _ _ _ _ _ Hst); [done|]. intros k'. unfold lend. case_decide as Hkk.
  - subst k'. unfold take_back. destruct Hn as [[-> ->]|Hn]; [done|]. rewrite Hn.
    destruct (holding_Some cfg _ _ _ _ (wp_table _ _ (iv_wf _ _ Hi)) Hn) as (_ & _ & _ & _ & Hge).
    by rewrite (proj2 (Z.eqb_neq _ _)) by lia.
  - rewrite (sp_held _ _ _ _ _ Hs), (st_held _ _ _ _ Hk). unfold lend. by rewrite decide_False.
Qed.

(** A body over a held page, between pin and unpin: a pin that raises changes nothing. *)
Lemma pinned_out {A : Type} k (body : nat → M World A) w (Q : A → Prop) (R : A → place → option Picture → option Picture → Prop)
    (E : place → option Picture → option Picture → Prop) : inv w → (∀ k' a, E k' a a) →
  (∀ o n w1, inv w1 → held_in w1 k = Some (o, n) → (∀ k', shown w1 k' = shown w k') →
     out (body o w1) (λ a w2, Q a ∧ stepped (R a) (held_in w1) w1 w2) (λ w2, stepped E (held_in w1) w1 w2)) →
  out (pinned cfg k body w) (λ a w', Q a ∧ stepped (R a) (held_in w) w w') (λ w', stepped E (held_in w) w w').
Proof using Hps PL SL.
  intros Hi HE Hbody. unfold pinned. eapply out_bind; [apply (pin_out cfg Hps); apply Hi| |].
  2:{ intros w1 Hst. by apply kept_stepped. }
  intros o w1 (n & Hk & Hn). destruct (kept_view cfg _ w w1 Hi Hk) as [Hi1 Hsh1].
  assert (held_in w1 k = Some (o, n)) as Hh1 by (rewrite (st_held _ _ _ _ Hk); unfold lend; by rewrite decide_True).
  specialize (Hbody o n w1 Hi1 Hh1 Hsh1).
  assert (∀ R' w2 (r : result A) (QE : World → Prop), stepped R' (held_in w1) w1 w2 → (∀ w3, stepped R' (held_in w) w w3 → QE w3) →
    out ((dirty ← get (λ P, from_option Page.dirty false (held k o P)); _ ← unpin cfg k dirty (Some o); lift r) w2)
      (λ a w3, r = Ok a ∧ QE w3) (λ w3, ∃ e, r = Err e ∧ QE w3)) as Hrest.
  { intros R' w2 r QE Hs HQ. apply out_gets. eapply out_bind; [apply (unpin_out cfg Hps _ _ o n)| |by intros ?].
    - apply Hs.
    - apply Hs.
    - by rewrite (sp_held _ _ _ _ _ Hs).
    - intros u w3 Hk3. pose proof (HQ w3 (lend_back _ _ _ _ _ _ _ Hi Hk Hn Hs _ Hk3)). destruct r as [a'|e]; [done|by exists e]. }
  unfold attempt. unfold mbind at 1, m_bind at 1. destruct (body o w1) as [[a|e] w2]; cbn in Hbody.
  - destruct Hbody as [HQ Hs]. eapply out_weaken; [apply (Hrest _ w2 (Ok a) (stepped (R a) (held_in w) w) Hs); auto| |].
    + by intros a' w3 [[= <-] H].
    + by intros w3 (e & [=] & _).
  - eapply out_weaken; [apply (Hrest _ w2 (Err e) (stepped E (held_in w) w) Hbody); auto| |].
    + by intros a' w3 [[=] _].
    + by intros w3 (e' & _ & H).
Qed.

(** A method of a held page works on what its place shows. *)
Lemma call_out {A : Type} k o n (f : Page.t → result (A * Page.t)) w : inv w → held_in w k = Some (o, n) → page_method f →
  out (call_page k o f w)
    (λ a w', ∃ p p', wf p ∧ Page.page_size p = ps ∧ shown w k = Some (picture p) ∧ f p = Ok (a, p') ∧ wf p' ∧
       Page.page_size p' = ps ∧ stepped (becomes k (picture p')) (held_in w) w w')
    (λ w', w' = w).
Proof.
  intros Hi Hh Hm. destruct (call_page_out cfg k o n f w (iv_sized _ _ Hi) (iv_wf _ _ Hi) Hh Hm) as (p & Hwf & Hz & Hc & Hp).
  destruct (f p) as [[a p']|e] eqn:Hf; [destruct Hp as (w' & -> & Hs)|by rewrite Hp].
  destruct (Hm _ _ _ Hwf Hf) as (Hwf' & Hz' & _). exists p, p'. split_and!; try done; [|congruence].
  unfold shown_at. by rewrite Hc.
Qed.

(** *** The device's pages of a file *)

Lemma image_within F (k : place) : is_Some (image_at ps F k) ↔ ∃ c, F !! k.1 = Some c ∧ 0 <= k.2 ∧ (k.2 + 1) * ps <= zlen c.
Proof.
  unfold image_at. destruct (F !! k.1) as [c|]; cbn; [|by split; [intros []|intros (? & ? & _)]].
  destruct (Z.leb_spec 0 k.2), (Z.leb_spec ((k.2 + 1) * ps) (zlen c)); cbn.
  all: split; [try (by intros [])|intros (c' & [= <-] & ? & ?); try lia; try by eexists].
  intros _. by exists c.
Qed.

Lemma image_before F f i j : is_Some (image_at ps F (f, i)) → 0 <= j <= i → is_Some (image_at ps F (f, j)).
Proof using Hps.
  rewrite !image_within. cbn. intros (c & Hc & Hi & Hl) Hj. exists c. split; [done|]. pose proof (ps_pos cfg Hps). split; [lia|nia].
Qed.

Lemma quiet_steady w w' : inv w → quiet cfg w w' → steady w w'.
Proof. intros Hi. apply steady_quiet, Hi. Qed.

Lemma page_count_out file w : inv w →
  out (on_dev (page_count file) w)
    (λ n w', quiet cfg w w' ∧ 0 <= n ∧ ∀ i, is_Some (image_at ps (files (dev w)) (file, i)) ↔ 0 <= i < n) (λ w', quiet cfg w w').
Proof using Hps PL.
  intros Hi. pose proof (ps_pos cfg Hps) as Hpos.
  eapply out_weaken; [exact (on_dev_out cfg _ _ _ w (page_count_law file) (iv_sized _ _ Hi))| |].
  - intros n w' (Hp & Hs & [Hu _] & c & Hc & Hn). rewrite (iv_sized _ _ Hi) in Hn. split; [done|].
    pose proof (zlen_nonneg c). assert (0 <= n) by nia. split; [done|]. intros i. rewrite image_within. cbn. split.
    + intros (c' & Hc' & ? & Hl). assert (c' = c) as -> by congruence. split; [done|nia].
    + intros [? ?]. exists c. split; [done|]. split; [done|nia].
  - intros w' (Hp & Hs & [Hu _]). done.
Qed.

(** *** Growing *)

#[local] Abbreviation grown_in file := (grew cfg (λ k : place, k.1 = file)).

Lemma grew_trans φ k a b c : grew cfg φ k a b → grew cfg φ k b c → grew cfg φ k a c.
Proof. intros [-> |(H1 & -> & ->)] [-> |(H2 & H & ->)]; [by left|by right|by right|done]. Qed.

(** An unpin that names no object means the resident one. *)
Lemma unpin_resident k d o n w : inv w → held_in w k = Some (o, n) → unpin cfg k d None w = unpin cfg k d (Some o) w.
Proof using Type.
  intros Hi Hh. destruct (holding_Some cfg _ _ _ _ (wp_table _ _ (iv_wf _ _ Hi)) Hh) as (fr & Hf & Ho & _).
  unfold unpin. apply bind_congr. intros i w1 Hl. assert (w1 = w) as -> by (unfold lift in Hl; congruence).
  apply bind_congr. intros r w2 [= <- <-]. unfold mbind, m_bind, get, gets. cbn.
  rewrite Hf. cbn. by rewrite bool_decide_eq_true_2 by (by rewrite Ho).
Qed.

(** A page taken and given back. *)
Lemma allocated_out file t w : inv w → kind_ok t →
  out ((page ← BufferPool.allocate cfg file t false; _ ← unpin cfg (file, page.1) true None; mret page.1) w)
    (λ i w', image_at ps (files (dev w)) (file, i) = None ∧ stepped (becomes (file, i) (picture (blank ps t))) (held_in w) w w')
    (λ w', stepped (grown_in file) (held_in w) w w').
Proof using Hps PL.
  intros Hi Ht. eapply out_bind; [apply (allocate_out cfg Hps); try apply Hi; done| |done].
  intros [i o] w1 [[Hh Hno] Hs]. cbn [fst snd] in *. pose proof (stepped_inv _ _ _ _ _ Hi Hs) as Hi1.
  assert (held_in w1 (file, i) = Some (o, 1)) as Hh1 by (rewrite (sp_held _ _ _ _ _ Hs); unfold lend; by rewrite decide_True).
  pose proof (unpin_out cfg Hps (file, i) true o 1 w1 (iv_sized _ _ Hi1) (iv_wf _ _ Hi1) Hh1) as Hout.
  rewrite <-(unpin_resident _ _ _ _ _ Hi1 Hh1) in Hout. eapply out_bind; [exact Hout| |by intros ?].
  - intros u w2 Hk. cbn. split; [by apply Hno|].
    refine (stepped_as cfg _ _ _ _ _ _ _ _ (stepped_kept _ _ _ _ _ _ Hs Hk)); [done|].
    intros k. unfold lend. case_decide as Hk1; [by subst k|]. rewrite (sp_held _ _ _ _ _ Hs). unfold lend. by rewrite decide_False.
Qed.

Lemma grow_rounds_bind file i n (w : World) : grow_rounds cfg file i (S n) w =
  (count ← on_dev (page_count file);
   if i <? count then mret 0
   else _ ← (page ← BufferPool.allocate cfg file (page_type_value FREE) false; _ ← unpin cfg (file, page.1) true None; mret page.1);
        grown ← grow_rounds cfg file i n; mret (grown + 1)) w.
Proof.
  cbn [grow_rounds]. apply bind_congr. intros c w1 _. case_match; [done|]. unfold mbind, m_bind.
  destruct (BufferPool.allocate _ _ _ _ _) as [[p|e] w2]; [|done]. by destruct (unpin _ _ _ _ _) as [[u|e] w3].
Qed.

Lemma stepped_refine (R R' : place → option Picture → option Picture → Prop) H w w' :
  (∀ k, R k (shown w k) (shown w' k) → R' k (shown w k) (shown w' k)) → stepped R H w w' → stepped R' H w w'.
Proof. intros HR [? ? ? Hsh ? ? ?]. split; try done. intros Hf. destruct (Hsh Hf) as [? Hs]. split; [done|]. intros k. auto. Qed.

(** A free page more is a page that was not there and shows blank. *)
Lemma allocated_grew file i w w' : inv w → image_at ps (files (dev w)) (file, i) = None →
  stepped (becomes (file, i) (picture (blank ps (page_type_value FREE)))) (held_in w) w w' → stepped (grown_in file) (held_in w) w w'.
Proof.
  intros Hi Hno. apply stepped_refine. intros k. unfold becomes. case_decide as Hk; intros ->; [|by left].
  right. subst k. split; [done|]. split; [|done]. by apply (off_device_shown cfg), Hno; apply Hi.
Qed.

Lemma grow_rounds_out file i n w : inv w →
  out (grow_rounds cfg file i n w) (λ _ w', stepped (grown_in file) (held_in w) w w') (λ w', stepped (grown_in file) (held_in w) w w').
Proof using Hps PL.
  assert (∀ w w', inv w → quiet cfg w w' → stepped (grown_in file) (held_in w) w w') as Hq.
  { intros w0 w' Hi0 H. apply kept_stepped; [by left|]. by apply quiet_steady. }
  assert (∀ w w1 w2, stepped (grown_in file) (held_in w) w w1 → stepped (grown_in file) (held_in w1) w1 w2 →
    stepped (grown_in file) (held_in w) w w2) as Htr.
  { intros w0 w1 w2 H1 H2. refine (stepped_as cfg _ _ _ _ _ _ _ _ (stepped_trans cfg _ _ _ _ _ _ _ _ (grew_trans _) H1 H2)); [done|].
    intros k. by rewrite (sp_held _ _ _ _ _ H1). }
  revert w. induction n as [|n IH]; intros w Hi.
  - cbn [grow_rounds]. eapply out_bind; [by apply page_count_out| |by auto]. intros c w1 (H1 & _). case_match; by apply Hq.
  - rewrite grow_rounds_bind. eapply out_bind; [by apply page_count_out| |by auto]. intros c w1 (H1 & _).
    case_match; [by apply Hq|]. pose proof (Hq _ _ Hi H1) as Hs1. pose proof (stepped_inv _ _ _ _ _ Hi Hs1) as Hi1.
    eapply out_bind; [apply (allocated_out file (page_type_value FREE) w1 Hi1); done| |intros w2 H2; by eapply Htr].
    intros j w2 (Hno & H2). apply (allocated_grew _ _ _ _ Hi1 Hno) in H2. pose proof (stepped_inv _ _ _ _ _ Hi1 H2) as Hi2.
    eapply out_bind; [by apply IH| |].
    + intros g w3 H3. by eapply Htr, Htr.
    + intros w3 H3. by eapply Htr, Htr.
Qed.

(** Every round adds a page, so rounds beyond the pages that are missing make no difference. *)
Lemma grow_rounds_agree file i c n m w : inv w → (∀ j, 0 <= j < c → is_Some (image_at ps (files (dev w)) (file, j))) →
  i < c + Z.of_nat n → i < c + Z.of_nat m → grow_rounds cfg file i n w = grow_rounds cfg file i m w.
Proof using Hps PL.
  revert c m w. induction n as [|n IH]; intros c m w Hi Hc Hn Hm.
  - destruct m as [|m]; [done|]. cbn [grow_rounds]. apply bind_congr. intros count w1 H1.
    pose proof (page_count_out file w Hi) as Ho. rewrite H1 in Ho. destruct Ho as (_ & Hge & Hall).
    destruct (Z.ltb_spec i count) as [|Hlt]; [done|]. exfalso.
    assert (0 <= c - 1 < c) as Hc1 by lia. apply Hc, Hall in Hc1. lia.
  - destruct m as [|m].
    { cbn [grow_rounds]. apply bind_congr. intros count w1 H1.
      pose proof (page_count_out file w Hi) as Ho. rewrite H1 in Ho. destruct Ho as (_ & Hge & Hall).
      destruct (Z.ltb_spec i count) as [|Hlt]; [done|]. exfalso.
      assert (0 <= c - 1 < c) as Hc1 by lia. apply Hc, Hall in Hc1. lia. }
    rewrite !grow_rounds_bind. apply bind_congr. intros count w1 H1.
    pose proof (page_count_out file w Hi) as Ho. rewrite H1 in Ho. destruct Ho as (Hq & Hge & Hall).
    destruct (Z.ltb_spec i count) as [|Hlt]; [done|]. apply bind_congr. intros j w2 H2.
    pose proof (stepped_inv _ _ _ _ _ Hi (steady_stepped _ _ (quiet_steady _ _ Hi Hq))) as Hi1.
    pose proof (allocated_out file (page_type_value FREE) w1 Hi1 ltac:(done)) as Ho. rewrite H2 in Ho. destruct Ho as [Hno Hs].
    pose proof (stepped_inv _ _ _ _ _ Hi1 Hs) as Hi2. destruct Hq as (_ & HF & _).
    assert (is_Some (image_at ps (files (dev w2)) (file, j))) as Hj.
    { pose proof (stepped_shown _ _ _ _ (file, j) Hi1 Hs) as Hb. unfold becomes in Hb. rewrite decide_True in Hb by done.
      destruct (image_at ps (files (dev w2)) (file, j)) as [x|] eqn:Hx; [by exists x|].
      rewrite (off_device_shown cfg) in Hb; [done|apply Hi2|done]. }
    assert (count <= j) as Hcj.
    { apply Z.nlt_ge. intros Hlt'. destruct (proj1 (image_within _ _) Hj) as (_ & _ & Hj0 & _). cbn in Hj0.
      destruct (proj2 (Hall j) (conj Hj0 Hlt')) as [x Hx]. rewrite HF in Hno. congruence. }
    assert (∀ k, 0 <= k < count + 1 → is_Some (image_at ps (files (dev w2)) (file, k))) as Hc2
      by (intros k Hk; apply (image_before _ _ j); [done|lia]).
    assert (c <= count) by (destruct (decide (0 < c)) as [Hpos|]; [|lia]; assert (0 <= c - 1 < c) as Hc1 by lia; apply Hc, Hall in Hc1; lia).
    unfold mbind, m_bind. rewrite (IH (count + 1) m w2 Hi2 Hc2); [done|lia|lia].
Qed.

(** A file made where there was none has no page. *)
Lemma same_images_steady w w' : inv w → sized cfg w' → pool w' = pool w →
  (∀ k, image_at ps (files (dev w')) k = image_at ps (files (dev w)) k) → steady w w'.
Proof.
  intros Hi Hs Hp Him.
  assert (∀ k, device_picture ps (files (dev w')) k = device_picture ps (files (dev w)) k) as Hpic by (intros k; unfold device_picture; by rewrite Him).
  split; try (by rewrite Hp); [done|rewrite Hp; apply Hi| |rewrite Hp; by intros k].
  rewrite Hp. split; [intros k; by rewrite Him|]. intros Hf. split.
  - intros k p Hk. rewrite Him, Hpic. by apply Hf.
  - intros k. unfold shown_at. case_match; [done|]. apply Hpic.
Qed.

Lemma create_steady file e w : inv w → out (on_dev (create file e) w) (λ _ w', steady w w') (λ w', steady w w').
Proof using Hps PL.
  intros Hi. pose proof (ps_pos cfg Hps) as Hpos.
  pose proof (on_dev_out cfg _ _ _ w (create_law file e) (iv_sized _ _ Hi)) as H1.
  pose proof (on_dev_out cfg _ _ _ w (create_failure_law file e) (iv_sized _ _ Hi)) as H2.
  assert (∀ w', pool w' = pool w → sized cfg w' → only file (dev w) (dev w') →
    files (dev w') !! file = files (dev w) !! file ∨ files (dev w) !! file = None ∧ files (dev w') !! file = Some [] → steady w w') as Hsame.
  { intros w' Hp Hs Ho Hc. apply same_images_steady; [done..|]. intros k. destruct (decide (k.1 = file)) as [Hk|Hk].
    - destruct Hc as [Hc|[Hn Hc]]; [apply image_at_other; by rewrite Hk|]. unfold image_at. rewrite Hk, Hn, Hc. cbn.
      destruct (Z.leb_spec 0 k.2); [|done]. cbn. rewrite (proj2 (Z.leb_gt _ _)); [done|]. change (zlen []) with 0. nia.
    - apply image_at_other. by apply Ho. }
  destruct (on_dev (create file e) w) as [[u|err] w']; cbn in *.
  - destruct H1 as (Hp & Hs & Ho & Hc). apply Hsame; [done..|].
    destruct (files (dev w) !! file) as [c|]; [left|right]; [by destruct Hc as [_ ->]|done].
  - destruct H1 as (Hp & Hs & Ho). destruct H2 as (_ & _ & Hc). by apply Hsame.
Qed.

Lemma grow_to_out file i w : inv w →
  out (grow_to cfg file i w) (λ _ w', stepped (grown_in file) (held_in w) w w') (λ w', stepped (grown_in file) (held_in w) w w').
Proof using Hps PL.
  intros Hi.
  assert (∀ w', steady w w' → stepped (grown_in file) (held_in w) w w') as Hst by (intros w'; apply kept_stepped; by left).
  unfold grow_to. apply out_lift; [intros x Hx|intros; by apply Hst, inv_steady].
  eapply (out_bind _ _ _ (λ (_ : result Z) w', steady w w') (λ _, False)); [| |done].
  { eapply out_weaken; [refine (out_attempt _ _ (λ _ w', steady w w') (λ w', steady w w') (λ _, False) _)| |done].
    - eapply out_weaken; [by apply page_count_out| |]; cbn; [intros n w' (Hq & _)|intros w' Hq]; by apply quiet_steady.
    - by intros [n|e] w' H. }
  intros r w1 H1. destruct (steady_view cfg w w1 Hi H1) as (Hi1 & _).
  eapply (out_bind _ _ _ (λ (_ : Z) w', steady w w') (λ w', steady w w')); [| |by auto].
  { destruct r as [n|e]; [done|]. case_decide; [|done].
    eapply out_bind; [by apply create_steady| |]; [intros u w2 H2|intros w2 H2]; cbn; by eapply (steady_trans cfg). }
  intros present w2 H2. destruct (steady_view cfg w w2 Hi H2) as (Hi2 & _). case_match; [by apply Hst|].
  eapply out_weaken; [by apply grow_rounds_out| |]; cbn; [intros g w3 H3|intros w3 H3].
  all: eapply kept_stepped_trans; [exact H2|]; refine (stepped_as cfg _ _ _ _ _ _ _ _ H3); [done|]; intros k; by rewrite (st_held _ _ _ _ H2).
Qed.

(** *** One image *)

(** What a page says that is not there or was never written. *)
Definition says (a : option Picture) : Picture := default (picture (blank ps (page_type_value FREE))) a.
Definition said (w : World) (k : place) : Picture := says (shown w k).

(** The rule of redo: a page that is not free and as new as the image is left alone. *)
Definition covers_picture (a pic : Picture) : bool :=
  negb (pic_type a =? page_type_value FREE) && (pic_lsn pic <=? pic_lsn a).
Definition newer (a pic : Picture) : Picture := if covers_picture a pic then a else pic.
Definition redo (s : place → Picture) (e : place * Picture) : place → Picture :=
  λ k, if decide (k = e.1) then newer (s k) e.2 else s k.

Definition redone (e : place * Picture) (k : place) (a b : option Picture) : Prop :=
  says b = (if decide (k = e.1) then newer (says a) e.2 else says a) ∧ (k = e.1 ∨ is_Some a → is_Some b).

Lemma grew_says φ k a b : grew cfg φ k a b → says b = says a.
Proof. by intros [-> |(_ & -> & ->)]. Qed.

Lemma grew_some φ k a b : grew cfg φ k a b → is_Some a → is_Some b.
Proof. intros [-> |(_ & -> & ->)]; [done|by eexists]. Qed.

Lemma decode_page_size raw p : decode_page ps raw = Ok p → wf p ∧ Page.page_size p = ps.
Proof using Hps.
  unfold decode_page. intros H. destruct (from_bytes_ok_inv _ _ _ _ _ H) as (Hw & Hz & _). split; [done|].
  unfold from_bytes in H. inv_ok H. rewrite Hps in E. cbn in E. destruct (Z.eqb_spec (zlen raw) ps); [congruence|done].
Qed.

Lemma decode_image_Ok i image p : decode_image cfg i image = Ok p →
  wf p ∧ Page.page_size p = ps ∧ ∃ q, decode_page ps image = Ok q ∧ picture p = picture q.
Proof using Hps.
  unfold decode_image. intros H. inv_ok H. apply decode_page_size in E as Hx. destruct Hx as [Hw Hz].
  apply (set_index_alike _ _ _ Hw) in E0 as ((Hp0 & Hw0 & Hz0) & _ & _).
  case_match; [injection H as <-; split_and!; [done|congruence|by exists x]|].
  apply (set_seq_alike _ _ _ Hw0) in H as ((Hp1 & Hw1 & Hz1) & _ & _). split_and!; [done|congruence|]. exists x. split; [done|congruence].
Qed.

Lemma held_shown k o n w : inv w → held_in w k = Some (o, n) →
  ∃ p, held k o (pool w) = Some p ∧ wf p ∧ Page.page_size p = ps ∧ shown w k = Some (picture p).
Proof.
  intros Hi Hh. destruct (holding_Some cfg _ _ _ _ (wp_table _ _ (iv_wf _ _ Hi)) Hh) as (fr & Hf & Ho & _ & _).
  destruct (to_frame _ _ (wp_table _ _ (iv_wf _ _ Hi)) _ _ Hf) as [[Hw Hz _ _] _].
  exists (BufferPool.page fr). split_and!; [|done|done|].
  - unfold held, owning_frame. by rewrite Hf, decide_True.
  - unfold shown_at. by rewrite (cached_Some _ _ _ Hf).
Qed.

Lemma replace_method q : wf q → Page.page_size q = ps → page_method (λ p, r ← Page.replace_with p q; Ok ((), r)).
Proof.
  intros Hq Hz p a p' Hw H. inv_ok H. injection H as _ <-. unfold replace_with in E.
  destruct (Z.eqb_spec (Page.page_size q) (Page.page_size p)) as [Heq|]; [|done]. injection E as <-.
  split; [|by split; [|left]]. destruct Hw, Hq. split; cbn; try done. by rewrite <-Heq.
Qed.

Lemma bump_steady file w : inv w → steady w (MkWorld (dev w) (bump_structure_epoch file (pool w))).
Proof.
  intros Hi. apply (same_tables_steady cfg); try done; [apply Hi|].
  apply (same_tables_wf cfg (pool w)); [done|apply Hi].
Qed.

Lemma covers_said page q : covers page q = covers_picture (picture page) (picture q).
Proof. done. Qed.

(** The body of [apply_page_image] over the held page. *)
Lemma install_image_out file k q sig o n w : inv w → held_in w k = Some (o, n) → wf q → Page.page_size q = ps →
  out ((page ← get (held k o);
        match page with
        | None => lift (raise GrafxUnsupportedOperation "")
        | Some page =>
            if covers page q then mret false
            else
              _ ← call_ k o (λ p, Page.replace_with p q);
              _ ← (if structure_changed sig page q then update (bump_structure_epoch file) else mret ());
              mret true
        end) w)
    (λ b w', b = negb (covers_picture (said w k) (picture q)) ∧ stepped (redone (k, picture q)) (held_in w) w w')
    (λ w', stepped nothing (held_in w) w w').
Proof using Hps.
  intros Hi Hh Hq Hz. destruct (held_shown _ _ _ _ Hi Hh) as (p & Hp & Hwp & Hzp & Hsh). apply out_gets. rewrite Hp.
  assert (said w k = picture p) as Hsaid by (unfold said; by rewrite Hsh).
  pose proof (steady_stepped _ _ (inv_steady _ Hi)) as Hst. rewrite covers_said, Hsaid. destruct (covers_picture _ _) eqn:Hc.
  - split; [done|]. revert Hst. apply stepped_refine. intros k' _. unfold redone. cbn. split; [|intros [-> |?]; [by rewrite Hsh|done]].
    case_decide as Hk; [|done]. subst k'. unfold newer, says. rewrite Hsh. cbn. by rewrite Hc.
  - eapply out_bind; [apply (call_out k o n _ w Hi Hh (replace_method q Hq Hz))| |].
    2:{ by intros w1 ->. }
    intros [] w1 (p0 & p1 & _ & _ & Hsh0 & Hr & _ & _ & Hs).
    assert (picture p1 = picture q) as Hpq.
    { unfold replace_with in Hr. case_match; [done|]. injection Hr as <-. done. }
    assert (stepped (redone (k, picture q)) (held_in w) w w1) as Hs1.
    { revert Hs. apply stepped_refine. intros k' ->. unfold redone. cbn. case_decide as Hk; [|by split; [|intros [?|?]]]. subst k'.
      split; [|by eexists]. unfold newer, says. rewrite Hsh. cbn. by rewrite Hc, Hpq. }
    pose proof (stepped_inv _ _ _ _ _ Hi Hs) as Hi1. case_match; [|by split].
    apply out_update. split; [done|]. apply (stepped_kept _ (held_in w) _ _ w1); [done|].
    apply (kept_as cfg (held_in w1)); [|by apply bump_steady]. intros k'. by rewrite (sp_held _ _ _ _ _ Hs1).
Qed.

Lemma apply_page_image_out file i image sig w : inv w →
  out (apply_page_image cfg file i image sig w)
    (λ b w', ∃ q, decode_page ps image = Ok q ∧ b = negb (covers_picture (said w (file, i)) (picture q)) ∧
       stepped (redone ((file, i), picture q)) (held_in w) w w')
    (λ w', stepped (grown_in file) (held_in w) w w').
Proof using Hps PL SL.
  intros Hi. unfold apply_page_image.
  assert (stepped (grown_in file) (held_in w) w w) as Hrefl by (apply kept_stepped; [by left|by apply inv_steady]).
  apply out_lift; [|done]. intros p Hdec. destruct (decode_image_Ok _ _ _ Hdec) as (Hwp & Hzp & q & Hq & Hpq).
  eapply out_bind; [by apply grow_to_out| |done]. intros g w1 H1. pose proof (stepped_inv _ _ _ _ _ Hi H1) as Hi1.
  assert (said w1 (file, i) = said w (file, i)) as Hsaid by (unfold said; by eapply grew_says, (stepped_shown _ _ _ _ (file, i) Hi H1)).
  assert (∀ k, held_in w k = held_in w1 k) as Hh1 by (intros k; by rewrite (sp_held _ _ _ _ _ H1)).
  eapply out_weaken; [apply (pinned_out (file, i) _ w1 (λ b, b = negb (covers_picture (said w1 (file, i)) (picture p)))
    (λ _, redone ((file, i), picture p)) nothing Hi1); [done|]| |].
  - intros o n w2 Hi2 Hh2 Hsh2. pose proof (install_image_out file (file, i) p
      (match sig with Some s => Some s | None => structure_signature cfg file end) o n w2 Hi2 Hh2 Hwp Hzp) as Hb.
    unfold said in Hb. rewrite Hsh2 in Hb. exact Hb.
  - intros b w2 [Hb H2]. exists q. split; [done|]. rewrite <-Hpq, <-Hsaid. split; [done|].
    refine (stepped_as cfg _ _ _ _ _ _ (λ k a b H, H) Hh1 (stepped_trans cfg (grown_in file) (redone _) (redone _) _ _ _ _ _ _ H1 H2)).
    intros k a c d Hac [Hcd Hsome]. split; [by rewrite Hcd, (grew_says _ _ _ _ Hac)|].
    intros [Hk|Ha]; apply Hsome; [by left|right]. by eapply grew_some.
  - intros w2 H2. refine (stepped_as cfg _ _ _ _ _ _ (λ k a b H, H) Hh1 (stepped_trans cfg (grown_in file) nothing (grown_in file) _ _ _ _ _ _ H1 H2)).
    by intros k a c d Hac ->.
Qed.
End chain.
