(* ===== verification/ChainTheorems.v ===== *)
(** Page chains of [PageChain]: a chain that was written reads back the payload, however the pool
    and the device were used in between; a read of it that raises is a pin that raised. *)

From S2P Require Import Prelude Ids Layout Slotted SlottedCodec Utf8 Storage ControlRecord MemoryStorage BufferPool BufferTheorems BufferDoors BufferClient PageChain PageDoors.
Import Page.

(** What a page of a chain says. *)
Definition is_chunk (t next : Z) (chunk : bytes) (pic : Picture) : Prop :=
  pic_type pic = t ∧ pic_next pic = next ∧ pic_contents pic = [Some chunk].

(** Only [k] changes, into something of [φ]. *)
Definition writes (k : place) (φ : Picture → Prop) (k' : place) (a b : option Picture) : Prop :=
  if decide (k' = k) then ∃ pic, b = Some pic ∧ φ pic else b = a.

Section chain.
Context {Dev : Type} {SD : StorageDevice Dev} {SL : StorageLaws Dev} {PL : PageLaws Dev}.
Variable cfg : Config.
Hypothesis Hps : validate_page_size (page_bytes cfg) = Ok (page_bytes cfg).
#[local] Abbreviation ps := (page_bytes cfg).
#[local] Abbreviation World := (@BufferPool.World Dev).
#[local] Abbreviation shown w := (shown_at ps (files (dev w)) (cached (pool w))).
#[local] Abbreviation held_in w := (holding (pool w)).
#[local] Abbreviation inv := (inv cfg).
#[local] Abbreviation stepped := (stepped cfg).
#[local] Abbreviation steady w w' := (kept cfg (holding (pool w)) w w').

(** *** Methods *)

Lemma clear_method : page_method (λ p, p ← Ok (Page.clear p); Ok ((), p)).
Proof.
  intros p a p' Hw H. injection H as _ <-. split; [|by split; [|left]]. pose proof (wf_body p Hw) as [Hd Hs Hsp He Hsep].
  destruct (validate_page_size_Ok _ _ (wf_size p Hw)) as (_ & Hz & _). unfold MIN_PAGE_SIZE in Hz.
  destruct Hw. split; cbn; try done. split; cbn.
  - rewrite zlen_zeros; lia.
  - done.
  - unfold PAGE_HEADER_SIZE, SLOT_ENTRY_SIZE, zlen. cbn. lia.
  - constructor.
  - by intros i j e e'.
Qed.

Lemma set_type_method t : page_method (λ p, p ← Page.set_page_type p t; Ok ((), p)).
Proof.
  intros p a p' Hw H. inv_ok H. injection H as _ <-. unfold set_page_type in E. inv_ok E. apply check_unsigned_Ok in E0 as [-> Hr].
  injection E as <-. split; [|by split; [|left]]. by destruct Hw.
Qed.

Lemma set_next_method n : page_method (λ p, p ← Page.set_next_page p n; Ok ((), p)).
Proof.
  intros p a p' Hw H. inv_ok H. injection H as _ <-. unfold set_next_page in E. inv_ok E. apply check_unsigned_Ok in E0 as [-> Hr].
  injection E as <-. split; [|by split; [|left]]. by destruct Hw.
Qed.

Lemma insert_slot_method x : page_method (λ p, Page.insert_slot p x).
Proof.
  intros p a p' Hw H. pose proof (insert_slot_agrees p x Hw) as Hag. rewrite H in Hag.
  destruct (PageSpec.insert _ _ _) as [[j c]|]; [|done]. cbn in Hag. destruct Hag as (_ & Hw' & Hz & _). split; [done|]. split; [done|].
  left. unfold insert_slot in H. repeat case_match; try done; by injection H as _ <-.
Qed.

Lemma insert_slot_picture p x a p' : wf p → insert_slot p x = Ok (a, p') →
  picture p' = MkPicture (page_type p) (flags p) (page_lsn p) (next_page p) (reserved p) (contents p ++ [Some x]).
Proof.
  intros Hw H. pose proof (insert_slot_agrees p x Hw) as Hag. rewrite H in Hag. unfold PageSpec.insert in Hag.
  destruct (_ <? _); [done|]. cbn in Hag. destruct Hag as (_ & _ & _ & Hc & _). unfold picture. rewrite Hc.
  enough (page_type p' = page_type p ∧ flags p' = flags p ∧ page_lsn p' = page_lsn p ∧ next_page p' = next_page p ∧ reserved p' = reserved p)
    as (-> & -> & -> & -> & ->) by done.
  unfold insert_slot, compact in H. repeat case_match; try done; injection H as _ <-; done.
Qed.

Lemma clear_picture p u p' : (p ← Ok (Page.clear p); Ok ((), p)) = Ok (u, p') → pic_contents (picture p') = [].
Proof. by intros [= _ <-]. Qed.

Lemma set_type_picture t p u p' : (p ← Page.set_page_type p t; Ok ((), p)) = Ok (u, p') →
  pic_type (picture p') = t ∧ pic_contents (picture p') = pic_contents (picture p).
Proof.
  intros H. inv_ok H. injection H as _ <-. unfold set_page_type in E. inv_ok E. apply check_unsigned_Ok in E0 as [-> _]. by injection E as <-.
Qed.

Lemma set_next_picture n p u p' : (p ← Page.set_next_page p n; Ok ((), p)) = Ok (u, p') →
  pic_type (picture p') = pic_type (picture p) ∧ pic_next (picture p') = n ∧ pic_contents (picture p') = pic_contents (picture p).
Proof.
  intros H. inv_ok H. injection H as _ <-. unfold set_next_page in E. inv_ok E. apply check_unsigned_Ok in E0 as [-> _]. by injection E as <-.
Qed.

(** A call, and what follows it. *)
Lemma call_then {A B : Type} k o n (f : Page.t → result (A * Page.t)) (g : A → M World B) w0 w (Q : B → World → Prop) :
  inv w → held_in w k = Some (o, n) → page_method f → stepped (only_at k) (held_in w0) w0 w →
  (∀ a p p' w1, wf p → shown w k = Some (picture p) → f p = Ok (a, p') → wf p' → inv w1 → held_in w1 k = Some (o, n) →
     stepped (only_at k) (held_in w0) w0 w1 → shown w1 k = Some (picture p') → (∀ k', k' ≠ k → shown w1 k' = shown w k') →
     out (g a w1) Q (stepped (only_at k) (held_in w0) w0)) →
  out ((call_page k o f ≫= g) w) Q (stepped (only_at k) (held_in w0) w0).
Proof using Type.
  intros Hi Hh Hm H0 Hg. eapply out_bind; [by apply (call_out cfg k o n f w Hi Hh Hm)| |by intros w1 ->].
  intros a w1 (p & p' & Hw & _ & Hsh & Hf & Hw' & _ & Hs). pose proof (stepped_inv cfg _ _ _ _ Hi Hs) as Hi1.
  assert (∀ k', becomes k (picture p') k' (shown w k') (shown w1 k')) as Hb by (intros k'; by apply (stepped_shown cfg _ _ _ _ k' Hi Hs)).
  apply (Hg a p p' w1); try done.
  - by rewrite (sp_held _ _ _ _ _ Hs k).
  - refine (stepped_as cfg _ _ _ _ _ _ (λ k' a b H, H) _ (stepped_trans cfg (only_at k) (becomes k (picture p')) (only_at k) _ _ _ _ _ _ H0 Hs)).
    + intros k'. by rewrite (sp_held _ _ _ _ _ H0).
    + intros k' x y z Hxy Hyz Hk. rewrite <-(Hxy Hk). by apply (becomes_only _ _ _ _ _ Hyz).
  - specialize (Hb k). unfold becomes in Hb. by rewrite decide_True in Hb.
  - intros k' Hk. by apply (becomes_only _ _ _ _ _ (Hb k')).
Qed.

(** What a page says when it was made a link of a chain. *)
Lemma write_chunk_out file t index next chunk w : inv w →
  out (write_chunk cfg file t index next chunk w)
    (λ _ w', stepped (writes (file, index) (is_chunk t next chunk)) (held_in w) w w')
    (λ w', stepped (only_at (file, index)) (held_in w) w w').
Proof using Hps PL SL.
  intros Hi. unfold write_chunk. set (k := (file, index)).
  eapply out_weaken; [apply (pinned_out cfg Hps k _ w (λ _, True) (λ _, writes k (is_chunk t next chunk)) (only_at k)); [done|done|]|by intros a w' [_ H]|done].
  intros o n w0 Hi0 Hh0 Hsh0.
  assert (stepped (only_at k) (held_in w0) w0 w0) as Hs0 by (apply kept_stepped; [done|by apply (inv_steady cfg)]).
  unfold call_. apply (call_then k o n _ _ w0 w0); try done; [apply clear_method|].
  intros [] p0 p1 w1 _ _ H1 _ Hi1 Hh1 Hs1 Hsh1 _. apply (call_then k o n _ _ w0 w1); try done; [apply set_type_method|].
  intros [] q1 p2 w2 _ Hsh1' H2 _ Hi2 Hh2 Hs2 Hsh2 _. apply (call_then k o n _ _ w0 w2); try done; [apply set_next_method|].
  intros [] q2 p3 w3 _ Hsh2' H3 _ Hi3 Hh3 Hs3 Hsh3 _. apply (call_then k o n _ _ w0 w3); try done; [apply insert_slot_method|].
  intros slot q3 p4 w4 Hw3 Hsh3' H4 _ Hi4 Hh4 Hs4 Hsh4 _. cbn. split; [done|].
  apply (stepped_refine cfg (only_at k)); [|done]. intros k' Hk'. unfold writes. case_decide as Hk; [subst k'|by apply Hk'].
  exists (picture p4). split; [done|]. rewrite (insert_slot_picture _ _ _ _ Hw3 H4).
  assert (picture q1 = picture p1) as E1 by congruence. assert (picture q2 = picture p2) as E2 by congruence.
  assert (picture q3 = picture p3) as E3 by congruence. apply clear_picture in H1. apply set_type_picture in H2 as [H2 H2'].
  apply set_next_picture in H3 as (H3 & H3' & H3''). split_and!.
  - change (pic_type (picture q3) = t). congruence.
  - change (pic_next (picture q3) = next). congruence.
  - change (pic_contents (picture q3) ++ [Some chunk] = [Some chunk]). by rewrite E3, H3'', E2, H2', E1, H1.
Qed.

(** *** Writing a chain *)

Definition only_in (file : pystr) (k : place) (a b : option Picture) : Prop := k.1 ≠ file → b = a.

(** The pages from a position on. *)
Definition before_position (file : pystr) (indices : list Z) (position : nat) (k : place) : Prop :=
  ∀ j index, (position ≤ j)%nat → indices !! j = Some index → k ≠ (file, index).
Definition only_from (file : pystr) (indices : list Z) (position : nat) (k : place) (a b : option Picture) : Prop :=
  before_position file indices position k → b = a.

(** A chain from a position on. *)
Definition linked (S : place → option Picture) (file : pystr) (t : Z) (indices : list Z) (position : nat) (chunks : list bytes) : Prop :=
  ∀ i index chunk, indices !! (position + i)%nat = Some index → chunks !! i = Some chunk →
    ∃ pic, S (file, index) = Some pic ∧ is_chunk t (next_of indices (position + i)) chunk pic.

Lemma only_trans (φ : place → Prop) H' w w1 w2 : stepped (λ k a b, φ k → b = a) (held_in w) w w1 →
  stepped (λ k a b, φ k → b = a) H' w1 w2 → stepped (λ k a b, φ k → b = a) H' w w2.
Proof using Type. apply stepped_trans. intros k a b c Hab Hbc Hk. by rewrite Hbc, Hab. Qed.

Lemma write_chunks_out file t indices position chunks w : inv w → NoDup indices →
  out (write_chunks cfg file t indices position chunks w)
    (λ _ w', stepped (only_from file indices position) (held_in w) w w' ∧ linked (λ k, shown w' k) file t indices position chunks)
    (λ w', stepped (only_in file) (held_in w) w w').
Proof using Hps PL SL.
  intros Hi Hnd. revert position w Hi. induction chunks as [|chunk chunks IH]; intros position w Hi; cbn [write_chunks].
  { split; [apply kept_stepped; [done|by apply (inv_steady cfg)]|]. by intros i index chunk _ ?. }
  destruct (indices !! position) as [index|] eqn:Hp.
  2:{ split; [apply kept_stepped; [done|by apply (inv_steady cfg)]|]. intros i index chunk' Hix.
      apply lookup_ge_None in Hp. apply lookup_lt_Some in Hix. lia. }
  eapply out_bind; [by apply write_chunk_out| |].
  2:{ intros w1. apply stepped_as; [|done]. intros k a b H Hk. apply H. intros ->. by apply Hk. }
  intros u w1 H1. pose proof (stepped_inv cfg _ _ _ _ Hi H1) as Hi1.
  assert (∀ k, held_in w1 k = held_in w k) as Hh1 by apply H1.
  eapply out_weaken; [by apply IH| |].
  - intros u' w2 [H2 Hl]. split.
    + apply (stepped_as cfg (only_from file indices position) _ (held_in w1)); [done|by intros k; rewrite Hh1|].
      apply (only_trans (before_position file indices position) _ w w1 w2).
      * revert H1. apply stepped_as; [|done]. intros k a b H Hk. unfold writes in H. rewrite decide_False in H; [done|]. by apply (Hk position).
      * revert H2. apply stepped_as; [|done]. intros k a b H Hk. apply H. intros j ix Hj. apply Hk. lia.
    + intros [|i] ix ch Hix Hch.
      * rewrite Nat.add_0_r in Hix |- *. assert (ix = index) as -> by congruence. injection Hch as <-.
        assert (shown w2 (file, index) = shown w1 (file, index)) as ->.
        { apply (stepped_shown cfg _ _ _ _ (file, index) Hi1 H2). intros j jx Hj Hjx [= <-].
          assert (j = position) by (by eapply NoDup_lookup). lia. }
        pose proof (stepped_shown cfg _ _ _ _ (file, index) Hi H1) as Hw. unfold writes in Hw. by rewrite decide_True in Hw.
      * rewrite Nat.add_succ_r in Hix |- *. by apply (Hl i ix ch).
  - intros w2 H2. apply (stepped_as cfg (only_in file) _ (held_in w1)); [done|by intros k; rewrite Hh1|].
    apply (only_trans (λ k : place, k.1 ≠ file) _ w w1 w2); [|exact H2]. revert H1. apply stepped_as; [|done]. intros k a b H Hk. unfold writes in H.
    rewrite decide_False in H; [done|]. intros ->. by apply Hk.
Qed.

Lemma allocate_pages_bind file t n (w : World) : allocate_pages cfg file t (S n) w =
  (i ← (page ← BufferPool.allocate cfg file t false; _ ← unpin cfg (file, page.1) true None; mret page.1);
   rest ← allocate_pages cfg file t n; mret (i :: rest)) w.
Proof using Type.
  cbn [allocate_pages]. unfold mbind, m_bind. destruct (BufferPool.allocate _ _ _ _ _) as [[p|e] w2]; [|done].
  by destruct (unpin _ _ _ _ _) as [[u|e] w3].
Qed.

(** A page that shows is on the device. *)
Lemma shown_image w k : inv w → is_Some (shown w k) → is_Some (image_at ps (files (dev w)) k).
Proof using Type.
  intros Hi Hs. destruct (image_at ps (files (dev w)) k) as [x|] eqn:Hx; [by exists x|]. rewrite (off_device_shown cfg) in Hs; [by destruct Hs|apply Hi|done].
Qed.

(** New pages are distinct, and none of them was there. *)
Lemma allocate_pages_out file t n w : inv w → kind_ok t →
  out (allocate_pages cfg file t n w)
    (λ fresh w', length fresh = n ∧ NoDup fresh ∧ (∀ i, i ∈ fresh → image_at ps (files (dev w)) (file, i) = None) ∧
       stepped (λ k a b, (∀ i, i ∈ fresh → k ≠ (file, i)) → b = a) (held_in w) w w')
    (λ w', stepped (only_in file) (held_in w) w w').
Proof using Hps PL.
  intros Hi Ht. revert w Hi. induction n as [|n IH]; intros w Hi.
  { cbn. split; [done|]. split; [constructor|]. split; [by intros i ?%not_elem_of_nil|]. apply kept_stepped; [done|by apply (inv_steady cfg)]. }
  rewrite allocate_pages_bind. eapply out_bind; [by apply (allocated_out cfg Hps file t w)| |].
  2:{ intros w1. apply stepped_as; [|done]. intros k a b [H|(Hk & _)] Hne; [done|by destruct Hne]. }
  intros i w1 [Hno H1]. pose proof (stepped_inv cfg _ _ _ _ Hi H1) as Hi1. assert (∀ k, held_in w1 k = held_in w k) as Hh1 by apply H1.
  assert (is_Some (image_at ps (files (dev w1)) (file, i))) as [x Hx].
  { apply shown_image; [done|]. pose proof (stepped_shown cfg _ _ _ _ (file, i) Hi H1) as Hs. unfold becomes in Hs. rewrite decide_True in Hs by done.
    rewrite Hs. by eexists. }
  eapply out_bind; [by apply IH| |].
  - intros fresh w2 (Hl & Hnd & Hfresh & H2). cbn. split; [by rewrite Hl|]. split.
    { constructor; [|done]. intros Hin. rewrite (Hfresh _ Hin) in Hx. done. }
    split.
    { intros j [->|Hj]%elem_of_cons; [done|]. specialize (Hfresh j Hj).
      destruct (image_at ps (files (dev w)) (file, j)) as [y|] eqn:Hy; [|done]. destruct (sp_pages _ _ _ _ _ H1 (file, j)) as [z Hz]; [by exists y|congruence]. }
    apply (only_trans (λ k : place, ∀ j, j ∈ i :: fresh → k ≠ (file, j)) _ w w1 w2).
    + revert H1. apply stepped_as; [|done]. intros k a b H Hk. unfold becomes in H. rewrite decide_False in H; [done|]. apply Hk. by left.
    + revert H2. apply stepped_as; [|by intros k; rewrite Hh1]. intros k a b H Hk. apply H. intros j Hj. apply Hk. by right.
  - intros w2 H2. apply (stepped_as cfg (only_in file) _ (held_in w1)); [done|by intros k; rewrite Hh1|].
    apply (only_trans (λ k : place, k.1 ≠ file) _ w w1 w2); [|exact H2]. revert H1. apply stepped_as; [|done].
    intros k a b H Hk. unfold becomes in H. rewrite decide_False in H; [done|]. intros ->. by apply Hk.
Qed.

(** What a file shows that holds a payload in a chain of pages. *)
Definition chained (S : place → option Picture) (file : pystr) (t : Z) (indices : list Z) (payload : bytes) : Prop :=
  ∃ chunks, join_chunks chunks = payload ∧ chunks ≠ [] ∧ length chunks = length indices ∧ NoDup indices ∧
    linked S file t indices 0 chunks.

Lemma require_distinct_from_Ok reuse seen : require_distinct_from seen reuse = Ok () → NoDup reuse ∧ ∀ i, i ∈ reuse → i ∉ seen.
Proof using Type.
  revert seen. induction reuse as [|c reuse IH]; intros seen H; [split; [constructor|by intros i ?%not_elem_of_nil]|].
  cbn in H. inv_ok H. case_bool_decide as Hs; [done|]. case_match; [done|]. apply IH in H as [Hnd Hn]. split.
  - constructor; [|done]. intros Hin. apply (Hn _ Hin). by left.
  - intros i [->|Hi]%elem_of_cons; [done|]. intros Hin. apply (Hn _ Hi). by right.
Qed.

Lemma exists_steady file w : inv w → out (on_dev (exists_ file) w) (λ _ w', steady w w') (λ w', steady w w').
Proof using Type.
  intros Hi. eapply out_weaken; [exact (on_dev_out cfg _ _ _ w (exists_law file) (iv_sized _ _ Hi))| |].
  - intros b w1 (Hp & Hs & [[Hu _] _]). by apply quiet_steady.
  - intros w1 (Hp & Hs & [Hu _]). by apply quiet_steady.
Qed.

Lemma reserved_header_steady file w : inv w →
  out (require_reserved_header_page file w) (λ _ w', steady w w') (λ w', steady w w').
Proof using Hps PL.
  intros Hi. unfold require_reserved_header_page.
  eapply (out_bind _ _ _ (λ (_ : result Z) w', steady w w') (λ _, False)); [| |done].
  { eapply out_weaken; [refine (out_attempt _ _ (λ _ w', steady w w') (λ w', steady w w') (λ _, False) _)| |done].
    - eapply out_weaken; [by apply (page_count_out cfg Hps)| |]; cbn; [intros n w' (Hq & _)|intros w' Hq]; by apply quiet_steady.
    - by intros [n|e] w' H. }
  intros r w1 H1. destruct (steady_view cfg w w1 Hi H1) as (Hi1 & _).
  eapply (out_bind _ _ _ (λ (_ : option Z) w', steady w w') (λ w', steady w w')); [| |done].
  { destruct r as [n|e]; [done|]. by case_decide. }
  intros present w2 H2. destruct (steady_view cfg w w2 Hi H2) as (Hi2 & _).
  eapply (out_bind _ _ _ (λ (_ : bool) w', steady w w') (λ w', steady w w')); [| |done].
  { case_bool_decide; [|done]. eapply out_weaken; [by apply exists_steady| |]; cbn; [intros b w3 H3|intros w3 H3]; by eapply (steady_trans cfg). }
  intros b w3 H3. by destruct b.
Qed.

Lemma chain_file_steady file w : inv w → out (require_chain_file file w) (λ _ w', steady w w') (λ w', steady w w').
Proof using Type.
  intros Hi. unfold require_chain_file. eapply out_bind; [by apply exists_steady| |done]. intros b w1 H1. by destruct b.
Qed.

(** A step that is steady, and what follows it. *)
Lemma steady_then {A B : Type} (m : M World A) (g : A → M World B) w0 w (Q : B → World → Prop) (E : World → Prop) : steady w0 w → inv w →
  out (m w) (λ _ w', steady w w') (λ w', steady w w') → (∀ w', steady w0 w' → E w') →
  (∀ a w', steady w0 w' → inv w' → out (g a w') Q E) → out ((m ≫= g) w) Q E.
Proof using Type.
  intros H0 Hi Hm HE Hg. eapply out_bind; [exact Hm| |].
  - intros a w' H. apply Hg; [by eapply (steady_trans cfg)|]. by destruct (steady_view cfg w w' Hi H).
  - intros w' H. apply HE. by eapply (steady_trans cfg).
Qed.

Lemma steady_only w w' (φ : place → Prop) : steady w w' → stepped (λ k a b, φ k → b = a) (held_in w) w w'.
Proof using Type. by apply kept_stepped. Qed.

Lemma write_chain_out file payload t reuse w : inv w → kind_ok t →
  (∀ i, i ∈ reuse → is_Some (image_at ps (files (dev w)) (file, i))) →
  out (write_chain cfg file payload t reuse w)
    (λ indices w', chained (λ k, shown w' k) file t indices payload ∧
       stepped (λ k a b, (∀ i, i ∈ indices → k ≠ (file, i)) → b = a) (held_in w) w w')
    (λ w', stepped (only_in file) (held_in w) w w').
Proof using Hps PL SL.
  intros Hi Ht Hreuse. unfold write_chain.
  assert (∀ w', steady w w' → stepped (only_in file) (held_in w) w w') as HE by (intros w'; apply steady_only).
  pose proof (inv_steady cfg w Hi) as H0.
  apply (steady_then _ _ w w); [done|done|by apply reserved_header_steady|done|]. intros u1 w1 H1 Hi1.
  apply out_lift; [intros [] Hd|by auto]. apply require_distinct_from_Ok in Hd as [Hnd _].
  apply (steady_then _ _ w w1); [done|done|by apply chain_file_steady|done|]. intros u2 w2 H2 Hi2.
  apply (steady_then _ _ w w2); [done|done| |done|].
  { destruct reuse; [by apply (inv_steady cfg)|]. by apply (bump_steady cfg). }
  intros u3 w3 H3 Hi3. apply out_lift; [intros capacity _|by auto]. apply out_lift; [intros chunks Hsplit|by auto].
  pose proof (overflow_split_join payload capacity) as Hj. rewrite Hsplit in Hj. destruct Hj as (_ & Hj & Hne & _).
  set (reused := take (length chunks) reuse).
  assert (∀ k, held_in w3 k = held_in w k) as Hh3 by apply H3.
  eapply out_bind; [by apply allocate_pages_out| |].
  2:{ intros w4 H4. eapply kept_stepped_trans; [exact H3|]. by apply (stepped_as cfg (only_in file) _ (held_in w3)). }
  intros fresh w4 (Hlf & Hndf & Hfresh & H4). pose proof (stepped_inv cfg _ _ _ _ Hi3 H4) as Hi4.
  assert (∀ i, i ∈ reused → i ∉ fresh) as Hdisj.
  { intros i Hin Hif. assert (is_Some (image_at ps (files (dev w3)) (file, i))) as [x Hx]; [|by rewrite (Hfresh i Hif) in Hx].
    apply (st_moved _ _ _ _ H3). by apply Hreuse, (subseteq_take (length chunks)). }
  assert (NoDup (reused ++ fresh)) as Hndi.
  { apply NoDup_app. split; [by eapply sublist_NoDup, sublist_take|]. done. }
  assert (length chunks = length (reused ++ fresh)) as Hlen.
  { rewrite length_app, Hlf. unfold reused. rewrite length_take. lia. }
  assert (∀ k, held_in w4 k = held_in w k) as Hh4 by (intros k; by rewrite (sp_held _ _ _ _ _ H4)).
  eapply out_bind; [by apply (write_chunks_out file t (reused ++ fresh) 0 chunks w4)| |].
  - intros u5 w5 [H5 Hl]. cbn. split; [by exists chunks|].
    eapply kept_stepped_trans; [exact H3|]. apply (stepped_as cfg (λ k a b, (∀ i, i ∈ reused ++ fresh → k ≠ (file, i)) → b = a) _ (held_in w4)); [done|by intros k; rewrite Hh4|].
    apply (only_trans (λ k : place, ∀ i, i ∈ reused ++ fresh → k ≠ (file, i)) _ w3 w4 w5).
    + revert H4. apply stepped_as; [|done]. intros k a b H Hk. apply H. intros i Hin. apply Hk, elem_of_app. by right.
    + revert H5. apply stepped_as; [|done]. intros k a b H Hk. apply H. intros j i _ Hji. apply Hk. by eapply list_elem_of_lookup_2.
  - intros w5 H5. eapply kept_stepped_trans; [exact H3|]. apply (stepped_as cfg (only_in file) _ (held_in w4)); [done|by intros k; rewrite Hh4|].
    apply (only_trans (λ k : place, k.1 ≠ file) _ w3 w4 w5); [|exact H5]. revert H4. apply stepped_as; [|done]. intros k a b H Hk. apply H. intros i _ ->. by apply Hk.
Qed.

(** *** Reading a chain *)

(** A body that only reads the held page answers, unless the pin raises. *)
Lemma pinned_reads {A : Type} k (body : nat → M World A) (a : A) w : inv w →
  (∀ o n w1, inv w1 → held_in w1 k = Some (o, n) → (∀ k', shown w1 k' = shown w k') → body o w1 = (Ok a, w1)) →
  match pinned cfg k body w with
  | (Ok a', w') => a' = a ∧ steady w w'
  | (Err e, w') => fst (pin cfg k w) = Err e ∧ steady w w'
  end.
Proof using Hps PL SL.
  intros Hi Hbody. pose proof (pin_out cfg Hps k w (iv_sized _ _ Hi) (iv_wf _ _ Hi)) as H. unfold pinned, mbind, m_bind.
  destruct (pin cfg k w) as [[o|e] w1]; cbn in H; [|done]. destruct H as (n & Hk & Hn).
  destruct (kept_view cfg _ w w1 Hi Hk) as [Hi1 Hsh1].
  assert (held_in w1 k = Some (o, n)) as Hh1 by (rewrite (st_held _ _ _ _ Hk); unfold lend; by rewrite decide_True).
  unfold attempt. rewrite (Hbody o n w1 Hi1 Hh1 Hsh1). cbn. unfold get, gets. cbn.
  match goal with |- context [unpin cfg k ?d (Some o) w1] => pose proof (unpin_out cfg Hps k d o n w1 (iv_sized _ _ Hi1) (iv_wf _ _ Hi1) Hh1) as H;
    destruct (unpin cfg k d (Some o) w1) as [[u|e] w2] end; cbn in H; [|done].
  cbn. split; [done|]. apply (kept_as cfg (lend (pool w1) k (take_back n o))); [|by eapply kept_trans].
  intros k'. unfold lend. case_decide as Hkk; [subst k'|by rewrite (st_held _ _ _ _ Hk); unfold lend; rewrite decide_False].
  unfold take_back. destruct Hn as [[-> ->]|Hn]; [done|]. rewrite Hn.
  destruct (holding_Some cfg _ _ _ _ (wp_table _ _ (iv_wf _ _ Hi)) Hn) as (_ & _ & _ & _ & Hge). by rewrite (proj2 (Z.eqb_neq _ _)) by lia.
Qed.

Lemma read_chunk_reads file index page_type t next chunk pic w : inv w → page_type = None ∨ page_type = Some t →
  shown w (file, index) = Some pic → is_chunk t next chunk pic →
  match read_chunk cfg file index page_type w with
  | (Ok r, w') => r = (chunk, next) ∧ steady w w'
  | (Err e, w') => fst (pin cfg (file, index) w) = Err e ∧ steady w w'
  end.
Proof using Hps PL SL.
  intros Hi Ht Hsh (Hpt & Hpn & Hpc). apply pinned_reads; [done|]. intros o n w1 Hi1 Hh1 Hsh1.
  destruct (held_shown cfg _ _ _ _ Hi1 Hh1) as (p & Hp & Hw & _ & Hshp). unfold get, gets, mbind, m_bind. rewrite Hp.
  assert (pic = picture p) as -> by (rewrite Hsh1 in Hshp; congruence). cbn in Hpt, Hpn, Hpc.
  rewrite bool_decide_eq_false_2.
  2:{ intros [Hsome Hne]. destruct Ht as [->| ->]; [by destruct Hsome|congruence]. }
  assert (slot_count p = 1) as Hcount.
  { unfold slot_count. enough (zlen (contents p) = 1) as H by (unfold contents, zlen in *; by rewrite length_fmap in H). by rewrite Hpc. }
  rewrite (proj2 (Z.ltb_ge _ _)) by lia. unfold lift. rewrite read_slot_agrees, Hpc by done. cbn. by rewrite Hpn.
Qed.

(** A pin of one of the pages raised. *)
Definition pin_refused (file : pystr) (indices : list Z) (w : World) (e : error) : Prop :=
  ∃ i w', i ∈ indices ∧ inv w' ∧ (∀ k, shown w' k = shown w k) ∧ fst (pin cfg (file, i) w') = Err e.

Lemma read_chain_from_reads file t page_type indices chunks rest : page_type = None ∨ page_type = Some t → NoDup indices → NO_PAGE ∉ indices →
  length chunks = length indices → ∀ position steps w, inv w → rest = drop position chunks → (length rest ≤ steps)%nat →
  linked (λ k, shown w k) file t indices 0 chunks →
  match read_chain_from cfg file page_type steps (reverse (take position indices)) (default NO_PAGE (indices !! position)) w with
  | (Ok got, w') => got = rest ∧ steady w w'
  | (Err e, w') => pin_refused file indices w e ∧ steady w w'
  end.
Proof using Hps PL SL.
  intros Ht Hnd Hno Hlen. induction rest as [|chunk rest IH]; intros position steps w Hi Hrest Hsteps Hl.
  - assert (indices !! position = None) as ->.
    { apply lookup_ge_None. rewrite <-Hlen. symmetry in Hrest. apply (f_equal length) in Hrest. rewrite length_drop in Hrest. cbn in Hrest. lia. }
    cbn [default]. destruct steps; cbn; (split; [done|by apply (inv_steady cfg)]).
  - assert (chunks !! position = Some chunk) as Hc.
    { rewrite <-(Nat.add_0_r position), <-lookup_drop, <-Hrest. done. }
    destruct (lookup_lt_is_Some_2 indices position) as [index Hix]; [rewrite <-Hlen; by eapply lookup_lt_Some|].
    rewrite Hix. change (default NO_PAGE (Some index)) with index. destruct steps as [|steps]; [cbn in Hsteps; lia|]. cbn [read_chain_from].
    destruct (Z.eqb_spec index NO_PAGE) as [->|_]; [destruct Hno; by eapply list_elem_of_lookup_2|].
    rewrite bool_decide_eq_false_2.
    2:{ rewrite elem_of_reverse, elem_of_take. intros (j & Hj & Hlt). assert (j = position) by (by eapply NoDup_lookup). lia. }
    destruct (Hl position index chunk Hix Hc) as (pic & Hsh & Hchunk).
    pose proof (read_chunk_reads file index page_type t _ chunk pic w Hi Ht Hsh Hchunk) as H. unfold mbind, m_bind.
    destruct (read_chunk cfg file index page_type w) as [[r|e] w1].
    2:{ destruct H as [He H]. split; [|done]. exists index, w. split; [by eapply list_elem_of_lookup_2|done]. }
    destruct H as [-> H1]. destruct (steady_view cfg w w1 Hi H1) as (Hi1 & _ & Hsh1). cbn [fst snd].
    assert (index :: reverse (take position indices) = reverse (take (S position) indices)) as ->.
    { by rewrite (take_S_r _ _ _ Hix), reverse_snoc. }
    change (next_of indices (0 + position)) with (default NO_PAGE (indices !! S position)).
    specialize (IH (S position) steps w1 Hi1). destruct (read_chain_from _ _ _ _ _ _ w1) as [[got|e] w2].
    + destruct IH as [-> H2].
      * by rewrite (drop_S _ _ _ Hc) in Hrest; injection Hrest.
      * cbn in Hsteps. lia.
      * intros i ix ch Hi' Hc'. destruct (Hl i ix ch Hi' Hc') as (pc & Hp & Hq). exists pc. split; [|done]. by rewrite <-Hp; apply Hsh1.
      * cbn. split; [done|]. by eapply (steady_trans cfg).
    + destruct IH as [(i & w' & Hin & Hi' & Hs' & He) H2].
      * by rewrite (drop_S _ _ _ Hc) in Hrest; injection Hrest.
      * cbn in Hsteps. lia.
      * intros i ix ch Hi' Hc'. destruct (Hl i ix ch Hi' Hc') as (pc & Hp & Hq). exists pc. split; [|done]. by rewrite <-Hp; apply Hsh1.
      * split; [|by eapply (steady_trans cfg)]. exists i, w'. split_and!; [done|done| |done]. intros k. rewrite Hs'. apply Hsh1.
Qed.

(** A chain is no longer than its file. *)
Lemma chain_length (n : Z) (indices : list Z) : NoDup indices → (∀ i, i ∈ indices → 0 <= i < n) → (length indices ≤ Z.to_nat n)%nat.
Proof using Type.
  intros Hnd Hr. rewrite <-(length_seqZ 0 n). apply submseteq_length, NoDup_submseteq; [done|]. intros i Hi. apply elem_of_seqZ.
  specialize (Hr i Hi). lia.
Qed.

Lemma chained_shown (S S' : place → option Picture) file t indices payload : (∀ i, i ∈ indices → S' (file, i) = S (file, i)) →
  chained S file t indices payload → chained S' file t indices payload.
Proof using Type.
  intros Hs (chunks & Hj & Hne & Hlen & Hnd & Hl). exists chunks. split_and!; try done. intros i index chunk Hix Hc.
  destruct (Hl i index chunk Hix Hc) as (pic & Hp & Hq). exists pic. split; [|done]. rewrite Hs; [done|]. by eapply list_elem_of_lookup_2.
Qed.

Lemma read_chain_reads file t page_type indices payload w : inv w → page_type = None ∨ page_type = Some t → NO_PAGE ∉ indices →
  chained (λ k, shown w k) file t indices payload →
  match read_chain cfg file (default NO_PAGE (head indices)) page_type w with
  | (Ok got, w') => got = payload ∧ steady w w'
  | (Err e, w') => (fst (page_count file (dev w)) = Err e ∨ pin_refused file indices w e) ∧ steady w w'
  end.
Proof using Hps PL SL.
  intros Hi Ht Hno (chunks & <- & Hne & Hlen & Hnd & Hl). unfold read_chain, mbind, m_bind.
  pose proof (page_count_out cfg Hps file w Hi) as Hc. unfold on_dev in Hc |- *.
  destruct (page_count file (dev w)) as [[count|e] d]; cbn in Hc |- *.
  2:{ split; [by left|by apply quiet_steady]. }
  destruct Hc as (Hq & _ & Hall). pose proof (quiet_steady cfg _ _ Hi Hq) as H1. set (w1 := MkWorld d (pool w)) in *.
  destruct (steady_view cfg w w1 Hi H1) as (Hi1 & _ & Hsh1).
  assert (∀ i, i ∈ indices → 0 <= i < count) as Hr.
  { intros i [j Hj]%list_elem_of_lookup. apply Hall. apply shown_image; [done|].
    destruct (lookup_lt_is_Some_2 chunks j) as [chunk Hchunk]; [rewrite Hlen; by eapply lookup_lt_Some|].
    destruct (Hl j i chunk Hj Hchunk) as (pic & -> & _). by eexists. }
  pose proof (chain_length count indices Hnd Hr) as Hlc.
  pose proof (read_chain_from_reads file t page_type indices chunks chunks Ht Hnd Hno Hlen 0 (Z.to_nat (count + 1)) w1 Hi1 eq_refl) as H.
  cbn [take reverse] in H. change (reverse (take 0 indices)) with ([] : list Z) in H. rewrite head_lookup.
  destruct (read_chain_from _ _ _ _ _ _ w1) as [[got|e] w2].
  - destruct H as [-> H2].
    + lia.
    + intros i ix ch Hix Hch. destruct (Hl i ix ch Hix Hch) as (pic & Hp & Hq'). exists pic. split; [|done]. rewrite <-Hp. apply Hsh1.
    + cbn. split; [done|]. by eapply (steady_trans cfg).
  - destruct H as [(i & w' & Hin & Hi' & Hs' & He) H2].
    + lia.
    + intros i ix ch Hix Hch. destruct (Hl i ix ch Hix Hch) as (pic & Hp & Hq'). exists pic. split; [|done]. rewrite <-Hp. apply Hsh1.
    + split; [right|by eapply (steady_trans cfg)]. exists i, w'. split_and!; [done|done| |done]. intros k. rewrite Hs'. apply Hsh1.
Qed.

(** *** Images of a chain *)

Lemma chain_image_Ok t index next chunk r : chain_image cfg t index next chunk = Ok r →
  r.1 = index ∧ ∃ pic, image_picture ps r.2 = Some pic ∧ is_chunk t next chunk pic.
Proof using Hps.
  unfold chain_image. intros H. inv_ok H. pose proof (make_Ok cfg Hps _ _ _ E) as (Hw & Hz & _ & Hp & _).
  assert (seq x = 0) as Hs by (unfold make in E; inv_ok E;
    repeat match goal with E : check_unsigned _ _ _ = Ok _ |- _ => apply check_unsigned_Ok in E as [-> _] end; by injection E as <-).
  assert ((p ← Page.set_next_page x next; Ok ((), p)) = Ok ((), x0)) as Hn by (by rewrite E0).
  assert (seq x0 = seq x) as Hs0 by (unfold set_next_page in E0; inv_ok E0; by injection E0 as <-).
  destruct (set_next_method next x () x0 Hw Hn) as (Hw0 & Hz0 & _). apply set_next_picture in Hn as (H1 & H2 & H3).
  destruct x1 as [slot p]. inv_ok H. injection H as <-. pose proof (insert_slot_method chunk x0 slot p Hw0 E1) as (Hwp & Hzp & _).
  apply insert_slot_picture in E1 as Hpic; [|done]. split; [done|]. exists (picture p). split.
  - apply (encoded_picture ps p x1); [done| |done].
    assert (seq p = seq x0) as -> by (unfold insert_slot, compact in E1; repeat case_match; try done; by injection E1 as _ <-).
    by rewrite Hs0, Hs.
  - rewrite Hpic. split_and!.
    + change (pic_type (picture x0) = t). by rewrite H1, Hp.
    + exact H2.
    + change (pic_contents (picture x0) ++ [Some chunk] = [Some chunk]). by rewrite H3, Hp.
Qed.

(** What shows wherever the images are. *)
Lemma build_chain_images_out file payload t reuse w : inv w →
  out (build_chain_images cfg file payload t reuse w)
    (λ images w', steady w w' ∧
       ∀ S : place → option Picture, (∀ i image, (i, image) ∈ images → S (file, i) = image_picture ps image) → chained S file t images.*1 payload)
    (λ w', steady w w').
Proof using Hps PL.
  intros Hi. unfold build_chain_images. pose proof (inv_steady cfg w Hi) as H0.
  apply (steady_then _ _ w w); [done|done|by apply reserved_header_steady|done|]. intros u1 w1 H1 Hi1.
  apply out_lift; [intros [] Hd|by auto]. apply require_distinct_from_Ok in Hd as [Hnd _].
  apply (steady_then _ _ w w1); [done|done|by apply chain_file_steady|done|]. intros u2 w2 H2 Hi2.
  apply (steady_then _ _ w w2); [done|done| |done|].
  { eapply out_weaken; [by apply (page_count_out cfg Hps)| |]; cbn; [intros n w' (Hq & _)|intros w' Hq]; by apply quiet_steady. }
  intros present w3 H3 Hi3. apply out_lift; [intros [] Hpresent|by auto]. apply out_lift; [intros capacity _|by auto].
  apply out_lift; [intros chunks Hsplit|by auto]. set (reused := take (length chunks) reuse).
  set (indices := reused ++ ((λ i, present + Z.of_nat i) <$> List.seq 0 (length chunks - length reused))).
  unfold lift. destruct (traverse _ _) as [images|e] eqn:Htr; [|done]. split; [done|]. intros S HS.
  pose proof (overflow_split_join payload capacity) as Hj. rewrite Hsplit in Hj. destruct Hj as (_ & Hj & Hne & _).
  assert (length chunks = length indices) as Hlen.
  { unfold indices. rewrite length_app, length_fmap, length_seq. unfold reused. rewrite length_take. lia. }
  apply traverse_Ok in Htr as Hall. pose proof (Forall2_length _ _ _ Hall) as Hlim. rewrite length_imap, length_zip_with in Hlim.
  assert (∀ j index chunk, indices !! j = Some index → chunks !! j = Some chunk → ∃ image, images !! j = Some (index, image) ∧
    ∃ pic, image_picture ps image = Some pic ∧ is_chunk t (next_of indices j) chunk pic) as Hat.
  { intros j index chunk Hix Hch.
    assert (imap pair (zip indices chunks) !! j = Some (j, (index, chunk))) as Hz.
    { rewrite list_lookup_imap, lookup_zip_with, Hix. cbn. by rewrite Hch. }
    destruct (Forall2_lookup_l _ _ _ _ _ Hall Hz) as ([i image] & Him & Hr). apply chain_image_Ok in Hr as (Hi' & pic & Hp & Hq). cbn in Hi'. subst i.
    exists image. split; [done|]. by exists pic. }
  assert (images.*1 = indices) as Hix.
  { apply list_eq_same_length with (length indices); [done|rewrite length_fmap; lia|]. intros j x y _ Hx Hy.
    rewrite list_lookup_fmap in Hx. destruct (lookup_lt_is_Some_2 chunks j) as [chunk Hch]; [rewrite Hlen; by eapply lookup_lt_Some|].
    destruct (Hat j y chunk Hy Hch) as (image & Him & _). rewrite Him in Hx. by injection Hx. }
  rewrite Hix. exists chunks. split_and!; try done.
  - unfold indices. apply NoDup_app. split; [by eapply sublist_NoDup, sublist_take|]. split.
    + intros i Hin (j & -> & _)%list_elem_of_fmap. apply subseteq_take in Hin. unfold require_present in Hpresent.
      case_match eqn:Hex; [done|]. apply not_true_iff_false in Hex. apply Hex, existsb_exists. eexists. split; [by apply list_elem_of_In|]. apply Z.leb_le. lia.
    + apply NoDup_fmap_2; [intros x y ?; lia|apply NoDup_seq].
  - intros j index chunk Hj' Hch. destruct (Hat j index chunk Hj' Hch) as (image & Him & pic & Hp & Hq). exists pic. split; [|done].
    rewrite (HS index image); [done|]. by eapply list_elem_of_lookup_2.
Qed.

Lemma write_chain_inv file payload t reuse w : inv w → kind_ok t →
  (∀ i, i ∈ reuse → is_Some (image_at ps (files (dev w)) (file, i))) → inv (write_chain cfg file payload t reuse w).2.
Proof using Hps PL SL.
  intros Hi Ht Hr. pose proof (write_chain_out file payload t reuse w Hi Ht Hr) as H.
  destruct (write_chain cfg file payload t reuse w) as [[indices|e] w1]; [destruct H as [_ H]|]; by eapply stepped_inv.
Qed.

Lemma flush_inv file w : inv w → inv (flush cfg file w).2.
Proof using Hps PL.
  intros Hi. pose proof (flush_out cfg Hps file w (iv_sized _ _ Hi) (iv_wf _ _ Hi)) as H.
  destruct (flush cfg file w) as [[n|e] w1]; cbn in H; [destruct H as [H _]|]; by apply (steady_view cfg w w1 Hi H).
Qed.
End chain.

(** C11: A chain that was written reads back its payload: whatever the pool and the device did in between, while
    its pages show what was written a read of it answers the payload, or raises because the page
    count or the pin of one of its pages did; it never answers anything else and never refuses the
    chain.  Writing it changes no other page of any file. *)
Theorem chain_roundtrip {Dev : Type} {SD : StorageDevice Dev} {SL : StorageLaws Dev} {PL : PageLaws Dev}
    (cfg : Config) (w w1 w2 : World) (file : pystr) (payload : bytes) (t : Z) (reuse indices : list Z) (page_type : option Z)
    (Hps : validate_page_size (page_bytes cfg) = Ok (page_bytes cfg)) (Hi : inv cfg w) (Hkind : kind_ok t)
    (Hreuse : ∀ i, i ∈ reuse → is_Some (image_at (page_bytes cfg) (files (dev w)) (file, i)))
    (Hwrite : write_chain cfg file payload t reuse w = (Ok indices, w1))
    (Hno : NO_PAGE ∉ indices) (Hi2 : inv cfg w2) (Hsame : ∀ i, i ∈ indices → shows (view cfg w2) (file, i) = shows (view cfg w1) (file, i))
    (Htype : page_type = None ∨ page_type = Some t) :
  (∀ k, (∀ i, i ∈ indices → k ≠ (file, i)) → shows (view cfg w1) k = shows (view cfg w) k) ∧
  let '(res, w3) := read_chain cfg file (default NO_PAGE (head indices)) page_type w2 in
  inv cfg w3 ∧ (∀ k, shows (view cfg w3) k = shows (view cfg w2) k) ∧
  match res with
  | Ok got => got = payload
  | Err e => fst (page_count file (dev w2)) = Err e ∨ pin_refused cfg file indices w2 e
  end.
Proof.
  pose proof (write_chain_out cfg Hps file payload t reuse w Hi Hkind Hreuse) as H. rewrite Hwrite in H. destruct H as [Hch H1].
  split; [intros k Hk; by apply (stepped_shown cfg _ _ _ _ k Hi H1)|].
  pose proof (read_chain_reads cfg Hps file t page_type indices payload w2 Hi2 Htype Hno) as H.
  specialize (H (chained_shown (λ k, shown_at _ _ _ k) (λ k, shown_at _ _ _ k) file t indices payload Hsame Hch)).
  destruct (read_chain _ _ _ _ w2) as [[got|e] w3]; destruct H as [Hr H3]; destruct (steady_view cfg w2 w3 Hi2 H3) as (Hi3 & _ & Hs3); done.
Qed.

(** ** Witnesses *)

Lemma ran {A B : Type} (x : result A * B) (a : A) : fst x = Ok a → x = (Ok a, x.2).
Proof. destruct x. cbn. by intros ->. Qed.

Definition long_payload : bytes := replicate 300 Byte.x61 ++ replicate 300 Byte.x62.

(** A chain of two pages after the page of [sample_world], in a pool of one page. *)
Definition chain_world : @World Memory.t := (write_chain sample_config heap long_payload 3 [] sample_world).2.
Definition later_world : @World Memory.t := (flush sample_config None chain_world).2.

Lemma later_inv : inv sample_config later_world.
Proof.
  unfold later_world, chain_world. apply (flush_inv sample_config eq_refl), (write_chain_inv sample_config eq_refl).
  - exact sample_inv.
  - unfold kind_ok, MAX_U16. lia.
  - intros i Hin. destruct (not_elem_of_nil _ Hin).
Qed.

Lemma later_shows i : i ∈ [1; 2] → shows (view sample_config later_world) (heap, i) = shows (view sample_config chain_world) (heap, i).
Proof.
  intros [->|[->|H]%elem_of_cons]%elem_of_cons.
  - vm_compute. reflexivity.
  - vm_compute. reflexivity.
  - destruct (not_elem_of_nil _ H).
Qed.

Lemma chain_roundtrip_witness :
  fst (read_chain sample_config heap 1 (Some 3) later_world) = Ok long_payload ∧
  (∀ k, (∀ i, i ∈ [1; 2] → k ≠ (heap, i)) → shows (view sample_config chain_world) k = shows (view sample_config sample_world) k) ∧
  let '(res, w3) := read_chain sample_config heap (default NO_PAGE (head [1; 2])) (Some 3) later_world in
  inv sample_config w3 ∧ (∀ k, shows (view sample_config w3) k = shows (view sample_config later_world) k) ∧
  match res with
  | Ok got => got = long_payload
  | Err e => fst (page_count heap (dev later_world)) = Err e ∨ pin_refused sample_config heap [1; 2] later_world e
  end.
Proof.
  split; [vm_compute; reflexivity|].
  assert (write_chain sample_config heap long_payload 3 [] sample_world = (Ok [1; 2], chain_world)) as H.
  { assert (fst (write_chain sample_config heap long_payload 3 [] sample_world) = Ok [1; 2]) as H by (vm_compute; reflexivity).
    unfold chain_world. exact (ran _ _ H). }
  assert (∀ i, i ∈ [] → is_Some (image_at (page_bytes sample_config) (files (dev sample_world)) (heap, i))) as Hr
    by (intros i Hin; destruct (not_elem_of_nil _ Hin)).
  assert (NO_PAGE ∉ [1; 2]) as Hno by (refine (bool_decide_unpack _ _); vm_compute; exact I).
  assert (kind_ok 3) as Hk by (unfold kind_ok, MAX_U16; lia).
  exact (chain_roundtrip sample_config sample_world chain_world later_world heap long_payload 3 [] [1; 2] (Some 3)
    eq_refl sample_inv Hk Hr H Hno later_inv later_shows (or_intror eq_refl)).
Defined.

(** A reuse list may name the page the file gets next.  [write_chain] takes it, is handed it again by
    the device, and writes both chunks to it: the chain it answers reads back short. *)
Theorem reuse_of_next_page :
  fst (on_dev (page_count heap) sample_world) = Ok 1 ∧
  fst (write_chain sample_config heap long_payload 3 [1] sample_world) = Ok [1; 1] ∧
  fst (read_chain sample_config heap 1 (Some 3) (write_chain sample_config heap long_payload 3 [1] sample_world).2)
    = Ok (drop 476 long_payload) ∧
  fst (build_chain_images sample_config heap long_payload 3 [1] sample_world) = raise GrafxCorruptionDetected "reuse".
Proof. vm_compute. split_and!; reflexivity. Qed.
