(* ===== verification/CommitRedo.v ===== *)
(** Committed redo of whole pages: src/src/okto_grafx/engine/commit_redo.py and [_apply_images] of
    src/src/okto_grafx/engine/txn_manager.py.

    The redo is that of a [CommitRedo] without an index manager, called without a checkpoint: it
    refuses index effects and effects on the journals.  [preflight] checks a replay and decodes its
    page writes, [coalesce_page_plan] leaves out images that later ones of the same page replace,
    [apply_pages] offers what is left to the pool, and [flush_files] puts the files on the device.
    What the schema catalog in the images says is an argument, [schema]. *)

From S2P Require Import Prelude Ids Layout Slotted SlottedCodec Utf8 WalRecord Recovery IndexChange PageRecord Storage BufferPool PageChain.

(** [_PreparedPageEffect], without the scope of its watermark. *)
Record PageEffect := MkPageEffect {
  redo_record : WalRecord;
  file : pystr;
  page_index : Z;
  image : bytes;
  page_lsn : Z
}.

Definition location (e : PageEffect) : place := (file e, page_index e).

(** The effects of a plan with the positions of their records in the replay. *)
Abbreviation Plan := (list (nat * PageEffect)).

(** *** The plan without what is replaced *)

(** [by_location]: the occurrences of each page, in the order of the plan. *)
Definition by_location (plan : Plan) : gmap place Plan :=
  foldl (λ m item, <[location item.2 := default [] (m !! location item.2) ++ [item]]> m) ∅ plan.

(** Log positions do not go back, and one position means one image. *)
Fixpoint safe_after (previous : PageEffect) (occurrences : Plan) : bool :=
  match occurrences with
  | [] => true
  | (_, current) :: occurrences =>
      if (page_lsn current <? page_lsn previous)
         || ((page_lsn current =? page_lsn previous) && negb (bool_decide (image current = image previous)))
      then false
      else safe_after current occurrences
  end.

(** The first position of a page that is written more than once, the effect that takes it, and the
    positions left out. *)
Definition reduced (occurrences : Plan) : option (nat * PageEffect * list nat) :=
  match occurrences with
  | (first, previous) :: ((_ :: _) as others) =>
      if safe_after previous others
      then Some (first, snd (List.last others (first, previous)), fst <$> others) else None
  | _ => None
  end.

(** The loop over the pages: what takes a position, and which positions go. *)
Definition reductions (occurrences : list Plan) : gmap nat PageEffect * gset nat :=
  foldl (λ '(replacements, skipped) occ,
    match reduced occ with
    | Some (first, effect, rest) => (<[first := effect]> replacements, skipped ∪ list_to_set rest)
    | None => (replacements, skipped)
    end) (∅, ∅) occurrences.

Definition coalesce_page_plan (plan : Plan) : Plan :=
  let '(replacements, skipped) := reductions (snd <$> map_to_list (by_location plan)) in
  omap (λ item : nat * PageEffect,
    if decide (item.1 ∈ skipped) then None else Some (item.1, default item.2 (replacements !! item.1))) plan.

(** First touches, in order. *)
Definition remember {K} `{EqDecision K} (touched : list K) (k : K) : list K :=
  if decide (k ∈ touched) then touched else touched ++ [k].

Definition touched_files (plan : Plan) : list pystr := foldl remember [] ((λ item : nat * PageEffect, file item.2) <$> plan).

Definition CATALOG_FILE : pystr := str "catalog.dat".

Record CommitRedoResult := MkRedoResult {
  effects_replayed : Z;
  page_effects_replayed : Z;
  page_images_applied : Z;
  index_effects_replayed : Z;
  index_effects_dispatched : Z;
  redo_last_committed_lsn : Z;
  redo_touched_files : list pystr
}.

Section redo.
Context {Dev : Type} {SD : StorageDevice Dev} {ZL : Zlib}.
Variable cfg : Config.
(** Whether the schema catalogs that the images of a replay carry may follow one another. *)
Variable schema : CommittedReplay → list (nat * PageEffect) → result ().
#[local] Abbreviation World := (@BufferPool.World Dev).

(** *** Preflight *)

Definition validate_page_image (index : Z) (image : bytes) : result Page.t :=
  decoded ← decode_page (page_bytes cfg) image; Page.set_page_index decoded index.

(** [simulated_page_counts.get], or what the device holds. *)
Definition present_pages (counts : gmap pystr Z) (file : pystr) : M World Z :=
  match counts !! file with
  | Some n => mret n
  | None => there ← on_dev (exists_ file); if (there : bool) then on_dev (page_count file) else mret 0
  end.

(** One page write: decoded, its target allowed, its image checked, its gap bridged. *)
Definition prepare_page (counts : gmap pystr Z) (r : WalRecord) : M World (PageEffect * gmap pystr Z) :=
  write ← lift (decode_page_write (WalRecord.payload r) (WalRecord.format_version r) (WalRecord.flags r));
  if bool_decide (write_file write ∈ COMMIT_CATALOG_PAGE_FILES) || bool_decide (write_file write = SYSTEM_HISTORY_FILE)
  then lift (raise GrafxRecoveryRefused "commit_catalog_replay")
  else if negb (is_redoable_page_file (write_file write)) then lift (raise GrafxRecoveryRefused "file")
  else
    decoded ← lift (validate_page_image (write_index write) (write_image write));
    present ← present_pages counts (write_file write);
    if present + MAX_REDO_GAP_PAGES <=? write_index write then lift (raise GrafxCorruptionDetected "page_index")
    else mret (MkPageEffect r (write_file write) (write_index write) (write_image write) (Page.page_lsn decoded),
               <[write_file write := Z.max present (write_index write + 1)]> counts).

(** [missing]: the first index effect, which no manager can take. *)
Fixpoint prepare_from (counts : gmap pystr Z) (missing : option Z) (position : nat) (effects : list WalRecord) : M World Plan :=
  match effects with
  | [] => match missing with Some _ => lift (raise GrafxRecoveryRefused "index_manager") | None => mret [] end
  | r :: effects =>
      if WalRecord.record_type r =? record_type_value WRITE_PAGE then
        prepared ← prepare_page counts r;
        plan ← prepare_from prepared.2 missing (S position) effects;
        mret ((position, prepared.1) :: plan)
      else if bool_decide (WalRecord.record_type r ∈ record_type_value <$> [INDEX_WRITE; INDEX_RECONCILE]) then
        _ ← lift (change_of r);
        prepare_from counts (Some (default (WalRecord.lsn r) missing)) (S position) effects
      else lift (raise GrafxRecoveryRefused "record_type")
  end.

Definition validate_native_catalog (replay : CommittedReplay) (prepared : Plan) : result () :=
  if bool_decide (commit_records replay = []) then Ok ()
  else if existsb (λ item : nat * PageEffect, bool_decide (file item.2 = CATALOG_FILE)) prepared then schema replay prepared
  else Ok ().

Definition preflight (replay : CommittedReplay) : M World Plan :=
  _ ← lift (validate_commit_boundaries replay);
  prepared ← prepare_from ∅ None 0 (effects replay);
  _ ← lift (validate_native_catalog replay prepared);
  mret prepared.

(** *** Applying *)

(** The loop over the effects: how many images were newer than their page. *)
Fixpoint apply_pages (plan : Plan) : M World Z :=
  match plan with
  | [] => mret 0
  | (_, e) :: plan =>
      applied ← apply_page_image cfg (file e) (page_index e) (image e) None;
      rest ← apply_pages plan;
      mret ((if applied : bool then 1 else 0) + rest)
  end.

Fixpoint flush_files (files : list pystr) : M World Z :=
  match files with
  | [] => mret 0
  | f :: files => n ← flush cfg (Some f); rest ← flush_files files; mret (n + rest)
  end.

(** The effects of a plan: the images applied, the files touched. *)
Definition apply_replay (prepared : Plan) : M World (Z * list pystr) :=
  let plan := coalesce_page_plan prepared in
  applied ← apply_pages plan; mret (applied, touched_files plan).

(** Without an index manager every effect that passes the preflight is a page, so that the plan may
    always be coalesced. *)
Definition apply (replay : CommittedReplay) : M World CommitRedoResult :=
  prepared ← preflight replay;
  done ← apply_replay prepared;
  mret (MkRedoResult (zlen (effects replay)) (zlen prepared) done.1 0 0 (last_committed_lsn replay) done.2).

Definition replay (records : list WalRecord) : M World CommitRedoResult :=
  selected ← lift (committed_replay records); apply selected.

(** [CommitRedo.flush]. *)
Definition flush_redo (r : CommitRedoResult) : M World Z := flush_files (redo_touched_files r).

(** *** The images of a commit *)

Fixpoint install_images (images : list (place * bytes)) : M World () :=
  match images with
  | [] => mret ()
  | (k, image) :: images => _ ← apply_page_image cfg k.1 k.2 image None; install_images images
  end.

Definition apply_images (images : list (place * bytes)) : M World () :=
  _ ← install_images images;
  _ ← flush_files (merge_sort str_le (elements (list_to_set ((λ im : place * bytes, im.1.1) <$> images) : gset pystr)));
  mret ().
End redo.
