(* ===== verification/RedoTheorems.v ===== *)
(** What committed redo does, on the store a pool stands for.

    An image takes its page when it is newer; a replay is a fold of that rule over its effects,
    whatever the pool evicts and writes meanwhile.  When log positions do not go back, only the last
    image of a page matters: leaving out the others changes nothing, and a replay may be resumed
    from whatever an earlier attempt left.  Together with the selection of [Recovery] this says what
    recovery makes of a log. *)

From S2P Require Import Prelude Ids Layout Slotted SlottedCodec Utf8 WalRecord Recovery IndexChange PageRecord Storage ControlRecord MemoryStorage BufferPool BufferTheorems BufferDoors BufferClient PageChain PageDoors ChainTheorems CommitRedo.

(** ** The fold *)

Section fold.
Abbreviation effect := (place * Picture)%type.
Implicit Types (l : list effect) (s : place → Picture).

(** What a replay says of one page. *)
Definition images_of (k : place) l : list Picture := snd <$> filter (λ e : effect, e.1 = k) l.

Lemma redo_at k l s : foldl redo s l k = foldl newer (s k) (images_of k l).
Proof.
  revert s. induction l as [|[k' p] l IH]; intros s; [done|]. cbn [foldl]. rewrite IH. unfold images_of, redo at 1. cbn [fst snd].
  rewrite filter_cons. cbn [fst]. repeat case_decide; subst; done.
Qed.

(** Log positions do not go back and one position is one image. *)
Definition before (p q : Picture) : Prop := pic_lsn p <= pic_lsn q ∧ (pic_lsn p = pic_lsn q → p = q).

#[export] Instance before_trans : Transitive before.
Proof.
  intros p q r [Hpq Hpq'] [Hqr Hqr']. split; [lia|]. intros Heq. assert (pic_lsn p = pic_lsn q) as H1 by lia.
  rewrite (Hpq' H1). apply Hqr'. lia.
Qed.

Definition ordered l : Prop := ∀ k, StronglySorted before (images_of k l).

Lemma covers_lsn a p q : before p q → covers_picture a q = true → covers_picture a p = true.
Proof. unfold covers_picture. intros [H _]. rewrite !andb_true_iff, !negb_true_iff, !Z.leb_le. intros [??]. split; [done|lia]. Qed.

Lemma newer_all a (l : list Picture) : Forall (λ p, covers_picture a p = true) l → foldl newer a l = a.
Proof. induction 1 as [|p l Hp _ IH]; [done|]. cbn. unfold newer at 2. by rewrite Hp. Qed.

Lemma newer_in a (l : list Picture) : foldl newer a l = a ∨ foldl newer a l ∈ l.
Proof.
  revert a. induction l as [|p l IH]; intros a; [by left|]. cbn. destruct (IH (newer a p)) as [->|H]; [|right; by right].
  unfold newer. case_match; [by left|right; by left].
Qed.

Lemma StronglySorted_last (l : list Picture) p : StronglySorted before (l ++ [p]) → ∀ q, q ∈ l → before q p.
Proof.
  induction l as [|x l IH]; intros Hs q Hq; [by apply not_elem_of_nil in Hq|]. cbn in Hs. apply StronglySorted_inv in Hs as [Hs Hx].
  apply elem_of_cons in Hq as [->|Hq]; [|by apply IH]. rewrite Forall_app, Forall_singleton in Hx. apply Hx.
Qed.

(** Of images in order the last one decides. *)
Lemma newer_last a (l : list Picture) p : StronglySorted before (l ++ [p]) → foldl newer a (l ++ [p]) = newer a p.
Proof.
  intros Hs. rewrite foldl_snoc. pose proof (StronglySorted_last _ _ Hs) as Hb. destruct (covers_picture a p) eqn:Hc.
  - rewrite newer_all; [done|]. apply Forall_forall. intros q Hq. by eapply covers_lsn; [apply Hb|].
  - assert (newer a p = p) as Hn by (unfold newer; by rewrite Hc). rewrite Hn.
    destruct (newer_in a l) as [->|Hin]; [done|]. pose proof (Hb _ Hin) as [Hle Heq].
    unfold newer at 1. destruct (covers_picture (foldl newer a l) p) eqn:Hc'; [|done]. apply Heq. unfold covers_picture in Hc'. apply andb_true_iff in Hc' as [_ ?%Z.leb_le]. lia.
Qed.

Lemma newer_covered a p : covers_picture a p = true → newer a p = a.
Proof. unfold newer. by intros ->. Qed.

Lemma images_of_app k l l' : images_of k (l ++ l') = images_of k l ++ images_of k l'.
Proof. unfold images_of. by rewrite filter_app, fmap_app. Qed.

(** What attempts at a replay of [l] from [s] that stopped anywhere may leave: every page is as it was,
    or says one of its images, if the last of them is due to it. *)
Definition reached s l s1 : Prop := ∀ k,
  s1 k = s k ∨ ∃ p, last (images_of k l) = Some p ∧ covers_picture (s k) p = false ∧ s1 k ∈ images_of k l.

Lemma reached_refl s l : reached s l s.
Proof. intros k. by left. Qed.

(** All images in order lead where they lead from the start. *)
Lemma reached_replay s l s1 k : ordered l → reached s l s1 → foldl newer (s1 k) (images_of k l) = foldl newer (s k) (images_of k l).
Proof.
  intros Ho Hs. specialize (Ho k). destruct (Hs k) as [->|(p & Hl & Hc & Hin)]; [done|].
  apply last_Some in Hl as [l' Hl]. rewrite Hl in *. rewrite !newer_last by done. unfold newer. rewrite Hc.
  destruct (covers_picture (s1 k) p) eqn:Hc1; [|done]. unfold covers_picture in Hc1. apply andb_true_iff in Hc1 as [_ Hle%Z.leb_le].
  apply elem_of_app in Hin as [Hin| ->%list_elem_of_singleton]; [|done]. destruct (StronglySorted_last _ _ Ho _ Hin) as [Hle' Heq].
  apply Heq. lia.
Qed.

(** Some of the images of a page leave what attempts leave. *)
Lemma reached_some s l s1 k (some : list Picture) : ordered l → reached s l s1 → some ⊆ images_of k l →
  foldl newer (s1 k) some = s k ∨
  ∃ p, last (images_of k l) = Some p ∧ covers_picture (s k) p = false ∧ foldl newer (s1 k) some ∈ images_of k l.
Proof.
  intros Ho Hs Hsub. specialize (Ho k). destruct (Hs k) as [->|(p & Hl & Hc & Hin)].
  - destruct (newer_in (s k) some) as [->|Hin]; [by left|]. apply Hsub in Hin as Hin'.
    destruct (images_of k l) as [|p l' _] eqn:Hk using rev_ind; [by apply not_elem_of_nil in Hin'|].
    destruct (covers_picture (s k) p) eqn:Hc; [left|right; exists p; by rewrite last_snoc].
    apply newer_all, Forall_forall. intros q Hq. apply Hsub, elem_of_app in Hq as [Hq| ->%list_elem_of_singleton]; [|done].
    eapply covers_lsn; [by apply (StronglySorted_last l')|done].
  - right. exists p. split; [done|]. split; [done|]. destruct (newer_in (s1 k) some) as [->|Hs']; [done|by apply Hsub].
Qed.
End fold.

(** ** The plan without what is replaced *)

Section plan.
Variable ps : Z.

(** What an effect writes. *)
Definition picture_in (raw : bytes) : Picture :=
  match decode_page ps raw with Ok q => picture q | Err _ => picture (blank ps (page_type_value FREE)) end.
Definition image_of (e : PageEffect) : Picture := picture_in (image e).
Definition effect_of (e : PageEffect) : place * Picture := (location e, image_of e).
Definition effects_of (plan : Plan) : list (place * Picture) := (λ item : nat * PageEffect, effect_of item.2) <$> plan.

(** An effect as the preflight makes it. *)
Definition prepared (e : PageEffect) : Prop := ∃ q, decode_page ps (image e) = Ok q ∧ page_lsn e = Page.page_lsn q.

Definition at_location (k : place) (plan : Plan) : Plan := filter (λ item : nat * PageEffect, location item.2 = k) plan.

Lemma images_of_effects k plan : images_of k (effects_of plan) = (λ item : nat * PageEffect, image_of item.2) <$> at_location k plan.
Proof.
  unfold images_of, effects_of, at_location. induction plan as [|item plan IH]; [done|]. rewrite fmap_cons, !filter_cons. cbn [fst effect_of].
  case_decide; [|done]. rewrite !fmap_cons. by f_equal.
Qed.

Lemma by_location_at k plan : default [] (by_location plan !! k) = at_location k plan ∧
  (is_Some (by_location plan !! k) → at_location k plan ≠ []).
Proof.
  unfold by_location. induction plan as [|item plan IH] using rev_ind; [cbn [foldl]; rewrite lookup_empty; by split; [|intros []]|].
  rewrite foldl_snoc. unfold at_location in *. rewrite filter_app, filter_cons, filter_nil.
  destruct IH as [IH1 IH2]. case_decide as Hk.
  - rewrite Hk, lookup_insert_eq. cbn. rewrite IH1. split; [done|]. by intros _ [_ ?]%app_nil.
  - rewrite lookup_insert_ne by done. rewrite app_nil_r. done.
Qed.

Lemma by_location_Some k plan occ : by_location plan !! k = Some occ → occ = at_location k plan.
Proof. intros H. destruct (by_location_at k plan) as [Hd _]. by rewrite H in Hd. Qed.

Lemma by_location_in item plan : item ∈ plan → by_location plan !! location item.2 = Some (at_location (location item.2) plan).
Proof.
  intros Hin. assert (item ∈ at_location (location item.2) plan) as Hat by (unfold at_location; by rewrite list_elem_of_filter).
  destruct (by_location_at (location item.2) plan) as [Hd _]. destruct (by_location plan !! _) as [occ|]; cbn in Hd; [by subst|].
  rewrite <-Hd in Hat. by apply not_elem_of_nil in Hat.
Qed.

(** *** The reductions *)

Lemma reduced_Some occ first e rest : reduced occ = Some (first, e, rest) →
  ∃ previous others, occ = (first, previous) :: others ∧ others ≠ [] ∧ safe_after previous others = true ∧
    rest = fst <$> others ∧ (∃ p, List.last others (first, previous) = (p, e)) ∧ List.last others (first, previous) ∈ others.
Proof.
  unfold reduced. destruct occ as [|[p0 prev] [|o others]]; [done..|]. case_match eqn:Hs; [|done]. intros [= <- <- <-].
  exists prev, (o :: others). split_and!; try done.
  - cbn [List.last]. eexists. apply surjective_pairing.
  - destruct (exists_last (l := o :: others)) as (l & x & Hl); [done|]. rewrite Hl, List.last_last. apply elem_of_app. right. by left.
Qed.

(** What the loop over the pages collects. *)
Lemma reductions_spec (occs : list Plan) :
  (∀ pos e, (reductions occs).1 !! pos = Some e → ∃ occ rest, occ ∈ occs ∧ reduced occ = Some (pos, e, rest)) ∧
  (∀ occ pos e rest, occ ∈ occs → reduced occ = Some (pos, e, rest) → is_Some ((reductions occs).1 !! pos)) ∧
  (∀ pos, pos ∈ (reductions occs).2 ↔ ∃ occ first e rest, occ ∈ occs ∧ reduced occ = Some (first, e, rest) ∧ pos ∈ rest).
Proof.
  induction occs as [|occ occs IH] using rev_ind.
  { unfold reductions. cbn. split_and!; [intros pos e; by rewrite lookup_empty|by intros ???? ?%not_elem_of_nil|].
    intros pos. split; [by intros ?%not_elem_of_empty|]. by intros (?&?&?&?& ?%not_elem_of_nil & _). }
  assert (reductions (occs ++ [occ]) = match reduced occ with
    | Some (first, effect, rest) => (<[first := effect]> (reductions occs).1, (reductions occs).2 ∪ list_to_set rest)
    | None => reductions occs end) as ->.
  { unfold reductions. rewrite foldl_snoc. by destruct (foldl _ _ occs). }
  destruct IH as (H1 & H2 & H3). destruct (reduced occ) as [[[first e] rest]|] eqn:Hr; cbn [fst snd]; split_and!.
  - intros pos e'. destruct (decide (pos = first)) as [->|Hne].
    + rewrite lookup_insert_eq. intros [= <-]. exists occ, rest. split; [set_solver|done].
    + rewrite lookup_insert_ne by done. intros (occ' & rest' & Hin & H)%H1. exists occ', rest'. split; [set_solver|done].
  - intros occ' pos e' rest' [Hin|Hin]%elem_of_app H; [|apply list_elem_of_singleton in Hin as ->].
    + destruct (H2 _ _ _ _ Hin H) as [x Hx]. destruct (decide (pos = first)) as [->|]; [rewrite lookup_insert_eq|rewrite lookup_insert_ne by done]; by eexists.
    + rewrite Hr in H. injection H as -> -> ->. rewrite lookup_insert_eq. by eexists.
  - intros pos. rewrite elem_of_union, elem_of_list_to_set, H3. split.
    + intros [(occ' & f & e' & r & Hin & Hr' & Hp)|Hp]; [|by exists occ, first, e, rest; set_solver].
      exists occ', f, e', r. set_solver.
    + intros (occ' & f & e' & r & [Hin|Hin]%elem_of_app & Hr' & Hp); [left; by exists occ', f, e', r|right].
      apply list_elem_of_singleton in Hin as ->. rewrite Hr in Hr'. by injection Hr' as -> -> ->.
  - intros pos e' H. destruct (H1 _ _ H) as (occ' & rest' & Hin & H'). exists occ', rest'. split; [set_solver|done].
  - intros occ' pos e' rest' [Hin|Hin]%elem_of_app H; [by eapply H2|]. apply list_elem_of_singleton in Hin as ->. congruence.
  - intros pos. rewrite H3. split.
    + intros (occ' & f & e' & r & Hin & Hr' & Hp). exists occ', f, e', r. set_solver.
    + intros (occ' & f & e' & r & [Hin|Hin]%elem_of_app & Hr' & Hp); [by exists occ', f, e', r|].
      apply list_elem_of_singleton in Hin as ->. congruence.
Qed.

Lemma filter_omap {A B : Type} (g : A → option B) (P : A → Prop) (P' : B → Prop) `{∀ x, Decision (P x)} `{∀ y, Decision (P' y)} (l : list A) :
  (∀ x y, x ∈ l → g x = Some y → P' y ↔ P x) → filter P' (omap g l) = omap g (filter P l).
Proof.
  induction l as [|x l IH]; intros Hg; [done|]. rewrite filter_cons. cbn [omap list_omap].
  assert (filter P' (omap g l) = omap g (filter P l)) as IH' by (apply IH; intros; apply Hg; [by right|done]).
  destruct (g x) as [y|] eqn:Hy.
  - pose proof (Hg x y ltac:(by left) Hy). rewrite filter_cons. repeat case_decide; try tauto; cbn; rewrite ?Hy; by f_equal.
  - case_decide; cbn; rewrite ?Hy; done.
Qed.

Lemma omap_same {A : Type} (g : A → option A) (l : list A) : (∀ x, x ∈ l → g x = Some x) → omap g l = l.
Proof. induction l as [|x l IH]; intros Hg; [done|]. cbn. rewrite Hg by by left. f_equal. apply IH. intros y Hy. apply Hg. by right. Qed.

Lemma omap_none {A B : Type} (g : A → option B) (l : list A) : (∀ x, x ∈ l → g x = None) → omap g l = [].
Proof. induction l as [|x l IH]; intros Hg; [done|]. cbn. rewrite Hg by by left. apply IH. intros y Hy. apply Hg. by right. Qed.

Section coalesce.
Variable plan : Plan.
Hypothesis Hpositions : NoDup (fst <$> plan).

Definition taken : gmap nat PageEffect * gset nat := reductions (snd <$> map_to_list (by_location plan)).
Definition outcome (item : nat * PageEffect) : option (nat * PageEffect) :=
  if decide (item.1 ∈ taken.2) then None else Some (item.1, default item.2 (taken.1 !! item.1)).

Lemma coalesce_outcome : coalesce_page_plan plan = omap outcome plan.
Proof using Type. unfold coalesce_page_plan, outcome, taken. by destruct (reductions _). Qed.

Lemma same_item (x y : nat * PageEffect) : x ∈ plan → y ∈ plan → x.1 = y.1 → x = y.
Proof using Hpositions.
  intros [i Hi]%list_elem_of_lookup [j Hj]%list_elem_of_lookup Heq.
  enough (i = j) as -> by congruence. eapply (NoDup_lookup _ _ _ x.1 Hpositions).
  - by rewrite list_lookup_fmap, Hi.
  - rewrite list_lookup_fmap, Hj. cbn. by rewrite Heq.
Qed.

Lemma at_location_in k item : item ∈ at_location k plan ↔ location item.2 = k ∧ item ∈ plan.
Proof using Type. unfold at_location. by rewrite list_elem_of_filter. Qed.

Lemma occurrence_values occ : occ ∈ snd <$> map_to_list (by_location plan) ↔ ∃ k, by_location plan !! k = Some occ.
Proof using Type.
  rewrite list_elem_of_fmap. split.
  - intros ([k o] & -> & Hin%elem_of_map_to_list). by exists k.
  - intros [k Hk]. exists (k, occ). split; [done|]. by apply elem_of_map_to_list.
Qed.

(** Only the occurrences of its own page decide over an effect. *)
Lemma skipped_iff item : item ∈ plan →
  item.1 ∈ taken.2 ↔ ∃ first e rest, reduced (at_location (location item.2) plan) = Some (first, e, rest) ∧ item.1 ∈ rest.
Proof using Hpositions.
  intros Hin. unfold taken. destruct (reductions_spec (snd <$> map_to_list (by_location plan))) as (_ & _ & ->). split.
  - intros (occ & first & e & rest & [k Hk]%occurrence_values & Hr & Hp). apply by_location_Some in Hk as ->.
    destruct (reduced_Some _ _ _ _ Hr) as (prev & others & Hocc & _ & _ & -> & _).
    apply list_elem_of_fmap in Hp as (item' & Heq & Hin').
    assert (item' ∈ at_location k plan) as Hat by (rewrite Hocc; by right). apply at_location_in in Hat as [Hk' Hp'].
    rewrite (same_item item item' Hin Hp' Heq), Hk'. exists first, e, (fst <$> others). split; [done|]. by apply list_elem_of_fmap_2.
  - intros (first & e & rest & Hr & Hp). exists (at_location (location item.2) plan), first, e, rest. split; [|done].
    apply occurrence_values. exists (location item.2). by apply by_location_in.
Qed.

Lemma taken_at item e : item ∈ plan →
  taken.1 !! item.1 = Some e ↔ ∃ rest, reduced (at_location (location item.2) plan) = Some (item.1, e, rest).
Proof using Hpositions.
  intros Hin. unfold taken. destruct (reductions_spec (snd <$> map_to_list (by_location plan))) as (H1 & H2 & _).
  assert (∀ e, (reductions (snd <$> map_to_list (by_location plan))).1 !! item.1 = Some e →
    ∃ rest, reduced (at_location (location item.2) plan) = Some (item.1, e, rest)) as Honly.
  { intros e' (occ & rest & [k Hk]%occurrence_values & Hr)%H1. apply by_location_Some in Hk as ->.
    destruct (reduced_Some _ _ _ _ Hr) as (prev & others & Hocc & _).
    assert ((item.1, prev) ∈ at_location k plan) as Hat by (rewrite Hocc; by left). apply at_location_in in Hat as [Hk' Hp'].
    assert (location item.2 = k) as -> by (by rewrite (same_item item (item.1, prev) Hin Hp' eq_refl)). by exists rest. }
  split; [apply Honly|]. intros [rest Hr].
  destruct (H2 (at_location (location item.2) plan) item.1 e rest) as [e' He']; [|done|].
  { apply occurrence_values. exists (location item.2). by apply by_location_in. }
  rewrite He'. destruct (Honly _ He') as [rest' Hr']. congruence.
Qed.

Lemma outcome_location item item' : item ∈ plan → outcome item = Some item' → location item'.2 = location item.2.
Proof using Hpositions.
  intros Hin. unfold outcome. case_decide; [done|]. intros [= <-]. cbn. destruct (taken.1 !! item.1) as [e|] eqn:He; [|done]. cbn.
  apply taken_at in He as [rest Hr]; [|done]. destruct (reduced_Some _ _ _ _ Hr) as (prev & others & Hocc & _ & _ & _ & [p Hl] & Hlin).
  rewrite Hl in Hlin. assert ((p, e) ∈ at_location (location item.2) plan) as Hat by (rewrite Hocc; by right).
  by apply at_location_in in Hat as [? _].
Qed.

(** Of a page the plan keeps everything, or the last image at the first position. *)
Lemma coalesce_at k : at_location k (coalesce_page_plan plan) =
  match reduced (at_location k plan) with Some (first, e, _) => [(first, e)] | None => at_location k plan end.
Proof using Hpositions.
  rewrite coalesce_outcome. unfold at_location at 1.
  rewrite (filter_omap outcome (λ item : nat * PageEffect, location item.2 = k) _).
  2:{ intros x y Hx Hy. by rewrite (outcome_location x y Hx Hy). }
  fold (at_location k plan). destruct (reduced (at_location k plan)) as [[[first e] rest]|] eqn:Hr.
  - destruct (reduced_Some _ _ _ _ Hr) as (prev & others & Hocc & _ & _ & -> & _).
    assert (∀ item, item ∈ at_location k plan → item ∈ plan ∧ location item.2 = k) as Hat by (intros item []%at_location_in; done).
    rewrite Hocc in Hat |- *. cbn [omap list_omap]. rewrite (omap_none outcome others).
    2:{ intros x Hx. destruct (Hat x ltac:(by right)) as [Hin Hk]. unfold outcome. rewrite decide_True; [done|].
        apply skipped_iff; [done|]. rewrite Hk. exists first, e, (fst <$> others). split; [done|]. by apply list_elem_of_fmap_2. }
    destruct (Hat (first, prev) ltac:(by left)) as [Hin Hk]. unfold outcome. rewrite decide_False.
    + rewrite (proj2 (taken_at (first, prev) e Hin)); [done|]. rewrite Hk. by exists (fst <$> others).
    + intros Hs. apply skipped_iff in Hs as (f' & e' & r' & Hr' & Hp); [|done]. rewrite Hk, Hr in Hr'. injection Hr' as -> -> <-.
      apply list_elem_of_fmap in Hp as (x & Hx & Hxo). destruct (Hat x ltac:(by right)) as [Hxin _].
      pose proof (same_item _ _ Hin Hxin Hx) as <-.
      assert (NoDup (at_location k plan)) as Hnd by (apply NoDup_filter; by eapply NoDup_fmap_1).
      rewrite Hocc in Hnd. apply NoDup_cons in Hnd as [Hnd _]. done.
  - apply omap_same. intros item [Hk Hin]%at_location_in. unfold outcome. rewrite decide_False.
    + destruct (taken.1 !! item.1) as [e|] eqn:He; [|by destruct item]. apply taken_at in He as [rest Hr']; [|done]. rewrite Hk in Hr'. congruence.
    + intros (f & e & r & Hr' & _)%skipped_iff; [|done]. rewrite Hk in Hr'. congruence.
Qed.

(** What is left out was preceded by the effect that takes its place. *)
Lemma skipped_preceded pre item suf : plan = pre ++ item :: suf → outcome item = None → at_location (location item.2) pre ≠ [].
Proof using Hpositions.
  intros Hplan Ho Hpre. assert (item ∈ plan) as Hin by (rewrite Hplan; set_solver).
  unfold outcome in Ho. case_decide as Hs; [|done]. apply skipped_iff in Hs as (f & e & r & Hr & Hp); [|done].
  destruct (reduced_Some _ _ _ _ Hr) as (prev & others & Hocc & _ & _ & -> & _).
  assert (at_location (location item.2) plan = item :: at_location (location item.2) suf) as Hat.
  { rewrite Hplan. unfold at_location in *. by rewrite filter_app, Hpre, app_nil_l, filter_cons, decide_True. }
  assert (NoDup (fst <$> at_location (location item.2) plan)) as Hnd.
  { unfold at_location. eapply sublist_NoDup; [exact Hpositions|]. apply fmap_sublist, sublist_filter. }
  rewrite Hat in Hocc, Hnd. injection Hocc as _ Hothers. rewrite Hothers, fmap_cons in Hnd. by apply NoDup_cons in Hnd as [Hnd _].
Qed.

Lemma remember_in {K : Type} `{EqDecision K} (acc l : list K) (k : K) : k ∈ acc → k ∈ foldl remember acc l.
Proof using Type.
  revert acc. induction l as [|x l IH]; intros acc Hk; [done|]. cbn. apply IH. unfold remember. case_decide; [done|]. apply elem_of_app. by left.
Qed.

(** First touches come in the same order. *)
Lemma coalesce_remembers {K : Type} `{EqDecision K} (h : place → K) :
  foldl remember [] ((λ item : nat * PageEffect, h (location item.2)) <$> coalesce_page_plan plan) =
  foldl remember [] ((λ item : nat * PageEffect, h (location item.2)) <$> plan).
Proof using Hpositions.
  rewrite coalesce_outcome.
  assert (∀ suf pre acc, plan = pre ++ suf → (∀ item, item ∈ pre → h (location item.2) ∈ acc) →
    foldl remember acc ((λ item : nat * PageEffect, h (location item.2)) <$> omap outcome suf) =
    foldl remember acc ((λ item : nat * PageEffect, h (location item.2)) <$> suf)) as Hgen; [|by apply (Hgen plan []); [|by intros ? ?%not_elem_of_nil]].
  induction suf as [|item suf IH]; intros pre acc Hplan Hacc; [done|]. cbn [omap list_omap fmap list_fmap foldl].
  assert (item ∈ plan) as Hin by (rewrite Hplan; set_solver).
  assert (plan = (pre ++ [item]) ++ suf) as Hplan' by (by rewrite <-app_assoc).
  destruct (outcome item) as [item'|] eqn:Ho.
  - cbn. rewrite (outcome_location _ _ Hin Ho). apply (IH (pre ++ [item])); [done|].
    intros x [Hx|Hx]%elem_of_app; [|apply list_elem_of_singleton in Hx as ->].
    + apply (remember_in _ [h (location item.2)]), Hacc, Hx.
    + unfold remember. case_decide; set_solver.
  - assert (h (location item.2) ∈ acc) as Hk.
    { pose proof (skipped_preceded _ _ _ Hplan Ho) as Hne. destruct (at_location (location item.2) pre) as [|x l] eqn:Hat; [done|].
      assert (x ∈ at_location (location item.2) pre) as Hx by (rewrite Hat; by left). unfold at_location in Hx.
      apply list_elem_of_filter in Hx as [Hx Hp]. rewrite <-Hx. by apply Hacc. }
    assert (remember acc (h (location item.2)) = acc) as -> by (unfold remember; by rewrite decide_True). apply (IH (pre ++ [item])); [done|].
    intros x [Hx|Hx]%elem_of_app; [by apply Hacc|]. by apply list_elem_of_singleton in Hx as ->.
Qed.
End coalesce.

Lemma prepared_lsn e : prepared e → pic_lsn (image_of e) = page_lsn e.
Proof. unfold prepared, image_of, picture_in. by intros (q & -> & ->). Qed.

Lemma prepared_before e e' : prepared e → prepared e' → page_lsn e <= page_lsn e' → (page_lsn e = page_lsn e' → image e = image e') →
  before (image_of e) (image_of e').
Proof.
  intros He He' Hle Heq. split; [by rewrite !prepared_lsn|]. rewrite !prepared_lsn by done. intros H. unfold image_of. by rewrite (Heq H).
Qed.

Lemma safe_sorted previous occurrences : prepared previous → Forall (λ item : nat * PageEffect, prepared item.2) occurrences →
  safe_after previous occurrences = true →
  StronglySorted before (image_of previous :: ((λ item : nat * PageEffect, image_of item.2) <$> occurrences)).
Proof.
  intros Hp Ho Hs. apply Sorted_StronglySorted; [exact before_trans|]. revert previous Hp Hs.
  induction Ho as [|[n current] occ Hc _ IH]; intros previous Hp Hs; [by repeat constructor|]. cbn in Hs, Hc |- *.
  case_match eqn:Hcase; [done|]. apply orb_false_iff in Hcase as [Hlt Heq]. constructor; [by apply IH|].
  constructor. apply prepared_before; [done|done|lia|]. intros Hl. apply andb_false_iff in Heq as [Heq|Heq]; [lia|].
  by apply negb_false_iff, bool_decide_eq_true in Heq.
Qed.

(** On the images of one page the reduced plan does what the whole one does. *)
Lemma coalesced_images plan k a : NoDup (fst <$> plan) → Forall (λ item : nat * PageEffect, prepared item.2) plan →
  foldl newer a (images_of k (effects_of (coalesce_page_plan plan))) = foldl newer a (images_of k (effects_of plan)).
Proof.
  intros Hpositions Hprepared. rewrite !images_of_effects, (coalesce_at plan Hpositions k).
  destruct (reduced (at_location k plan)) as [[[first e] rest]|] eqn:Hr; [|done].
  destruct (reduced_Some _ _ _ _ Hr) as (prev & others & Hocc & Hne & Hs & _ & [p Hl] & _).
  assert (Forall (λ item : nat * PageEffect, prepared item.2) ((first, prev) :: others)) as Hf.
  { rewrite <-Hocc. apply Forall_forall. intros x [_ Hx]%at_location_in. by apply (proj1 (Forall_forall _ _) Hprepared). }
  apply Forall_cons in Hf as [Hp Ho]. pose proof (safe_sorted _ _ Hp Ho Hs) as Hsorted. rewrite Hocc.
  destruct (exists_last Hne) as (l & x & ->). rewrite List.last_last in Hl. subst x.
  cbn [fmap list_fmap snd]. rewrite fmap_app. rewrite fmap_app in Hsorted. symmetry. by apply (newer_last _ (image_of prev :: _)).
Qed.

(** What the reduced plan does is in the plan. *)
Lemma coalesced_in plan item : NoDup (fst <$> plan) → item ∈ coalesce_page_plan plan → ∃ item', item' ∈ plan ∧ item'.2 = item.2.
Proof.
  intros Hpositions Hin. set (k := location item.2).
  assert (item ∈ at_location k (coalesce_page_plan plan)) as Hat by (by apply at_location_in).
  rewrite (coalesce_at plan Hpositions k) in Hat. destruct (reduced (at_location k plan)) as [[[first e] rest]|] eqn:Hr.
  - apply list_elem_of_singleton in Hat as ->. destruct (reduced_Some _ _ _ _ Hr) as (prev & others & Hocc & _ & _ & _ & [p Hl] & Hlin).
    rewrite Hl in Hlin. assert ((p, e) ∈ at_location k plan) as [_ Hpe]%at_location_in by (rewrite Hocc; by right).
    by exists (p, e).
  - apply at_location_in in Hat as [_ Hat]. by exists item.
Qed.

Lemma coalesced_prepared plan : NoDup (fst <$> plan) → Forall (λ item : nat * PageEffect, prepared item.2) plan →
  Forall (λ item : nat * PageEffect, prepared item.2) (coalesce_page_plan plan).
Proof.
  intros Hpositions Hp. apply Forall_forall. intros item (item' & Hin & <-)%coalesced_in; [|done]. by apply (proj1 (Forall_forall _ _) Hp).
Qed.

Lemma coalesced_some plan n k : NoDup (fst <$> plan) →
  images_of k (effects_of (take n (coalesce_page_plan plan))) ⊆ images_of k (effects_of plan).
Proof.
  intros Hpositions pic. rewrite !images_of_effects. intros (item & -> & Hin)%list_elem_of_fmap. apply at_location_in in Hin as [Hk Hin].
  apply subseteq_take in Hin. destruct (coalesced_in _ _ Hpositions Hin) as (item' & Hin' & Heq). rewrite <-Heq in Hk |- *.
  apply (list_elem_of_fmap_2 (λ item : nat * PageEffect, image_of item.2)). by apply at_location_in.
Qed.

(** C12: Leaving out images that later ones replace does not change a replay: from any state every page
    ends as the whole plan leaves it, and pages and files are touched for the first time in the same
    order. *)
Theorem coalesced_plan_same (plan : Plan) (s : place → Picture) (k : place)
    (Hpositions : NoDup (fst <$> plan)) (Hprepared : Forall (λ item : nat * PageEffect, prepared item.2) plan) :
  foldl redo s (effects_of (coalesce_page_plan plan)) k = foldl redo s (effects_of plan) k ∧
  foldl remember [] ((λ item : nat * PageEffect, location item.2) <$> coalesce_page_plan plan) =
    foldl remember [] ((λ item : nat * PageEffect, location item.2) <$> plan) ∧
  touched_files (coalesce_page_plan plan) = touched_files plan.
Proof.
  split; [|split; [by apply (coalesce_remembers plan Hpositions id)|by apply (coalesce_remembers plan Hpositions fst)]].
  rewrite !redo_at. by apply coalesced_images.
Qed.
End plan.

(** Everything that was offered is remembered. *)
Lemma remembered {K : Type} `{EqDecision K} (x : K) (l : list K) : x ∈ l → x ∈ foldl remember [] l.
Proof.
  induction l as [|y l IH] using rev_ind; [by intros ?%not_elem_of_nil|]. rewrite foldl_snoc. unfold remember.
  intros [Hx|Hx]%elem_of_app; case_decide; rewrite ?elem_of_app; try (left; by apply IH); try (by apply IH).
  - by apply list_elem_of_singleton in Hx as ->.
  - by right.
Qed.

(** ** Over a pool *)

Section redo.
Context {Dev : Type} {SD : StorageDevice Dev} {SL : StorageLaws Dev} {PL : PageLaws Dev} {ZL : Zlib}.
Variable cfg : Config.
Hypothesis Hps : validate_page_size (page_bytes cfg) = Ok (page_bytes cfg).
#[local] Abbreviation ps := (page_bytes cfg).
#[local] Abbreviation World := (@BufferPool.World Dev).
#[local] Abbreviation shown w := (shown_at ps (files (dev w)) (cached (pool w))).
#[local] Abbreviation held_in w := (holding (pool w)).
#[local] Abbreviation inv := (inv cfg).
#[local] Abbreviation stepped := (stepped cfg).
#[local] Abbreviation steady w w' := (kept cfg (holding (pool w)) w w').
#[local] Abbreviation said w := (said cfg w).
#[local] Abbreviation prepared := (prepared ps).
#[local] Abbreviation effects_of := (effects_of ps).

(** The images of [l] were offered. *)
Definition replayed (l : list (place * Picture)) (k : place) (a b : option Picture) : Prop :=
  says cfg b = foldl newer (says cfg a) (images_of k l) ∧ (k ∈ l.*1 ∨ is_Some a → is_Some b).

Lemma replayed_nil w w' file : stepped (grew cfg (λ k : place, k.1 = file)) (held_in w) w w' → stepped (replayed []) (held_in w) w w'.
Proof using Type.
  apply stepped_as; [|done]. intros k a b H. split; [by eapply grew_says|]. intros [?%not_elem_of_nil|Ha]; [done|by eapply grew_some].
Qed.

Lemma replayed_cons e l H w w1 w2 : stepped (redone cfg e) (held_in w) w w1 → stepped (replayed l) H w1 w2 → stepped (replayed (e :: l)) H w w2.
Proof using Type.
  intros H1 H2. refine (stepped_trans cfg (redone cfg e) (replayed l) (replayed (e :: l)) _ _ _ _ _ _ H1 H2).
  intros k a b c [Hab Hsab] [Hbc Hsbc]. split.
  2:{ cbn [fmap list_fmap]. rewrite elem_of_cons. tauto. }
  rewrite Hbc, Hab. change (e :: l) with ([e] ++ l). rewrite images_of_app, foldl_app. f_equal. unfold images_of. rewrite filter_cons, filter_nil. destruct e as [k' p]. cbn.
  repeat case_decide; try congruence; done.
Qed.

Lemma replayed_said l w w' : inv w → stepped (replayed l) (held_in w) w w' → ∀ k, said w' k = foldl redo (said w) l k.
Proof using Type. intros Hi Hs k. rewrite redo_at. apply (stepped_shown cfg _ _ _ _ k Hi Hs). Qed.

(** A plan over the pool is the fold over its effects; what raises has done a part of it. *)
Lemma apply_pages_out (plan : Plan) w : inv w → Forall (λ item : nat * PageEffect, prepared item.2) plan →
  out (apply_pages cfg plan w) (λ _ w', stepped (replayed (effects_of plan)) (held_in w) w w')
    (λ w', ∃ n, stepped (replayed (effects_of (take n plan))) (held_in w) w w').
Proof using Hps PL SL.
  intros Hi Hp. revert w Hi. induction Hp as [|[pos e] plan [q [Hq _]] Hp IH]; intros w Hi; cbn [apply_pages].
  { apply (replayed_nil _ _ []), kept_stepped; [by left|]. by apply (inv_steady cfg). }
  cbn [snd] in Hq. eapply out_bind; [by apply (apply_page_image_out cfg Hps)| |].
  2:{ intros w1 H1. exists 0%nat. by eapply replayed_nil. }
  intros b w1 (q' & Hq' & _ & H1). assert (q' = q) as -> by congruence. pose proof (stepped_inv cfg _ _ _ _ Hi H1) as Hi1.
  assert (effect_of ps e = ((file e, page_index e), picture q)) as He by (unfold effect_of, image_of, picture_in; by rewrite Hq).
  assert (∀ l w2, stepped (replayed l) (held_in w1) w1 w2 → stepped (replayed (effect_of ps e :: l)) (held_in w) w w2) as Hcons.
  { intros l w2 H2. rewrite He. apply (stepped_as cfg (replayed (((file e, page_index e), picture q) :: l)) _ (held_in w1)); [done| |].
    - intros k. by rewrite (sp_held _ _ _ _ _ H1).
    - by eapply replayed_cons. }
  eapply out_bind; [by apply IH| |].
  - intros n w2 H2. cbn. by apply Hcons.
  - intros w2 [n H2]. exists (S n). by apply Hcons.
Qed.

(** *** Preflight *)

Lemma present_pages_out counts file w : inv w →
  out (present_pages counts file w) (λ _ w', steady w w') (λ w', steady w w').
Proof using Hps PL.
  intros Hi. unfold present_pages. destruct (counts !! file); [by apply (inv_steady cfg)|].
  eapply out_bind; [exact (on_dev_out cfg _ _ _ w (exists_law file) (iv_sized _ _ Hi))| |].
  - intros b w1 (Hp & Hs & [[Hu _] _]). assert (steady w w1) as H1 by (by apply quiet_steady).
    destruct (steady_view cfg w w1 Hi H1) as (Hi1 & _). destruct b; [|done].
    eapply out_weaken; [by apply (page_count_out cfg Hps)| |]; cbn; [intros n w2 (Hq & _)|intros w2 Hq];
      (eapply (steady_trans cfg); [exact H1|by apply quiet_steady]).
  - intros w1 (Hp & Hs & [Hu _]). by apply quiet_steady.
Qed.

(** An effect of a plan and the record it was made of. *)
Record made (r : WalRecord) (e : PageEffect) : Prop := {
  mk_record : redo_record e = r;
  mk_type : WalRecord.record_type r = record_type_value WRITE_PAGE;
  mk_write : decode_page_write (WalRecord.payload r) (WalRecord.format_version r) (WalRecord.flags r) =
    Ok (MkPageWrite (file e) (page_index e) (image e));
  mk_target : is_redoable_page_file (file e) = true;
  mk_image : prepared e
}.

Lemma prepare_page_out counts r w : inv w → WalRecord.record_type r = record_type_value WRITE_PAGE →
  out (prepare_page cfg counts r w) (λ p w', steady w w' ∧ made r p.1) (λ w', steady w w').
Proof using Hps PL.
  intros Hi Ht. unfold prepare_page. apply out_lift; [intros x Hx|intros; by apply (inv_steady cfg)].
  case_match; [by apply (inv_steady cfg)|]. case_match eqn:Hr; [by apply (inv_steady cfg)|].
  apply out_lift; [intros q Hq|intros; by apply (inv_steady cfg)].
  eapply out_bind; [by apply present_pages_out| |done]. intros present w1 H1. case_match; [done|]. cbn. split; [done|].
  split; cbn; [done|done|by destruct x|by apply negb_false_iff|].
  unfold validate_page_image in Hq. inv_ok Hq. exists x0. split; [done|]. cbn.
  unfold Page.set_page_index in Hq. inv_ok Hq. by injection Hq as <-.
Qed.

(** The preflight changes nothing; what it lets pass are page writes, all of them. *)
Lemma prepare_from_out counts missing position effects w : inv w →
  out (prepare_from cfg counts missing position effects w)
    (λ plan w', steady w w' ∧ missing = None ∧ fst <$> plan = seq position (length effects) ∧
       Forall2 (λ r (item : nat * PageEffect), made r item.2) effects plan)
    (λ w', steady w w').
Proof using Hps PL.
  revert counts missing position w. induction effects as [|r effects IH]; intros counts missing position w Hi; cbn [prepare_from].
  { destruct missing; [by apply (inv_steady cfg)|]. split; [by apply (inv_steady cfg)|]. split_and!; [done|done|constructor]. }
  destruct (Z.eqb_spec (WalRecord.record_type r) (record_type_value WRITE_PAGE)) as [Ht|Ht].
  { eapply (out_bind _ _ _ _ (λ w', steady w w')); [by apply prepare_page_out| |done].
    intros p w1 [H1 Hm]. destruct (steady_view cfg w w1 Hi H1) as (Hi1 & _).
    eapply out_bind; [by apply IH| |intros w2 H2; by eapply (steady_trans cfg)].
    intros plan w2 (H2 & Hn & Hpos & Hf). cbn. split; [by eapply (steady_trans cfg)|]. split; [done|]. split; [by rewrite Hpos|]. by constructor. }
  case_match; [|by apply (inv_steady cfg)]. apply out_lift; [intros x Hx|intros; by apply (inv_steady cfg)].
  eapply out_weaken; [by apply IH| |done]. intros plan w1 (H1 & Hn & _). done.
Qed.

(** A preflight that lets a replay pass has a plan of all its effects. *)
Lemma preflight_out schema replay w : inv w →
  out (preflight cfg schema replay w)
    (λ plan w', steady w w' ∧ NoDup (fst <$> plan) ∧ Forall2 (λ r (item : nat * PageEffect), made r item.2) (effects replay) plan)
    (λ w', steady w w').
Proof using Hps PL.
  intros Hi. unfold preflight. apply out_lift; [intros _ _|intros; by apply (inv_steady cfg)].
  eapply out_bind; [by apply prepare_from_out| |done]. intros plan w1 (H1 & _ & Hpos & Hf).
  apply out_lift; [intros _ _|done]. cbn. split; [done|]. split; [rewrite Hpos; apply NoDup_seq|done].
Qed.

Lemma made_prepared effects (plan : Plan) : Forall2 (λ r (item : nat * PageEffect), made r item.2) effects plan →
  Forall (λ item : nat * PageEffect, prepared item.2) plan.
Proof using Type. induction 1 as [|r item effects plan H _ IH]; constructor; [apply H|done]. Qed.

(** *** The images of a commit *)

Definition image_effects (images : list (place * bytes)) : list (place * Picture) :=
  (λ im : place * bytes, (im.1, picture_in ps im.2)) <$> images.

Lemma install_images_out images w : inv w →
  out (install_images cfg images w)
    (λ _ w', Forall (λ im : place * bytes, ∃ q, decode_page ps im.2 = Ok q) images ∧ stepped (replayed (image_effects images)) (held_in w) w w')
    (λ w', ∃ n, stepped (replayed (image_effects (take n images))) (held_in w) w w').
Proof using Hps PL SL.
  revert w. induction images as [|[k im] images IH]; intros w Hi; cbn [install_images].
  { split; [done|]. apply (replayed_nil _ _ []), kept_stepped; [by left|]. by apply (inv_steady cfg). }
  cbn [fst snd]. eapply out_bind; [by apply (apply_page_image_out cfg Hps)| |].
  2:{ intros w1 H1. exists 0%nat. by eapply replayed_nil. }
  intros b w1 (q & Hq & _ & H1). pose proof (stepped_inv cfg _ _ _ _ Hi H1) as Hi1.
  assert (∀ l w2, stepped (replayed (image_effects l)) (held_in w1) w1 w2 → stepped (replayed (image_effects ((k, im) :: l))) (held_in w) w w2) as Hcons.
  { intros l w2 H2. apply (stepped_as cfg (replayed ((k, picture q) :: image_effects l)) _ (held_in w1)).
    - intros k' a c. enough (image_effects ((k, im) :: l) = (k, picture q) :: image_effects l) as -> by done.
      unfold image_effects. rewrite fmap_cons. f_equal. unfold picture_in. cbn [snd fst]. by rewrite Hq.
    - intros k'. by rewrite (sp_held _ _ _ _ _ H1).
    - eapply replayed_cons; [|done]. by destruct k. }
  eapply out_weaken; [by apply IH| |].
  - intros u w2 [Hf H2]. split; [constructor; [by exists q|done]|by apply Hcons].
  - intros w2 [n H2]. exists (S n). by apply Hcons.
Qed.

(** Flushing leaves no page of the files dirty and makes none dirty. *)
Lemma flush_files_out fs w : inv w →
  out (flush_files cfg fs w)
    (λ _ w', steady w w' ∧ ∀ k, resident_dirty (pool w') k = true → resident_dirty (pool w) k = true ∧ k.1 ∉ fs) (λ w', steady w w').
Proof using Hps PL.
  revert w. induction fs as [|f fs IH]; intros w Hi; cbn [flush_files].
  { split; [by apply (inv_steady cfg)|]. intros k Hk. split; [done|]. by apply not_elem_of_nil. }
  eapply (out_bind _ _ _ (λ _ w', steady w w' ∧ ∀ k, resident_dirty (pool w') k = true → resident_dirty (pool w) k = true ∧ k.1 ≠ f)
    (λ w', steady w w')); [| |done].
  { unfold flush. apply out_gets. eapply out_weaken; [apply (flush_pages_out cfg Hps); apply Hi| |done].
    intros n w1 [H1 Hc]. split; [done|]. intros k Hk. destruct (Hc k Hk) as [Hd Hn]. split; [done|]. intros Hf. apply Hn.
    apply elem_of_headers_last, in_file_candidates. split; [apply (resident_dirty_candidate cfg); [apply Hi|done]|]. by apply bool_decide_eq_true. }
  intros n w1 [H1 Hc]. destruct (steady_view cfg w w1 Hi H1) as (Hi1 & _).
  eapply out_bind; [by apply IH| |intros w2 H2; by eapply (steady_trans cfg)].
  intros m w2 [H2 Hc2]. cbn. split; [by eapply (steady_trans cfg)|]. intros k Hk. destruct (Hc2 k Hk) as [Hk1 Hn].
  destruct (Hc k Hk1) as [Hk0 Hf]. split; [done|]. by apply not_elem_of_cons.
Qed.

(** What was flushed is on the device. *)
Lemma flush_files_published fs w : inv w →
  out (flush_files cfg fs w)
    (λ _ w', inv w' ∧ same_holds (view cfg w) (view cfg w') ∧ same_shows (view cfg w) (view cfg w') ∧
       ∀ f i, f ∈ fs → device_picture ps (files (dev w')) (f, i) = shows (view cfg w') (f, i))
    (λ w', inv w' ∧ same_holds (view cfg w) (view cfg w') ∧ same_shows (view cfg w) (view cfg w')).
Proof using Hps PL.
  intros Hi. eapply out_weaken; [by apply flush_files_out| |intros w1 H1; by apply steady_view].
  intros n w1 [H1 Hc]. destruct (steady_view cfg w w1 Hi H1) as (Hi1 & Hh & Hs). split_and!; [done|done|done|].
  intros f i Hf. apply (clean_shown cfg); [apply Hi1|]. apply not_true_iff_false. by intros [_ Hn]%Hc.
Qed.

Lemma same_said w w' : same_shows (view cfg w) (view cfg w') → ∀ k, said w' k = said w k.
Proof using Type. intros H k. unfold PageDoors.said. f_equal. apply H. Qed.

(** *** A whole replay *)

Lemma reached_said s l w w' : (∀ k, said w' k = said w k) → reached s l (said w) → reached s l (said w').
Proof using Type. intros H Hs k. rewrite H. apply Hs. Qed.

(** The coalesced plan, applied where earlier attempts at the plan stopped. *)
Lemma apply_replay_out (plan : Plan) s w : inv w → NoDup (fst <$> plan) → Forall (λ item : nat * PageEffect, prepared item.2) plan →
  ordered (effects_of plan) → reached s (effects_of plan) (said w) →
  out (apply_replay cfg plan w)
    (λ r w', inv w' ∧ same_holds (view cfg w) (view cfg w') ∧ (∀ k, said w' k = foldl redo s (effects_of plan) k) ∧ r.2 = touched_files plan)
    (λ w', inv w' ∧ same_holds (view cfg w) (view cfg w') ∧ reached s (effects_of plan) (said w')).
Proof using Hps PL SL.
  intros Hi Hpositions Hprepared Ho Hs. unfold apply_replay. cbv zeta.
  eapply out_bind; [exact (apply_pages_out _ w Hi (coalesced_prepared _ _ Hpositions Hprepared))| |].
  - intros n w1 H. cbn. split; [exact (stepped_inv cfg _ _ _ _ Hi H)|]. split; [exact (sp_held _ _ _ _ _ H)|].
    split; [|by apply (coalesce_remembers plan Hpositions fst)]. intros k. rewrite (replayed_said _ _ _ Hi H), !redo_at.
    rewrite coalesced_images by done. by apply reached_replay.
  - intros w1 [n H]. split; [exact (stepped_inv cfg _ _ _ _ Hi H)|]. split; [exact (sp_held _ _ _ _ _ H)|]. intros k.
    rewrite (replayed_said _ _ _ Hi H), redo_at. apply reached_some; [done|done|by apply coalesced_some].
Qed.

(** The page write of a record, and those a log committed. *)
Definition page_write (r : WalRecord) : option PageWrite :=
  match decode_page_write (WalRecord.payload r) (WalRecord.format_version r) (WalRecord.flags r) with Ok x => Some x | Err _ => None end.
Definition page_writes (effects : list WalRecord) : list PageWrite :=
  omap page_write (filter (λ r, WalRecord.record_type r = record_type_value WRITE_PAGE) effects).
Definition write_effects (writes : list PageWrite) : list (place * Picture) :=
  (λ x, ((write_file x, write_index x), picture_in ps (write_image x))) <$> writes.

Lemma made_writes effects (plan : Plan) : Forall2 (λ r (item : nat * PageEffect), made r item.2) effects plan →
  page_writes effects = (λ item : nat * PageEffect, MkPageWrite (file item.2) (page_index item.2) (image item.2)) <$> plan.
Proof using Type.
  unfold page_writes. induction 1 as [|r item effects plan [_ Ht Hd _ _] _ IH]; [done|].
  rewrite filter_cons_True by done. cbn [omap list_omap fmap list_fmap]. unfold page_write at 1. rewrite Hd. by f_equal.
Qed.

Lemma made_effects effects (plan : Plan) : Forall2 (λ r (item : nat * PageEffect), made r item.2) effects plan →
  write_effects (page_writes effects) = effects_of plan ∧ foldl remember [] (write_file <$> page_writes effects) = touched_files plan ∧
  length (page_writes effects) = length effects ∧ length plan = length effects.
Proof using Type.
  intros H. rewrite (made_writes _ _ H). pose proof (Forall2_length _ _ _ H) as Hl. split_and!.
  - unfold write_effects, RedoTheorems.effects_of. rewrite <-list_fmap_compose. done.
  - unfold touched_files. by rewrite <-list_fmap_compose.
  - by rewrite length_fmap.
  - done.
Qed.

(** A replay of a log in order; what raises before the first image has changed nothing. *)
Lemma replay_out schema records s w : inv w → in_log_order records →
  ordered (write_effects (page_writes (committed_effects records))) →
  reached s (write_effects (page_writes (committed_effects records))) (said w) →
  out (replay cfg schema records w)
    (λ r w', inv w' ∧ same_holds (view cfg w) (view cfg w') ∧
       (∀ k, said w' k = foldl redo s (write_effects (page_writes (committed_effects records))) k) ∧
       length (page_writes (committed_effects records)) = length (committed_effects records) ∧ lineage records ∧
       redo_touched_files r = foldl remember [] (write_file <$> page_writes (committed_effects records)) ∧
       page_effects_replayed r = zlen (page_writes (committed_effects records)) ∧
       redo_last_committed_lsn r = last_committed_lsn (replay_of records))
    (λ w', inv w' ∧ same_holds (view cfg w) (view cfg w') ∧ reached s (write_effects (page_writes (committed_effects records))) (said w')).
Proof using Hps PL SL.
  intros Hi Horder Ho Hs. unfold replay. pose proof (committed_replay_spec records Horder) as Hrs.
  apply out_lift; [intros selected Hsel|intros e _; done]. rewrite Hsel in Hrs. destruct Hrs as [Hlin ->].
  unfold apply. eapply out_bind; [by apply preflight_out| |].
  2:{ intros w1 H1. destruct (steady_view cfg w w1 Hi H1) as (Hi1 & Hh & Hsh). split_and!; [done|done|].
      apply (reached_said _ _ w); [by apply same_said|done]. }
  intros plan w1 (H1 & Hpos & Hmade). change (Recovery.effects (replay_of records)) with (committed_effects records) in *.
  destruct (steady_view cfg w w1 Hi H1) as (Hi1 & Hh & Hsh). destruct (made_effects _ _ Hmade) as (He & Htouched & Hl & Hl').
  rewrite He in *. eapply out_bind.
  - apply (apply_replay_out plan s w1 Hi1 Hpos (made_prepared _ _ Hmade) Ho). apply (reached_said _ _ w); [by apply same_said|done].
  - intros [n touched] w2 (Hi2 & Hh2 & Hsaid & Ht). cbn in Ht |- *. split_and!; try done.
    + intros k. by rewrite Hh2, Hh.
    + by rewrite Ht.
    + unfold zlen. by rewrite Hl, Hl'.
  - intros w2 (Hi2 & Hh2 & Hr). split_and!; [done| |done]. intros k. by rewrite Hh2, Hh.
Qed.
End redo.

(** A replay may be interrupted and resumed any number of times: as long as the log positions of a page do
    not go back, an attempt at the coalesced plan, made where earlier attempts at the plan from a state [s]
    stopped anywhere, leaves such a place again when it raises; when it returns, every page is what all
    images of the plan in their order make of [s], and it answers all the files of the plan. *)
Theorem replay_resumes {Dev : Type} {SD : StorageDevice Dev} {SL : StorageLaws Dev} {PL : PageLaws Dev}
    (cfg : Config) (w : World) (plan : Plan) (s : place → Picture)
    (Hps : validate_page_size (page_bytes cfg) = Ok (page_bytes cfg)) (Hi : inv cfg w) (Hpositions : NoDup (fst <$> plan))
    (Hprepared : Forall (λ item : nat * PageEffect, prepared (page_bytes cfg) item.2) plan)
    (Hordered : ordered (effects_of (page_bytes cfg) plan)) (Hs : reached s (effects_of (page_bytes cfg) plan) (said cfg w)) :
  let '(res, w') := apply_replay cfg plan w in
  inv cfg w' ∧ (∀ k, holds (view cfg w') k = holds (view cfg w) k) ∧
  match res with
  | Ok (_, touched) => (∀ k, said cfg w' k = foldl redo s (effects_of (page_bytes cfg) plan) k) ∧ touched = touched_files plan
  | Err _ => reached s (effects_of (page_bytes cfg) plan) (said cfg w')
  end.
Proof.
  pose proof (apply_replay_out cfg Hps plan s w Hi Hpositions Hprepared Hordered Hs) as H.
  destruct (apply_replay cfg plan w) as [[[n touched]|e] w']; exact H.
Qed.

(** C9: Recovery redoes exactly what was committed.  From where earlier attempts at the log from a state [s]
    stopped anywhere, a replay of a log in order and the flush of its result leave, when they return,
    every page as the images of the committed transactions in log order make it of [s], and the device
    itself shows every page of the files they touch; every committed effect was a page write that was
    counted.  When they raise, they leave such a place again, and no pin has changed. *)
Theorem committed_redo_published {Dev : Type} {SD : StorageDevice Dev} {SL : StorageLaws Dev} {PL : PageLaws Dev} {ZL : Zlib}
    (cfg : Config) (schema : CommittedReplay → Plan → result ()) (w : World) (records : list WalRecord) (s : place → Picture)
    (Hps : validate_page_size (page_bytes cfg) = Ok (page_bytes cfg)) (Hi : inv cfg w) (Horder : in_log_order records)
    (Hordered : ordered (write_effects cfg (page_writes (committed_effects records))))
    (Hs : reached s (write_effects cfg (page_writes (committed_effects records))) (said cfg w)) :
  let writes := page_writes (committed_effects records) in
  let '(res, w') := (r ← replay cfg schema records; _ ← flush_redo cfg r; mret r) w in
  inv cfg w' ∧ (∀ k, holds (view cfg w') k = holds (view cfg w) k) ∧
  match res with
  | Ok r => (∀ k, said cfg w' k = foldl redo s (write_effects cfg writes) k) ∧
      (∀ x i, x ∈ writes → device_picture (page_bytes cfg) (files (dev w')) (write_file x, i) = shows (view cfg w') (write_file x, i)) ∧
      length writes = length (committed_effects records) ∧ lineage records ∧
      redo_touched_files r = foldl remember [] (write_file <$> writes) ∧ page_effects_replayed r = zlen writes ∧
      redo_last_committed_lsn r = last_committed_lsn (replay_of records)
  | Err _ => reached s (write_effects cfg writes) (said cfg w')
  end.
Proof.
  pose proof (replay_out cfg Hps schema records s w Hi Horder Hordered Hs) as H. cbv zeta. unfold mbind, m_bind.
  destruct (replay cfg schema records w) as [[r|e] w1]; cbn in H |- *; [|done].
  destruct H as (Hi1 & Hh & Hsaid & Hl & Hlin & Ht & Hn & Hc).
  pose proof (flush_files_published cfg Hps (redo_touched_files r) w1 Hi1) as Hf. unfold flush_redo.
  destruct (flush_files cfg (redo_touched_files r) w1) as [[n|e] w2]; cbn in Hf |- *.
  - destruct Hf as (Hi2 & Hh2 & Hs2 & Hd). split; [done|]. split; [intros k; exact (eq_trans (Hh2 k) (Hh k))|]. split_and!; try done.
    + intros k. by rewrite (same_said cfg w1 w2 Hs2).
    + intros x i Hx. apply Hd. rewrite Ht. apply remembered. by apply list_elem_of_fmap_2.
  - destruct Hf as (Hi2 & Hh2 & Hs2). split; [done|]. split; [intros k; exact (eq_trans (Hh2 k) (Hh k))|].
    apply (reached_said cfg _ _ w1); [by apply same_said|]. intros k. rewrite Hsaid, redo_at.
    by apply reached_some; [|apply reached_refl|].
Qed.

(** C10: The pages a commit applies are where other processes read them: when it returns every page is what the
    images in their order make of it, and the device itself shows every page of the files they touch;
    when it raises, some of the images were applied and nothing else was. *)
Theorem images_published {Dev : Type} {SD : StorageDevice Dev} {SL : StorageLaws Dev} {PL : PageLaws Dev}
    (cfg : Config) (w : World) (images : list (place * bytes))
    (Hps : validate_page_size (page_bytes cfg) = Ok (page_bytes cfg)) (Hi : inv cfg w) :
  let '(res, w') := apply_images cfg images w in
  inv cfg w' ∧ (∀ k, holds (view cfg w') k = holds (view cfg w) k) ∧
  match res with
  | Ok _ => (∀ k, said cfg w' k = foldl redo (said cfg w) (image_effects cfg images) k) ∧
      (∀ im, im ∈ images → is_Some (device_picture (page_bytes cfg) (files (dev w')) im.1)) ∧
      ∀ im i, im ∈ images → device_picture (page_bytes cfg) (files (dev w')) (im.1.1, i) = shows (view cfg w') (im.1.1, i)
  | Err _ => ∃ n, ∀ k, said cfg w' k = foldl redo (said cfg w) (image_effects cfg (take n images)) k
  end.
Proof.
  unfold apply_images. set (fs := merge_sort _ _). pose proof (install_images_out cfg Hps images w Hi) as H.
  unfold mbind, m_bind. destruct (install_images cfg images w) as [[u|e] w1]; cbn in H |- *.
  2:{ destruct H as [n H]. split; [by eapply stepped_inv|]. split; [exact (sp_held _ _ _ _ _ H)|]. exists n. by apply replayed_said. }
  destruct H as [Hf H]. pose proof (stepped_inv cfg _ _ _ _ Hi H) as Hi1.
  pose proof (flush_files_out cfg Hps fs w1 Hi1) as Hfl. destruct (flush_files cfg fs w1) as [[n|e] w2]; cbn in Hfl |- *.
  - destruct Hfl as [H2 Hc]. destruct (steady_view cfg w1 w2 Hi1 H2) as (Hi2 & Hh2 & Hs2).
    split; [done|]. split; [intros k; exact (eq_trans (Hh2 k) (sp_held _ _ _ _ _ H k))|].
    assert (∀ k, said cfg w2 k = foldl redo (said cfg w) (image_effects cfg images) k) as Hsaid.
    { intros k. rewrite <-(replayed_said cfg _ _ _ Hi H). unfold said. f_equal. apply Hs2. }
    assert (∀ im i, im ∈ images → device_picture (page_bytes cfg) (files (dev w2)) (im.1.1, i) = shows (view cfg w2) (im.1.1, i)) as Hdev.
    { intros im i Him. apply (clean_shown cfg); [apply Hi2|]. apply not_true_iff_false. intros [_ Hn]%Hc. apply Hn. cbn [fst].
      unfold fs. rewrite merge_sort_Permutation, elem_of_elements, elem_of_list_to_set.
      by apply (list_elem_of_fmap_2 (λ im : place * bytes, im.1.1)). }
    split; [done|]. split; [|done]. intros im Him. rewrite (surjective_pairing im.1), Hdev by done. rewrite (Hs2 _).
    apply (stepped_shown cfg _ _ _ _ (im.1.1, im.1.2) Hi H). left. unfold image_effects. rewrite <-list_fmap_compose.
    apply list_elem_of_fmap. exists im. by destruct im as [[??]?].
  - destruct (steady_view cfg w1 w2 Hi1 Hfl) as (Hi2 & Hh2 & Hs2). split; [done|].
    split; [intros k; exact (eq_trans (Hh2 k) (sp_held _ _ _ _ _ H k))|]. exists (length images). rewrite firstn_all. intros k.
    rewrite <-(replayed_said cfg _ _ _ Hi H). unfold said. f_equal. apply Hs2.
Qed.

(** The images of a chain are the chain: building them changes nothing, and wherever their pages show
    them, a read from the first of them answers the payload, or raises because the page count or the
    pin of one of its pages did. *)
Theorem built_chain_reads {Dev : Type} {SD : StorageDevice Dev} {SL : StorageLaws Dev} {PL : PageLaws Dev}
    (cfg : Config) (w w1 w2 : World) (file : pystr) (payload : bytes) (t : Z) (reuse : list Z) (images : list (Z * bytes))
    (page_type : option Z)
    (Hps : validate_page_size (page_bytes cfg) = Ok (page_bytes cfg)) (Hi : inv cfg w)
    (Hbuild : build_chain_images cfg file payload t reuse w = (Ok images, w1))
    (Hno : NO_PAGE ∉ images.*1) (Hi2 : inv cfg w2)
    (Hshown : ∀ i image, (i, image) ∈ images → shows (view cfg w2) (file, i) = image_picture (page_bytes cfg) image)
    (Htype : page_type = None ∨ page_type = Some t) :
  (∀ k, shows (view cfg w1) k = shows (view cfg w) k) ∧
  let '(res, w3) := read_chain cfg file (default NO_PAGE (head images.*1)) page_type w2 in
  inv cfg w3 ∧ (∀ k, shows (view cfg w3) k = shows (view cfg w2) k) ∧
  match res with
  | Ok got => got = payload
  | Err e => fst (page_count file (dev w2)) = Err e ∨ pin_refused cfg file images.*1 w2 e
  end.
Proof.
  pose proof (build_chain_images_out cfg Hps file payload t reuse w Hi) as H. rewrite Hbuild in H. destruct H as [H1 Hch].
  destruct (steady_view cfg w w1 Hi H1) as (_ & _ & Hs1). split; [done|].
  pose proof (read_chain_reads cfg Hps file t page_type images.*1 payload w2 Hi2 Htype Hno (Hch (λ k, shown_at _ _ _ k) Hshown)) as H.
  destruct (read_chain _ _ _ _ w2) as [[got|e] w3]; destruct H as [Hr H3]; destruct (steady_view cfg w2 w3 Hi2 H3) as (Hi3 & _ & Hs3); done.
Qed.

(** ** Witnesses *)

Definition sample_image (index lsn : Z) (content : bytes) : bytes :=
  match (p ← Page.make 2 512 index 0 0 0 NO_PAGE; p ← Page.set_page_lsn p lsn; '(_, p) ← Page.insert_slot p content; encode_page 512 p) with
  | Ok raw => raw
  | Err _ => []
  end.

Definition sample_write (lsn txn index : Z) (raw : bytes) : WalRecord :=
  WalRecord.Mk 2 (page_write_prefix (byte_of_Z <$> heap) index ++ raw) [] lsn 1 txn 0 1.
Definition sample_commit (lsn txn : Z) : WalRecord := WalRecord.Mk 3 [] [] lsn 1 txn 0 1.

(** Page 0 is written by two transactions, and a page that the file does not have yet; a third
    transaction never ends. *)
Definition sample_records : list WalRecord :=
  [sample_write 1 10 0 (sample_image 0 5 [Byte.x63]); sample_write 2 11 0 (sample_image 0 9 [Byte.x7a]);
   sample_write 3 10 2 (sample_image 2 5 [Byte.x64]); sample_commit 4 10;
   sample_write 5 12 0 (sample_image 0 7 [Byte.x65]); sample_commit 6 12].
Definition sample_plan : Plan :=
  [(0%nat, MkPageEffect (sample_write 1 10 0 (sample_image 0 5 [Byte.x63])) heap 0 (sample_image 0 5 [Byte.x63]) 5);
   (1%nat, MkPageEffect (sample_write 3 10 2 (sample_image 2 5 [Byte.x64])) heap 2 (sample_image 2 5 [Byte.x64]) 5);
   (2%nat, MkPageEffect (sample_write 5 12 0 (sample_image 0 7 [Byte.x65])) heap 0 (sample_image 0 7 [Byte.x65]) 7)].

Lemma sample_positions : NoDup (fst <$> sample_plan).
Proof. refine (bool_decide_unpack _ _). vm_compute. exact I. Qed.

Lemma sample_prepared : Forall (λ item : nat * PageEffect, prepared 512 item.2) sample_plan.
Proof.
  unfold sample_plan. repeat (apply List.Forall_cons; [eexists; split; [vm_compute; reflexivity|vm_compute; reflexivity]|]). apply List.Forall_nil.
Qed.

Lemma before_lt p q : pic_lsn p < pic_lsn q → before p q.
Proof. intros H. split; lia. Qed.

Lemma ordered_all (l : list (place * Picture)) :
  StronglySorted (λ e e' : place * Picture, e.1 = e'.1 → before e.2 e'.2) l → ordered l.
Proof.
  intros Hs k. unfold images_of. induction Hs as [|e l Hs IH Hf]; [constructor|]. rewrite filter_cons. case_decide as Hk; [|exact IH].
  rewrite fmap_cons. constructor; [exact IH|]. apply Forall_fmap, Forall_forall. intros e' [Hk' Hin]%list_elem_of_filter.
  apply (proj1 (Forall_forall _ _) Hf); [done|congruence].
Qed.

Lemma sample_ordered : ordered (effects_of 512 sample_plan).
Proof.
  apply ordered_all. unfold sample_plan, effects_of. cbn [fmap list_fmap snd]. repeat apply SSorted_cons; repeat apply List.Forall_cons; try apply List.Forall_nil; try apply SSorted_nil.
  - intros [=].
  - intros [=].
  - intros _. apply before_lt. vm_compute. reflexivity.
Qed.

Lemma coalesced_plan_same_witness :
  (λ item : nat * PageEffect, (item.1, location item.2, page_lsn item.2)) <$> coalesce_page_plan sample_plan =
    [(0%nat, (heap, 0), 7); (1%nat, (heap, 2), 5)] ∧
  ∀ s k, foldl redo s (effects_of 512 (coalesce_page_plan sample_plan)) k = foldl redo s (effects_of 512 sample_plan) k ∧
    foldl remember [] ((λ item : nat * PageEffect, location item.2) <$> coalesce_page_plan sample_plan) =
      foldl remember [] ((λ item : nat * PageEffect, location item.2) <$> sample_plan) ∧
    touched_files (coalesce_page_plan sample_plan) = touched_files sample_plan.
Proof.
  split; [vm_compute; reflexivity|]. intros s k. exact (coalesced_plan_same 512 sample_plan s k sample_positions sample_prepared).
Defined.

Lemma replay_resumes_witness :
  fst (apply_replay sample_config sample_plan sample_world) = Ok (2, [heap]) ∧
  let '(res, w') := apply_replay sample_config sample_plan sample_world in
  inv sample_config w' ∧ (∀ k, holds (view sample_config w') k = holds (view sample_config sample_world) k) ∧
  match res with
  | Ok (_, touched) => (∀ k, said sample_config w' k = foldl redo (said sample_config sample_world) (effects_of (page_bytes sample_config) sample_plan) k) ∧
      touched = touched_files sample_plan
  | Err _ => reached (said sample_config sample_world) (effects_of (page_bytes sample_config) sample_plan) (said sample_config w')
  end.
Proof.
  split; [vm_compute; reflexivity|].
  exact (replay_resumes sample_config sample_world sample_plan (said sample_config sample_world) eq_refl sample_inv sample_positions
    sample_prepared sample_ordered (reached_refl _ _)).
Defined.

Lemma sample_writes_ordered : ordered (write_effects sample_config (page_writes (ZL := run_zlib) (committed_effects sample_records))).
Proof.
  assert (write_effects sample_config (page_writes (ZL := run_zlib) (committed_effects sample_records)) = effects_of 512 sample_plan) as ->
    by (vm_compute; reflexivity).
  exact sample_ordered.
Qed.

Lemma sample_log_order : in_log_order sample_records.
Proof. unfold in_log_order, sample_records. repeat apply SSorted_cons; repeat apply List.Forall_cons; try apply List.Forall_nil; try apply SSorted_nil; cbn; reflexivity. Qed.

Definition sample_run : M (@World Memory.t) CommitRedoResult :=
  r ← replay (ZL := run_zlib) sample_config (λ _ _, Ok ()) sample_records; _ ← flush_redo sample_config r; mret r.

Lemma committed_redo_published_witness :
  fst (sample_run sample_world) = Ok (MkRedoResult 3 3 2 0 0 6 [heap]) ∧
  let writes := page_writes (ZL := run_zlib) (committed_effects sample_records) in
  let '(res, w') := sample_run sample_world in
  inv sample_config w' ∧ (∀ k, holds (view sample_config w') k = holds (view sample_config sample_world) k) ∧
  match res with
  | Ok r => (∀ k, said sample_config w' k = foldl redo (said sample_config sample_world) (write_effects sample_config writes) k) ∧
      (∀ x i, x ∈ writes → device_picture (page_bytes sample_config) (files (dev w')) (write_file x, i) = shows (view sample_config w') (write_file x, i)) ∧
      length writes = length (committed_effects sample_records) ∧ lineage sample_records ∧
      redo_touched_files r = foldl remember [] (write_file <$> writes) ∧ page_effects_replayed r = zlen writes ∧
      redo_last_committed_lsn r = last_committed_lsn (replay_of sample_records)
  | Err _ => reached (said sample_config sample_world) (write_effects sample_config writes) (said sample_config w')
  end.
Proof.
  split; [vm_compute; reflexivity|].
  exact (committed_redo_published (ZL := run_zlib) sample_config (λ _ _, Ok ()) sample_world sample_records (said sample_config sample_world)
    eq_refl sample_inv sample_log_order sample_writes_ordered (reached_refl _ _)).
Defined.

(** The images of a commit. *)
Definition sample_images : list (place * bytes) := [((heap, 0), sample_image 0 5 [Byte.x63]); ((heap, 2), sample_image 2 5 [Byte.x64])].

Lemma images_published_witness :
  fst (apply_images sample_config sample_images sample_world) = Ok () ∧
  let '(res, w') := apply_images sample_config sample_images sample_world in
  inv sample_config w' ∧ (∀ k, holds (view sample_config w') k = holds (view sample_config sample_world) k) ∧
  match res with
  | Ok _ => (∀ k, said sample_config w' k = foldl redo (said sample_config sample_world) (image_effects sample_config sample_images) k) ∧
      (∀ im, im ∈ sample_images → is_Some (device_picture (page_bytes sample_config) (files (dev w')) im.1)) ∧
      ∀ im i, im ∈ sample_images →
        device_picture (page_bytes sample_config) (files (dev w')) (im.1.1, i) = shows (view sample_config w') (im.1.1, i)
  | Err _ => ∃ n, ∀ k, said sample_config w' k = foldl redo (said sample_config sample_world) (image_effects sample_config (take n sample_images)) k
  end.
Proof.
  split; [vm_compute; reflexivity|]. exact (images_published sample_config sample_world sample_images eq_refl sample_inv).
Defined.

(** The images of a chain, and a world that shows them. *)
Definition built_images : list (Z * bytes) :=
  match fst (build_chain_images sample_config heap long_payload 3 [] sample_world) with Ok images => images | Err _ => [] end.
Definition built_world : @World Memory.t := (build_chain_images sample_config heap long_payload 3 [] sample_world).2.
Definition applied_world : @World Memory.t :=
  (apply_images sample_config ((λ im : Z * bytes, ((heap, im.1) : place, im.2)) <$> built_images) sample_world).2.

Lemma applied_inv : inv sample_config applied_world.
Proof.
  unfold applied_world. generalize ((λ im : Z * bytes, ((heap, im.1) : place, im.2)) <$> built_images). intros images.
  unfold apply_images. pose proof (install_images_out sample_config eq_refl images sample_world sample_inv) as H. unfold mbind, m_bind.
  destruct (install_images sample_config images sample_world) as [[u|e] w1]; cbn in H |- *.
  2:{ destruct H as [n H]. exact (stepped_inv sample_config _ _ _ _ sample_inv H). }
  destruct H as [_ H]. pose proof (stepped_inv sample_config _ _ _ _ sample_inv H) as Hi1.
  match goal with |- context [flush_files _ ?fs w1] => pose proof (flush_files_out sample_config eq_refl fs w1 Hi1) as Hf; destruct (flush_files _ fs w1) as [[n|e] w2] end;
    cbn in Hf |- *; [destruct Hf as [Hf _]|]; exact (proj1 (steady_view sample_config w1 w2 Hi1 Hf)).
Qed.

Lemma applied_shows i image : (i, image) ∈ built_images →
  shows (view sample_config applied_world) (heap, i) = image_picture (page_bytes sample_config) image.
Proof.
  assert (Forall (λ im : Z * bytes, shows (view sample_config applied_world) (heap, im.1) = image_picture (page_bytes sample_config) im.2) built_images) as H.
  { assert (∃ x y, built_images = [x; y] ∧ shows (view sample_config applied_world) (heap, x.1) = image_picture (page_bytes sample_config) x.2 ∧
      shows (view sample_config applied_world) (heap, y.1) = image_picture (page_bytes sample_config) y.2) as (x & y & -> & Hx & Hy).
    { eexists _, _. split; [vm_compute; reflexivity|]. split; vm_compute; reflexivity. }
    apply List.Forall_cons; [exact Hx|]. apply List.Forall_cons; [exact Hy|]. apply List.Forall_nil. }
  intros Hin. exact (proj1 (Forall_forall _ _) H (i, image) Hin).
Qed.

Lemma built_chain_reads_witness :
  fst (read_chain sample_config heap 1 (Some 3) applied_world) = Ok long_payload ∧
  (∀ k, shows (view sample_config built_world) k = shows (view sample_config sample_world) k) ∧
  let '(res, w3) := read_chain sample_config heap (default NO_PAGE (head built_images.*1)) (Some 3) applied_world in
  inv sample_config w3 ∧ (∀ k, shows (view sample_config w3) k = shows (view sample_config applied_world) k) ∧
  match res with
  | Ok got => got = long_payload
  | Err e => fst (page_count heap (dev applied_world)) = Err e ∨ pin_refused sample_config heap built_images.*1 applied_world e
  end.
Proof.
  split; [vm_compute; reflexivity|].
  assert (build_chain_images sample_config heap long_payload 3 [] sample_world = (Ok built_images, built_world)) as H.
  { assert (fst (build_chain_images sample_config heap long_payload 3 [] sample_world) = Ok built_images) as H by (vm_compute; reflexivity).
    unfold built_world. exact (ran _ _ H). }
  assert (NO_PAGE ∉ built_images.*1) as Hno by (refine (bool_decide_unpack _ _); vm_compute; exact I).
  exact (built_chain_reads sample_config sample_world built_world applied_world heap long_payload 3 [] built_images (Some 3)
    eq_refl sample_inv H Hno applied_inv applied_shows (or_intror eq_refl)).
Defined.
